(* ===== verification/_CoqProject ===== *)
-Q . S2P
Prelude.v
Capd.v
Reld.v
Manifold.v
Repd.v
Descriptor.v
Unify.v
UnifySolver.v
MemModel.v
Msg.v
StateVerify.v
ArenaBounds.v
InfoFlow.v
Session.v
LinearChannel.v
Arena.v
Digraph.v
ScgNode.v
Scg.v
ScgInv.v
ScgMerge.v
ScgPaths.v
Liveness.v
LivenessSound.v
LivenessCheck.v
LtTheory.v
Dominance.v
DomDfs.v
DomLoop.v
DomTree.v
DomQueries.v
DomSpec.v
LoopDetection.v
LoopDom.v
LoopSearch.v
LoopSpec.v
Regalloc.v
Ir.v
BvVerify.v
Float.v
Opt.v
IrSem.v
OptSound.v
Json.v
Egraph.v
UnionFind.v
EgraphSound.v
EgraphBound.v
EgraphPass.v
SyscallAbi.v
Riscv.v
RiscvSem.v
RiscvIsel.v
RiscvBits.v
RiscvSound.v
RiscvFun.v
RiscvRun.v
