(* ===== verification/Prelude.v ===== *)
(** * VUMA: the compiler's data model, checkers and passes

    A verification development of the VUMA compiler (the Rust crates under [src/src/]).
    It translates the core data types, the invariant checkers, the graph and memory
    models, the runtime arena, the register allocator and the intermediate
    representation with its local optimisations into Rocq functions, and proves what
    makes them correct.  Every definition follows the code: the guards, their order, the
    early returns, the texts of errors where the code builds them, and machine
    arithmetic.

    ** How the program is put together, and which file models which part

    A source program becomes a semantic computation graph ([src/src/scg/]) whose nodes
    carry behavioural descriptors ([src/src/bd/]); the memory model ([src/src/vuma/])
    records regions, derivations and accesses; the invariant engine ([src/src/ive/])
    checks the graph; the code generator ([src/src/codegen/]) lowers it to an
    intermediate representation, optimises, allocates registers and emits code that
    uses the runtime ([src/src/codegen/src/runtime/]).

    - Descriptors.  [Capd] (bd/capd.rs, context.rs), [Reld] (bd/reld.rs), [Repd]
      (bd/repd.rs), [Descriptor] (bd/descriptor.rs), [Unify] (bd/unify.rs) with its solver in
      [UnifySolver]: capabilities as a lattice resolved
      in a context, relations, representations with sizes and alignments and the layout
      registry, and the triple of the three.  [Manifold] (bd/manifold.rs): Z-order and
      Hilbert curves and the physical offsets of coordinates.
    - Memory model.  [MemModel] (vuma/address.rs, region.rs, derivation.rs, access.rs,
      sync.rs, program_point.rs) and [Msg] (vuma/msg.rs): the values, then the four
      tables of the memory-state graph over them.
    - Checkers.  [StateVerify] (ive/state_read.rs, state_write.rs, state_transform.rs),
      [ArenaBounds] (ive/arena_bounds.rs), [InfoFlow] (ive/information_flow.rs),
      [Session] (ive/session_type.rs), [LinearChannel] (ive/borrow_region.rs).  Each is
      proved against a specification of its own that does not mention the checker.
    - Graphs.  [Digraph] (scg/digraph.rs): the slot-based directed graph, its traversals.
      [ScgNode] (scg/node.rs, edge.rs, region.rs): what nodes, edges and regions carry.
      [Scg] (scg/graph.rs): the graph of a program over a directed graph, with its tables of
      identifiers, validation and merging.  [ScgInv]: its invariant; [ScgMerge]: histories and
      merging; [ScgPaths]: traversals and validation in terms of identifiers.  [Liveness]
      (scg/liveness.rs): the data-flow analysis and its checks; [LivenessSound]: its loop, for
      any use sets and successors; [LivenessCheck]: the analysis and the checks on a graph.
      [Dominance] (scg/dominance.rs): dominator trees by the algorithm of Lengauer and Tarjan,
      and the queries on them; [LtTheory]: the graph theory of the algorithm, on numbers;
      [DomDfs], [DomLoop]: its search and its main loops against that theory; [DomTree]: what a
      dominator tree promises in terms of paths; [DomQueries], [DomSpec]: the queries, and the
      results on the graphs of [Scg].  [LoopDetection]
      (scg/loop_detection.rs): natural loops of any control-flow graph, with dominators computed
      by iteration; [LoopDom]: the iteration; [LoopSearch]: reachability and reverse postorder;
      [LoopSpec]: back edges, bodies and exits, and the two dominator algorithms compared.
    - Runtime.  [Arena] (codegen/runtime/): the bump arena, in both settings of its
      runtime checks, next to the extracted allocator and its mirror.
    - Code generation.  [Regalloc] (codegen/regalloc.rs, target_desc.rs): the linear-scan
      allocator with spilling and eviction, and the register files of three targets.
      [Ir] (codegen/ir.rs): types, instructions, functions, the control-flow sets.
      [BvVerify] (codegen/bv_verify.rs): the exhaustive check of rewrite rules, and the
      integer folders of opt.rs.  [Float]: the floating-point words that folding needs,
      over the Standard Library's specification of IEEE 754.  [Opt] (codegen/opt.rs):
      substitution, folding, common subexpressions, dead code.  [IrSem]: what a function
      of the IR computes, over a class of machines.  [OptSound]: the passes against it.
    - [Egraph] (codegen/egraph.rs, proof_artifacts.rs, the pass of opt.rs): e-nodes, the
      e-graph, the rewrite rules, saturation, extraction, the proof log.  [UnionFind]: its
      links as a forest.  [EgraphSound]: models of a graph, and that every step keeps them.
      [EgraphBound]: its size, and congruence.  [EgraphPass]: the pass over a block.
    - [SyscallAbi] (codegen/syscall_abi.rs): the numbers of system calls on each target.
    - The RISC-V 64 back end (codegen/riscv64/mod.rs).  [Riscv]: registers, instructions,
      encoder and decoder.  [RiscvIsel]: the instructions selected for each operation, with
      the registers of the function in stack slots.  [RiscvFun]: frame layout, prologue and
      epilogue, the code of a function, the repair of its branches.  [RiscvSem]: what the
      instructions do, from the instruction set's manual.  [RiscvBits]: the arithmetic of the
      bit count.  [RiscvSound]: each selection against the semantics.  [RiscvRun]: a whole compiled function against [IrSem].
    - Support.  [Json] (json_value.rs): JSON values, their printers and their parser.

    ** What the theorems show

    - Safety of memory: the blocks an arena hands out are aligned, inside it and disjoint;
      the state and arena checkers accept only accesses inside their layouts; two
      intervals that are live together never share a register or a spill slot.
    - Protocols: the session and linear-channel checkers accept exactly the event
      sequences their step relations allow; duality; an accepted program can be continued
      to completion exactly when its open protocols can be finished.
    - Structure: invariants of the graph, the memory-state graph and the layout registry
      are kept by every operation; topological order, reachability, control-flow sets; merging
      of graphs; liveness of values as reachability of uses; dominators, by either of
      two algorithms, and natural loops in terms of paths.
    - Algebra: meets, joins and widening of capabilities; composition of descriptors;
      round trips of the space-filling curves.
    - Text: a JSON value printed either way is read back as the same value; the parser
      always ends.
    - Passes: constant folding and common-subexpression elimination keep the meaning of
      functions in static single assignment form and dead-code elimination keeps completed
      runs, separately and in sequence; the rewrite rules are sound on bytes and on words,
      and equality saturation with them keeps the equations of a block.
    - Compilation: the RISC-V code of a function of scalar operations and branches computes
      what its intermediate representation does, keeps the registers the calling convention
      asks for and returns; frames are laid out apart; encoding and decoding agree.
    - Errors: where the code does not do what it means to, a theorem with a concrete input
      shows it; the manifest lists these findings.

    ** Conventions

    - [outcome]: a Rust computation that may panic; [Panic] is every abnormal end.
      [result]: Rust's [Result]; [option]: [Option].
    - [chk]: arithmetic on machine integers panics on overflow in a build with overflow
      checks and wraps otherwise; the operations that can overflow take the build's switch
      as an argument and the theorems say for which builds they hold.
    - A [HashMap] or [HashSet] is a [gmap] or [gset].  Where the code walks one, the order
      of the walk is an argument (an enumeration of the map), and theorems hold for each.
    - A [while] loop runs on fuel where its recursion is not structural.  The fuel given
      is a measure of the input (slots of a graph, bits of a word) and a theorem shows
      that it is enough; loops that may not end in the source ([MemModel]) return [None]
      when the fuel ends, and a theorem says when that happens for every fuel.
    - The semantics of [IrSem] bounds the number of blocks entered; the theorems about
      passes keep the bound, so they hold for each.  The run of a compiled function is a
      sequence of steps of the machine of any finite length.

    ** Not modelled

    - Of the RISC-V 64 back end the arm for calls, which inlines about a hundred built-ins
      of the channels and is a parameter of the model, the register-based emitter behind
      its switch, the runtime stubs and the executable image.
    - The parser, the lowering of the graph to the IR, instruction selection and encoding
      for the other targets, object files, the driver and the command line, the
      language server and the interactive shell: large and mostly table-driven or input
      and output.
    - Inlining, the loop passes, scheduling and the whole-program passes of the optimiser;
      the call graph, the difference and the rewriting of graphs; the package manager and
      the inference of descriptors.
    - Serialisation derives, raw pointers and foreign calls, threads and locks. *)

From stdpp Require Export base decidable countable option list strings gmap pretty numbers.
From stdpp Require Export fin_maps fin_sets.
From stdpp Require Import sorting.
From stdpp Require Import options.

#[local] Open Scope Z_scope.

(** ** Outcomes

    A Rust computation that may panic.  [Panic] stands for every abnormal end
    the sources rely on: an arithmetic overflow in a build with overflow
    checks, an index out of range, an [assert!], an [unwrap] of [None] or a
    process exit. *)
Inductive outcome (A : Type) : Type :=
  | Ret (a : A)
  | Panic.
Arguments Ret {A} _.
Arguments Panic {A}.

#[export] Instance outcome_ret : MRet outcome := @Ret.
#[export] Instance outcome_bind : MBind outcome := λ A B f m,
  match m with Ret a => f a | Panic => Panic end.
#[export] Instance outcome_fmap : FMap outcome := λ A B f m,
  match m with Ret a => Ret (f a) | Panic => Panic end.

(** Rust's [Result]. *)
Inductive result (A E : Type) : Type :=
  | Ok (a : A)
  | Err (e : E).
Arguments Ok {A E} _.
Arguments Err {A E} _.

Definition is_ok {A E} (r : result A E) : bool :=
  match r with Ok _ => true | Err _ => false end.

(** ** Machine integers

    A [u64] is a [Z] in [0 .. 2^64 - 1], an [i64] a [Z] in
    [-2^63 .. 2^63 - 1].  The operators [+], [-] and [*] of the sources panic
    on overflow when the build has overflow checks ([chk = true], the debug
    and test profiles) and wrap around otherwise (the release profiles), so
    they take the build's switch as an argument. *)
Definition U32_MAX : Z := 2 ^ 32 - 1.
Definition U64_MAX : Z := 2 ^ 64 - 1.
Definition U64_MOD : Z := 2 ^ 64.

Definition is_u64 (z : Z) : Prop := 0 ≤ z < 2 ^ 64.
Definition is_u32 (z : Z) : Prop := 0 ≤ z < 2 ^ 32.
Definition is_i64 (z : Z) : Prop := - 2 ^ 63 ≤ z < 2 ^ 63.

#[export] Instance is_u64_dec z : Decision (is_u64 z).
Proof. unfold is_u64. apply _. Defined.
#[export] Instance is_u32_dec z : Decision (is_u32 z).
Proof. unfold is_u32. apply _. Defined.
#[export] Instance is_i64_dec z : Decision (is_i64 z).
Proof. unfold is_i64. apply _. Defined.

Definition wrap64 (z : Z) : Z := z `mod` 2 ^ 64.
Definition wrap32 (z : Z) : Z := z `mod` 2 ^ 32.

(** The bitwise complement of a [u64]. *)
Definition not64 (z : Z) : Z := U64_MAX - z.

(** The two's complement reading of a [u64] as an [i64] ([x as i64]). *)
Definition as_i64 (z : Z) : Z :=
  let w := wrap64 z in if w <? 2 ^ 63 then w else w - 2 ^ 64.

Definition as_i32 (z : Z) : Z :=
  let w := wrap32 z in if w <? 2 ^ 31 then w else w - 2 ^ 32.

Definition u64_of (chk : bool) (z : Z) : outcome Z :=
  if decide (is_u64 z) then Ret z else if chk then Panic else Ret (wrap64 z).
Definition u64_add (chk : bool) (a b : Z) : outcome Z := u64_of chk (a + b).
Definition u64_sub (chk : bool) (a b : Z) : outcome Z := u64_of chk (a - b).
Definition u64_mul (chk : bool) (a b : Z) : outcome Z := u64_of chk (a * b).

Definition i64_of (chk : bool) (z : Z) : outcome Z :=
  if decide (is_i64 z) then Ret z else if chk then Panic else Ret (as_i64 z).
Definition i64_sub (chk : bool) (a b : Z) : outcome Z := i64_of chk (a - b).
Definition i64_neg (chk : bool) (a : Z) : outcome Z := i64_of chk (- a).

Definition u32_of (chk : bool) (z : Z) : outcome Z :=
  if decide (is_u32 z) then Ret z else if chk then Panic else Ret (wrap32 z).
Definition u32_add (chk : bool) (a b : Z) : outcome Z := u32_of chk (a + b).
Definition u32_mul (chk : bool) (a b : Z) : outcome Z := u32_of chk (a * b).

Definition is_i32 (z : Z) : Prop := - 2 ^ 31 ≤ z < 2 ^ 31.
#[export] Instance is_i32_dec z : Decision (is_i32 z).
Proof. unfold is_i32. apply _. Defined.
Definition i32_of (chk : bool) (z : Z) : outcome Z :=
  if decide (is_i32 z) then Ret z else if chk then Panic else Ret (as_i32 z).

(** The library methods that do not depend on the build. *)
Definition saturating_add (a b : Z) : Z := Z.min (a + b) U64_MAX.
Definition saturating_sub (a b : Z) : Z := Z.max (a - b) 0.
Definition saturating_mul (a b : Z) : Z := Z.min (a * b) U64_MAX.
Definition checked_add (a b : Z) : option Z :=
  if a + b <=? U64_MAX then Some (a + b) else None.

(** ** Formatting

    What the sources use of [format!]: decimal integers, [{:0w}] padding,
    [{:x}] and the [Debug] form of strings (quotes, backslashes and the
    C-style escapes; other bytes are left as they are, which is what
    [Debug] does for printable text). *)
Definition show (z : Z) : string := pretty z.

Definition dquote : string := String (Ascii.ascii_of_nat 34) EmptyString.

Definition backslash : string := String (Ascii.ascii_of_nat 92) EmptyString.

Definition debug_char (c : Ascii.ascii) : string :=
  match Ascii.nat_of_ascii c with
  | 34%nat => backslash +:+ dquote
  | 92%nat => "\\"
  | 10%nat => "\n"
  | 13%nat => "\r"
  | 9%nat => "\t"
  | 0%nat => "\0"
  | _ => String c EmptyString
  end.

Fixpoint debug_chars (s : string) : string :=
  match s with
  | EmptyString => EmptyString
  | String c s' => debug_char c +:+ debug_chars s'
  end.

Definition debug_str (s : string) : string := dquote +:+ debug_chars s +:+ dquote.

Definition hex_digit (z : Z) : string :=
  match String.get (Z.to_nat z) "0123456789abcdef" with
  | Some c => String c EmptyString
  | None => EmptyString
  end.

(** The [n] low hexadecimal digits of [z], most significant first. *)
Fixpoint hex_digits (n : nat) (z : Z) : string :=
  match n with
  | O => EmptyString
  | S n' => hex_digits n' (z `div` 16) +:+ hex_digit (z `mod` 16)
  end.

(** [{:0w}]: at least [w] characters, padded with zeros on the left. *)
Fixpoint repeat_str (n : nat) (s : string) : string :=
  match n with O => EmptyString | S n' => s +:+ repeat_str n' s end.
Definition pad0 (w : nat) (z : Z) : string :=
  let s := show (Z.abs z) in
  let body := if z <? 0 then (w - 1)%nat else w in
  (if z <? 0 then "-" else "") +:+ repeat_str (body - String.length s)%nat "0" +:+ s.

(** Rust's [join]. *)
Fixpoint join (sep : string) (l : list string) : string :=
  match l with
  | [] => EmptyString
  | [s] => s
  | s :: l' => s +:+ sep +:+ join sep l'
  end.

(** ** Tactics *)

(** Split conjunctions, disjunctions, existentials and equations, then try the
    usual closers. *)
Ltac crush :=
  repeat (simplify_eq/= || match goal with
    | H : _ ∧ _ |- _ => destruct H
    | H : ∃ _, _ |- _ => destruct H
    end);
  try done; try lia; try set_solver.

(** Destruct the scrutinee of every [if] or [match] of the goal, keeping the
    equation. *)
Ltac cases :=
  repeat (case_match; simplify_eq/=); try done.

(** Case analysis on integer comparisons, boolean or decided. *)
Ltac zcases :=
  repeat match goal with
    | |- context [?a <? ?b] => destruct (Z.ltb_spec a b)
    | |- context [?a <=? ?b] => destruct (Z.leb_spec a b)
    | |- context [?a =? ?b] => destruct (Z.eqb_spec a b)
    | H : context [?a <? ?b] |- _ => destruct (Z.ltb_spec a b)
    | H : context [?a <=? ?b] |- _ => destruct (Z.leb_spec a b)
    | H : context [?a =? ?b] |- _ => destruct (Z.eqb_spec a b)
    end.

(** ** Machine-integer lemmas *)

Lemma wrap64_small z : is_u64 z → wrap64 z = z.
Proof. intros. by apply Z.mod_small. Qed.

Lemma wrap64_range z : is_u64 (wrap64 z).
Proof. by apply Z.mod_pos_bound. Qed.

Lemma u64_of_in chk z : is_u64 z → u64_of chk z = Ret z.
Proof. intros. unfold u64_of. by rewrite decide_True. Qed.

Lemma u32_of_in chk z : is_u32 z → u32_of chk z = Ret z.
Proof. intros. unfold u32_of. by rewrite decide_True. Qed.

Lemma i32_of_in chk z : is_i32 z → i32_of chk z = Ret z.
Proof. intros. unfold i32_of. by rewrite decide_True. Qed.

Lemma u64_of_range chk z r : u64_of chk z = Ret r → is_u64 r.
Proof.
  unfold u64_of. case_decide; [congruence|].
  destruct chk; [done|]. intros [= <-]. apply wrap64_range.
Qed.

(** A build with overflow checks either gives the mathematical result or
    panics. *)
Lemma u64_of_checked z r : u64_of true z = Ret r → r = z ∧ is_u64 z.
Proof. unfold u64_of. case_decide; [|done]. by intros [= <-]. Qed.

Lemma u64_of_release z : u64_of false z = Ret (wrap64 z).
Proof.
  unfold u64_of. case_decide; [|done]. by rewrite wrap64_small.
Qed.

Lemma saturating_add_le a b c :
  is_u64 c → c ≠ U64_MAX → saturating_add a b ≤ c ↔ a + b ≤ c.
Proof. unfold saturating_add, is_u64, U64_MAX. lia. Qed.

Lemma checked_add_Some a b r :
  checked_add a b = Some r ↔ r = a + b ∧ a + b ≤ U64_MAX.
Proof. unfold checked_add. zcases; naive_solver lia. Qed.

Lemma checked_add_None a b : checked_add a b = None ↔ U64_MAX < a + b.
Proof. unfold checked_add. zcases; naive_solver lia. Qed.

(** Masking with the complement of [2^k - 1] rounds down to a multiple of [2^k]. *)
Lemma land_not64_mask s k :
  is_u64 s → 0 ≤ k < 64 → Z.land s (not64 (2 ^ k - 1)) = s / 2 ^ k * 2 ^ k.
Proof.
  intros Hs Hk. unfold is_u64 in Hs.
  assert (Z.ones k < Z.ones 64) by (rewrite !Z.ones_equiv; apply Z.lt_pred_lt_succ;
    rewrite Z.succ_pred; apply Z.pow_lt_mono_r; lia).
  assert (not64 (2 ^ k - 1) = Z.ldiff (Z.ones 64) (Z.ones k)) as ->.
  { rewrite Z.ldiff_ones_r, Z.shiftl_mul_pow2, Z.shiftr_div_pow2 by lia.
    unfold not64, U64_MAX. replace (2 ^ 64) with (2 ^ (64 - k) * 2 ^ k)
      by (rewrite <-Z.pow_add_r by lia; f_equal; lia).
    assert (0 < 2 ^ k) by (apply Z.pow_pos_nonneg; lia).
    replace (Z.ones 64) with (2 ^ (64 - k) * 2 ^ k - 1).
    2:{ rewrite <-Z.pow_add_r by lia. replace (64 - k + k) with 64 by lia. done. }
    replace (2 ^ (64 - k) * 2 ^ k - 1) with ((2 ^ k - 1) + (2 ^ (64 - k) - 1) * 2 ^ k) at 2
      by lia.
    rewrite Z.div_add, (Z.div_small (2 ^ k - 1)) by lia. lia. }
  rewrite Z.ldiff_land, Z.land_assoc, <-Z.ldiff_land, Z.land_ones, Z.mod_small by lia.
  by rewrite Z.ldiff_ones_r, Z.shiftl_mul_pow2, Z.shiftr_div_pow2 by lia.
Qed.

Create HintDb vuma.
Create HintDb zbits.
#[export] Hint Rewrite Z.land_spec Z.lor_spec Z.lxor_spec : zbits.
#[export] Hint Rewrite Z.shiftl_spec Z.shiftr_spec using lia : zbits.
#[export] Hint Resolve wrap64_range : vuma.
#[export] Hint Extern 1 (is_u64 _) => (unfold is_u64 in *; lia) : vuma.

(** ** Stable sorting

    Rust's [sort_by_key] is a stable sort, and a stable sort by a total
    preorder has exactly one result; insertion sort computes it. *)
Section sort_by.
  Context {A : Type} (key : A → Z).

Fixpoint insert_by (x : A) (l : list A) : list A :=
  match l with
  | [] => [x]
  | y :: l' => if key x <=? key y then x :: l else y :: insert_by x l'
  end.

Fixpoint sort_by_key (l : list A) : list A :=
  match l with
  | [] => []
  | x :: l' => insert_by x (sort_by_key l')
  end.

Definition key_sorted (l : list A) : Prop :=
  StronglySorted (λ x y, key x ≤ key y) l.

Lemma insert_by_perm x l : insert_by x l ≡ₚ x :: l.
Proof.
  induction l as [|y l IH]; simpl; [done|].
  case_match; [done|]. rewrite IH. apply Permutation_swap.
Qed.

Lemma sort_by_key_perm l : sort_by_key l ≡ₚ l.
Proof. induction l as [|x l IH]; simpl; [done|]. by rewrite insert_by_perm, IH. Qed.

Lemma elem_of_sort_by_key l x : x ∈ sort_by_key l ↔ x ∈ l.
Proof. by rewrite sort_by_key_perm. Qed.

Lemma insert_by_sorted x l : key_sorted l → key_sorted (insert_by x l).
Proof.
  induction 1 as [|y l Hl IH Hy]; simpl; [repeat constructor|].
  destruct (Z.leb_spec (key x) (key y)).
  - constructor; [by constructor|]. constructor; [lia|].
    eapply Forall_impl; [done|]. simpl; lia.
  - constructor; [done|]. rewrite insert_by_perm. constructor; [lia|done].
Qed.

Lemma sort_by_key_sorted l : key_sorted (sort_by_key l).
Proof. induction l; simpl; [constructor|]. by apply insert_by_sorted. Qed.

Lemma insert_by_stable x l k :
  key_sorted l →
  filter (λ y, key y = k) (insert_by x l) = filter (λ y, key y = k) (x :: l).
Proof.
  induction 1 as [|y l Hl IH Hy]; [done|]. cbn [insert_by].
  destruct (Z.leb_spec (key x) (key y)); [done|].
  rewrite filter_cons, IH, !filter_cons.
  repeat case_decide; simplify_eq/=; try done; lia.
Qed.

Lemma sort_by_key_stable l k :
  filter (λ y, key y = k) (sort_by_key l) = filter (λ y, key y = k) l.
Proof.
  induction l as [|x l IH]; [done|]. simpl sort_by_key.
  rewrite insert_by_stable by apply sort_by_key_sorted.
  rewrite !filter_cons. case_decide; by rewrite IH.
Qed.

Lemma sort_by_key_id l : key_sorted l → sort_by_key l = l.
Proof.
  induction 1 as [|x l Hl IH Hx]; simpl; [done|]. rewrite IH.
  destruct l as [|y l]; simpl; [done|].
  inversion Hx; subst. by rewrite (proj2 (Z.leb_le _ _)).
Qed.

Lemma insert_by_app x l m :
  Forall (λ y, key x ≤ key y) m → insert_by x (l ++ m) = insert_by x l ++ m.
Proof.
  intros Hm. induction l as [|y l IH]; simpl.
  - destruct Hm as [|y m Hy _]; [done|]. simpl. by rewrite (proj2 (Z.leb_le _ _)).
  - case_match; [done|]. by rewrite IH.
Qed.

Lemma sort_by_key_app l m :
  key_sorted m → (∀ x y, x ∈ l → y ∈ m → key x ≤ key y) →
  sort_by_key (l ++ m) = sort_by_key l ++ m.
Proof.
  intros Hm. induction l as [|x l IH]; intros Hle; simpl; [by apply sort_by_key_id|].
  rewrite IH by (intros; apply Hle; [by apply elem_of_cons; right|done]).
  apply insert_by_app, Forall_forall. intros y Hy. apply Hle; [by apply elem_of_cons; left|done].
Qed.
End sort_by.

(** ** Lists and options *)

Definition is_some {A} (o : option A) : bool := match o with Some _ => true | None => false end.

Lemma is_some_spec {A} (o : option A) : is_some o = true ↔ is_Some o.
Proof. destruct o; split; naive_solver. Qed.

(** The first element satisfying a test, [Iterator::find]. *)
Fixpoint find {A} (f : A → bool) (l : list A) : option A :=
  match l with
  | [] => None
  | x :: l' => if f x then Some x else find f l'
  end.

Lemma find_Some {A} (f : A → bool) l x : find f l = Some x → x ∈ l ∧ f x = true.
Proof.
  induction l as [|y l IH]; simpl; [done|]. case_match; [|set_solver].
  intros [= ->]. set_solver.
Qed.

Lemma find_None {A} (f : A → bool) l : find f l = None ↔ ∀ x, x ∈ l → f x = false.
Proof.
  induction l as [|y l IH]; simpl; [set_solver|].
  destruct (f y) eqn:E; [|set_solver]. split; [done|].
  intros H. specialize (H y). rewrite H in E by set_solver. done.
Qed.

Lemma fold_left_ext {A B} (f g : A → B → A) l a :
  (∀ a b, f a b = g a b) → fold_left f l a = fold_left g l a.
Proof. intros H. revert a. induction l as [|b l IH]; intros a; simpl; [done|]. by rewrite H. Qed.

Lemma forallb_forall_elem {A} (f : A → bool) l :
  forallb f l = true ↔ ∀ x, x ∈ l → f x = true.
Proof. rewrite forallb_forall. by setoid_rewrite list_elem_of_In. Qed.

Lemma flat_map_nil {A B} (f : A → list B) l : flat_map f l = [] ↔ ∀ x, x ∈ l → f x = [].
Proof.
  induction l as [|x l IH]; simpl; [split; [intros _ y Hy; by inversion Hy|done]|].
  split.
  - intros [Hx Hl]%app_nil y [->|Hy]%elem_of_cons; [done|by apply IH].
  - intros H. rewrite (H x) by by left. simpl. apply IH. intros y Hy. apply H. by right.
Qed.

(** A filter only depends on the test's answers on the list's elements. *)
Lemma filter_ext_elem {A} (P Q : A → Prop) `{!∀ x, Decision (P x), !∀ x, Decision (Q x)} (l : list A) :
  (∀ x, x ∈ l → P x ↔ Q x) → filter P l = filter Q l.
Proof.
  induction l as [|x l IH]; intros HF; [done|]. rewrite !filter_cons.
  assert (P x ↔ Q x) as Hx by (apply HF; by left).
  rewrite IH by (intros y ?; apply HF; by right). repeat case_decide; tauto.
Qed.

Lemma filter_true_elem {A} (P : A → Prop) `{!∀ x, Decision (P x)} (l : list A) :
  (∀ x, x ∈ l → P x) → filter P l = l.
Proof.
  induction l as [|x l IH]; intros HF; [done|]. rewrite filter_cons.
  rewrite decide_True by (apply HF; by left). f_equal. apply IH. intros y ?. apply HF. by right.
Qed.
