(* ===== verification/Capd.v ===== *)
(** * Capability descriptors and their execution context

    Models [src/src/bd/src/capd.rs] and [src/src/bd/src/context.rs]: the
    capability and condition enumerations, the runtime [Context] that decides
    which conditions hold, and the [CapD] lattice operations.  A [HashSet] is
    a [gset]. *)

From S2P Require Import Prelude.
From stdpp Require Import finite.
From stdpp Require Import options.
#[local] Open Scope Z_scope.

(** ** Capabilities *)

Inductive Capability : Type :=
  | Cap_Read | Cap_Write | Cap_Execute | Cap_Iterate | Cap_Send | Cap_Persist
  | Cap_Serialize | Cap_Deserialize | Cap_Hash | Cap_Compare | Cap_DerivePtr
  | Cap_Cast | Cap_Fork | Cap_Drop | Cap_Share | Cap_Move | Cap_Pin
  | Cap_StateRead | Cap_StateWrite | Cap_StateTransform | Cap_StateConsume.

#[export] Instance Capability_eq_dec : EqDecision Capability.
Proof. solve_decision. Defined.

#[export] Program Instance Capability_finite : Finite Capability := {|
  enum := [Cap_Read; Cap_Write; Cap_Execute; Cap_Iterate; Cap_Send; Cap_Persist;
    Cap_Serialize; Cap_Deserialize; Cap_Hash; Cap_Compare; Cap_DerivePtr;
    Cap_Cast; Cap_Fork; Cap_Drop; Cap_Share; Cap_Move; Cap_Pin;
    Cap_StateRead; Cap_StateWrite; Cap_StateTransform; Cap_StateConsume]
|}.
Next Obligation. by apply (bool_decide_unpack _). Qed.
Next Obligation. intros []; by apply (bool_decide_unpack _). Qed.

(** [impl Display for Capability]. *)
Definition Capability_fmt (c : Capability) : string :=
  match c with
  | Cap_Read => "Read" | Cap_Write => "Write" | Cap_Execute => "Execute"
  | Cap_Iterate => "Iterate" | Cap_Send => "Send" | Cap_Persist => "Persist"
  | Cap_Serialize => "Serialize" | Cap_Deserialize => "Deserialize"
  | Cap_Hash => "Hash" | Cap_Compare => "Compare" | Cap_DerivePtr => "DerivePtr"
  | Cap_Cast => "Cast" | Cap_Fork => "Fork" | Cap_Drop => "Drop"
  | Cap_Share => "Share" | Cap_Move => "Move" | Cap_Pin => "Pin"
  | Cap_StateRead => "StateRead" | Cap_StateWrite => "StateWrite"
  | Cap_StateTransform => "StateTransform" | Cap_StateConsume => "StateConsume"
  end.

(** ** Conditions *)

Inductive Condition : Type :=
  | InPhase (phase : Z)
  | AfterOp (op : Z)
  | BeforeOp (op : Z)
  | NotConcurrentWith (op : Z)
  | RequiresLock (lock : Z)
  | SecurityLevel (level : Z)
  | ValidDuring (region : Z).

#[export] Instance Condition_eq_dec : EqDecision Condition.
Proof. solve_decision. Defined.

#[export] Instance Condition_countable : Countable Condition.
Proof.
  refine (inj_countable'
    (λ c, match c with
      | InPhase z => (0%nat, z) | AfterOp z => (1%nat, z) | BeforeOp z => (2%nat, z)
      | NotConcurrentWith z => (3%nat, z) | RequiresLock z => (4%nat, z)
      | SecurityLevel z => (5%nat, z) | ValidDuring z => (6%nat, z) end)
    (λ p : nat * Z, match p with
      | (0, z) => InPhase z | (1, z) => AfterOp z | (2, z) => BeforeOp z
      | (3, z) => NotConcurrentWith z | (4, z) => RequiresLock z
      | (5, z) => SecurityLevel z | (_, z) => ValidDuring z end%nat) _).
  by intros [].
Defined.

(** [impl Display for Condition]. *)
Definition Condition_fmt (c : Condition) : string :=
  match c with
  | InPhase id => "InPhase(" +:+ show id +:+ ")"
  | AfterOp id => "AfterOp(" +:+ show id +:+ ")"
  | BeforeOp id => "BeforeOp(" +:+ show id +:+ ")"
  | NotConcurrentWith id => "NotConcurrentWith(" +:+ show id +:+ ")"
  | RequiresLock id => "RequiresLock(" +:+ show id +:+ ")"
  | SecurityLevel lvl => "SecurityLevel(" +:+ show lvl +:+ ")"
  | ValidDuring id => "ValidDuring(" +:+ show id +:+ ")"
  end.

(** ** The execution context *)

Record Context := {
  active_phases : gset Z;
  completed_ops : gset Z;
  active_locks : gset Z;
  current_security_level : Z;
  current_region : gset Z;
}.

Definition Context_empty : Context :=
  {| active_phases := ∅; completed_ops := ∅; active_locks := ∅;
     current_security_level := 0; current_region := ∅ |}.

Definition is_condition_active (ctx : Context) (cond : Condition) : bool :=
  match cond with
  | InPhase phase => bool_decide (phase ∈ active_phases ctx)
  | AfterOp op => bool_decide (op ∈ completed_ops ctx)
  | BeforeOp op => negb (bool_decide (op ∈ completed_ops ctx))
  | NotConcurrentWith op => negb (bool_decide (op ∈ completed_ops ctx))
  | RequiresLock lock => bool_decide (lock ∈ active_locks ctx)
  | SecurityLevel required => required <=? current_security_level ctx
  | ValidDuring region => bool_decide (region ∈ current_region ctx)
  end.

Definition with_phase (ctx : Context) (phase : Z) : Context :=
  {| active_phases := {[phase]} ∪ active_phases ctx;
     completed_ops := completed_ops ctx; active_locks := active_locks ctx;
     current_security_level := current_security_level ctx;
     current_region := current_region ctx |}.

Definition with_completed_op (ctx : Context) (op : Z) : Context :=
  {| active_phases := active_phases ctx;
     completed_ops := {[op]} ∪ completed_ops ctx; active_locks := active_locks ctx;
     current_security_level := current_security_level ctx;
     current_region := current_region ctx |}.

Definition with_lock (ctx : Context) (lock : Z) : Context :=
  {| active_phases := active_phases ctx;
     completed_ops := completed_ops ctx; active_locks := {[lock]} ∪ active_locks ctx;
     current_security_level := current_security_level ctx;
     current_region := current_region ctx |}.

Definition with_security_level (ctx : Context) (level : Z) : Context :=
  {| active_phases := active_phases ctx;
     completed_ops := completed_ops ctx; active_locks := active_locks ctx;
     current_security_level := level;
     current_region := current_region ctx |}.

Definition with_region (ctx : Context) (region : Z) : Context :=
  {| active_phases := active_phases ctx;
     completed_ops := completed_ops ctx; active_locks := active_locks ctx;
     current_security_level := current_security_level ctx;
     current_region := {[region]} ∪ current_region ctx |}.

(** ** Capability descriptors *)

Record CapD := CapD_mk {
  CapD_caps : gset Capability;
  CapD_conditions : gset Condition;
}.

#[export] Instance CapD_eq_dec : EqDecision CapD.
Proof. solve_decision. Defined.

Definition CapD_empty : CapD := CapD_mk ∅ ∅.

(** Every capability but [StateConsume], and no condition. *)
Definition CapD_all : CapD :=
  CapD_mk (list_to_set
    [Cap_Read; Cap_Write; Cap_Execute; Cap_Iterate; Cap_Send; Cap_Persist;
     Cap_Serialize; Cap_Deserialize; Cap_Hash; Cap_Compare; Cap_DerivePtr;
     Cap_Cast; Cap_Fork; Cap_Drop; Cap_Share; Cap_Move; Cap_Pin;
     Cap_StateRead; Cap_StateWrite; Cap_StateTransform]) ∅.

Definition CapD_is_subset (self other : CapD) : bool :=
  bool_decide (CapD_caps self ⊆ CapD_caps other) &&
  bool_decide (CapD_conditions other ⊆ CapD_conditions self).

Definition CapD_is_superset (self other : CapD) : bool := CapD_is_subset other self.

Definition CapD_meet (self other : CapD) : CapD :=
  CapD_mk (CapD_caps self ∩ CapD_caps other)
          (CapD_conditions self ∪ CapD_conditions other).

Definition CapD_join (self other : CapD) : CapD :=
  let conditions := CapD_conditions self ∩ CapD_conditions other in
  let self_has_consume := bool_decide (Cap_StateConsume ∈ CapD_caps self) in
  let other_has_consume := bool_decide (Cap_StateConsume ∈ CapD_caps other) in
  if self_has_consume || other_has_consume then
    CapD_mk {[Cap_StateConsume]} conditions
  else
    let caps := CapD_caps self ∪ CapD_caps other in
    let caps :=
      if bool_decide (Cap_StateRead ∈ caps) && bool_decide (Cap_StateWrite ∈ caps)
      then {[Cap_StateTransform]} ∪ caps else caps in
    CapD_mk caps conditions.

Definition CapD_resolve (self : CapD) (context : Context) : gset Capability :=
  if forallb (is_condition_active context) (elements (CapD_conditions self))
  then CapD_caps self else ∅.

(** [Context::resolve_capabilities] *)
Definition resolve_capabilities (ctx : Context) (capd : CapD) : gset Capability :=
  CapD_resolve capd ctx.

Definition CapD_weaken (self : CapD) (remove : list Capability) : CapD :=
  CapD_mk (CapD_caps self ∖ list_to_set remove) (CapD_conditions self).

Definition CapD_widen (self other : CapD) : CapD :=
  if CapD_is_superset other self && negb (bool_decide (other = self))
  then CapD_all else other.

Definition CapD_strengthen (self : CapD) (add : list Capability) : CapD :=
  CapD_mk (fold_left (λ caps c, {[c]} ∪ caps) add (CapD_caps self))
          (CapD_conditions self).

(** [impl PartialOrd for CapD]; [None] means incomparable. *)
Definition CapD_partial_cmp (self other : CapD) : option comparison :=
  if bool_decide (self = other) then Some Eq
  else if CapD_is_subset self other then Some Lt
  else if CapD_is_superset self other then Some Gt
  else None.

(** ** Specification predicates *)

(** The lattice order as a proposition. *)
Definition CapD_le (a b : CapD) : Prop := CapD_is_subset a b = true.

(** A descriptor the [StateRead + StateWrite => StateTransform] rule leaves
    unchanged. *)
Definition rw_closed (a : CapD) : Prop :=
  Cap_StateRead ∈ CapD_caps a → Cap_StateWrite ∈ CapD_caps a →
  Cap_StateTransform ∈ CapD_caps a.

(** One round of a widened fixpoint iteration of [F]. *)
Definition widen_step (F : CapD → CapD) (x : CapD) : CapD := CapD_widen x (F x).

(** ** Lemmas *)

Lemma CapD_is_subset_spec a b :
  CapD_is_subset a b = true ↔
  CapD_caps a ⊆ CapD_caps b ∧ CapD_conditions b ⊆ CapD_conditions a.
Proof. unfold CapD_is_subset. by rewrite andb_true_iff, !bool_decide_eq_true. Qed.

Lemma CapD_eq a b :
  CapD_caps a = CapD_caps b → CapD_conditions a = CapD_conditions b → a = b.
Proof. destruct a, b; simpl. by intros -> ->. Qed.

Lemma CapD_le_refl a : CapD_le a a.
Proof. by apply CapD_is_subset_spec. Qed.

Lemma CapD_le_trans a b c : CapD_le a b → CapD_le b c → CapD_le a c.
Proof. unfold CapD_le. rewrite !CapD_is_subset_spec. set_solver. Qed.

Lemma CapD_le_antisymm a b : CapD_le a b → CapD_le b a → a = b.
Proof.
  unfold CapD_le. rewrite !CapD_is_subset_spec. intros [??] [??].
  apply CapD_eq; apply set_eq; set_solver.
Qed.

#[export] Instance CapD_le_po : PartialOrder CapD_le.
Proof.
  split; [split|].
  - intros ?. apply CapD_le_refl.
  - intros ???. apply CapD_le_trans.
  - intros ??. apply CapD_le_antisymm.
Qed.

Lemma CapD_resolve_active a ctx :
  (∀ c, c ∈ CapD_conditions a → is_condition_active ctx c = true) →
  CapD_resolve a ctx = CapD_caps a.
Proof.
  intros H. unfold CapD_resolve.
  rewrite (proj2 (forallb_forall_elem _ _)); [done|].
  intros c Hc. apply H. by apply elem_of_elements.
Qed.

Lemma CapD_resolve_inactive a ctx c :
  c ∈ CapD_conditions a → is_condition_active ctx c = false →
  CapD_resolve a ctx = ∅.
Proof.
  intros Hc Hact. unfold CapD_resolve. case_match eqn:E; [|done].
  rewrite forallb_forall_elem in E.
  rewrite E in Hact by by apply elem_of_elements. done.
Qed.

(** Either every condition holds and the capabilities are granted, or one
    does not and none is. *)
Lemma CapD_resolve_cases a ctx :
  ((∀ c, c ∈ CapD_conditions a → is_condition_active ctx c = true) ∧
     CapD_resolve a ctx = CapD_caps a) ∨
  ((∃ c, c ∈ CapD_conditions a ∧ is_condition_active ctx c = false) ∧
     CapD_resolve a ctx = ∅).
Proof.
  destruct (decide (set_Exists (λ c, is_condition_active ctx c = false)
                     (CapD_conditions a))) as [(c & Hc & Hf)|Hn].
  - right. eauto using CapD_resolve_inactive.
  - left. assert (∀ c, c ∈ CapD_conditions a → is_condition_active ctx c = true).
    { intros c Hc. destruct (is_condition_active ctx c) eqn:E; [done|].
      destruct Hn. by exists c. }
    eauto using CapD_resolve_active.
Qed.

Lemma elem_of_CapD_all c : c ∈ CapD_caps CapD_all ↔ c ≠ Cap_StateConsume.
Proof.
  split; [|by destruct c; intros; simpl; set_solver].
  intros H ->. revert H. by apply (bool_decide_unpack _).
Qed.

Lemma CapD_le_all a : Cap_StateConsume ∉ CapD_caps a → CapD_le a CapD_all.
Proof.
  intros H. apply CapD_is_subset_spec. split; [|set_solver].
  intros c Hc. apply elem_of_CapD_all. by intros ->.
Qed.

Lemma CapD_widen_above a b :
  CapD_le a b → CapD_widen a b = if bool_decide (b = a) then a else CapD_all.
Proof.
  intros Hab. unfold CapD_widen, CapD_is_superset. rewrite Hab. simpl.
  case_bool_decide; by subst.
Qed.

(** The capabilities of a join of descriptors that are not consumed. *)
Lemma elem_of_CapD_join a b c :
  Cap_StateConsume ∉ CapD_caps a → Cap_StateConsume ∉ CapD_caps b →
  c ∈ CapD_caps (CapD_join a b) ↔
  c ∈ CapD_caps a ∪ CapD_caps b ∨
  (c = Cap_StateTransform ∧ Cap_StateRead ∈ CapD_caps a ∪ CapD_caps b ∧
   Cap_StateWrite ∈ CapD_caps a ∪ CapD_caps b).
Proof.
  intros Ha Hb. unfold CapD_join. rewrite !bool_decide_eq_false_2 by done. simpl.
  destruct (bool_decide_reflect (Cap_StateRead ∈ CapD_caps a ∪ CapD_caps b));
    [destruct (bool_decide_reflect (Cap_StateWrite ∈ CapD_caps a ∪ CapD_caps b))|];
    simpl; set_solver.
Qed.

Lemma CapD_join_consumed a b :
  Cap_StateConsume ∈ CapD_caps a ∨ Cap_StateConsume ∈ CapD_caps b →
  CapD_caps (CapD_join a b) = {[Cap_StateConsume]}.
Proof.
  intros H. unfold CapD_join.
  rewrite (proj2 (orb_true_iff _ _)) by by rewrite !bool_decide_eq_true. done.
Qed.

Lemma CapD_join_conditions a b :
  CapD_conditions (CapD_join a b) = CapD_conditions a ∩ CapD_conditions b.
Proof. unfold CapD_join. by case_match. Qed.

Lemma CapD_join_comm a b : CapD_join a b = CapD_join b a.
Proof.
  unfold CapD_join. rewrite orb_comm, (intersection_comm_L (CapD_conditions a)).
  by rewrite (union_comm_L (CapD_caps a)).
Qed.

Lemma CapD_join_not_consumed a b :
  Cap_StateConsume ∈ CapD_caps (CapD_join a b) ↔
  Cap_StateConsume ∈ CapD_caps a ∨ Cap_StateConsume ∈ CapD_caps b.
Proof.
  destruct (decide (Cap_StateConsume ∈ CapD_caps a ∨ Cap_StateConsume ∈ CapD_caps b))
    as [H|H].
  - rewrite CapD_join_consumed by done. set_solver.
  - rewrite elem_of_CapD_join by tauto. set_solver.
Qed.

Lemma CapD_join_assoc a b d :
  CapD_join (CapD_join a b) d = CapD_join a (CapD_join b d).
Proof.
  apply CapD_eq.
  - destruct (decide (Cap_StateConsume ∈ CapD_caps a ∨ Cap_StateConsume ∈ CapD_caps b ∨
                      Cap_StateConsume ∈ CapD_caps d)) as [H|H].
    + rewrite !CapD_join_consumed; [done|rewrite CapD_join_not_consumed; tauto..].
    + apply set_eq. intros c.
      rewrite !elem_of_CapD_join; rewrite ?CapD_join_not_consumed; try tauto.
      rewrite !elem_of_union, !elem_of_CapD_join by tauto. set_solver.
  - rewrite !CapD_join_conditions. by rewrite (assoc_L (∩)).
Qed.

(** ** Properties *)

(** [meet] is the greatest lower bound of the capability order, and it
    never grants more than both operands do: in every execution context the
    capabilities that resolve from a meet are exactly those that resolve from
    both descriptors. *)
Theorem CapD_meet_correct a b :
  (∀ c, CapD_is_subset c (CapD_meet a b) = CapD_is_subset c a && CapD_is_subset c b) ∧
  (∀ ctx, CapD_resolve (CapD_meet a b) ctx = CapD_resolve a ctx ∩ CapD_resolve b ctx).
Proof.
  split.
  - intros c. apply eq_true_iff_eq.
    rewrite andb_true_iff, !CapD_is_subset_spec. simpl. set_solver.
  - intros ctx.
    destruct (CapD_resolve_cases a ctx) as [[Ha ->]|[(c & Hc & Hf) ->]];
      [destruct (CapD_resolve_cases b ctx) as [[Hb ->]|[(c & Hc & Hf) ->]]|].
    + rewrite CapD_resolve_active; [done|]. simpl. set_solver.
    + rewrite (CapD_resolve_inactive _ _ c) by (simpl; set_solver). set_solver.
    + rewrite (CapD_resolve_inactive _ _ c) by (simpl; set_solver). set_solver.
Qed.

(** [join] is commutative and associative, and on descriptors that do not
    hold [StateConsume] it is the least upper bound among the descriptors
    closed under the [StateRead + StateWrite => StateTransform] rule. *)
Theorem CapD_join_lub a b d :
  CapD_join a b = CapD_join b a ∧
  CapD_join (CapD_join a b) d = CapD_join a (CapD_join b d) ∧
  (Cap_StateConsume ∉ CapD_caps a → Cap_StateConsume ∉ CapD_caps b →
   CapD_is_subset a (CapD_join a b) = true ∧
   CapD_is_subset b (CapD_join a b) = true ∧
   rw_closed (CapD_join a b) ∧
   ∀ c, CapD_is_subset a c = true → CapD_is_subset b c = true → rw_closed c →
        CapD_is_subset (CapD_join a b) c = true).
Proof.
  split_and!.
  - apply CapD_join_comm.
  - apply CapD_join_assoc.
  - intros Ha Hb. split_and!.
    1,2: apply CapD_is_subset_spec; rewrite CapD_join_conditions; split; [|set_solver];
      intros c Hc; apply elem_of_CapD_join; set_solver.
    + unfold rw_closed. rewrite !elem_of_CapD_join by done. set_solver.
    + intros c. rewrite !CapD_is_subset_spec, CapD_join_conditions.
      intros [Ha1 Ha2] [Hb1 Hb2] Hrw. split; [|set_solver].
      intros x Hx. apply elem_of_CapD_join in Hx; [|done..].
      destruct Hx as [Hx|(-> & Hr & Hw)]; [set_solver|].
      apply Hrw; set_solver.
Qed.

(** The hypotheses of [CapD_join_lub] hold of two real descriptors. *)
Lemma CapD_join_lub_witness :
  let a := CapD_mk {[Cap_StateRead]} {[InPhase 1]} in
  let b := CapD_mk {[Cap_StateWrite]} {[InPhase 1; RequiresLock 2]} in
  CapD_join a b = CapD_mk {[Cap_StateRead; Cap_StateWrite; Cap_StateTransform]} {[InPhase 1]} ∧
  CapD_is_subset a (CapD_join a b) = true.
Proof.
  intros a b. split; [by apply (bool_decide_unpack _)|].
  destruct (CapD_join_lub a b CapD_empty) as (_ & _ & H).
  apply H; by apply (bool_decide_unpack _).
Defined.

(** [join] is an upper bound of its left operand exactly when no operand
    holds [StateConsume] or the left one grants nothing else: the comment that
    calls it the least upper bound does not hold of consumed states. *)
Theorem CapD_join_upper_bound_iff a b :
  CapD_is_subset a (CapD_join a b) = true ↔
  (Cap_StateConsume ∈ CapD_caps a ∪ CapD_caps b → CapD_caps a ⊆ {[Cap_StateConsume]}).
Proof.
  rewrite CapD_is_subset_spec, CapD_join_conditions.
  destruct (decide (Cap_StateConsume ∈ CapD_caps a ∪ CapD_caps b)) as [Hc|Hc].
  - rewrite CapD_join_consumed by set_solver. set_solver.
  - split; [done|]. intros _. split; [|set_solver].
    intros c ?. apply elem_of_CapD_join; set_solver.
Qed.

(** Widening makes every inflationary fixpoint iteration stop: after one
    widened round the iterate is a fixed point of the widened iteration, and
    it is a post-fixed point of the iterated function unless that function
    produces [StateConsume]. *)
Theorem CapD_widen_converges F x :
  (∀ y, CapD_is_subset y (F y) = true) →
  widen_step F (widen_step F x) = widen_step F x ∧
  (Cap_StateConsume ∉ CapD_caps (F (widen_step F x)) →
   CapD_is_subset (F (widen_step F x)) (widen_step F x) = true).
Proof.
  intros HF. unfold widen_step. rewrite (CapD_widen_above x (F x)) by apply HF.
  case_bool_decide as E.
  - rewrite CapD_widen_above, bool_decide_eq_true_2 by (done || apply HF).
    split; [done|]. intros _. rewrite E. apply CapD_le_refl.
  - rewrite CapD_widen_above by apply HF. split.
    + by case_bool_decide.
    + intros H. by apply CapD_le_all.
Qed.

Lemma CapD_widen_converges_witness :
  let F := λ y, CapD_strengthen y [Cap_Read] in
  widen_step F CapD_empty = CapD_all ∧
  widen_step F (widen_step F CapD_empty) = widen_step F CapD_empty.
Proof.
  intros F. split; [by apply (bool_decide_unpack _)|].
  apply (CapD_widen_converges F). intros y. apply CapD_is_subset_spec.
  simpl. set_solver.
Defined.
