(* ===== verification/Reld.v ===== *)
(** * Relational descriptors

    Models [src/src/bd/src/reld.rs]: the relations a value takes part in, the
    refinement order on sets of relations, their composition, merge and the
    syntactic consistency check. *)

From S2P Require Import Prelude.
From stdpp Require Import finite.
From stdpp Require Import options.
#[local] Open Scope Z_scope.

Inductive TemporalKind : Type :=
  | Outlives | Coincides | Precedes | Succeeds | EpochBefore | EpochAfter.

Inductive DepKind : Type := DataDep | ControlDep | AliasDep.

Inductive FlowPolicy : Type := NoDowngrade | NoCrossBoundary | Sanitized.

Inductive Relation : Type :=
  | Temporal (k : TemporalKind)
  | Containment
  | Dependency (k : DepKind)
  | Equivalence_rel
  | Security (p : FlowPolicy)
  | Liveness.

#[export] Instance TemporalKind_eq_dec : EqDecision TemporalKind.
Proof. solve_decision. Defined.
#[export] Instance DepKind_eq_dec : EqDecision DepKind.
Proof. solve_decision. Defined.
#[export] Instance FlowPolicy_eq_dec : EqDecision FlowPolicy.
Proof. solve_decision. Defined.
#[export] Instance Relation_eq_dec : EqDecision Relation.
Proof. solve_decision. Defined.

#[export] Program Instance Relation_finite : Finite Relation := {|
  enum := [Temporal Outlives; Temporal Coincides; Temporal Precedes;
    Temporal Succeeds; Temporal EpochBefore; Temporal EpochAfter; Containment;
    Dependency DataDep; Dependency ControlDep; Dependency AliasDep;
    Equivalence_rel; Security NoDowngrade; Security NoCrossBoundary;
    Security Sanitized; Liveness]
|}.
Next Obligation. by apply (bool_decide_unpack _). Qed.
Next Obligation. intros [[]| |[]| |[]|]; by apply (bool_decide_unpack _). Qed.

(** The [Display] impls. *)
Definition TemporalKind_fmt (k : TemporalKind) : string :=
  match k with
  | Outlives => "Outlives" | Coincides => "Coincides" | Precedes => "Precedes"
  | Succeeds => "Succeeds" | EpochBefore => "EpochBefore" | EpochAfter => "EpochAfter"
  end.

Definition DepKind_fmt (k : DepKind) : string :=
  match k with
  | DataDep => "DataDep" | ControlDep => "ControlDep" | AliasDep => "AliasDep"
  end.

Definition FlowPolicy_fmt (p : FlowPolicy) : string :=
  match p with
  | NoDowngrade => "NoDowngrade"
  | NoCrossBoundary => "NoCrossBoundary"
  | Sanitized => "Sanitized"
  end.

Definition Relation_fmt (r : Relation) : string :=
  match r with
  | Temporal k => "Temporal(" +:+ TemporalKind_fmt k +:+ ")"
  | Containment => "Containment"
  | Dependency k => "Dependency(" +:+ DepKind_fmt k +:+ ")"
  | Equivalence_rel => "Equivalence"
  | Security p => "Security(" +:+ FlowPolicy_fmt p +:+ ")"
  | Liveness => "Liveness"
  end.

Definition is_state_available (producer_epoch consumer_epoch : Z) : bool :=
  producer_epoch <=? consumer_epoch.

(** ** Descriptors *)

Record RelD := RelD_mk { RelD_relations : gset Relation }.

#[export] Instance RelD_eq_dec : EqDecision RelD.
Proof. solve_decision. Defined.

Definition RelD_empty : RelD := RelD_mk ∅.

Definition RelD_refines (self other : RelD) : bool :=
  bool_decide (RelD_relations other ⊆ RelD_relations self).

Definition RelD_compose (self other : RelD) : RelD :=
  RelD_mk (RelD_relations self ∪ RelD_relations other).

Definition RelD_has (self : RelD) (k : TemporalKind) : bool :=
  bool_decide (Temporal k ∈ RelD_relations self).

Definition RelD_is_consistent (self : RelD) : bool :=
  let has_outlives := RelD_has self Outlives in
  let has_succeeds := RelD_has self Succeeds in
  if has_outlives && has_succeeds then false else
  let has_precedes := RelD_has self Precedes in
  if has_precedes && has_succeeds then false else
  let has_epoch_before := RelD_has self EpochBefore in
  let has_epoch_after := RelD_has self EpochAfter in
  if has_epoch_before && has_epoch_after then false else true.

Definition RelD_merge (self other : RelD) : RelD :=
  RelD_mk (RelD_relations self ∩ RelD_relations other).

(** The pairs of temporal relations that contradict each other. *)
Definition contradictory (k1 k2 : TemporalKind) : Prop :=
  (k1 = Outlives ∧ k2 = Succeeds) ∨ (k1 = Precedes ∧ k2 = Succeeds) ∨
  (k1 = EpochBefore ∧ k2 = EpochAfter).

(** ** Lemmas *)

Lemma RelD_refines_spec a b :
  RelD_refines a b = true ↔ RelD_relations b ⊆ RelD_relations a.
Proof. apply bool_decide_eq_true. Qed.

Lemma RelD_has_spec a k : RelD_has a k = true ↔ Temporal k ∈ RelD_relations a.
Proof. apply bool_decide_eq_true. Qed.

Lemma RelD_refines_refl a : RelD_refines a a = true.
Proof. by apply RelD_refines_spec. Qed.

Lemma RelD_refines_trans a b c :
  RelD_refines a b = true → RelD_refines b c = true → RelD_refines a c = true.
Proof. rewrite !RelD_refines_spec. set_solver. Qed.

Lemma RelD_is_consistent_spec a :
  RelD_is_consistent a = true ↔
  ∀ k1 k2, contradictory k1 k2 →
    ¬ (Temporal k1 ∈ RelD_relations a ∧ Temporal k2 ∈ RelD_relations a).
Proof.
  assert (∀ k1 k2, RelD_has a k1 && RelD_has a k2 = true ↔
    Temporal k1 ∈ RelD_relations a ∧ Temporal k2 ∈ RelD_relations a) as Hp.
  { intros. by rewrite andb_true_iff, !RelD_has_spec. }
  unfold RelD_is_consistent, contradictory. split.
  - intros H k1 k2 Hk Hin. apply Hp in Hin.
    destruct Hk as [[-> ->]|[[-> ->]|[-> ->]]]; rewrite Hin in H; by repeat case_match.
  - intros H. repeat case_match; [| | |done].
    all: match goal with E : _ && _ = true |- _ => apply Hp in E end;
      exfalso; eapply H; [|done]; naive_solver.
Qed.

(** Consistency is inherited by every descriptor that is refined. *)
Lemma RelD_consistent_mono a b :
  RelD_refines a b = true → RelD_is_consistent a = true → RelD_is_consistent b = true.
Proof.
  rewrite RelD_refines_spec, !RelD_is_consistent_spec.
  intros Hab H k1 k2 Hk [??]. apply (H k1 k2 Hk). set_solver.
Qed.

(** ** Properties *)

(** The consistency check accepts a descriptor exactly when it holds none
    of the three contradictory temporal pairs; composing with another view is
    the weakest common refinement of both, so an inconsistent view can never
    be repaired by composing it. *)
Theorem RelD_consistent_compose a b :
  (RelD_is_consistent a = true ↔
     ∀ k1 k2, contradictory k1 k2 →
       ¬ (Temporal k1 ∈ RelD_relations a ∧ Temporal k2 ∈ RelD_relations a)) ∧
  (∀ c, RelD_refines c (RelD_compose a b) = RelD_refines c a && RelD_refines c b) ∧
  (RelD_is_consistent (RelD_compose a b) = true →
     RelD_is_consistent a = true ∧ RelD_is_consistent b = true ∧
     RelD_is_consistent (RelD_merge a b) = true).
Proof.
  split; [apply RelD_is_consistent_spec|]. split.
  - intros c. apply eq_true_iff_eq.
    rewrite andb_true_iff, !RelD_refines_spec. simpl. set_solver.
  - intros H. split_and!; eapply RelD_consistent_mono; try done;
      apply RelD_refines_spec; simpl; set_solver.
Qed.

Lemma RelD_consistent_compose_witness :
  let a := RelD_mk {[Temporal Outlives; Containment]} in
  let b := RelD_mk {[Temporal EpochBefore]} in
  RelD_is_consistent (RelD_compose a b) = true ∧ RelD_is_consistent a = true.
Proof.
  intros a b. split; [by vm_compute|].
  destruct (RelD_consistent_compose a b) as (_ & _ & H). apply H. by vm_compute.
Defined.
