(* ===== verification/Manifold.v ===== *)
(** * Space-filling curves

    Models [src/src/bd/src/manifold.rs]: Z-order (Morton) encoding and
    decoding in 2, 3 and n dimensions, the Hilbert curve, and the physical
    byte offset of a coordinate.  The [for] loops over bit positions are folds
    over the same ranges; the Hilbert [while] loops carry 64 units of fuel,
    one for every bit of their [u64] counter. *)

From S2P Require Import Prelude.
From stdpp Require Import options.
#[local] Open Scope Z_scope.
#[local] Coercion Z.of_nat : nat >-> Z.

(** The half-open range [0..n] the [for] loops run over. *)
Definition zrange (n : Z) : list Z := seqZ 0 n.

(** [(x >> i) & 1] *)
Definition bit_at (x i : Z) : Z := Z.land (Z.shiftr x i) 1.

(** ** Z-order curve *)

Definition ZOrder_encode_2d (x y : Z) : Z :=
  fold_left (λ result i,
    let result := Z.lor result (Z.shiftl (bit_at x i) (2 * i)) in
    Z.lor result (Z.shiftl (bit_at y i) (2 * i + 1))) (zrange 32) 0.

Definition ZOrder_encode_3d (x y z : Z) : Z :=
  fold_left (λ result i,
    let result := Z.lor result (Z.shiftl (bit_at x i) (3 * i)) in
    let result := Z.lor result (Z.shiftl (bit_at y i) (3 * i + 1)) in
    Z.lor result (Z.shiftl (bit_at z i) (3 * i + 2))) (zrange 21) 0.

(** The inner [for (dim, &coord) in coords.iter().enumerate()]. *)
Fixpoint encode_dims (n bit dim : Z) (coords : list Z) (result : Z) : Z :=
  match coords with
  | [] => result
  | coord :: coords' =>
      encode_dims n bit (dim + 1) coords'
        (Z.lor result (Z.shiftl (bit_at coord bit) (n * bit + dim)))
  end.

Definition ZOrder_encode_nd (coords : list Z) : Z :=
  let n := Z.of_nat (length coords) in
  if n =? 0 then 0 else
  let bits_per_dim := 64 / n in
  fold_left (λ result bit, encode_dims n bit 0 coords result) (zrange bits_per_dim) 0.

Definition ZOrder_decode_2d (index : Z) : Z * Z :=
  fold_left (λ '(x, y) i,
    (Z.lor x (Z.shiftl (Z.land (Z.shiftr index (2 * i)) 1) i),
     Z.lor y (Z.shiftl (Z.land (Z.shiftr index (2 * i + 1)) 1) i)))
    (zrange 32) (0, 0).

(** The inner loop over [coords.iter_mut().enumerate()]. *)
Fixpoint decode_dims (index n bit dim : Z) (coords : list Z) : list Z :=
  match coords with
  | [] => []
  | coord :: coords' =>
      Z.lor coord (Z.shiftl (bit_at index (n * bit + dim)) bit)
        :: decode_dims index n bit (dim + 1) coords'
  end.

(** Division by [n = 0] panics. *)
Definition ZOrder_decode_nd (index : Z) (n : nat) : outcome (list Z) :=
  if decide (n = 0%nat) then Panic else
  let nz := Z.of_nat n in
  let bits_per_dim := 64 / nz in
  Ret (fold_left (λ coords bit, decode_dims index nz bit 0 coords)
         (zrange bits_per_dim) (replicate n 0)).

(** ** Hilbert curve *)

(** [1u64 << order] *)
Definition shl_one (chk : bool) (order : Z) : outcome Z :=
  if order <? 64 then Ret (2 ^ order)
  else if chk then Panic else Ret (2 ^ (order `mod` 64)).

Definition hilbert_fuel : nat := 64.

(** The body of [while s > 0], [s] halving each round. *)
Fixpoint hilbert_encode_loop (chk : bool) (fuel : nat) (n s x y d : Z) : outcome Z :=
  match fuel with
  | O => Ret d
  | S fuel' =>
      if s =? 0 then Ret d else
      let rx := if 0 <? Z.land x s then 1 else 0 in
      let ry := if 0 <? Z.land y s then 1 else 0 in
      s2 ← u64_mul chk s s;
      term ← u64_mul chk s2 (Z.lxor (3 * rx) ry);
      d ← u64_add chk d term;
      if ry =? 0 then
        '(x, y) ← (if rx =? 1 then
                     n1 ← u64_sub chk n 1;
                     x' ← u64_sub chk n1 x;
                     y' ← u64_sub chk n1 y;
                     mret (x', y')
                   else mret (x, y));
        hilbert_encode_loop chk fuel' n (s / 2) y x d
      else hilbert_encode_loop chk fuel' n (s / 2) x y d
  end.

Definition Hilbert_encode_2d (chk : bool) (x y order : Z) : outcome Z :=
  n ← shl_one chk order;
  hilbert_encode_loop chk hilbert_fuel n (n / 2) x y 0.

(** The body of [while s < n], [s] doubling each round. *)
Fixpoint hilbert_decode_loop (chk : bool) (fuel : nat) (n s x y t : Z) : outcome (Z * Z) :=
  match fuel with
  | O => Ret (x, y)
  | S fuel' =>
      if s <? n then
        let rx := Z.land 1 (t / 2) in
        let ry := Z.land 1 (Z.lxor t rx) in
        '(x, y) ← (if ry =? 0 then
                     '(x, y) ← (if rx =? 1 then
                                  s1 ← u64_sub chk s 1;
                                  x' ← u64_sub chk s1 x;
                                  y' ← u64_sub chk s1 y;
                                  mret (x', y')
                                else mret (x, y));
                     mret (y, x)
                   else mret (x, y));
        sx ← u64_mul chk s rx;
        x ← u64_add chk x sx;
        sy ← u64_mul chk s ry;
        y ← u64_add chk y sy;
        s' ← u64_mul chk s 2;
        hilbert_decode_loop chk fuel' n s' x y (t / 4)
      else Ret (x, y)
  end.

Definition Hilbert_decode_2d (chk : bool) (d order : Z) : outcome (Z * Z) :=
  n ← shl_one chk order;
  hilbert_decode_loop chk hilbert_fuel n 1 0 0 d.

(** ** Physical offsets *)

Inductive SpaceFillingCurve : Type := ZOrder | Hilbert | RowMajor.

#[export] Instance SpaceFillingCurve_eq_dec : EqDecision SpaceFillingCurve.
Proof. solve_decision. Defined.

(** The [RowMajor] arm; [dim_sizes[i]] out of range panics. *)
Fixpoint row_major_index (chk : bool) (linear : Z) (coords dim_sizes : list Z) : outcome Z :=
  match coords with
  | [] => Ret linear
  | c :: coords' =>
      match dim_sizes with
      | [] => Panic
      | dsz :: dim_sizes' =>
          scaled ← u64_mul chk linear dsz;
          linear' ← u64_add chk scaled c;
          row_major_index chk linear' coords' dim_sizes'
      end
  end.

Definition physical_offset (chk : bool) (curve : SpaceFillingCurve)
    (coords dim_sizes : list Z) (element_size order : Z) : outcome Z :=
  index ← match curve with
    | ZOrder =>
        match coords with
        | [c0; c1] => Ret (ZOrder_encode_2d c0 c1)
        | [c0; c1; c2] => Ret (ZOrder_encode_3d c0 c1 c2)
        | _ => Ret (ZOrder_encode_nd coords)
        end
    | Hilbert =>
        match coords with
        | [c0; c1] => Hilbert_encode_2d chk c0 c1 order
        | _ => Ret (ZOrder_encode_nd coords)
        end
    | RowMajor => row_major_index chk 0 coords dim_sizes
    end;
  u64_mul chk index element_size.

(** ** Bit lemmas *)

Lemma bit_at_b2z x i : 0 ≤ i → bit_at x i = Z.b2z (Z.testbit x i).
Proof.
  intros. unfold bit_at. rewrite Z.testbit_spec', <-Z.shiftr_div_pow2 by done.
  by rewrite (Z.land_ones _ 1).
Qed.

Lemma testbit_b2z_shift b p k :
  0 ≤ p → 0 ≤ k → Z.testbit (Z.shiftl (Z.b2z b) p) k = b && (k =? p).
Proof.
  intros. rewrite Z.shiftl_spec by done.
  destruct (Z.eqb_spec k p) as [->|Hne].
  - rewrite Z.sub_diag, andb_true_r. by destruct b.
  - rewrite andb_false_r. destruct (decide (k < p)).
    + apply Z.testbit_neg_r. lia.
    + destruct b; simpl; [|apply Z.bits_0].
      apply Z.bits_above_log2; simpl; lia.
Qed.

Lemma testbit_bit_at_shift x i p k :
  0 ≤ i → 0 ≤ p → 0 ≤ k →
  Z.testbit (Z.shiftl (bit_at x i) p) k = Z.testbit x i && (k =? p).
Proof. intros. by rewrite bit_at_b2z, testbit_b2z_shift. Qed.

(** A fold that ors one contribution per element has a bit set when the start
    or some contribution has. *)
Lemma testbit_fold_lor {A} (g : A → Z) l r k :
  Z.testbit (fold_left (λ r a, Z.lor r (g a)) l r) k =
  Z.testbit r k || existsb (λ a, Z.testbit (g a) k) l.
Proof.
  revert r. induction l as [|a l IH]; intros r; simpl; [by rewrite orb_false_r|].
  by rewrite IH, Z.lor_spec, orb_assoc.
Qed.

Lemma elem_of_zrange n i : i ∈ zrange n ↔ 0 ≤ i < n.
Proof. unfold zrange. rewrite elem_of_seqZ. lia. Qed.

Lemma existsb_zrange (f : Z → bool) n :
  existsb f (zrange n) = true ↔ ∃ i, 0 ≤ i < n ∧ f i = true.
Proof.
  rewrite existsb_exists. setoid_rewrite <-list_elem_of_In.
  by setoid_rewrite elem_of_zrange.
Qed.

Lemma land_pow2_pos x i : 0 ≤ i → (0 <? Z.land x (2 ^ i)) = Z.testbit x i.
Proof.
  intros Hi.
  assert (Z.land x (2 ^ i) = Z.b2z (Z.testbit x i) * 2 ^ i) as ->.
  { rewrite <-Z.shiftl_mul_pow2 by done. apply Z.bits_inj'. intros k Hk.
    rewrite Z.land_spec, Z.pow2_bits_eqb, testbit_b2z_shift, (Z.eqb_sym i k) by lia.
    by destruct (Z.eqb_spec k i) as [->|]; rewrite ?andb_false_r. }
  pose proof (Z.pow_pos_nonneg 2 i). destruct (Z.testbit x i); simpl; zcases; lia.
Qed.

Lemma high_bits_clear_u64 z : (∀ k, 64 ≤ k → Z.testbit z k = false) → is_u64 z.
Proof.
  intros H. replace z with (wrap64 z); [apply wrap64_range|].
  apply Z.bits_inj'. intros k Hk. unfold wrap64.
  destruct (decide (k < 64)).
  - by rewrite Z.mod_pow2_bits_low by lia.
  - rewrite Z.mod_pow2_bits_high, H by lia. done.
Qed.

(** ** Z-order lemmas *)

Lemma testbit_encode_dims n bit dim coords r k :
  0 ≤ bit → 0 ≤ n * bit + dim → 0 ≤ k →
  Z.testbit (encode_dims n bit dim coords r) k = true ↔
  Z.testbit r k = true ∨
  ∃ (j : nat) c, coords !! j = Some c ∧ k = n * bit + dim + j ∧ Z.testbit c bit = true.
Proof.
  intros Hb. revert dim r. induction coords as [|c coords IH]; intros dim r Hp Hk; simpl.
  { split; [by left|]. intros [?|(j & c & Hj & _)]; [done|].
    by rewrite lookup_nil in Hj. }
  rewrite IH, Z.lor_spec, testbit_bit_at_shift, orb_true_iff, andb_true_iff by lia.
  rewrite Z.eqb_eq. split.
  - intros [[?|[??]]|(j & c' & ? & -> & ?)]; [by left| |].
    + right. exists 0%nat, c. split_and!; [done|lia|done].
    + right. exists (S j), c'. split_and!; [done|lia|done].
  - intros [?|([|j] & c' & Hj & -> & ?)]; simplify_eq/=; [by left; left| |].
    + left. right. split; [done|lia].
    + right. exists j, c'. split_and!; [done|lia|done].
Qed.

Lemma testbit_encode_bits n coords bits r k :
  0 ≤ n → (∀ b, b ∈ bits → 0 ≤ b) → 0 ≤ k →
  Z.testbit (fold_left (λ r bit, encode_dims n bit 0 coords r) bits r) k = true ↔
  Z.testbit r k = true ∨
  ∃ b (j : nat) c, b ∈ bits ∧ coords !! j = Some c ∧ k = n * b + j ∧ Z.testbit c b = true.
Proof.
  intros Hn. revert r. induction bits as [|b bits IH]; intros r Hb Hk; simpl.
  { split; [by left|]. intros [?|(b & _ & _ & Hin & _)]; [done|]. set_solver. }
  assert (0 ≤ b) by (apply Hb; set_solver).
  rewrite IH; [|set_solver|done]. rewrite testbit_encode_dims by nia. split.
  - intros [[?|(j & c & ? & -> & ?)]|(b' & j & c & ? & ? & -> & ?)]; [by left| |].
    + right. exists b, j, c. split_and!; [set_solver|done|lia|done].
    + right. exists b', j, c. split_and!; [set_solver|done|lia|done].
  - intros [?|(b' & j & c & [->|?]%elem_of_cons & ? & -> & ?)]; [by left; left| |].
    + left. right. exists j, c. split_and!; [done|lia|done].
    + right. exists b', j, c. split_and!; [set_solver|done|lia|done].
Qed.

(** Bit [n * b + j] of the code is bit [b] of coordinate [j]. *)
Lemma testbit_encode_nd coords (j : nat) c b :
  coords !! j = Some c → 0 ≤ b < 64 / Z.of_nat (length coords) →
  Z.testbit (ZOrder_encode_nd coords) (Z.of_nat (length coords) * b + j) = Z.testbit c b.
Proof.
  intros Hj Hb. pose proof (lookup_lt_Some _ _ _ Hj) as Hlt.
  unfold ZOrder_encode_nd. destruct (Z.eqb_spec (Z.of_nat (length coords)) 0) as [?|Hn];
    [lia|].
  apply eq_true_iff_eq. rewrite testbit_encode_bits; [|lia| |nia].
  2:{ intros ?. rewrite elem_of_zrange. lia. }
  rewrite Z.bits_0. split.
  - intros [?|(b' & j' & c' & _ & Hj' & Heq & ?)]; [done|].
    pose proof (lookup_lt_Some _ _ _ Hj').
    edestruct (Z.div_mod_unique (length coords) b b' j j') as [-> Hjj]; [lia|lia|lia|].
    apply Nat2Z.inj in Hjj as ->. by simplify_eq.
  - intros ?. right. exists b, j, c. rewrite elem_of_zrange. done.
Qed.

Lemma encode_nd_u64 coords : is_u64 (ZOrder_encode_nd coords).
Proof.
  unfold ZOrder_encode_nd. destruct (Z.eqb_spec (Z.of_nat (length coords)) 0) as [?|Hn];
    [done|].
  apply high_bits_clear_u64. intros k Hk. apply not_true_iff_false.
  rewrite testbit_encode_bits; [|lia| |lia].
  2:{ intros ?. rewrite elem_of_zrange. lia. }
  rewrite Z.bits_0. intros [?|(b & j & c & Hb & Hj & -> & _)]; [done|].
  apply elem_of_zrange in Hb. pose proof (lookup_lt_Some _ _ _ Hj).
  pose proof (Z.mul_div_le 64 (Z.of_nat (length coords))). nia.
Qed.

Lemma lookup_decode_dims index n bit dim coords (j : nat) :
  decode_dims index n bit dim coords !! j =
  (λ c, Z.lor c (Z.shiftl (bit_at index (n * bit + (dim + j))) bit)) <$> coords !! j.
Proof.
  revert dim j. induction coords as [|c coords IH]; intros dim [|j]; simpl; try done.
  - by rewrite Z.add_0_r.
  - rewrite IH. destruct (coords !! j); simpl; [|done]. do 5 f_equal. lia.
Qed.

Lemma lookup_decode_bits index n bits (j : nat) coords :
  fold_left (λ coords bit, decode_dims index n bit 0 coords) bits coords !! j =
  (λ c, fold_left (λ c b, Z.lor c (Z.shiftl (bit_at index (n * b + j)) b)) bits c)
    <$> coords !! j.
Proof.
  revert coords. induction bits as [|b bits IH]; intros coords; simpl.
  { by destruct (coords !! j). }
  rewrite IH, lookup_decode_dims. by destruct (coords !! j).
Qed.

Lemma testbit_gather index n nbits j k :
  0 ≤ n → 0 ≤ j → 0 ≤ k →
  Z.testbit (fold_left (λ c b, Z.lor c (Z.shiftl (bit_at index (n * b + j)) b))
               (zrange nbits) 0) k =
  (k <? nbits) && Z.testbit index (n * k + j).
Proof.
  intros Hn Hj Hk. rewrite testbit_fold_lor, Z.bits_0. simpl.
  apply eq_true_iff_eq. rewrite existsb_zrange, andb_true_iff, Z.ltb_lt. split.
  - intros (b & Hb & Hbit). rewrite testbit_bit_at_shift in Hbit by nia.
    apply andb_true_iff in Hbit as [? ->%Z.eqb_eq]. split; [lia|done].
  - intros [? ?]. exists k. rewrite testbit_bit_at_shift, Z.eqb_refl, andb_true_r by nia.
    split; [lia|done].
Qed.

Lemma decode_encode_nd coords :
  coords ≠ [] →
  ZOrder_decode_nd (ZOrder_encode_nd coords) (length coords) =
  Ret (map (λ c, c `mod` 2 ^ (64 / length coords)) coords).
Proof.
  intros Hne. unfold ZOrder_decode_nd.
  rewrite decide_False by by destruct coords. f_equal.
  apply list_eq. intros j. rewrite lookup_decode_bits.
  change (map ?f coords) with (f <$> coords). rewrite list_lookup_fmap.
  destruct (coords !! j) as [c|] eqn:Hc; simpl.
  2:{ rewrite lookup_ge_None_2; [done|]. rewrite length_replicate.
      by apply lookup_ge_None. }
  pose proof (lookup_lt_Some _ _ _ Hc).
  rewrite lookup_replicate_2 by done. simpl. f_equal.
  apply Z.bits_inj'. intros k Hk. rewrite testbit_gather by lia.
  pose proof (Z.div_pos 64 (length coords)).
  destruct (Z.ltb_spec k (64 / length coords)); simpl.
  - rewrite Z.mod_pow2_bits_low by lia. by apply testbit_encode_nd.
  - by rewrite Z.mod_pow2_bits_high by lia.
Qed.

Lemma encode_2d_nd x y : ZOrder_encode_2d x y = ZOrder_encode_nd [x; y].
Proof.
  apply (fold_left_ext _ (λ r i, encode_dims 2 i 0 [x; y] r)).
  intros r i. cbn [encode_dims]. by rewrite Z.add_0_r.
Qed.

Lemma encode_3d_nd x y z : ZOrder_encode_3d x y z = ZOrder_encode_nd [x; y; z].
Proof.
  apply (fold_left_ext _ (λ r i, encode_dims 3 i 0 [x; y; z] r)).
  intros r i. cbn [encode_dims]. by rewrite Z.add_0_r.
Qed.

Lemma decode_2d_bits index bits p :
  fold_left (λ coords bit, decode_dims index 2 bit 0 coords) bits [fst p; snd p] =
  let q := fold_left (λ '(x, y) i,
    (Z.lor x (Z.shiftl (Z.land (Z.shiftr index (2 * i)) 1) i),
     Z.lor y (Z.shiftl (Z.land (Z.shiftr index (2 * i + 1)) 1) i))) bits p in
  [fst q; snd q].
Proof.
  revert p. induction bits as [|b bits IH]; intros [x y]; [done|].
  cbn [fold_left decode_dims fst snd]. rewrite Z.add_0_r. apply (IH (_, _)).
Qed.

Lemma decode_2d_nd index :
  ZOrder_decode_nd index 2 =
  Ret [fst (ZOrder_decode_2d index); snd (ZOrder_decode_2d index)].
Proof. exact (f_equal Ret (decode_2d_bits index (zrange 32) (0, 0))). Qed.

Lemma Ret_pair_inj {A} (a b c d : A) : Ret [a; b] = Ret [c; d] → (a, b) = (c, d).
Proof. by intros [= -> ->]. Qed.

Lemma decode_encode_2d x y :
  ZOrder_decode_2d (ZOrder_encode_2d x y) = (x `mod` 2 ^ 32, y `mod` 2 ^ 32).
Proof.
  rewrite (surjective_pairing (ZOrder_decode_2d _)).
  apply Ret_pair_inj. rewrite <-decode_2d_nd, encode_2d_nd.
  exact (decode_encode_nd [x; y] ltac:(done)).
Qed.

(** ** Hilbert lemmas

    [henc] and [hdec] are the loops without the machine arithmetic: [k] is the
    number of bit levels left, respectively done. *)

Definition quadrant (rx ry : bool) : Z := Z.lxor (3 * Z.b2z rx) (Z.b2z ry).

Fixpoint henc (k : nat) (n x y : Z) : Z :=
  match k with
  | O => 0
  | S k' =>
      let rx := Z.testbit x k' in
      let ry := Z.testbit y k' in
      4 ^ k' * quadrant rx ry +
      (if ry then henc k' n x y
       else if rx then henc k' n (n - 1 - y) (n - 1 - x)
       else henc k' n y x)
  end.

Definition hrot (s rx ry : Z) (p : Z * Z) : Z * Z :=
  if ry =? 0 then
    if rx =? 1 then (s - 1 - snd p, s - 1 - fst p) else (snd p, fst p)
  else p.

Fixpoint hdec (k : nat) (t : Z) : Z * Z :=
  match k with
  | O => (0, 0)
  | S k' =>
      let r := t / 4 ^ k' in
      let rx := Z.land 1 (r / 2) in
      let ry := Z.land 1 (Z.lxor r rx) in
      let p := hrot (2 ^ k') rx ry (hdec k' t) in
      (fst p + 2 ^ k' * rx, snd p + 2 ^ k' * ry)
  end.

Lemma pow4 (k : nat) : 4 ^ k = 2 ^ k * 2 ^ k.
Proof. rewrite <-Z.pow_mul_l. done. Qed.

Lemma quadrant_range rx ry : 0 ≤ quadrant rx ry ≤ 3.
Proof. by destruct rx, ry. Qed.

Lemma henc_range k n x y : 0 ≤ henc k n x y < 4 ^ k.
Proof.
  revert x y. induction k as [|k IH]; intros x y; [done|].
  rewrite Nat2Z.inj_succ, Z.pow_succ_r by lia. cbn [henc].
  pose proof (quadrant_range (Z.testbit x k) (Z.testbit y k)).
  destruct (Z.testbit y k); [|destruct (Z.testbit x k)].
  - specialize (IH x y). nia.
  - specialize (IH (n - 1 - y) (n - 1 - x)). nia.
  - specialize (IH y x). nia.
Qed.

Lemma land_1_mod z : Z.land 1 z = z `mod` 2.
Proof. rewrite Z.land_comm. apply (Z.land_ones _ 1). lia. Qed.

Lemma land_1_range z : 0 ≤ Z.land 1 z ≤ 1.
Proof. rewrite land_1_mod. pose proof (Z.mod_pos_bound z 2). lia. Qed.

Lemma land_1_b2z z : Z.land 1 z = Z.b2z (Z.odd z).
Proof. by rewrite land_1_mod, Zmod_odd. Qed.

Lemma odd_lxor a b : Z.odd (Z.lxor a b) = xorb (Z.odd a) (Z.odd b).
Proof. by rewrite <-!Z.bit0_odd, Z.lxor_spec. Qed.

Lemma hdec_low k t q : hdec k (t + 4 ^ k * q) = hdec k t.
Proof.
  revert t q. induction k as [|k IH]; intros t q; [done|].
  rewrite Nat2Z.inj_succ, Z.pow_succ_r by lia. cbn [hdec].
  assert (0 < 4 ^ k) by (apply Z.pow_pos_nonneg; lia).
  replace (t + 4 * 4 ^ k * q) with (t + 4 ^ k * (4 * q)) by lia. rewrite IH.
  replace ((t + 4 ^ k * (4 * q)) / 4 ^ k) with (t / 4 ^ k + 4 * q).
  2:{ rewrite (Z.mul_comm (4 ^ k)), Z.div_add by lia. done. }
  replace ((t / 4 ^ k + 4 * q) / 2) with (t / 4 ^ k / 2 + 2 * q).
  2:{ replace (t / 4 ^ k + 4 * q) with (t / 4 ^ k + (2 * q) * 2) by lia.
      by rewrite Z.div_add. }
  assert (∀ a, Z.land 1 (a + 2 * q) = Z.land 1 a) as E1.
  { intros a. by rewrite !land_1_b2z, Z.odd_add_mul_2. }
  rewrite E1.
  assert (∀ a b, Z.land 1 (Z.lxor (a + 4 * q) b) = Z.land 1 (Z.lxor a b)) as E2.
  { intros a b. rewrite !land_1_b2z, !odd_lxor.
    replace (a + 4 * q) with (a + 2 * (2 * q)) by lia. by rewrite Z.odd_add_mul_2. }
  by rewrite E2.
Qed.

Lemma mod_pow2_succ x (k : nat) :
  x `mod` 2 ^ Z.succ k = x `mod` 2 ^ k + 2 ^ k * Z.b2z (Z.testbit x k).
Proof.
  rewrite Z.pow_succ_r, (Z.mul_comm 2), Z.rem_mul_r by lia.
  rewrite <-Z.testbit_spec' by lia. done.
Qed.

(** Flipping all bits below [n] flips the low [k] bits. *)
Lemma flip_mod (order k : nat) y :
  (k ≤ order)%nat → (2 ^ order - 1 - y) `mod` 2 ^ k = 2 ^ k - 1 - y `mod` 2 ^ k.
Proof.
  intros Hk. assert (0 < 2 ^ k) by lia.
  replace (2 ^ order) with (2 ^ (order - k) * 2 ^ k) by (rewrite <-Z.pow_add_r by lia; f_equal; lia).
  pose proof (Z.mod_pos_bound y (2 ^ k)). pose proof (Z.div_mod y (2 ^ k)).
  symmetry. apply (Z.mod_unique _ _ (2 ^ (order - k) - 1 - y / 2 ^ k)); [lia|nia].
Qed.

Lemma hdec_henc (order k : nat) x y :
  (k ≤ order)%nat →
  hdec k (henc k (2 ^ order) x y) = (x `mod` 2 ^ k, y `mod` 2 ^ k).
Proof.
  revert x y. induction k as [|k IH]; intros x y Hk.
  { by rewrite !Z.mod_1_r. }
  rewrite Nat2Z.inj_succ, !mod_pow2_succ. cbn [henc].
  set (rx := Z.testbit x k). set (ry := Z.testbit y k).
  assert (∀ x' y', let t := 4 ^ k * quadrant rx ry + henc k (2 ^ order) x' y' in
    hdec (S k) t =
    (let p := hrot (2 ^ k) (Z.b2z rx) (Z.b2z ry) (x' `mod` 2 ^ k, y' `mod` 2 ^ k) in
     (fst p + 2 ^ k * Z.b2z rx, snd p + 2 ^ k * Z.b2z ry))) as Hstep.
  { intros x' y' t. cbn [hdec].
    pose proof (henc_range k (2 ^ order) x' y') as Hr.
    assert (t / 4 ^ k = quadrant rx ry) as ->.
    { unfold t. rewrite Z.mul_comm, Z.div_add_l, Z.div_small by lia. lia. }
    assert (hdec k t = (x' `mod` 2 ^ k, y' `mod` 2 ^ k)) as ->.
    { unfold t. rewrite Z.add_comm, hdec_low. apply IH. lia. }
    by destruct rx, ry. }
  pose proof (flip_mod order k x). pose proof (flip_mod order k y).
  destruct ry eqn:Ey; [|destruct rx eqn:Ex]; rewrite Hstep; unfold hrot; simpl.
  - done.
  - f_equal; lia.
  - done.
Qed.

Lemma pow4_le_u64 (k : nat) : (k ≤ 31)%nat → 4 ^ k * 4 ≤ 2 ^ 64.
Proof.
  intros. change (2 ^ 64) with (4 ^ 31 * 4). apply Z.mul_le_mono_nonneg_r; [lia|].
  apply Z.pow_le_mono_r; lia.
Qed.

Lemma pow2_le_u64 (k : nat) : (k ≤ 62)%nat → 2 ^ k * 4 ≤ 2 ^ 64.
Proof.
  intros. change (2 ^ 64) with (2 ^ 62 * 4). apply Z.mul_le_mono_nonneg_r; [lia|].
  apply Z.pow_le_mono_r; lia.
Qed.

Ltac step64 :=
  match goal with
  | |- context [mbind ?f (u64_of ?chk ?z)] =>
      rewrite (u64_of_in chk z) by (unfold is_u64; nia);
      cbn [mbind outcome_bind]
  end.

Lemma encode_loop_henc chk (order k fuel : nat) x y d :
  (k ≤ order ≤ 32)%nat → (k ≤ fuel)%nat →
  0 ≤ x < 2 ^ order → 0 ≤ y < 2 ^ order → 0 ≤ d → d + 4 ^ k ≤ 2 ^ 64 →
  hilbert_encode_loop chk fuel (2 ^ order) (2 ^ k / 2) x y d =
  Ret (d + henc k (2 ^ order) x y).
Proof.
  revert fuel x y d. induction k as [|k IH]; intros fuel x y d Hk Hf Hx Hy Hd Hdk.
  { simpl henc. rewrite Z.add_0_r. by destruct fuel. }
  destruct fuel as [|fuel]; [lia|].
  pose proof (pow4_le_u64 k) as H4. pose proof (pow4 k) as Hp.
  rewrite Nat2Z.inj_succ in *. rewrite Z.pow_succ_r in Hdk by lia.
  rewrite Z.pow_succ_r, (Z.mul_comm 2), Z.div_mul by lia.
  assert (0 < 2 ^ k) by lia. assert (0 < 2 ^ order) by lia.
  assert (2 ^ order ≤ 2 ^ 32) by (apply Z.pow_le_mono_r; lia).
  change (2 ^ 64) with 18446744073709551616 in *.
  change (2 ^ 32) with 4294967296 in *.
  cbn [hilbert_encode_loop henc]. rewrite (proj2 (Z.eqb_neq _ 0)) by lia.
  rewrite !land_pow2_pos by lia.
  set (rx := Z.testbit x k). set (ry := Z.testbit y k).
  change (if rx then 1 else 0) with (Z.b2z rx). change (if ry then 1 else 0) with (Z.b2z ry).
  fold (quadrant rx ry). pose proof (quadrant_range rx ry) as Hq.
  unfold u64_mul, u64_add, u64_sub. rewrite <-Hp.
  assert (4 ^ k * quadrant rx ry ≤ 4 ^ k * 3) by nia.
  assert (0 ≤ 4 ^ k * quadrant rx ry) by nia.
  do 3 step64.
  destruct ry; [|destruct rx]; simpl Z.b2z; simpl Z.eqb; cbv iota.
  - rewrite IH by lia. f_equal. lia.
  - do 3 step64. cbn [mret outcome_ret mbind outcome_bind]. rewrite IH by lia. f_equal. lia.
  - cbn [mret outcome_ret mbind outcome_bind]. rewrite IH by lia. f_equal. lia.
Qed.

Lemma hrot_range s rx ry p :
  0 ≤ fst p < s → 0 ≤ snd p < s → 0 ≤ fst (hrot s rx ry p) < s ∧ 0 ≤ snd (hrot s rx ry p) < s.
Proof. intros. unfold hrot. repeat case_match; simpl; lia. Qed.

Lemma hdec_range k t : 0 ≤ fst (hdec k t) < 2 ^ k ∧ 0 ≤ snd (hdec k t) < 2 ^ k.
Proof.
  induction k as [|k IH]; [simpl; lia|].
  rewrite Nat2Z.inj_succ, Z.pow_succ_r by lia. cbn [hdec].
  set (rx := Z.land 1 _). set (ry := Z.land 1 _).
  assert (0 ≤ rx ≤ 1) by apply land_1_range. assert (0 ≤ ry ≤ 1) by apply land_1_range.
  destruct (hrot_range (2 ^ k) rx ry (hdec k t)); [lia..|]. cbn [fst snd]. nia.
Qed.

Lemma decode_loop_hdec chk (order k fuel : nat) t :
  (k ≤ order ≤ 63)%nat → (order - k ≤ fuel)%nat → 0 ≤ t →
  hilbert_decode_loop chk fuel (2 ^ order) (2 ^ k) (fst (hdec k t)) (snd (hdec k t)) (t / 4 ^ k) =
  Ret (hdec order t).
Proof.
  revert k. induction fuel as [|fuel IH]; intros k Hk Hf Ht.
  { assert (k = order) as -> by lia. simpl. by destruct (hdec order t). }
  cbn [hilbert_decode_loop]. destruct (decide (k = order)) as [->|Hne].
  { rewrite (proj2 (Z.ltb_ge _ _)) by lia. by destruct (hdec order t). }
  rewrite (proj2 (Z.ltb_lt (2 ^ k) _)) by (apply Z.pow_lt_mono_r; lia).
  pose proof (pow2_le_u64 k ltac:(lia)) as H2.
  change (2 ^ 64) with 18446744073709551616 in *.
  pose proof (hdec_range k t) as [Hx Hy].
  specialize (IH (S k) ltac:(lia) ltac:(lia) Ht).
  rewrite Nat2Z.inj_succ, Z.pow_succ_r, (Z.mul_comm 2) in IH by lia.
  rewrite Z.pow_succ_r, (Z.mul_comm 4), <-Z.div_div in IH by lia.
  cbn [hdec] in IH.
  set (rx := Z.land 1 (t / 4 ^ k / 2)) in *.
  set (ry := Z.land 1 (Z.lxor (t / 4 ^ k) rx)) in *.
  assert (0 ≤ rx ≤ 1) by apply land_1_range. assert (0 ≤ ry ≤ 1) by apply land_1_range.
  assert (0 ≤ 2 ^ k * rx ≤ 2 ^ k) by nia. assert (0 ≤ 2 ^ k * ry ≤ 2 ^ k) by nia.
  pose proof (hrot_range (2 ^ k) rx ry (hdec k t) Hx Hy) as [??].
  cbn [fst snd] in IH. unfold u64_sub, u64_mul, u64_add. unfold hrot in *.
  destruct (ry =? 0); [destruct (rx =? 1)|]; cbn [fst snd mret outcome_ret mbind outcome_bind] in *.
  - do 3 step64. cbn [mret outcome_ret mbind outcome_bind]. do 5 step64. exact IH.
  - do 5 step64. exact IH.
  - do 5 step64. exact IH.
Qed.

(** ** Row-major lemmas *)

(** The mathematical row-major index and the number of elements. *)
Fixpoint row_major (linear : Z) (coords dims : list Z) : Z :=
  match coords, dims with
  | c :: coords', n :: dims' => row_major (linear * n + c) coords' dims'
  | _, _ => linear
  end.

Definition volume (dims : list Z) : Z := fold_right Z.mul 1 dims.

Definition in_box (coords dims : list Z) : Prop := Forall2 (λ c n, 0 ≤ c < n) coords dims.

Lemma volume_pos coords dims : in_box coords dims → 0 < volume dims.
Proof. induction 1; simpl; [lia|nia]. Qed.

Lemma row_major_range coords dims a :
  in_box coords dims → 0 ≤ a →
  a * volume dims ≤ row_major a coords dims < (a + 1) * volume dims.
Proof.
  intros H. revert a. induction H as [|c n cs ns Hc H IH]; intros a Ha; simpl; [lia|].
  pose proof (volume_pos _ _ H). specialize (IH (a * n + c) ltac:(nia)). nia.
Qed.

Lemma row_major_inj coords1 coords2 dims a1 a2 :
  in_box coords1 dims → in_box coords2 dims → 0 ≤ a1 → 0 ≤ a2 →
  row_major a1 coords1 dims = row_major a2 coords2 dims → a1 = a2 ∧ coords1 = coords2.
Proof.
  intros H1. revert coords2 a1 a2.
  induction H1 as [|c n cs ns Hc H IH]; intros cs2 a1 a2 H2 ??;
    inversion H2 as [|c2 ? cs2' ? ? H2']; subst; simpl; [done|].
  intros E. apply IH in E as [E ->]; [|done|nia|nia].
  assert (a1 = a2) as -> by nia. split; [done|]. f_equal. lia.
Qed.

Lemma row_major_index_small chk coords dims a :
  in_box coords dims → 0 ≤ a → (a + 1) * volume dims ≤ 2 ^ 64 →
  row_major_index chk a coords dims = Ret (row_major a coords dims).
Proof.
  change (2 ^ 64) with 18446744073709551616.
  intros H. revert a. induction H as [|c n cs ns Hc H IH]; intros a Ha Hv; [done|].
  simpl volume in Hv. cbn [row_major_index row_major].
  pose proof (volume_pos _ _ H) as Hp.
  assert ((a * n + c + 1) * volume ns ≤ 18446744073709551616) as Hv' by nia.
  assert (0 ≤ a * n) by nia. assert (a * n + c + 1 ≤ 18446744073709551616) by nia.
  unfold u64_mul, u64_add. do 2 step64. apply IH; [lia|done].
Qed.

(** ** Properties *)

(** Decoding a Z-order index of [n] coordinates gives every coordinate back
    modulo [2^(64/n)], the bits a 64-bit index has room for, so the encoding is
    injective on coordinates that fit; the index is a [u64]; and the 2-d and
    3-d encoders are the n-d one at [n = 2] and [n = 3]. *)
Theorem ZOrder_roundtrip (coords : list Z) :
  coords ≠ [] →
  is_u64 (ZOrder_encode_nd coords) ∧
  ZOrder_decode_nd (ZOrder_encode_nd coords) (length coords) =
    Ret ((λ c, c `mod` 2 ^ (64 / Z.of_nat (length coords))) <$> coords) ∧
  (∀ x y, coords = [x; y] →
    ZOrder_encode_2d x y = ZOrder_encode_nd coords ∧
    ZOrder_decode_2d (ZOrder_encode_2d x y) = (x `mod` 2 ^ 32, y `mod` 2 ^ 32)) ∧
  (∀ x y z, coords = [x; y; z] → ZOrder_encode_3d x y z = ZOrder_encode_nd coords).
Proof.
  intros Hne. split_and!.
  - apply encode_nd_u64.
  - by apply decode_encode_nd.
  - intros x y ->. split; [exact (encode_2d_nd x y)|exact (decode_encode_2d x y)].
  - intros x y z ->. exact (encode_3d_nd x y z).
Qed.

Lemma ZOrder_roundtrip_witness :
  ZOrder_decode_nd (ZOrder_encode_nd [3; 5; 7]) 3 = Ret [3; 5; 7].
Proof.
  apply (ZOrder_roundtrip [3; 5; 7]). discriminate.
Defined.

(** C32. The Hilbert curve of any order up to 32 is a bijection between the
    [2^order] by [2^order] grid and the distances [0 .. 4^order - 1]: encoding a
    grid point neither overflows, in any build profile, nor leaves that range,
    decoding the distance gives the point back, and both loops end. *)
Theorem Hilbert_roundtrip (chk : bool) (x y order : Z) :
  0 ≤ order ≤ 32 → 0 ≤ x < 2 ^ order → 0 ≤ y < 2 ^ order →
  ∃ d, Hilbert_encode_2d chk x y order = Ret d ∧ 0 ≤ d < 4 ^ order ∧
       Hilbert_decode_2d chk d order = Ret (x, y).
Proof.
  intros Ho Hx Hy. rewrite <-(Z2Nat.id order) in * by lia.
  set (k := Z.to_nat order) in *. clearbody k.
  assert (4 ^ k ≤ 2 ^ 64).
  { change (2 ^ 64) with (4 ^ 32). apply Z.pow_le_mono_r; lia. }
  pose proof (henc_range k (2 ^ k) x y) as Hr.
  exists (henc k (2 ^ k) x y). split_and!; [|lia|lia|].
  - unfold Hilbert_encode_2d, shl_one. rewrite (proj2 (Z.ltb_lt _ _)) by lia.
    cbn [mbind outcome_bind]. rewrite encode_loop_henc by (unfold hilbert_fuel; lia). done.
  - unfold Hilbert_decode_2d, shl_one. rewrite (proj2 (Z.ltb_lt _ _)) by lia.
    cbn [mbind outcome_bind].
    pose proof (decode_loop_hdec chk k 0 hilbert_fuel (henc k (2 ^ k) x y)) as H1.
    cbn [hdec fst snd] in H1. rewrite Z.div_1_r in H1.
    change (2 ^ 0%nat) with 1 in H1. rewrite H1 by (unfold hilbert_fuel; lia).
    rewrite hdec_henc by lia. by rewrite !Z.mod_small by lia.
Qed.

Lemma Hilbert_roundtrip_witness :
  ∃ d, Hilbert_encode_2d true 5 9 4 = Ret d ∧ 0 ≤ d < 4 ^ 4 ∧
       Hilbert_decode_2d true d 4 = Ret (5, 9).
Proof. apply (Hilbert_roundtrip true 5 9 4); lia. Defined.

(** The row-major layout of an array whose total size fits in a [u64] gives
    every in-range coordinate an offset computed without overflow, whose element
    lies inside the array, and elements at different coordinates do not overlap. *)
Theorem RowMajor_layout (chk : bool) (dims c1 c2 : list Z) (element_size order : Z) :
  0 < element_size → volume dims * element_size < 2 ^ 64 →
  in_box c1 dims → in_box c2 dims →
  ∃ o1 o2,
    physical_offset chk RowMajor c1 dims element_size order = Ret o1 ∧
    physical_offset chk RowMajor c2 dims element_size order = Ret o2 ∧
    0 ≤ o1 ∧ o1 + element_size ≤ volume dims * element_size ∧
    (c1 ≠ c2 → o1 + element_size ≤ o2 ∨ o2 + element_size ≤ o1).
Proof.
  intros He Hv H1 H2. pose proof (volume_pos _ _ H1) as Hp.
  pose proof (row_major_range _ _ 0 H1) as R1. pose proof (row_major_range _ _ 0 H2) as R2.
  assert (∀ c, in_box c dims →
    physical_offset chk RowMajor c dims element_size order =
    Ret (row_major 0 c dims * element_size)) as Ho.
  { intros c Hc. pose proof (row_major_range _ _ 0 Hc).
    unfold physical_offset. rewrite row_major_index_small by (done || nia).
    cbn [mbind outcome_bind]. unfold u64_mul.
    rewrite u64_of_in by (unfold is_u64; nia). done. }
  eexists _, _. split_and!; [by apply Ho|by apply Ho|nia|nia|].
  intros Hne. assert (row_major 0 c1 dims ≠ row_major 0 c2 dims).
  { intros E. by apply row_major_inj in E as [_ ?]. }
  nia.
Qed.

Lemma RowMajor_layout_witness :
  ∃ o1 o2,
    physical_offset true RowMajor [1; 2] [3; 4] 8 0 = Ret o1 ∧
    physical_offset true RowMajor [2; 0] [3; 4] 8 0 = Ret o2 ∧
    0 ≤ o1 ∧ o1 + 8 ≤ volume [3; 4] * 8 ∧
    ([1; 2] ≠ [2; 0] → o1 + 8 ≤ o2 ∨ o2 + 8 ≤ o1).
Proof.
  apply (RowMajor_layout true [3; 4] [1; 2] [2; 0] 8 0);
    [lia|vm_compute; reflexivity|repeat constructor; lia|repeat constructor; lia].
Defined.
