(* ===== verification/Repd.v ===== *)
(** * Representation descriptors and layouts

    Models [src/src/bd/src/repd.rs]: the representation type [RepD] with its
    size, alignment, compatibility and subsumption, and the [LayoutRegistry]
    that resolves field offsets.  [size] and the offset computation use machine
    arithmetic.  [compatible] and [subsumes] recurse through pairs of
    representations and through the constraints of generics, so they carry as
    fuel the number of nodes of both arguments, which [RepD_compatible_unfold]
    shows is always enough.  The [*Rep] structs that mention [RepD] are the
    arguments of their constructor. *)

From S2P Require Import Prelude Capd Reld Manifold.
From stdpp Require Import options.
#[local] Open Scope Z_scope.

Definition POINTER_SIZE : Z := 8.

Definition LayoutId : Type := Z.
Definition FieldId : Type := Z.

Record ManifoldSpatialRep := {
  m_dimensions : Z;
  m_dim_sizes : list Z;
  m_element_size : Z;
  m_curve : SpaceFillingCurve;
  m_order : Z;
  m_total_bytes : Z;
}.

Record GestaltSuperpositionRep := {
  g_variants : list string;
  g_max_size : Z;
  g_max_align : Z;
  g_degraded : bool;
  g_tag_offset : option Z;
}.

Record ConceptRelationalRep := {
  cr_field_names : list string;
  cr_field_offsets : list (string * Z);
  cr_total_size : Z;
  cr_align : Z;
  cr_use_soa : bool;
}.

Inductive RepD : Type :=
  | RepD_Byte (size align : Z)
  | RepD_Struct (fields : list (Z * RepD)) (total_size align : Z)
  | RepD_Array (element : RepD) (count : Z)
  | RepD_Enum (variants : list (Z * RepD))
  | RepD_Ptr (pointee : RepD)
  | RepD_Union (alternatives : list RepD) (max_size max_align : Z)
  | RepD_Func (params : list RepD) (result : RepD)
  | RepD_ManifoldSpatial (m : ManifoldSpatialRep)
  | RepD_GestaltSuperposition (g : GestaltSuperpositionRep)
  | RepD_ConceptRelational (c : ConceptRelationalRep)
  | RepD_Generic (name : string) (constraints : list BDConstraint)
  | RepD_State (layout : LayoutId)
  | RepD_Ref (layout : LayoutId) (field : FieldId)
  | RepD_DependentArray (elem : RepD) (count_var : string)
with BDConstraint : Type :=
  | CapDAtLeast (c : CapD)
  | RepDCompatibleWith (r : RepD)
  | RelDContains (r : RelD).

(** [val.div_ceil(align) * align], after [assert!(align > 0)]. *)
Definition align_to (chk : bool) (val align : Z) : outcome Z :=
  if 0 <? align then u64_mul chk ((val + align - 1) / align) align else Panic.

(** [sizes.max().unwrap_or(0)], the sizes computed in order. *)
Fixpoint max_size {A} (size : A → outcome Z) (l : list A) : outcome Z :=
  match l with
  | [] => Ret 0
  | a :: l' => s ← size a; m ← max_size size l'; mret (Z.max s m)
  end.

Fixpoint RepD_size (chk : bool) (r : RepD) : outcome Z :=
  match r with
  | RepD_Byte size _ => Ret size
  | RepD_Struct _ total_size _ => Ret total_size
  | RepD_Array element count => s ← RepD_size chk element; u64_mul chk s count
  | RepD_Enum variants =>
      max_variant ← max_size (λ tv, RepD_size chk (snd tv)) variants;
      aligned_variant ← align_to chk max_variant 8;
      u64_add chk 8 aligned_variant
  | RepD_Ptr _ => Ret POINTER_SIZE
  | RepD_Union _ max_size _ => Ret max_size
  | RepD_Func _ _ => Ret POINTER_SIZE
  | RepD_Generic _ _ => Ret 0
  | RepD_ManifoldSpatial m => Ret (m_total_bytes m)
  | RepD_GestaltSuperposition g => Ret (g_max_size g)
  | RepD_ConceptRelational c => Ret (cr_total_size c)
  | RepD_State _ => Ret 0
  | RepD_Ref _ _ => Ret POINTER_SIZE
  | RepD_DependentArray _ _ => Ret 0
  end.

Fixpoint RepD_alignment (r : RepD) : Z :=
  match r with
  | RepD_Byte _ align => align
  | RepD_Struct _ _ align => align
  | RepD_Array element _ => RepD_alignment element
  | RepD_Enum _ => 8
  | RepD_Ptr _ => POINTER_SIZE
  | RepD_Union _ _ max_align => max_align
  | RepD_Func _ _ => POINTER_SIZE
  | RepD_Generic _ _ => 1
  | RepD_ManifoldSpatial m => Z.max (m_element_size m) 8
  | RepD_GestaltSuperposition g => g_max_align g
  | RepD_ConceptRelational c => Z.max (cr_align c) 1
  | RepD_State _ => 1
  | RepD_Ref _ _ => POINTER_SIZE
  | RepD_DependentArray elem _ => RepD_alignment elem
  end.

(** ** Compatibility and subsumption *)

(** [a.iter().zip(&b).all(f)] after the test that the lengths agree. *)
Fixpoint zip_all {A B} (f : A → B → outcome bool) (l1 : list A) (l2 : list B) : outcome bool :=
  match l1, l2 with
  | a :: l1', b :: l2' => ok ← f a b; if (ok : bool) then zip_all f l1' l2' else Ret false
  | _, _ => Ret true
  end.

Definition same_length_all {A B} (f : A → B → outcome bool) (l1 : list A) (l2 : list B) :
    outcome bool :=
  if negb (Nat.eqb (length l1) (length l2)) then Ret false else zip_all f l1 l2.

(** [key == key && rec(value)] on the pairs of structs and enums. *)
Definition keyed (rec : RepD → RepD → outcome bool) (x y : Z * RepD) : outcome bool :=
  if fst x =? fst y then rec (snd x) (snd y) else Ret false.

(** The structural arms, the same text in [compatible] and [subsumes]. *)
Definition structural (rec : RepD → RepD → outcome bool) (a b : RepD) : outcome bool :=
  match a, b with
  | RepD_Struct fa _ _, RepD_Struct fb _ _ => same_length_all (keyed rec) fa fb
  | RepD_Array ea ca, RepD_Array eb cb => if ca =? cb then rec ea eb else Ret false
  | RepD_Enum va, RepD_Enum vb => same_length_all (keyed rec) va vb
  | RepD_Ptr pa, RepD_Ptr pb => rec pa pb
  | RepD_Union xa _ _, RepD_Union xb _ _ => same_length_all rec xa xb
  | RepD_Func pa ra, RepD_Func pb rb =>
      ok ← same_length_all rec pa pb;
      if (ok : bool) then rec ra rb else Ret false
  | _, _ => Ret false
  end.

Fixpoint generic_satisfies_constraints (compatible : RepD → RepD → outcome bool)
    (constraints : list BDConstraint) (concrete : RepD) : outcome bool :=
  match constraints with
  | [] => Ret true
  | RepDCompatibleWith required :: rest =>
      ok ← compatible concrete required;
      if (ok : bool) then generic_satisfies_constraints compatible rest concrete else Ret false
  | _ :: rest => generic_satisfies_constraints compatible rest concrete
  end.

Definition is_byte (r : RepD) : bool := match r with RepD_Byte _ _ => true | _ => false end.

(** The body of [RepD::compatible], given its own recursive calls. *)
Definition compatible_body (chk : bool) (rec : RepD → RepD → outcome bool)
    (self other : RepD) : outcome bool :=
  match self, other with
  | RepD_Generic _ constraints, _ => generic_satisfies_constraints rec constraints other
  | _, RepD_Generic _ constraints => generic_satisfies_constraints rec constraints self
  | _, _ =>
      sa ← RepD_size chk self;
      sb ← RepD_size chk other;
      if negb (sa =? sb) || negb (RepD_alignment self =? RepD_alignment other) then Ret false
      else if is_byte self || is_byte other then Ret true
      else structural rec self other
  end.

Fixpoint node_count (r : RepD) : nat :=
  match r with
  | RepD_Struct fields _ _ => S (list_sum (map (λ f, node_count (snd f)) fields))
  | RepD_Array element _ => S (node_count element)
  | RepD_Enum variants => S (list_sum (map (λ v, node_count (snd v)) variants))
  | RepD_Ptr pointee => S (node_count pointee)
  | RepD_Union alternatives _ _ => S (list_sum (map node_count alternatives))
  | RepD_Func params result => S (list_sum (map node_count params) + node_count result)
  | RepD_Generic _ constraints => S (list_sum (map constraint_count constraints))
  | RepD_DependentArray elem _ => S (node_count elem)
  | _ => 1
  end%nat
with constraint_count (c : BDConstraint) : nat :=
  match c with
  | RepDCompatibleWith r => node_count r
  | _ => 1
  end.

Fixpoint compatible_fuel (chk : bool) (fuel : nat) (self other : RepD) : outcome bool :=
  match fuel with
  | O => Panic
  | S fuel' => compatible_body chk (compatible_fuel chk fuel') self other
  end.

Definition RepD_compatible (chk : bool) (self other : RepD) : outcome bool :=
  compatible_fuel chk (node_count self + node_count other) self other.

(** The body of [RepD::subsumes]. *)
Definition subsumes_body (chk : bool) (rec : RepD → RepD → outcome bool)
    (self other : RepD) : outcome bool :=
  early ← match self with
    | RepD_Byte size align =>
        s ← RepD_size chk other;
        mret ((size =? s) && (align =? RepD_alignment other))
    | _ => Ret false
    end;
  if (early : bool) then Ret true else
  match self with
  | RepD_Generic _ constraints =>
      generic_satisfies_constraints (RepD_compatible chk) constraints other
  | _ => structural rec self other
  end.

Fixpoint subsumes_fuel (chk : bool) (fuel : nat) (self other : RepD) : outcome bool :=
  match fuel with
  | O => Panic
  | S fuel' => subsumes_body chk (subsumes_fuel chk fuel') self other
  end.

Definition RepD_subsumes (chk : bool) (self other : RepD) : outcome bool :=
  subsumes_fuel chk (node_count self + node_count other) self other.

(** [field_offset] and [field_rep]; the two errors carry only text. *)
Definition RepD_field_offset (self : RepD) (index : nat) : option Z :=
  match self with
  | RepD_Struct fields _ _ => fst <$> fields !! index
  | _ => None
  end.

Definition RepD_field_rep (self : RepD) (index : nat) : option RepD :=
  match self with
  | RepD_Struct fields _ _ => snd <$> fields !! index
  | _ => None
  end.

Definition dependent_array_size (chk : bool) (elem_size count : Z) : outcome Z :=
  u64_mul chk elem_size count.

(** ** The layout registry *)

Record LayoutField := {
  lf_name : string;
  lf_field_id : FieldId;
  lf_offset : Z;
  lf_size : Z;
  lf_repd : RepD;
}.

Record LayoutDef := {
  ld_name : string;
  ld_fields : list LayoutField;
  ld_total_size : Z;
  ld_alignment : Z;
}.

Record LayoutRegistry := {
  lr_names : gmap string LayoutId;
  lr_layouts : list LayoutDef;
}.

Definition LayoutRegistry_new : LayoutRegistry := {| lr_names := ∅; lr_layouts := [] |}.

(** [if field_align > 1 && !offset.is_multiple_of(field_align) { align_to }] *)
Definition bump (chk : bool) (offset field_align : Z) : outcome Z :=
  if (1 <? field_align) && negb (offset `mod` field_align =? 0)
  then align_to chk offset field_align else Ret offset.

(** The loop of [register] over [fields.into_iter().enumerate()]. *)
Fixpoint register_fields (chk : bool) (index current_offset max_align : Z)
    (fields : list (string * RepD)) : outcome (list LayoutField * Z * Z) :=
  match fields with
  | [] => Ret ([], current_offset, max_align)
  | (field_name, repd) :: fields' =>
      let field_align := Z.max (RepD_alignment repd) 1 in
      field_size ← RepD_size chk repd;
      current_offset ← bump chk current_offset field_align;
      let max_align := Z.max max_align field_align in
      let field := {| lf_name := field_name; lf_field_id := wrap32 index;
                      lf_offset := current_offset; lf_size := field_size;
                      lf_repd := repd |} in
      next ← u64_add chk current_offset field_size;
      '(rest, off, al) ← register_fields chk (index + 1) next max_align fields';
      mret (field :: rest, off, al)
  end.

Definition LayoutRegistry_register (chk : bool) (self : LayoutRegistry) (name : string)
    (fields : list (string * RepD)) : outcome (LayoutRegistry * LayoutId) :=
  '(resolved, current_offset, max_align) ← register_fields chk 0 0 1 fields;
  let alignment := Z.max max_align 1 in
  total_size ← (if current_offset =? 0 then Ret 0
                else if current_offset `mod` alignment =? 0 then Ret current_offset
                else align_to chk current_offset alignment);
  let layout := {| ld_name := name; ld_fields := resolved;
                   ld_total_size := total_size; ld_alignment := alignment |} in
  let id := wrap32 (Z.of_nat (length (lr_layouts self))) in
  mret ({| lr_names := <[name := id]> (lr_names self);
           lr_layouts := lr_layouts self ++ [layout] |}, id).

Definition LayoutRegistry_get (self : LayoutRegistry) (id : LayoutId) : option LayoutDef :=
  lr_layouts self !! Z.to_nat id.

Definition LayoutRegistry_get_by_name (self : LayoutRegistry) (name : string) :
    option LayoutDef :=
  id ← lr_names self !! name; LayoutRegistry_get self id.

Definition LayoutRegistry_state_size (self : LayoutRegistry) (id : LayoutId) : Z :=
  default 0 (ld_total_size <$> LayoutRegistry_get self id).

Definition find_field (self : LayoutRegistry) (layout : LayoutId) (field : string) :
    option LayoutField :=
  l ← LayoutRegistry_get self layout; find (λ f, String.eqb (lf_name f) field) (ld_fields l).

Definition LayoutRegistry_field_offset (self : LayoutRegistry) layout field : option Z :=
  lf_offset <$> find_field self layout field.
Definition LayoutRegistry_field_size (self : LayoutRegistry) layout field : option Z :=
  lf_size <$> find_field self layout field.
Definition LayoutRegistry_field_repd (self : LayoutRegistry) layout field : option RepD :=
  lf_repd <$> find_field self layout field.

(** ** Specifications *)

(** No generic anywhere. *)
Definition is_generic (r : RepD) : bool :=
  match r with RepD_Generic _ _ => true | _ => false end.

Fixpoint generic_free (r : RepD) : bool :=
  match r with
  | RepD_Struct fields _ _ => forallb (λ f, generic_free (snd f)) fields
  | RepD_Array element _ => generic_free element
  | RepD_Enum variants => forallb (λ v, generic_free (snd v)) variants
  | RepD_Ptr pointee => generic_free pointee
  | RepD_Union alternatives _ _ => forallb generic_free alternatives
  | RepD_Func params result => forallb generic_free params && generic_free result
  | RepD_Generic _ _ => false
  | RepD_DependentArray elem _ => generic_free elem
  | _ => true
  end.

(** The size a representation carries itself is a [u64]. *)
Definition size_u64 (r : RepD) : Prop :=
  match r with
  | RepD_Byte size _ => is_u64 size
  | RepD_Struct _ total _ => is_u64 total
  | RepD_Union _ size _ => is_u64 size
  | RepD_ManifoldSpatial m => is_u64 (m_total_bytes m)
  | RepD_GestaltSuperposition g => is_u64 (g_max_size g)
  | RepD_ConceptRelational c => is_u64 (cr_total_size c)
  | _ => True
  end.

Definition field_align (f : LayoutField) : Z := Z.max (RepD_alignment (lf_repd f)) 1.

(** Fields in order, aligned, disjoint, between [lo] and [hi]. *)
Fixpoint laid_out (lo : Z) (fs : list LayoutField) (hi : Z) : Prop :=
  match fs with
  | [] => lo ≤ hi
  | f :: fs' =>
      lo ≤ lf_offset f ∧ (field_align f | lf_offset f) ∧ 0 ≤ lf_size f ∧
      laid_out (lf_offset f + lf_size f) fs' hi
  end.

(** ** Fuel *)

Lemma zip_all_ext {A B} (f g : A → B → outcome bool) l1 l2 :
  (∀ x y, x ∈ l1 → y ∈ l2 → f x y = g x y) → zip_all f l1 l2 = zip_all g l1 l2.
Proof.
  revert l2. induction l1 as [|x l1 IH]; intros [|y l2] H; simpl; try done.
  rewrite H by set_solver. rewrite (IH l2) by set_solver. done.
Qed.

Lemma same_length_all_ext {A B} (f g : A → B → outcome bool) l1 l2 :
  (∀ x y, x ∈ l1 → y ∈ l2 → f x y = g x y) → same_length_all f l1 l2 = same_length_all g l1 l2.
Proof. intros H. unfold same_length_all. by rewrite (zip_all_ext f g). Qed.

Lemma node_count_pos r : (1 ≤ node_count r)%nat.
Proof. destruct r; simpl; lia. Qed.

Lemma list_sum_elem {A} (f : A → nat) l x : x ∈ l → (f x ≤ list_sum (map f l))%nat.
Proof. induction 1 as [x l|x y l _ IH]; simpl; lia. Qed.

Lemma structural_ext f g a b :
  (∀ x y, (node_count x + node_count y < node_count a + node_count b)%nat → f x y = g x y) →
  structural f a b = structural g a b.
Proof.
  intros H. destruct a, b; try done; simpl.
  - apply same_length_all_ext. intros x y Hx Hy. unfold keyed. case_match; [|done].
    apply H. simpl. apply (list_sum_elem (λ f, node_count (snd f))) in Hx, Hy. lia.
  - case_match; [|done]. apply H. simpl. lia.
  - apply same_length_all_ext. intros x y Hx Hy. unfold keyed. case_match; [|done].
    apply H. simpl. apply (list_sum_elem (λ f, node_count (snd f))) in Hx, Hy. lia.
  - apply H. simpl. lia.
  - apply same_length_all_ext. intros x y Hx Hy.
    apply H. simpl. apply (list_sum_elem node_count) in Hx, Hy. lia.
  - rewrite (same_length_all_ext f g).
    2:{ intros x y Hx Hy. apply H. simpl. apply (list_sum_elem node_count) in Hx, Hy. lia. }
    by rewrite (H a b) by (simpl; lia).
Qed.

Lemma generic_ext f g cs r :
  (∀ x, (node_count x ≤ list_sum (map constraint_count cs))%nat → f r x = g r x) →
  generic_satisfies_constraints f cs r = generic_satisfies_constraints g cs r.
Proof.
  induction cs as [|c cs IH]; intros H; [done|]. simpl in *.
  destruct c as [c|x|c]; simpl in *; [apply IH; auto with lia| |apply IH; auto with lia].
  rewrite H by lia. by rewrite IH by auto with lia.
Qed.

(** What [compatible_body] does when neither side is generic. *)
Lemma compatible_body_concrete chk f a b :
  is_generic a = false → is_generic b = false →
  compatible_body chk f a b =
    (sa ← RepD_size chk a; sb ← RepD_size chk b;
     if negb (sa =? sb) || negb (RepD_alignment a =? RepD_alignment b) then Ret false
     else if is_byte a || is_byte b then Ret true else structural f a b).
Proof. by destruct a, b. Qed.

Lemma compatible_body_ext chk f g a b :
  (∀ x y, (node_count x + node_count y < node_count a + node_count b)%nat → f x y = g x y) →
  compatible_body chk f a b = compatible_body chk g a b.
Proof.
  intros H. destruct (is_generic a) eqn:Ea; [|destruct (is_generic b) eqn:Eb].
  - destruct a; try done. apply generic_ext. intros x Hx. apply H. simpl. lia.
  - destruct b as [| | | | | | | | | |n cs| | |]; try done.
    transitivity (generic_satisfies_constraints f cs a); [by destruct a|].
    transitivity (generic_satisfies_constraints g cs a); [|by destruct a].
    apply generic_ext. intros x Hx. apply H. simpl. lia.
  - rewrite !compatible_body_concrete by done. by rewrite (structural_ext f g).
Qed.

Lemma compatible_fuel_enough chk f1 f2 a b :
  (node_count a + node_count b ≤ f1)%nat → (node_count a + node_count b ≤ f2)%nat →
  compatible_fuel chk f1 a b = compatible_fuel chk f2 a b.
Proof.
  revert f2 a b. induction f1 as [|f1 IH]; intros f2 a b H1 H2;
    pose proof (node_count_pos a); [lia|].
  destruct f2 as [|f2]; [lia|]. simpl. apply compatible_body_ext.
  intros x y Hxy. apply IH; lia.
Qed.

Lemma RepD_compatible_step chk a b :
  RepD_compatible chk a b = compatible_body chk (RepD_compatible chk) a b.
Proof.
  unfold RepD_compatible at 1. pose proof (node_count_pos a).
  destruct (node_count a + node_count b)%nat as [|n] eqn:E; [lia|]. simpl.
  apply compatible_body_ext. intros x y Hxy. apply compatible_fuel_enough; lia.
Qed.

Lemma subsumes_body_ext chk f g a b :
  (∀ x y, (node_count x + node_count y < node_count a + node_count b)%nat → f x y = g x y) →
  subsumes_body chk f a b = subsumes_body chk g a b.
Proof. intros H. unfold subsumes_body. by rewrite (structural_ext f g). Qed.

Lemma subsumes_fuel_enough chk f1 f2 a b :
  (node_count a + node_count b ≤ f1)%nat → (node_count a + node_count b ≤ f2)%nat →
  subsumes_fuel chk f1 a b = subsumes_fuel chk f2 a b.
Proof.
  revert f2 a b. induction f1 as [|f1 IH]; intros f2 a b H1 H2;
    pose proof (node_count_pos a); [lia|].
  destruct f2 as [|f2]; [lia|]. simpl. apply subsumes_body_ext.
  intros x y Hxy. apply IH; lia.
Qed.

(** ** Symmetry *)

Lemma zip_all_swap {A} (f : A → A → outcome bool) l1 l2 :
  (∀ x y, x ∈ l1 → y ∈ l2 → f x y = f y x) → zip_all f l1 l2 = zip_all f l2 l1.
Proof.
  revert l2. induction l1 as [|x l1 IH]; intros [|y l2] H; simpl; try done.
  rewrite H by set_solver. rewrite (IH l2) by set_solver. done.
Qed.

Lemma same_length_all_swap {A} (f : A → A → outcome bool) l1 l2 :
  (∀ x y, x ∈ l1 → y ∈ l2 → f x y = f y x) → same_length_all f l1 l2 = same_length_all f l2 l1.
Proof.
  intros H. unfold same_length_all.
  by rewrite (Nat.eqb_sym (length l1)), (zip_all_swap f l1 l2).
Qed.

Lemma structural_swap f a b :
  generic_free a = true → generic_free b = true →
  (∀ x y, generic_free x = true → generic_free y = true →
     (node_count x + node_count y < node_count a + node_count b)%nat → f x y = f y x) →
  structural f a b = structural f b a.
Proof.
  intros Ga Gb H. destruct a, b; try done; simpl in *.
  - apply same_length_all_swap. intros x y Hx Hy. unfold keyed. rewrite (Z.eqb_sym (fst x)).
    case_match; [|done]. rewrite forallb_forall_elem in Ga, Gb.
    apply H; [by apply Ga|by apply Gb|].
    apply (list_sum_elem (λ f, node_count (snd f))) in Hx, Hy. lia.
  - rewrite (Z.eqb_sym count). case_match; [|done]. apply H; [done..|lia].
  - apply same_length_all_swap. intros x y Hx Hy. unfold keyed. rewrite (Z.eqb_sym (fst x)).
    case_match; [|done]. rewrite forallb_forall_elem in Ga, Gb.
    apply H; [by apply Ga|by apply Gb|].
    apply (list_sum_elem (λ f, node_count (snd f))) in Hx, Hy. lia.
  - apply H; [done..|lia].
  - apply same_length_all_swap. intros x y Hx Hy. rewrite forallb_forall_elem in Ga, Gb.
    apply H; [by apply Ga|by apply Gb|]. apply (list_sum_elem node_count) in Hx, Hy. lia.
  - rewrite !andb_true_iff, !forallb_forall_elem in *. destruct Ga as [Gp Gr], Gb as [Gp' Gr'].
    rewrite (same_length_all_swap f).
    2:{ intros x y Hx Hy. apply H; [by apply Gp|by apply Gp'|].
        apply (list_sum_elem node_count) in Hx, Hy. lia. }
    by rewrite (H a b) by (done || lia).
Qed.

Lemma generic_free_head r : generic_free r = true → is_generic r = false.
Proof. by destruct r. Qed.

Lemma RepD_compatible_swap chk a b :
  generic_free a = true → generic_free b = true →
  RepD_compatible chk a b = RepD_compatible chk b a.
Proof.
  remember (node_count a + node_count b)%nat as n eqn:E.
  revert a b E. induction n as [n IH] using lt_wf_ind. intros a b -> Ga Gb.
  rewrite !RepD_compatible_step, !compatible_body_concrete by by apply generic_free_head.
  rewrite (structural_swap _ a b Ga Gb).
  2:{ intros x y Gx Gy Hxy. eapply IH; [exact Hxy|done..]. }
  rewrite (Z.eqb_sym (RepD_alignment a)), (orb_comm (is_byte a)).
  destruct (RepD_size chk a) as [sa|], (RepD_size chk b) as [sb|]; try done.
  cbn [mbind outcome_bind]. by rewrite (Z.eqb_sym sa).
Qed.

Lemma RepD_compatible_layout chk a b :
  is_generic a = false → is_generic b = false → RepD_compatible chk a b = Ret true →
  RepD_size chk a = RepD_size chk b ∧ RepD_alignment a = RepD_alignment b.
Proof.
  intros Ga Gb. rewrite RepD_compatible_step, compatible_body_concrete by done.
  destruct (RepD_size chk a) as [sa|], (RepD_size chk b) as [sb|]; try done.
  cbn [mbind outcome_bind]. destruct (Z.eqb_spec sa sb); [|done].
  destruct (Z.eqb_spec (RepD_alignment a) (RepD_alignment b)); [|done]. by subst.
Qed.

(** ** Sizes: a build with overflow checks agrees with the release build *)

Lemma u64_of_profile chk z r : u64_of true z = Ret r → u64_of chk z = Ret r.
Proof. intros H. apply u64_of_checked in H as [-> H]. by apply u64_of_in. Qed.

Lemma align_to_profile chk v al r : align_to true v al = Ret r → align_to chk v al = Ret r.
Proof. unfold align_to. case_match; [|done]. apply u64_of_profile. Qed.

Lemma max_size_profile {A} (f g : A → outcome Z) l r :
  (∀ x s, x ∈ l → f x = Ret s → g x = Ret s) → max_size f l = Ret r → max_size g l = Ret r.
Proof.
  revert r. induction l as [|x l IH]; intros r H; [done|]. simpl.
  destruct (f x) as [s|] eqn:Ef; [|done]. rewrite (H x s) by set_solver.
  cbn [mbind outcome_bind]. destruct (max_size f l) as [m|]; [|done].
  rewrite (IH m) by set_solver. done.
Qed.

Lemma RepD_size_profile chk r s : RepD_size true r = Ret s → RepD_size chk r = Ret s.
Proof.
  remember (node_count r) as n eqn:E. revert r s E.
  induction n as [n IH] using lt_wf_ind. intros r s -> H. destruct r; try done; simpl in *.
  - destruct (RepD_size true r) as [m|] eqn:Em; [|done].
    rewrite (IH (node_count r) ltac:(lia) r m) by done. by apply u64_of_profile.
  - destruct (max_size (λ tv, RepD_size true tv.2) variants) as [m|] eqn:Em; [|done].
    apply (max_size_profile _ (λ tv, RepD_size chk tv.2)) in Em.
    2:{ intros x t Hx. apply (IH (node_count x.2)); [|done].
        apply (list_sum_elem (λ v, node_count (snd v))) in Hx. lia. }
    rewrite Em. cbn [mbind outcome_bind] in *. destruct (align_to true m 8) as [a|] eqn:Ea; [|done].
    rewrite (align_to_profile chk _ _ _ Ea). by apply u64_of_profile.
Qed.

Lemma RepD_size_u64 chk r s : size_u64 r → RepD_size chk r = Ret s → is_u64 s.
Proof.
  intros Hr H. destruct r; simpl in *; simplify_eq; try done.
  - destruct (RepD_size chk r); [|done]. by eapply u64_of_range.
  - destruct (max_size _ _) as [m|]; [|done]. cbn [mbind outcome_bind] in H.
    destruct (align_to chk m 8); [|done]. by eapply u64_of_range.
Qed.

(** ** Layout lemmas *)

Lemma align_to_spec v al r :
  align_to true v al = Ret r → 0 < al ∧ v ≤ r < v + al ∧ (al | r) ∧ is_u64 r.
Proof.
  unfold align_to. destruct (Z.ltb_spec 0 al) as [Hal|]; [|done].
  intros H. apply u64_of_checked in H as [-> H].
  split; [done|]. split; [|split; [by apply Z.divide_factor_r|done]].
  pose proof (Z.div_mod (v + al - 1) al). pose proof (Z.mod_pos_bound (v + al - 1) al). nia.
Qed.

Lemma bump_spec off al r :
  1 ≤ al → 0 ≤ off → bump true off al = Ret r → off ≤ r ∧ (al | r).
Proof.
  intros Hal Hoff. unfold bump. destruct (Z.ltb_spec 1 al); simpl.
  - destruct (Z.eqb_spec (off `mod` al) 0); simpl.
    + intros [= <-]. split; [done|]. apply Z.mod_divide; lia.
    + intros (?&?&?&?)%align_to_spec. split; [lia|done].
  - intros [= <-]. replace al with 1 by lia. split; [done|apply Z.divide_1_l].
Qed.

Lemma bump_profile chk off al r : bump true off al = Ret r → bump chk off al = Ret r.
Proof. unfold bump. case_match; [apply align_to_profile|done]. Qed.

Lemma laid_out_mono lo fs hi hi' : laid_out lo fs hi → hi ≤ hi' → laid_out lo fs hi'.
Proof. revert lo. induction fs as [|f fs IH]; intros lo; simpl; [lia|]. naive_solver. Qed.

Lemma laid_out_bounds lo fs hi i f :
  laid_out lo fs hi → fs !! i = Some f → lo ≤ lf_offset f ∧ lf_offset f + lf_size f ≤ hi.
Proof.
  revert lo i. induction fs as [|g fs IH]; intros lo i H Hi; [done|].
  destruct H as (? & ? & ? & H). assert (lf_offset g + lf_size g ≤ hi) as Hhi.
  { clear -H. revert H. generalize (lf_offset g + lf_size g). induction fs as [|h fs IH];
      intros lo; simpl; [done|]. intros (? & ? & ? & ?%IH). lia. }
  destruct i as [|i]; simplify_eq/=; [done|]. apply (IH _ _ H) in Hi. lia.
Qed.

Lemma laid_out_disjoint lo fs hi i j f g :
  laid_out lo fs hi → fs !! i = Some f → fs !! j = Some g → (i < j)%nat →
  lf_offset f + lf_size f ≤ lf_offset g.
Proof.
  revert lo i j. induction fs as [|h fs IH]; intros lo i j H Hi Hj Hij; [done|].
  destruct H as (? & ? & ? & H). destruct j as [|j]; [lia|].
  destruct i as [|i]; simplify_eq/=; [|by eapply (IH _ i j); [..|lia]].
  by eapply laid_out_bounds in H as [? _].
Qed.

Lemma laid_out_size lo fs hi i f : laid_out lo fs hi → fs !! i = Some f → 0 ≤ lf_size f.
Proof.
  revert lo i. induction fs as [|g fs IH]; intros lo i H Hi; [done|].
  destruct H as (? & ? & ? & H). destruct i as [|i]; simplify_eq/=; [done|]. eauto.
Qed.

(** What a pass of [register_fields] establishes. *)
Record fields_resolved (index off al : Z) (fields : list (string * RepD))
    (rs : list LayoutField) (off' al' : Z) : Prop := {
  fr_laid_out : laid_out off rs off';
  fr_inputs : (λ f, (lf_name f, lf_repd f)) <$> rs = fields;
  fr_sizes : Forall (λ f, RepD_size true (lf_repd f) = Ret (lf_size f)) rs;
  fr_ids : ∀ i f, rs !! i = Some f → lf_field_id f = wrap32 (index + Z.of_nat i);
  fr_max : foldr (λ f m, Z.max (field_align f) m) al rs = al';
}.

Lemma foldr_max_acc {A} (f : A → Z) l a b :
  foldr (λ x m, Z.max (f x) m) (Z.max a b) l = Z.max b (foldr (λ x m, Z.max (f x) m) a l).
Proof. induction l as [|x l IH]; simpl; [lia|]. rewrite IH. lia. Qed.

Lemma register_fields_spec index off al fields rs off' al' :
  register_fields true index off al fields = Ret (rs, off', al') →
  0 ≤ off → Forall (λ f, size_u64 (snd f)) fields →
  fields_resolved index off al fields rs off' al'.
Proof.
  revert index off al rs off' al'. induction fields as [|[n r] fields IH];
    intros index off al rs off' al' H Hoff Hu; simpl in H.
  { simplify_eq. split; simpl; try done; try lia. }
  inversion Hu as [|? ? Hr Hu']; subst.
  destruct (RepD_size true r) as [sz|] eqn:Es; [|done]. cbn [mbind outcome_bind] in H.
  destruct (bump _ _ _) as [o|] eqn:Eb; [|done]. cbn [mbind outcome_bind] in H.
  destruct (u64_add true o sz) as [nx|] eqn:En; [|done]. cbn [mbind outcome_bind] in H.
  destruct (register_fields _ _ _ _ _) as [[[rest o'] a']|] eqn:Er; [|done].
  injection H as <- <- <-. apply u64_of_checked in En as [-> Hn].
  apply bump_spec in Eb as [Hb Hd]; [|lia|done].
  pose proof (RepD_size_u64 _ _ _ Hr Es) as Hsz.
  assert (0 ≤ sz) by (unfold is_u64 in Hsz; lia).
  destruct (IH _ _ _ _ _ _ Er) as [H1 H2 H3 H4 H5]; [lia|done|].
  split.
  - cbn [laid_out lf_offset lf_size]. split; [lia|]. split; [exact Hd|]. split; [lia|exact H1].
  - rewrite fmap_cons, H2. done.
  - by constructor.
  - intros [|i] f Hf; simplify_eq/=; [by rewrite Z.add_0_r|].
    rewrite (H4 _ _ Hf). f_equal. lia.
  - simpl. rewrite foldr_max_acc in H5. unfold field_align at 1. simpl. lia.
Qed.

Lemma register_fields_profile chk index off al fields r :
  register_fields true index off al fields = Ret r →
  register_fields chk index off al fields = Ret r.
Proof.
  revert index off al r. induction fields as [|[n q] fields IH]; intros index off al r; [done|].
  simpl. destruct (RepD_size true q) as [sz|] eqn:Es; [|done].
  rewrite (RepD_size_profile chk _ _ Es). cbn [mbind outcome_bind].
  destruct (bump true _ _) as [o|] eqn:Eb; [|done]. rewrite (bump_profile chk _ _ _ Eb).
  cbn [mbind outcome_bind]. destruct (u64_add true o sz) as [nx|] eqn:En; [|done].
  unfold u64_add in En. apply (u64_of_profile chk) in En. unfold u64_add. rewrite En.
  cbn [mbind outcome_bind].
  destruct (register_fields true _ _ _ _) as [p|] eqn:Er; [|done].
  by rewrite (IH _ _ _ _ Er).
Qed.

Lemma register_profile chk self name fields r :
  LayoutRegistry_register true self name fields = Ret r →
  LayoutRegistry_register chk self name fields = Ret r.
Proof.
  unfold LayoutRegistry_register.
  destruct (register_fields true _ _ _ _) as [[[rs off] al]|] eqn:Er; [|done].
  rewrite (register_fields_profile chk _ _ _ _ _ Er). cbn [mbind outcome_bind].
  repeat case_match; try done. cbn [mbind outcome_bind].
  destruct (align_to true _ _) as [t|] eqn:Ea; [|done].
  by rewrite (align_to_profile chk _ _ _ Ea).
Qed.

(** A maximum of powers of two is a multiple of each of them. *)
Definition pow2 (z : Z) : Prop := ∃ k, 0 ≤ k ∧ z = 2 ^ k.

Lemma pow2_divide a b : pow2 a → pow2 b → a ≤ b → (a | b).
Proof.
  intros (i & Hi & ->) (j & Hj & ->) H. apply Z.pow_le_mono_r_iff in H; [|lia..].
  exists (2 ^ (j - i)). rewrite <-Z.pow_add_r by lia. f_equal. lia.
Qed.

Lemma foldr_max_pow2 {A} (f : A → Z) l a :
  pow2 a → (∀ x, x ∈ l → pow2 (f x)) → pow2 (foldr (λ x m, Z.max (f x) m) a l).
Proof.
  intros Ha. induction l as [|x l IH]; intros H; simpl; [done|].
  destruct (Z.max_spec (f x) (foldr (λ x m, Z.max (f x) m) a l)) as [[_ ->]|[_ ->]];
    [apply IH; set_solver|apply H; set_solver].
Qed.

Lemma foldr_max_ge {A} (f : A → Z) l a x :
  x ∈ l → f x ≤ foldr (λ x m, Z.max (f x) m) a l.
Proof. induction 1; simpl; lia. Qed.

Lemma foldr_max_start {A} (f : A → Z) l a : a ≤ foldr (λ x m, Z.max (f x) m) a l.
Proof. induction l; simpl; lia. Qed.

(** The layout [register] appends. *)
Definition registered (fields : list (string * RepD)) (l : LayoutDef) : Prop :=
  laid_out 0 (ld_fields l) (ld_total_size l) ∧
  1 ≤ ld_alignment l ∧ (ld_alignment l | ld_total_size l) ∧
  (λ f, (lf_name f, lf_repd f)) <$> ld_fields l = fields ∧
  (∀ i f, ld_fields l !! i = Some f →
     RepD_size true (lf_repd f) = Ret (lf_size f) ∧ lf_field_id f = wrap32 (Z.of_nat i) ∧
     field_align f ≤ ld_alignment l) ∧
  ((∀ f, f ∈ ld_fields l → pow2 (field_align f)) →
   ∀ f, f ∈ ld_fields l → (field_align f | ld_alignment l)).

Lemma register_spec self name fields self' id :
  LayoutRegistry_register true self name fields = Ret (self', id) →
  Forall (λ f, size_u64 (snd f)) fields →
  ∃ l, registered fields l ∧ ld_name l = name ∧
    id = wrap32 (Z.of_nat (length (lr_layouts self))) ∧
    self' = {| lr_names := <[name := id]> (lr_names self);
               lr_layouts := lr_layouts self ++ [l] |}.
Proof.
  unfold LayoutRegistry_register. intros H Hu.
  destruct (register_fields true _ _ _ _) as [[[rs off] al]|] eqn:Er; [|done].
  cbn [mbind outcome_bind] in H.
  apply register_fields_spec in Er as [H1 H2 H3 H4 H5]; [|done..].
  pose proof (foldr_max_start field_align rs 1) as Hal.
  match type of H with mbind _ ?t = _ => destruct t as [total|] eqn:Et end; [|done].
  injection H as <- <-. subst al.
  exists {| ld_name := name; ld_fields := rs; ld_total_size := total;
            ld_alignment := Z.max (foldr (λ f m, Z.max (field_align f) m) 1 rs) 1 |}.
  split; [|split; [reflexivity|split; reflexivity]].
  assert (off ≤ total ∧ (Z.max (foldr (λ f m, Z.max (field_align f) m) 1 rs) 1 | total))
    as [Hle Hdiv].
  { destruct (Z.eqb_spec off 0); [simplify_eq; split; [done|by exists 0]|].
    destruct (Z.eqb_spec (off `mod` Z.max (foldr (λ f m, Z.max (field_align f) m) 1 rs) 1) 0).
    - simplify_eq. split; [done|]. apply Z.mod_divide; lia.
    - apply align_to_spec in Et as (?&?&?&?). split; [lia|done]. }
  unfold registered; simpl. split_and!; try done; try lia.
  - by eapply laid_out_mono.
  - intros i f Hf. split_and!.
    + by eapply (Forall_lookup_1 _ _ _ _ H3).
    + by apply H4.
    + pose proof (foldr_max_ge field_align rs 1 f). etrans; [|apply Z.le_max_l].
      apply H. by eapply list_elem_of_lookup_2.
  - intros Hp f Hf. rewrite Z.max_l by done. apply pow2_divide; [by apply Hp| |].
    + apply foldr_max_pow2; [by exists 0|done].
    + by apply foldr_max_ge.
Qed.

Lemma find_field_input n fs :
  lf_repd <$> find (λ f, String.eqb (lf_name f) n) fs =
  snd <$> find (λ f, String.eqb (fst f) n) ((λ f, (lf_name f, lf_repd f)) <$> fs).
Proof. induction fs as [|f fs IH]; simpl; [done|]. by destruct (String.eqb (lf_name f) n). Qed.

(** ** Properties *)

(** [compatible] and [subsumes] end on every pair of representations:
    the fuel never runs out, so each satisfies the recursive equation of the
    source, generics and their constraints included. *)
Theorem RepD_compatible_unfold (chk : bool) (a b : RepD) :
  RepD_compatible chk a b = compatible_body chk (RepD_compatible chk) a b ∧
  RepD_subsumes chk a b = subsumes_body chk (RepD_subsumes chk) a b.
Proof.
  split; [apply RepD_compatible_step|].
  unfold RepD_subsumes at 1. pose proof (node_count_pos a).
  destruct (node_count a + node_count b)%nat as [|n] eqn:E; [lia|]. simpl.
  apply subsumes_body_ext. intros x y Hxy. apply subsumes_fuel_enough; lia.
Qed.

(** On representations without generics, [compatible] is symmetric, panics
    of the size computation included, and a positive answer means that both
    have the same size and the same alignment, the layout agreement its
    documentation promises for safe aliasing. *)
Theorem RepD_compatible_sound (chk : bool) (a b : RepD) :
  generic_free a = true → generic_free b = true →
  RepD_compatible chk a b = RepD_compatible chk b a ∧
  (RepD_compatible chk a b = Ret true →
     RepD_size chk a = RepD_size chk b ∧ RepD_alignment a = RepD_alignment b).
Proof.
  intros Ga Gb. split; [by apply RepD_compatible_swap|].
  by apply RepD_compatible_layout; apply generic_free_head.
Qed.

Lemma RepD_compatible_sound_witness :
  let a := RepD_Array (RepD_Byte 4 4) 3 in let b := RepD_Byte 12 4 in
  RepD_compatible true a b = RepD_compatible true b a ∧
  (RepD_compatible true a b = Ret true →
     RepD_size true a = RepD_size true b ∧ RepD_alignment a = RepD_alignment b).
Proof. apply RepD_compatible_sound; reflexivity. Defined.

(** [subsumes] compares neither size nor alignment of structs and unions: a
    struct (or a union) subsumes any other one with the same fields, whatever the
    total sizes, while [compatible], whose structural rules it is documented to
    follow, rejects the pair.  A value can thus be viewed through a larger type. *)
Theorem RepD_subsumes_ignores_size (chk : bool) (t1 a1 t2 a2 : Z) :
  RepD_subsumes chk (RepD_Struct [] t1 a1) (RepD_Struct [] t2 a2) = Ret true ∧
  RepD_subsumes chk (RepD_Union [] t1 a1) (RepD_Union [] t2 a2) = Ret true ∧
  (RepD_compatible chk (RepD_Struct [] t1 a1) (RepD_Struct [] t2 a2) = Ret true ↔
     t1 = t2 ∧ a1 = a2).
Proof.
  split; [done|]. split; [done|]. rewrite RepD_compatible_step. simpl.
  destruct (Z.eqb_spec t1 t2), (Z.eqb_spec a1 a2); naive_solver.
Qed.

(** When registering a layout does not overflow (a build with overflow
    checks does not panic), every build profile computes the same layout, and it
    is well formed: the fields are those given, in order, with their sizes and
    their indices as ids; they are aligned, disjoint and inside the layout; the
    total size is a multiple of the layout's alignment, which is at least every
    field's and, for power-of-two alignments, a multiple of it. *)
Theorem LayoutRegistry_register_layout (chk : bool) self name fields self' id :
  LayoutRegistry_register true self name fields = Ret (self', id) →
  Forall (λ f, size_u64 (snd f)) fields →
  LayoutRegistry_register chk self name fields = Ret (self', id) ∧
  ∃ l, lr_layouts self' = lr_layouts self ++ [l] ∧ registered fields l ∧
    ∀ i j f g, ld_fields l !! i = Some f → ld_fields l !! j = Some g → i ≠ j →
      lf_offset f + lf_size f ≤ ld_total_size l ∧
      (lf_offset f + lf_size f ≤ lf_offset g ∨ lf_offset g + lf_size g ≤ lf_offset f).
Proof.
  intros H Hu. split; [by apply register_profile|].
  destruct (register_spec _ _ _ _ _ H Hu) as (l & Hl & _ & _ & ->).
  exists l. split; [done|]. split; [done|]. destruct Hl as [Hl _].
  intros i j f g Hf Hg Hij. split; [by eapply laid_out_bounds in Hf as [_ ?]|].
  destruct (decide (i < j)%nat).
  - left. by eapply (laid_out_disjoint _ _ _ i j).
  - right. eapply (laid_out_disjoint _ _ _ j i); [done..|lia].
Qed.

Lemma LayoutRegistry_register_layout_witness :
  ∃ self' id, LayoutRegistry_register false LayoutRegistry_new "Point"
    [("tag", RepD_Byte 1 1); ("x", RepD_Byte 4 4)] = Ret (self', id).
Proof.
  refine (ex_intro _ _ (ex_intro _ _ (proj1 (LayoutRegistry_register_layout false
    LayoutRegistry_new "Point" [("tag", RepD_Byte 1 1); ("x", RepD_Byte 4 4)] _ _ _ _)))).
  - vm_compute. reflexivity.
  - repeat constructor; discriminate.
Defined.

(** After a registration, with fewer than [2^32] layouts, the name and the
    returned id both resolve to the new layout; every other name and every older
    id resolve as before; and the field queries answer for the first field of
    that name, with the offset and size of the layout. *)
Theorem LayoutRegistry_register_lookup self name fields self' id :
  LayoutRegistry_register true self name fields = Ret (self', id) →
  Forall (λ f, size_u64 (snd f)) fields →
  Z.of_nat (length (lr_layouts self)) < 2 ^ 32 →
  (∃ l, registered fields l ∧ ld_name l = name ∧
     LayoutRegistry_get self' id = Some l ∧ LayoutRegistry_get_by_name self' name = Some l ∧
     LayoutRegistry_state_size self' id = ld_total_size l ∧
     ∀ n, LayoutRegistry_field_offset self' id n =
            lf_offset <$> find (λ f, String.eqb (lf_name f) n) (ld_fields l) ∧
          LayoutRegistry_field_repd self' id n =
            snd <$> find (λ f, String.eqb (fst f) n) fields) ∧
  (∀ n l, n ≠ name → LayoutRegistry_get_by_name self n = Some l →
     LayoutRegistry_get_by_name self' n = Some l) ∧
  (∀ i l, LayoutRegistry_get self i = Some l → LayoutRegistry_get self' i = Some l).
Proof.
  intros H Hu Hlen. destruct (register_spec _ _ _ _ _ H Hu) as (l & Hl & Hn & -> & ->).
  unfold wrap32. rewrite Z.mod_small by lia.
  set (self' := {| lr_names := _; lr_layouts := _ |}).
  assert (LayoutRegistry_get self' (Z.of_nat (length (lr_layouts self))) = Some l) as Hget.
  { unfold LayoutRegistry_get. simpl. rewrite Nat2Z.id. by apply list_lookup_middle. }
  split; [exists l; split_and!; try done|split].
  - unfold LayoutRegistry_get_by_name. simpl. by rewrite lookup_insert_eq.
  - unfold LayoutRegistry_state_size. by rewrite Hget.
  - intros n. unfold LayoutRegistry_field_offset, LayoutRegistry_field_repd, find_field.
    rewrite Hget. simpl. split; [done|].
    destruct Hl as (_ & _ & _ & <- & _). apply find_field_input.
  - intros n l' Hne. unfold LayoutRegistry_get_by_name. simpl.
    rewrite lookup_insert_ne by done. destruct (lr_names self !! n) as [i|]; [|done].
    apply lookup_app_l_Some.
  - intros i l'. apply lookup_app_l_Some.
Qed.

Lemma LayoutRegistry_register_lookup_witness :
  ∃ self', LayoutRegistry_register true LayoutRegistry_new "Pt"
             [("x", RepD_Byte 4 4); ("y", RepD_Byte 4 4)] = Ret (self', 0) ∧
           LayoutRegistry_field_offset self' 0 "y" = Some 4.
Proof.
  eexists. split; [vm_compute; reflexivity|].
  destruct (LayoutRegistry_register_lookup LayoutRegistry_new "Pt"
    [("x", RepD_Byte 4 4); ("y", RepD_Byte 4 4)] _ 0 eq_refl) as [(l & _ & _ & Hg & _ & _ & H) _].
  - repeat constructor; discriminate.
  - reflexivity.
  - refine (eq_trans (proj1 (H "y")) _). injection Hg as <-. reflexivity.
Defined.
