(* ===== verification/Descriptor.v ===== *)
(** * Behavioral descriptors

    Models [src/src/bd/src/descriptor.rs]: the triple of representation,
    capabilities and relations, its compatibility, refinement and composition,
    and the trait-impl check with its error messages' first cause. *)

From S2P Require Import Prelude Capd Reld Repd.
From stdpp Require Import options.

Record BD := BD_mk {
  BD_repd : RepD;
  BD_capd : CapD;
  BD_reld : RelD;
}.

Definition BD_new (repd : RepD) (capd : CapD) (reld : RelD) : BD := BD_mk repd capd reld.

(** [&&] between computations that may panic. *)
Definition and_then (a : outcome bool) (b : outcome bool) : outcome bool :=
  r ← a; if (r : bool) then b else Ret false.

Definition BD_compatible (chk : bool) (self other : BD) : outcome bool :=
  and_then (RepD_compatible chk (BD_repd self) (BD_repd other))
    (Ret (negb (bool_decide (CapD_caps (CapD_meet (BD_capd self) (BD_capd other)) = ∅)) &&
          RelD_is_consistent (RelD_compose (BD_reld self) (BD_reld other)))).

Definition BD_refines (chk : bool) (self other : BD) : outcome bool :=
  and_then (RepD_subsumes chk (BD_repd self) (BD_repd other))
    (Ret (CapD_is_subset (BD_capd self) (BD_capd other) &&
          RelD_refines (BD_reld self) (BD_reld other))).

Definition BD_compose (chk : bool) (self other : BD) : outcome (option BD) :=
  ok ← RepD_compatible chk (BD_repd self) (BD_repd other);
  if negb (ok : bool) then Ret None else
  Ret (Some {| BD_repd := BD_repd self;
               BD_capd := CapD_meet (BD_capd self) (BD_capd other);
               BD_reld := RelD_compose (BD_reld self) (BD_reld other) |}).

(** The three [Err] texts, by the layer they name. *)
Inductive TraitError : Type := RepD_incompatibility | CapD_violation | RelD_violation.

Definition check_trait_compatibility (chk : bool) (trait_bd impl_bd : BD) :
    outcome (result unit TraitError) :=
  ok ← RepD_compatible chk (BD_repd impl_bd) (BD_repd trait_bd);
  if negb (ok : bool) then Ret (Err RepD_incompatibility)
  else if negb (CapD_is_subset (BD_capd impl_bd) (BD_capd trait_bd)) then Ret (Err CapD_violation)
  else if negb (RelD_refines (BD_reld impl_bd) (BD_reld trait_bd)) then Ret (Err RelD_violation)
  else Ret (Ok tt).

(** ** Lemmas *)

Lemma and_then_true a b : and_then a (Ret b) = Ret true ↔ a = Ret true ∧ b = true.
Proof. destruct a as [[]|]; naive_solver. Qed.

Lemma CapD_meet_le_l a b : CapD_le (CapD_meet a b) a.
Proof. apply CapD_is_subset_spec. simpl. set_solver. Qed.

Lemma CapD_meet_le_r a b : CapD_le (CapD_meet a b) b.
Proof. apply CapD_is_subset_spec. simpl. set_solver. Qed.

(** ** Properties *)

(** Composition is defined exactly on compatible representations, and then
    the result is accepted by the trait check against both operands' capability
    and relation layers: it holds no capability and drops no relation of either.
    Compatible descriptors compose to one that still permits some operation and
    whose relations do not contradict each other. *)
Theorem BD_compose_spec (chk : bool) (a b : BD) :
  (BD_compose chk a b = Ret None ↔ RepD_compatible chk (BD_repd a) (BD_repd b) = Ret false) ∧
  (∀ c, BD_compose chk a b = Ret (Some c) →
     RepD_compatible chk (BD_repd a) (BD_repd b) = Ret true ∧ BD_repd c = BD_repd a ∧
     (∀ x, x = a ∨ x = b →
        CapD_is_subset (BD_capd c) (BD_capd x) = true ∧
        RelD_refines (BD_reld c) (BD_reld x) = true)) ∧
  (BD_compatible chk a b = Ret true ↔
     ∃ c, BD_compose chk a b = Ret (Some c) ∧ CapD_caps (BD_capd c) ≠ ∅ ∧
          RelD_is_consistent (BD_reld c) = true).
Proof.
  unfold BD_compose, BD_compatible.
  destruct (RepD_compatible chk (BD_repd a) (BD_repd b)) as [[]|]; simpl;
    (split; [by split|split]); try (by intros ?);
    try (by split; [|intros (? & ? & _)]).
  - intros c [= <-]. split; [done|]. split; [done|]. simpl.
    intros x [-> | ->]; (split; [|apply RelD_refines_spec; simpl; set_solver]).
    + apply CapD_meet_le_l.
    + apply CapD_meet_le_r.
  - case_bool_decide as Hcaps; simpl; split.
    + done.
    + by intros (c & [= <-] & Hne & _).
    + intros [= H]. eexists. split; [done|]. by split.
    + intros (c & [= <-] & _ & Hc). simpl in Hc. by rewrite Hc.
Qed.

(** Acceptance by the trait check carries over to a parent trait: when the
    trait's capabilities and relations conform to the parent's and the
    implementation's representation is compatible with the parent's, the
    implementation is accepted for the parent, and so holds no capability that
    the parent does not permit. *)
Theorem check_trait_compatibility_spec (chk : bool) (trait_bd impl_bd parent : BD) :
  check_trait_compatibility chk trait_bd impl_bd = Ret (Ok tt) →
  CapD_is_subset (BD_capd trait_bd) (BD_capd parent) = true →
  RelD_refines (BD_reld trait_bd) (BD_reld parent) = true →
  RepD_compatible chk (BD_repd impl_bd) (BD_repd parent) = Ret true →
  check_trait_compatibility chk parent impl_bd = Ret (Ok tt) ∧
  (∀ c, c ∈ CapD_caps (BD_capd impl_bd) → c ∈ CapD_caps (BD_capd parent)).
Proof.
  unfold check_trait_compatibility. intros H Hc Hr Hrep. rewrite Hrep.
  destruct (RepD_compatible chk (BD_repd impl_bd) (BD_repd trait_bd)) as [[]|]; try done.
  simpl in *. destruct (CapD_is_subset (BD_capd impl_bd) _) eqn:E1; [|done].
  destruct (RelD_refines (BD_reld impl_bd) _) eqn:E2; [|done].
  pose proof (CapD_le_trans _ _ _ E1 Hc) as E3.
  rewrite E3. rewrite (RelD_refines_trans _ _ _ E2 Hr). split; [done|].
  apply CapD_is_subset_spec in E3. intros c ?. by apply E3.
Qed.

Lemma check_trait_compatibility_spec_witness :
  let byte := RepD_Byte 4 4 in
  let t := BD_new byte (CapD_mk {[Cap_Read; Cap_Write]} ∅) RelD_empty in
  check_trait_compatibility true (BD_new byte CapD_all RelD_empty)
    (BD_new byte (CapD_mk {[Cap_Read]} ∅) RelD_empty) = Ret (Ok tt).
Proof.
  refine (proj1 (check_trait_compatibility_spec true
    (BD_new (RepD_Byte 4 4) (CapD_mk {[Cap_Read; Cap_Write]} ∅) RelD_empty) _ _ _ _ _ _));
    vm_compute; reflexivity.
Defined.
