(* ===== verification/Unify.v ===== *)
(** * Unification of behavioral descriptors

    Models [src/src/bd/src/unify.rs]: the unification of two descriptors and the solver of
    constraints between descriptors and variables.  An error keeps the values whose text
    the code stores.  [unify_repd_with_occurs] remembers the pairs of addresses on its way
    down; the representations are finite trees that own their parts, so that no pair
    returns, and the set is left out.  The chase of variables has as fuel the number of
    bindings; a chase that does not end is the overflow of the stack, [Panic]. *)

From S2P Require Import Prelude Capd Reld Manifold Repd Descriptor.
From stdpp Require Import options.
#[local] Open Scope Z_scope.

(** ** Equality of descriptors *)

#[export] Instance ManifoldSpatialRep_eq_dec : EqDecision ManifoldSpatialRep.
Proof. solve_decision. Defined.
#[export] Instance GestaltSuperpositionRep_eq_dec : EqDecision GestaltSuperpositionRep.
Proof. solve_decision. Defined.
#[export] Instance ConceptRelationalRep_eq_dec : EqDecision ConceptRelationalRep.
Proof. solve_decision. Defined.

Fixpoint RepD_eq_dec (a b : RepD) {struct a} : {a = b} + {a ≠ b}
with Generic_eq_dec (a b : BDConstraint) {struct a} : {a = b} + {a ≠ b}.
Proof.
  - pose (list_eq_dec (dec := RepD_eq_dec)) as eq_list.
    pose (list_eq_dec (dec := prod_eq_dec (A := Z) (EqDecision1 := RepD_eq_dec))) as eq_fields.
    pose (list_eq_dec (dec := Generic_eq_dec)) as eq_constraints.
    destruct a, b; try (by right); decide equality;
      first [apply eq_list|apply eq_fields|apply eq_constraints|apply RepD_eq_dec
            |apply (decide (_ = _))].
  - destruct a, b; try (by right); decide equality; first [apply RepD_eq_dec|apply (decide (_ = _))].
Defined.
#[export] Instance RepD_eq_decision : EqDecision RepD := RepD_eq_dec.
#[export] Instance BD_eq_dec : EqDecision BD.
Proof. solve_decision. Defined.

(** ** Terms and constraints *)

Record BDVariable := BDVariable_new { bv_id : Z; bv_name : string }.

#[export] Instance BDVariable_eq_dec : EqDecision BDVariable.
Proof. solve_decision. Defined.
#[export] Instance BDVariable_countable : Countable BDVariable.
Proof.
  refine (inj_countable' (λ v, (bv_id v, bv_name v)) (λ p, BDVariable_new p.1 p.2) _). by intros [].
Defined.

Definition BDVariable_anon (id : Z) : BDVariable := BDVariable_new id ("_" +:+ show id).

Inductive BDTerm : Type :=
  | Concrete (bd : BD)
  | Var (v : BDVariable).

#[export] Instance BDTerm_eq_dec : EqDecision BDTerm.
Proof. solve_decision. Defined.

Definition is_concrete (t : BDTerm) : bool := match t with Concrete _ => true | Var _ => false end.
Definition is_var (t : BDTerm) : bool := match t with Concrete _ => false | Var _ => true end.
Definition as_concrete (t : BDTerm) : option BD := match t with Concrete bd => Some bd | Var _ => None end.
Definition as_var (t : BDTerm) : option BDVariable := match t with Concrete _ => None | Var v => Some v end.

Inductive BDConstraintKind : Type := Equality | Compatibility | Subtyping.

Record Constraint := Constraint_new { c_left : BDTerm; c_right : BDTerm; c_kind : BDConstraintKind }.

Definition equality (left right : BDTerm) : Constraint := Constraint_new left right Equality.
Definition compatibility (left right : BDTerm) : Constraint := Constraint_new left right Compatibility.
Definition subtyping (left right : BDTerm) : Constraint := Constraint_new left right Subtyping.

(** [ConflictingBinding] is never made. *)
Inductive UnificationError : Type :=
  | IncompatibleRepD (repd1 repd2 : RepD) (reason : string)
  | IncompatibleCapD (capd1 capd2 : CapD)
  | InconsistentRelD (reld1 reld2 : RelD)
  | OccursCheckFailed (var : BDVariable) (term : BDTerm)
  | ConflictingBinding (var : BDVariable) (existing proposed : BDTerm)
  | SubtypeViolation (sub sup : BD)
  | Failed (t1 t2 : BDTerm).

(** ** Descriptors *)

(** The pairs of two lists of the same length, one after the other. *)
Section zip.
  Context {A B C E : Type} (f : A → B → result C E).

Fixpoint zip_unify (l1 : list A) (l2 : list B) : result (list C) E :=
  match l1, l2 with
  | a :: l1, b :: l2 =>
      match f a b with
      | Ok c => match zip_unify l1 l2 with Ok cs => Ok (c :: cs) | Err e => Err e end
      | Err e => Err e
      end
  | _, _ => Ok []
  end.
End zip.

Fixpoint unify_repd (r1 r2 : RepD) {struct r1} : result RepD UnificationError :=
  let fail {A} (reason : string) : result A UnificationError := Err (IncompatibleRepD r1 r2 reason) in
  let mismatch {A} (what a b : string) : result A UnificationError :=
    fail (what +:+ " mismatch: " +:+ a +:+ " vs " +:+ b) in
  match r1, r2 with
  | RepD_Byte sa aa, RepD_Byte sb ab =>
      if negb (sa =? sb) || negb (aa =? ab)
      then mismatch "byte size/alignment" ("(" +:+ show sa +:+ ", " +:+ show aa +:+ ")")
             ("(" +:+ show sb +:+ ", " +:+ show ab +:+ ")")
      else Ok (RepD_Byte sa aa)
  | RepD_Struct fa total align, RepD_Struct fb _ _ =>
      if negb (Nat.eqb (length fa) (length fb))
      then mismatch "struct field count" (show (Z.of_nat (length fa))) (show (Z.of_nat (length fb)))
      else match zip_unify (λ x y : Z * RepD,
                   if negb (x.1 =? y.1) then mismatch "struct field offset" (show x.1) (show y.1)
                   else match unify_repd x.2 y.2 with Ok r => Ok (x.1, r) | Err e => Err e end) fa fb with
           | Ok fields => Ok (RepD_Struct fields total align)
           | Err e => Err e
           end
  | RepD_Array ea ca, RepD_Array eb cb =>
      if negb (ca =? cb) then mismatch "array count" (show ca) (show cb)
      else match unify_repd ea eb with Ok e => Ok (RepD_Array e ca) | Err e => Err e end
  | RepD_Enum va, RepD_Enum vb =>
      if negb (Nat.eqb (length va) (length vb))
      then mismatch "enum variant count" (show (Z.of_nat (length va))) (show (Z.of_nat (length vb)))
      else match zip_unify (λ x y : Z * RepD,
                   if negb (x.1 =? y.1) then mismatch "enum tag" (show x.1) (show y.1)
                   else match unify_repd x.2 y.2 with Ok r => Ok (x.1, r) | Err e => Err e end) va vb with
           | Ok variants => Ok (RepD_Enum variants)
           | Err e => Err e
           end
  | RepD_Ptr pa, RepD_Ptr pb => match unify_repd pa pb with Ok p => Ok (RepD_Ptr p) | Err e => Err e end
  | RepD_Union xa size align, RepD_Union xb _ _ =>
      if negb (Nat.eqb (length xa) (length xb))
      then mismatch "union alternative count" (show (Z.of_nat (length xa))) (show (Z.of_nat (length xb)))
      else match zip_unify unify_repd xa xb with
           | Ok alternatives => Ok (RepD_Union alternatives size align)
           | Err e => Err e
           end
  | RepD_Func pa ra, RepD_Func pb rb =>
      if negb (Nat.eqb (length pa) (length pb))
      then mismatch "function param count" (show (Z.of_nat (length pa))) (show (Z.of_nat (length pb)))
      else match zip_unify unify_repd pa pb with
           | Ok params => match unify_repd ra rb with Ok r => Ok (RepD_Func params r) | Err e => Err e end
           | Err e => Err e
           end
  | RepD_Generic _ _, other | other, RepD_Generic _ _ => Ok other
  | _, _ => fail "different RepD constructors"
  end.

Definition unify_capd (c1 c2 : CapD) : result CapD UnificationError :=
  let result := CapD_meet c1 c2 in
  if negb (bool_decide (CapD_caps c1 = ∅)) && negb (bool_decide (CapD_caps c2 = ∅)) &&
     bool_decide (CapD_caps result = ∅)
  then Err (IncompatibleCapD c1 c2) else Ok result.

Definition unify_reld (r1 r2 : RelD) : result RelD UnificationError :=
  let merged := RelD_merge r1 r2 in
  if negb (RelD_is_consistent merged) then Err (InconsistentRelD r1 r2) else Ok merged.

Definition unify (bd1 bd2 : BD) : result BD UnificationError :=
  match unify_repd (BD_repd bd1) (BD_repd bd2) with
  | Err e => Err e
  | Ok repd =>
      match unify_capd (BD_capd bd1) (BD_capd bd2) with
      | Err e => Err e
      | Ok capd =>
          match unify_reld (BD_reld bd1) (BD_reld bd2) with
          | Err e => Err e
          | Ok reld => Ok (BD_new repd capd reld)
          end
      end
  end.

(** ** Substitutions *)

Notation subst_map := (gmap BDVariable BDTerm).

Definition substitute (bd : BD) (subst : gmap BDVariable BD) : BD := bd.

Fixpoint chase_loop (fuel : nat) (subst : subst_map) (term : BDTerm) : outcome BDTerm :=
  match fuel with
  | O => Panic
  | S fuel =>
      match term with
      | Concrete bd => Ret (Concrete bd)
      | Var v =>
          match subst !! v with
          | Some resolved => chase_loop fuel subst resolved
          | None => Ret (Var v)
          end
      end
  end.
Definition substitute_term (term : BDTerm) (subst : subst_map) : outcome BDTerm :=
  chase_loop (S (size subst)) subst term.

(** Both walks are over hash maps; the result does not depend on their order. *)
Fixpoint compose_first (entries : list (BDVariable * BDTerm)) (s2 : subst_map) (result : subst_map) :
    outcome subst_map :=
  match entries with
  | [] => Ret result
  | (v, t) :: entries => t ← substitute_term t s2; compose_first entries s2 (<[v := t]> result)
  end.
Definition compose_subst (s1 s2 : subst_map) : outcome subst_map :=
  result ← compose_first (map_to_list s1) s2 ∅; Ret (result ∪ s2).

Fixpoint occurs_loop (fuel : nat) (var : BDVariable) (term : BDTerm) (subst : subst_map) : outcome bool :=
  match fuel with
  | O => Panic
  | S fuel =>
      match term with
      | Concrete _ => Ret false
      | Var v =>
          if decide (var = v) then Ret true
          else match subst !! v with
               | Some resolved => occurs_loop fuel var resolved subst
               | None => Ret false
               end
      end
  end.
Definition occurs_in (var : BDVariable) (term : BDTerm) (subst : subst_map) : outcome bool :=
  occurs_loop (S (size subst)) var term subst.

(** ** The solver *)

Record BDSolver := { solver_subst : subst_map }.

Definition BDSolver_new : BDSolver := {| solver_subst := ∅ |}.

Definition resolve (self : BDSolver) (term : BDTerm) : outcome BDTerm :=
  substitute_term term (solver_subst self).

(** The chase that remembers the numbers it has seen; every step but the last sees
    another number of the bound variables. *)
Fixpoint resolve_var_loop (fuel : nat) (subst : subst_map) (visited : gset Z) (current : BDVariable) :
    option BDTerm :=
  match fuel with
  | O => None
  | S fuel =>
      if decide (bv_id current ∈ visited) then Some (Var current)
      else match subst !! current with
           | Some (Var v3) => resolve_var_loop fuel subst ({[bv_id current]} ∪ visited) v3
           | Some other => Some other
           | None => Some (Var current)
           end
  end.
Definition resolve_var (self : BDSolver) (var : BDVariable) : option BDTerm :=
  match solver_subst self !! var with
  | Some (Var v2) => resolve_var_loop (S (size (solver_subst self))) (solver_subst self) {[bv_id var]} v2
  | other => other
  end.

Definition with_binding (self : BDSolver) (var : BDVariable) (term : BDTerm) : BDSolver :=
  {| solver_subst := <[var := term]> (solver_subst self) |}.

(** [unify_terms] and [bind_variable] call each other; [bind] is the second. *)
Definition bind_variable (unify_terms : BDSolver → BDTerm → BDTerm → outcome (result unit UnificationError * BDSolver))
    (self : BDSolver) (var : BDVariable) (term : BDTerm) :
    outcome (result unit UnificationError * BDSolver) :=
  occurs ← occurs_in var term (solver_subst self);
  if (occurs : bool) then Ret (Err (OccursCheckFailed var term), self)
  else match solver_subst self !! var with
       | Some existing =>
           existing_resolved ← resolve self existing;
           term_resolved ← resolve self term;
           if decide (existing_resolved = term_resolved) then Ret (Ok tt, self)
           else unify_terms self existing_resolved term_resolved
       | None => Ret (Ok tt, with_binding self var term)
       end.

Fixpoint unify_terms (fuel : nat) (self : BDSolver) (t1 t2 : BDTerm) :
    outcome (result unit UnificationError * BDSolver) :=
  match fuel with
  | O => Panic
  | S fuel =>
      if decide (t1 = t2) then Ret (Ok tt, self)
      else match t1, t2 with
           | Concrete bd1, Concrete bd2 =>
               Ret (match unify bd1 bd2 with Ok _ => Ok tt | Err e => Err e end, self)
           | Var v, term => bind_variable (unify_terms fuel) self v term
           | term, Var v => bind_variable (unify_terms fuel) self v term
           end
  end.

Definition check_compatibility (chk : bool) (t1 t2 : BDTerm) : outcome (result unit UnificationError) :=
  match t1, t2 with
  | Concrete bd1, Concrete bd2 =>
      ok ← BD_compatible chk bd1 bd2; Ret (if (ok : bool) then Ok tt else Err (Failed t1 t2))
  | _, _ => Ret (Ok tt)
  end.

Definition check_subtyping (chk : bool) (t1 t2 : BDTerm) : outcome (result unit UnificationError) :=
  match t1, t2 with
  | Concrete bd1, Concrete bd2 =>
      ok ← BD_refines chk bd1 bd2; Ret (if (ok : bool) then Ok tt else Err (SubtypeViolation bd1 bd2))
  | _, _ => Ret (Ok tt)
  end.

(** The terms are resolved, so that two calls deep no variable is bound. *)
Definition UNIFY_DEPTH : nat := 2.

Definition add_constraint (chk : bool) (self : BDSolver) (constraint : Constraint) :
    outcome (result unit UnificationError * BDSolver) :=
  left ← resolve self (c_left constraint);
  right ← resolve self (c_right constraint);
  match c_kind constraint with
  | Equality => unify_terms UNIFY_DEPTH self left right
  | Compatibility => r ← check_compatibility chk left right; Ret (r, self)
  | Subtyping => r ← check_subtyping chk left right; Ret (r, self)
  end.

Fixpoint add_constraints (chk : bool) (self : BDSolver) (constraints : list Constraint)
    (errors : list UnificationError) : outcome (list UnificationError * BDSolver) :=
  match constraints with
  | [] => Ret (errors, self)
  | c :: constraints =>
      '(r, self) ← add_constraint chk self c;
      add_constraints chk self constraints
        match r with Ok _ => errors | Err e => errors ++ [e] end
  end.

(** The concrete descriptors of the bound variables. *)
Fixpoint collect_concrete (self : BDSolver) (vars : list BDVariable) (result : gmap BDVariable BD) :
    outcome (gmap BDVariable BD) :=
  match vars with
  | [] => Ret result
  | v :: vars =>
      resolved ← resolve self (Var v);
      collect_concrete self vars
        match resolved with Concrete bd => <[v := bd]> result | Var _ => result end
  end.

Definition solve (chk : bool) (self : BDSolver) (constraints : list Constraint) :
    outcome (result (gmap BDVariable BD) (list UnificationError) * BDSolver) :=
  '(errors, self) ← add_constraints chk self constraints [];
  match errors with
  | [] => m ← collect_concrete self (map_to_list (solver_subst self)).*1 ∅; Ret (Ok m, self)
  | _ => Ret (Err errors, self)
  end.

(** The chains are collapsed one after the other, in the order of the map. *)
Fixpoint finalize_loop (self : BDSolver) (vars : list BDVariable) : outcome BDSolver :=
  match vars with
  | [] => Ret self
  | v :: vars => resolved ← resolve self (Var v); finalize_loop (with_binding self v resolved) vars
  end.
Definition finalize (self : BDSolver) (vars : list BDVariable) : outcome BDSolver := finalize_loop self vars.

Definition solve_constraints (chk : bool) (constraints : list Constraint) :
    outcome (result (gmap BDVariable BD) (list UnificationError)) :=
  '(r, _) ← solve chk BDSolver_new constraints; Ret r.

(** ** Specification *)

(** The representations that have no parts to unify. *)
Definition is_leaf (r : RepD) : bool :=
  match r with
  | RepD_ManifoldSpatial _ | RepD_GestaltSuperposition _ | RepD_ConceptRelational _
  | RepD_State _ | RepD_Ref _ _ | RepD_DependentArray _ _ => true
  | _ => false
  end.

(** The second representation is the first with each generic replaced; the sizes and
    alignments of structs and unions are left open. *)
Inductive instance_of : RepD → RepD → Prop :=
  | inst_generic name constraints r : instance_of (RepD_Generic name constraints) r
  | inst_byte size align : instance_of (RepD_Byte size align) (RepD_Byte size align)
  | inst_struct fa ta aa fb tb ab :
      Forall2 (λ x y : Z * RepD, x.1 = y.1 ∧ instance_of x.2 y.2) fa fb →
      instance_of (RepD_Struct fa ta aa) (RepD_Struct fb tb ab)
  | inst_array ea eb count : instance_of ea eb → instance_of (RepD_Array ea count) (RepD_Array eb count)
  | inst_enum va vb :
      Forall2 (λ x y : Z * RepD, x.1 = y.1 ∧ instance_of x.2 y.2) va vb →
      instance_of (RepD_Enum va) (RepD_Enum vb)
  | inst_ptr pa pb : instance_of pa pb → instance_of (RepD_Ptr pa) (RepD_Ptr pb)
  | inst_union xa sa aa xb sb ab :
      Forall2 instance_of xa xb → instance_of (RepD_Union xa sa aa) (RepD_Union xb sb ab)
  | inst_func pa ra pb rb :
      Forall2 instance_of pa pb → instance_of ra rb → instance_of (RepD_Func pa ra) (RepD_Func pb rb)
  | inst_leaf r : is_leaf r = true → instance_of r r.

(** Nothing that unification rejects outright. *)
Fixpoint leaf_free (r : RepD) : bool :=
  match r with
  | RepD_Byte _ _ | RepD_Generic _ _ => true
  | RepD_Struct fields _ _ => forallb (λ f, leaf_free (snd f)) fields
  | RepD_Array element _ => leaf_free element
  | RepD_Enum variants => forallb (λ v, leaf_free (snd v)) variants
  | RepD_Ptr pointee => leaf_free pointee
  | RepD_Union alternatives _ _ => forallb leaf_free alternatives
  | RepD_Func params result => forallb leaf_free params && leaf_free result
  | _ => false
  end.

(** ** Representations *)

Section induction.
  Context (P : RepD → Prop).
  Context (H_byte : ∀ s a, P (RepD_Byte s a))
    (H_struct : ∀ fs t a, Forall (λ f, P (snd f)) fs → P (RepD_Struct fs t a))
    (H_array : ∀ e c, P e → P (RepD_Array e c))
    (H_enum : ∀ vs, Forall (λ v, P (snd v)) vs → P (RepD_Enum vs))
    (H_ptr : ∀ p, P p → P (RepD_Ptr p))
    (H_union : ∀ xs s a, Forall P xs → P (RepD_Union xs s a))
    (H_func : ∀ ps r, Forall P ps → P r → P (RepD_Func ps r))
    (H_generic : ∀ n cs, P (RepD_Generic n cs))
    (H_leaf : ∀ r, is_leaf r = true → P r).

Fixpoint RepD_parts_ind (r : RepD) : P r :=
  let pairs := fix pairs (l : list (Z * RepD)) : Forall (λ f, P (snd f)) l :=
    match l with [] => Forall_nil_2 _ | x :: l => Forall_cons_2 _ _ _ (RepD_parts_ind (snd x)) (pairs l) end in
  let all := fix all (l : list RepD) : Forall P l :=
    match l with [] => Forall_nil_2 _ | x :: l => Forall_cons_2 _ _ _ (RepD_parts_ind x) (all l) end in
  match r with
  | RepD_Byte s a => H_byte s a
  | RepD_Struct fs t a => H_struct fs t a (pairs fs)
  | RepD_Array e c => H_array e c (RepD_parts_ind e)
  | RepD_Enum vs => H_enum vs (pairs vs)
  | RepD_Ptr p => H_ptr p (RepD_parts_ind p)
  | RepD_Union xs s a => H_union xs s a (all xs)
  | RepD_Func ps res => H_func ps res (all ps) (RepD_parts_ind res)
  | RepD_Generic n cs => H_generic n cs
  | r => H_leaf r eq_refl
  end.
End induction.

Lemma instance_of_refl r : instance_of r r.
Proof.
  induction r as [| fs t a IH| |vs IH| |xs s a IH|ps res IH IHr| |r Hr] using RepD_parts_ind;
    constructor; try done.
  - induction IH; constructor; auto.
  - induction IH; constructor; auto.
  - induction IH; constructor; auto.
  - induction IH; constructor; auto.
Qed.

Lemma zip_unify_Ok {A B C E} (f : A → B → result C E) l1 l2 l :
  length l1 = length l2 → zip_unify f l1 l2 = Ok l → Forall3 (λ a b c, f a b = Ok c) l1 l2 l.
Proof.
  revert l2 l. induction l1 as [|a l1 IH]; intros [|b l2] l Hl H; try done; cbn in *.
  - injection H as <-. constructor.
  - destruct (f a b) as [c|] eqn:E1; [|done]. destruct (zip_unify f l1 l2) as [cs|] eqn:E2; [|done].
    injection H as <-. constructor; [done|]. apply IH; [lia|done].
Qed.

(** Pairs that all unify. *)
Lemma zip_unify_exists {A B C E} (f : A → B → result C E) l1 l2 :
  Forall2 (λ a b, ∃ c, f a b = Ok c) l1 l2 → ∃ l, zip_unify f l1 l2 = Ok l.
Proof.
  induction 1 as [|a b l1 l2 [c Hc] _ [cs Hcs]]; [by exists []|]. exists (c :: cs). cbn. by rewrite Hc, Hcs.
Qed.

(** The pair of a field or a variant. *)
Definition unify_keyed (err : Z * RepD → Z * RepD → UnificationError) (x y : Z * RepD) :
    result (Z * RepD) UnificationError :=
  if negb (x.1 =? y.1) then Err (err x y)
  else match unify_repd x.2 y.2 with Ok r => Ok (x.1, r) | Err e => Err e end.

Lemma unify_keyed_Ok err x y z :
  unify_keyed err x y = Ok z ↔ x.1 = y.1 ∧ z.1 = x.1 ∧ unify_repd x.2 y.2 = Ok z.2.
Proof.
  unfold unify_keyed. destruct (Z.eqb_spec x.1 y.1); cbn; [|naive_solver].
  destruct z as [k r], (unify_repd x.2 y.2); cbn; naive_solver.
Qed.

(** *** The result is an instance of both *)

Lemma keyed_instances err l1 l2 l :
  Forall (λ x : Z * RepD, ∀ r2 r, unify_repd x.2 r2 = Ok r → instance_of x.2 r ∧ instance_of r2 r) l1 →
  Forall3 (λ a b c, unify_keyed err a b = Ok c) l1 l2 l →
  Forall2 (λ x y : Z * RepD, x.1 = y.1 ∧ instance_of x.2 y.2) l1 l ∧
  Forall2 (λ x y : Z * RepD, x.1 = y.1 ∧ instance_of x.2 y.2) l2 l.
Proof.
  intros H. induction 1 as [|a b c l1 l2 l (K1 & K2 & U)%unify_keyed_Ok _ IH]; [done|].
  apply Forall_cons in H as [Ha H]. destruct (IH H) as [H1 H2]. destruct (Ha _ _ U) as [I1 I2].
  split; constructor; try done; split; congruence.
Qed.

Lemma list_instances l1 l2 l :
  Forall (λ x, ∀ r2 r, unify_repd x r2 = Ok r → instance_of x r ∧ instance_of r2 r) l1 →
  Forall3 (λ a b c, unify_repd a b = Ok c) l1 l2 l →
  Forall2 instance_of l1 l ∧ Forall2 instance_of l2 l.
Proof.
  intros H. induction 1 as [|a b c l1 l2 l U _ IH]; [done|].
  apply Forall_cons in H as [Ha H]. destruct (IH H) as [H1 H2]. destruct (Ha _ _ U) as [I1 I2].
  split; by constructor.
Qed.

(** The guard on lengths, and the unified parts after it. *)
Lemma guarded_zip_Ok {A B C R E} (f : A → B → result C E) l1 l2 (e : E) (k : list C → R) r :
  (if negb (Nat.eqb (length l1) (length l2)) then Err e
   else match zip_unify f l1 l2 with Ok l => Ok (k l) | Err e => Err e end) = Ok r →
  ∃ l, r = k l ∧ Forall3 (λ a b c, f a b = Ok c) l1 l2 l.
Proof.
  destruct (Nat.eqb_spec (length l1) (length l2)) as [Hl|]; [|done]. cbn.
  destruct (zip_unify f l1 l2) as [l|] eqn:E1; [|done]. intros [= <-]. exists l.
  split; [done|]. by apply zip_unify_Ok.
Qed.

#[local] Ltac same_constructor r2 H :=
  destruct r2; try discriminate H;
  try (injection H as <-; split; solve [apply instance_of_refl | constructor]).

Lemma unify_repd_instances r1 r2 r :
  unify_repd r1 r2 = Ok r → instance_of r1 r ∧ instance_of r2 r.
Proof.
  revert r2 r. induction r1 as [s a|fs t a IH|e c IH|vs IH|p IH|xs s a IH|ps res IH IHr|n cs|r1 Hr]
    using RepD_parts_ind; intros r2 r H; [..|destruct r1; try discriminate Hr];
    same_constructor r2 H; cbn [unify_repd] in H.
  - destruct (Z.eqb_spec s size), (Z.eqb_spec a align); cbn in H; simplify_eq. split; constructor.
  - apply (guarded_zip_Ok (unify_keyed _)) in H as (l & -> & [H1 H2]%keyed_instances); [|done].
    by split; constructor.
  - destruct (Z.eqb_spec c count) as [->|]; [cbn in H|done].
    destruct (unify_repd e r2) as [r'|] eqn:E; [|done]. simplify_eq. apply IH in E as [].
    by split; constructor.
  - apply (guarded_zip_Ok (unify_keyed _)) in H as (l & -> & [H1 H2]%keyed_instances); [|done].
    by split; constructor.
  - destruct (unify_repd p r2) as [r'|] eqn:E; [|done]. simplify_eq. apply IH in E as [].
    by split; constructor.
  - apply guarded_zip_Ok in H as (l & -> & [H1 H2]%list_instances); [|done]. by split; constructor.
  - destruct (unify_repd res r2) as [r'|e] eqn:E.
    + apply (guarded_zip_Ok _ _ _ _ (λ l, RepD_Func l r')) in H as (l & -> & [H1 H2]%list_instances); [|done].
      apply IHr in E as []. by split; constructor.
    + destruct (negb _); [done|]. by destruct (zip_unify unify_repd ps params).
Qed.

(** *** The result is the most general one *)

Lemma keyed_most_general err l1 l2 l l' :
  Forall (λ x : Z * RepD, ∀ r2 r r', unify_repd x.2 r2 = Ok r → instance_of x.2 r' →
    instance_of r2 r' → instance_of r r') l1 →
  Forall3 (λ a b c, unify_keyed err a b = Ok c) l1 l2 l →
  Forall2 (λ x y : Z * RepD, x.1 = y.1 ∧ instance_of x.2 y.2) l1 l' →
  Forall2 (λ x y : Z * RepD, x.1 = y.1 ∧ instance_of x.2 y.2) l2 l' →
  Forall2 (λ x y : Z * RepD, x.1 = y.1 ∧ instance_of x.2 y.2) l l'.
Proof.
  intros H H3. revert l'. induction H3 as [|a b c l1 l2 l (K1 & K2 & U)%unify_keyed_Ok _ IH]; intros l' H1 H2.
  - inversion H1. constructor.
  - apply Forall_cons in H as [Ha H]. inversion H1 as [|? a' ? l1' [] ?]; subst.
    inversion H2 as [|? ? ? ? [] ?]; subst. constructor; [|by apply IH]. split; [congruence|].
    by eapply Ha.
Qed.

Lemma list_most_general l1 l2 l l' :
  Forall (λ x, ∀ r2 r r', unify_repd x r2 = Ok r → instance_of x r' →
    instance_of r2 r' → instance_of r r') l1 →
  Forall3 (λ a b c, unify_repd a b = Ok c) l1 l2 l →
  Forall2 instance_of l1 l' → Forall2 instance_of l2 l' → Forall2 instance_of l l'.
Proof.
  intros H H3. revert l'. induction H3 as [|a b c l1 l2 l U _ IH]; intros l' H1 H2.
  - inversion H1. constructor.
  - apply Forall_cons in H as [Ha H]. inversion H1; subst. inversion H2; subst.
    constructor; [by eapply Ha|by apply IH].
Qed.

Lemma unify_repd_most_general r1 r2 r r' :
  unify_repd r1 r2 = Ok r → instance_of r1 r' → instance_of r2 r' → instance_of r r'.
Proof.
  revert r2 r r'. induction r1 as [s a|fs t a IH|e c IH|vs IH|p IH|xs s a IH|ps res IH IHr|n cs|r1 Hr]
    using RepD_parts_ind; intros r2 r r' H I1 I2; [..|destruct r1; try discriminate Hr];
    destruct r2; try discriminate H; try (by injection H as <-); cbn [unify_repd] in H.
  - destruct (Z.eqb_spec s size), (Z.eqb_spec a align); cbn in H; by simplify_eq.
  - apply (guarded_zip_Ok (unify_keyed _)) in H as (l & -> & H). inversion I1; simplify_eq/=.
    inversion I2; simplify_eq/=. constructor. by eapply keyed_most_general.
  - destruct (Z.eqb_spec c count) as [->|]; [cbn in H|done].
    destruct (unify_repd e r2) as [u|] eqn:E; [|done]. simplify_eq. inversion I1; simplify_eq/=.
    inversion I2; simplify_eq/=. constructor. by eapply IH.
  - apply (guarded_zip_Ok (unify_keyed _)) in H as (l & -> & H). inversion I1; simplify_eq/=.
    inversion I2; simplify_eq/=. constructor. by eapply keyed_most_general.
  - destruct (unify_repd p r2) as [u|] eqn:E; [|done]. simplify_eq. inversion I1; simplify_eq/=.
    inversion I2; simplify_eq/=. constructor. by eapply IH.
  - apply guarded_zip_Ok in H as (l & -> & H). inversion I1; simplify_eq/=.
    inversion I2; simplify_eq/=. constructor. by eapply list_most_general.
  - destruct (unify_repd res r2) as [u|e] eqn:E.
    + apply (guarded_zip_Ok _ _ _ _ (λ l, RepD_Func l u)) in H as (l & -> & H). inversion I1; simplify_eq/=.
      inversion I2; simplify_eq/=. constructor; [by eapply list_most_general|by eapply IHr].
    + destruct (negb _); [done|]. by destruct (zip_unify unify_repd ps params).
Qed.

(** *** Representations with a common instance unify *)

Lemma keyed_unify err l1 l2 l :
  Forall (λ x : Z * RepD, ∀ r2 r', leaf_free x.2 = true → instance_of x.2 r' → instance_of r2 r' →
    ∃ r, unify_repd x.2 r2 = Ok r) l1 →
  forallb (λ x, leaf_free (snd x)) l1 = true →
  Forall2 (λ x y : Z * RepD, x.1 = y.1 ∧ instance_of x.2 y.2) l1 l →
  Forall2 (λ x y : Z * RepD, x.1 = y.1 ∧ instance_of x.2 y.2) l2 l →
  length l1 = length l2 ∧ ∃ u, zip_unify (unify_keyed err) l1 l2 = Ok u.
Proof.
  intros H Hf H1 H2. apply Forall2_length in H1 as L1, H2 as L2. split; [congruence|].
  apply zip_unify_exists. clear L1 L2. revert l2 H2.
  induction H1 as [|x y l1 l [K I] _ IH]; intros l2 H2; inversion H2 as [|z ? l2' ? [K' I'] ?]; subst;
    [constructor|]. apply Forall_cons in H as [Hx H]. cbn in Hf. apply andb_true_iff in Hf as [Fx Ff].
  constructor; [|by apply IH]. destruct (Hx _ _ Fx I I') as [r Hr]. exists (x.1, r).
  apply unify_keyed_Ok. split; [congruence|done].
Qed.

Lemma list_unify l1 l2 l :
  Forall (λ x, ∀ r2 r', leaf_free x = true → instance_of x r' → instance_of r2 r' →
    ∃ r, unify_repd x r2 = Ok r) l1 →
  forallb leaf_free l1 = true → Forall2 instance_of l1 l → Forall2 instance_of l2 l →
  length l1 = length l2 ∧ ∃ u, zip_unify unify_repd l1 l2 = Ok u.
Proof.
  intros H Hf H1 H2. apply Forall2_length in H1 as L1, H2 as L2. split; [congruence|].
  apply zip_unify_exists. clear L1 L2. revert l2 H2.
  induction H1 as [|x y l1 l I _ IH]; intros l2 H2; inversion H2; subst; [constructor|].
  apply Forall_cons in H as [Hx H]. cbn in Hf. apply andb_true_iff in Hf as [Fx Ff].
  constructor; [by eapply Hx|by apply IH].
Qed.

Lemma guarded_zip_exists {A B C R E} (f : A → B → result C E) l1 l2 (e : E) (k : list C → R) :
  length l1 = length l2 ∧ (∃ u, zip_unify f l1 l2 = Ok u) →
  ∃ r, (if negb (Nat.eqb (length l1) (length l2)) then Err e
        else match zip_unify f l1 l2 with Ok l => Ok (k l) | Err e => Err e end) = Ok r.
Proof. intros [-> [u ->]]. rewrite Nat.eqb_refl. by eexists. Qed.

Lemma unify_repd_complete r1 r2 r' :
  leaf_free r1 = true → instance_of r1 r' → instance_of r2 r' → ∃ r, unify_repd r1 r2 = Ok r.
Proof.
  revert r2 r'. induction r1 as [s a|fs t a IH|e c IH|vs IH|p IH|xs s a IH|ps res IH IHr|n cs|r1 Hr]
    using RepD_parts_ind; intros r2 r' F I1 I2; [..|by destruct r1];
    (destruct (is_generic r2) eqn:Eg; [destruct r2; try done; by eexists|]);
    try (by eexists); inversion I1; subst; try done; inversion I2; subst; try done; cbn [unify_repd].
  - eexists. by rewrite !Z.eqb_refl.
  - apply (guarded_zip_exists (unify_keyed _)). by eapply keyed_unify.
  - rewrite Z.eqb_refl. cbn. edestruct IH as [u ->]; [done..|]. by eexists.
  - apply (guarded_zip_exists (unify_keyed _)). by eapply keyed_unify.
  - edestruct IH as [u ->]; [done..|]. by eexists.
  - apply guarded_zip_exists. by eapply list_unify.
  - cbn in F. apply andb_true_iff in F as [F1 F2]. edestruct IHr as [u ->]; [done..|].
    apply (guarded_zip_exists _ _ _ _ (λ l, RepD_Func l u)). by eapply list_unify.
Qed.
