(* ===== verification/UnifySolver.v ===== *)
(** * The constraint solver

    The substitution of the solver has no cycles: every chase ends, after at most as many
    steps as there are bindings.  On such a substitution the solver is sound for
    equalities, and it finds every solution. *)

From S2P Require Import Prelude Capd Reld Manifold Repd Descriptor Unify.
From stdpp Require Import options.
#[local] Open Scope Z_scope.

(** ** Specification *)

(** The chase of a term, its length and its end. *)
Inductive chases (s : subst_map) : nat → BDTerm → BDTerm → Prop :=
  | chases_concrete bd : chases s 0 (Concrete bd) (Concrete bd)
  | chases_free v : s !! v = None → chases s 0 (Var v) (Var v)
  | chases_step n v t r : s !! v = Some t → chases s n t r → chases s (S n) (Var v) r.

Definition reaches (s : subst_map) (t r : BDTerm) : Prop := ∃ n, chases s n t r.

Definition wf_subst (s : subst_map) : Prop := ∀ t, ∃ n r, (n ≤ size s)%nat ∧ chases s n t r.

(** What an equality leaves true: both sides end in the same term, or in two descriptors
    that unify. *)
Definition agrees (s : subst_map) (l r : BDTerm) : Prop :=
  ∃ a b, reaches s l a ∧ reaches s r b ∧
    (a = b ∨ ∃ b1 b2 u, a = Concrete b1 ∧ b = Concrete b2 ∧ unify b1 b2 = Ok u).

(** *** Solutions *)

Definition eval_term (σ : BDVariable → BD) (t : BDTerm) : BD :=
  match t with Concrete bd => bd | Var v => σ v end.
Definition satisfies (chk : bool) (σ : BDVariable → BD) (c : Constraint) : Prop :=
  let l := eval_term σ (c_left c) in
  let r := eval_term σ (c_right c) in
  match c_kind c with
  | Equality => l = r
  | Compatibility => BD_compatible chk l r = Ret true
  | Subtyping => BD_refines chk l r = Ret true
  end.
Definition respects (σ : BDVariable → BD) (s : subst_map) : Prop :=
  ∀ v t, s !! v = Some t → σ v = eval_term σ t.

(** ** Chases *)

Lemma chases_end s n t r : chases s n t r → chases s 0 r r.
Proof. induction 1; [constructor|by constructor|done]. Qed.

Lemma chases_fun s n n' t r r' : chases s n t r → chases s n' t r' → n = n' ∧ r = r'.
Proof.
  intros H. revert n' r'. induction H as [bd|v Hv|n v t r Hv _ IH]; intros n' r' H'; inversion H'; simplify_eq;
    try done. destruct (IH _ _ ltac:(eassumption)) as [-> ->]. done.
Qed.

Lemma reaches_fun s t r r' : reaches s t r → reaches s t r' → r = r'.
Proof. intros [n H] [n' H']. by destruct (chases_fun _ _ _ _ _ _ H H'). Qed.

Lemma chase_loop_chases s n t r fuel : chases s n t r → (n < fuel)%nat → chase_loop fuel s t = Ret r.
Proof.
  intros H. revert fuel. induction H as [bd|v Hv|n v t r Hv _ IH]; intros [|fuel] Hf; cbn; try lia; try done.
  - by rewrite Hv.
  - rewrite Hv. apply IH. lia.
Qed.

Lemma wf_resolve s t r : wf_subst s → substitute_term t s = Ret r ↔ reaches s t r.
Proof.
  intros Hwf. destruct (Hwf t) as (n & r' & Hn & H). unfold substitute_term.
  rewrite (chase_loop_chases _ _ _ _ (S (size s)) H) by lia. split.
  - intros [= <-]. by exists n.
  - intros H'. f_equal. by eapply reaches_fun; [eexists|].
Qed.

Lemma wf_reaches s t : wf_subst s → ∃ r, reaches s t r.
Proof. intros Hwf. destruct (Hwf t) as (n & r & _ & H). exists r. by exists n. Qed.

Lemma empty_wf : wf_subst ∅.
Proof. intros t. exists 0%nat, t. split; [lia|]. destruct t; by constructor. Qed.

(** *** A new binding *)

Section bind.
  Context (s : subst_map) (v : BDVariable) (t : BDTerm)
    (Hv : s !! v = None) (Ht : chases s 0 t t) (Hne : t ≠ Var v).

Lemma end_kept r : chases s 0 r r → r ≠ Var v → chases (<[v := t]> s) 0 r r.
Proof.
  intros H Hr. destruct r as [bd|w]; [constructor|]. constructor. inversion H; subst.
  by rewrite lookup_insert_ne by congruence.
Qed.

Lemma chases_bind n u r : chases s n u r →
  chases (<[v := t]> s) (if decide (r = Var v) then S n else n) u (if decide (r = Var v) then t else r).
Proof using All.
  induction 1 as [bd|w Hw|n w u r Hw _ IH].
  - destruct (decide _); [done|constructor].
  - destruct (decide (Var w = Var v)) as [[= ->]|Hwv].
    + econstructor; [apply lookup_insert_eq|]. by apply end_kept.
    + apply end_kept; [by constructor|done].
  - assert (v ≠ w) by congruence.
    destruct (decide (r = Var v)); econstructor; try done; by rewrite lookup_insert_ne.
Qed.

Lemma wf_bind : wf_subst s → wf_subst (<[v := t]> s).
Proof using All.
  intros Hwf u. destruct (Hwf u) as (n & r & Hn & H). do 2 eexists. split; [|by apply chases_bind].
  rewrite map_size_insert_None by done. destruct (decide _); lia.
Qed.

Lemma reaches_bind u r : reaches s u r → reaches (<[v := t]> s) u (if decide (r = Var v) then t else r).
Proof using All. intros [n H]. eexists. by apply chases_bind. Qed.

Lemma respects_bind σ : respects σ s → σ v = eval_term σ t → respects σ (<[v := t]> s).
Proof. intros H Hσ w u [[<- <-]|[_ Hw]]%lookup_insert_Some; auto. Qed.
End bind.

Lemma respects_chases σ s n t r : respects σ s → chases s n t r → eval_term σ t = eval_term σ r.
Proof. intros H. induction 1 as [| |n v t r Hv _ IH]; try done. rewrite <- IH. by apply H. Qed.

(** *** Collapsing a chain *)

Section collapse.
  Context (s : subst_map) (v : BDVariable) (r : BDTerm) (n : nat) (Hr : chases s (S n) (Var v) r).

Lemma chases_collapse m u w : chases s m u w → ∃ m', (m' ≤ m)%nat ∧ chases (<[v := r]> s) m' u w.
Proof using Hr.
  assert (is_Some (s !! v)) as [tv Hv] by (inversion Hr; by eexists).
  assert (∀ x, chases s 0 x x → chases (<[v := r]> s) 0 x x) as Hend.
  { intros [bd|w'] Hx; [constructor|]. constructor. inversion Hx; subst.
    rewrite lookup_insert_ne; [done|congruence]. }
  induction 1 as [bd|x Hx|m x u w Hx H IH].
  - exists 0%nat. split; [lia|constructor].
  - exists 0%nat. split; [lia|]. apply Hend. by constructor.
  - destruct (decide (x = v)) as [->|Hne].
    + destruct (chases_fun _ _ _ _ _ _ Hr (chases_step _ _ _ _ _ Hx H)) as [_ <-].
      exists 1%nat. split; [lia|]. econstructor; [apply lookup_insert_eq|]. by apply Hend, (chases_end _ _ _ _ Hr).
    + destruct IH as (m' & Hm & IH). exists (S m'). split; [lia|]. econstructor; [|done].
      by rewrite lookup_insert_ne by done.
Qed.

Lemma wf_collapse : wf_subst s → wf_subst (<[v := r]> s).
Proof using Hr.
  intros Hwf u. destruct (Hwf u) as (m & w & Hm & H). destruct (chases_collapse _ _ _ H) as (m' & Hm' & H').
  exists m', w. split; [|done]. assert (is_Some (s !! v)) as Hv by (inversion Hr; by eexists).
  rewrite (map_size_insert_Some _ _ _ Hv). lia.
Qed.
End collapse.

(** ** One constraint *)

Notation solver_wf self := (wf_subst (solver_subst self)).

Lemma occurs_resolved s v t : chases s 0 t t → occurs_in v t s = Ret (bool_decide (t = Var v)).
Proof.
  intros H. unfold occurs_in. destruct t as [bd|w]; cbn.
  - by rewrite bool_decide_false.
  - inversion H; subst. destruct (decide (v = w)) as [->|Hne]; [by rewrite bool_decide_true|].
    replace (s !! w) with (@None BDTerm). rewrite bool_decide_false; [done|congruence].
Qed.

(** Between the two ends of chases, which are not the same. *)
Inductive unified (self : BDSolver) : BDTerm → BDTerm → result unit UnificationError → BDSolver → Prop :=
  | unified_same t : unified self t t (Ok tt) self
  | unified_concrete b1 b2 :
      b1 ≠ b2 →
      unified self (Concrete b1) (Concrete b2) (match unify b1 b2 with Ok _ => Ok tt | Err e => Err e end) self
  | unified_left v t : t ≠ Var v → unified self (Var v) t (Ok tt) (with_binding self v t)
  | unified_right bd v : unified self (Concrete bd) (Var v) (Ok tt) (with_binding self v (Concrete bd)).

Lemma unify_terms_resolved self t1 t2 :
  chases (solver_subst self) 0 t1 t1 → chases (solver_subst self) 0 t2 t2 →
  ∃ r self', unify_terms UNIFY_DEPTH self t1 t2 = Ret (r, self') ∧ unified self t1 t2 r self'.
Proof.
  intros H1 H2. unfold UNIFY_DEPTH. cbn [unify_terms].
  destruct (decide (t1 = t2)) as [->|Hne]; [do 2 eexists; split; [done|constructor]|].
  destruct t1 as [b1|v].
  - destruct t2 as [b2|w]; [do 2 eexists; split; [done|constructor; congruence]|].
    unfold bind_variable. rewrite occurs_resolved, bool_decide_false by done. cbn.
    inversion H2; subst. replace (solver_subst self !! w) with (@None BDTerm).
    do 2 eexists. split; [done|constructor].
  - unfold bind_variable. rewrite occurs_resolved, bool_decide_false by (done || congruence). cbn.
    inversion H1; subst. replace (solver_subst self !! v) with (@None BDTerm).
    do 2 eexists. split; [done|]. constructor. congruence.
Qed.

(** What a step of the solver keeps. *)
Record solver_grows (self self' : BDSolver) : Prop := {
  sg_wf : solver_wf self';
  sg_reaches : ∀ t t' r, reaches (solver_subst self) t t' → reaches (solver_subst self') t' r →
    reaches (solver_subst self') t r;
}.

Lemma reaches_end s t r r' : reaches s t r → reaches s r r' → r' = r.
Proof. intros [n H] H'. eapply reaches_fun; [exact H'|]. exists 0%nat. by eapply chases_end. Qed.

Lemma solver_grows_refl self : solver_wf self → solver_grows self self.
Proof. intros W. split; [done|]. intros t t' r H H'. by rewrite (reaches_end _ _ _ _ H H'). Qed.

Lemma solver_grows_trans s1 s2 s3 :
  solver_wf s2 → solver_grows s1 s2 → solver_grows s2 s3 → solver_grows s1 s3.
Proof.
  intros W [_ H1] [W3 H2]. split; [done|]. intros t t' r Ht Hr.
  destruct (wf_reaches _ t' W) as [x Hx]. destruct (wf_reaches _ x W3) as [y Hy].
  pose proof (H2 _ _ _ Hx Hy) as Hy'. rewrite (reaches_fun _ _ _ _ Hr Hy').
  eapply H2; [|exact Hy]. by eapply H1.
Qed.

(** Equalities that hold keep holding. *)
Lemma agrees_grow self self' l r l' r' :
  solver_grows self self' → reaches (solver_subst self) l l' → reaches (solver_subst self) r r' →
  agrees (solver_subst self') l' r' → agrees (solver_subst self') l r.
Proof.
  intros G Hl Hr (a & b & Ha & Hb & H). exists a, b.
  split; [by eapply (sg_reaches _ _ G)|]. split; [by eapply (sg_reaches _ _ G)|done].
Qed.

Lemma agrees_kept self self' l r :
  solver_grows self self' → agrees (solver_subst self) l r → agrees (solver_subst self') l r.
Proof.
  intros G (a & b & Ha & Hb & H). apply (agrees_grow _ _ _ _ _ _ G Ha Hb).
  destruct H as [->|(b1 & b2 & u & -> & -> & H)].
  - destruct (wf_reaches _ b (sg_wf _ _ G)) as [x Hx]. exists x, x. auto.
  - exists (Concrete b1), (Concrete b2). split; [exists 0%nat; constructor|].
    split; [exists 0%nat; constructor|]. right. by exists b1, b2, u.
Qed.

Lemma with_binding_grows self v t :
  solver_wf self → chases (solver_subst self) 0 (Var v) (Var v) → chases (solver_subst self) 0 t t →
  t ≠ Var v → solver_grows self (with_binding self v t).
Proof.
  intros W Hv Ht Hne. inversion Hv; subst. split.
  - by apply wf_bind.
  - intros u u' r Hu Hr. pose proof (reaches_bind _ v t ltac:(done) Ht Hne _ _ Hu) as Hu'.
    cbn [solver_subst with_binding] in *. destruct (decide (u' = Var v)) as [->|Hu'v].
    + assert (reaches (<[v := t]> (solver_subst self)) (Var v) t) as Hvt.
      { exists 1%nat. econstructor; [apply lookup_insert_eq|]. by apply end_kept. }
      by rewrite (reaches_fun _ _ _ _ Hr Hvt).
    + by rewrite (reaches_end _ _ _ _ Hu' Hr).
Qed.

Lemma binding_agrees s v t :
  s !! v = None → chases s 0 t t → t ≠ Var v → agrees (<[v := t]> s) (Var v) t.
Proof.
  intros Hv Ht Hne. assert (chases (<[v := t]> s) 0 t t) as Ht' by (by apply end_kept).
  exists t, t. split; [|split; [by exists 0%nat|by left]]. exists 1%nat.
  econstructor; [apply lookup_insert_eq|done].
Qed.

Lemma agrees_sym_var s v t : s !! v = None → chases s 0 t t → t ≠ Var v → agrees (<[v := t]> s) t (Var v).
Proof.
  intros Hv Ht Hne. destruct (binding_agrees s v t Hv Ht Hne) as (a & b & Ha & Hb & H).
  assert (reaches (<[v := t]> s) t t) as Hr by (exists 0%nat; by apply end_kept).
  pose proof (reaches_fun _ _ _ _ Hb Hr) as ->. exists t, a. split; [done|]. split; [done|].
  left. assert (reaches (<[v := t]> s) (Var v) t) as Hr'; [|by eapply reaches_fun].
  exists 1%nat. econstructor; [apply lookup_insert_eq|]. by apply end_kept.
Qed.

Lemma unified_spec self t1 t2 r self' :
  solver_wf self → chases (solver_subst self) 0 t1 t1 → chases (solver_subst self) 0 t2 t2 →
  unified self t1 t2 r self' →
  solver_grows self self' ∧ (r = Ok tt → agrees (solver_subst self') t1 t2).
Proof.
  intros W H1 H2 U. destruct U as [t|b1 b2 Hne|v t Hne|bd v].
  - split; [by apply solver_grows_refl|]. intros _. exists t, t. split; [by exists 0%nat|].
    split; [by exists 0%nat|by left].
  - split; [by apply solver_grows_refl|]. intros Hr. exists (Concrete b1), (Concrete b2).
    split; [by exists 0%nat|]. split; [by exists 0%nat|]. right.
    destruct (unify b1 b2) as [u|] eqn:E; [|done]. by exists b1, b2, u.
  - split; [by apply with_binding_grows|]. intros _. inversion H1; subst. by apply binding_agrees.
  - split; [by apply with_binding_grows|]. intros _. inversion H2; subst. by apply agrees_sym_var.
Qed.

Lemma reaches_chases_end s t r : reaches s t r → chases s 0 r r.
Proof. intros [n H]. by eapply chases_end. Qed.

(** An equality never fails to return, and is left true when it is accepted. *)
Lemma add_equality chk self l r :
  solver_wf self →
  ∃ res self', add_constraint chk self (equality l r) = Ret (res, self') ∧ solver_grows self self' ∧
    (res = Ok tt → agrees (solver_subst self') l r).
Proof.
  intros W. destruct (wf_reaches _ l W) as [l' Hl], (wf_reaches _ r W) as [r' Hr].
  unfold add_constraint, resolve. cbn [c_left c_right c_kind equality].
  rewrite (proj2 (wf_resolve _ _ _ W) Hl), (proj2 (wf_resolve _ _ _ W) Hr). cbn.
  destruct (unify_terms_resolved self l' r') as (res & self' & E & U);
    [by eapply reaches_chases_end|by eapply reaches_chases_end|].
  destruct (unified_spec _ _ _ _ _ W (reaches_chases_end _ _ _ Hl) (reaches_chases_end _ _ _ Hr) U) as [G H].
  exists res, self'. split; [done|]. split; [done|]. intros Hres. by eapply agrees_grow; eauto.
Qed.

(** Of the other two kinds only the check of two descriptors may panic; nothing is bound. *)
Lemma add_check chk self c :
  solver_wf self → c_kind c ≠ Equality →
  (∃ res, add_constraint chk self c = Ret (res, self)) ∨
  (∃ b1 b2, reaches (solver_subst self) (c_left c) (Concrete b1) ∧
     reaches (solver_subst self) (c_right c) (Concrete b2) ∧
     (BD_compatible chk b1 b2 = Panic ∨ BD_refines chk b1 b2 = Panic)).
Proof.
  intros W Hk. destruct c as [cl cr k]. cbn [c_left c_right c_kind] in *. destruct (wf_reaches _ cl W) as [l Hl], (wf_reaches _ cr W) as [r Hr].
  unfold add_constraint, resolve. cbn [c_left c_right c_kind].
  rewrite (proj2 (wf_resolve _ _ _ W) Hl), (proj2 (wf_resolve _ _ _ W) Hr). cbn.
  destruct k; [done|..];
    (destruct l as [b1|v]; [|left; by eexists]); (destruct r as [b2|w]; [|left; by eexists]); cbn.
  - destruct (BD_compatible chk b1 b2) as [ok|] eqn:E; [left; by eexists|]. right. eauto 8.
  - destruct (BD_refines chk b1 b2) as [ok|] eqn:E; [left; by eexists|]. right. eauto 8.
Qed.

Lemma add_constraint_grows chk self c res self' :
  solver_wf self → add_constraint chk self c = Ret (res, self') →
  solver_grows self self' ∧
  (c_kind c = Equality → res = Ok tt → agrees (solver_subst self') (c_left c) (c_right c)).
Proof.
  intros W E. destruct c as [l r []].
  - destruct (add_equality chk self l r W) as (res' & s' & E' & G & H). unfold equality in E'.
    rewrite E in E'. simplify_eq. auto.
  - split; [|by intros [=]]. unfold add_constraint in E. cbn [c_left c_right c_kind] in E.
    destruct (resolve self l) as [l'|]; cbn [mbind outcome_bind] in E; [|done]. destruct (resolve self r) as [r'|]; cbn [mbind outcome_bind] in E; [|done].
    destruct (check_compatibility _ _ _); cbn [mbind outcome_bind] in E; [|done].
    simplify_eq. by apply solver_grows_refl.
  - split; [|by intros [=]]. unfold add_constraint in E. cbn [c_left c_right c_kind] in E.
    destruct (resolve self l) as [l'|]; cbn [mbind outcome_bind] in E; [|done]. destruct (resolve self r) as [r'|]; cbn [mbind outcome_bind] in E; [|done].
    destruct (check_subtyping _ _ _); cbn [mbind outcome_bind] in E; [|done].
    simplify_eq. by apply solver_grows_refl.
Qed.

(** ** Many constraints *)

Lemma add_constraints_sound chk self cs errors errors' self' :
  solver_wf self → add_constraints chk self cs errors = Ret (errors', self') →
  solver_grows self self' ∧ (errors' = [] → errors = [] ∧
    ∀ c, c ∈ cs → c_kind c = Equality → agrees (solver_subst self') (c_left c) (c_right c)).
Proof.
  revert self errors. induction cs as [|c cs IH]; intros self errors W E; cbn [add_constraints] in E.
  { simplify_eq. split; [by apply solver_grows_refl|]. intros ->. split; [done|]. by intros c ?%elem_of_nil. }
  destruct (add_constraint chk self c) as [[res s1]|] eqn:E1; [|done]. cbn in E.
  apply add_constraint_grows in E1 as [G1 H1]; [|done].
  apply IH in E as [G2 H2]; [|apply G1]. split; [eapply solver_grows_trans; [apply G1|done..]|].
  intros Herr. destruct (H2 Herr) as [He Hcs]. destruct res as [[]|e]; [|by destruct errors].
  split; [done|]. intros c' [->|Hc']%elem_of_cons Hk; [|by apply Hcs]. eapply agrees_kept; [done|]. by apply H1.
Qed.

Lemma add_constraints_total chk self cs errors :
  solver_wf self → Forall (λ c, c_kind c = Equality) cs →
  ∃ errors' self', add_constraints chk self cs errors = Ret (errors', self').
Proof.
  revert self errors. induction cs as [|c cs IH]; intros self errors W H; cbn [add_constraints]; [by do 2 eexists|].
  apply Forall_cons in H as [Hc H]. destruct c as [l r k]. cbn in Hc. subst k.
  destruct (add_equality chk self l r W) as (res & s' & E & G & _). unfold equality in E. rewrite E. cbn.
  apply IH; [apply G|done].
Qed.

Lemma collect_concrete_spec self vars m :
  solver_wf self →
  ∃ m', collect_concrete self vars m = Ret m' ∧
    ∀ v bd, m' !! v = Some bd ↔
      (v ∈ vars ∧ reaches (solver_subst self) (Var v) (Concrete bd)) ∨
      (m !! v = Some bd ∧ (v ∈ vars → ∀ bd', ¬ reaches (solver_subst self) (Var v) (Concrete bd'))).
Proof.
  intros W. revert m. induction vars as [|w vars IH]; intros m; cbn [collect_concrete].
  { exists m. split; [done|]. intros v bd. split; [intros H; right; split; [done|by intros ?%elem_of_nil]|].
    intros [[?%elem_of_nil _]|[? _]]; done. }
  destruct (wf_reaches _ (Var w) W) as [r Hr]. unfold resolve.
  rewrite (proj2 (wf_resolve _ _ _ W) Hr). cbn.
  destruct (IH match r with Concrete bd => <[w:=bd]> m | Var _ => m end) as (m' & E & H).
  exists m'. split; [done|]. intros v bd. rewrite H. clear H E.
  assert (∀ x, reaches (solver_subst self) (Var w) x → x = r) as Hfun by (intros x Hx; by eapply reaches_fun).
  destruct (decide (v = w)) as [->|Hne].
  - destruct r as [b|x].
    + rewrite lookup_insert_eq. split.
      * intros [[Hv Hbd]|[[= ->] _]]; left; (split; [by left|done]).
      * intros [[_ Hbd]|[_ Hno]]; [|exfalso; by eapply Hno; [left|]]. apply Hfun in Hbd as [= ->].
        destruct (decide (w ∈ vars)); [by left|right]. split; [done|]. by intros.
    + split.
      * intros [[Hv Hbd]|[Hm Hno]]; [by apply Hfun in Hbd|right]. split; [done|]. by intros _ b' ?%Hfun.
      * intros [[_ Hbd]|[Hm Hno]]; [by apply Hfun in Hbd|right]. split; [done|]. by intros _ b' ?%Hfun.
  - assert (match r with Concrete b => <[w:=b]> m | Var _ => m end !! v = m !! v) as ->.
    { destruct r; [by rewrite lookup_insert_ne|done]. }
    rewrite elem_of_cons. naive_solver.
Qed.

Lemma solve_spec chk self cs res self' :
  solver_wf self → solve chk self cs = Ret (res, self') →
  solver_grows self self' ∧ ∀ m, res = Ok m →
    (∀ c, c ∈ cs → c_kind c = Equality → agrees (solver_subst self') (c_left c) (c_right c)) ∧
    ∀ v bd, m !! v = Some bd ↔ reaches (solver_subst self') (Var v) (Concrete bd).
Proof.
  intros W E. unfold solve in E.
  destruct (add_constraints chk self cs []) as [[errors s1]|] eqn:E1; [|done]. cbn in E.
  apply add_constraints_sound in E1 as [G H]; [|done]. destruct errors as [|e errors].
  - destruct (collect_concrete_spec s1 (map_to_list (solver_subst s1)).*1 ∅ (sg_wf _ _ G)) as (m' & E2 & Hm).
    rewrite E2 in E. cbn in E. simplify_eq. split; [done|]. intros m [= <-]. split; [by apply H|].
    intros v bd. rewrite Hm, lookup_empty. split; [naive_solver|]. intros Hr. left. split; [|done].
    destruct Hr as [n Hr]. inversion Hr; subst. apply list_elem_of_fmap. eexists (v, _).
    split; [done|]. by apply elem_of_map_to_list.
  - simplify_eq. done.
Qed.

(** ** Solutions are found *)

Section solution.
  Context (chk : bool) (σ : BDVariable → BD).

Lemma respects_reaches s t r : respects σ s → reaches s t r → eval_term σ t = eval_term σ r.
Proof. intros H [n Hr]. by eapply respects_chases. Qed.

Lemma unified_respects self t1 t2 r self' :
  respects σ (solver_subst self) → eval_term σ t1 = eval_term σ t2 → unified self t1 t2 r self' →
  r = Ok tt ∧ respects σ (solver_subst self').
Proof.
  intros R E U. destruct U as [t|b1 b2 Hne|v t Hne|bd v]; [done|done|..]; (split; [done|]);
    by apply respects_bind.
Qed.

Lemma add_constraint_complete self c :
  solver_wf self → respects σ (solver_subst self) → satisfies chk σ c →
  ∃ self', add_constraint chk self c = Ret (Ok tt, self') ∧ solver_grows self self' ∧
    respects σ (solver_subst self').
Proof.
  intros W R S. destruct c as [l r k]. unfold satisfies in S. cbn [c_left c_right c_kind] in S.
  destruct (wf_reaches _ l W) as [l' Hl], (wf_reaches _ r W) as [r' Hr].
  rewrite (respects_reaches _ _ _ R Hl), (respects_reaches _ _ _ R Hr) in S.
  unfold add_constraint, resolve. cbn [c_left c_right c_kind].
  rewrite (proj2 (wf_resolve _ _ _ W) Hl), (proj2 (wf_resolve _ _ _ W) Hr). cbn [mbind outcome_bind].
  pose proof (reaches_chases_end _ _ _ Hl) as El. pose proof (reaches_chases_end _ _ _ Hr) as Er.
  destruct k.
  - destruct (unify_terms_resolved self l' r' El Er) as (res & s' & E & U).
    destruct (unified_respects _ _ _ _ _ R S U) as [-> R']. exists s'. split; [done|]. split; [|done].
    by destruct (unified_spec _ _ _ _ _ W El Er U).
  - exists self. split; [|split; [by apply solver_grows_refl|done]].
    destruct l' as [b1|], r' as [b2|]; try done. cbn in *. by rewrite S.
  - exists self. split; [|split; [by apply solver_grows_refl|done]].
    destruct l' as [b1|], r' as [b2|]; try done. cbn in *. by rewrite S.
Qed.

Lemma add_constraints_complete self cs :
  solver_wf self → respects σ (solver_subst self) → Forall (satisfies chk σ) cs →
  ∃ self', add_constraints chk self cs [] = Ret ([], self') ∧ solver_wf self' ∧
    respects σ (solver_subst self').
Proof.
  revert self. induction cs as [|c cs IH]; intros self W R H; cbn [add_constraints]; [by exists self|].
  apply Forall_cons in H as [Hc H]. destruct (add_constraint_complete self c W R Hc) as (s1 & E & G & R1).
  rewrite E. cbn [mbind outcome_bind]. apply IH; [apply G|done|done].
Qed.

Lemma solve_complete self cs :
  solver_wf self → respects σ (solver_subst self) → Forall (satisfies chk σ) cs →
  ∃ m self', solve chk self cs = Ret (Ok m, self') ∧ ∀ v bd, m !! v = Some bd → bd = σ v.
Proof.
  intros W R H. destruct (add_constraints_complete self cs W R H) as (s1 & E & W1 & R1).
  destruct (collect_concrete_spec s1 (map_to_list (solver_subst s1)).*1 ∅ W1) as (m & E2 & Hm).
  exists m, s1. unfold solve. rewrite E. cbn [mbind outcome_bind]. rewrite E2. split; [done|].
  intros v bd. rewrite Hm, lookup_empty. intros [[_ Hr]|[? _]]; [|done].
  symmetry. exact (respects_reaches _ _ _ R1 Hr).
Qed.
End solution.

(** ** Collapsing the chains *)

Lemma finalize_spec self vars :
  solver_wf self → (∀ v, v ∈ vars → is_Some (solver_subst self !! v)) →
  ∃ self', finalize self vars = Ret self' ∧ solver_wf self' ∧
    (∀ t r, reaches (solver_subst self') t r ↔ reaches (solver_subst self) t r) ∧
    (∀ v, v ∈ vars → ∃ r, solver_subst self' !! v = Some r ∧ reaches (solver_subst self) (Var v) r) ∧
    (∀ v, v ∉ vars → solver_subst self' !! v = solver_subst self !! v).
Proof.
  unfold finalize. revert self. induction vars as [|v vars IH]; intros self W Hv; cbn [finalize_loop].
  { exists self. split; [done|]. split; [done|]. split; [done|]. split; [by intros v ?%elem_of_nil|done]. }
  destruct (wf_reaches _ (Var v) W) as [r Hr]. unfold resolve.
  rewrite (proj2 (wf_resolve _ _ _ W) Hr). cbn [mbind outcome_bind]. pose proof Hr as [[|n] Hn].
  { destruct (Hv v ltac:(left)) as [x Hx]. inversion Hn; congruence. }
  assert (solver_wf (with_binding self v r)) as W' by by eapply wf_collapse.
  assert (∀ t r', reaches (solver_subst (with_binding self v r)) t r' ↔ reaches (solver_subst self) t r') as Heq.
  { intros t r'. destruct (wf_reaches _ t W) as [x [m Hx]].
    destruct (chases_collapse _ _ _ _ Hn _ _ _ Hx) as (m' & _ & Hx').
    assert (reaches (solver_subst (with_binding self v r)) t x) as H1 by (by exists m').
    assert (reaches (solver_subst self) t x) as H2 by (by exists m).
    split; intros H; [by rewrite (reaches_fun _ _ _ _ H H1)|by rewrite (reaches_fun _ _ _ _ H H2)]. }
  destruct (IH (with_binding self v r) W') as (s' & E & Ws & Hs & Hall & Hrest).
  { intros w Hw. cbn. rewrite lookup_insert_is_Some. destruct (decide (v = w)); [by left|right].
    split; [done|]. apply Hv. by right. }
  exists s'. split; [done|]. split; [done|]. split; [intros t r'; by rewrite Hs|]. split.
  - intros w Hw. destruct (decide (w ∈ vars)) as [Hin|Hout].
    + destruct (Hall w Hin) as (r' & H1 & H2%Heq). by exists r'.
    + apply elem_of_cons in Hw as [->|]; [|done]. exists r. split; [|done].
      rewrite (Hrest v Hout). apply lookup_insert_eq.
  - intros w [Hne Hw]%not_elem_of_cons. rewrite (Hrest w Hw). by apply lookup_insert_ne.
Qed.

(** ** Properties *)

(** C17. Unification of representations computes the most general common instance: the
    result is an instance of both, and every common instance is an instance of it; and
    two representations with a common instance unify, unless the first holds one of the
    constructors that unification rejects.  Sizes of structs and unions are left open. *)
Theorem unify_repd_correct r1 r2 :
  (∀ r, unify_repd r1 r2 = Ok r →
     instance_of r1 r ∧ instance_of r2 r ∧
     ∀ r', instance_of r1 r' → instance_of r2 r' → instance_of r r') ∧
  (leaf_free r1 = true → (∃ r', instance_of r1 r' ∧ instance_of r2 r') → ∃ r, unify_repd r1 r2 = Ok r).
Proof.
  split.
  - intros r H. destruct (unify_repd_instances _ _ _ H) as [I1 I2]. split; [done|]. split; [done|].
    intros r'. by eapply unify_repd_most_general.
  - intros F (r' & I1 & I2). by eapply unify_repd_complete.
Qed.

Lemma unify_repd_correct_witness :
  ∃ r, unify_repd (RepD_Struct [(0, RepD_Generic "T" []); (8, RepD_Byte 4 4)] 16 8)
                  (RepD_Struct [(0, RepD_Ptr (RepD_Byte 1 1)); (8, RepD_Generic "U" [])] 16 8) = Ok r.
Proof.
  apply (unify_repd_correct _ _); [reflexivity|].
  exists (RepD_Struct [(0, RepD_Ptr (RepD_Byte 1 1)); (8, RepD_Byte 4 4)] 16 8).
  split; repeat (constructor || (split; [reflexivity|]); cbn); apply instance_of_refl.
Defined.

(** C16. What the solver accepts: after a run without errors both sides of every equality
    of the list end in the same term, or in two descriptors that unify, whatever came
    later; the result maps exactly the variables whose chase ends in a descriptor to it.
    A run over equalities always returns, and later chases on its substitution end. *)
Theorem solve_sound chk cs :
  (∀ m self', solve chk BDSolver_new cs = Ret (Ok m, self') →
     (∀ c, c ∈ cs → c_kind c = Equality → agrees (solver_subst self') (c_left c) (c_right c)) ∧
     (∀ v bd, m !! v = Some bd ↔ resolve self' (Var v) = Ret (Concrete bd)) ∧
     ∀ t, ∃ r, resolve self' t = Ret r) ∧
  (Forall (λ c, c_kind c = Equality) cs → ∃ res self', solve chk BDSolver_new cs = Ret (res, self')).
Proof.
  assert (solver_wf BDSolver_new) as W0 by apply empty_wf. split.
  - intros m self' E. destruct (solve_spec _ _ _ _ _ W0 E) as [[W _] H]. destruct (H m eq_refl) as [H1 H2].
    split; [done|]. unfold resolve. split; [intros v bd; by rewrite H2, wf_resolve|].
    intros t. destruct (wf_reaches _ t W) as [r Hr]. exists r. by apply wf_resolve.
  - intros H. destruct (add_constraints_total chk BDSolver_new cs [] W0 H) as (errors & s1 & E).
    unfold solve. rewrite E. cbn [mbind outcome_bind]. destruct errors as [|e errors]; [|by do 2 eexists].
    destruct (add_constraints_sound _ _ _ _ _ _ W0 E) as [[W1 _] _].
    destruct (collect_concrete_spec s1 (map_to_list (solver_subst s1)).*1 ∅ W1) as (m & -> & _).
    by do 2 eexists.
Qed.

(** C15. What has a solution is solved, and nothing is guessed: if some assignment of
    descriptors to the variables satisfies every constraint, then the run ends without an
    error, and each descriptor it gives a variable is the one of the assignment. *)
Theorem solve_principal chk σ cs :
  Forall (satisfies chk σ) cs →
  ∃ m, solve_constraints chk cs = Ret (Ok m) ∧ ∀ v bd, m !! v = Some bd → bd = σ v.
Proof.
  intros H. destruct (solve_complete chk σ BDSolver_new cs empty_wf ltac:(done) H) as (m & s & E & Hm).
  exists m. split; [|done]. unfold solve_constraints. by rewrite E.
Qed.

(** *** Examples *)

Definition var_x : BDVariable := BDVariable_new 0 "X".
Definition var_y : BDVariable := BDVariable_new 1 "Y".
Definition word_bd : BD := BD_new (RepD_Byte 4 4) CapD_all RelD_empty.
Definition pointer_bd : BD := BD_new (RepD_Ptr (RepD_Byte 1 1)) CapD_all RelD_empty.
Definition generic_bd : BD := BD_new (RepD_Generic "T" []) CapD_all RelD_empty.
Definition state_bd : BD := BD_new (RepD_State 0) CapD_all RelD_empty.

Definition chain : list Constraint :=
  [equality (Var var_x) (Var var_y); equality (Var var_y) (Concrete word_bd);
   compatibility (Var var_x) (Concrete word_bd)].

Lemma solve_principal_witness :
  ∃ m, solve_constraints true chain = Ret (Ok m) ∧ ∀ v bd, m !! v = Some bd → bd = word_bd.
Proof.
  apply (solve_principal true (λ _, word_bd)). repeat apply Forall_cons_2; [done|done| |done].
  vm_compute. reflexivity.
Defined.

Lemma solve_sound_witness :
  ∃ res self', solve true BDSolver_new
    [equality (Var var_x) (Var var_y); equality (Var var_y) (Concrete word_bd)] = Ret (res, self').
Proof. apply (solve_sound true). by repeat constructor. Defined.

(** Where the solver and unification fall short of what they say: a compatibility or
    subtyping constraint on a variable is never looked at again, so the same constraints
    are accepted in one order and rejected in the other; an equality of two descriptors
    that unify is accepted, but the unified descriptor is dropped and the variable keeps
    the first; a state representation does not unify with itself; and structs unify
    whatever their sizes, with the size of the first. *)
Theorem unify_defects :
  BD_compatible true pointer_bd word_bd = Ret false ∧
  solve_constraints true [compatibility (Var var_x) (Concrete word_bd);
                          equality (Var var_x) (Concrete pointer_bd)] =
    Ret (Ok {[var_x := pointer_bd]}) ∧
  solve_constraints true [equality (Var var_x) (Concrete pointer_bd);
                          compatibility (Var var_x) (Concrete word_bd)] =
    Ret (Err [Failed (Concrete pointer_bd) (Concrete word_bd)]) ∧
  unify generic_bd word_bd = Ok word_bd ∧
  solve_constraints true [equality (Var var_x) (Concrete generic_bd);
                          equality (Var var_x) (Concrete word_bd)] =
    Ret (Ok {[var_x := generic_bd]}) ∧
  unify state_bd state_bd =
    Err (IncompatibleRepD (RepD_State 0) (RepD_State 0) "different RepD constructors") ∧
  (∀ t1 a1 t2 a2, unify_repd (RepD_Struct [] t1 a1) (RepD_Struct [] t2 a2) = Ok (RepD_Struct [] t1 a1)).
Proof. repeat (split; [reflexivity|]). done. Qed.
