(* ===== verification/MemModel.v ===== *)
(** * The memory model's values

    Models [src/src/vuma/src/{address,program_point,region,derivation,access,sync}.rs]:
    addresses, program points, regions, pointer derivations and their chains,
    accesses with their byte ranges, and synchronisation edges.  The pointer
    chain walks are loops without a bound in the source; here they take fuel
    and [None] means that the loop is still running. *)

From S2P Require Import Prelude.
From stdpp Require Import options.
#[local] Open Scope Z_scope.

(** ** Addresses *)

Definition Address : Type := Z.
Definition NULL : Address := 0.

(** [by >= 0] saturates upwards, otherwise [(-by) as u64] is subtracted. *)
Definition Address_offset (chk : bool) (self : Address) (by_ : Z) : outcome Address :=
  if 0 <=? by_ then Ret (saturating_add self by_)
  else neg ← i64_neg chk by_; mret (saturating_sub self (wrap64 neg)).

Definition Address_is_null (self : Address) : bool := self =? 0.

Definition is_power_of_two (n : Z) : bool := (0 <? n) && (Z.land n (n - 1) =? 0).

(** [debug_assert!] is active in the builds that check overflow. *)
Definition Address_align_to (chk : bool) (self : Address) (align : Z) : outcome Address :=
  if chk && negb (is_power_of_two align) then Panic else
  mask ← u64_sub chk align 1;
  s ← u64_add chk self mask;
  mret (Z.land s (not64 mask)).

Definition Address_fmt (self : Address) : string := "0x" +:+ hex_digits 16 self.
Definition Address_lower_hex (self : Address) : string := hex_digits 16 self.

Definition Address_add (chk : bool) (self : Address) (rhs : Z) : outcome Address :=
  u64_add chk self rhs.
Definition Address_sub (chk : bool) (self : Address) (rhs : Z) : outcome Address :=
  u64_sub chk self rhs.
Definition Address_diff (chk : bool) (self rhs : Address) : outcome Z :=
  i64_sub chk (as_i64 self) (as_i64 rhs).
Definition Address_add_assign (chk : bool) (self : Address) (rhs : Z) : outcome Address :=
  u64_add chk self rhs.

(** ** Program points *)

Definition NodeId : Type := Z.

Definition NodeId_fmt (n : NodeId) : string := "node#" +:+ show n.

Record ProgramPoint := {
  pp_file : string;
  pp_line : Z;
  pp_col : Z;
  pp_node_id : option NodeId;
}.

#[export] Instance ProgramPoint_eq_dec : EqDecision ProgramPoint.
Proof. solve_decision. Defined.

Definition ProgramPoint_new (file : string) (line col : Z) : ProgramPoint :=
  {| pp_file := file; pp_line := line; pp_col := col; pp_node_id := None |}.

Definition ProgramPoint_with_node (self : ProgramPoint) (n : NodeId) : ProgramPoint :=
  {| pp_file := pp_file self; pp_line := pp_line self; pp_col := pp_col self;
     pp_node_id := Some n |}.

Definition ProgramPoint_fmt (self : ProgramPoint) : string :=
  pp_file self +:+ ":" +:+ show (pp_line self) +:+ ":" +:+ show (pp_col self) +:+
  match pp_node_id self with Some n => " [" +:+ NodeId_fmt n +:+ "]" | None => "" end.

(** [Ordering::then_with] and [Option]'s order. *)
Definition then_with (c d : comparison) : comparison :=
  match c with Eq => d | _ => c end.

Definition option_cmp (a b : option Z) : comparison :=
  match a, b with
  | None, None => Eq
  | None, Some _ => Lt
  | Some _, None => Gt
  | Some x, Some y => x ?= y
  end.

Definition ProgramPoint_cmp (self other : ProgramPoint) : comparison :=
  then_with (String.compare (pp_file self) (pp_file other))
   (then_with (pp_line self ?= pp_line other)
     (then_with (pp_col self ?= pp_col other)
       (option_cmp (pp_node_id self) (pp_node_id other)))).

(** ** Regions *)

Definition RegionId : Type := Z.
Definition RegionId_fmt (r : RegionId) : string := "R" +:+ show r.

Inductive RegionStatus : Type := Allocated | Freed | Stack | Mapped | Device | Leaked.

#[export] Instance RegionStatus_eq_dec : EqDecision RegionStatus.
Proof. solve_decision. Defined.

Definition RegionStatus_fmt (s : RegionStatus) : string :=
  match s with
  | Allocated => "allocated" | Freed => "freed" | Stack => "stack"
  | Mapped => "mapped" | Device => "device" | Leaked => "leaked"
  end.

Record Region := {
  rg_id : RegionId;
  rg_base : Address;
  rg_size : Z;
  rg_status : RegionStatus;
  rg_alloc_point : ProgramPoint;
  rg_free_point : option ProgramPoint;
  rg_owner_context : option string;
}.

Definition Region_end (chk : bool) (self : Region) : outcome Address :=
  Address_add chk (rg_base self) (rg_size self).

Definition Region_contains (chk : bool) (self : Region) (addr : Address) : outcome bool :=
  if rg_base self <=? addr then e ← Region_end chk self; mret (addr <? e) else Ret false.

Definition Region_overlaps (chk : bool) (self other : Region) : outcome bool :=
  oe ← Region_end chk other;
  if rg_base self <? oe then e ← Region_end chk self; mret (rg_base other <? e) else Ret false.

Definition Region_is_allocated_at (self : Region) (pp : ProgramPoint) : bool :=
  bool_decide (rg_alloc_point self = pp).

Definition Region_is_live (self : Region) : bool :=
  match rg_status self with
  | Allocated | Stack | Mapped | Device => true
  | _ => false
  end.

Fixpoint hex_len (fuel : nat) (z : Z) : nat :=
  match fuel with
  | O => 1
  | S f => if z <? 16 then 1 else S (hex_len f (z / 16))
  end.

Definition Region_fmt (chk : bool) (self : Region) : outcome string :=
  e ← Region_end chk self;
  mret ("Region " +:+ RegionId_fmt (rg_id self) +:+ " [" +:+ Address_fmt (rg_base self) +:+
    ".." +:+ Address_fmt e +:+ ") 0x" +:+ hex_digits (hex_len 16 (rg_size self)) (rg_size self) +:+
    " bytes status=" +:+ RegionStatus_fmt (rg_status self) +:+
    " alloc=" +:+ ProgramPoint_fmt (rg_alloc_point self) +:+
    match rg_free_point self with Some fp => " free=" +:+ ProgramPoint_fmt fp | None => "" end +:+
    match rg_owner_context self with Some o => " owner=" +:+ o | None => "" end).

(** ** Derivations *)

Definition DerivationId : Type := Z.
Definition DerivationId_fmt (d : DerivationId) : string := "D" +:+ show d.

Inductive DerivationSource : Type :=
  | Src_Region (r : RegionId)
  | AnotherDerivation (d : DerivationId).

Record NamedRepD := { nr_name : string; nr_size : Z }.

Inductive DerivationExpr : Type :=
  | DE_Constant (z : Z)
  | DE_Scaled (factor stride : Z)
  | DE_Add (a b : DerivationExpr)
  | DE_Sub (a b : DerivationExpr).

Inductive DerivationKind : Type :=
  | DK_Direct
  | DK_Offset (by_ : Z)
  | DK_Cast (from to : NamedRepD)
  | DK_Arithmetic (expr : DerivationExpr).

(** [{:+}] *)
Definition show_signed (z : Z) : string := (if z <? 0 then "" else "+") +:+ show z.

Definition DerivationKind_fmt (k : DerivationKind) : string :=
  match k with
  | DK_Direct => "direct"
  | DK_Offset by_ => "offset(" +:+ show_signed by_ +:+ ")"
  | DK_Cast from to => "cast(" +:+ nr_name from +:+ " → " +:+ nr_name to +:+ ")"
  | DK_Arithmetic _ => "arithmetic"
  end.

Record Derivation := {
  dv_id : DerivationId;
  dv_source : DerivationSource;
  dv_kind : DerivationKind;
  dv_proven_range : Address * Address;
}.

(** The loop of [trace]: [chain] in the order the walk visits, the root last. *)
Fixpoint trace_loop (fuel : nat) (lookup : DerivationId → option Derivation)
    (chain : list Derivation) (current : DerivationSource) : option (list Derivation) :=
  match fuel with
  | O => None
  | S fuel' =>
      match current with
      | Src_Region _ => Some chain
      | AnotherDerivation parent_id =>
          match lookup parent_id with
          | Some parent => trace_loop fuel' lookup (chain ++ [parent]) (dv_source parent)
          | None => Some chain
          end
      end
  end.

Definition Derivation_trace (fuel : nat) (lookup : DerivationId → option Derivation)
    (self : Derivation) : option (list Derivation) :=
  chain ← trace_loop fuel lookup [self] (dv_source self);
  Some (reverse chain).

Fixpoint base_region_loop (fuel : nat) (lookup : DerivationId → option Derivation)
    (current : DerivationSource) : option (option RegionId) :=
  match fuel with
  | O => None
  | S fuel' =>
      match current with
      | Src_Region rid => Some (Some rid)
      | AnotherDerivation parent_id =>
          match lookup parent_id with
          | Some parent => base_region_loop fuel' lookup (dv_source parent)
          | None => Some None
          end
      end
  end.

Definition Derivation_base_region (fuel : nat) (lookup : DerivationId → option Derivation)
    (self : Derivation) : option (option RegionId) :=
  base_region_loop fuel lookup (dv_source self).

Definition Derivation_is_within_bounds (self : Derivation) : bool :=
  fst (dv_proven_range self) <? snd (dv_proven_range self).

Definition DerivationSource_debug (s : DerivationSource) : string :=
  match s with
  | Src_Region r => "Region(RegionId(" +:+ show r +:+ "))"
  | AnotherDerivation d => "AnotherDerivation(DerivationId(" +:+ show d +:+ "))"
  end.

Definition Derivation_fmt (self : Derivation) : string :=
  "Deriv " +:+ DerivationId_fmt (dv_id self) +:+ " source=" +:+
  DerivationSource_debug (dv_source self) +:+ " kind=" +:+ DerivationKind_fmt (dv_kind self) +:+
  " proven=[" +:+ Address_fmt (fst (dv_proven_range self)) +:+ ", " +:+
  Address_fmt (snd (dv_proven_range self)) +:+ ")".

(** ** Accesses *)

Definition AccessId : Type := Z.
Definition AccessId_fmt (a : AccessId) : string := "A" +:+ show a.

Inductive AccessKind : Type := Acc_Read | Acc_Write.

#[export] Instance AccessKind_eq_dec : EqDecision AccessKind.
Proof. solve_decision. Defined.

Definition AccessKind_fmt (k : AccessKind) : string :=
  match k with Acc_Read => "read" | Acc_Write => "write" end.

Record Access := {
  ac_id : AccessId;
  ac_target : DerivationId;
  ac_kind : AccessKind;
  ac_size : Z;
  ac_program_point : ProgramPoint;
}.

Definition Access_new (id : AccessId) (target : DerivationId) (kind : AccessKind) (size : Z)
    (pp : ProgramPoint) : Access :=
  {| ac_id := id; ac_target := target; ac_kind := kind; ac_size := size;
     ac_program_point := pp |}.

Definition byte_range_at (chk : bool) (self : Access) (base : Address) :
    outcome (Address * Address) :=
  e ← Address_add chk base (ac_size self); mret (base, e).

Definition conflicts_with (chk : bool) (self other : Access) (self_base other_base : Address) :
    outcome bool :=
  '(s_start, s_end) ← byte_range_at chk self self_base;
  '(o_start, o_end) ← byte_range_at chk other other_base;
  let overlaps := (s_start <? o_end) && (o_start <? s_end) in
  let has_write := bool_decide (ac_kind self = Acc_Write) || bool_decide (ac_kind other = Acc_Write) in
  mret (overlaps && has_write).

Definition Access_fmt (self : Access) : string :=
  "Access " +:+ AccessId_fmt (ac_id self) +:+ " target=" +:+ DerivationId_fmt (ac_target self) +:+
  " kind=" +:+ AccessKind_fmt (ac_kind self) +:+ " size=" +:+ show (ac_size self) +:+ " @ " +:+
  ProgramPoint_fmt (ac_program_point self).

(** ** Synchronisation edges *)

Definition SyncEdgeId : Type := Z.
Definition SyncEdgeId_fmt (s : SyncEdgeId) : string := "SE" +:+ show s.
Definition LockId : Type := Z.
Definition LockId_fmt (l : LockId) : string := "L" +:+ show l.

Inductive Ordering : Type :=
  | HappensBefore
  | AtomicAcquireRelease
  | MutexLocked (l : LockId).

Definition Ordering_fmt (o : Ordering) : string :=
  match o with
  | HappensBefore => "happens-before"
  | AtomicAcquireRelease => "acq-rel"
  | MutexLocked lid => "mutex(" +:+ LockId_fmt lid +:+ ")"
  end.

Record SyncEdge := {
  se_id : SyncEdgeId;
  se_access1 : AccessId;
  se_access2 : AccessId;
  se_ordering : Ordering;
}.

Definition SyncEdge_new (id : SyncEdgeId) (a1 a2 : AccessId) (o : Ordering) : SyncEdge :=
  {| se_id := id; se_access1 := a1; se_access2 := a2; se_ordering := o |}.

Definition SyncEdge_orders (self : SyncEdge) (a1 a2 : AccessId) : bool :=
  (se_access1 self =? a1) && (se_access2 self =? a2).

Definition SyncEdge_fmt (self : SyncEdge) : string :=
  "SyncEdge " +:+ SyncEdgeId_fmt (se_id self) +:+ " " +:+ AccessId_fmt (se_access1 self) +:+
  " ─[" +:+ Ordering_fmt (se_ordering self) +:+ "]─▶ " +:+ AccessId_fmt (se_access2 self).

(** ** Specifications *)

(** The walk from a source to its region: the ids and derivations visited, and
    the region reached unless the chain is broken. *)
Inductive ancestry (lookup : DerivationId → option Derivation) :
    DerivationSource → list DerivationId → list Derivation → option RegionId → Prop :=
  | ancestry_region r : ancestry lookup (Src_Region r) [] [] (Some r)
  | ancestry_broken p : lookup p = None → ancestry lookup (AnotherDerivation p) [] [] None
  | ancestry_parent p d ks ds o :
      lookup p = Some d → ancestry lookup (dv_source d) ks ds o →
      ancestry lookup (AnotherDerivation p) (p :: ks) (d :: ds) o.

(** The bytes an access touches, and the addresses of a region. *)
Definition touches (a : Access) (base addr : Z) : Prop := base ≤ addr < base + ac_size a.
Definition region_holds (r : Region) (addr : Z) : Prop :=
  rg_base r ≤ addr < rg_base r + rg_size r.
Definition region_fits (r : Region) : Prop :=
  0 ≤ rg_base r ∧ 0 ≤ rg_size r ∧ rg_base r + rg_size r < 2 ^ 64.

(** ** Lemmas *)

Lemma intervals_meet a la b lb :
  0 < la → 0 < lb → (a < b + lb ∧ b < a + la) ↔ ∃ x, a ≤ x < a + la ∧ b ≤ x < b + lb.
Proof. intros. split; [intros; exists (Z.max a b)|intros (x & ? & ?)]; lia. Qed.

Lemma Region_contains_fits chk r addr :
  region_fits r → Region_contains chk r addr = Ret (bool_decide (region_holds r addr)).
Proof.
  intros (Hb & Hs & He). unfold Region_contains, Region_end, Address_add, u64_add, region_holds.
  rewrite u64_of_in by (unfold is_u64; lia). cbn [mbind outcome_bind mret outcome_ret].
  zcases; case_bool_decide; try done; lia.
Qed.

Lemma Region_overlaps_fits chk r s :
  region_fits r → region_fits s →
  Region_overlaps chk r s =
  Ret ((rg_base r <? rg_base s + rg_size s) && (rg_base s <? rg_base r + rg_size r)).
Proof.
  intros (? & ? & ?) (? & ? & ?). unfold Region_overlaps, Region_end, Address_add, u64_add.
  rewrite !u64_of_in by (unfold is_u64; lia). cbn [mbind outcome_bind mret outcome_ret].
  by destruct (_ <? _).
Qed.

Lemma trace_loop_app fuel lookup chain src :
  trace_loop fuel lookup chain src = (chain ++.) <$> trace_loop fuel lookup [] src.
Proof.
  revert chain src. induction fuel as [|fuel IH]; intros chain src; simpl; [done|].
  destruct src as [r|p]; simpl; [by rewrite app_nil_r|].
  destruct (lookup p) as [d|]; simpl; [|by rewrite app_nil_r].
  rewrite IH, (IH [d]). destruct (trace_loop fuel lookup [] _); simpl; [|done].
  by rewrite <-app_assoc.
Qed.

Lemma trace_loop_ancestry fuel lookup src ds :
  trace_loop fuel lookup [] src = Some ds →
  ∃ ks o, ancestry lookup src ks ds o ∧ base_region_loop fuel lookup src = Some o.
Proof.
  revert src ds. induction fuel as [|fuel IH]; intros src ds; simpl; [done|].
  destruct src as [r|p].
  { intros [= <-]. do 2 eexists. split; [constructor|done]. }
  destruct (lookup p) as [d|] eqn:Ep.
  2:{ intros [= <-]. do 2 eexists. split; [by constructor|done]. }
  rewrite trace_loop_app. destruct (trace_loop fuel lookup [] _) as [ds'|] eqn:E; [|done].
  simpl. intros [= <-]. destruct (IH _ _ E) as (ks & o & ? & ?).
  do 2 eexists. split; [by econstructor|done].
Qed.

Lemma ancestry_trace_loop lookup src ks ds o fuel :
  ancestry lookup src ks ds o → (length ks < fuel)%nat →
  trace_loop fuel lookup [] src = Some ds ∧ base_region_loop fuel lookup src = Some o.
Proof.
  intros H. revert fuel. induction H as [r|p Hp|p d ks ds o Hp H IH];
    intros [|fuel] Hf; simpl in *; try lia.
  - done.
  - by rewrite Hp.
  - rewrite Hp, trace_loop_app. destruct (IH fuel) as [-> ->]; [lia|done].
Qed.

Lemma ancestry_det lookup src ks ds o ks' ds' o' :
  ancestry lookup src ks ds o → ancestry lookup src ks' ds' o' → ks = ks'.
Proof.
  intros H. revert ks' ds' o'. induction H as [r|p Hp|p d ks ds o Hp H IH]; intros ks' ds' o' H';
    inversion H'; simplify_eq; try done. f_equal. eauto.
Qed.

Lemma ancestry_suffix lookup src ks ds o k :
  ancestry lookup src ks ds o → k ∈ ks →
  ∃ ks' ds', ancestry lookup (AnotherDerivation k) (k :: ks') ds' o ∧
             (length ks' < length ks)%nat.
Proof.
  induction 1 as [r|p Hp|p d ks ds o Hp H IH]; intros Hk; [by inversion Hk..|].
  apply elem_of_cons in Hk as [-> | Hk].
  - exists ks, (d :: ds). split; [by econstructor|simpl; lia].
  - destruct (IH Hk) as (ks' & ds' & ? & ?). exists ks', ds'. split; [done|simpl; lia].
Qed.

Lemma ancestry_NoDup lookup src ks ds o : ancestry lookup src ks ds o → NoDup ks.
Proof.
  induction 1 as [r|p Hp|p d ks ds o Hp H IH]; [constructor..|].
  constructor; [|done]. intros Hin.
  destruct (ancestry_suffix _ _ _ _ _ _ H Hin) as (ks' & ds' & H' & Hlen).
  assert (p :: ks = p :: ks') as E.
  { eapply ancestry_det; [|exact H']. by econstructor. }
  simplify_eq. lia.
Qed.

Lemma ancestry_dom (M : gmap DerivationId Derivation) src ks ds o :
  ancestry (M !!.) src ks ds o → ∀ k, k ∈ ks → k ∈ dom M.
Proof.
  induction 1 as [r|p Hp|p d ks ds o Hp H IH]; intros k Hk; [by inversion Hk..|].
  apply elem_of_cons in Hk as [-> | Hk]; [by apply elem_of_dom_2 in Hp|auto].
Qed.

(** A chain over a finite map visits each derivation at most once. *)
Lemma ancestry_length (M : gmap DerivationId Derivation) src ks ds o :
  ancestry (M !!.) src ks ds o → (length ks ≤ size M)%nat.
Proof.
  intros H. rewrite <-size_dom.
  rewrite <-(size_list_to_set (C := gset DerivationId)) by by eapply ancestry_NoDup.
  apply subseteq_size. intros k Hk. apply elem_of_list_to_set in Hk. by eapply ancestry_dom.
Qed.

Lemma trace_loop_closed (S : gset DerivationId) lookup fuel p :
  (∀ p, p ∈ S → ∃ d q, lookup p = Some d ∧ dv_source d = AnotherDerivation q ∧ q ∈ S) →
  p ∈ S → trace_loop fuel lookup [] (AnotherDerivation p) = None.
Proof.
  intros HS. revert p. induction fuel as [|fuel IH]; intros p Hp; [done|]. simpl.
  destruct (HS p Hp) as (d & q & -> & -> & Hq). by rewrite trace_loop_app, IH.
Qed.

(** ** Properties *)

(** For a power-of-two alignment, when rounding up does not leave the
    address space, [align_to] gives in every build profile the least multiple of
    the alignment that is not below the address. *)
Theorem Address_align_to_spec (chk : bool) (a k : Z) :
  0 ≤ a → 0 ≤ k < 64 → a + (2 ^ k - 1) < 2 ^ 64 →
  ∃ r, Address_align_to chk a (2 ^ k) = Ret r ∧ (2 ^ k | r) ∧ a ≤ r < a + 2 ^ k ∧
       ∀ m, (2 ^ k | m) → a ≤ m → r ≤ m.
Proof.
  intros Ha Hk Hsum. assert (0 < 2 ^ k) by (apply Z.pow_pos_nonneg; lia).
  assert (2 ^ k < 2 ^ 64) by (apply Z.pow_lt_mono_r; lia).
  exists ((a + (2 ^ k - 1)) / 2 ^ k * 2 ^ k).
  pose proof (Z.div_mod (a + (2 ^ k - 1)) (2 ^ k)) as Hdm.
  pose proof (Z.mod_pos_bound (a + (2 ^ k - 1)) (2 ^ k)) as Hmod.
  split; [|split; [by apply Z.divide_factor_r|split; [nia|]]].
  - unfold Address_align_to, is_power_of_two.
    assert (Z.land (2 ^ k) (2 ^ k - 1) = 0) as ->.
    { rewrite Z.sub_1_r, <-Z.ones_equiv, Z.land_ones by lia. apply Z_mod_same_full. }
    rewrite (proj2 (Z.ltb_lt 0 (2 ^ k))), andb_false_r by lia.
    unfold u64_sub, u64_add. rewrite u64_of_in by (unfold is_u64; lia).
    cbn [mbind outcome_bind]. rewrite u64_of_in by (unfold is_u64; lia).
    cbn [mbind outcome_bind mret outcome_ret].
    by rewrite land_not64_mask by (unfold is_u64; lia).
  - intros m [q ->] Hm. apply Z.mul_le_mono_nonneg_r; [lia|].
    apply Z.lt_succ_r, Z.div_lt_upper_bound; lia.
Qed.

Lemma Address_align_to_spec_witness :
  ∃ r, Address_align_to false 4097 (2 ^ 12) = Ret r ∧ (2 ^ 12 | r) ∧ 4097 ≤ r < 4097 + 2 ^ 12 ∧
       ∀ m, (2 ^ 12 | m) → 4097 ≤ m → r ≤ m.
Proof. apply (Address_align_to_spec false 4097 12); lia. Defined.

(** For regions that do not wrap around the address space, [contains] is
    membership in [base .. base + size], and two non-empty regions [overlaps]
    exactly when some address lies in both; the test is symmetric. *)
Theorem Region_overlaps_spec (chk : bool) (r s : Region) :
  region_fits r → region_fits s → 0 < rg_size r → 0 < rg_size s →
  ∃ b, Region_overlaps chk r s = Ret b ∧ Region_overlaps chk s r = Ret b ∧
    (b = true ↔ ∃ addr, Region_contains chk r addr = Ret true ∧
                        Region_contains chk s addr = Ret true).
Proof.
  intros Hr Hs H1 H2. eexists. split; [by apply Region_overlaps_fits|]. split.
  { rewrite Region_overlaps_fits by done. f_equal. apply andb_comm. }
  rewrite andb_true_iff, !Z.ltb_lt, intervals_meet by done.
  apply exist_proper. intros addr. rewrite !Region_contains_fits by done.
  unfold region_holds. repeat case_bool_decide; naive_solver.
Qed.

Lemma Region_overlaps_spec_witness :
  let pp := ProgramPoint_new "a.vu" 1 1 in
  let r := {| rg_id := 1; rg_base := 4096; rg_size := 16; rg_status := Allocated;
              rg_alloc_point := pp; rg_free_point := None; rg_owner_context := None |} in
  let s := {| rg_id := 2; rg_base := 4104; rg_size := 16; rg_status := Stack;
              rg_alloc_point := pp; rg_free_point := None; rg_owner_context := None |} in
  ∃ b, Region_overlaps true r s = Ret b ∧ Region_overlaps true s r = Ret b ∧
    (b = true ↔ ∃ addr, Region_contains true r addr = Ret true ∧
                        Region_contains true s addr = Ret true).
Proof. apply Region_overlaps_spec; unfold region_fits; simpl; lia. Defined.

(** Two accesses of at least one byte that stay inside the address space
    conflict exactly when some byte is touched by both and one of them writes;
    conflict is symmetric. *)
Theorem conflicts_with_spec (chk : bool) (a b : Access) (ba bb : Address) :
  0 ≤ ba → 0 ≤ bb → 0 < ac_size a → 0 < ac_size b →
  ba + ac_size a < 2 ^ 64 → bb + ac_size b < 2 ^ 64 →
  ∃ c, conflicts_with chk a b ba bb = Ret c ∧ conflicts_with chk b a bb ba = Ret c ∧
    (c = true ↔ (∃ x, touches a ba x ∧ touches b bb x) ∧
                (ac_kind a = Acc_Write ∨ ac_kind b = Acc_Write)).
Proof.
  intros. unfold conflicts_with, byte_range_at, Address_add, u64_add.
  rewrite !u64_of_in by (unfold is_u64; lia). cbn [mbind outcome_bind mret outcome_ret].
  eexists. split; [done|]. split.
  { by rewrite (andb_comm (bb <? _)), (orb_comm (bool_decide (ac_kind b = _))). }
  rewrite !andb_true_iff, orb_true_iff, !Z.ltb_lt, !bool_decide_eq_true.
  rewrite intervals_meet by done. done.
Qed.

Lemma conflicts_with_spec_witness :
  let pp := ProgramPoint_new "a.vu" 1 1 in
  let a := Access_new 1 1 Acc_Write 8 pp in let b := Access_new 2 1 Acc_Read 8 pp in
  ∃ c, conflicts_with true a b 100 104 = Ret c ∧ conflicts_with true b a 104 100 = Ret c ∧
    (c = true ↔ (∃ x, touches a 100 x ∧ touches b 104 x) ∧
                (ac_kind a = Acc_Write ∨ ac_kind b = Acc_Write)).
Proof. apply conflicts_with_spec; simpl; lia. Defined.

(** Over a finite derivation graph, the walks of [trace] and [base_region]
    end exactly when there is a chain to a region or to a missing parent; then
    they end within one round per derivation, [trace] returns that chain from the
    root to the derivation itself, and [base_region] the region it starts in. *)
Theorem Derivation_trace_spec (M : gmap DerivationId Derivation) (self : Derivation) :
  (∀ fuel chain, Derivation_trace fuel (M !!.) self = Some chain →
     ∃ ks ds o, ancestry (M !!.) (dv_source self) ks ds o ∧ chain = reverse (self :: ds) ∧
       Derivation_base_region fuel (M !!.) self = Some o) ∧
  (∀ ks ds o, ancestry (M !!.) (dv_source self) ks ds o →
     ∀ fuel, (size M < fuel)%nat →
       Derivation_trace fuel (M !!.) self = Some (reverse (self :: ds)) ∧
       Derivation_base_region fuel (M !!.) self = Some o).
Proof.
  split.
  - intros fuel chain. unfold Derivation_trace. rewrite trace_loop_app.
    destruct (trace_loop fuel _ [] _) as [ds|] eqn:E; [|done]. intros [= <-].
    apply trace_loop_ancestry in E as (ks & o & ? & ?). by exists ks, ds, o.
  - intros ks ds o H fuel Hf. apply ancestry_length in H as Hlen.
    destruct (ancestry_trace_loop _ _ _ _ _ fuel H) as [H1 H2]; [lia|].
    unfold Derivation_trace. by rewrite trace_loop_app, H1.
Qed.

(** On a derivation whose ancestors form a cycle the walk never ends, for
    any amount of fuel, although the documentation of [trace] and [base_region]
    promises a result for every chain: nothing in the graph excludes cycles. *)
Theorem Derivation_trace_cycle (S : gset DerivationId) lookup self p :
  (∀ p, p ∈ S → ∃ d q, lookup p = Some d ∧ dv_source d = AnotherDerivation q ∧ q ∈ S) →
  dv_source self = AnotherDerivation p → p ∈ S →
  ∀ fuel, Derivation_trace fuel lookup self = None.
Proof.
  intros HS Hself Hp fuel. unfold Derivation_trace.
  by rewrite trace_loop_app, Hself, (trace_loop_closed S).
Qed.

Lemma Derivation_trace_cycle_witness :
  let d := {| dv_id := 1; dv_source := AnotherDerivation 1; dv_kind := DK_Direct;
              dv_proven_range := (0, 8) |} in
  ∀ fuel, Derivation_trace fuel (λ i, if decide (i = 1) then Some d else None) d = None.
Proof.
  intros d. apply (Derivation_trace_cycle {[1]} _ d 1); [|reflexivity|set_solver].
  intros p ->%elem_of_singleton. do 2 eexists. split; [reflexivity|].
  split; [reflexivity|set_solver].
Defined.
