(* ===== verification/Msg.v ===== *)
(** * The memory-state graph

    Models [src/src/vuma/src/msg.rs]: the four tables of the graph with their id
    counters, insertion, lookup, removal, and the queries.  A query that walks a
    [HashMap] takes the order in which the map is walked as an argument, and its
    theorems hold for every order. *)

From S2P Require Import Prelude MemModel.
From stdpp Require Import options.
#[local] Open Scope Z_scope.

Record MSG := {
  msg_regions : gmap RegionId Region;
  msg_derivations : gmap DerivationId Derivation;
  msg_accesses : gmap AccessId Access;
  msg_sync_edges : gmap SyncEdgeId SyncEdge;
  next_region_id : Z;
  next_derivation_id : Z;
  next_access_id : Z;
  next_sync_edge_id : Z;
}.

Definition MSG_new : MSG :=
  {| msg_regions := ∅; msg_derivations := ∅; msg_accesses := ∅; msg_sync_edges := ∅;
     next_region_id := 0; next_derivation_id := 0; next_access_id := 0;
     next_sync_edge_id := 0 |}.

(** ** Construction *)

Definition add_region (chk : bool) (self : MSG) (region : Region) : outcome (MSG * RegionId) :=
  let id := rg_id region in
  id1 ← u64_add chk id 1;
  mret ({| msg_regions := <[id := region]> (msg_regions self);
           msg_derivations := msg_derivations self; msg_accesses := msg_accesses self;
           msg_sync_edges := msg_sync_edges self;
           next_region_id := Z.max (next_region_id self) id1;
           next_derivation_id := next_derivation_id self;
           next_access_id := next_access_id self;
           next_sync_edge_id := next_sync_edge_id self |}, id).

Definition add_derivation (chk : bool) (self : MSG) (derivation : Derivation) :
    outcome (MSG * DerivationId) :=
  let id := dv_id derivation in
  id1 ← u64_add chk id 1;
  mret ({| msg_regions := msg_regions self;
           msg_derivations := <[id := derivation]> (msg_derivations self);
           msg_accesses := msg_accesses self; msg_sync_edges := msg_sync_edges self;
           next_region_id := next_region_id self;
           next_derivation_id := Z.max (next_derivation_id self) id1;
           next_access_id := next_access_id self;
           next_sync_edge_id := next_sync_edge_id self |}, id).

Definition add_access (chk : bool) (self : MSG) (access : Access) : outcome (MSG * AccessId) :=
  let id := ac_id access in
  id1 ← u64_add chk id 1;
  mret ({| msg_regions := msg_regions self; msg_derivations := msg_derivations self;
           msg_accesses := <[id := access]> (msg_accesses self);
           msg_sync_edges := msg_sync_edges self;
           next_region_id := next_region_id self;
           next_derivation_id := next_derivation_id self;
           next_access_id := Z.max (next_access_id self) id1;
           next_sync_edge_id := next_sync_edge_id self |}, id).

Definition add_sync_edge (chk : bool) (self : MSG) (edge : SyncEdge) :
    outcome (MSG * SyncEdgeId) :=
  let id := se_id edge in
  id1 ← u64_add chk id 1;
  mret ({| msg_regions := msg_regions self; msg_derivations := msg_derivations self;
           msg_accesses := msg_accesses self;
           msg_sync_edges := <[id := edge]> (msg_sync_edges self);
           next_region_id := next_region_id self;
           next_derivation_id := next_derivation_id self;
           next_access_id := next_access_id self;
           next_sync_edge_id := Z.max (next_sync_edge_id self) id1 |}, id).

(** ** Lookup *)

Definition MSG_region (self : MSG) (id : RegionId) : option Region := msg_regions self !! id.
Definition MSG_derivation (self : MSG) (id : DerivationId) : option Derivation :=
  msg_derivations self !! id.
Definition MSG_access (self : MSG) (id : AccessId) : option Access := msg_accesses self !! id.
Definition MSG_sync_edge (self : MSG) (id : SyncEdgeId) : option SyncEdge :=
  msg_sync_edges self !! id.

(** ** Queries *)

(** [for (id, region) in &self.regions], in the order [regions]. *)
Fixpoint region_of (chk : bool) (regions : list (RegionId * Region)) (addr : Address) :
    outcome (option RegionId) :=
  match regions with
  | [] => Ret None
  | (id, region) :: rest =>
      inside ← Region_contains chk region addr;
      if (inside : bool) then Ret (Some id) else region_of chk rest addr
  end.

Definition derivation_chain (fuel : nat) (self : MSG) (id : DerivationId) :
    option (list Derivation) :=
  match MSG_derivation self id with
  | Some d => Derivation_trace fuel (MSG_derivation self) d
  | None => Some []
  end.

(** The keys the loop over the edges inserts in [ordered]. *)
Fixpoint ordered_with (id : AccessId) (edges : list SyncEdge) (ordered : gset AccessId) :
    gset AccessId :=
  match edges with
  | [] => ordered
  | edge :: rest =>
      let ordered := if se_access1 edge =? id then {[se_access2 edge]} ∪ ordered else ordered in
      let ordered := if se_access2 edge =? id then {[se_access1 edge]} ∪ ordered else ordered in
      ordered_with id rest ordered
  end.

(** [edges] is the order of [sync_edges.values()], [keys] of [accesses.keys()]. *)
Definition concurrent_accesses (edges : list SyncEdge) (keys : list AccessId) (id : AccessId) :
    list AccessId :=
  let ordered := ordered_with id edges ∅ in
  filter (λ aid, negb (aid =? id) && negb (bool_decide (aid ∈ ordered))) keys.

(** [accs] is the order of [accesses.iter()]. *)
Fixpoint overlapping_loop (chk : bool) (id q_start q_end : Z) (resolve_base : AccessId → option Address)
    (accs : list (AccessId * Access)) : outcome (list AccessId) :=
  match accs with
  | [] => Ret []
  | (aid, other) :: rest =>
      if aid =? id then overlapping_loop chk id q_start q_end resolve_base rest else
      match resolve_base aid with
      | None => overlapping_loop chk id q_start q_end resolve_base rest
      | Some other_base =>
          '(o_start, o_end) ← byte_range_at chk other other_base;
          tail ← overlapping_loop chk id q_start q_end resolve_base rest;
          mret (if (q_start <? o_end) && (o_start <? q_end) then aid :: tail else tail)
      end
  end.

Definition overlapping_accesses (chk : bool) (self : MSG) (accs : list (AccessId * Access))
    (id : AccessId) (base : Address) (resolve_base : AccessId → option Address) :
    outcome (list AccessId) :=
  match MSG_access self id with
  | None => Ret []
  | Some query =>
      '(q_start, q_end) ← byte_range_at chk query base;
      overlapping_loop chk id q_start q_end resolve_base accs
  end.

Definition region_count (self : MSG) : nat := size (msg_regions self).
Definition derivation_count (self : MSG) : nat := size (msg_derivations self).
Definition access_count (self : MSG) : nat := size (msg_accesses self).
Definition sync_edge_count (self : MSG) : nat := size (msg_sync_edges self).

(** ** Removal *)

Definition remove_region (self : MSG) (id : RegionId) : MSG * option Region :=
  ({| msg_regions := delete id (msg_regions self); msg_derivations := msg_derivations self;
      msg_accesses := msg_accesses self; msg_sync_edges := msg_sync_edges self;
      next_region_id := next_region_id self; next_derivation_id := next_derivation_id self;
      next_access_id := next_access_id self; next_sync_edge_id := next_sync_edge_id self |},
   msg_regions self !! id).

Definition remove_derivation (self : MSG) (id : DerivationId) : MSG * option Derivation :=
  ({| msg_regions := msg_regions self; msg_derivations := delete id (msg_derivations self);
      msg_accesses := msg_accesses self; msg_sync_edges := msg_sync_edges self;
      next_region_id := next_region_id self; next_derivation_id := next_derivation_id self;
      next_access_id := next_access_id self; next_sync_edge_id := next_sync_edge_id self |},
   msg_derivations self !! id).

Definition remove_access (self : MSG) (id : AccessId) : MSG * option Access :=
  ({| msg_regions := msg_regions self; msg_derivations := msg_derivations self;
      msg_accesses := delete id (msg_accesses self); msg_sync_edges := msg_sync_edges self;
      next_region_id := next_region_id self; next_derivation_id := next_derivation_id self;
      next_access_id := next_access_id self; next_sync_edge_id := next_sync_edge_id self |},
   msg_accesses self !! id).

Definition remove_sync_edge (self : MSG) (id : SyncEdgeId) : MSG * option SyncEdge :=
  ({| msg_regions := msg_regions self; msg_derivations := msg_derivations self;
      msg_accesses := msg_accesses self; msg_sync_edges := delete id (msg_sync_edges self);
      next_region_id := next_region_id self; next_derivation_id := next_derivation_id self;
      next_access_id := next_access_id self; next_sync_edge_id := next_sync_edge_id self |},
   msg_sync_edges self !! id).

Definition MSG_fmt (self : MSG) : string :=
  "MSG { regions: " +:+ show (Z.of_nat (region_count self)) +:+ ", derivations: " +:+
  show (Z.of_nat (derivation_count self)) +:+ ", accesses: " +:+
  show (Z.of_nat (access_count self)) +:+ ", sync_edges: " +:+
  show (Z.of_nat (sync_edge_count self)) +:+ " }".

(** ** The graph as a transition system *)

Inductive msg_op : Type :=
  | AddRegion (r : Region) | AddDerivation (d : Derivation)
  | AddAccess (a : Access) | AddSyncEdge (e : SyncEdge)
  | RemoveRegion (id : Z) | RemoveDerivation (id : Z)
  | RemoveAccess (id : Z) | RemoveSyncEdge (id : Z).

Definition msg_step (chk : bool) (m : MSG) (op : msg_op) : outcome MSG :=
  match op with
  | AddRegion r => fst <$> add_region chk m r
  | AddDerivation d => fst <$> add_derivation chk m d
  | AddAccess a => fst <$> add_access chk m a
  | AddSyncEdge e => fst <$> add_sync_edge chk m e
  | RemoveRegion id => Ret (fst (remove_region m id))
  | RemoveDerivation id => Ret (fst (remove_derivation m id))
  | RemoveAccess id => Ret (fst (remove_access m id))
  | RemoveSyncEdge id => Ret (fst (remove_sync_edge m id))
  end.

Inductive msg_reachable (chk : bool) : MSG → Prop :=
  | msg_reach_new : msg_reachable chk MSG_new
  | msg_reach_step m op m' :
      msg_reachable chk m → msg_step chk m op = Ret m' → msg_reachable chk m'.

(** Every entry sits under its own id, and the counter is above all ids. *)
Definition table_ok {A} (id : A → Z) (next : Z) (t : gmap Z A) : Prop :=
  map_Forall (λ k a, id a = k ∧ k < next) t.

Definition msg_ok (m : MSG) : Prop :=
  table_ok rg_id (next_region_id m) (msg_regions m) ∧
  table_ok dv_id (next_derivation_id m) (msg_derivations m) ∧
  table_ok ac_id (next_access_id m) (msg_accesses m) ∧
  table_ok se_id (next_sync_edge_id m) (msg_sync_edges m).

(** ** Lemmas *)

Lemma table_ok_insert {A} (id : A → Z) next t a :
  table_ok id next t → table_ok id (Z.max next (id a + 1)) (<[id a := a]> t).
Proof.
  intros H k b. rewrite lookup_insert_Some. intros [[<- <-]|[_ Hb]]; [lia|].
  apply H in Hb. simpl in Hb. lia.
Qed.

Lemma table_ok_delete {A} (id : A → Z) next t k :
  table_ok id next t → table_ok id next (delete k t).
Proof. intros H. by apply map_Forall_delete. Qed.

Lemma ordered_with_spec id edges s a :
  a ∈ ordered_with id edges s ↔
  a ∈ s ∨ ∃ e, e ∈ edges ∧ ((se_access1 e = id ∧ se_access2 e = a) ∨
                             (se_access2 e = id ∧ se_access1 e = a)).
Proof.
  revert s. induction edges as [|e edges IH]; intros s; simpl; [set_solver|].
  rewrite IH. destruct (Z.eqb_spec (se_access1 e) id), (Z.eqb_spec (se_access2 e) id);
    set_solver.
Qed.

Lemma elem_of_concurrent edges keys id a :
  a ∈ concurrent_accesses edges keys id ↔
  a ∈ keys ∧ a ≠ id ∧ ∀ e, e ∈ edges →
    SyncEdge_orders e id a = false ∧ SyncEdge_orders e a id = false.
Proof.
  unfold concurrent_accesses, SyncEdge_orders. rewrite list_elem_of_filter.
  rewrite andb_True, !negb_True, Is_true_true, bool_decide_spec, ordered_with_spec.
  rewrite Z.eqb_eq. split.
  - intros [[Hne Hno] Hk]. split; [done|]. split; [done|]. intros e He.
    rewrite !andb_false_iff, !Z.eqb_neq.
    destruct (decide (se_access1 e = id)), (decide (se_access2 e = a)),
      (decide (se_access2 e = id)), (decide (se_access1 e = a)); naive_solver.
  - intros (Hk & Hne & H). split; [|done]. split; [done|]. intros [?|(e & He & Hor)]; [set_solver|].
    destruct (H e He) as [H1 H2]. rewrite andb_false_iff, !Z.eqb_neq in H1, H2. naive_solver.
Qed.

Lemma region_of_fits chk regions addr :
  (∀ id r, (id, r) ∈ regions → region_fits r) →
  region_of chk regions addr =
  Ret (fst <$> find (λ p, bool_decide (region_holds (snd p) addr)) regions).
Proof.
  induction regions as [|[id r] rs IH]; intros H; [done|]. simpl.
  rewrite Region_contains_fits by (apply (H id); by left). cbn [mbind outcome_bind].
  case_bool_decide; [done|]. apply IH. intros i q ?. apply (H i). by right.
Qed.

Lemma msg_step_ok m op m' : msg_ok m → msg_step true m op = Ret m' → msg_ok m'.
Proof.
  intros (Hr & Hd & Ha & Hs). unfold msg_ok. destruct op; simpl;
    unfold add_region, add_derivation, add_access, add_sync_edge;
    try (match goal with |- context [u64_add true ?i 1] =>
           destruct (u64_add true i 1) as [i1|] eqn:E; [|done];
           apply u64_of_checked in E as [-> _] end);
    intros [= <-]; simpl; split_and!;
    auto using table_ok_insert, table_ok_delete.
Qed.

Lemma msg_reachable_msg_ok m : msg_reachable true m → msg_ok m.
Proof.
  induction 1 as [|m op m' _ IH Hs].
  - split_and!; intros k x Hx; simpl in Hx; by rewrite lookup_empty in Hx.
  - exact (msg_step_ok _ _ _ IH Hs).
Qed.

Lemma table_ok_fresh {A} (id : A → Z) next t k : table_ok id next t → next ≤ k → t !! k = None.
Proof.
  intros H Hk. apply eq_None_not_Some. intros [a Ha]. apply H in Ha. simpl in Ha. lia.
Qed.

Lemma table_ok_key {A} (id : A → Z) next t k a : table_ok id next t → t !! k = Some a → id a = k.
Proof. intros H Ha. by apply H in Ha as [? _]. Qed.

(** ** Properties *)

(** Through any sequence of insertions and removals that does not panic, in
    a build with overflow checks, every region, derivation, access and edge sits
    under its own id and below its id counter, so the counters are fresh ids. *)
Theorem MSG_reachable_ids_fresh (m : MSG) :
  msg_reachable true m →
  (∀ k r, MSG_region m k = Some r → rg_id r = k) ∧
  (∀ k d, MSG_derivation m k = Some d → dv_id d = k) ∧
  (∀ k a, MSG_access m k = Some a → ac_id a = k) ∧
  (∀ k e, MSG_sync_edge m k = Some e → se_id e = k) ∧
  (∀ k, next_region_id m ≤ k → MSG_region m k = None) ∧
  (∀ k, next_derivation_id m ≤ k → MSG_derivation m k = None) ∧
  (∀ k, next_access_id m ≤ k → MSG_access m k = None) ∧
  (∀ k, next_sync_edge_id m ≤ k → MSG_sync_edge m k = None).
Proof.
  intros (Hr & Hd & Ha & Hs)%msg_reachable_msg_ok.
  split_and!; intros k; try (intros x Hx; by eapply table_ok_key);
    intros Hk; by eapply table_ok_fresh.
Qed.

Lemma MSG_reachable_ids_fresh_witness :
  ∃ m, msg_reachable true m ∧ MSG_access m 8 = None.
Proof.
  eexists. split.
  - eapply (msg_reach_step true MSG_new
      (AddAccess (Access_new 7 1 Acc_Read 4 (ProgramPoint_new "a.vu" 1 1)))); [constructor|].
    reflexivity.
  - refine (proj1 (proj2 (proj2 (proj2 (proj2 (proj2 (proj2
      (MSG_reachable_ids_fresh _ _))))))) 8 _); [|simpl; lia].
    eapply (msg_reach_step true MSG_new
      (AddAccess (Access_new 7 1 Acc_Read 4 (ProgramPoint_new "a.vu" 1 1)))); [constructor|].
    reflexivity.
Defined.

(** Whatever the order in which the tables are walked, [concurrent_accesses]
    lists without repetition exactly the other accesses that no edge orders
    before or after the given one, and it is symmetric. *)
Theorem concurrent_accesses_spec (m : MSG) edges keys a b :
  edges ≡ₚ (map_to_list (msg_sync_edges m)).*2 →
  keys ≡ₚ (map_to_list (msg_accesses m)).*1 →
  NoDup (concurrent_accesses edges keys a) ∧
  (b ∈ concurrent_accesses edges keys a ↔
     is_Some (MSG_access m b) ∧ b ≠ a ∧
     ∀ i e, MSG_sync_edge m i = Some e →
       SyncEdge_orders e a b = false ∧ SyncEdge_orders e b a = false) ∧
  (is_Some (MSG_access m a) → is_Some (MSG_access m b) →
     (b ∈ concurrent_accesses edges keys a ↔ a ∈ concurrent_accesses edges keys b)).
Proof.
  intros He Hk.
  assert (∀ x, x ∈ keys ↔ is_Some (MSG_access m x)) as Hkeys.
  { intros x. rewrite Hk, list_elem_of_fmap. split.
    - intros ([y acc] & -> & Hy%elem_of_map_to_list). by exists acc.
    - intros [acc Hx]. exists (x, acc). by rewrite elem_of_map_to_list. }
  assert (∀ e, e ∈ edges ↔ ∃ i, MSG_sync_edge m i = Some e) as Hedges.
  { intros e. rewrite He, list_elem_of_fmap. split.
    - intros ([i e'] & -> & Hy%elem_of_map_to_list). by exists i.
    - intros [i Hi]. exists (i, e). by rewrite elem_of_map_to_list. }
  split; [|split].
  - unfold concurrent_accesses. apply NoDup_filter. rewrite Hk. apply NoDup_fst_map_to_list.
  - rewrite elem_of_concurrent, Hkeys. setoid_rewrite Hedges. naive_solver.
  - intros. rewrite !elem_of_concurrent, !Hkeys. naive_solver.
Qed.

Lemma concurrent_accesses_spec_witness :
  NoDup (concurrent_accesses [] [] 1).
Proof. apply (concurrent_accesses_spec MSG_new [] [] 1 1); reflexivity. Defined.

(** When the regions are pairwise disjoint and do not wrap around the address
    space, [region_of] gives the same answer for every order in which the table
    is walked: the id of the region that holds the address, or none. *)
Theorem region_of_disjoint (chk : bool) (m : MSG) regions addr :
  regions ≡ₚ map_to_list (msg_regions m) →
  (∀ i r, MSG_region m i = Some r → region_fits r) →
  (∀ i j r s x, MSG_region m i = Some r → MSG_region m j = Some s →
     region_holds r x → region_holds s x → i = j) →
  ∃ o, region_of chk regions addr = Ret o ∧
    ∀ i, o = Some i ↔ ∃ r, MSG_region m i = Some r ∧ region_holds r addr.
Proof.
  intros Hp Hfit Hdisj.
  assert (∀ i r, (i, r) ∈ regions ↔ MSG_region m i = Some r) as Hin.
  { intros i r. by rewrite Hp, elem_of_map_to_list. }
  rewrite region_of_fits by (intros i r ?%Hin; by eapply Hfit).
  eexists. split; [done|]. intros i.
  destruct (find _ regions) as [[j s]|] eqn:E; simpl.
  - apply find_Some in E as [Hj%Hin Hs]. rewrite bool_decide_eq_true in Hs. split.
    + intros [= <-]. eauto.
    + intros (r & Hr & Hh). f_equal. by eapply (Hdisj j i s r).
  - rewrite find_None in E. split; [done|]. intros (r & Hr & Hh).
    specialize (E (i, r) (proj2 (Hin i r) Hr)). by rewrite bool_decide_eq_false in E.
Qed.

Lemma region_of_disjoint_witness :
  let r := {| rg_id := 1; rg_base := 4096; rg_size := 16; rg_status := Allocated;
              rg_alloc_point := ProgramPoint_new "a.vu" 1 1; rg_free_point := None;
              rg_owner_context := None |} in
  let m := {| msg_regions := {[1 := r]}; msg_derivations := ∅; msg_accesses := ∅;
              msg_sync_edges := ∅; next_region_id := 2; next_derivation_id := 0;
              next_access_id := 0; next_sync_edge_id := 0 |} in
  ∃ o, region_of true [(1, r)] 4100 = Ret o ∧
    ∀ i, o = Some i ↔ ∃ q, MSG_region m i = Some q ∧ region_holds q 4100.
Proof.
  intros r m.
  assert (∀ i q, MSG_region m i = Some q → 1 = i ∧ r = q) as Hone.
  { intros i q. exact (proj1 (lookup_singleton_Some 1 i r q)). }
  apply (region_of_disjoint true m [(1, r)] 4100).
  - reflexivity.
  - intros i q [_ <-]%Hone. unfold region_fits. simpl. lia.
  - intros i j q s x [<- _]%Hone [<- _]%Hone _ _. reflexivity.
Defined.
