(* ===== verification/StateVerify.v ===== *)
(** * State read, write and transform verifiers

    Models [src/src/ive/src/{state_read,state_write,state_transform}.rs]: the
    checks that a typed memory state is read and written inside its layout, at
    the right type, and not after it was consumed, and that a transform relates
    known layouts.  The three files declare the same [LayoutInfo]/[FieldInfo]
    structs, modelled once. *)

From S2P Require Import Prelude Capd Repd.
From stdpp Require Import options.
#[local] Open Scope Z_scope.

Record FieldInfo := {
  fi_name : string;
  fi_offset : Z;
  fi_size : Z;
  fi_type_name : string;
}.

Record LayoutInfo := {
  li_name : string;
  li_total_size : Z;
  li_fields : list FieldInfo;
}.

(** ** Reads *)

Record StateReadVerification := {
  srv_var_name : string;
  srv_layout_name : string;
  srv_field_name : string;
  srv_valid : bool;
  srv_error : option string;
}.

Definition read_error (var layout field msg : string) : StateReadVerification :=
  {| srv_var_name := var; srv_layout_name := layout; srv_field_name := field;
     srv_valid := false; srv_error := Some msg |}.

(** The loop body for one read. *)
Definition verify_state_read (chk : bool) (state_var_layouts : gmap string string)
    (layouts : gmap string LayoutInfo) (read : string * string * string) :
    outcome StateReadVerification :=
  let '(var, field, expected_type) := read in
  match state_var_layouts !! var with
  | None =>
      Ret (read_error var "" field ("variable '" +:+ var +:+ "' is not state-typed"))
  | Some layout_name =>
      match layouts !! layout_name with
      | None =>
          Ret (read_error var layout_name field ("layout '" +:+ layout_name +:+ "' not found"))
      | Some layout =>
          match find (λ f, String.eqb (fi_name f) field) (li_fields layout) with
          | Some fi =>
              fin ← u64_add chk (fi_offset fi) (fi_size fi);
              Ret (if li_total_size layout <? fin then
                read_error var layout_name field
                  ("field '" +:+ field +:+ "' at offset " +:+ show (fi_offset fi) +:+
                   " size " +:+ show (fi_size fi) +:+ " exceeds layout '" +:+ layout_name +:+
                   "' total_size " +:+ show (li_total_size layout))
              else if negb (String.eqb (fi_type_name fi) expected_type) then
                read_error var layout_name field
                  ("type mismatch: field '" +:+ field +:+ "' is '" +:+ fi_type_name fi +:+
                   "' but read as '" +:+ expected_type +:+ "'")
              else
                {| srv_var_name := var; srv_layout_name := layout_name;
                   srv_field_name := field; srv_valid := true; srv_error := None |})
          | None =>
              Ret (read_error var layout_name field
                ("field '" +:+ field +:+ "' not found in layout '" +:+ layout_name +:+ "'"))
          end
      end
  end.

(** [for x in xs { results.push(f(x)) }] *)
Fixpoint try_map {A B} (f : A → outcome B) (l : list A) : outcome (list B) :=
  match l with
  | [] => Ret []
  | a :: l' => b ← f a; bs ← try_map f l'; mret (b :: bs)
  end.

Definition verify_state_reads (chk : bool) (state_var_layouts : gmap string string)
    (layouts : gmap string LayoutInfo) (reads : list (string * string * string)) :
    outcome (list StateReadVerification) :=
  try_map (verify_state_read chk state_var_layouts layouts) reads.

Definition all_reads_valid (results : list StateReadVerification) : bool :=
  forallb srv_valid results.

(** ** Writes *)

Record StateWriteVerification := {
  swv_var_name : string;
  swv_layout_name : string;
  swv_field_name : string;
  swv_valid : bool;
  swv_error : option string;
}.

Record StateWriteOp := {
  sw_var_name : string;
  sw_field_name : string;
  sw_value_type : string;
  sw_after_consume : bool;
}.

Definition write_error (w : StateWriteOp) (layout msg : string) : StateWriteVerification :=
  {| swv_var_name := sw_var_name w; swv_layout_name := layout;
     swv_field_name := sw_field_name w; swv_valid := false; swv_error := Some msg |}.

Definition verify_state_write (chk : bool) (state_var_layouts : gmap string string)
    (layouts : gmap string LayoutInfo) (consumed_vars : gset string) (w : StateWriteOp) :
    outcome StateWriteVerification :=
  if sw_after_consume w || bool_decide (sw_var_name w ∈ consumed_vars) then
    Ret (write_error w "" ("linearity violation: state '" +:+ sw_var_name w +:+
      "' written after being consumed by a transform"))
  else
  match state_var_layouts !! sw_var_name w with
  | None =>
      Ret (write_error w "" ("variable '" +:+ sw_var_name w +:+ "' is not state-typed"))
  | Some layout_name =>
      match layouts !! layout_name with
      | None =>
          Ret (write_error w layout_name ("layout '" +:+ layout_name +:+ "' not found"))
      | Some layout =>
          match find (λ f, String.eqb (fi_name f) (sw_field_name w)) (li_fields layout) with
          | Some fi =>
              fin ← u64_add chk (fi_offset fi) (fi_size fi);
              Ret (if li_total_size layout <? fin then
                write_error w layout_name
                  ("field '" +:+ sw_field_name w +:+ "' at offset " +:+ show (fi_offset fi) +:+
                   " size " +:+ show (fi_size fi) +:+ " exceeds layout total_size " +:+
                   show (li_total_size layout))
              else if negb (String.eqb (fi_type_name fi) (sw_value_type w)) then
                write_error w layout_name
                  ("type mismatch: field '" +:+ sw_field_name w +:+ "' is '" +:+
                   fi_type_name fi +:+ "' but written as '" +:+ sw_value_type w +:+ "'")
              else
                {| swv_var_name := sw_var_name w; swv_layout_name := layout_name;
                   swv_field_name := sw_field_name w; swv_valid := true; swv_error := None |})
          | None =>
              Ret (write_error w layout_name
                ("field '" +:+ sw_field_name w +:+ "' not found in layout '" +:+
                 layout_name +:+ "'"))
          end
      end
  end.

Definition verify_state_writes (chk : bool) (state_var_layouts : gmap string string)
    (layouts : gmap string LayoutInfo) (writes : list StateWriteOp)
    (consumed_vars : gset string) : outcome (list StateWriteVerification) :=
  try_map (verify_state_write chk state_var_layouts layouts consumed_vars) writes.

Definition all_writes_valid (results : list StateWriteVerification) : bool :=
  forallb swv_valid results.

(** ** Transforms *)

Inductive TransformKind : Type := Reinterpret | Copy | Identity.

Record StateTransformVerification := {
  stv_input_layout : string;
  stv_output_layout : string;
  stv_valid : bool;
  stv_transform_kind : TransformKind;
  stv_error : option string;
}.

Definition transform_result (i o : string) (valid : bool) (k : TransformKind)
    (e : option string) : StateTransformVerification :=
  {| stv_input_layout := i; stv_output_layout := o; stv_valid := valid;
     stv_transform_kind := k; stv_error := e |}.

Definition verify_transform (layouts : gmap string LayoutInfo)
    (input_layout output_layout : string) : StateTransformVerification :=
  match layouts !! input_layout with
  | None => transform_result input_layout output_layout false Copy
              (Some ("input layout '" +:+ input_layout +:+ "' not found"))
  | Some in_info =>
      match layouts !! output_layout with
      | None => transform_result input_layout output_layout false Copy
                  (Some ("output layout '" +:+ output_layout +:+ "' not found"))
      | Some out_info =>
          if String.eqb input_layout output_layout then
            transform_result input_layout output_layout true Identity None
          else if li_total_size in_info =? li_total_size out_info then
            transform_result input_layout output_layout true Reinterpret None
          else transform_result input_layout output_layout true Copy None
      end
  end.

Definition verify_all_transforms (layouts : gmap string LayoutInfo)
    (transforms : list (string * string)) : list StateTransformVerification :=
  map (λ '(inp, out), verify_transform layouts inp out) transforms.

Definition all_transforms_valid (results : list StateTransformVerification) : bool :=
  forallb stv_valid results.

Definition verify_dependent_transform (elem_size count offset buffer_size : Z) : bool :=
  saturating_add offset (saturating_mul count elem_size) <=? buffer_size.

(** ** Specifications *)

(** The field a variable's state gives for a name. *)
Definition state_field (state_var_layouts : gmap string string)
    (layouts : gmap string LayoutInfo) (var field : string) (l : LayoutInfo) (fi : FieldInfo) :
    Prop :=
  ∃ layout_name, state_var_layouts !! var = Some layout_name ∧
    layouts !! layout_name = Some l ∧
    find (λ f, String.eqb (fi_name f) field) (li_fields l) = Some fi.

Definition field_in_layout (l : LayoutInfo) (fi : FieldInfo) : Prop :=
  fi_offset fi + fi_size fi ≤ li_total_size l.

(** The bytes of a state in its buffer. *)
Definition field_bytes (fi : FieldInfo) (base addr : Z) : Prop :=
  base + fi_offset fi ≤ addr < base + fi_offset fi + fi_size fi.

(** A [LayoutInfo] lists the fields of a resolved layout of the registry. *)
Definition describes (type_name : RepD → string) (l : LayoutDef) (li : LayoutInfo) : Prop :=
  li_total_size li = ld_total_size l ∧
  li_fields li = (λ f, {| fi_name := lf_name f; fi_offset := lf_offset f;
                          fi_size := lf_size f; fi_type_name := type_name (lf_repd f) |})
                 <$> ld_fields l.

(** Two layouts for the examples. *)
Definition point_info : LayoutInfo :=
  {| li_name := "Point"; li_total_size := 8;
     li_fields := [{| fi_name := "x"; fi_offset := 0; fi_size := 4; fi_type_name := "u32" |};
                   {| fi_name := "y"; fi_offset := 4; fi_size := 4; fi_type_name := "u32" |}] |}.

Definition word_info : LayoutInfo :=
  {| li_name := "E"; li_total_size := 4;
     li_fields := [{| fi_name := "x"; fi_offset := 0; fi_size := 4; fi_type_name := "u32" |}] |}.

(** ** Lemmas *)

Lemma try_map_Ret {A B} (f : A → outcome B) l bs :
  try_map f l = Ret bs → Forall2 (λ a b, f a = Ret b) l bs.
Proof.
  revert bs. induction l as [|a l IH]; intros bs; simpl; [intros [= <-]; constructor|].
  destruct (f a) as [b|] eqn:E; [|done]. cbn [mbind outcome_bind].
  destruct (try_map f l) as [bs'|]; [|done]. intros [= <-]. constructor; auto.
Qed.

Lemma verify_state_read_spec svl layouts var field ty r :
  verify_state_read true svl layouts (var, field, ty) = Ret r →
  (srv_valid r = true ↔ ∃ l fi, state_field svl layouts var field l fi ∧
     field_in_layout l fi ∧ fi_type_name fi = ty) ∧
  (srv_valid r = true ↔ srv_error r = None).
Proof.
  unfold verify_state_read, state_field, field_in_layout.
  destruct (svl !! var) as [ln|]; [|intros [= <-]; simpl; naive_solver].
  destruct (layouts !! ln) as [l|] eqn:El; [|intros [= <-]; simpl; naive_solver].
  destruct (find _ (li_fields l)) as [fi|] eqn:Ef; [|intros [= <-]; simpl; naive_solver].
  destruct (u64_add true _ _) as [e|] eqn:E; [|done]. apply u64_of_checked in E as [-> _].
  cbn [mbind outcome_bind]. intros [= <-].
  destruct (Z.ltb_spec (li_total_size l) (fi_offset fi + fi_size fi)); simpl.
  { split; [split; [done|]|by split].
    intros (l' & fi' & (ln' & ? & ? & ?) & ? & ?). simplify_eq. lia. }
  destruct (String.eqb_spec (fi_type_name fi) ty); simpl; (split; [|by split]).
  - split; [|done]. intros _. exists l, fi. split; [by exists ln|by split].
  - split; [done|]. intros (l' & fi' & (ln' & ? & ? & ?) & ? & ?). simplify_eq.
Qed.

Lemma verify_state_write_spec svl layouts consumed w r :
  verify_state_write true svl layouts consumed w = Ret r →
  (swv_valid r = true ↔ sw_after_consume w = false ∧ sw_var_name w ∉ consumed ∧
     ∃ l fi, state_field svl layouts (sw_var_name w) (sw_field_name w) l fi ∧
       field_in_layout l fi ∧ fi_type_name fi = sw_value_type w) ∧
  (swv_valid r = true ↔ swv_error r = None).
Proof.
  unfold verify_state_write, state_field, field_in_layout.
  destruct (sw_after_consume w); [intros [= <-]; simpl; naive_solver|].
  case_bool_decide as Hc; [intros [= <-]; simpl; naive_solver|]. simpl.
  destruct (svl !! _) as [ln|]; [|intros [= <-]; simpl; naive_solver].
  destruct (layouts !! ln) as [l|] eqn:El; [|intros [= <-]; simpl; naive_solver].
  destruct (find _ (li_fields l)) as [fi|] eqn:Ef; [|intros [= <-]; simpl; naive_solver].
  destruct (u64_add true _ _) as [e|] eqn:E; [|done]. apply u64_of_checked in E as [-> _].
  cbn [mbind outcome_bind]. intros [= <-].
  destruct (Z.ltb_spec (li_total_size l) (fi_offset fi + fi_size fi)); simpl.
  { split; [split; [done|]|by split].
    intros (_ & _ & l' & fi' & (ln' & ? & ? & ?) & ? & ?). simplify_eq. lia. }
  destruct (String.eqb_spec (fi_type_name fi) (sw_value_type w)); simpl; (split; [|by split]).
  - split; [|done]. intros _. split; [done|]. split; [done|].
    exists l, fi. split; [by exists ln|by split].
  - split; [done|]. intros (_ & _ & l' & fi' & (ln' & ? & ? & ?) & ? & ?). simplify_eq.
Qed.

(** The verdict does not depend on the build when the field's end fits. *)
Lemma verify_state_read_fits chk svl layouts var field ty l fi :
  state_field svl layouts var field l fi → 0 ≤ fi_offset fi → 0 ≤ fi_size fi →
  field_in_layout l fi → li_total_size l < 2 ^ 64 → fi_type_name fi = ty →
  ∃ r, verify_state_read chk svl layouts (var, field, ty) = Ret r ∧ srv_valid r = true.
Proof.
  intros (ln & Hv & Hl & Hf) ? ? Hin ? <-. unfold field_in_layout in Hin.
  unfold verify_state_read. rewrite Hv, Hl, Hf. unfold u64_add.
  rewrite u64_of_in by (unfold is_u64; lia). cbn [mbind outcome_bind].
  rewrite (proj2 (Z.ltb_ge _ _)), String.eqb_refl by lia. eauto.
Qed.

(** ** Properties *)

(** C33. When a build with overflow checks finishes [verify_state_reads] with every
    result valid, each read goes to a field of the type it expects, in the known
    layout of its variable, and the field's bytes lie inside any buffer of that
    layout's size; conversely a read that is not of this kind has an invalid result
    with an error text. *)
Theorem verify_state_reads_sound svl layouts reads results :
  verify_state_reads true svl layouts reads = Ret results →
  length results = length reads ∧
  (∀ i var field ty r, reads !! i = Some (var, field, ty) → results !! i = Some r →
     (srv_error r = None ↔ srv_valid r = true) ∧
     (srv_valid r = true ↔ ∃ l fi, state_field svl layouts var field l fi ∧
        field_in_layout l fi ∧ fi_type_name fi = ty)) ∧
  (all_reads_valid results = true →
   ∀ var field ty, (var, field, ty) ∈ reads →
     ∃ l fi, state_field svl layouts var field l fi ∧ fi_type_name fi = ty ∧
       ∀ base addr, field_bytes fi base addr → addr < base + li_total_size l).
Proof.
  intros H%try_map_Ret.
  assert (∀ i var field ty r, reads !! i = Some (var, field, ty) → results !! i = Some r →
     (srv_valid r = true ↔ ∃ l fi, state_field svl layouts var field l fi ∧
        field_in_layout l fi ∧ fi_type_name fi = ty) ∧
     (srv_valid r = true ↔ srv_error r = None)) as Hspec.
  { intros i var field ty r Hi Hr. eapply verify_state_read_spec.
    exact (Forall2_lookup_lr _ _ _ _ _ _ H Hi Hr). }
  split; [symmetry; by eapply Forall2_length|]. split.
  { intros i var field ty r Hi Hr. destruct (Hspec _ _ _ _ _ Hi Hr) as [H1 H2].
    split; [by symmetry|done]. }
  intros Hall var field ty [i Hi]%list_elem_of_lookup.
  destruct (Forall2_lookup_l _ _ _ _ _ H Hi) as (r & Hr & _).
  unfold all_reads_valid in Hall. rewrite forallb_forall_elem in Hall.
  destruct (proj1 (proj1 (Hspec _ _ _ _ _ Hi Hr))) as (l & fi & Hf & Hin & Hty).
  { apply Hall. by eapply list_elem_of_lookup_2. }
  exists l, fi. split; [done|]. split; [done|].
  unfold field_bytes, field_in_layout in *. intros. lia.
Qed.

Lemma verify_state_reads_sound_witness :
  ∃ l fi, state_field {["p" := "Point"]} {["Point" := point_info]} "p" "y" l fi ∧
    fi_type_name fi = "u32" ∧
    ∀ base addr, field_bytes fi base addr → addr < base + li_total_size l.
Proof.
  refine (proj2 (proj2 (verify_state_reads_sound {["p" := "Point"]} {["Point" := point_info]}
    [("p", "y", "u32")] _ _)) _ _ _ _ _).
  - vm_compute. reflexivity.
  - reflexivity.
  - left.
Defined.

(** In a build with overflow checks, a write passes [verify_state_writes]
    exactly when its state was not consumed (neither flagged nor in the set of
    consumed variables) and it goes to a field of its value's type inside the
    known layout of its variable. *)
Theorem verify_state_writes_sound svl layouts writes consumed results :
  verify_state_writes true svl layouts writes consumed = Ret results →
  length results = length writes ∧
  ∀ i w r, writes !! i = Some w → results !! i = Some r →
    (swv_error r = None ↔ swv_valid r = true) ∧
    (swv_valid r = true ↔
       sw_after_consume w = false ∧ sw_var_name w ∉ consumed ∧
       ∃ l fi, state_field svl layouts (sw_var_name w) (sw_field_name w) l fi ∧
         field_in_layout l fi ∧ fi_type_name fi = sw_value_type w).
Proof.
  intros H%try_map_Ret. split; [symmetry; by eapply Forall2_length|].
  intros i w r Hi Hr.
  destruct (verify_state_write_spec svl layouts consumed w r) as [H1 H2].
  { exact (Forall2_lookup_lr _ _ _ _ _ _ H Hi Hr). }
  split; [by symmetry|done].
Qed.

Lemma verify_state_writes_sound_witness :
  ∃ results,
    verify_state_writes true {["p" := "Point"]} {["Point" := point_info]}
      [{| sw_var_name := "p"; sw_field_name := "x"; sw_value_type := "u32";
          sw_after_consume := false |}] {["p"]} = Ret results ∧
    length results = 1%nat.
Proof.
  eexists. split; [vm_compute; reflexivity|].
  refine (proj1 (verify_state_writes_sound {["p" := "Point"]} {["Point" := point_info]}
    [{| sw_var_name := "p"; sw_field_name := "x"; sw_value_type := "u32";
        sw_after_consume := false |}] {["p"]} _ _)).
  vm_compute. reflexivity.
Defined.

(** The layout registry and the read verifier agree: for a layout the registry
    resolved, whose size is a [u64], every field it lists is accepted by the
    verifier at its own type, in every build profile. *)
Theorem registered_layout_reads_accepted (chk : bool) type_name fields l li svl layouts
    var layout_name field fi :
  registered fields l → describes type_name l li → ld_total_size l < 2 ^ 64 →
  svl !! var = Some layout_name → layouts !! layout_name = Some li →
  find (λ f, String.eqb (fi_name f) field) (li_fields li) = Some fi →
  ∃ r, verify_state_reads chk svl layouts [(var, field, fi_type_name fi)] = Ret [r] ∧
       srv_valid r = true.
Proof.
  intros (Hl & _) [Ht Hf] Hsz Hv Hn Hfind.
  pose proof (find_Some _ _ _ Hfind) as [Hin _]. rewrite Hf in Hin.
  apply list_elem_of_fmap in Hin as (lf & -> & [i Hi]%list_elem_of_lookup).
  destruct (laid_out_bounds _ _ _ _ _ Hl Hi) as [H1 H2].
  assert (0 ≤ lf_size lf) as H3 by by eapply laid_out_size.
  edestruct (verify_state_read_fits chk svl layouts var field) as (r & Hr & Hok).
  { by exists layout_name. }
  1-5: unfold field_in_layout; simpl; rewrite ?Ht; try done; lia.
  exists r. split; [|done]. unfold verify_state_reads. cbn [try_map fi_type_name] in *. by rewrite Hr.
Qed.

Lemma registered_layout_reads_accepted_witness :
  ∃ r, verify_state_reads false {["p" := "E"]}
         {["E" := word_info]}
         [("p", "x", "u32")] = Ret [r] ∧ srv_valid r = true.
Proof.
  refine (registered_layout_reads_accepted false (λ _, "u32") [("x", RepD_Byte 4 4)]
    {| ld_name := "E"; ld_total_size := 4; ld_alignment := 4;
       ld_fields := [{| lf_name := "x"; lf_field_id := 0; lf_offset := 0; lf_size := 4;
                        lf_repd := RepD_Byte 4 4 |}] |} word_info _ _ "p" "E" "x"
    {| fi_name := "x"; fi_offset := 0; fi_size := 4; fi_type_name := "u32" |} _ _ _ _ _ _).
  - split; [simpl; split; [lia|split; [by exists 0|split; lia]]|].
    split; [simpl; lia|]. split; [by exists 1|]. split; [reflexivity|]. split.
    + intros [|[|i]] f Hf; simplify_eq/=; split; [done|split; [done|]].
      unfold field_align. simpl. lia.
    + intros _ f ->%list_elem_of_singleton. by exists 1.
  - split; vm_compute; reflexivity.
  - reflexivity.
  - reflexivity.
  - reflexivity.
  - reflexivity.
Defined.

(** A release build computes the end of a field modulo [2^64]: it accepts reads
    and writes of a field that lies outside its layout, which a build with
    overflow checks refuses by panicking. *)
Theorem verify_state_reads_wrap (size total : Z) :
  0 < size ≤ total → total < 2 ^ 63 →
  let fi := {| fi_name := "x"; fi_offset := 2 ^ 64 - size; fi_size := 2 * size;
               fi_type_name := "u32" |} in
  let layouts := {["S" := {| li_name := "S"; li_total_size := total; li_fields := [fi] |}]} in
  let op := {| sw_var_name := "s"; sw_field_name := "x"; sw_value_type := "u32";
               sw_after_consume := false |} in
  total < fi_offset fi + fi_size fi ∧
  (∃ rs, verify_state_reads false {["s" := "S"]} layouts [("s", "x", "u32")] = Ret rs ∧
     all_reads_valid rs = true) ∧
  (∃ rs, verify_state_writes false {["s" := "S"]} layouts [op] ∅ = Ret rs ∧
     all_writes_valid rs = true) ∧
  verify_state_reads true {["s" := "S"]} layouts [("s", "x", "u32")] = Panic.
Proof.
  intros H1 H2 fi layouts op. split; [simpl; lia|].
  assert (u64_add false (fi_offset fi) (fi_size fi) = Ret size) as E.
  { unfold u64_add. rewrite u64_of_release. unfold wrap64. simpl. f_equal.
    replace (2 ^ 64 - size + 2 * size) with (size + 1 * 2 ^ 64) by lia.
    rewrite Z.mod_add, Z.mod_small by lia. done. }
  assert (u64_add true (fi_offset fi) (fi_size fi) = Panic) as E'.
  { unfold u64_add, u64_of. rewrite decide_False; [done|]. unfold is_u64. simpl. lia. }
  assert (total <? size = false) as Hlt by (apply Z.ltb_ge; lia).
  assert (({["s" := "S"]} : gmap string string) !! "s" = Some "S") as Hs by done.
  assert (layouts !! "S" = Some {| li_name := "S"; li_total_size := total; li_fields := [fi] |})
    as Hl by done.
  clearbody layouts. unfold verify_state_reads, verify_state_writes.
  cbn [try_map]. unfold verify_state_read, verify_state_write.
  cbn [sw_var_name sw_after_consume sw_field_name sw_value_type op].
  rewrite Hs, Hl. cbn [find li_fields fi fi_name]. rewrite String.eqb_refl.
  fold fi. rewrite E, E'. cbn [mbind outcome_bind li_total_size]. rewrite Hlt.
  split; [|split; [|done]]; by eexists.
Qed.

Lemma verify_state_reads_wrap_witness :
  ∃ rs, verify_state_reads false {["s" := "S"]}
    {["S" := {| li_name := "S"; li_total_size := 16;
                li_fields := [{| fi_name := "x"; fi_offset := 2 ^ 64 - 8; fi_size := 2 * 8;
                                 fi_type_name := "u32" |}] |}]}
    [("s", "x", "u32")] = Ret rs ∧ all_reads_valid rs = true.
Proof. apply (verify_state_reads_wrap 8 16); lia. Defined.

(** A transform is valid exactly when both layouts are known; between two
    different names it is a reinterpretation in place exactly when the sizes agree,
    and validity composes along a chain of transforms. *)
Theorem verify_transform_spec layouts a b c :
  (stv_valid (verify_transform layouts a b) = true ↔
     is_Some (layouts !! a) ∧ is_Some (layouts !! b)) ∧
  (∀ la lb, layouts !! a = Some la → layouts !! b = Some lb →
     (stv_transform_kind (verify_transform layouts a b) = Identity ↔ a = b) ∧
     (stv_transform_kind (verify_transform layouts a b) = Reinterpret ↔
        a ≠ b ∧ li_total_size la = li_total_size lb)) ∧
  (all_transforms_valid (verify_all_transforms layouts [(a, b); (b, c)]) = true →
     stv_valid (verify_transform layouts a c) = true).
Proof.
  assert (∀ a b, stv_valid (verify_transform layouts a b) = true ↔
     is_Some (layouts !! a) ∧ is_Some (layouts !! b)) as Hv.
  { intros x y. unfold verify_transform.
    destruct (layouts !! x) as [lx|]; [|simpl; split; [done|by intros [[] _]]].
    destruct (layouts !! y) as [ly|]; [|simpl; split; [done|by intros [_ []]]].
    destruct (String.eqb x y); [|destruct (_ =? _)]; simpl; by split. }
  split; [apply Hv|]. split.
  - intros la lb Ha Hb. unfold verify_transform. rewrite Ha, Hb.
    destruct (String.eqb_spec a b) as [->|]; simpl; [naive_solver|].
    destruct (Z.eqb_spec (li_total_size la) (li_total_size lb)); naive_solver.
  - unfold all_transforms_valid. simpl. rewrite !andb_true_iff, !Hv. naive_solver.
Qed.

(** The dependent-array check decides [offset + count * elem_size ≤ buffer_size]
    over the integers for every buffer smaller than [u64::MAX]; at that size the
    saturating arithmetic accepts every array, however large. *)
Theorem verify_dependent_transform_spec (elem_size count offset buffer_size : Z) :
  0 ≤ elem_size → 0 ≤ count → 0 ≤ offset → buffer_size ≤ U64_MAX →
  (buffer_size < U64_MAX →
     (verify_dependent_transform elem_size count offset buffer_size = true ↔
        offset + count * elem_size ≤ buffer_size)) ∧
  (buffer_size = U64_MAX →
     verify_dependent_transform elem_size count offset buffer_size = true).
Proof.
  intros. unfold verify_dependent_transform, saturating_add, saturating_mul.
  rewrite Z.leb_le. assert (0 ≤ count * elem_size) by nia. unfold U64_MAX in *. lia.
Qed.

Lemma verify_dependent_transform_spec_witness :
  (40 < U64_MAX → (verify_dependent_transform 4 5 20 40 = true ↔ 20 + 5 * 4 ≤ 40)) ∧
  (40 = U64_MAX → verify_dependent_transform 4 5 20 40 = true).
Proof. apply (verify_dependent_transform_spec 4 5 20 40); unfold U64_MAX; lia. Defined.
