(* ===== verification/ArenaBounds.v ===== *)
(** * Arena bounds verifier

    Models [src/src/ive/src/arena_bounds.rs]: the walk over the graph's nodes, in
    the order [scg.nodes()] yields them, that tracks capacity and bytes used per
    virtual register and checks every [ArenaAlloc].  Only the node payloads the
    walk looks at are distinguished. *)

From S2P Require Import Prelude.
From stdpp Require Import options.
#[local] Open Scope Z_scope.

Record ArenaBoundsVerification := {
  abv_valid : bool;
  abv_error : option string;
}.

Record LayoutSpec := {
  ls_name : string;
  ls_total_size : Z;
}.

Inductive NodePayload : Type :=
  | ArenaNew (capacity_vreg result_vreg : Z)
  | ArenaAlloc (arena_vreg : Z) (layout_name : string) (result_arena_vreg result_state_vreg : Z)
  | OtherPayload.

(** The walk's local variables. *)
Record ab_state := {
  arena_capacity : gmap Z (option Z);
  arena_used : gmap Z Z;
  ab_results : list ArenaBoundsVerification;
}.

Definition ab_init : ab_state :=
  {| arena_capacity := ∅; arena_used := ∅; ab_results := [] |}.

(** [if let Some(&v) = m.get(from) { m.insert(to, v); }] *)
Definition copy_entry {A} (from to : Z) (m : gmap Z A) : gmap Z A :=
  match m !! from with Some v => <[to := v]> m | None => m end.

Definition ab_error (msg : string) : ArenaBoundsVerification :=
  {| abv_valid := false; abv_error := Some msg |}.

Definition ab_step (pmt_layouts : gmap string LayoutSpec) (st : ab_state) (payload : NodePayload) :
    ab_state :=
  match payload with
  | ArenaNew _ result_vreg =>
      {| arena_capacity := <[result_vreg := None]> (arena_capacity st);
         arena_used := <[result_vreg := 0]> (arena_used st);
         ab_results := ab_results st |}
  | ArenaAlloc arena_vreg layout_name result_arena_vreg _ =>
      let propagate msg :=
        {| arena_capacity := copy_entry arena_vreg result_arena_vreg (arena_capacity st);
           arena_used := copy_entry arena_vreg result_arena_vreg (arena_used st);
           ab_results := ab_results st ++ [ab_error msg] |} in
      match pmt_layouts !! layout_name with
      | None => propagate ("arena_alloc: layout '" +:+ layout_name +:+ "' not found in registry")
      | Some layout =>
          let size := ls_total_size layout in
          if size =? 0 then
            propagate ("arena_alloc: layout '" +:+ layout_name +:+
                       "' has total_size 0 (zero-size alloc)")
          else
          let used := default 0 (arena_used st !! arena_vreg) in
          let cap_opt := mjoin (arena_capacity st !! arena_vreg) in
          let continue_with cap used r :=
            {| arena_capacity := <[result_arena_vreg := cap]> (arena_capacity st);
               arena_used := <[result_arena_vreg := used]> (arena_used st);
               ab_results := ab_results st ++ [r] |} in
          match checked_add used size with
          | None =>
              continue_with cap_opt used (ab_error
                ("arena_alloc: used (" +:+ show used +:+ ") + layout '" +:+ layout_name +:+
                 "' total_size (" +:+ show size +:+ ") overflows u64"))
          | Some new_used =>
              let accept := continue_with cap_opt new_used
                              {| abv_valid := true; abv_error := None |} in
              match cap_opt with
              | Some cap =>
                  if cap <? new_used then
                    continue_with (Some cap) used (ab_error
                      ("arena_alloc: used (" +:+ show used +:+ ") + layout '" +:+ layout_name +:+
                       "' total_size (" +:+ show size +:+ ") = " +:+ show new_used +:+
                       " > capacity (" +:+ show cap +:+ ")"))
                  else accept
              | None => accept
              end
          end
      end
  | OtherPayload => st
  end.

Definition verify_arena_bounds (pmt_layouts : gmap string LayoutSpec) (nodes : list NodePayload) :
    list ArenaBoundsVerification :=
  ab_results (fold_left (ab_step pmt_layouts) nodes ab_init).

Definition all_arena_valid (results : list ArenaBoundsVerification) : bool :=
  forallb abv_valid results.

(** ** Specifications *)

Definition is_alloc (p : NodePayload) : bool :=
  match p with ArenaAlloc _ _ _ _ => true | _ => false end.

(** What an accepted allocation is known to satisfy: its layout is registered,
    is not empty, and the bytes used on its arena still fit in a [u64]. *)
Definition alloc_ok (pmt_layouts : gmap string LayoutSpec) (p : NodePayload) : Prop :=
  match p with
  | ArenaAlloc _ layout_name _ _ =>
      ∃ l, pmt_layouts !! layout_name = Some l ∧ ls_total_size l ≠ 0
  | _ => True
  end.

(** A chain of allocations on one arena, each consuming the arena value the
    one before produced. *)
Fixpoint alloc_chain (vreg : Z) (layouts : list string) : list NodePayload :=
  match layouts with
  | [] => []
  | l :: rest => ArenaAlloc vreg l (vreg + 1) 0 :: alloc_chain (vreg + 1) rest
  end.

Definition capacities_unknown (st : ab_state) : Prop :=
  map_Forall (λ _ c, c = None) (arena_capacity st).

(** ** Lemmas *)

Lemma copy_entry_Forall {A} (P : Z → A → Prop) from to (m : gmap Z A) :
  (∀ i j v, P i v → P j v) → map_Forall P m → map_Forall P (copy_entry from to m).
Proof.
  intros HP Hm. unfold copy_entry. destruct (m !! from) as [v|] eqn:E; [|done].
  apply map_Forall_insert_2; [|done]. apply (HP from). exact (Hm _ _ E).
Qed.

Lemma capacities_unknown_join st v :
  capacities_unknown st → mjoin (arena_capacity st !! v) = None.
Proof.
  intros H. destruct (arena_capacity st !! v) as [c|] eqn:E; [|done].
  apply H in E. simpl in E. by subst.
Qed.

Lemma ab_step_capacities pmt st p :
  capacities_unknown st → capacities_unknown (ab_step pmt st p).
Proof.
  intros H. assert (∀ k, map_Forall (λ _ c, c = None) (<[k := None]> (arena_capacity st))).
  { intros k. apply map_Forall_insert_2; [reflexivity|exact H]. }
  destruct p as [c r|a l ra s|]; [apply H0| |exact H]. unfold capacities_unknown. simpl.
  rewrite (capacities_unknown_join _ _ H).
  assert (map_Forall (λ _ c, c = None) (copy_entry a ra (arena_capacity st))).
  { apply copy_entry_Forall; [done|exact H]. }
  repeat case_match; simpl; auto.
Qed.

(** One node appends one result when it is an allocation and none otherwise. *)
Lemma ab_step_results pmt st p :
  capacities_unknown st →
  ∃ rs, ab_results (ab_step pmt st p) = ab_results st ++ rs ∧
    length rs = (if is_alloc p then 1 else 0)%nat ∧
    ∀ r, r ∈ rs → (abv_valid r = true ↔ abv_error r = None) ∧
      (abv_valid r = true → alloc_ok pmt p).
Proof.
  intros H. destruct p as [c r|a l ra s|]; simpl;
    [exists []; rewrite app_nil_r; set_solver| |exists []; rewrite app_nil_r; set_solver].
  rewrite (capacities_unknown_join _ _ H).
  repeat case_match; simpl; eexists; (split; [done|]); (split; [done|]);
    intros r ->%list_elem_of_singleton; simpl; (split; [done|]); try done.
  intros _. eexists. split; [done|]. by apply Z.eqb_neq.
Qed.

Lemma fold_left_cons_snoc {A B} (f : A → B → A) l a b :
  fold_left f (l ++ [b]) a = f (fold_left f l a) b.
Proof. by rewrite fold_left_app. Qed.

Lemma ab_fold_capacities pmt nodes st :
  capacities_unknown st → capacities_unknown (fold_left (ab_step pmt) nodes st).
Proof.
  revert st. induction nodes as [|p nodes IH]; intros st H; [done|]. simpl.
  by apply IH, ab_step_capacities.
Qed.

Lemma ab_init_capacities : capacities_unknown ab_init.
Proof. intros k c Hk. simpl in Hk. by rewrite lookup_empty in Hk. Qed.

Lemma ab_fold_results pmt nodes st :
  capacities_unknown st →
  ∃ rs, ab_results (fold_left (ab_step pmt) nodes st) = ab_results st ++ rs ∧
    Forall2 (λ r p, (abv_valid r = true ↔ abv_error r = None) ∧
                    (abv_valid r = true → alloc_ok pmt p))
            rs (List.filter is_alloc nodes).
Proof.
  revert st. induction nodes as [|p nodes IH]; intros st H; simpl.
  { exists []. by rewrite app_nil_r. }
  destruct (ab_step_results pmt st p H) as (rs1 & H1 & Hlen & Hr).
  destruct (IH (ab_step pmt st p)) as (rs2 & H2 & HF); [by apply ab_step_capacities|].
  exists (rs1 ++ rs2). rewrite H2, H1, <-app_assoc. split; [done|].
  destruct (is_alloc p), rs1 as [|r [|? ?]]; try done. simpl.
  constructor; [apply Hr; by left|done].
Qed.

Lemma chain_results pmt layouts vreg st used :
  capacities_unknown st → arena_used st !! vreg = Some used → 0 ≤ used →
  Forall (λ l, ∃ s, pmt !! l = Some s ∧ 0 < ls_total_size s) layouts →
  used + foldr (λ l n, default 0 (ls_total_size <$> pmt !! l) + n) 0 layouts ≤ U64_MAX →
  ab_results (fold_left (ab_step pmt) (alloc_chain vreg layouts) st) =
    ab_results st ++ replicate (length layouts) {| abv_valid := true; abv_error := None |}.
Proof.
  revert vreg st used. induction layouts as [|l ls IH]; intros vreg st used Hc Hu Hpos HF Hsum.
  { simpl. by rewrite app_nil_r. }
  inversion HF as [|? ? (s & Hs & Hp) HF']; subst. simpl in Hsum.
  cbn [alloc_chain fold_left length replicate]. rewrite Hs in Hsum. simpl in Hsum.
  assert (0 ≤ foldr (λ l n, default 0 (ls_total_size <$> pmt !! l) + n) 0 ls) as Hnn.
  { clear -HF'. induction HF' as [|l ls (s & Hs & Hp) _ IH]; simpl; [done|].
    rewrite Hs. simpl. lia. }
  pose proof (ab_step_capacities pmt st (ArenaAlloc vreg l (vreg + 1) 0) Hc) as Hc'.
  set (st' := ab_step pmt st (ArenaAlloc vreg l (vreg + 1) 0)) in *.
  assert (checked_add used (ls_total_size s) = Some (used + ls_total_size s)) as Hadd.
  { apply checked_add_Some. split; [done|lia]. }
  assert (arena_used st' !! (vreg + 1) = Some (used + ls_total_size s) ∧
          ab_results st' = ab_results st ++ [{| abv_valid := true; abv_error := None |}])
    as [Hu' Hr'].
  { unfold st'. simpl. rewrite Hs, (capacities_unknown_join _ _ Hc), Hu. simpl.
    rewrite (proj2 (Z.eqb_neq _ _)), Hadd by lia. simpl.
    split; [by rewrite lookup_insert_eq|done]. }
  rewrite (IH _ _ (used + ls_total_size s)), Hr', <-app_assoc; [done|done|done|lia|done|lia].
Qed.

(** ** Properties *)

(** [verify_arena_bounds] gives one result per allocation node, in order; a
    result is valid exactly when it carries no error; and when the program is
    accepted, every allocation uses a registered layout of non-zero size. *)
Theorem verify_arena_bounds_sound pmt_layouts nodes :
  length (verify_arena_bounds pmt_layouts nodes) = length (List.filter is_alloc nodes) ∧
  (∀ r, r ∈ verify_arena_bounds pmt_layouts nodes → (abv_valid r = true ↔ abv_error r = None)) ∧
  (all_arena_valid (verify_arena_bounds pmt_layouts nodes) = true →
   ∀ p, p ∈ nodes → alloc_ok pmt_layouts p).
Proof.
  destruct (ab_fold_results pmt_layouts nodes ab_init ab_init_capacities) as (rs & Hrs & HF).
  unfold verify_arena_bounds. rewrite Hrs. simpl. split; [by eapply Forall2_length|]. split.
  - intros r Hr. apply list_elem_of_lookup in Hr as [i Hi].
    by destruct (Forall2_lookup_l _ _ _ _ _ HF Hi) as (p & _ & H & _).
  - unfold all_arena_valid. rewrite forallb_forall_elem. intros Hall p Hp.
    destruct (is_alloc p) eqn:Ea; [|by destruct p].
    assert (p ∈ List.filter is_alloc nodes) as Hin.
    { apply list_elem_of_In, List.filter_In. by rewrite <-list_elem_of_In. }
    apply list_elem_of_lookup in Hin as [i Hi].
    destruct (Forall2_lookup_r _ _ _ _ _ HF Hi) as (r & Hr & _ & Hok).
    apply Hok, Hall. by eapply list_elem_of_lookup_2.
Qed.

(** The capacity comparison never rejects anything: since [ArenaNew] records
    the capacity as unknown, every chain of allocations on a fresh arena whose
    layouts are registered, non-empty and sum to at most [u64::MAX] is accepted,
    whatever the register that holds the capacity.  The file's documentation says
    that [used + total_size > capacity] is reported as violated. *)
Theorem verify_arena_bounds_ignores_capacity pmt_layouts capacity_vreg vreg layouts :
  Forall (λ l, ∃ s, pmt_layouts !! l = Some s ∧ 0 < ls_total_size s) layouts →
  foldr (λ l n, default 0 (ls_total_size <$> pmt_layouts !! l) + n) 0 layouts ≤ U64_MAX →
  all_arena_valid (verify_arena_bounds pmt_layouts
    (ArenaNew capacity_vreg vreg :: alloc_chain vreg layouts)) = true.
Proof.
  intros HF Hsum. unfold verify_arena_bounds, all_arena_valid. cbn [fold_left].
  rewrite (chain_results _ _ _ _ 0); [| | |done|exact HF|by rewrite Z.add_0_l].
  - simpl. rewrite forallb_forall_elem. intros r Hr. by apply elem_of_replicate in Hr as [-> _].
  - apply ab_step_capacities, ab_init_capacities.
  - apply lookup_insert_eq.
Qed.

Lemma verify_arena_bounds_ignores_capacity_witness :
  all_arena_valid (verify_arena_bounds {["L" := {| ls_name := "L"; ls_total_size := 2 ^ 62 |}]}
    (ArenaNew 5 7 :: alloc_chain 7 ["L"; "L"; "L"])) = true.
Proof.
  apply verify_arena_bounds_ignores_capacity.
  - repeat constructor; eexists; (split; [reflexivity|simpl; lia]).
  - vm_compute. discriminate.
Defined.
