(* ===== verification/InfoFlow.v ===== *)
(** * Information-flow checker

    Models [src/src/ive/src/information_flow.rs]: the security lattice and the
    check of explicit and implicit flows over the events of a function. *)

From S2P Require Import Prelude.
From stdpp Require Import options.
#[local] Open Scope Z_scope.

Inductive SecurityLabel : Type := Public | Internal | Secret | TopSecret.

#[export] Instance SecurityLabel_eq_dec : EqDecision SecurityLabel.
Proof. solve_decision. Defined.

Definition can_flow_to (self other : SecurityLabel) : bool :=
  match self, other with
  | Public, _ => true
  | Internal, (Internal | Secret | TopSecret) => true
  | Secret, (Secret | TopSecret) => true
  | TopSecret, TopSecret => true
  | _, _ => false
  end.

Definition label_join (self other : SecurityLabel) : SecurityLabel :=
  match self, other with
  | Public, x | x, Public => x
  | Internal, x | x, Internal => x
  | Secret, x | x, Secret => x
  | TopSecret, TopSecret => TopSecret
  end.

Definition level (self : SecurityLabel) : Z :=
  match self with Public => 0 | Internal => 1 | Secret => 2 | TopSecret => 3 end.

Definition SecurityLabel_fmt (self : SecurityLabel) : string :=
  match self with
  | Public => "Public" | Internal => "Internal" | Secret => "Secret" | TopSecret => "TopSecret"
  end.

Inductive FlowKind : Type :=
  | Assign (dst_vreg : Z) (dst_label src_label : SecurityLabel)
  | BinOp (dst_vreg : Z) (dst_label lhs_label rhs_label : SecurityLabel)
  | ChannelSend (channel_label msg_label : SecurityLabel)
  | BranchOn (cond_label : SecurityLabel) (branch_var_labels : list SecurityLabel).

Record FlowEvent := {
  fe_kind : FlowKind;
  fe_at_node : Z;
}.

Record FlowViolation := {
  fv_valid : bool;
  fv_error : option string;
}.

Definition flow_violation (msg : string) : FlowViolation :=
  {| fv_valid := false; fv_error := Some msg |}.

Definition assign_msg (at_node dst_vreg : Z) (dst src : SecurityLabel) : string :=
  "information-flow violation at node " +:+ show at_node +:+ ": assignment to vreg " +:+
  show dst_vreg +:+ " (label " +:+ SecurityLabel_fmt dst +:+ ") from source with label " +:+
  SecurityLabel_fmt src +:+ " — " +:+ SecurityLabel_fmt src +:+ " ⊀ " +:+
  SecurityLabel_fmt dst +:+ " (would leak " +:+ SecurityLabel_fmt src +:+ " data to " +:+
  SecurityLabel_fmt dst +:+ " location)".

Definition binop_msg (at_node dst_vreg : Z) (res lhs rhs dst : SecurityLabel) : string :=
  "information-flow violation at node " +:+ show at_node +:+ ": binary op result (label " +:+
  SecurityLabel_fmt res +:+ ", from join(" +:+ SecurityLabel_fmt lhs +:+ "," +:+
  SecurityLabel_fmt rhs +:+ ")) stored in vreg " +:+ show dst_vreg +:+ " (label " +:+
  SecurityLabel_fmt dst +:+ ") — " +:+ SecurityLabel_fmt res +:+ " ⊀ " +:+
  SecurityLabel_fmt dst +:+ " (would leak data)".

Definition send_msg (at_node : Z) (msg channel : SecurityLabel) : string :=
  "information-flow violation at node " +:+ show at_node +:+ ": sending message with label " +:+
  SecurityLabel_fmt msg +:+ " on channel with label " +:+ SecurityLabel_fmt channel +:+ " — " +:+
  SecurityLabel_fmt msg +:+ " ⊀ " +:+ SecurityLabel_fmt channel +:+ " (would leak " +:+
  SecurityLabel_fmt msg +:+ " data to " +:+ SecurityLabel_fmt channel +:+ " channel)".

Definition branch_msg (at_node : Z) (cond var : SecurityLabel) : string :=
  "implicit information-flow violation at node " +:+ show at_node +:+
  ": branch on condition with label " +:+ SecurityLabel_fmt cond +:+
  " assigns to variable with label " +:+ SecurityLabel_fmt var +:+ " — " +:+
  SecurityLabel_fmt cond +:+ " ⊀ " +:+ SecurityLabel_fmt var +:+
  " (implicit leak via control flow)".

(** The violations one event adds. *)
Definition check_flow (event : FlowEvent) : list FlowViolation :=
  let at_node := fe_at_node event in
  match fe_kind event with
  | Assign dst_vreg dst_label src_label =>
      if negb (can_flow_to src_label dst_label)
      then [flow_violation (assign_msg at_node dst_vreg dst_label src_label)] else []
  | BinOp dst_vreg dst_label lhs_label rhs_label =>
      let result_label := label_join lhs_label rhs_label in
      if negb (can_flow_to result_label dst_label)
      then [flow_violation (binop_msg at_node dst_vreg result_label lhs_label rhs_label dst_label)]
      else []
  | ChannelSend channel_label msg_label =>
      if negb (can_flow_to msg_label channel_label)
      then [flow_violation (send_msg at_node msg_label channel_label)] else []
  | BranchOn cond_label branch_var_labels =>
      flat_map (λ var_label,
        if negb (can_flow_to cond_label var_label)
        then [flow_violation (branch_msg at_node cond_label var_label)] else [])
        branch_var_labels
  end.

Definition verify_information_flow (events : list FlowEvent) : list FlowViolation :=
  flat_map check_flow (sort_by_key fe_at_node events).

Definition all_flows_valid (results : list FlowViolation) : bool := forallb fv_valid results.

(** ** Specification

    The abstract policy: information may only move to an equal or higher level;
    a result depends on both operands, an assignment under a condition on the
    condition. *)
Definition label_le (a b : SecurityLabel) : Prop := level a ≤ level b.

Definition flow_secure (k : FlowKind) : Prop :=
  match k with
  | Assign _ dst src => label_le src dst
  | BinOp _ dst lhs rhs => label_le lhs dst ∧ label_le rhs dst
  | ChannelSend channel msg => label_le msg channel
  | BranchOn cond vars => ∀ v, v ∈ vars → label_le cond v
  end.

(** ** Lemmas *)

Lemma can_flow_to_level a b : can_flow_to a b = true ↔ label_le a b.
Proof. unfold label_le. destruct a, b; simpl; split; (done || lia). Qed.

Lemma can_flow_to_false a b : can_flow_to a b = false ↔ ¬ label_le a b.
Proof. rewrite <-can_flow_to_level. by destruct (can_flow_to a b). Qed.

Lemma label_join_level a b : level (label_join a b) = Z.max (level a) (level b).
Proof. by destruct a, b. Qed.

Lemma level_inj a b : level a = level b → a = b.
Proof. by destruct a, b. Qed.

Lemma check_if_nil (b : bool) (v : FlowViolation) :
  (if negb b then [v] else []) = [] ↔ b = true.
Proof. by destruct b. Qed.

Lemma check_flow_nil e : check_flow e = [] ↔ flow_secure (fe_kind e).
Proof.
  unfold check_flow, flow_secure. destruct (fe_kind e) as [v d s|v d l r|c m|c vs].
  - by rewrite check_if_nil, can_flow_to_level.
  - rewrite check_if_nil, can_flow_to_level. unfold label_le. rewrite label_join_level. lia.
  - by rewrite check_if_nil, can_flow_to_level.
  - rewrite flat_map_nil. setoid_rewrite check_if_nil. by setoid_rewrite can_flow_to_level.
Qed.

Lemma check_flow_invalid e v : v ∈ check_flow e → fv_valid v = false ∧ is_Some (fv_error v).
Proof.
  assert (∀ (b : bool) m, v ∈ (if negb b then [flow_violation m] else []) →
    fv_valid v = false ∧ is_Some (fv_error v)) as Hone.
  { intros [] m; simpl; [by intros ?%elem_of_nil|].
    intros ->%list_elem_of_singleton. simpl. eauto. }
  unfold check_flow. destruct (fe_kind e) as [x d s|x d l r|c m|c vs]; [apply Hone..|].
  rewrite list_elem_of_In, in_flat_map. intros (y & _ & Hy). rewrite <-list_elem_of_In in Hy.
  by eapply Hone.
Qed.

(** ** Properties *)

(** The labels form a total order by level in which [can_flow_to] is the order
    and [join] the least upper bound, so [join] is associative, commutative and
    idempotent with [Public] as unit. *)
Theorem SecurityLabel_lattice (a b c : SecurityLabel) :
  can_flow_to a a = true ∧
  (can_flow_to a b = true → can_flow_to b c = true → can_flow_to a c = true) ∧
  (can_flow_to a b = true → can_flow_to b a = true → a = b) ∧
  (can_flow_to a b = true ∨ can_flow_to b a = true) ∧
  (can_flow_to (label_join a b) c = true ↔ can_flow_to a c = true ∧ can_flow_to b c = true) ∧
  label_join a (label_join b c) = label_join (label_join a b) c ∧
  label_join a b = label_join b a ∧ label_join a a = a ∧ label_join Public a = a.
Proof. destruct a, b, c; repeat split; simpl; auto; intros; try done; by destruct_and?. Qed.

(** The checker accepts a function's events exactly when every one of them
    obeys the policy, whatever order they are given in: it reports no violation,
    equivalently only valid results, if and only if no assignment, operator, send
    or branch moves information to a lower level; every reported violation is
    invalid and carries a text. *)
Theorem verify_information_flow_sound (events : list FlowEvent) :
  (verify_information_flow events = [] ↔ ∀ e, e ∈ events → flow_secure (fe_kind e)) ∧
  (all_flows_valid (verify_information_flow events) = true ↔
     verify_information_flow events = []) ∧
  (∀ v, v ∈ verify_information_flow events → fv_valid v = false ∧ is_Some (fv_error v)).
Proof.
  assert (∀ v, v ∈ verify_information_flow events → fv_valid v = false ∧ is_Some (fv_error v))
    as Hinv.
  { intros v. unfold verify_information_flow. rewrite list_elem_of_In, in_flat_map.
    intros (e & _ & He). rewrite <-list_elem_of_In in He. by eapply check_flow_invalid. }
  split; [|split; [|exact Hinv]].
  - unfold verify_information_flow. rewrite flat_map_nil.
    setoid_rewrite elem_of_sort_by_key. by setoid_rewrite check_flow_nil.
  - unfold all_flows_valid. split; [|by intros ->].
    destruct (verify_information_flow events) as [|v vs]; [done|]. simpl.
    destruct (Hinv v) as [-> _]; [by left|done].
Qed.
