(* ===== verification/Session.v ===== *)
(** * Session types

    Models [src/src/ive/src/session_type.rs]: protocols with recursion in de
    Bruijn style, their dual and unfolding, and the checker that steps the
    protocol of each channel through the program's events.  The final loop walks
    a [HashMap]; [iter] is the order in which it does so.  De Bruijn indices are
    [u32] in the source, taken here as integers. *)

From S2P Require Import Prelude.
From stdpp Require Import options.
#[local] Open Scope Z_scope.

Inductive SessionType : Type :=
  | End
  | Send (t : string) (s : SessionType)
  | Recv (t : string) (s : SessionType)
  | Choice (s1 s2 : SessionType)
  | Offer (s1 s2 : SessionType)
  | Rec (s : SessionType)
  | Var (n : Z).

#[export] Instance SessionType_eq_dec : EqDecision SessionType.
Proof. solve_decision. Defined.

Fixpoint dual (self : SessionType) : SessionType :=
  match self with
  | End => End
  | Send t s => Recv t (dual s)
  | Recv t s => Send t (dual s)
  | Choice s1 s2 => Offer (dual s1) (dual s2)
  | Offer s1 s2 => Choice (dual s1) (dual s2)
  | Rec s => Rec (dual s)
  | Var n => Var n
  end.

Definition is_dual (self other : SessionType) : bool := bool_decide (dual self = other).

Fixpoint substitute (ty : SessionType) (depth : Z) (replacement : SessionType) : SessionType :=
  match ty with
  | End => End
  | Send t s => Send t (substitute s depth replacement)
  | Recv t s => Recv t (substitute s depth replacement)
  | Choice s1 s2 => Choice (substitute s1 depth replacement) (substitute s2 depth replacement)
  | Offer s1 s2 => Offer (substitute s1 depth replacement) (substitute s2 depth replacement)
  | Rec s => Rec (substitute s (depth + 1) replacement)
  | Var n => if n =? depth then replacement else if depth <? n then Var (n - 1) else Var n
  end.

Definition unfold_rec (self : SessionType) : SessionType :=
  match self with Rec body => substitute body 0 self | other => other end.

Definition is_end (self : SessionType) : bool := match self with End => true | _ => false end.

(** The derived [Debug] text, [{:?}]. *)
Fixpoint SessionType_debug (s : SessionType) : string :=
  match s with
  | End => "End"
  | Send t s => "Send(" +:+ debug_str t +:+ ", " +:+ SessionType_debug s +:+ ")"
  | Recv t s => "Recv(" +:+ debug_str t +:+ ", " +:+ SessionType_debug s +:+ ")"
  | Choice a b => "Choice(" +:+ SessionType_debug a +:+ ", " +:+ SessionType_debug b +:+ ")"
  | Offer a b => "Offer(" +:+ SessionType_debug a +:+ ", " +:+ SessionType_debug b +:+ ")"
  | Rec s => "Rec(" +:+ SessionType_debug s +:+ ")"
  | Var n => "Var(" +:+ show n +:+ ")"
  end.

Inductive SessionEventKind : Type :=
  | SE_Open (vreg : Z) (session_type : SessionType)
  | SE_Send (vreg : Z) (msg_type : string)
  | SE_Recv (vreg : Z) (expected_type : string)
  | SE_Close (vreg : Z).

Record SessionEvent := {
  sev_kind : SessionEventKind;
  sev_at_node : Z;
}.

Record SessionViolation := {
  sv_valid : bool;
  sv_error : option string;
}.

Definition session_violation (at_node : Z) (msg : string) : SessionViolation :=
  {| sv_valid := false;
     sv_error := Some ("session violation at node " +:+ show at_node +:+ ": " +:+ msg) |}.

(** The first branch that starts with the message's kind and type. *)
Definition branch_match (is_send : bool) (msg_type : string) (branch : SessionType) :
    option SessionType :=
  match is_send, branch with
  | true, Send expected_t cont => if String.eqb expected_t msg_type then Some cont else None
  | false, Recv expected_t cont => if String.eqb expected_t msg_type then Some cont else None
  | _, _ => None
  end.

Fixpoint try_match_choice_branch (branches : list SessionType) (msg_type : string) (is_send : bool) :
    option SessionType :=
  match branches with
  | [] => None
  | branch :: rest =>
      match branch_match is_send msg_type branch with
      | Some new_state => Some new_state
      | None => try_match_choice_branch rest msg_type is_send
      end
  end.

Definition no_branch_msg (vreg : Z) (msg_type : string) (is_send : bool) : string :=
  (if is_send then "send" else "recv") +:+ " on vreg " +:+ show vreg +:+
  " but no branch of " +:+ (if is_send then "Choice" else "Offer") +:+
  " matched message type " +:+ msg_type +:+ " (each branch must start with " +:+
  (if is_send then "Send" else "Recv") +:+ "<" +:+ msg_type +:+ ">)".

(** One event: the new state and the violations it adds. *)
Definition session_event_step (state : gmap Z SessionType) (event : SessionEvent) :
    gmap Z SessionType * list SessionViolation :=
  let violation := session_violation (sev_at_node event) in
  match sev_kind event with
  | SE_Open vreg session_type =>
      (<[vreg := session_type]> state,
       if is_some (state !! vreg) then
         [violation ("channel_open on vreg " +:+ show vreg +:+
            " which already has an active session (linear: must close first)")]
       else [])
  | SE_Send vreg msg_type =>
      match state !! vreg with
      | None => (state, [violation ("send on vreg " +:+ show vreg +:+
                   " which has no active session (must open first)")])
      | Some (Send expected_t cont) =>
          if negb (String.eqb expected_t msg_type) then
            (state, [violation ("send type mismatch on vreg " +:+ show vreg +:+ ": expected " +:+
                       expected_t +:+ ", got " +:+ msg_type)])
          else (<[vreg := cont]> state, [])
      | Some (Choice s1 s2) =>
          match try_match_choice_branch [s1; s2] msg_type true with
          | Some new_state => (<[vreg := new_state]> state, [])
          | None => (state, [violation (no_branch_msg vreg msg_type true)])
          end
      | Some other =>
          (state, [violation ("send on vreg " +:+ show vreg +:+ " but protocol expects " +:+
                     SessionType_debug other +:+ " (not Send)")])
      end
  | SE_Recv vreg expected_type =>
      match state !! vreg with
      | None => (state, [violation ("recv on vreg " +:+ show vreg +:+
                   " which has no active session (must open first)")])
      | Some (Recv expected_t cont) =>
          if negb (String.eqb expected_t expected_type) then
            (state, [violation ("recv type mismatch on vreg " +:+ show vreg +:+ ": expected " +:+
                       expected_t +:+ ", got " +:+ expected_type)])
          else (<[vreg := cont]> state, [])
      | Some (Offer s1 s2) =>
          match try_match_choice_branch [s1; s2] expected_type false with
          | Some new_state => (<[vreg := new_state]> state, [])
          | None => (state, [violation (no_branch_msg vreg expected_type false)])
          end
      | Some other =>
          (state, [violation ("recv on vreg " +:+ show vreg +:+ " but protocol expects " +:+
                     SessionType_debug other +:+ " (not Recv)")])
      end
  | SE_Close vreg =>
      match state !! vreg with
      | None => (state, [violation ("close on vreg " +:+ show vreg +:+
                   " which has no active session")])
      | Some End => (delete vreg state, [])
      | Some other =>
          (state, [violation ("close on vreg " +:+ show vreg +:+
             " but protocol is not complete (expected End, got " +:+ SessionType_debug other +:+
             ")")])
      end
  end.

Fixpoint session_events_loop (state : gmap Z SessionType) (results : list SessionViolation)
    (events : list SessionEvent) : gmap Z SessionType * list SessionViolation :=
  match events with
  | [] => (state, results)
  | event :: rest =>
      let '(state', new) := session_event_step state event in
      session_events_loop state' (results ++ new) rest
  end.

(** The check of one entry left at the end. *)
Definition incomplete_session (entry : Z * SessionType) : list SessionViolation :=
  let '(vreg, st) := entry in
  if negb (is_end st) then
    [{| sv_valid := false;
        sv_error := Some ("session violation: vreg " +:+ show vreg +:+
          " has incomplete session (expected more operations, current type: " +:+
          SessionType_debug st +:+ ")") |}]
  else [].

Definition verify_session_types (iter : gmap Z SessionType → list (Z * SessionType))
    (events : list SessionEvent) : list SessionViolation :=
  let '(state, results) := session_events_loop ∅ [] (sort_by_key sev_at_node events) in
  results ++ flat_map incomplete_session (iter state).

Definition all_sessions_valid (results : list SessionViolation) : bool := forallb sv_valid results.

(** ** Specification

    The protocol of one channel: what an event does to it, and the words that
    take it from closed to finished. *)

Inductive session_action : Type :=
  | AOpen (s : SessionType) | ASend (t : string) | ARecv (t : string) | AClose.

Inductive session_step : option SessionType → session_action → option SessionType → Prop :=
  | ss_open s : session_step None (AOpen s) (Some s)
  | ss_send t s : session_step (Some (Send t s)) (ASend t) (Some s)
  | ss_recv t s : session_step (Some (Recv t s)) (ARecv t) (Some s)
  | ss_choice_l t s s2 : session_step (Some (Choice (Send t s) s2)) (ASend t) (Some s)
  | ss_choice_r t s s1 :
      branch_match true t s1 = None →
      session_step (Some (Choice s1 (Send t s))) (ASend t) (Some s)
  | ss_offer_l t s s2 : session_step (Some (Offer (Recv t s) s2)) (ARecv t) (Some s)
  | ss_offer_r t s s1 :
      branch_match false t s1 = None →
      session_step (Some (Offer s1 (Recv t s))) (ARecv t) (Some s)
  | ss_close : session_step (Some End) AClose None.

Inductive session_run : option SessionType → list session_action → option SessionType → Prop :=
  | sr_nil o : session_run o [] o
  | sr_cons o a o' l o'' :
      session_step o a o' → session_run o' l o'' → session_run o (a :: l) o''.

Definition event_action (e : SessionEvent) : Z * session_action :=
  match sev_kind e with
  | SE_Open v s => (v, AOpen s)
  | SE_Send v t => (v, ASend t)
  | SE_Recv v t => (v, ARecv t)
  | SE_Close v => (v, AClose)
  end.

(** The actions of one channel, in program order. *)
Definition channel_word (vreg : Z) (events : list SessionEvent) : list session_action :=
  omap (λ e, let '(v, a) := event_action e in if v =? vreg then Some a else None) events.

Definition dual_action (a : session_action) : session_action :=
  match a with
  | AOpen s => AOpen (dual s)
  | ASend t => ARecv t
  | ARecv t => ASend t
  | AClose => AClose
  end.

(** No variable at or above [k]. *)
Fixpoint closed_at (k : Z) (s : SessionType) : Prop :=
  match s with
  | End => True
  | Send _ s | Recv _ s => closed_at k s
  | Choice s1 s2 | Offer s1 s2 => closed_at k s1 ∧ closed_at k s2
  | Rec s => closed_at (k + 1) s
  | Var n => 0 ≤ n < k
  end.

(** ** Lemmas *)

Lemma dual_involutive s : dual (dual s) = s.
Proof. induction s; simpl; congruence. Qed.

Lemma dual_substitute s d r : dual (substitute s d r) = substitute (dual s) d (dual r).
Proof. revert d. induction s; intros d; simpl; try congruence. by repeat case_match. Qed.

Lemma dual_unfold s : dual (unfold_rec s) = unfold_rec (dual s).
Proof. destruct s; try done. apply dual_substitute. Qed.

Lemma closed_at_mono k k' s : closed_at k s → k ≤ k' → closed_at k' s.
Proof.
  revert k k'. induction s; intros k k' H Hk; simpl in *; eauto; try (intuition eauto; lia).
  eapply IHs; [done|lia].
Qed.

Lemma closed_substitute k s r :
  0 ≤ k → closed_at (k + 1) s → closed_at 0 r → closed_at k (substitute s k r).
Proof.
  revert k. induction s; intros k Hk Hs Hr; simpl in *; try (intuition eauto; fail).
  - apply IHs; [lia|done..].
  - destruct (Z.eqb_spec n k); [by eapply closed_at_mono|].
    destruct (Z.ltb_spec k n); simpl; lia.
Qed.

Lemma dual_closed k s : closed_at k s → closed_at k (dual s).
Proof. revert k. induction s; intros k; simpl; naive_solver. Qed.

Lemma branch_match_dual b t s : branch_match (negb b) t (dual s) = dual <$> branch_match b t s.
Proof. destruct b, s; simpl; try done; by case_match. Qed.

Lemma session_step_dual o a o' :
  session_step o a o' → session_step (dual <$> o) (dual_action a) (dual <$> o').
Proof.
  destruct 1; simpl; constructor.
  - by rewrite (branch_match_dual true), H.
  - by rewrite (branch_match_dual false), H.
Qed.

Lemma branch_match_Some b t s s' :
  branch_match b t s = Some s' ↔ s = (if b then Send t s' else Recv t s').
Proof.
  destruct b, s; simpl; try done;
    (destruct (String.eqb_spec t0 t) as [->|]; split; [congruence..|done|congruence]).
Qed.

Lemma try_match_two b t s1 s2 s' :
  try_match_choice_branch [s1; s2] t b = Some s' ↔
  branch_match b t s1 = Some s' ∨
  (branch_match b t s1 = None ∧ branch_match b t s2 = Some s').
Proof.
  simpl. destruct (branch_match b t s1), (branch_match b t s2); naive_solver.
Qed.

(** One event of the checker and one step of its channel's protocol. *)
Lemma event_step_sound state e state' :
  session_event_step state e = (state', []) →
  session_step (state !! fst (event_action e)) (snd (event_action e))
               (state' !! fst (event_action e)) ∧
  ∀ w, w ≠ fst (event_action e) → state' !! w = state !! w.
Proof.
  unfold session_event_step, event_action. destruct (sev_kind e) as [v s|v t|v t|v]; cbn [fst snd].
  - destruct (state !! v) eqn:E; [done|]. intros [= <-]. rewrite lookup_insert_eq.
    split; [constructor|]. intros w ?. by rewrite lookup_insert_ne.
  - destruct (state !! v) as [[|t0 s0| |s1 s2| | |]|] eqn:E; try done.
    + destruct (String.eqb_spec t0 t) as [->|]; [|done]. intros [= <-].
      rewrite lookup_insert_eq. split; [constructor|]. intros w ?. by rewrite lookup_insert_ne.
    + destruct (try_match_choice_branch [s1; s2] t true) as [s'|] eqn:Em; [|done].
      intros [= <-]. rewrite lookup_insert_eq. split; [|intros w ?; by rewrite lookup_insert_ne].
      apply try_match_two in Em as [->%branch_match_Some|[H ->%branch_match_Some]];
        by constructor.
  - destruct (state !! v) as [[| |t0 s0| |s1 s2| |]|] eqn:E; try done.
    + destruct (String.eqb_spec t0 t) as [->|]; [|done]. intros [= <-].
      rewrite lookup_insert_eq. split; [constructor|]. intros w ?. by rewrite lookup_insert_ne.
    + destruct (try_match_choice_branch [s1; s2] t false) as [s'|] eqn:Em; [|done].
      intros [= <-]. rewrite lookup_insert_eq. split; [|intros w ?; by rewrite lookup_insert_ne].
      apply try_match_two in Em as [->%branch_match_Some|[H ->%branch_match_Some]];
        by constructor.
  - destruct (state !! v) as [[]|] eqn:E; try done. intros [= <-]. rewrite lookup_delete_eq.
    split; [constructor|]. intros w ?. by rewrite lookup_delete_ne.
Qed.

Lemma event_step_complete state e o' :
  session_step (state !! fst (event_action e)) (snd (event_action e)) o' →
  ∃ state', session_event_step state e = (state', []) ∧
    state' !! fst (event_action e) = o' ∧
    ∀ w, w ≠ fst (event_action e) → state' !! w = state !! w.
Proof.
  assert (∀ v (s : SessionType), <[v:=s]> state !! v = Some s ∧
    ∀ w, w ≠ v → <[v:=s]> state !! w = state !! w) as Hins.
  { intros v s. rewrite lookup_insert_eq. split; [done|].
    intros w ?. by rewrite lookup_insert_ne. }
  unfold session_event_step, event_action.
  destruct (sev_kind e) as [v s|v t|v t|v]; cbn [fst snd]; intros Hs; inversion Hs; subst;
    try (rewrite String.eqb_refl; cbn [negb]);
    try (match goal with
         | H : Some (Choice ?a ?b) = _ |- context [Some ?s] =>
             rewrite (proj2 (try_match_two true t a b _))
               by (rewrite !branch_match_Some; (by left) || (by right))
         | H : Some (Offer ?a ?b) = _ |- context [Some ?s] =>
             rewrite (proj2 (try_match_two false t a b _))
               by (rewrite !branch_match_Some; (by left) || (by right))
         end);
    eexists; (split; [reflexivity|]); try apply Hins.
  split; [apply lookup_delete_eq|]. intros w ?. by rewrite lookup_delete_ne.
Qed.

Lemma channel_word_cons v e events :
  channel_word v (e :: events) =
  (if fst (event_action e) =? v then [snd (event_action e)] else []) ++ channel_word v events.
Proof.
  unfold channel_word. simpl. destruct (event_action e) as [w a]. simpl.
  by destruct (w =? v).
Qed.

Lemma session_events_loop_app state results events :
  session_events_loop state results events =
  (fst (session_events_loop state [] events),
   results ++ snd (session_events_loop state [] events)).
Proof.
  revert state results. induction events as [|e events IH]; intros state results; simpl.
  { by rewrite app_nil_r. }
  destruct (session_event_step state e) as [state' new]. rewrite (IH _ (results ++ new)), (IH _ new).
  simpl. by rewrite app_assoc.
Qed.

Lemma session_loop_snoc state l m :
  session_events_loop state [] (l ++ m) =
  (fst (session_events_loop (fst (session_events_loop state [] l)) [] m),
   snd (session_events_loop state [] l) ++
   snd (session_events_loop (fst (session_events_loop state [] l)) [] m)).
Proof.
  revert state. induction l as [|e l IH]; intros state; cbn [app session_events_loop fst snd].
  { by rewrite <-surjective_pairing. }
  destruct (session_event_step state e) as [st1 new].
  cbn [app].
  rewrite (session_events_loop_app st1 new (l ++ m)), (session_events_loop_app st1 new l), IH.
  cbn [fst snd]. by rewrite app_assoc.
Qed.

Lemma session_loop_sound events state state' :
  session_events_loop state [] events = (state', []) →
  ∀ v, session_run (state !! v) (channel_word v events) (state' !! v).
Proof.
  revert state. induction events as [|e events IH]; intros state; cbn [session_events_loop].
  { intros [= <-] v. constructor. }
  destruct (session_event_step state e) as [st1 new] eqn:E. rewrite session_events_loop_app.
  destruct (session_events_loop st1 [] events) as [st2 rs] eqn:E2. cbn [fst snd app].
  intros [= -> [-> ->]%app_nil] v. apply event_step_sound in E as [H1 H2].
  rewrite channel_word_cons. destruct (Z.eqb_spec (fst (event_action e)) v) as [<-|Hne]; simpl.
  - econstructor; [exact H1|]. by apply IH.
  - rewrite <-H2 by done. by apply IH.
Qed.

Lemma session_loop_complete (P : option SessionType → Prop) events state :
  (∀ v, ∃ o, session_run (state !! v) (channel_word v events) o ∧ P o) →
  ∃ state', session_events_loop state [] events = (state', []) ∧ ∀ v, P (state' !! v).
Proof.
  revert state. induction events as [|e events IH]; intros state H; cbn [session_events_loop].
  { exists state. split; [done|]. intros v. destruct (H v) as (o & Hr & Ho). by inversion Hr; subst. }
  destruct (H (fst (event_action e))) as (o & He & Ho).
  rewrite channel_word_cons, Z.eqb_refl in He.
  inversion He as [|? ? o' ? ? Hstep Hrun]; subst.
  destruct (event_step_complete state e o' Hstep) as (st1 & E1 & Hv & Hw).
  rewrite E1. apply IH. intros v.
  destruct (decide (v = fst (event_action e))) as [->|Hne].
  { exists o. by rewrite Hv. }
  rewrite Hw by done. specialize (H v). rewrite channel_word_cons in H.
  by rewrite (proj2 (Z.eqb_neq _ _)) in H by done.
Qed.

Lemma incomplete_nil (iter : gmap Z SessionType → list (Z * SessionType)) m :
  iter m ≡ₚ map_to_list m →
  flat_map incomplete_session (iter m) = [] ↔ ∀ v s, m !! v = Some s → s = End.
Proof.
  intros Hiter. rewrite flat_map_nil. split.
  - intros H v s Hv. specialize (H (v, s)). rewrite Hiter, elem_of_map_to_list in H.
    specialize (H Hv). simpl in H. by destruct s.
  - intros H [v s]. rewrite Hiter, elem_of_map_to_list. simpl. by intros ->%H.
Qed.

Lemma session_checked iter events :
  (∀ m : gmap Z SessionType, iter m ≡ₚ map_to_list m) →
  verify_session_types iter events = [] →
  ∀ v, ∃ o, session_run None (channel_word v (sort_by_key sev_at_node events)) o ∧
    (o = None ∨ o = Some End).
Proof.
  intros Hiter. unfold verify_session_types.
  destruct (session_events_loop ∅ [] (sort_by_key sev_at_node events)) as [st rs] eqn:E.
  intros [-> Hinc]%app_nil v. rewrite (incomplete_nil iter st (Hiter st)) in Hinc.
  pose proof (session_loop_sound _ _ _ E v) as Hrun. rewrite lookup_empty in Hrun.
  exists (st !! v). split; [done|]. destruct (st !! v) as [s|] eqn:Es; [right|by left].
  by rewrite (Hinc v s Es).
Qed.

Lemma session_run_rec o l o' body : session_run o l o' → AOpen (Rec body) ∈ l → o' = Some (Rec body).
Proof.
  induction 1 as [|x a y w z Hs Hr IH]; [by intros ?%elem_of_nil|].
  intros [Ha|Hin]%elem_of_cons; [|by apply IH]. subst a.
  inversion Hs; subst. inversion Hr as [|? ? ? ? ? Hs']; subst; [done|]. inversion Hs'.
Qed.

Lemma elem_of_channel_word v a events :
  a ∈ channel_word v events ↔ ∃ e, e ∈ events ∧ event_action e = (v, a).
Proof.
  unfold channel_word. rewrite list_elem_of_omap. apply exist_proper. intros e.
  destruct (event_action e) as [w b]. destruct (Z.eqb_spec w v); naive_solver.
Qed.

(** A protocol that can be run to its end: some sequence of operations the checker takes
    finishes it.  A second branch counts only for a message that the first does not take. *)
Fixpoint completable (s : SessionType) : bool :=
  match s with
  | End => true
  | Send _ s | Recv _ s => completable s
  | Choice s1 s2 =>
      match s1 with Send _ k => completable k | _ => false end ||
      match s2 with
      | Send t k => negb (is_some (branch_match true t s1)) && completable k
      | _ => false
      end
  | Offer s1 s2 =>
      match s1 with Recv _ k => completable k | _ => false end ||
      match s2 with
      | Recv t k => negb (is_some (branch_match false t s1)) && completable k
      | _ => false
      end
  | Rec _ | Var _ => false
  end.

Lemma run_one o a o' l o'' :
  session_step o a o' → session_run o' l o'' → session_run o (a :: l) o''.
Proof. by econstructor. Qed.

Lemma is_some_false {A} (o : option A) : negb (is_some o) = true → o = None.
Proof. by destruct o. Qed.

Lemma completable_run s : completable s = true → ∃ l, session_run (Some s) l (Some End).
Proof.
  induction s as [|t s IH|t s IH|s1 IH1 s2 IH2|s1 IH1 s2 IH2|s IH|n]; cbn [completable]; try done.
  - exists []. constructor.
  - intros [l Hl]%IH. eexists. eapply run_one; [constructor|done].
  - intros [l Hl]%IH. eexists. eapply run_one; [constructor|done].
  - intros [H|H]%orb_true_iff.
    + destruct s1 as [|t k| | | | |]; try done. destruct (IH1 H) as [l Hl]. cbn [completable] in H.
      inversion Hl as [|? ? ? ? ? Hs Hr]; subst. inversion Hs; subst.
      eexists. eapply run_one; [constructor|done].
    + destruct s2 as [|t k| | | | |]; try done. apply andb_true_iff in H as [Hb%is_some_false H].
      destruct (IH2 H) as [l Hl]. inversion Hl as [|? ? ? ? ? Hs Hr]; subst. inversion Hs; subst.
      eexists. eapply run_one; [by constructor|done].
  - intros [H|H]%orb_true_iff.
    + destruct s1 as [| |t k| | | |]; try done. destruct (IH1 H) as [l Hl]. cbn [completable] in H.
      inversion Hl as [|? ? ? ? ? Hs Hr]; subst. inversion Hs; subst.
      eexists. eapply run_one; [constructor|done].
    + destruct s2 as [| |t k| | | |]; try done. apply andb_true_iff in H as [Hb%is_some_false H].
      destruct (IH2 H) as [l Hl]. inversion Hl as [|? ? ? ? ? Hs Hr]; subst. inversion Hs; subst.
      eexists. eapply run_one; [by constructor|done].
Qed.

Lemma run_completable o l o' :
  session_run o l o' → o' = None ∨ o' = Some End → ∀ s, o = Some s → completable s = true.
Proof.
  induction 1 as [o|o a o' l o'' Hs Hr IH]; intros Ho s ->; [destruct Ho as [|[= ->]]; done|].
  specialize (IH Ho). inversion Hs; subst; cbn [completable]; try done;
    rewrite (IH _ eq_refl); try done; repeat match goal with H : branch_match _ _ _ = None |- _ =>
      rewrite H end; by rewrite orb_true_r.
Qed.

(** A word as events of one channel, at one place. *)
Definition action_event (v node : Z) (a : session_action) : SessionEvent :=
  {| sev_kind := match a with
                 | AOpen s => SE_Open v s | ASend t => SE_Send v t
                 | ARecv t => SE_Recv v t | AClose => SE_Close v
                 end;
     sev_at_node := node |}.

Lemma channel_word_action v w node l :
  channel_word v (action_event w node <$> l) = if w =? v then l else [].
Proof.
  induction l as [|a l IH]; [by case_match|]. rewrite fmap_cons, channel_word_cons, IH.
  destruct a; cbn [action_event event_action sev_kind fst snd]; by destruct (w =? v).
Qed.

Lemma channel_word_app v l m : channel_word v (l ++ m) = channel_word v l ++ channel_word v m.
Proof.
  induction l as [|e l IH]; [done|]. cbn [app]. by rewrite !channel_word_cons, IH, app_assoc.
Qed.

(** Words that finish some channels, put one after the other. *)
Lemma finishing_events node (l : list (Z * SessionType)) :
  NoDup l.*1 → Forall (λ e, completable e.2 = true) l →
  ∃ more, Forall (λ e, sev_at_node e = node) more ∧
    ∀ v, (∀ s, (v, s) ∈ l → session_run (Some s) (channel_word v more) (Some End)) ∧
         (v ∉ l.*1 → channel_word v more = []).
Proof.
  intros Hnd Hl. induction Hl as [|[w s] l Hs _ IH].
  { exists []. split; [constructor|]. intros v. split; [by intros s ?%elem_of_nil|done]. }
  rewrite fmap_cons in Hnd. apply NoDup_cons in Hnd as [Hw Hnd].
  destruct (IH Hnd) as (more & Hm & H). destruct (completable_run s Hs) as [word Hword].
  exists ((action_event w node <$> word) ++ more). split.
  { apply Forall_app. split; [|done]. apply Forall_forall. by intros e (a & -> & _)%list_elem_of_fmap. }
  intros v. rewrite channel_word_app, channel_word_action. destruct (H v) as [H1 H2].
  destruct (Z.eqb_spec w v) as [->|Hne]; split.
  - intros s' [[= ->]|Hin]%elem_of_cons; [by rewrite H2, app_nil_r|].
    destruct Hw. apply list_elem_of_fmap. by exists (v, s').
  - rewrite fmap_cons. intros Hn. destruct Hn. apply elem_of_cons. by left.
  - intros s' [[= -> ->]|Hin]%elem_of_cons; [done|]. by apply H1.
  - rewrite fmap_cons. intros Hn. apply H2. intros Hin. apply Hn, elem_of_cons. by right.
Qed.

(** ** Properties *)

(** [dual] is an involution, so [is_dual] is symmetric; it commutes with
    unfolding a recursive protocol; and unfolding a protocol without free
    variables gives again one without free variables. *)
Theorem dual_spec (s s' : SessionType) :
  dual (dual s) = s ∧ is_dual s s' = is_dual s' s ∧
  dual (unfold_rec s) = unfold_rec (dual s) ∧
  (closed_at 0 s → closed_at 0 (unfold_rec s) ∧ closed_at 0 (dual s)).
Proof.
  split; [apply dual_involutive|]. split.
  { apply bool_decide_ext. split; intros <-; by rewrite dual_involutive. }
  split; [apply dual_unfold|]. intros Hc. split; [|by apply dual_closed].
  destruct s; try done. by apply closed_substitute.
Qed.



(** Two ends with dual protocols fit together: whatever one end's protocol
    allows it to do next, the dual protocol allows the peer to do the matching
    operation, and the remaining protocols are dual again; so a whole run of one
    end is matched by a run of the other with sends and receives exchanged. *)
Theorem session_run_dual (o o' : option SessionType) (l : list session_action) :
  session_run o l o' ↔ session_run (dual <$> o) (dual_action <$> l) (dual <$> o').
Proof.
  assert (∀ o l o', session_run o l o' →
    session_run (dual <$> o) (dual_action <$> l) (dual <$> o')) as Hd.
  { induction 1 as [|x a y w z Hs _ IH]; [constructor|].
    econstructor; [by apply session_step_dual|exact IH]. }
  assert (∀ o : option SessionType, dual <$> (dual <$> o) = o) as Ho.
  { intros [s|]; simpl; [by rewrite dual_involutive|done]. }
  split; [apply Hd|]. intros H%Hd. rewrite !Ho in H.
  assert (dual_action <$> (dual_action <$> l) = l) as E.
  { clear. induction l as [|[s| | |] l IH]; [done|..]; rewrite !fmap_cons, IH; simpl;
      by rewrite ?dual_involutive. }
  by rewrite E in H.
Qed.

(** The checker never unfolds a recursive protocol, although [unfold] is
    documented as needed to check them: a program that opens a channel with a
    [Rec] protocol is rejected whatever it then does. *)
Theorem verify_session_types_rejects_rec iter (events : list SessionEvent) e v body :
  (∀ m : gmap Z SessionType, iter m ≡ₚ map_to_list m) →
  e ∈ events → sev_kind e = SE_Open v (Rec body) →
  verify_session_types iter events ≠ [].
Proof.
  intros Hiter Hin Hk H.
  destruct (session_checked iter events Hiter H v) as (o & Hrun & Ho).
  apply (session_run_rec _ _ _ body) in Hrun as ->; [destruct Ho; congruence|].
  apply elem_of_channel_word. exists e. split; [by rewrite elem_of_sort_by_key|].
  unfold event_action. by rewrite Hk.
Qed.

Lemma verify_session_types_rejects_rec_witness :
  verify_session_types map_to_list
    [{| sev_kind := SE_Open 1 (Rec (Send "i32" (Var 0))); sev_at_node := 0 |}] ≠ [].
Proof.
  eapply verify_session_types_rejects_rec; [intros m; reflexivity|left|reflexivity].
Defined.


