(* ===== verification/LinearChannel.v ===== *)
(** * Linear channel handles

    Models [verify_linear_channels] of [src/src/ive/src/borrow_region.rs]: the
    path-sensitive lifecycle check of channel handles.  The walks over a
    [HashMap] or [HashSet] take their order as an argument ([iter], [iter_set]). *)

From S2P Require Import Prelude.
From stdpp Require Import options.
#[local] Open Scope Z_scope.

Inductive ChannelLifecycle : Type := Lc_Open | Lc_Closed.

#[export] Instance ChannelLifecycle_eq_dec : EqDecision ChannelLifecycle.
Proof. solve_decision. Defined.

Inductive ChannelEventKind : Type :=
  | Ck_Open | Ck_Use | Ck_Close | Ck_Branch | Ck_Join | Ck_ElseStart | Ck_FunctionExit.

#[export] Instance ChannelEventKind_eq_dec : EqDecision ChannelEventKind.
Proof. solve_decision. Defined.

Record ChannelEvent := {
  ce_vreg : string;
  ce_kind : ChannelEventKind;
  ce_at_node : Z;
}.

Record LinearVerification := {
  lv_valid : bool;
  lv_error : option string;
}.

Notation lifecycles := (gmap string ChannelLifecycle).

Record BranchFrame := {
  bf_snapshot : lifecycles;
  bf_then_state : option lifecycles;
  bf_then_returned : bool;
}.

(** The walk's local variables. *)
Record lin_state := {
  lin_map : lifecycles;
  lin_results : list LinearVerification;
  lin_stack : list BranchFrame;
}.

Definition lin_error (msg : string) : LinearVerification :=
  {| lv_valid := false; lv_error := Some msg |}.

Definition is_closed (m : lifecycles) (vreg : string) : bool :=
  bool_decide (m !! vreg = Some Lc_Closed).

Definition leak_msg (vreg : string) : string :=
  "linear leak: channel handle " +:+ debug_str vreg +:+
  " closed on one path of if/else but not the other (linear violation: handle must be closed on all paths)".

(** The merge loop over [all_vregs]. *)
Fixpoint merge_vregs (then_state : lifecycles) (vregs : list string) (state : lifecycles)
    (results : list LinearVerification) : lifecycles * list LinearVerification :=
  match vregs with
  | [] => (state, results)
  | vreg :: rest =>
      let then_closed := is_closed then_state vreg in
      let else_closed := is_closed state vreg in
      match then_closed, else_closed with
      | true, true => merge_vregs then_state rest (<[vreg := Lc_Closed]> state) results
      | true, false | false, true =>
          merge_vregs then_state rest (<[vreg := Lc_Open]> state)
            (results ++ [lin_error (leak_msg vreg)])
      | false, false => merge_vregs then_state rest (<[vreg := Lc_Open]> state) results
      end
  end.

(** The reset of an [if] without [else]. *)
Definition reset_closed (snapshot state : lifecycles) : lifecycles :=
  map_imap (λ vreg current,
    Some (if bool_decide (current = Lc_Closed) && negb (is_closed snapshot vreg)
          then Lc_Open else current)) state.

Definition exit_msg (vreg : string) : string :=
  "linear leak: channel handle " +:+ debug_str vreg +:+
  " is still open at function exit (linear violation: every opened channel must be closed on all paths)".

Definition exit_leaks (entries : list (string * ChannelLifecycle)) : list LinearVerification :=
  flat_map (λ '(vreg, lifecycle),
    if bool_decide (lifecycle = Lc_Open) then [lin_error (exit_msg vreg)] else []) entries.

Definition lin_push (st : lin_state) (state : lifecycles) (new : list LinearVerification) :
    lin_state :=
  {| lin_map := state; lin_results := lin_results st ++ new; lin_stack := lin_stack st |}.

Definition lin_step (iter : lifecycles → list (string * ChannelLifecycle))
    (iter_set : gset string → list string) (st : lin_state) (event : ChannelEvent) : lin_state :=
  let state := lin_map st in
  let vreg := ce_vreg event in
  let node := show (ce_at_node event) in
  match ce_kind event with
  | Ck_Open =>
      lin_push st (<[vreg := Lc_Open]> state)
        (if bool_decide (state !! vreg = Some Lc_Open) then
           [lin_error ("channel_open on handle " +:+ debug_str vreg +:+ " at node " +:+ node +:+
              " without closing the previous handle (linear leak)")] else [])
  | Ck_Use =>
      match state !! vreg with
      | None => lin_push st state [lin_error ("use of uninitialized channel handle " +:+
          debug_str vreg +:+ " at node " +:+ node +:+
          " (linear: handle must be opened first)")]
      | Some Lc_Closed => lin_push st state [lin_error ("use-after-close on channel handle " +:+
          debug_str vreg +:+ " at node " +:+ node +:+
          " (linear violation: handle was consumed by channel_close)")]
      | Some Lc_Open => lin_push st state []
      end
  | Ck_Close =>
      match state !! vreg with
      | None => lin_push st state [lin_error ("channel_close on uninitialized handle " +:+
          debug_str vreg +:+ " at node " +:+ node +:+
          " (linear: handle must be opened first)")]
      | Some Lc_Closed => lin_push st state [lin_error ("double-close on channel handle " +:+
          debug_str vreg +:+ " at node " +:+ node +:+
          " (linear violation: handle was already consumed)")]
      | Some Lc_Open => lin_push st (<[vreg := Lc_Closed]> state) []
      end
  | Ck_Branch =>
      {| lin_map := state; lin_results := lin_results st;
         lin_stack := {| bf_snapshot := state; bf_then_state := None;
                         bf_then_returned := false |} :: lin_stack st |}
  | Ck_ElseStart =>
      match lin_stack st with
      | frame :: stack =>
          {| lin_map := bf_snapshot frame; lin_results := lin_results st;
             lin_stack := {| bf_snapshot := bf_snapshot frame; bf_then_state := Some state;
                             bf_then_returned := bf_then_returned frame |} :: stack |}
      | [] => st
      end
  | Ck_Join =>
      match lin_stack st with
      | frame :: stack =>
          if bf_then_returned frame then
            {| lin_map := state; lin_results := lin_results st; lin_stack := stack |}
          else
          match bf_then_state frame with
          | Some then_state =>
              let all_vregs := dom state ∪ dom then_state in
              let '(state', results') :=
                merge_vregs then_state (iter_set all_vregs) state (lin_results st) in
              {| lin_map := state'; lin_results := results'; lin_stack := stack |}
          | None =>
              {| lin_map := reset_closed (bf_snapshot frame) state;
                 lin_results := lin_results st; lin_stack := stack |}
          end
      | [] => st
      end
  | Ck_FunctionExit =>
      let results := lin_results st ++ exit_leaks (iter state) in
      match lin_stack st with
      | frame :: stack =>
          match bf_then_state frame with
          | None =>
              {| lin_map := bf_snapshot frame; lin_results := results;
                 lin_stack := {| bf_snapshot := bf_snapshot frame; bf_then_state := Some state;
                                 bf_then_returned := true |} :: stack |}
          | Some _ => {| lin_map := state; lin_results := results; lin_stack := lin_stack st |}
          end
      | [] => {| lin_map := state; lin_results := results; lin_stack := [] |}
      end
  end.

Definition lin_init : lin_state := {| lin_map := ∅; lin_results := []; lin_stack := [] |}.

Definition verify_linear_channels (iter : lifecycles → list (string * ChannelLifecycle))
    (iter_set : gset string → list string) (events : list ChannelEvent) :
    list LinearVerification :=
  lin_results (fold_left (lin_step iter iter_set) (sort_by_key ce_at_node events) lin_init).

Definition all_linear_valid (results : list LinearVerification) : bool := forallb lv_valid results.

(** ** Specification

    The lifecycle of one handle along one path of the program. *)

Inductive handle_step : option ChannelLifecycle → ChannelEventKind → option ChannelLifecycle → Prop :=
  | hs_open : handle_step None Ck_Open (Some Lc_Open)
  | hs_reopen : handle_step (Some Lc_Closed) Ck_Open (Some Lc_Open)
  | hs_use : handle_step (Some Lc_Open) Ck_Use (Some Lc_Open)
  | hs_close : handle_step (Some Lc_Open) Ck_Close (Some Lc_Closed)
  | hs_exit_none : handle_step None Ck_FunctionExit None
  | hs_exit_closed : handle_step (Some Lc_Closed) Ck_FunctionExit (Some Lc_Closed).

Inductive handle_run : option ChannelLifecycle → list ChannelEventKind → option ChannelLifecycle → Prop :=
  | hr_nil o : handle_run o [] o
  | hr_cons o k o' l o'' : handle_step o k o' → handle_run o' l o'' → handle_run o (k :: l) o''.

(** The events of a path that concern a handle: an exit concerns all. *)
Definition concerns (v : string) (e : ChannelEvent) : bool :=
  bool_decide (ce_kind e = Ck_FunctionExit) || String.eqb (ce_vreg e) v.

Definition handle_word (v : string) (events : list ChannelEvent) : list ChannelEventKind :=
  map ce_kind (List.filter (concerns v) events).

(** Events of code without branches. *)
Definition is_plain (e : ChannelEvent) : bool :=
  match ce_kind e with Ck_Branch | Ck_Join | Ck_ElseStart => false | _ => true end.

Definition is_lifecycle (e : ChannelEvent) : bool :=
  match ce_kind e with Ck_Open | Ck_Use | Ck_Close => true | _ => false end.

Definition lin_event (v : string) (k : ChannelEventKind) : ChannelEvent :=
  {| ce_vreg := v; ce_kind := k; ce_at_node := 0 |}.

(** Control events around two stretches. *)
Definition if_else (v : string) (thens elses : list ChannelEvent) : list ChannelEvent :=
  [lin_event v Ck_Branch] ++ thens ++ [lin_event v Ck_ElseStart] ++ elses ++ [lin_event v Ck_Join].

(** The path-sensitive join: closed on both paths, or known on some path. *)
Definition join_lifecycle (a b : option ChannelLifecycle) : option ChannelLifecycle :=
  match a, b with
  | None, None => None
  | Some Lc_Closed, Some Lc_Closed => Some Lc_Closed
  | _, _ => Some Lc_Open
  end.

Definition agree_closed (a b : option ChannelLifecycle) : Prop :=
  a = Some Lc_Closed ↔ b = Some Lc_Closed.

(** ** Lemmas *)

#[local] Set Default Proof Using "Type*".

Section orders.
  Context (iter : lifecycles → list (string * ChannelLifecycle)).
  Context (iter_set : gset string → list string).
  Context (Hiter : ∀ m, iter m ≡ₚ map_to_list m).
  Context (Hset : ∀ s, iter_set s ≡ₚ elements s).

Lemma exit_leaks_nil m : exit_leaks (iter m) = [] ↔ ∀ v, m !! v ≠ Some Lc_Open.
Proof.
  unfold exit_leaks. rewrite flat_map_nil. split.
  - intros H v Hv. specialize (H (v, Lc_Open)). rewrite Hiter, elem_of_map_to_list in H.
    by specialize (H Hv).
  - intros H [v l]. rewrite Hiter, elem_of_map_to_list. intros Hv.
    case_bool_decide as Hl; [|done]. subst. by destruct (H v).
Qed.

(** The violations are only ever appended to. *)
Lemma merge_vregs_results t vs s r :
  merge_vregs t vs s r = (fst (merge_vregs t vs s []), r ++ snd (merge_vregs t vs s [])).
Proof.
  revert s r. induction vs as [|v vs IH]; intros s r; simpl; [by rewrite app_nil_r|].
  destruct (is_closed t v), (is_closed s v); rewrite (IH _ r) || rewrite (IH _ (r ++ _));
    try done; rewrite (IH _ [_]); simpl; by rewrite <-app_assoc.
Qed.

Lemma merge_vregs_spec t vs s :
  NoDup vs →
  (∀ v, fst (merge_vregs t vs s []) !! v =
     if bool_decide (v ∈ vs) then
       Some (if is_closed t v && is_closed s v then Lc_Closed else Lc_Open)
     else s !! v) ∧
  (snd (merge_vregs t vs s []) = [] ↔ ∀ v, v ∈ vs → is_closed t v = is_closed s v).
Proof.
  intros Hnd. revert s. induction Hnd as [|v vs Hv Hnd IH]; intros s; simpl.
  { split; [done|]. split; [intros _ v Hv; by apply elem_of_nil in Hv|done]. }
  set (l := if is_closed t v && is_closed s v then Lc_Closed else Lc_Open).
  set (new := if eqb (is_closed t v) (is_closed s v) then [] else [lin_error (leak_msg v)]).
  assert (match is_closed t v, is_closed s v with
          | true, true => merge_vregs t vs (<[v:=Lc_Closed]> s) []
          | true, false | false, true =>
              merge_vregs t vs (<[v:=Lc_Open]> s) [lin_error (leak_msg v)]
          | false, false => merge_vregs t vs (<[v:=Lc_Open]> s) []
          end = merge_vregs t vs (<[v:=l]> s) new) as ->.
  { unfold l, new. by destruct (is_closed t v), (is_closed s v). }
  rewrite merge_vregs_results. cbn [fst snd]. destruct (IH (<[v:=l]> s)) as [IH1 IH2].
  assert (∀ w, w ∈ vs → is_closed (<[v:=l]> s) w = is_closed s w) as Hother.
  { intros w Hw. unfold is_closed. rewrite lookup_insert_ne; [done|]. by intros ->. }
  split.
  - intros w. rewrite IH1. destruct (decide (w = v)) as [->|Hne].
    + rewrite (bool_decide_eq_false_2 (v ∈ vs)), (bool_decide_eq_true_2 (v ∈ v :: vs))
        by (done || by left). by rewrite lookup_insert_eq.
    + rewrite (lookup_insert_ne s v w l) by done.
      destruct (decide (w ∈ vs)) as [Hw|Hw].
      * rewrite !bool_decide_eq_true_2 by (done || by right). by rewrite Hother.
      * rewrite !bool_decide_eq_false_2; [done| |done]. by intros [->|?]%elem_of_cons.
  - rewrite app_nil, IH2. unfold new. split.
    + intros [Hn H] w [->|Hw]%elem_of_cons.
      * destruct (is_closed t v), (is_closed s v); done.
      * by rewrite H, Hother.
    + intros H. split; [rewrite (H v) by left; by rewrite eqb_reflx|].
      intros w Hw. rewrite Hother by done. apply H. by right.
Qed.

(** Events the straight-line analysis covers: a function exit only off any branch. *)
Definition plain_at (st : lin_state) (e : ChannelEvent) : Prop :=
  is_lifecycle e = true ∨ (ce_kind e = Ck_FunctionExit ∧ lin_stack st = []).

Lemma lin_step_shape st e :
  plain_at st e →
  lin_stack (lin_step iter iter_set st e) = lin_stack st ∧
  ∃ new, lin_results (lin_step iter iter_set st e) = lin_results st ++ new.
Proof.
  intros [H|[H Hst]]; unfold lin_step.
  - unfold is_lifecycle in H. destruct (ce_kind e); try done; simpl; [by eauto|..];
      (destruct (lin_map st !! ce_vreg e) as [[]|]; simpl; eauto).
  - rewrite H, Hst. simpl. eauto.
Qed.

Lemma app_nil_inv {A} (l new : list A) : l ++ new = l → new = [].
Proof. intros H. apply (app_inv_head l). by rewrite app_nil_r. Qed.

Lemma lin_step_sound st e v :
  plain_at st e → lin_results (lin_step iter iter_set st e) = lin_results st →
  if concerns v e
  then handle_step (lin_map st !! v) (ce_kind e) (lin_map (lin_step iter iter_set st e) !! v)
  else lin_map (lin_step iter iter_set st e) !! v = lin_map st !! v.
Proof.
  unfold concerns, lin_step.
  intros [H|[H Hst]].
  - unfold is_lifecycle in H. destruct (ce_kind e); try done; simpl;
      destruct (String.eqb_spec (ce_vreg e) v) as [<-|Hne];
      destruct (lin_map st !! ce_vreg e) as [[]|] eqn:E; simpl; intros Hr;
      try apply app_nil_inv in Hr; try done;
      rewrite ?lookup_insert_eq, ?(lookup_insert_ne _ _ _ _ Hne), ?E; try done; constructor.
  - rewrite H, Hst. simpl. intros Hr%app_nil_inv.
    rewrite exit_leaks_nil in Hr. specialize (Hr v).
    destruct (lin_map st !! v) as [[]|]; [done|constructor..].
Qed.

Lemma lin_step_complete st e :
  plain_at st e →
  (∀ v, concerns v e = true → ∃ o, handle_step (lin_map st !! v) (ce_kind e) o) →
  lin_results (lin_step iter iter_set st e) = lin_results st.
Proof.
  unfold concerns, lin_step. intros [H|[H Hst]] Hs.
  - destruct (Hs (ce_vreg e)) as [o Ho]; [by rewrite String.eqb_refl, orb_true_r|].
    unfold is_lifecycle in H. destruct (ce_kind e); try done; inversion Ho; simpl;
      by rewrite app_nil_r.
  - rewrite H in *. rewrite Hst. simpl. rewrite (proj2 (exit_leaks_nil _)); [apply app_nil_r|].
    intros v Hv. destruct (Hs v) as [o Ho]; [done|].
    rewrite Hv in Ho. inversion Ho.
Qed.

Lemma handle_step_det o k o1 o2 : handle_step o k o1 → handle_step o k o2 → o1 = o2.
Proof. destruct 1; inversion 1; done. Qed.

Lemma handle_run_det o l o1 o2 : handle_run o l o1 → handle_run o l o2 → o1 = o2.
Proof.
  intros H. revert o2. induction H as [|o k o' l o'' Hs _ IH]; intros o2 H2; inversion H2; subst;
    [done|]. apply IH. by rewrite (handle_step_det _ _ _ _ Hs) by eassumption.
Qed.

Lemma handle_word_cons v e es :
  handle_word v (e :: es) = (if concerns v e then [ce_kind e] else []) ++ handle_word v es.
Proof. unfold handle_word. simpl. by destruct (concerns v e). Qed.

(** A straight-line stretch reports nothing exactly when every handle's events
    form a run of its lifecycle; then the state holds where the runs end. *)
Definition stretch_ok (st : lin_state) (es : list ChannelEvent) : Prop :=
  ∀ e, e ∈ es → plain_at st e.

Lemma lin_fold_shape es st :
  stretch_ok st es →
  lin_stack (fold_left (lin_step iter iter_set) es st) = lin_stack st ∧
  ∃ new, lin_results (fold_left (lin_step iter iter_set) es st) = lin_results st ++ new.
Proof.
  revert st. induction es as [|e es IH]; intros st Hok; simpl.
  { split; [done|]. exists []. by rewrite app_nil_r. }
  destruct (lin_step_shape st e) as [Hs (n1 & Hr)]; [apply Hok; by left|].
  destruct (IH (lin_step iter iter_set st e)) as [Hs2 (n2 & Hr2)].
  { intros x Hx. unfold plain_at. rewrite Hs. apply Hok. by right. }
  rewrite Hs2, Hr2, Hr, Hs. split; [done|]. exists (n1 ++ n2). by rewrite app_assoc.
Qed.

Lemma lin_fold_sound es st :
  stretch_ok st es →
  lin_results (fold_left (lin_step iter iter_set) es st) = lin_results st →
  ∀ v, handle_run (lin_map st !! v) (handle_word v es)
                  (lin_map (fold_left (lin_step iter iter_set) es st) !! v).
Proof.
  revert st. induction es as [|e es IH]; intros st Hok Hr v; [constructor|].
  assert (plain_at st e) as Hp by (apply Hok; by left).
  destruct (lin_step_shape st e Hp) as [Hs (n1 & Hr1)].
  assert (stretch_ok (lin_step iter iter_set st e) es) as Hok'.
  { intros x Hx. unfold plain_at. rewrite Hs. apply Hok. by right. }
  cbn [fold_left] in *. destruct (lin_fold_shape es _ Hok') as [_ (n2 & Hr2)].
  rewrite Hr2, Hr1, <-app_assoc in Hr. apply app_nil_inv, app_nil in Hr as [-> ->].
  rewrite app_nil_r in Hr1, Hr2.
  pose proof (lin_step_sound st e v Hp Hr1) as Hstep. rewrite handle_word_cons.
  destruct (concerns v e); simpl.
  - econstructor; [exact Hstep|]. by apply IH.
  - rewrite <-Hstep. by apply IH.
Qed.

Lemma lin_fold_complete es st :
  stretch_ok st es →
  (∀ v, ∃ o, handle_run (lin_map st !! v) (handle_word v es) o) →
  lin_results (fold_left (lin_step iter iter_set) es st) = lin_results st.
Proof.
  revert st. induction es as [|e es IH]; intros st Hok H; [done|].
  assert (plain_at st e) as Hp by (apply Hok; by left).
  assert (lin_results (lin_step iter iter_set st e) = lin_results st) as Hr.
  { apply lin_step_complete; [done|]. intros v Hc. destruct (H v) as [o Ho].
    rewrite handle_word_cons, Hc in Ho. inversion Ho; eauto. }
  cbn [fold_left]. rewrite <-Hr. apply IH.
  { intros x Hx. unfold plain_at. rewrite (proj1 (lin_step_shape st e Hp)).
    apply Hok. by right. }
  intros v. destruct (H v) as [o Ho]. exists o.
  pose proof (lin_step_sound st e v Hp Hr) as Hstep. rewrite handle_word_cons in Ho.
  destruct (concerns v e); simpl in Ho; [|by rewrite Hstep].
  inversion Ho as [|? ? o' ? ? Hs Hrun]; subst. by rewrite (handle_step_det _ _ _ _ Hstep Hs).
Qed.

Lemma plain_stretch es st :
  (∀ e, e ∈ es → is_plain e = true) → lin_stack st = [] → stretch_ok st es.
Proof.
  intros H Hst e He. specialize (H e He). unfold plain_at, is_plain, is_lifecycle in *.
  destruct (ce_kind e); (by left) || (by right) || done.
Qed.

Lemma lifecycle_stretch es st : (∀ e, e ∈ es → is_lifecycle e = true) → stretch_ok st es.
Proof. intros H e He. left. by apply H. Qed.

Lemma is_closed_agree t s v :
  is_closed t v = is_closed s v ↔ agree_closed (t !! v) (s !! v).
Proof. unfold is_closed, agree_closed. repeat case_bool_decide; naive_solver. Qed.

Lemma join_lookup t s v :
  (if bool_decide (v ∈ iter_set (dom s ∪ dom t)) then
     Some (if is_closed t v && is_closed s v then Lc_Closed else Lc_Open)
   else s !! v) = join_lifecycle (t !! v) (s !! v).
Proof.
  unfold is_closed. case_bool_decide as Hin; rewrite Hset, elem_of_elements in Hin.
  - rewrite elem_of_union, !elem_of_dom in Hin.
    destruct (s !! v) as [[]|], (t !! v) as [[]|]; try done. by destruct Hin as [[]|[]].
  - apply not_elem_of_union in Hin as [H1%not_elem_of_dom H2%not_elem_of_dom].
    by rewrite H1, H2.
Qed.

(** The state in which the join of [if_else] runs, and its effect. *)
Lemma if_else_fold st v thens elses :
  (∀ e, e ∈ thens → is_lifecycle e = true) → (∀ e, e ∈ elses → is_lifecycle e = true) →
  let st0 := {| lin_map := lin_map st; lin_results := lin_results st;
                lin_stack := {| bf_snapshot := lin_map st; bf_then_state := None;
                                bf_then_returned := false |} :: lin_stack st |} in
  let st1 := fold_left (lin_step iter iter_set) thens st0 in
  let st2 := {| lin_map := lin_map st; lin_results := lin_results st1;
                lin_stack := {| bf_snapshot := lin_map st;
                                bf_then_state := Some (lin_map st1);
                                bf_then_returned := false |} :: lin_stack st |} in
  let st3 := fold_left (lin_step iter iter_set) elses st2 in
  let p := merge_vregs (lin_map st1) (iter_set (dom (lin_map st3) ∪ dom (lin_map st1)))
             (lin_map st3) [] in
  fold_left (lin_step iter iter_set) (if_else v thens elses) st =
  {| lin_map := fst p; lin_results := lin_results st3 ++ snd p; lin_stack := lin_stack st |}.
Proof.
  intros Ht He st0 st1 st2 st3 p. unfold if_else.
  rewrite !fold_left_app. cbn [fold_left]. change (lin_step iter iter_set st _) with st0.
  fold st1.
  assert (lin_stack st1 = lin_stack st0) as Hs1 by by apply lin_fold_shape, lifecycle_stretch.
  assert (lin_step iter iter_set st1 (lin_event v Ck_ElseStart) = st2) as ->.
  { unfold lin_step, lin_event. cbn [ce_kind]. by rewrite Hs1. }
  fold st3.
  assert (lin_stack st3 = lin_stack st2) as Hs3 by by apply lin_fold_shape, lifecycle_stretch.
  unfold lin_step at 1, lin_event. cbn [ce_kind]. rewrite Hs3. cbn [lin_stack st2].
  cbn [bf_then_returned bf_then_state]. rewrite merge_vregs_results. done.
Qed.
Lemma if_else_spec st v thens elses :
  (∀ e, e ∈ thens → is_lifecycle e = true) → (∀ e, e ∈ elses → is_lifecycle e = true) →
  let st' := fold_left (lin_step iter iter_set) (if_else v thens elses) st in
  lin_stack st' = lin_stack st ∧
  (lin_results st' = lin_results st →
   ∀ h, ∃ a b, handle_run (lin_map st !! h) (handle_word h thens) a ∧
     handle_run (lin_map st !! h) (handle_word h elses) b ∧
     agree_closed a b ∧ lin_map st' !! h = join_lifecycle a b) ∧
  ((∀ h, ∃ a b, handle_run (lin_map st !! h) (handle_word h thens) a ∧
     handle_run (lin_map st !! h) (handle_word h elses) b ∧ agree_closed a b) →
   lin_results st' = lin_results st).
Proof.
  intros Ht He st'. unfold st'.
  rewrite if_else_fold by done.
  set (st0 := {| lin_map := lin_map st; lin_results := _; lin_stack := _ |}).
  set (st1 := fold_left _ thens st0). set (st2 := {| lin_map := lin_map st; lin_results := _;
    lin_stack := _ |}). set (st3 := fold_left _ elses st2). cbn [lin_map lin_results lin_stack].
  pose proof (lifecycle_stretch thens st0 Ht) as Ok1.
  pose proof (lifecycle_stretch elses st2 He) as Ok2.
  destruct (merge_vregs_spec (lin_map st1) (iter_set (dom (lin_map st3) ∪ dom (lin_map st1)))
    (lin_map st3)) as [Hm Hr]; [rewrite Hset; apply NoDup_elements|].
  assert (snd (merge_vregs (lin_map st1) (iter_set (dom (lin_map st3) ∪ dom (lin_map st1)))
            (lin_map st3) []) = [] ↔
          ∀ h, agree_closed (lin_map st1 !! h) (lin_map st3 !! h)) as Hagree.
  { rewrite Hr. setoid_rewrite is_closed_agree. split; [|naive_solver].
    intros H h. destruct (decide (h ∈ dom (lin_map st3) ∪ dom (lin_map st1))) as [Hh|Hh].
    - apply H. by rewrite Hset, elem_of_elements.
    - apply not_elem_of_union in Hh as [H1%not_elem_of_dom H2%not_elem_of_dom].
      unfold agree_closed. by rewrite H1, H2. }
  destruct (lin_fold_shape thens st0 Ok1) as [_ (n1 & Hn1)].
  destruct (lin_fold_shape elses st2 Ok2) as [_ (n2 & Hn2)].
  fold st1 in Hn1. fold st3 in Hn2. cbn [lin_results st0 st2] in Hn1, Hn2.
  split; [done|]. split.
  - rewrite Hn2, Hn1, <-!app_assoc. intros Hnil%app_nil_inv h.
    apply app_nil in Hnil as [-> Hnil]. apply app_nil in Hnil as [-> Hnil].
    rewrite app_nil_r in Hn1, Hn2.
    pose proof (lin_fold_sound thens st0 Ok1 Hn1 h) as R1.
    pose proof (lin_fold_sound elses st2 Ok2 Hn2 h) as R2.
    exists (lin_map st1 !! h), (lin_map st3 !! h). split; [exact R1|]. split; [exact R2|].
    split; [by apply Hagree|]. rewrite Hm. apply join_lookup.
  - intros H.
    assert (lin_results st1 = lin_results st) as R1.
    { apply (lin_fold_complete thens st0 Ok1).
      intros h. destruct (H h) as (a & b & Ha & _). eauto. }
    assert (lin_results st3 = lin_results st2) as R2.
    { apply (lin_fold_complete elses st2 Ok2).
      intros h. destruct (H h) as (a & b & _ & Hb & _). eauto. }
    rewrite R2. cbn [lin_results st2]. rewrite R1, (proj2 Hagree); [apply app_nil_r|].
    intros h. destruct (H h) as (a & b & Ha & Hb & Hab).
    pose proof (lin_fold_sound thens st0 Ok1 R1 h) as Ra.
    pose proof (lin_fold_sound elses st2 Ok2 R2 h) as Rb.
    fold st1 in Ra. fold st3 in Rb. cbn [lin_map st0 st2] in Ra, Rb.
    by rewrite (handle_run_det _ _ _ _ Ra Ha), (handle_run_det _ _ _ _ Rb Hb).
Qed.
End orders.

(** ** Properties *)

(** C30. On code without branches the check is exact: it reports nothing if and only
    if every handle goes through opens, uses and closes in a legal order (opened
    before use, not used or closed after its close, not reopened while open) and is
    not open at any function exit; for every order of the tables' walks. *)
Theorem verify_linear_channels_straightline iter iter_set (events : list ChannelEvent) :
  (∀ m : lifecycles, iter m ≡ₚ map_to_list m) →
  (∀ s : gset string, iter_set s ≡ₚ elements s) →
  (∀ e, e ∈ events → is_plain e = true) →
  verify_linear_channels iter iter_set events = [] ↔
  ∀ v, ∃ o, handle_run None (handle_word v (sort_by_key ce_at_node events)) o.
Proof.
  intros Hiter Hset Hplain. unfold verify_linear_channels.
  assert (stretch_ok lin_init (sort_by_key ce_at_node events)) as Hok.
  { apply plain_stretch; [|done]. intros e. rewrite elem_of_sort_by_key. apply Hplain. }
  split.
  - intros H v. pose proof (lin_fold_sound iter iter_set Hiter Hset _ _ Hok H v) as Hrun.
    simpl in Hrun. rewrite lookup_empty in Hrun. eauto.
  - intros H. apply (lin_fold_complete iter iter_set Hiter Hset _ _ Hok).
    intros v. simpl. rewrite lookup_empty. apply H.
Qed.

Lemma verify_linear_channels_straightline_witness :
  ∃ o, handle_run None (handle_word "h"%string
    [lin_event "h" Ck_Open; lin_event "h" Ck_Use; lin_event "h" Ck_Close;
     lin_event "" Ck_FunctionExit]) o.
Proof.
  apply (verify_linear_channels_straightline map_to_list elements
    [lin_event "h" Ck_Open; lin_event "h" Ck_Use; lin_event "h" Ck_Close;
     lin_event "" Ck_FunctionExit]) with (v := "h"%string).
  - reflexivity.
  - reflexivity.
  - intros e He. repeat (apply elem_of_cons in He as [->|He]; [reflexivity|]).
    by apply elem_of_nil in He.
  - vm_compute. reflexivity.
Defined.

(** An [if]/[else] of straight-line arms adds no violation exactly when each
    handle's events are legal on both arms, taken from the state before the branch,
    and the arms agree on closing it; afterwards the handle is closed when both
    arms closed it, otherwise open if either arm knows it, and the branch stack is
    as before. *)
Theorem verify_linear_channels_if_else iter iter_set st v thens elses :
  (∀ m : lifecycles, iter m ≡ₚ map_to_list m) →
  (∀ s : gset string, iter_set s ≡ₚ elements s) →
  (∀ e, e ∈ thens → is_lifecycle e = true) → (∀ e, e ∈ elses → is_lifecycle e = true) →
  let st' := fold_left (lin_step iter iter_set) (if_else v thens elses) st in
  lin_stack st' = lin_stack st ∧
  (lin_results st' = lin_results st →
   ∀ h, ∃ a b, handle_run (lin_map st !! h) (handle_word h thens) a ∧
     handle_run (lin_map st !! h) (handle_word h elses) b ∧
     agree_closed a b ∧ lin_map st' !! h = join_lifecycle a b) ∧
  ((∀ h, ∃ a b, handle_run (lin_map st !! h) (handle_word h thens) a ∧
     handle_run (lin_map st !! h) (handle_word h elses) b ∧ agree_closed a b) →
   lin_results st' = lin_results st).
Proof. intros Hiter Hset. by apply if_else_spec. Qed.

Lemma verify_linear_channels_if_else_witness :
  lin_results (fold_left (lin_step map_to_list elements)
    (if_else "" [lin_event "h" Ck_Close] [lin_event "h" Ck_Use; lin_event "h" Ck_Close])
    {| lin_map := {["h" := Lc_Open]}; lin_results := []; lin_stack := [] |}) = [].
Proof.
  refine (proj2 (proj2 (verify_linear_channels_if_else map_to_list elements
    {| lin_map := {["h" := Lc_Open]}; lin_results := []; lin_stack := [] |} ""
    [lin_event "h" Ck_Close] [lin_event "h" Ck_Use; lin_event "h" Ck_Close] _ _ _ _)) _).
  - reflexivity.
  - reflexivity.
  - intros e He. apply elem_of_cons in He as [->|He]; [reflexivity|by apply elem_of_nil in He].
  - intros e He. repeat (apply elem_of_cons in He as [->|He]; [reflexivity|]).
    by apply elem_of_nil in He.
  - intros h. rewrite !handle_word_cons. unfold concerns. simpl lin_map.
    change (ce_vreg (lin_event "h" Ck_Close)) with "h".
    change (ce_vreg (lin_event "h" Ck_Use)) with "h". simpl ce_kind.
    destruct (String.eqb_spec "h" h) as [<-|Hne]; simpl.
    + exists (Some Lc_Closed), (Some Lc_Closed). rewrite lookup_singleton_eq.
      split; [repeat econstructor|]. split; [repeat econstructor|done].
    + exists None, None. rewrite lookup_singleton_ne by done.
      split; [constructor|]. split; [constructor|done].
Defined.

Lemma handle_word_own h ks : handle_word h (lin_event h <$> ks) = ks.
Proof.
  induction ks as [|k ks IH]; [done|]. rewrite fmap_cons, handle_word_cons, IH.
  unfold concerns. simpl. by rewrite String.eqb_refl, orb_true_r.
Qed.

(** The join is wrong for handles that only one arm mentions.  A handle opened
    only in the then-arm and used after the join is accepted, although on the other
    path it was never opened; and a handle opened and closed inside one arm is
    reported as leaked, although every path closes what it opens. *)
Theorem verify_linear_channels_join_one_arm iter iter_set (h v : string) :
  (∀ m : lifecycles, iter m ≡ₚ map_to_list m) →
  (∀ s : gset string, iter_set s ≡ₚ elements s) →
  (lin_results (fold_left (lin_step iter iter_set)
     (if_else v [lin_event h Ck_Open] [] ++ [lin_event h Ck_Use]) lin_init) = [] ∧
   ¬ ∃ o, handle_run None (handle_word h ([] ++ [lin_event h Ck_Use])) o) ∧
  (lin_results (fold_left (lin_step iter iter_set)
     (if_else v [lin_event h Ck_Open; lin_event h Ck_Close] []) lin_init) ≠ [] ∧
   handle_run None (handle_word h [lin_event h Ck_Open; lin_event h Ck_Close]) (Some Lc_Closed) ∧
   handle_run None (handle_word h []) None).
Proof.
  intros Hiter Hset.
  assert (∀ w k, concerns w (lin_event h k) = bool_decide (k = Ck_FunctionExit) || String.eqb h w)
    as Hc by done.
  pose proof (handle_word_own h [Ck_Open] : handle_word h [lin_event h Ck_Open] = _) as W1.
  pose proof (handle_word_own h [Ck_Open; Ck_Close] :
    handle_word h [lin_event h Ck_Open; lin_event h Ck_Close] = _) as W2.
  pose proof (handle_word_own h [Ck_Use] : handle_word h [lin_event h Ck_Use] = _) as W3.
  assert (handle_run None [Ck_Open] (Some Lc_Open)) as R1 by (repeat econstructor).
  assert (handle_run None [Ck_Open; Ck_Close] (Some Lc_Closed)) as R2 by (repeat econstructor).
  split; split.
  - destruct (if_else_spec iter iter_set Hiter Hset lin_init v [lin_event h Ck_Open] [])
      as (_ & Hs & Hcmp); [by intros e ->%list_elem_of_singleton|by intros e ?%elem_of_nil|].
    rewrite fold_left_app. cbn [fold_left].
    set (st := fold_left _ (if_else v _ []) lin_init) in *.
    assert (lin_results st = []) as Hr.
    { apply Hcmp. intros w. simpl. rewrite lookup_empty.
      destruct (String.eqb_spec h w) as [<-|Hne].
      - exists (Some Lc_Open), None. rewrite W1. split; [exact R1|]. split; [constructor|done].
      - exists None, None. rewrite handle_word_cons, Hc. apply String.eqb_neq in Hne as ->.
        split; [constructor|]. split; [constructor|done]. }
    destruct (Hs Hr h) as (a & b & Ha & Hb & _ & Hst). simpl in Ha, Hb.
    rewrite lookup_empty, W1 in Ha. rewrite lookup_empty in Hb.
    apply (handle_run_det _ _ _ _ R1) in Ha as <-.
    apply (handle_run_det _ _ _ _ (hr_nil None)) in Hb as <-.
    unfold lin_step, lin_event. cbn [ce_kind ce_vreg]. rewrite Hst. simpl.
    by rewrite Hr.
  - intros [o Ho]. rewrite app_nil_l, W3 in Ho. inversion Ho as [|? ? ? ? ? Hs]. inversion Hs.
  - intros Hr.
    destruct (if_else_spec iter iter_set Hiter Hset lin_init v
      [lin_event h Ck_Open; lin_event h Ck_Close] []) as (_ & Hs & _).
    { intros e [->|?%list_elem_of_singleton]%elem_of_cons; by subst. }
    { by intros e ?%elem_of_nil. }
    destruct (Hs Hr h) as (a & b & Ha & Hb & Hab & _). simpl in Ha, Hb.
    rewrite lookup_empty, W2 in Ha. rewrite lookup_empty in Hb.
    apply (handle_run_det _ _ _ _ R2) in Ha as <-.
    apply (handle_run_det _ _ _ _ (hr_nil None)) in Hb as <-.
    by destruct Hab as [Hab%eq_sym _].
  - split; [by rewrite W2|constructor].
Qed.

Lemma verify_linear_channels_join_one_arm_witness :
  lin_results (fold_left (lin_step map_to_list elements)
    (if_else "" [lin_event "h" Ck_Open; lin_event "h" Ck_Close] []) lin_init) ≠ [].
Proof. refine (proj1 (proj2 (verify_linear_channels_join_one_arm map_to_list elements "h" "" _ _)));
  reflexivity. Defined.
