(* ===== verification/Arena.v ===== *)
(** * Bump arena

    Models [src/src/codegen/src/runtime/{arena,arena_verified,arena_proof_model,
    pmt_check}.rs]: the runtime arena in both settings of the
    [pmt-runtime-check] feature, the extracted allocator and its hand-written
    mirror.  A trap ([exit(1)]) is [Panic].  The system allocator is outside the
    model: [alloc] and [realloc] give the block's address or fail, and appear as
    the arguments [block] of [Arena_create] and [Arena_grow]. *)

From S2P Require Import Prelude.
From stdpp Require Import options.
#[local] Open Scope Z_scope.

Record Arena := {
  ar_base : Z;
  ar_offset : Z;
  ar_capacity : Z;
  ar_created_thread : Z;
}.

(** [Layout::from_size_align(size, 8)] fails when [size] rounded up to 8
    exceeds [isize::MAX]. *)
Definition layout_for (capacity : Z) : outcome unit :=
  if capacity <=? 2 ^ 63 - 1 - 7 then Ret tt else Panic.

(** [debug_assert!] that the caller is the creating thread. *)
Definition assert_owner_thread (chk : bool) (self : Arena) (thread : Z) : outcome unit :=
  if chk && negb (thread =? ar_created_thread self) then Panic else Ret tt.

Definition Arena_create (capacity : Z) (block : option Z) (thread : Z) : outcome Arena :=
  _ ← layout_for capacity;
  match block with
  | None => Panic
  | Some base => Ret {| ar_base := base; ar_offset := 0; ar_capacity := capacity;
                        ar_created_thread := thread |}
  end.

(** [(size + 7) & !7] *)
Definition align8 (chk : bool) (size : Z) : outcome Z :=
  s ← u64_add chk size 7; mret (Z.land s (not64 7)).

Definition verified_capacity_check (used size capacity : Z) : bool :=
  match checked_add used size with Some sum => sum <=? capacity | None => false end.

Definition verified_field_bounds_check (offset size total : Z) : bool :=
  match checked_add offset size with Some sum => sum <=? total | None => false end.

Definition verified_linearity_check (var : string) (consumed : list string) : bool :=
  negb (existsb (String.eqb var) consumed).

Definition verified_pmt_check (used capacity offset size total : Z) (var : string)
    (consumed : list string) : bool :=
  verified_capacity_check used total capacity &&
  verified_field_bounds_check offset size total &&
  verified_linearity_check var consumed.

Definition Arena_with_offset (self : Arena) (offset : Z) : Arena :=
  {| ar_base := ar_base self; ar_offset := offset; ar_capacity := ar_capacity self;
     ar_created_thread := ar_created_thread self |}.

Definition Arena_alloc_raw (chk pmt_runtime_check : bool) (self : Arena) (thread size : Z) :
    outcome (Arena * Z) :=
  _ ← assert_owner_thread chk self thread;
  aligned_size ← align8 chk size;
  let ptr := ar_base self + ar_offset self in
  if pmt_runtime_check then
    if negb (verified_capacity_check (ar_offset self) aligned_size (ar_capacity self)) then Panic
    else Ret (Arena_with_offset self (wrap64 (ar_offset self + aligned_size)), ptr)
  else
    match checked_add (ar_offset self) aligned_size with
    | None => Panic
    | Some new_offset =>
        if ar_capacity self <? new_offset then Panic
        else Ret (Arena_with_offset self new_offset, ptr)
    end.

Definition Arena_grow (chk : bool) (self : Arena) (thread min_capacity : Z) (block : option Z) :
    outcome Arena :=
  _ ← assert_owner_thread chk self thread;
  if min_capacity <=? ar_capacity self then Ret self else
  _ ← layout_for min_capacity;
  match block with
  | None => Panic
  | Some new_base =>
      Ret {| ar_base := new_base; ar_offset := ar_offset self; ar_capacity := min_capacity;
             ar_created_thread := ar_created_thread self |}
  end.

Definition Arena_used (chk : bool) (self : Arena) (thread : Z) : outcome Z :=
  _ ← assert_owner_thread chk self thread; mret (ar_offset self).
Definition Arena_capacity (chk : bool) (self : Arena) (thread : Z) : outcome Z :=
  _ ← assert_owner_thread chk self thread; mret (ar_capacity self).
Definition Arena_base (chk : bool) (self : Arena) (thread : Z) : outcome Z :=
  _ ← assert_owner_thread chk self thread; mret (ar_base self).

(** ** The extracted allocator and its mirror

    The result is [(new_used, alloc_id + 1, address, alloc_id)].  The [u128] sum
    of two [u64]s does not overflow. *)
Definition arena_alloc_verified (chk : bool) (base_addr capacity used alloc_id size _align : Z) :
    outcome (option (Z * Z * Z * Z)) :=
  aligned_size ← align8 chk size;
  let new_used := used + aligned_size in
  if 2 ^ 64 <=? new_used then Ret None
  else if capacity <? new_used then Ret None
  else
    id1 ← u64_add chk alloc_id 1;
    addr ← u64_add chk base_addr used;
    mret (Some (new_used, id1, addr, alloc_id)).

(** [(((size as u128) + 7) & !7u128) as u64] *)
Definition align8_u128 (size : Z) : Z := wrap64 (Z.land (size + 7) (2 ^ 128 - 1 - 7)).

Definition lean_alloc_mirror (chk : bool) (base_addr capacity used alloc_id size _align : Z) :
    outcome (option (Z * Z * Z * Z)) :=
  let aligned_size := align8_u128 size in
  let new_used := used + aligned_size in
  if 2 ^ 64 <=? new_used then Ret None
  else if capacity <? new_used then Ret None
  else
    id1 ← u64_add chk alloc_id 1;
    addr ← u64_add chk base_addr used;
    mret (Some (new_used, id1, addr, alloc_id)).

(** ** Specification: an arena with the blocks it handed out *)

Inductive arena_op : Type :=
  | OpAlloc (size : Z)
  | OpGrow (min_capacity : Z) (block : option Z).

(** A block as (offset, requested size). *)
Definition arena_run_op (chk pmt : bool) (thread : Z) (st : Arena * list (Z * Z)) (op : arena_op) :
    outcome (Arena * list (Z * Z)) :=
  let '(a, blocks) := st in
  match op with
  | OpAlloc size =>
      '(a', _) ← Arena_alloc_raw chk pmt a thread size;
      mret (a', blocks ++ [(ar_offset a, size)])
  | OpGrow cap block => a' ← Arena_grow chk a thread cap block; mret (a', blocks)
  end.

Fixpoint arena_run (chk pmt : bool) (thread : Z) (st : Arena * list (Z * Z)) (ops : list arena_op) :
    outcome (Arena * list (Z * Z)) :=
  match ops with
  | [] => Ret st
  | op :: rest => st' ← arena_run_op chk pmt thread st op; arena_run chk pmt thread st' rest
  end.

Definition op_ok (op : arena_op) : Prop :=
  match op with
  | OpAlloc size => 0 ≤ size ≤ 2 ^ 64 - 8
  | OpGrow cap _ => is_u64 cap
  end.

(** Blocks in order, disjoint, aligned, up to the bump offset. *)
Fixpoint blocks_to (lo : Z) (blocks : list (Z * Z)) (hi : Z) : Prop :=
  match blocks with
  | [] => lo ≤ hi
  | (off, size) :: rest => lo ≤ off ∧ (8 | off) ∧ 0 ≤ size ∧ blocks_to (off + size) rest hi
  end.

Definition arena_inv (st : Arena * list (Z * Z)) : Prop :=
  let '(a, blocks) := st in
  0 ≤ ar_offset a ≤ ar_capacity a ∧ ar_capacity a < 2 ^ 64 ∧ (8 | ar_offset a) ∧
  blocks_to 0 blocks (ar_offset a).

(** ** Lemmas *)

Lemma align8_spec chk size :
  0 ≤ size ≤ 2 ^ 64 - 8 →
  ∃ r, align8 chk size = Ret r ∧ size ≤ r < size + 8 ∧ (8 | r) ∧ r ≤ 2 ^ 64 - 8.
Proof.
  intros H. exists ((size + 7) / 8 * 8). unfold align8, u64_add.
  rewrite u64_of_in by (unfold is_u64; lia). cbn [mbind outcome_bind mret outcome_ret].
  change (not64 7) with (not64 (2 ^ 3 - 1)).
  rewrite land_not64_mask by (unfold is_u64; lia). change (2 ^ 3) with 8.
  pose proof (Z.div_mod (size + 7) 8). pose proof (Z.mod_pos_bound (size + 7) 8).
  assert (8 | (size + 7) / 8 * 8) as [q Hq] by apply Z.divide_factor_r.
  split; [done|]. split; [lia|]. split; [by exists q|]. lia.
Qed.

(** Sizes within 7 of [2^64] round up to zero. *)
Lemma align8_huge size : 2 ^ 64 - 8 < size < 2 ^ 64 → align8 false size = Ret 0.
Proof.
  intros H. unfold align8, u64_add. rewrite u64_of_release.
  cbn [mbind outcome_bind mret outcome_ret].
  assert (wrap64 (size + 7) = size + 7 - 2 ^ 64) as ->.
  { unfold wrap64. replace (size + 7) with (size + 7 - 2 ^ 64 + 1 * 2 ^ 64) at 1 by lia.
    rewrite Z.mod_add, Z.mod_small by lia. done. }
  change (not64 7) with (not64 (2 ^ 3 - 1)).
  rewrite land_not64_mask by (unfold is_u64; lia). change (2 ^ 3) with 8.
  by rewrite Z.div_small by lia.
Qed.

Lemma align8_u128_eq size : 0 ≤ size < 2 ^ 64 → align8_u128 size = wrap64 ((size + 7) / 8 * 8).
Proof.
  intros H. unfold align8_u128. f_equal.
  assert (2 ^ 128 - 1 - 7 = Z.ldiff (Z.ones 128) (Z.ones 3)) as -> by done.
  rewrite Z.ldiff_land, Z.land_assoc, <-Z.ldiff_land, Z.land_ones, Z.mod_small by lia.
  by rewrite Z.ldiff_ones_r, Z.shiftl_mul_pow2, Z.shiftr_div_pow2 by lia.
Qed.

Lemma align8_mirror size : 0 ≤ size < 2 ^ 64 → align8 false size = Ret (align8_u128 size).
Proof.
  intros H. rewrite align8_u128_eq by done.
  destruct (decide (size ≤ 2 ^ 64 - 8)) as [Hs|Hs].
  - unfold align8, u64_add. rewrite u64_of_in by (unfold is_u64; lia).
    cbn [mbind outcome_bind mret outcome_ret]. change (not64 7) with (not64 (2 ^ 3 - 1)).
    rewrite land_not64_mask by (unfold is_u64; lia). change (2 ^ 3) with 8.
    rewrite wrap64_small; [done|]. pose proof (Z.div_mod (size + 7) 8).
    pose proof (Z.mod_pos_bound (size + 7) 8). unfold is_u64. lia.
  - rewrite align8_huge by lia. f_equal.
    assert ((size + 7) / 8 = 2 ^ 61) as ->; [|done].
    symmetry. apply (Z.div_unique _ _ _ (size + 7 - 2 ^ 64)); lia.
Qed.

Lemma blocks_to_le lo blocks hi : blocks_to lo blocks hi → lo ≤ hi.
Proof.
  revert lo. induction blocks as [|[off size] bs IH]; intros lo; simpl; [done|].
  intros (? & _ & ? & H%IH). lia.
Qed.

Lemma blocks_to_snoc lo blocks hi size hi' :
  blocks_to lo blocks hi → (8 | hi) → 0 ≤ size → hi + size ≤ hi' →
  blocks_to lo (blocks ++ [(hi, size)]) hi'.
Proof.
  intros H Hd Hs Hle. revert lo H. induction blocks as [|[o s] bs IH]; intros lo H; simpl in *.
  - done.
  - destruct H as (? & ? & ? & H). auto.
Qed.

Lemma blocks_to_lookup lo blocks hi i o s :
  blocks_to lo blocks hi → blocks !! i = Some (o, s) →
  lo ≤ o ∧ (8 | o) ∧ 0 ≤ s ∧ o + s ≤ hi.
Proof.
  revert lo i. induction blocks as [|[o' s'] bs IH]; intros lo i H Hi; [done|].
  simpl in H. destruct H as (? & ? & ? & H). destruct i as [|i]; simplify_eq/=.
  - apply blocks_to_le in H. done.
  - destruct (IH _ _ H Hi) as (? & ? & ? & ?). split; [lia|done].
Qed.

Lemma blocks_to_disjoint lo blocks hi i j o1 s1 o2 s2 :
  blocks_to lo blocks hi → blocks !! i = Some (o1, s1) → blocks !! j = Some (o2, s2) →
  (i < j)%nat → o1 + s1 ≤ o2.
Proof.
  revert lo i j. induction blocks as [|[o' s'] bs IH]; intros lo i j H Hi Hj Hij; [done|].
  simpl in H. destruct H as (? & ? & ? & H). destruct j as [|j]; [lia|].
  destruct i as [|i]; simplify_eq/=.
  - by eapply blocks_to_lookup in H as [? _].
  - by eapply (IH _ i j); [..|lia].
Qed.

(** What a successful allocation does, in either setting of the feature. *)
Lemma alloc_raw_spec chk pmt a thread size a' ptr :
  0 ≤ ar_offset a → ar_capacity a < 2 ^ 64 → 0 ≤ size ≤ 2 ^ 64 - 8 →
  Arena_alloc_raw chk pmt a thread size = Ret (a', ptr) →
  ptr = ar_base a + ar_offset a ∧
  ∃ r, size ≤ r < size + 8 ∧ (8 | r) ∧ a' = Arena_with_offset a (ar_offset a + r) ∧
       ar_offset a + r ≤ ar_capacity a.
Proof.
  intros Ho Hc Hs. unfold Arena_alloc_raw.
  destruct (assert_owner_thread chk a thread); [|done]. cbn [mbind outcome_bind].
  destruct (align8_spec chk size Hs) as (r & -> & Hr & Hd & _). cbn [mbind outcome_bind].
  destruct pmt; unfold verified_capacity_check;
    destruct (checked_add (ar_offset a) r) as [n|] eqn:E; simpl; try done;
    apply checked_add_Some in E as [-> Hle].
  - destruct (Z.leb_spec (ar_offset a + r) (ar_capacity a)); [|done].
    cbn [negb]. intros [= <- <-]. split; [done|]. exists r.
    rewrite wrap64_small by (unfold is_u64; lia). done.
  - destruct (Z.ltb_spec (ar_capacity a) (ar_offset a + r)); [done|].
    intros [= <- <-]. split; [done|]. by exists r.
Qed.

Lemma arena_run_op_inv chk pmt thread st op st' :
  arena_inv st → op_ok op → arena_run_op chk pmt thread st op = Ret st' → arena_inv st'.
Proof.
  destruct st as [a blocks], st' as [a' blocks']. intros (Ho & Hc & Hd & Hb) Hop.
  destruct op as [size|cap block]; simpl in *.
  - destruct (Arena_alloc_raw chk pmt a thread size) as [[a1 p]|] eqn:E; [|done].
    intros [= <- <-]. apply alloc_raw_spec in E as (_ & r & Hr & Hdr & -> & Hle); [|lia..].
    unfold Arena_with_offset. simpl. split; [lia|]. split; [lia|].
    split; [by apply Z.divide_add_r|]. apply (blocks_to_snoc _ _ _ size); [done..|lia|lia].
  - unfold Arena_grow. destruct (assert_owner_thread chk a thread); [|done].
    cbn [mbind outcome_bind]. destruct (Z.leb_spec cap (ar_capacity a)).
    { cbn [mbind outcome_bind]. by intros [= <- <-]. }
    destruct (layout_for cap); [|done]. cbn [mbind outcome_bind].
    destruct block as [nb|]; [|done]. intros [= <- <-]. simpl.
    unfold is_u64 in Hop. split; [lia|]. split; [lia|]. done.
Qed.

Lemma arena_run_inv chk pmt thread ops st st' :
  arena_inv st → Forall op_ok ops → arena_run chk pmt thread st ops = Ret st' → arena_inv st'.
Proof.
  revert st. induction ops as [|op ops IH]; intros st Hi Hf; simpl; [by intros [= <-]|].
  inversion Hf; subst. destruct (arena_run_op chk pmt thread st op) as [st1|] eqn:E; [|done].
  cbn [mbind outcome_bind]. apply IH; [by eapply arena_run_op_inv|done].
Qed.

(** ** Properties *)



(** The two settings of the [pmt-runtime-check] feature are the same allocator:
    they return the same arena and pointer or trap on the same requests. *)
Theorem Arena_alloc_raw_feature_equiv (chk : bool) (a : Arena) (thread size : Z) :
  0 ≤ ar_offset a → ar_capacity a < 2 ^ 64 → 0 ≤ size < 2 ^ 64 →
  Arena_alloc_raw chk true a thread size = Arena_alloc_raw chk false a thread size.
Proof.
  intros Ho Hc Hs. unfold Arena_alloc_raw.
  destruct (assert_owner_thread chk a thread); [|done]. cbn [mbind outcome_bind].
  destruct (align8 chk size) as [r|] eqn:E; [|done]. cbn [mbind outcome_bind].
  assert (0 ≤ r) as Hr.
  { unfold align8 in E. destruct (u64_add chk size 7) as [s|] eqn:Es; [|done].
    injection E as <-. apply u64_of_range in Es. apply Z.land_nonneg. left.
    unfold is_u64 in Es. lia. }
  unfold verified_capacity_check.
  destruct (checked_add (ar_offset a) r) as [n|] eqn:Ea; [|done].
  apply checked_add_Some in Ea as [-> Hle].
  destruct (Z.leb_spec (ar_offset a + r) (ar_capacity a));
    destruct (Z.ltb_spec (ar_capacity a) (ar_offset a + r)); try lia; [|done].
  cbn [negb]. rewrite wrap64_small by (unfold is_u64, U64_MAX in *; lia). done.
Qed.

Lemma Arena_alloc_raw_feature_equiv_witness :
  let a := {| ar_base := 0; ar_offset := 8; ar_capacity := 64; ar_created_thread := 1 |} in
  Arena_alloc_raw true true a 1 20 = Arena_alloc_raw true false a 1 20.
Proof. apply Arena_alloc_raw_feature_equiv; simpl; lia. Defined.

(** The extracted allocator and its hand-written mirror agree on every input in
    a release build, the agreement the test suite samples; in a build with overflow
    checks they differ exactly on requests of more than [2^64 - 8] bytes, where the
    extracted code panics. *)
Theorem arena_alloc_verified_mirror (base_addr capacity used alloc_id size align : Z) :
  is_u64 size →
  arena_alloc_verified false base_addr capacity used alloc_id size align =
    lean_alloc_mirror false base_addr capacity used alloc_id size align ∧
  (size ≤ 2 ^ 64 - 8 →
     arena_alloc_verified true base_addr capacity used alloc_id size align =
       lean_alloc_mirror true base_addr capacity used alloc_id size align) ∧
  (2 ^ 64 - 8 < size → is_u64 (alloc_id + 1) → is_u64 (base_addr + used) →
     arena_alloc_verified true base_addr capacity used alloc_id size align = Panic ∧
     lean_alloc_mirror true base_addr capacity used alloc_id size align ≠ Panic).
Proof.
  intros Hs. unfold is_u64 in Hs. unfold arena_alloc_verified, lean_alloc_mirror.
  pose proof (align8_mirror size Hs) as Hm. split; [by rewrite Hm|]. split.
  - intros Hle. destruct (align8_spec true size) as (r & Hr & _); [lia|].
    assert (align8 false size = Ret r) as Hf.
    { unfold align8, u64_add in *. rewrite (u64_of_in true (size + 7)) in Hr by (unfold is_u64; lia).
      by rewrite (u64_of_in false (size + 7)) by (unfold is_u64; lia). }
    rewrite Hm in Hf. injection Hf as Hf. by rewrite Hr, Hf.
  - intros Hgt H1 H2. split.
    + assert (align8 true size = Panic) as ->; [|done].
      unfold align8, u64_add, u64_of. rewrite decide_False; [done|]. unfold is_u64. lia.
    + unfold u64_add. rewrite !u64_of_in by done. by repeat case_match.
Qed.

Lemma arena_alloc_verified_mirror_witness :
  arena_alloc_verified false 4096 64 8 1 20 8 = lean_alloc_mirror false 4096 64 8 1 20 8.
Proof.
  refine (proj1 (arena_alloc_verified_mirror 4096 64 8 1 20 8 _)). unfold is_u64. lia.
Defined.

(** In a release build a request of more than [2^64 - 8] bytes is rounded to
    zero: [alloc_raw], the extracted allocator and its mirror all grant it without
    reserving anything, so the block they return overlaps the next one. *)
Theorem arena_huge_alloc_granted (pmt : bool) (a : Arena) (thread size alloc_id align : Z) :
  2 ^ 64 - 8 < size < 2 ^ 64 → 0 ≤ ar_offset a ≤ ar_capacity a → ar_capacity a < 2 ^ 64 →
  Arena_alloc_raw false pmt a thread size = Ret (a, ar_base a + ar_offset a) ∧
  arena_alloc_verified false (ar_base a) (ar_capacity a) (ar_offset a) alloc_id size align =
    Ret (Some (ar_offset a, wrap64 (alloc_id + 1), wrap64 (ar_base a + ar_offset a), alloc_id)).
Proof.
  intros Hs Ho Hc. split.
  - unfold Arena_alloc_raw, assert_owner_thread. cbn [andb mbind outcome_bind].
    rewrite align8_huge by done. cbn [mbind outcome_bind].
    assert (checked_add (ar_offset a) 0 = Some (ar_offset a)) as E.
    { apply checked_add_Some. unfold U64_MAX. lia. }
    assert (Arena_with_offset a (ar_offset a) = a) as Ea by by destruct a.
    unfold verified_capacity_check. rewrite E.
    destruct pmt.
    + rewrite (proj2 (Z.leb_le _ _)) by lia. cbn [negb].
      by rewrite Z.add_0_r, wrap64_small, Ea by (unfold is_u64; lia).
    + by rewrite (proj2 (Z.ltb_ge _ _)), Ea by lia.
  - unfold arena_alloc_verified. rewrite align8_huge by done. cbn [mbind outcome_bind].
    rewrite Z.add_0_r, (proj2 (Z.leb_gt _ _)), (proj2 (Z.ltb_ge _ _)) by lia.
    unfold u64_add. by rewrite !u64_of_release.
Qed.

Lemma arena_huge_alloc_granted_witness :
  let a := {| ar_base := 4096; ar_offset := 8; ar_capacity := 64; ar_created_thread := 1 |} in
  Arena_alloc_raw false false a 1 (2 ^ 64 - 1) = Ret (a, 4104).
Proof. refine (proj1 (arena_huge_alloc_granted false _ 1 (2 ^ 64 - 1) 0 8 _ _ _)); simpl; lia. Defined.
