(* ===== verification/Digraph.v ===== *)
(** * Directed graphs

    Models [src/src/scg/src/digraph.rs]: the slot-based directed graph the
    semantic computation graph is stored in, with stable indices, and the
    traversals [toposort] and [has_path_connecting].  A removed node or edge
    leaves an empty slot.  The [while] loops of the traversals run on fuel, one
    unit per slot and one more, and running out is a [Panic]; the theorems show
    that they never run out. *)

From S2P Require Import Prelude.
From stdpp Require Import options.

(** ** Data *)

Notation NodeIndex := nat (only parsing).
Notation EdgeIndex := nat (only parsing).

Inductive Direction : Type := Outgoing | Incoming.

Record NodeEntry (N : Type) := NodeEntry_mk {
  ne_weight : N;
  adj_out : list nat;
  adj_in : list nat;
}.
Arguments NodeEntry_mk {N} _ _ _.
Arguments ne_weight {N} _.
Arguments adj_out {N} _.
Arguments adj_in {N} _.

Record EdgeEntry (E : Type) := EdgeEntry_mk {
  ee_weight : E;
  ee_source : nat;
  ee_target : nat;
}.
Arguments EdgeEntry_mk {E} _ _ _.
Arguments ee_weight {E} _.
Arguments ee_source {E} _.
Arguments ee_target {E} _.

Record EdgeReference (E : Type) := EdgeReference_mk {
  er_id : EdgeIndex;
  er_source : NodeIndex;
  er_target : NodeIndex;
  er_weight : E;
}.
Arguments EdgeReference_mk {E} _ _ _ _.
Arguments er_id {E} _.
Arguments er_source {E} _.
Arguments er_target {E} _.
Arguments er_weight {E} _.

Record DiGraph (N E : Type) := DiGraph_mk {
  dg_nodes : list (option (NodeEntry N));
  dg_edges : list (option (EdgeEntry E));
  num_nodes : nat;
  num_edges : nat;
}.
Arguments DiGraph_mk {N E} _ _ _ _.
Arguments dg_nodes {N E} _.
Arguments dg_edges {N E} _.
Arguments num_nodes {N E} _.
Arguments num_edges {N E} _.

Definition DiGraph_new {N E} : DiGraph N E := DiGraph_mk [] [] 0 0.

(** [self.nodes.get(i)] flattened, and the same for edges. *)
Definition node_at {N E} (g : DiGraph N E) (i : nat) : option (NodeEntry N) :=
  mjoin (dg_nodes g !! i).
Definition edge_at {N E} (g : DiGraph N E) (e : nat) : option (EdgeEntry E) :=
  mjoin (dg_edges g !! e).

(** ** Operations *)

Definition add_node {N E} (g : DiGraph N E) (weight : N) : DiGraph N E * NodeIndex :=
  (DiGraph_mk (dg_nodes g ++ [Some (NodeEntry_mk weight [] [])]) (dg_edges g)
     (S (num_nodes g)) (num_edges g),
   length (dg_nodes g)).

Definition push_out {N} (eidx : nat) (n : NodeEntry N) : NodeEntry N :=
  NodeEntry_mk (ne_weight n) (adj_out n ++ [eidx]) (adj_in n).
Definition push_in {N} (eidx : nat) (n : NodeEntry N) : NodeEntry N :=
  NodeEntry_mk (ne_weight n) (adj_out n) (adj_in n ++ [eidx]).
Definition retain_out {N} (eidx : nat) (n : NodeEntry N) : NodeEntry N :=
  NodeEntry_mk (ne_weight n) (filter (λ x, x ≠ eidx) (adj_out n)) (adj_in n).
Definition retain_in {N} (eidx : nat) (n : NodeEntry N) : NodeEntry N :=
  NodeEntry_mk (ne_weight n) (adj_out n) (filter (λ x, x ≠ eidx) (adj_in n)).

(** [if let Some(Some(x)) = self.nodes.get_mut(i) { f(x) }] *)
Definition update_node {N} (f : NodeEntry N → NodeEntry N) (i : nat)
    (nodes : list (option (NodeEntry N))) : list (option (NodeEntry N)) :=
  alter (fmap f) i nodes.

(** The [debug_assert!]s are active in the builds that check overflow. *)
Definition add_edge {N E} (chk : bool) (g : DiGraph N E) (a b : NodeIndex) (weight : E) :
    outcome (DiGraph N E * EdgeIndex) :=
  if chk && negb (is_some (node_at g a) && is_some (node_at g b)) then Panic else
  let eidx := length (dg_edges g) in
  Ret (DiGraph_mk (update_node (push_in eidx) b (update_node (push_out eidx) a (dg_nodes g)))
         (dg_edges g ++ [Some (EdgeEntry_mk weight a b)])
         (num_nodes g) (S (num_edges g)),
       eidx).

Definition remove_edge_inner {N E} (g : DiGraph N E) (eidx : nat) : DiGraph N E * option E :=
  match edge_at g eidx with
  | None => (g, None)
  | Some entry =>
      (DiGraph_mk
         (update_node (retain_in eidx) (ee_target entry)
            (update_node (retain_out eidx) (ee_source entry) (dg_nodes g)))
         (<[eidx := None]> (dg_edges g))
         (num_nodes g) (num_edges g - 1),
       Some (ee_weight entry))
  end.

Definition remove_edge {N E} (g : DiGraph N E) (e : EdgeIndex) : DiGraph N E * option E :=
  remove_edge_inner g e.

Definition remove_node {N E} (g : DiGraph N E) (n : NodeIndex) : DiGraph N E * option N :=
  match node_at g n with
  | None => (g, None)
  | Some entry =>
      let g := DiGraph_mk (<[n := None]> (dg_nodes g)) (dg_edges g) (num_nodes g) (num_edges g) in
      let connected := adj_out entry ++ adj_in entry in
      let g := fold_left (λ g eidx, fst (remove_edge_inner g eidx)) connected g in
      (DiGraph_mk (dg_nodes g) (dg_edges g) (num_nodes g - 1) (num_edges g),
       Some (ne_weight entry))
  end.

Definition node_weight {N E} (g : DiGraph N E) (n : NodeIndex) : option N :=
  ne_weight <$> node_at g n.
Definition edge_weight {N E} (g : DiGraph N E) (e : EdgeIndex) : option E :=
  ee_weight <$> edge_at g e.
Definition node_count {N E} (g : DiGraph N E) : nat := num_nodes g.
Definition edge_count {N E} (g : DiGraph N E) : nat := num_edges g.

(** The indices of the occupied slots. *)
Definition occupied {A} (l : list (option A)) : list nat :=
  List.filter (λ i, is_some (mjoin (l !! i))) (seq 0 (length l)).
Definition node_indices {N E} (g : DiGraph N E) : list NodeIndex := occupied (dg_nodes g).
Definition edge_indices {N E} (g : DiGraph N E) : list EdgeIndex := occupied (dg_edges g).
Definition node_weights {N E} (g : DiGraph N E) : list N :=
  omap (fmap ne_weight) (dg_nodes g).
Definition edge_weights {N E} (g : DiGraph N E) : list E :=
  omap (fmap ee_weight) (dg_edges g).

Definition adjacency {N} (n : NodeEntry N) (dir : Direction) : list nat :=
  match dir with Outgoing => adj_out n | Incoming => adj_in n end.

Definition edges_directed {N E} (g : DiGraph N E) (n : NodeIndex) (dir : Direction) :
    list (EdgeReference E) :=
  match node_at g n with
  | None => []
  | Some entry =>
      omap (λ eidx, (λ en, EdgeReference_mk eidx (ee_source en) (ee_target en) (ee_weight en))
                    <$> edge_at g eidx) (adjacency entry dir)
  end.

Definition neighbors_directed {N E} (g : DiGraph N E) (n : NodeIndex) (dir : Direction) :
    list NodeIndex :=
  match node_at g n with
  | None => []
  | Some entry =>
      omap (λ eidx, (λ en, match dir with Outgoing => ee_target en | Incoming => ee_source en end)
                    <$> edge_at g eidx) (adjacency entry dir)
  end.

Definition neighbors {N E} (g : DiGraph N E) (n : NodeIndex) : list NodeIndex :=
  neighbors_directed g n Outgoing.

Definition find_edge {N E} (g : DiGraph N E) (a b : NodeIndex) : option EdgeIndex :=
  match node_at g a with
  | None => None
  | Some entry =>
      find (λ eidx, match edge_at g eidx with
                    | Some en => ee_target en =? b | None => false end)%nat (adj_out entry)
  end.

Definition contains_edge {N E} (g : DiGraph N E) (a b : NodeIndex) : bool :=
  is_some (find_edge g a b).

Definition DiGraph_clear {N E} (g : DiGraph N E) : DiGraph N E := DiGraph_mk [] [] 0 0.

(** ** Topological sort

    The stack's top is the head of the list. *)

(** [for eidx in out { ... }]; [in_degree[v]] out of range panics. *)
Fixpoint topo_relax {N E} (g : DiGraph N E) (out : list nat) (in_degree stack : list nat) :
    outcome (list nat * list nat) :=
  match out with
  | [] => Ret (in_degree, stack)
  | eidx :: rest =>
      match edge_at g eidx with
      | None => topo_relax g rest in_degree stack
      | Some en =>
          let v := ee_target en in
          match in_degree !! v with
          | None => Panic
          | Some O => topo_relax g rest in_degree stack
          | Some (S d) =>
              topo_relax g rest (<[v := d]> in_degree) (if (d =? 0)%nat then v :: stack else stack)
          end
      end
  end.

Fixpoint topo_loop {N E} (fuel : nat) (g : DiGraph N E) (in_degree stack res : list nat) :
    outcome (list nat * list nat) :=
  match stack with
  | [] => Ret (in_degree, res)
  | u :: stack' =>
      match fuel with
      | O => Panic
      | S fuel' =>
          let res := res ++ [u] in
          match node_at g u with
          | None => topo_loop fuel' g in_degree stack' res
          | Some entry =>
              '(in_degree, stack) ← topo_relax g (adj_out entry) in_degree stack';
              topo_loop fuel' g in_degree stack res
          end
      end
  end.

Definition initial_in_degree {N E} (g : DiGraph N E) : list nat :=
  map (λ i, match node_at g i with Some e => length (adj_in e) | None => 0%nat end)
      (seq 0 (length (dg_nodes g))).

Definition degree_of (in_degree : list nat) (i : nat) : nat := default 0%nat (in_degree !! i).

Definition toposort {N E} (g : DiGraph N E) : outcome (result (list NodeIndex) NodeIndex) :=
  let n := length (dg_nodes g) in
  let in_degree := initial_in_degree g in
  let stack := reverse (List.filter (λ i, is_some (node_at g i) &&
                          (degree_of in_degree i =? 0)%nat) (seq 0 n)) in
  '(in_degree, res) ← topo_loop (S n) g in_degree stack [];
  if (length res =? num_nodes g)%nat then Ret (Ok res)
  else Ret (Err (default 0%nat
         (find (λ i, is_some (node_at g i) && (0 <? degree_of in_degree i)%nat) (seq 0 n)))).

(** ** Reachability *)

(** [None]: the target was found. *)
Fixpoint bfs_scan {N E} (g : DiGraph N E) (to : nat) (out : list nat) (visited : list bool)
    (queue : list nat) : outcome (option (list bool * list nat)) :=
  match out with
  | [] => Ret (Some (visited, queue))
  | eidx :: rest =>
      match edge_at g eidx with
      | None => bfs_scan g to rest visited queue
      | Some en =>
          let w := ee_target en in
          if (w =? to)%nat then Ret None else
          match visited !! w with
          | None => Panic
          | Some true => bfs_scan g to rest visited queue
          | Some false => bfs_scan g to rest (<[w := true]> visited) (queue ++ [w])
          end
      end
  end.

Fixpoint bfs_loop {N E} (fuel : nat) (g : DiGraph N E) (to : nat) (visited : list bool)
    (queue : list nat) : outcome bool :=
  match queue with
  | [] => Ret false
  | u :: queue' =>
      match fuel with
      | O => Panic
      | S fuel' =>
          match node_at g u with
          | None => bfs_loop fuel' g to visited queue'
          | Some entry =>
              r ← bfs_scan g to (adj_out entry) visited queue';
              match r with
              | None => Ret true
              | Some (visited, queue) => bfs_loop fuel' g to visited queue
              end
          end
      end
  end.

(** A freed slot: [get(i).is_some_and(|s| s.is_none())]. *)
Definition freed {N E} (g : DiGraph N E) (i : nat) : bool :=
  match dg_nodes g !! i with Some None => true | _ => false end.

Definition has_path_connecting {N E} (g : DiGraph N E) (from to : NodeIndex) : outcome bool :=
  if freed g from || freed g to then Ret false
  else if (from =? to)%nat then Ret true
  else
    let n := length (dg_nodes g) in
    let visited := replicate n false in
    match visited !! from with
    | None => Panic
    | Some _ => bfs_loop (S n) g to (<[from := true]> visited) [from]
    end.

(** ** Specification *)

Definition live {A} (l : list (option A)) : nat := length (omap id l).

(** Adjacency lists hold exactly the live edges of their node, once each. *)
Definition adj_ok {N E} (g : DiGraph N E) : Prop :=
  ∀ i n, node_at g i = Some n →
    (NoDup (adj_out n) ∧
     ∀ e, e ∈ adj_out n ↔ ∃ en, edge_at g e = Some en ∧ ee_source en = i) ∧
    (NoDup (adj_in n) ∧
     ∀ e, e ∈ adj_in n ↔ ∃ en, edge_at g e = Some en ∧ ee_target en = i).

Definition ends_ok {N E} (g : DiGraph N E) : Prop :=
  ∀ e en, edge_at g e = Some en →
    is_Some (node_at g (ee_source en)) ∧ is_Some (node_at g (ee_target en)).

Record graph_ok {N E} (g : DiGraph N E) : Prop := {
  go_adj : adj_ok g;
  go_ends : ends_ok g;
  go_nodes : num_nodes g = live (dg_nodes g);
  go_edges : num_edges g = live (dg_edges g);
}.

Inductive graph_op (N E : Type) : Type :=
  | GAddNode (w : N) | GAddEdge (a b : nat) (w : E) | GRemoveNode (n : nat) | GRemoveEdge (e : nat).
Arguments GAddNode {N E} _.
Arguments GAddEdge {N E} _ _ _.
Arguments GRemoveNode {N E} _.
Arguments GRemoveEdge {N E} _.

Definition graph_step {N E} (g : DiGraph N E) (op : graph_op N E) : outcome (DiGraph N E) :=
  match op with
  | GAddNode w => Ret (fst (add_node g w))
  | GAddEdge a b w => fst <$> add_edge true g a b w
  | GRemoveNode n => Ret (fst (remove_node g n))
  | GRemoveEdge e => Ret (fst (remove_edge g e))
  end.

Inductive graph_reachable {N E} : DiGraph N E → Prop :=
  | gr_new : graph_reachable DiGraph_new
  | gr_step g op g' : graph_reachable g → graph_step g op = Ret g' → graph_reachable g'.

Definition has_edge {N E} (g : DiGraph N E) (a b : nat) : Prop :=
  ∃ e en, edge_at g e = Some en ∧ ee_source en = a ∧ ee_target en = b.

(** Every edge goes from an earlier to a later position. *)
Definition topo_ordered {N E} (g : DiGraph N E) (order : list nat) : Prop :=
  ∀ a b j, has_edge g a b → order !! j = Some b → ∃ i, (i < j)%nat ∧ order !! i = Some a.

(** A numbering that grows along every edge exists exactly on acyclic graphs. *)
Definition acyclic {N E} (g : DiGraph N E) : Prop :=
  ∃ rank : nat → nat, ∀ a b, has_edge g a b → (rank a < rank b)%nat.

Definition path {N E} (g : DiGraph N E) : nat → nat → Prop := rtc (has_edge g).

(** An example. *)
Definition three_nodes : DiGraph unit unit :=
  fst (add_node (fst (add_node (fst (add_node DiGraph_new tt)) tt)) tt).

(** ** Slot lemmas *)

Lemma mjoin_snoc {A} (l : list (option A)) x i :
  mjoin ((l ++ [Some x]) !! i) = if decide (i = length l) then Some x else mjoin (l !! i).
Proof.
  destruct (decide (i = length l)) as [->|Hne]; [by rewrite list_lookup_middle|].
  destruct (decide (i < length l)%nat).
  - by rewrite lookup_app_l.
  - rewrite lookup_ge_None_2, (lookup_ge_None_2 l) by (rewrite ?length_app; simpl; lia). done.
Qed.

Lemma mjoin_clear {A} (l : list (option A)) j i :
  mjoin (<[j := None]> l !! i) = if decide (i = j) then None else mjoin (l !! i).
Proof.
  destruct (decide (i = j)) as [->|Hne]; [|by rewrite list_lookup_insert_ne].
  destruct (decide (j < length l)%nat).
  - by rewrite list_lookup_insert_eq.
  - by rewrite lookup_ge_None_2 by (rewrite length_insert; lia).
Qed.

Lemma mjoin_update {N} (f : NodeEntry N → NodeEntry N) j l i :
  mjoin (update_node f j l !! i) =
  if decide (i = j) then f <$> mjoin (l !! i) else mjoin (l !! i).
Proof.
  unfold update_node. destruct (decide (i = j)) as [->|Hne].
  - rewrite list_lookup_alter_eq. by destruct (l !! j) as [[]|].
  - by rewrite list_lookup_alter_ne.
Qed.

Lemma live_snoc {A} (l : list (option A)) x : live (l ++ [Some x]) = S (live l).
Proof. unfold live. rewrite omap_app, length_app. simpl. lia. Qed.

Lemma live_clear {A} (l : list (option A)) i x :
  mjoin (l !! i) = Some x → live l = S (live (<[i := None]> l)).
Proof.
  unfold live. revert i. induction l as [|y l IH]; intros i H; [done|].
  destruct i as [|i]; [simpl in H; by subst|]. specialize (IH i H).
  destruct y as [a|].
  - change (S (length (omap id l)) = S (S (length (omap id (<[i:=None]> l))))). by f_equal.
  - exact IH.
Qed.

Lemma live_update {N} (f : NodeEntry N → NodeEntry N) j l : live (update_node f j l) = live l.
Proof.
  unfold live, update_node. revert j. induction l as [|y l IH]; intros j; [done|].
  destruct j as [|j]; [by destruct y|]. specialize (IH j).
  destruct y as [a|]; [|exact IH].
  change (S (length (omap id (alter (fmap f) j l))) = S (length (omap id l))). by f_equal.
Qed.

Lemma elem_of_occupied {A} (l : list (option A)) i : i ∈ occupied l ↔ is_Some (mjoin (l !! i)).
Proof.
  unfold occupied. rewrite list_elem_of_In, List.filter_In, in_seq, is_some_spec. split; [tauto|].
  intros H. split; [|done]. split; [lia|]. simpl.
  destruct (l !! i) eqn:E; [by apply lookup_lt_Some in E|]. by destruct H.
Qed.

Lemma occupied_NoDup {A} (l : list (option A)) : NoDup (occupied l).
Proof. unfold occupied. apply NoDup_ListNoDup, List.NoDup_filter, seq_NoDup. Qed.

Lemma occupied_length {A} (l : list (option A)) : length (occupied l) = live l.
Proof.
  unfold occupied, live. induction l as [|x l IH] using rev_ind; [done|].
  rewrite length_app, seq_app, List.filter_app, length_app, omap_app, length_app.
  replace (length (omap id l)) with (length (List.filter (λ i, is_some (mjoin (l !! i))) (seq 0 (length l))))
    by done.
  f_equal.
  - f_equal. apply List.filter_ext_in. intros i Hi. apply in_seq in Hi.
    by rewrite lookup_app_l by lia.
  - simpl. rewrite list_lookup_middle by done. by destruct x.
Qed.

Lemma elem_of_node_indices {N E} (g : DiGraph N E) i : i ∈ node_indices g ↔ is_Some (node_at g i).
Proof. apply elem_of_occupied. Qed.

Lemma node_at_lt {N E} (g : DiGraph N E) i : is_Some (node_at g i) → (i < length (dg_nodes g))%nat.
Proof.
  unfold node_at. intros H. destruct (dg_nodes g !! i) eqn:Ei; [by apply lookup_lt_Some in Ei|].
  by destruct H.
Qed.

Lemma edge_at_lt {N E} (g : DiGraph N E) e en :
  edge_at g e = Some en → (e < length (dg_edges g))%nat.
Proof.
  unfold edge_at. intros H. destruct (dg_edges g !! e) eqn:Ee; [by apply lookup_lt_Some in Ee|done].
Qed.

(** ** Preservation *)

#[local] Set Default Proof Using "Type*".

Section graph.
  Context {N E : Type}.
  Implicit Types g : DiGraph N E.

Lemma add_node_at g w i :
  node_at (fst (add_node g w)) i =
  if decide (i = length (dg_nodes g)) then Some (NodeEntry_mk w [] []) else node_at g i.
Proof. apply mjoin_snoc. Qed.

Lemma add_node_ok g w : graph_ok g → graph_ok (fst (add_node g w)).
Proof.
  intros [Ha He Hn Hm]. split.
  - intros i n. rewrite add_node_at. case_decide as Hi; [|apply Ha].
    intros [= <-]. simpl. assert (∀ e en, edge_at g e = Some en →
      ee_source en ≠ i ∧ ee_target en ≠ i) as Hfresh.
    { intros e en Hen. apply He in Hen as [H1%node_at_lt H2%node_at_lt]. lia. }
    split; (split; [constructor|]); intros e; (split; [by intros ?%elem_of_nil|]);
      intros (en & Hen & Hs); by apply Hfresh in Hen as [??].
  - intros e en Hen. rewrite !add_node_at. apply He in Hen as [??].
    split; case_decide; eauto.
  - simpl. by rewrite live_snoc, Hn.
  - done.
Qed.

Lemma NoDup_snoc_fresh (l : list nat) e : NoDup l → e ∉ l → NoDup (l ++ [e]).
Proof.
  intros H1 H2. apply NoDup_app. split; [done|]. split; [|apply NoDup_singleton].
  by intros x Hx ->%list_elem_of_singleton.
Qed.

Lemma add_edge_ok g a b w g' e : graph_ok g → add_edge true g a b w = Ret (g', e) → graph_ok g'.
Proof.
  intros [Ha He Hn Hm]. unfold add_edge.
  destruct (is_some (node_at g a)) eqn:Ea, (is_some (node_at g b)) eqn:Eb; try done.
  apply is_some_spec in Ea, Eb. cbn [andb negb]. intros [= <- <-].
  set (k := length (dg_edges g)).
  assert (∀ x en, edge_at g x = Some en → x ≠ k) as Hfresh.
  { intros x en Hx%edge_at_lt. unfold k. lia. }
  split.
  - intros i n. unfold node_at, edge_at. simpl. rewrite !mjoin_update. setoid_rewrite mjoin_snoc.
    fold k. intros Hi.
    assert (∃ m, node_at g i = Some m ∧
      adj_out n = adj_out m ++ (if decide (i = a) then [k] else []) ∧
      adj_in n = adj_in m ++ (if decide (i = b) then [k] else [])) as (m & Hm' & Ho & Hin).
    { unfold node_at. destruct (mjoin (dg_nodes g !! i)) as [m|].
      - exists m. split; [done|]. repeat case_decide; simplify_eq/=; by rewrite ?app_nil_r.
      - repeat case_decide; simplify_eq/=. }
    destruct (Ha i m Hm') as [[Hnd1 Hout] [Hnd2 Hinn]].
    assert (k ∉ adj_out m) as F1 by (intros (en & Hx & _)%Hout; by apply Hfresh in Hx).
    assert (k ∉ adj_in m) as F2 by (intros (en & Hx & _)%Hinn; by apply Hfresh in Hx).
    rewrite Ho, Hin. clear Hi Ho Hin. split; split.
    + case_decide; [by apply NoDup_snoc_fresh|by rewrite app_nil_r].
    + intros x. rewrite elem_of_app, Hout. unfold edge_at. split.
      * intros [(en & Hx & Hs)|Hx].
        -- exists en. rewrite decide_False by by eapply Hfresh. done.
        -- case_decide; [|by apply elem_of_nil in Hx]. apply list_elem_of_singleton in Hx as ->.
           eexists. by rewrite decide_True.
      * intros (en & Hx & Hs). case_decide; [|by left; eauto]. simplify_eq/=.
        right. rewrite decide_True by done. by left.
    + case_decide; [by apply NoDup_snoc_fresh|by rewrite app_nil_r].
    + intros x. rewrite elem_of_app, Hinn. unfold edge_at. split.
      * intros [(en & Hx & Hs)|Hx].
        -- exists en. rewrite decide_False by by eapply Hfresh. done.
        -- case_decide; [|by apply elem_of_nil in Hx]. apply list_elem_of_singleton in Hx as ->.
           eexists. by rewrite decide_True.
      * intros (en & Hx & Hs). case_decide; [|by left; eauto]. simplify_eq/=.
        right. rewrite decide_True by done. by left.
  - assert (∀ i, is_Some (node_at g i) → is_Some (mjoin (update_node (push_in k) b
      (update_node (push_out k) a (dg_nodes g)) !! i))) as Hlive.
    { intros i Hi. rewrite !mjoin_update. unfold node_at in Hi.
      repeat case_decide; rewrite ?fmap_is_Some; done. }
    intros x en. unfold edge_at, node_at. simpl. rewrite mjoin_snoc. case_decide.
    + intros [= <-]. simpl. split; by apply Hlive.
    + intros Hx. apply He in Hx as [??]. split; by apply Hlive.
  - simpl. by rewrite !live_update.
  - simpl. by rewrite live_snoc, Hm.
Qed.

(** Removing an edge keeps the adjacency lists exact, whatever nodes are dead. *)
Lemma remove_edge_at g k x :
  edge_at (fst (remove_edge_inner g k)) x = if decide (x = k) then None else edge_at g x.
Proof.
  unfold remove_edge_inner. destruct (edge_at g k) eqn:Ek; [apply mjoin_clear|].
  simpl. case_decide; [by subst|done].
Qed.

Lemma remove_edge_node g k i n :
  node_at (fst (remove_edge_inner g k)) i = Some n →
  ∃ m, node_at g i = Some m ∧
    adj_out n = (if decide (ee_source <$> edge_at g k = Some i)
                 then filter (λ x, x ≠ k) (adj_out m) else adj_out m) ∧
    adj_in n = (if decide (ee_target <$> edge_at g k = Some i)
                then filter (λ x, x ≠ k) (adj_in m) else adj_in m).
Proof.
  unfold remove_edge_inner. destruct (edge_at g k) as [en|] eqn:Ek; simpl.
  2:{ intros Hn. exists n. done. }
  unfold node_at. simpl. rewrite !mjoin_update.
  destruct (mjoin (dg_nodes g !! i)) as [m|]; [|by repeat case_decide].
  intros Hn. exists m. split; [done|]. repeat case_decide; simplify_eq/=; try done; congruence.
Qed.

Lemma remove_edge_live g k i :
  is_Some (node_at (fst (remove_edge_inner g k)) i) ↔ is_Some (node_at g i).
Proof.
  unfold remove_edge_inner. destruct (edge_at g k) as [en|] eqn:Ek; [|done].
  unfold node_at. simpl. rewrite !mjoin_update. repeat case_decide; by rewrite ?fmap_is_Some.
Qed.

Lemma remove_edge_adj g k : adj_ok g → adj_ok (fst (remove_edge_inner g k)).
Proof.
  intros Ha i n Hn. apply remove_edge_node in Hn as (m & Hm & Ho & Hi).
  destruct (Ha i m Hm) as [[Hnd1 Hout] [Hnd2 Hin]]. rewrite Ho, Hi. clear Ho Hi. split; split.
  - case_decide; [by apply NoDup_filter|done].
  - intros x. setoid_rewrite remove_edge_at. case_decide as Hs.
    + rewrite list_elem_of_filter, Hout. case_decide; naive_solver.
    + rewrite Hout. case_decide as Hx; [|done]. subst x. split; [|naive_solver].
      intros (en & Hen & He). destruct Hs. by rewrite Hen, <-He.
  - case_decide; [by apply NoDup_filter|done].
  - intros x. setoid_rewrite remove_edge_at. case_decide as Hs.
    + rewrite list_elem_of_filter, Hin. case_decide; naive_solver.
    + rewrite Hin. case_decide as Hx; [|done]. subst x. split; [|naive_solver].
      intros (en & Hen & He). destruct Hs. by rewrite Hen, <-He.
Qed.

Lemma remove_edge_counts g k :
  num_nodes g = live (dg_nodes g) → num_edges g = live (dg_edges g) →
  let g' := fst (remove_edge_inner g k) in
  num_nodes g' = live (dg_nodes g') ∧ num_edges g' = live (dg_edges g') ∧
  num_nodes g' = num_nodes g ∧ live (dg_nodes g') = live (dg_nodes g).
Proof.
  intros Hn He. unfold remove_edge_inner. destruct (edge_at g k) as [en|] eqn:Ek; [|done].
  simpl. rewrite !live_update. split; [done|]. split; [|done].
  rewrite He, (live_clear _ _ _ Ek). lia.
Qed.

(** All edges but the pending ones have both ends alive. *)
Definition ends_but (pending : list nat) g : Prop :=
  ∀ e en, edge_at g e = Some en →
    e ∈ pending ∨ (is_Some (node_at g (ee_source en)) ∧ is_Some (node_at g (ee_target en))).

Lemma remove_edges_ok es g k :
  adj_ok g → ends_but es g → num_nodes g = k → num_nodes g = S (live (dg_nodes g)) →
  num_edges g = live (dg_edges g) →
  let g' := fold_left (λ g e, fst (remove_edge_inner g e)) es g in
  adj_ok g' ∧ ends_ok g' ∧ num_nodes g' = k ∧ num_nodes g' = S (live (dg_nodes g')) ∧
  num_edges g' = live (dg_edges g').
Proof.
  revert g. induction es as [|e es IH]; intros g Ha Hb Hk Hn He; simpl.
  { split; [done|]. split; [|done]. intros x en Hx.
    destruct (Hb x en Hx) as [?%elem_of_nil|?]; done. }
  assert (num_nodes (fst (remove_edge_inner g e)) = num_nodes g ∧
    live (dg_nodes (fst (remove_edge_inner g e))) = live (dg_nodes g) ∧
    num_edges (fst (remove_edge_inner g e)) = live (dg_edges (fst (remove_edge_inner g e))))
    as (H1 & H2 & H3).
  { unfold remove_edge_inner. destruct (edge_at g e) as [en|] eqn:Ek; [|done]. simpl.
    rewrite !live_update. split; [done|]. split; [done|]. rewrite He, (live_clear _ _ _ Ek). lia. }
  apply IH; [by apply remove_edge_adj| |congruence|congruence|done].
  intros x en. rewrite remove_edge_at, !remove_edge_live. case_decide as Hx; [done|].
  intros Hen. destruct (Hb x en Hen) as [[->|?]%elem_of_cons|?]; [done|by left|by right].
Qed.

Lemma remove_edge_graph_ok g e : graph_ok g → graph_ok (fst (remove_edge g e)).
Proof.
  intros [Ha He Hn Hm]. destruct (remove_edge_counts g e Hn Hm) as (H1 & H2 & _).
  split; [by apply remove_edge_adj| |exact H1|exact H2].
  intros x en. unfold remove_edge. rewrite remove_edge_at, !remove_edge_live.
  case_decide; [done|apply He].
Qed.

Lemma remove_node_ok g n : graph_ok g → graph_ok (fst (remove_node g n)).
Proof.
  intros [Ha He Hn Hm]. unfold remove_node. destruct (node_at g n) as [m|] eqn:En; [|by split].
  destruct (Ha n m En) as [[_ Hout] [_ Hin]].
  set (g0 := DiGraph_mk (<[n:=None]> (dg_nodes g)) (dg_edges g) (num_nodes g) (num_edges g)).
  assert (∀ i, node_at g0 i = if decide (i = n) then None else node_at g i) as Hnode.
  { intros i. apply mjoin_clear. }
  destruct (remove_edges_ok (adj_out m ++ adj_in m) g0 (num_nodes g)) as (H1 & H2 & H3 & H4 & H5).
  - intros i k. rewrite Hnode. case_decide; [done|]. apply Ha.
  - intros e en Hen. rewrite elem_of_app, Hout, Hin, !Hnode.
    destruct (He e en Hen) as [Hs Ht].
    destruct (decide (ee_source en = n)); [by left; left; eauto|].
    destruct (decide (ee_target en = n)); [by left; right; eauto|]. by right.
  - done.
  - simpl. rewrite Hn. by apply live_clear in En.
  - done.
  - simpl. set (g1 := fold_left _ _ g0) in *. split; simpl; [exact H1|exact H2| |exact H5].
    rewrite H4. simpl. lia.
Qed.

Lemma graph_reachable_ok g : graph_reachable g → graph_ok g.
Proof.
  induction 1 as [|g op g' _ IH Hs].
  - split; try done; intros i x Hx; unfold node_at, edge_at in Hx; by rewrite lookup_nil in Hx.
  - destruct op as [w|a b w|n|e]; simpl in Hs.
    + injection Hs as <-. by apply add_node_ok.
    + destruct (add_edge true g a b w) as [[g1 e]|] eqn:Ee; [|done].
      injection Hs as <-. by eapply add_edge_ok.
    + injection Hs as <-. by apply remove_node_ok.
    + injection Hs as <-. by apply remove_edge_graph_ok.
Qed.
End graph.

(** ** Topological sort: the invariant of the loop *)

(** [in_degree] counts the incoming edges that are not processed yet. *)
Definition deg_ok {N E} (g : DiGraph N E) (P : gset nat) (deg : list nat) : Prop :=
  ∀ v m, node_at g v = Some m → deg !! v = Some (length (filter (λ e, e ∉ P) (adj_in m))).

(** Exactly the nodes of degree zero have been put on the stack. *)
Definition seen_ok {N E} (g : DiGraph N E) (deg seen : list nat) : Prop :=
  NoDup seen ∧ (∀ v, v ∈ seen → is_Some (node_at g v)) ∧
  ∀ v, is_Some (node_at g v) → (v ∈ seen ↔ deg !! v = Some 0%nat).

Record topo_inv {N E} (g : DiGraph N E) (P : gset nat) (deg stack res : list nat) : Prop := {
  ti_deg : deg_ok g P deg;
  ti_seen : seen_ok g deg (res ++ stack);
  ti_processed : ∀ e en, edge_at g e = Some en → (e ∈ P ↔ ee_source en ∈ res);
  ti_order : topo_ordered g res;
}.

Lemma filter_remove (l : list nat) e (P : gset nat) :
  NoDup l → e ∈ l → e ∉ P →
  length (filter (λ x, x ∉ P) l) = S (length (filter (λ x, x ∉ {[e]} ∪ P) l)).
Proof.
  intros Hnd He HP. apply list_elem_of_split in He as (l1 & l2 & ->).
  apply NoDup_app in Hnd as (_ & Hd & [H2 _]%NoDup_cons).
  rewrite !filter_app, !filter_cons, !length_app.
  rewrite (decide_True (P := e ∉ P)) by done. rewrite decide_False by set_solver.
  assert (∀ l : list nat, e ∉ l → filter (λ x, x ∉ {[e]} ∪ P) l = filter (λ x, x ∉ P) l) as Hf.
  { intros l Hl. apply filter_ext_elem. intros x Hx. set_solver. }
  rewrite !Hf; [simpl; lia|done|]. intros Hx. apply (Hd e Hx). by left.
Qed.

Section topo.
  Context {N E : Type} (g : DiGraph N E) (Hok : graph_ok g).

Lemma topo_relax_ok es P deg stack res :
  NoDup es → (∀ e, e ∈ es → is_Some (edge_at g e) ∧ e ∉ P) →
  deg_ok g P deg → seen_ok g deg (res ++ stack) →
  ∃ deg' stack', topo_relax g es deg stack = Ret (deg', stack') ∧
    deg_ok g (list_to_set es ∪ P) deg' ∧ seen_ok g deg' (res ++ stack').
Proof.
  intros Hnd. revert P deg stack. induction Hnd as [|e es He Hnd IH];
    intros P deg stack Hes Hdeg Hseen.
  { exists deg, stack. split; [done|]. split; [|done]. intros v m Hm. rewrite (Hdeg v m Hm).
    do 2 f_equal. apply filter_ext_elem. set_solver. }
  destruct (Hes e) as [[en Hen] HeP]; [by left|]. simpl. rewrite Hen.
  destruct (go_ends _ Hok e en Hen) as [_ [m Hm]].
  destruct (go_adj _ Hok _ _ Hm) as [_ [Hnd2 Hin]].
  assert (e ∈ adj_in m) as Hein by (apply Hin; eauto).
  pose proof (Hdeg _ _ Hm) as Hdv. rewrite (filter_remove _ e) in Hdv by done.
  set (d := length (filter (λ x, x ∉ {[e]} ∪ P) (adj_in m))) in *. rewrite Hdv.
  set (deg' := <[ee_target en:=d]> deg).
  set (stack' := if (d =? 0)%nat then ee_target en :: stack else stack).
  assert (deg_ok g ({[e]} ∪ P) deg') as Hdeg'.
  { intros v mv Hv. unfold deg'. destruct (decide (v = ee_target en)) as [->|Hne].
    - rewrite Hm in Hv. injection Hv as <-.
      apply list_lookup_insert_eq. by eapply lookup_lt_Some.
    - rewrite list_lookup_insert_ne, (Hdeg v mv Hv) by done. do 2 f_equal.
      apply filter_ext_elem. intros x Hx.
      destruct (go_adj _ Hok _ _ Hv) as [_ [_ Hinv]]. apply Hinv in Hx as (en' & Hx & Ht).
      assert (x ≠ e) by (intros ->; congruence). set_solver. }
  assert (seen_ok g deg' (res ++ stack')) as Hseen'.
  { destruct Hseen as (Hs1 & Hs2 & Hs3).
    assert (ee_target en ∉ res ++ stack) as Hnew.
    { rewrite (Hs3 (ee_target en)) by eauto. rewrite Hdv. congruence. }
    assert (∀ v, is_Some (node_at g v) →
      (v ∈ res ++ stack' ↔ deg' !! v = Some 0%nat)) as Hiff.
    { intros v Hv. unfold stack', deg'. destruct (decide (v = ee_target en)) as [->|Hne].
      - rewrite list_lookup_insert_eq by by eapply lookup_lt_Some.
        destruct (Nat.eqb_spec d 0) as [->|Hd]; [set_solver|].
        split; [done|]. intros [= ?]. done.
      - rewrite list_lookup_insert_ne, <-Hs3 by done.
        destruct (d =? 0)%nat; [|done]. set_solver. }
    split; [|split; [|exact Hiff]]; unfold stack'; destruct (d =? 0)%nat; try done.
    - rewrite <-Permutation_middle. by constructor.
    - intros v. rewrite <-Permutation_middle. intros [->|?]%elem_of_cons; eauto. }
  destruct (IH ({[e]} ∪ P) deg' stack') as (deg2 & stack2 & H1 & H2 & H3); [|done..|].
  { intros x Hx. split; [apply Hes; by right|]. destruct (Hes x) as [_ ?]; [by right|].
    set_solver. }
  exists deg2, stack2. split; [exact H1|]. split; [|done].
  intros v mv Hv. rewrite (H2 v mv Hv). do 2 f_equal. apply filter_ext_elem. set_solver.
Qed.

Lemma topo_loop_ok fuel P deg stack res :
  topo_inv g P deg stack res → (length (dg_nodes g) - length res ≤ fuel)%nat →
  ∃ P' deg' res', topo_loop fuel g deg stack res = Ret (deg', res') ∧
    topo_inv g P' deg' [] res'.
Proof.
  revert P deg stack res. induction fuel as [|fuel IH]; intros P deg stack res Hinv Hf;
    (destruct stack as [|u stack]; [by exists P, deg, res|]).
  all: pose proof (ti_seen _ _ _ _ _ Hinv) as (Hs1 & Hs2 & Hs3).
  - exfalso. assert (length (res ++ u :: stack) ≤ length (dg_nodes g))%nat as Hle.
    { rewrite <-(length_seq (length (dg_nodes g)) 0).
      apply NoDup_incl_length; [by apply NoDup_ListNoDup|].
      intros v Hv. apply list_elem_of_In in Hv. apply in_seq.
      apply Hs2, node_at_lt in Hv. lia. }
    rewrite length_app in Hle. simpl in Hle. lia.
  - assert (is_Some (node_at g u)) as [m Hm] by (apply Hs2; set_solver).
    simpl. rewrite Hm. destruct (go_adj _ Hok _ _ Hm) as [[Hnd Hout] [_ Hin]].
    assert (u ∉ res) as Hnew.
    { intros Hu. apply NoDup_app in Hs1 as (_ & Hd & _). apply (Hd u Hu). by left. }
    replace (res ++ u :: stack) with ((res ++ [u]) ++ stack) in * by by rewrite <-app_assoc.
    destruct (topo_relax_ok (adj_out m) P deg stack (res ++ [u])) as (deg' & stack' & -> & Hd & Hs);
      [done| |apply Hinv|done|].
    { intros e He. apply Hout in He as (en & Hen & Hsrc). split; [by eexists|].
      rewrite (ti_processed _ _ _ _ _ Hinv e en Hen). by rewrite Hsrc. }
    cbn [mbind outcome_bind]. apply (IH (list_to_set (adj_out m) ∪ P)).
    2:{ rewrite length_app. simpl. lia. }
    split; [exact Hd|exact Hs| |].
    + intros e en Hen. rewrite elem_of_union, elem_of_list_to_set, Hout, elem_of_app,
        (ti_processed _ _ _ _ _ Hinv e en Hen), list_elem_of_singleton. naive_solver.
    + assert (∀ a, has_edge g a u → a ∈ res) as Hsrc.
      { intros a (e & en & Hen & <- & Ht). apply (ti_processed _ _ _ _ _ Hinv e en Hen).
        destruct (decide (e ∈ P)) as [|He]; [done|exfalso].
        assert (deg !! u = Some 0%nat) as H0 by (apply Hs3; [by eexists|set_solver]).
        rewrite (ti_deg _ _ _ _ _ Hinv u m Hm) in H0. injection H0 as H0.
        apply nil_length_inv in H0.
        assert (e ∈ filter (λ x, x ∉ P) (adj_in m)) as Hx.
        { apply list_elem_of_filter. split; [done|]. apply Hin. eauto. }
        rewrite H0 in Hx. by apply elem_of_nil in Hx. }
      intros a b j Hab Hj. apply lookup_snoc_Some in Hj as [[Hlt Hj]|[-> ->]].
      * destruct (ti_order _ _ _ _ _ Hinv a b j Hab Hj) as (i & Hi & Ha).
        exists i. split; [done|]. by apply lookup_app_l_Some.
      * apply Hsrc, list_elem_of_lookup in Hab as [i Hi]. exists i.
        split; [by apply lookup_lt_Some in Hi|]. by apply lookup_app_l_Some.
Qed.

Lemma initial_degree v m :
  node_at g v = Some m → initial_in_degree g !! v = Some (length (adj_in m)).
Proof.
  intros Hm. unfold initial_in_degree. change (map ?f ?l) with (f <$> l).
  rewrite list_lookup_fmap, lookup_seq_lt by (apply node_at_lt; eauto). simpl. by rewrite Hm.
Qed.

Lemma topo_initial :
  topo_inv g ∅ (initial_in_degree g)
    (reverse (List.filter (λ i, is_some (node_at g i) &&
       (degree_of (initial_in_degree g) i =? 0)%nat) (seq 0 (length (dg_nodes g))))) [].
Proof.
  split.
  - intros v m Hm. rewrite (initial_degree v m Hm). do 2 f_equal. symmetry.
    apply filter_true_elem. set_solver.
  - simpl. split; [|split].
    + rewrite reverse_Permutation. apply NoDup_ListNoDup, List.NoDup_filter, seq_NoDup.
    + intros v. rewrite elem_of_reverse, list_elem_of_In, List.filter_In.
      rewrite andb_true_iff, is_some_spec. tauto.
    + intros v [m Hm]. rewrite elem_of_reverse, list_elem_of_In, List.filter_In, in_seq.
      rewrite andb_true_iff, is_some_spec. unfold degree_of. rewrite (initial_degree v m Hm).
      simpl. rewrite Nat.eqb_eq. pose proof (node_at_lt g v ltac:(eauto)).
      split; [intros (_ & _ & ->)|intros [= ->]; split; [lia|eauto]]; done.
  - intros e en Hen. split; [set_solver|by intros ?%elem_of_nil].
  - intros a b j _ Hj. done.
Qed.

(** A complete ordering numbers the nodes. *)
Lemma ordered_acyclic order :
  NoDup order → (∀ v, is_Some (node_at g v) → v ∈ order) → topo_ordered g order → acyclic g.
Proof.
  intros Hnd Hall Hord. exists (λ v, default 0%nat (fst <$> list_find (λ x, x = v) order)).
  assert (∀ i v, order !! i = Some v →
    default 0%nat (fst <$> list_find (λ x, x = v) order) = i) as Hpos.
  { intros i v Hi. destruct (list_find (λ x, x = v) order) as [[j w]|] eqn:Ef; simpl.
    - apply list_find_Some in Ef as (Hj & -> & _). by eapply NoDup_lookup.
    - apply list_find_None in Ef. rewrite Forall_forall in Ef.
      by destruct (Ef v (list_elem_of_lookup_2 _ _ _ Hi)). }
  intros a b Hab. assert (is_Some (node_at g b)) as Hb.
  { destruct Hab as (e & en & Hen & _ & <-). by apply (go_ends _ Hok) in Hen as [_ ?]. }
  apply Hall, list_elem_of_lookup in Hb as [j Hj].
  destruct (Hord a b j Hab Hj) as (i & Hi & Ha). by rewrite (Hpos i a Ha), (Hpos j b Hj).
Qed.

Lemma toposort_spec :
  ∃ r, toposort g = Ret r ∧
    match r with
    | Ok order => order ≡ₚ node_indices g ∧ topo_ordered g order ∧ acyclic g
    | Err v => is_Some (node_at g v) ∧ ¬ acyclic g
    end.
Proof.
  unfold toposort.
  destruct (topo_loop_ok (S (length (dg_nodes g))) _ _ _ _ topo_initial)
    as (P & deg & res & -> & Hinv); [simpl; lia|]. cbn [mbind outcome_bind].
  destruct Hinv as [Hdeg Hseen Hproc Hord]. rewrite app_nil_r in Hseen.
  destruct Hseen as (Hs1 & Hs2 & Hs3).
  assert (res ⊆+ node_indices g) as Hsub.
  { apply NoDup_submseteq; [done|]. intros v Hv. by apply elem_of_node_indices, Hs2. }
  destruct (Nat.eqb_spec (length res) (num_nodes g)) as [Hlen|Hlen].
  - eexists. split; [done|].
    assert (res ≡ₚ node_indices g) as Hp.
    { apply submseteq_length_Permutation; [done|].
      unfold node_indices. rewrite occupied_length, Hlen, (go_nodes _ Hok). done. }
    split; [exact Hp|]. split; [exact Hord|]. apply (ordered_acyclic res); [done| |done].
    intros v Hv. rewrite Hp. by apply elem_of_node_indices.
  - eexists. split; [done|].
    assert (∃ v, is_Some (node_at g v) ∧ v ∉ res) as (w & Hw & Hwr).
    { destruct (decide (Forall (λ v, v ∈ res) (node_indices g))) as [Hall|Hex].
      - exfalso. apply Hlen. rewrite Forall_forall in Hall.
        assert (res ≡ₚ node_indices g) as Hp.
        { apply NoDup_Permutation; [done|apply occupied_NoDup|]. intros v. split; [|apply Hall].
          intros Hv. by apply elem_of_node_indices, Hs2. }
        rewrite Hp. unfold node_indices. by rewrite occupied_length, (go_nodes _ Hok).
      - apply not_Forall_Exists in Hex; [|apply _]. apply Exists_exists in Hex as (v & Hv & Hn).
        exists v. split; [by apply elem_of_node_indices|done]. }
    assert (∀ v, is_Some (node_at g v) → v ∉ res → (0 < degree_of deg v)%nat) as Hpos.
    { intros v [m Hm] Hv. unfold degree_of. pose proof (Hdeg v m Hm) as Hd. rewrite Hd. simpl.
      destruct (decide (length (filter (λ e, e ∉ P) (adj_in m)) = 0%nat)) as [E0|Hne]; [|by apply Nat.neq_0_lt_0].
      exfalso. apply Hv, Hs3; [by eexists|]. by rewrite Hd, E0. }
    split.
    + destruct (find _ (seq 0 (length (dg_nodes g)))) as [v|] eqn:Ef; simpl.
      * apply find_Some in Ef as [_ Ef]. by apply andb_true_iff in Ef as [?%is_some_spec _].
      * exfalso. rewrite find_None in Ef. specialize (Ef w).
        rewrite (proj2 (is_some_spec _) Hw), (proj2 (Nat.ltb_lt _ _) (Hpos w Hw Hwr)) in Ef.
        assert (w ∈ seq 0 (length (dg_nodes g))) as Hin.
        { apply elem_of_seq. pose proof (node_at_lt g w Hw). lia. }
        by specialize (Ef Hin).
    + intros [rank Hrank].
      assert (∀ k v, (rank v ≤ k)%nat → is_Some (node_at g v) → v ∈ res) as Hall.
      2:{ by apply Hwr, (Hall (rank w)). }
      induction k as [k IH] using lt_wf_ind. intros v Hk [m Hm].
      apply Hs3; [by eexists|]. rewrite (Hdeg v m Hm).
      destruct (filter (λ e, e ∉ P) (adj_in m)) as [|e l] eqn:El; [done|exfalso].
      assert (e ∈ filter (λ e, e ∉ P) (adj_in m)) as [HeP He]%list_elem_of_filter
        by (rewrite El; by left).
      destruct (go_adj _ Hok _ _ Hm) as [_ [_ Hin]]. apply Hin in He as (en & Hen & Ht).
      apply HeP, (Hproc e en Hen).
      pose proof (Hrank (ee_source en) v ltac:(by exists e, en)) as Hlt.
      apply (IH (rank (ee_source en))); [lia|done|]. by apply (go_ends _ Hok) in Hen as [? _].
Qed.
End topo.

(** ** Reachability: the invariant of the loop *)

Definition marked (visited : list bool) (v : nat) : Prop := visited !! v = Some true.

Definition unmarked (visited : list bool) : nat := length (filter (λ b, b = false) visited).

Lemma unmarked_insert visited w :
  visited !! w = Some false → unmarked visited = S (unmarked (<[w := true]> visited)).
Proof.
  intros Hw. unfold unmarked. rewrite <-(take_drop_middle visited w false Hw) at 1.
  rewrite insert_take_drop by by eapply lookup_lt_Some.
  rewrite !filter_app, !filter_cons, !length_app. simpl. lia.
Qed.

Lemma marked_insert visited w v :
  (w < length visited)%nat → marked (<[w := true]> visited) v ↔ v = w ∨ marked visited v.
Proof.
  intros Hw. unfold marked. destruct (decide (v = w)) as [->|Hne].
  - rewrite list_lookup_insert_eq by done. tauto.
  - rewrite list_lookup_insert_ne by done. tauto.
Qed.

Record bfs_inv {N E} (g : DiGraph N E) (from to : nat) (visited : list bool) (queue : list nat) : Prop := {
  bi_len : length visited = length (dg_nodes g);
  bi_from : marked visited from;
  bi_to : ¬ marked visited to;
  bi_path : ∀ v, marked visited v → path g from v ∧ is_Some (node_at g v);
  bi_queue : ∀ v, v ∈ queue → marked visited v;
  bi_done : ∀ v w, marked visited v → v ∉ queue → has_edge g v w → marked visited w;
}.

Section bfs.
  Context {N E : Type} (g : DiGraph N E) (Hok : graph_ok g) (to : nat).

Lemma bfs_scan_ok es visited queue :
  (∀ e, e ∈ es → is_Some (edge_at g e)) → length visited = length (dg_nodes g) →
  (∃ e en, e ∈ es ∧ edge_at g e = Some en ∧ ee_target en = to ∧
     bfs_scan g to es visited queue = Ret None) ∨
  (∃ visited' new, bfs_scan g to es visited queue = Ret (Some (visited', queue ++ new)) ∧
     length visited' = length visited ∧
     (∀ v, marked visited' v ↔ marked visited v ∨ v ∈ new) ∧
     (∀ v, v ∈ new → ∃ e en, e ∈ es ∧ edge_at g e = Some en ∧ ee_target en = v) ∧
     (∀ e en, e ∈ es → edge_at g e = Some en → ee_target en ≠ to ∧ marked visited' (ee_target en)) ∧
     (unmarked visited' + length new = unmarked visited)%nat).
Proof.
  revert visited queue. induction es as [|e es IH]; intros visited queue Hes Hlen.
  { right. exists visited, []. rewrite app_nil_r. split; [done|]. split; [done|].
    split; [intros v; split; [by left|intros [?|?%elem_of_nil]; done]|].
    split; [by intros v ?%elem_of_nil|]. split; [by intros e en ?%elem_of_nil|].
    simpl. lia. }
  destruct (Hes e) as [en Hen]; [by left|]. simpl. rewrite Hen.
  assert (∀ x, x ∈ es → is_Some (edge_at g x)) as Hes' by (intros x Hx; apply Hes; by right).
  destruct (Nat.eqb_spec (ee_target en) to) as [Heq|Hne].
  { left. exists e, en. split; [by left|done]. }
  destruct (go_ends _ Hok e en Hen) as [_ Ht%node_at_lt].
  destruct (visited !! ee_target en) as [b|] eqn:Eb.
  2:{ apply lookup_ge_None in Eb. lia. }
  destruct b.
  - destruct (IH visited queue Hes' Hlen) as [(x & xn & Hx & ? & ? & ?)|(vis & new & H1 & H2 & H3 & H4 & H5 & H6)].
    { left. exists x, xn. split; [by right|done]. }
    right. exists vis, new. split; [exact H1|]. split; [exact H2|]. split; [exact H3|].
    split; [intros v (x & xn & ? & ?)%H4; exists x, xn; split; [by right|done]|].
    split; [|exact H6]. intros x xn [->|Hx]%elem_of_cons Hxn; [|by eapply H5].
    rewrite Hen in Hxn. injection Hxn as <-. split; [done|]. apply H3. by left.
  - destruct (IH (<[ee_target en:=true]> visited) (queue ++ [ee_target en]) Hes')
      as [(x & xn & Hx & ? & ? & ?)|(vis & new & H1 & H2 & H3 & H4 & H5 & H6)].
    { by rewrite length_insert. }
    { left. exists x, xn. split; [by right|done]. }
    right. exists vis, (ee_target en :: new). rewrite <-app_assoc in H1.
    split; [exact H1|]. split; [by rewrite H2, length_insert|].
    assert (∀ v, marked vis v ↔ marked visited v ∨ v ∈ ee_target en :: new) as Hm.
    { intros v. rewrite H3, marked_insert, elem_of_cons by lia. tauto. }
    split; [exact Hm|]. split.
    { intros v [->|Hv]%elem_of_cons; [exists e, en; split; [by left|done]|].
      destruct (H4 v Hv) as (x & xn & ? & ?). exists x, xn. split; [by right|done]. }
    split; [|rewrite (unmarked_insert visited _ Eb); simpl; lia].
    intros x xn [->|Hx]%elem_of_cons Hxn; [|by eapply H5].
    rewrite Hen in Hxn. injection Hxn as <-. split; [done|]. apply Hm. right. by left.
Qed.

Lemma path_marked from visited v :
  (∀ v w, marked visited v → has_edge g v w → marked visited w) →
  marked visited from → path g from v → marked visited v.
Proof. intros Hc Hf Hp. induction Hp as [x|x y z Hxy _ IH]; [done|]. apply IH. by eapply Hc. Qed.

Lemma bfs_loop_ok from fuel visited queue :
  bfs_inv g from to visited queue → (unmarked visited + length queue ≤ fuel)%nat →
  ∃ b, bfs_loop fuel g to visited queue = Ret b ∧ (b = true ↔ path g from to).
Proof.
  revert visited queue. induction fuel as [|fuel IH]; intros visited queue Hinv Hf.
  all: destruct queue as [|u queue].
  1,3: exists false; split; [done|]; split; [done|]; intros Hp;
    exfalso; apply (bi_to _ _ _ _ _ Hinv), (path_marked from visited); try done;
    [|apply Hinv]; intros v w Hv Hvw; apply (bi_done _ _ _ _ _ Hinv v w Hv); [|done];
    by intros ?%elem_of_nil.
  { simpl in Hf. lia. }
  destruct (bi_path _ _ _ _ _ Hinv u) as [Hpu [m Hm]]; [apply Hinv; by left|].
  destruct (go_adj _ Hok _ _ Hm) as [[_ Hout] _]. simpl. rewrite Hm.
  destruct (bfs_scan_ok (adj_out m) visited queue) as
    [(e & en & He & Hen & Ht & ->)|(vis & new & -> & H2 & H3 & H4 & H5 & H6)].
  - intros e (en & Hen & _)%Hout. by eexists.
  - apply Hinv.
  - exists true. split; [done|]. split; [|done]. intros _.
    apply Hout in He as (en' & Hen' & Hs). rewrite Hen in Hen'. injection Hen' as <-.
    eapply rtc_r; [exact Hpu|]. by exists e, en.
  - cbn [mbind outcome_bind]. apply IH; [|rewrite length_app; simpl in Hf; lia].
    assert (∀ v, v ∈ new → has_edge g u v) as Hnew.
    { intros v (e & en & He & Hen & Ht)%H4. apply Hout in He as (en' & Hen' & Hs).
      rewrite Hen in Hen'. injection Hen' as <-. by exists e, en. }
    assert (∀ w, has_edge g u w → w ≠ to ∧ marked vis w) as Hsucc.
    { intros w (e & en & Hen & Hs & <-). apply (H5 e en); [apply Hout; eauto|done]. }
    split.
    + rewrite H2. apply Hinv.
    + apply H3. left. apply Hinv.
    + intros [Ht|Ht]%H3; [by apply (bi_to _ _ _ _ _ Hinv)|]. by apply Hnew, Hsucc in Ht as [? _].
    + intros v [Hv|Hv]%H3; [by apply (bi_path _ _ _ _ _ Hinv)|]. apply Hnew in Hv as Huv.
      split; [by eapply rtc_r|]. destruct Huv as (e & en & Hen & _ & <-).
      by apply (go_ends _ Hok) in Hen as [_ ?].
    + intros v [Hv|Hv]%elem_of_app; apply H3; [left|by right].
      apply (bi_queue _ _ _ _ _ Hinv). by right.
    + intros v w Hv Hq Hvw. destruct (decide (v = u)) as [->|Hne]; [by apply Hsucc|].
      apply H3 in Hv as [Hv|Hv]; [|by destruct Hq; apply elem_of_app; right].
      apply H3. left. apply (bi_done _ _ _ _ _ Hinv v w Hv); [|done].
      intros [->|Hin]%elem_of_cons; [done|]. apply Hq, elem_of_app. by left.
Qed.

Lemma has_path_connecting_spec from :
  is_Some (node_at g from) →
  ∃ b, has_path_connecting g from to = Ret b ∧ (b = true ↔ path g from to).
Proof.
  intros [m Hm]. pose proof (node_at_lt g from ltac:(eauto)) as Hlt.
  assert (∀ i, freed g i = true → node_at g i = None) as Hfreed.
  { intros i. unfold freed, node_at. by destruct (dg_nodes g !! i) as [[]|]. }
  assert (freed g from = false) as Hff.
  { destruct (freed g from) eqn:Ef; [|done]. apply Hfreed in Ef. congruence. }
  unfold has_path_connecting. rewrite Hff. cbn [orb].
  destruct (freed g to) eqn:Et.
  - exists false. split; [done|]. split; [done|]. intros Hp. exfalso. apply Hfreed in Et.
    apply rtc_inv_r in Hp as [->|(y & _ & e & en & Hen & _ & <-)]; [congruence|].
    apply (go_ends _ Hok) in Hen as [_ [x Hx]]. congruence.
  - destruct (Nat.eqb_spec from to) as [<-|Hne]; [by exists true|].
    rewrite lookup_replicate_2 by done.
    apply bfs_loop_ok.
    + split.
      * by rewrite length_insert, length_replicate.
      * apply list_lookup_insert_eq. by rewrite length_replicate.
      * unfold marked. rewrite list_lookup_insert_ne by done. by intros [? _]%lookup_replicate.
      * intros v Hv. apply marked_insert in Hv as [->|Hv]; [|..].
        -- split; [apply rtc_refl|by eexists].
        -- by apply lookup_replicate in Hv as [? _].
        -- by rewrite length_replicate.
      * intros v ->%list_elem_of_singleton.
        apply list_lookup_insert_eq. by rewrite length_replicate.
      * intros v w Hv Hq _. exfalso. apply marked_insert in Hv as [->|Hv].
        -- apply Hq. by left.
        -- by apply lookup_replicate in Hv as [? _].
        -- by rewrite length_replicate.
    + assert (unmarked (replicate (length (dg_nodes g)) false) = length (dg_nodes g)) as Hu.
      { unfold unmarked. rewrite filter_true_elem, length_replicate; [done|].
        by intros b [-> _]%elem_of_replicate. }
      rewrite (unmarked_insert _ from) in Hu by by apply lookup_replicate_2. cbn [length].
      rewrite Nat.add_1_r. etrans; [|apply Nat.le_succ_diag_r]. apply Nat.eq_le_incl. exact Hu.
Qed.
End bfs.

(** ** Properties *)

(** Every graph built by adding and removing nodes and edges (edges between
    existing nodes, as the debug assertions require) is consistent: the adjacency
    lists of a node hold exactly its live outgoing and incoming edges, once each,
    live edges join live nodes, the counters count the occupied slots, and a
    removed node takes all its edges with it. *)
Theorem DiGraph_reachable_consistent {N E} (g : DiGraph N E) :
  graph_reachable g →
  (∀ i n, node_at g i = Some n →
     NoDup (adj_out n) ∧ NoDup (adj_in n) ∧
     (∀ e, e ∈ adj_out n ↔ ∃ en, edge_at g e = Some en ∧ ee_source en = i) ∧
     (∀ e, e ∈ adj_in n ↔ ∃ en, edge_at g e = Some en ∧ ee_target en = i)) ∧
  (∀ e en, edge_at g e = Some en →
     is_Some (node_at g (ee_source en)) ∧ is_Some (node_at g (ee_target en))) ∧
  node_count g = length (node_indices g) ∧ edge_count g = length (edge_indices g).
Proof.
  intros [Ha He Hn Hm]%graph_reachable_ok. split.
  { intros i n Hi. destruct (Ha i n Hi) as [[??] [??]]. by split_and!. }
  split; [exact He|]. unfold node_count, edge_count, node_indices, edge_indices.
  by rewrite !occupied_length.
Qed.

Lemma DiGraph_reachable_consistent_witness :
  let g := fst (remove_node three_nodes 1) in
  node_count g = length (node_indices g) ∧ edge_count g = length (edge_indices g).
Proof.
  refine (proj2 (proj2 (DiGraph_reachable_consistent (fst (remove_node three_nodes 1)) _))).
  apply (gr_step three_nodes (GRemoveNode 1)); [|reflexivity].
  unfold three_nodes. repeat (eapply (gr_step _ (GAddNode tt)); [|reflexivity]). constructor.
Defined.

(** [toposort] decides acyclicity: on every graph it returns, and either with
    an ordering that lists each node once and puts the source of every edge before
    its target, in which case the graph is acyclic, or with a live node of a graph
    that has a cycle. *)
Theorem toposort_correct {N E} (g : DiGraph N E) :
  graph_reachable g →
  ∃ r, toposort g = Ret r ∧
    match r with
    | Ok order => order ≡ₚ node_indices g ∧ topo_ordered g order ∧ acyclic g
    | Err v => is_Some (node_at g v) ∧ ¬ acyclic g
    end.
Proof. intros H%graph_reachable_ok. by apply toposort_spec. Qed.

Lemma toposort_correct_witness :
  ∃ r, toposort three_nodes = Ret r ∧
    match r with
    | Ok order => order ≡ₚ node_indices three_nodes ∧ topo_ordered three_nodes order ∧ acyclic three_nodes
    | Err v => is_Some (node_at three_nodes v) ∧ ¬ acyclic three_nodes
    end.
Proof.
  apply toposort_correct.
  unfold three_nodes. repeat (eapply (gr_step _ (GAddNode tt)); [|reflexivity]). constructor.
Defined.

(** From a live node, [has_path_connecting] ends and is true exactly when a
    directed path leads to the target. *)
Theorem has_path_connecting_correct {N E} (g : DiGraph N E) (from to : NodeIndex) :
  graph_reachable g → is_Some (node_at g from) →
  ∃ b, has_path_connecting g from to = Ret b ∧ (b = true ↔ path g from to).
Proof. intros H%graph_reachable_ok Hf. by apply has_path_connecting_spec. Qed.

Lemma has_path_connecting_correct_witness :
  ∃ b, has_path_connecting three_nodes 0 2 = Ret b ∧ (b = true ↔ path three_nodes 0 2).
Proof.
  apply has_path_connecting_correct; [|by eexists].
  unfold three_nodes. repeat (eapply (gr_step _ (GAddNode tt)); [|reflexivity]). constructor.
Defined.
