(* ===== verification/ScgNode.v ===== *)
(** * Nodes, edges and regions of the semantic computation graph

    Models [src/src/scg/src/node.rs], [src/src/scg/src/edge.rs] and the regions of
    [src/src/scg/src/region.rs]: what a node of the graph is and carries, one record per
    kind of payload, and the kinds of edges.  Field names carry the name of their record,
    and the constructors of node types and payloads a [T] or a [P].  The records that only
    the code generator fills in, and the visitor over payloads, are not modelled. *)

From S2P Require Import Prelude.
From stdpp Require Import gmap.
From stdpp Require Import options.

#[local] Open Scope Z_scope.

(** ** Identifiers *)

Notation NodeId := Z (only parsing).
Notation EdgeId := Z (only parsing).
Notation RegionId := Z (only parsing).

Definition NodeId_display (id : NodeId) : string := "NodeId(" +:+ show id +:+ ")".
Definition EdgeId_display (id : EdgeId) : string := "EdgeId(" +:+ show id +:+ ")".
Definition RegionId_display (id : RegionId) : string := "RegionId(" +:+ show id +:+ ")".

(** ** Node types *)

Inductive NodeType : Type :=
  | TComputation | TAllocation | TDeallocation | TAccess | TCast | TEffect | TControl
  | TPhantom | TVTable | TClosureEnv | TStructDef | TEnumDef | TMatch | TConstantTime
  | TSyscall | TStateInit | TStateRead | TStateWrite | TStateTransform | TForeignConsume
  | TArenaNew | TArenaAlloc | TArenaGrow | TArenaFree | TChannelOpen | TChannelSend
  | TChannelRecv | TChannelClose.

#[export] Instance NodeType_eq_dec : EqDecision NodeType.
Proof. solve_decision. Defined.

Definition NodeType_display (t : NodeType) : string :=
  match t with
  | TComputation => "Computation"
  | TAllocation => "Allocation"
  | TDeallocation => "Deallocation"
  | TAccess => "Access"
  | TCast => "Cast"
  | TEffect => "Effect"
  | TControl => "Control"
  | TPhantom => "Phantom"
  | TVTable => "VTable"
  | TClosureEnv => "ClosureEnv"
  | TStructDef => "StructDef"
  | TEnumDef => "EnumDef"
  | TMatch => "Match"
  | TConstantTime => "ConstantTime"
  | TSyscall => "Syscall"
  | TStateInit => "StateInit"
  | TStateRead => "StateRead"
  | TStateWrite => "StateWrite"
  | TStateTransform => "StateTransform"
  | TForeignConsume => "ForeignConsume"
  | TArenaNew => "ArenaNew"
  | TArenaAlloc => "ArenaAlloc"
  | TArenaGrow => "ArenaGrow"
  | TArenaFree => "ArenaFree"
  | TChannelOpen => "ChannelOpen"
  | TChannelSend => "ChannelSend"
  | TChannelRecv => "ChannelRecv"
  | TChannelClose => "ChannelClose"
  end.

Record BDReference : Type := BDReference_mk {
  bd_id : Z;
  bd_version : option Z;
}.

Record ProgramPoint : Type := ProgramPoint_mk {
  pp_file : option string;
  pp_line : option Z;
  pp_column : option Z;
  pp_offset : option Z;
}.

(** ** Payloads *)

Inductive IntrinsicKind : Type :=
  | CapabilityGrant
  | CapabilityDelegate
  | CapabilityVerify
  | CapabilityRevoke
  | StarkProve
  | StarkVerify.

Inductive ComputationKind : Type :=
  | CKOther (x : string)
  | CKIntrinsic (x : IntrinsicKind)
  | CKStructAccess (struct_name : string) (field_name : string) (field_offset : Z) (field_size : Z)
  | CKEnumTag (enum_name : string) (tag_type : string) (tag_size : Z)
  | CKMatchNode (arm_count : Z) (subject_type : string).

Record ComputationNode : Type := ComputationNode_mk {
  computation_kind : ComputationKind;
  computation_result_type : option string;
  computation_tail_call : bool;
}.

Record AllocationNode : Type := AllocationNode_mk {
  allocation_size : Z;
  allocation_align : Z;
  allocation_region_id : RegionId;
  allocation_type_name : option string;
}.

Record DeallocationNode : Type := DeallocationNode_mk {
  deallocation_allocation_node : NodeId;
  deallocation_region_id : RegionId;
}.

Inductive AccessMode : Type :=
  | Read
  | Write
  | ReadWrite.

Record AccessNode : Type := AccessNode_mk {
  access_mode : AccessMode;
  access_region_id : RegionId;
  access_offset : option Z;
  access_access_size : option Z;
}.

Record CastNode : Type := CastNode_mk {
  cast_from_type : string;
  cast_to_type : string;
  cast_is_lossless : bool;
}.

Record EffectNode : Type := EffectNode_mk {
  effect_effect_kind : string;
  effect_is_observable : bool;
}.

Inductive ControlKind : Type :=
  | Branch
  | LoopHeader
  | LoopExit
  | Join
  | FunctionEntry
  | FunctionReturn
  | Jump
  | Switch
  | SwitchCase
  | ClosureEntry
  | ClosureReturn
  | FuturePoll
  | WakerRegistration
  | StateTransition.

Record ControlNode : Type := ControlNode_mk {
  control_kind : ControlKind;
  control_label : option string;
}.

Record PhantomNode : Type := PhantomNode_mk {
  phantom_purpose : string;
}.

Record VTableNode : Type := VTableNode_mk {
  vtable_trait_name : string;
  vtable_concrete_type : string;
  vtable_method_entries : list NodeId;
}.

Record ClosureEnvNode : Type := ClosureEnvNode_mk {
  closure_env_captured_vars : list string;
  closure_env_capture_modes : list bool;
  closure_env_closure_entry : option NodeId;
}.

Record StructFieldInfo : Type := StructFieldInfo_mk {
  struct_field_name : string;
  struct_field_type_name : string;
  struct_field_offset : Z;
  struct_field_size : Z;
}.

Record StructDefNode : Type := StructDefNode_mk {
  struct_def_name : string;
  struct_def_fields : list StructFieldInfo;
  struct_def_total_size : Z;
  struct_def_alignment : Z;
}.

Record EnumVariantInfo : Type := EnumVariantInfo_mk {
  enum_variant_name : string;
  enum_variant_discriminant : Z;
  enum_variant_payload_type : option string;
  enum_variant_payload_size : Z;
}.

Record EnumDefNode : Type := EnumDefNode_mk {
  enum_def_name : string;
  enum_def_variants : list EnumVariantInfo;
  enum_def_tag_type : string;
  enum_def_tag_size : Z;
  enum_def_max_payload_size : Z;
  enum_def_total_size : Z;
  enum_def_alignment : Z;
}.

Inductive MatchPatternInfo : Type :=
  | PatWildcard
  | PatLit (x : Z)
  | PatIdent (x : string)
  | PatEnum (variant : string) (binding : option string)
  | PatStruct (name : string) (fields : list string)
  | PatOr (x : list MatchPatternInfo).

Record MatchArmInfo : Type := MatchArmInfo_mk {
  match_arm_pattern : MatchPatternInfo;
  match_arm_guard : option string;
  match_arm_body : list string;
}.

Record MatchNode : Type := MatchNode_mk {
  match_subject : string;
  match_arms : list MatchArmInfo;
  match_subject_type : string;
}.

Inductive ConstantTimeOp : Type :=
  | CtSelect
  | CtEq.

Record ConstantTimeNode : Type := ConstantTimeNode_mk {
  constant_time_op : ConstantTimeOp;
  constant_time_dst : string;
  constant_time_operands : list string;
}.

Record SyscallNode : Type := SyscallNode_mk {
  syscall_nr : Z;
  syscall_dst : option string;
  syscall_args : list string;
}.

Record StateInitNode : Type := StateInitNode_mk {
  state_init_layout_name : string;
  state_init_result_vreg : Z;
}.

Record StateReadNode : Type := StateReadNode_mk {
  state_read_state_vreg : Z;
  state_read_layout_name : string;
  state_read_field_name : string;
  state_read_result_vreg : Z;
}.

Record StateWriteNode : Type := StateWriteNode_mk {
  state_write_state_vreg : Z;
  state_write_layout_name : string;
  state_write_field_name : string;
  state_write_value_vreg : Z;
}.

Record StateTransformNode : Type := StateTransformNode_mk {
  state_transform_input_vreg : Z;
  state_transform_input_layout : string;
  state_transform_output_layout : string;
  state_transform_result_vreg : Z;
}.

Record ForeignConsumeNode : Type := ForeignConsumeNode_mk {
  foreign_consume_input_vreg : Z;
  foreign_consume_layout_name : string;
}.

Record ArenaNewNode : Type := ArenaNewNode_mk {
  arena_new_capacity_vreg : Z;
  arena_new_result_vreg : Z;
}.

Record ArenaAllocNode : Type := ArenaAllocNode_mk {
  arena_alloc_arena_vreg : Z;
  arena_alloc_layout_name : string;
  arena_alloc_result_arena_vreg : Z;
  arena_alloc_result_state_vreg : Z;
}.

Record ArenaGrowNode : Type := ArenaGrowNode_mk {
  arena_grow_arena_vreg : Z;
  arena_grow_min_capacity_vreg : Z;
  arena_grow_result_vreg : Z;
}.

Record ArenaFreeNode : Type := ArenaFreeNode_mk {
  arena_free_arena_vreg : Z;
}.

Record ChannelOpenNode : Type := ChannelOpenNode_mk {
  channel_open_dst : string;
  channel_open_elem_type : string;
}.

Record ChannelSendNode : Type := ChannelSendNode_mk {
  channel_send_channel : string;
  channel_send_message : string;
  channel_send_ty : string;
}.

Record ChannelRecvNode : Type := ChannelRecvNode_mk {
  channel_recv_dst : string;
  channel_recv_channel : string;
  channel_recv_ty : string;
}.

Record ChannelCloseNode : Type := ChannelCloseNode_mk {
  channel_close_channel : string;
}.

Inductive NodePayload : Type :=
  | PComputation (x : ComputationNode)
  | PAllocation (x : AllocationNode)
  | PDeallocation (x : DeallocationNode)
  | PAccess (x : AccessNode)
  | PCast (x : CastNode)
  | PEffect (x : EffectNode)
  | PControl (x : ControlNode)
  | PPhantom (x : PhantomNode)
  | PVTable (x : VTableNode)
  | PClosureEnv (x : ClosureEnvNode)
  | PStructDef (x : StructDefNode)
  | PEnumDef (x : EnumDefNode)
  | PMatch (x : MatchNode)
  | PConstantTime (x : ConstantTimeNode)
  | PSyscall (x : SyscallNode)
  | PStateInit (x : StateInitNode)
  | PStateRead (x : StateReadNode)
  | PStateWrite (x : StateWriteNode)
  | PStateTransform (x : StateTransformNode)
  | PForeignConsume (x : ForeignConsumeNode)
  | PArenaNew (x : ArenaNewNode)
  | PArenaAlloc (x : ArenaAllocNode)
  | PArenaGrow (x : ArenaGrowNode)
  | PArenaFree (x : ArenaFreeNode)
  | PChannelOpen (x : ChannelOpenNode)
  | PChannelSend (x : ChannelSendNode)
  | PChannelRecv (x : ChannelRecvNode)
  | PChannelClose (x : ChannelCloseNode).

Record NodeData : Type := NodeData_mk {
  node_id : NodeId;
  node_type : NodeType;
  node_annotation : option BDReference;
  node_program_point : ProgramPoint;
  node_payload : NodePayload;
}.

#[export] Instance ControlKind_eq_dec : EqDecision ControlKind.
Proof. solve_decision. Defined.
#[export] Instance AccessMode_eq_dec : EqDecision AccessMode.
Proof. solve_decision. Defined.

Definition IntrinsicKind_as_str (k : IntrinsicKind) : string :=
  match k with
  | CapabilityGrant => "capability_grant"
  | CapabilityDelegate => "capability_delegate"
  | CapabilityVerify => "capability_verify"
  | CapabilityRevoke => "capability_revoke"
  | StarkProve => "stark_prove"
  | StarkVerify => "stark_verify"
  end.

Definition ComputationKind_label (k : ComputationKind) : string :=
  match k with
  | CKOther op => op
  | CKIntrinsic k => IntrinsicKind_as_str k
  | CKStructAccess struct_name field_name _ _ =>
      "struct_access::" +:+ struct_name +:+ "::" +:+ field_name
  | CKEnumTag enum_name _ _ => "enum_tag::" +:+ enum_name
  | CKMatchNode arm_count _ => "match_dispatch(" +:+ show arm_count +:+ "_arms)"
  end.

Definition ComputationNode_operation (c : ComputationNode) : string :=
  ComputationKind_label (computation_kind c).

(** ** Edges *)

Inductive EdgeKind : Type :=
  | DataFlow | ControlFlow | Derivation | Annotation | Dispatch
  | Call (from_node to_node : NodeId) (caller_region : RegionId)
  | Return (from_node to_node : NodeId) (return_values : list NodeId)
  | SyscallArg.

#[export] Instance EdgeKind_eq_dec : EqDecision EdgeKind.
Proof. solve_decision. Defined.

Definition EdgeKind_display (k : EdgeKind) : string :=
  match k with
  | DataFlow => "DataFlow"
  | ControlFlow => "ControlFlow"
  | Derivation => "Derivation"
  | Annotation => "Annotation"
  | Dispatch => "Dispatch"
  | Call from_node to_node _ =>
      "Call(" +:+ NodeId_display from_node +:+ " -> " +:+ NodeId_display to_node +:+ ")"
  | Return from_node to_node _ =>
      "Return(" +:+ NodeId_display from_node +:+ " -> " +:+ NodeId_display to_node +:+ ")"
  | SyscallArg => "SyscallArg"
  end.

Record EdgeData : Type := EdgeData_mk {
  edge_id : EdgeId;
  edge_source : NodeId;
  edge_target : NodeId;
  edge_kind : EdgeKind;
  edge_label : option string;
}.

Definition EdgeData_new (id : EdgeId) (source target : NodeId) (kind : EdgeKind) : EdgeData :=
  EdgeData_mk id source target kind None.
Definition EdgeData_with_label (id : EdgeId) (source target : NodeId) (kind : EdgeKind)
    (label : string) : EdgeData :=
  EdgeData_mk id source target kind (Some label).
Definition EdgeData_label (e : EdgeData) (label : string) : EdgeData :=
  EdgeData_mk (edge_id e) (edge_source e) (edge_target e) (edge_kind e) (Some label).

(** ** Regions *)

Inductive DeploymentTarget : Type :=
  | Heap | Stack | Gpu | Shared | Persisted | Custom (name : string).

Record SCGRegion : Type := SCGRegion_mk {
  region_id : RegionId;
  region_nodes : gset Z;
  region_scope_level : Z;
  region_security_boundary : bool;
  region_deployment_target : DeploymentTarget;
}.

Definition SCGRegion_new (id : RegionId) (t : DeploymentTarget) : SCGRegion :=
  SCGRegion_mk id ∅ 0 false t.
Definition SCGRegion_with_scope_level (id : RegionId) (t : DeploymentTarget) (scope_level : Z) :
    SCGRegion := SCGRegion_mk id ∅ scope_level false t.
Definition SCGRegion_with_security_boundary (id : RegionId) (t : DeploymentTarget)
    (security_boundary : bool) : SCGRegion := SCGRegion_mk id ∅ 0 security_boundary t.
Definition SCGRegion_add_node (r : SCGRegion) (n : NodeId) : SCGRegion :=
  SCGRegion_mk (region_id r) ({[n]} ∪ region_nodes r) (region_scope_level r)
    (region_security_boundary r) (region_deployment_target r).
Definition SCGRegion_remove_node (r : SCGRegion) (n : NodeId) : SCGRegion * bool :=
  (SCGRegion_mk (region_id r) (region_nodes r ∖ {[n]}) (region_scope_level r)
     (region_security_boundary r) (region_deployment_target r),
   bool_decide (n ∈ region_nodes r)).
Definition SCGRegion_contains_node (r : SCGRegion) (n : NodeId) : bool :=
  bool_decide (n ∈ region_nodes r).
Definition SCGRegion_node_count (r : SCGRegion) : nat := size (region_nodes r).
