(* ===== verification/Scg.v ===== *)
(** * The semantic computation graph

    Models [src/src/scg/src/graph.rs]: the graph of a program, a [DiGraph] of node and
    edge data together with the two-way tables between public identifiers and slots, the
    regions, and the counters of fresh identifiers.  An iteration over a [HashMap] takes
    the enumeration it follows as an argument.  The search of [find_function_return] runs on
    fuel, one unit per slot and one more; a [&mut] handed out by [get_node_mut] and
    [get_edge_mut] is the update made through it. *)

From S2P Require Import Prelude Digraph ScgNode.
From stdpp Require Import gmap sorting.
From stdpp Require Import options.

#[local] Open Scope Z_scope.

(** ** Ordered sets *)

Record OrderedSet : Type := OrderedSet_mk {
  os_set : gset Z;
  os_order : list Z;
}.

Definition OrderedSet_new : OrderedSet := OrderedSet_mk ∅ [].
Definition OrderedSet_contains (s : OrderedSet) (v : Z) : bool := bool_decide (v ∈ os_set s).
Definition OrderedSet_insert (s : OrderedSet) (v : Z) : OrderedSet * bool :=
  if decide (v ∈ os_set s) then (s, false)
  else (OrderedSet_mk ({[v]} ∪ os_set s) (os_order s ++ [v]), true).
Definition OrderedSet_from_iter (l : list Z) : OrderedSet :=
  fold_left (λ s v, fst (OrderedSet_insert s v)) l OrderedSet_new.

(** ** Data *)

Inductive SCGError : Type :=
  | NodeNotFound (n : NodeId)
  | EdgeNotFound (e : EdgeId)
  | DuplicateNode (n : NodeId)
  | DuplicateEdge (e : EdgeId)
  | CycleDetected
  | ValidationFailed (msg : string)
  | RegionNotFound (r : RegionId)
  | InvalidEdgeEndpoints (source target : NodeId).

Record ValidationResult : Type := ValidationResult_mk {
  is_valid : bool;
  warnings : list string;
  errors : list string;
}.

Definition ValidationResult_ok : ValidationResult := ValidationResult_mk true [] [].
Definition with_warning (r : ValidationResult) (w : string) : ValidationResult :=
  ValidationResult_mk (is_valid r) (warnings r ++ [w]) (errors r).
Definition with_error (r : ValidationResult) (e : string) : ValidationResult :=
  ValidationResult_mk false (warnings r) (errors r ++ [e]).

Record SCG : Type := SCG_mk {
  graph : DiGraph NodeData EdgeData;
  node_id_to_index : gmap Z nat;
  node_index_to_id : gmap nat Z;
  edge_id_to_index : gmap Z nat;
  edge_index_to_id : gmap nat Z;
  regions : gmap Z SCGRegion;
  next_node_id : Z;
  next_edge_id : Z;
}.

Definition SCG_new : SCG := SCG_mk DiGraph_new ∅ ∅ ∅ ∅ ∅ 0 0.

(** ** Nodes *)

(** [alloc_node_id] and [alloc_edge_id]: the identifier and the next counter. *)
Definition alloc_node_id (chk : bool) (s : SCG) : outcome (NodeId * Z) :=
  n ← u64_add chk (next_node_id s) 1; Ret (next_node_id s, n).
Definition alloc_edge_id (chk : bool) (s : SCG) : outcome (EdgeId * Z) :=
  n ← u64_add chk (next_edge_id s) 1; Ret (next_edge_id s, n).

(** Insert [data] and both entries of the tables; [next] is the new counter. *)
Definition insert_node (s : SCG) (id : NodeId) (data : NodeData) (next : Z) : SCG :=
  let '(g, idx) := add_node (graph s) data in
  SCG_mk g (<[id := idx]> (node_id_to_index s)) (<[idx := id]> (node_index_to_id s))
    (edge_id_to_index s) (edge_index_to_id s) (regions s) next (next_edge_id s).

Definition SCG_add_node (chk : bool) (s : SCG) (t : NodeType) (payload : NodePayload)
    (pp : ProgramPoint) : outcome (SCG * NodeId) :=
  '(id, next) ← alloc_node_id chk s;
  Ret (insert_node s id (NodeData_mk id t None pp payload) next, id).

Definition SCG_add_node_with_id (chk : bool) (s : SCG) (id : NodeId) (t : NodeType)
    (payload : NodePayload) (pp : ProgramPoint) : outcome (SCG * result NodeId SCGError) :=
  match node_id_to_index s !! id with
  | Some _ => Ret (s, Err (DuplicateNode id))
  | None =>
      next ← (if next_node_id s <=? id then u64_add chk id 1 else Ret (next_node_id s));
      Ret (insert_node s id (NodeData_mk id t None pp payload) next, Ok id)
  end.

(** [rebuild_index_mappings] and [rebuild_edge_mappings]: the entries of the live slots, in
    the order of the slots. *)
Definition node_entries (g : DiGraph NodeData EdgeData) : list (Z * nat) :=
  omap (λ i, (λ d, (node_id d, i)) <$> node_weight g i) (node_indices g).
Definition edge_entries (g : DiGraph NodeData EdgeData) : list (Z * nat) :=
  omap (λ e, (λ d, (edge_id d, e)) <$> edge_weight g e) (edge_indices g).
Definition id_table (l : list (Z * nat)) : gmap Z nat :=
  fold_left (λ m p, <[p.1 := p.2]> m) l ∅.
Definition index_table (l : list (Z * nat)) : gmap nat Z :=
  fold_left (λ m p, <[p.2 := p.1]> m) l ∅.

Definition rebuild_index_mappings (s : SCG) : SCG :=
  SCG_mk (graph s) (id_table (node_entries (graph s))) (index_table (node_entries (graph s)))
    (id_table (edge_entries (graph s))) (index_table (edge_entries (graph s)))
    (regions s) (next_node_id s) (next_edge_id s).
Definition rebuild_edge_mappings (s : SCG) : SCG :=
  SCG_mk (graph s) (node_id_to_index s) (node_index_to_id s)
    (id_table (edge_entries (graph s))) (index_table (edge_entries (graph s)))
    (regions s) (next_node_id s) (next_edge_id s).

(** Drop the entries of the edge in slot [eidx]. *)
Definition forget_edge (tables : gmap Z nat * gmap nat Z) (eidx : nat) :
    gmap Z nat * gmap nat Z :=
  let '(by_id, by_index) := tables in
  match by_index !! eidx with
  | Some eid => (delete eid by_id, delete eidx by_index)
  | None => (by_id, by_index)
  end.

Definition SCG_remove_node (s : SCG) (id : NodeId) : outcome (SCG * result NodeData SCGError) :=
  match node_id_to_index s !! id with
  | None => Ret (s, Err (NodeNotFound id))
  | Some idx =>
      let edges_to_remove := map er_id (edges_directed (graph s) idx Outgoing) ++
                             map er_id (edges_directed (graph s) idx Incoming) in
      let '(eids, eixs) := fold_left forget_edge edges_to_remove
                             (edge_id_to_index s, edge_index_to_id s) in
      match remove_node (graph s) idx with
      | (_, None) => Panic
      | (g, Some data) =>
          Ret (rebuild_index_mappings
                 (SCG_mk g (delete id (node_id_to_index s)) (delete idx (node_index_to_id s))
                    eids eixs (regions s) (next_node_id s) (next_edge_id s)), Ok data)
      end
  end.

Definition SCG_get_node (s : SCG) (id : NodeId) : option NodeData :=
  idx ← node_id_to_index s !! id; node_weight (graph s) idx.

(** A write through [node_weight_mut] and [edge_weight_mut] of the directed graph. *)
Definition write_node (g : DiGraph NodeData EdgeData) (idx : nat) (f : NodeData → NodeData) :
    DiGraph NodeData EdgeData :=
  DiGraph_mk (update_node (λ n, NodeEntry_mk (f (ne_weight n)) (adj_out n) (adj_in n)) idx
                (dg_nodes g)) (dg_edges g) (num_nodes g) (num_edges g).
Definition write_edge (g : DiGraph NodeData EdgeData) (eidx : nat) (f : EdgeData → EdgeData) :
    DiGraph NodeData EdgeData :=
  DiGraph_mk (dg_nodes g)
    (alter (fmap (λ e, EdgeEntry_mk (f (ee_weight e)) (ee_source e) (ee_target e))) eidx
       (dg_edges g)) (num_nodes g) (num_edges g).

Definition with_graph (s : SCG) (g : DiGraph NodeData EdgeData) : SCG :=
  SCG_mk g (node_id_to_index s) (node_index_to_id s) (edge_id_to_index s) (edge_index_to_id s)
    (regions s) (next_node_id s) (next_edge_id s).

(** [if let Some(d) = self.get_node_mut(id) { *d = f(d) }], and the same for an edge. *)
Definition SCG_update_node (s : SCG) (id : NodeId) (f : NodeData → NodeData) : SCG :=
  match node_id_to_index s !! id with
  | Some idx => with_graph s (write_node (graph s) idx f)
  | None => s
  end.
Definition SCG_update_edge (s : SCG) (id : EdgeId) (f : EdgeData → EdgeData) : SCG :=
  match edge_id_to_index s !! id with
  | Some eidx => with_graph s (write_edge (graph s) eidx f)
  | None => s
  end.

Definition SCG_node_count (s : SCG) : nat := node_count (graph s).
Definition SCG_nodes (s : SCG) : list NodeData := node_weights (graph s).

(** ** Edges *)

Definition insert_edge (chk : bool) (s : SCG) (id : EdgeId) (source_idx target_idx : nat)
    (data : EdgeData) (next : Z) : outcome SCG :=
  '(g, eidx) ← add_edge chk (graph s) source_idx target_idx data;
  Ret (SCG_mk g (node_id_to_index s) (node_index_to_id s)
         (<[id := eidx]> (edge_id_to_index s)) (<[eidx := id]> (edge_index_to_id s))
         (regions s) (next_node_id s) next).

(** Both endpoints, or the error. *)
Definition endpoints (s : SCG) (source target : NodeId) : option (nat * nat) :=
  source_idx ← node_id_to_index s !! source;
  target_idx ← node_id_to_index s !! target;
  Some (source_idx, target_idx).

Definition SCG_add_edge (chk : bool) (s : SCG) (source target : NodeId) (kind : EdgeKind) :
    outcome (SCG * result EdgeId SCGError) :=
  match endpoints s source target with
  | None => Ret (s, Err (InvalidEdgeEndpoints source target))
  | Some (source_idx, target_idx) =>
      '(id, next) ← alloc_edge_id chk s;
      s ← insert_edge chk s id source_idx target_idx (EdgeData_mk id source target kind None) next;
      Ret (s, Ok id)
  end.

Definition SCG_add_edge_with_id (chk : bool) (s : SCG) (id : EdgeId) (source target : NodeId)
    (kind : EdgeKind) : outcome (SCG * result EdgeId SCGError) :=
  match edge_id_to_index s !! id with
  | Some _ => Ret (s, Err (DuplicateEdge id))
  | None =>
      match endpoints s source target with
      | None => Ret (s, Err (InvalidEdgeEndpoints source target))
      | Some (source_idx, target_idx) =>
          next ← (if next_edge_id s <=? id then u64_add chk id 1 else Ret (next_edge_id s));
          s ← insert_edge chk s id source_idx target_idx
                (EdgeData_mk id source target kind None) next;
          Ret (s, Ok id)
      end
  end.

Definition SCG_remove_edge (s : SCG) (id : EdgeId) : outcome (SCG * result EdgeData SCGError) :=
  match edge_id_to_index s !! id with
  | None => Ret (s, Err (EdgeNotFound id))
  | Some eidx =>
      match remove_edge (graph s) eidx with
      | (_, None) => Panic
      | (g, Some data) =>
          Ret (rebuild_edge_mappings
                 (SCG_mk g (node_id_to_index s) (node_index_to_id s)
                    (delete id (edge_id_to_index s)) (delete eidx (edge_index_to_id s))
                    (regions s) (next_node_id s) (next_edge_id s)), Ok data)
      end
  end.

Definition SCG_get_edge (s : SCG) (id : EdgeId) : option EdgeData :=
  eidx ← edge_id_to_index s !! id; edge_weight (graph s) eidx.
Definition SCG_edge_count (s : SCG) : nat := edge_count (graph s).
Definition SCG_edges (s : SCG) : list EdgeData := edge_weights (graph s).

Definition add_call_edge (chk : bool) (s : SCG) (from_node to_node : NodeId)
    (caller_region : RegionId) : outcome (SCG * result EdgeId SCGError) :=
  SCG_add_edge chk s from_node to_node (Call from_node to_node caller_region).
Definition add_return_edge (chk : bool) (s : SCG) (from_node to_node : NodeId)
    (return_values : list NodeId) : outcome (SCG * result EdgeId SCGError) :=
  SCG_add_edge chk s from_node to_node (Return from_node to_node return_values).

Definition edges_of_kind (s : SCG) (kind : EdgeKind) : list EdgeData :=
  filter (λ e, edge_kind e = kind) (SCG_edges s).
Definition is_call (k : EdgeKind) : bool := match k with Call _ _ _ => true | _ => false end.
Definition is_return (k : EdgeKind) : bool := match k with Return _ _ _ => true | _ => false end.
Definition call_edges (s : SCG) : list EdgeData :=
  List.filter (λ e, is_call (edge_kind e)) (SCG_edges s).
Definition return_edges (s : SCG) : list EdgeData :=
  List.filter (λ e, is_return (edge_kind e)) (SCG_edges s).

(** The entries and the returns of functions. *)
Definition control_kind_of (p : NodePayload) : option ControlKind :=
  match p with PControl c => Some (control_kind c) | _ => None end.
Definition boundary_of (kind : ControlKind) (s : SCG) : list NodeId :=
  map node_id (filter (λ n, node_type n = TControl ∧
                            control_kind_of (node_payload n) = Some kind) (SCG_nodes s)).
Definition function_boundary_nodes (s : SCG) : list NodeId * list NodeId :=
  (boundary_of FunctionEntry s, boundary_of FunctionReturn s).

(** ** Traversals *)

(** Is the node in slot [i] the return of a function?  Its identifier if so. *)
Definition function_return_at (s : SCG) (i : nat) : option NodeId :=
  target_id ← node_index_to_id s !! i;
  node ← SCG_get_node s target_id;
  if bool_decide (control_kind_of (node_payload node) = Some FunctionReturn)
  then Some target_id else None.

(** The edges leaving one slot: either the answer or the new set and queue. *)
Fixpoint return_scan (s : SCG) (targets : list nat) (visited : gset nat) (queue : list nat) :
    NodeId + (gset nat * list nat) :=
  match targets with
  | [] => inr (visited, queue)
  | t :: rest =>
      if decide (t ∈ visited) then return_scan s rest visited queue
      else match function_return_at s t with
           | Some id => inl id
           | None => return_scan s rest ({[t]} ∪ visited) (queue ++ [t])
           end
  end.

(** The outer [None] is the end of the fuel. *)
Fixpoint return_search (fuel : nat) (s : SCG) (visited : gset nat) (queue : list nat) :
    option (option NodeId) :=
  match queue with
  | [] => Some None
  | current :: queue' =>
      match fuel with
      | O => None
      | S fuel' =>
          match return_scan s (map er_target (edges_directed (graph s) current Outgoing))
                  visited queue' with
          | inl id => Some (Some id)
          | inr (visited, queue) => return_search fuel' s visited queue
          end
      end
  end.

Definition find_function_return (s : SCG) (entry : NodeId) : option (option NodeId) :=
  match node_id_to_index s !! entry with
  | None => Some None
  | Some entry_idx =>
      return_search (S (length (dg_nodes (graph s)))) s {[entry_idx]} [entry_idx]
  end.

Definition ids_of (s : SCG) (l : list nat) : list NodeId :=
  omap (λ i, node_index_to_id s !! i) l.

Definition SCG_successors (s : SCG) (id : NodeId) : option (list NodeId) :=
  idx ← node_id_to_index s !! id; Some (ids_of s (neighbors_directed (graph s) idx Outgoing)).
Definition SCG_predecessors (s : SCG) (id : NodeId) : option (list NodeId) :=
  idx ← node_id_to_index s !! id; Some (ids_of s (neighbors_directed (graph s) idx Incoming)).

Definition find_path (s : SCG) (source target : NodeId) : outcome (option bool) :=
  match endpoints s source target with
  | None => Ret None
  | Some (source_idx, target_idx) =>
      b ← has_path_connecting (graph s) source_idx target_idx; Ret (Some b)
  end.

Definition topological_sort (s : SCG) : outcome (result (list NodeId) SCGError) :=
  r ← toposort (graph s);
  match r with
  | Ok sorted => Ret (Ok (ids_of s sorted))
  | Err _ => Ret (Err CycleDetected)
  end.

Definition has_cycles (s : SCG) : outcome bool :=
  r ← toposort (graph s); Ret (negb (is_ok r)).

(** ** Regions *)

Definition with_regions (s : SCG) (r : gmap Z SCGRegion) : SCG :=
  SCG_mk (graph s) (node_id_to_index s) (node_index_to_id s) (edge_id_to_index s)
    (edge_index_to_id s) r (next_node_id s) (next_edge_id s).
Definition add_region (s : SCG) (r : SCGRegion) : SCG :=
  with_regions s (<[region_id r := r]> (regions s)).
Definition get_region (s : SCG) (id : RegionId) : option SCGRegion := regions s !! id.
(** A write through [get_region_mut]. *)
Definition update_region (s : SCG) (id : RegionId) (f : SCGRegion → SCGRegion) : SCG :=
  with_regions s (alter f id (regions s)).
Definition remove_region (s : SCG) (id : RegionId) : SCG * option SCGRegion :=
  (with_regions s (delete id (regions s)), regions s !! id).
Definition region_count (s : SCG) : nat := size (regions s).

(** ** Validation *)

(** [regs] is the order in which the map of regions is walked. *)
Definition find_region_for_node (regs : list SCGRegion) (n : NodeId) : option RegionId :=
  region_id <$> Prelude.find (λ r, SCGRegion_contains_node r n) regs.

Definition check_endpoints (s : SCG) (r : ValidationResult) (e : EdgeData) : ValidationResult :=
  let r := match SCG_get_node s (edge_source e) with
           | None => with_error r ("edge " +:+ EdgeId_display (edge_id e) +:+
               " references non-existent source node " +:+ NodeId_display (edge_source e))
           | Some _ => r end in
  match SCG_get_node s (edge_target e) with
  | None => with_error r ("edge " +:+ EdgeId_display (edge_id e) +:+
      " references non-existent target node " +:+ NodeId_display (edge_target e))
  | Some _ => r
  end.

Definition is_allocation (n : NodeData) : bool := bool_decide (node_type n = TAllocation).
Definition deallocates (n : NodeData) : option NodeId :=
  match node_payload n with PDeallocation d => Some (deallocation_allocation_node d) | _ => None end.

Definition check_freed (deallocated : OrderedSet) (r : ValidationResult) (a : NodeId) :
    ValidationResult :=
  if OrderedSet_contains deallocated a then r
  else with_warning r ("allocation node " +:+ NodeId_display a +:+
                       " has no corresponding deallocation").

Definition check_deallocation (allocations : OrderedSet) (r : ValidationResult) (n : NodeData) :
    ValidationResult :=
  match deallocates n with
  | Some a =>
      if OrderedSet_contains allocations a then r
      else with_error r ("deallocation node " +:+ NodeId_display (node_id n) +:+
             " references non-existent allocation node " +:+ NodeId_display a)
  | None => r
  end.

Definition is_nil {A} (l : list A) : bool := match l with [] => true | _ => false end.

Definition check_orphan (s : SCG) (r : ValidationResult) (n : NodeData) : ValidationResult :=
  if bool_decide (node_type n = TPhantom) then r else
  let succs := default [] (SCG_successors s (node_id n)) in
  let preds := default [] (SCG_predecessors s (node_id n)) in
  if is_nil succs && is_nil preds && (1 <? SCG_node_count s)%nat
  then with_warning r ("orphan node " +:+ NodeId_display (node_id n) +:+ " (no edges)")
  else r.

Definition is_boundary (s : SCG) (r : RegionId) : bool :=
  match regions s !! r with Some r => region_security_boundary r | None => false end.

Definition check_boundary (s : SCG) (regs : list SCGRegion) (r : ValidationResult) (e : EdgeData) :
    ValidationResult :=
  if negb (bool_decide (edge_kind e = DataFlow)) then r else
  match find_region_for_node regs (edge_source e), find_region_for_node regs (edge_target e) with
  | Some src, Some tgt =>
      if negb (src =? tgt) && (is_boundary s src || is_boundary s tgt)
      then with_error r ("data flow edge " +:+ EdgeId_display (edge_id e) +:+
             " crosses security boundary between regions " +:+ RegionId_display src +:+
             " and " +:+ RegionId_display tgt)
      else r
  | _, _ => r
  end.

Definition validate (s : SCG) (regs : list SCGRegion) : ValidationResult :=
  let r := fold_left (check_endpoints s) (SCG_edges s) ValidationResult_ok in
  let allocations :=
    OrderedSet_from_iter (map node_id (List.filter is_allocation (SCG_nodes s))) in
  let deallocated := OrderedSet_from_iter (omap deallocates (SCG_nodes s)) in
  let r := fold_left (check_freed deallocated) (os_order allocations) r in
  let r := fold_left (check_deallocation allocations) (SCG_nodes s) r in
  let r := fold_left (check_orphan s) (SCG_nodes s) r in
  fold_left (check_boundary s regs) (SCG_edges s) r.

(** ** Merging *)

(** [max + 1] over the regions, [1] when there is none. *)
Definition max_region_id (s : SCG) : Z :=
  map_fold (λ k _ m, Z.max k m) 0 (regions s).
Definition next_region_id (chk : bool) (s : SCG) : outcome Z := u64_add chk (max_region_id s) 1.

Definition set_annotation (a : BDReference) (d : NodeData) : NodeData :=
  NodeData_mk (node_id d) (node_type d) (Some a) (node_program_point d) (node_payload d).

Definition merge_node (chk : bool) (st : outcome (SCG * gmap Z Z)) (d : NodeData) :
    outcome (SCG * gmap Z Z) :=
  '(s, node_map) ← st;
  '(s, new_id) ← SCG_add_node chk s (node_type d) (node_payload d) (node_program_point d);
  let s := match node_annotation d with
           | Some ann => SCG_update_node s new_id (set_annotation ann)
           | None => s end in
  Ret (s, <[node_id d := new_id]> node_map).

Definition merge_edge (chk : bool) (node_map : gmap Z Z) (st : outcome SCG) (e : EdgeData) :
    outcome SCG :=
  s ← st;
  let new_source := default (edge_source e) (node_map !! edge_source e) in
  let new_target := default (edge_target e) (node_map !! edge_target e) in
  '(s, r) ← SCG_add_edge chk s new_source new_target (edge_kind e);
  Ret match r, edge_label e with
      | Ok new_eid, Some label => SCG_update_edge s new_eid (λ d, EdgeData_label d label)
      | _, _ => s
      end.

Definition merge_region (chk : bool) (node_map : gmap Z Z) (st : outcome SCG) (r : SCGRegion) :
    outcome SCG :=
  s ← st;
  id ← next_region_id chk s;
  Ret (add_region s
         (SCGRegion_mk id (list_to_set (omap (λ n, node_map !! n) (elements (region_nodes r))))
            (region_scope_level r) (region_security_boundary r) (region_deployment_target r))).

(** [regs] is the order in which the regions of [other] are walked. *)
Definition merge (chk : bool) (s other : SCG) (regs : list SCGRegion) :
    outcome (SCG * gmap Z Z) :=
  '(s, node_map) ← fold_left (merge_node chk) (SCG_nodes other) (Ret (s, ∅));
  s ← fold_left (merge_edge chk node_map) (SCG_edges other) (Ret s);
  s ← fold_left (merge_region chk node_map) regs (Ret s);
  Ret (s, node_map).
