(* ===== verification/ScgInv.v ===== *)
(** * The invariant of the semantic computation graph

    What the operations of [Scg] do to the slots of the underlying graph, the invariant that
    ties the slots, the identifier tables and the counters together, and that every
    operation, merging included, keeps it. *)

From S2P Require Import Prelude Digraph ScgNode Scg.
From stdpp Require Import gmap.
From stdpp Require Import options.

#[local] Open Scope Z_scope.

(** ** The identifiers in the slots *)

Notation graph_t := (DiGraph NodeData EdgeData) (only parsing).

Definition nid (g : graph_t) (i : nat) : option Z := node_id <$> node_weight g i.
Definition eid (g : graph_t) (e : nat) : option Z := edge_id <$> edge_weight g e.

(** A table and its inverse hold exactly the identifiers of the live slots. *)
Definition tables_ok (by_id : gmap Z nat) (by_index : gmap nat Z) (idf : nat → option Z) : Prop :=
  (∀ id i, by_id !! id = Some i ↔ idf i = Some id) ∧ (∀ i, by_index !! i = idf i).

(** Every edge names the identifiers of the nodes it joins. *)
Definition ends_named (g : graph_t) : Prop :=
  ∀ e en, edge_at g e = Some en →
    nid g (ee_source en) = Some (edge_source (ee_weight en)) ∧
    nid g (ee_target en) = Some (edge_target (ee_weight en)).

(** Identifiers are below the counter, and the counter is a [u64]. *)
Definition ids_below (idf : nat → option Z) (next : Z) : Prop :=
  is_u64 next ∧ ∀ i id, idf i = Some id → 0 ≤ id < next.

Record scg_ok (s : SCG) : Prop := {
  so_graph : graph_ok (graph s);
  so_nodes : tables_ok (node_id_to_index s) (node_index_to_id s) (nid (graph s));
  so_edges : tables_ok (edge_id_to_index s) (edge_index_to_id s) (eid (graph s));
  so_ends : ends_named (graph s);
  so_next_node : ids_below (nid (graph s)) (next_node_id s);
  so_next_edge : ids_below (eid (graph s)) (next_edge_id s);
  so_regions : ∀ k r, regions s !! k = Some r → region_id r = k;
}.

(** ** What the operations on slots do to the data *)

Section slots.
  Context {N E : Type}.
  Implicit Types g : DiGraph N E.

Lemma add_node_weight g w (i : nat) :
  node_weight (fst (add_node g w)) i =
  if decide (i = length (dg_nodes g)) then Some w else node_weight g i.
Proof. unfold node_weight. rewrite add_node_at. repeat case_decide; done. Qed.

Lemma add_node_edge_at g w e : edge_at (fst (add_node g w)) e = edge_at g e.
Proof. done. Qed.

Lemma node_weight_fresh g : node_weight g (length (dg_nodes g)) = None.
Proof. unfold node_weight, node_at. by rewrite lookup_ge_None_2. Qed.

Lemma edge_at_fresh g : edge_at g (length (dg_edges g)) = None.
Proof. unfold edge_at. by rewrite lookup_ge_None_2. Qed.

Lemma update_node_weight f i (l : list (option (NodeEntry N))) j :
  (∀ n, ne_weight (f n) = ne_weight n) →
  ne_weight <$> mjoin (update_node f i l !! j) = ne_weight <$> mjoin (l !! j).
Proof.
  intros Hf. rewrite mjoin_update. case_decide; [|done]. subst.
  destruct (mjoin (l !! i)); simpl; by rewrite ?Hf.
Qed.

Lemma omap_update_node {B} (h : NodeEntry N → B) f i (l : list (option (NodeEntry N))) :
  (∀ n, h (f n) = h n) → omap (fmap h) (alter (fmap f) i l) = omap (fmap h) l.
Proof.
  intros Hf. revert i.
  induction l as [|[x|] l IH]; intros [|i]; try done; simpl; rewrite ?Hf; try done;
    unfold alter, omap in IH; by rewrite IH.
Qed.

Lemma add_edge_inv chk g a b w g' k :
  add_edge chk g a b w = Ret (g', k) →
  k = length (dg_edges g) ∧ (∀ i, node_weight g' i = node_weight g i) ∧
  (∀ e, edge_at g' e = if decide (e = k) then Some (EdgeEntry_mk w a b) else edge_at g e) ∧
  edge_weights g' = edge_weights g ++ [w] ∧ node_weights g' = node_weights g.
Proof.
  unfold add_edge. case_match; [done|]. intros [= <- <-]. split; [done|]. split; [|split; [|split]].
  - intros i. unfold node_weight, node_at. simpl. by rewrite !update_node_weight.
  - intros e. unfold edge_at. simpl. apply mjoin_snoc.
  - unfold edge_weights. simpl. by rewrite omap_app.
  - unfold node_weights. simpl. unfold update_node.
    by rewrite !omap_update_node.
Qed.

Lemma add_edge_no_panic chk g a b w :
  is_Some (node_weight g a) → is_Some (node_weight g b) →
  ∃ r, add_edge chk g a b w = Ret r.
Proof.
  unfold node_weight. rewrite !fmap_is_Some. intros Ha Hb. unfold add_edge.
  apply is_some_spec in Ha, Hb. rewrite Ha, Hb. rewrite andb_false_r. eauto.
Qed.

Lemma remove_edge_weight g k i :
  node_weight (fst (remove_edge_inner g k)) i = node_weight g i.
Proof.
  unfold remove_edge_inner. destruct (edge_at g k) as [en|]; [|done].
  unfold node_weight, node_at. simpl. by rewrite !update_node_weight.
Qed.

Lemma remove_edges_weight es g i :
  node_weight (fold_left (λ g e, fst (remove_edge_inner g e)) es g) i = node_weight g i.
Proof.
  revert g. induction es as [|e es IH]; intros g; [done|]. simpl. by rewrite IH, remove_edge_weight.
Qed.

Lemma remove_edges_at es g x :
  edge_at (fold_left (λ g e, fst (remove_edge_inner g e)) es g) x =
  if decide (x ∈ es) then None else edge_at g x.
Proof.
  revert g. induction es as [|e es IH]; intros g; simpl.
  { done. }
  rewrite IH, remove_edge_at. repeat case_decide; try done; set_solver.
Qed.

Lemma remove_node_inv g n w :
  node_weight g n = Some w →
  ∃ g', remove_node g n = (g', Some w) ∧
    (∀ i, node_weight g' i = if decide (i = n) then None else node_weight g i) ∧
    (∀ e en, edge_at g' e = Some en → edge_at g e = Some en).
Proof.
  unfold node_weight at 1, remove_node. destruct (node_at g n) as [m|] eqn:En; [|done].
  intros [= <-]. eexists. split; [done|]. split.
  - intros i. set (g0 := DiGraph_mk (<[n:=None]> (dg_nodes g)) (dg_edges g) (num_nodes g) (num_edges g)).
    transitivity (node_weight g0 i).
    { exact (remove_edges_weight (adj_out m ++ adj_in m) g0 i). }
    unfold node_weight, node_at, g0. simpl. rewrite mjoin_clear. by repeat case_decide.
  - intros e en He. unfold edge_at in He. cbn [dg_edges] in He.
    set (g0 := DiGraph_mk (<[n:=None]> (dg_nodes g)) (dg_edges g) (num_nodes g) (num_edges g)) in He.
    change (edge_at (fold_left (λ g e, fst (remove_edge_inner g e)) (adj_out m ++ adj_in m) g0) e
      = Some en) in He.
    rewrite remove_edges_at in He. by case_decide.
Qed.

Lemma remove_edge_inv g k w :
  edge_weight g k = Some w →
  ∃ g', remove_edge g k = (g', Some w) ∧ (∀ i, node_weight g' i = node_weight g i) ∧
    (∀ e, edge_at g' e = if decide (e = k) then None else edge_at g e).
Proof.
  intros Hk. exists (fst (remove_edge g k)). split; [|split].
  - unfold remove_edge, remove_edge_inner. unfold edge_weight in Hk.
    destruct (edge_at g k) as [en|]; [|done]. simpl in *. by simplify_eq.
  - intros i. apply remove_edge_weight.
  - intros e. apply remove_edge_at.
Qed.

End slots.

(** ** The tables *)

Lemma tables_inj m n idf i j id :
  tables_ok m n idf → idf i = Some id → idf j = Some id → i = j.
Proof. intros [Hm _] Hi%Hm Hj%Hm. congruence. Qed.

Lemma tables_ext m n idf idf' :
  (∀ i, idf' i = idf i) → tables_ok m n idf → tables_ok m n idf'.
Proof. intros He [Hm Hn]. split; intros; rewrite He; auto. Qed.

Lemma tables_insert m n idf idf' i id :
  tables_ok m n idf → idf i = None → m !! id = None →
  (∀ j, idf' j = if decide (j = i) then Some id else idf j) →
  tables_ok (<[id := i]> m) (<[i := id]> n) idf'.
Proof.
  intros [Hm Hn] Hi Hid He. split.
  - intros id' j. rewrite He, lookup_insert. repeat case_decide; simplify_eq; try naive_solver.
  - intros j. rewrite He, lookup_insert. repeat case_decide; simplify_eq; done || apply Hn.
Qed.

(** The tables of a list of entries. *)
Lemma id_table_lookup l m id i :
  (∀ id i j, (id, i) ∈ l → (id, j) ∈ l → i = j) →
  fold_left (λ (m : gmap Z nat) p, <[p.1 := p.2]> m) l m !! id = Some i ↔
  (id, i) ∈ l ∨ ((∀ j, (id, j) ∉ l) ∧ m !! id = Some i).
Proof.
  revert m. induction l as [|[k v] l IH]; intros m Hf; simpl.
  { set_solver. }
  rewrite IH by (intros ? ? ? ? ?; eapply Hf; by right). rewrite lookup_insert.
  setoid_rewrite elem_of_cons. case_decide as Hk.
  - subst. split.
    + intros [?|[Hn [= ->]]]; by left; auto.
    + intros [[?|?]|[Hn _]]; [|by left|destruct (Hn v); by left].
      simplify_eq. destruct (decide ((id, v) ∈ l)); [by left|]. right. split; [|done].
      intros j Hj. assert (j = v) as -> by (eapply Hf; [by right|by left]). done.
  - split; [|naive_solver]. intros [?|[Hn ?]]; [by left; right|]. right. split; [|done].
    intros j [?|?]; [congruence|by eapply Hn].
Qed.

Lemma index_table_lookup l m i id :
  (∀ i id id', (id, i) ∈ l → (id', i) ∈ l → id = id') →
  fold_left (λ (m : gmap nat Z) p, <[p.2 := p.1]> m) l m !! i = Some id ↔
  (id, i) ∈ l ∨ ((∀ id', (id', i) ∉ l) ∧ m !! i = Some id).
Proof.
  revert m. induction l as [|[k v] l IH]; intros m Hf; simpl.
  { set_solver. }
  rewrite IH by (intros ? ? ? ? ?; eapply Hf; by right). rewrite lookup_insert.
  setoid_rewrite elem_of_cons. case_decide as Hk.
  - subst. split.
    + intros [?|[Hn [= ->]]]; by left; auto.
    + intros [[?|?]|[Hn _]]; [|by left|destruct (Hn k); by left].
      simplify_eq. destruct (decide ((k, i) ∈ l)); [by left|]. right. split; [|done].
      intros j Hj. assert (j = k) as -> by (eapply Hf; [by right|by left]). done.
  - split; [|naive_solver]. intros [?|[Hn ?]]; [by left; right|]. right. split; [|done].
    intros j [?|?]; [congruence|by eapply Hn].
Qed.

Lemma tables_rebuild (idf : nat → option Z) l :
  (∀ i j id, idf i = Some id → idf j = Some id → i = j) →
  (∀ id i, (id, i) ∈ l ↔ idf i = Some id) →
  tables_ok (id_table l) (index_table l) idf.
Proof.
  intros Hinj Hl. split.
  - intros id i. unfold id_table. rewrite id_table_lookup.
    + rewrite Hl, lookup_empty. naive_solver.
    + intros id' a b Ha%Hl Hb%Hl. by eapply Hinj.
  - intros i. apply option_eq. intros id. unfold index_table. rewrite index_table_lookup.
    + rewrite Hl, lookup_empty. naive_solver.
    + intros j a b Ha%Hl Hb%Hl. congruence.
Qed.

Lemma elem_of_node_entries g id i : (id, i) ∈ node_entries g ↔ nid g i = Some id.
Proof.
  unfold node_entries, nid. rewrite list_elem_of_omap. split.
  - intros (j & _ & Hj). destruct (node_weight g j) eqn:E; [|done]. simpl in Hj. simplify_eq.
    by rewrite E.
  - intros Hi. exists i. rewrite elem_of_node_indices.
    unfold node_weight in *. destruct (node_at g i); [|done]. simpl in *. simplify_eq. eauto.
Qed.

Lemma elem_of_edge_entries g id e : (id, e) ∈ edge_entries g ↔ eid g e = Some id.
Proof.
  unfold edge_entries, eid. rewrite list_elem_of_omap. split.
  - intros (j & _ & Hj). destruct (edge_weight g j) eqn:E; [|done]. simpl in Hj. simplify_eq.
    by rewrite E.
  - intros Hi. exists e. unfold edge_indices. rewrite elem_of_occupied.
    unfold edge_weight, edge_at in *. destruct (mjoin (dg_edges g !! e)); [|done].
    simpl in *. simplify_eq. eauto.
Qed.

(** ** Fresh identifiers *)

Lemma ids_below_fresh m n idf next : tables_ok m n idf → ids_below idf next → m !! next = None.
Proof.
  intros [Hm _] [_ Hb]. destruct (m !! next) as [i|] eqn:E; [|done].
  apply Hm, Hb in E. lia.
Qed.

Lemma ids_below_insert idf idf' next next' i id :
  ids_below idf next → next ≤ next' → is_u64 next' → 0 ≤ id < next' →
  (∀ j, idf' j = if decide (j = i) then Some id else idf j) → ids_below idf' next'.
Proof.
  intros [_ Hb] Hle Hn Hid He. split; [done|]. intros j id'. rewrite He. case_decide.
  - intros [= <-]. done.
  - intros Hj%Hb. lia.
Qed.

Lemma ids_below_sub idf idf' next :
  ids_below idf next → (∀ i id, idf' i = Some id → idf i = Some id) → ids_below idf' next.
Proof. intros [Hn Hb] Hs. split; [done|]. intros i id Hi%Hs. by eapply Hb. Qed.

(** ** The operations keep the invariant *)

Lemma SCG_new_ok : scg_ok SCG_new.
Proof.
  split; simpl; try (by split; [done|]); try done.
Qed.

Lemma nid_add_node g d i :
  nid (fst (add_node g d)) i =
  if decide (i = length (dg_nodes g)) then Some (node_id d) else nid g i.
Proof. unfold nid. rewrite add_node_weight. by case_decide. Qed.

Lemma nid_fresh g : nid g (length (dg_nodes g)) = None.
Proof. unfold nid. by rewrite node_weight_fresh. Qed.

Lemma eid_fresh g : eid g (length (dg_edges g)) = None.
Proof. unfold eid, edge_weight. by rewrite edge_at_fresh. Qed.

Lemma insert_node_ok s d next :
  scg_ok s → node_id_to_index s !! node_id d = None →
  next_node_id s ≤ next → is_u64 next → 0 ≤ node_id d < next →
  scg_ok (insert_node s (node_id d) d next).
Proof.
  intros [Hg Hn He Hends Hnn Hne Hr] Hid Hle Hu Hb. unfold insert_node.
  destruct (add_node (graph s) d) as [g idx] eqn:E.
  assert (g = fst (add_node (graph s) d)) as -> by by rewrite E.
  assert (idx = length (dg_nodes (graph s))) as -> by (by injection E).
  split; cbn [graph node_id_to_index node_index_to_id edge_id_to_index edge_index_to_id regions
              next_node_id next_edge_id]; try done.
  - by apply add_node_ok.
  - eapply tables_insert; [done|apply nid_fresh|done|]. intros j. apply nid_add_node.
  - intros e en Hen. rewrite !nid_add_node. destruct (Hends e en Hen) as [Hs Ht].
    split; case_decide as Hi; try done; rewrite Hi, nid_fresh in Hs || rewrite Hi, nid_fresh in Ht;
      done.
  - eapply (ids_below_insert _ _ _ _ _ _ Hnn); try done. intros j. apply nid_add_node.
Qed.

Lemma SCG_add_node_ok s t p pp s' id :
  scg_ok s → SCG_add_node true s t p pp = Ret (s', id) → scg_ok s'.
Proof.
  intros Hok. unfold SCG_add_node, alloc_node_id.
  destruct (u64_add true (next_node_id s) 1) as [n|] eqn:E; [|done].
  apply u64_of_checked in E as [-> Hu]. cbn. intros [= <- <-].
  apply (insert_node_ok s (NodeData_mk _ t None pp p)); simpl; [done| |lia|done|].
  - eapply ids_below_fresh; apply Hok.
  - pose proof (proj1 (so_next_node _ Hok)) as Hn. unfold is_u64 in Hn. lia.
Qed.

Lemma SCG_add_node_with_id_ok s id t p pp s' r :
  is_u64 id → scg_ok s → SCG_add_node_with_id true s id t p pp = Ret (s', r) → scg_ok s'.
Proof.
  intros Hid Hok. unfold SCG_add_node_with_id.
  destruct (node_id_to_index s !! id) eqn:E; [by intros [= <- <-]|].
  pose proof (proj1 (so_next_node _ Hok)) as Hn. unfold is_u64 in *.
  destruct (Z.leb_spec (next_node_id s) id).
  - destruct (u64_add true id 1) as [n|] eqn:En; [|done].
    apply u64_of_checked in En as [-> Hu]. cbn. intros [= <- <-].
    apply (insert_node_ok s (NodeData_mk id t None pp p)); simpl; done || lia.
  - cbn. intros [= <- <-].
    apply (insert_node_ok s (NodeData_mk id t None pp p)); simpl; done || lia.
Qed.

Lemma insert_edge_ok s a b d next s' :
  scg_ok s → edge_id_to_index s !! edge_id d = None →
  next_edge_id s ≤ next → is_u64 next → 0 ≤ edge_id d < next →
  nid (graph s) a = Some (edge_source d) → nid (graph s) b = Some (edge_target d) →
  insert_edge true s (edge_id d) a b d next = Ret s' → scg_ok s'.
Proof.
  intros [Hg Hn He Hends Hnn Hne Hr] Hid Hle Hu Hb Ha Hbb. unfold insert_edge.
  destruct (add_edge true (graph s) a b d) as [[g k]|] eqn:E; [|done].
  pose proof (add_edge_ok _ _ _ _ _ _ Hg E) as Hg'.
  apply add_edge_inv in E as (-> & Hw & Hat & _). cbn. intros [= <-].
  assert (∀ i, nid g i = nid (graph s) i) as Hnid by (intros i; unfold nid; by rewrite Hw).
  assert (∀ e, eid g e = if decide (e = length (dg_edges (graph s))) then Some (edge_id d)
                         else eid (graph s) e) as Heid.
  { intros e. unfold eid, edge_weight. rewrite Hat. by repeat case_decide. }
  split; cbn [graph node_id_to_index node_index_to_id edge_id_to_index edge_index_to_id regions
              next_node_id next_edge_id]; try done.
  - eapply tables_ext; done.
  - eapply tables_insert; [done|apply eid_fresh|done|]. done.
  - intros e en. rewrite Hat, !Hnid. case_decide; [by intros [= <-]|apply Hends].
  - eapply ids_below_sub; [done|]. intros i id. by rewrite Hnid.
  - by eapply ids_below_insert.
Qed.

Lemma endpoints_nid s source target a b :
  scg_ok s → endpoints s source target = Some (a, b) →
  nid (graph s) a = Some source ∧ nid (graph s) b = Some target.
Proof.
  intros Hok. unfold endpoints.
  destruct (node_id_to_index s !! source) as [i|] eqn:Ea; [|done].
  destruct (node_id_to_index s !! target) as [j|] eqn:Eb; [|done].
  cbn. intros [= <- <-]. by rewrite <-!(proj1 (so_nodes _ Hok)).
Qed.

Lemma SCG_add_edge_ok s source target kind s' r :
  scg_ok s → SCG_add_edge true s source target kind = Ret (s', r) → scg_ok s'.
Proof.
  intros Hok. unfold SCG_add_edge.
  destruct (endpoints s source target) as [[a b]|] eqn:E; [|by intros [= <- <-]].
  apply endpoints_nid in E as [Ha Hb]; [|done]. unfold alloc_edge_id.
  destruct (u64_add true (next_edge_id s) 1) as [n|] eqn:En; [|done].
  apply u64_of_checked in En as [-> Hu]. cbn.
  destruct (insert_edge _ _ _ _ _ _ _) as [s1|] eqn:Ei; [|done]. cbn. intros [= <- <-].
  pose proof (proj1 (so_next_edge _ Hok)) as Hn. unfold is_u64 in Hn.
  apply (insert_edge_ok _ _ _ (EdgeData_mk _ source target kind None) _ _ Hok) in Ei;
    simpl; try done || lia.
  eapply ids_below_fresh; apply Hok.
Qed.

Lemma SCG_add_edge_with_id_ok s id source target kind s' r :
  is_u64 id → scg_ok s → SCG_add_edge_with_id true s id source target kind = Ret (s', r) →
  scg_ok s'.
Proof.
  intros Hid Hok. unfold SCG_add_edge_with_id.
  destruct (edge_id_to_index s !! id) eqn:Ee; [by intros [= <- <-]|].
  destruct (endpoints s source target) as [[a b]|] eqn:E; [|by intros [= <- <-]].
  apply endpoints_nid in E as [Ha Hb]; [|done].
  pose proof (proj1 (so_next_edge _ Hok)) as Hn. unfold is_u64 in *.
  destruct (Z.leb_spec (next_edge_id s) id).
  - destruct (u64_add true id 1) as [n|] eqn:En; [|done].
    apply u64_of_checked in En as [-> Hu]. cbn.
    destruct (insert_edge _ _ _ _ _ _ _) as [s1|] eqn:Ei; [|done]. cbn. intros [= <- <-].
    apply (insert_edge_ok _ _ _ (EdgeData_mk id source target kind None) _ _ Hok) in Ei;
      simpl; done || lia.
  - cbn. destruct (insert_edge _ _ _ _ _ _ _) as [s1|] eqn:Ei; [|done]. cbn. intros [= <- <-].
    apply (insert_edge_ok _ _ _ (EdgeData_mk id source target kind None) _ _ Hok) in Ei;
      simpl; done || lia.
Qed.

(** Removals discard the tables and rebuild them from the slots. *)
Lemma rebuild_nodes_ok g m n idf :
  tables_ok m n idf → (∀ i id, nid g i = Some id → idf i = Some id) →
  tables_ok (id_table (node_entries g)) (index_table (node_entries g)) (nid g).
Proof.
  intros Ht Hs. apply tables_rebuild; [|apply elem_of_node_entries].
  intros i j id Hi%Hs Hj%Hs. by eapply tables_inj.
Qed.

Lemma rebuild_edges_ok g m n idf :
  tables_ok m n idf → (∀ e id, eid g e = Some id → idf e = Some id) →
  tables_ok (id_table (edge_entries g)) (index_table (edge_entries g)) (eid g).
Proof.
  intros Ht Hs. apply tables_rebuild; [|apply elem_of_edge_entries].
  intros i j id Hi%Hs Hj%Hs. by eapply tables_inj.
Qed.

Lemma nid_Some g i id : nid g i = Some id ↔ ∃ d, node_weight g i = Some d ∧ node_id d = id.
Proof. unfold nid. rewrite fmap_Some. naive_solver. Qed.

Lemma eid_Some g e id : eid g e = Some id ↔ ∃ d, edge_weight g e = Some d ∧ edge_id d = id.
Proof. unfold eid. rewrite fmap_Some. naive_solver. Qed.

(** The [expect] of [remove_node] never fires, and the removal is the one asked for. *)
Lemma SCG_remove_node_spec s id i :
  scg_ok s → node_id_to_index s !! id = Some i →
  ∃ s' d, SCG_remove_node s id = Ret (s', Ok d) ∧ node_id d = id ∧ scg_ok s' ∧
    (∀ j, node_weight (graph s') j = if decide (j = i) then None else node_weight (graph s) j) ∧
    (∀ e en, edge_at (graph s') e = Some en → edge_at (graph s) e = Some en).
Proof.
  intros Hok Hid. pose proof Hid as Hi. apply (proj1 (so_nodes _ Hok)), nid_Some in Hi as (d & Hw & Hd).
  destruct (remove_node_inv _ _ _ Hw) as (g & Hg & Hnode & Hedge).
  unfold SCG_remove_node. rewrite Hid. destruct (fold_left _ _ _) as [eids eixs]. rewrite Hg.
  eexists _, d. split; [done|]. split; [done|]. split; [|split; [exact Hnode|exact Hedge]].
  assert (∀ j x, nid g j = Some x → nid (graph s) j = Some x) as Hsub.
  { intros j x. unfold nid. rewrite Hnode. by case_decide. }
  assert (∀ e x, eid g e = Some x → eid (graph s) e = Some x) as Hesub.
  { intros e x. unfold eid, edge_weight. destruct (edge_at g e) eqn:E; [|done].
    by rewrite (Hedge _ _ E). }
  pose proof (remove_node_ok (graph s) i (so_graph _ Hok)) as Hgok. rewrite Hg in Hgok.
  destruct Hok as [Hg0 Hn He Hends Hnn Hne Hr].
  split; cbn [rebuild_index_mappings graph node_id_to_index node_index_to_id edge_id_to_index
    edge_index_to_id regions next_node_id next_edge_id]; [done|exact (rebuild_nodes_ok _ _ _ _ Hn Hsub)|
    exact (rebuild_edges_ok _ _ _ _ He Hesub)| |exact (ids_below_sub _ _ _ Hnn Hsub)|exact (ids_below_sub _ _ _ Hne Hesub)|done].
  intros e en Hen. destruct (Hends e en (Hedge _ _ Hen)) as [Hs Ht].
  destruct (go_ends _ Hgok e en Hen) as [Ls Lt].
  assert (∀ j, is_Some (node_at g j) → nid g j = nid (graph s) j) as Hlive.
  { intros j Hj. unfold nid. rewrite Hnode. case_decide as Hji; [|done].
    assert (is_Some (node_weight g j)) as Hl by (unfold node_weight; by rewrite fmap_is_Some).
    rewrite Hnode, decide_True in Hl by done. by destruct Hl. }
  by rewrite !Hlive.
Qed.

Lemma SCG_remove_edge_spec s id e :
  scg_ok s → edge_id_to_index s !! id = Some e →
  ∃ s' d, SCG_remove_edge s id = Ret (s', Ok d) ∧ edge_id d = id ∧ scg_ok s' ∧
    (∀ j, node_weight (graph s') j = node_weight (graph s) j) ∧
    (∀ k, edge_at (graph s') k = if decide (k = e) then None else edge_at (graph s) k).
Proof.
  intros Hok Hid. pose proof Hid as Hi. apply (proj1 (so_edges _ Hok)), eid_Some in Hi as (d & Hw & Hd).
  destruct (remove_edge_inv _ _ _ Hw) as (g & Hg & Hnode & Hedge).
  unfold SCG_remove_edge. rewrite Hid, Hg.
  eexists _, d. split; [done|]. split; [done|]. split; [|split; [exact Hnode|exact Hedge]].
  assert (∀ j, nid g j = nid (graph s) j) as Hnid by (intros j; unfold nid; by rewrite Hnode).
  pose proof (remove_edge_graph_ok (graph s) e (so_graph _ Hok)) as Hgok. rewrite Hg in Hgok.
  assert (∀ k x, eid g k = Some x → eid (graph s) k = Some x) as Hesub.
  { intros k x. unfold eid, edge_weight. rewrite Hedge. by case_decide. }
  destruct Hok as [Hg0 Hn He Hends Hnn Hne Hr].
  split; cbn [rebuild_edge_mappings graph node_id_to_index node_index_to_id edge_id_to_index
    edge_index_to_id regions next_node_id next_edge_id]; [done|by eapply tables_ext|
    by eapply rebuild_edges_ok| | |by eapply ids_below_sub|done].
  - intros k en. rewrite Hedge, !Hnid. case_decide; [done|apply Hends].
  - eapply ids_below_sub; [done|]. intros j x. by rewrite Hnid.
Qed.

(** Writing through the references leaves the invariant as long as the identifiers and the
    ends of the edge stay. *)
Lemma write_node_weight g idx f i :
  node_weight (write_node g idx f) i =
  if decide (i = idx) then f <$> node_weight g i else node_weight g i.
Proof.
  unfold write_node, node_weight, node_at. simpl. rewrite mjoin_update.
  repeat case_decide; try done. subst. by destruct (mjoin (dg_nodes g !! idx)).
Qed.

Lemma write_node_graph_ok g idx f : graph_ok g → graph_ok (write_node g idx f).
Proof.
  intros [Ha He Hn Hm]. split.
  - intros i n. unfold write_node, node_at. simpl. rewrite mjoin_update. case_decide; [|apply Ha].
    subst. specialize (Ha idx). unfold node_at in Ha.
    destruct (mjoin (dg_nodes g !! idx)) as [m|]; [|done]. intros [= <-]. exact (Ha m eq_refl).
  - intros e en Hen. destruct (He e en Hen) as [Hs Ht]. unfold write_node, node_at in *. simpl.
    rewrite !mjoin_update. split; case_decide; by rewrite ?fmap_is_Some.
  - simpl. by rewrite live_update.
  - done.
Qed.

Lemma SCG_update_node_ok s id f :
  (∀ d, node_id (f d) = node_id d) → scg_ok s → scg_ok (SCG_update_node s id f).
Proof.
  intros Hf [Hg Hn He Hends Hnn Hne Hr]. unfold SCG_update_node.
  destruct (node_id_to_index s !! id) as [idx|]; [|by split].
  assert (∀ i, nid (write_node (graph s) idx f) i = nid (graph s) i) as Hnid.
  { intros i. unfold nid. rewrite write_node_weight. case_decide; [|done].
    destruct (node_weight (graph s) i); simpl; by rewrite ?Hf. }
  split; cbn [with_graph graph node_id_to_index node_index_to_id edge_id_to_index
    edge_index_to_id regions next_node_id next_edge_id];
    [by apply write_node_graph_ok|by eapply tables_ext|done| | |done|done].
  - intros e en Hen. rewrite !Hnid. by apply (Hends e).
  - eapply ids_below_sub; [done|]. intros j x. by rewrite Hnid.
Qed.

Lemma write_edge_at g k f e :
  edge_at (write_edge g k f) e =
  if decide (e = k) then
    (λ en, EdgeEntry_mk (f (ee_weight en)) (ee_source en) (ee_target en)) <$> edge_at g e
  else edge_at g e.
Proof.
  unfold write_edge, edge_at. simpl. case_decide as He.
  - subst. rewrite list_lookup_alter_eq. by destruct (dg_edges g !! k).
  - by rewrite list_lookup_alter_ne.
Qed.

Lemma live_alter {A} (f : A → A) k (l : list (option A)) : live (alter (fmap f) k l) = live l.
Proof.
  unfold live. revert k. induction l as [|[x|] l IH]; intros [|k]; try done; simpl;
    unfold alter, omap in IH; by rewrite IH.
Qed.

Lemma write_edge_graph_ok g k f : graph_ok g → graph_ok (write_edge g k f).
Proof.
  assert (∀ (P : EdgeEntry EdgeData → Prop) e, (∀ en, P en ↔
    P (EdgeEntry_mk (f (ee_weight en)) (ee_source en) (ee_target en))) →
    (∃ en, edge_at (write_edge g k f) e = Some en ∧ P en) ↔
    ∃ en, edge_at g e = Some en ∧ P en) as Hex.
  { intros P e HP. rewrite write_edge_at. case_decide; [|done].
    destruct (edge_at g e) as [en|]; simpl; [|naive_solver].
    split; intros (x & [= <-] & Hx); eexists; (split; [done|]);
      [by rewrite (HP en)|by rewrite <-(HP en)]. }
  intros [Ha He Hn Hm]. split.
  - intros i n Hi. destruct (Ha i n Hi) as [[H1 H2] [H3 H4]].
    split; (split; [done|]); intros e; rewrite ?H2, ?H4.
    + by rewrite (Hex (λ en, ee_source en = i)).
    + by rewrite (Hex (λ en, ee_target en = i)).
  - intros e en. rewrite write_edge_at. case_decide; [|apply He].
    destruct (edge_at g e) as [x|] eqn:E; [|done]. intros [= <-]. by apply (He e x).
  - done.
  - simpl. by rewrite live_alter.
Qed.

Lemma SCG_update_edge_ok s id f :
  (∀ d, edge_id (f d) = edge_id d ∧ edge_source (f d) = edge_source d ∧
        edge_target (f d) = edge_target d) →
  scg_ok s → scg_ok (SCG_update_edge s id f).
Proof.
  intros Hf [Hg Hn He Hends Hnn Hne Hr]. unfold SCG_update_edge.
  destruct (edge_id_to_index s !! id) as [k|]; [|by split].
  assert (∀ e, eid (write_edge (graph s) k f) e = eid (graph s) e) as Heid.
  { intros e. unfold eid, edge_weight. rewrite write_edge_at. case_decide; [|done].
    destruct (edge_at (graph s) e) as [en|]; [|done]. simpl. by rewrite (proj1 (Hf _)). }
  split; cbn [with_graph graph node_id_to_index node_index_to_id edge_id_to_index
    edge_index_to_id regions next_node_id next_edge_id];
    [by apply write_edge_graph_ok|done|exact (tables_ext _ _ _ _ Heid He)| |done| |done].
  - intros e en. rewrite write_edge_at. case_decide; [|apply Hends].
    destruct (edge_at (graph s) e) as [x|] eqn:E; [|done]. intros [= <-]. simpl.
    destruct (Hf (ee_weight x)) as (_ & -> & ->). exact (Hends e x E).
  - eapply ids_below_sub; [done|]. intros j x. by rewrite Heid.
Qed.

Lemma add_region_ok s r : scg_ok s → scg_ok (add_region s r).
Proof.
  intros [Hg Hn He Hends Hnn Hne Hr]. split; try done. simpl. intros k x.
  rewrite lookup_insert. case_decide; [naive_solver|apply Hr].
Qed.

Lemma update_region_ok s id f :
  (∀ r, region_id (f r) = region_id r) → scg_ok s → scg_ok (update_region s id f).
Proof.
  intros Hf [Hg Hn He Hends Hnn Hne Hr]. split; try done. simpl. intros k x.
  rewrite lookup_alter. case_decide as Hk; [|apply Hr]. subst k.
  destruct (regions s !! id) as [r|] eqn:E; [|done].
  intros [= <-]. rewrite Hf. exact (Hr _ _ E).
Qed.

Lemma remove_region_ok s id : scg_ok s → scg_ok (fst (remove_region s id)).
Proof.
  intros [Hg Hn He Hends Hnn Hne Hr]. split; try done. simpl. intros k x.
  rewrite lookup_delete. case_decide; [done|apply Hr].
Qed.

(** ** Nodes and edges by identifier *)

Lemma elem_of_omap_slots {A B} (f : A → B) (l : list (option A)) x :
  x ∈ omap (fmap f) l ↔ ∃ i, f <$> mjoin (l !! i) = Some x.
Proof.
  rewrite list_elem_of_omap. split.
  - intros (o & Ho%list_elem_of_lookup & Hf). destruct Ho as [i Hi]. exists i. by rewrite Hi.
  - intros [i Hi]. destruct (l !! i) as [o|] eqn:E; [|done]. exists o.
    split; [by eapply list_elem_of_lookup_2|]. done.
Qed.

Lemma elem_of_nodes s d : d ∈ SCG_nodes s ↔ ∃ i, node_weight (graph s) i = Some d.
Proof. apply elem_of_omap_slots. Qed.

Lemma elem_of_edges s d : d ∈ SCG_edges s ↔ ∃ e, edge_weight (graph s) e = Some d.
Proof. apply elem_of_omap_slots. Qed.

Lemma get_node_Some s id d :
  scg_ok s → SCG_get_node s id = Some d ↔ d ∈ SCG_nodes s ∧ node_id d = id.
Proof.
  intros Hok. rewrite elem_of_nodes. unfold SCG_get_node. split.
  - destruct (node_id_to_index s !! id) as [i|] eqn:E; [|done]. cbn. intros Hw.
    split; [by exists i|]. apply (proj1 (so_nodes _ Hok)) in E. unfold nid in E.
    rewrite Hw in E. by injection E.
  - intros [[i Hi] <-]. assert (nid (graph s) i = Some (node_id d)) as Hn
      by (unfold nid; by rewrite Hi).
    apply (proj1 (so_nodes _ Hok)) in Hn. by rewrite Hn.
Qed.

Lemma get_edge_Some s id d :
  scg_ok s → SCG_get_edge s id = Some d ↔ d ∈ SCG_edges s ∧ edge_id d = id.
Proof.
  intros Hok. rewrite elem_of_edges. unfold SCG_get_edge. split.
  - destruct (edge_id_to_index s !! id) as [i|] eqn:E; [|done]. cbn. intros Hw.
    split; [by exists i|]. apply (proj1 (so_edges _ Hok)) in E. unfold eid in E.
    rewrite Hw in E. by injection E.
  - intros [[i Hi] <-]. assert (eid (graph s) i = Some (edge_id d)) as Hn
      by (unfold eid; by rewrite Hi).
    apply (proj1 (so_edges _ Hok)) in Hn. by rewrite Hn.
Qed.

Lemma node_index_Some s id :
  scg_ok s → is_Some (node_id_to_index s !! id) ↔ ∃ d, d ∈ SCG_nodes s ∧ node_id d = id.
Proof.
  intros Hok. split.
  - intros [i Hi]. apply (proj1 (so_nodes _ Hok)), nid_Some in Hi as (d & Hw & Hd).
    exists d. rewrite elem_of_nodes. eauto.
  - intros (d & [i Hi]%elem_of_nodes & <-). exists i. apply (proj1 (so_nodes _ Hok)).
    unfold nid. by rewrite Hi.
Qed.

Lemma edge_ends_live s d :
  scg_ok s → d ∈ SCG_edges s →
  is_Some (node_id_to_index s !! edge_source d) ∧ is_Some (node_id_to_index s !! edge_target d).
Proof.
  intros Hok [e He]%elem_of_edges. unfold edge_weight in He.
  destruct (edge_at (graph s) e) as [en|] eqn:E; [|done]. injection He as <-.
  apply (so_ends _ Hok) in E as [Hs Ht].
  apply (proj1 (so_nodes _ Hok)) in Hs, Ht. eauto.
Qed.
