(* ===== verification/ScgMerge.v ===== *)
(** * Histories and merging of semantic computation graphs

    Every graph built by the operations of [Scg] satisfies the invariant of [ScgInv], and what
    [merge] does to the nodes, the edges and the regions. *)

From S2P Require Import Prelude Digraph ScgNode Scg ScgInv.
From stdpp Require Import gmap.
From stdpp Require Import options.

#[local] Open Scope Z_scope.

(** ** What merging makes of a node, an edge and a region *)

Definition relabel (id : Z) (d : NodeData) : NodeData :=
  NodeData_mk id (node_type d) (node_annotation d) (node_program_point d) (node_payload d).

Definition moved (m : gmap Z Z) (id : Z) (e : EdgeData) : EdgeData :=
  EdgeData_mk id (default (edge_source e) (m !! edge_source e))
    (default (edge_target e) (m !! edge_target e)) (edge_kind e) (edge_label e).

Definition moved_region (m : gmap Z Z) (id : Z) (r : SCGRegion) : SCGRegion :=
  SCGRegion_mk id (list_to_set (omap (λ n, m !! n) (elements (region_nodes r))))
    (region_scope_level r) (region_security_boundary r) (region_deployment_target r).

(** What stays of a graph when only nodes, or only edges, are added. *)
Definition same_nodes (s s' : SCG) : Prop :=
  SCG_nodes s' = SCG_nodes s ∧ next_node_id s' = next_node_id s.
Definition same_edges (s s' : SCG) : Prop :=
  SCG_edges s' = SCG_edges s ∧ next_edge_id s' = next_edge_id s.

(** ** One node *)

Lemma SCG_add_node_spec s t p pp s' id :
  scg_ok s → SCG_add_node true s t p pp = Ret (s', id) →
  id = next_node_id s ∧ next_node_id s' = id + 1 ∧
  node_id_to_index s' !! id = Some (length (dg_nodes (graph s))) ∧
  dg_nodes (graph s') = dg_nodes (graph s) ++ [Some (NodeEntry_mk (NodeData_mk id t None pp p) [] [])] ∧
  same_edges s s' ∧ regions s' = regions s.
Proof.
  intros Hok. unfold SCG_add_node, alloc_node_id.
  destruct (u64_add true (next_node_id s) 1) as [n|] eqn:E; [|done].
  apply u64_of_checked in E as [-> Hu]. cbn. intros [= <- <-]. simpl.
  repeat split; try done. by rewrite lookup_insert_eq.
Qed.

Lemma merge_node_spec s m d s' m' :
  scg_ok s → merge_node true (Ret (s, m)) d = Ret (s', m') →
  scg_ok s' ∧ m' = <[node_id d := next_node_id s]> m ∧ next_node_id s' = next_node_id s + 1 ∧
  SCG_nodes s' = SCG_nodes s ++ [relabel (next_node_id s) d] ∧
  same_edges s s' ∧ regions s' = regions s.
Proof.
  intros Hok. unfold merge_node. cbn [mbind outcome_bind].
  destruct (SCG_add_node true s _ _ _) as [[s1 id]|] eqn:E; [|done]. cbn [mbind outcome_bind].
  pose proof (SCG_add_node_ok _ _ _ _ _ _ Hok E) as Hok1.
  apply SCG_add_node_spec in E as (-> & Hnext & Hid & Hn & [He1 He2] & Hr); [|done].
  intros [= <- <-]. destruct (node_annotation d) as [a|] eqn:Ea.
  - split; [by apply SCG_update_node_ok|]. unfold SCG_update_node. rewrite Hid. simpl.
    split; [done|]. split; [done|]. split; [|by split; [split|]]. unfold SCG_nodes, node_weights. simpl.
    unfold update_node. rewrite Hn, alter_app_r_alt by lia. rewrite Nat.sub_diag, omap_app. simpl.
    unfold relabel. by rewrite Ea.
  - split; [done|]. split; [done|]. split; [done|]. split; [|by split; [split|]].
    unfold SCG_nodes, node_weights. rewrite Hn, omap_app. simpl. unfold relabel. by rewrite Ea.
Qed.

(** ** One edge *)

Lemma SCG_add_edge_spec s source target kind :
  scg_ok s → is_Some (node_id_to_index s !! source) → is_Some (node_id_to_index s !! target) →
  next_edge_id s + 1 < 2 ^ 64 →
  ∃ s' en, SCG_add_edge true s source target kind = Ret (s', Ok (next_edge_id s)) ∧
    next_edge_id s' = next_edge_id s + 1 ∧
    edge_id_to_index s' !! next_edge_id s = Some (length (dg_edges (graph s))) ∧
    dg_edges (graph s') = dg_edges (graph s) ++ [Some en] ∧
    ee_weight en = EdgeData_mk (next_edge_id s) source target kind None ∧
    same_nodes s s' ∧ regions s' = regions s.
Proof.
  intros Hok [a Ha] [b Hb] Hu. unfold SCG_add_edge, endpoints. rewrite Ha, Hb.
  cbn [mbind option_bind]. unfold alloc_edge_id, u64_add. destruct (so_next_edge _ Hok) as [Hr _].
  rewrite u64_of_in by (unfold is_u64 in *; lia). cbn [mbind outcome_bind]. unfold insert_edge.
  apply (proj1 (so_nodes _ Hok)), nid_Some in Ha as (da & Ha & _), Hb as (db & Hb & _).
  destruct (add_edge_no_panic true (graph s) a b (EdgeData_mk (next_edge_id s) source target kind None))
    as [[g k] E]; [by eexists..|].
  rewrite E. pose proof E as (-> & _ & _ & _ & Hw)%add_edge_inv. cbn [mbind outcome_bind].
  unfold add_edge in E. case_match; [done|]. injection E as <-.
  eexists _, _. split; [done|]. simpl. split; [done|]. split; [by rewrite lookup_insert_eq|].
  split; [done|]. split; [done|]. split; [split; [exact Hw|done]|done].
Qed.

Lemma SCG_add_edge_room s source target kind r :
  SCG_add_edge true s source target kind = Ret r →
  is_Some (node_id_to_index s !! source) → is_Some (node_id_to_index s !! target) →
  next_edge_id s + 1 < 2 ^ 64.
Proof.
  intros H [a Ha] [b Hb]. unfold SCG_add_edge, endpoints, alloc_edge_id in H.
  rewrite Ha, Hb in H. cbn [mbind option_bind] in H.
  destruct (u64_add true (next_edge_id s) 1) as [n|] eqn:E; [|done].
  apply u64_of_checked in E as [_ Hu]. unfold is_u64 in Hu. lia.
Qed.

Lemma same_nodes_index s s' id :
  scg_ok s → scg_ok s' → same_nodes s s' →
  is_Some (node_id_to_index s !! id) → is_Some (node_id_to_index s' !! id).
Proof. intros H1 H2 [Hn _]. rewrite !node_index_Some by done. by rewrite Hn. Qed.

Lemma merge_edge_spec s m e s' :
  scg_ok s → (∀ x, x = edge_source e ∨ x = edge_target e →
    is_Some (node_id_to_index s !! default x (m !! x))) →
  merge_edge true m (Ret s) e = Ret s' →
  scg_ok s' ∧ SCG_edges s' = SCG_edges s ++ [moved m (next_edge_id s) e] ∧
  next_edge_id s' = next_edge_id s + 1 ∧ same_nodes s s' ∧ regions s' = regions s.
Proof.
  intros Hok Hin. unfold merge_edge. cbn [mbind outcome_bind].
  pose proof (Hin _ (or_introl eq_refl)) as Hs. pose proof (Hin _ (or_intror eq_refl)) as Ht.
  destruct (SCG_add_edge true s _ _ _) as [r|] eqn:E; [|done].
  pose proof (SCG_add_edge_room _ _ _ _ _ E Hs Ht) as Hroom.
  destruct (SCG_add_edge_spec s _ _ (edge_kind e) Hok Hs Ht Hroom)
    as (s1 & en & E' & Hnext & Hid & Hedges & Hw & Hn & Hr).
  rewrite E in E'. injection E' as ->. pose proof (SCG_add_edge_ok _ _ _ _ _ _ Hok E) as Hok1.
  cbn [mbind outcome_bind]. intros [= <-]. destruct (edge_label e) as [l|] eqn:El.
  - split; [by apply SCG_update_edge_ok|]. unfold SCG_update_edge. rewrite Hid. simpl.
    split; [|by split]. unfold SCG_edges, edge_weights. simpl.
    rewrite Hedges, alter_app_r_alt by lia. rewrite Nat.sub_diag, omap_app. simpl.
    unfold moved, EdgeData_label. by rewrite Hw, El.
  - split; [done|]. split; [|by split]. unfold SCG_edges, edge_weights.
    rewrite Hedges, omap_app. simpl. unfold moved. by rewrite Hw, El.
Qed.

(** ** All nodes, edges and regions *)

Lemma merge_nodes_panic l : fold_left (merge_node true) l Panic = Panic.
Proof. by induction l. Qed.
Lemma merge_edges_panic m l : fold_left (merge_edge true m) l Panic = Panic.
Proof. by induction l. Qed.
Lemma merge_regions_panic m l : fold_left (merge_region true m) l Panic = Panic.
Proof. by induction l. Qed.

(** The identifiers of the slots of a list are distinct when each names its slot. *)
Lemma NoDup_omap_slots {A} (f : A → Z) (l : list (option A)) :
  (∀ i j x, f <$> mjoin (l !! i) = Some x → f <$> mjoin (l !! j) = Some x → i = j) →
  NoDup (omap (fmap f) l).
Proof.
  induction l as [|o l IH]; intros Hinj; [constructor|].
  assert (NoDup (omap (fmap f) l)) as Hl.
  { apply IH. intros i j x Hi Hj. enough (S i = S j) by congruence. by eapply Hinj. }
  destruct o as [a|]; [|done]. simpl. constructor; [|done].
  rewrite elem_of_omap_slots. intros [i Hi]. by specialize (Hinj O (S i) _ eq_refl Hi).
Qed.

Lemma map_omap_slots {A B C} (f : A → B) (h : B → C) (l : list (option A)) :
  map h (omap (fmap f) l) = omap (fmap (λ a, h (f a))) l.
Proof. induction l as [|[a|] l IH]; simpl; [done|by f_equal|done]. Qed.

Lemma SCG_nodes_NoDup s : scg_ok s → NoDup (map node_id (SCG_nodes s)).
Proof.
  intros Hok. unfold SCG_nodes, node_weights. rewrite map_omap_slots. apply NoDup_omap_slots.
  intros i j x Hi Hj. eapply (tables_inj _ _ _ _ _ _ (so_nodes _ Hok));
    unfold nid, node_weight, node_at; by rewrite <-option_fmap_compose.
Qed.

Lemma imap_shift {A B} (f : Z → A → B) b l :
  imap (λ k, f (b + 1 + Z.of_nat k)) l = imap (λ k, f (b + Z.of_nat (S k))) l.
Proof. apply imap_ext. intros k x _. f_equal. lia. Qed.

Lemma merge_nodes_spec l s m s' m' :
  scg_ok s → NoDup (map node_id l) → (∀ d, d ∈ l → m !! node_id d = None) →
  fold_left (merge_node true) l (Ret (s, m)) = Ret (s', m') →
  scg_ok s' ∧ same_edges s s' ∧ regions s' = regions s ∧
  SCG_nodes s' = SCG_nodes s ++ imap (λ k, relabel (next_node_id s + Z.of_nat k)) l ∧
  (∀ x y, m' !! x = Some y ↔ m !! x = Some y ∨
     ∃ k d, l !! k = Some d ∧ node_id d = x ∧ y = next_node_id s + Z.of_nat k).
Proof.
  revert s m. induction l as [|d l IH]; intros s m Hok Hnd Hm; cbn [fold_left].
  { intros [= <- <-]. rewrite app_nil_r. split_and!; try done. intros x y. split; [by left|].
    intros [?|(k & d & Hk & _)]; done. }
  destruct (merge_node true (Ret (s, m)) d) as [[s1 m1]|] eqn:E; [|by rewrite merge_nodes_panic].
  apply merge_node_spec in E as (Hok1 & -> & Hnext & Hn1 & [He1 He2] & Hr1); [|done].
  apply NoDup_cons in Hnd as [Hd Hnd]. intros Hf.
  apply IH in Hf as (Hok' & [He1' He2'] & Hr' & Hn' & Hm'); [|done|done|].
  - split; [done|]. split; [split; congruence|]. split; [congruence|]. split.
    + rewrite Hn', Hn1, Hnext, <-app_assoc. simpl. rewrite Z.add_0_r. do 2 f_equal.
      apply (imap_shift relabel).
    + intros x y. rewrite Hm', Hnext, lookup_insert. split.
      * intros [Hx|(k & e & Hk & Hx & ->)].
        -- case_decide; [|by left]. right. exists O, d. simplify_eq. split_and!; done || lia.
        -- right. exists (S k), e. split_and!; done || lia.
      * intros [Hx|([|k] & e & Hk & Hx & ->)].
        -- left. rewrite decide_False; [done|]. intros <-. rewrite Hm in Hx by left. done.
        -- left. simplify_eq/=. rewrite decide_True by done. f_equal. lia.
        -- right. exists k, e. split_and!; done || lia.
  - intros x Hx. rewrite lookup_insert_ne; [apply Hm; by right|].
    intros Heq. apply Hd. change (node_id d ∈ node_id <$> l). rewrite list_elem_of_fmap. exists x. done.
Qed.

Lemma merge_edges_spec m l s s' :
  scg_ok s → (∀ e, e ∈ l → ∀ x, x = edge_source e ∨ x = edge_target e →
    is_Some (node_id_to_index s !! default x (m !! x))) →
  fold_left (merge_edge true m) l (Ret s) = Ret s' →
  scg_ok s' ∧ same_nodes s s' ∧ regions s' = regions s ∧
  SCG_edges s' = SCG_edges s ++ imap (λ k, moved m (next_edge_id s + Z.of_nat k)) l.
Proof.
  revert s. induction l as [|e l IH]; intros s Hok Hin; cbn [fold_left].
  { intros [= <-]. rewrite app_nil_r. done. }
  destruct (merge_edge true m (Ret s) e) as [s1|] eqn:E; [|by rewrite merge_edges_panic].
  apply merge_edge_spec in E as (Hok1 & He1 & Hnext & Hn1 & Hr1); [|done|apply Hin; by left].
  intros Hf. apply IH in Hf as (Hok' & [Hn1' Hn2'] & Hr' & He'); [|done|].
  - destruct Hn1 as [Hn1 Hn2]. split; [done|]. split; [split; congruence|]. split; [congruence|].
    rewrite He', He1, Hnext, <-app_assoc. simpl. rewrite Z.add_0_r. do 2 f_equal.
    apply (imap_shift (moved m)).
  - intros x Hx y Hy. eapply same_nodes_index; [exact Hok|done|done|]. apply (Hin x); [by right|done].
Qed.

Lemma max_region_id_spec s k : is_Some (regions s !! k) → k ≤ max_region_id s.
Proof.
  intros [r Hr]. unfold max_region_id. revert k r Hr.
  apply (map_fold_weak_ind (λ M (m : gmap Z SCGRegion), ∀ k r, m !! k = Some r → k ≤ M)).
  - intros k r. by rewrite lookup_empty.
  - intros i x m M _ IH k r. rewrite lookup_insert. case_decide; [lia|].
    intros Hk%IH. lia.
Qed.

Lemma next_region_id_fresh s id : next_region_id true s = Ret id → regions s !! id = None.
Proof.
  unfold next_region_id. intros [-> _]%u64_of_checked.
  destruct (regions s !! (max_region_id s + 1)) eqn:E; [|done].
  assert (max_region_id s + 1 ≤ max_region_id s); [|lia]. apply max_region_id_spec. by rewrite E.
Qed.

(** Regions are added under fresh identifiers; nothing else changes. *)
Lemma merge_regions_spec m l s s' :
  scg_ok s → fold_left (merge_region true m) l (Ret s) = Ret s' →
  scg_ok s' ∧ graph s' = graph s ∧ node_id_to_index s' = node_id_to_index s ∧
  regions s ⊆ regions s' ∧
  ∀ r, r ∈ l → ∃ id, regions s !! id = None ∧ regions s' !! id = Some (moved_region m id r).
Proof.
  revert s. induction l as [|r l IH]; intros s Hok; cbn [fold_left].
  { intros [= <-]. split_and!; try done. by intros r ?%elem_of_nil. }
  unfold merge_region at 2. cbn [mbind outcome_bind].
  destruct (next_region_id true s) as [id|] eqn:E; cbn [mbind outcome_bind];
    [|by rewrite merge_regions_panic].
  apply next_region_id_fresh in E. intros Hf.
  apply IH in Hf as (Hok' & Hg & Hi & Hsub & Hl); [|by apply add_region_ok].
  simpl in Hsub, Hl. split; [done|]. split; [done|]. split; [done|]. split.
  - etrans; [|exact Hsub]. by apply insert_subseteq.
  - intros x [->|Hx]%elem_of_cons.
    + exists id. split; [done|]. eapply lookup_weaken; [|exact Hsub]. by rewrite lookup_insert_eq.
    + destruct (Hl x Hx) as (k & Hk & Hk'). exists k. split; [|done].
      rewrite lookup_insert in Hk. by case_decide.
Qed.

(** ** Histories *)

Inductive scg_op : Type :=
  | OpAddNode (t : NodeType) (p : NodePayload) (pp : ProgramPoint)
  | OpAddNodeWithId (id : Z) (t : NodeType) (p : NodePayload) (pp : ProgramPoint)
  | OpRemoveNode (id : Z)
  | OpWriteNode (id : Z) (f : NodeData → NodeData)
  | OpAddEdge (source target : Z) (kind : EdgeKind)
  | OpAddEdgeWithId (id source target : Z) (kind : EdgeKind)
  | OpRemoveEdge (id : Z)
  | OpWriteEdge (id : Z) (f : EdgeData → EdgeData)
  | OpAddRegion (r : SCGRegion)
  | OpWriteRegion (id : Z) (f : SCGRegion → SCGRegion)
  | OpRemoveRegion (id : Z).

Definition scg_step (chk : bool) (s : SCG) (op : scg_op) : outcome SCG :=
  match op with
  | OpAddNode t p pp => fst <$> SCG_add_node chk s t p pp
  | OpAddNodeWithId id t p pp => fst <$> SCG_add_node_with_id chk s id t p pp
  | OpRemoveNode id => fst <$> SCG_remove_node s id
  | OpWriteNode id f => Ret (SCG_update_node s id f)
  | OpAddEdge source target kind => fst <$> SCG_add_edge chk s source target kind
  | OpAddEdgeWithId id source target kind => fst <$> SCG_add_edge_with_id chk s id source target kind
  | OpRemoveEdge id => fst <$> SCG_remove_edge s id
  | OpWriteEdge id f => Ret (SCG_update_edge s id f)
  | OpAddRegion r => Ret (add_region s r)
  | OpWriteRegion id f => Ret (update_region s id f)
  | OpRemoveRegion id => Ret (fst (remove_region s id))
  end.

(** Identifiers are [u64]s, and a write through a reference leaves the identifiers and the
    ends of an edge alone. *)
Definition op_ok (op : scg_op) : Prop :=
  match op with
  | OpAddNodeWithId id _ _ _ | OpAddEdgeWithId id _ _ _ => is_u64 id
  | OpWriteNode _ f => ∀ d, node_id (f d) = node_id d
  | OpWriteEdge _ f => ∀ d, edge_id (f d) = edge_id d ∧ edge_source (f d) = edge_source d ∧
                            edge_target (f d) = edge_target d
  | OpWriteRegion _ f => ∀ r, region_id (f r) = region_id r
  | _ => True
  end.

(** The walk of [other]'s regions visits each of them once. *)
Definition region_walk (s : SCG) (regs : list SCGRegion) : Prop :=
  regs ≡ₚ (map_to_list (regions s)).*2.

Inductive scg_reachable (chk : bool) : SCG → Prop :=
  | reach_new : scg_reachable chk SCG_new
  | reach_step s op s' :
      scg_reachable chk s → op_ok op → scg_step chk s op = Ret s' → scg_reachable chk s'
  | reach_merge s other regs s' m :
      scg_reachable chk s → scg_reachable chk other → region_walk other regs →
      Scg.merge chk s other regs = Ret (s', m) → scg_reachable chk s'.

Lemma fmap_fst_Ret {A B} (o : outcome (A * B)) a :
  fst <$> o = Ret a → ∃ b, o = Ret (a, b).
Proof. destruct o as [[x y]|]; [|done]. intros [= <-]. by exists y. Qed.

Lemma scg_step_ok s op s' : op_ok op → scg_ok s → scg_step true s op = Ret s' → scg_ok s'.
Proof.
  intros Hop Hok. destruct op; simpl in *;
    try (intros [r E]%fmap_fst_Ret); try (intros [= <-]).
  - by eapply SCG_add_node_ok.
  - by eapply SCG_add_node_with_id_ok.
  - destruct (node_id_to_index s !! id) as [i|] eqn:Ei.
    + destruct (SCG_remove_node_spec s id i Hok Ei) as (s1 & d & E' & _ & Hok' & _). congruence.
    + unfold SCG_remove_node in E. rewrite Ei in E. by injection E as <-.
  - by apply SCG_update_node_ok.
  - by eapply SCG_add_edge_ok.
  - by eapply SCG_add_edge_with_id_ok.
  - destruct (edge_id_to_index s !! id) as [i|] eqn:Ei.
    + destruct (SCG_remove_edge_spec s id i Hok Ei) as (s1 & d & E' & _ & Hok' & _). congruence.
    + unfold SCG_remove_edge in E. rewrite Ei in E. by injection E as <-.
  - by apply SCG_update_edge_ok.
  - by apply add_region_ok.
  - by apply update_region_ok.
  - by apply (remove_region_ok s).
Qed.

(** What merging two well-formed graphs gives. *)
Record merged (s other : SCG) (regs : list SCGRegion) (s' : SCG) (m : gmap Z Z) : Prop := {
  mg_ok : scg_ok s';
  mg_map : ∀ x y, m !! x = Some y ↔
    ∃ k d, SCG_nodes other !! k = Some d ∧ node_id d = x ∧ y = next_node_id s + Z.of_nat k;
  mg_nodes : SCG_nodes s' =
    SCG_nodes s ++ imap (λ k, relabel (next_node_id s + Z.of_nat k)) (SCG_nodes other);
  mg_edges : SCG_edges s' =
    SCG_edges s ++ imap (λ k, moved m (next_edge_id s + Z.of_nat k)) (SCG_edges other);
  mg_old_regions : regions s ⊆ regions s';
  mg_new_regions : ∀ r, r ∈ regs → ∃ id, regions s !! id = None ∧
    regions s' !! id = Some (moved_region m id r);
}.

Lemma elem_of_relabeled {A B} (f : nat → A → B) l k x : l !! k = Some x → f k x ∈ imap f l.
Proof. intros Hk. apply list_elem_of_lookup. exists k. by rewrite list_lookup_imap, Hk. Qed.

Lemma merge_spec s other regs s' m :
  scg_ok s → scg_ok other → Scg.merge true s other regs = Ret (s', m) → merged s other regs s' m.
Proof.
  intros Hs Ho. unfold Scg.merge.
  destruct (fold_left (merge_node true) _ _) as [[s1 m1]|] eqn:E1; [|done]. cbn [mbind outcome_bind].
  destruct (fold_left (merge_edge true m1) _ _) as [s2|] eqn:E2; [|done]. cbn [mbind outcome_bind].
  destruct (fold_left (merge_region true m1) _ _) as [s3|] eqn:E3; [|done]. cbn [mbind outcome_bind].
  intros [= <- <-].
  apply merge_nodes_spec in E1 as (Hok1 & [He1 He1'] & Hr1 & Hn1 & Hm); [|done|by apply SCG_nodes_NoDup|done].
  assert (∀ x y, m1 !! x = Some y ↔ ∃ k d, SCG_nodes other !! k = Some d ∧ node_id d = x ∧
    y = next_node_id s + Z.of_nat k) as Hmap.
  { intros x y. rewrite Hm, lookup_empty. naive_solver. }
  apply merge_edges_spec in E2 as (Hok2 & [Hn2 _] & Hr2 & He2); [|done|].
  - apply merge_regions_spec in E3 as (Hok3 & Hg & _ & Hsub & Hregs); [|done].
    rewrite Hr2, Hr1 in Hsub. split; try done.
    + unfold SCG_nodes in *. by rewrite Hg, Hn2.
    + unfold SCG_edges in *. by rewrite Hg, He2, He1, He1'.
    + intros r Hr. destruct (Hregs r Hr) as (id & Hf & Hid). exists id.
      by rewrite Hr2, Hr1 in Hf.
  - intros e He x Hx. destruct (edge_ends_live other e Ho He) as [H1 H2].
    assert (is_Some (node_id_to_index other !! x)) as Hlive by (destruct Hx as [->| ->]; done).
    apply node_index_Some in Hlive as (d & [k Hk]%list_elem_of_lookup & Hd); [|done].
    assert (m1 !! x = Some (next_node_id s + Z.of_nat k)) as -> by (apply Hmap; eauto).
    apply node_index_Some; [done|]. simpl. rewrite Hn1. eexists. split.
    + apply elem_of_app. right. by apply elem_of_relabeled.
    + done.
Qed.

Lemma scg_reachable_ok s : scg_reachable true s → scg_ok s.
Proof.
  induction 1 as [|s op s' _ IH Hop E|s other regs s' m _ IH _ IHo _ E].
  - apply SCG_new_ok.
  - by eapply scg_step_ok.
  - exact (mg_ok _ _ _ _ _ (merge_spec _ _ _ _ _ IH IHo E)).
Qed.
