(* ===== verification/ScgPaths.v ===== *)
(** * Traversals of the semantic computation graph

    The traversals of [Scg] in terms of the public identifiers: successors and predecessors,
    paths, topological order, and the ways the graph's operations fall short. *)

From S2P Require Import Prelude Digraph ScgNode Scg ScgInv ScgMerge.
From stdpp Require Import gmap relations.
From stdpp Require Import options.

#[local] Open Scope Z_scope.

(** ** The edges between identifiers *)

Definition flows (s : SCG) (a b : Z) : Prop :=
  ∃ e, e ∈ SCG_edges s ∧ edge_source e = a ∧ edge_target e = b.

Definition ids_acyclic (s : SCG) : Prop :=
  ∃ rank : Z → nat, ∀ a b, flows s a b → (rank a < rank b)%nat.

Definition ids_ordered (s : SCG) (order : list Z) : Prop :=
  ∀ a b j, flows s a b → order !! j = Some b → ∃ i, (i < j)%nat ∧ order !! i = Some a.

Definition SCG_ids (s : SCG) : list Z := map node_id (SCG_nodes s).

Section paths.
  Context (s : SCG) (Hok : scg_ok s).
  #[local] Set Default Proof Using "All".

Lemma flows_slots a b :
  flows s a b ↔ ∃ i j, nid (graph s) i = Some a ∧ nid (graph s) j = Some b ∧ has_edge (graph s) i j.
Proof.
  split.
  - intros (d & [e He]%elem_of_edges & <- & <-). unfold edge_weight in He.
    destruct (edge_at (graph s) e) as [en|] eqn:E; [|done]. injection He as <-.
    destruct (so_ends _ Hok e en E) as [Hs Ht].
    exists (ee_source en), (ee_target en). split; [done|]. split; [done|]. by exists e, en.
  - intros (i & j & Hi & Hj & e & en & He & <- & <-).
    destruct (so_ends _ Hok e en He) as [Hs Ht]. exists (ee_weight en). split.
    + apply elem_of_edges. exists e. unfold edge_weight. by rewrite He.
    + rewrite Hi in Hs. rewrite Hj in Ht. split; congruence.
Qed.

Lemma has_edge_flows i j a :
  nid (graph s) i = Some a → has_edge (graph s) i j → ∃ b, nid (graph s) j = Some b ∧ flows s a b.
Proof.
  intros Hi Hij. destruct (Hij) as (e & en & He & _ & <-).
  destruct (so_ends _ Hok e en He) as [_ Ht]. eexists. split; [exact Ht|].
  apply flows_slots. eauto.
Qed.

Lemma index_nid id i : node_id_to_index s !! id = Some i ↔ nid (graph s) i = Some id.
Proof. apply (proj1 (so_nodes _ Hok)). Qed.

Lemma nid_inj i j id : nid (graph s) i = Some id → nid (graph s) j = Some id → i = j.
Proof. apply (tables_inj _ _ _ _ _ _ (so_nodes _ Hok)). Qed.

Lemma flows_has_edge a b i :
  nid (graph s) i = Some a → flows s a b → ∃ j, nid (graph s) j = Some b ∧ has_edge (graph s) i j.
Proof.
  intros Hi (i' & j & Hi' & Hj & He)%flows_slots.
  rewrite (nid_inj _ _ _ Hi Hi'). eauto.
Qed.

Lemma path_flows i j a :
  path (graph s) i j → nid (graph s) i = Some a →
  ∃ b, nid (graph s) j = Some b ∧ rtc (flows s) a b.
Proof.
  intros Hp. revert a. induction Hp as [i|i k j Hik _ IH]; intros a Hi; [by exists a|].
  destruct (has_edge_flows _ _ _ Hi Hik) as (c & Hc & Hac).
  destruct (IH c Hc) as (b & Hb & Hcb). exists b. split; [done|]. by eapply rtc_l.
Qed.

Lemma flows_path a b i :
  rtc (flows s) a b → nid (graph s) i = Some a →
  ∃ j, nid (graph s) j = Some b ∧ path (graph s) i j.
Proof.
  intros Hp. revert i. induction Hp as [a|a c b Hac _ IH]; intros i Hi; [exists i; split; [done|constructor]|].
  destruct (flows_has_edge _ _ _ Hi Hac) as (k & Hk & Hik).
  destruct (IH k Hk) as (j & Hj & Hkj). exists j. split; [done|]. by eapply rtc_l.
Qed.

Lemma path_iff i j a b :
  nid (graph s) i = Some a → nid (graph s) j = Some b →
  path (graph s) i j ↔ rtc (flows s) a b.
Proof.
  intros Hi Hj. split.
  - intros Hp. destruct (path_flows _ _ _ Hp Hi) as (b' & Hb' & ?). congruence.
  - intros Hp. destruct (flows_path _ _ _ Hp Hi) as (j' & Hj' & ?).
    by rewrite (nid_inj _ _ _ Hj Hj').
Qed.

(** ** Neighbours *)

Lemma elem_of_neighbors i j dir n :
  node_at (graph s) i = Some n →
  j ∈ neighbors_directed (graph s) i dir ↔
  match dir with Outgoing => has_edge (graph s) i j | Incoming => has_edge (graph s) j i end.
Proof.
  intros Hn. unfold neighbors_directed. rewrite Hn, list_elem_of_omap.
  destruct (go_adj _ (so_graph _ Hok) _ _ Hn) as [[_ Hout] [_ Hin]]. split.
  - intros (e & He & Hj). destruct (edge_at (graph s) e) as [en|] eqn:E; [|done].
    destruct dir; simpl in *; simplify_eq; exists e, en.
    + apply Hout in He as (x & Hx & <-). by simplify_eq.
    + apply Hin in He as (x & Hx & <-). by simplify_eq.
  - destruct dir; intros (e & en & He & Hs & Ht); exists e; rewrite He; simpl.
    + split; [|by rewrite Ht]. apply Hout. eauto.
    + split; [|by rewrite Hs]. apply Hin. eauto.
Qed.

Lemma elem_of_ids_of l b : b ∈ ids_of s l ↔ ∃ j, j ∈ l ∧ nid (graph s) j = Some b.
Proof.
  unfold ids_of. rewrite list_elem_of_omap.
  by setoid_rewrite (proj2 (so_nodes _ Hok)).
Qed.

Lemma nid_live i a : nid (graph s) i = Some a → ∃ n, node_at (graph s) i = Some n.
Proof.
  unfold nid, node_weight. destruct (node_at (graph s) i) as [n|]; [by exists n|done].
Qed.

Lemma successors_spec a l b : SCG_successors s a = Some l → b ∈ l ↔ flows s a b.
Proof.
  unfold SCG_successors. destruct (node_id_to_index s !! a) as [i|] eqn:Ei; [|done].
  cbn. intros [= <-]. apply index_nid in Ei. destruct (nid_live _ _ Ei) as [n Hn].
  rewrite elem_of_ids_of. setoid_rewrite (elem_of_neighbors i _ Outgoing n Hn). split.
  - intros (j & Hij & Hj). apply flows_slots. eauto.
  - intros Hf. destruct (flows_has_edge _ _ _ Ei Hf) as (j & Hj & Hij). eauto.
Qed.

Lemma predecessors_spec b l a : SCG_predecessors s b = Some l → a ∈ l ↔ flows s a b.
Proof.
  unfold SCG_predecessors. destruct (node_id_to_index s !! b) as [j|] eqn:Ej; [|done].
  cbn. intros [= <-]. apply index_nid in Ej. destruct (nid_live _ _ Ej) as [n Hn].
  rewrite elem_of_ids_of. setoid_rewrite (elem_of_neighbors j _ Incoming n Hn). split.
  - intros (i & Hij & Hi). apply flows_slots. eauto.
  - intros (i & j' & Hi & Hj' & Hij)%flows_slots. rewrite (nid_inj _ _ _ Ej Hj'). eauto.
Qed.

Lemma successors_None a : SCG_successors s a = None ↔ a ∉ SCG_ids s.
Proof.
  unfold SCG_successors. transitivity (¬ is_Some (node_id_to_index s !! a)).
  - rewrite <-eq_None_not_Some. by destruct (node_id_to_index s !! a).
  - rewrite node_index_Some by done. unfold SCG_ids. rewrite (list_elem_of_fmap node_id).
    naive_solver.
Qed.

(** ** Paths *)

Lemma find_path_spec a b :
  a ∈ SCG_ids s → b ∈ SCG_ids s →
  ∃ r, find_path s a b = Ret (Some r) ∧ (r = true ↔ rtc (flows s) a b).
Proof.
  unfold SCG_ids. rewrite !(list_elem_of_fmap node_id). intros Ha Hb.
  assert (∀ x, (∃ d, x = node_id d ∧ d ∈ SCG_nodes s) → ∃ i, node_id_to_index s !! x = Some i) as Hlive.
  { intros x (d & -> & Hd). apply node_index_Some; eauto. }
  destruct (Hlive a Ha) as [i Hi], (Hlive b Hb) as [j Hj]. unfold find_path, endpoints.
  rewrite Hi, Hj. cbn [mbind option_bind]. apply index_nid in Hi, Hj.
  destruct (nid_live _ _ Hi) as [n Hn].
  destruct (has_path_connecting_spec (graph s) (so_graph _ Hok) j i) as (r & -> & Hr); [by eexists|].
  exists r. split; [done|]. rewrite Hr. by apply path_iff.
Qed.

(** ** Topological order *)

Lemma ids_of_lookup l j :
  (∀ i, i ∈ l → is_Some (nid (graph s) i)) →
  ids_of s l !! j = (l !! j) ≫= nid (graph s).
Proof.
  intros Hl. revert j. induction l as [|i l IH]; intros j; [done|].
  destruct (Hl i) as [a Ha]; [by left|].
  unfold ids_of. simpl. rewrite (proj2 (so_nodes _ Hok)), Ha. destruct j as [|j]; [done|].
  apply IH. intros k Hk. apply Hl. by right.
Qed.

Lemma node_indices_live i : i ∈ node_indices (graph s) ↔ is_Some (nid (graph s) i).
Proof. unfold nid, node_weight. by rewrite elem_of_node_indices, !fmap_is_Some. Qed.

Lemma ids_of_NoDup l :
  NoDup l → (∀ i, i ∈ l → is_Some (nid (graph s) i)) → NoDup (ids_of s l).
Proof.
  intros Hnd Hl. apply NoDup_alt. intros i j x. rewrite !ids_of_lookup by done.
  destruct (l !! i) as [a|] eqn:Ea, (l !! j) as [b|] eqn:Eb; try done. simpl. intros Ha Hb.
  pose proof (nid_inj _ _ _ Ha Hb) as ->. by eapply NoDup_lookup.
Qed.

Lemma ids_of_live l : l ≡ₚ node_indices (graph s) → ids_of s l ≡ₚ SCG_ids s.
Proof.
  intros Hl. apply NoDup_Permutation.
  - apply ids_of_NoDup; [rewrite Hl; apply occupied_NoDup|].
    intros i. rewrite Hl. apply node_indices_live.
  - by apply SCG_nodes_NoDup.
  - intros x. rewrite elem_of_ids_of. unfold SCG_ids. rewrite (list_elem_of_fmap node_id). split.
    + intros (i & _ & (d & Hd & <-)%nid_Some). exists d. split; [done|]. apply elem_of_nodes. eauto.
    + intros (d & -> & [i Hi]%elem_of_nodes). exists i.
      assert (nid (graph s) i = Some (node_id d)) as Hn by (unfold nid; by rewrite Hi).
      split; [|done]. rewrite Hl, node_indices_live. eauto.
Qed.

Lemma acyclic_ids : acyclic (graph s) ↔ ids_acyclic s.
Proof.
  split; intros [rank Hr].
  - exists (λ a, rank (default O (node_id_to_index s !! a))).
    intros a b (i & j & Hi & Hj & Hij)%flows_slots. apply index_nid in Hi, Hj.
    rewrite Hi, Hj. by apply Hr.
  - exists (λ i, rank (default 0 (nid (graph s) i))). intros i j Hij.
    destruct (Hij) as (e & en & He & <- & <-). destruct (so_ends _ Hok e en He) as [Hs Ht].
    rewrite Hs, Ht. apply Hr, flows_slots. eauto 10.
Qed.

Lemma topological_sort_spec :
  ∃ r, topological_sort s = Ret r ∧
    match r with
    | Ok order => order ≡ₚ SCG_ids s ∧ ids_ordered s order ∧ ids_acyclic s
    | Err e => e = CycleDetected ∧ ¬ ids_acyclic s
    end.
Proof.
  destruct (toposort_spec (graph s) (so_graph _ Hok)) as ([order|v] & E & Hr);
    unfold topological_sort; rewrite E; cbn [mbind outcome_bind].
  - destruct Hr as (Hp & Hord & Hac). eexists. split; [done|]. split; [by apply ids_of_live|].
    split; [|by apply acyclic_ids].
    assert (∀ i, i ∈ order → is_Some (nid (graph s) i)) as Hl
      by (intros i; rewrite Hp; apply node_indices_live).
    intros a b j (i & k & Hi & Hk & Hik)%flows_slots Hj. rewrite ids_of_lookup in Hj by done.
    destruct (order !! j) as [k'|] eqn:Ek; [|done]. simpl in Hj.
    pose proof (nid_inj _ _ _ Hk Hj) as <-. destruct (Hord i k j Hik Ek) as (p & Hlt & Hpi).
    exists p. split; [done|]. rewrite ids_of_lookup by done. by rewrite Hpi.
  - destruct Hr as [_ Hac]. eexists. split; [done|]. split; [done|]. by rewrite <-acyclic_ids.
Qed.

End paths.

(** ** Validation *)

Lemma fold_valid {A} (f : ValidationResult → A → ValidationResult) (P : A → Prop) l r :
  (∀ r a, a ∈ l → is_valid (f r a) = true ↔ is_valid r = true ∧ P a) →
  is_valid (fold_left f l r) = true ↔ is_valid r = true ∧ ∀ a, a ∈ l → P a.
Proof.
  revert r. induction l as [|a l IH]; intros r Hf; cbn [fold_left].
  { split; [|by intros [? _]]. intros H. split; [done|]. by intros a ?%elem_of_nil. }
  rewrite IH by (intros; apply Hf; by right). rewrite Hf by (by left).
  setoid_rewrite elem_of_cons. naive_solver.
Qed.

Lemma fold_valid_id {A} (f : ValidationResult → A → ValidationResult) l r :
  (∀ r a, is_valid (f r a) = is_valid r) → is_valid (fold_left f l r) = is_valid r.
Proof. intros Hf. revert r. induction l as [|a l IH]; intros r; simpl; [done|]. by rewrite IH, Hf. Qed.

Lemma OrderedSet_from_iter_spec l v : OrderedSet_contains (OrderedSet_from_iter l) v = true ↔ v ∈ l.
Proof.
  unfold OrderedSet_from_iter, OrderedSet_contains. rewrite bool_decide_eq_true.
  enough (∀ s, v ∈ os_set (fold_left (λ s v, fst (OrderedSet_insert s v)) l s) ↔ v ∈ os_set s ∨ v ∈ l)
    as -> by set_solver.
  induction l as [|x l IH]; intros s; cbn [fold_left]; [set_solver|].
  rewrite IH. unfold OrderedSet_insert. case_decide; simpl; set_solver.
Qed.

(** Every node is in at most one region. *)
Definition regions_disjoint (s : SCG) : Prop :=
  ∀ i j r q n, regions s !! i = Some r → regions s !! j = Some q →
    n ∈ region_nodes r → n ∈ region_nodes q → i = j.

Definition in_region (s : SCG) (n r : Z) : Prop :=
  ∃ q, regions s !! r = Some q ∧ n ∈ region_nodes q.

Lemma find_region_spec s regs n r :
  scg_ok s → regions_disjoint s → region_walk s regs →
  find_region_for_node regs n = Some r ↔ in_region s n r.
Proof.
  intros Hok Hd Hw. assert (∀ q, q ∈ regs ↔ regions s !! region_id q = Some q) as Hin.
  { intros q. rewrite Hw, list_elem_of_fmap. split.
    - intros ([k x] & -> & Hx%elem_of_map_to_list). simpl.
      by rewrite (so_regions _ Hok _ _ Hx).
    - intros Hq%elem_of_map_to_list. by exists (region_id q, q). }
  unfold find_region_for_node, in_region. split.
  - intros (q & Hf & ->)%fmap_Some. apply find_Some in Hf as [Hq Hc%bool_decide_eq_true].
    apply Hin in Hq. eauto.
  - intros (q & Hq & Hn). pose proof (so_regions _ Hok _ _ Hq) as <-.
    destruct (Prelude.find _ regs) as [x|] eqn:E; simpl.
    + apply find_Some in E as [Hx%Hin Hc%bool_decide_eq_true]. f_equal.
      exact (Hd _ _ _ _ _ Hx Hq Hc Hn).
    + rewrite find_None in E. apply Hin, E in Hq. by apply bool_decide_eq_false in Hq.
Qed.

(** What a valid graph promises beyond the invariant. *)
Definition deallocations_paired (s : SCG) : Prop :=
  ∀ n a, n ∈ SCG_nodes s → deallocates n = Some a →
    ∃ d, SCG_get_node s a = Some d ∧ node_type d = TAllocation.

Definition boundaries_kept (s : SCG) : Prop :=
  ∀ e r q, e ∈ SCG_edges s → edge_kind e = DataFlow →
    in_region s (edge_source e) r → in_region s (edge_target e) q → r ≠ q →
    is_boundary s r = false ∧ is_boundary s q = false.

Lemma check_endpoints_valid s r e : scg_ok s → e ∈ SCG_edges s → check_endpoints s r e = r.
Proof.
  intros Hok He. destruct (edge_ends_live s e Hok He) as [Hs Ht].
  assert (∀ x, is_Some (node_id_to_index s !! x) → is_Some (SCG_get_node s x)) as Hg.
  { intros x (d & Hd & Hx)%node_index_Some; [|done]. exists d. by apply get_node_Some. }
  unfold check_endpoints. destruct (Hg _ Hs) as [? ->], (Hg _ Ht) as [? ->]. done.
Qed.

Lemma check_endpoints_all s r l :
  scg_ok s → (∀ e, e ∈ l → e ∈ SCG_edges s) → fold_left (check_endpoints s) l r = r.
Proof.
  intros Hok. induction l as [|e l IH]; intros Hl; simpl; [done|].
  rewrite check_endpoints_valid by (done || by apply Hl; left). apply IH. intros; apply Hl; by right.
Qed.

Lemma check_boundary_valid s regs r e :
  scg_ok s → regions_disjoint s → region_walk s regs →
  is_valid (check_boundary s regs r e) = true ↔
  is_valid r = true ∧ (edge_kind e = DataFlow → ∀ a b, in_region s (edge_source e) a →
    in_region s (edge_target e) b → a ≠ b → is_boundary s a = false ∧ is_boundary s b = false).
Proof.
  intros Hok Hd Hw. unfold check_boundary. case_bool_decide as Hk; simpl; [|naive_solver].
  setoid_rewrite <-(find_region_spec s regs _ _ Hok Hd Hw).
  destruct (find_region_for_node regs (edge_source e)) as [a|]; [|naive_solver].
  destruct (find_region_for_node regs (edge_target e)) as [b|]; [|naive_solver].
  destruct (Z.eqb_spec a b); simpl; [naive_solver|].
  destruct (is_boundary s a) eqn:Ea, (is_boundary s b) eqn:Eb; simpl; naive_solver congruence.
Qed.

Lemma validate_spec s regs :
  scg_ok s → regions_disjoint s → region_walk s regs →
  is_valid (validate s regs) = true ↔ deallocations_paired s ∧ boundaries_kept s.
Proof.
  intros Hok Hd Hw. unfold validate.
  rewrite (fold_valid (check_boundary s regs) (λ e, edge_kind e = DataFlow → ∀ a b,
    in_region s (edge_source e) a → in_region s (edge_target e) b → a ≠ b →
    is_boundary s a = false ∧ is_boundary s b = false)) by (intros; by apply check_boundary_valid).
  rewrite fold_valid_id by (intros; unfold check_orphan; repeat (case_bool_decide || case_match); done).
  rewrite (fold_valid _ (λ n, ∀ a, deallocates n = Some a →
    ∃ d, SCG_get_node s a = Some d ∧ node_type d = TAllocation)).
  2:{ intros r n _. unfold check_deallocation. destruct (deallocates n) as [a|]; [|naive_solver].
      destruct (OrderedSet_contains _ a) eqn:E; simpl.
      - apply OrderedSet_from_iter_spec in E. apply (list_elem_of_fmap node_id) in E as (d & -> & Hd').
        apply list_elem_of_In, List.filter_In in Hd' as [Hin%list_elem_of_In Ht%bool_decide_eq_true].
        split; [|tauto]. intros Hr. split; [done|]. intros a [= <-]. exists d.
        by rewrite get_node_Some.
      - split; [done|]. intros [_ Hp]. destruct (Hp a eq_refl) as (d & (Hin & Hid)%get_node_Some & Ht); [|done].
        assert (a ∈ map node_id (List.filter is_allocation (SCG_nodes s))) as Hx.
        { apply (list_elem_of_fmap node_id). exists d. split; [done|].
          apply list_elem_of_In, List.filter_In. split; [by apply list_elem_of_In|].
          by apply bool_decide_eq_true. }
        apply OrderedSet_from_iter_spec in Hx. congruence. }
  rewrite fold_valid_id by (intros; unfold check_freed; by destruct (OrderedSet_contains _ _)).
  rewrite check_endpoints_all by done. unfold deallocations_paired, boundaries_kept.
  cbn [is_valid ValidationResult_ok]. split.
  - intros [[_ H1] H2]. split; [intros n a Hn; by apply H1|].
    intros e a b He Hk Ha Hb. by apply (H2 e He Hk).
  - intros [H1 H2]. split; [split; [done|]; intros n Hn a; by apply H1|].
    intros e He Hk a b Ha Hb. by apply (H2 e).
Qed.

(** ** Examples *)

Definition here : ProgramPoint := ProgramPoint_mk None None None None.
Definition other_op (name : string) : NodePayload :=
  PComputation (ComputationNode_mk (CKOther name) None false).
Definition control (k : ControlKind) : NodePayload := PControl (ControlNode_mk k None).
Definition an_allocation : NodePayload := PAllocation (AllocationNode_mk 8 8 0 None).
Definition freeing (a : Z) : NodePayload := PDeallocation (DeallocationNode_mk a 0).

(** Run the steps, from the left. *)
Definition scg_run (chk : bool) (s : SCG) (ops : list scg_op) : outcome SCG :=
  fold_left (λ o op, s ← o; scg_step chk s op) ops (Ret s).
Definition the_graph (o : outcome SCG) : SCG := match o with Ret s => s | Panic => SCG_new end.

Lemma scg_run_reachable chk s ops s' :
  scg_reachable chk s → Forall op_ok ops → scg_run chk s ops = Ret s' → scg_reachable chk s'.
Proof.
  unfold scg_run. revert s. induction ops as [|op ops IH]; intros s Hs Hops; cbn [fold_left].
  { by intros [= <-]. }
  apply Forall_cons in Hops as [Hop Hops]. cbn [mbind outcome_bind].
  destruct (scg_step chk s op) as [s1|] eqn:E.
  - apply IH; [|done]. by eapply reach_step.
  - intros Hp. exfalso. clear -Hp. induction ops as [|x ops IH]; [done|]. by apply IH.
Qed.

Definition is_ret {A} (o : outcome A) : bool := match o with Ret _ => true | Panic => false end.

Lemma built_reachable ops :
  Forall op_ok ops → is_ret (scg_run true SCG_new ops) = true →
  scg_reachable true (the_graph (scg_run true SCG_new ops)).
Proof.
  intros Hops Hr. destruct (scg_run true SCG_new ops) as [s|] eqn:E; [|done].
  by apply (scg_run_reachable true SCG_new ops s (reach_new _)).
Qed.

(** An allocation that is freed, with the edge between them. *)
Definition pair_ops : list scg_op :=
  [OpAddNode TAllocation an_allocation here; OpAddNode TDeallocation (freeing 0) here;
   OpAddEdge 0 1 Derivation].
Definition pair_graph : SCG := the_graph (scg_run true SCG_new pair_ops).
Definition lone_ops : list scg_op := [OpAddNode TComputation (other_op "x") here].
Definition lone_graph : SCG := the_graph (scg_run true SCG_new lone_ops).

(** A function [0 .. 4] that calls the function [2, 3]. *)
Definition calling_ops : list scg_op :=
  [OpAddNode TControl (control FunctionEntry) here; OpAddNode TControl (control FunctionReturn) here;
   OpAddNode TControl (control FunctionEntry) here; OpAddNode TControl (control FunctionReturn) here;
   OpAddNode TComputation (other_op "call") here; OpAddEdge 0 4 ControlFlow;
   OpAddEdge 4 2 (Call 4 2 0); OpAddEdge 2 3 ControlFlow; OpAddNode TComputation (other_op "y") here;
   OpAddEdge 4 5 ControlFlow; OpAddEdge 5 1 ControlFlow].
Definition calling_graph : SCG := the_graph (scg_run true SCG_new calling_ops).

(** A value that flows into a node listed both in a plain and in a protected region. *)
Definition plain_region : SCGRegion := SCGRegion_mk 0 {[0; 1]} 0 false Heap.
Definition protected_region : SCGRegion := SCGRegion_mk 1 {[1]} 0 true Heap.
Definition crossing_ops : list scg_op :=
  [OpAddNode TComputation (other_op "x") here; OpAddNode TComputation (other_op "y") here;
   OpAddEdge 0 1 DataFlow; OpAddRegion plain_region; OpAddRegion protected_region].
Definition crossing_graph : SCG := the_graph (scg_run true SCG_new crossing_ops).

(** The build without overflow checks, after a node with the largest identifier. *)
Definition wrapped_graph : outcome SCG :=
  scg_run false SCG_new
    [OpAddNode TComputation (other_op "x") here;
     OpAddNodeWithId U64_MAX TComputation (other_op "y") here;
     OpAddNode TComputation (other_op "z") here].

Lemma pair_reachable : scg_reachable true pair_graph.
Proof. apply built_reachable; [by repeat constructor|reflexivity]. Qed.
Lemma lone_reachable : scg_reachable true lone_graph.
Proof. apply built_reachable; [by repeat constructor|reflexivity]. Qed.

(** ** Properties *)

(** C18. The graph's documented invariant, in a build with overflow checks: after any sequence
    of additions, removals, writes that keep identifiers, and merges, every identifier names
    exactly one slot and every live slot its identifier, in both directions, for nodes and
    for edges; an edge names the nodes its slot joins and both are alive; the adjacency lists
    and the counters are exact; identifiers are below the counters, so fresh ones are new;
    and removing a node or an edge never trips the [expect]s. *)
Theorem SCG_invariant (s : SCG) :
  scg_reachable true s →
  scg_ok s ∧ ∀ id, SCG_remove_node s id ≠ Panic ∧ SCG_remove_edge s id ≠ Panic.
Proof.
  intros Hok%scg_reachable_ok. split; [done|]. intros id. split.
  - destruct (node_id_to_index s !! id) as [i|] eqn:E.
    + by destruct (SCG_remove_node_spec s id i Hok E) as (? & ? & -> & _).
    + unfold SCG_remove_node. by rewrite E.
  - destruct (edge_id_to_index s !! id) as [i|] eqn:E.
    + by destruct (SCG_remove_edge_spec s id i Hok E) as (? & ? & -> & _).
    + unfold SCG_remove_edge. by rewrite E.
Qed.

Lemma SCG_invariant_witness :
  scg_ok pair_graph ∧ ∀ id, SCG_remove_node pair_graph id ≠ Panic ∧ SCG_remove_edge pair_graph id ≠ Panic.
Proof. exact (SCG_invariant pair_graph pair_reachable). Defined.

(** C19. Merging keeps the graph, and appends the other one: its nodes with fresh consecutive
    identifiers and everything else as it was, its edges between the images of their ends,
    its regions with the images of their nodes under fresh identifiers; the map returned
    sends each node's identifier to the new one. *)
Theorem SCG_merge_correct (s other : SCG) (regs : list SCGRegion) (s' : SCG) (m : gmap Z Z) :
  scg_reachable true s → scg_reachable true other → region_walk other regs →
  Scg.merge true s other regs = Ret (s', m) → merged s other regs s' m.
Proof. intros Hs%scg_reachable_ok Ho%scg_reachable_ok _. by apply merge_spec. Qed.

Lemma SCG_merge_correct_witness :
  ∃ s' m, Scg.merge true lone_graph pair_graph [] = Ret (s', m) ∧ merged lone_graph pair_graph [] s' m.
Proof.
  eexists _, _. split; [reflexivity|].
  apply SCG_merge_correct; [exact lone_reachable|exact pair_reachable| |reflexivity].
  apply (Permutation_refl (A := SCGRegion)).
Defined.

(** C20. The traversals agree with the edges: successors and predecessors are exactly the
    nodes an edge leads to or comes from; [find_path] answers, for two nodes of the graph,
    whether a path of edges leads from one to the other; [topological_sort] always returns,
    with an order of all nodes that puts the source of each edge before its target, or with
    [CycleDetected] exactly when there is a cycle. *)
Theorem SCG_traversals_correct (s : SCG) :
  scg_reachable true s →
  (∀ a, match SCG_successors s a with
        | Some l => ∀ b, b ∈ l ↔ flows s a b | None => a ∉ SCG_ids s end) ∧
  (∀ b l a, SCG_predecessors s b = Some l → a ∈ l ↔ flows s a b) ∧
  (∀ a b, a ∈ SCG_ids s → b ∈ SCG_ids s →
     ∃ r, find_path s a b = Ret (Some r) ∧ (r = true ↔ rtc (flows s) a b)) ∧
  ∃ r, topological_sort s = Ret r ∧
    match r with
    | Ok order => order ≡ₚ SCG_ids s ∧ ids_ordered s order ∧ ids_acyclic s
    | Err e => e = CycleDetected ∧ ¬ ids_acyclic s
    end.
Proof.
  intros Hok%scg_reachable_ok. split; [|split; [|split]].
  - intros a. destruct (SCG_successors s a) as [l|] eqn:E.
    + intros b. by apply successors_spec.
    + by apply successors_None.
  - intros b l a. by apply predecessors_spec.
  - intros a b. by apply find_path_spec.
  - by apply topological_sort_spec.
Qed.

Lemma SCG_traversals_correct_witness :
  ∃ r, find_path pair_graph 0 1 = Ret (Some r) ∧ (r = true ↔ rtc (flows pair_graph) 0 1).
Proof.
  destruct (SCG_traversals_correct pair_graph pair_reachable) as (_ & _ & H & _).
  apply H; apply (bool_decide_unpack _); reflexivity.
Defined.

(** C21. When no node is in two regions, [validate] accepts a graph exactly when every
    deallocation names an existing allocation node and no data-flow edge joins two regions
    one of which is a security boundary, in whatever order the regions are walked. *)
Theorem validate_correct (s : SCG) (regs : list SCGRegion) :
  scg_reachable true s → regions_disjoint s → region_walk s regs →
  is_valid (validate s regs) = true ↔ deallocations_paired s ∧ boundaries_kept s.
Proof. intros Hok%scg_reachable_ok. by apply validate_spec. Qed.

Lemma validate_correct_witness :
  is_valid (validate pair_graph []) = true ↔ deallocations_paired pair_graph ∧ boundaries_kept pair_graph.
Proof.
  apply validate_correct; [exact pair_reachable| |apply (Permutation_refl (A := SCGRegion))].
  intros i j r q n H. exfalso. assert (regions pair_graph = ∅) as E by reflexivity.
  by rewrite E, lookup_empty in H.
Defined.

