(* ===== verification/Liveness.v ===== *)
(** * Liveness of values in the computation graph

    Models [src/src/scg/src/liveness.rs]: the iterative backward data-flow analysis, and the
    checks built on it (dead code, uninitialised reads, uses after a release, dead
    allocations).  The analysis stops after [MAX_ITERATIONS] passes, as the code does.  The
    loops without such a limit run on fuel: one unit per edge and one more for the marking of
    needed values, one per node and one more for the search of uses.  The order in which the
    [HashMap] of nodes is walked is an argument. *)

From S2P Require Import Prelude Digraph ScgNode Scg.
From stdpp Require Import gmap.
From stdpp Require Import options.

#[local] Open Scope Z_scope.

(** ** Data *)

Record LivenessInfo : Type := LivenessInfo_mk {
  live_in : gset Z;
  live_out : gset Z;
}.

#[export] Instance LivenessInfo_eq_dec : EqDecision LivenessInfo.
Proof. solve_decision. Defined.

Definition LivenessInfo_empty : LivenessInfo := LivenessInfo_mk ∅ ∅.
Definition info_is_live_in (i : LivenessInfo) (id : Z) : bool := bool_decide (id ∈ live_in i).
Definition info_is_live_out (i : LivenessInfo) (id : Z) : bool := bool_decide (id ∈ live_out i).
Definition live_in_count (i : LivenessInfo) : nat := size (live_in i).
Definition live_out_count (i : LivenessInfo) : nat := size (live_out i).

Notation liveness_map := (gmap Z LivenessInfo) (only parsing).

Record LivenessAnalysis : Type := LivenessAnalysis_mk {
  liveness : liveness_map;
  iterations : nat;
  converged : bool;
}.

Definition is_live_in (a : LivenessAnalysis) (node value : Z) : bool :=
  match liveness a !! node with Some i => info_is_live_in i value | None => false end.
Definition is_live_out (a : LivenessAnalysis) (node value : Z) : bool :=
  match liveness a !! node with Some i => info_is_live_out i value | None => false end.
Definition all_live_values (a : LivenessAnalysis) : gset Z :=
  map_fold (λ _ i acc, acc ∪ live_in i ∪ live_out i) ∅ (liveness a).

(** ** The analysis *)

Definition MAX_ITERATIONS : nat := Z.to_nat 10000.

Definition is_data (k : EdgeKind) : bool :=
  match k with DataFlow | Derivation => true | _ => false end.
Definition is_flow (k : EdgeKind) : bool :=
  match k with ControlFlow | DataFlow | Derivation => true | _ => false end.

Definition compute_use_set (s : SCG) (n : Z) : gset Z :=
  list_to_set (map edge_source
    (List.filter (λ e, (edge_target e =? n) && is_data (edge_kind e)) (SCG_edges s))).

Definition has_relevant_edge (s : SCG) (a b : Z) : bool :=
  existsb (λ e, (edge_source e =? a) && (edge_target e =? b) && is_flow (edge_kind e)) (SCG_edges s).

Fixpoint successor_scan (s : SCG) (n : Z) (all : list Z) (seen : gset Z) : list Z :=
  match all with
  | [] => []
  | succ :: rest =>
      if decide (succ ∈ seen) then successor_scan s n rest seen
      else if has_relevant_edge s n succ
           then succ :: successor_scan s n rest ({[succ]} ∪ seen)
           else successor_scan s n rest ({[succ]} ∪ seen)
  end.

Definition compute_successor_set (s : SCG) (n : Z) : list Z :=
  match SCG_successors s n with
  | Some all => successor_scan s n all ∅
  | None => []
  end.

(** The equations at one node, in the current state. *)
Definition live_in_of (lv : liveness_map) (n : Z) : gset Z :=
  match lv !! n with Some i => live_in i | None => ∅ end.
Definition new_live_out (successor_sets : Z → list Z) (lv : liveness_map) (n : Z) : gset Z :=
  ⋃ map (live_in_of lv) (successor_sets n).
Definition new_info (use_sets : Z → gset Z) (successor_sets : Z → list Z) (lv : liveness_map)
    (n : Z) : LivenessInfo :=
  let out := new_live_out successor_sets lv n in
  LivenessInfo_mk (use_sets n ∪ (out ∖ {[n]})) out.

(** One pass over the nodes: the new state, and whether nothing changed. *)
Fixpoint liveness_pass (use_sets : Z → gset Z) (successor_sets : Z → list Z) (order : list Z)
    (lv : liveness_map) (conv : bool) : outcome (liveness_map * bool) :=
  match order with
  | [] => Ret (lv, conv)
  | n :: rest =>
      match lv !! n with
      | None => Panic
      | Some info =>
          let i := new_info use_sets successor_sets lv n in
          if decide (info = i) then liveness_pass use_sets successor_sets rest lv conv
          else liveness_pass use_sets successor_sets rest (<[n := i]> lv) false
      end
  end.

(** [budget] passes are left. *)
Fixpoint liveness_loop (use_sets : Z → gset Z) (successor_sets : Z → list Z) (order : list Z)
    (budget : nat) (lv : liveness_map) (iters : nat) : outcome LivenessAnalysis :=
  match budget with
  | O => Ret (LivenessAnalysis_mk lv iters false)
  | S budget' =>
      '(lv, conv) ← liveness_pass use_sets successor_sets order lv true;
      if conv : bool then Ret (LivenessAnalysis_mk lv (S iters) true)
      else liveness_loop use_sets successor_sets order budget' lv (S iters)
  end.

(** [all_node_ids] is the order of the walk. *)
Definition compute_liveness_inner (s : SCG) (all_node_ids : list Z) : outcome LivenessAnalysis :=
  if is_nil all_node_ids then Ret (LivenessAnalysis_mk ∅ 0 true) else
  let init := fold_left (λ m n, <[n := LivenessInfo_empty]> m) all_node_ids ∅ in
  liveness_loop (compute_use_set s) (compute_successor_set s) all_node_ids MAX_ITERATIONS init 0.

Definition compute_liveness (s : SCG) (all_node_ids : list Z) : outcome liveness_map :=
  liveness <$> compute_liveness_inner s all_node_ids.

(** ** Dead code *)

Definition is_pure_node (t : NodeType) : bool :=
  match t with TComputation | TCast | TPhantom => true | _ => false end.

Definition mark_edge (st : gset Z * bool) (e : EdgeData) : gset Z * bool :=
  let '(needed, changed) := st in
  if is_data (edge_kind e) && bool_decide (edge_target e ∈ needed) &&
     bool_decide (edge_source e ∉ needed)
  then ({[edge_source e]} ∪ needed, true) else st.

(** [None]: the fuel ran out. *)
Fixpoint mark_needed (fuel : nat) (s : SCG) (needed : gset Z) : option (gset Z) :=
  match fuel with
  | O => None
  | S fuel' =>
      let '(needed, changed) := fold_left mark_edge (SCG_edges s) (needed, false) in
      if changed : bool then mark_needed fuel' s needed else Some needed
  end.

Definition essential_nodes (s : SCG) : gset Z :=
  list_to_set (map node_id (List.filter (λ n, negb (is_pure_node (node_type n))) (SCG_nodes s))).

Definition find_dead_code (s : SCG) : option (list Z) :=
  needed ← mark_needed (S (length (SCG_edges s))) s (essential_nodes s);
  Some (sort_by_key id (map node_id
    (List.filter (λ n, is_pure_node (node_type n) && bool_decide (node_id n ∉ needed))
       (SCG_nodes s)))).

(** ** Uninitialised reads *)

Definition reads (m : AccessMode) : bool := match m with Read | ReadWrite => true | Write => false end.
Definition writes (m : AccessMode) : bool := match m with Write | ReadWrite => true | Read => false end.

(** [find_path(a, b).unwrap_or(false)] *)
Definition reaches (s : SCG) (a b : Z) : outcome bool :=
  r ← find_path s a b; Ret (default false r).

(** Does [other] define what node [id] reads from [region]? *)
Definition defines_read (s : SCG) (id region : Z) (other : NodeData) : outcome bool :=
  if node_id other =? id then Ret false else
  match node_payload other with
  | PAllocation _ => r ← reaches s (node_id other) id; Ret (r || true)
  | PAccess a =>
      if (access_region_id a =? region) && writes (access_mode a)
      then r ← reaches s (node_id other) id; Ret (r || (node_id other <? id))
      else Ret false
  | _ => Ret false
  end.

Fixpoint any_node (f : NodeData → outcome bool) (l : list NodeData) : outcome bool :=
  match l with
  | [] => Ret false
  | n :: l' => b ← f n; if b : bool then Ret true else any_node f l'
  end.

Fixpoint uninitialized_scan (s : SCG) (l : list NodeData) : outcome (list Z) :=
  match l with
  | [] => Ret []
  | n :: l' =>
      match node_payload n with
      | PAccess a =>
          if reads (access_mode a) then
            has_reaching_def ← any_node (defines_read s (node_id n) (access_region_id a)) (SCG_nodes s);
            rest ← uninitialized_scan s l';
            Ret (if has_reaching_def : bool then rest else node_id n :: rest)
          else uninitialized_scan s l'
      | _ => uninitialized_scan s l'
      end
  end.

Definition find_uninitialized_reads (s : SCG) : outcome (list Z) :=
  sort_by_key id <$> uninitialized_scan s (SCG_nodes s).

(** ** Uses after a release *)

Record UseAfterFree : Type := UseAfterFree_mk {
  uaf_allocation : Z;
  uaf_deallocation : Z;
  violating_uses : gset Z;
}.

(** [collect_violating_uses] and its recursive half: they differ in nothing that changes the
    result.  The recursion is depth first; [None] is the end of the fuel. *)
Fixpoint collect_violating_uses (fuel : nat) (s : SCG) (lv : liveness_map) (alloc : Z)
    (current : Z) (res : gset Z) : option (gset Z) :=
  match fuel with
  | O => None
  | S fuel' =>
      fold_left (λ acc succ,
        res ← acc;
        match lv !! succ with
        | Some info =>
            if info_is_live_in info alloc && bool_decide (succ ∉ res)
            then collect_violating_uses fuel' s lv alloc succ ({[succ]} ∪ res)
            else Some res
        | None => Some res
        end) (default [] (SCG_successors s current)) (Some res)
  end.

Definition check_release (s : SCG) (lv : liveness_map) (n : NodeData) : option (list UseAfterFree) :=
  match deallocates n with
  | None => Some []
  | Some alloc_id =>
      match lv !! node_id n with
      | None => Some []
      | Some info =>
          if info_is_live_out info alloc_id then
            uses ← collect_violating_uses (S (length (SCG_nodes s))) s lv alloc_id (node_id n) ∅;
            Some [UseAfterFree_mk alloc_id (node_id n) uses]
          else Some []
      end
  end.

Fixpoint release_scan (s : SCG) (lv : liveness_map) (l : list NodeData) : option (list UseAfterFree) :=
  match l with
  | [] => Some []
  | n :: l' => v ← check_release s lv n; rest ← release_scan s lv l'; Some (v ++ rest)
  end.

Definition find_use_after_free (s : SCG) (lv : liveness_map) : option (list UseAfterFree) :=
  sort_by_key uaf_deallocation <$> release_scan s lv (SCG_nodes s).

(** ** Dead allocations *)

Definition reads_region (region : Z) (n : NodeData) : bool :=
  match node_payload n with
  | PAccess a => (access_region_id a =? region) && reads (access_mode a)
  | _ => false
  end.

Definition reads_from (s : SCG) (alloc region : Z) (other : NodeData) : outcome bool :=
  if (node_id other =? alloc) || negb (reads_region region other) then Ret false
  else reaches s alloc (node_id other).

Definition has_dataflow_use (s : SCG) (alloc : Z) : bool :=
  existsb (λ e, (edge_source e =? alloc) && bool_decide (edge_kind e = DataFlow) &&
    negb (bool_decide (node_type <$> SCG_get_node s (edge_target e) = Some TDeallocation)))
    (SCG_edges s).

Fixpoint dead_allocation_scan (s : SCG) (l : list NodeData) : outcome (list Z) :=
  match l with
  | [] => Ret []
  | n :: l' =>
      match node_payload n with
      | PAllocation a =>
          if bool_decide (node_type n = TAllocation) then
            has_read_access ← any_node (reads_from s (node_id n) (allocation_region_id a)) (SCG_nodes s);
            rest ← dead_allocation_scan s l';
            Ret (if has_read_access || has_dataflow_use s (node_id n) then rest
                 else node_id n :: rest)
          else dead_allocation_scan s l'
      | _ => dead_allocation_scan s l'
      end
  end.

Definition find_dead_allocations (s : SCG) : outcome (list Z) :=
  sort_by_key id <$> dead_allocation_scan s (SCG_nodes s).
