(* ===== verification/LivenessSound.v ===== *)
(** * The liveness analysis is exact

    What the passes of [Liveness] compute, for any use sets and successor lists: after [k]
    passes every use at most [k] steps away has been seen, nothing that is not a use is ever
    added, and the sets are full after one pass more than there are nodes.  Then the checks
    built on it, against the edges of the graph. *)

From S2P Require Import Prelude Digraph ScgNode Scg ScgInv ScgMerge ScgPaths Liveness.
From stdpp Require Import gmap relations.
From stdpp Require Import options.

#[local] Open Scope Z_scope.

Lemma size_list_to_set_le (l : list Z) : (size (list_to_set l : gset Z) ≤ length l)%nat.
Proof.
  induction l as [|x l IH]; [by rewrite list_to_set_nil, size_empty|].
  simpl. rewrite size_union_alt, size_singleton.
  assert (size ((list_to_set l : gset Z) ∖ {[x]}) ≤ size (list_to_set l : gset Z))%nat; [|lia].
  apply subseteq_size. set_solver.
Qed.

Section dataflow.
  Context (use : Z → gset Z) (succs : Z → list Z) (order : list Z).
  Context (Hclosed : ∀ n t, n ∈ order → t ∈ succs n → t ∈ order).
  #[local] Set Default Proof Using "All".
  Implicit Types (lv : gmap Z LivenessInfo).

(** [v] is used [k] steps after the entry of [n], and its definition is not passed before. *)
Inductive live_at (v : Z) : nat → Z → Prop :=
  | live_use n : v ∈ use n → live_at v 0 n
  | live_step n t k : n ≠ v → t ∈ succs n → live_at v k t → live_at v (S k) n.

Definition live_within (k : nat) (n v : Z) : Prop := ∃ j, (j < k)%nat ∧ live_at v j n.
Definition live_entry (n v : Z) : Prop := ∃ j, live_at v j n.
Definition live_exit (n v : Z) : Prop := ∃ t, t ∈ succs n ∧ live_entry t v.

(** [k] steps are enough for every use. *)
Definition saturated (k : nat) : Prop :=
  ∀ n v, n ∈ order → live_entry n v → live_within k n v.

(** ** States *)

Definition tracked lv : Prop := ∀ n, is_Some (lv !! n) ↔ n ∈ order.

(** Nothing is live that has no use. *)
Definition sound lv : Prop :=
  ∀ n i, lv !! n = Some i →
    (∀ v, v ∈ live_in i → live_entry n v) ∧ (∀ v, v ∈ live_out i → live_exit n v).

Definition complete_in (k : nat) lv (n : Z) : Prop :=
  ∀ i v, lv !! n = Some i → live_within k n v → v ∈ live_in i.
Definition complete_out (k : nat) lv (n : Z) : Prop :=
  ∀ i v t, lv !! n = Some i → t ∈ succs n → live_within k t v → v ∈ live_out i.

Definition exact lv : Prop :=
  ∀ n i, lv !! n = Some i →
    (∀ v, v ∈ live_in i ↔ live_entry n v) ∧ (∀ v, v ∈ live_out i ↔ live_exit n v).

Lemma live_within_S k n v :
  live_within (S k) n v ↔ v ∈ use n ∨ (n ≠ v ∧ ∃ t, t ∈ succs n ∧ live_within k t v).
Proof.
  split.
  - intros (j & Hj & H). destruct H as [n Hu|n t j Hn Ht Hl]; [by left|].
    right. split; [done|]. exists t. split; [done|]. exists j. split; [lia|done].
  - intros [Hu|(Hn & t & Ht & j & Hj & Hl)].
    + exists O. split; [lia|by constructor].
    + exists (S j). split; [lia|by econstructor].
Qed.

Lemma live_within_mono k k' n v : (k ≤ k')%nat → live_within k n v → live_within k' n v.
Proof. intros Hk (j & Hj & H). exists j. split; [lia|done]. Qed.

Lemma live_entry_unfold n v :
  live_entry n v ↔ v ∈ use n ∨ (n ≠ v ∧ live_exit n v).
Proof.
  split.
  - intros [j H]. destruct H as [n Hu|n t j Hn Ht Hl]; [by left|right].
    split; [done|]. exists t. split; [done|by exists j].
  - intros [Hu|(Hn & t & Ht & j & Hl)]; [exists O|exists (S j)]; by econstructor.
Qed.

Lemma elem_of_new_out lv n v :
  v ∈ new_live_out succs lv n ↔ ∃ t i, t ∈ succs n ∧ lv !! t = Some i ∧ v ∈ live_in i.
Proof.
  unfold new_live_out. rewrite elem_of_union_list. split.
  - intros (X & HX & Hv). apply (list_elem_of_fmap (live_in_of lv)) in HX as (t & -> & Ht).
    unfold live_in_of in Hv. destruct (lv !! t) as [i|] eqn:E; [by exists t, i|set_solver].
  - intros (t & i & Ht & E & Hv). exists (live_in_of lv t). split.
    + apply (list_elem_of_fmap (live_in_of lv)). eauto.
    + unfold live_in_of. by rewrite E.
Qed.

Lemma elem_of_new_in lv n v :
  v ∈ live_in (new_info use succs lv n) ↔
  v ∈ use n ∨ (n ≠ v ∧ v ∈ new_live_out succs lv n).
Proof. simpl. set_solver. Qed.

(** ** One node *)

Lemma new_info_sound lv n :
  sound lv →
  (∀ v, v ∈ live_in (new_info use succs lv n) → live_entry n v) ∧
  (∀ v, v ∈ live_out (new_info use succs lv n) → live_exit n v).
Proof.
  intros Hs. assert (∀ v, v ∈ new_live_out succs lv n → live_exit n v) as Hout.
  { intros v (t & i & Ht & Hi & Hv)%elem_of_new_out. exists t. split; [done|]. by eapply Hs. }
  split; [|exact Hout]. intros v Hv%elem_of_new_in. apply live_entry_unfold. naive_solver.
Qed.

Lemma new_info_complete_out k lv n v t :
  tracked lv → n ∈ order → (∀ t, t ∈ succs n → complete_in k lv t) →
  t ∈ succs n → live_within k t v → v ∈ live_out (new_info use succs lv n).
Proof.
  intros Ht Hn Hc Hs Hl. simpl. apply elem_of_new_out.
  destruct (proj2 (Ht t)) as [i Hi]; [by eapply Hclosed|]. exists t, i.
  split; [done|]. split; [done|]. by eapply Hc.
Qed.

Lemma new_info_complete_in k lv n v :
  tracked lv → n ∈ order → (∀ t, t ∈ succs n → complete_in k lv t) →
  live_within (S k) n v → v ∈ live_in (new_info use succs lv n).
Proof.
  intros Ht Hn Hc [Hu|(Hne & t & Hs & Hl)]%live_within_S; apply elem_of_new_in; [by left|right].
  split; [done|]. by eapply (new_info_complete_out k lv n v t).
Qed.

(** ** One pass *)

Lemma tracked_insert lv n i : tracked lv → n ∈ order → tracked (<[n := i]> lv).
Proof.
  intros Ht Hn m. rewrite lookup_insert. case_decide; [|apply Ht]. subst. naive_solver.
Qed.

Lemma pass_total todo lv conv :
  tracked lv → (∀ n, n ∈ todo → n ∈ order) →
  ∃ lv' c, liveness_pass use succs todo lv conv = Ret (lv', c) ∧ tracked lv'.
Proof.
  revert lv conv. induction todo as [|n todo IH]; intros lv conv Ht Hin; [by eexists _, _|].
  cbn [liveness_pass]. destruct (proj2 (Ht n)) as [i Hi]; [apply Hin; by left|]. rewrite Hi.
  case_decide; (apply IH; [|intros; apply Hin; by right]); [done|].
  apply tracked_insert; [done|]. apply Hin. by left.
Qed.

(** A property that every node's update keeps is kept by a pass. *)
Lemma pass_keeps (P : gmap Z LivenessInfo → Prop) todo lv conv lv' c :
  (∀ lv n, n ∈ todo → P lv → P (<[n := new_info use succs lv n]> lv)) → P lv →
  liveness_pass use succs todo lv conv = Ret (lv', c) → P lv'.
Proof.
  intros Hstep. revert lv conv. induction todo as [|n todo IH]; intros lv conv HP; cbn [liveness_pass].
  { by intros [= <- <-]. }
  destruct (lv !! n) as [i|]; [|done]. case_decide.
  - apply IH; [|done]. intros ? m Hm. apply Hstep. by right.
  - apply IH; [|apply Hstep; [by left|done]]. intros ? m Hm. apply Hstep. by right.
Qed.

Lemma pass_sound todo lv conv lv' c :
  sound lv → liveness_pass use succs todo lv conv = Ret (lv', c) → sound lv'.
Proof.
  intros Hs. eapply pass_keeps; [|done]. intros lv1 n _ H1 m i. rewrite lookup_insert.
  case_decide; [|apply H1]. intros [= <-]. subst. by apply new_info_sound.
Qed.

(** Nothing changed exactly when every visited node already satisfied its equations. *)
Lemma pass_conv todo lv lv' c :
  liveness_pass use succs todo lv true = Ret (lv', c) →
  (c = true → lv' = lv ∧ ∀ n, n ∈ todo → lv !! n = Some (new_info use succs lv n)) ∧
  ((∀ n, n ∈ todo → lv !! n = Some (new_info use succs lv n)) → c = true).
Proof.
  assert (∀ todo lv lv', liveness_pass use succs todo lv false = Ret (lv', true) → False) as Hfalse.
  { clear. intros todo. induction todo as [|n todo IH]; intros lv lv'; cbn [liveness_pass]; [done|].
    destruct (lv !! n); [|done]. case_decide; apply IH. }
  induction todo as [|n todo IH]; cbn [liveness_pass].
  { intros [= <- <-]. split; [|done]. intros _. split; [done|]. by intros n ?%elem_of_nil. }
  destruct (lv !! n) as [i|] eqn:Ei; [|done]. case_decide as Hi.
  - intros Hp. destruct (IH Hp) as [H1 H2]. split.
    + intros Hc. destruct (H1 Hc) as [-> Hall]. split; [done|].
      intros m [->|Hm]%elem_of_cons; [by rewrite Ei, <-Hi|by apply Hall].
    + intros Hall. apply H2. intros m Hm. apply Hall. by right.
  - intros Hp. split.
    + intros ->. by apply Hfalse in Hp.
    + intros Hall. destruct Hi. specialize (Hall n ltac:(by left)). rewrite Ei in Hall. by injection Hall.
Qed.
(** After a pass every node sees one step further than before it, and its exit as far as the
    entries before it. *)
Lemma pass_complete k todo lv conv lv' c :
  tracked lv → (∀ n, n ∈ todo → n ∈ order) → (∀ n, complete_in k lv n) →
  liveness_pass use succs todo lv conv = Ret (lv', c) →
  (∀ n, complete_in k lv' n) ∧
  (∀ n, n ∈ todo → complete_in (S k) lv' n ∧ complete_out k lv' n) ∧
  (∀ n, complete_in (S k) lv n → complete_in (S k) lv' n) ∧
  (∀ n, complete_out k lv n → complete_out k lv' n).
Proof.
  revert lv conv. induction todo as [|n todo IH]; intros lv conv Ht Hin Hc; cbn [liveness_pass].
  { intros [= <- <-]. split; [done|]. split; [by intros n ?%elem_of_nil|done]. }
  assert (n ∈ order) as Hn by (apply Hin; by left).
  assert (∀ m, m ∈ todo → m ∈ order) as Hin' by (intros; apply Hin; by right).
  destruct (lv !! n) as [i|] eqn:Ei; [|done].
  assert (∀ v, live_within (S k) n v → v ∈ live_in (new_info use succs lv n)) as Hni
    by (intros v; by apply new_info_complete_in).
  assert (∀ v t, t ∈ succs n → live_within k t v → v ∈ live_out (new_info use succs lv n)) as Hno
    by (intros v t; by apply new_info_complete_out).
  case_decide as Hi.
  - intros Hp. destruct (IH _ _ Ht Hin' Hc Hp) as (H1 & H2 & H3 & H4). split; [done|].
    split; [|done]. intros m [->|Hm]%elem_of_cons; [|by apply H2].
    split; [apply H3|apply H4]; intros j; [intros v Hj|intros v t Hj]; rewrite Ei in Hj;
      injection Hj as <-; rewrite Hi; naive_solver.
  - assert (∀ m, complete_in (S k) lv m → complete_in (S k) (<[n:=new_info use succs lv n]> lv) m) as G1.
    { intros m Hm j v. rewrite lookup_insert. case_decide; [|apply Hm].
      subst. intros [= <-]. apply Hni. }
    assert (∀ m, complete_out k lv m → complete_out k (<[n:=new_info use succs lv n]> lv) m) as G2.
    { intros m Hm j v t. rewrite lookup_insert. case_decide; [|apply Hm].
      subst. intros [= <-]. apply Hno. }
    assert (∀ m, complete_in k (<[n:=new_info use succs lv n]> lv) m) as G0.
    { intros m j v. rewrite lookup_insert. case_decide; [|apply Hc]. subst. intros [= <-] Hl.
      apply Hni. eapply live_within_mono; [|done]. lia. }
    intros Hp. destruct (IH _ _ (tracked_insert lv n _ Ht Hn) Hin' G0 Hp) as (H1 & H2 & H3 & H4).
    split; [done|]. split; [|split; auto].
    intros m [->|Hm]%elem_of_cons; [|by apply H2].
    split; [apply H3|apply H4].
    + intros j v. rewrite lookup_insert_eq. intros [= <-]. apply Hni.
    + intros j v t. rewrite lookup_insert_eq. intros [= <-]. apply Hno.
Qed.

(** ** Saturation *)

(** The nodes that have a use of [v] within [k] steps. *)
Fixpoint level (v : Z) (k : nat) : gset Z :=
  match k with
  | O => ∅
  | S k' => list_to_set (filter (λ n, v ∈ use n ∨ (n ≠ v ∧ Exists (λ t, t ∈ level v k') (succs n))) order)
  end.

Lemma elem_of_level v k n : n ∈ level v k ↔ n ∈ order ∧ live_within k n v.
Proof.
  revert n. induction k as [|k IH]; intros n; cbn [level].
  { split; [set_solver|]. intros (_ & j & Hj & _). lia. }
  rewrite elem_of_list_to_set, list_elem_of_filter, live_within_S, Exists_exists.
  setoid_rewrite IH. naive_solver.
Qed.

Lemma level_step v k : level v k = level v (S k) → level v (S k) = level v (S (S k)).
Proof.
  intros He. apply set_eq. intros n. rewrite !elem_of_level. rewrite (live_within_S (S k)), live_within_S.
  assert (∀ t, t ∈ order → live_within k t v ↔ live_within (S k) t v) as Hk.
  { intros t Ht. pose proof (elem_of_level v k t) as E1. rewrite He, elem_of_level in E1. tauto. }
  split; intros [Hn H]; (split; [done|]); (destruct H as [?|(Hne & t & Hs & Hl)]; [by left|right]);
    (split; [done|]); exists t; (split; [done|]); apply Hk; eauto.
Qed.

Lemma level_mono v k : level v k ⊆ level v (S k).
Proof.
  intros n. rewrite !elem_of_level. intros [Hn Hl]. split; [done|].
  eapply live_within_mono; [|done]. lia.
Qed.

(** Until it is full, every step adds a node. *)
Lemma level_grows v k : level v k = level v (S k) ∨ (k < size (level v (S k)))%nat.
Proof.
  induction k as [|k IH].
  - destruct (decide (level v 0 = level v 1)) as [?|Hne]; [by left|right].
    destruct (decide (size (level v 1) = 0%nat)) as [H0|]; [|lia].
    destruct Hne. by apply size_empty_inv, leibniz_equiv in H0.
  - destruct IH as [He|Hs]; [left; by apply level_step|].
    destruct (decide (level v (S k) = level v (S (S k)))) as [?|Hne]; [by left|right].
    enough (size (level v (S k)) < size (level v (S (S k))))%nat by lia.
    apply subset_size. pose proof (level_mono v (S k)). set_solver.
Qed.

Lemma saturated_length : saturated (length order).
Proof.
  intros n v Hn [j Hj].
  assert (level v (length order) = level v (S (length order))) as He.
  { destruct (level_grows v (length order)) as [?|Hlt]; [done|exfalso].
    assert (size (level v (S (length order))) ≤ length order)%nat; [|lia].
    etrans; [|apply (size_list_to_set_le order)]. apply subseteq_size.
    intros x [Hx _]%elem_of_level. set_solver. }
  assert (∀ d, level v (length order) = level v (length order + d)%nat ∧
    level v (length order + d)%nat = level v (S (length order + d))%nat) as Hall.
  { induction d as [|d [IH1 IH2]]; [rewrite Nat.add_0_r; done|].
    rewrite Nat.add_succ_r. split; [congruence|by apply level_step]. }
  apply (elem_of_level v (length order) n).
  rewrite (proj1 (Hall (S j))). apply elem_of_level. split; [done|]. exists j. split; [lia|done].
Qed.

(** ** The loop *)

(** States that satisfy the equations, or that have seen enough, are exact. *)
Lemma equations_exact lv :
  tracked lv → sound lv → (∀ n, n ∈ order → lv !! n = Some (new_info use succs lv n)) → exact lv.
Proof.
  intros Ht Hs He.
  assert (∀ k n, complete_in k lv n) as Hin.
  { induction k as [|k IH]; intros n i v Hi Hl; [destruct Hl as (j & ? & _); lia|].
    assert (n ∈ order) as Hn by (apply Ht; eauto). rewrite (He n Hn) in Hi. injection Hi as <-.
    by eapply new_info_complete_in. }
  intros n i Hi. assert (n ∈ order) as Hn by (apply Ht; eauto). destruct (Hs n i Hi) as [S1 S2].
  split; intros v; (split; [auto|]).
  - intros [j Hj]. apply (Hin (S j) n i v Hi). exists j. split; [lia|done].
  - intros (t & Hts & j & Hj). rewrite (He n Hn) in Hi. injection Hi as <-.
    eapply (new_info_complete_out (S j)); try done. exists j. split; [lia|done].
Qed.

Lemma complete_exact k lv :
  sound lv → saturated k → tracked lv → (∀ n, complete_in k lv n) → (∀ n, complete_out k lv n) →
  exact lv.
Proof.
  intros Hs Hk Ht Hin Hout n i Hi. assert (n ∈ order) as Hn by (apply Ht; eauto).
  destruct (Hs n i Hi) as [S1 S2]. split; intros v; (split; [auto|]).
  - intros Hl. eapply Hin; [done|]. by apply Hk.
  - intros (t & Hts & Hl). eapply Hout; [done|done|]. apply Hk; [by eapply Hclosed|done].
Qed.

Lemma exact_equations lv n :
  tracked lv → exact lv → n ∈ order → lv !! n = Some (new_info use succs lv n).
Proof.
  intros Ht Hx Hn. destruct (proj2 (Ht n) Hn) as [i Hi]. rewrite Hi. f_equal.
  destruct (Hx n i Hi) as [X1 X2].
  assert (∀ v, v ∈ new_live_out succs lv n ↔ live_exit n v) as Hout.
  { intros v. rewrite elem_of_new_out. split.
    - intros (t & j & Hts & Hj & Hv). exists t. split; [done|]. by apply (Hx t j Hj).
    - intros (t & Hts & Hl). destruct (proj2 (Ht t)) as [j Hj]; [by eapply Hclosed|].
      exists t, j. split; [done|]. split; [done|]. by apply (Hx t j Hj). }
  destruct i as [a b]. unfold new_info. simpl in *. f_equal; apply set_eq; intros v.
  - rewrite X1, live_entry_unfold, elem_of_union, elem_of_difference, Hout, elem_of_singleton.
    naive_solver.
  - by rewrite X2, Hout.
Qed.

(** What is known before pass [S j]. *)
Record seen (j : nat) lv : Prop := {
  seen_tracked : tracked lv;
  seen_sound : sound lv;
  seen_in : ∀ n, complete_in j lv n;
  seen_out : ∀ n, complete_out (j - 1) lv n;
}.

Lemma seen_pass j lv lv' c :
  seen j lv → liveness_pass use succs order lv true = Ret (lv', c) → seen (S j) lv'.
Proof.
  intros [Ht Hs Hin Hout] Hp.
  destruct (pass_total order lv true Ht (λ _ H, H)) as (lv1 & c1 & E & Ht1).
  rewrite Hp in E. injection E as <- <-.
  destruct (pass_complete j order lv true lv' c Ht (λ _ H, H) Hin Hp) as (H1 & H2 & H3 & H4).
  split; [done|by eapply pass_sound| |].
  - intros n i v Hi. assert (n ∈ order) as Hn by (apply Ht1; eauto). by apply (H2 n Hn).
  - intros n i v t Hi. assert (n ∈ order) as Hn by (apply Ht1; eauto).
    replace (S j - 1)%nat with j by lia. by apply (H2 n Hn).
Qed.

Lemma loop_spec budget j lv :
  seen j lv → (j ≤ S (length order))%nat →
  ∃ a, liveness_loop use succs order budget lv j = Ret a ∧
    tracked (liveness a) ∧ sound (liveness a) ∧ (iterations a ≤ j + budget)%nat ∧
    (converged a = true → exact (liveness a)) ∧
    (length order + 2 ≤ j + budget → converged a = true ∧ iterations a ≤ length order + 2)%nat.
Proof.
  revert j lv. induction budget as [|budget IH]; intros j lv Hseen Hj; cbn [liveness_loop].
  { eexists. split; [done|]. destruct Hseen. simpl. split_and!; try done; lia. }
  pose proof (seen_tracked _ _ Hseen) as Ht. pose proof (seen_sound _ _ Hseen) as Hs.
  destruct (pass_total order lv true Ht (λ _ H, H)) as (lv' & c & E & Ht').
  rewrite E. cbn [mbind outcome_bind]. pose proof (seen_pass _ _ _ _ Hseen E) as Hseen'.
  destruct (pass_conv _ _ _ _ E) as [C1 C2]. destruct c.
  - eexists. split; [done|]. simpl. destruct (C1 eq_refl) as [-> Heq].
    split_and!; try done; try lia. intros _. by apply equations_exact.
  - destruct (decide (j = S (length order))) as [->|Hne].
    { exfalso. enough (false = true) by done. apply C2. intros n Hn. apply exact_equations; [done| |done].
      eapply (complete_exact (length order)); [done|apply saturated_length|done| |].
      - intros m i v Hi Hl. eapply (seen_in _ _ Hseen); [done|]. eapply live_within_mono; [|done]. lia.
      - pose proof (seen_out _ _ Hseen) as Ho. by replace (S (length order) - 1)%nat
          with (length order) in Ho by lia. }
    destruct (IH (S j) lv' Hseen' ltac:(lia)) as (a & Ea & H1 & H2 & H3 & H4 & H5).
    exists a. rewrite Ea. split_and!; try done; try lia. intros. apply H5. lia.
Qed.

(** ** Walks that follow the edges

    When every successor comes later in the walk, a pass sees exactly one step further. *)
Definition forward (l : list Z) : Prop :=
  ∀ l1 n l2 t, l = l1 ++ n :: l2 → t ∈ succs n → t ∈ l2.

Definition exactly (k : nat) lv (n : Z) : Prop :=
  ∀ i v, lv !! n = Some i → v ∈ live_in i ↔ live_within k n v.

Lemma new_info_exactly k lv n v :
  tracked lv → n ∈ order → (∀ t, t ∈ succs n → exactly k lv t) →
  v ∈ live_in (new_info use succs lv n) ↔ live_within (S k) n v.
Proof.
  intros Ht Hn Hx. rewrite elem_of_new_in, elem_of_new_out, live_within_S. split.
  - intros [?|(Hne & t & i & Hts & Hi & Hv)]; [by left|right]. split; [done|].
    exists t. split; [done|]. by apply (Hx t Hts i v Hi).
  - intros [?|(Hne & t & Hts & Hl)]; [by left|right]. split; [done|].
    destruct (proj2 (Ht t)) as [i Hi]; [by eapply Hclosed|]. exists t, i.
    split; [done|]. split; [done|]. by apply (Hx t Hts i v Hi).
Qed.

Lemma forward_pass k todo lv conv lv' c :
  tracked lv → NoDup todo → (∀ n, n ∈ todo → n ∈ order) → forward todo →
  (∀ n, n ∈ todo → exactly k lv n) →
  liveness_pass use succs todo lv conv = Ret (lv', c) →
  (∀ n, n ∈ todo → exactly (S k) lv' n) ∧ (∀ n, n ∉ todo → lv' !! n = lv !! n).
Proof.
  revert lv conv. induction todo as [|n todo IH]; intros lv conv Ht Hnd Hin Hf Hx; cbn [liveness_pass].
  { intros [= <- <-]. split; [by intros n ?%elem_of_nil|done]. }
  apply NoDup_cons in Hnd as [Hnt Hnd].
  assert (n ∈ order) as Hn by (apply Hin; by left).
  assert (∀ v, v ∈ live_in (new_info use succs lv n) ↔ live_within (S k) n v) as Hni.
  { intros v. apply new_info_exactly; [done|done|]. intros t Hts. apply Hx.
    right. by apply (Hf [] n todo). }
  assert (∀ lv1 conv1, tracked lv1 → lv1 !! n = Some (new_info use succs lv n) →
    (∀ m, m ≠ n → lv1 !! m = lv !! m) → liveness_pass use succs todo lv1 conv1 = Ret (lv', c) →
    (∀ m, m ∈ n :: todo → exactly (S k) lv' m) ∧ (∀ m, m ∉ n :: todo → lv' !! m = lv !! m)) as Hrest.
  { intros lv1 conv1 Ht1 H1 H2 Hp.
    destruct (IH lv1 conv1 Ht1 Hnd) as [I1 I2]; [intros; apply Hin; by right| | |done|].
    - intros l1 m l2 t Hl. apply (Hf (n :: l1)). by rewrite Hl.
    - intros m Hm i v. rewrite H2 by (intros ->; done). apply Hx. by right.
    - split; [|intros m Hm; rewrite I2, H2; set_solver].
      intros m [->|Hm]%elem_of_cons; [|by apply I1]. intros i v. rewrite I2, H1 by done.
      intros [= <-]. apply Hni. }
  destruct (lv !! n) as [i|] eqn:Ei; [|done]. case_decide as Hi.
  - apply Hrest; [done| |done]. by rewrite Ei, Hi.
  - apply Hrest; [by apply tracked_insert|by rewrite lookup_insert_eq|].
    intros m Hm. by rewrite lookup_insert_ne.
Qed.

Lemma forward_loop budget j lv a :
  NoDup order → forward order → tracked lv → sound lv → (∀ n, n ∈ order → exactly j lv n) →
  liveness_loop use succs order budget lv j = Ret a →
  ∀ n i v, liveness a !! n = Some i → v ∈ live_in i ↔ live_within (j + budget) n v.
Proof.
  intros Hnd Hf. revert j lv. induction budget as [|budget IH]; intros j lv Ht Hs Hx; cbn [liveness_loop].
  { intros [= <-] n i v Hi. rewrite Nat.add_0_r. apply Hx; [|done]. apply Ht. eauto. }
  destruct (pass_total order lv true Ht (λ _ H, H)) as (lv' & c & E & Ht').
  rewrite E. cbn [mbind outcome_bind].
  destruct (forward_pass j order lv true lv' c Ht Hnd (λ _ H, H) Hf Hx E) as [Hx' _].
  destruct c.
  - intros [= <-] n i v Hi. simpl in Hi. destruct (pass_conv _ _ _ _ E) as [C1 _].
    destruct (C1 eq_refl) as [-> Heq]. assert (n ∈ order) as Hn by (apply Ht; eauto).
    pose proof (equations_exact lv Ht Hs Heq n i Hi) as [X1 _]. rewrite X1. split.
    + intros Hl%X1. apply (Hx n Hn i v Hi) in Hl. eapply live_within_mono; [|done]. lia.
    + intros (k & _ & Hk). by exists k.
  - replace (j + S budget)%nat with (S j + budget)%nat by lia. apply IH; [done| |done].
    by eapply pass_sound.
Qed.
End dataflow.
