(* ===== verification/LivenessCheck.v ===== *)
(** * Liveness and its checks against the graph

    The analysis of [Liveness] in terms of the edges of a reachable graph, from the loop
    theorems of [LivenessSound], and the checks for dead code, uses after a release,
    uninitialised reads and dead allocations. *)

From S2P Require Import Prelude Digraph ScgNode Scg ScgInv ScgMerge ScgPaths Liveness LivenessSound.
From stdpp Require Import gmap relations.
From stdpp Require Import options.

#[local] Open Scope Z_scope.

(** ** Specification *)

(** [n] consumes the value of [v]. *)
Definition uses (s : SCG) (n v : Z) : Prop :=
  ∃ e, e ∈ SCG_edges s ∧ edge_target e = n ∧ edge_source e = v ∧ is_data (edge_kind e) = true.

(** Execution or data may go from [n] to [t]. *)
Definition leads (s : SCG) (n t : Z) : Prop :=
  ∃ e, e ∈ SCG_edges s ∧ edge_source e = n ∧ edge_target e = t ∧ is_flow (edge_kind e) = true.

(** The value of [v] is used [k] steps after the entry of [n], on a way that does not run
    through its definition first. *)
Inductive needed_at (s : SCG) (v : Z) : nat → Z → Prop :=
  | needed_here n : uses s n v → needed_at s v 0 n
  | needed_later n t k : n ≠ v → leads s n t → needed_at s v k t → needed_at s v (S k) n.

Definition needed_in (s : SCG) (n v : Z) : Prop := ∃ k, needed_at s v k n.
Definition needed_out (s : SCG) (n v : Z) : Prop := ∃ t, leads s n t ∧ needed_in s t v.

Lemma elem_of_use_set s n v : v ∈ compute_use_set s n ↔ uses s n v.
Proof.
  unfold compute_use_set, uses. rewrite elem_of_list_to_set, (list_elem_of_fmap edge_source).
  setoid_rewrite list_elem_of_In at 1. setoid_rewrite List.filter_In.
  setoid_rewrite andb_true_iff. setoid_rewrite Z.eqb_eq. setoid_rewrite <-list_elem_of_In.
  naive_solver.
Qed.

Lemma has_relevant_edge_spec s a b : has_relevant_edge s a b = true ↔ leads s a b.
Proof.
  unfold has_relevant_edge, leads. rewrite existsb_exists.
  setoid_rewrite <-list_elem_of_In. setoid_rewrite andb_true_iff. setoid_rewrite andb_true_iff.
  setoid_rewrite Z.eqb_eq. naive_solver.
Qed.

Lemma elem_of_successor_scan s n all seen t :
  t ∈ successor_scan s n all seen ↔ t ∈ all ∧ t ∉ seen ∧ leads s n t.
Proof.
  revert seen. induction all as [|x all IH]; intros seen; cbn [successor_scan]; [set_solver|].
  case_decide; [rewrite IH; set_solver|]. rewrite <-has_relevant_edge_spec.
  destruct (has_relevant_edge s n x) eqn:E; rewrite ?elem_of_cons, IH, <-has_relevant_edge_spec.
  - destruct (decide (t = x)) as [->|]; set_solver.
  - destruct (decide (t = x)) as [->|]; [|set_solver]. rewrite E. naive_solver.
Qed.

Lemma leads_flows s a b : leads s a b → flows s a b.
Proof. intros (e & He & ? & ? & _). by exists e. Qed.

Lemma flows_ids s a b : scg_ok s → flows s a b → a ∈ SCG_ids s ∧ b ∈ SCG_ids s.
Proof.
  intros Hok (e & He & <- & <-). destruct (edge_ends_live s e Hok He) as [Hs Ht].
  unfold SCG_ids. rewrite !(list_elem_of_fmap node_id).
  apply node_index_Some in Hs, Ht; naive_solver.
Qed.

Lemma elem_of_successor_set s n t : scg_ok s → t ∈ compute_successor_set s n ↔ leads s n t.
Proof.
  intros Hok. unfold compute_successor_set. destruct (SCG_successors s n) as [all|] eqn:E.
  - rewrite elem_of_successor_scan, (successors_spec s Hok n all t E). split; [tauto|].
    intros Hl. split; [by apply leads_flows|]. split; [set_solver|done].
  - split; [by intros ?%elem_of_nil|]. intros Hl%leads_flows.
    apply (successors_None s Hok) in E. by destruct E; apply (flows_ids s n t).
Qed.

Section analysis.
  Context (s : SCG) (order : list Z) (Hok : scg_ok s) (Horder : order ≡ₚ SCG_ids s).
  #[local] Set Default Proof Using "All".

Notation use := (compute_use_set s).
Notation succs := (compute_successor_set s).

Lemma closed_order n t : n ∈ order → t ∈ succs n → t ∈ order.
Proof.
  rewrite !Horder. intros _ Ht%elem_of_successor_set; [|done].
  by apply leads_flows, flows_ids in Ht as [_ ?].
Qed.

Lemma live_at_needed v k n : live_at use succs v k n ↔ needed_at s v k n.
Proof.
  split; induction 1.
  - constructor. by apply elem_of_use_set.
  - econstructor; [done| |done]. by apply elem_of_successor_set.
  - constructor. by apply elem_of_use_set.
  - econstructor; [done| |done]. by apply elem_of_successor_set.
Qed.

Lemma live_entry_needed n v : live_entry use succs n v ↔ needed_in s n v.
Proof. unfold live_entry, needed_in. by setoid_rewrite live_at_needed. Qed.

Lemma live_exit_needed n v : live_exit use succs n v ↔ needed_out s n v.
Proof.
  unfold live_exit, needed_out. setoid_rewrite live_entry_needed.
  by setoid_rewrite (λ t, elem_of_successor_set s n t Hok).
Qed.

Definition initial_liveness : gmap Z LivenessInfo :=
  fold_left (λ m n, <[n := LivenessInfo_empty]> m) order ∅.

Lemma initial_lookup n i :
  initial_liveness !! n = Some i ↔ n ∈ order ∧ i = LivenessInfo_empty.
Proof.
  unfold initial_liveness. enough (∀ m : gmap Z LivenessInfo,
    fold_left (λ m n, <[n := LivenessInfo_empty]> m) order m !! n = Some i ↔
    (n ∈ order ∧ i = LivenessInfo_empty) ∨ (n ∉ order ∧ m !! n = Some i)) as ->.
  { rewrite lookup_empty. naive_solver. }
  clear Horder. induction order as [|x l IH]; intros m; cbn [fold_left].
  { rewrite elem_of_nil. naive_solver. }
  rewrite IH, lookup_insert, elem_of_cons. case_decide; [subst|].
  - destruct (decide (n ∈ l)); naive_solver.
  - naive_solver.
Qed.

Lemma initial_tracked : tracked order initial_liveness.
Proof.
  intros n. split; [by intros [i [? _]%initial_lookup]|]. intros Hn. eexists. by apply initial_lookup.
Qed.

Lemma initial_sound : sound use succs initial_liveness.
Proof. intros n i [_ ->]%initial_lookup. split; intros v Hv; simpl in Hv; set_solver. Qed.

Lemma initial_seen : seen use succs order 0 initial_liveness.
Proof.
  split; [apply initial_tracked|apply initial_sound| |].
  - intros n i v _ (j & ? & _). lia.
  - intros n i v t _ _ (j & ? & _). lia.
Qed.

Lemma compute_liveness_loop :
  compute_liveness_inner s order =
  if is_nil order then Ret (LivenessAnalysis_mk ∅ 0 true)
  else liveness_loop use succs order MAX_ITERATIONS initial_liveness 0.
Proof. done. Qed.

Lemma compute_liveness_spec :
  ∃ a, compute_liveness_inner s order = Ret a ∧
    tracked order (liveness a) ∧ sound use succs (liveness a) ∧
    (iterations a ≤ MAX_ITERATIONS)%nat ∧ (converged a = true → exact use succs (liveness a)) ∧
    (length order + 2 ≤ MAX_ITERATIONS → converged a = true ∧ iterations a ≤ length order + 2)%nat.
Proof.
  rewrite compute_liveness_loop. destruct (is_nil order) eqn:E.
  - assert (order = []) as Hnil by (clear -E; by destruct order).
    eexists. split; [done|]. simpl. split_and!; try done; try lia.
    intros n. rewrite lookup_empty, Hnil. split; [by intros []|by intros ?%elem_of_nil].
  - apply (loop_spec use succs order closed_order MAX_ITERATIONS 0); [apply initial_seen|lia].
Qed.

(** With a walk that follows the edges, the limit is the reach of the analysis. *)
Lemma compute_liveness_forward a n i v :
  forward succs order → compute_liveness_inner s order = Ret a → liveness a !! n = Some i →
  v ∈ live_in i ↔ ∃ k, (k < MAX_ITERATIONS)%nat ∧ needed_at s v k n.
Proof.
  intros Hf. rewrite compute_liveness_loop. destruct (is_nil order) eqn:E.
  { intros [= <-]. simpl. by rewrite lookup_empty. }
  assert (NoDup order) as Hnd by (rewrite Horder; by apply SCG_nodes_NoDup).
  assert (∀ m, m ∈ order → exactly use succs 0 initial_liveness m) as H0.
  { intros m _ j w [_ ->]%initial_lookup. simpl. split; [set_solver|]. intros (k & ? & _). lia. }
  intros Hl Hi. pose proof (forward_loop use succs order closed_order MAX_ITERATIONS 0 _ a Hnd Hf
    initial_tracked initial_sound H0 Hl n i v Hi) as ->.
  unfold live_within. by setoid_rewrite live_at_needed.
Qed.

Lemma is_live_in_spec a n v :
  tracked order (liveness a) → exact use succs (liveness a) → n ∈ order →
  (is_live_in a n v = true ↔ needed_in s n v) ∧ (is_live_out a n v = true ↔ needed_out s n v).
Proof.
  intros Ht Hx Hn. destruct (proj2 (Ht n) Hn) as [i Hi]. destruct (Hx n i Hi) as [X1 X2].
  unfold is_live_in, is_live_out, info_is_live_in, info_is_live_out. rewrite Hi, !bool_decide_eq_true.
  by rewrite X1, X2, live_entry_needed, live_exit_needed.
Qed.

End analysis.

(** ** Dead code *)

(** The value of [a] flows into [b]. *)
Definition feeds (s : SCG) (a b : Z) : Prop := uses s b a.

Definition essential (s : SCG) (n : Z) : Prop :=
  ∃ d, d ∈ SCG_nodes s ∧ node_id d = n ∧ is_pure_node (node_type d) = false.

Lemma elem_of_essential s n : n ∈ essential_nodes s ↔ essential s n.
Proof.
  unfold essential_nodes, essential. rewrite elem_of_list_to_set, (list_elem_of_fmap node_id).
  setoid_rewrite list_elem_of_In at 1. setoid_rewrite List.filter_In.
  setoid_rewrite negb_true_iff. setoid_rewrite <-list_elem_of_In. naive_solver.
Qed.

Definition closed_edge (N : gset Z) (e : EdgeData) : Prop :=
  is_data (edge_kind e) = true → edge_target e ∈ N → edge_source e ∈ N.

(** The sources still to be marked. *)
Definition pending (l : list EdgeData) (N : gset Z) : nat :=
  length (filter (λ e, edge_source e ∉ N) l).

Lemma pending_mono l N N' : N ⊆ N' → (pending l N' ≤ pending l N)%nat.
Proof.
  intros Hs. unfold pending. induction l as [|e l IH]; [done|].
  rewrite !filter_cons. repeat case_decide; simpl; try lia. set_solver.
Qed.

Lemma pending_lt l N N' e :
  N ⊆ N' → e ∈ l → edge_source e ∉ N → edge_source e ∈ N' → (pending l N' < pending l N)%nat.
Proof.
  intros Hs He H1 H2. unfold pending. induction l as [|x l IH]; [by apply elem_of_nil in He|].
  pose proof (pending_mono l N N' Hs) as Hm. unfold pending in Hm.
  rewrite !filter_cons. apply elem_of_cons in He as [<-|He].
  - rewrite decide_False by tauto. rewrite decide_True by done. simpl. lia.
  - specialize (IH He). repeat case_decide; simpl; try lia. set_solver.
Qed.

Lemma mark_edges_spec l N c N' c' (P : Z → Prop) :
  (∀ e, e ∈ l → is_data (edge_kind e) = true → P (edge_target e) → P (edge_source e)) →
  (∀ x, x ∈ N → P x) → fold_left mark_edge l (N, c) = (N', c') →
  N ⊆ N' ∧ (∀ x, x ∈ N' → P x) ∧
  (c' = false → N' = N ∧ c = false ∧ ∀ e, e ∈ l → closed_edge N e) ∧
  (c' = true → c = true ∨ ∃ e, e ∈ l ∧ edge_source e ∉ N ∧ edge_source e ∈ N').
Proof.
  revert N c. induction l as [|e l IH]; intros N c HP HN; cbn [fold_left].
  { intros [= <- <-]. split_and!; try done; [|by left]. intros ->.
    split_and!; try done. by intros e ?%elem_of_nil. }
  unfold mark_edge at 2.
  destruct (is_data (edge_kind e) && bool_decide (edge_target e ∈ N) &&
            bool_decide (edge_source e ∉ N)) eqn:E.
  - apply andb_true_iff in E as [[Hd Ht%bool_decide_eq_true]%andb_true_iff Hs%bool_decide_eq_true].
    intros Hf. destruct (IH ({[edge_source e]} ∪ N) true) with (3 := Hf) as (H1 & H2 & H3 & H4).
    + intros x Hx. apply HP. by right.
    + intros x [->%elem_of_singleton|Hx]%elem_of_union; [|by apply HN].
      apply HP; [by left|done|by apply HN].
    + split; [set_solver|]. split; [done|]. split; [intros Hc; by destruct (H3 Hc) as (_ & ? & _)|].
      intros _. right. exists e. split; [by left|]. split; [done|]. set_solver.
  - intros Hf. destruct (IH N c) with (3 := Hf) as (H1 & H2 & H3 & H4);
      [intros x Hx; apply HP; by right|done|].
    split; [done|]. split; [done|]. split.
    + intros Hc. destruct (H3 Hc) as (-> & -> & Hcl). split; [done|]. split; [done|].
      intros x [->|Hx]%elem_of_cons; [|by apply Hcl]. intros Hd Ht.
      rewrite Hd, (bool_decide_eq_true_2 _ Ht) in E. simpl in E.
      apply bool_decide_eq_false in E. by destruct (decide (edge_source e ∈ N)).
    + intros Hc. destruct (H4 Hc) as [?|(x & Hx & ?)]; [by left|right]. exists x. split; [by right|done].
Qed.

Lemma mark_needed_spec fuel s N0 N :
  (∀ x, x ∈ N → ∃ m, m ∈ N0 ∧ rtc (feeds s) x m) → N0 ⊆ N →
  (pending (SCG_edges s) N < fuel)%nat →
  ∃ N', mark_needed fuel s N = Some N' ∧ ∀ x, x ∈ N' ↔ ∃ m, m ∈ N0 ∧ rtc (feeds s) x m.
Proof.
  revert N. induction fuel as [|fuel IH]; intros N HN H0 Hp; [lia|]. cbn [mark_needed].
  destruct (fold_left mark_edge (SCG_edges s) (N, false)) as [N' c] eqn:E.
  destruct (mark_edges_spec (SCG_edges s) N false N' c (λ x, ∃ m, m ∈ N0 ∧ rtc (feeds s) x m))
    as (H1 & H2 & H3 & H4); [|exact HN|exact E|].
  - intros e He Hd (m & Hm & Hr). exists m. split; [done|]. eapply rtc_l; [|done]. by exists e.
  - destruct c.
    + destruct (H4 eq_refl) as [?|(e & He & Hs & Hs')]; [done|].
      apply IH; [exact H2|set_solver|].
      pose proof (pending_lt _ _ _ e H1 He Hs Hs'). lia.
    + destruct (H3 eq_refl) as (-> & _ & Hc). eexists. split; [done|]. intros x. split.
      * apply HN.
      * intros (m & Hm & Hr). induction Hr as [|x y m (e & He & <- & <- & Hd) _ IHr]; [by apply H0|].
        apply (Hc e He Hd). by apply IHr.
Qed.

Lemma find_dead_code_spec s :
  ∃ l, find_dead_code s = Some l ∧ key_sorted id l ∧
    ∀ n, n ∈ l ↔ (∃ d, d ∈ SCG_nodes s ∧ node_id d = n ∧ is_pure_node (node_type d) = true) ∧
                 ∀ m, essential s m → ¬ rtc (feeds s) n m.
Proof.
  destruct (mark_needed_spec (S (length (SCG_edges s))) s (essential_nodes s) (essential_nodes s))
    as (N & E & HN).
  - intros x Hx. exists x. split; [done|constructor].
  - done.
  - unfold pending. pose proof (length_filter (λ e, edge_source e ∉ essential_nodes s) (SCG_edges s)). lia.
  - unfold find_dead_code. rewrite E. cbn [mbind option_bind]. eexists. split; [done|].
    split; [apply sort_by_key_sorted|]. intros n.
    rewrite elem_of_sort_by_key, (list_elem_of_fmap node_id).
    setoid_rewrite list_elem_of_In at 1. setoid_rewrite List.filter_In.
    setoid_rewrite andb_true_iff. setoid_rewrite bool_decide_eq_true.
    setoid_rewrite <-list_elem_of_In. setoid_rewrite HN. setoid_rewrite elem_of_essential.
    split.
    + intros (d & -> & Hd & Hp & Hn). split; [by exists d|]. intros m Hm Hr. apply Hn. by exists m.
    + intros [(d & Hd & <- & Hp) Hn]. exists d. split_and!; try done. intros (m & Hm & Hr).
      by apply (Hn m).
Qed.

(** ** Uses after a release *)

Section release.
  Context (s : SCG) (lv : gmap Z LivenessInfo) (alloc : Z) (Hok : scg_ok s).
  #[local] Set Default Proof Using "All".

(** An edge into a node at whose entry the allocation is live. *)
Definition live_step_to (x y : Z) : Prop :=
  flows s x y ∧ ∃ i, lv !! y = Some i ∧ alloc ∈ live_in i.

Definition unvisited (res : gset Z) : nat := size (dom lv ∖ res).

Lemma unvisited_insert res y : y ∈ dom lv → y ∉ res → (unvisited ({[y]} ∪ res) < unvisited res)%nat.
Proof. intros Hy Hn. unfold unvisited. apply subset_size. set_solver. Qed.

Lemma unvisited_mono res res' : res ⊆ res' → (unvisited res' ≤ unvisited res)%nat.
Proof. intros Hs. unfold unvisited. apply subseteq_size. set_solver. Qed.

(** What a visit from [from] to the nodes in [todo] adds. *)
Record visited_from (from : Z) (todo : list Z) (res res' : gset Z) : Prop := {
  vf_grows : res ⊆ res';
  vf_reached : ∀ y, y ∈ res' → y ∈ res ∨ tc live_step_to from y;
  vf_todo : ∀ y, y ∈ todo → live_step_to from y → y ∈ res';
  vf_closed : ∀ x y, x ∈ res' → x ∉ res → live_step_to x y → y ∈ res';
}.

Definition visit_succ (fuel : nat) (acc : option (gset Z)) (succ : Z) : option (gset Z) :=
  res ← acc;
  match lv !! succ with
  | Some info =>
      if info_is_live_in info alloc && bool_decide (succ ∉ res)
      then collect_violating_uses fuel s lv alloc succ ({[succ]} ∪ res)
      else Some res
  | None => Some res
  end.

Lemma collect_unfold fuel current res :
  collect_violating_uses (S fuel) s lv alloc current res =
  fold_left (visit_succ fuel) (default [] (SCG_successors s current)) (Some res).
Proof. done. Qed.

Lemma elem_of_successors_default x y : y ∈ default [] (SCG_successors s x) ↔ flows s x y.
Proof.
  destruct (SCG_successors s x) as [l|] eqn:E; simpl.
  - by apply successors_spec.
  - split; [by intros ?%elem_of_nil|]. intros Hf. apply (successors_None s Hok) in E.
    destruct E. by apply (flows_ids s x y) in Hf as [? _].
Qed.

(** Visiting one successor, given that nested visits are right. *)
Lemma visit_succ_spec fuel from y res :
  (∀ res, (unvisited res < fuel)%nat → ∃ res',
     collect_violating_uses fuel s lv alloc y res = Some res' ∧
     visited_from y (default [] (SCG_successors s y)) res res') →
  flows s from y → (unvisited res < S fuel)%nat →
  ∃ res', visit_succ fuel (Some res) y = Some res' ∧ visited_from from [y] res res'.
Proof.
  intros Hrec Hf Hu. unfold visit_succ. cbn [mbind option_bind].
  assert (∀ R : gset Z, (live_step_to from y → y ∈ R) → R = res → visited_from from [y] res R) as Hskip.
  { intros R Hy ->. split; [done|by left| |done]. by intros z ->%list_elem_of_singleton. }
  destruct (lv !! y) as [i|] eqn:Ei.
  2:{ eexists. split; [done|]. apply Hskip; [|done]. intros (_ & j & Hj & _). congruence. }
  unfold info_is_live_in. case_bool_decide as Hl; simpl.
  2:{ eexists. split; [done|]. apply Hskip; [|done]. intros (_ & j & Hj & ?). congruence. }
  case_bool_decide as Hn.
  2:{ eexists. split; [done|]. apply Hskip; [|done]. intros _. by destruct (decide (y ∈ res)). }
  assert (y ∈ dom lv) as Hd by (apply elem_of_dom; eauto).
  pose proof (unvisited_insert res y Hd Hn) as Hlt.
  destruct (Hrec ({[y]} ∪ res) ltac:(lia)) as (res' & -> & [V1 V2 V3 V4]).
  assert (live_step_to from y) as Hstep by (split; [done|by exists i]).
  exists res'. split; [done|]. split.
  - set_solver.
  - intros z Hz. destruct (V2 z Hz) as [[->%elem_of_singleton|?]%elem_of_union|Ht]; [|by left|].
    + right. by constructor.
    + right. by eapply tc_l.
  - intros z ->%list_elem_of_singleton _. set_solver.
  - intros x z Hx Hnx Hxz. destruct (decide (x = y)) as [->|Hne].
    + apply V3; [|done]. apply elem_of_successors_default. by destruct Hxz.
    + apply (V4 x); [done|set_solver|done].
Qed.

Lemma visited_from_app from todo1 todo2 r1 r2 r3 :
  visited_from from todo1 r1 r2 → visited_from from todo2 r2 r3 →
  visited_from from (todo1 ++ todo2) r1 r3.
Proof.
  intros [A1 A2 A3 A4] [B1 B2 B3 B4]. split.
  - set_solver.
  - intros y Hy. destruct (B2 y Hy) as [Hy'|?]; [by apply A2|by right].
  - intros y [Hy|Hy]%elem_of_app Hs; [by apply B1, A3|by apply B3].
  - intros x y Hx Hn Hs. destruct (decide (x ∈ r2)) as [Hx2|Hx2].
    + by apply B1, (A4 x).
    + by apply (B4 x).
Qed.

Lemma visit_all_spec fuel from l res :
  (∀ y res, (unvisited res < fuel)%nat → ∃ res',
     collect_violating_uses fuel s lv alloc y res = Some res' ∧
     visited_from y (default [] (SCG_successors s y)) res res') →
  (∀ y, y ∈ l → flows s from y) → (unvisited res < S fuel)%nat →
  ∃ res', fold_left (visit_succ fuel) l (Some res) = Some res' ∧ visited_from from l res res'.
Proof.
  intros Hrec. revert res. induction l as [|y l IH]; intros res Hl Hu; cbn [fold_left].
  { eexists. split; [done|]. split; [done|by left|by intros y ?%elem_of_nil|done]. }
  destruct (visit_succ_spec fuel from y res) as (r1 & E1 & V1); [apply Hrec|apply Hl; by left|done|].
  rewrite E1. pose proof (unvisited_mono _ _ (vf_grows _ _ _ _ V1)) as Hm.
  destruct (IH r1) as (r2 & E2 & V2); [intros; apply Hl; by right|lia|].
  exists r2. split; [done|]. by apply (visited_from_app from [y] l res r1 r2).
Qed.

Lemma collect_spec fuel current res :
  (unvisited res < fuel)%nat → ∃ res', collect_violating_uses fuel s lv alloc current res = Some res' ∧
    visited_from current (default [] (SCG_successors s current)) res res'.
Proof.
  revert current res. induction fuel as [|fuel IH]; intros current res Hu; [lia|].
  rewrite collect_unfold. apply visit_all_spec; [by auto| |done].
  intros y. by rewrite elem_of_successors_default.
Qed.

(** From nothing, the visit collects exactly the nodes reached. *)
Lemma collect_reached fuel current :
  (size (dom lv) < fuel)%nat → ∃ res, collect_violating_uses fuel s lv alloc current ∅ = Some res ∧
    ∀ y, y ∈ res ↔ tc live_step_to current y.
Proof.
  intros Hf. destruct (collect_spec fuel current ∅) as (res & E & [V1 V2 V3 V4]).
  { unfold unvisited. by rewrite difference_empty_L. }
  exists res. split; [done|]. intros y. split.
  - intros Hy. destruct (V2 y Hy) as [?|?]; [set_solver|done].
  - intros Ht. assert (∀ x, (x = current ∨ x ∈ res) → tc live_step_to x y → y ∈ res) as Hgen.
    { clear Ht. intros x Hx Ht. induction Ht as [x y Hs|x y z Hs Ht IH].
      - destruct Hx as [->|Hx]; [|apply (V4 x); [done|set_solver|done]].
        apply V3; [|done]. apply elem_of_successors_default. by destruct Hs.
      - apply IH. right. destruct Hx as [->|Hx]; [|apply (V4 x); [done|set_solver|done]].
        apply V3; [|done]. apply elem_of_successors_default. by destruct Hs. }
    apply (Hgen current); [by left|done].
Qed.

End release.

(** Scans that keep the first coordinate of the entries with a property. *)
Lemma scan_skip {A B} (P : A → B → Prop) d l :
  (∀ b, ¬ P d b) → (∃ d' b, d' ∈ d :: l ∧ P d' b) ↔ ∃ d' b, d' ∈ l ∧ P d' b.
Proof.
  intros Hn. split.
  - intros (d' & b & [->|Hd]%elem_of_cons & Hp); [by destruct (Hn b)|eauto].
  - intros (d' & b & Hd & Hp). exists d', b. split; [by right|done].
Qed.

Lemma scan_take {A B} (P : A → B → Prop) d l (Q : Prop) :
  (Q ↔ ∃ b, P d b) → (∃ d' b, d' ∈ d :: l ∧ P d' b) ↔ Q ∨ ∃ d' b, d' ∈ l ∧ P d' b.
Proof.
  intros HQ. split.
  - intros (d' & b & [->|Hd]%elem_of_cons & Hp); [left; apply HQ; eauto|eauto].
  - intros [[b Hb]%HQ|(d' & b & Hd & Hp)]; [exists d, b; split; [by left|done]|].
    exists d', b. split; [by right|done].
Qed.

Section checks.
  Context (s : SCG) (Hok : scg_ok s).
  #[local] Set Default Proof Using "All".

Definition released (n : NodeData) (u : UseAfterFree) : Prop :=
  deallocates n = Some (uaf_allocation u) ∧ uaf_deallocation u = node_id n.

(** What a report says, for the state [lv]. *)
Definition reported (lv : gmap Z LivenessInfo) (u : UseAfterFree) : Prop :=
  (∃ i, lv !! uaf_deallocation u = Some i ∧ uaf_allocation u ∈ live_out i) ∧
  ∀ y, y ∈ violating_uses u ↔ tc (live_step_to s lv (uaf_allocation u)) (uaf_deallocation u) y.

Lemma check_release_spec lv n :
  (size (dom lv) ≤ length (SCG_nodes s))%nat →
  ∃ l, check_release s lv n = Some l ∧ ∀ u, u ∈ l ↔ released n u ∧ reported lv u.
Proof.
  intros Hsz. unfold check_release, released.
  destruct (deallocates n) as [a|]; [|exists []; split; [done|]; set_solver].
  destruct (lv !! node_id n) as [i|] eqn:Ei.
  2:{ exists []. split; [done|]. intros u. split; [by intros ?%elem_of_nil|].
      intros [[[= ->] Hd] [(j & Hj & _) _]]. rewrite Hd in Hj. congruence. }
  unfold info_is_live_out. case_bool_decide as Hl.
  - destruct (collect_reached s lv a Hok (S (length (SCG_nodes s))) (node_id n)) as (res & E & Hres); [lia|].
    rewrite E. cbn [mbind option_bind]. eexists. split; [done|]. intros u.
    rewrite list_elem_of_singleton. split.
    + intros ->. split; [done|]. split; [by exists i|done].
    + intros [[[= ->] Hd] [_ Hu]]. destruct u as [x y v]. simpl in *. subst y. f_equal.
      apply set_eq. intros z. by rewrite Hu, Hres.
  - exists []. split; [done|]. intros u. split; [by intros ?%elem_of_nil|].
    intros [[[= ->] Hd] [(j & Hj & Hin) _]]. rewrite Hd, Ei in Hj. congruence.
Qed.

Lemma release_scan_spec lv l :
  (size (dom lv) ≤ length (SCG_nodes s))%nat →
  ∃ r, release_scan s lv l = Some r ∧
    ∀ u, u ∈ r ↔ ∃ n, n ∈ l ∧ released n u ∧ reported lv u.
Proof.
  intros Hsz. induction l as [|n l (r & E & Hr)]; cbn [release_scan].
  { exists []. split; [done|]. set_solver. }
  destruct (check_release_spec lv n Hsz) as (v & Ev & Hv). rewrite Ev. cbn [mbind option_bind].
  rewrite E. eexists. split; [done|]. intros u. rewrite elem_of_app, Hv, Hr.
  setoid_rewrite elem_of_cons. naive_solver.
Qed.

Lemma find_use_after_free_spec order a :
  order ≡ₚ SCG_ids s → tracked order (liveness a) →
  exact (compute_use_set s) (compute_successor_set s) (liveness a) →
  ∃ r, find_use_after_free s (liveness a) = Some r ∧ key_sorted uaf_deallocation r ∧
    ∀ u, u ∈ r ↔
      (∃ n, n ∈ SCG_nodes s ∧ released n u) ∧ needed_out s (uaf_deallocation u) (uaf_allocation u) ∧
      ∀ y, y ∈ violating_uses u ↔
        tc (λ x y, flows s x y ∧ needed_in s y (uaf_allocation u)) (uaf_deallocation u) y.
Proof.
  intros Ho Ht Hx.
  assert (∀ x i v, liveness a !! x = Some i →
    (v ∈ live_in i ↔ needed_in s x v) ∧ (v ∈ live_out i ↔ needed_out s x v)) as Hlive.
  { intros x i v Hi. destruct (Hx x i Hi) as [X1 X2]. rewrite X1, X2.
    by rewrite (live_entry_needed s order Hok Ho), (live_exit_needed s order Hok Ho). }
  assert (size (dom (liveness a)) ≤ length (SCG_nodes s))%nat as Hsz.
  { transitivity (size (list_to_set order : gset Z)).
    - apply subseteq_size. intros n [i Hi]%elem_of_dom. apply elem_of_list_to_set, Ht. eauto.
    - etrans; [apply size_list_to_set_le|]. rewrite Ho. unfold SCG_ids. by rewrite length_map. }
  destruct (release_scan_spec (liveness a) (SCG_nodes s) Hsz) as (r & E & Hr).
  exists (sort_by_key uaf_deallocation r). unfold find_use_after_free. rewrite E.
  split; [done|]. split; [apply sort_by_key_sorted|]. intros u.
  rewrite elem_of_sort_by_key, Hr. unfold reported.
  assert (∀ x y, live_step_to s (liveness a) (uaf_allocation u) x y ↔
    flows s x y ∧ needed_in s y (uaf_allocation u)) as Hstep.
  { intros x y. unfold live_step_to. split.
    - intros (Hf & i & Hi & Hin). split; [done|]. by apply (Hlive y i).
    - intros [Hf Hn]. split; [done|]. destruct (proj2 (Ht y)) as [i Hi].
      { rewrite Ho. by apply (flows_ids s x y) in Hf as [_ ?]. }
      exists i. split; [done|]. by apply (Hlive y i). }
  assert (∀ x y, tc (live_step_to s (liveness a) (uaf_allocation u)) x y ↔
    tc (λ x y, flows s x y ∧ needed_in s y (uaf_allocation u)) x y) as Htc.
  { intros x y. split; (induction 1 as [x y Hs|x z y Hs _ IH]; [apply tc_once|eapply tc_l; [|done]]);
      by apply Hstep. }
  setoid_rewrite Htc. split.
  - intros (n & Hn & Hrel & (i & Hi & Hin) & Hu). split; [by exists n|]. split; [|done].
    by apply (Hlive _ i).
  - intros ((n & Hn & Hrel) & Hno & Hu). exists n. split; [done|]. split; [done|]. split; [|done].
    destruct (proj2 (Ht (uaf_deallocation u))) as [i Hi].
    { rewrite Ho. destruct Hrel as [_ ->]. unfold SCG_ids. apply (list_elem_of_fmap node_id). eauto. }
    exists i. split; [done|]. by apply (Hlive (uaf_deallocation u) i).
Qed.

(** ** Reads and allocations *)

Lemma node_in_ids d : d ∈ SCG_nodes s → node_id d ∈ SCG_ids s.
Proof. intros Hd. unfold SCG_ids. apply (list_elem_of_fmap node_id). eauto. Qed.

Lemma reaches_spec a b :
  a ∈ SCG_ids s → b ∈ SCG_ids s → ∃ r, reaches s a b = Ret r ∧ (r = true ↔ rtc (flows s) a b).
Proof.
  intros Ha Hb. destruct (find_path_spec s Hok a b Ha Hb) as (r & E & Hr).
  exists r. unfold reaches. by rewrite E.
Qed.

Lemma any_node_spec f l (P : NodeData → Prop) :
  (∀ n, n ∈ l → ∃ b, f n = Ret b ∧ (b = true ↔ P n)) →
  ∃ b, any_node f l = Ret b ∧ (b = true ↔ ∃ n, n ∈ l ∧ P n).
Proof.
  induction l as [|n l IH]; intros Hf; cbn [any_node].
  { exists false. split; [done|]. set_solver. }
  destruct (Hf n ltac:(by left)) as (b & Eb & Hb). rewrite Eb. cbn [mbind outcome_bind].
  destruct IH as (c & Ec & Hc); [intros; apply Hf; by right|]. setoid_rewrite elem_of_cons.
  destruct b; [exists true|exists c]; (split; [done|]); naive_solver.
Qed.

(** [other] is taken to initialise what [n] reads from [region]. *)
Definition initialises (n region : Z) (other : NodeData) : Prop :=
  node_id other ≠ n ∧
  match node_payload other with
  | PAllocation _ => True
  | PAccess a => access_region_id a = region ∧ writes (access_mode a) = true ∧
                 (rtc (flows s) (node_id other) n ∨ node_id other < n)
  | _ => False
  end.

Lemma defines_read_spec n region other :
  n ∈ SCG_ids s → other ∈ SCG_nodes s →
  ∃ b, defines_read s n region other = Ret b ∧ (b = true ↔ initialises n region other).
Proof.
  intros Hn Ho. unfold defines_read, initialises. apply node_in_ids in Ho.
  destruct (reaches_spec _ _ Ho Hn) as (r & E & Hr).
  destruct (Z.eqb_spec (node_id other) n); [exists false; split; [done|]; naive_solver|].
  destruct (node_payload other); try (exists false; split; [done|]; naive_solver).
  - rewrite E. exists true. cbn [mbind outcome_bind]. rewrite orb_true_r. split; [done|]. naive_solver.
  - destruct (Z.eqb_spec (access_region_id x) region), (writes (access_mode x)); simpl;
      try (exists false; split; [done|]; naive_solver).
    rewrite E. eexists. split; [done|]. rewrite orb_true_iff, Hr, Z.ltb_lt. naive_solver.
Qed.

Lemma uninitialized_scan_spec l :
  (∀ d, d ∈ l → d ∈ SCG_nodes s) →
  ∃ r, uninitialized_scan s l = Ret r ∧
    ∀ x, x ∈ r ↔ ∃ d a, d ∈ l ∧ node_id d = x ∧ node_payload d = PAccess a ∧
      reads (access_mode a) = true ∧
      ∀ o, o ∈ SCG_nodes s → ¬ initialises x (access_region_id a) o.
Proof.
  induction l as [|d l IH]; intros Hl; cbn [uninitialized_scan].
  { exists []. split; [done|]. set_solver. }
  destruct IH as (r & E & Hr); [intros; apply Hl; by right|]. rewrite E.
  destruct (node_payload d) eqn:Ep;
    try (exists r; split; [done|]; intros y; rewrite Hr; symmetry; apply scan_skip; intros b (_ & Hb & _); congruence).
  destruct (reads (access_mode x)) eqn:Em.
  2:{ exists r. split; [done|]. intros y. rewrite Hr. symmetry. apply scan_skip. intros a (_ & Ha & Hm & _).
      rewrite Ep in Ha. injection Ha as <-. congruence. }
  destruct (any_node_spec (defines_read s (node_id d) (access_region_id x)) (SCG_nodes s)
    (initialises (node_id d) (access_region_id x))) as (b & Eb & Hb).
  { intros o Ho. apply defines_read_spec; [apply node_in_ids, Hl; by left|done]. }
  rewrite Eb. cbn [mbind outcome_bind]. eexists. split; [done|]. intros y.
  rewrite (scan_take _ d l (b = false ∧ y = node_id d)).
  - rewrite <-Hr. destruct b; rewrite ?elem_of_cons; naive_solver.
  - split.
    + intros [-> ->]. exists x. split_and!; try done. intros o Ho Hi.
      enough (false = true) by done. apply Hb. eauto.
    + intros (a & <- & Ha & Hm & Hn). rewrite Ep in Ha. injection Ha as <-. split; [|done].
      destruct b; [|done]. destruct (proj1 Hb eq_refl) as (o & Ho & Hi). by destruct (Hn o Ho).
Qed.

Lemma find_uninitialized_reads_spec :
  ∃ r, find_uninitialized_reads s = Ret r ∧ key_sorted id r ∧
    ∀ x, x ∈ r ↔ ∃ d a, d ∈ SCG_nodes s ∧ node_id d = x ∧ node_payload d = PAccess a ∧
      reads (access_mode a) = true ∧
      ∀ o, o ∈ SCG_nodes s → ¬ initialises x (access_region_id a) o.
Proof.
  destruct (uninitialized_scan_spec (SCG_nodes s)) as (r & E & Hr); [done|].
  exists (sort_by_key id r). unfold find_uninitialized_reads. rewrite E. split; [done|].
  split; [apply sort_by_key_sorted|]. intros x. by rewrite elem_of_sort_by_key, Hr.
Qed.

(** The allocation's memory is read, or its value flows somewhere else than a release. *)
Definition consumed (a region : Z) : Prop :=
  (∃ o, o ∈ SCG_nodes s ∧ node_id o ≠ a ∧ reads_region region o = true ∧ rtc (flows s) a (node_id o)) ∨
  ∃ e, e ∈ SCG_edges s ∧ edge_source e = a ∧ edge_kind e = DataFlow ∧
    node_type <$> SCG_get_node s (edge_target e) ≠ Some TDeallocation.

Lemma has_dataflow_use_spec a :
  has_dataflow_use s a = true ↔ ∃ e, e ∈ SCG_edges s ∧ edge_source e = a ∧ edge_kind e = DataFlow ∧
    node_type <$> SCG_get_node s (edge_target e) ≠ Some TDeallocation.
Proof.
  unfold has_dataflow_use. rewrite existsb_exists. setoid_rewrite <-list_elem_of_In.
  setoid_rewrite andb_true_iff. setoid_rewrite andb_true_iff. setoid_rewrite Z.eqb_eq.
  setoid_rewrite negb_true_iff. setoid_rewrite bool_decide_eq_true. setoid_rewrite bool_decide_eq_false.
  naive_solver.
Qed.

Lemma reads_from_spec a region o :
  a ∈ SCG_ids s → o ∈ SCG_nodes s →
  ∃ b, reads_from s a region o = Ret b ∧
    (b = true ↔ node_id o ≠ a ∧ reads_region region o = true ∧ rtc (flows s) a (node_id o)).
Proof.
  intros Ha Ho. unfold reads_from. destruct (reaches_spec a (node_id o) Ha (node_in_ids _ Ho)) as (r & E & Hr).
  destruct (Z.eqb_spec (node_id o) a), (reads_region region o); simpl;
    try (exists false; split; [done|]; naive_solver). exists r. split; [done|]. naive_solver.
Qed.

Lemma dead_allocation_scan_spec l :
  (∀ d, d ∈ l → d ∈ SCG_nodes s) →
  ∃ r, dead_allocation_scan s l = Ret r ∧
    ∀ x, x ∈ r ↔ ∃ d a, d ∈ l ∧ node_id d = x ∧ node_payload d = PAllocation a ∧
      node_type d = TAllocation ∧ ¬ consumed x (allocation_region_id a).
Proof.
  induction l as [|d l IH]; intros Hl; cbn [dead_allocation_scan].
  { exists []. split; [done|]. set_solver. }
  destruct IH as (r & E & Hr); [intros; apply Hl; by right|]. rewrite E.
  destruct (node_payload d) eqn:Ep;
    try (exists r; split; [done|]; intros y; rewrite Hr; symmetry; apply scan_skip; intros b (_ & Hb & _); congruence).
  case_bool_decide as Et.
  2:{ exists r. split; [done|]. intros y. rewrite Hr. symmetry. apply scan_skip. naive_solver. }
  destruct (any_node_spec (reads_from s (node_id d) (allocation_region_id x)) (SCG_nodes s)
    (λ o, node_id o ≠ node_id d ∧ reads_region (allocation_region_id x) o = true ∧
          rtc (flows s) (node_id d) (node_id o))) as (b & Eb & Hb).
  { intros o Ho. apply reads_from_spec; [apply node_in_ids, Hl; by left|done]. }
  rewrite Eb. cbn [mbind outcome_bind]. eexists. split; [done|].
  assert (consumed (node_id d) (allocation_region_id x) ↔
    b || has_dataflow_use s (node_id d) = true) as Hc
    by (unfold consumed; by rewrite orb_true_iff, Hb, has_dataflow_use_spec).
  intros y. rewrite (scan_take _ d l (b || has_dataflow_use s (node_id d) = false ∧ y = node_id d)).
  - rewrite <-Hr. destruct (b || has_dataflow_use s (node_id d)); rewrite ?elem_of_cons; naive_solver.
  - split.
    + intros [Hf ->]. exists x. split_and!; try done. by rewrite Hc, Hf.
    + intros (a & <- & Ha & _ & Hn). rewrite Ep in Ha. injection Ha as <-. split; [|done].
      rewrite Hc in Hn. by apply not_true_is_false.
Qed.

Lemma find_dead_allocations_spec :
  ∃ r, find_dead_allocations s = Ret r ∧ key_sorted id r ∧
    ∀ x, x ∈ r ↔ ∃ d a, d ∈ SCG_nodes s ∧ node_id d = x ∧ node_payload d = PAllocation a ∧
      node_type d = TAllocation ∧ ¬ consumed x (allocation_region_id a).
Proof.
  destruct (dead_allocation_scan_spec (SCG_nodes s)) as (r & E & Hr); [done|].
  exists (sort_by_key id r). unfold find_dead_allocations. rewrite E. split; [done|].
  split; [apply sort_by_key_sorted|]. intros x. by rewrite elem_of_sort_by_key, Hr.
Qed.

End checks.

(** ** Examples *)

Definition reading (region : Z) : NodePayload := PAccess (AccessNode_mk Read region None None).

(** An allocation released by node [1]; node [2] comes next and node [3] uses the allocation. *)
Definition late_ops : list scg_op :=
  [OpAddNode TAllocation an_allocation here; OpAddNode TDeallocation (freeing 0) here;
   OpAddNode TComputation (other_op "x") here; OpAddNode TEffect (PEffect (EffectNode_mk "print" true)) here;
   OpAddEdge 0 1 Derivation; OpAddEdge 1 2 ControlFlow; OpAddEdge 2 3 ControlFlow; OpAddEdge 0 3 DataFlow].
Definition late_graph : SCG := the_graph (scg_run true SCG_new late_ops).

(** An allocation in region [0], and a read of region [7] that nothing leads to. *)
Definition stray_read : SCG :=
  the_graph (scg_run true SCG_new
    [OpAddNode TAllocation an_allocation here; OpAddNode TAccess (reading 7) here]).

Lemma late_reachable : scg_reachable true late_graph.
Proof. apply built_reachable; [by repeat constructor|reflexivity]. Qed.

Lemma late_walk : [0; 1; 2; 3] ≡ₚ SCG_ids late_graph.
Proof. assert (SCG_ids late_graph = [0; 1; 2; 3]) as -> by reflexivity. done. Qed.

Lemma late_node n : n ∈ [0; 1; 2; 3] → n ∈ SCG_ids late_graph.
Proof. by rewrite late_walk. Qed.

Lemma forward_cons (succs : Z → list Z) n l :
  (∀ t, t ∈ succs n → t ∈ l) → forward succs l → forward succs (n :: l).
Proof.
  intros Hn Hl [|x l1] m l2 t Heq Ht; simplify_eq/=; [by apply Hn|]. by eapply Hl.
Qed.

Lemma late_forward : forward (compute_successor_set late_graph) [0; 1; 2; 3].
Proof.
  assert (compute_successor_set late_graph 0 = [1; 3]) as E0 by (vm_compute; reflexivity).
  assert (compute_successor_set late_graph 1 = [2]) as E1 by (vm_compute; reflexivity).
  assert (compute_successor_set late_graph 2 = [3]) as E2 by (vm_compute; reflexivity).
  assert (compute_successor_set late_graph 3 = []) as E3 by (vm_compute; reflexivity).
  repeat (apply forward_cons; [rewrite ?E0, ?E1, ?E2, ?E3; clear; set_solver|]).
  by intros [|] ? ? ? ?.
Qed.

Lemma late_run :
  ∃ a, compute_liveness_inner late_graph [0; 1; 2; 3] = Ret a ∧ converged a = true.
Proof.
  destruct (compute_liveness_spec late_graph [0; 1; 2; 3] (scg_reachable_ok _ late_reachable) late_walk)
    as (a & E & _ & _ & _ & _ & Hc).
  exists a. split; [done|]. apply Hc. apply Nat.leb_le. vm_compute. reflexivity.
Qed.

(** Node [2] is on the way from the release to the use. *)
Lemma late_edge e : e ∈ SCG_edges late_graph ↔ e ∈
  [EdgeData_mk 0 0 1 Derivation None; EdgeData_mk 1 1 2 ControlFlow None;
   EdgeData_mk 2 2 3 ControlFlow None; EdgeData_mk 3 0 3 DataFlow None].
Proof.
  assert (SCG_edges late_graph = [EdgeData_mk 0 0 1 Derivation None; EdgeData_mk 1 1 2 ControlFlow None;
    EdgeData_mk 2 2 3 ControlFlow None; EdgeData_mk 3 0 3 DataFlow None]) as -> by (vm_compute; reflexivity).
  done.
Qed.

Lemma late_needed : needed_in late_graph 2 0 ∧ needed_out late_graph 1 0.
Proof.
  assert (needed_in late_graph 2 0) as H.
  { exists 1%nat. apply (needed_later _ _ 2 3); [done| |constructor].
    - eexists. split; [apply late_edge; do 2 right; by left|done].
    - eexists. split; [apply late_edge; do 3 right; by left|done]. }
  split; [done|]. exists 2. split; [|done]. eexists. split; [apply late_edge; right; by left|done].
Qed.

Lemma late_flows x y : flows late_graph x y ↔
  (x = 0 ∧ y = 1) ∨ (x = 1 ∧ y = 2) ∨ (x = 2 ∧ y = 3) ∨ (x = 0 ∧ y = 3).
Proof.
  unfold flows. setoid_rewrite late_edge. split.
  - intros (e & He & <- & <-).
    repeat (apply elem_of_cons in He as [->|He]; [simpl; tauto|]). by apply elem_of_nil in He.
  - intros [[-> ->]|[[-> ->]|[[-> ->]|[-> ->]]]];
      [exists (EdgeData_mk 0 0 1 Derivation None)|exists (EdgeData_mk 1 1 2 ControlFlow None)|
       exists (EdgeData_mk 2 2 3 ControlFlow None)|exists (EdgeData_mk 3 0 3 DataFlow None)];
      rewrite !elem_of_cons; tauto.
Qed.

Lemma late_unused : ¬ uses late_graph 2 0.
Proof.
  intros (e & He & Hte & Hse & _).
  pose proof (proj1 (late_flows 0 2) (ex_intro _ e (conj He (conj Hse Hte)))). lia.
Qed.

Lemma late_reach x y :
  tc (λ x y, flows late_graph x y ∧ needed_in late_graph y 0) x y → 1 ≤ x → y = 2 ∨ y = 3.
Proof.
  induction 1 as [x y [Hf%late_flows _]|x z y [Hf%late_flows _] _ IH]; intros Hx; [lia|].
  apply IH. lia.
Qed.

Lemma late_report (r : list UseAfterFree) :
  (∀ u, u ∈ r ↔
     (∃ n, n ∈ SCG_nodes late_graph ∧ released n u) ∧
     needed_out late_graph (uaf_deallocation u) (uaf_allocation u) ∧
     ∀ y, y ∈ violating_uses u ↔
       tc (λ x y, flows late_graph x y ∧ needed_in late_graph y (uaf_allocation u)) (uaf_deallocation u) y) →
  UseAfterFree_mk 0 1 {[2; 3]} ∈ r.
Proof.
  intros ->. destruct late_needed as [H2 H1]. split; [|split; [done|]].
  - exists (NodeData_mk 1 TDeallocation None here (freeing 0)). split; [|done].
    apply elem_of_nodes. exists 1%nat. vm_compute. reflexivity.
  - simpl. intros y.
    assert (tc (λ x y, flows late_graph x y ∧ needed_in late_graph y 0) 1 2) as T2.
    { apply tc_once. split; [apply late_flows; tauto|done]. }
    assert (needed_in late_graph 3 0) as H3.
    { exists O. constructor. eexists. split; [apply late_edge; do 3 right; by left|done]. }
    split.
    + rewrite elem_of_union, !elem_of_singleton. intros [-> | ->]; [done|].
      eapply tc_r; [exact T2|]. split; [apply late_flows; tauto|done].
    + intros Ht. apply late_reach in Ht; [|done]. clear -Ht. set_solver.
Qed.

(** ** Properties *)

(** C23. In whatever order the nodes are walked, the liveness analysis returns, after at most
    [MAX_ITERATIONS] passes; when there are at most [MAX_ITERATIONS - 2] nodes it converges,
    after at most two passes more than there are nodes; and converged or not, it never calls
    a value live that no later node needs. *)
Theorem liveness_terminates (s : SCG) (order : list Z) :
  scg_reachable true s → order ≡ₚ SCG_ids s →
  ∃ a, compute_liveness_inner s order = Ret a ∧ (iterations a ≤ MAX_ITERATIONS)%nat ∧
    (length order + 2 ≤ MAX_ITERATIONS → converged a = true ∧ iterations a ≤ length order + 2)%nat ∧
    ∀ n i v, liveness a !! n = Some i →
      (v ∈ live_in i → needed_in s n v) ∧ (v ∈ live_out i → needed_out s n v).
Proof.
  intros Hok%scg_reachable_ok Ho.
  destruct (compute_liveness_spec s order Hok Ho) as (a & E & Ht & Hs & Hi & _ & Hc).
  exists a. split_and!; [done|done|done|]. intros n i v Hn. destruct (Hs n i Hn) as [S1 S2].
  rewrite <-(live_entry_needed s order Hok Ho), <-(live_exit_needed s order Hok Ho). auto.
Qed.

Lemma liveness_terminates_witness :
  ∃ a, compute_liveness_inner late_graph [0; 1; 2; 3] = Ret a ∧ (iterations a ≤ MAX_ITERATIONS)%nat.
Proof.
  destruct (liveness_terminates late_graph [0; 1; 2; 3] late_reachable late_walk) as (a & E & Hi & _).
  exact (ex_intro _ a (conj E Hi)).
Defined.

(** C22. When it converges, the analysis is exact: a value is live at the entry of a node exactly
    when some way along control-flow, data-flow and derivation edges leads from the node to a
    use of the value without passing its definition, and live at the exit exactly when it is
    so at the entry of a successor. *)
Theorem liveness_correct (s : SCG) (order : list Z) (a : LivenessAnalysis) (n v : Z) :
  scg_reachable true s → order ≡ₚ SCG_ids s →
  compute_liveness_inner s order = Ret a → converged a = true → n ∈ SCG_ids s →
  (is_live_in a n v = true ↔ needed_in s n v) ∧ (is_live_out a n v = true ↔ needed_out s n v).
Proof.
  intros Hok%scg_reachable_ok Ho E Hc Hn.
  destruct (compute_liveness_spec s order Hok Ho) as (a' & E' & Ht & _ & _ & Hx & _).
  rewrite E in E'. injection E' as <-. apply (is_live_in_spec s order Hok Ho); auto.
  by rewrite Ho.
Qed.

Lemma liveness_correct_witness :
  ∃ a, compute_liveness_inner late_graph [0; 1; 2; 3] = Ret a ∧
    (is_live_in a 2 0 = true ↔ needed_in late_graph 2 0).
Proof.
  destruct late_run as (a & E & Hc). exists a. split; [exact E|].
  apply (liveness_correct late_graph [0; 1; 2; 3] a 2 0 late_reachable late_walk E Hc).
  apply late_node. apply list_elem_of_In. right. right. left. reflexivity.
Defined.

(** The limit on the number of passes is a limit on distance.  When every successor of a node
    comes later in the walk, the result says that a value is live at the entry of a node
    exactly when a use of it is fewer than [MAX_ITERATIONS] steps away; uses further away
    are missed, and [compute_liveness] does not tell. *)
Theorem liveness_horizon (s : SCG) (order : list Z) (a : LivenessAnalysis) (n v : Z) (i : LivenessInfo) :
  scg_reachable true s → order ≡ₚ SCG_ids s → forward (compute_successor_set s) order →
  compute_liveness_inner s order = Ret a → liveness a !! n = Some i →
  v ∈ live_in i ↔ ∃ k, (k < MAX_ITERATIONS)%nat ∧ needed_at s v k n.
Proof. intros Hok%scg_reachable_ok Ho. by apply compute_liveness_forward. Qed.

Lemma liveness_horizon_witness :
  ∃ a, compute_liveness_inner late_graph [0; 1; 2; 3] = Ret a ∧
    ∀ i, liveness a !! 1 = Some i →
      0 ∈ live_in i ↔ ∃ k, (k < MAX_ITERATIONS)%nat ∧ needed_at late_graph 0 k 1.
Proof.
  destruct late_run as (a & E & Hc). exists a. split; [exact E|]. intros i.
  exact (liveness_horizon late_graph [0; 1; 2; 3] a 1 0 i late_reachable late_walk late_forward E).
Defined.

(** C24. The checks built on a converged analysis, on any reachable graph: all end.
    [find_use_after_free] reports a release of an allocation exactly when a node after it
    needs the allocation, with the nodes reached from the release through entries where it is
    live; [find_dead_code] lists exactly the pure nodes whose value reaches no node with an
    effect; [find_dead_allocations] exactly the allocations that are neither read in their
    region further on nor flow anywhere but into a release. *)
Theorem liveness_checks_correct (s : SCG) (order : list Z) (a : LivenessAnalysis) :
  scg_reachable true s → order ≡ₚ SCG_ids s →
  compute_liveness_inner s order = Ret a → converged a = true →
  (∃ r, find_use_after_free s (liveness a) = Some r ∧ ∀ u, u ∈ r ↔
     (∃ n, n ∈ SCG_nodes s ∧ released n u) ∧ needed_out s (uaf_deallocation u) (uaf_allocation u) ∧
     ∀ y, y ∈ violating_uses u ↔
       tc (λ x y, flows s x y ∧ needed_in s y (uaf_allocation u)) (uaf_deallocation u) y) ∧
  (∃ r, find_dead_code s = Some r ∧ ∀ n, n ∈ r ↔
     (∃ d, d ∈ SCG_nodes s ∧ node_id d = n ∧ is_pure_node (node_type d) = true) ∧
     ∀ m, essential s m → ¬ rtc (feeds s) n m) ∧
  ∃ r, find_dead_allocations s = Ret r ∧ ∀ x, x ∈ r ↔
    ∃ d b, d ∈ SCG_nodes s ∧ node_id d = x ∧ node_payload d = PAllocation b ∧
      node_type d = TAllocation ∧ ¬ consumed s x (allocation_region_id b).
Proof.
  intros Hok%scg_reachable_ok Ho E Hc.
  destruct (compute_liveness_spec s order Hok Ho) as (a' & E' & Ht & _ & _ & Hx & _).
  rewrite E in E'. injection E' as <-. split; [|split].
  - destruct (find_use_after_free_spec s Hok order a Ho Ht (Hx Hc)) as (r & Er & _ & Hr). by exists r.
  - destruct (find_dead_code_spec s) as (r & Er & _ & Hr). by exists r.
  - destruct (find_dead_allocations_spec s Hok) as (r & Er & _ & Hr). by exists r.
Qed.

Lemma liveness_checks_correct_witness :
  ∃ a r, compute_liveness_inner late_graph [0; 1; 2; 3] = Ret a ∧
    find_use_after_free late_graph (liveness a) = Some r.
Proof.
  destruct late_run as (a & E & Hc).
  destruct (liveness_checks_correct late_graph [0; 1; 2; 3] a late_reachable late_walk E Hc)
    as ((r & Hr & _) & _).
  exists a, r. split; [exact E|exact Hr].
Defined.

(** C38. Two reports that say something else than their documentation.  The nodes reported to use
    a released allocation include nodes that do not use it: every node on the way to a use.
    A read counts as initialised as soon as the graph has an allocation in any region, so in
    such a graph no read is ever reported. *)
Theorem liveness_report_defects :
  (∃ a r u, compute_liveness_inner late_graph [0; 1; 2; 3] = Ret a ∧
     find_use_after_free late_graph (liveness a) = Some r ∧ u ∈ r ∧
     uaf_allocation u = 0 ∧ 2 ∈ violating_uses u ∧ ¬ uses late_graph 2 0) ∧
  (∀ s, scg_reachable true s →
     (∃ d b, d ∈ SCG_nodes s ∧ node_payload d = PAllocation b) →
     find_uninitialized_reads s = Ret []).
Proof.
  split.
  - destruct late_run as (a & E & Hc). pose proof (scg_reachable_ok _ late_reachable) as Hok.
    destruct (compute_liveness_spec late_graph _ Hok late_walk) as (a' & E' & Ht & _ & _ & Hx & _).
    rewrite E in E'. injection E' as <-.
    destruct (find_use_after_free_spec late_graph Hok _ a late_walk Ht (Hx Hc)) as (r & Er & _ & Hr).
    apply late_report in Hr. exists a, r, (UseAfterFree_mk 0 1 {[2; 3]}).
    split; [exact E|]. split; [exact Er|]. split; [exact Hr|]. split; [reflexivity|].
    split; [by apply elem_of_union_l, elem_of_singleton|].
    exact late_unused.
  - intros s Hok%scg_reachable_ok (d & b & Hd & Hb).
    destruct (find_uninitialized_reads_spec s Hok) as (r & E & _ & Hr). rewrite E. f_equal.
    destruct r as [|x r]; [done|exfalso].
    destruct (proj1 (Hr x) ltac:(by left)) as (n & a & Hn & Hx & Ha & _ & Hno).
    apply (Hno d Hd). unfold initialises. rewrite Hb. split; [|done].
    intros Heq.
    assert (SCG_get_node s x = Some d) as G1 by by apply get_node_Some.
    assert (SCG_get_node s x = Some n) as G2 by by apply get_node_Some. congruence.
Qed.
