(* ===== verification/LtTheory.v ===== *)
(** * Depth-first numbers, semidominators and immediate dominators

    The graph theory behind the algorithm of Lengauer and Tarjan, on nodes numbered in
    depth-first preorder from [1]: what semidominators are, how they follow from the edges
    and from larger nodes, and how immediate dominators follow from them.  Nothing here
    depends on the code; [Dominance] applies it to the computation graph. *)

From S2P Require Import Prelude.
From stdpp Require Import relations.
From stdpp Require Import options.

#[local] Open Scope nat_scope.

Section dfs_tree.
  Context (n : nat) (E : nat → nat → Prop) (p : nat → nat).

(** [a] is [b] or above it in the tree of parents. *)
Inductive anc (a : nat) : nat → Prop :=
  | anc_refl : anc a a
  | anc_up b : 2 ≤ b ≤ n → anc a (p b) → anc a b.

Lemma anc_trans a b c : anc a b → anc b c → anc a c.
Proof. intros Hab. induction 1 as [|c Hc _ IH]; [done|]. by apply anc_up. Qed.

(** A depth-first search: edges stay inside, parents are smaller and joined to their
    children, an edge to a larger node goes down the tree, and the nodes below a node are
    numbered without gaps. *)
Record dfs_numbered : Prop := {
  dn_edges : ∀ x y, E x y → 1 ≤ x ≤ n ∧ 1 ≤ y ≤ n;
  dn_parent : ∀ w, 2 ≤ w ≤ n → 1 ≤ p w < w ∧ E (p w) w;
  dn_forward : ∀ x y, E x y → x < y → anc x y;
  dn_interval : ∀ u x y, anc u x → u ≤ y ≤ x → anc u y;
}.
Context (H : dfs_numbered).
#[local] Set Default Proof Using "All".

Lemma anc_le a b : anc a b → a ≤ b.
Proof. induction 1 as [|b Hb _ IH]; [done|]. pose proof (dn_parent H b Hb). lia. Qed.

Lemma anc_total a b c : anc a c → anc b c → a ≤ b → anc a b.
Proof. intros Ha Hb Hab. eapply (dn_interval H); [exact Ha|]. apply anc_le in Hb. lia. Qed.

#[local] Instance anc_dec a b : Decision (anc a b).
Proof.
  revert a. induction b as [b IH] using lt_wf_rec. intros a.
  destruct (decide (a = b)) as [->|Hne]; [left; constructor|].
  destruct (decide (2 ≤ b ≤ n)) as [Hb|Hb].
  - pose proof (dn_parent H b Hb) as [? _]. destruct (IH (p b) ltac:(lia) a) as [Ha|Ha].
    + left. by apply anc_up.
    + right. intros Hc. by inversion Hc.
  - right. intros Hc. by inversion Hc.
Defined.

Lemma anc_root w : 1 ≤ w ≤ n → anc 1 w.
Proof.
  induction w as [w IH] using lt_wf_ind. intros Hw.
  destruct (decide (w = 1)) as [->|]; [constructor|].
  pose proof (dn_parent H w ltac:(lia)) as [? _]. apply anc_up; [lia|]. apply IH; lia.
Qed.

(** ** Walks *)

(** The nodes after the first satisfy [P]. *)
Definition walk (P : nat → Prop) : nat → nat → Prop := rtc (λ a b, E a b ∧ P b).

Definition avoids (d x y : nat) : Prop := x ≠ d ∧ walk (λ v, v ≠ d) x y.

(** Every way from the root to [w] runs through [d]. *)
Definition cuts (d w : nat) : Prop := ¬ avoids d 1 w.

Lemma walk_weaken (P Q : nat → Prop) x y : (∀ v, P v → Q v) → walk P x y → walk Q x y.
Proof. intros HPQ. apply rtc_subrel. naive_solver. Qed.

Lemma avoids_trans d x y z : avoids d x y → avoids d y z → avoids d x z.
Proof. intros [H1 H2] [H3 H4]. split; [done|]. unfold walk in *; by etrans. Qed.

Lemma avoids_end d x y : avoids d x y → y ≠ d.
Proof. intros [Hx Hw]. induction Hw as [|x z y [_ Hz] _ IH]; auto. Qed.

(** Tree paths. *)
Lemma tree_walk a b : anc a b → walk (λ v, anc v b ∧ a < v) a b.
Proof.
  induction 1 as [|b Hb Ha IH]; [constructor|]. pose proof (dn_parent H b Hb) as [? He].
  eapply rtc_r.
  - eapply walk_weaken; [|exact IH]. intros v [? ?]. split; [by apply anc_up|done].
  - split; [done|]. apply anc_le in Ha. split; [constructor|lia].
Qed.

Lemma tree_avoids d a b : anc a b → (anc d b → d < a) → avoids d a b.
Proof.
  intros Ha Hd. split.
  - intros ->. specialize (Hd Ha). lia.
  - eapply walk_weaken; [|exact (tree_walk a b Ha)]. intros v [Hv Hlt] ->. specialize (Hd Hv). lia.
Qed.

(** A walk that never goes below its start stays below it in the tree. *)
Lemma walk_anc m y : walk (λ v, m ≤ v) m y → anc m y.
Proof.
  revert y. apply (rtc_ind_r (anc m)); [constructor|]. intros y z Hw [He Hz] IH. destruct (decide (y < z)).
  - eapply anc_trans; [exact IH|]. by apply (dn_forward H).
  - eapply (dn_interval H); [exact IH|lia].
Qed.

(** ** Semidominators *)

(** A walk from [x] to [w] whose nodes before [w], [x] included, are larger than [w]. *)
Inductive high (w : nat) : nat → Prop :=
  | high_edge x : w < x → E x w → high w x
  | high_step x y : w < x → E x y → high w y → high w x.

(** A walk from [v] to [w] whose inner nodes are larger than [w]. *)
Definition semi_path (v w : nat) : Prop := E v w ∨ ∃ y, E v y ∧ high w y.

Definition is_semi (w s : nat) : Prop := semi_path s w ∧ ∀ v, semi_path v w → s ≤ v.

Lemma high_lt w x : high w x → w < x.
Proof. by destruct 1. Qed.

Lemma high_walk w x : high w x → walk (λ v, w ≤ v) x w.
Proof.
  induction 1 as [x Hx He|x y Hx He Hh IH].
  - apply rtc_once. split; [done|lia].
  - eapply rtc_l; [|exact IH]. split; [done|]. apply high_lt in Hh. lia.
Qed.

(** Starting the walk lower: a node below [y] with a high walk to [y] is above it. *)
Lemma high_anc y z x : z < y → E z x → x = y ∨ high y x → anc z y.
Proof.
  intros Hz He Hx. apply walk_anc. eapply rtc_l; [split; [exact He|]|].
  - destruct Hx as [->|Hx%high_lt]; lia.
  - destruct Hx as [->|Hx]; [constructor|]. eapply walk_weaken; [|by apply high_walk].
    simpl. intros. lia.
Qed.

Lemma high_cons y z x : y < z → E z x → x = y ∨ high y x → high y z.
Proof. intros Hz He [->|Hx]; [by constructor|]. exact (high_step y z x Hz He Hx). Qed.

Lemma semi_path_cons y z x : E z x → x = y ∨ high y x → semi_path z y.
Proof. intros He [->|Hx]; [by left|]. right. by exists x. Qed.

(** ** Semidominators from the edges and from larger nodes *)

Lemma high_climb w z : high w z → ∃ y v, E v w ∧ anc y v ∧ w < y ∧ (z = y ∨ high y z).
Proof.
  induction 1 as [z Hz He|z z' Hz He _ (y & v & Hv & Hyv & Hy & Hz')].
  { exists z, z. split; [done|]. split; [constructor|]. split; [done|by left]. }
  destruct (lt_eq_lt_dec z y) as [[Hlt| ->]|Hgt].
  - exists z, v. split; [done|]. split; [|split; [done|by left]].
    eapply anc_trans; [|exact Hyv]. eapply high_anc; [done|exact He|naive_solver].
  - exists y, v. split; [done|]. split; [done|]. split; [done|by left].
  - exists y, v. split; [done|]. split; [done|]. split; [done|]. right.
    eapply high_cons; [done|exact He|naive_solver].
Qed.

Lemma walk_high w x y : w < x → walk (λ v, w < v) x y → E y w → high w x.
Proof.
  intros Hx Hw He. induction Hw as [y|x z y [Hxz Hz] _ IH]; [by constructor|].
  eapply high_step; [done|exact Hxz|]. by apply IH.
Qed.

Lemma semi_path_range v w : semi_path v w → 1 ≤ v ≤ n.
Proof. intros [He|(y & He & _)]; by destruct (dn_edges H _ _ He). Qed.

(** The candidates for the semidominator of [w], given those of larger nodes: smaller
    predecessors, and semidominators of larger nodes above a predecessor. *)
Definition candidate (sem : nat → nat) (w c : nat) : Prop :=
  (E c w ∧ c < w) ∨ ∃ v u, E v w ∧ anc u v ∧ w < u ∧ c = sem u.

Lemma above_range u v w : anc u v → E v w → w < u → w < u ≤ n.
Proof. intros Hu He Hlt. apply anc_le in Hu. apply (dn_edges H) in He. lia. Qed.

Lemma candidate_semi_path sem w c :
  (∀ u, w < u ≤ n → is_semi u (sem u)) → candidate sem w c → semi_path c w.
Proof.
  intros Hsem [[He _]|(v & u & He & Hu & Hlt & ->)]; [by left|].
  pose proof (above_range u v w Hu He Hlt) as Hun.
  assert (high w u) as Hwu.
  { eapply walk_high; [done| |exact He]. eapply walk_weaken; [|by apply tree_walk].
    simpl. intros x [_ ?]. lia. }
  assert (∀ x, high u x → high w x) as Hlift.
  { induction 1 as [x Hx Hxu|x y Hx Hxy _ IH].
    - apply (high_step w x u); [lia|done|done].
    - apply (high_step w x y); [lia|done|done]. }
  destruct (Hsem u Hun) as [[Hs|(y & Hs & Hy)] _]; right; [by exists u|]. exists y. auto.
Qed.

Lemma semi_path_candidate sem w v :
  (∀ u, w < u ≤ n → is_semi u (sem u)) → 2 ≤ w ≤ n → semi_path v w →
  ∃ c, candidate sem w c ∧ c ≤ v.
Proof.
  intros Hsem Hw [He|(z & He & Hz)].
  - destruct (decide (v < w)); [exists v; split; [by left|done]|].
    destruct (dn_parent H w Hw) as [Hp Hpe]. exists (p w). split; [left; split; [done|lia]|lia].
  - destruct (high_climb w z Hz) as (y & u & Hu & Hyu & Hy & Hzy).
    exists (sem y). split; [right; by exists u, y|].
    apply (Hsem y (above_range y u w Hyu Hu Hy)). eapply semi_path_cons; [exact He|exact Hzy].
Qed.

(** The semidominator is the least candidate. *)
Lemma least_candidate sem w c :
  (∀ u, w < u ≤ n → is_semi u (sem u)) → 2 ≤ w ≤ n →
  candidate sem w c → (∀ c', candidate sem w c' → c ≤ c') → is_semi w c.
Proof.
  intros Hsem Hw Hc Hmin. split; [by eapply candidate_semi_path|]. intros v Hv.
  destruct (semi_path_candidate sem w v Hsem Hw Hv) as (c' & Hc' & ?). pose proof (Hmin c' Hc'). lia.
Qed.

Lemma is_semi_unique w s s' : is_semi w s → is_semi w s' → s = s'.
Proof. intros [H1 H2] [H3 H4]. specialize (H2 _ H3). specialize (H4 _ H1). lia. Qed.

Lemma least_exists (P : nat → Prop) `{!∀ x, Decision (P x)} x :
  P x → ∃ m, P m ∧ ∀ y, P y → m ≤ y.
Proof.
  induction x as [x IH] using lt_wf_ind. intros Hx.
  destruct (decide (Exists P (seq 0 x))) as [(y & Hy & HPy)%Exists_exists|Hno].
  - apply (IH y); [|done]. apply elem_of_seq in Hy. lia.
  - exists x. split; [done|]. intros y Hy. destruct (decide (x ≤ y)); [done|]. destruct Hno.
    apply Exists_exists. exists y. split; [apply elem_of_seq; lia|done].
Qed.

Lemma candidate_ext sem sem' w c :
  (∀ u, w < u → sem' u = sem u) → candidate sem' w c → candidate sem w c.
Proof.
  intros Heq [Hc|(v & u & ? & ? & ? & ->)]; [by left|right]. exists v, u.
  by rewrite Heq.
Qed.

Lemma sem_exists `{!RelDecision E} : ∃ sem, ∀ w, 2 ≤ w ≤ n → is_semi w (sem w).
Proof.
  assert (∀ k, ∃ sem, ∀ w, 2 ≤ w → n - k < w ≤ n → is_semi w (sem w)) as Hk.
  { induction k as [|k (sem & Hsem)]; [exists id; lia|].
    destruct (decide (2 ≤ n - k)) as [Hw|]; [|exists sem; intros; apply Hsem; lia].
    destruct (dn_parent H (n - k) ltac:(lia)) as [Hp Hpe].
    set (Q c := E c (n - k) ∧ c < n - k ∨
      Exists (λ v, E v (n - k) ∧ Exists (λ u, anc u v ∧ n - k < u ∧ c = sem u) (seq 1 n)) (seq 1 n)).
    assert (∀ c, Q c ↔ candidate sem (n - k) c) as HQ.
    { intros c. unfold Q, candidate. rewrite Exists_exists. setoid_rewrite Exists_exists.
      setoid_rewrite elem_of_seq. split; [naive_solver|].
      intros [?|(v & u & He & Hu & Hlt & ?)]; [by left|right].
      pose proof (above_range u v _ Hu He Hlt). destruct (dn_edges H _ _ He).
      exists v. split; [lia|]. split; [done|]. exists u. split; [lia|done]. }
    destruct (least_exists Q (p (n - k))) as (m & Hm & Hmin); [apply HQ; left; split; [done|lia]|].
    exists (λ w, if decide (w = n - k) then m else sem w). intros w Hw2 Hwn.
    case_decide as Hd; [subst w|apply Hsem; lia].
    apply (least_candidate sem); [intros; apply Hsem; lia|lia|by apply HQ|].
    intros c' Hc'. by apply Hmin, HQ. }
  destruct (Hk n) as (sem & Hsem). exists sem. intros w Hw. apply Hsem; lia.
Qed.

Context (sem : nat → nat) (Hsem : ∀ w, 2 ≤ w ≤ n → is_semi w (sem w)).

Lemma sem_lt w : 2 ≤ w ≤ n → sem w < w.
Proof.
  intros Hw. destruct (dn_parent H w Hw) as [? He].
  assert (sem w ≤ p w) by (apply (Hsem w Hw); by left). lia.
Qed.

Lemma sem_anc w : 2 ≤ w ≤ n → anc (sem w) w.
Proof.
  intros Hw. pose proof (sem_lt w Hw) as Hlt. destruct (Hsem w Hw) as [[He|(y & He & Hy)] _].
  - by apply (dn_forward H).
  - eapply high_anc; [done|exact He|by right].
Qed.

Lemma sem_range w : 2 ≤ w ≤ n → 1 ≤ sem w ≤ n.
Proof. intros Hw. eapply semi_path_range. apply (Hsem w Hw). Qed.

(** The walk of a semidominator avoids what is between. *)
Lemma semi_path_avoids d v w : v ≠ d → d < w → semi_path v w → avoids d v w.
Proof.
  intros Hv Hd Hs. split; [done|]. destruct Hs as [He|(y & He & Hy)].
  - apply rtc_once. split; [done|lia].
  - eapply rtc_l; [split; [exact He|]|].
    + apply high_lt in Hy. lia.
    + eapply walk_weaken; [|by apply high_walk]. simpl. intros. lia.
Qed.

(** ** Immediate dominators *)

Definition is_idom (d w : nat) : Prop :=
  d ≠ w ∧ cuts d w ∧ ∀ e, e ≠ w → cuts e w → cuts e d.

Lemma dom_anc e w : 1 ≤ w ≤ n → cuts e w → anc e w.
Proof.
  intros Hw Hd. destruct (decide (anc e w)) as [|Hn]; [done|]. destruct Hd.
  apply tree_avoids; [by apply anc_root|done].
Qed.

(** What dominates [w] strictly is above its semidominator, and dominates it. *)
Lemma dom_above_semi e w : 2 ≤ w ≤ n → e ≠ w → cuts e w → anc e (sem w) ∧ cuts e (sem w).
Proof.
  intros Hw Hne Hd. pose proof (sem_anc w Hw) as Hs. pose proof (sem_lt w Hw) as Hlt.
  assert (anc e w) as Hew by (apply dom_anc; [lia|done]).
  assert (e < w) as Helt by (apply anc_le in Hew; lia).
  assert (∀ x, avoids e 1 x → sem w = x → False) as Hno.
  { intros x Hx <-. apply Hd. eapply avoids_trans; [exact Hx|].
    apply semi_path_avoids; [by eapply avoids_end|done|apply (Hsem w Hw)]. }
  split.
  - destruct (decide (e ≤ sem w)) as [Hle|Hgt]; [by apply (anc_total e (sem w) w)|exfalso].
    apply (Hno (sem w)); [|done]. apply tree_avoids; [apply anc_root, sem_range; done|].
    intros He%anc_le. lia.
  - intros Ha. by apply (Hno (sem w)).
Qed.

(** A walk to [w] around [d] enters the tree path from [d] to [w] by a semidominator walk from
    below [d]. *)
Lemma walk_around d w z :
  anc d w → d ≠ w → z ≠ d → walk (λ v, v ≠ d) z w →
  (∃ x y, x < d ∧ semi_path x y ∧ anc d y ∧ anc y w ∧ y ≠ d) ∨
  (d < z ∧ ∃ y, anc d y ∧ anc y w ∧ y ≠ d ∧ (z = y ∨ high y z)).
Proof.
  intros Hdw Hdne Hz Hw. induction Hw as [w|z z' w [He Hz'] _ IH].
  { right. pose proof (anc_le _ _ Hdw). split; [lia|]. exists w. split_and!; try done; [constructor|by left]. }
  destruct (IH Hdw Hdne Hz') as [?|(Hlt & y & Hdy & Hyw & Hyd & Hy)]; [by left|].
  destruct (lt_eq_lt_dec z d) as [[Hzd|?]|Hzd]; [|done|].
  { left. exists z, y. split_and!; try done. by eapply semi_path_cons. }
  right. split; [done|]. destruct (lt_eq_lt_dec z y) as [[Hzy| ->]|Hzy].
  - exists z. split_and!; [|  |lia|by left].
    + eapply (dn_interval H); [exact Hdy|lia].
    + eapply anc_trans; [|exact Hyw]. eapply high_anc; [done|exact He|naive_solver].
  - exists y. split_and!; try done. by left.
  - exists y. split_and!; try done. right. eapply high_cons; [done|exact He|naive_solver].
Qed.

Lemma walk_around_root d w :
  anc d w → d ≠ w → avoids d 1 w →
  ∃ x y, x < d ∧ semi_path x y ∧ anc d y ∧ anc y w ∧ d < y.
Proof.
  intros Hdw Hne [H1 Hw].
  assert (1 ≤ d) as Hd.
  { destruct (decide (1 ≤ d)) as [|Hn]; [done|]. exfalso. clear -Hdw Hne Hn H.
    induction Hdw as [|b Hb Hd IH]; [done|]. apply IH. intros ->.
    pose proof (dn_parent H b Hb). lia. }
  destruct (walk_around d w 1 Hdw Hne H1 Hw) as [(x & y & Hx & Hs & Hdy & Hyw & Hy)|[? _]]; [|lia].
  exists x, y. split_and!; try done. apply anc_le in Hdy. lia.
Qed.

(** The two cases of the algorithm. *)
Lemma idom_is_semi w :
  2 ≤ w ≤ n → (∀ x, anc x w → sem w < x → sem w ≤ sem x) → is_idom (sem w) w.
Proof.
  intros Hw Hmin. pose proof (sem_lt w Hw) as Hlt. split; [lia|]. split.
  - intros Ha. destruct (walk_around_root (sem w) w (sem_anc w Hw) ltac:(lia) Ha)
      as (x & y & Hx & Hs & Hdy & Hyw & Hy).
    assert (2 ≤ y ≤ n) as Hyn by (pose proof (sem_range w Hw); apply anc_le in Hyw; lia).
    pose proof (Hmin y Hyw Hy). pose proof (proj2 (Hsem y Hyn) x Hs). lia.
  - intros e Hne Hd. by apply dom_above_semi.
Qed.

Lemma idom_of_min w u d :
  2 ≤ w ≤ n → anc u w → sem w < u → (∀ x, anc x w → sem w < x → sem u ≤ sem x) →
  is_idom d u → is_idom d w.
Proof.
  intros Hw Huw Hsu Hmin (Hdu & Hdom & Hall). pose proof (sem_lt w Hw) as Hlt.
  assert (2 ≤ u ≤ n) as Hu by (pose proof (sem_range w Hw); apply anc_le in Huw; lia).
  destruct (dom_above_semi d u Hu Hdu Hdom) as [Hds _]. pose proof (sem_lt u Hu) as Hult.
  assert (anc d w) as Hdw.
  { eapply anc_trans; [exact Hds|]. eapply anc_trans; [by apply sem_anc|done]. }
  assert (d < u) as Hdlt by (apply anc_le in Hds; lia).
  assert (d < w) as Hdltw by (apply anc_le in Huw; lia).
  split; [lia|]. split.
  - intros Ha. destruct (walk_around_root d w Hdw ltac:(lia) Ha) as (x & y & Hx & Hs & Hdy & Hyw & Hy).
    assert (1 ≤ d) as Hd1 by lia.
    assert (2 ≤ y ≤ n) as Hyn by (apply anc_le in Hyw; lia).
    pose proof (proj2 (Hsem y Hyn) x Hs) as Hsy. apply anc_le in Hds.
    assert (y ≤ sem w) as Hyle.
    { destruct (decide (y ≤ sem w)); [done|]. pose proof (Hmin y Hyw ltac:(lia)). lia. }
    apply Hdom. apply (avoids_trans d 1 x).
    { apply tree_avoids; [apply anc_root; by eapply semi_path_range|]. intros Hc%anc_le. lia. }
    apply (avoids_trans d x y); [apply semi_path_avoids; [lia|lia|done]|].
    apply tree_avoids; [|lia]. apply (anc_total y u w); [done|done|lia].
  - intros e Hne He. destruct (dom_above_semi e w Hw Hne He) as [Hes _]. apply anc_le in Hes.
    apply Hall; [lia|]. intros Ha. apply He. eapply avoids_trans; [exact Ha|].
    apply tree_avoids; [done|]. lia.
Qed.

End dfs_tree.
