(* ===== verification/Dominance.v ===== *)
(** * Dominators of the computation graph

    Models [src/src/scg/src/dominance.rs]: dominator and post-dominator trees by the algorithm
    of Lengauer and Tarjan, and the queries on them.  The two copies of the algorithm in the
    source differ in which neighbours they follow, so the steps take the neighbour functions
    as arguments.  The search runs on one unit of fuel per pushed edge, path compression on
    one per node, a walk up the tree on one per entry of its table.  [HashMap] walks take the
    order as an argument. *)

From S2P Require Import Prelude Digraph ScgNode Scg ScgPaths.
From stdpp Require Import gmap.
From stdpp Require Import options.

#[local] Open Scope Z_scope.

(** ** Dominator trees *)

Record DominatorTree : Type := DominatorTree_mk {
  dt_entry : Z;
  dt_idom : gmap Z Z;
  dt_depth : gmap Z Z;
  dt_nodes : gset Z;
}.

Definition idom (t : DominatorTree) (node : Z) : option Z := dt_idom t !! node.
Definition depth (t : DominatorTree) (node : Z) : option Z := dt_depth t !! node.
Definition dt_len (t : DominatorTree) : nat := size (dt_nodes t).
Definition dt_is_empty (t : DominatorTree) : bool := bool_decide (dt_nodes t = ∅).

(** [order] is the order in which the table of immediate dominators is walked. *)
Definition children (order : list (Z * Z)) (node : Z) : list Z :=
  omap (λ '(child, parent), if parent =? node then Some child else None) order.

Fixpoint walk_up (fuel : nat) (t : DominatorTree) (a current : Z) : outcome bool :=
  match fuel with
  | O => Panic
  | S fuel' =>
      match idom t current with
      | Some parent => if parent =? a then Ret true else walk_up fuel' t a parent
      | None => Ret false
      end
  end.

Definition chain_fuel (t : DominatorTree) : nat := S (size (dt_idom t)).

Definition dominates (t : DominatorTree) (a b : Z) : outcome bool :=
  if a =? b then Ret true
  else if negb (bool_decide (a ∈ dt_nodes t)) || negb (bool_decide (b ∈ dt_nodes t)) then Ret false
  else walk_up (chain_fuel t) t a b.

Definition strictly_dominates (t : DominatorTree) (a b : Z) : outcome bool :=
  if negb (a =? b) then dominates t a b else Ret false.

(** ** The state of the algorithm *)

Record LengauerTarjan : Type := LengauerTarjan_mk {
  lt_dfs_num : gmap Z Z;
  lt_vertex : list Z;
  lt_parent : gmap Z Z;
  lt_semi : gmap Z Z;
  lt_label : gmap Z Z;
  lt_ancestor : gmap Z (option Z);
  lt_bucket : gmap Z (list Z);
  lt_idom : gmap Z Z;
  lt_n : Z;
}.

Definition LengauerTarjan_new : LengauerTarjan :=
  LengauerTarjan_mk ∅ [0] ∅ ∅ ∅ ∅ ∅ ∅ 0.

Definition set_semi (lt : LengauerTarjan) (m : gmap Z Z) : LengauerTarjan :=
  LengauerTarjan_mk (lt_dfs_num lt) (lt_vertex lt) (lt_parent lt) m (lt_label lt)
    (lt_ancestor lt) (lt_bucket lt) (lt_idom lt) (lt_n lt).
Definition set_forest (lt : LengauerTarjan) (lab : gmap Z Z) (anc : gmap Z (option Z)) :
    LengauerTarjan :=
  LengauerTarjan_mk (lt_dfs_num lt) (lt_vertex lt) (lt_parent lt) (lt_semi lt) lab
    anc (lt_bucket lt) (lt_idom lt) (lt_n lt).
Definition set_bucket (lt : LengauerTarjan) (m : gmap Z (list Z)) : LengauerTarjan :=
  LengauerTarjan_mk (lt_dfs_num lt) (lt_vertex lt) (lt_parent lt) (lt_semi lt) (lt_label lt)
    (lt_ancestor lt) m (lt_idom lt) (lt_n lt).
Definition set_idom (lt : LengauerTarjan) (m : gmap Z Z) : LengauerTarjan :=
  LengauerTarjan_mk (lt_dfs_num lt) (lt_vertex lt) (lt_parent lt) (lt_semi lt) (lt_label lt)
    (lt_ancestor lt) (lt_bucket lt) m (lt_n lt).

(** Indexing a [HashMap], and a [Vec] by a [u32]: both panic on a missing entry. *)
Definition at_key {A} (m : gmap Z A) (k : Z) : outcome A :=
  match m !! k with Some a => Ret a | None => Panic end.
Definition vertex_at (lt : LengauerTarjan) (i : Z) : outcome Z :=
  match lt_vertex lt !! Z.to_nat i with Some v => Ret v | None => Panic end.

(** A [for] loop whose body may panic. *)
Fixpoint for_each {S A} (body : S → A → outcome S) (s : S) (l : list A) : outcome S :=
  match l with
  | [] => Ret s
  | a :: l' => s' ← body s a; for_each body s' l'
  end.

(** ** Step 1: the depth-first search *)

Section algorithm.
  Context (chk : bool) (succs preds : Z → option (list Z)).

(** Push the successors in reverse order, so that the first is on top. *)
Definition push_all (visited : gset Z) (node : Z) (stack : list (Z * option Z)) :
    list (Z * option Z) :=
  match succs node with
  | Some l =>
      fold_left (λ st succ, if decide (succ ∈ visited) then st else (succ, Some node) :: st)
        (rev l) stack
  | None => stack
  end.

Definition visit_node (lt : LengauerTarjan) (node : Z) (parent : option Z) : outcome LengauerTarjan :=
  num ← u32_add chk (lt_n lt) 1;
  Ret (LengauerTarjan_mk
    (<[node := num]> (lt_dfs_num lt))
    (lt_vertex lt ++ [node])
    (match parent with Some p => <[node := p]> (lt_parent lt) | None => lt_parent lt end)
    (<[node := num]> (lt_semi lt))
    (<[node := node]> (lt_label lt))
    (<[node := None]> (lt_ancestor lt))
    (lt_bucket lt) (lt_idom lt) num).

Fixpoint dfs_loop (fuel : nat) (lt : LengauerTarjan) (visited : gset Z)
    (stack : list (Z * option Z)) : outcome LengauerTarjan :=
  match fuel with
  | O => Panic
  | S fuel' =>
      match stack with
      | [] => Ret lt
      | (node, parent) :: rest =>
          if decide (node ∈ visited) then dfs_loop fuel' lt visited rest
          else
            let visited' := {[node]} ∪ visited in
            lt' ← visit_node lt node parent;
            dfs_loop fuel' lt' visited' (push_all visited' node rest)
      end
  end.

Definition dfs (fuel : nat) (lt : LengauerTarjan) (entry : Z) : outcome LengauerTarjan :=
  dfs_loop fuel lt ∅ [(entry, None)].

(** ** The forest of processed nodes *)

Fixpoint compress (fuel : nat) (lt : LengauerTarjan) (v : Z) : outcome LengauerTarjan :=
  match fuel with
  | O => Panic
  | S fuel' =>
      match mjoin (lt_ancestor lt !! v) with
      | None => Ret lt
      | Some ancestor_v =>
          let ancestor_of_ancestor := mjoin (lt_ancestor lt !! ancestor_v) in
          match ancestor_of_ancestor with
          | None => Ret lt
          | Some _ =>
              lt ← compress fuel' lt ancestor_v;
              label_ancestor ← at_key (lt_label lt) ancestor_v;
              label_v ← at_key (lt_label lt) v;
              semi_label_ancestor ← at_key (lt_semi lt) label_ancestor;
              semi_label_v ← at_key (lt_semi lt) label_v;
              let lab := if semi_label_ancestor <? semi_label_v
                         then <[v := label_ancestor]> (lt_label lt) else lt_label lt in
              Ret (set_forest lt lab (<[v := ancestor_of_ancestor]> (lt_ancestor lt)))
          end
      end
  end.

Definition eval (lt : LengauerTarjan) (v : Z) : outcome (LengauerTarjan * Z) :=
  match mjoin (lt_ancestor lt !! v) with
  | None => u ← at_key (lt_label lt) v; Ret (lt, u)
  | Some _ =>
      lt ← compress (length (lt_vertex lt)) lt v;
      u ← at_key (lt_label lt) v; Ret (lt, u)
  end.

Definition link (lt : LengauerTarjan) (v w : Z) : LengauerTarjan :=
  set_forest lt (lt_label lt) (<[v := Some w]> (lt_ancestor lt)).

(** ** Steps 2 and 3: semidominators and relative dominators, from the last node down *)

Definition semi_step (w : Z) (lt : LengauerTarjan) (v : Z) : outcome LengauerTarjan :=
  match lt_dfs_num lt !! v with
  | None => Ret lt
  | Some _ =>
      '(lt, u) ← eval lt v;
      semi_u ← at_key (lt_semi lt) u;
      semi_w ← at_key (lt_semi lt) w;
      Ret (if semi_u <? semi_w then set_semi lt (<[w := semi_u]> (lt_semi lt)) else lt)
  end.

Definition bucket_step (parent : Z) (lt : LengauerTarjan) (v : Z) : outcome LengauerTarjan :=
  '(lt, u) ← eval lt v;
  semi_u ← at_key (lt_semi lt) u;
  semi_v ← at_key (lt_semi lt) v;
  Ret (set_idom lt (<[v := if semi_u <? semi_v then u else parent]> (lt_idom lt))).

Definition bucket_of (lt : LengauerTarjan) (k : Z) : list Z := default [] (lt_bucket lt !! k).

Definition process (lt : LengauerTarjan) (i : Z) : outcome LengauerTarjan :=
  w ← vertex_at lt i;
  lt ← match preds w with Some l => for_each (semi_step w) lt l | None => Ret lt end;
  semi_w ← at_key (lt_semi lt) w;
  let lt := set_bucket lt (<[semi_w := bucket_of lt semi_w ++ [w]]> (lt_bucket lt)) in
  match lt_parent lt !! w with
  | None => Ret lt
  | Some parent =>
      let lt := link lt w parent in
      dfs_parent ← at_key (lt_dfs_num lt) parent;
      let bucket_items := bucket_of lt dfs_parent in
      for_each (bucket_step parent) (set_bucket lt (delete dfs_parent (lt_bucket lt))) bucket_items
  end.

(** ** Step 4: the final immediate dominators, from the first node up *)

Definition finalize (lt : LengauerTarjan) (i : Z) : outcome LengauerTarjan :=
  w ← vertex_at lt i;
  match lt_idom lt !! w with
  | None => Ret lt
  | Some idom_w =>
      semi_w ← at_key (lt_semi lt) w;
      Ret (if decide (lt_dfs_num lt !! idom_w = Some semi_w) then lt
           else match lt_idom lt !! idom_w with
                | Some final_idom => set_idom lt (<[w := final_idom]> (lt_idom lt))
                | None => lt
                end)
  end.

Definition depth_step (lt : LengauerTarjan) (depth : gmap Z Z) (i : Z) : outcome (gmap Z Z) :=
  w ← vertex_at lt i;
  match lt_idom lt !! w with
  | None => Ret depth
  | Some idom_w =>
      d ← u32_add chk (default 0 (depth !! idom_w)) 1;
      Ret (<[w := d]> depth)
  end.

Definition run (fuel : nat) (lt : LengauerTarjan) (entry : Z) : outcome DominatorTree :=
  lt ← dfs fuel lt entry;
  let numbers := seqZ 2 (lt_n lt - 1) in
  lt ← for_each process lt (rev numbers);
  lt ← for_each finalize lt numbers;
  nodes ← for_each (λ (nodes : gset Z) i, v ← vertex_at lt i; Ret ({[v]} ∪ nodes)) {[entry]}
            (seqZ 1 (lt_n lt));
  depth ← for_each (depth_step lt) {[entry := 0]} numbers;
  Ret (DominatorTree_mk entry (lt_idom lt) depth nodes).

End algorithm.

(** ** The two analyses *)

(** One unit for the start, one for each neighbour of each node, and one to stop. *)
Definition search_fuel (s : SCG) (next : Z → option (list Z)) : nat :=
  (2 + sum_list (map (λ id, length (default [] (next id))) (SCG_ids s)))%nat.

Definition DominatorTree_empty (entry : Z) : DominatorTree := DominatorTree_mk entry ∅ ∅ ∅.

Definition compute_dominators (chk : bool) (s : SCG) (entry : Z) : outcome DominatorTree :=
  match SCG_get_node s entry with
  | None => Ret (DominatorTree_empty entry)
  | Some _ =>
      run chk (SCG_successors s) (SCG_predecessors s) (search_fuel s (SCG_successors s))
        LengauerTarjan_new entry
  end.

(** [PostLengauerTarjan] is the same code with predecessors and successors exchanged. *)
Definition post_run (chk : bool) (s : SCG) (exit : Z) : outcome DominatorTree :=
  run chk (SCG_predecessors s) (SCG_successors s) (search_fuel s (SCG_predecessors s))
    LengauerTarjan_new exit.

Definition compute_post_dominators (chk : bool) (s : SCG) (exit : Z) : outcome DominatorTree :=
  match SCG_get_node s exit with
  | None => Ret (DominatorTree_empty exit)
  | Some _ => post_run chk s exit
  end.

(** ** Frontiers *)

Fixpoint frontier_walk (fuel : nat) (t : DominatorTree) (node current : Z)
    (df : gmap Z (gset Z)) : outcome (gmap Z (gset Z)) :=
  match fuel with
  | O => Panic
  | S fuel' =>
      if decide (idom t node = Some current) then Ret df
      else
        let df := <[current := {[node]} ∪ default ∅ (df !! current)]> df in
        match idom t current with
        | Some parent => frontier_walk fuel' t node parent df
        | None => Ret df
        end
  end.

Definition frontier_runner (t : DominatorTree) (node : Z) (df : gmap Z (gset Z)) (runner : Z) :
    outcome (gmap Z (gset Z)) :=
  if decide (runner ∈ dt_nodes t) then frontier_walk (chain_fuel t) t node runner df else Ret df.

Definition frontier_node (s : SCG) (t : DominatorTree) (df : gmap Z (gset Z)) (node : Z) :
    outcome (gmap Z (gset Z)) :=
  match SCG_predecessors s node with
  | Some p => if decide (2 ≤ length p)%nat then for_each (frontier_runner t node) df p else Ret df
  | None => Ret df
  end.

(** [order] is the order in which the nodes of the tree are walked. *)
Definition find_dominance_frontier (s : SCG) (t : DominatorTree) (order : list Z) :
    outcome (gmap Z (gset Z)) :=
  for_each (frontier_node s t) ∅ order.

(** ** The nearest common dominator *)

Fixpoint climb (n : nat) (t : DominatorTree) (a : Z) : option Z :=
  match n with O => Some a | S n' => p ← idom t a; climb n' t p end.

Fixpoint climb_together (fuel : nat) (t : DominatorTree) (a b : Z) : outcome (option Z) :=
  match fuel with
  | O => Panic
  | S fuel' =>
      if a =? b then Ret (Some a)
      else match idom t a with
           | None => Ret None
           | Some a' => match idom t b with
                        | None => Ret None
                        | Some b' => climb_together fuel' t a' b'
                        end
           end
  end.

Definition nearest_common_dominator (t : DominatorTree) (a b : Z) : outcome (option Z) :=
  if negb (bool_decide (a ∈ dt_nodes t)) || negb (bool_decide (b ∈ dt_nodes t)) then Ret None
  else if a =? b then Ret (Some a)
  else match depth t a, depth t b with
       | Some da, Some db =>
           match climb (Z.to_nat (da - db)) t a, climb (Z.to_nat (db - da)) t b with
           | Some a', Some b' => climb_together (chain_fuel t) t a' b'
           | _, _ => Ret None
           end
       | _, _ => Ret None
       end.

(** ** Walks over the tree *)

Fixpoint postorder_loop (fuel : nat) (order : list (Z * Z)) (stack : list (Z * bool))
    (result : list Z) : outcome (list Z) :=
  match fuel with
  | O => Panic
  | S fuel' =>
      match stack with
      | [] => Ret result
      | (node, true) :: rest => postorder_loop fuel' order rest (result ++ [node])
      | (node, false) :: rest =>
          postorder_loop fuel' order
            (fold_left (λ st child, (child, false) :: st) (children order node) ((node, true) :: rest))
            result
      end
  end.

Definition dom_tree_postorder (order : list (Z * Z)) (t : DominatorTree) : outcome (list Z) :=
  postorder_loop (2 * S (S (length order))) order [(dt_entry t, false)] [].

Fixpoint subtree_loop (fuel : nat) (order : list (Z * Z)) (stack : list Z) (result : gset Z) :
    outcome (gset Z) :=
  match fuel with
  | O => Panic
  | S fuel' =>
      match stack with
      | [] => Ret result
      | n :: rest =>
          if decide (n ∈ result) then subtree_loop fuel' order rest result
          else subtree_loop fuel' order
                 (fold_left (λ st child, child :: st) (children order n) rest) ({[n]} ∪ result)
      end
  end.

Definition dominated_by (order : list (Z * Z)) (t : DominatorTree) (node : Z) : outcome (gset Z) :=
  if negb (bool_decide (node ∈ dt_nodes t)) then Ret ∅
  else subtree_loop (S (S (length order))) order [node] ∅.

(** The nodes from [current] up to the root, in this order. *)
Fixpoint chain (fuel : nat) (t : DominatorTree) (current : Z) : outcome (list Z) :=
  match fuel with
  | O => Panic
  | S fuel' =>
      match idom t current with
      | Some parent => l ← chain fuel' t parent; Ret (current :: l)
      | None => Ret [current]
      end
  end.

Definition dominators_of (t : DominatorTree) (node : Z) : outcome (gset Z) :=
  if negb (bool_decide (node ∈ dt_nodes t)) then Ret ∅
  else l ← chain (chain_fuel t) t node; Ret (list_to_set l).

Definition guaranteed_execution_path (t : DominatorTree) (target : Z) : outcome (list Z) :=
  if negb (bool_decide (target ∈ dt_nodes t)) then Ret []
  else l ← chain (chain_fuel t) t target; Ret (rev l).

Definition always_executes_after (post_dom_tree : DominatorTree) (start_node cleanup_node : Z) :
    outcome bool := dominates post_dom_tree cleanup_node start_node.

Definition write_precedes_read (t : DominatorTree) (write_node read_node : Z) : outcome bool :=
  strictly_dominates t write_node read_node.
