(* ===== verification/DomDfs.v ===== *)
(** * The depth-first search of the dominator analysis

    The search of [Dominance] numbers the nodes reachable from the entry, and its numbers and
    parents are a depth-first search in the sense of [LtTheory]: the parents on the stack, from
    the top down, are a chain of tree ancestors of the last node numbered, and an edge from a
    numbered node to one without a number is always on the stack. *)

From S2P Require Import Prelude LtTheory Dominance.
From stdpp Require Import gmap relations.
From stdpp Require Import options.

#[local] Open Scope nat_scope.

(** ** Numbers, nodes and parents of a state *)

(** The node with number [i]. *)
Definition at_number (lt : LengauerTarjan) (i : nat) (x : Z) : Prop :=
  1 ≤ i ∧ lt_vertex lt !! i = Some x.

Definition number (lt : LengauerTarjan) (x : Z) : nat :=
  Z.to_nat (default 0%Z (lt_dfs_num lt !! x)).

Definition parent_number (lt : LengauerTarjan) (i : nat) : nat :=
  number lt (default 0%Z (x ← lt_vertex lt !! i; lt_parent lt !! x)).

Notation nodes_of lt := (Z.to_nat (lt_n lt)) (only parsing).

(** [anc] only looks at the parents of the nodes up to its argument. *)
Lemma anc_agree n p n' p' a b :
  n ≤ n' → (∀ i, 2 ≤ i ≤ n → p' i = p i ∧ p i < i) → b ≤ n →
  anc n p a b ↔ anc n' p' a b.
Proof.
  intros Hn Hp Hb. split.
  - induction 1 as [|b Hb' _ IH]; [constructor|]. destruct (Hp b Hb') as [Heq ?].
    constructor; [lia|]. rewrite Heq. apply IH. lia.
  - induction 1 as [|b Hb' _ IH]; [constructor|]. destruct (Hp b ltac:(lia)) as [Heq ?].
    constructor; [lia|]. rewrite Heq in IH. apply IH. lia.
Qed.

Section search.
  Context (succs : Z → option (list Z)) (entry : Z).
  Context (ids : list Z).

Definition edge (a b : Z) : Prop := ∃ l, succs a = Some l ∧ b ∈ l.

Definition num_edge (lt : LengauerTarjan) (i j : nat) : Prop :=
  ∃ x y, at_number lt i x ∧ at_number lt j y ∧ edge x y.

(** The stack below a node numbered [top]: each entry was pushed by a tree ancestor of the
    entries above. *)
Fixpoint stack_ok (lt : LengauerTarjan) (top : nat) (stack : list (Z * option Z)) : Prop :=
  match stack with
  | [] => True
  | (y, q) :: rest =>
      ∃ x j, q = Some x ∧ at_number lt j x ∧ anc (nodes_of lt) (parent_number lt) j top ∧
        edge x y ∧ stack_ok lt j rest
  end.

Record dfs_inv (lt : LengauerTarjan) (visited : gset Z) (stack : list (Z * option Z)) : Prop := {
  di_n : (1 ≤ lt_n lt)%Z;
  di_len : length (lt_vertex lt) = S (nodes_of lt);
  di_num : ∀ x k, lt_dfs_num lt !! x = Some k ↔ ∃ i, k = Z.of_nat i ∧ at_number lt i x;
  di_visited : ∀ x, x ∈ visited ↔ is_Some (lt_dfs_num lt !! x);
  di_size : size visited = nodes_of lt;
  di_ids : ∀ x, x ∈ visited → x ∈ ids ∧ rtc edge entry x;
  di_entry : at_number lt 1 entry ∧ lt_parent lt !! entry = None;
  di_semi : lt_semi lt = lt_dfs_num lt;
  di_label : ∀ x, x ∈ visited → lt_label lt !! x = Some x ∧ lt_ancestor lt !! x = Some None;
  di_tables : lt_bucket lt = ∅ ∧ lt_idom lt = ∅;
  di_parent : ∀ i x, 2 ≤ i → at_number lt i x →
    ∃ q j, lt_parent lt !! x = Some q ∧ at_number lt j q ∧ j < i ∧ edge q x;
  di_forward : ∀ i j, num_edge lt i j → i < j → anc (nodes_of lt) (parent_number lt) i j;
  di_interval : ∀ u x y, anc (nodes_of lt) (parent_number lt) u x → u ≤ y ≤ x →
    anc (nodes_of lt) (parent_number lt) u y;
  di_stack : stack_ok lt (nodes_of lt) stack;
  di_pending : ∀ x y, x ∈ visited → edge x y → y ∉ visited → (y, Some x) ∈ stack;
}.

(** ** Pushing *)

Lemma push_all_eq visited node stack :
  push_all succs visited node stack =
  map (λ y, (y, Some node)) (filter (λ y, y ∉ visited) (default [] (succs node))) ++ stack.
Proof.
  unfold push_all. destruct (succs node) as [l|]; [simpl|done].
  rewrite <-fold_left_rev_right, rev_involutive.
  induction l as [|y l IH]; [done|]. cbn [fold_right]. rewrite IH.
  destruct (decide (y ∈ visited)).
  - rewrite filter_cons_False; [done|]. intros Hn. by apply Hn.
  - by rewrite filter_cons_True.
Qed.

Lemma at_number_fun lt i x y : at_number lt i x → at_number lt i y → x = y.
Proof. intros [_ ?] [_ ?]. congruence. Qed.

Section inv.
  Context (lt : LengauerTarjan) (visited : gset Z) (stack : list (Z * option Z)).
  Context (Hinv : dfs_inv lt visited stack).
  #[local] Set Default Proof Using "All".

Lemma di_number i x : at_number lt i x → number lt x = i.
Proof.
  intros Hi. unfold number.
  rewrite (proj2 (di_num _ _ _ Hinv x (Z.of_nat i))) by eauto. simpl. lia.
Qed.

Lemma di_inj i j x : at_number lt i x → at_number lt j x → i = j.
Proof. intros Hi%di_number Hj%di_number. congruence. Qed.

Lemma di_range i x : at_number lt i x → 1 ≤ i ≤ nodes_of lt.
Proof.
  intros [? Hi]. pose proof (lookup_lt_Some _ _ _ Hi). pose proof (di_len _ _ _ Hinv). lia.
Qed.

Lemma di_at i : 1 ≤ i ≤ nodes_of lt → ∃ x, at_number lt i x.
Proof.
  intros Hi. destruct (lookup_lt_is_Some_2 (lt_vertex lt) i) as [x Hx].
  - rewrite (di_len _ _ _ Hinv). lia.
  - exists x. split; [lia|done].
Qed.

Lemma di_at_visited x : x ∈ visited ↔ ∃ i, at_number lt i x.
Proof.
  rewrite (di_visited _ _ _ Hinv x). split.
  - intros [k Hk]. apply (di_num _ _ _ Hinv) in Hk as (i & _ & Hi). eauto.
  - intros [i Hi]. exists (Z.of_nat i). apply (di_num _ _ _ Hinv). eauto.
Qed.

Lemma di_parent_number i x q j :
  at_number lt i x → lt_parent lt !! x = Some q → at_number lt j q → parent_number lt i = j.
Proof.
  intros [_ Hi] Hq Hj. unfold parent_number. rewrite Hi. cbn [mbind option_bind].
  rewrite Hq. simpl. by apply di_number.
Qed.

Lemma di_parent_lt i : 2 ≤ i ≤ nodes_of lt →
  1 ≤ parent_number lt i < i ∧ num_edge lt (parent_number lt i) i.
Proof.
  intros Hi. destruct (di_at i) as [x Hx]; [lia|].
  destruct (di_parent _ _ _ Hinv i x) as (q & j & Hq & Hj & Hlt & He); [lia|done|].
  rewrite (di_parent_number i x q j Hx Hq Hj). split; [destruct Hj; lia|]. by exists q, x.
Qed.

End inv.

(** ** Visiting a node *)

Lemma at_number_snoc lt lt' node i x :
  lt_vertex lt' = lt_vertex lt ++ [node] → length (lt_vertex lt) = S (nodes_of lt) →
  at_number lt' i x ↔ at_number lt i x ∨ (i = S (nodes_of lt) ∧ x = node).
Proof.
  intros Hv Hl. unfold at_number. rewrite Hv. split.
  - intros [Hi Hx]. apply lookup_app_Some in Hx as [?|[Hge Hx]]; [by left|right].
    apply list_lookup_singleton_Some in Hx as [? ->]. split; [lia|done].
  - intros [[? Hx]|[-> ->]].
    + split; [done|]. by apply lookup_app_l_Some.
    + split; [lia|]. rewrite lookup_app_r by lia. by rewrite Hl, Nat.sub_diag.
Qed.
Lemma stack_ok_weaken lt a b stack :
  anc (nodes_of lt) (parent_number lt) a b → stack_ok lt a stack → stack_ok lt b stack.
Proof.
  intros Hab. destruct stack as [|[y q] rest]; [done|].
  intros (x & j & -> & Hj & Ha & He & Hr). exists x, j. split_and!; try done.
  exact (anc_trans _ _ _ _ _ Ha Hab).
Qed.

Lemma stack_ok_push lt visited top x stack :
  at_number lt top x → stack_ok lt top stack → stack_ok lt top (push_all succs visited x stack).
Proof.
  intros Hx Hs. rewrite push_all_eq.
  assert (∀ y, y ∈ filter (λ y, y ∉ visited) (default [] (succs x)) → edge x y) as Hl.
  { intros y [_ Hy]%list_elem_of_filter. unfold edge.
    destruct (succs x) as [l|]; [by exists l|by apply elem_of_nil in Hy]. }
  revert Hl. generalize (filter (λ y, y ∉ visited) (default [] (succs x))).
  intros l. induction l as [|y l IH]; intros Hl; [done|]. exists x, top.
  split_and!; [done|done|constructor|apply Hl; by left|]. apply IH. intros z Hz. apply Hl. by right.
Qed.

(** The state after visiting [node], when the counter does not overflow. *)
Definition visit_result (lt : LengauerTarjan) (node : Z) (parent : option Z) : LengauerTarjan :=
  let num := (lt_n lt + 1)%Z in
  LengauerTarjan_mk
    (<[node := num]> (lt_dfs_num lt))
    (lt_vertex lt ++ [node])
    (match parent with Some p => <[node := p]> (lt_parent lt) | None => lt_parent lt end)
    (<[node := num]> (lt_semi lt))
    (<[node := node]> (lt_label lt))
    (<[node := None]> (lt_ancestor lt))
    (lt_bucket lt) (lt_idom lt) num.

Section visit.
  Context (lt : LengauerTarjan) (visited : gset Z) (node q : Z) (rest : list (Z * option Z)).
  Context (Hinv : dfs_inv lt visited ((node, Some q) :: rest)) (Hnew : node ∉ visited).
  #[local] Set Default Proof Using "All".

#[local] Notation lt' := (visit_result lt node (Some q)).
#[local] Notation n := (nodes_of lt).

Lemma visit_n : nodes_of lt' = S n.
Proof. simpl. pose proof (di_n _ _ _ Hinv). lia. Qed.

Lemma visit_at i x : at_number lt' i x ↔ at_number lt i x ∨ (i = S n ∧ x = node).
Proof. by apply at_number_snoc; [|apply (di_len _ _ _ Hinv)]. Qed.

Lemma visit_new_not_old i : ¬ at_number lt i node.
Proof. intros Hi. apply Hnew. apply (di_at_visited _ _ _ Hinv). eauto. Qed.

Lemma visit_num x k : lt_dfs_num lt' !! x = Some k ↔ ∃ i, k = Z.of_nat i ∧ at_number lt' i x.
Proof.
  setoid_rewrite visit_at. simpl. rewrite lookup_insert_Some, (di_num _ _ _ Hinv).
  pose proof (di_n _ _ _ Hinv). split.
  - intros [[<- <-]|[? (i & ? & ?)]]; [exists (S n)|by eauto]. split; [lia|by right].
  - intros (i & -> & [Hi|[-> ->]]).
    + right. split; [|by eauto]. intros Heq. apply (visit_new_not_old i). by rewrite Heq.
    + left. split; [done|lia].
Qed.

Lemma visit_number i x : at_number lt' i x → number lt' x = i.
Proof.
  intros Hi. unfold number. rewrite (proj2 (visit_num x (Z.of_nat i))); [simpl; lia|].
  by exists i.
Qed.

Lemma visit_parent_at i x y j :
  at_number lt' i x → lt_parent lt' !! x = Some y → at_number lt' j y → parent_number lt' i = j.
Proof.
  intros [_ Hi] Hy Hj. unfold parent_number. rewrite Hi. cbn [mbind option_bind].
  rewrite Hy. by apply visit_number.
Qed.

Lemma visit_parent_old i : 2 ≤ i ≤ n → parent_number lt' i = parent_number lt i.
Proof.
  intros Hi. destruct (di_at _ _ _ Hinv i) as [x Hx]; [lia|].
  destruct (di_parent _ _ _ Hinv i x) as (y & j & Hy & Hj & _); [lia|done|].
  rewrite (di_parent_number _ _ _ Hinv i x y j Hx Hy Hj).
  apply (visit_parent_at i x y); [apply visit_at; by left| |apply visit_at; by left].
  simpl. rewrite lookup_insert_ne; [done|]. intros Heq. apply (visit_new_not_old i). by rewrite Heq.
Qed.

Lemma visit_top : ∃ j, at_number lt j q ∧ anc n (parent_number lt) j n ∧ edge q node ∧
  stack_ok lt j rest ∧ parent_number lt' (S n) = j ∧ j ≤ n.
Proof.
  destruct (di_stack _ _ _ Hinv) as (x & j & [= <-] & Hj & Ha & He & Hr). exists j.
  split_and!; try done.
  - apply (visit_parent_at _ node q); [apply visit_at; by right| |apply visit_at; by left].
    simpl. by rewrite lookup_insert_eq.
  - apply (di_range _ _ _ Hinv) in Hj; lia.
Qed.

Lemma visit_anc_old a b :
  b ≤ n → anc n (parent_number lt) a b ↔ anc (nodes_of lt') (parent_number lt') a b.
Proof.
  intros Hb. apply anc_agree; [rewrite visit_n; lia| |done].
  intros i Hi. split; [by apply visit_parent_old|]. by apply (di_parent_lt _ _ _ Hinv).
Qed.

Lemma visit_anc_new a j :
  parent_number lt' (S n) = j → j ≤ n →
  anc (nodes_of lt') (parent_number lt') a (S n) ↔ a = S n ∨ anc n (parent_number lt) a j.
Proof.
  intros Hp Hj. split.
  - inversion 1 as [|b Hb Ha]; subst; [by left|right]. by apply visit_anc_old.
  - intros [->|Ha]; [constructor|]. apply anc_up.
    + rewrite visit_n. destruct (di_entry _ _ _ Hinv) as [He _].
      apply (di_range _ _ _ Hinv) in He. lia.
    + rewrite Hp. by apply visit_anc_old.
Qed.

Lemma visit_stack j stack :
  j ≤ n → stack_ok lt j stack → stack_ok lt' j stack.
Proof.
  revert j. induction stack as [|[y r] stack IH]; [done|].
  intros j Hj (x & k & -> & Hk & Ha & He & Hr). exists x, k. split_and!; try done.
  - apply visit_at. by left.
  - by apply visit_anc_old.
  - apply IH; [|done]. apply (di_range _ _ _ Hinv) in Hk; lia.
Qed.

Lemma visit_stack_ok :
  stack_ok lt' (S n) (push_all succs ({[node]} ∪ visited) node rest).
Proof.
  destruct visit_top as (j & Hj & Ha & He & Hr & Hp & Hle).
  apply stack_ok_push; [apply visit_at; by right|].
  eapply stack_ok_weaken; [|by apply visit_stack]. apply (visit_anc_new _ j); [done..|].
  right. constructor.
Qed.

Lemma visit_edge i j : num_edge lt' i j →
  num_edge lt i j ∨ (i = S n ∧ j ≤ S n) ∨
  (j = S n ∧ ∃ x, at_number lt i x ∧ (node, Some x) ∈ (node, Some q) :: rest).
Proof.
  intros (x & y & Hx & Hy & He). apply visit_at in Hx as [Hx|[-> ->]].
  - apply visit_at in Hy as [Hy|[-> ->]]; [left; by exists x, y|right; right].
    split; [done|]. exists x. split; [done|]. apply (di_pending _ _ _ Hinv); [|done..].
    apply (di_at_visited _ _ _ Hinv). eauto.
  - right; left. split; [done|]. apply visit_at in Hy as [Hy|[-> _]]; [|done].
    apply (di_range _ _ _ Hinv) in Hy. lia.
Qed.

(** The parent of a lower entry is an ancestor of the top. *)
Lemma stack_ok_anc i x y top stack :
  stack_ok lt top stack → at_number lt i x → (y, Some x) ∈ stack → anc n (parent_number lt) i top.
Proof.
  revert top. induction stack as [|[z r] stack IH]; intros top Hs Hi Hin; [by apply elem_of_nil in Hin|].
  destruct Hs as (w & k & -> & Hk & Ha & _ & Hr). apply elem_of_cons in Hin as [[= -> ->]|Hin].
  - by rewrite (di_inj _ _ _ Hinv _ _ _ Hi Hk).
  - eapply anc_trans; [by apply (IH k)|done].
Qed.

Lemma visit_forward i j :
  num_edge lt' i j → i < j → anc (nodes_of lt') (parent_number lt') i j.
Proof.
  destruct visit_top as (k & Hk & Ha & _ & Hr & Hp & Hle).
  intros [He|[[-> ?]|(-> & x & Hx & Hin)]]%visit_edge Hlt; [|lia|].
  - apply visit_anc_old; [|by apply (di_forward _ _ _ Hinv)].
    destruct He as (? & y & _ & Hy & _). apply (di_range _ _ _ Hinv) in Hy; lia.
  - apply (visit_anc_new _ k); [done..|right]. apply elem_of_cons in Hin as [[= ->]|Hin].
    + rewrite (di_inj _ _ _ Hinv _ _ _ Hx Hk). constructor.
    + by apply (stack_ok_anc i x node k rest).
Qed.

Lemma visit_interval u x y :
  anc (nodes_of lt') (parent_number lt') u x → u ≤ y ≤ x →
  anc (nodes_of lt') (parent_number lt') u y.
Proof.
  destruct visit_top as (k & Hk & Ha & _ & Hr & Hp & Hle). intros Hux Hy.
  destruct (decide (x ≤ n)) as [Hx|Hx].
  { apply visit_anc_old; [lia|]. apply visit_anc_old in Hux; [|done].
    by apply (di_interval _ _ _ Hinv u x). }
  destruct (decide (x = S n)) as [->|Hx'].
  - apply (visit_anc_new u k Hp Hle) in Hux as [->|Hux].
    { assert (y = S n) as -> by lia. constructor. }
    destruct (decide (y = S n)) as [->|Hne].
    { apply (visit_anc_new u k); [done..|by right]. }
    apply visit_anc_old; [lia|]. apply (di_interval _ _ _ Hinv u (nodes_of lt)); [|lia].
    by eapply anc_trans; [|done].
  - inversion Hux as [|b Hb]; subst; [assert (y = x) as -> by lia; constructor|].
    rewrite visit_n in Hb. lia.
Qed.

Lemma visit_visited x : x ∈ {[node]} ∪ visited ↔ is_Some (lt_dfs_num lt' !! x).
Proof.
  simpl. rewrite elem_of_union, elem_of_singleton, lookup_insert_is_Some, (di_visited _ _ _ Hinv).
  destruct (decide (x = node)); naive_solver.
Qed.

Lemma visit_parent i x : 2 ≤ i → at_number lt' i x →
  ∃ r j, lt_parent lt' !! x = Some r ∧ at_number lt' j r ∧ j < i ∧ edge r x.
Proof.
  intros Hi [Hx|[-> ->]]%visit_at; simpl.
  - destruct (di_parent _ _ _ Hinv i x Hi Hx) as (r & j & Hr & Hj & Hlt & He). exists r, j.
    split_and!; [|apply visit_at; by left|done|done].
    rewrite lookup_insert_ne; [done|]. intros Heq. apply (visit_new_not_old i). by rewrite Heq.
  - destruct visit_top as (j & Hj & _ & He & _ & _ & Hle). exists q, j.
    split_and!; [by rewrite lookup_insert_eq|apply visit_at; by left|lia|done].
Qed.

Lemma visit_pending x y :
  x ∈ {[node]} ∪ visited → edge x y → y ∉ {[node]} ∪ visited →
  (y, Some x) ∈ push_all succs ({[node]} ∪ visited) node rest.
Proof.
  intros Hx He Hy. rewrite push_all_eq. apply elem_of_app.
  apply elem_of_union in Hx as [->%elem_of_singleton|Hx].
  - left. destruct He as (l & Hl & Hyl). rewrite Hl.
    apply (list_elem_of_fmap_2 (λ y, (y, Some node))). by apply list_elem_of_filter.
  - right. assert (y ≠ node ∧ y ∉ visited) as [Hne Hyv] by set_solver.
    pose proof (di_pending _ _ _ Hinv x y Hx He Hyv) as Hin.
    apply elem_of_cons in Hin as [[= ? _]|Hin]; [congruence|done].
Qed.

Lemma visit_inv :
  node ∈ ids →
  dfs_inv lt' ({[node]} ∪ visited) (push_all succs ({[node]} ∪ visited) node rest).
Proof.
  intros Hids. pose proof (di_n _ _ _ Hinv) as Hn. split.
  - simpl. lia.
  - rewrite visit_n. simpl. rewrite length_app, (di_len _ _ _ Hinv). simpl. lia.
  - exact visit_num.
  - exact visit_visited.
  - rewrite visit_n, size_union, size_singleton, (di_size _ _ _ Hinv); [done|set_solver].
  - destruct visit_top as (j & Hj & _ & He & _). intros x [->%elem_of_singleton|Hx]%elem_of_union.
    + split; [done|]. eapply rtc_r; [|exact He]. apply (di_ids _ _ _ Hinv).
      apply (di_at_visited _ _ _ Hinv). eauto.
    + by apply (di_ids _ _ _ Hinv).
  - destruct (di_entry _ _ _ Hinv) as [He Hp]. split; [apply visit_at; by left|]. simpl.
    rewrite lookup_insert_ne; [done|]. intros Heq. apply (visit_new_not_old 1). by rewrite Heq.
  - simpl. by rewrite (di_semi _ _ _ Hinv).
  - intros x Hx. simpl. destruct (decide (node = x)) as [Heq|Hne].
    { rewrite Heq. by rewrite !lookup_insert_eq. }
    rewrite !lookup_insert_ne by done. apply (di_label _ _ _ Hinv). set_solver.
  - apply (di_tables _ _ _ Hinv).
  - exact visit_parent.
  - exact visit_forward.
  - exact visit_interval.
  - rewrite visit_n. exact visit_stack_ok.
  - exact visit_pending.
Qed.
End visit.

(** ** The first node, and the loop *)

Lemma first_inv lt :
  entry ∈ ids → lt = visit_result LengauerTarjan_new entry None →
  dfs_inv lt {[entry]} (push_all succs {[entry]} entry []).
Proof.
  intros Hids ->.
  assert (∀ i x, at_number (visit_result LengauerTarjan_new entry None) i x ↔ i = 1 ∧ x = entry) as Hat.
  { intros i x. unfold at_number. simpl. destruct i as [|[|i]]; simpl; naive_solver lia. }
  assert (∀ i, ¬ 2 ≤ i ≤ 1) as Hno by lia.
  split; try setoid_rewrite Hat; simpl; try done.
  - intros x k. rewrite lookup_insert_Some, lookup_empty. naive_solver.
  - intros x. rewrite elem_of_singleton, lookup_insert_is_Some, lookup_empty.
    destruct (decide (x = entry)); naive_solver.
  - exact (size_singleton (C := gset Z) entry).
  - intros x ->%elem_of_singleton. by split.
  - intros x ->%elem_of_singleton. by rewrite !lookup_insert_eq.
  - lia.
  - intros i j (x & y & Hx & Hy & _) Hlt. apply Hat in Hx, Hy. lia.
  - intros u x y Hu Hy. inversion Hu as [|? Hx]; subst; [|simpl in Hx; by destruct (Hno _ Hx)].
    assert (y = x) as -> by lia. constructor.
  - apply stack_ok_push; [by apply Hat|done].
  - intros x y ->%elem_of_singleton (l & Hl & Hyl) Hy. rewrite push_all_eq, Hl. simpl.
    apply elem_of_app. left. apply (list_elem_of_fmap_2 (λ y, (y, Some entry))).
    by apply list_elem_of_filter.
Qed.

Lemma drop_inv lt visited y q rest :
  y ∈ visited → dfs_inv lt visited ((y, q) :: rest) → dfs_inv lt visited rest.
Proof.
  intros Hy [? ? ? ? ? ? ? ? ? ? ? ? ? Hs Hpend]. split; try done.
  - destruct Hs as (x & j & _ & _ & Ha & _ & Hr). by eapply stack_ok_weaken.
  - intros a b Ha He Hb. specialize (Hpend a b Ha He Hb).
    apply elem_of_cons in Hpend as [[= ->]|?]; done.
Qed.

(** What a finished search leaves. *)
Definition dfs_result (lt : LengauerTarjan) : Prop :=
  ∃ visited, dfs_inv lt visited [] ∧ ∀ x, x ∈ visited ↔ rtc edge entry x.

Definition degree (x : Z) : nat := length (default [] (succs x)).
Definition left_over (visited : gset Z) : nat :=
  sum_list (map degree (filter (λ x, x ∉ visited) ids)).

Lemma left_over_visit node visited :
  node ∈ ids → node ∉ visited → left_over ({[node]} ∪ visited) + degree node ≤ left_over visited.
Proof.
  unfold left_over. intros Hin Hnew.
  assert (∀ l, sum_list (map degree (filter (λ x, x ∉ {[node]} ∪ visited) l))
               ≤ sum_list (map degree (filter (λ x, x ∉ visited) l))) as Hmono.
  { induction l as [|x l IH]; [done|]. rewrite !filter_cons. repeat case_decide; simpl; [lia|set_solver|lia|lia]. }
  induction ids as [|x l IH]; [by apply elem_of_nil in Hin|]. rewrite !filter_cons.
  apply elem_of_cons in Hin as [<-|Hin].
  - rewrite (decide_False (P := node ∉ {[node]} ∪ visited)), decide_True by set_solver.
    simpl. specialize (Hmono l). lia.
  - specialize (IH Hin). repeat case_decide; simpl; [lia|set_solver|lia|lia].
Qed.

Lemma push_all_length visited node stack :
  length (push_all succs visited node stack) ≤ degree node + length stack.
Proof.
  rewrite push_all_eq, length_app, length_map. unfold degree.
  pose proof (length_filter (λ y, y ∉ visited) (default [] (succs node))). lia.
Qed.

Lemma visited_few (visited : gset Z) : (∀ x, x ∈ visited → x ∈ ids) → size visited ≤ length ids.
Proof.
  intros Hv. change (size visited) with (length (elements visited)).
  apply submseteq_length, NoDup_submseteq; [apply NoDup_elements|].
  intros x Hx%elem_of_elements. auto.
Qed.

(** A finished search is depth-first in the sense of [LtTheory]. *)
Lemma dfs_numbered_result lt visited :
  dfs_inv lt visited [] → dfs_numbered (nodes_of lt) (num_edge lt) (parent_number lt).
Proof.
  intros Hinv. split.
  - intros i j (x & y & Hx & Hy & _). by split; eapply di_range.
  - intros w Hw. by apply (di_parent_lt _ _ _ Hinv).
  - intros i j. apply (di_forward _ _ _ Hinv).
  - intros u x y. apply (di_interval _ _ _ Hinv).
Qed.

  Context (chk : bool) (Hids : ∀ x y, edge x y → y ∈ ids) (Hentry : entry ∈ ids).
  Context (Hfew : (Z.of_nat (length ids) ≤ U32_MAX)%Z).
#[local] Set Default Proof Using "All".

Lemma visit_node_ret lt node parent :
  (0 ≤ lt_n lt)%Z → (lt_n lt < Z.of_nat (length ids))%Z →
  visit_node chk lt node parent = Ret (visit_result lt node parent).
Proof.
  intros Hn Hlt. unfold visit_node, u32_add. rewrite u32_of_in; [done|].
  unfold is_u32, U32_MAX in *. lia.
Qed.

Lemma dfs_end lt visited : dfs_inv lt visited [] → dfs_result lt.
Proof.
  intros Hinv. exists visited. split; [done|]. intros x. split.
  - intros Hx. by apply (di_ids _ _ _ Hinv).
  - intros Hr. assert (∀ a, rtc edge a x → a ∈ visited → x ∈ visited) as Hcl.
    { intros a Ha. induction Ha as [|a b x Hab _ IH]; [done|]. intros Hav. apply IH; [done|].
      destruct (decide (b ∈ visited)) as [|Hb]; [done|].
      pose proof (di_pending _ _ _ Hinv a b Hav Hab Hb) as Hin. by apply elem_of_nil in Hin. }
    apply (Hcl entry); [done|]. apply (di_at_visited _ _ _ Hinv). exists 1.
    apply (di_entry _ _ _ Hinv).
Qed.

Lemma dfs_loop_spec fuel lt visited stack :
  dfs_inv lt visited stack → length stack + left_over visited < fuel →
  ∃ lt', dfs_loop chk succs fuel lt visited stack = Ret lt' ∧ dfs_result lt'.
Proof.
  revert lt visited stack. induction fuel as [|fuel IH]; intros lt visited stack Hinv Hf; [lia|].
  destruct stack as [|[node q] rest]; simpl.
  { exists lt. split; [done|]. by eapply dfs_end. }
  simpl in Hf. case_decide as Hv; [apply IH; [by eapply drop_inv|lia]|].
  destruct (di_stack _ _ _ Hinv) as (x & j & -> & Hj & _ & He & _).
  pose proof (Hids x node He) as Hin. pose proof (di_n _ _ _ Hinv) as Hn.
  assert (size ({[node]} ∪ visited) ≤ length ids) as Hsz.
  { apply visited_few. intros y [->%elem_of_singleton|Hy]%elem_of_union; [done|].
    by apply (di_ids _ _ _ Hinv). }
  rewrite size_union, size_singleton, (di_size _ _ _ Hinv) in Hsz by set_solver.
  rewrite visit_node_ret by lia. cbn [mbind outcome_bind]. apply IH; [by apply visit_inv|].
  pose proof (push_all_length ({[node]} ∪ visited) node rest).
  pose proof (left_over_visit node visited Hin Hv). lia.
Qed.

(** The search ends, and has numbered exactly the nodes reachable from the entry. *)
Lemma dfs_spec fuel :
  2 + sum_list (map degree ids) ≤ fuel →
  ∃ lt, dfs chk succs fuel LengauerTarjan_new entry = Ret lt ∧ dfs_result lt.
Proof.
  intros Hf. unfold dfs. destruct fuel as [|fuel]; [lia|]. cbn [dfs_loop].
  rewrite decide_False by set_solver.
  assert (0 < length ids) by (destruct ids; [by apply elem_of_nil in Hentry|simpl; lia]).
  rewrite visit_node_ret by (simpl; lia). cbn [mbind outcome_bind].
  assert (({[entry]} ∪ ∅ : gset Z) = {[entry]}) as -> by set_solver.
  apply dfs_loop_spec; [by apply first_inv|].
  pose proof (push_all_length {[entry]} entry []) as Hl.
  pose proof (left_over_visit entry ∅ Hentry ltac:(set_solver)) as Ho.
  assert (left_over ∅ ≤ sum_list (map degree ids)) as Ha.
  { unfold left_over. clear. induction ids as [|x l IH]; [done|].
    rewrite filter_cons. case_decide; simpl; lia. }
  rewrite (right_id_L ∅ (∪)) in Ho. simpl in Hl. lia.
Qed.

End search.
