(* ===== verification/DomLoop.v ===== *)
(** * The main loop of the dominator analysis

    The steps of [Dominance] after the search, against the theory of [LtTheory]: path
    compression keeps, for every processed node, the ancestor with the least semidominator;
    the loop down computes semidominators and the relative dominators; the loop up turns these
    into immediate dominators. *)

From S2P Require Import Prelude LtTheory Dominance DomDfs.
From stdpp Require Import gmap relations.
From stdpp Require Import options.

#[local] Open Scope nat_scope.

(** ** Loops over the numbers *)

Lemma for_each_app {St B} (body : St → B → outcome St) s l l' :
  for_each body s (l ++ l') = (s' ← for_each body s l; for_each body s' l').
Proof.
  revert s. induction l as [|a l IH]; intros s; [done|]. simpl.
  destruct (body s a); [apply IH|done].
Qed.

Lemma for_each_ind {St B} (body : St → B → outcome St) (P : list B → St → Prop) l s :
  P [] s →
  (∀ l1 a l2 s, l = l1 ++ a :: l2 → P l1 s → ∃ s', body s a = Ret s' ∧ P (l1 ++ [a]) s') →
  ∃ s', for_each body s l = Ret s' ∧ P l s'.
Proof.
  intros H0 Hstep.
  assert (∀ l2 l1 s, l = l1 ++ l2 → P l1 s → ∃ s', for_each body s l2 = Ret s' ∧ P l s') as Hgen.
  { induction l2 as [|a l2 IH]; intros l1 s1 Hl HP.
    - rewrite app_nil_r in Hl. subst l1. by exists s1.
    - destruct (Hstep l1 a l2 s1 Hl HP) as (s2 & Hb & HP2). simpl. rewrite Hb.
      apply (IH (l1 ++ [a])); [|done]. by rewrite <-app_assoc. }
  by apply (Hgen l []).
Qed.

Lemma seqZ_snoc (m : nat) : seqZ 2 (Z.of_nat (S m)) = seqZ 2 (Z.of_nat m) ++ [Z.of_nat (S (S m))].
Proof. rewrite seqZ_S. do 2 f_equal. lia. Qed.

Lemma for_each_down {St} (body : St → Z → outcome St) (P : nat → St → Prop) (n : nat) s :
  1 ≤ n → P (1 + n) s →
  (∀ i s, 2 ≤ i ≤ n → P (1 + i) s → ∃ s', body s (Z.of_nat i) = Ret s' ∧ P i s') →
  ∃ s', for_each body s (rev (seqZ 2 (Z.of_nat n - 1))) = Ret s' ∧ P 2 s'.
Proof.
  destruct n as [|m]; [lia|]. intros _. replace (Z.of_nat (S m) - 1)%Z with (Z.of_nat m) by lia.
  revert s. induction m as [|m IH]; intros s Hs Hstep; [by exists s|].
  rewrite seqZ_snoc, rev_app_distr. cbn [rev app for_each].
  destruct (Hstep (2 + m) s) as (s' & Hb & Hs'); [lia|done|]. simpl in Hb. rewrite Hb.
  apply IH; [done|]. intros i s1 Hi. apply Hstep. lia.
Qed.

Lemma for_each_up {St} (body : St → Z → outcome St) (P : nat → St → Prop) (n : nat) s :
  1 ≤ n → P 2 s →
  (∀ i s, 2 ≤ i ≤ n → P i s → ∃ s', body s (Z.of_nat i) = Ret s' ∧ P (1 + i) s') →
  ∃ s', for_each body s (seqZ 2 (Z.of_nat n - 1)) = Ret s' ∧ P (1 + n) s'.
Proof.
  destruct n as [|m]; [lia|]. intros _ Hs. replace (Z.of_nat (S m) - 1)%Z with (Z.of_nat m) by lia.
  induction m as [|m IH]; intros Hstep; [by exists s|].
  destruct IH as (s1 & H1 & HP1); [intros i s1 Hi; apply Hstep; lia|].
  rewrite seqZ_snoc, for_each_app, H1. cbn [mbind outcome_bind for_each].
  destruct (Hstep (2 + m) s1) as (s2 & Hb & HP2); [lia|done|]. simpl in Hb. rewrite Hb.
  by exists s2.
Qed.

Section loop.
  Context (succs preds : Z → option (list Z)) (entry : Z) (ids : list Z).
  Context (lt0 : LengauerTarjan) (visited : gset Z).
  Context (Hinv : dfs_inv succs entry ids lt0 visited []).
  Context (Hpreds : ∀ w, w ∈ visited →
    ∃ l, preds w = Some l ∧ ∀ v, v ∈ l ↔ edge succs v w).
  Context (sem : nat → nat).

#[local] Notation n := (nodes_of lt0).
#[local] Notation A := (at_number lt0).
#[local] Notation E := (num_edge succs lt0).
#[local] Notation p := (parent_number lt0).
#[local] Notation above := (anc (nodes_of lt0) (parent_number lt0)).

  Context (Hsem : ∀ w, 2 ≤ w ≤ n → is_semi E w (sem w)).
  #[local] Set Default Proof Using "All".

(** What the later steps never change. *)
Definition same_search (lt : LengauerTarjan) : Prop :=
  lt_dfs_num lt = lt_dfs_num lt0 ∧ lt_vertex lt = lt_vertex lt0 ∧
  lt_parent lt = lt_parent lt0 ∧ lt_n lt = lt_n lt0.

Lemma numbered : dfs_numbered n E p.
Proof. by eapply dfs_numbered_result. Qed.

Lemma A_inj i j x : A i x → A j x → i = j.
Proof. by eapply di_inj. Qed.

Lemma A_range i x : A i x → 1 ≤ i ≤ n.
Proof. by eapply di_range. Qed.

Lemma A_fun i x y : A i x → A i y → x = y.
Proof. apply at_number_fun. Qed.

Lemma A_above i k x : A k x → above i k → 1 ≤ i → ∃ y, A i y.
Proof.
  intros Hk%A_range Ha Hi. apply (anc_le _ _ _ numbered) in Ha.
  eapply di_at; [exact Hinv|lia].
Qed.

(** ** The forest of the nodes from [i] on *)

(** The entry of [x], number [k]: its link [a] and its label [l].  The ancestors above the link
    are all linked, and the label is the best of them. *)
Definition linked (i : nat) (lt : LengauerTarjan) (k : nat) (x : Z) : Prop :=
  ∃ a ax l lx, lt_ancestor lt !! x = Some (Some ax) ∧ A a ax ∧ a < k ∧ above a k ∧
    lt_label lt !! x = Some lx ∧ A l lx ∧ i ≤ l ∧ above l k ∧
    ∀ y, above y k → a < y → i ≤ y ∧ sem l ≤ sem y.

Record forest (i : nat) (lt : LengauerTarjan) : Prop := {
  fo_low : ∀ k x, A k x → k < i → lt_ancestor lt !! x = Some None ∧ lt_label lt !! x = Some x;
  fo_high : ∀ k x, A k x → i ≤ k → linked i lt k x;
  fo_semi : ∀ k x, A k x → i ≤ k → lt_semi lt !! x = Some (Z.of_nat (sem k));
}.

(** The label of [x] is the best of all its linked ancestors. *)
Definition best (i : nat) (k u : nat) : Prop :=
  above u k ∧ i ≤ u ∧ ∀ y, above y k → i ≤ y → sem u ≤ sem y.

Definition forest_only (lt lt' : LengauerTarjan) : Prop :=
  lt' = set_forest lt (lt_label lt') (lt_ancestor lt').

Lemma forest_only_trans lt1 lt2 lt3 :
  forest_only lt1 lt2 → forest_only lt2 lt3 → forest_only lt1 lt3.
Proof. unfold forest_only. intros H1 H2. rewrite H2, H1. done. Qed.

Lemma forest_only_same lt lt' : forest_only lt lt' → same_search lt → same_search lt'.
Proof. unfold forest_only. intros ->. done. Qed.

(** Entries of larger nodes are untouched. *)
Definition kept_above (k : nat) (lt lt' : LengauerTarjan) : Prop :=
  ∀ k' x, A k' x → k < k' →
    lt_label lt' !! x = lt_label lt !! x ∧ lt_ancestor lt' !! x = lt_ancestor lt !! x.

Lemma linked_ext i lt lt' k x :
  lt_label lt' !! x = lt_label lt !! x → lt_ancestor lt' !! x = lt_ancestor lt !! x →
  linked i lt k x → linked i lt' k x.
Proof. unfold linked. intros -> ->. done. Qed.

(** Rewriting the entry of [x] keeps the forest. *)
Lemma forest_update i lt k x lab anc' :
  forest i lt → A k x → i ≤ k → linked i (set_forest lt lab anc') k x →
  (∀ y, y ≠ x → lab !! y = lt_label lt !! y ∧ anc' !! y = lt_ancestor lt !! y) →
  forest i (set_forest lt lab anc').
Proof.
  intros [Hlow Hhigh Hs] Hk Hik Hx Hsame. split; [| |exact Hs].
  - intros k' y Hk' Hlt. simpl. destruct (Hsame y) as [-> ->]; [|by apply (Hlow k')].
    intros ->. pose proof (A_inj _ _ _ Hk Hk'). lia.
  - intros k' y Hk' Hge. destruct (decide (y = x)) as [->|Hne].
    + by rewrite (A_inj _ _ _ Hk' Hk).
    + destruct (Hsame y Hne). by apply (linked_ext i lt); [..|apply Hhigh].
Qed.

(** ** Path compression *)

Lemma fold_join {B} (m : gmap Z (option B)) k v : m !! k = Some v → mjoin (m !! k) = v.
Proof. by intros ->. Qed.

Lemma best_join i a k u l c :
  above a k → best i a u → above l k → i ≤ l → (∀ y, above y k → a < y → i ≤ y ∧ sem l ≤ sem y) →
  (c = u ∨ c = l) → sem c ≤ sem u ∧ sem c ≤ sem l → best i k c.
Proof.
  intros Ha (Hu & Hiu & Humin) Hl Hil Hmin Hc [Hcu Hcl]. split_and!.
  - destruct Hc as [->| ->]; [by eapply anc_trans|done].
  - destruct Hc as [->| ->]; done.
  - intros y Hy Hiy. destruct (decide (a < y)) as [Hay|].
    + destruct (Hmin y Hy Hay). lia.
    + assert (above y a) as Hya by (apply (anc_total _ _ _ numbered y a k); [done|done|lia]).
      specialize (Humin y Hya Hiy). lia.
Qed.

Lemma compress_spec i fuel lt k x :
  2 ≤ i → forest i lt → A k x → k < fuel →
  ∃ lt', compress fuel lt x = Ret lt' ∧ forest i lt' ∧ forest_only lt lt' ∧ kept_above k lt lt' ∧
    (i ≤ k → ∃ u ux, lt_label lt' !! x = Some ux ∧ A u ux ∧ best i k u).
Proof.
  intros Hi. revert lt k x. induction fuel as [|fuel IH]; intros lt k x Hf Hk Hlt; [lia|]. simpl.
  assert (forest_only lt lt) as Hrefl by (by destruct lt).
  destruct (decide (k < i)) as [Hki|Hki].
  { rewrite (fold_join _ _ _ (proj1 (fo_low _ _ Hf k x Hk Hki))). exists lt. split_and!; [done..|lia]. }
  destruct (fo_high _ _ Hf k x Hk ltac:(lia)) as (a & ax & l & lx & Hax & Ha & Hak & Hab & Hl & Hlx & Hil & Hlab & Hmin).
  rewrite (fold_join _ _ _ Hax). destruct (decide (a < i)) as [Hai|Hai].
  { rewrite (fold_join _ _ _ (proj1 (fo_low _ _ Hf a ax Ha Hai))). exists lt. split_and!; [done..|].
    intros _. exists l, lx. split_and!; [done..|]. split_and!; [done..|].
    intros y Hy Hge. apply Hmin; [done|lia]. }
  destruct (fo_high _ _ Hf a ax Ha ltac:(lia)) as (b & bx & ? & ? & Hbx & Hb & Hba & Hbb & _ & _ & _ & _ & Hminb).
  rewrite (fold_join _ _ _ Hbx).
  destruct (IH lt a ax Hf Ha ltac:(lia)) as (lt1 & -> & Hf1 & Ho1 & Hk1 & Hbest).
  destruct (Hbest ltac:(lia)) as (u & ux & Hu & Hux & Hua & Hiu & Humin).
  cbn [mbind outcome_bind]. unfold at_key. destruct (Hk1 k x Hk Hak) as [Hlk Hak1].
  rewrite Hu, Hlk, Hl. cbn [mbind outcome_bind].
  rewrite (fo_semi _ _ Hf1 u ux Hux Hiu), (fo_semi _ _ Hf1 l lx Hlx Hil). cbn [mbind outcome_bind].
  set (lab := if (Z.of_nat (sem u) <? Z.of_nat (sem l))%Z then _ else _).
  assert (∃ c cx, lab !! x = Some cx ∧ A c cx ∧ best i k c) as (c & cx & Hc & Hcx & Hck & Hic & Hcmin).
  { unfold lab. destruct (Z.ltb_spec (Z.of_nat (sem u)) (Z.of_nat (sem l))).
    - exists u, ux. rewrite lookup_insert_eq. split; [done|]. split; [done|].
      apply (best_join i a k u l u); try done; [by left|lia].
    - exists l, lx. rewrite Hlk. split; [done|]. split; [done|].
      apply (best_join i a k u l l); try done; [by right|lia]. }
  assert (∀ y, y ≠ x → lab !! y = lt_label lt1 !! y) as Hlab'.
  { intros y Hne. unfold lab. case_match; [|done]. by rewrite lookup_insert_ne. }
  eexists. split; [done|]. split.
  { apply (forest_update i lt1 k x); [done|done|lia| |].
    - exists b, bx, c, cx. simpl. rewrite lookup_insert_eq. split_and!; try done; [lia| |].
      + by eapply anc_trans.
      + intros y Hy Hby. assert (i ≤ y) as Hiy; [|split; [done|by apply Hcmin]].
        destruct (decide (a < y)); [by apply Hmin|]. apply Hminb; [|done].
        apply (anc_total _ _ _ numbered y a k); [done|done|lia].
    - intros y Hne. by rewrite lookup_insert_ne, Hlab'. }
  split; [by eapply forest_only_trans|]. split.
  - intros k' y Hk' Hkk. assert (y ≠ x) by (intros ->; pose proof (A_inj _ _ _ Hk Hk'); lia).
    simpl. rewrite lookup_insert_ne, Hlab' by done. apply (Hk1 k'); [done|lia].
  - intros _. exists c, cx. by split_and!.
Qed.

Lemma eval_spec i lt k x :
  2 ≤ i → same_search lt → forest i lt → A k x →
  ∃ lt' u ux, eval lt x = Ret (lt', ux) ∧ forest i lt' ∧ forest_only lt lt' ∧ A u ux ∧
    (k < i → u = k) ∧ (i ≤ k → best i k u).
Proof.
  intros Hi Hs Hf Hk. unfold eval, at_key. destruct (decide (k < i)) as [Hki|Hki].
  { destruct (fo_low _ _ Hf k x Hk Hki) as [Ha Hl]. rewrite (fold_join _ _ _ Ha), Hl.
    exists lt, k, x. split_and!; try done; [by destruct lt|lia]. }
  destruct (fo_high _ _ Hf k x Hk ltac:(lia)) as (a & ax & l & lx & Hax & _).
  rewrite (fold_join _ _ _ Hax).
  destruct (compress_spec i (length (lt_vertex lt)) lt k x Hi Hf Hk) as (lt1 & -> & Hf1 & Ho & _ & Hb).
  { pose proof (A_range _ _ Hk). destruct Hs as (_ & -> & _). rewrite (di_len _ _ _ _ _ _ Hinv). lia. }
  destruct Hb as (u & ux & Hu & Hux & Hbest); [lia|]. cbn [mbind outcome_bind]. rewrite Hu.
  exists lt1, u, ux. split_and!; try done.
Qed.

(** ** Semidominators *)

(** While node [i] is processed: [c] is the current value of its semidominator. *)
Record semi_inv (i c : nat) (lt1 lt : LengauerTarjan) : Prop := {
  si_same : same_search lt;
  si_forest : forest (S i) lt;
  si_low : ∀ k x, A k x → k < i → lt_semi lt !! x = Some (Z.of_nat k);
  si_this : ∀ x, A i x → lt_semi lt !! x = Some (Z.of_nat c);
  si_tables : lt_bucket lt = lt_bucket lt1 ∧ lt_idom lt = lt_idom lt1;
}.

(** What the predecessor number [k] contributes. *)
Definition covered (i c k : nat) : Prop :=
  (k < i → c ≤ k) ∧ ∀ u, above u k → i < u → c ≤ sem u.

Lemma covered_le i c c' k : c' ≤ c → covered i c k → covered i c' k.
Proof.
  intros Hc [H1 H2]. split; [intros Hk; specialize (H1 Hk); lia|].
  intros u Hu Hlt. specialize (H2 u Hu Hlt). lia.
Qed.

Lemma semi_inv_set i c c' w lt1 lt :
  A i w → semi_inv i c lt1 lt → semi_inv i c' lt1 (set_semi lt (<[w := Z.of_nat c']> (lt_semi lt))).
Proof.
  intros Hw [Hs [Hl Hh Hse] Hlow Ht Htab].
  assert (∀ k x, A k x → k ≠ i → x ≠ w) as Hne.
  { intros k x Hk Hki ->. by apply Hki, (A_inj _ _ w). }
  split; [done| | |simpl|done].
  - split; [done|exact Hh|]. intros k x Hk Hge. simpl.
    rewrite lookup_insert_ne; [by apply Hse|]. pose proof (Hne k x Hk ltac:(lia)). done.
  - intros k x Hk Hlt. simpl. rewrite lookup_insert_ne; [by apply Hlow|].
    pose proof (Hne k x Hk ltac:(lia)). done.
  - intros x Hx. rewrite (A_fun _ _ _ Hx Hw). by rewrite lookup_insert_eq.
Qed.

Lemma semi_inv_forest i c lt1 lt lt' :
  forest_only lt lt' → forest (S i) lt' → semi_inv i c lt1 lt → semi_inv i c lt1 lt'.
Proof.
  intros Ho Hf [Hs _ Hlow Ht Htab]. pose proof (forest_only_same _ _ Ho Hs).
  unfold forest_only in Ho. split; try done; by rewrite Ho.
Qed.

Lemma semi_step_spec i w c lt1 lt k v :
  2 ≤ i → A i w → A k v → semi_inv i c lt1 lt → c ≤ i → E k i → c = i ∨ candidate n E p sem i c →
  ∃ lt' c', semi_step w lt v = Ret lt' ∧ semi_inv i c' lt1 lt' ∧ c' ≤ c ∧
    (c' = i ∨ candidate n E p sem i c') ∧ covered i c' k.
Proof.
  intros Hi Hw Hk Hs Hci He Hc. unfold semi_step.
  destruct (si_same _ _ _ _ Hs) as (Hnum & _). rewrite Hnum.
  rewrite (proj2 (di_num _ _ _ _ _ _ Hinv v (Z.of_nat k))) by eauto.
  destruct (eval_spec (S i) lt k v ltac:(lia) (si_same _ _ _ _ Hs) (si_forest _ _ _ _ Hs) Hk)
    as (lt2 & u & ux & -> & Hf2 & Ho & Hux & Hlo & Hhi).
  pose proof (semi_inv_forest _ _ _ _ _ Ho Hf2 Hs) as Hs2. cbn [mbind outcome_bind]. unfold at_key.
  rewrite (si_this _ _ _ _ Hs2 w Hw).
  assert (∃ su, lt_semi lt2 !! ux = Some (Z.of_nat su) ∧ (su < c → candidate n E p sem i su) ∧
    (∀ c', c' ≤ su → c' ≤ c → covered i c' k)) as (su & -> & Hcand & Hcov).
  { destruct (decide (k ≤ i)) as [Hki|Hki].
    - rewrite (Hlo ltac:(lia)) in Hux.
      assert (∀ c', (k < i → c' ≤ k) → covered i c' k) as Hcov.
      { intros c' Hc'. split; [done|]. intros y Hy Hlt. apply (anc_le _ _ _ numbered) in Hy. lia. }
      destruct (decide (k = i)) as [-> |].
      + exists c. rewrite (si_this _ _ _ _ Hs2 ux Hux). split; [done|]. split; [lia|].
        intros c' _ _. apply Hcov. lia.
      + exists k. rewrite (si_low _ _ _ _ Hs2 k ux Hux) by lia. split; [done|].
        split; [|by intros; apply Hcov]. intros _. left. split; [done|lia].
    - destruct (Hhi ltac:(lia)) as (Huk & Hiu & Hmin). exists (sem u).
      rewrite (fo_semi _ _ Hf2 u ux Hux Hiu). split; [done|]. split.
      + intros _. right. by exists k, u.
      + intros c' Hc' _. split; [lia|]. intros y Hy Hlt. specialize (Hmin y Hy ltac:(lia)). lia. }
  cbn [mbind outcome_bind]. destruct (Z.ltb_spec (Z.of_nat su) (Z.of_nat c)) as [Hlt|Hge].
  - exists (set_semi lt2 (<[w := Z.of_nat su]> (lt_semi lt2))), su.
    split_and!; [done|by eapply semi_inv_set|lia|right; apply Hcand; lia|apply Hcov; lia].
  - exists lt2, c. split_and!; [done|done|done|done|apply Hcov; lia].
Qed.

Lemma edge_number v w k i : A k v → A i w → edge succs v w → E k i.
Proof. intros. by exists v, w. Qed.

Lemma pred_visited v w i : A i w → edge succs v w →
  lt_dfs_num lt0 !! v = None ∨ ∃ k, A k v.
Proof.
  intros _ _. destruct (lt_dfs_num lt0 !! v) as [z|] eqn:Ev; [right|by left].
  apply (di_num _ _ _ _ _ _ Hinv) in Ev as (k & _ & Hk). eauto.
Qed.

(** After all predecessors, the semidominator. *)
Lemma semi_loop_spec i w lt l :
  2 ≤ i → A i w → preds w = Some l → semi_inv i i lt lt →
  ∃ lt', for_each (semi_step w) lt l = Ret lt' ∧ semi_inv i (sem i) lt lt'.
Proof.
  intros Hi Hw Hl Hs. pose proof (A_range _ _ Hw) as Hin.
  destruct (Hpreds w) as (l' & Hl' & Hlspec).
  { apply (di_at_visited _ _ _ _ _ _ Hinv). eauto. }
  assert (l' = l) as -> by congruence.
  destruct (for_each_ind (semi_step w)
    (λ done lt', ∃ c, semi_inv i c lt lt' ∧ c ≤ i ∧ (c = i ∨ candidate n E p sem i c) ∧
       ∀ v k, v ∈ done → A k v → covered i c k) l lt) as (lt' & Hr & c & Hs' & Hci & Hc & Hcov).
  - exists i. split_and!; [done|done|by left|]. intros v k Hv. by apply elem_of_nil in Hv.
  - intros l1 v l2 s Hlv (c & Hs1 & Hci & Hc & Hcov).
    assert (edge succs v w) as He by (apply Hlspec; rewrite Hlv; set_solver).
    destruct (pred_visited v w i Hw He) as [Hno|[k Hk]].
    + exists s. split; [unfold semi_step; destruct (si_same _ _ _ _ Hs1) as (-> & _); by rewrite Hno|].
      exists c. split_and!; [done..|]. intros v' k Hv' Hk.
      apply elem_of_app in Hv' as [Hv'| ->%list_elem_of_singleton]; [by apply (Hcov v')|].
      rewrite (proj2 (di_num _ _ _ _ _ _ Hinv v (Z.of_nat k))) in Hno by eauto. done.
    + destruct (semi_step_spec i w c lt s k v Hi Hw Hk Hs1 Hci (edge_number v w k i Hk Hw He) Hc)
        as (s' & c' & Hr & Hs' & Hle & Hc' & Hck).
      exists s'. split; [done|]. exists c'. split_and!; [done|lia|done|].
      intros v' k' Hv' Hk'. apply elem_of_app in Hv' as [Hv'| ->%list_elem_of_singleton].
      * eapply covered_le; [exact Hle|by apply (Hcov v')].
      * by rewrite (A_inj _ _ _ Hk' Hk).
  - exists lt'. split; [done|].
    assert (∀ k v, A k v → edge succs v w → covered i c k) as Hall.
    { intros k v Hk He. apply (Hcov v); [by apply Hlspec|done]. }
    destruct (dn_parent _ _ _ numbered i ltac:(lia)) as [Hp (x & y & Hx & Hy & Hxy)].
    rewrite (A_fun _ _ _ Hy Hw) in Hxy.
    assert (c ≤ p i) as Hcp by (apply (Hall _ x Hx Hxy); lia).
    assert (c = sem i) as <-; [|done].
    apply (is_semi_unique _ _ _ numbered i); [|by apply Hsem; lia].
    apply (least_candidate _ _ _ numbered sem); [intros; apply Hsem; lia|lia| |].
    + destruct Hc as [-> |]; [lia|done].
    + intros c' [[He Hlt]|(v & u & He & Hu & Hlt & ->)].
      * destruct He as (a & b & Ha & Hb & Hab). rewrite (A_fun _ _ _ Hb Hw) in Hab.
        by apply (Hall _ a Ha Hab).
      * destruct He as (a & b & Ha & Hb & Hab). rewrite (A_fun _ _ _ Hb Hw) in Hab.
        by apply (Hall _ a Ha Hab).
Qed.

(** ** Buckets and relative dominators *)

(** What step 3 finds for [k]: the semidominator when no node between has a smaller one,
    otherwise a node between with the smallest. *)
Definition relative (k d : nat) : Prop :=
  above d k ∧
  ((d = sem k ∧ ∀ y, above y k → sem k < y → sem k ≤ sem y) ∨
   (sem k < d ∧ sem d < sem k ∧ ∀ y, above y k → sem k < y → sem d ≤ sem y)).

Definition has_relative (lt : LengauerTarjan) (k : nat) (x : Z) : Prop :=
  ∃ d dx, lt_idom lt !! x = Some dx ∧ A d dx ∧ relative k d.

(** [k] waits in the bucket of its semidominator until the child above it is processed. *)
Definition may_wait (i : nat) (key : Z) (k : nat) : Prop :=
  i ≤ k ∧ key = Z.of_nat (sem k) ∧ ∀ c, 2 ≤ c ≤ n → p c = sem k → c ≤ k → c < i.

Record stage (i : nat) (lt : LengauerTarjan) : Prop := {
  sg_same : same_search lt;
  sg_forest : forest i lt;
  sg_low : ∀ k x, A k x → k < i → lt_semi lt !! x = Some (Z.of_nat k);
  sg_bucket : ∀ key x, x ∈ bucket_of lt key → ∃ k, A k x ∧ may_wait i key k;
  sg_done : ∀ k x, A k x → i ≤ k → x ∈ bucket_of lt (Z.of_nat (sem k)) ∨ has_relative lt k x;
  sg_idom : ∀ x, is_Some (lt_idom lt !! x) → ∃ k, 2 ≤ k ∧ A k x;
}.

Lemma child_above s k : above s k → s < k → ∃ c, 2 ≤ c ≤ n ∧ p c = s ∧ above c k.
Proof.
  intros Ha. induction Ha as [|k Hk Ha IH]; intros Hlt; [lia|].
  destruct (decide (s = p k)) as [->|Hne]; [exists k; split; [done|]; split; [done|constructor]|].
  apply (anc_le _ _ _ numbered) in Ha as Hle.
  destruct IH as (c & Hc & Hpc & Hck); [lia|]. exists c. split; [done|]. split; [done|].
  by apply anc_up.
Qed.

(** When [i] is processed, everything above a node of its parent's bucket is processed. *)
Lemma bucket_processed i k y :
  2 ≤ i ≤ n → i ≤ k ≤ n → sem k = p i → (∀ c, 2 ≤ c ≤ n → p c = sem k → c ≤ k → c < S i) →
  above y k → sem k < y → i ≤ y.
Proof.
  intros Hi Hk Hs Hc Hy Hlt. destruct (decide (i ≤ y)) as [|Hyi]; [done|exfalso].
  assert (2 ≤ k ≤ n) as Hkn by lia.
  pose proof (sem_anc _ _ _ numbered sem Hsem k Hkn) as Hsk.
  pose proof (sem_lt _ _ _ numbered sem Hsem k Hkn) as Hslt.
  destruct (child_above (sem k) k Hsk Hslt) as (c & Hcn & Hpc & Hck).
  pose proof (anc_le _ _ _ numbered _ _ Hck) as Hcle. pose proof (Hc c Hcn Hpc Hcle) as Hci.
  pose proof (dn_parent _ _ _ numbered c Hcn) as [Hpcl _].
  assert (above c i) as Hcai by (apply (dn_interval _ _ _ numbered c k i Hck); lia).
  assert (c = i) as ->.
  { inversion Hcai as [|? _ Hup]; subst; [done|]. apply (anc_le _ _ _ numbered) in Hup. lia. }
  assert (above y i) as Hyi'.
  { apply (anc_total _ _ _ numbered y i k); [done|done|lia]. }
  inversion Hyi' as [|? _ Hup]; subst; [lia|]. apply (anc_le _ _ _ numbered) in Hup. lia.
Qed.

Lemma forest_ext i lt lt' :
  lt_ancestor lt' = lt_ancestor lt → lt_label lt' = lt_label lt → lt_semi lt' = lt_semi lt →
  forest i lt → forest i lt'.
Proof.
  intros Ha Hl Hs [H1 H2 H3]. split; [by rewrite Ha, Hl| |by rewrite Hs].
  intros k x Hk Hge. apply (linked_ext i lt); [by rewrite Hl|by rewrite Ha|by apply H2].
Qed.

Lemma relative_insert lt k x d dx k' x' :
  A k x → A d dx → relative k d → A k' x' → has_relative lt k' x' ∨ x' = x →
  has_relative (set_idom lt (<[x := dx]> (lt_idom lt))) k' x'.
Proof.
  intros Hk Hd Hr Hk' Hor. destruct (decide (x' = x)) as [->|Hne].
  - exists d, dx. simpl. rewrite lookup_insert_eq. split_and!; [done..|]. by rewrite (A_inj _ _ _ Hk' Hk).
  - destruct Hor as [(d' & dx' & Hi & Hr')|?]; [|done]. exists d', dx'. simpl.
    by rewrite lookup_insert_ne.
Qed.

(** While a bucket is emptied: only the forest and the relative dominators change. *)
Record bucket_inv (i : nat) (lt1 lt : LengauerTarjan) : Prop := {
  bi_same : same_search lt;
  bi_forest : forest i lt;
  bi_semi : lt_semi lt = lt_semi lt1;
  bi_bucket : lt_bucket lt = lt_bucket lt1;
  bi_keep : ∀ k x, A k x → has_relative lt1 k x → has_relative lt k x;
  bi_idom : ∀ x, is_Some (lt_idom lt !! x) → ∃ k, 2 ≤ k ∧ A k x;
}.

Lemma bucket_step_spec i lt1 lt px k x :
  2 ≤ i ≤ n → A (p i) px → A k x → i ≤ k → sem k = p i →
  (∀ y, above y k → sem k < y → i ≤ y) → bucket_inv i lt1 lt →
  ∃ lt', bucket_step px lt x = Ret lt' ∧ bucket_inv i lt1 lt' ∧ has_relative lt' k x ∧
    ∀ k' x', A k' x' → has_relative lt k' x' → has_relative lt' k' x'.
Proof.
  intros Hi Hp Hk Hik Hsk Hpr Hb. pose proof (A_range _ _ Hk) as Hkn.
  destruct (eval_spec i lt k x ltac:(lia) (bi_same _ _ _ Hb) (bi_forest _ _ _ Hb) Hk)
    as (lt2 & u & ux & Hev & Hf2 & Ho & Hux & _ & Hbest).
  destruct (Hbest Hik) as (Huk & Hiu & Hmin).
  unfold bucket_step, at_key. rewrite Hev. cbn [mbind outcome_bind].
  rewrite (fo_semi _ _ Hf2 u ux Hux Hiu), (fo_semi _ _ Hf2 k x Hk Hik). cbn [mbind outcome_bind].
  destruct (dn_parent _ _ _ numbered i Hi) as [Hpi _].
  set (dx := if (_ <? _)%Z then ux else px).
  assert (∃ d, A d dx ∧ relative k d) as (d & Hd & Hrel).
  { subst dx. destruct (Z.ltb_spec (Z.of_nat (sem u)) (Z.of_nat (sem k))) as [Hlt|Hge].
    - exists u. split; [done|]. split; [done|right]. split_and!; [lia|lia|].
      intros y Hy Hly. apply Hmin; [done|by apply Hpr].
    - exists (p i). split; [done|]. rewrite <-Hsk. split; [apply (sem_anc _ _ _ numbered sem Hsem); lia|].
      left. split; [done|]. intros y Hy Hly. specialize (Hmin y Hy (Hpr y Hy Hly)). lia. }
  pose proof (forest_only_same _ _ Ho (bi_same _ _ _ Hb)) as Hsame2. unfold forest_only in Ho.
  assert (∀ k' x', has_relative lt k' x' → has_relative lt2 k' x') as Hk2 by (rewrite Ho; done).
  eexists. split; [done|]. split.
  - split; [done|by apply (forest_ext i lt2)| | | |].
    + simpl. rewrite Ho. apply Hb.
    + simpl. rewrite Ho. apply Hb.
    + intros k' x' Hk' Hr. apply (relative_insert lt2 k x d dx); [done..|]. left. apply Hk2.
      by apply (bi_keep _ _ _ Hb).
    + intros y. simpl. rewrite lookup_insert_is_Some. rewrite Ho. simpl.
      intros [<-|[_ Hy]]; [|by apply (bi_idom _ _ _ Hb)]. exists k. split; [lia|done].
  - split; [apply (relative_insert lt2 k x d dx); [done..|by right]|].
    intros k' x' Hk' Hr. apply (relative_insert lt2 k x d dx); [done..|]. left. by apply Hk2.
Qed.

Lemma bucket_loop_spec i lt px items :
  2 ≤ i ≤ n → A (p i) px →
  (∀ x, x ∈ items → ∃ k, A k x ∧ i ≤ k ∧ sem k = p i ∧ ∀ y, above y k → sem k < y → i ≤ y) →
  bucket_inv i lt lt →
  ∃ lt', for_each (bucket_step px) lt items = Ret lt' ∧ bucket_inv i lt lt' ∧
    ∀ k x, A k x → x ∈ items → has_relative lt' k x.
Proof.
  intros Hi Hp Hitems Hb.
  destruct (for_each_ind (bucket_step px) (λ done lt', bucket_inv i lt lt' ∧
    ∀ k x, A k x → x ∈ done → has_relative lt' k x) items lt) as (lt' & Hr & Hb' & Hall).
  - split; [done|]. intros k x _ Hx. by apply elem_of_nil in Hx.
  - intros l1 x l2 s -> [Hb1 Hd]. destruct (Hitems x) as (k & Hk & Hik & Hsk & Hpr); [set_solver|].
    destruct (bucket_step_spec i lt s px k x Hi Hp Hk Hik Hsk Hpr Hb1) as (s' & Hr & Hb' & Hnew & Hold).
    exists s'. split; [done|]. split; [done|]. intros k' x' Hk' Hx'.
    apply elem_of_app in Hx' as [Hx'| ->%list_elem_of_singleton]; [apply Hold; [done|by apply Hd]|].
    by rewrite (A_inj _ _ _ Hk' Hk).
  - by exists lt'.
Qed.

(** ** One iteration *)

Lemma link_forest i w px lt1 lt :
  2 ≤ i → A i w → A (p i) px → semi_inv i (sem i) lt1 lt → forest i (link lt w px).
Proof.
  intros Hi Hw Hp [Hs [Hlow Hhigh Hsm] Hl Ht _]. pose proof (A_range _ _ Hw) as Hin.
  destruct (dn_parent _ _ _ numbered i ltac:(lia)) as [Hpi _].
  split.
  - intros k x Hk Hlt. simpl. rewrite lookup_insert_ne; [apply (Hlow k); [done|lia]|].
    intros ->. pose proof (A_inj _ _ _ Hk Hw). lia.
  - intros k x Hk Hge. destruct (decide (k = i)) as [->|Hne].
    + rewrite (A_fun _ _ _ Hk Hw). exists (p i), px, i, w. simpl. rewrite lookup_insert_eq.
      destruct (Hlow i w Hw ltac:(lia)) as [_ ->].
      assert (above (p i) i) as Ha by (apply anc_up; [lia|constructor]).
      split_and!; try done; [lia|constructor|]. intros y Hy Hlt.
      inversion Hy as [|? _ Hup]; subst; [done|]. apply (anc_le _ _ _ numbered) in Hup. lia.
    + assert (x ≠ w) as Hxw by (intros ->; by apply Hne, (A_inj _ _ w)).
      destruct (Hhigh k x Hk ltac:(lia)) as (a & ax & l & lx & Hax & Ha & Hak & Hab & Hlb & Hlx & Hil & Hlab & Hmin).
      exists a, ax, l, lx. simpl. rewrite lookup_insert_ne by done. split_and!; try done; [lia|].
      intros y Hy Hlt. destruct (Hmin y Hy Hlt). split; [lia|done].
  - intros k x Hk Hge. simpl. destruct (decide (k = i)) as [->|]; [by apply Ht|].
    apply (Hsm k); [done|lia].
Qed.

Lemma bucket_of_push lt key w key' x :
  x ∈ bucket_of (set_bucket lt (<[key := bucket_of lt key ++ [w]]> (lt_bucket lt))) key' ↔
  x ∈ bucket_of lt key' ∨ (key' = key ∧ x = w).
Proof.
  unfold bucket_of at 1. simpl. destruct (decide (key' = key)) as [->|Hne].
  - rewrite lookup_insert_eq. simpl. rewrite elem_of_app, list_elem_of_singleton. naive_solver.
  - rewrite lookup_insert_ne by done. naive_solver.
Qed.

Lemma bucket_of_delete lt key key' x :
  x ∈ bucket_of (set_bucket lt (delete key (lt_bucket lt))) key' ↔
  x ∈ bucket_of lt key' ∧ key' ≠ key.
Proof.
  unfold bucket_of. simpl. destruct (decide (key' = key)) as [->|Hne].
  - rewrite lookup_delete_eq. simpl. split; [by intros ?%elem_of_nil|naive_solver].
  - rewrite lookup_delete_ne by done. naive_solver.
Qed.

(** The state when the bucket of the parent of [w] is about to be emptied. *)
Definition after_link (lt1 : LengauerTarjan) (i : nat) (w px : Z) : LengauerTarjan :=
  link (set_bucket lt1 (<[Z.of_nat (sem i) := bucket_of lt1 (Z.of_nat (sem i)) ++ [w]]>
    (lt_bucket lt1))) w px.

Section phase.
  Context (i : nat) (w px : Z) (lt lt1 : LengauerTarjan).
  Context (Hi : 2 ≤ i ≤ n) (Hw : A i w) (Hp : A (p i) px).
  Context (Hst : stage (S i) lt) (Hs1 : semi_inv i (sem i) lt lt1).
  #[local] Set Default Proof Using "All".

Lemma after_link_bucket key x :
  x ∈ bucket_of (after_link lt1 i w px) key ↔
  x ∈ bucket_of lt key ∨ (key = Z.of_nat (sem i) ∧ x = w).
Proof.
  change (bucket_of (after_link lt1 i w px) key) with
    (bucket_of (set_bucket lt1 (<[Z.of_nat (sem i) := bucket_of lt1 (Z.of_nat (sem i)) ++ [w]]>
      (lt_bucket lt1))) key).
  rewrite bucket_of_push. unfold bucket_of. by destruct (si_tables _ _ _ _ Hs1) as [-> _].
Qed.

Lemma after_link_waits key x : x ∈ bucket_of (after_link lt1 i w px) key →
  ∃ k, A k x ∧ i ≤ k ∧ key = Z.of_nat (sem k) ∧
    ∀ c, 2 ≤ c ≤ n → p c = sem k → c ≤ k → c < S i.
Proof.
  intros [Hx|[-> ->]]%after_link_bucket.
  - destruct (sg_bucket _ _ Hst key x Hx) as (k & Hk & Hik & -> & Hc). exists k.
    split_and!; [done|lia|done|done].
  - exists i. split_and!; try done. lia.
Qed.

Lemma after_link_inv lt4 :
  lt4 = set_bucket (after_link lt1 i w px)
          (delete (Z.of_nat (p i)) (lt_bucket (after_link lt1 i w px))) →
  bucket_inv i lt4 lt4.
Proof.
  intros ->. split; try done.
  - apply Hs1.
  - apply (forest_ext i (link lt1 w px)); [done..|]. by apply (link_forest i w px lt); [lia|..].
  - simpl. destruct (si_tables _ _ _ _ Hs1) as [_ ->]. intros x Hx.
    destruct (sg_idom _ _ Hst x Hx) as (k & ? & ?). eauto.
Qed.

Lemma phase_spec : ∃ lt',
  for_each (bucket_step px)
    (set_bucket (after_link lt1 i w px)
      (delete (Z.of_nat (p i)) (lt_bucket (after_link lt1 i w px))))
    (bucket_of (after_link lt1 i w px) (Z.of_nat (p i))) = Ret lt' ∧ stage i lt'.
Proof.
  pose proof (after_link_inv _ eq_refl) as Hb. set (lt4 := set_bucket _ _) in *.
  destruct (bucket_loop_spec i lt4 px (bucket_of (after_link lt1 i w px) (Z.of_nat (p i))))
    as (lt' & Hr & Hb' & Hall); [done|done| |done|].
  { intros x Hx. destruct (after_link_waits _ _ Hx) as (k & Hk & Hik & Heq & Hc).
    pose proof (A_range _ _ Hk). exists k. split_and!; [done|done|lia|].
    intros y. apply bucket_processed; [done|lia|lia|done]. }
  exists lt'. split; [done|].
  assert (∀ key x, x ∈ bucket_of lt' key ↔
    x ∈ bucket_of (after_link lt1 i w px) key ∧ key ≠ Z.of_nat (p i)) as Hbk.
  { intros key x. rewrite <-bucket_of_delete. unfold bucket_of. by rewrite (bi_bucket _ _ _ Hb'). }
  split; [apply Hb'|apply Hb'| | | |apply Hb'].
  - intros k x Hk Hlt. rewrite (bi_semi _ _ _ Hb'). by apply (si_low _ _ _ _ Hs1).
  - intros key x [Hx Hne]%Hbk. destruct (after_link_waits _ _ Hx) as (k & Hk & Hik & -> & Hc).
    exists k. split; [done|]. split_and!; [done|done|]. intros c Hcn Hpc Hck.
    pose proof (Hc c Hcn Hpc Hck). destruct (decide (c = i)) as [->|]; [congruence|lia].
  - intros k x Hk Hge. rewrite Hbk, after_link_bucket.
    destruct (decide (k = i)) as [->|Hne].
    + pose proof (A_fun _ _ _ Hk Hw) as ->. destruct (decide (sem i = p i)) as [Heq|].
      * right. apply Hall; [done|]. apply after_link_bucket. rewrite Heq. by right.
      * left. split; [by right|lia].
    + destruct (sg_done _ _ Hst k x Hk ltac:(lia)) as [Hx|Hrel].
      * destruct (decide (sem k = p i)) as [Heq|]; [right|left; split; [by left|lia]].
        apply Hall; [done|]. apply after_link_bucket. rewrite <-Heq. by left.
      * right. apply (bi_keep _ _ _ Hb'); [done|]. unfold has_relative, lt4. simpl.
        by destruct (si_tables _ _ _ _ Hs1) as [_ ->].
Qed.
End phase.

Lemma process_spec i lt :
  2 ≤ i ≤ n → stage (S i) lt → ∃ lt', process preds lt (Z.of_nat i) = Ret lt' ∧ stage i lt'.
Proof.
  intros Hi Hst. destruct (di_at _ _ _ _ _ _ Hinv i ltac:(lia)) as [w Hw].
  destruct (di_parent _ _ _ _ _ _ Hinv i w ltac:(lia) Hw) as (px & j & Hpx & Hj & _ & _).
  pose proof (di_parent_number _ _ _ _ _ _ Hinv i w px j Hw Hpx Hj) as Hpi. subst j.
  destruct (Hpreds w) as (l & Hl & _); [apply (di_at_visited _ _ _ _ _ _ Hinv); eauto|].
  assert (semi_inv i i lt lt) as Hs0.
  { split; [apply Hst|apply Hst| | |done].
    - intros k x Hk Hlt. apply (sg_low _ _ Hst); [done|lia].
    - intros x Hx. apply (sg_low _ _ Hst); [done|lia]. }
  destruct (semi_loop_spec i w lt l ltac:(lia) Hw Hl Hs0) as (lt1 & Hr1 & Hs1).
  unfold process, vertex_at, at_key. destruct (sg_same _ _ Hst) as (_ & Hv & _).
  rewrite Hv, Nat2Z.id, (proj2 Hw). cbn [mbind outcome_bind]. rewrite Hl, Hr1. cbn [mbind outcome_bind].
  rewrite (si_this _ _ _ _ Hs1 w Hw). cbn [mbind outcome_bind set_bucket lt_parent].
  destruct (si_same _ _ _ _ Hs1) as (Hnum & Hv1 & Hpar & Hn1). rewrite Hpar, Hpx.
  cbn [link set_forest set_bucket lt_dfs_num].
  rewrite Hnum, (proj2 (di_num _ _ _ _ _ _ Hinv px (Z.of_nat (p i)))) by eauto.
  cbn [mbind outcome_bind].
  by apply (phase_spec i w px lt lt1).
Qed.

(** ** The whole loop down *)

Lemma stage_start lt : lt = lt0 → stage (S n) lt.
Proof.
  intros ->. destruct (di_tables _ _ _ _ _ _ Hinv) as [Hb Hd].
  assert (∀ k x, A k x → S n ≤ k → False) as Hno by (intros k x Hk%A_range ?; lia).
  split; [done| | | | |].
  - split; [|intros k x Hk Hge; by destruct (Hno k x)..].
    intros k x Hk _. apply and_comm, (di_label _ _ _ _ _ _ Hinv), (di_at_visited _ _ _ _ _ _ Hinv). eauto.
  - intros k x Hk _. rewrite (di_semi _ _ _ _ _ _ Hinv). apply (di_num _ _ _ _ _ _ Hinv). eauto.
  - intros key x Hx. unfold bucket_of in Hx. rewrite Hb in Hx. by apply elem_of_nil in Hx.
  - intros k x Hk Hge. by destruct (Hno k x).
  - intros x [d Hx]. by rewrite Hd in Hx.
Qed.

(** The table of semidominators and relative dominators after the loop down. *)
Record relatives (lt : LengauerTarjan) : Prop := {
  re_same : same_search lt;
  re_semi : ∀ k x, 2 ≤ k → A k x → lt_semi lt !! x = Some (Z.of_nat (sem k));
  re_idom : ∀ k x, 2 ≤ k → A k x → has_relative lt k x;
  re_dom : ∀ x, is_Some (lt_idom lt !! x) → ∃ k, 2 ≤ k ∧ A k x;
}.

Lemma down_spec : ∃ lt,
  for_each (process preds) lt0 (rev (seqZ 2 (lt_n lt0 - 1))) = Ret lt ∧ relatives lt.
Proof.
  pose proof (di_n _ _ _ _ _ _ Hinv) as Hn.
  replace (lt_n lt0 - 1)%Z with (Z.of_nat n - 1)%Z by lia.
  destruct (for_each_down (process preds) stage n lt0) as (lt & Hr & Hst);
    [lia|by apply stage_start|intros i s Hi; by apply process_spec|].
  exists lt. split; [done|]. split; [apply Hst| | |apply Hst].
  - intros k x Hk Hx. by apply (fo_semi _ _ (sg_forest _ _ Hst)).
  - intros k x Hk Hx. destruct (sg_done _ _ Hst k x Hx Hk) as [Hb|]; [exfalso|done].
    destruct (sg_bucket _ _ Hst _ _ Hb) as (k' & Hk' & _ & _ & Hc).
    rewrite (A_inj _ _ _ Hk' Hx) in Hc. pose proof (A_range _ _ Hx) as Hkn.
    destruct (child_above (sem k) k) as (c & Hcn & Hpc & Hck).
    + apply (sem_anc _ _ _ numbered sem Hsem). lia.
    + apply (sem_lt _ _ _ numbered sem Hsem). lia.
    + apply (anc_le _ _ _ numbered) in Hck. specialize (Hc c Hcn Hpc Hck). lia.
Qed.

(** ** The loop up *)

Definition has_idom (lt : LengauerTarjan) (k : nat) (x : Z) : Prop :=
  ∃ d dx, lt_idom lt !! x = Some dx ∧ A d dx ∧ d < k ∧ is_idom E d k.

Record final (i : nat) (lt : LengauerTarjan) : Prop := {
  fi_same : same_search lt;
  fi_semi : ∀ k x, 2 ≤ k → A k x → lt_semi lt !! x = Some (Z.of_nat (sem k));
  fi_done : ∀ k x, 2 ≤ k < i → A k x → has_idom lt k x;
  fi_todo : ∀ k x, 2 ≤ k → i ≤ k → A k x → has_relative lt k x;
  fi_dom : ∀ x, is_Some (lt_idom lt !! x) → ∃ k, 2 ≤ k ∧ A k x;
}.

Lemma number_lookup lt k x : same_search lt → A k x → lt_dfs_num lt !! x = Some (Z.of_nat k).
Proof. intros (-> & _) Hk. apply (di_num _ _ _ _ _ _ Hinv). eauto. Qed.

Lemma final_insert i lt w d dx :
  2 ≤ i → A i w → A d dx → d < i → is_idom E d i → final i lt →
  final (S i) (set_idom lt (<[w := dx]> (lt_idom lt))).
Proof.
  intros Hi Hw Hd Hdi Hid [Hs Hse Hdone Htodo Hdom].
  assert (∀ k x, A k x → k ≠ i → (<[w := dx]> (lt_idom lt)) !! x = lt_idom lt !! x) as Hne.
  { intros k x Hk Hki. apply lookup_insert_ne. intros ->. by apply Hki, (A_inj _ _ x). }
  split; [done|done| | |].
  - intros k x Hk Hx. destruct (decide (k = i)) as [->|Hki].
    + rewrite (A_fun _ _ _ Hx Hw). exists d, dx. simpl. by rewrite lookup_insert_eq.
    + destruct (Hdone k x ltac:(lia) Hx) as (e & ex & He). exists e, ex. simpl.
      by rewrite (Hne k x Hx Hki).
  - intros k x Hk Hki Hx. destruct (Htodo k x Hk ltac:(lia) Hx) as (e & ex & He). exists e, ex.
    simpl. by rewrite (Hne k x Hx ltac:(lia)).
  - intros x. simpl. rewrite lookup_insert_is_Some. intros [<-|[_ Hx]]; [by exists i|by apply Hdom].
Qed.

Lemma final_same i lt w d dx :
  A i w → lt_idom lt !! w = Some dx → A d dx → d < i → is_idom E d i → final i lt → final (S i) lt.
Proof.
  intros Hw Hlk Hd Hdi Hid [Hs Hse Hdone Htodo Hdom]. split; [done|done| | |done].
  - intros k x Hk Hx. destruct (decide (k = i)) as [->|Hki]; [|apply Hdone; [lia|done]].
    rewrite (A_fun _ _ _ Hx Hw). by exists d, dx.
  - intros k x Hk Hki. apply Htodo; lia.
Qed.

Lemma finalize_step i lt :
  2 ≤ i ≤ n → final i lt → ∃ lt', finalize lt (Z.of_nat i) = Ret lt' ∧ final (S i) lt'.
Proof.
  intros Hi Hf. destruct (di_at _ _ _ _ _ _ Hinv i ltac:(lia)) as [w Hw].
  unfold finalize, vertex_at, at_key. destruct (fi_same _ _ Hf) as (_ & Hv & _).
  rewrite Hv, Nat2Z.id, (proj2 Hw). cbn [mbind outcome_bind].
  destruct (fi_todo _ _ Hf i w ltac:(lia) ltac:(lia) Hw) as (d & dx & Hlk & Hd & Hda & Hrel).
  rewrite Hlk, (fi_semi _ _ Hf i w ltac:(lia) Hw). cbn [mbind outcome_bind].
  rewrite (number_lookup lt d dx (fi_same _ _ Hf) Hd).
  pose proof (sem_lt _ _ _ numbered sem Hsem i Hi) as Hlt.
  destruct Hrel as [[-> Hmin]|(Hsd & Hdlt & Hmin)].
  - rewrite decide_True by done. eexists. split; [done|].
    apply (final_same i lt w (sem i) dx); try done.
    by apply (idom_is_semi _ _ _ numbered sem Hsem).
  - rewrite decide_False by (intros [= ?]; lia).
    pose proof (anc_le _ _ _ numbered _ _ Hda) as Hdi.
    assert (d ≠ i) by (intros ->; lia). pose proof (sem_range _ _ _ numbered sem Hsem i Hi) as Hsr.
    destruct (fi_done _ _ Hf d dx ltac:(lia) Hd) as (e & ex & Hlk' & He & Hed & Hid).
    rewrite Hlk'. eexists. split; [done|].
    apply (final_insert i lt w e ex); [lia|done|done|lia| |done].
    by apply (idom_of_min _ _ _ numbered sem Hsem i d e).
Qed.

Lemma up_spec lt : relatives lt →
  ∃ lt', for_each finalize lt (seqZ 2 (lt_n lt0 - 1)) = Ret lt' ∧ final (S n) lt'.
Proof.
  intros Hre. pose proof (di_n _ _ _ _ _ _ Hinv) as Hn.
  replace (lt_n lt0 - 1)%Z with (Z.of_nat n - 1)%Z by lia.
  apply (for_each_up finalize final n lt); [lia| |intros i s Hi; by apply finalize_step].
  split; [apply Hre|apply Hre|lia| |apply Hre]. intros k x Hk _. by apply Hre.
Qed.

(** ** The table of depths *)

Definition depth_ok (lt : LengauerTarjan) (i : nat) (m : gmap Z Z) : Prop :=
  m !! entry = Some 0%Z ∧
  (∀ k x, k < i → A k x → ∃ z, m !! x = Some z ∧ (0 ≤ z < Z.of_nat k)%Z) ∧
  ∀ k x d, 2 ≤ k < i → A k x → lt_idom lt !! x = Some d →
    ∃ z, m !! d = Some z ∧ m !! x = Some (z + 1)%Z.

Lemma depth_spec chk lt :
  final (S n) lt → (Z.of_nat n ≤ U32_MAX)%Z →
  ∃ m, for_each (depth_step chk lt) {[entry := 0%Z]} (seqZ 2 (lt_n lt0 - 1)) = Ret m ∧
    depth_ok lt (S n) m.
Proof.
  intros Hf Hfew. pose proof (di_n _ _ _ _ _ _ Hinv) as Hn.
  replace (lt_n lt0 - 1)%Z with (Z.of_nat n - 1)%Z by lia.
  destruct (di_entry _ _ _ _ _ _ Hinv) as [He _].
  apply (for_each_up (depth_step chk lt) (depth_ok lt) n); [lia| |].
  { split_and!; [by rewrite lookup_singleton_eq| |lia]. intros k x Hk Hx.
    assert (k = 1) as -> by (destruct Hx; lia). rewrite (A_fun _ _ _ Hx He).
    exists 0%Z. by rewrite lookup_singleton_eq. }
  intros i m Hi (H1 & H2 & H3). destruct (di_at _ _ _ _ _ _ Hinv i ltac:(lia)) as [w Hw].
  unfold depth_step, vertex_at. destruct (fi_same _ _ Hf) as (_ & Hv & _).
  rewrite Hv, Nat2Z.id, (proj2 Hw). cbn [mbind outcome_bind].
  destruct (fi_done _ _ Hf i w ltac:(lia) Hw) as (d & dx & Hlk & Hd & Hdi & _). rewrite Hlk.
  destruct (H2 d dx Hdi Hd) as (z & Hz & Hzd). rewrite Hz. simpl. unfold u32_add.
  rewrite u32_of_in by (unfold is_u32, U32_MAX in *; lia). cbn [mbind outcome_bind].
  eexists. split; [done|].
  assert (∀ k x, A k x → k ≠ i → (<[w := (z + 1)%Z]> m) !! x = m !! x) as Hne.
  { intros k x Hk Hki. apply lookup_insert_ne. intros ->. by apply Hki, (A_inj _ _ x). }
  split_and!.
  - by rewrite (Hne 1) by (done || lia).
  - intros k x Hk Hx. destruct (decide (k = i)) as [->|].
    + rewrite (A_fun _ _ _ Hx Hw), lookup_insert_eq. exists (z + 1)%Z. split; [done|lia].
    + rewrite (Hne k) by done. apply H2; [lia|done].
  - intros k x e Hk Hx Hxe. destruct (decide (k = i)) as [->|Hki].
    + rewrite (A_fun _ _ _ Hx Hw) in Hxe |- *. assert (e = dx) as -> by congruence.
      exists z. rewrite (Hne d) by (done || lia). by rewrite lookup_insert_eq.
    + destruct (H3 k x e ltac:(lia) Hx Hxe) as (y & Hy & Hyx). exists y.
      destruct (fi_done _ _ Hf k x ltac:(lia) Hx) as (e' & ex & Hlk' & He' & Hek & _).
      assert (ex = e) as -> by congruence.
      rewrite (Hne e') by (done || lia). by rewrite (Hne k).
Qed.
End loop.
