(* ===== verification/DomTree.v ===== *)
(** * Dominator trees

    What a dominator tree promises in terms of paths of the graph ([tree_ok]), that the
    algorithm of [Dominance] keeps the promise, and what the queries answer on such a tree. *)

From S2P Require Import Prelude LtTheory Digraph ScgNode Scg ScgInv ScgMerge ScgPaths.
From S2P Require Import Dominance DomDfs DomLoop.
From stdpp Require Import gmap relations.
From stdpp Require Import options.

#[local] Open Scope nat_scope.

(** ** Paths *)

Section paths.
  Context (R : Z → Z → Prop).

(** The nodes of a path, ends included. *)
Inductive is_path : Z → list Z → Z → Prop :=
  | path_here a : is_path a [a] a
  | path_step a b l c : R a b → is_path b l c → is_path a (a :: l) c.

(** Every path from [entry] to [b] runs through [d]. *)
Definition on_all_paths (entry d b : Z) : Prop := ∀ l, is_path entry l b → d ∈ l.

Lemma path_ends a l b : is_path a l b → a ∈ l ∧ b ∈ l.
Proof. induction 1; set_solver. Qed.

Lemma path_rtc a l b : is_path a l b → rtc R a b.
Proof. induction 1; [done|by eapply rtc_l]. Qed.

Lemma rtc_path a b : rtc R a b → ∃ l, is_path a l b.
Proof. induction 1 as [a|a c b Hac _ (l & Hl)]; eexists; [constructor|by econstructor]. Qed.

(** A path stops at each of its nodes. *)
Lemma path_prefix a l b d : is_path a l b → d ∈ l → ∃ l', is_path a l' d ∧ l' ⊆ l.
Proof.
  induction 1 as [a|a c l b Hac _ IH]; intros Hd.
  - apply list_elem_of_singleton in Hd as ->. exists [a]. split; [constructor|done].
  - apply elem_of_cons in Hd as [->|Hd]; [exists [a]; split; [constructor|set_solver]|].
    destruct (IH Hd) as (l' & Hl' & Hsub). exists (a :: l'). split; [by econstructor|set_solver].
Qed.

Lemma path_snoc a l b c : is_path a l b → R b c → is_path a (l ++ [c]) c.
Proof.
  induction 1 as [a|a x l b Hax _ IH]; intros Hbc; simpl; econstructor; eauto. constructor.
Qed.

(** The last step of a path. *)
Lemma path_last a l b : is_path a l b →
  (a = b ∧ l = [a]) ∨ ∃ c l', is_path a l' c ∧ R c b ∧ l = l' ++ [b].
Proof.
  induction 1 as [a|a x l b Hax _ IH]; [by left|right].
  destruct IH as [[-> ->]|(c & l' & Hl' & Hc & ->)].
  - exists a, [a]. split; [constructor|]. done.
  - exists c, (a :: l'). split; [by econstructor|]. done.
Qed.

Lemma path_reach a l b d : is_path a l b → d ∈ l → rtc R a d.
Proof. intros Hp Hd. destruct (path_prefix a l b d Hp Hd) as (l' & Hl' & _). by eapply path_rtc. Qed.

Lemma all_paths_refl entry b : on_all_paths entry b b.
Proof. intros l Hl. by destruct (path_ends _ _ _ Hl). Qed.

Lemma all_paths_trans entry a b c :
  on_all_paths entry a b → on_all_paths entry b c → on_all_paths entry a c.
Proof.
  intros Hab Hbc l Hl. destruct (path_prefix entry l c b Hl (Hbc l Hl)) as (l' & Hl' & Hsub).
  by apply Hsub, Hab.
Qed.

Lemma all_paths_reach entry d b : rtc R entry b → on_all_paths entry d b → rtc R entry d.
Proof. intros [l Hl]%rtc_path Hd. exact (path_reach entry l b d Hl (Hd l Hl)). Qed.

Lemma all_paths_entry entry d : on_all_paths entry d entry → d = entry.
Proof. intros Hd. specialize (Hd [entry] (path_here entry)). by apply list_elem_of_singleton in Hd. Qed.

(** [d] is the immediate dominator of [x]: the strict dominator below all others. *)
Definition immediate (entry d x : Z) : Prop :=
  d ≠ x ∧ on_all_paths entry d x ∧ ∀ e, e ≠ x → on_all_paths entry e x → on_all_paths entry e d.

(** ** The promise *)

Record tree_ok (entry : Z) (t : DominatorTree) : Prop := {
  to_entry : dt_entry t = entry;
  to_nodes : ∀ x, x ∈ dt_nodes t ↔ rtc R entry x;
  to_idom : ∀ x d, idom t x = Some d → x ∈ dt_nodes t ∧ d ∈ dt_nodes t ∧ immediate entry d x;
  to_total : ∀ x, x ∈ dt_nodes t → idom t x = None ↔ x = entry;
  to_rank : ∃ rank : Z → nat, ∀ x d, idom t x = Some d → rank d < rank x;
  to_root_depth : depth t entry = Some 0%Z;
  to_depth : ∀ x d, idom t x = Some d →
    ∃ z, depth t d = Some z ∧ (0 ≤ z)%Z ∧ depth t x = Some (z + 1)%Z;
}.
End paths.

(** The same relation gives the same promise. *)
Lemma path_weaken (R R' : Z → Z → Prop) a l b :
  (∀ x y, R x y → R' x y) → is_path R a l b → is_path R' a l b.
Proof. intros HR. induction 1; econstructor; eauto. Qed.

Lemma all_paths_weaken (R R' : Z → Z → Prop) entry d b :
  (∀ x y, R' x y → R x y) → on_all_paths R entry d b → on_all_paths R' entry d b.
Proof. intros HR Hd l Hl. by eapply Hd, path_weaken. Qed.

Lemma tree_ok_ext (R R' : Z → Z → Prop) entry t :
  (∀ x y, R x y ↔ R' x y) → tree_ok R entry t → tree_ok R' entry t.
Proof.
  intros HR [H1 H2 H3 H4 H5 H6 H7]. split; try done.
  - intros x. rewrite H2. split; apply rtc_subrel; naive_solver.
  - intros x d Hx. destruct (H3 x d Hx) as (Hxt & Hdt & Hne & Hd & Hall). do 3 (split; [done|]). split.
    + eapply all_paths_weaken; [|exact Hd]. naive_solver.
    + intros e He Hex. eapply all_paths_weaken; [|apply (Hall e He)]; [naive_solver|].
      eapply all_paths_weaken; [|exact Hex]. naive_solver.
Qed.

(** Paths of the converse relation are paths read backwards. *)
Lemma path_reverse (R : Z → Z → Prop) a l b :
  is_path (λ x y, R y x) a l b ↔ is_path R b (rev l) a.
Proof.
  assert (∀ (Q : Z → Z → Prop) a l b, is_path (λ x y, Q y x) a l b → is_path Q b (rev l) a) as Hr.
  { intros Q x m y. induction 1 as [x|x y m z Hxy _ IH]; [constructor|]. simpl. by eapply path_snoc. }
  split; [apply Hr|]. intros Hp. rewrite <-(rev_involutive l). by apply (Hr (λ x y, R y x)).
Qed.

Lemma rtc_converse {B} (R : B → B → Prop) x y : rtc (λ a b, R b a) x y → rtc R y x.
Proof. induction 1 as [|a b c Hab _ IH]; [done|]. by eapply rtc_r. Qed.

(** ** The algorithm keeps the promise *)

Section run.
  Context (succs preds : Z → option (list Z)) (entry : Z) (ids : list Z).
  Context (lt0 : LengauerTarjan) (visited : gset Z).
  Context (Hinv : dfs_inv succs entry ids lt0 visited []).
  Context (Hclosed : ∀ x, x ∈ visited ↔ rtc (edge succs) entry x).
  #[local] Set Default Proof Using "All".

#[local] Notation A := (at_number lt0).
#[local] Notation R := (edge succs).
#[local] Notation E := (num_edge succs lt0).

Lemma numbered_iff x : rtc R entry x ↔ ∃ i, A i x.
Proof. rewrite <-Hclosed. by eapply di_at_visited. Qed.

Lemma avoids_path d dx i x w y :
  A d dx → A i x → A w y → avoids E d i w → ∃ l, is_path R x l y ∧ dx ∉ l.
Proof.
  intros Hd Hx Hy [Hne Hwalk]. revert x Hx.
  induction Hwalk as [w|i j w [He Hj] _ IH]; intros x Hx.
  - pose proof (at_number_fun _ _ _ _ Hx Hy) as ->. exists [y]. split; [constructor|].
    intros ->%list_elem_of_singleton. by apply Hne, (di_inj _ _ _ _ _ _ Hinv _ _ _ Hx Hd).
  - destruct He as (x' & z & Hx' & Hz & Hxz).
    pose proof (at_number_fun _ _ _ _ Hx Hx') as <-.
    destruct (IH Hy Hj z Hz) as (l & Hl & Hdl). exists (x :: l). split; [by econstructor|].
    intros [->|?]%elem_of_cons; [|done]. by apply Hne, (di_inj _ _ _ _ _ _ Hinv _ _ _ Hx Hd).
Qed.

Lemma path_avoids d dx i x l w y :
  A d dx → A i x → A w y → is_path R x l y → dx ∉ l → avoids E d i w.
Proof.
  intros Hd Hx Hy Hl. revert i Hx. induction Hl as [x|x z l y Hxz _ IH]; intros i Hx Hdl.
  - rewrite (di_inj _ _ _ _ _ _ Hinv _ _ _ Hy Hx). split; [|constructor].
    intros ->. apply Hdl. rewrite (at_number_fun _ _ _ _ Hd Hx). by left.
  - assert (∃ j, A j z) as [j Hj].
    { apply numbered_iff. eapply rtc_r; [|exact Hxz]. apply numbered_iff. eauto. }
    destruct (IH Hy j Hj) as [Hne Hw]; [set_solver|]. split.
    + intros ->. apply Hdl. rewrite (at_number_fun _ _ _ _ Hd Hx). by left.
    + eapply rtc_l; [|exact Hw]. split; [by exists x, z|done].
Qed.

Lemma dom_paths d dx w y : A d dx → A w y → cuts E d w ↔ on_all_paths R entry dx y.
Proof.
  intros Hd Hy. destruct (di_entry _ _ _ _ _ _ Hinv) as [He _]. split.
  - intros Hdom l Hl. destruct (decide (dx ∈ l)) as [|Hno]; [done|].
    destruct Hdom. by apply (path_avoids d dx 1 entry l w y).
  - intros Hall Hav. destruct (avoids_path d dx 1 entry w y Hd He Hy Hav) as (l & Hl & Hno).
    by apply Hno, Hall.
Qed.

Lemma idom_immediate d dx w y : A d dx → A w y → is_idom E d w → immediate R entry dx y.
Proof.
  intros Hd Hy (Hne & Hdom & Hall). split_and!.
  - intros ->. by apply Hne, (di_inj _ _ _ _ _ _ Hinv _ _ _ Hd Hy).
  - by apply (dom_paths d dx w y).
  - intros ex Hex He. assert (∃ e, A e ex) as [e Hnum].
    { apply numbered_iff. eapply all_paths_reach; [|exact He]. apply numbered_iff. eauto. }
    apply (dom_paths e ex d dx); [done..|]. apply Hall.
    + intros ->. by apply Hex, (at_number_fun lt0 w).
    + by apply (dom_paths e ex w y).
Qed.

#[local] Instance num_edge_dec : RelDecision E.
Proof.
  intros i j. destruct (lt_vertex lt0 !! i) as [x|] eqn:Hx.
  2:{ right. intros (x & y & [_ Hi] & _). congruence. }
  destruct (lt_vertex lt0 !! j) as [y|] eqn:Hy.
  2:{ right. intros (x' & y & _ & [_ Hj] & _). congruence. }
  destruct (decide (1 ≤ i ∧ 1 ≤ j ∧ y ∈ default [] (succs x))) as [(Hi & Hj & He)|Hn]; [left|right].
  - exists x, y. split; [done|]. split; [done|]. unfold edge.
    destruct (succs x) as [l|]; [by exists l|by apply elem_of_nil in He].
  - intros (x' & y' & [Hi Hx'] & [Hj Hy'] & l & Hl & Hin).
    assert (x' = x) as -> by congruence. assert (y' = y) as -> by congruence.
    apply Hn. by rewrite Hl.
Defined.

Lemma nodes_spec lt : same_search lt0 lt →
  ∃ ns, for_each (λ (nodes : gset Z) i, v ← vertex_at lt i; Ret ({[v]} ∪ nodes)) {[entry]}
          (seqZ 1 (lt_n lt)) = Ret ns ∧ ∀ x, x ∈ ns ↔ rtc R entry x.
Proof.
  intros (Hnum & Hv & Hp & Hn). rewrite Hn. pose proof (di_n _ _ _ _ _ _ Hinv) as Hpos.
  destruct (di_entry _ _ _ _ _ _ Hinv) as [He _].
  destruct (for_each_ind (λ (nodes : gset Z) i, v ← vertex_at lt i; Ret ({[v]} ∪ nodes))
    (λ done ns, ∀ x, x ∈ ns ↔ x = entry ∨ ∃ i, Z.of_nat i ∈ done ∧ A i x)
    (seqZ 1 (lt_n lt0)) {[entry]}) as (ns & Hr & Hns).
  - intros x. rewrite elem_of_singleton. split; [by left|].
    intros [?|(i & Hi & _)]; [done|by apply elem_of_nil in Hi].
  - intros l1 a l2 ns Hl Hns. assert (a ∈ seqZ 1 (lt_n lt0)) as Ha by (rewrite Hl; set_solver).
    apply elem_of_seqZ in Ha. destruct (di_at _ _ _ _ _ _ Hinv (Z.to_nat a)) as [w Hw]; [lia|].
    unfold vertex_at. rewrite Hv, (proj2 Hw). eexists. split; [done|].
    intros x. rewrite elem_of_union, elem_of_singleton, Hns. setoid_rewrite elem_of_app.
    setoid_rewrite list_elem_of_singleton. split.
    + intros [->|[?|(i & Hi & Hx)]]; [right|by left|right; by eauto].
      exists (Z.to_nat a). split; [right; lia|done].
    + intros [?|(i & [Hi|Hi] & Hx)]; [by right; left|right; right; by eauto|left].
      assert (i = Z.to_nat a) as -> by lia. by apply (at_number_fun lt0 (Z.to_nat a)).
  - exists ns. split; [done|]. intros x. rewrite Hns, numbered_iff. split.
    + intros [->|(i & _ & Hx)]; eauto.
    + intros [i Hx]. right. exists i. split; [|done]. apply elem_of_seqZ.
      pose proof (di_range _ _ _ _ _ _ Hinv i x Hx). lia.
Qed.

Context (Hpreds : ∀ w, w ∈ visited → ∃ l, preds w = Some l ∧ ∀ v, v ∈ l ↔ edge succs v w).
Context (Hfew : (Z.of_nat (length ids) ≤ U32_MAX)%Z).

Lemma tree_from_tables sem lt ns m :
  final succs lt0 sem (S (nodes_of lt0)) lt → (∀ x, x ∈ ns ↔ rtc R entry x) →
  depth_ok entry lt0 lt (S (nodes_of lt0)) m →
  tree_ok R entry (DominatorTree_mk entry (lt_idom lt) m ns).
Proof.
  intros Hfi Hns (Hd1 & Hd2 & Hd3). destruct (di_entry _ _ _ _ _ _ Hinv) as [He _].
  assert (∀ x d, lt_idom lt !! x = Some d → ∃ k e, 2 ≤ k < S (nodes_of lt0) ∧ A k x ∧ A e d ∧
    e < k ∧ is_idom E e k) as Hrow.
  { intros x d Hx. destruct (fi_dom _ _ _ _ _ Hfi x) as (k & Hk & Hkx); [eauto|].
    pose proof (di_range _ _ _ _ _ _ Hinv k x Hkx) as Hr.
    destruct (fi_done _ _ _ _ _ Hfi k x ltac:(lia) Hkx) as (e & ex & Hex & Hee & Hlt & Hid).
    assert (ex = d) as -> by congruence. exists k, e. split_and!; [lia|lia|done..]. }
  split; simpl; try done.
  - intros x d Hx. destruct (Hrow x d Hx) as (k & e & _ & Hk & Hde & _ & Hid).
    split_and!; [apply Hns, numbered_iff; eauto|apply Hns, numbered_iff; eauto|].
    by apply (idom_immediate e d k x).
  - intros x Hx%Hns. apply numbered_iff in Hx as [k Hk]. unfold idom. simpl. split.
    + intros Hno. destruct (decide (k = 1)) as [->|]; [by apply (at_number_fun lt0 1)|].
      pose proof (di_range _ _ _ _ _ _ Hinv k x Hk).
      destruct (fi_done _ _ _ _ _ Hfi k x ltac:(lia) Hk) as (e & ex & Hex & _). congruence.
    + intros ->. destruct (lt_idom lt !! entry) as [d|] eqn:Hd; [|done].
      destruct (Hrow entry d Hd) as (j & e & Hj & Hjx & _).
      pose proof (di_inj _ _ _ _ _ _ Hinv _ _ _ Hjx He). lia.
  - exists (number lt0). intros x d Hx. destruct (Hrow x d Hx) as (k & e & _ & Hk & Hde & Hlt & _).
    by rewrite (di_number _ _ _ _ _ _ Hinv _ _ Hk), (di_number _ _ _ _ _ _ Hinv _ _ Hde).
  - intros x d Hx. destruct (Hrow x d Hx) as (k & e & Hkn & Hk & Hde & Hlt & _).
    destruct (Hd3 k x d Hkn Hk Hx) as (z & Hz & Hxz). exists z. split_and!; [done| |done].
    destruct (Hd2 e d ltac:(lia) Hde) as (z' & Hz' & ?). assert (z' = z) as -> by congruence. lia.
Qed.

Lemma tree_built chk :
  ∃ t,
    (lt ← for_each (process preds) lt0 (rev (seqZ 2 (lt_n lt0 - 1)));
     lt ← for_each finalize lt (seqZ 2 (lt_n lt0 - 1));
     nodes ← for_each (λ (nodes : gset Z) i, v ← vertex_at lt i; Ret ({[v]} ∪ nodes)) {[entry]}
               (seqZ 1 (lt_n lt));
     depth ← for_each (depth_step chk lt) {[entry := 0%Z]} (seqZ 2 (lt_n lt0 - 1));
     Ret (DominatorTree_mk entry (lt_idom lt) depth nodes)) = Ret t ∧ tree_ok R entry t.
Proof.
  destruct (sem_exists _ _ _ (dfs_numbered_result _ _ _ _ _ Hinv)) as (sem & Hsem).
  destruct (down_spec _ _ _ _ _ _ Hinv Hpreds sem Hsem) as (lt1 & -> & Hre).
  destruct (up_spec _ preds _ _ _ _ Hinv Hpreds sem Hsem lt1 Hre) as (lt2 & Hup & Hfi).
  cbn [mbind outcome_bind]. rewrite Hup. cbn [mbind outcome_bind].
  destruct (nodes_spec lt2 (fi_same _ _ _ _ _ Hfi)) as (ns & -> & Hns). cbn [mbind outcome_bind].
  destruct (depth_spec _ preds _ _ _ _ Hinv Hpreds sem Hsem chk lt2 Hfi) as (m & -> & Hm).
  { rewrite <-(di_size _ _ _ _ _ _ Hinv).
    pose proof (visited_few ids visited (λ x Hx, proj1 (di_ids _ _ _ _ _ _ Hinv x Hx))). lia. }
  cbn [mbind outcome_bind]. eexists. split; [done|]. by apply (tree_from_tables sem).
Qed.
End run.

(** [run] always returns, with a correct tree: for any successor and predecessor functions that
    are each other's converse on what is reachable. *)
Lemma run_spec chk succs preds entry ids fuel :
  (∀ x y, edge succs x y → y ∈ ids) → entry ∈ ids → (Z.of_nat (length ids) ≤ U32_MAX)%Z →
  (∀ w, rtc (edge succs) entry w → ∃ l, preds w = Some l ∧ ∀ v, v ∈ l ↔ edge succs v w) →
  2 + sum_list (map (degree succs) ids) ≤ fuel →
  ∃ t, run chk succs preds fuel LengauerTarjan_new entry = Ret t ∧ tree_ok (edge succs) entry t.
Proof.
  intros Hids Hentry Hfew Hpreds Hfuel.
  destruct (dfs_spec succs entry ids chk Hids Hentry Hfew fuel Hfuel) as (lt0 & Hdfs & v & Hinv & Hcl).
  unfold run. rewrite Hdfs. cbn [mbind outcome_bind].
  apply (tree_built succs preds entry ids lt0 v Hinv Hcl); [|done].
  intros w Hw. by apply Hpreds, Hcl.
Qed.
