(* ===== verification/DomQueries.v ===== *)
(** * Queries on dominator trees

    What the queries of [Dominance] answer on a tree that keeps the promise of [DomTree]: the
    chain of a node is the list of its dominators, and everything else follows from it. *)

From S2P Require Import Prelude Digraph ScgNode Scg ScgInv ScgMerge ScgPaths.
From S2P Require Import Dominance DomDfs DomLoop DomTree.
From stdpp Require Import gmap relations.
From stdpp Require Import options.

#[local] Open Scope nat_scope.

Section queries.
  Context (R : Z → Z → Prop) (entry : Z) (t : DominatorTree) (Hok : tree_ok R entry t).
  #[local] Set Default Proof Using "Hok".

#[local] Notation dom := (on_all_paths R entry).

(** ** Chains *)

Inductive chain_of : Z → list Z → Prop :=
  | chain_end x : idom t x = None → chain_of x [x]
  | chain_next x d l : idom t x = Some d → chain_of d l → chain_of x (x :: l).

Lemma chain_exists x : ∃ l, chain_of x l.
Proof.
  destruct (to_rank _ _ _ Hok) as (rank & Hrank). remember (rank x) as r eqn:Hr.
  revert x Hr. induction r as [r IH] using lt_wf_ind. intros x ->.
  destruct (idom t x) as [d|] eqn:Hd; [|by exists [x]; constructor].
  destruct (IH (rank d) (Hrank x d Hd) d eq_refl) as (l & Hl). exists (x :: l). by econstructor.
Qed.

Lemma chain_head x l : chain_of x l → ∃ l', l = x :: l'.
Proof. destruct 1; eauto. Qed.

(** All but the last node of a chain are different entries of the table. *)
Lemma chain_keys x l : chain_of x l →
  ∃ ks y, l = ks ++ [y] ∧ NoDup ks ∧ ∀ k, k ∈ ks → is_Some (idom t k).
Proof.
  destruct (to_rank _ _ _ Hok) as (rank & Hrank).
  intros Hc. assert (∃ ks y, l = ks ++ [y] ∧ NoDup ks ∧
    ∀ k, k ∈ ks → is_Some (idom t k) ∧ rank k ≤ rank x) as (ks & y & -> & Hnd & Hks).
  2:{ exists ks, y. split_and!; [done|done|]. intros k Hk. by apply Hks. }
  induction Hc as [x Hx|x d l Hd _ (ks & y & -> & Hnd & Hks)].
  - exists [], x. split_and!; [done|constructor|]. intros k Hk. by apply elem_of_nil in Hk.
  - pose proof (Hrank x d Hd) as Hlt. exists (x :: ks), y. split_and!; [done| |].
    + constructor; [|done]. intros Hx. destruct (Hks x Hx). lia.
    + intros k [->|Hk]%elem_of_cons; [split; [eauto|lia]|]. destruct (Hks k Hk). split; [done|lia].
Qed.

Lemma chain_length x l : chain_of x l → length l ≤ chain_fuel t.
Proof.
  intros Hc. destruct (chain_keys x l Hc) as (ks & y & -> & Hnd & Hks).
  rewrite length_app. unfold chain_fuel. simpl.
  assert (length ks ≤ size (dt_idom t)); [|lia].
  rewrite <-size_dom. change (size (base.dom (dt_idom t))) with (length (elements (base.dom (dt_idom t)))).
  apply submseteq_length, NoDup_submseteq; [done|]. intros k Hk.
  apply elem_of_elements, elem_of_dom. by apply Hks.
Qed.

Lemma in_tree x d : idom t x = Some d → x ∈ dt_nodes t ∧ d ∈ dt_nodes t.
Proof. intros Hx. destruct (to_idom _ _ _ Hok x d Hx) as (? & ? & _). done. Qed.

Lemma dominators_step x d e : idom t x = Some d → dom e x ↔ e = x ∨ dom e d.
Proof.
  intros Hx. destruct (to_idom _ _ _ Hok x d Hx) as (_ & _ & _ & Hdx & Hall). split.
  - intros He. destruct (decide (e = x)); [by left|right]. by apply Hall.
  - intros [->|He]; [apply all_paths_refl|by eapply all_paths_trans].
Qed.

(** The chain of a node is the list of its dominators. *)
Lemma chain_dominators x l : x ∈ dt_nodes t → chain_of x l → ∀ e, e ∈ l ↔ dom e x.
Proof.
  intros Hx Hc. induction Hc as [x Hno|x d l Hd _ IH]; intros e.
  - apply (to_total _ _ _ Hok x Hx) in Hno as ->. rewrite list_elem_of_singleton. split.
    + intros ->. apply all_paths_refl.
    + apply all_paths_entry.
  - rewrite elem_of_cons, (IH (proj2 (in_tree x d Hd))), (dominators_step x d e Hd). done.
Qed.

Lemma chain_spec fuel x l : chain_of x l → length l ≤ fuel → chain fuel t x = Ret l.
Proof.
  intros Hc. revert fuel. induction Hc as [x Hno|x d l Hd Hc IH]; intros [|fuel] Hf; simpl in Hf; try lia; simpl.
  - by rewrite Hno.
  - rewrite Hd, IH by lia. done.
Qed.

Lemma walk_up_spec fuel a x l :
  chain_of x l → length l ≤ fuel → walk_up fuel t a x = Ret (bool_decide (a ∈ tail l)).
Proof.
  intros Hc. revert fuel. induction Hc as [x Hno|x d l Hd Hc IH]; intros [|fuel] Hf; simpl in Hf; try lia; simpl.
  - by rewrite Hno.
  - rewrite Hd. destruct (chain_head _ _ Hc) as (l' & ->). destruct (Z.eqb_spec d a) as [->|Hne].
    + by rewrite bool_decide_true by (left).
    + rewrite IH by lia. simpl. f_equal. apply bool_decide_ext. set_solver.
Qed.

Lemma dominates_spec a b :
  b ∈ dt_nodes t → ∃ r, dominates t a b = Ret r ∧ (r = true ↔ dom a b).
Proof.
  intros Hb. unfold dominates. destruct (Z.eqb_spec a b) as [->|Hne].
  { exists true. split; [done|]. split; [intros _; apply all_paths_refl|done]. }
  rewrite (bool_decide_true (b ∈ _)) by done. destruct (decide (a ∈ dt_nodes t)) as [Ha|Ha].
  - rewrite (bool_decide_true (a ∈ _)) by done. cbn [negb orb].
    destruct (chain_exists b) as (l & Hl). rewrite (walk_up_spec _ a b l Hl (chain_length b l Hl)).
    eexists. split; [done|]. rewrite bool_decide_eq_true.
    rewrite <-(chain_dominators b l Hb Hl). destruct (chain_head _ _ Hl) as (l' & ->). set_solver.
  - rewrite (bool_decide_false (a ∈ _)) by done. exists false. split; [done|]. split; [done|].
    intros Hd. destruct Ha. apply (to_nodes _ _ _ Hok). eapply all_paths_reach; [|done].
    by apply (to_nodes _ _ _ Hok).
Qed.

Lemma dominates_outside a b :
  b ∉ dt_nodes t → dominates t a b = Ret (a =? b)%Z.
Proof.
  intros Hb. unfold dominates. destruct (a =? b)%Z; [done|].
  rewrite (bool_decide_false (b ∈ _)) by done. by rewrite orb_true_r.
Qed.

Lemma dominators_of_spec x : x ∈ dt_nodes t →
  ∃ ds, dominators_of t x = Ret ds ∧ ∀ e, e ∈ ds ↔ dom e x.
Proof.
  intros Hx. destruct (chain_exists x) as (l & Hl). unfold dominators_of.
  rewrite bool_decide_true by done. cbn [negb]. rewrite (chain_spec _ x l Hl (chain_length x l Hl)).
  eexists. split; [done|]. intros e. rewrite elem_of_list_to_set. by apply chain_dominators.
Qed.

(** ** The guaranteed path *)

Lemma chain_sorted x l i j a b :
  x ∈ dt_nodes t → chain_of x l → i ≤ j → l !! i = Some a → l !! j = Some b → dom b a.
Proof.
  intros Hx Hc. revert i j. induction Hc as [x Hno|x d l Hd Hc IH]; intros i j Hij Hi Hj.
  - apply list_lookup_singleton_Some in Hi as [-> <-], Hj as [-> <-]. apply all_paths_refl.
  - destruct i as [|i].
    + simpl in Hi. injection Hi as <-. apply (chain_dominators x (x :: l)); [done|by econstructor|].
      by eapply list_elem_of_lookup_2.
    + destruct j as [|j]; [lia|]. apply (IH (proj2 (in_tree x d Hd)) i j); [lia|done..].
Qed.

Lemma guaranteed_path_spec x : x ∈ dt_nodes t →
  ∃ l, guaranteed_execution_path t x = Ret l ∧ (∀ e, e ∈ l ↔ dom e x) ∧
    ∀ i j a b, i ≤ j → l !! i = Some a → l !! j = Some b → dom a b.
Proof.
  intros Hx. destruct (chain_exists x) as (l & Hl). unfold guaranteed_execution_path.
  rewrite bool_decide_true by done. cbn [negb]. rewrite (chain_spec _ x l Hl (chain_length x l Hl)).
  exists (rev l). split; [done|]. assert (rev l = reverse l) as -> by apply rev_alt. split.
  - intros e. rewrite elem_of_reverse. by apply chain_dominators.
  - intros i j a b Hij Hi Hj. rewrite reverse_lookup_Some in Hi, Hj. destruct Hi as [Hi ?], Hj as [Hj ?].
    eapply chain_sorted; [exact Hx|exact Hl| |exact Hj|exact Hi]. lia.
Qed.

(** ** The nearest common dominator *)

Lemma chain_fun x l l' : chain_of x l → chain_of x l' → l = l'.
Proof.
  intros Hc. revert l'. induction Hc as [x Hno|x d l Hd _ IH]; intros l'; inversion 1; subst; try congruence.
  f_equal. apply IH. by assert (d = d0) as -> by congruence.
Qed.

Lemma dom_chain_length a b la lb :
  b ∈ dt_nodes t → dom a b → chain_of a la → chain_of b lb →
  length la ≤ length lb ∧ (length la = length lb → a = b).
Proof.
  intros Hb Hab Ha Hc. induction Hc as [b Hno|b d l Hd Hc IH].
  - apply (to_total _ _ _ Hok b Hb) in Hno as Heq. subst b. apply all_paths_entry in Hab as ->.
    inversion Ha; subst; [done|congruence].
  - apply (dominators_step b d a Hd) in Hab as [->|Had].
    + by rewrite (chain_fun _ _ _ Ha (chain_next _ _ _ Hd Hc)).
    + destruct (IH (proj2 (in_tree b d Hd)) Had) as [Hle _]. simpl. split; [lia|lia].
Qed.

Lemma dom_antisym a b : a ∈ dt_nodes t → b ∈ dt_nodes t → dom a b → dom b a → a = b.
Proof.
  intros Ha Hb Hab Hba. destruct (chain_exists a) as (la & Hla), (chain_exists b) as (lb & Hlb).
  destruct (dom_chain_length a b la lb Hb Hab Hla Hlb) as [H1 H2].
  destruct (dom_chain_length b a lb la Ha Hba Hlb Hla) as [H3 _]. apply H2. lia.
Qed.

Lemma chain_depth x l : x ∈ dt_nodes t → chain_of x l → depth t x = Some (Z.of_nat (length l) - 1)%Z.
Proof.
  intros Hx Hc. induction Hc as [x Hno|x d l Hd _ IH].
  - apply (to_total _ _ _ Hok x Hx) in Hno as ->. apply (to_root_depth _ _ _ Hok).
  - destruct (to_depth _ _ _ Hok x d Hd) as (z & Hz & _ & ->).
    rewrite (IH (proj2 (in_tree x d Hd))) in Hz. simplify_eq. simpl. f_equal. lia.
Qed.

(** Climbing from a deeper node keeps the common dominators. *)
Lemma climb_spec m a b la lb :
  a ∈ dt_nodes t → b ∈ dt_nodes t → chain_of a la → chain_of b lb → m + length lb ≤ length la →
  ∃ a' la', climb m t a = Some a' ∧ a' ∈ dt_nodes t ∧ chain_of a' la' ∧ length la' = length la - m ∧
    ∀ e, dom e a ∧ dom e b ↔ dom e a' ∧ dom e b.
Proof.
  intros Ha Hb Hla Hlb. revert a la Ha Hla. induction m as [|m IH]; intros a la Ha Hla Hm.
  { exists a, la. split_and!; [done..|lia|done]. }
  destruct (chain_head _ _ Hlb) as (lb' & ->). simpl in *.
  inversion Hla as [? Hno|? d l Hd Hl]; subst; [simpl in Hm; lia|].
  rewrite Hd. cbn [mbind option_bind]. simpl in Hm.
  destruct (IH d l (proj2 (in_tree a d Hd)) Hl ltac:(lia)) as (a' & la' & Hc & Ha' & Hla' & Hlen & Hdom).
  exists a', la'. split_and!; [done..|]. intros e. rewrite <-Hdom, (dominators_step a d e Hd).
  split; [|by intros [? ?]; split; [right|]]. intros [[->|He] Heb]; [|done].
  destruct (dom_chain_length a b _ _ Hb Heb Hla Hlb). simpl in *. lia.
Qed.

Lemma climb_together_spec fuel a b la lb :
  a ∈ dt_nodes t → b ∈ dt_nodes t → chain_of a la → chain_of b lb → length la = length lb →
  length la ≤ fuel →
  ∃ d, climb_together fuel t a b = Ret (Some d) ∧ d ∈ dt_nodes t ∧ ∀ e, dom e a ∧ dom e b ↔ dom e d.
Proof.
  revert a b la lb. induction fuel as [|fuel IH]; intros a b la lb Ha Hb Hla Hlb Heq Hf.
  { destruct (chain_head _ _ Hla) as (? & ->). simpl in Hf. lia. }
  simpl. destruct (Z.eqb_spec a b) as [->|Hne].
  { exists b. split_and!; [done..|]. intros e. tauto. }
  assert (∀ x y, x ∈ dt_nodes t → y ∈ dt_nodes t → idom t x = None → idom t y = None → x = y) as Hroot.
  { intros x y Hx Hy Hxn Hyn. by rewrite (proj1 (to_total _ _ _ Hok x Hx) Hxn), (proj1 (to_total _ _ _ Hok y Hy) Hyn). }
  pose proof (dom_chain_length a b la lb Hb) as Hab. pose proof (dom_chain_length b a lb la Ha) as Hba.
  inversion Hla as [? Hno|? d l Hd Hl]; inversion Hlb as [? Hno'|? d' l' Hd' Hl']; subst; simpl in *.
  - by destruct Hne; apply Hroot.
  - destruct (chain_head _ _ Hl') as (? & ->). simpl in *. lia.
  - destruct (chain_head _ _ Hl) as (? & ->). simpl in *. lia.
  - rewrite Hd, Hd'. destruct (IH d d' l l') as (r & Hr & Hrn & Hdom);
      [by eapply in_tree|by eapply in_tree|done|done|lia|lia|].
    exists r. split_and!; [done..|]. intros e. rewrite <-Hdom.
    rewrite (dominators_step a d e Hd), (dominators_step b d' e Hd').
    split; [|by intros [? ?]; split; right].
    intros [[->|He] [He'|He']]; try done.
    + destruct Hne. apply Hab; [|done..]. by apply (dominators_step b d' a Hd'); right.
    + subst e. destruct Hne. symmetry. apply Hba; [|done|done|lia].
      by apply (dominators_step a d b Hd); right.
Qed.

Lemma nearest_spec a b : a ∈ dt_nodes t → b ∈ dt_nodes t →
  ∃ d, nearest_common_dominator t a b = Ret (Some d) ∧ d ∈ dt_nodes t ∧
    ∀ e, dom e a ∧ dom e b ↔ dom e d.
Proof.
  intros Ha Hb. unfold nearest_common_dominator. rewrite !bool_decide_true by done. cbn [negb orb].
  destruct (Z.eqb_spec a b) as [->|Hne]; [exists b; split_and!; [done..|]; intros e; tauto|].
  destruct (chain_exists a) as (la & Hla), (chain_exists b) as (lb & Hlb).
  rewrite (chain_depth a la Ha Hla), (chain_depth b lb Hb Hlb).
  set (da := Z.to_nat _). set (db := Z.to_nat _).
  assert (da = length la - length lb ∧ db = length lb - length la) as [Hda Hdb] by lia.
  destruct (le_ge_dec (length lb) (length la)) as [Hle|Hle].
  - destruct (climb_spec da a b la lb Ha Hb Hla Hlb ltac:(lia)) as (a' & la' & -> & Ha' & Hla' & Hlen & Hdom).
    assert (db = 0) as -> by lia. simpl climb.
    pose proof (chain_length _ _ Hla'). setoid_rewrite Hdom.
    apply (climb_together_spec _ a' b la' lb); [done..|lia|done].
  - destruct (climb_spec db b a lb la Hb Ha Hlb Hla ltac:(lia)) as (b' & lb' & -> & Hb' & Hlb' & Hlen & Hdom).
    assert (da = 0) as -> by lia. simpl climb.
    pose proof (chain_length _ _ Hla).
    destruct (climb_together_spec (chain_fuel t) a b' la lb') as (d & Hd & Hdn & Hde); [done..|lia|done|].
    exists d. split_and!; [done..|]. intros e. rewrite <-Hde, (and_comm (dom e a)), Hdom. tauto.
Qed.

(** ** The frontier *)

(** [a] dominates [r] and not strictly [node]. *)
Definition escapes (node a : Z) : Prop := ¬ (a ≠ node ∧ dom a node).

Lemma escapes_idom node a : node ∈ dt_nodes t →
  escapes node a ↔ ∀ i, idom t node = Some i → ¬ dom a i.
Proof.
  intros Hn. unfold escapes. split.
  - intros He i Hi Ha. apply He. destruct (in_tree node i Hi) as [_ Hin]. split.
    + intros ->. destruct (to_idom _ _ _ Hok node i Hi) as (_ & _ & Hne & Hdom & _).
      by apply Hne, dom_antisym.
    + apply (dominators_step node i a Hi). by right.
  - intros Hall [Hne Ha]. destruct (idom t node) as [i|] eqn:Hi.
    + apply (dominators_step node i a Hi) in Ha as [?|Ha]; [done|]. by apply (Hall i).
    + apply (to_total _ _ _ Hok node Hn) in Hi as ->. by apply all_paths_entry in Ha.
Qed.

Definition in_frontier (df : gmap Z (gset Z)) (a b : Z) : Prop := b ∈ default ∅ (df !! a).

Lemma in_frontier_add df x node a b :
  in_frontier (<[x := {[node]} ∪ default ∅ (df !! x)]> df) a b ↔
  in_frontier df a b ∨ (b = node ∧ a = x).
Proof.
  unfold in_frontier. destruct (decide (a = x)) as [->|Hne].
  - rewrite lookup_insert_eq. simpl. set_solver.
  - rewrite lookup_insert_ne by done. naive_solver.
Qed.

Lemma frontier_walk_spec fuel node x l df :
  x ∈ dt_nodes t → chain_of x l → length l ≤ fuel → (∀ i, idom t node = Some i → dom i x) →
  ∃ df', frontier_walk fuel t node x df = Ret df' ∧
    ∀ a b, in_frontier df' a b ↔
      in_frontier df a b ∨ (b = node ∧ dom a x ∧ ∀ i, idom t node = Some i → ¬ dom a i).
Proof.
  intros Hx Hc. revert fuel df Hx. induction Hc as [x Hno|x d l Hd Hc IH];
    intros [|fuel] df Hx Hf Hi; simpl in Hf; try lia; simpl; case_decide as Hstop.
  1, 3: exists df; split; [done|]; intros a b; split; [by left|];
    intros [?|(_ & Ha & Hn)]; [done|by destruct (Hn x Hstop)].
  - rewrite Hno. eexists. split; [done|]. intros a b. rewrite in_frontier_add.
    apply (to_total _ _ _ Hok x Hx) in Hno as Heq. subst x.
    split; (intros [?|[? Ha]]; [by left|right]).
    + subst. split_and!; [done|apply all_paths_refl|]. intros i Hni Hei.
      destruct (in_tree node i Hni) as [_ Hin].
      by rewrite (dom_antisym i entry Hin Hx (Hi i Hni) Hei) in Hni.
    + destruct Ha as [Ha _]. split; [done|]. by apply all_paths_entry in Ha.
  - rewrite Hd. destruct (in_tree x d Hd) as [_ Hdn].
    destruct (IH fuel (<[x := {[node]} ∪ default ∅ (df !! x)]> df) Hdn ltac:(lia)) as (df' & Hr & Hdf').
    { intros i Hni. destruct (proj1 (dominators_step x d i Hd) (Hi i Hni)) as [->|]; [congruence|done]. }
    exists df'. split; [done|]. intros a b. rewrite Hdf', in_frontier_add, (dominators_step x d a Hd).
    assert (∀ i, idom t node = Some i → ¬ dom x i) as Hxi.
    { intros i Hni Hxi. destruct (in_tree node i Hni) as [_ Hin].
      by rewrite (dom_antisym i x Hin Hx (Hi i Hni) Hxi) in Hni. }
    split; [|naive_solver]. intros [[?|[-> ->]]|?]; [by left| |naive_solver]. right. naive_solver.
Qed.

Section frontier.
  Context (s : SCG) (order : list Z).
  Context (Hpreds : ∀ b l, SCG_predecessors s b = Some l → ∀ a, a ∈ l ↔ R a b).
  Context (Horder : ∀ x, x ∈ order ↔ x ∈ dt_nodes t).
  #[local] Set Default Proof Using "All".

(** A node is a join when it has at least two predecessors. *)
Definition is_join (b : Z) : Prop :=
  ∃ l, SCG_predecessors s b = Some l ∧ 2 ≤ length l.

Definition frontier_of (a b : Z) : Prop := ∃ r, R r b ∧ r ∈ dt_nodes t ∧ dom a r ∧ escapes b a.

Lemma idom_above_pred node i r : idom t node = Some i → R r node → dom i r.
Proof.
  intros Hi Hr l Hl. destruct (to_idom _ _ _ Hok node i Hi) as (_ & _ & Hne & Hdom & _).
  specialize (Hdom _ (path_snoc R _ _ _ _ Hl Hr)).
  apply elem_of_app in Hdom as [?|?%list_elem_of_singleton]; done.
Qed.

Lemma frontier_node_spec df node : node ∈ dt_nodes t →
  ∃ df', frontier_node s t df node = Ret df' ∧
    ∀ a b, in_frontier df' a b ↔ in_frontier df a b ∨ (b = node ∧ is_join node ∧ frontier_of a node).
Proof.
  intros Hn. unfold frontier_node, is_join.
  destruct (SCG_predecessors s node) as [l|] eqn:Hl.
  2:{ exists df. split; [done|]. intros a b. split; [by left|]. intros [?|(_ & (? & ? & _) & _)]; done. }
  destruct (decide (2 ≤ length l)) as [Hlen|Hlen].
  2:{ exists df. split; [done|]. intros a b. split; [by left|].
      intros [?|(_ & (l' & [= <-] & ?) & _)]; done. }
  destruct (for_each_ind (frontier_runner t node) (λ done df', ∀ a b, in_frontier df' a b ↔
    in_frontier df a b ∨ (b = node ∧ ∃ r, r ∈ done ∧ r ∈ dt_nodes t ∧ dom a r ∧ escapes node a)) l df)
    as (df' & Hr & Hdf').
  - intros a b. split; [by left|]. intros [?|(_ & r & Hr & _)]; [done|by apply elem_of_nil in Hr].
  - intros l1 r l2 df1 Hl12 Hdf1. unfold frontier_runner.
    destruct (decide (r ∈ dt_nodes t)) as [Hrt|Hrt].
    + destruct (chain_exists r) as (lr & Hlr).
      assert (R r node) as Hrn by (apply (Hpreds node l Hl); rewrite Hl12; set_solver).
      destruct (frontier_walk_spec (chain_fuel t) node r lr df1 Hrt Hlr (chain_length r lr Hlr)) as (df2 & Hw & Hdf2).
      { intros i Hi. by apply (idom_above_pred node i r). }
      exists df2. split; [done|]. intros a b.
      rewrite Hdf2, Hdf1, <-(escapes_idom node a Hn). split.
      * intros [[?|(-> & r' & Hr' & Hrest)]|(-> & Ha & Hesc)]; [by left|right..]; (split; [done|]).
        -- exists r'. split; [set_solver|done].
        -- exists r. split; [set_solver|done].
      * intros [?|(-> & r' & Hr' & Hr't & Ha & Hesc)]; [by left; left|].
        apply elem_of_app in Hr' as [Hr'| ->%list_elem_of_singleton]; [left; right|by right].
        split; [done|]. by exists r'.
    + exists df1. split; [done|]. intros a b. rewrite Hdf1. split.
      * intros [?|(-> & r' & Hr' & Hrest)]; [by left|right]. split; [done|]. exists r'.
        split; [set_solver|done].
      * intros [?|(-> & r' & Hr' & Hr't & Hrest)]; [by left|right]. split; [done|]. exists r'.
        apply elem_of_app in Hr' as [Hr'| ->%list_elem_of_singleton]; [by split|done].
  - exists df'. split; [done|]. intros a b. rewrite Hdf'. unfold frontier_of.
    setoid_rewrite (Hpreds node l Hl). split; (intros [?|(-> & Hrest)]; [by left|right]); (split; [done|]).
    + split; [by exists l|done].
    + by destruct Hrest.
Qed.

Lemma frontier_spec :
  ∃ df, find_dominance_frontier s t order = Ret df ∧
    ∀ a b, in_frontier df a b ↔ b ∈ dt_nodes t ∧ is_join b ∧ frontier_of a b.
Proof.
  unfold find_dominance_frontier.
  destruct (for_each_ind (frontier_node s t) (λ done df, ∀ a b, in_frontier df a b ↔
    b ∈ done ∧ is_join b ∧ frontier_of a b) order ∅) as (df & Hr & Hdf).
  - intros a b. unfold in_frontier. rewrite lookup_empty. simpl. set_solver.
  - intros l1 x l2 df1 Hl Hdf1. destruct (frontier_node_spec df1 x) as (df2 & Hr & Hdf2).
    { apply Horder. rewrite Hl. set_solver. }
    exists df2. split; [done|]. intros a b. rewrite Hdf2, Hdf1, elem_of_app, list_elem_of_singleton.
    split; [intros [(? & ? & ?)|(-> & ? & ?)]; auto|intros ([?| ->] & ? & ?); auto].
  - exists df. split; [done|]. intros a b. by rewrite Hdf, Horder.
Qed.

(** With one predecessor, a node other than the entry is in no frontier, so leaving such nodes
    out is right for all but the entry. *)
Lemma frontier_needs_join a b :
  b ∈ dt_nodes t → b ≠ entry → is_Some (SCG_predecessors s b) → frontier_of a b → is_join b.
Proof.
  intros Hb Hne [l Hl] (r & Hr & Hrt & Ha & Hesc). exists l. split; [done|].
  pose proof (proj2 (Hpreds b l Hl r) Hr) as Hrl.
  destruct l as [|r' [|]]; simpl; [by apply elem_of_nil in Hrl| |lia].
  apply list_elem_of_singleton in Hrl as <-. exfalso.
  assert (∀ l, is_path R entry l b → ∃ l', is_path R entry l' r ∧ length l' < length l ∧ l' ⊆ l) as Hback.
  { intros l Hp. destruct (path_last R _ _ _ Hp) as [[Heq _]|(c & l' & Hl' & Hc & ->)]; [by destruct Hne|].
    apply (Hpreds b [r] Hl) in Hc as ->%list_elem_of_singleton. exists l'.
    split_and!; [done|rewrite length_app; simpl; lia|set_solver]. }
  assert (r ≠ b) as Hrb.
  { intros Heq. apply (to_nodes _ _ _ Hok) in Hb as [l Hp]%rtc_path.
    remember (length l) as m eqn:Hm. revert l Hm Hp.
    induction m as [m IH] using lt_wf_ind. intros l -> Hp.
    destruct (Hback l Hp) as (l' & Hp' & Hlt & _). rewrite Heq in Hp'.
    by apply (IH (length l') Hlt l'). }
  assert (dom r b) as Hrdom.
  { intros l Hp. destruct (Hback l Hp) as (l' & Hp' & _ & Hsub). apply Hsub. by destruct (path_ends R _ _ _ Hp'). }
  apply Hesc. split; [|by eapply all_paths_trans].
  intros ->. by apply Hrb, dom_antisym.
Qed.
End frontier.

(** ** Subtrees *)

Section subtrees.
  Context (order : list (Z * Z)) (Horder : order ≡ₚ map_to_list (dt_idom t)).
  #[local] Set Default Proof Using "All".

Lemma elem_of_children n c : c ∈ children order n ↔ idom t c = Some n.
Proof.
  unfold children. rewrite list_elem_of_omap. split.
  - intros ([x y] & Hin & Hx). rewrite Horder in Hin. apply elem_of_map_to_list in Hin.
    destruct (Z.eqb_spec y n) as [->|]; by simplify_eq.
  - intros Hc. exists (c, n). rewrite Horder, Z.eqb_refl. split; [|done].
    by apply elem_of_map_to_list.
Qed.

Lemma children_dom n c : c ∈ children order n → dom n c.
Proof.
  intros Hc%elem_of_children. apply (dominators_step c n n Hc). right. apply all_paths_refl.
Qed.

Lemma push_children (l rest : list Z) : fold_left (λ st c, c :: st) l rest = rev l ++ rest.
Proof. revert rest. induction l as [|x l IH]; intros rest; [done|]. simpl. by rewrite IH, <-app_assoc. Qed.

(** What is below [x], found by a closed set. *)
Lemma dominated_closed x (rs : gset Z) :
  x ∈ rs → (∀ y c, y ∈ rs → idom t c = Some y → c ∈ rs) →
  ∀ y, y ∈ dt_nodes t → dom x y → y ∈ rs.
Proof.
  intros Hx Hcl y Hy. destruct (chain_exists y) as (l & Hl). induction Hl as [y Hno|y d l Hd _ IH]; intros Hxy.
  - apply (to_total _ _ _ Hok y Hy) in Hno as Heq. subst y. by apply all_paths_entry in Hxy as ->.
  - apply (dominators_step y d x Hd) in Hxy as [->|Hxd]; [done|].
    apply (Hcl d); [|done]. apply IH; [by eapply in_tree|done].
Qed.

(** Table entries whose parent is not collected yet. *)
Definition uncollected (rs : gset Z) : nat := length (filter (λ q : Z * Z, q.2 ∉ rs) order).

Lemma uncollected_visit n rs :
  n ∉ rs → uncollected ({[n]} ∪ rs) + length (children order n) ≤ uncollected rs.
Proof.
  clear Horder. unfold uncollected, children. intros Hn. induction order as [|[c q] l IH]; [done|].
  rewrite !filter_cons. cbn [omap list_omap snd]. destruct (Z.eqb_spec q n) as [->|Hne].
  - rewrite (decide_False (P := n ∉ {[n]} ∪ rs)), decide_True by set_solver. simpl. lia.
  - destruct (decide (q ∈ rs)).
    + rewrite !decide_False by set_solver. done.
    + rewrite !decide_True by set_solver. simpl. lia.
Qed.

Lemma subtree_loop_spec fuel x stack rs :
  length stack + uncollected rs < fuel →
  (∀ y, y ∈ rs ∨ y ∈ stack → y ∈ dt_nodes t ∧ dom x y) → x ∈ rs ∨ x ∈ stack →
  (∀ y c, y ∈ rs → idom t c = Some y → c ∈ rs ∨ c ∈ stack) →
  ∃ rs', subtree_loop fuel order stack rs = Ret rs' ∧ ∀ y, y ∈ rs' ↔ y ∈ dt_nodes t ∧ dom x y.
Proof.
  revert stack rs. induction fuel as [|fuel IH]; intros stack rs Hf Hin Hx Hcl; [lia|]. simpl.
  destruct stack as [|n rest].
  - exists rs. split; [done|]. intros y. split; [intros Hy; apply Hin; by left|]. intros [Hy Hxy].
    apply (dominated_closed x rs); [|..|done|done].
    + destruct Hx as [?|?%elem_of_nil]; done.
    + intros z c Hz Hc. destruct (Hcl z c Hz Hc) as [?|?%elem_of_nil]; done.
  - simpl in Hf. case_decide as Hn.
    + apply IH; [lia|set_solver|set_solver|]. intros y c Hy Hc.
      destruct (Hcl y c Hy Hc) as [?|[->|?]%elem_of_cons]; auto.
    + rewrite push_children. pose proof (uncollected_visit n rs Hn).
      assert (∀ y, y ∈ rev (children order n) ↔ idom t y = Some n) as Hch.
      { intros y. rewrite <-elem_of_children. rewrite <-(Permutation_rev (children order n)). done. }
      destruct (Hin n) as [Hnt Hxn]; [right; by left|].
      apply IH.
      * rewrite length_app, length_rev. lia.
      * intros y. rewrite elem_of_app, Hch. intros [Hy|[Hy|Hy]].
        -- apply elem_of_union in Hy as [->%elem_of_singleton|Hy]; [done|]. apply Hin. by left.
        -- split; [by destruct (in_tree y n Hy)|]. apply (dominators_step y n x Hy). by right.
        -- apply Hin. right. by right.
      * rewrite elem_of_app. destruct Hx as [?|[->|?]%elem_of_cons]; set_solver.
      * intros y c Hy Hc. rewrite elem_of_app, Hch.
        apply elem_of_union in Hy as [->%elem_of_singleton|Hy]; [by right; left|].
        destruct (Hcl y c Hy Hc) as [?|[->|?]%elem_of_cons]; set_solver.
Qed.

Lemma dominated_by_spec x : x ∈ dt_nodes t →
  ∃ rs, dominated_by order t x = Ret rs ∧ ∀ y, y ∈ rs ↔ y ∈ dt_nodes t ∧ dom x y.
Proof.
  intros Hx. unfold dominated_by. rewrite bool_decide_true by done. cbn [negb].
  apply subtree_loop_spec.
  - assert (uncollected ∅ ≤ length order) by apply length_filter. simpl. lia.
  - intros y [?| ->%list_elem_of_singleton]; [set_solver|]. split; [done|apply all_paths_refl].
  - right. by left.
  - set_solver.
Qed.

(** ** The postorder *)

Definition below (n y : Z) : bool := match dominates t n y with Ret r => r | Panic => false end.

Lemma below_spec n y : y ∈ dt_nodes t → below n y = true ↔ dom n y.
Proof.
  intros Hy. unfold below. by destruct (dominates_spec n y Hy) as (r & -> & Hr).
Qed.

Definition sub (n : Z) : list Z := filter (λ y, below n y = true) (elements (dt_nodes t)).

Lemma elem_of_sub n y : y ∈ sub n ↔ y ∈ dt_nodes t ∧ dom n y.
Proof.
  unfold sub. rewrite list_elem_of_filter, elem_of_elements. split.
  - intros [Hb Hy]. split; [done|]. by apply below_spec.
  - intros [Hy Hd]. split; [by apply below_spec|done].
Qed.

Lemma sub_NoDup n : NoDup (sub n).
Proof. apply NoDup_filter, NoDup_elements. Qed.

Lemma children_NoDup n : NoDup (children order n).
Proof.
  assert (NoDup order.*1) as Hnd by (rewrite Horder; apply NoDup_fst_map_to_list).
  clear Horder. unfold children. induction order as [|[c q] l IH]; [constructor|].
  apply NoDup_cons in Hnd as [Hc Hnd]. cbn [omap list_omap]. destruct (q =? n)%Z; [|by apply IH].
  constructor; [|by apply IH]. intros ([c' q'] & Hin & Heq)%list_elem_of_omap.
  destruct (q' =? n)%Z; simplify_eq. apply Hc, list_elem_of_fmap. by exists (c, q').
Qed.

Lemma child_not_above n c : idom t c = Some n → ¬ dom c n.
Proof.
  intros Hc Hd. destruct (to_idom _ _ _ Hok c n Hc) as (Hct & Hnt & Hne & Hnc & _).
  by apply Hne, dom_antisym.
Qed.

Lemma siblings_apart n c c' y : y ∈ dt_nodes t →
  idom t c = Some n → idom t c' = Some n → dom c y → dom c' y → c = c'.
Proof.
  intros Hy Hc Hc' Hcy Hcy'. destruct (chain_exists y) as (l & Hl).
  apply (chain_dominators y l Hy Hl) in Hcy, Hcy'.
  apply list_elem_of_lookup in Hcy as [i Hi], Hcy' as [j Hj].
  assert (dom c c' ∨ dom c' c) as [Hd|Hd].
  { destruct (le_ge_dec i j).
    - right. exact (chain_sorted y l i j c c' Hy Hl ltac:(lia) Hi Hj).
    - left. exact (chain_sorted y l j i c' c Hy Hl ltac:(lia) Hj Hi). }
  - apply (dominators_step c' n c Hc') in Hd as [?|Hd]; [done|]. by destruct (child_not_above n c Hc).
  - apply (dominators_step c n c' Hc) in Hd as [?|Hd]; [done|]. by destruct (child_not_above n c' Hc').
Qed.

Lemma sub_unfold n : n ∈ dt_nodes t → sub n ≡ₚ n :: (children order n ≫= sub).
Proof.
  intros Hn. apply NoDup_Permutation; [apply sub_NoDup| |].
  - constructor.
    + intros (c & Hnc & Hc)%list_elem_of_bind. apply elem_of_sub in Hnc as [_ Hd].
      apply elem_of_children in Hc. by apply (child_not_above n c).
    + apply NoDup_bind; [|intros; apply sub_NoDup|apply children_NoDup].
      intros c c' y Hc Hc' [Hy Hcy]%elem_of_sub [_ Hcy']%elem_of_sub.
      apply elem_of_children in Hc, Hc'. by apply (siblings_apart n c c' y).
  - intros y. rewrite elem_of_sub, elem_of_cons, list_elem_of_bind. split.
    + intros [Hy Hny]. destruct (decide (y = n)); [by left|right].
      destruct (chain_exists y) as (l & Hl). induction Hl as [y Hno|y d l Hd _ IH].
      * apply (to_total _ _ _ Hok y Hy) in Hno as Heq. subst y. by apply all_paths_entry in Hny.
      * apply (dominators_step y d n Hd) in Hny as [?|Hnd]; [done|]. destruct (in_tree y d Hd) as [_ Hdt].
        destruct (decide (d = n)) as [->|Hdn].
        -- exists y. split; [apply elem_of_sub; split; [done|apply all_paths_refl]|by apply elem_of_children].
        -- destruct (IH Hdt Hnd Hdn) as (c & Hcd & Hc). exists c. split; [|done].
           apply elem_of_sub in Hcd as [_ Hcd]. apply elem_of_sub. split; [done|].
           apply (dominators_step y d c Hd). by right.
    + intros [->|(c & Hc & Hcn)]; [split; [done|apply all_paths_refl]|].
      apply elem_of_sub in Hc as [Hy Hcy]. split; [done|]. eapply all_paths_trans; [|done].
      by apply children_dom.
Qed.

Definition expand (e : Z * bool) : list Z := if e.2 then [e.1] else sub e.1.
Definition effort (stack : list (Z * bool)) : nat :=
  sum_list (map (λ e : Z * bool, if e.2 then 1 else 2 * length (sub e.1)) stack).

(** Whoever waits to be emitted has its children above it on the stack, or emitted. *)
Fixpoint awaits (seen : list Z) (stack : list (Z * bool)) : Prop :=
  match stack with
  | [] => True
  | (n, b) :: rest => (b = true → ∀ c, c ∈ children order n → c ∈ seen) ∧ awaits (n :: seen) rest
  end.

Lemma awaits_mono seen seen' stack : seen ⊆ seen' → awaits seen stack → awaits seen' stack.
Proof.
  revert seen seen'. induction stack as [|[n b] rest IH]; [done|].
  intros seen seen' Hs [Hb Hr]. split; [by intros Hbt c Hc; apply Hs, Hb|].
  apply (IH (n :: seen)); [|done]. set_solver.
Qed.

Lemma awaits_push seen chs stack :
  awaits (chs ++ seen) stack → awaits seen (map (λ c, (c, false)) chs ++ stack).
Proof.
  revert seen. induction chs as [|c chs IH]; intros seen Hs; [done|]. split; [done|].
  apply IH. eapply awaits_mono; [|exact Hs]. set_solver.
Qed.

(** Children come before their parents. *)
Definition children_first (l : list Z) : Prop :=
  ∀ j d, l !! j = Some d → ∀ c, idom t c = Some d → ∃ i, i < j ∧ l !! i = Some c.

Lemma children_first_snoc l n :
  children_first l → (∀ c, c ∈ children order n → c ∈ l) → children_first (l ++ [n]).
Proof.
  intros Hl Hn j d Hj c Hc. apply lookup_app_Some in Hj as [Hj|[Hge Hj]].
  - destruct (Hl j d Hj c Hc) as (i & Hi & Hic). exists i. split; [done|]. by apply lookup_app_l_Some.
  - apply list_lookup_singleton_Some in Hj as [? ->].
    apply elem_of_children, Hn, list_elem_of_lookup in Hc as [i Hi]. exists i.
    split; [apply lookup_lt_Some in Hi; lia|]. by apply lookup_app_l_Some.
Qed.

Lemma push_false (l : list Z) stack :
  fold_left (λ st c, (c, false) :: st) l stack = map (λ c, (c, false)) (rev l) ++ stack.
Proof.
  revert stack. induction l as [|x l IH]; intros stack; [done|].
  simpl. by rewrite IH, map_app, <-app_assoc.
Qed.

Lemma expand_false (l : list Z) : map (λ c : Z, (c, false)) l ≫= expand = l ≫= sub.
Proof. induction l as [|x l IH]; [done|]. cbn [map mbind list_bind]. by rewrite IH. Qed.

Lemma effort_false (l : list Z) : effort (map (λ c : Z, (c, false)) l) = 2 * length (l ≫= sub).
Proof.
  unfold effort. induction l as [|x l IH]; [done|]. cbn [map sum_list list_sum mbind list_bind snd fst].
  rewrite length_app. simpl in *. lia.
Qed.

Lemma effort_cons e l : effort (e :: l) = (if e.2 then 1 else 2 * length (sub e.1)) + effort l.
Proof. done. Qed.

Lemma effort_app (l l' : list (Z * bool)) : effort (l ++ l') = effort l + effort l'.
Proof. unfold effort. induction l as [|e l IH]; simpl in *; lia. Qed.

Lemma postorder_loop_spec fuel stack result :
  effort stack < fuel → result ++ (stack ≫= expand) ≡ₚ elements (dt_nodes t) →
  (∀ n b, (n, b) ∈ stack → n ∈ dt_nodes t) → awaits result stack → children_first result →
  ∃ l, postorder_loop fuel order stack result = Ret l ∧ l ≡ₚ elements (dt_nodes t) ∧ children_first l.
Proof.
  revert stack result. induction fuel as [|fuel IH]; intros stack result Hf Hp Hin Hw Hc; [lia|].
  destruct stack as [|[n b] rest]; simpl.
  { rewrite app_nil_r in Hp. by exists result. }
  destruct Hw as [Hb Hw]. cbn [mbind list_bind] in Hp. destruct b.
  - rewrite effort_cons in Hf. simpl in Hf. apply IH; [lia| | | |].
    + rewrite <-Hp. by rewrite <-app_assoc.
    + intros m b Hm. apply (Hin m b). by right.
    + eapply awaits_mono; [|exact Hw]. set_solver.
    + apply children_first_snoc; [done|by apply Hb].
  - rewrite push_false.
    assert (n ∈ dt_nodes t) as Hn by (apply (Hin n false); by left).
    pose proof (sub_unfold n Hn) as Hsub.
    assert (rev (children order n) ≡ₚ children order n) as Hrev by (symmetry; apply Permutation_rev).
    assert (rev (children order n) ≫= sub ≡ₚ children order n ≫= sub) as Hbind by by rewrite Hrev.
    apply IH.
    + rewrite effort_cons in Hf. cbn [snd fst] in Hf. rewrite Hsub in Hf.
      rewrite effort_app, effort_false, Hbind, effort_cons. simpl in *. lia.
    + rewrite bind_app, expand_false, Hbind. cbn [mbind list_bind]. rewrite <-Hp.
      unfold expand at 1 3. cbn [snd fst]. rewrite Hsub. solve_Permutation.
    + intros m b. rewrite elem_of_app, (list_elem_of_fmap (λ c, (c, false))).
      intros [(c & [= -> ->] & Hc')|[[= -> ->]|Hm]%elem_of_cons]; [|done|by apply (Hin m b); right].
      rewrite Hrev in Hc'. apply elem_of_children in Hc'. by destruct (in_tree _ _ Hc').
    + apply awaits_push. split.
      * intros _ c Hc'. apply elem_of_app. left. by rewrite Hrev.
      * eapply awaits_mono; [|exact Hw]. intros z [->|Hz]%elem_of_cons; [by left|right].
        apply elem_of_app. by right.
    + done.
Qed.

Lemma postorder_spec :
  ∃ l, dom_tree_postorder order t = Ret l ∧ l ≡ₚ elements (dt_nodes t) ∧ children_first l.
Proof.
  assert (entry ∈ dt_nodes t) as He by (apply (to_nodes _ _ _ Hok); constructor).
  assert (sub entry ≡ₚ elements (dt_nodes t)) as Hsub.
  { apply NoDup_Permutation; [apply sub_NoDup|apply NoDup_elements|]. intros y.
    rewrite elem_of_sub, elem_of_elements. split; [by intros [? _]|]. intros Hy. split; [done|].
    intros l Hl. by destruct (path_ends R _ _ _ Hl). }
  unfold dom_tree_postorder. rewrite (to_entry _ _ _ Hok). apply postorder_loop_spec.
  - rewrite effort_cons. cbn [snd fst]. rewrite Hsub.
    change (length (elements (dt_nodes t))) with (size (dt_nodes t)).
    assert (size (dt_nodes t) ≤ S (length order)); [|change (effort []) with 0; lia].
    rewrite Horder. rewrite length_map_to_list, <-size_dom.
    assert (dt_nodes t ⊆ {[entry]} ∪ base.dom (dt_idom t)) as Hle%subseteq_size.
    { intros y Hy. destruct (idom t y) as [d|] eqn:Hd.
      - apply elem_of_union_r, elem_of_dom. by exists d.
      - apply (to_total _ _ _ Hok y Hy) in Hd as ->. set_solver. }
    rewrite size_union_alt, size_singleton in Hle.
    assert (base.dom (dt_idom t) ∖ {[entry]} ⊆ base.dom (dt_idom t)) as Hdiff%subseteq_size by apply subseteq_difference_l, reflexivity.
    lia.
  - simpl. rewrite app_nil_r. unfold expand. cbn [snd fst]. done.
  - intros n b [= -> ->]%list_elem_of_singleton. done.
  - split; [done|]. done.
  - intros j d Hj. by rewrite lookup_nil in Hj.
Qed.
End subtrees.
End queries.
