(* ===== verification/DomSpec.v ===== *)
(** * Dominators of the computation graph: the results

    [Dominance] on graphs built by the operations of [Scg]: the trees it computes, its queries
    in terms of paths of the graph, and where they fall short. *)

From S2P Require Import Prelude Digraph ScgNode Scg ScgInv ScgMerge ScgPaths.
From S2P Require Import Dominance DomDfs DomLoop DomTree DomQueries.
From stdpp Require Import gmap relations.
From stdpp Require Import options.

#[local] Open Scope Z_scope.

(** ** Edges of the graph *)

(** Node numbers are [u32]s. *)
Definition few_nodes (s : SCG) : Prop := Z.of_nat (length (SCG_ids s)) ≤ U32_MAX.

(** The edges backwards. *)
Definition flows_back (s : SCG) (a b : Z) : Prop := flows s b a.

Section graph.
  Context (s : SCG) (Hok : scg_ok s).
  #[local] Set Default Proof Using "All".

Lemma predecessors_None a : SCG_predecessors s a = None ↔ a ∉ SCG_ids s.
Proof.
  rewrite <-(successors_None s Hok a). unfold SCG_predecessors, SCG_successors.
  by destruct (node_id_to_index s !! a).
Qed.

Lemma in_ids_neighbours a : a ∈ SCG_ids s →
  is_Some (SCG_successors s a) ∧ is_Some (SCG_predecessors s a).
Proof.
  intros Ha. rewrite <-!not_eq_None_Some, (successors_None s Hok), predecessors_None. by split; intros Hn.
Qed.

Lemma flows_in_ids a b : flows s a b → a ∈ SCG_ids s ∧ b ∈ SCG_ids s.
Proof.
  intros (i & j & Hi & Hj & _)%(flows_slots s Hok).
  assert (∀ x k, nid (graph s) k = Some x → x ∈ SCG_ids s) as Hin.
  { intros x k Hk%(index_nid s Hok). destruct (decide (x ∈ SCG_ids s)) as [|Hn]; [done|].
    apply (successors_None s Hok) in Hn. unfold SCG_successors in Hn. by rewrite Hk in Hn. }
  split; by eapply Hin.
Qed.

Lemma edge_flows a b : edge (SCG_successors s) a b ↔ flows s a b.
Proof.
  split.
  - intros (l & Hl & Hb). by apply (successors_spec s Hok a l b Hl).
  - intros Hf. destruct (in_ids_neighbours a (proj1 (flows_in_ids a b Hf))) as [[l Hl] _].
    exists l. split; [done|]. by apply (successors_spec s Hok a l b Hl).
Qed.

Lemma edge_flows_back a b : edge (SCG_predecessors s) a b ↔ flows_back s a b.
Proof.
  split.
  - intros (l & Hl & Hb). by apply (predecessors_spec s Hok a l b Hl).
  - intros Hf. destruct (in_ids_neighbours a (proj2 (flows_in_ids b a Hf))) as [_ [l Hl]].
    exists l. split; [done|]. by apply (predecessors_spec s Hok a l b Hl).
Qed.

Lemma get_node_ids a : SCG_get_node s a = None ↔ a ∉ SCG_ids s.
Proof.
  rewrite <-(successors_None s Hok a). unfold SCG_get_node, SCG_successors.
  destruct (node_id_to_index s !! a) as [i|] eqn:Hi; [|done]. cbn [mbind option_bind].
  apply (index_nid s Hok) in Hi. unfold nid in Hi. by destruct (node_weight (graph s) i).
Qed.

Context (chk : bool) (Hfew : few_nodes s).

Lemma dominators_spec entry : entry ∈ SCG_ids s →
  ∃ t, compute_dominators chk s entry = Ret t ∧ tree_ok (flows s) entry t.
Proof.
  intros He. unfold compute_dominators.
  destruct (SCG_get_node s entry) eqn:Hn; [|by apply get_node_ids in Hn].
  destruct (run_spec chk (SCG_successors s) (SCG_predecessors s) entry (SCG_ids s)
    (search_fuel s (SCG_successors s))) as (t & Hr & Ht); [|done|done| |done|].
  - intros x y Hxy%edge_flows. by destruct (flows_in_ids _ _ Hxy).
  - intros w Hw. assert (w ∈ SCG_ids s) as Hin.
    { destruct (rtc_inv_r _ _ Hw) as [<-|(v & _ & Hv%edge_flows)]; [done|]. by destruct (flows_in_ids _ _ Hv). }
    destruct (in_ids_neighbours w Hin) as [_ [l Hl]]. exists l. split; [done|]. intros v.
    rewrite edge_flows. by apply (predecessors_spec s Hok w l v Hl).
  - exists t. split; [done|]. eapply tree_ok_ext; [|exact Ht]. apply edge_flows.
Qed.

Lemma post_dominators_spec exit : exit ∈ SCG_ids s →
  ∃ t, compute_post_dominators chk s exit = Ret t ∧ tree_ok (flows_back s) exit t.
Proof.
  intros He. unfold compute_post_dominators, post_run.
  destruct (SCG_get_node s exit) eqn:Hn; [|by apply get_node_ids in Hn].
  destruct (run_spec chk (SCG_predecessors s) (SCG_successors s) exit (SCG_ids s)
    (search_fuel s (SCG_predecessors s))) as (t & Hr & Ht); [|done|done| |done|].
  - intros x y Hxy%edge_flows_back. by destruct (flows_in_ids _ _ Hxy).
  - intros w Hw. assert (w ∈ SCG_ids s) as Hin.
    { destruct (rtc_inv_r _ _ Hw) as [<-|(v & _ & Hv%edge_flows_back)]; [done|]. by destruct (flows_in_ids _ _ Hv). }
    destruct (in_ids_neighbours w Hin) as [[l Hl] _]. exists l. split; [done|]. intros v.
    rewrite edge_flows_back. by apply (successors_spec s Hok w l v Hl).
  - exists t. split; [done|]. eapply tree_ok_ext; [|exact Ht]. apply edge_flows_back.
Qed.

Lemma strictly_dominates_spec R entry t a b :
  tree_ok R entry t → b ∈ dt_nodes t →
  ∃ r, strictly_dominates t a b = Ret r ∧ (r = true ↔ a ≠ b ∧ on_all_paths R entry a b).
Proof.
  intros Ht Hb. unfold strictly_dominates. destruct (Z.eqb_spec a b) as [->|Hne]; simpl.
  - exists false. split; [done|]. split; [done|by intros []].
  - destruct (dominates_spec R entry t Ht a b Hb) as (r & Hr & Hrd). exists r. split; [done|].
    rewrite Hrd. naive_solver.
Qed.
End graph.

Lemma flows_existsb s a b :
  existsb (λ e, (edge_source e =? a) && (edge_target e =? b)) (SCG_edges s) = true → flows s a b.
Proof.
  intros (e & He & [Ha Hb]%andb_true_iff)%existsb_exists. exists e.
  split; [by apply list_elem_of_In|]. by split; apply Z.eqb_eq.
Qed.

(** ** Examples *)

Definition plain (name : string) : scg_op := OpAddNode TComputation (other_op name) here.

(** A check [1] before a use [2], with a loop from [2] to [1] and a way [3] around the use. *)
Definition diamond_ops : list scg_op :=
  [plain "entry"; plain "check"; plain "use"; plain "skip"; plain "exit";
   OpAddEdge 0 1 ControlFlow; OpAddEdge 1 2 ControlFlow; OpAddEdge 2 1 ControlFlow;
   OpAddEdge 1 3 ControlFlow; OpAddEdge 2 4 ControlFlow; OpAddEdge 3 4 ControlFlow].
Definition diamond_graph : SCG := the_graph (scg_run true SCG_new diamond_ops).

(** A loop back to the entry. *)
Definition loop_ops : list scg_op :=
  [plain "entry"; plain "body"; OpAddEdge 0 1 ControlFlow; OpAddEdge 1 0 ControlFlow].
Definition loop_graph : SCG := the_graph (scg_run true SCG_new loop_ops).

(** The value of the entry is used after a check. *)
Definition checked_ops : list scg_op :=
  [plain "entry"; plain "check"; plain "use"; OpAddEdge 0 1 ControlFlow; OpAddEdge 1 2 ControlFlow;
   OpAddEdge 0 2 DataFlow].
Definition checked_graph : SCG := the_graph (scg_run true SCG_new checked_ops).

(** A start [0] with a clean-up [1] before one return [2], and another return [3]. *)
Definition two_exits_ops : list scg_op :=
  [plain "start"; plain "cleanup"; plain "return"; plain "early return";
   OpAddEdge 0 1 ControlFlow; OpAddEdge 1 2 ControlFlow; OpAddEdge 0 3 ControlFlow].
Definition two_exits_graph : SCG := the_graph (scg_run true SCG_new two_exits_ops).

Definition tree_of (o : outcome DominatorTree) : DominatorTree :=
  match o with Ret t => t | Panic => DominatorTree_empty 0 end.

Lemma diamond_reachable : scg_reachable true diamond_graph.
Proof. apply built_reachable; [by repeat constructor|by vm_compute]. Qed.
Lemma diamond_few : few_nodes diamond_graph.
Proof. by apply Z.leb_le; vm_compute. Qed.

Example diamond_idoms :
  (λ t, map (idom t) [0; 1; 2; 3; 4]) <$> compute_dominators true diamond_graph 0 =
  Ret [None; Some 0; Some 1; Some 1; Some 1].
Proof. by vm_compute. Qed.
Example diamond_post :
  (λ t, map (idom t) [0; 1; 2; 3; 4]) <$> compute_post_dominators true diamond_graph 4 =
  Ret [Some 1; Some 4; Some 4; Some 4; None].
Proof. by vm_compute. Qed.
Example diamond_frontier :
  (λ m : gmap Z (gset Z), map (λ a, elements (default ∅ (m !! a))) [0; 1; 2; 3; 4]) <$>
    (t ← compute_dominators true diamond_graph 0;
     find_dominance_frontier diamond_graph t [0; 1; 2; 3; 4]) =
  Ret [[]; [1]; [4; 1]; [4]; []].
Proof. by vm_compute. Qed.

(** ** Properties *)

(** C3. For a graph built by its operations with fewer than 2^32 nodes, and in both kinds of
    builds, [compute_dominators] always returns.  Its tree holds exactly the nodes reachable
    from the entry; each of them but the entry has an immediate dominator, which is the strict
    dominator that all others dominate, where [a] dominates [b] when every path of edges from
    the entry to [b] runs through [a]; depths count the steps to the root.  [dominates] answers
    on the nodes of the tree exactly whether [a] dominates [b], and [write_precedes_read]
    whether it does so strictly. *)
Theorem dominators_correct (chk : bool) (s : SCG) (entry : Z) :
  scg_reachable true s → few_nodes s → entry ∈ SCG_ids s →
  ∃ t, compute_dominators chk s entry = Ret t ∧ tree_ok (flows s) entry t ∧
    ∀ a b, b ∈ dt_nodes t →
      (∃ r, dominates t a b = Ret r ∧ (r = true ↔ on_all_paths (flows s) entry a b)) ∧
      (∃ r, write_precedes_read t a b = Ret r ∧
         (r = true ↔ a ≠ b ∧ on_all_paths (flows s) entry a b)).
Proof.
  intros Hok%scg_reachable_ok Hfew He.
  destruct (dominators_spec s Hok chk Hfew entry He) as (t & Hr & Ht). exists t.
  split; [done|]. split; [done|]. intros a b Hb. split.
  - by apply (dominates_spec (flows s) entry t Ht).
  - by apply (strictly_dominates_spec s Hok chk Hfew (flows s) entry).
Qed.

Lemma dominators_correct_witness :
  ∃ t, compute_dominators true diamond_graph 0 = Ret t ∧ tree_ok (flows diamond_graph) 0 t.
Proof.
  destruct (dominators_correct true diamond_graph 0 diamond_reachable diamond_few) as (t & Hr & Ht & _).
  - apply (bool_decide_unpack _); by vm_compute.
  - exact (ex_intro _ t (conj Hr Ht)).
Defined.

(** C28. [compute_post_dominators] likewise, on the edges read backwards: it always returns, its
    tree holds the nodes that can reach the exit, and for each of them [always_executes_after]
    answers exactly whether every path from it to the exit runs through the clean-up node. *)
Theorem post_dominators_correct (chk : bool) (s : SCG) (exit : Z) :
  scg_reachable true s → few_nodes s → exit ∈ SCG_ids s →
  ∃ t, compute_post_dominators chk s exit = Ret t ∧
    (∀ x, x ∈ dt_nodes t ↔ rtc (flows s) x exit) ∧
    ∀ start cleanup, rtc (flows s) start exit →
      ∃ r, always_executes_after t start cleanup = Ret r ∧
        (r = true ↔ ∀ l, is_path (flows s) start l exit → cleanup ∈ l).
Proof.
  intros Hok%scg_reachable_ok Hfew He.
  destruct (post_dominators_spec s Hok chk Hfew exit He) as (t & Hr & Ht). exists t.
  assert (∀ x, rtc (flows_back s) exit x ↔ rtc (flows s) x exit) as Hback.
  { intros x. split; [apply rtc_converse|]. apply (rtc_converse (flows_back s)). }
  split; [done|]. split; [intros x; by rewrite (to_nodes _ _ _ Ht), Hback|].
  intros start cleanup Hs. destruct (dominates_spec (flows_back s) exit t Ht cleanup start) as (r & Hd & Hrd).
  { by apply (to_nodes _ _ _ Ht), Hback. }
  exists r. split; [done|]. rewrite Hrd.
  assert (∀ l : list Z, rev l = reverse l) as Hrev by (intros l; apply rev_alt).
  split; intros Hall l Hl.
  - assert (is_path (flows_back s) exit (rev l) start) as Hp%Hall.
    { apply (path_reverse (flows s)). by rewrite rev_involutive. }
    by rewrite Hrev, elem_of_reverse in Hp.
  - apply (path_reverse (flows s)), Hall in Hl. by rewrite Hrev, elem_of_reverse in Hl.
Qed.

Lemma post_dominators_correct_witness :
  ∃ t, compute_post_dominators true diamond_graph 4 = Ret t ∧
    ∀ x, x ∈ dt_nodes t ↔ rtc (flows diamond_graph) x 4.
Proof.
  destruct (post_dominators_correct true diamond_graph 4 diamond_reachable diamond_few) as (t & Hr & Ht & _).
  - apply (bool_decide_unpack _); by vm_compute.
  - exact (ex_intro _ t (conj Hr Ht)).
Defined.

(** C25. On the tree that [compute_dominators] returns, whatever the order of its tables: the
    nearest common dominator of two nodes is the node whose dominators are their common ones;
    [dominators_of] and [guaranteed_execution_path] give the dominators of a node, the latter
    from the entry down, each dominating the next; [dominated_by] gives what a node dominates;
    [dom_tree_postorder] lists every node once, children before their parents; the frontier of
    [a] holds the joins [b] such that [a] dominates a predecessor of [b] and not strictly [b],
    and a node that is no join belongs to no frontier unless it is the entry. *)
Theorem dominance_queries_correct (chk : bool) (s : SCG) (entry : Z) (t : DominatorTree)
    (order : list (Z * Z)) (nodes_order : list Z) :
  scg_reachable true s → few_nodes s → entry ∈ SCG_ids s →
  compute_dominators chk s entry = Ret t →
  order ≡ₚ map_to_list (dt_idom t) → nodes_order ≡ₚ elements (dt_nodes t) →
  (∀ a b, a ∈ dt_nodes t → b ∈ dt_nodes t →
     ∃ d, nearest_common_dominator t a b = Ret (Some d) ∧
       ∀ e, on_all_paths (flows s) entry e a ∧ on_all_paths (flows s) entry e b ↔
            on_all_paths (flows s) entry e d) ∧
  (∀ x, x ∈ dt_nodes t →
     (∃ ds, dominators_of t x = Ret ds ∧ ∀ e, e ∈ ds ↔ on_all_paths (flows s) entry e x) ∧
     (∃ l, guaranteed_execution_path t x = Ret l ∧
        (∀ e, e ∈ l ↔ on_all_paths (flows s) entry e x) ∧
        ∀ i j a b, (i ≤ j)%nat → l !! i = Some a → l !! j = Some b →
          on_all_paths (flows s) entry a b) ∧
     ∃ rs, dominated_by order t x = Ret rs ∧
       ∀ y, y ∈ rs ↔ y ∈ dt_nodes t ∧ on_all_paths (flows s) entry x y) ∧
  (∃ l, dom_tree_postorder order t = Ret l ∧ l ≡ₚ elements (dt_nodes t) ∧ children_first t l) ∧
  ∃ df, find_dominance_frontier s t nodes_order = Ret df ∧
    (∀ a b, in_frontier df a b ↔
       b ∈ dt_nodes t ∧ is_join s b ∧ frontier_of (flows s) entry t a b) ∧
    ∀ a b, b ∈ dt_nodes t → b ≠ entry → frontier_of (flows s) entry t a b → is_join s b.
Proof.
  intros Hok%scg_reachable_ok Hfew He Hr Ho Hno.
  destruct (dominators_spec s Hok chk Hfew entry He) as (t' & Hr' & Ht).
  assert (t' = t) as -> by congruence.
  assert (∀ b l, SCG_predecessors s b = Some l → ∀ a, a ∈ l ↔ flows s a b) as Hp.
  { intros b l Hl a. by apply predecessors_spec. }
  assert (∀ x, x ∈ nodes_order ↔ x ∈ dt_nodes t) as Hnodes.
  { intros x. by rewrite Hno, elem_of_elements. }
  split_and!.
  - intros a b Ha Hb. destruct (nearest_spec (flows s) entry t Ht a b Ha Hb) as (d & Hd & _ & Hdom).
    by exists d.
  - intros x Hx. split_and!; [by apply dominators_of_spec|by apply guaranteed_path_spec|].
    by apply dominated_by_spec.
  - by apply (postorder_spec (flows s) entry).
  - destruct (frontier_spec (flows s) entry t Ht s nodes_order Hp Hnodes) as (df & Hdf & Hspec).
    exists df. split_and!; [done..|]. intros a b Hb Hne Hf.
    apply (frontier_needs_join (flows s) entry t Ht s nodes_order Hp Hnodes a b Hb Hne); [|done].
    apply (in_ids_neighbours s Hok). apply (to_nodes _ _ _ Ht) in Hb.
    destruct (rtc_inv_r _ _ Hb) as [<-|(v & _ & Hv)]; [done|]. by destruct (flows_in_ids s Hok _ _ Hv).
Qed.

Lemma dominance_queries_correct_witness :
  ∃ d, nearest_common_dominator (tree_of (compute_dominators true diamond_graph 0)) 2 3 = Ret (Some d).
Proof.
  set (t := tree_of (compute_dominators true diamond_graph 0)).
  destruct (dominance_queries_correct true diamond_graph 0 t (map_to_list (dt_idom t))
    (elements (dt_nodes t)) diamond_reachable diamond_few) as (H & _).
  - apply (bool_decide_unpack _); by vm_compute.
  - by vm_compute.
  - done.
  - done.
  - destruct (H 2 3) as (d & Hd & _); [apply (bool_decide_unpack _); by vm_compute..|]. exact (ex_intro _ d Hd).
Defined.

