(* ===== verification/LoopDetection.v ===== *)
(** * Natural loops

    Models [src/src/scg/src/loop_detection.rs]: dominators of the control-flow edges by the
    iteration of Cooper, Harvey and Kennedy, back edges, natural loops with their bodies and
    exits, the nesting of loops and the invariant nodes of a loop.  The trait
    [ControlFlowGraph] is a class with the graph of [Scg] as an instance.  [HashMap] and
    [HashSet] walks take their order as an argument.  The searches run on one unit of fuel per
    edge and two more, the iteration to a fixed point on the square of the number of nodes and
    two more, a walk up the table on its size and one more. *)

From S2P Require Import Prelude Digraph ScgNode Scg Dominance.
From stdpp Require Import gmap.
From stdpp Require Import options.

#[local] Open Scope Z_scope.

(** ** The view of a graph *)

Class ControlFlowGraph (G : Type) : Type := {
  cf_edges : G → list (Z * Z);
  entry_nodes : G → list Z;
}.

Definition is_control_flow (k : EdgeKind) : bool :=
  match k with ControlFlow => true | _ => false end.

Definition SCG_cf_edges (s : SCG) : list (Z * Z) :=
  map (λ e, (edge_source e, edge_target e))
    (List.filter (λ e, is_control_flow (edge_kind e)) (SCG_edges s)).

Definition is_function_entry (n : NodeData) : bool :=
  match node_payload n with
  | PControl c => bool_decide (control_kind c = FunctionEntry)
  | _ => false
  end.

Definition SCG_entry_nodes (s : SCG) : list Z :=
  let entries := map node_id (List.filter is_function_entry (SCG_nodes s)) in
  match entries with
  | [] =>
      let has_pred : gset Z := list_to_set (map snd (SCG_cf_edges s)) in
      List.filter (λ id, negb (bool_decide (id ∈ has_pred))) (map node_id (SCG_nodes s))
  | _ => entries
  end.

#[export] Instance SCG_ControlFlowGraph : ControlFlowGraph SCG := {|
  cf_edges := SCG_cf_edges;
  entry_nodes := SCG_entry_nodes;
|}.

Notation adjacency := (gmap Z (list Z)) (only parsing).

Definition neighbours (m : adjacency) (n : Z) : list Z := default [] (m !! n).

(** [entry(key).or_default().push(value)] *)
Definition push_to (m : adjacency) (key value : Z) : adjacency :=
  <[key := neighbours m key ++ [value]]> m.

Definition build_adjacency (edges : list (Z * Z)) : adjacency * adjacency :=
  fold_left (λ '(succs, preds) '(s, t), (push_to succs s t, push_to preds t s)) edges (∅, ∅).

(** ** Loops *)

Record NaturalLoop : Type := NaturalLoop_mk {
  header : Z;
  backedge_source : Z;
  body : gset Z;
  exits : gset Z;
  loop_depth : Z;
}.

Definition NaturalLoop_new (h b : Z) : NaturalLoop := NaturalLoop_mk h b ∅ ∅ 0.
Definition loop_contains (l : NaturalLoop) (n : Z) : bool := bool_decide (n ∈ body l).
Definition body_size (l : NaturalLoop) : nat := size (body l).
Definition has_exit (l : NaturalLoop) : bool := negb (bool_decide (exits l = ∅)).
Definition set_loop_depth (l : NaturalLoop) (d : Z) : NaturalLoop :=
  NaturalLoop_mk (header l) (backedge_source l) (body l) (exits l) d.

Record LoopNestingTree : Type := LoopNestingTree_mk {
  loops : list NaturalLoop;
  parent : gmap nat (option nat);
}.

Definition LoopNestingTree_new : LoopNestingTree := LoopNestingTree_mk [] ∅.
Definition nesting_len (t : LoopNestingTree) : nat := length (loops t).
Definition root_loops (t : LoopNestingTree) : list NaturalLoop :=
  omap (λ '(i, l), if decide (parent t !! i = Some None) then Some l else None) (imap pair (loops t)).
Definition loop_children (order : list (nat * option nat)) (loop_idx : nat) : list nat :=
  omap (λ '(child, p), if decide (p = Some loop_idx) then Some child else None) order.
Definition nesting_depth (t : LoopNestingTree) (loop_idx : nat) : Z :=
  match loops t !! loop_idx with Some l => loop_depth l | None => 0 end.

(** ** Dominators of the control-flow edges *)

Section dominators.
  Context (cf_succs cf_preds : adjacency).

Definition edge_total : nat := sum_list (map (λ p : Z * list Z, length p.2) (map_to_list cf_succs)).

(** One unit per pushed edge, one for the start and one to stop; a node is popped twice by the
    second search. *)
Fixpoint reach_loop (fuel : nat) (visited : gset Z) (stack : list Z) : outcome (gset Z) :=
  match fuel with
  | O => Panic
  | S fuel' =>
      match stack with
      | [] => Ret visited
      | node :: rest =>
          if decide (node ∈ visited) then reach_loop fuel' visited rest
          else
            let visited := {[node]} ∪ visited in
            reach_loop fuel' visited
              (fold_left (λ st succ, if decide (succ ∈ visited) then st else succ :: st)
                 (neighbours cf_succs node) rest)
      end
  end.

Definition cf_reachable (entry : Z) : outcome (gset Z) :=
  reach_loop (2 + edge_total) ∅ [entry].

Fixpoint rpo_loop (fuel : nat) (reachable visited : gset Z) (post_order : list Z)
    (stack : list (Z * bool)) : outcome (list Z) :=
  match fuel with
  | O => Panic
  | S fuel' =>
      match stack with
      | [] => Ret post_order
      | (node, true) :: rest => rpo_loop fuel' reachable visited (post_order ++ [node]) rest
      | (node, false) :: rest =>
          if negb (bool_decide (node ∈ reachable)) || bool_decide (node ∈ visited)
          then rpo_loop fuel' reachable visited post_order rest
          else
            let visited := {[node]} ∪ visited in
            rpo_loop fuel' reachable visited post_order
              (fold_left (λ st succ, if negb (bool_decide (succ ∈ visited)) && bool_decide (succ ∈ reachable)
                                     then (succ, false) :: st else st)
                 (rev (neighbours cf_succs node)) ((node, true) :: rest))
      end
  end.

Definition reverse_postorder (entry : Z) (reachable : gset Z) : outcome (list Z) :=
  post_order ← rpo_loop (2 + size reachable + edge_total) reachable ∅ [] [(entry, false)];
  Ret (rev post_order).

Definition idx_of (rpo_idx : gmap Z nat) (n : Z) : nat := default 0%nat (rpo_idx !! n).

Fixpoint intersect (fuel : nat) (idom : gmap Z Z) (finger1 finger2 : Z) (rpo_idx : gmap Z nat) :
    outcome Z :=
  match fuel with
  | O => Panic
  | S fuel' =>
      let idx1 := idx_of rpo_idx finger1 in
      let idx2 := idx_of rpo_idx finger2 in
      if (idx2 <? idx1)%nat then
        f ← at_key idom finger1; intersect fuel' idom f finger2 rpo_idx
      else if (idx1 <? idx2)%nat then
        f ← at_key idom finger2; intersect fuel' idom finger1 f rpo_idx
      else Ret finger1
  end.

Definition intersect_fuel (rpo_idx : gmap Z nat) : nat := S (2 * size rpo_idx).

(** The fold over the processed predecessors of one node. *)
Definition new_idom (idom : gmap Z Z) (rpo_idx : gmap Z nat) (node : Z) : outcome (option Z) :=
  match List.filter (λ p, is_some (idom !! p)) (neighbours cf_preds node) with
  | [] => Ret None
  | first :: rest =>
      d ← for_each (λ cur pred, intersect (intersect_fuel rpo_idx) idom cur pred rpo_idx) first rest;
      Ret (Some d)
  end.

Definition idom_step (entry : Z) (rpo_idx : gmap Z nat) (st : gmap Z Z * bool) (node : Z) :
    outcome (gmap Z Z * bool) :=
  let '(idom, changed) := st in
  if node =? entry then Ret st
  else
    r ← new_idom idom rpo_idx node;
    match r with
    | None => Ret st
    | Some d => if decide (idom !! node = Some d) then Ret st else Ret (<[node := d]> idom, true)
    end.

Fixpoint idom_loop (fuel : nat) (entry : Z) (rpo : list Z) (rpo_idx : gmap Z nat) (idom : gmap Z Z) :
    outcome (gmap Z Z) :=
  match fuel with
  | O => Panic
  | S fuel' =>
      '(idom, changed) ← for_each (idom_step entry rpo_idx) (idom, false) rpo;
      if changed : bool then idom_loop fuel' entry rpo rpo_idx idom else Ret idom
  end.

Definition index_map (rpo : list Z) : gmap Z nat :=
  list_to_map (imap (λ i node, (node, i)) rpo).

Definition pass_fuel (rpo : list Z) : nat := (2 + length rpo * length rpo)%nat.

Definition compute_cfg_dominators (entry : Z) : outcome (gmap Z Z) :=
  reachable ← cf_reachable entry;
  rpo ← reverse_postorder entry reachable;
  idom ← idom_loop (pass_fuel rpo) entry rpo (index_map rpo) {[entry := entry]};
  Ret (delete entry idom).

End dominators.

(** [CfgDomTree::dominates] *)
Fixpoint cfg_walk_up (fuel : nat) (idom : gmap Z Z) (a current : Z) : outcome bool :=
  match fuel with
  | O => Panic
  | S fuel' =>
      match idom !! current with
      | Some parent => if parent =? a then Ret true else cfg_walk_up fuel' idom a parent
      | None => Ret false
      end
  end.

Definition cfg_dominates (idom : gmap Z Z) (a b : Z) : outcome bool :=
  if a =? b then Ret true else cfg_walk_up (S (size idom)) idom a b.

(** ** Natural loops *)

Definition back_edge_step (idom : gmap Z Z) (source : Z) (back_edges : list (Z * Z)) (target : Z) :
    outcome (list (Z * Z)) :=
  b ← cfg_dominates idom target source;
  Ret (if b : bool then back_edges ++ [(source, target)] else back_edges).

(** [walk] is the order in which the table of successors is walked. *)
Definition find_back_edges (walk : list (Z * list Z)) (idom : gmap Z Z) : outcome (list (Z * Z)) :=
  for_each (λ back_edges '(source, succs), for_each (back_edge_step idom source) back_edges succs)
    [] walk.

Fixpoint body_loop (fuel : nat) (cf_preds : adjacency) (body : gset Z) (stack : list Z) :
    outcome (gset Z) :=
  match fuel with
  | O => Panic
  | S fuel' =>
      match stack with
      | [] => Ret body
      | node :: rest =>
          let '(body, stack) :=
            fold_left (λ '(b, st) pred, if decide (pred ∈ b) then (b, st) else ({[pred]} ∪ b, pred :: st))
              (neighbours cf_preds node) (body, rest) in
          body_loop fuel' cf_preds body stack
      end
  end.

Definition loop_exits (cf_succs : adjacency) (body : gset Z) : gset Z :=
  filter (λ node, existsb (λ succ, negb (bool_decide (succ ∈ body))) (neighbours cf_succs node) = true) body.

Definition same_loop (h b : Z) (l : NaturalLoop) : bool := (header l =? h) && (backedge_source l =? b).

Definition loop_step (edge_count : nat) (cf_succs cf_preds : adjacency) (loops : list NaturalLoop)
    (e : Z * Z) : outcome (list NaturalLoop) :=
  let '(source, hd) := e in
  if existsb (same_loop hd source) loops then Ret loops
  else
    b ← body_loop (2 + edge_count) cf_preds {[hd; source]} [source];
    Ret (loops ++ [NaturalLoop_mk hd source b (loop_exits cf_succs b) 0]).

Definition detect_natural_loops_on `{ControlFlowGraph G} (g : G) (walk : list (Z * list Z)) :
    outcome (list NaturalLoop) :=
  match entry_nodes g with
  | [] => Ret []
  | entry :: _ =>
      let '(cf_succs, cf_preds) := build_adjacency (cf_edges g) in
      dom_tree ← compute_cfg_dominators cf_succs cf_preds entry;
      back_edges ← find_back_edges walk dom_tree;
      for_each (loop_step (length (cf_edges g)) cf_succs cf_preds) [] back_edges
  end.

Definition detect_natural_loops (s : SCG) (walk : list (Z * list Z)) : outcome (list NaturalLoop) :=
  detect_natural_loops_on s walk.

(** ** Nesting *)

Definition better_parent (ls : list NaturalLoop) (i : nat) (l : NaturalLoop) (best : option nat * Z)
    (j : nat) : option nat * Z :=
  if decide (i = j) then best
  else match ls !! j with
       | Some lj =>
           if loop_contains lj (header l) && (Z.of_nat (body_size lj) <? best.2)
           then (Some j, Z.of_nat (body_size lj)) else best
       | None => best
       end.

Definition nesting_step (chk : bool) (st : list NaturalLoop * gmap nat (option nat)) (i : nat) :
    outcome (list NaturalLoop * gmap nat (option nat)) :=
  let '(ls, parents) := st in
  match ls !! i with
  | None => Panic
  | Some l =>
      let best := fst (fold_left (better_parent ls i l) (seq 0 (length ls)) (None, U64_MAX)) in
      let parents := <[i := best]> parents in
      match best with
      | None => Ret (ls, parents)
      | Some j =>
          match ls !! j with
          | None => Panic
          | Some lj => d ← u32_add chk (loop_depth lj) 1; Ret (<[i := set_loop_depth l d]> ls, parents)
          end
      end
  end.

Definition detect_loop_nesting (chk : bool) (s : SCG) (walk : list (Z * list Z)) : outcome LoopNestingTree :=
  natural_loops ← detect_natural_loops s walk;
  match natural_loops with
  | [] => Ret LoopNestingTree_new
  | _ =>
      let natural_loops := map (λ l, set_loop_depth l 0) natural_loops in
      '(ls, parents) ← for_each (nesting_step chk) (natural_loops, ∅) (seq 0 (length natural_loops));
      Ret (LoopNestingTree_mk ls parents)
  end.

Definition detect_infinite_loops (s : SCG) (walk : list (Z * list Z)) : outcome (list Z) :=
  ls ← detect_natural_loops s walk;
  Ret (map header (List.filter (λ l, negb (has_exit l)) ls)).

(** ** Invariant nodes *)

Definition has_effects (t : NodeType) : bool :=
  match t with
  | TEffect | TAllocation | TDeallocation | TAccess | TControl | TPhantom | TVTable | TClosureEnv => true
  | _ => false
  end.

Definition is_data_edge (s : SCG) (pred node : Z) : bool :=
  existsb (λ e, (edge_source e =? pred) && (edge_target e =? node) &&
                bool_decide (edge_kind e = DataFlow)) (SCG_edges s).

Definition is_invariant (s : SCG) (l : NaturalLoop) (id : Z) : bool :=
  match SCG_get_node s id with
  | None => false
  | Some n =>
      negb (has_effects (node_type n)) &&
      match SCG_predecessors s id with
      | Some preds => negb (existsb (λ p, is_data_edge s p id && bool_decide (p ∈ body l)) preds)
      | None => true
      end
  end.

(** [order] is the order in which the body is walked. *)
Definition loop_invariant_nodes (s : SCG) (l : NaturalLoop) (order : list Z) : list Z :=
  List.filter (is_invariant s l) order.
