(* ===== verification/LoopDom.v ===== *)
(** * Dominators by iteration to a fixed point

    The iteration of Cooper, Harvey and Kennedy in [LoopDetection], for any list of nodes in
    which every node but the entry has a predecessor before it.  The chains of the table
    contain the dominators at all times and only shrink, and the ranks of the table's entries
    decrease, so the iteration ends; a table that a pass leaves alone is the table of immediate
    dominators. *)

From S2P Require Import Prelude Dominance DomLoop DomTree LoopDetection.
From stdpp Require Import gmap relations.
From stdpp Require Import options.

#[local] Open Scope nat_scope.

Section iteration.
  Context (R : Z → Z → Prop) (entry : Z) (rpo : list Z) (rk : Z → nat) (par : Z → Z).
  Context (cf_preds : gmap Z (list Z)) (idx : gmap Z nat).

(** An order of the nodes with a spanning tree whose parents come first. *)
Record ordered : Prop := {
  or_entry : entry ∈ rpo ∧ rk entry = 0;
  or_inj : ∀ x y, x ∈ rpo → y ∈ rpo → rk x = rk y → x = y;
  or_bound : ∀ x, x ∈ rpo → rk x < length rpo;
  or_order : ∀ i x, rpo !! i = Some x → rk x = i;
  or_all : ∀ x, x ∈ rpo ↔ rtc R entry x;
  or_par : ∀ x, x ∈ rpo → x ≠ entry → par x ∈ rpo ∧ R (par x) x ∧ rk (par x) < rk x;
  or_index : ∀ x, x ∈ rpo → idx_of idx x = rk x;
  or_preds : ∀ x p, x ∈ rpo → p ∈ neighbours cf_preds x ↔ R p x;
}.
Context (Ho : ordered).
#[local] Set Default Proof Using "All".

(** [d] is on the chain of [x] in the table. *)
Inductive on_chain (m : gmap Z Z) (d : Z) : Z → Prop :=
  | chain_refl : on_chain m d d
  | chain_up x y : x ≠ entry → m !! x = Some y → on_chain m d y → on_chain m d x.

Record table_wf (m : gmap Z Z) : Prop := {
  tw_entry : m !! entry = Some entry;
  tw_row : ∀ x y, m !! x = Some y → x ∈ rpo ∧ is_Some (m !! y) ∧ (x ≠ entry → rk y < rk x);
}.

Lemma tw_in m x : table_wf m → is_Some (m !! x) → x ∈ rpo.
Proof. intros Hm [y Hy]. by destruct (tw_row _ Hm x y Hy). Qed.

Lemma chain_rk m d x : table_wf m → on_chain m d x → rk d ≤ rk x.
Proof.
  intros Hm. induction 1 as [|x y Hne Hx _ IH]; [done|].
  destruct (tw_row _ Hm x y Hx) as (_ & _ & Hlt). specialize (Hlt Hne). lia.
Qed.

Lemma chain_trans m a b c : on_chain m a b → on_chain m b c → on_chain m a c.
Proof. intros Hab. induction 1 as [|c y Hne Hc _ IH]; [done|]. by eapply chain_up. Qed.

Lemma chain_entry m d : on_chain m d entry → d = entry.
Proof. by inversion 1. Qed.

Lemma chain_step m x y d :
  x ≠ entry → m !! x = Some y → on_chain m d x ↔ d = x ∨ on_chain m d y.
Proof.
  intros Hne Hx. split.
  - inversion 1 as [|? z _ Hz]; subst; [by left|right]. by assert (z = y) as -> by congruence.
  - intros [->|Hd]; [constructor|by eapply chain_up].
Qed.

(** ** The intersection of two chains *)

Lemma intersect_spec m fuel f1 f2 :
  table_wf m → is_Some (m !! f1) → is_Some (m !! f2) → rk f1 + rk f2 < fuel →
  ∃ r, intersect fuel m f1 f2 idx = Ret r ∧ is_Some (m !! r) ∧
    ∀ e, on_chain m e r ↔ on_chain m e f1 ∧ on_chain m e f2.
Proof.
  intros Hm. revert f1 f2. induction fuel as [|fuel IH]; intros f1 f2 H1 H2 Hf; [lia|]. simpl.
  pose proof (tw_in m f1 Hm H1) as Hi1. pose proof (tw_in m f2 Hm H2) as Hi2.
  rewrite (or_index Ho f1 Hi1), (or_index Ho f2 Hi2). unfold at_key.
  destruct (or_entry Ho) as [_ H0].
  destruct (Nat.ltb_spec (rk f2) (rk f1)) as [Hlt|Hge].
  - assert (f1 ≠ entry) as Hne by (intros ->; lia). destruct H1 as [y Hy]. rewrite Hy.
    destruct (tw_row _ Hm f1 y Hy) as (_ & Hys & Hlt'). specialize (Hlt' Hne).
    cbn [mbind outcome_bind]. destruct (IH y f2 Hys H2 ltac:(lia)) as (r & Hr & Hrs & Hch).
    exists r. split_and!; [done..|]. intros e. rewrite Hch, (chain_step m f1 y e Hne Hy).
    split; [by intros [? ?]; split; [right|]|]. intros [[->|?] He]; [|done].
    apply (chain_rk m _ _ Hm) in He. lia.
  - destruct (Nat.ltb_spec (rk f1) (rk f2)) as [Hlt|Hge'].
    + assert (f2 ≠ entry) as Hne by (intros ->; lia). destruct H2 as [y Hy]. rewrite Hy.
      destruct (tw_row _ Hm f2 y Hy) as (_ & Hys & Hlt'). specialize (Hlt' Hne).
      cbn [mbind outcome_bind]. destruct (IH f1 y H1 Hys ltac:(lia)) as (r & Hr & Hrs & Hch).
      exists r. split_and!; [done..|]. intros e. rewrite Hch, (chain_step m f2 y e Hne Hy).
      split; [by intros [? ?]; split; [|right]|]. intros [He [->|?]]; [|done].
      apply (chain_rk m _ _ Hm) in He. lia.
    + assert (f1 = f2) as -> by (apply (or_inj Ho); [done|done|lia]).
      exists f2. split_and!; [done..|]. intros e. tauto.
Qed.

Context (Hsize : length rpo ≤ size idx).

(** Predecessors of [x] with an entry in the table. *)
Definition known_pred (m : gmap Z Z) (p x : Z) : Prop := R p x ∧ is_Some (m !! p).

(** What a step computes for [x]: the meet of the chains of its known predecessors. *)
Definition meet_of (m : gmap Z Z) (x d : Z) : Prop :=
  is_Some (m !! d) ∧ ∀ e, on_chain m e d ↔ ∀ p, known_pred m p x → on_chain m e p.

Lemma new_idom_spec m x :
  table_wf m → x ∈ rpo → (∃ p, known_pred m p x) →
  ∃ d, new_idom cf_preds m idx x = Ret (Some d) ∧ meet_of m x d.
Proof.
  intros Hm Hx (p0 & Hp0 & Hp0s). unfold new_idom.
  assert (∀ p, p ∈ List.filter (λ p, is_some (m !! p)) (neighbours cf_preds x) ↔ known_pred m p x) as Hin.
  { intros p. rewrite list_elem_of_In, filter_In, <-list_elem_of_In, (or_preds Ho x p Hx), is_some_spec. done. }
  destruct (List.filter _ _) as [|first rest] eqn:Hps.
  { assert (p0 ∈ []) as Hno by by apply Hin. by apply elem_of_nil in Hno. }
  destruct (for_each_ind (λ cur pred, intersect (intersect_fuel idx) m cur pred idx)
    (λ done cur, is_Some (m !! cur) ∧ ∀ e, on_chain m e cur ↔
       on_chain m e first ∧ ∀ p, p ∈ done → on_chain m e p) rest first) as (d & Hd & Hds & Hch).
  - split; [apply Hin; by left|]. intros e. split; [intros He; split; [done|]|by intros [? _]].
    intros p Hp. by apply elem_of_nil in Hp.
  - intros l1 p l2 cur -> [Hcs Hcur]. assert (known_pred m p x) as [_ Hpsome] by (apply Hin; set_solver).
    destruct (intersect_spec m (intersect_fuel idx) cur p Hm Hcs Hpsome) as (r & Hr & Hrs & Hrc).
    { unfold intersect_fuel. pose proof (or_bound Ho cur (tw_in m cur Hm Hcs)).
      pose proof (or_bound Ho p (tw_in m p Hm Hpsome)). lia. }
    exists r. split; [done|]. split; [done|]. intros e. rewrite Hrc, Hcur. split.
    + intros [[Hf Hl1] Hp]. split; [done|]. intros q [Hq| ->%list_elem_of_singleton]%elem_of_app; auto.
    + intros [Hf Hl]. split_and!; [done| |apply Hl; set_solver]. intros q Hq. apply Hl. set_solver.
  - rewrite Hd. cbn [mbind outcome_bind]. exists d. split; [done|]. split; [done|]. intros e.
    rewrite Hch. split.
    + intros [Hf Hl] p [->|Hp]%Hin%elem_of_cons; auto.
    + intros Hall. split; [apply Hall, Hin; by left|]. intros p Hp. apply Hall, Hin. by right.
Qed.

(** ** The spanning tree *)

Inductive tree_above (y : Z) : Z → Prop :=
  | tree_refl : tree_above y y
  | tree_up z : z ∈ rpo → z ≠ entry → tree_above y (par z) → tree_above y z.

#[local] Notation dom := (on_all_paths R entry).

Lemma tree_rk y z : tree_above y z → rk y ≤ rk z.
Proof. induction 1 as [|z Hz Hne _ IH]; [done|]. destruct (or_par Ho z Hz Hne) as (_ & _ & ?). lia. Qed.

(** Down the tree from [y], only later nodes are visited. *)
Lemma tree_path y z l : tree_above y z → is_path R entry l y →
  ∃ l', is_path R entry (l ++ l') z ∧ ∀ v, v ∈ l' → rk y < rk v.
Proof.
  intros Ht Hl. induction Ht as [|z Hz Hne Ht (l' & Hl' & Hlt)].
  - exists []. rewrite app_nil_r. split; [done|]. intros v Hv. by apply elem_of_nil in Hv.
  - destruct (or_par Ho z Hz Hne) as (_ & He & Hrk). apply tree_rk in Ht.
    exists (l' ++ [z]). rewrite app_assoc. split; [by eapply path_snoc|].
    intros v [Hv| ->%list_elem_of_singleton]%elem_of_app; [by apply Hlt|lia].
Qed.

(** A dominator of [z] that comes before [y] dominates the tree node [y] above [z]. *)
Lemma dom_tree_up e y z : tree_above y z → rk e < rk y → dom e z → dom e y.
Proof.
  intros Ht Hlt Hd l Hl. destruct (tree_path y z l Ht Hl) as (l' & Hl' & Hrk).
  specialize (Hd _ Hl'). apply elem_of_app in Hd as [|Hin]; [done|]. apply Hrk in Hin. lia.
Qed.

Lemma dom_pred e p x : R p x → e ≠ x → dom e x → dom e p.
Proof.
  intros He Hne Hd l Hl. specialize (Hd _ (path_snoc R _ _ _ _ Hl He)).
  apply elem_of_app in Hd as [|?%list_elem_of_singleton]; done.
Qed.

(** ** The invariant, when the nodes with ranks below [s] are done in the current pass *)

Record loop_inv (m : gmap Z Z) (s : nat) : Prop := {
  li_wf : table_wf m;
  li_dom : ∀ x e, is_Some (m !! x) → dom e x → on_chain m e x;
  li_tree : ∀ x y, m !! x = Some y → x ≠ entry → is_Some (m !! par x) ∧ tree_above y (par x);
  li_rank : ∀ x y e, m !! x = Some y → x ≠ entry →
    (∀ p, known_pred m p x → on_chain m e p) → rk e ≤ rk y;
  li_before : ∀ x, x ∈ rpo → rk x < s → is_Some (m !! x);
  li_forward : ∀ x y e, m !! x = Some y → x ≠ entry → rk x < s →
    on_chain m e y → on_chain m e (par x);
}.

Lemma chain_tree m s d x : loop_inv m s → on_chain m d x → tree_above d x.
Proof.
  intros Hm. induction 1 as [|x y Hne Hx _ IH]; [constructor|].
  destruct (li_tree _ _ Hm x y Hx Hne) as [_ Ht]. destruct (tw_row _ (li_wf _ _ Hm) x y Hx) as (Hin & _).
  apply tree_up; [done|done|]. clear -IH Ht. induction Ht; [done|by apply tree_up].
Qed.

Section step.
  Context (m : gmap Z Z) (s : nat) (x d : Z).
  Context (Hm : loop_inv m s) (Hx : x ∈ rpo) (Hs : rk x = s) (Hne : x ≠ entry).
  Context (Hd : meet_of m x d).
  #[local] Set Default Proof Using "All".
  #[local] Notation m' := (<[x := d]> m).

Lemma step_parent : known_pred m (par x) x.
Proof using Ho Hsize Hm Hx Hs Hne.
  destruct (or_par Ho x Hx Hne) as (Hp & He & Hlt). split; [done|].
  apply (li_before _ _ Hm); [done|lia].
Qed.

Lemma step_below e : on_chain m e d → on_chain m e (par x).
Proof. intros He. apply (proj1 (proj2 Hd e) He), step_parent. Qed.

Lemma step_rank : rk d ≤ rk (par x) ∧ rk d < rk x.
Proof.
  destruct (or_par Ho x Hx Hne) as (_ & _ & Hlt).
  pose proof (chain_rk m d (par x) (li_wf _ _ Hm) (step_below d (chain_refl m d))). lia.
Qed.

Lemma step_tree : tree_above d (par x).
Proof. apply (chain_tree m s); [done|]. apply step_below. constructor. Qed.

(** Chains of earlier nodes do not change. *)
Lemma chain_low e z : rk z < rk x → on_chain m' e z ↔ on_chain m e z.
Proof.
  intros Hz. split; intros Hc; induction Hc as [|z y Hzne Hzy _ IH]; try constructor.
  - rewrite lookup_insert_ne in Hzy by (intros ->; lia). eapply chain_up; [done|exact Hzy|]. apply IH.
    destruct (tw_row _ (li_wf _ _ Hm) z y Hzy) as (_ & _ & Hlt). specialize (Hlt Hzne). lia.
  - eapply chain_up; [done|rewrite lookup_insert_ne by (intros ->; lia); exact Hzy|]. apply IH.
    destruct (tw_row _ (li_wf _ _ Hm) z y Hzy) as (_ & _ & Hlt). specialize (Hlt Hzne). lia.
Qed.

(** Up the tree through nodes that are done. *)
Lemma forward_tree o t e :
  tree_above o t → rk t < s → on_chain m e t → rk e ≤ rk o → on_chain m e o.
Proof.
  intros Ht. induction Ht as [|t Htin Htne Ht IH]; intros Hts He Hle; [done|].
  destruct (or_par Ho t Htin Htne) as (_ & _ & Hlt). apply tree_rk in Ht as Hot.
  destruct (li_before _ _ Hm t Htin Hts) as [y Hy].
  apply (chain_step m t y e Htne Hy) in He as [->|He]; [lia|].
  apply IH; [lia| |done]. by apply (li_forward _ _ Hm t y).
Qed.

(** The new entry is on the chain of the old one. *)
Lemma step_old o : m !! x = Some o → on_chain m d o.
Proof.
  intros Hxo. destruct (or_par Ho x Hx Hne) as (_ & _ & Hlt).
  apply (forward_tree o (par x)); [by apply (li_tree _ _ Hm x o)|lia|apply step_below; constructor|].
  apply (li_rank _ _ Hm x o d Hxo Hne). intros p Hp. apply (proj1 (proj2 Hd d)); [constructor|done].
Qed.

(** Chains only shrink. *)
Lemma chain_shrinks e z : is_Some (m !! z) → on_chain m' e z → on_chain m e z.
Proof.
  intros Hz Hc. induction Hc as [|z y Hzne Hzy _ IH]; [constructor|].
  destruct (decide (z = x)) as [->|Hzx].
  - rewrite lookup_insert_eq in Hzy. injection Hzy as <-. destruct Hz as [o Ho'].
    eapply chain_up; [done|exact Ho'|]. eapply chain_trans; [apply IH, Hd|by apply step_old].
  - rewrite lookup_insert_ne in Hzy by done. eapply chain_up; [done|exact Hzy|]. apply IH.
    by destruct (tw_row _ (li_wf _ _ Hm) z y Hzy) as (_ & ? & _).
Qed.

Lemma known_known p z : known_pred m p z → known_pred m' p z.
Proof. intros [He Hp]. split; [done|]. apply lookup_insert_is_Some'. by right. Qed.

Lemma step_wf : table_wf m'.
Proof.
  split.
  - rewrite lookup_insert_ne by done. apply (tw_entry _ (li_wf _ _ Hm)).
  - intros z y. rewrite lookup_insert_Some. intros [[<- <-]|[Hzx Hzy]].
    + split_and!; [done|apply lookup_insert_is_Some'; right; apply Hd|intros _; apply step_rank].
    + destruct (tw_row _ (li_wf _ _ Hm) z y Hzy) as (Hz & Hy & Hlt).
      split_and!; [done|apply lookup_insert_is_Some'; by right|done].
Qed.

Lemma step_dom z e : is_Some (m' !! z) → dom e z → on_chain m' e z.
Proof.
  remember (rk z) as r eqn:Hr. revert z Hr. induction r as [r IH] using lt_wf_ind.
  intros z -> Hz He. destruct (decide (e = z)) as [->|Hez]; [constructor|].
  destruct (decide (z = x)) as [->|Hzx].
  - eapply chain_up; [done|apply lookup_insert_eq|]. apply chain_low; [apply step_rank|].
    apply Hd. intros p [Hp Hps]. apply (li_dom _ _ Hm); [done|]. by eapply dom_pred.
  - rewrite lookup_insert_ne in Hz by done. destruct Hz as [y Hy].
    assert (z ≠ entry) as Hze.
    { intros ->. apply Hez. by apply (all_paths_entry R). }
    destruct (tw_row _ (li_wf _ _ Hm) z y Hy) as (Hzin & Hys & Hlt). specialize (Hlt Hze).
    pose proof (li_dom _ _ Hm z e ltac:(eauto) He) as Hc.
    apply (chain_step m z y e Hze Hy) in Hc as [?|Hc]; [done|].
    eapply chain_up; [done|rewrite lookup_insert_ne by done; exact Hy|].
    apply (IH (rk y)); [done|done|apply lookup_insert_is_Some'; by right|].
    pose proof (chain_rk m e y (li_wf _ _ Hm) Hc) as Hle.
    destruct (decide (e = y)) as [->|Hey]; [apply all_paths_refl|].
    apply (dom_tree_up e y z); [|  |done].
    + apply (chain_tree m s); [done|]. eapply chain_up; [done|exact Hy|constructor].
    + assert (rk e ≠ rk y); [|lia]. intros Heq. apply Hey, (or_inj Ho); [|by eapply tw_in, Hys; apply Hm|done].
      clear -Hc Hys Hm Ho. induction Hc as [|y w Hyne Hyw _ IH]; [by eapply tw_in, Hys; apply Hm|].
      apply IH. by destruct (tw_row _ (li_wf _ _ Hm) y w Hyw) as (_ & ? & _).
Qed.

Lemma step_inv : loop_inv m' (S s).
Proof.
  split; [exact step_wf|exact step_dom| | | |].
  - intros z y. rewrite lookup_insert_Some. intros [[<- <-]|[Hzx Hzy]] Hzne.
    + split; [apply lookup_insert_is_Some'; right; apply step_parent|exact step_tree].
    + destruct (li_tree _ _ Hm z y Hzy Hzne). split; [apply lookup_insert_is_Some'; by right|done].
  - intros z y e. rewrite lookup_insert_Some. intros [[<- <-]|[Hzx Hzy]] Hzne Hall.
    + apply (chain_rk m); [apply Hm|]. apply Hd. intros p Hp. apply chain_shrinks; [apply Hp|].
      by apply Hall, known_known.
    + apply (li_rank _ _ Hm z y e Hzy Hzne). intros p Hp. apply chain_shrinks; [apply Hp|].
      by apply Hall, known_known.
  - intros z Hz Hlt. apply lookup_insert_is_Some'. destruct (decide (z = x)) as [->|Hzx]; [by left|right].
    apply (li_before _ _ Hm); [done|]. assert (rk z ≠ rk x) by (intros ?; by apply Hzx, (or_inj Ho)). lia.
  - intros z y e. rewrite lookup_insert_Some. intros [[<- <-]|[Hzx Hzy]] Hzne Hlt.
    + destruct (or_par Ho x Hx Hne) as (_ & _ & Hpx).
      rewrite !chain_low by (done || apply step_rank). apply step_below.
    + destruct (tw_row _ (li_wf _ _ Hm) z y Hzy) as (Hz & _ & Hyz). specialize (Hyz Hzne).
      destruct (or_par Ho z Hz Hzne) as (_ & _ & Hpz).
      assert (rk z < s). { assert (rk z ≠ rk x) by (intros ?; by apply Hzx, (or_inj Ho)). lia. }
      rewrite !chain_low by lia. by apply (li_forward _ _ Hm z y).
Qed.
End step.

(** ** Passes *)

(** Ranks of the entries, with the number of nodes for a missing one. *)
Definition row_rank (m : gmap Z Z) (x : Z) : nat :=
  match m !! x with Some y => rk y | None => length rpo end.
Definition total_rank (m : gmap Z Z) : nat := sum_list (map (row_rank m) rpo).

Lemma total_rank_insert m x d :
  x ∈ rpo → rk d < row_rank m x → total_rank (<[x := d]> m) < total_rank m.
Proof.
  clear Ho Hsize. unfold total_rank. intros Hx Hlt.
  assert (∀ z, row_rank (<[x := d]> m) z ≤ row_rank m z) as Hle.
  { intros z. unfold row_rank at 1. destruct (decide (z = x)) as [->|Hne].
    - rewrite lookup_insert_eq. lia.
    - by rewrite lookup_insert_ne. }
  assert (∀ l, sum_list (map (row_rank (<[x := d]> m)) l) ≤ sum_list (map (row_rank m) l)) as Hsum.
  { induction l as [|z l IH]; simpl; [done|]. specialize (Hle z). lia. }
  induction rpo as [|z l IH]; [by apply elem_of_nil in Hx|]. simpl.
  apply elem_of_cons in Hx as [<-|Hx].
  - specialize (Hsum l). unfold row_rank at 1. rewrite lookup_insert_eq. lia.
  - specialize (IH Hx). specialize (Hle z). lia.
Qed.

Lemma total_rank_bound m : table_wf m → total_rank m ≤ length rpo * length rpo.
Proof.
  intros Hm. unfold total_rank.
  assert (∀ x, row_rank m x ≤ length rpo) as Hle.
  { intros x. unfold row_rank. destruct (m !! x) as [y|] eqn:Hy; [|done].
    destruct (tw_row _ Hm x y Hy) as (_ & Hys & _). pose proof (or_bound Ho y (tw_in m y Hm Hys)). lia. }
  assert (∀ l, sum_list (map (row_rank m) l) ≤ length l * length rpo) as Hsum; [|apply Hsum].
  induction l as [|x l IH]; simpl; [done|]. specialize (Hle x). lia.
Qed.

Definition settled (m : gmap Z Z) (x : Z) : Prop := ∃ d, m !! x = Some d ∧ meet_of m x d.

Definition pass_inv (m0 : gmap Z Z) (done : list Z) (st : gmap Z Z * bool) : Prop :=
  loop_inv st.1 (length done) ∧
  if st.2 then total_rank st.1 < total_rank m0
  else st.1 = m0 ∧ ∀ x, x ∈ done → x ≠ entry → settled m0 x.

Lemma inv_weaken m s s' : s' ≤ s → loop_inv m s → loop_inv m s'.
Proof. intros Hs [? ? ? ? Hb Hf]. split; try done; intros; [apply Hb|eapply Hf]; eauto; lia. Qed.

(** The entry needs no work. *)
Lemma inv_entry m : loop_inv m 0 → loop_inv m 1.
Proof.
  intros Hm. destruct (or_entry Ho) as [He H0].
  assert (∀ x, x ∈ rpo → rk x < 1 → x = entry) as Hx by (intros x Hx Hlt; apply (or_inj Ho); [done|done|lia]).
  destruct Hm as [Hwf ? ? ? Hb Hf]. split; try done.
  - intros x Hxin Hlt. rewrite (Hx x Hxin Hlt). exists entry. apply (tw_entry _ Hwf).
  - intros x y e Hxy Hne Hlt. destruct Hne. apply Hx; [|done]. by destruct (tw_row _ Hwf x y Hxy).
Qed.

Lemma pass_step m0 l1 x l2 st :
  rpo = l1 ++ x :: l2 → pass_inv m0 l1 st →
  ∃ st', idom_step cf_preds entry idx st x = Ret st' ∧ pass_inv m0 (l1 ++ [x]) st'.
Proof.
  intros Hrpo [Hm Hch]. destruct st as [m ch]. simpl in *. unfold pass_inv, idom_step.
  assert (rpo !! length l1 = Some x) as Hlk by (rewrite Hrpo; by apply list_lookup_middle).
  pose proof (or_order Ho _ _ Hlk) as Hrk. apply list_elem_of_lookup_2 in Hlk as Hx.
  assert (length (l1 ++ [x]) = S (length l1)) as Hlen by (rewrite length_app; simpl; lia).
  destruct (Z.eqb_spec x entry) as [Heq|Hne].
  { exists (m, ch). split; [done|]. rewrite Hlen. destruct (or_entry Ho) as [_ H0].
    assert (length l1 = 0) as Hz by (rewrite <-Hrk, Heq; done). rewrite Hz in Hm |- *. simpl.
    split; [by apply inv_entry|]. destruct ch; [done|]. destruct Hch as [-> Hall]. split; [done|].
    intros y [Hy| ->%list_elem_of_singleton]%elem_of_app Hyne; [by apply Hall|done]. }
  pose proof (step_parent m (length l1) x Hm Hx Hrk Hne) as Hpar.
  destruct (new_idom_spec m x (li_wf _ _ Hm) Hx) as (d & -> & Hd); [by exists (par x)|].
  cbn [mbind outcome_bind].
  pose proof (step_inv m (length l1) x d Hm Hx Hrk Hne Hd) as Hm'.
  destruct (decide (m !! x = Some d)) as [Hsame|Hnew].
  - exists (m, ch). split; [done|]. rewrite Hlen. simpl. rewrite insert_id in Hm' by done.
    split; [done|]. destruct ch; [done|]. destruct Hch as [-> Hall]. split; [done|].
    intros y [Hy| ->%list_elem_of_singleton]%elem_of_app Hyne; [by apply Hall|]. by exists d.
  - exists (<[x := d]> m, true). split; [done|]. rewrite Hlen. simpl. split; [done|].
    assert (total_rank (<[x := d]> m) < total_rank m) as Hlt.
    { apply total_rank_insert; [done|]. unfold row_rank.
      pose proof (step_rank m (length l1) x d Hm Hx Hrk Hne Hd) as [_ Hdx].
      destruct (m !! x) as [o|] eqn:Hxo; [|pose proof (or_bound Ho x Hx); lia].
      pose proof (step_old m (length l1) x d Hm Hx Hrk Hne Hd o Hxo) as Hdo.
      pose proof (chain_rk m d o (li_wf _ _ Hm) Hdo) as Hle.
      assert (rk d ≠ rk o); [|lia]. intros Heq. apply Hnew. f_equal. symmetry.
      destruct (tw_row _ (li_wf _ _ Hm) x o Hxo) as (_ & Hos & _). destruct Hd as [Hds _].
      apply (or_inj Ho); [by eapply tw_in; [apply Hm|]|by eapply tw_in; [apply Hm|]|done]. }
    destruct ch; [lia|]. destruct Hch as [-> _]. done.
Qed.

Lemma pass_spec m :
  loop_inv m 0 → ∃ m' ch, for_each (idom_step cf_preds entry idx) (m, false) rpo = Ret (m', ch) ∧
    loop_inv m' 0 ∧
    if ch : bool then total_rank m' < total_rank m
    else m' = m ∧ loop_inv m (length rpo) ∧ ∀ x, x ∈ rpo → x ≠ entry → settled m x.
Proof.
  intros Hm. destruct (for_each_ind (idom_step cf_preds entry idx) (pass_inv m) rpo (m, false))
    as ([m' ch] & Hr & Hinv & Hch).
  - split; [done|]. simpl. split; [done|]. intros x Hx. by apply elem_of_nil in Hx.
  - intros l1 x l2 st Hl Hst. by apply (pass_step m l1 x l2).
  - simpl in *. exists m', ch. split; [done|]. split; [eapply inv_weaken; [|done]; lia|].
    destruct ch; [done|]. destruct Hch as [-> ?]. done.
Qed.

Lemma idom_loop_spec fuel m :
  loop_inv m 0 → total_rank m < fuel →
  ∃ m', idom_loop cf_preds fuel entry rpo idx m = Ret m' ∧ loop_inv m' (length rpo) ∧
    ∀ x, x ∈ rpo → x ≠ entry → settled m' x.
Proof.
  revert m. induction fuel as [|fuel IH]; intros m Hm Hf; [lia|]. simpl.
  destruct (pass_spec m Hm) as (m' & ch & -> & Hm' & Hch). cbn [mbind outcome_bind].
  destruct ch; [apply IH; [done|lia]|]. destruct Hch as (-> & ? & ?). by exists m.
Qed.

Lemma initial_inv : loop_inv {[entry := entry]} 0.
Proof.
  destruct (or_entry Ho) as [He H0].
  assert (∀ x y, ({[entry := entry]} : gmap Z Z) !! x = Some y → x = entry ∧ y = entry) as Hrow.
  { intros x y [<- <-]%lookup_singleton_Some. done. }
  split.
  - split; [by rewrite lookup_singleton_eq|]. intros x y [-> ->]%Hrow.
    split_and!; [done|rewrite lookup_singleton_eq; eauto|done].
  - intros x e [y [-> ->]%Hrow] Hd. apply (all_paths_entry R) in Hd as ->. constructor.
  - by intros x y [-> ->]%Hrow.
  - by intros x y e [-> ->]%Hrow.
  - lia.
  - by intros x y e [-> ->]%Hrow.
Qed.

(** ** The fixed point *)

Lemma settled_dominators m x d :
  loop_inv m (length rpo) → (∀ x, x ∈ rpo → x ≠ entry → settled m x) → x ∈ rpo →
  on_chain m d x ↔ dom d x.
Proof.
  intros Hm Hset Hx. split.
  2:{ intros Hd. apply (li_dom _ _ Hm); [|done]. apply (li_before _ _ Hm); [done|by apply (or_bound Ho)]. }
  intros Hc l Hl. revert x Hx Hc Hl. remember (length l) as k eqn:Hk. revert l Hk.
  induction k as [k IH] using lt_wf_ind. intros l -> x Hx Hc Hl.
  destruct (path_last R _ _ _ Hl) as [[Heq ->]|(c & l' & Hl' & Hcx & ->)].
  { subst x. apply chain_entry in Hc as ->. by left. }
  destruct (decide (x = entry)) as [->|Hne].
  { apply chain_entry in Hc as ->. by destruct (path_ends R _ _ _ Hl). }
  destruct (Hset x Hx Hne) as (y & Hy & _ & Hmeet).
  apply elem_of_app. apply (chain_step m x y d Hne Hy) in Hc as [->|Hc]; [right; by left|left].
  assert (c ∈ rpo) as Hcin by (apply (or_all Ho); by eapply path_rtc).
  apply (IH (length l')) with (x := c); [rewrite length_app; simpl; lia|done|done| |done].
  apply (proj1 (Hmeet d) Hc). split; [done|].
  apply (li_before _ _ Hm); [done|by apply (or_bound Ho)].
Qed.

(** The result: for each node, its chain in the table is the set of its dominators. *)
Lemma iteration_spec :
  ∃ m, idom_loop cf_preds (pass_fuel rpo) entry rpo idx {[entry := entry]} = Ret m ∧
    table_wf m ∧ (∀ x, x ∈ rpo → is_Some (m !! x)) ∧
    ∀ x d, x ∈ rpo → on_chain m d x ↔ dom d x.
Proof.
  destruct (idom_loop_spec (pass_fuel rpo) {[entry := entry]} initial_inv) as (m & Hr & Hm & Hset).
  { pose proof (total_rank_bound _ (li_wf _ _ initial_inv)). unfold pass_fuel. lia. }
  exists m. split; [done|]. split; [apply Hm|]. split.
  - intros x Hx. apply (li_before _ _ Hm); [done|by apply (or_bound Ho)].
  - intros x d Hx. by apply settled_dominators.
Qed.

(** ** Queries on the table *)

Lemma walk_spec m a x fuel :
  table_wf m → is_Some (m !! x) → rk x < fuel →
  ∃ b, cfg_walk_up fuel (delete entry m) a x = Ret b ∧
    (b = true ↔ ∃ y, x ≠ entry ∧ m !! x = Some y ∧ on_chain m a y).
Proof.
  intros Hm. revert x. induction fuel as [|fuel IH]; intros x Hx Hf; [lia|]. simpl.
  destruct (decide (x = entry)) as [->|Hne].
  { rewrite lookup_delete_eq. exists false. split; [done|]. split; [done|by intros (? & ? & _)]. }
  rewrite lookup_delete_ne by done. destruct Hx as [y Hy]. rewrite Hy.
  destruct (tw_row _ Hm x y Hy) as (_ & Hys & Hlt). specialize (Hlt Hne).
  destruct (Z.eqb_spec y a) as [->|Hya].
  - exists true. split; [done|]. split; [|done]. intros _. exists a. split_and!; [done..|constructor].
  - destruct (IH y Hys ltac:(lia)) as (b & Hb & Hbs). exists b. split; [done|]. rewrite Hbs. split.
    + intros (z & Hyne & Hyz & Hc). exists y. split_and!; [done..|]. by eapply chain_up.
    + intros (z & _ & Hz & Hc). assert (z = y) as -> by congruence.
      inversion Hc as [|? w Hyne Hyw Hcw]; subst; [done|]. by exists w.
Qed.

Lemma cfg_dominates_spec m a x :
  table_wf m → (∀ x, x ∈ rpo → is_Some (m !! x)) → x ∈ rpo →
  ∃ b, cfg_dominates (delete entry m) a x = Ret b ∧ (b = true ↔ on_chain m a x).
Proof.
  intros Hm Hall Hx. unfold cfg_dominates. destruct (Z.eqb_spec a x) as [->|Hne].
  { exists true. split; [done|]. split; [constructor|done]. }
  destruct (walk_spec m a x (S (size (delete entry m))) Hm (Hall x Hx)) as (b & Hb & Hbs).
  { pose proof (or_bound Ho x Hx). assert (length rpo ≤ S (size (delete entry m))); [|lia].
    assert (NoDup rpo) as Hnd.
    { apply NoDup_alt. intros i j y Hi Hj. by rewrite <-(or_order Ho i y Hi), <-(or_order Ho j y Hj). }
    assert (length rpo ≤ length (entry :: elements (base.dom (delete entry m)))) as Hle.
    { apply submseteq_length, NoDup_submseteq; [done|]. intros y Hy.
      destruct (decide (y = entry)) as [->|Hye]; [by left|right].
      apply elem_of_elements, elem_of_dom. rewrite lookup_delete_ne by done. by apply Hall. }
    rewrite <-size_dom. exact Hle. }
  exists b. split; [done|]. rewrite Hbs. split.
  - intros (y & Hxe & Hy & Hc). by eapply chain_up.
  - inversion 1 as [|? y Hxe Hy Hc]; subst; [done|]. by exists y.
Qed.

Lemma cfg_dominates_unknown m a x :
  table_wf m → x ∉ rpo → cfg_dominates (delete entry m) a x = Ret (a =? x)%Z.
Proof.
  intros Hm Hx. unfold cfg_dominates. destruct (a =? x)%Z; [done|]. simpl.
  destruct (delete entry m !! x) as [y|] eqn:Hy; [|done].
  apply lookup_delete_Some in Hy as [_ Hy]. by destruct (tw_row _ Hm x y Hy).
Qed.
End iteration.
