(* ===== verification/LoopSearch.v ===== *)
(** * The searches of the loop detector

    The two depth-first searches of [LoopDetection]: the nodes reachable along control flow,
    and their reverse postorder, in which every node but the entry has a predecessor before it;
    so the order is one that [LoopDom] asks for. *)

From S2P Require Import Prelude Dominance DomTree LoopDetection LoopDom.
From stdpp Require Import gmap relations.
From stdpp Require Import options.

#[local] Open Scope nat_scope.

(** What is closed under steps holds of all that is reached. *)
Lemma rtc_closed {B} (Q : B → B → Prop) (P : B → Prop) a x :
  (∀ y z, P y → Q y z → P z) → P a → rtc Q a x → P x.
Proof. intros Hcl Ha. induction 1 as [|a b x Hab _ IH]; eauto. Qed.

Section searches.
  Context (cf_succs : gmap Z (list Z)) (entry : Z).

#[local] Notation R := (λ a b, b ∈ neighbours cf_succs a).

(** ** Edges not yet followed *)

Definition unfollowed (visited : gset Z) : nat :=
  sum_list (map (λ p : Z * list Z, length p.2)
    (filter (λ p : Z * list Z, p.1 ∉ visited) (map_to_list cf_succs))).

Lemma sum_filter_le (P : Z * list Z → Prop) `{!∀ p, Decision (P p)} l :
  sum_list (map (λ p : Z * list Z, length p.2) (filter P l)) ≤
  sum_list (map (λ p : Z * list Z, length p.2) l).
Proof. induction l as [|p l IH]; [done|]. rewrite filter_cons. case_decide; simpl; lia. Qed.

Lemma unfollowed_empty : unfollowed ∅ ≤ edge_total cf_succs.
Proof. apply sum_filter_le. Qed.

Lemma unfollowed_visit n visited :
  n ∉ visited → unfollowed ({[n]} ∪ visited) + length (neighbours cf_succs n) ≤ unfollowed visited.
Proof.
  intros Hn. unfold unfollowed, neighbours. destruct (cf_succs !! n) as [l|] eqn:Hl; simpl.
  2:{ assert (∀ L, sum_list (map (λ p : Z * list Z, length p.2) (filter (λ p : Z * list Z, p.1 ∉ {[n]} ∪ visited) L))
        ≤ sum_list (map (λ p : Z * list Z, length p.2) (filter (λ p : Z * list Z, p.1 ∉ visited) L))) as H; [|specialize (H (map_to_list cf_succs)); lia].
      induction L as [|[k v] L IH]; [done|]. rewrite !filter_cons. simpl.
      destruct (decide (k ∉ {[n]} ∪ visited)), (decide (k ∉ visited)); simpl; try lia. set_solver. }
  apply elem_of_map_to_list in Hl.
  assert (∀ L, sum_list (map (λ p : Z * list Z, length p.2) (filter (λ p : Z * list Z, p.1 ∉ {[n]} ∪ visited) L))
    + (if decide ((n, l) ∈ L) then length l else 0)
    ≤ sum_list (map (λ p : Z * list Z, length p.2) (filter (λ p : Z * list Z, p.1 ∉ visited) L))) as H.
  2:{ specialize (H (map_to_list cf_succs)). by rewrite decide_True in H. }
  induction L as [|[k v] L IH]; [by rewrite decide_False by apply not_elem_of_nil|].
  rewrite !filter_cons. simpl. destruct (decide (k = n)) as [->|Hk].
  - rewrite (decide_False (P := n ∉ {[n]} ∪ visited)), (decide_True (P := n ∉ visited)) by set_solver. simpl.
    destruct (decide ((n, l) ∈ (n, v) :: L)) as [Hin|]; [|destruct (decide ((n, l) ∈ L)); lia].
    apply elem_of_cons in Hin as [[= ->]|Hin]; [destruct (decide ((n, v) ∈ L)); lia|].
    rewrite decide_True in IH by done. lia.
  - destruct (decide ((n, l) ∈ (k, v) :: L)) as [Hin|].
    + apply elem_of_cons in Hin as [[= ? ?]|Hin]; [congruence|]. rewrite decide_True in IH by done.
      destruct (decide (k ∉ {[n]} ∪ visited)), (decide (k ∉ visited)); simpl; try lia; set_solver.
    + destruct (decide ((n, l) ∈ L)); destruct (decide (k ∉ {[n]} ∪ visited)), (decide (k ∉ visited)); simpl; try lia; set_solver.
Qed.

(** ** Reachability *)

Lemma push_unvisited (visited : gset Z) l rest :
  ∃ new, fold_left (λ st succ, if decide (succ ∈ visited) then st else succ :: st) l rest = new ++ rest ∧
    length new ≤ length l ∧ ∀ y, y ∈ new ↔ y ∈ l ∧ y ∉ visited.
Proof.
  revert rest. induction l as [|x l IH]; intros rest; simpl.
  { exists []. split_and!; [done..|]. set_solver. }
  destruct (decide (x ∈ visited)) as [Hx|Hx].
  - destruct (IH rest) as (new & -> & Hlen & Hin). exists new. split_and!; [done|lia|]. intros y. rewrite Hin. set_solver.
  - destruct (IH (x :: rest)) as (new & -> & Hlen & Hin). exists (new ++ [x]).
    rewrite <-app_assoc, length_app. split_and!; [done|simpl; lia|]. intros y.
    rewrite elem_of_app, Hin, list_elem_of_singleton. set_solver.
Qed.

Lemma reach_loop_spec fuel visited stack :
  length stack + unfollowed visited < fuel →
  (∀ x, x ∈ visited ∨ x ∈ stack → rtc R entry x) → entry ∈ visited ∨ entry ∈ stack →
  (∀ x y, x ∈ visited → R x y → y ∈ visited ∨ y ∈ stack) →
  ∃ v, reach_loop cf_succs fuel visited stack = Ret v ∧ ∀ x, x ∈ v ↔ rtc R entry x.
Proof.
  revert visited stack. induction fuel as [|fuel IH]; intros visited stack Hf Hin He Hcl; [lia|]. simpl.
  destruct stack as [|n rest].
  - exists visited. split; [done|]. intros x. split; [intros Hx; apply Hin; by left|]. intros Hr.
    destruct He as [He|He]; [|by apply elem_of_nil in He].
    apply (rtc_closed R (λ x, x ∈ visited) entry x); [|done|done].
    intros y z Hy Hyz. destruct (Hcl y z Hy Hyz) as [|Hz]; [done|by apply elem_of_nil in Hz].
  - simpl in Hf. case_decide as Hn.
    + apply IH; [lia| | |].
      * intros x [Hx|Hx]; apply Hin; [by left|right; by right].
      * destruct He as [|[->|]%elem_of_cons]; auto.
      * intros x y Hx Hxy. destruct (Hcl x y Hx Hxy) as [|[->|]%elem_of_cons]; auto.
    + destruct (push_unvisited ({[n]} ∪ visited) (neighbours cf_succs n) rest) as (new & -> & Hlen & Hnew).
      pose proof (unfollowed_visit n visited Hn).
      assert (rtc R entry n) as Hrn by (apply Hin; right; by left).
      apply IH; [rewrite length_app; lia| | |].
      * intros x [[->%elem_of_singleton|Hx]%elem_of_union|[Hx|Hx]%elem_of_app]; [done|apply Hin; by left| |].
        -- apply Hnew in Hx as [Hx _]. eapply rtc_r; [exact Hrn|exact Hx].
        -- apply Hin. right. by right.
      * destruct He as [|[->|]%elem_of_cons]; set_solver.
      * intros x y [->%elem_of_singleton|Hx]%elem_of_union Hxy.
        -- destruct (decide (y ∈ {[n]} ∪ visited)); [by left|right]. apply elem_of_app. left. by apply Hnew.
        -- destruct (Hcl x y Hx Hxy) as [|[->|]%elem_of_cons]; set_solver.
Qed.

Lemma cf_reachable_spec :
  ∃ v, cf_reachable cf_succs entry = Ret v ∧ ∀ x, x ∈ v ↔ rtc R entry x.
Proof.
  apply reach_loop_spec.
  - pose proof unfollowed_empty. simpl. lia.
  - intros x [Hx| ->%list_elem_of_singleton]; [set_solver|constructor].
  - right. by left.
  - set_solver.
Qed.

(** ** Postorder *)

(** Nodes waiting to be emitted. *)
Definition waiting (stack : list (Z * bool)) : list Z :=
  omap (λ '(n, b), if b : bool then Some n else None) stack.

(** Every node on the stack but the entry was pushed by a node that waits below it. *)
Fixpoint pushed_ok (stack : list (Z * bool)) : Prop :=
  match stack with
  | [] => True
  | (n, _) :: rest => (n = entry ∨ ∃ p, p ∈ waiting rest ∧ R p n) ∧ pushed_ok rest
  end.

(** An emitted node but the entry has a predecessor that comes later, or still waits. *)
Definition emitted_ok (out stack : list Z) : Prop :=
  ∀ i n, out !! i = Some n →
    n = entry ∨ ∃ p, R p n ∧ ((∃ j, i < j ∧ out !! j = Some p) ∨ p ∈ stack).

Record post_inv (visited : gset Z) (out : list Z) (stack : list (Z * bool)) : Prop := {
  po_nodup : NoDup (out ++ waiting stack);
  po_visited : ∀ x, x ∈ visited ↔ x ∈ out ++ waiting stack;
  po_reach : ∀ x b, (x, b) ∈ stack → rtc R entry x;
  po_out : ∀ x, x ∈ out → rtc R entry x;
  po_pushed : pushed_ok stack;
  po_emitted : emitted_ok out (waiting stack);
  po_entry : entry ∈ visited ∨ (entry, false) ∈ stack;
  po_closed : ∀ x y, x ∈ visited → R x y → y ∈ visited ∨ (y, false) ∈ stack;
}.

Lemma waiting_app s1 s2 : waiting (s1 ++ s2) = waiting s1 ++ waiting s2.
Proof. apply omap_app. Qed.

Lemma waiting_false l : waiting (map (λ c, (c, false)) l) = [].
Proof. unfold waiting. by induction l. Qed.

Lemma elem_of_waiting n stack : n ∈ waiting stack ↔ (n, true) ∈ stack.
Proof.
  unfold waiting. rewrite list_elem_of_omap. split.
  - intros ([m []] & Hin & ?); by simplify_eq.
  - intros Hin. by exists (n, true).
Qed.

Lemma push_children_spec (visited reachable : gset Z) l rest :
  (∀ y, y ∈ l → y ∈ reachable) →
  ∃ new, fold_left (λ st succ, if negb (bool_decide (succ ∈ visited)) && bool_decide (succ ∈ reachable)
                               then (succ, false) :: st else st) l rest
         = map (λ c, (c, false)) new ++ rest ∧
    length new ≤ length l ∧ ∀ y, y ∈ new ↔ y ∈ l ∧ y ∉ visited.
Proof.
  revert rest. induction l as [|x l IH]; intros rest Hl; simpl.
  { exists []. split_and!; [done..|]. set_solver. }
  rewrite (bool_decide_true (x ∈ reachable)) by (apply Hl; by left). rewrite andb_true_r.
  assert (∀ y, y ∈ l → y ∈ reachable) as Hl' by (intros y Hy; apply Hl; by right).
  destruct (decide (x ∈ visited)) as [Hx|Hx].
  - rewrite bool_decide_true by done. simpl. destruct (IH rest Hl') as (new & -> & Hlen & Hin).
    exists new. split_and!; [done|lia|]. intros y. rewrite Hin. set_solver.
  - rewrite bool_decide_false by done. simpl. destruct (IH ((x, false) :: rest) Hl') as (new & -> & Hlen & Hin).
    exists (new ++ [x]). rewrite map_app, <-app_assoc, length_app. split_and!; [done|simpl; lia|].
    intros y. rewrite elem_of_app, Hin, list_elem_of_singleton. set_solver.
Qed.

Lemma pushed_children n new rest :
  pushed_ok ((n, true) :: rest) → (∀ c, c ∈ new → R n c) →
  pushed_ok (map (λ c, (c, false)) new ++ (n, true) :: rest).
Proof.
  intros Hn. induction new as [|c new IH]; intros Hc; [done|]. simpl. split.
  - right. exists n. split; [|apply Hc; by left].
    rewrite waiting_app. apply elem_of_app. right. by left.
  - apply IH. intros d Hd. apply Hc. by right.
Qed.

(** Emitting the node on top. *)
Lemma emit_inv visited out n rest :
  post_inv visited out ((n, true) :: rest) → post_inv visited (out ++ [n]) rest.
Proof.
  intros [Hnd Hv Hr Ho Hp He Hen Hcl]. cbn [waiting omap list_omap] in *.
  change (omap _ rest) with (waiting rest) in *. destruct Hp as [Hn Hp].
  assert (∀ y, (y, false) ∈ (n, true) :: rest → (y, false) ∈ rest) as Hf.
  { intros y [?|?]%elem_of_cons; [congruence|done]. }
  split.
  - by rewrite <-app_assoc.
  - intros x. rewrite Hv, <-app_assoc. done.
  - intros x b Hx. apply (Hr x b). by right.
  - intros x [Hx| ->%list_elem_of_singleton]%elem_of_app; [by apply Ho|]. apply (Hr n true). by left.
  - done.
  - intros i m Hm. apply lookup_app_Some in Hm as [Hm|[Hge Hm]].
    + destruct (He i m Hm) as [?|(p & Hpm & [(j & Hij & Hj)|Hpw])]; [by left|right..]; exists p.
      * split; [done|]. left. exists j. split; [done|]. by apply lookup_app_l_Some.
      * split; [done|]. apply elem_of_cons in Hpw as [->|Hpw]; [left|by right].
        exists (length out). split; [by eapply lookup_lt_Some|].
        by rewrite lookup_app_r, Nat.sub_diag by done.
    + apply list_lookup_singleton_Some in Hm as [_ <-]. destruct Hn as [?|(p & Hpw & Hpn)]; [by left|right].
      exists p. split; [done|by right].
  - destruct Hen as [?|?%Hf]; auto.
  - intros x y Hx Hxy. destruct (Hcl x y Hx Hxy) as [?|?%Hf]; auto.
Qed.

(** Skipping a node that is visited. *)
Lemma skip_inv visited out n rest :
  n ∈ visited → post_inv visited out ((n, false) :: rest) → post_inv visited out rest.
Proof.
  intros Hn [Hnd Hv Hr Ho [_ Hp] He Hen Hcl]. split; try done.
  - intros x b Hx. apply (Hr x b). by right.
  - destruct Hen as [|[[= ->]|]%elem_of_cons]; auto.
  - intros x y Hx Hxy. destruct (Hcl x y Hx Hxy) as [|[[= ->]|]%elem_of_cons]; auto.
Qed.

(** Visiting a node. *)
Lemma visit_post_inv visited out n rest new :
  n ∉ visited → post_inv visited out ((n, false) :: rest) →
  (∀ c, c ∈ new ↔ R n c ∧ c ∉ {[n]} ∪ visited) →
  post_inv ({[n]} ∪ visited) out (map (λ c, (c, false)) new ++ (n, true) :: rest).
Proof.
  intros Hn [Hnd Hv Hr Ho Hp He Hen Hcl] Hnew.
  assert (waiting (map (λ c, (c, false)) new ++ (n, true) :: rest) = n :: waiting rest) as Hw.
  { by rewrite waiting_app, waiting_false. }
  change (waiting ((n, false) :: rest)) with (waiting rest) in *.
  assert (rtc R entry n) as Hrn by (apply (Hr n false); by left).
  split.
  - rewrite Hw, <-Permutation_middle. constructor; [|done]. by rewrite <-Hv.
  - intros x. rewrite Hw, <-Permutation_middle, elem_of_cons, <-Hv. set_solver.
  - intros x b. rewrite elem_of_app, (list_elem_of_fmap (λ c, (c, false))).
    intros [(c & [= -> ->] & Hc)|[[= -> ->]|Hx]%elem_of_cons]; [|done|by apply (Hr x b); right].
    apply Hnew in Hc as [Hc _]. by eapply rtc_r.
  - done.
  - apply pushed_children; [|by intros c [? _]%Hnew]. by destruct Hp.
  - rewrite Hw. intros i m Hm. destruct (He i m Hm) as [?|(p & Hpm & [?|?])]; [by left|right..]; exists p.
    + split; [done|by left].
    + split; [done|right; by right].
  - destruct Hen as [?|[[= ->]|Hin]%elem_of_cons]; [left; set_solver|left; set_solver|right].
    apply elem_of_app. right. by right.
  - intros x y [->%elem_of_singleton|Hx]%elem_of_union Hxy.
    + destruct (decide (y ∈ {[n]} ∪ visited)) as [|Hy]; [by left|right]. apply elem_of_app. left.
      apply (list_elem_of_fmap_2 (λ c, (c, false))). by apply Hnew.
    + destruct (Hcl x y Hx Hxy) as [|[[= ->]|Hin]%elem_of_cons]; [left; set_solver|left; set_solver|right].
      apply elem_of_app. right. by right.
Qed.

Lemma post_done v l : post_inv v l [] → ∀ x, x ∈ l ↔ rtc R entry x.
Proof.
  intros [Hnd Hv Hr Ho Hp He Hen Hcl] x. change (waiting []) with (@nil Z) in *. rewrite app_nil_r in *.
  split; [apply Ho|]. intros Hx. apply (rtc_closed R (λ x, x ∈ l) entry x); [| |done].
  - intros y z Hy%Hv Hyz. apply Hv. destruct (Hcl y z Hy Hyz) as [?|?%elem_of_nil]; done.
  - apply Hv. destruct Hen as [?|?%elem_of_nil]; done.
Qed.
Section with_reachable.
  Context (reachable : gset Z) (Hreach : ∀ x, x ∈ reachable ↔ rtc R entry x).
  #[local] Set Default Proof Using "All".

Lemma rpo_loop_spec fuel visited out stack :
  post_inv visited out stack →
  length stack + unfollowed visited + size (reachable ∖ visited) < fuel →
  ∃ l, rpo_loop cf_succs fuel reachable visited out stack = Ret l ∧
    ∃ v, post_inv v l [].
Proof.
  revert visited out stack. induction fuel as [|fuel IH]; intros visited out stack Hi Hf; [lia|]. simpl.
  destruct stack as [|[n b] rest]; [by eauto|]. simpl in Hf. destruct b.
  { apply IH; [by apply emit_inv|lia]. }
  assert (n ∈ reachable) as Hnr by (apply Hreach; apply (po_reach _ _ _ Hi n false); by left).
  rewrite (bool_decide_true (n ∈ reachable)) by done. cbn [negb orb].
  destruct (decide (n ∈ visited)) as [Hn|Hn].
  { rewrite bool_decide_true by done. apply IH; [by eapply skip_inv|lia]. }
  rewrite (bool_decide_false (n ∈ visited)) by done.
  destruct (push_children_spec ({[n]} ∪ visited) reachable (rev (neighbours cf_succs n)) ((n, true) :: rest))
    as (new & -> & Hlen & Hnew).
  { intros y Hy. apply Hreach. eapply rtc_r; [by apply Hreach|]. by rewrite <-Permutation_rev in Hy. }
  rewrite length_rev in Hlen. pose proof (unfollowed_visit n visited Hn).
  apply IH.
  - apply visit_post_inv; [done|done|]. intros c. rewrite Hnew, <-Permutation_rev. done.
  - rewrite length_app, length_map. simpl.
    assert (size (reachable ∖ ({[n]} ∪ visited)) < size (reachable ∖ visited)); [|lia].
    apply subset_size. set_solver.
Qed.

End with_reachable.

(** ** The order *)

Lemma index_map_lookup rpo x i : NoDup rpo → index_map rpo !! x = Some i ↔ rpo !! i = Some x.
Proof.
  intros Hnd. unfold index_map.
  assert ((imap (λ i (n : Z), (n, i)) rpo).*1 = rpo) as Hfst.
  { clear Hnd. rewrite fmap_imap. induction rpo as [|y l IH] using rev_ind; [done|].
    rewrite imap_app, IH. done. }
  rewrite <-elem_of_list_to_map by (by rewrite Hfst). rewrite elem_of_lookup_imap. split.
  - intros (j & y & [= -> ->] & Hj). done.
  - intros Hi. by exists i, x.
Qed.

Lemma index_map_size rpo : NoDup rpo → length rpo ≤ size (index_map rpo).
Proof.
  intros Hnd. rewrite <-size_dom.
  change (size (base.dom (index_map rpo))) with (length (elements (base.dom (index_map rpo)))).
  apply submseteq_length, NoDup_submseteq; [done|]. intros x [i Hi]%list_elem_of_lookup.
  apply elem_of_elements, elem_of_dom. exists i. by apply index_map_lookup.
Qed.

(** The first predecessor with a smaller index. *)
Definition first_parent (rpo : list Z) (x : Z) : Z :=
  default x (head (filter (λ p, x ∈ neighbours cf_succs p ∧
    idx_of (index_map rpo) p < idx_of (index_map rpo) x) rpo)).

Lemma first_parent_spec rpo x p :
  p ∈ rpo → R p x → idx_of (index_map rpo) p < idx_of (index_map rpo) x →
  first_parent rpo x ∈ rpo ∧ R (first_parent rpo x) x ∧
  idx_of (index_map rpo) (first_parent rpo x) < idx_of (index_map rpo) x.
Proof.
  intros Hp Hpx Hlt. unfold first_parent. set (P := λ p, _ ∧ _).
  assert (p ∈ filter P rpo) as Hin by by apply list_elem_of_filter.
  destruct (filter P rpo) as [|q l] eqn:Hl; [by apply elem_of_nil in Hin|]. simpl.
  assert (q ∈ filter P rpo) as Hq by (rewrite Hl; by left).
  apply list_elem_of_filter in Hq as [[? ?] ?]. done.
Qed.

Lemma reverse_index l i x : NoDup l → l !! i = Some x →
  idx_of (index_map (rev l)) x = length l - S i.
Proof.
  intros Hnd Hi. assert (rev l = reverse l) as Hrev by apply rev_alt. rewrite Hrev.
  assert (NoDup (reverse l)) as Hndr by by rewrite <-Hrev, <-Permutation_rev.
  unfold idx_of. rewrite (proj2 (index_map_lookup (reverse l) x (length l - S i) Hndr)); [done|].
  apply reverse_lookup_Some. apply lookup_lt_Some in Hi as Hlt. split; [|lia].
  by replace (length l - S (length l - S i)) with i by lia.
Qed.

Lemma post_ordered v l cf_preds :
  (∀ x p, p ∈ neighbours cf_preds x ↔ R p x) → post_inv v l [] →
  ordered R entry (rev l) (idx_of (index_map (rev l))) (first_parent (rev l)) cf_preds (index_map (rev l)).
Proof.
  intros Hpreds Hi. pose proof (po_nodup _ _ _ Hi) as Hnd. change (waiting []) with (@nil Z) in Hnd.
  rewrite app_nil_r in Hnd. pose proof (post_done v l Hi) as Hall.
  assert (NoDup (rev l)) as Hndr by by rewrite <-Permutation_rev.
  assert (∀ i x, rev l !! i = Some x → idx_of (index_map (rev l)) x = i) as Hidx.
  { intros i x Hx. unfold idx_of. by rewrite (proj2 (index_map_lookup (rev l) x i Hndr) Hx). }
  assert (∀ x, x ∈ rev l ↔ x ∈ l) as Hrev by (intros x; by rewrite <-Permutation_rev).
  assert (∀ x, x ∈ rev l → rev l !! idx_of (index_map (rev l)) x = Some x) as Hat.
  { intros x [i Hx]%list_elem_of_lookup. by rewrite (Hidx i x Hx). }
  (* each node but the entry has a smaller predecessor *)
  assert (∀ x, x ∈ rev l → x = entry ∨ ∃ p, p ∈ rev l ∧ R p x ∧
    idx_of (index_map (rev l)) p < idx_of (index_map (rev l)) x) as Hpar.
  { intros x Hx. apply Hrev in Hx as [i Hxi]%list_elem_of_lookup.
    destruct (po_emitted _ _ _ Hi i x Hxi) as [?|(p & Hpx & [(j & Hij & Hj)|Hno])]; [by left|right|].
    - exists p. split; [apply Hrev; by eapply list_elem_of_lookup_2|]. split; [done|].
      rewrite (reverse_index l i x Hnd Hxi), (reverse_index l j p Hnd Hj).
      apply lookup_lt_Some in Hj. lia.
    - by apply elem_of_nil in Hno. }
  assert (entry ∈ rev l) as He by (apply Hrev, Hall; constructor).
  split.
  - split; [done|]. destruct (rev l) as [|x l'] eqn:Hl; [by apply elem_of_nil in He|].
    assert (idx_of (index_map (x :: l')) x = 0) as Hx0 by by apply (Hidx 0).
    destruct (Hpar x ltac:(by left)) as [<-|(p & _ & _ & Hlt)]; [done|lia].
  - intros x y Hx Hy Heq. apply Hat in Hx, Hy. rewrite Heq in Hx. congruence.
  - intros x Hx. apply Hat, lookup_lt_Some in Hx. done.
  - done.
  - intros x. by rewrite Hrev, Hall.
  - intros x Hx Hne. destruct (Hpar x Hx) as [?|(p & Hp & Hpx & Hlt)]; [done|].
    by apply (first_parent_spec (rev l) x p).
  - done.
  - intros x p Hx. apply Hpreds.
Qed.

Lemma reverse_postorder_spec reachable cf_preds :
  (∀ x, x ∈ reachable ↔ rtc R entry x) → (∀ x p, p ∈ neighbours cf_preds x ↔ R p x) →
  ∃ rpo par, reverse_postorder cf_succs entry reachable = Ret rpo ∧
    ordered R entry rpo (idx_of (index_map rpo)) par cf_preds (index_map rpo) ∧
    length rpo ≤ size (index_map rpo).
Proof.
  intros Hreach Hpreds. unfold reverse_postorder.
  destruct (rpo_loop_spec reachable Hreach (2 + size reachable + edge_total cf_succs) ∅ []
    [(entry, false)]) as (l & -> & v & Hv).
  - split; simpl.
    + constructor.
    + set_solver.
    + intros x b [= -> ->]%list_elem_of_singleton. constructor.
    + intros x Hx. by apply elem_of_nil in Hx.
    + split; [by left|done].
    + intros i n Hn. by rewrite lookup_nil in Hn.
    + right. by left.
    + set_solver.
  - pose proof unfollowed_empty. assert (size (reachable ∖ ∅) ≤ size reachable) by (apply subseteq_size; set_solver).
    simpl. lia.
  - cbn [mbind outcome_bind]. exists (rev l), (first_parent (rev l)). split; [done|].
    split; [by apply (post_ordered v)|]. apply index_map_size.
    pose proof (po_nodup _ _ _ Hv) as Hnd. change (waiting []) with (@nil Z) in Hnd.
    rewrite app_nil_r in Hnd. by rewrite <-Permutation_rev.
Qed.

(** The dominators of the control flow: the chains of the table. *)
Lemma compute_cfg_dominators_spec cf_preds :
  (∀ x p, p ∈ neighbours cf_preds x ↔ R p x) →
  ∃ idom, compute_cfg_dominators cf_succs cf_preds entry = Ret idom ∧
    ∀ a x, (rtc R entry x → ∃ b, cfg_dominates idom a x = Ret b ∧ (b = true ↔ on_all_paths R entry a x)) ∧
           (¬ rtc R entry x → cfg_dominates idom a x = Ret (a =? x)%Z).
Proof.
  intros Hpreds. unfold compute_cfg_dominators.
  destruct cf_reachable_spec as (v & -> & Hv). cbn [mbind outcome_bind].
  destruct (reverse_postorder_spec v cf_preds Hv Hpreds) as (rpo & par & -> & Ho & Hsize).
  cbn [mbind outcome_bind].
  destruct (iteration_spec _ _ _ _ _ _ _ Ho Hsize) as (m & -> & Hm & Hall & Hch).
  cbn [mbind outcome_bind]. exists (delete entry m). split; [done|]. intros a x. split.
  - intros Hx%(or_all _ _ _ _ _ _ _ Ho).
    destruct (cfg_dominates_spec _ _ _ _ _ _ _ Ho Hsize m a x Hm Hall Hx) as (b & Hb & Hbs).
    exists b. split; [done|]. by rewrite Hbs, Hch.
  - intros Hx. apply (cfg_dominates_unknown _ _ _ _ _ _ _ Ho Hsize); [done|].
    by rewrite (or_all _ _ _ _ _ _ _ Ho).
Qed.
End searches.
