(* ===== verification/LoopSpec.v ===== *)
(** * Natural loops: the results

    [LoopDetection] against its specification: the adjacency tables, back edges, bodies and
    exits of natural loops for any control-flow graph, the two dominator algorithms of the
    compiler against each other, and where the analysis of nesting falls short. *)

From S2P Require Import Prelude Digraph ScgNode Scg ScgInv ScgMerge ScgPaths.
From S2P Require Import Dominance DomDfs DomLoop DomTree DomQueries DomSpec LoopDetection LoopDom LoopSearch.
From stdpp Require Import gmap relations.
From stdpp Require Import options.

#[local] Open Scope nat_scope.

(** ** Adjacency *)

Lemma neighbours_push m k v a b :
  b ∈ neighbours (push_to m k v) a ↔ b ∈ neighbours m a ∨ (a = k ∧ b = v).
Proof.
  unfold push_to, neighbours at 1. destruct (decide (a = k)) as [->|Hne].
  - rewrite lookup_insert_eq. simpl. rewrite elem_of_app, list_elem_of_singleton. naive_solver.
  - rewrite lookup_insert_ne by done. unfold neighbours. naive_solver.
Qed.

(** The tables hold these edges. *)
Definition holds_edges (st : gmap Z (list Z) * gmap Z (list Z)) (edges : list (Z * Z)) : Prop :=
  ∀ a b, (b ∈ neighbours st.1 a ↔ (a, b) ∈ edges) ∧ (a ∈ neighbours st.2 b ↔ (a, b) ∈ edges).

Lemma build_adjacency_fold edges done st :
  holds_edges st done →
  holds_edges (fold_left (λ '(succs, preds) '(s, t), (push_to succs s t, push_to preds t s)) edges st)
    (done ++ edges).
Proof.
  revert done st. induction edges as [|[s t] edges IH]; intros done [succs preds] H.
  - by rewrite app_nil_r.
  - replace (done ++ (s, t) :: edges) with ((done ++ [(s, t)]) ++ edges) by by rewrite <-app_assoc.
    apply IH. intros a b. destruct (H a b) as [H1 H2]. simpl in *.
    rewrite !neighbours_push, H1, H2, elem_of_app, list_elem_of_singleton. naive_solver.
Qed.

Lemma build_adjacency_spec edges : holds_edges (build_adjacency edges) edges.
Proof.
  apply (build_adjacency_fold edges []). intros a b. unfold neighbours. simpl.
  rewrite !lookup_empty. simpl. by rewrite !elem_of_nil.
Qed.

Lemma rtc_closed_back {B} (Q : B → B → Prop) (P : B → Prop) x z :
  (∀ y w, P w → Q y w → P y) → P z → rtc Q x z → P x.
Proof. intros Hcl Hz Hx. induction Hx; eauto. Qed.

Section detection.
  Context (edges : list (Z * Z)) (entry : Z).

#[local] Notation R := (λ a b, (a, b) ∈ edges).

Definition succ_table : gmap Z (list Z) := (build_adjacency edges).1.
Definition pred_table : gmap Z (list Z) := (build_adjacency edges).2.

Lemma succ_iff a b : b ∈ neighbours succ_table a ↔ R a b.
Proof. apply build_adjacency_spec. Qed.
Lemma pred_iff a b : a ∈ neighbours pred_table b ↔ R a b.
Proof. apply build_adjacency_spec. Qed.

(** An edge to a dominator: for an unreachable source only an edge to itself counts. *)
Definition back_edge (source hd : Z) : Prop :=
  R source hd ∧ ((rtc R entry source ∧ on_all_paths R entry hd source) ∨ hd = source).

(** What [compute_cfg_dominators] gives, in terms of the edges. *)
Lemma cfg_dominators_edges :
  ∃ idom, compute_cfg_dominators succ_table pred_table entry = Ret idom ∧
    ∀ a x, (rtc R entry x → ∃ b, cfg_dominates idom a x = Ret b ∧ (b = true ↔ on_all_paths R entry a x)) ∧
           (¬ rtc R entry x → cfg_dominates idom a x = Ret (a =? x)%Z).
Proof.
  destruct (compute_cfg_dominators_spec succ_table entry pred_table) as (idom & Hr & Hd).
  { intros x p. by rewrite pred_iff, succ_iff. }
  assert (∀ x, rtc (λ a b, b ∈ neighbours succ_table a) entry x ↔ rtc R entry x) as Hrtc.
  { intros x. split; apply rtc_subrel; intros a b ?; by apply succ_iff. }
  assert (∀ a x, on_all_paths (λ a b, b ∈ neighbours succ_table a) entry a x ↔ on_all_paths R entry a x) as Hpaths.
  { intros a x. split; apply all_paths_weaken; intros y z ?; by apply succ_iff. }
  exists idom. split; [done|]. intros a x. destruct (Hd a x) as [H1 H2]. split.
  - intros Hx%Hrtc. destruct (H1 Hx) as (b & Hb & Hbs). exists b. split; [done|]. by rewrite Hbs.
  - intros Hx. apply H2. by rewrite Hrtc.
Qed.

Lemma cfg_dominators_total :
  ∃ idom, compute_cfg_dominators succ_table pred_table entry = Ret idom ∧
    ∀ a x, ∃ b, cfg_dominates idom a x = Ret b ∧
      (b = true ↔ (rtc R entry x ∧ on_all_paths R entry a x) ∨ a = x).
Proof.
  destruct cfg_dominators_edges as (idom & Hr & Hd). exists idom. split; [done|]. intros a x.
  destruct (cf_reachable_spec succ_table entry) as (v & _ & Hv).
  assert (x ∈ v ↔ rtc R entry x) as Hvx.
  { rewrite Hv. split; apply rtc_subrel; intros y z ?; by apply succ_iff. }
  destruct (Hd a x) as [H1 H2]. destruct (decide (x ∈ v)) as [Hx|Hx].
  - apply Hvx in Hx. destruct (H1 Hx) as (b & Hb & Hbs). exists b. split; [done|]. rewrite Hbs. split.
    + intros ?. by left.
    + intros [[_ ?]| ->]; [done|apply all_paths_refl].
  - rewrite Hvx in Hx. rewrite (H2 Hx). exists (a =? x)%Z. split; [done|]. rewrite Z.eqb_eq. naive_solver.
Qed.

(** ** Back edges *)

Lemma back_edge_scan idom source (succs : list Z) acc :
  (∀ a, ∃ b, cfg_dominates idom a source = Ret b ∧
     (b = true ↔ (rtc R entry source ∧ on_all_paths R entry a source) ∨ a = source)) →
  ∃ l, for_each (back_edge_step idom source) acc succs = Ret l ∧
    ∀ s h, (s, h) ∈ l ↔ (s, h) ∈ acc ∨ (s = source ∧ h ∈ succs ∧
      ((rtc R entry source ∧ on_all_paths R entry h source) ∨ h = source)).
Proof.
  intros Hd. revert acc. induction succs as [|t succs IH]; intros acc.
  { exists acc. split; [done|]. intros s h. rewrite elem_of_nil. naive_solver. }
  destruct (Hd t) as (b & Hdt & Hb). cbn [for_each].
  assert (back_edge_step idom source acc t = Ret (if b then acc ++ [(source, t)] else acc)) as ->.
  { unfold back_edge_step. by rewrite Hdt. }
  cbn [mbind outcome_bind].
  destruct (IH (if b then acc ++ [(source, t)] else acc)) as (l & -> & Hl).
  exists l. split; [done|]. intros s h. rewrite Hl, elem_of_cons. destruct b.
  - pose proof (proj1 Hb eq_refl). rewrite elem_of_app, list_elem_of_singleton. naive_solver.
  - assert (¬ ((rtc R entry source ∧ on_all_paths R entry t source) ∨ t = source)) by (rewrite <-Hb; done).
    naive_solver.
Qed.

Lemma find_back_edges_spec idom walk :
  (∀ a x, ∃ b, cfg_dominates idom a x = Ret b ∧
     (b = true ↔ (rtc R entry x ∧ on_all_paths R entry a x) ∨ a = x)) →
  walk ≡ₚ map_to_list succ_table →
  ∃ l, find_back_edges walk idom = Ret l ∧ ∀ s h, (s, h) ∈ l ↔ back_edge s h.
Proof.
  intros Hd Hwalk. unfold find_back_edges.
  destruct (for_each_ind (λ back_edges '(source, succs), for_each (back_edge_step idom source) back_edges succs)
    (λ done l, ∀ s h, (s, h) ∈ l ↔ ∃ succs, (s, succs) ∈ done ∧ h ∈ succs ∧
      ((rtc R entry s ∧ on_all_paths R entry h s) ∨ h = s)) walk []) as (l & Hr & Hl).
  - intros s h. rewrite elem_of_nil. split; [done|]. intros (succs & Hin & _). by apply elem_of_nil in Hin.
  - intros l1 [source succs] l2 acc _ Hacc. destruct (back_edge_scan idom source succs acc) as (l & Hr & Hl).
    { intros a. apply Hd. }
    exists l. split; [done|]. intros s h. rewrite Hl, Hacc. setoid_rewrite elem_of_app.
    setoid_rewrite list_elem_of_singleton. naive_solver.
  - exists l. split; [done|]. intros s h. rewrite Hl. unfold back_edge. rewrite <-succ_iff.
    unfold neighbours. setoid_rewrite Hwalk. setoid_rewrite elem_of_map_to_list.
    destruct (succ_table !! s) as [ss|] eqn:Hs; simpl.
    + naive_solver.
    + rewrite elem_of_nil. naive_solver.
Qed.

(** ** Bodies *)

(** The nodes that reach the source of the back edge without passing the header; when the
    header is the source itself, all that reach it. *)
Definition loop_body (source hd x : Z) : Prop :=
  x = hd ∨ rtc (λ a b, R a b ∧ (b ≠ hd ∨ b = source)) x source.

(** Sources of edges: what a body can grow by. *)
Definition edge_sources : gset Z := list_to_set (map fst edges).

Lemma edge_sources_size : size edge_sources ≤ length edges.
Proof.
  change (size edge_sources) with (length (elements edge_sources)).
  rewrite <-(length_map fst edges). apply submseteq_length, NoDup_submseteq; [apply NoDup_elements|].
  intros x Hx%elem_of_elements. by apply elem_of_list_to_set in Hx.
Qed.

Lemma body_push (l : list Z) (b : gset Z) (st : list Z) :
  (∀ x, x ∈ l → x ∈ edge_sources) →
  ∃ new b', fold_left (λ '(b, st) pred, if decide (pred ∈ b) then (b, st) else ({[pred]} ∪ b, pred :: st)) l (b, st)
            = (b', new ++ st) ∧
    (∀ x, x ∈ b' ↔ x ∈ b ∨ x ∈ l) ∧ (∀ x, x ∈ new ↔ x ∈ l ∧ x ∉ b) ∧
    length new + size (edge_sources ∖ b') ≤ size (edge_sources ∖ b).
Proof.
  revert b st. induction l as [|x l IH]; intros b st Hl; simpl.
  { exists [], b. split_and!; [done|set_solver|set_solver|done]. }
  assert (∀ y, y ∈ l → y ∈ edge_sources) as Hl' by (intros y Hy; apply Hl; by right).
  destruct (decide (x ∈ b)) as [Hx|Hx].
  - destruct (IH b st Hl') as (new & b' & -> & Hb & Hnew & Hlen). exists new, b'.
    clear IH Hl Hl'. split_and!; [done| | |done]; intros y.
    + rewrite Hb, elem_of_cons. split; [intuition|]. intros [?|[->|?]]; auto.
    + rewrite Hnew, elem_of_cons. split; [intuition|]. intros [[->|?] ?]; done.
  - destruct (IH ({[x]} ∪ b) (x :: st) Hl') as (new & b' & -> & Hb & Hnew & Hlen).
    exists (new ++ [x]), b'. rewrite <-app_assoc, length_app. clear IH Hl'.
    split_and!; [done| | |].
    + intros y. rewrite Hb, elem_of_union, elem_of_singleton, elem_of_cons. tauto.
    + intros y. rewrite elem_of_app, Hnew, list_elem_of_singleton, elem_of_union, elem_of_singleton, elem_of_cons.
      destruct (decide (y = x)) as [->|Hne]; [|tauto]. split; intros _; auto.
    + assert (size (edge_sources ∖ ({[x]} ∪ b)) < size (edge_sources ∖ b)); [|simpl; lia].
      assert (x ∈ edge_sources) as Hx' by (apply Hl; by left). clear Hl Hb Hnew Hlen.
      apply subset_size. set_solver.
Qed.

Lemma body_loop_spec fuel source hd b st :
  length st + size (edge_sources ∖ b) < fuel →
  hd ∈ b → source ∈ b → (∀ x, x ∈ b → loop_body source hd x) →
  (∀ x, x ∈ st → x ∈ b ∧ (x ≠ hd ∨ x = source)) →
  (∀ x y, x ∈ b → x ∉ st → (x ≠ hd ∨ x = source) → R y x → y ∈ b) →
  ∃ b', body_loop fuel pred_table b st = Ret b' ∧ ∀ x, x ∈ b' ↔ loop_body source hd x.
Proof.
  revert b st. induction fuel as [|fuel IH]; intros b st Hf Hh Hs Hin Hst Hcl; [lia|]. simpl.
  destruct st as [|n rest].
  - exists b. split; [done|]. intros x. split; [apply Hin|]. intros [->|Hx]; [done|].
    refine (rtc_closed_back _ (λ x, x ∈ b) x source _ Hs Hx). intros y w Hw [Hyw Hwp].
    apply (Hcl w y); [done|apply not_elem_of_nil|done|done].
  - destruct (body_push (neighbours pred_table n) b rest) as (new & b' & -> & Hb & Hnew & Hlen).
    { intros x Hx%pred_iff. apply elem_of_list_to_set, (list_elem_of_fmap fst). by exists (x, n). }
    destruct (Hst n) as [Hnb Hnp]; [by left|]. simpl in Hf.
    assert (loop_body source hd n ∧ rtc (λ a b, R a b ∧ (b ≠ hd ∨ b = source)) n source) as [_ Hnr].
    { split; [by apply Hin|]. destruct (Hin n Hnb) as [->|?]; [|done].
      destruct Hnp as [?| ->]; [done|constructor]. }
    apply IH.
    + rewrite length_app. lia.
    + apply Hb. by left.
    + apply Hb. by left.
    + intros x [Hx|Hx%pred_iff]%Hb; [by apply Hin|]. right. eapply rtc_l; [|exact Hnr]. done.
    + intros x [Hx|Hx]%elem_of_app.
      * apply Hnew in Hx as [Hx Hxb]. split; [apply Hb; by right|]. left. intros ->. done.
      * destruct (Hst x) as [? ?]; [by right|]. split; [apply Hb; by left|done].
    + intros x y Hx Hxst Hxp Hyx. apply Hb.
      assert (x ∉ new ∧ x ∉ rest) as [Hxn Hxr] by set_solver.
      destruct (decide (x ∈ b)) as [Hxb|Hxb].
      * destruct (decide (x = n)) as [->|Hne]; [right; by apply pred_iff|left].
        apply (Hcl x y); [done|set_solver|done|done].
      * apply Hb in Hx as [?|Hx]; [done|]. destruct Hxn. by apply Hnew.
Qed.

Lemma natural_body source hd :
  ∃ b, body_loop (2 + length edges) pred_table {[hd; source]} [source] = Ret b ∧
    ∀ x, x ∈ b ↔ loop_body source hd x.
Proof.
  apply body_loop_spec.
  - pose proof edge_sources_size.
    assert (size (edge_sources ∖ {[hd; source]}) ≤ size edge_sources) by (apply subseteq_size; set_solver).
    simpl. lia.
  - set_solver.
  - set_solver.
  - intros x [->%elem_of_singleton| ->%elem_of_singleton]%elem_of_union; [by left|right; constructor].
  - intros x ->%list_elem_of_singleton. split; [set_solver|by right].
  - intros x y Hx Hst. set_solver.
Qed.

(** ** Loops *)

Record loop_ok (l : NaturalLoop) : Prop := {
  lo_edge : back_edge (backedge_source l) (header l);
  lo_body : ∀ x, x ∈ body l ↔ loop_body (backedge_source l) (header l) x;
  lo_exits : ∀ x, x ∈ exits l ↔ x ∈ body l ∧ ∃ y, R x y ∧ y ∉ body l;
  lo_depth : loop_depth l = 0%Z;
}.

Lemma loop_exits_spec b x : x ∈ loop_exits succ_table b ↔ x ∈ b ∧ ∃ y, R x y ∧ y ∉ b.
Proof.
  unfold loop_exits. rewrite elem_of_filter, existsb_exists. setoid_rewrite <-list_elem_of_In.
  setoid_rewrite succ_iff. setoid_rewrite negb_true_iff. setoid_rewrite bool_decide_eq_false. naive_solver.
Qed.

Definition loop_key (l : NaturalLoop) : Z * Z := (backedge_source l, header l).

Lemma existsb_same_loop ls s h : existsb (same_loop h s) ls = true ↔ (s, h) ∈ map loop_key ls.
Proof.
  rewrite existsb_exists, (list_elem_of_fmap loop_key). unfold same_loop, loop_key. split.
  - intros (l & Hl%list_elem_of_In & [Hh%Z.eqb_eq Hs%Z.eqb_eq]%andb_true_iff). exists l. split; [congruence|done].
  - intros (l & [= -> ->] & Hl%list_elem_of_In). exists l. split; [done|]. by rewrite !Z.eqb_refl.
Qed.

Lemma detect_spec idom walk :
  (∀ a x, ∃ b, cfg_dominates idom a x = Ret b ∧
     (b = true ↔ (rtc R entry x ∧ on_all_paths R entry a x) ∨ a = x)) →
  walk ≡ₚ map_to_list succ_table →
  ∃ ls, (bs ← find_back_edges walk idom;
         for_each (loop_step (length edges) succ_table pred_table) [] bs) = Ret ls ∧
    Forall loop_ok ls ∧ NoDup (map loop_key ls) ∧ ∀ s h, (s, h) ∈ map loop_key ls ↔ back_edge s h.
Proof.
  intros Hd Hwalk. destruct (find_back_edges_spec idom walk Hd Hwalk) as (bs & -> & Hbs).
  cbn [mbind outcome_bind].
  destruct (for_each_ind (loop_step (length edges) succ_table pred_table)
    (λ done ls, Forall loop_ok ls ∧ NoDup (map loop_key ls) ∧ ∀ e, e ∈ map loop_key ls ↔ e ∈ done) bs [])
    as (ls & Hr & Hok & Hnd & Hin).
  - split_and!; [constructor|constructor|done].
  - intros l1 [s h] l2 ls Hl (Hok & Hnd & Hin). unfold loop_step.
    assert (back_edge s h) as Hbe by (apply Hbs; rewrite Hl; set_solver).
    destruct (existsb (same_loop h s) ls) eqn:Hex.
    + apply existsb_same_loop in Hex. exists ls. split_and!; [done..|]. intros e. rewrite Hin. split.
      * intros ?. apply elem_of_app. by left.
      * intros [?| ->%list_elem_of_singleton]%elem_of_app; [done|by apply Hin].
    + assert ((s, h) ∉ map loop_key ls) as Hnew by (rewrite <-existsb_same_loop, Hex; done).
      destruct (natural_body s h) as (b & -> & Hb). cbn [mbind outcome_bind]. eexists. split; [done|].
      rewrite map_app. split_and!.
      * apply Forall_app. split; [done|]. constructor; [|constructor]. split; simpl; [done|done| |done].
        apply loop_exits_spec.
      * apply NoDup_app. split; [done|]. split; [|apply NoDup_singleton].
        intros e He ->%list_elem_of_singleton. done.
      * intros e. rewrite !elem_of_app, Hin. done.
  - exists ls. split_and!; [done..|]. intros s h. by rewrite Hin, Hbs.
Qed.

(** A node of a proper loop's body is dominated by the header. *)
Lemma header_dominates source hd x :
  back_edge source hd → hd ≠ source → loop_body source hd x → on_all_paths R entry hd x.
Proof.
  intros [_ [[_ Hdom]|?]] Hne Hx; [|done]. destruct Hx as [->|Hx]; [apply all_paths_refl|].
  refine (rtc_closed_back _ (on_all_paths R entry hd) x source _ Hdom Hx).
  intros y w Hw [Hyw Hwp] l Hl. assert (w ≠ hd) as Hwh.
  { destruct Hwp as [?| ->]; [done|by apply not_eq_sym]. }
  specialize (Hw _ (path_snoc _ _ _ _ _ Hl Hyw)).
  apply elem_of_app in Hw as [?|?%list_elem_of_singleton]; [done|congruence].
Qed.

Lemma headers_dominate ls :
  Forall loop_ok ls → ∀ l x, l ∈ ls → header l ≠ backedge_source l → x ∈ body l →
  on_all_paths R entry (header l) x.
Proof.
  intros Hok l x Hl Hne Hx. rewrite Forall_forall in Hok. destruct (Hok l Hl) as [He Hb _ _].
  by apply (header_dominates (backedge_source l)), Hb.
Qed.
End detection.

(** ** Examples *)

Definition first_loops (o : outcome (list NaturalLoop)) : list NaturalLoop :=
  match o with Ret ls => ls | Panic => [] end.
Definition first_nesting (o : outcome LoopNestingTree) : LoopNestingTree :=
  match o with Ret t => t | Panic => LoopNestingTree_new end.

(** The order of the table of successors that the walk of the model's map gives. *)
Definition some_walk (s : SCG) : list (Z * list Z) := map_to_list (build_adjacency (cf_edges s)).1.

#[local] Open Scope Z_scope.

(** A loop from [1] to itself. *)
Definition self_loop_ops : list scg_op :=
  [plain "entry"; plain "spin"; plain "exit";
   OpAddEdge 0 1 ControlFlow; OpAddEdge 1 1 ControlFlow; OpAddEdge 1 2 ControlFlow].
Definition self_loop_graph : SCG := the_graph (scg_run true SCG_new self_loop_ops).

(** A loop with header [1] that continues from [2] and from [3]. *)
Definition continue_ops : list scg_op :=
  [plain "entry"; plain "header"; plain "continue"; plain "latch"; plain "exit";
   OpAddEdge 0 1 ControlFlow; OpAddEdge 1 2 ControlFlow; OpAddEdge 1 3 ControlFlow;
   OpAddEdge 2 1 ControlFlow; OpAddEdge 3 1 ControlFlow; OpAddEdge 1 4 ControlFlow].
Definition continue_graph : SCG := the_graph (scg_run true SCG_new continue_ops).

(** Loops with headers [1], [2] and [3], each inside the one before. *)
Definition nest_ops : list scg_op :=
  [plain "entry"; plain "outer"; plain "middle"; plain "inner"; plain "latch";
   OpAddEdge 0 1 ControlFlow; OpAddEdge 1 2 ControlFlow; OpAddEdge 2 3 ControlFlow;
   OpAddEdge 3 4 ControlFlow; OpAddEdge 4 3 ControlFlow; OpAddEdge 3 2 ControlFlow;
   OpAddEdge 2 1 ControlFlow].
Definition nest_graph : SCG := the_graph (scg_run true SCG_new nest_ops).

(** The header's loop writes to the program state. *)
Definition write_ops : list scg_op :=
  [plain "entry"; plain "header"; OpAddNode TStateWrite (other_op "count") here;
   OpAddEdge 0 1 ControlFlow; OpAddEdge 1 2 ControlFlow; OpAddEdge 2 1 ControlFlow].
Definition write_graph : SCG := the_graph (scg_run true SCG_new write_ops).

(** Two functions, each with a loop. *)
Definition two_functions_ops : list scg_op :=
  [OpAddNode TControl (control FunctionEntry) here; plain "one";
   OpAddNode TControl (control FunctionEntry) here; plain "two"; plain "two latch";
   OpAddEdge 0 1 ControlFlow; OpAddEdge 2 3 ControlFlow; OpAddEdge 3 4 ControlFlow;
   OpAddEdge 4 3 ControlFlow].
Definition two_functions_graph : SCG := the_graph (scg_run true SCG_new two_functions_ops).

Definition loop_summary (l : NaturalLoop) : Z * Z * list Z * Z :=
  (header l, backedge_source l, elements (body l), loop_depth l).

(** ** The two dominator algorithms *)

(** In a graph of control flow only, the edges the two algorithms read are the same. *)
Lemma flows_cf_edges s a b :
  (∀ e, e ∈ SCG_edges s → edge_kind e = ControlFlow) → flows s a b ↔ (a, b) ∈ cf_edges s.
Proof.
  intros Hcf. unfold flows. simpl. unfold SCG_cf_edges.
  rewrite (list_elem_of_fmap (λ e, (edge_source e, edge_target e))). split.
  - intros (e & He & <- & <-). exists e. split; [done|].
    apply list_elem_of_In, filter_In. split; [by apply list_elem_of_In|]. by rewrite (Hcf e He).
  - intros (e & [= -> ->] & He). exists e. split; [|done].
    apply list_elem_of_In. apply list_elem_of_In, filter_In in He. by destruct He.
Qed.

Lemma on_all_paths_ext (R R' : Z → Z → Prop) entry d b :
  (∀ x y, R x y ↔ R' x y) → on_all_paths R entry d b ↔ on_all_paths R' entry d b.
Proof. intros HR. split; apply all_paths_weaken; intros x y; apply HR. Qed.

Lemma bool_from_iff (a b : bool) (P : Prop) : (a = true ↔ P) → (b = true ↔ P) → a = b.
Proof. intros Ha Hb. apply eq_true_iff_eq. by rewrite Ha, Hb. Qed.

(** ** Properties *)

(** C26. Loop detection on any graph that offers its control-flow edges and a first entry, for
    every order in which the table of successors is walked, always returns: one loop per
    distinct back edge, that is an edge to a node on all paths from the entry to its source or
    to the source itself; the body of a loop holds exactly the header and the nodes that reach
    the source without passing the header, its exits exactly the nodes of the body with an edge
    out of it; and in a loop whose header is not its own source, the header dominates every
    node of the body. *)
Theorem natural_loops_correct `{ControlFlowGraph G} (g : G) (walk : list (Z * list Z)) (entry : Z) (rest : list Z) :
  entry_nodes g = entry :: rest → walk ≡ₚ map_to_list (build_adjacency (cf_edges g)).1 →
  ∃ ls, detect_natural_loops_on g walk = Ret ls ∧
    Forall (loop_ok (cf_edges g) entry) ls ∧ NoDup (map loop_key ls) ∧
    (∀ source hd, (source, hd) ∈ map loop_key ls ↔ back_edge (cf_edges g) entry source hd) ∧
    ∀ l x, l ∈ ls → header l ≠ backedge_source l → x ∈ body l →
      on_all_paths (λ a b, (a, b) ∈ cf_edges g) entry (header l) x.
Proof.
  intros He Hwalk. unfold detect_natural_loops_on. rewrite He.
  destruct (cfg_dominators_total (cf_edges g) entry) as (idom & Hr & Hd).
  destruct (detect_spec (cf_edges g) entry idom walk Hd Hwalk) as (ls & Hls & Hok & Hnd & Hin).
  unfold succ_table, pred_table in *. destruct (build_adjacency (cf_edges g)) as [succs preds].
  simpl in Hr, Hls. rewrite Hr. exists ls. split; [exact Hls|].
  split_and!; [done..|]. by apply headers_dominate.
Qed.

Lemma natural_loops_correct_witness :
  ∃ ls, detect_natural_loops_on diamond_graph (some_walk diamond_graph) = Ret ls ∧
    Forall (loop_ok (cf_edges diamond_graph) 0) ls.
Proof.
  destruct (natural_loops_correct diamond_graph (some_walk diamond_graph) 0 []) as (ls & Hr & Hok & _).
  - by vm_compute.
  - reflexivity.
  - exact (ex_intro _ ls (conj Hr Hok)).
Defined.

(** C27. The iterative algorithm of loop detection and the Lengauer-Tarjan algorithm agree: on a
    graph built by its operations whose edges are all control flow, both return for every
    entry, and for all nodes [a] and [b] with [b] reachable they give the same answer to
    whether [a] dominates [b]. *)
Theorem dominator_algorithms_agree (chk : bool) (s : SCG) (entry : Z) :
  scg_reachable true s → few_nodes s → entry ∈ SCG_ids s →
  (∀ e, e ∈ SCG_edges s → edge_kind e = ControlFlow) →
  ∃ idom t,
    compute_cfg_dominators (build_adjacency (cf_edges s)).1 (build_adjacency (cf_edges s)).2 entry = Ret idom ∧
    compute_dominators chk s entry = Ret t ∧
    ∀ a b, b ∈ dt_nodes t → ∃ r, cfg_dominates idom a b = Ret r ∧ dominates t a b = Ret r.
Proof.
  intros Hok%scg_reachable_ok Hfew He Hcf.
  destruct (dominators_spec s Hok chk Hfew entry He) as (t & Hr & Ht).
  destruct (cfg_dominators_edges (cf_edges s) entry) as (idom & Hi & Hd).
  exists idom, t. split; [exact Hi|]. split; [done|]. intros a b Hb.
  destruct (dominates_spec (flows s) entry t Ht a b Hb) as (r & Hr1 & Hr2).
  apply (to_nodes _ _ _ Ht) in Hb.
  assert (rtc (λ x y, (x, y) ∈ cf_edges s) entry b) as Hb'.
  { revert Hb. apply rtc_subrel. intros x y. by apply flows_cf_edges. }
  destruct (Hd a b) as [H1 _]. destruct (H1 Hb') as (r' & Hr' & Hr3). exists r. split; [|done].
  rewrite Hr'. f_equal. apply (bool_from_iff _ _ _ Hr3). rewrite Hr2.
  apply on_all_paths_ext. intros x y. by apply flows_cf_edges.
Qed.

Lemma dominator_algorithms_agree_witness :
  ∃ idom t,
    compute_cfg_dominators (build_adjacency (cf_edges diamond_graph)).1
      (build_adjacency (cf_edges diamond_graph)).2 0 = Ret idom ∧
    compute_dominators true diamond_graph 0 = Ret t.
Proof.
  destruct (dominator_algorithms_agree true diamond_graph 0 diamond_reachable diamond_few)
    as (idom & t & Hi & Ht & _).
  - apply (bool_decide_unpack _); by vm_compute.
  - apply Forall_forall. apply (bool_decide_unpack _). by vm_compute.
  - exact (ex_intro _ idom (ex_intro _ t (conj Hi Ht))).
Defined.

