(* ===== verification/Regalloc.v ===== *)
(** * Linear-scan register allocation

    Models [src/src/codegen/src/regalloc.rs], lines 319-491 and 2829-3851: live
    intervals, the target-agnostic linear-scan allocator with spilling and
    eviction, its spill code, and the conflict pass that runs after it; with the
    register descriptions of [src/src/codegen/src/target_desc.rs] the pools are
    built from.  The live ranges themselves ([LiveRangeComputer]) are the input.
    An instruction is the pair of its used and defined registers; the walk over
    the [HashMap] of assignments takes its order as an argument.  The debugging
    output behind an environment variable is left out. *)

From stdpp Require Import sorting.
From S2P Require Import Prelude.
From stdpp Require Import options.
#[local] Open Scope Z_scope.

(** ** Registers *)

(** [backend::RegClass]. *)
Inductive BackendRegClass : Type := Bk_Gpr | Bk_SimdFp | Bk_Condition | Bk_Special.

(** [regalloc::RegClass]. *)
Inductive RegClass : Type := Rc_Gpr | Rc_SimdFp.

#[export] Instance BackendRegClass_eq_dec : EqDecision BackendRegClass.
Proof. solve_decision. Defined.
#[export] Instance RegClass_eq_dec : EqDecision RegClass.
Proof. solve_decision. Defined.

(** [From<regalloc::RegClass> for backend::RegClass] and back. *)
Definition to_backend_class (class : RegClass) : BackendRegClass :=
  match class with Rc_Gpr => Bk_Gpr | Rc_SimdFp => Bk_SimdFp end.

Definition from_backend_class (class : BackendRegClass) : RegClass :=
  match class with
  | Bk_Gpr => Rc_Gpr
  | Bk_SimdFp => Rc_SimdFp
  | Bk_Condition | Bk_Special => Rc_Gpr
  end.

Record PhysicalReg := PhysicalReg_new { pr_class : BackendRegClass; pr_index : Z }.

#[export] Instance PhysicalReg_eq_dec : EqDecision PhysicalReg.
Proof. solve_decision. Defined.
#[export] Instance BackendRegClass_countable : Countable BackendRegClass.
Proof.
  refine (inj_countable' (λ c, match c with
      | Bk_Gpr => 0 | Bk_SimdFp => 1 | Bk_Condition => 2 | Bk_Special => 3 end%nat)
    (λ n, match n with
      | 0 => Bk_Gpr | 1 => Bk_SimdFp | 2 => Bk_Condition | _ => Bk_Special end%nat) _).
  by intros [].
Defined.
#[export] Instance PhysicalReg_countable : Countable PhysicalReg.
Proof.
  refine (inj_countable' (λ r, (pr_class r, pr_index r)) (λ p, PhysicalReg_new p.1 p.2) _).
  by intros [].
Defined.

(** [RegDesc] of [target_desc.rs], with the fields the allocator reads and those
    its builder methods set. *)
Record RegDesc := {
  rd_name : string;
  rd_class : BackendRegClass;
  rd_index : Z;
  is_allocatable : bool;
  is_hardwired_zero : bool;
  is_stack_pointer : bool;
  is_frame_pointer : bool;
  is_link_register : bool;
  is_toc_pointer : bool;
  is_callee_saved : bool;
  is_arg_reg : bool;
  arg_position : option Z;
  is_return_reg : bool;
}.

Definition reg_desc (name : string) (class : BackendRegClass) (index : Z) (alloc : bool) : RegDesc :=
  {| rd_name := name; rd_class := class; rd_index := index; is_allocatable := alloc;
     is_hardwired_zero := false; is_stack_pointer := false; is_frame_pointer := false;
     is_link_register := false; is_toc_pointer := false; is_callee_saved := false;
     is_arg_reg := false; arg_position := None; is_return_reg := false |}.

Definition gpr (name : string) (index : Z) : RegDesc := reg_desc name Bk_Gpr index true.
Definition fpr (name : string) (index : Z) : RegDesc := reg_desc name Bk_SimdFp index true.
Definition special_reg (name : string) (index : Z) : RegDesc :=
  reg_desc name Bk_Special index false.
Definition cond_reg (name : string) (index : Z) : RegDesc :=
  reg_desc name Bk_Condition index false.

(** The builder methods. *)
Definition hardwired_zero (r : RegDesc) : RegDesc :=
  {| rd_name := rd_name r; rd_class := rd_class r; rd_index := rd_index r;
     is_allocatable := false; is_hardwired_zero := true; is_stack_pointer := is_stack_pointer r;
     is_frame_pointer := is_frame_pointer r; is_link_register := is_link_register r;
     is_toc_pointer := is_toc_pointer r; is_callee_saved := is_callee_saved r;
     is_arg_reg := is_arg_reg r; arg_position := arg_position r;
     is_return_reg := is_return_reg r |}.
Definition stack_pointer (r : RegDesc) : RegDesc :=
  {| rd_name := rd_name r; rd_class := rd_class r; rd_index := rd_index r;
     is_allocatable := false; is_hardwired_zero := is_hardwired_zero r; is_stack_pointer := true;
     is_frame_pointer := is_frame_pointer r; is_link_register := is_link_register r;
     is_toc_pointer := is_toc_pointer r; is_callee_saved := is_callee_saved r;
     is_arg_reg := is_arg_reg r; arg_position := arg_position r;
     is_return_reg := is_return_reg r |}.
Definition frame_pointer (r : RegDesc) : RegDesc :=
  {| rd_name := rd_name r; rd_class := rd_class r; rd_index := rd_index r;
     is_allocatable := is_allocatable r; is_hardwired_zero := is_hardwired_zero r;
     is_stack_pointer := is_stack_pointer r; is_frame_pointer := true;
     is_link_register := is_link_register r; is_toc_pointer := is_toc_pointer r;
     is_callee_saved := is_callee_saved r; is_arg_reg := is_arg_reg r;
     arg_position := arg_position r; is_return_reg := is_return_reg r |}.
Definition link_register (r : RegDesc) : RegDesc :=
  {| rd_name := rd_name r; rd_class := rd_class r; rd_index := rd_index r;
     is_allocatable := false; is_hardwired_zero := is_hardwired_zero r;
     is_stack_pointer := is_stack_pointer r; is_frame_pointer := is_frame_pointer r;
     is_link_register := true; is_toc_pointer := is_toc_pointer r;
     is_callee_saved := is_callee_saved r; is_arg_reg := is_arg_reg r;
     arg_position := arg_position r; is_return_reg := is_return_reg r |}.
Definition toc_pointer (r : RegDesc) : RegDesc :=
  {| rd_name := rd_name r; rd_class := rd_class r; rd_index := rd_index r;
     is_allocatable := false; is_hardwired_zero := is_hardwired_zero r;
     is_stack_pointer := is_stack_pointer r; is_frame_pointer := is_frame_pointer r;
     is_link_register := is_link_register r; is_toc_pointer := true;
     is_callee_saved := is_callee_saved r; is_arg_reg := is_arg_reg r;
     arg_position := arg_position r; is_return_reg := is_return_reg r |}.
Definition callee_saved (r : RegDesc) : RegDesc :=
  {| rd_name := rd_name r; rd_class := rd_class r; rd_index := rd_index r;
     is_allocatable := is_allocatable r; is_hardwired_zero := is_hardwired_zero r;
     is_stack_pointer := is_stack_pointer r; is_frame_pointer := is_frame_pointer r;
     is_link_register := is_link_register r; is_toc_pointer := is_toc_pointer r;
     is_callee_saved := true; is_arg_reg := is_arg_reg r; arg_position := arg_position r;
     is_return_reg := is_return_reg r |}.
Definition arg (pos : Z) (r : RegDesc) : RegDesc :=
  {| rd_name := rd_name r; rd_class := rd_class r; rd_index := rd_index r;
     is_allocatable := is_allocatable r; is_hardwired_zero := is_hardwired_zero r;
     is_stack_pointer := is_stack_pointer r; is_frame_pointer := is_frame_pointer r;
     is_link_register := is_link_register r; is_toc_pointer := is_toc_pointer r;
     is_callee_saved := is_callee_saved r; is_arg_reg := true; arg_position := Some pos;
     is_return_reg := is_return_reg r |}.
Definition return_reg (r : RegDesc) : RegDesc :=
  {| rd_name := rd_name r; rd_class := rd_class r; rd_index := rd_index r;
     is_allocatable := is_allocatable r; is_hardwired_zero := is_hardwired_zero r;
     is_stack_pointer := is_stack_pointer r; is_frame_pointer := is_frame_pointer r;
     is_link_register := is_link_register r; is_toc_pointer := is_toc_pointer r;
     is_callee_saved := is_callee_saved r; is_arg_reg := is_arg_reg r;
     arg_position := arg_position r; is_return_reg := true |}.
Definition not_allocatable (r : RegDesc) : RegDesc :=
  {| rd_name := rd_name r; rd_class := rd_class r; rd_index := rd_index r;
     is_allocatable := false; is_hardwired_zero := is_hardwired_zero r;
     is_stack_pointer := is_stack_pointer r; is_frame_pointer := is_frame_pointer r;
     is_link_register := is_link_register r; is_toc_pointer := is_toc_pointer r;
     is_callee_saved := is_callee_saved r; is_arg_reg := is_arg_reg r;
     arg_position := arg_position r; is_return_reg := is_return_reg r |}.

(** The register files of three targets, in declaration order. *)
#[local] Notation "r |>> f" := (f r) (at level 50, left associativity, only parsing).
#[local] Open Scope string_scope.

Definition riscv64_registers : list RegDesc :=
  [ gpr "x0" 0 |>> hardwired_zero; gpr "x1" 1 |>> link_register; gpr "x2" 2 |>> stack_pointer;
    gpr "x3" 3 |>> not_allocatable; gpr "x4" 4 |>> not_allocatable; gpr "x5" 5; gpr "x6" 6;
    gpr "x7" 7; gpr "x8" 8 |>> frame_pointer |>> callee_saved |>> not_allocatable;
    gpr "x9" 9 |>> callee_saved; gpr "x10" 10 |>> arg 0 |>> return_reg;
    gpr "x11" 11 |>> arg 1 |>> return_reg; gpr "x12" 12 |>> arg 2; gpr "x13" 13 |>> arg 3;
    gpr "x14" 14 |>> arg 4; gpr "x15" 15 |>> arg 5; gpr "x16" 16 |>> arg 6;
    gpr "x17" 17 |>> arg 7; gpr "x18" 18 |>> callee_saved; gpr "x19" 19 |>> callee_saved;
    gpr "x20" 20 |>> callee_saved; gpr "x21" 21 |>> callee_saved;
    gpr "x22" 22 |>> callee_saved; gpr "x23" 23 |>> callee_saved;
    gpr "x24" 24 |>> callee_saved; gpr "x25" 25 |>> callee_saved;
    gpr "x26" 26 |>> callee_saved; gpr "x27" 27 |>> callee_saved; gpr "x28" 28; gpr "x29" 29;
    gpr "x30" 30 |>> not_allocatable; gpr "x31" 31 |>> not_allocatable; fpr "f0" 0; fpr "f1" 1;
    fpr "f2" 2; fpr "f3" 3; fpr "f4" 4; fpr "f5" 5; fpr "f6" 6; fpr "f7" 7;
    fpr "f8" 8 |>> callee_saved; fpr "f9" 9 |>> callee_saved;
    fpr "f10" 10 |>> arg 0 |>> return_reg; fpr "f11" 11 |>> arg 1 |>> return_reg;
    fpr "f12" 12 |>> arg 2; fpr "f13" 13 |>> arg 3; fpr "f14" 14 |>> arg 4;
    fpr "f15" 15 |>> arg 5; fpr "f16" 16 |>> arg 6; fpr "f17" 17 |>> arg 7;
    fpr "f18" 18 |>> callee_saved; fpr "f19" 19 |>> callee_saved;
    fpr "f20" 20 |>> callee_saved; fpr "f21" 21 |>> callee_saved;
    fpr "f22" 22 |>> callee_saved; fpr "f23" 23 |>> callee_saved;
    fpr "f24" 24 |>> callee_saved; fpr "f25" 25 |>> callee_saved;
    fpr "f26" 26 |>> callee_saved; fpr "f27" 27 |>> callee_saved; fpr "f28" 28; fpr "f29" 29;
    fpr "f30" 30; fpr "f31" 31 ].

Definition x86_64_registers : list RegDesc :=
  [ gpr "RAX" 0 |>> return_reg; gpr "RCX" 1 |>> arg 3; gpr "RDX" 2 |>> arg 2;
    gpr "RBX" 3 |>> callee_saved; gpr "RSP" 4 |>> stack_pointer;
    gpr "RBP" 5 |>> frame_pointer |>> callee_saved |>> not_allocatable; gpr "RSI" 6 |>> arg 1;
    gpr "RDI" 7 |>> arg 0; gpr "R8" 8 |>> arg 4; gpr "R9" 9 |>> arg 5; gpr "R10" 10;
    gpr "R11" 11 |>> not_allocatable; gpr "R12" 12 |>> callee_saved;
    gpr "R13" 13 |>> callee_saved; gpr "R14" 14 |>> callee_saved;
    gpr "R15" 15 |>> callee_saved; fpr "XMM0" 0 |>> arg 0 |>> return_reg;
    fpr "XMM1" 1 |>> arg 1 |>> return_reg; fpr "XMM2" 2 |>> arg 2; fpr "XMM3" 3 |>> arg 3;
    fpr "XMM4" 4 |>> arg 4; fpr "XMM5" 5 |>> arg 5; fpr "XMM6" 6 |>> arg 6;
    fpr "XMM7" 7 |>> arg 7; fpr "XMM8" 8; fpr "XMM9" 9; fpr "XMM10" 10; fpr "XMM11" 11;
    fpr "XMM12" 12; fpr "XMM13" 13; fpr "XMM14" 14; fpr "XMM15" 15 ].

Definition aarch64_registers : list RegDesc :=
  [ gpr "X0" 0 |>> arg 0 |>> return_reg; gpr "X1" 1 |>> arg 1 |>> return_reg;
    gpr "X2" 2 |>> arg 2; gpr "X3" 3 |>> arg 3; gpr "X4" 4 |>> arg 4; gpr "X5" 5 |>> arg 5;
    gpr "X6" 6 |>> arg 6; gpr "X7" 7 |>> arg 7; gpr "X8" 8; gpr "X9" 9; gpr "X10" 10;
    gpr "X11" 11; gpr "X12" 12; gpr "X13" 13; gpr "X14" 14; gpr "X15" 15 |>> not_allocatable;
    gpr "X16" 16 |>> not_allocatable; gpr "X17" 17 |>> not_allocatable;
    gpr "X18" 18 |>> not_allocatable; gpr "X19" 19 |>> callee_saved;
    gpr "X20" 20 |>> callee_saved; gpr "X21" 21 |>> callee_saved;
    gpr "X22" 22 |>> callee_saved; gpr "X23" 23 |>> callee_saved;
    gpr "X24" 24 |>> callee_saved; gpr "X25" 25 |>> callee_saved;
    gpr "X26" 26 |>> callee_saved; gpr "X27" 27 |>> callee_saved;
    gpr "X28" 28 |>> callee_saved;
    gpr "X29" 29 |>> frame_pointer |>> callee_saved |>> not_allocatable;
    gpr "X30" 30 |>> link_register |>> not_allocatable; gpr "SP" 31 |>> stack_pointer;
    gpr "XZR" 32 |>> hardwired_zero; fpr "V0" 0 |>> arg 0 |>> return_reg;
    fpr "V1" 1 |>> arg 1 |>> return_reg; fpr "V2" 2 |>> arg 2 |>> return_reg;
    fpr "V3" 3 |>> arg 3 |>> return_reg; fpr "V4" 4 |>> arg 4; fpr "V5" 5 |>> arg 5;
    fpr "V6" 6 |>> arg 6; fpr "V7" 7 |>> arg 7; fpr "V8" 8 |>> callee_saved;
    fpr "V9" 9 |>> callee_saved; fpr "V10" 10 |>> callee_saved; fpr "V11" 11 |>> callee_saved;
    fpr "V12" 12 |>> callee_saved; fpr "V13" 13 |>> callee_saved;
    fpr "V14" 14 |>> callee_saved; fpr "V15" 15 |>> callee_saved; fpr "V16" 16; fpr "V17" 17;
    fpr "V18" 18; fpr "V19" 19; fpr "V20" 20; fpr "V21" 21; fpr "V22" 22; fpr "V23" 23;
    fpr "V24" 24; fpr "V25" 25; fpr "V26" 26; fpr "V27" 27; fpr "V28" 28; fpr "V29" 29;
    fpr "V30" 30; fpr "V31" 31 ].

#[local] Close Scope string_scope.

(** ** Live intervals

    Positions, counts and weights are [u32]; an [IRValueId] is an integer. *)
Record LiveInterval := {
  li_vreg : Z;
  li_class : RegClass;
  li_start : Z;
  li_end : Z;
  crosses_call : bool;
  use_positions : list Z;
  def_positions : list Z;
  coalesced_vregs : list Z;
  loop_depth : Z;
}.

Definition LiveInterval_new (vreg : Z) (class : RegClass) (start end_ : Z) : LiveInterval :=
  {| li_vreg := vreg; li_class := class; li_start := start; li_end := end_;
     crosses_call := false; use_positions := []; def_positions := [];
     coalesced_vregs := [vreg]; loop_depth := 0 |}.

Definition covers (self : LiveInterval) (pos : Z) : bool :=
  (li_start self <=? pos) && (pos <=? li_end self).

Definition extend_to (self : LiveInterval) (pos : Z) : LiveInterval :=
  let end_ := if li_end self <? pos then pos else li_end self in
  let start := if pos <? li_start self then pos else li_start self in
  {| li_vreg := li_vreg self; li_class := li_class self; li_start := start; li_end := end_;
     crosses_call := crosses_call self; use_positions := use_positions self;
     def_positions := def_positions self; coalesced_vregs := coalesced_vregs self;
     loop_depth := loop_depth self |}.

Definition li_len (self : LiveInterval) : Z := Z.max (li_end self - li_start self) 0.
Definition li_is_empty (self : LiveInterval) : bool := li_start self =? li_end self.
Definition ends_before (self other : LiveInterval) : bool := li_end self <? li_start other.
Definition overlaps (self other : LiveInterval) : bool :=
  (li_start self <=? li_end other) && (li_start other <=? li_end self).

Definition spill_weight (chk : bool) (self : LiveInterval) : outcome Z :=
  let use_count := wrap32 (Z.of_nat (length (use_positions self))) in
  let def_count := wrap32 (Z.of_nat (length (def_positions self))) in
  sum ← u32_add chk use_count def_count;
  let base_weight := Z.max sum 1 in
  let call_multiplier := if crosses_call self then 2 else 1 in
  let loop_multiplier := Z.shiftl 1 (Z.min (loop_depth self) 4) in
  w ← u32_mul chk base_weight call_multiplier;
  u32_mul chk w loop_multiplier.

Definition weight_per_length (chk : bool) (self : LiveInterval) : outcome Z :=
  let len := Z.max (li_len self) 1 in
  w ← spill_weight chk self;
  mret (w / len).

Definition spill_weight_with_pressure (chk : bool) (self : LiveInterval)
    (current_pressure available_regs : Z) : outcome Z :=
  base ← spill_weight chk self;
  if available_regs <? current_pressure then
    let overflow := Z.max (current_pressure - available_regs) 1 in
    d ← u32_add chk overflow 1;
    if d =? 0 then Panic else mret (Z.max (base / d) 1)
  else mret base.

Definition weight_per_length_with_pressure (chk : bool) (self : LiveInterval)
    (current_pressure available_regs : Z) : outcome Z :=
  let len := Z.max (li_len self) 1 in
  w ← spill_weight_with_pressure chk self current_pressure available_regs;
  mret (w / len).

(** ** Results *)

Record GenericSpillSlot := GenericSpillSlot_new {
  ss_index : Z;
  ss_offset : Z;
  ss_class : RegClass;
}.

Definition size_bytes (self : GenericSpillSlot) : Z :=
  match ss_class self with Rc_Gpr => 8 | Rc_SimdFp => 16 end.

Inductive GenericSpillCode : Type :=
  | Spill (vreg : Z) (preg : PhysicalReg) (slot : GenericSpillSlot)
  | Reload (vreg : Z) (preg : PhysicalReg) (slot : GenericSpillSlot).

Record RegAllocResult := {
  vreg_to_preg : gmap Z PhysicalReg;
  spill_slots : gmap Z GenericSpillSlot;
  total_spill_slots : Z;
  used_callee_saved : gset PhysicalReg;
  spill_code : gmap Z (list GenericSpillCode);
  live_intervals : list LiveInterval;
  coalesced_map : gmap Z Z;
}.

Definition RegAllocResult_new : RegAllocResult :=
  {| vreg_to_preg := ∅; spill_slots := ∅; total_spill_slots := 0; used_callee_saved := ∅;
     spill_code := ∅; live_intervals := []; coalesced_map := ∅ |}.

Definition set_preg (vreg : Z) (preg : PhysicalReg) (r : RegAllocResult) : RegAllocResult :=
  {| vreg_to_preg := <[vreg := preg]> (vreg_to_preg r); spill_slots := spill_slots r;
     total_spill_slots := total_spill_slots r; used_callee_saved := used_callee_saved r;
     spill_code := spill_code r; live_intervals := live_intervals r;
     coalesced_map := coalesced_map r |}.
Definition set_slot (vreg : Z) (slot : GenericSpillSlot) (r : RegAllocResult) : RegAllocResult :=
  {| vreg_to_preg := vreg_to_preg r; spill_slots := <[vreg := slot]> (spill_slots r);
     total_spill_slots := total_spill_slots r; used_callee_saved := used_callee_saved r;
     spill_code := spill_code r; live_intervals := live_intervals r;
     coalesced_map := coalesced_map r |}.
Definition set_code (code : gmap Z (list GenericSpillCode)) (r : RegAllocResult) : RegAllocResult :=
  {| vreg_to_preg := vreg_to_preg r; spill_slots := spill_slots r;
     total_spill_slots := total_spill_slots r; used_callee_saved := used_callee_saved r;
     spill_code := code; live_intervals := live_intervals r;
     coalesced_map := coalesced_map r |}.
Definition set_callee_saved (regs : gset PhysicalReg) (r : RegAllocResult) : RegAllocResult :=
  {| vreg_to_preg := vreg_to_preg r; spill_slots := spill_slots r;
     total_spill_slots := total_spill_slots r; used_callee_saved := regs;
     spill_code := spill_code r; live_intervals := live_intervals r;
     coalesced_map := coalesced_map r |}.
Definition set_totals (total : Z) (intervals : list LiveInterval) (r : RegAllocResult) :
    RegAllocResult :=
  {| vreg_to_preg := vreg_to_preg r; spill_slots := spill_slots r;
     total_spill_slots := total; used_callee_saved := used_callee_saved r;
     spill_code := spill_code r; live_intervals := intervals;
     coalesced_map := coalesced_map r |}.

Definition record_coalescing (src dst : Z) (r : RegAllocResult) : RegAllocResult :=
  {| vreg_to_preg := vreg_to_preg r; spill_slots := spill_slots r;
     total_spill_slots := total_spill_slots r; used_callee_saved := used_callee_saved r;
     spill_code := spill_code r; live_intervals := live_intervals r;
     coalesced_map := <[src := dst]> (coalesced_map r) |}.

Definition resolve_vreg (self : RegAllocResult) (vreg : Z) : Z :=
  default vreg (coalesced_map self !! vreg).

Definition get_phys_reg (self : RegAllocResult) (vreg : Z) : option PhysicalReg :=
  match vreg_to_preg self !! vreg with
  | Some preg => Some preg
  | None => vreg_to_preg self !! resolve_vreg self vreg
  end.

Definition spill_slot (self : RegAllocResult) (vreg : Z) : option GenericSpillSlot :=
  match spill_slots self !! vreg with
  | Some slot => Some slot
  | None => spill_slots self !! resolve_vreg self vreg
  end.

Definition is_spilled (self : RegAllocResult) (vreg : Z) : bool :=
  if is_some (spill_slots self !! vreg) then true
  else is_some (spill_slots self !! resolve_vreg self vreg).

Definition callee_saved_count (self : RegAllocResult) : Z :=
  Z.of_nat (size (used_callee_saved self)).

(** The sum runs over the table's values in the order [iter] gives them. *)
Definition spill_frame_bytes (chk : bool) (iter : gmap Z GenericSpillSlot → list GenericSpillSlot)
    (self : RegAllocResult) : outcome Z :=
  foldl (λ acc s, a ← acc; u32_add chk a (size_bytes s)) (mret 0) (iter (spill_slots self)).

(** [spill_code.entry(pos).or_default()] followed by [push] or [insert(0, _)]. *)
Definition push_code (pos : Z) (c : GenericSpillCode) (r : RegAllocResult) : RegAllocResult :=
  set_code (<[pos := default [] (spill_code r !! pos) ++ [c]]> (spill_code r)) r.
Definition insert_code_first (pos : Z) (c : GenericSpillCode) (r : RegAllocResult) :
    RegAllocResult :=
  set_code (<[pos := c :: default [] (spill_code r !! pos)]> (spill_code r)) r.

(** ** The allocator *)

Record TargetAgnosticRegAlloc := {
  isa_name : string;
  caller_saved_gprs : list PhysicalReg;
  callee_saved_gprs : list PhysicalReg;
  caller_saved_fps : list PhysicalReg;
  callee_saved_fps : list PhysicalReg;
}.

(** One round of the loop of [new] over the target's registers. *)
Definition add_register (a : TargetAgnosticRegAlloc) (reg : RegDesc) : TargetAgnosticRegAlloc :=
  if negb (is_allocatable reg) then a else
  let preg := PhysicalReg_new (rd_class reg) (wrap32 (rd_index reg)) in
  let saved := is_callee_saved reg in
  match rd_class reg with
  | Bk_Gpr =>
      {| isa_name := isa_name a;
         caller_saved_gprs :=
           if saved then caller_saved_gprs a else caller_saved_gprs a ++ [preg];
         callee_saved_gprs :=
           if saved then callee_saved_gprs a ++ [preg] else callee_saved_gprs a;
         caller_saved_fps := caller_saved_fps a; callee_saved_fps := callee_saved_fps a |}
  | Bk_SimdFp =>
      {| isa_name := isa_name a;
         caller_saved_gprs := caller_saved_gprs a; callee_saved_gprs := callee_saved_gprs a;
         caller_saved_fps := if saved then caller_saved_fps a else caller_saved_fps a ++ [preg];
         callee_saved_fps :=
           if saved then callee_saved_fps a ++ [preg] else callee_saved_fps a |}
  | _ => a
  end.

(** [new], on the two fields of the target description it reads. *)
Definition TargetAgnosticRegAlloc_new (name : string) (registers : list RegDesc) :
    TargetAgnosticRegAlloc :=
  foldl add_register
    {| isa_name := name; caller_saved_gprs := []; callee_saved_gprs := [];
       caller_saved_fps := []; callee_saved_fps := [] |} registers.

Definition gpr_count (self : TargetAgnosticRegAlloc) : nat :=
  length (caller_saved_gprs self) + length (callee_saved_gprs self).
Definition fp_count (self : TargetAgnosticRegAlloc) : nat :=
  length (caller_saved_fps self) + length (callee_saved_fps self).

Definition alloc_is_callee_saved (self : TargetAgnosticRegAlloc) (preg : PhysicalReg) : bool :=
  bool_decide (preg ∈ callee_saved_gprs self) || bool_decide (preg ∈ callee_saved_fps self).

Definition spill_offset (chk : bool) (slot_index : Z) (class : RegClass) : outcome Z :=
  let size := match class with Rc_Gpr => 8 | Rc_SimdFp => 16 end in
  a ← i32_of chk (as_i32 slot_index + 1);
  b ← i32_of chk (a * size);
  i32_of chk (- b).

Definition spill_scratch (self : TargetAgnosticRegAlloc) (class : RegClass) : PhysicalReg :=
  let idx :=
    match class with
    | Rc_Gpr => if String.eqb (isa_name self) "x86_64" then 11 else 5
    | Rc_SimdFp => 5
    end in
  PhysicalReg_new (to_backend_class class) idx.

(** [Vec::pop]. *)
Definition vec_pop {A} (l : list A) : option (A * list A) :=
  match last l with
  | Some x => Some (x, take (length l - 1) l)
  | None => None
  end.

(** An entry of the active list: virtual register, register, end and weight. *)
Definition active_entry : Type := Z * PhysicalReg * Z * Z.
Definition ae_vreg (e : active_entry) : Z := e.1.1.1.
Definition ae_reg (e : active_entry) : PhysicalReg := e.1.1.2.
Definition ae_end (e : active_entry) : Z := e.1.2.
Definition ae_weight (e : active_entry) : Z := e.2.

(** The three vectors the allocator keeps for each register class. *)
Record pool := {
  active : list active_entry;
  free_caller : list PhysicalReg;
  free_callee : list PhysicalReg;
}.

(** The loop of [expire_old]. *)
Fixpoint expire_loop (act : list active_entry) (caller callee : list PhysicalReg)
    (position : Z) (original_callee : list PhysicalReg) : pool :=
  match act with
  | [] => {| active := []; free_caller := caller; free_callee := callee |}
  | e :: rest =>
      if ae_end e <? position then
        if bool_decide (ae_reg e ∈ original_callee)
        then expire_loop rest caller (callee ++ [ae_reg e]) position original_callee
        else expire_loop rest (caller ++ [ae_reg e]) callee position original_callee
      else
        let p := expire_loop rest caller callee position original_callee in
        {| active := e :: active p; free_caller := free_caller p; free_callee := free_callee p |}
  end.

Definition expire_old (p : pool) (position : Z) (original_callee : list PhysicalReg) : pool :=
  expire_loop (active p) (free_caller p) (free_callee p) position original_callee.

Fixpoint spill_defs (chk : bool) (vreg : Z) (scratch : PhysicalReg) (slot : GenericSpillSlot)
    (defs : list Z) (r : RegAllocResult) : outcome RegAllocResult :=
  match defs with
  | [] => mret r
  | def_pos :: defs =>
      pos ← u32_add chk def_pos 1;
      spill_defs chk vreg scratch slot defs (push_code pos (Spill vreg scratch slot) r)
  end.

Definition reload_uses (vreg : Z) (scratch : PhysicalReg) (slot : GenericSpillSlot)
    (uses : list Z) (r : RegAllocResult) : RegAllocResult :=
  foldl (λ r use_pos, push_code use_pos (Reload vreg scratch slot) r) r uses.

Definition gen_spill_reload (chk : bool) (interval : LiveInterval) (scratch : PhysicalReg)
    (slot : GenericSpillSlot) (result : RegAllocResult) : outcome RegAllocResult :=
  r ← spill_defs chk (li_vreg interval) scratch slot (def_positions interval) result;
  mret (reload_uses (li_vreg interval) scratch slot (use_positions interval) r).

Definition gen_eviction_spill_reload (chk : bool) (evict_vreg : Z) (evict_preg scratch : PhysicalReg)
    (evict_interval : option LiveInterval) (current_pos : Z) (slot : GenericSpillSlot)
    (result : RegAllocResult) : outcome RegAllocResult :=
  let r := insert_code_first current_pos (Spill evict_vreg evict_preg slot) result in
  match evict_interval with
  | None => mret r
  | Some interval =>
      let r := reload_uses evict_vreg scratch slot
        (filter (λ p, (current_pos <=? p) = true) (use_positions interval)) r in
      spill_defs chk evict_vreg scratch slot
        (filter (λ p, (current_pos <? p) = true) (def_positions interval)) r
  end.

(** The comparison of [min_by]: less weight first, then the later end. *)
Definition evict_before (a b : active_entry) : bool :=
  (ae_weight a <? ae_weight b) ||
  ((ae_weight a =? ae_weight b) && (ae_end b <? ae_end a)).

(** [iter().enumerate().min_by(..)]: the first of the least elements. *)
Fixpoint min_entry (best : nat * active_entry) (idx : nat) (l : list active_entry) :
    nat * active_entry :=
  match l with
  | [] => best
  | e :: l => min_entry (if evict_before e best.2 then (idx, e) else best) (S idx) l
  end.

Definition alloc_slot (chk : bool) (next : Z) (class : RegClass) : outcome (Z * GenericSpillSlot) :=
  next' ← u32_add chk next 1;
  offset ← spill_offset chk next class;
  mret (next', GenericSpillSlot_new next offset class).

(** The branches of [spill_or_evict] that spill the interval itself. *)
Definition spill_current (chk : bool) (self : TargetAgnosticRegAlloc) (interval : LiveInterval)
    (next : Z) (result : RegAllocResult) : outcome (Z * RegAllocResult) :=
  let scratch := spill_scratch self (li_class interval) in
  '(next', slot) ← alloc_slot chk next (li_class interval);
  let r := set_preg (li_vreg interval) scratch result in
  r ← gen_spill_reload chk interval scratch slot r;
  mret (next', set_slot (li_vreg interval) slot r).

Definition find_interval (intervals : list LiveInterval) (vreg : Z) : option LiveInterval :=
  find (λ i, li_vreg i =? vreg) intervals.

Definition spill_or_evict (chk : bool) (self : TargetAgnosticRegAlloc) (interval : LiveInterval)
    (intervals : list LiveInterval) (p : pool) (next : Z) (result : RegAllocResult) :
    outcome (pool * Z * RegAllocResult * option PhysicalReg) :=
  let scratch := spill_scratch self (li_class interval) in
  match active p with
  | [] =>
      '(next', r) ← spill_current chk self interval next result;
      mret (p, next', r, None)
  | e0 :: rest =>
      let '(evict_idx, evict) := min_entry (0%nat, e0) 1 rest in
      current_weight ← weight_per_length chk interval;
      if current_weight <=? ae_weight evict then
        '(next', r) ← spill_current chk self interval next result;
        mret (p, next', r, None)
      else
        let evict_reg := ae_reg evict in
        let act := delete evict_idx (active p) in
        '(next', slot) ← alloc_slot chk next (li_class interval);
        let r := set_slot (ae_vreg evict) slot result in
        let r := set_preg (ae_vreg evict) scratch r in
        let r := set_callee_saved (used_callee_saved r ∖ {[evict_reg]}) r in
        r ← gen_eviction_spill_reload chk (ae_vreg evict) evict_reg scratch
              (find_interval intervals (ae_vreg evict)) (li_start interval) slot r;
        let saved := alloc_is_callee_saved self evict_reg in
        w ← weight_per_length chk interval;
        mret ({| active := act ++ [(li_vreg interval, evict_reg, li_end interval, w)];
                 free_caller := if saved then free_caller p else free_caller p ++ [evict_reg];
                 free_callee := if saved then free_callee p ++ [evict_reg] else free_callee p |},
              next', r, Some evict_reg)
  end.

(** [first.pop().or_else(|| second.pop())]. *)
Definition pop_either {A} (first second : list A) : option (A * list A * list A) :=
  match vec_pop first with
  | Some (x, first') => Some (x, first', second)
  | None =>
      match vec_pop second with
      | Some (x, second') => Some (x, first, second')
      | None => None
      end
  end.

Definition take_free (interval : LiveInterval) (p : pool) :
    option (PhysicalReg * list PhysicalReg * list PhysicalReg) :=
  if crosses_call interval then
    match pop_either (free_callee p) (free_caller p) with
    | Some (r, callee, caller) => Some (r, caller, callee)
    | None => None
    end
  else pop_either (free_caller p) (free_callee p).

Definition try_alloc_reg (chk : bool) (self : TargetAgnosticRegAlloc) (interval : LiveInterval)
    (intervals : list LiveInterval) (p : pool) (next : Z) (result : RegAllocResult) :
    outcome (pool * Z * RegAllocResult * option PhysicalReg) :=
  match take_free interval p with
  | Some (r, caller, callee) =>
      w ← weight_per_length chk interval;
      mret ({| active := active p ++ [(li_vreg interval, r, li_end interval, w)];
               free_caller := caller; free_callee := callee |}, next, result, Some r)
  | None => spill_or_evict chk self interval intervals p next result
  end.

Definition assign (self : TargetAgnosticRegAlloc) (interval : LiveInterval) (preg : PhysicalReg)
    (result : RegAllocResult) : RegAllocResult :=
  let r := set_preg (li_vreg interval) preg result in
  let r := if alloc_is_callee_saved self preg
           then set_callee_saved ({[preg]} ∪ used_callee_saved r) r else r in
  foldl (λ r v, if v =? li_vreg interval then r else record_coalescing v (li_vreg interval) r)
    r (coalesced_vregs interval).

Record alloc_state := {
  as_gprs : pool;
  as_fps : pool;
  as_next : Z;
  as_result : RegAllocResult;
}.

Definition alloc_init (self : TargetAgnosticRegAlloc) : alloc_state :=
  {| as_gprs := {| active := []; free_caller := caller_saved_gprs self;
                   free_callee := callee_saved_gprs self |};
     as_fps := {| active := []; free_caller := caller_saved_fps self;
                  free_callee := callee_saved_fps self |};
     as_next := 0; as_result := RegAllocResult_new |}.

(** One round of the linear scan. *)
Definition alloc_step (chk : bool) (self : TargetAgnosticRegAlloc) (intervals : list LiveInterval)
    (interval : LiveInterval) (st : alloc_state) : outcome alloc_state :=
  let gprs := expire_old (as_gprs st) (li_start interval) (callee_saved_gprs self) in
  let fps := expire_old (as_fps st) (li_start interval) (callee_saved_fps self) in
  let finish r o := match o with Some preg => assign self interval preg r | None => r end in
  match li_class interval with
  | Rc_Gpr =>
      '(p, next, r, o) ← try_alloc_reg chk self interval intervals gprs (as_next st) (as_result st);
      mret {| as_gprs := p; as_fps := fps; as_next := next; as_result := finish r o |}
  | Rc_SimdFp =>
      '(p, next, r, o) ← try_alloc_reg chk self interval intervals fps (as_next st) (as_result st);
      mret {| as_gprs := gprs; as_fps := p; as_next := next; as_result := finish r o |}
  end.

Fixpoint alloc_loop (chk : bool) (self : TargetAgnosticRegAlloc) (intervals : list LiveInterval)
    (todo : list LiveInterval) (st : alloc_state) : outcome alloc_state :=
  match todo with
  | [] => mret st
  | i :: todo => st' ← alloc_step chk self intervals i st; alloc_loop chk self intervals todo st'
  end.

(** [allocate_intervals]; its [Result] is always [Ok]. *)
Definition allocate_intervals (chk : bool) (self : TargetAgnosticRegAlloc)
    (intervals : list LiveInterval) : outcome RegAllocResult :=
  st ← alloc_loop chk self intervals intervals (alloc_init self);
  mret (set_totals (as_next st) intervals (as_result st)).

(** ** The conflict pass *)

(** The registers of [result] held by the other intervals that overlap [def_vreg]'s. *)
Definition used_pregs (result : RegAllocResult) (intervals : list LiveInterval) (def_vreg : Z) :
    list PhysicalReg :=
  let def_interval := find_interval intervals def_vreg in
  let def_end := default U32_MAX (li_end <$> def_interval) in
  let def_start := default 0 (li_start <$> def_interval) in
  omap (λ '(vreg, preg),
    if vreg =? def_vreg then None else
    match find_interval intervals vreg with
    | Some i => if (li_start i <=? def_end) && (def_start <=? li_end i) then Some preg else None
    | None => None
    end) (map_to_list (vreg_to_preg result)).

(** The candidates: the pools for general registers, indices 0 to 31 otherwise. *)
Definition allocatable (self : TargetAgnosticRegAlloc) (class : BackendRegClass) :
    list PhysicalReg :=
  match class with
  | Bk_Gpr => caller_saved_gprs self ++ callee_saved_gprs self
  | _ => PhysicalReg_new class <$> seqZ 0 32
  end.

Definition resolve_single_conflict (chk : bool) (self : TargetAgnosticRegAlloc)
    (result : RegAllocResult) (intervals : list LiveInterval) (def_vreg : Z)
    (conflict_preg : PhysicalReg) : outcome RegAllocResult :=
  let used := used_pregs result intervals def_vreg in
  let class := match pr_class conflict_preg with Bk_Gpr => Rc_Gpr | _ => Rc_SimdFp end in
  match find (λ c, negb (bool_decide (c = conflict_preg)) && negb (bool_decide (c ∈ used)))
          (allocatable self (pr_class conflict_preg)) with
  | Some candidate => mret (set_preg def_vreg candidate result)
  | None =>
      let slot_idx := total_spill_slots result in
      total ← u32_add chk slot_idx 1;
      offset ← spill_offset chk slot_idx class;
      let slot := GenericSpillSlot_new slot_idx offset class in
      let r := set_totals total (live_intervals result) result in
      let r := set_slot def_vreg slot r in
      let scratch := spill_scratch self class in
      let r := set_preg def_vreg scratch r in
      match find_interval intervals def_vreg with
      | Some interval => gen_spill_reload chk interval scratch slot r
      | None => mret r
      end
  end.

(** What the pass reads of an instruction: [used_regs] and [defined_regs]. *)
Record instr_regs := { used_regs : list Z; defined_regs : list Z }.

(** The check of one definition against the instruction's own uses. *)
Fixpoint within_instr (chk : bool) (self : TargetAgnosticRegAlloc) (intervals : list LiveInterval)
    (pos def_root : Z) (def_preg : PhysicalReg) (uses : list Z) (result : RegAllocResult) :
    outcome RegAllocResult :=
  match uses with
  | [] => mret result
  | use_vreg :: uses =>
      let next := within_instr chk self intervals pos def_root def_preg uses in
      let use_root := resolve_vreg result use_vreg in
      if use_root =? def_root then next result else
      match vreg_to_preg result !! use_root with
      | None => next result
      | Some use_preg =>
          if negb (bool_decide (use_preg = def_preg)) then next result else
          let scratch := spill_scratch self (from_backend_class (pr_class use_preg)) in
          if bool_decide (use_preg = scratch) || bool_decide (def_preg = scratch)
          then next result else
          match find_interval intervals use_root with
          | Some ui =>
              if pos <? li_end ui then
                r ← resolve_single_conflict chk self result intervals def_root def_preg; next r
              else next result
          | None => next result
          end
      end
  end.

(** Another interval, live across [pos], that shares the definition's register.
    The first one the snapshot yields is resolved, and which one it is makes no
    difference. *)
Definition live_across (result : RegAllocResult) (intervals : list LiveInterval)
    (pos def_root : Z) (def_preg : PhysicalReg) : bool :=
  existsb (λ '(vreg, preg),
    negb (vreg =? def_root) && bool_decide (preg = def_preg) &&
    negb (resolve_vreg result vreg =? def_root) &&
    match find_interval intervals (resolve_vreg result vreg) with
    | Some i => (li_start i <? pos) && (pos <? li_end i)
    | None => false
    end) (map_to_list (vreg_to_preg result)).

Definition resolve_def (chk : bool) (self : TargetAgnosticRegAlloc) (intervals : list LiveInterval)
    (pos : Z) (uses : list Z) (result : RegAllocResult) (def_vreg : Z) : outcome RegAllocResult :=
  let def_root := resolve_vreg result def_vreg in
  match vreg_to_preg result !! def_root with
  | None => mret result
  | Some def_preg =>
      r ← within_instr chk self intervals pos def_root def_preg uses result;
      match vreg_to_preg r !! def_root with
      | None => mret r
      | Some def_preg =>
          if bool_decide (def_preg = spill_scratch self (from_backend_class (pr_class def_preg)))
          then mret r
          else if live_across r intervals pos def_root def_preg
          then resolve_single_conflict chk self r intervals def_root def_preg
          else mret r
      end
  end.

Fixpoint resolve_defs (chk : bool) (self : TargetAgnosticRegAlloc) (intervals : list LiveInterval)
    (pos : Z) (uses defs : list Z) (result : RegAllocResult) : outcome RegAllocResult :=
  match defs with
  | [] => mret result
  | d :: defs =>
      r ← resolve_def chk self intervals pos uses result d;
      resolve_defs chk self intervals pos uses defs r
  end.

Fixpoint resolve_block (chk : bool) (self : TargetAgnosticRegAlloc) (intervals : list LiveInterval)
    (instrs : list instr_regs) (pos : Z) (result : RegAllocResult) : outcome (Z * RegAllocResult) :=
  match instrs with
  | [] => mret (pos, result)
  | i :: instrs =>
      r ← resolve_defs chk self intervals pos (used_regs i) (defined_regs i) result;
      pos' ← u32_add chk pos 2;
      resolve_block chk self intervals instrs pos' r
  end.

Fixpoint resolve_blocks (chk : bool) (self : TargetAgnosticRegAlloc) (intervals : list LiveInterval)
    (blocks : list (list instr_regs)) (pos : Z) (result : RegAllocResult) : outcome RegAllocResult :=
  match blocks with
  | [] => mret result
  | b :: blocks =>
      '(pos', r) ← resolve_block chk self intervals b pos result;
      pos'' ← u32_add chk pos' 2;
      resolve_blocks chk self intervals blocks pos'' r
  end.

Definition resolve_register_reuse_conflicts (chk : bool) (self : TargetAgnosticRegAlloc)
    (blocks : list (list instr_regs)) (result : RegAllocResult) (intervals : list LiveInterval) :
    outcome RegAllocResult :=
  resolve_blocks chk self intervals blocks 0 result.

(** ** Specification *)

(** All registers of a class. *)
Definition class_regs (self : TargetAgnosticRegAlloc) (class : RegClass) : list PhysicalReg :=
  match class with
  | Rc_Gpr => caller_saved_gprs self ++ callee_saved_gprs self
  | Rc_SimdFp => caller_saved_fps self ++ callee_saved_fps self
  end.

(** The weight an interval has when no count overflows. *)
Definition weight (i : LiveInterval) : Z :=
  Z.max (Z.of_nat (length (use_positions i) + length (def_positions i))) 1 *
  (if crosses_call i then 2 else 1) * Z.shiftl 1 (Z.min (loop_depth i) 4) /
  Z.max (li_len i) 1.

(** What the live-range computation gives: ordered [u32] bounds and fewer than
    [2^27] uses and definitions. *)
Record interval_ok (i : LiveInterval) : Prop := {
  io_range : 0 ≤ li_start i ≤ li_end i;
  io_uses : Z.of_nat (length (use_positions i) + length (def_positions i)) < 2 ^ 27;
  io_defs : Forall (λ p, 0 ≤ p < U32_MAX) (def_positions i);
  io_depth : 0 ≤ loop_depth i;
}.

Record input_ok (self : TargetAgnosticRegAlloc) (intervals : list LiveInterval) : Prop := {
  in_pools : ∀ c, NoDup (class_regs self c);
  in_intervals : Forall interval_ok intervals;
  in_sorted : StronglySorted Z.le (li_start <$> intervals);
  in_vregs : NoDup (li_vreg <$> intervals);
  in_count : Z.of_nat (length intervals) < 2 ^ 26;
}.

(** The intervals of the class of [j] that are live where [j] starts. *)
Definition live_with (j i : LiveInterval) : Prop :=
  li_class i = li_class j ∧ li_start i ≤ li_start j ≤ li_end i.
#[export] Instance live_with_dec j i : Decision (live_with j i).
Proof. unfold live_with. apply _. Defined.

Definition pressure_fits (self : TargetAgnosticRegAlloc) (intervals : list LiveInterval)
    (j : LiveInterval) : Prop :=
  (length (filter (live_with j) intervals) ≤ length (class_regs self (li_class j)))%nat.

(** No earlier interval of the class weighs less, so that none is evicted for [j]. *)
Definition lightest (before : list LiveInterval) (j : LiveInterval) : Prop :=
  ∀ i, i ∈ before → li_class i = li_class j → weight j ≤ weight i.

Definition emits (r : RegAllocResult) (pos : Z) (c : GenericSpillCode) : Prop :=
  ∃ l, spill_code r !! pos = Some l ∧ c ∈ l.

(** An interval in a slot: every definition is followed by a store of the scratch
    register to the slot and every use preceded by a load. *)
Record spilled_ok (self : TargetAgnosticRegAlloc) (i : LiveInterval) (slot : GenericSpillSlot)
    (r : RegAllocResult) : Prop := {
  sp_class : ss_class slot = li_class i;
  sp_preg : vreg_to_preg r !! li_vreg i = Some (spill_scratch self (li_class i));
  sp_uses : ∀ p, p ∈ use_positions i →
    emits r p (Reload (li_vreg i) (spill_scratch self (li_class i)) slot);
  sp_defs : ∀ p, p ∈ def_positions i →
    emits r (p + 1) (Spill (li_vreg i) (spill_scratch self (li_class i)) slot);
}.

Record register_ok (self : TargetAgnosticRegAlloc) (i : LiveInterval) (r : RegAllocResult)
    (reg : PhysicalReg) : Prop := {
  ro_preg : vreg_to_preg r !! li_vreg i = Some reg;
  ro_class : reg ∈ class_regs self (li_class i);
  ro_saved : alloc_is_callee_saved self reg = true → reg ∈ used_callee_saved r;
}.

Definition separated (intervals : list LiveInterval) (r : RegAllocResult) : Prop :=
  ∀ i j, i ∈ intervals → j ∈ intervals → li_vreg i ≠ li_vreg j →
    li_class i = li_class j → overlaps i j = true →
    spill_slots r !! li_vreg i = None → spill_slots r !! li_vreg j = None →
    vreg_to_preg r !! li_vreg i ≠ vreg_to_preg r !! li_vreg j.

Definition slots_distinct (r : RegAllocResult) : Prop :=
  ∀ v w s t, spill_slots r !! v = Some s → spill_slots r !! w = Some t →
    ss_index s = ss_index t → v = w.

(** The bytes of a slot, below the frame pointer. *)
Definition slot_bytes (s : GenericSpillSlot) (a : Z) : Prop :=
  ss_offset s ≤ a < ss_offset s + size_bytes s.

(** The invariant of one class's vectors after the expiry at [pos]. *)
Record class_inv (self : TargetAgnosticRegAlloc) (c : RegClass) (pos : Z)
    (done : list LiveInterval) (p : pool) (r : RegAllocResult) : Prop := {
  ci_perm : (ae_reg <$> active p) ++ free_caller p ++ free_callee p ≡ₚ class_regs self c;
  ci_nodup : NoDup (ae_vreg <$> active p);
  ci_active : ∀ e, e ∈ active p → ∃ i, i ∈ done ∧ li_class i = c ∧ ae_vreg e = li_vreg i ∧
    ae_end e = li_end i ∧ ae_weight e = weight i ∧
    vreg_to_preg r !! li_vreg i = Some (ae_reg e) ∧ pos ≤ li_end i;
  ci_live : ∀ i, i ∈ done → li_class i = c → spill_slots r !! li_vreg i = None →
    pos ≤ li_end i → ∃ e, e ∈ active p ∧ ae_vreg e = li_vreg i ∧ ae_end e = li_end i;
}.

Record result_inv (self : TargetAgnosticRegAlloc) (done : list LiveInterval) (next : Z)
    (r : RegAllocResult) : Prop := {
  ri_placed : ∀ i, i ∈ done →
    match spill_slots r !! li_vreg i with
    | None => ∃ reg, register_ok self i r reg
    | Some slot => spilled_ok self i slot r
    end;
  ri_sep : separated done r;
  ri_slots : ∀ v s, spill_slots r !! v = Some s →
    0 ≤ ss_index s < next ∧ v ∈ li_vreg <$> done;
  ri_inj : slots_distinct r;
  ri_next : 0 ≤ next ≤ Z.of_nat (length done);
}.

Record alloc_inv (self : TargetAgnosticRegAlloc) (pos : Z) (done : list LiveInterval)
    (st : alloc_state) : Prop := {
  ai_gprs : class_inv self Rc_Gpr pos done (as_gprs st) (as_result st);
  ai_fps : class_inv self Rc_SimdFp pos done (as_fps st) (as_result st);
  ai_result : result_inv self done (as_next st) (as_result st);
  ai_starts : ∀ i, i ∈ done → li_start i ≤ pos;
}.

(** The result changed at [v] only, and spill code was only added. *)
Record extends (v : Z) (r r' : RegAllocResult) : Prop := {
  ex_preg : ∀ w, w ≠ v → vreg_to_preg r' !! w = vreg_to_preg r !! w;
  ex_slot : ∀ w, w ≠ v → spill_slots r' !! w = spill_slots r !! w;
  ex_saved : used_callee_saved r ⊆ used_callee_saved r';
  ex_code : ∀ p c, emits r p c → emits r' p c;
}.

(** ** Lemmas *)

Lemma vec_pop_Some {A} (l l' : list A) x : vec_pop l = Some (x, l') → l = l' ++ [x].
Proof.
  unfold vec_pop. destruct (last l) as [y|] eqn:E; [|done]. intros [= -> <-].
  apply last_Some in E as [l' ->]. rewrite length_app. simpl.
  rewrite Nat.add_sub, take_app_length. done.
Qed.

Lemma vec_pop_None {A} (l : list A) : vec_pop l = None → l = [].
Proof. unfold vec_pop. destruct (last l) eqn:E; [done|]. intros _. by apply last_None in E. Qed.

Lemma pop_either_Some {A} (f s f' s' : list A) x :
  pop_either f s = Some (x, f', s') → f ++ s ≡ₚ x :: f' ++ s'.
Proof.
  unfold pop_either. destruct (vec_pop f) as [[y f1]|] eqn:Ef.
  - intros [= -> -> ->]. apply vec_pop_Some in Ef as ->. solve_Permutation.
  - destruct (vec_pop s) as [[y s1]|] eqn:Es; [|done].
    intros [= -> -> ->]. apply vec_pop_Some in Es as ->. solve_Permutation.
Qed.

Lemma pop_either_None {A} (f s : list A) : pop_either f s = None → f = [] ∧ s = [].
Proof.
  unfold pop_either. destruct (vec_pop f) as [[]|] eqn:Ef; [done|].
  destruct (vec_pop s) as [[]|] eqn:Es; [done|]. intros _.
  split; by apply vec_pop_None.
Qed.

Lemma take_free_Some i p r caller callee :
  take_free i p = Some (r, caller, callee) →
  free_caller p ++ free_callee p ≡ₚ r :: caller ++ callee.
Proof.
  unfold take_free. destruct (crosses_call i).
  - destruct (pop_either _ _) as [[[x a] b]|] eqn:E; [|done]. intros [= -> -> ->].
    apply pop_either_Some in E. rewrite (Permutation_app_comm caller), <-E.
    apply Permutation_app_comm.
  - apply pop_either_Some.
Qed.

Lemma take_free_None i p : take_free i p = None → free_caller p = [] ∧ free_callee p = [].
Proof.
  unfold take_free. destruct (crosses_call i).
  - destruct (pop_either _ _) as [[[x a] b]|] eqn:E; [done|]. intros _.
    apply pop_either_None in E. tauto.
  - apply pop_either_None.
Qed.

Lemma expire_loop_active act caller callee pos orig :
  active (expire_loop act caller callee pos orig) = filter (λ e, pos ≤ ae_end e) act.
Proof.
  revert caller callee. induction act as [|e act IH]; intros; [done|]. simpl.
  rewrite filter_cons. destruct (Z.ltb_spec (ae_end e) pos).
  - rewrite decide_False by lia. case_bool_decide; apply IH.
  - rewrite decide_True by lia. simpl. f_equal. apply IH.
Qed.

Definition pool_regs (p : pool) : list PhysicalReg :=
  (ae_reg <$> active p) ++ free_caller p ++ free_callee p.

Lemma expire_loop_regs act caller callee pos orig :
  pool_regs (expire_loop act caller callee pos orig) ≡ₚ (ae_reg <$> act) ++ caller ++ callee.
Proof.
  revert caller callee. unfold pool_regs.
  induction act as [|e act IH]; intros caller callee; [done|]. csimpl.
  destruct (ae_end e <? pos).
  - case_bool_decide; rewrite IH; csimpl; solve_Permutation.
  - csimpl. by rewrite IH.
Qed.

Lemma wrap32_small z : is_u32 z → wrap32 z = z.
Proof. intros. by apply Z.mod_small. Qed.

Lemma shiftl_depth i : 0 ≤ loop_depth i → 1 ≤ Z.shiftl 1 (Z.min (loop_depth i) 4) ≤ 16.
Proof.
  intros. rewrite Z.shiftl_mul_pow2, Z.mul_1_l by lia.
  pose proof (Z.pow_le_mono_r 2 (Z.min (loop_depth i) 4) 4).
  pose proof (Z.pow_le_mono_r 2 0 (Z.min (loop_depth i) 4)). lia.
Qed.

Lemma weight_per_length_ok chk i : interval_ok i → weight_per_length chk i = Ret (weight i).
Proof.
  intros [Hr Hu Hd Hl]. unfold weight_per_length, spill_weight, u32_add, u32_mul, weight.
  pose proof (shiftl_depth i Hl) as Hs. rewrite Nat2Z.inj_add in *.
  set (u := Z.of_nat (length (use_positions i))) in *.
  set (d := Z.of_nat (length (def_positions i))) in *.
  set (m := Z.shiftl 1 (Z.min (loop_depth i) 4)) in *.
  assert (0 ≤ u ∧ 0 ≤ d) by lia.
  rewrite !wrap32_small by (unfold is_u32; lia).
  rewrite (u32_of_in chk (u + d)) by (unfold is_u32; lia).
  cbn [mbind outcome_bind].
  set (b := Z.max (u + d) 1 * (if crosses_call i then 2 else 1)).
  assert (1 ≤ b ≤ 2 ^ 28 - 2) by (unfold b; destruct (crosses_call i); lia).
  rewrite (u32_of_in chk b) by (unfold is_u32; lia).
  cbn [mbind outcome_bind]. rewrite (u32_of_in chk (b * m)) by (unfold is_u32; nia).
  done.
Qed.

Lemma spill_offset_ok chk n class : 0 ≤ n < 2 ^ 26 →
  spill_offset chk n class = Ret (- ((n + 1) * match class with Rc_Gpr => 8 | Rc_SimdFp => 16 end)).
Proof.
  intros Hn. unfold spill_offset.
  assert (as_i32 n = n) as ->.
  { unfold as_i32. rewrite wrap32_small by (unfold is_u32; lia).
    destruct (Z.ltb_spec n (2 ^ 31)); lia. }
  set (s := match class with Rc_Gpr => 8 | Rc_SimdFp => 16 end).
  assert (8 ≤ s ≤ 16) by (destruct class; unfold s; lia).
  rewrite (i32_of_in chk (n + 1)) by (unfold is_i32; lia). cbn [mbind outcome_bind].
  rewrite (i32_of_in chk ((n + 1) * s)) by (unfold is_i32; nia). cbn [mbind outcome_bind].
  by rewrite (i32_of_in chk (- ((n + 1) * s))) by (unfold is_i32; nia).
Qed.

Lemma alloc_slot_ok chk n class : 0 ≤ n < 2 ^ 26 → ∃ slot,
  alloc_slot chk n class = Ret (n + 1, slot) ∧ ss_index slot = n ∧ ss_class slot = class.
Proof.
  intros Hn. unfold alloc_slot, u32_add. rewrite (u32_of_in chk (n + 1)) by (unfold is_u32; lia).
  cbn [mbind outcome_bind]. rewrite spill_offset_ok by done. by eexists.
Qed.

(** *** Spill code *)

Lemma emits_push r pos c p d :
  emits (push_code pos c r) p d ↔ emits r p d ∨ (p = pos ∧ d = c).
Proof.
  unfold emits, push_code. simpl. destruct (decide (p = pos)) as [->|Hp].
  - rewrite lookup_insert_eq. split.
    + intros (l & [= <-] & [H| ->%list_elem_of_singleton]%elem_of_app); [|by right].
      left. destruct (spill_code r !! pos); simpl in H; [by eauto|by apply elem_of_nil in H].
    + intros [(l & -> & H)|[_ ->]]; eexists; (split; [done|]); apply elem_of_app; simpl;
        rewrite ?list_elem_of_singleton; auto.
  - rewrite lookup_insert_ne by done. naive_solver.
Qed.

Lemma emits_reload_uses v s slot uses r p c :
  emits (reload_uses v s slot uses r) p c ↔
  emits r p c ∨ (p ∈ uses ∧ c = Reload v s slot).
Proof.
  unfold reload_uses. revert r. induction uses as [|u uses IH]; intros r; simpl.
  - rewrite elem_of_nil. naive_solver.
  - rewrite IH, emits_push, elem_of_cons. naive_solver.
Qed.

(** Everything but the spill code. *)
Definition same_but_code (r r' : RegAllocResult) : Prop :=
  vreg_to_preg r' = vreg_to_preg r ∧ spill_slots r' = spill_slots r ∧
  used_callee_saved r' = used_callee_saved r.

Lemma same_but_code_reload v s slot uses r : same_but_code r (reload_uses v s slot uses r).
Proof.
  unfold reload_uses. revert r. induction uses as [|u uses IH]; intros r; [done|].
  simpl. destruct (IH (push_code u (Reload v s slot) r)) as (?&?&?). done.
Qed.

Lemma spill_defs_ok chk v s slot defs r :
  Forall (λ p, 0 ≤ p < U32_MAX) defs →
  ∃ r', spill_defs chk v s slot defs r = Ret r' ∧ same_but_code r r' ∧
    ∀ p c, emits r' p c ↔ emits r p c ∨ ((∃ d, d ∈ defs ∧ p = d + 1) ∧ c = Spill v s slot).
Proof.
  revert r. induction defs as [|d defs IH]; intros r Hd; simpl.
  - exists r. split; [done|]. split; [done|]. intros p c. split; [tauto|].
    intros [H|[(d & H%elem_of_nil & _) _]]; done.
  - apply Forall_cons in Hd as [Hd Hds]. unfold u32_add, U32_MAX in *.
    rewrite (u32_of_in chk (d + 1)) by (unfold is_u32; lia). cbn [mbind outcome_bind].
    destruct (IH (push_code (d + 1) (Spill v s slot) r) Hds) as (r' & -> & Hsame & Hem).
    exists r'. split; [done|]. split; [exact Hsame|]. intros p c. rewrite Hem, emits_push.
    setoid_rewrite elem_of_cons. naive_solver.
Qed.

Lemma total_reload_uses v s slot uses r :
  total_spill_slots (reload_uses v s slot uses r) = total_spill_slots r.
Proof.
  unfold reload_uses. revert r. induction uses as [|u uses IH]; intros r; [done|].
  simpl. by rewrite IH.
Qed.

Lemma total_spill_defs chk v s slot defs r r' :
  spill_defs chk v s slot defs r = Ret r' → total_spill_slots r' = total_spill_slots r.
Proof.
  revert r. induction defs as [|d defs IH]; intros r; simpl; [by intros [= <-]|].
  destruct (u32_add chk d 1); [|done]. cbn [mbind outcome_bind]. by intros ->%IH.
Qed.

Lemma gen_spill_reload_ok chk i s slot r :
  Forall (λ p, 0 ≤ p < U32_MAX) (def_positions i) →
  ∃ r', gen_spill_reload chk i s slot r = Ret r' ∧ same_but_code r r' ∧
    (∀ p c, emits r p c → emits r' p c) ∧
    (∀ p, p ∈ use_positions i → emits r' p (Reload (li_vreg i) s slot)) ∧
    (∀ p, p ∈ def_positions i → emits r' (p + 1) (Spill (li_vreg i) s slot)).
Proof.
  intros Hd. unfold gen_spill_reload.
  destruct (spill_defs_ok chk (li_vreg i) s slot _ r Hd) as (r1 & -> & (H1 & H2 & H3) & Hem).
  cbn [mbind outcome_bind mret outcome_ret]. eexists. split; [done|].
  pose proof (same_but_code_reload (li_vreg i) s slot (use_positions i) r1) as (G1 & G2 & G3).
  split; [unfold same_but_code; split; [|split]; congruence|].
  setoid_rewrite emits_reload_uses. setoid_rewrite Hem.
  split; [|split]; intros; [tauto|right; done|left; right; eauto].
Qed.

(** *** Assignment *)

Lemma assign_coalesced v l r :
  let r' := foldl (λ r w, if w =? v then r else record_coalescing w v r) r l in
  same_but_code r r' ∧ spill_code r' = spill_code r.
Proof.
  cbn zeta. revert r. induction l as [|w l IH]; intros r; simpl; [done|].
  destruct (w =? v); [apply IH|]. exact (IH (record_coalescing w v r)).
Qed.

Lemma assign_spec self i reg r :
  let r' := assign self i reg r in
  vreg_to_preg r' = <[li_vreg i := reg]> (vreg_to_preg r) ∧
  spill_slots r' = spill_slots r ∧ spill_code r' = spill_code r ∧
  used_callee_saved r ⊆ used_callee_saved r' ∧
  (alloc_is_callee_saved self reg = true → reg ∈ used_callee_saved r').
Proof.
  cbn zeta. unfold assign.
  set (r1 := set_preg (li_vreg i) reg r).
  set (r2 := if alloc_is_callee_saved self reg then _ else r1).
  destruct (assign_coalesced (li_vreg i) (coalesced_vregs i) r2) as ((H1 & H2 & H3) & H4).
  rewrite H1, H2, H3, H4. unfold r2. destruct (alloc_is_callee_saved self reg);
    simpl; (split; [done|]); (split; [done|]); (split; [done|]); split; set_solver.
Qed.

Lemma spill_current_ok chk self i next r :
  interval_ok i → 0 ≤ next < 2 ^ 26 →
  ∃ r' slot, spill_current chk self i next r = Ret (next + 1, r') ∧
    ss_index slot = next ∧ spill_slots r' !! li_vreg i = Some slot ∧
    spilled_ok self i slot r' ∧ extends (li_vreg i) r r'.
Proof.
  intros Hi Hn. unfold spill_current.
  destruct (alloc_slot_ok chk next (li_class i) Hn) as (slot & -> & Hs & Hc).
  cbn [mbind outcome_bind].
  destruct (gen_spill_reload_ok chk i (spill_scratch self (li_class i)) slot
    (set_preg (li_vreg i) (spill_scratch self (li_class i)) r) (io_defs i Hi))
    as (r1 & -> & (H1 & H2 & H3) & Hmono & Hu & Hd).
  cbn [mbind outcome_bind mret outcome_ret].
  exists (set_slot (li_vreg i) slot r1), slot. split; [done|]. split; [done|].
  split; [apply lookup_insert_eq|]. split.
  - constructor; simpl; [done| |done|done]. rewrite H1. apply lookup_insert_eq.
  - constructor; simpl.
    + intros w Hw. rewrite H1. simpl. by rewrite lookup_insert_ne.
    + intros w Hw. rewrite lookup_insert_ne by done. by rewrite H2.
    + by rewrite H3.
    + intros p c H. by apply Hmono.
Qed.

Lemma min_entry_in best k l : (min_entry best k l).2 ∈ best.2 :: l.
Proof.
  revert best k. induction l as [|e l IH]; intros best k; [by left|].
  specialize (IH (if evict_before e best.2 then (k, e) else best) (S k)).
  simpl. rewrite !elem_of_cons in *. destruct (evict_before e best.2); simpl in *; tauto.
Qed.

Lemma assign_extends self i reg r : extends (li_vreg i) r (assign self i reg r).
Proof.
  destruct (assign_spec self i reg r) as (H1 & H2 & H3 & H4 & _). constructor.
  - intros w Hw. rewrite H1. by rewrite lookup_insert_ne.
  - intros w _. by rewrite H2.
  - done.
  - intros p c. unfold emits. by rewrite H3.
Qed.

Lemma fresh_ne (done : list LiveInterval) j i :
  li_vreg j ∉ li_vreg <$> done → i ∈ done → li_vreg i ≠ li_vreg j.
Proof. intros Hf Hi Heq. apply Hf. rewrite <-Heq. by apply list_elem_of_fmap_2. Qed.

(** *** The invariant is kept by changes at a new register *)

Section extends.
Context (self : TargetAgnosticRegAlloc) (done : list LiveInterval) (j : LiveInterval).
Context (r r' : RegAllocResult).
Context (Hfresh : li_vreg j ∉ li_vreg <$> done) (Hext : extends (li_vreg j) r r').

#[local] Set Default Proof Using "Type*".

Lemma spilled_ok_extends i slot : i ∈ done → spilled_ok self i slot r → spilled_ok self i slot r'.
Proof.
  intros Hi [H1 H2 H3 H4]. pose proof (fresh_ne _ _ _ Hfresh Hi) as Hne.
  constructor; [done| | |]; [by rewrite (ex_preg _ _ _ Hext)| |];
    intros p Hp; apply (ex_code _ _ _ Hext); auto.
Qed.

Lemma register_ok_extends i reg : i ∈ done → register_ok self i r reg → register_ok self i r' reg.
Proof.
  intros Hi [H1 H2 H3]. pose proof (fresh_ne _ _ _ Hfresh Hi) as Hne.
  constructor; [by rewrite (ex_preg _ _ _ Hext)|done|].
  intros Hs. apply (ex_saved _ _ _ Hext). auto.
Qed.

Lemma class_inv_extends c pos p : class_inv self c pos done p r → class_inv self c pos done p r'.
Proof.
  intros [H1 H2 H3 H4]. constructor; [done|done| |].
  - intros e He. destruct (H3 e He) as (i & Hi & Hc & Hv & Hend & Hw & Hp & Hpos).
    exists i. pose proof (fresh_ne _ _ _ Hfresh Hi).
    rewrite (ex_preg _ _ _ Hext) by done. done.
  - intros i Hi Hc Hs. pose proof (fresh_ne _ _ _ Hfresh Hi).
    rewrite (ex_slot _ _ _ Hext) in Hs by done. by apply H4.
Qed.

(** An interval that takes no register of the class. *)
Lemma class_inv_other c pos p :
  class_inv self c pos done p r →
  li_class j ≠ c ∨ is_Some (spill_slots r' !! li_vreg j) →
  class_inv self c pos (done ++ [j]) p r'.
Proof.
  intros [H1 H2 H3 H4]%class_inv_extends Hj. constructor; [done|done| |].
  - intros e He. destruct (H3 e He) as (i & Hi & ?). exists i. split; [|done].
    apply elem_of_app; by left.
  - intros i [Hi| ->%list_elem_of_singleton]%elem_of_app Hc Hs; [by apply H4|].
    destruct Hj as [?|[s Hj]]; [done|congruence].
Qed.

Lemma placed_extends :
  (∀ i, i ∈ done →
    match spill_slots r !! li_vreg i with
    | None => ∃ reg, register_ok self i r reg
    | Some slot => spilled_ok self i slot r
    end) →
  ∀ i, i ∈ done →
    match spill_slots r' !! li_vreg i with
    | None => ∃ reg, register_ok self i r' reg
    | Some slot => spilled_ok self i slot r'
    end.
Proof.
  intros H i Hi. specialize (H i Hi). pose proof (fresh_ne _ _ _ Hfresh Hi).
  rewrite (ex_slot _ _ _ Hext) by done. destruct (spill_slots r !! li_vreg i).
  - by apply spilled_ok_extends.
  - destruct H as [reg H]. exists reg. by apply register_ok_extends.
Qed.

(** The new interval may be compared with the old ones only. *)
Lemma separated_extends :
  separated done r →
  (spill_slots r' !! li_vreg j = None → ∀ i, i ∈ done → li_class i = li_class j →
    overlaps i j = true → spill_slots r !! li_vreg i = None →
    vreg_to_preg r !! li_vreg i ≠ vreg_to_preg r' !! li_vreg j) →
  separated (done ++ [j]) r'.
Proof.
  intros Hsep Hj i k [Hi| ->%list_elem_of_singleton]%elem_of_app
    [Hk| ->%list_elem_of_singleton]%elem_of_app Hne Hc Hov Hsi Hsk; [| | |done].
  - pose proof (fresh_ne _ _ _ Hfresh Hi). pose proof (fresh_ne _ _ _ Hfresh Hk).
    rewrite (ex_slot _ _ _ Hext) in Hsi by done. rewrite (ex_slot _ _ _ Hext) in Hsk by done.
    rewrite !(ex_preg _ _ _ Hext) by done. by apply Hsep.
  - rewrite (ex_slot _ _ _ Hext) in Hsi by done. rewrite (ex_preg _ _ _ Hext) by done.
    by apply Hj.
  - pose proof (fresh_ne _ _ _ Hfresh Hk). rewrite (ex_slot _ _ _ Hext) in Hsk by done.
    rewrite (ex_preg _ _ _ Hext (li_vreg k)) by done. intros Heq.
    apply (Hj Hsi k Hk); [done| |done|done].
    unfold overlaps in *. by rewrite andb_comm.
Qed.

(** The interval gets a register no overlapping one holds. *)
Lemma result_inv_register next reg :
  result_inv self done next r → register_ok self j r' reg →
  spill_slots r' = spill_slots r →
  (∀ i, i ∈ done → li_class i = li_class j → overlaps i j = true →
     spill_slots r !! li_vreg i = None → vreg_to_preg r !! li_vreg i ≠ Some reg) →
  result_inv self (done ++ [j]) next r'.
Proof.
  intros [Hp Hs Hsl Hin Hn] Hreg Hslots Hnew.
  assert (spill_slots r !! li_vreg j = None) as Hnone.
  { destruct (spill_slots r !! li_vreg j) as [s|] eqn:E; [|done].
    destruct (Hsl _ _ E) as [_ ?]. done. }
  constructor.
  - intros i [Hi| ->%list_elem_of_singleton]%elem_of_app.
    + by apply placed_extends.
    + rewrite Hslots, Hnone. eauto.
  - apply separated_extends; [done|]. intros _ i Hi Hc Hov Hsi.
    rewrite (ro_preg _ _ _ _ Hreg). by apply Hnew.
  - intros v s. rewrite Hslots. intros H. destruct (Hsl v s H) as [? ?]. split; [done|].
    rewrite fmap_app. apply elem_of_app; by left.
  - intros v w s t. rewrite Hslots. apply Hin.
  - rewrite length_app. simpl. lia.
Qed.

Lemma result_inv_spilled next slot :
  result_inv self done next r → spilled_ok self j slot r' →
  spill_slots r' !! li_vreg j = Some slot → ss_index slot = next →
  result_inv self (done ++ [j]) (next + 1) r'.
Proof.
  intros [Hp Hs Hsl Hin Hn] Hspill Hslot Hidx. constructor.
  - intros i [Hi| ->%list_elem_of_singleton]%elem_of_app.
    + by apply placed_extends.
    + by rewrite Hslot.
  - apply separated_extends; [done|]. congruence.
  - intros v s H. rewrite fmap_app, elem_of_app. simpl. rewrite list_elem_of_singleton.
    destruct (decide (v = li_vreg j)) as [->|Hv].
    + assert (s = slot) as -> by congruence. split; [lia|by right].
    + rewrite (ex_slot _ _ _ Hext) in H by done. destruct (Hsl v s H). split; [lia|by left].
  - assert (∀ v s, spill_slots r' !! v = Some s →
      (v = li_vreg j ∧ ss_index s = next) ∨ (spill_slots r !! v = Some s ∧ ss_index s < next))
      as Hcase.
    { intros v s H. destruct (decide (v = li_vreg j)) as [->|Hv].
      - left. split; congruence.
      - right. rewrite (ex_slot _ _ _ Hext) in H by done. destruct (Hsl v s H). split; [done|lia]. }
    intros v w s t Hv Hw Heq.
    destruct (Hcase _ _ Hv) as [[-> ?]|[Hv' ?]], (Hcase _ _ Hw) as [[-> ?]|[Hw' ?]];
      [done|lia|lia|]. by apply (Hin v w s t).
  - rewrite length_app. simpl. lia.
Qed.
End extends.

(** *** One round *)

Lemma class_inv_expire self c pos pos' done p r orig :
  class_inv self c pos done p r → pos ≤ pos' →
  class_inv self c pos' done (expire_old p pos' orig) r.
Proof.
  intros [H1 H2 H3 H4] Hpos. unfold expire_old. constructor.
  - rewrite <-H1. apply expire_loop_regs.
  - rewrite expire_loop_active. eapply sublist_NoDup; [done|].
    apply fmap_sublist, sublist_filter.
  - intros e. rewrite expire_loop_active, list_elem_of_filter. intros [Hle He].
    destruct (H3 e He) as (i & ? & ? & ? & Hend & ? & ? & ?). exists i. rewrite <-Hend. eauto 10.
  - intros i Hi Hc Hs Hle. destruct (H4 i Hi Hc Hs ltac:(lia)) as (e & He & Hv).
    exists e. rewrite expire_loop_active, list_elem_of_filter. split; [|done]. split; [lia|done].
Qed.

Lemma active_count self c done p r j :
  class_inv self c (li_start j) done p r → li_class j = c →
  (∀ i, i ∈ done → li_start i ≤ li_start j) →
  (length (active p) ≤ length (filter (live_with j) done))%nat.
Proof.
  intros [_ Hnd Hact _] Hc Hstarts.
  rewrite <-(length_fmap ae_vreg), <-(length_fmap li_vreg (filter _ _)).
  apply submseteq_length, NoDup_submseteq; [done|].
  intros v (e & -> & He)%list_elem_of_fmap.
  destruct (Hact e He) as (i & Hi & Hci & -> & _ & _ & _ & Hle).
  apply list_elem_of_fmap_2, list_elem_of_filter. split; [|done].
  split; [congruence|]. split; [by apply Hstarts|done].
Qed.

(** The active entries grow by the new interval's. *)
Lemma class_inv_push self c done p caller callee r r' j reg :
  class_inv self c (li_start j) done p r →
  li_vreg j ∉ li_vreg <$> done → extends (li_vreg j) r r' →
  li_class j = c → li_start j ≤ li_end j →
  free_caller p ++ free_callee p ≡ₚ reg :: caller ++ callee →
  vreg_to_preg r' !! li_vreg j = Some reg →
  class_inv self c (li_start j) (done ++ [j])
    {| active := active p ++ [(li_vreg j, reg, li_end j, weight j)];
       free_caller := caller; free_callee := callee |} r'.
Proof.
  intros Hinv Hf Hext Hc Hle Hfree Hreg.
  destruct (class_inv_extends self done j r r' Hf Hext c _ p Hinv) as [H1 H2 H3 H4].
  constructor; simpl.
  - by rewrite <-H1, fmap_app, <-app_assoc, Hfree.
  - rewrite fmap_app. apply NoDup_app. split; [done|]. split; [|apply NoDup_singleton].
    intros v (e & -> & He)%list_elem_of_fmap. destruct (H3 e He) as (i & Hi & _ & -> & _).
    simpl. rewrite list_elem_of_singleton. apply (fresh_ne _ _ _ Hf Hi).
  - intros e [He| ->%list_elem_of_singleton]%elem_of_app.
    + destruct (H3 e He) as (i & Hi & ?). exists i. split; [|done]. apply elem_of_app; by left.
    + exists j. split; [apply elem_of_app; right; by left|]. repeat split; done.
  - intros i [Hi| ->%list_elem_of_singleton]%elem_of_app Hci Hs Hend.
    + destruct (H4 i Hi Hci Hs Hend) as (e & He & ?). exists e. split; [|done].
      apply elem_of_app; by left.
    + exists (li_vreg j, reg, li_end j, weight j). split; [|done].
      apply elem_of_app; right; by left.
Qed.

(** No overlapping interval holds a free register. *)
Lemma free_reg_unused self c done p r j reg :
  class_inv self c (li_start j) done p r → NoDup (class_regs self c) → li_class j = c →
  reg ∈ free_caller p ++ free_callee p →
  ∀ i, i ∈ done → li_class i = li_class j → overlaps i j = true →
    spill_slots r !! li_vreg i = None → vreg_to_preg r !! li_vreg i ≠ Some reg.
Proof.
  intros [H1 H2 H3 H4] Hnd Hc Hfree i Hi Hci Hov Hs Hreg.
  unfold overlaps in Hov. apply andb_true_iff in Hov as [_ Hov%Z.leb_le].
  destruct (H4 i Hi ltac:(congruence) Hs Hov) as (e & He & Hv & _).
  destruct (H3 e He) as (i' & _ & _ & Hv' & _ & _ & Hr & _).
  rewrite <-Hv', Hv, Hreg in Hr. injection Hr as ->.
  rewrite <-H1 in Hnd. apply NoDup_app in Hnd as (_ & Hd & _).
  apply (Hd (ae_reg e)); [by apply list_elem_of_fmap_2|done].
Qed.

Lemma no_free_full self c pos done p r j :
  class_inv self c pos done p r → take_free j p = None →
  length (active p) = length (class_regs self c).
Proof.
  intros [H1 _ _ _] [Hc Hs]%take_free_None. rewrite <-H1, Hc, Hs, app_nil_r. by rewrite length_fmap.
Qed.

Definition fits (self : TargetAgnosticRegAlloc) (done : list LiveInterval) (j : LiveInterval) : Prop :=
  (length (filter (live_with j) done) < length (class_regs self (li_class j)))%nat.

Definition finish (self : TargetAgnosticRegAlloc) (j : LiveInterval) (r : RegAllocResult)
    (o : option PhysicalReg) : RegAllocResult :=
  match o with Some preg => assign self j preg r | None => r end.

Section round.
Context (chk : bool) (self : TargetAgnosticRegAlloc) (intervals done : list LiveInterval).
Context (j : LiveInterval) (p : pool) (next : Z) (r : RegAllocResult).
Context (Hclass : class_inv self (li_class j) (li_start j) done p r).
Context (Hres : result_inv self done next r).
Context (Hj : interval_ok j) (Hfresh : li_vreg j ∉ li_vreg <$> done).
Context (Hstarts : ∀ i, i ∈ done → li_start i ≤ li_start j).
Context (Hregs : NoDup (class_regs self (li_class j))) (Hnext : 0 ≤ next < 2 ^ 26).

#[local] Set Default Proof Using "Type*".

Lemma round_free reg caller callee :
  take_free j p = Some (reg, caller, callee) →
  ∃ p', try_alloc_reg chk self j intervals p next r = Ret (p', next, r, Some reg) ∧
    class_inv self (li_class j) (li_start j) (done ++ [j]) p' (assign self j reg r) ∧
    result_inv self (done ++ [j]) next (assign self j reg r) ∧
    extends (li_vreg j) r (assign self j reg r) ∧
    spill_slots (assign self j reg r) = spill_slots r ∧
    spill_code (assign self j reg r) = spill_code r.
Proof.
  intros Htake. unfold try_alloc_reg. rewrite Htake, weight_per_length_ok by done.
  cbn [mbind outcome_bind mret outcome_ret]. eexists. split; [done|].
  pose proof (take_free_Some _ _ _ _ _ Htake) as Hperm.
  destruct (assign_spec self j reg r) as (Ap & As & Ac & Au & Ah).
  assert (reg ∈ free_caller p ++ free_callee p) as Hin by (rewrite Hperm; by left).
  pose proof (assign_extends self j reg r) as Hext.
  split; [|split; [|done]].
  - apply (class_inv_push _ _ _ _ _ _ r); auto; [apply Hj|].
    rewrite Ap. apply lookup_insert_eq.
  - apply (result_inv_register self done j r _ Hfresh Hext next reg); [done| |done|].
    + constructor; [rewrite Ap; apply lookup_insert_eq| |done].
      rewrite <-(ci_perm _ _ _ _ _ _ Hclass). apply elem_of_app; by right.
    + by eapply free_reg_unused.
Qed.

Lemma round_full :
  take_free j p = None → lightest done j →
  ∃ r', try_alloc_reg chk self j intervals p next r = Ret (p, next + 1, r', None) ∧
    class_inv self (li_class j) (li_start j) (done ++ [j]) p r' ∧
    result_inv self (done ++ [j]) (next + 1) r' ∧ extends (li_vreg j) r r'.
Proof.
  intros Htake Hlight. unfold try_alloc_reg. rewrite Htake.
  destruct (spill_current_ok chk self j next r Hj Hnext) as (r' & slot & Hsp & Hidx & Hslot & Hok & Hext).
  exists r'. split.
  - unfold spill_or_evict. destruct (active p) as [|e0 rest] eqn:Eact.
    + by rewrite Hsp.
    + pose proof (min_entry_in (0%nat, e0) 1 rest) as Hmin. simpl in Hmin.
      destruct (min_entry (0%nat, e0) 1 rest) as [k ev]. simpl in Hmin.
      rewrite weight_per_length_ok by done. cbn [mbind outcome_bind].
      rewrite <-Eact in Hmin.
      destruct (ci_active _ _ _ _ _ _ Hclass ev Hmin) as (i & Hi & Hci & _ & _ & -> & _).
      pose proof (Hlight i Hi Hci).
      destruct (Z.leb_spec (weight j) (weight i)); [|lia]. by rewrite Hsp.
  - split; [|split; [|done]].
    + apply (class_inv_other self done j r r' Hfresh Hext); [done|]. right. by rewrite Hslot.
    + by eapply result_inv_spilled.
Qed.

Lemma round_ok :
  lightest done j ∨ fits self done j →
  ∃ p' next' r' o, try_alloc_reg chk self j intervals p next r = Ret (p', next', r', o) ∧
    class_inv self (li_class j) (li_start j) (done ++ [j]) p' (finish self j r' o) ∧
    result_inv self (done ++ [j]) next' (finish self j r' o) ∧
    extends (li_vreg j) r (finish self j r' o) ∧
    (fits self done j → next' = next ∧ spill_slots (finish self j r' o) = spill_slots r ∧
      spill_code (finish self j r' o) = spill_code r).
Proof.
  intros Hcond. destruct (take_free j p) as [[[reg caller] callee]|] eqn:Htake.
  - destruct (round_free _ _ _ Htake) as (p' & ? & ? & ? & ? & ? & ?).
    exists p', next, r, (Some reg). auto 10.
  - assert (¬ fits self done j) as Hno.
    { pose proof (active_count _ _ _ _ _ _ Hclass eq_refl Hstarts).
      rewrite (no_free_full _ _ _ _ _ _ _ Hclass Htake) in *. unfold fits. lia. }
    destruct Hcond as [Hlight|?]; [|done].
    destruct (round_full Htake Hlight) as (r' & ? & ? & ? & ?).
    exists p, (next + 1), r', None. split; [done|]. split; [done|]. split; [done|].
    by split.
Qed.
End round.

Lemma alloc_step_ok chk self intervals j done pos st :
  (∀ c, NoDup (class_regs self c)) → alloc_inv self pos done st →
  interval_ok j → pos ≤ li_start j → li_vreg j ∉ li_vreg <$> done →
  Z.of_nat (length done) < 2 ^ 26 → lightest done j ∨ fits self done j →
  ∃ st', alloc_step chk self intervals j st = Ret st' ∧
    alloc_inv self (li_start j) (done ++ [j]) st' ∧
    (fits self done j → as_next st' = as_next st ∧
      spill_slots (as_result st') = spill_slots (as_result st) ∧
      spill_code (as_result st') = spill_code (as_result st)).
Proof.
  intros Hregs [Hg Hf Hr Hs] Hj Hpos Hfresh Hlen Hcond.
  assert (∀ i, i ∈ done → li_start i ≤ li_start j) as Hstarts
    by (intros i Hi; specialize (Hs i Hi); lia).
  assert (∀ i, i ∈ done ++ [j] → li_start i ≤ li_start j) as Hstarts'.
  { intros i [Hi| ->%list_elem_of_singleton]%elem_of_app; [by apply Hstarts|done]. }
  assert (0 ≤ as_next st < 2 ^ 26) as Hnext by (destruct (ri_next _ _ _ _ Hr); lia).
  pose proof (class_inv_expire _ _ _ _ _ _ _ (callee_saved_gprs self) Hg Hpos) as Hg'.
  pose proof (class_inv_expire _ _ _ _ _ _ _ (callee_saved_fps self) Hf Hpos) as Hf'.
  unfold alloc_step. destruct (li_class j) eqn:Hc.
  - rewrite <-Hc in Hg'.
    destruct (round_ok chk self intervals done j _ _ _ Hg' Hr Hj Hfresh Hstarts (Hregs _) Hnext Hcond)
      as (p' & next' & r' & o & -> & Hcl & Hres & Hext & Hfit).
    cbn [mbind outcome_bind mret outcome_ret]. eexists. split; [done|].
    split; [|exact Hfit]. constructor; simpl; [by rewrite <-Hc| |done|done].
    eapply class_inv_other; [done|exact Hext|done|]. left. by rewrite Hc.
  - rewrite <-Hc in Hf'.
    destruct (round_ok chk self intervals done j _ _ _ Hf' Hr Hj Hfresh Hstarts (Hregs _) Hnext Hcond)
      as (p' & next' & r' & o & -> & Hcl & Hres & Hext & Hfit).
    cbn [mbind outcome_bind mret outcome_ret]. eexists. split; [done|].
    split; [|exact Hfit]. constructor; simpl; [|by rewrite <-Hc|done|done].
    eapply class_inv_other; [done|exact Hext|done|]. left. by rewrite Hc.
Qed.

Lemma no_slots v : spill_slots RegAllocResult_new !! v = None.
Proof. apply lookup_empty. Qed.

Lemma alloc_init_inv self : alloc_inv self 0 [] (alloc_init self).
Proof.
  constructor; simpl.
  - constructor; simpl; [done|constructor|by intros ? ?%elem_of_nil|by intros ? ?%elem_of_nil].
  - constructor; simpl; [done|constructor|by intros ? ?%elem_of_nil|by intros ? ?%elem_of_nil].
  - constructor; simpl.
    + by intros ? ?%elem_of_nil.
    + by intros ? ? ?%elem_of_nil.
    + intros v s H. by rewrite no_slots in H.
    + intros v w s t H. by rewrite no_slots in H.
    + lia.
  - by intros ? ?%elem_of_nil.
Qed.

(** Every suffix of the input, met in the state the prefix leaves. *)
Lemma alloc_loop_ok chk self intervals todo done pos st :
  (∀ c, NoDup (class_regs self c)) → alloc_inv self pos done st →
  Forall interval_ok todo → Forall (λ j, pos ≤ li_start j) todo →
  StronglySorted Z.le (li_start <$> todo) → NoDup (li_vreg <$> (done ++ todo)) →
  Z.of_nat (length (done ++ todo)) < 2 ^ 26 →
  (∀ done' j todo', todo = done' ++ j :: todo' →
     lightest (done ++ done') j ∨ fits self (done ++ done') j) →
  ∃ st' pos', alloc_loop chk self intervals todo st = Ret st' ∧
    alloc_inv self pos' (done ++ todo) st' ∧
    ((∀ done' j todo', todo = done' ++ j :: todo' → fits self (done ++ done') j) →
      as_next st' = as_next st ∧
      spill_slots (as_result st') = spill_slots (as_result st) ∧
      spill_code (as_result st') = spill_code (as_result st)).
Proof.
  intros Hregs. revert done pos st. induction todo as [|j todo IH]; intros done pos st Hinv Hok
    Hpos Hsort Hnd Hlen Hcond.
  - exists st, pos. rewrite app_nil_r. done.
  - apply Forall_cons in Hok as [Hj Hok]. apply Forall_cons in Hpos as [Hpj Hpos].
    rewrite fmap_cons in Hsort. apply StronglySorted_inv in Hsort as [Hsort Hle].
    assert (li_vreg j ∉ li_vreg <$> done) as Hfresh.
    { rewrite fmap_app, NoDup_app in Hnd. destruct Hnd as (_ & Hd & _).
      intros Hin. apply (Hd _ Hin). by left. }
    rewrite length_app in Hlen. simpl in Hlen.
    destruct (alloc_step_ok chk self intervals j done pos st Hregs Hinv Hj Hpj Hfresh
      ltac:(lia)) as (st1 & Hst1 & Hinv1 & Hfit1).
    { specialize (Hcond [] j todo eq_refl). by rewrite app_nil_r in Hcond. }
    destruct (IH (done ++ [j]) (li_start j) st1) as (st2 & pos2 & Hst2 & Hinv2 & Hfit2).
    + done.
    + done.
    + apply (Forall_fmap li_start) in Hle. exact Hle.
    + exact Hsort.
    + by rewrite <-app_assoc.
    + rewrite <-app_assoc, length_app. simpl. lia.
    + intros d k t ->. specialize (Hcond (j :: d) k t eq_refl). by rewrite <-app_assoc.
    + exists st2, pos2. simpl. rewrite Hst1. cbn [mbind outcome_bind].
      rewrite <-app_assoc in Hinv2. split; [done|]. split; [done|].
      intros Hfits. destruct Hfit1 as (-> & -> & ->) in Hfit2.
      { specialize (Hfits [] j todo eq_refl). by rewrite app_nil_r in Hfits. }
      apply Hfit2. intros d k t ->. specialize (Hfits (j :: d) k t eq_refl).
      by rewrite <-app_assoc.
Qed.

Lemma pressure_fits_prefix self done j rest :
  interval_ok j → pressure_fits self (done ++ j :: rest) j → fits self done j.
Proof.
  intros [Hj _ _ _]. unfold pressure_fits, fits. rewrite filter_app, length_app, filter_cons.
  rewrite decide_True by (split; [done|lia]). simpl. lia.
Qed.

(** The final state of the scan, on any input on which it never evicts. *)
Lemma allocate_intervals_ok chk self intervals :
  input_ok self intervals →
  (∀ done j rest, intervals = done ++ j :: rest →
     lightest done j ∨ pressure_fits self intervals j) →
  ∃ r next, allocate_intervals chk self intervals = Ret r ∧ result_inv self intervals next r ∧
    total_spill_slots r = next ∧
    ((∀ j, j ∈ intervals → pressure_fits self intervals j) →
       spill_slots r = ∅ ∧ spill_code r = ∅).
Proof.
  intros [Hp Hi Hs Hv Hc] Hcond.
  assert (∀ done' j todo', intervals = done' ++ j :: todo' → interval_ok j) as Hok.
  { intros d j t ->. rewrite Forall_app, Forall_cons in Hi. tauto. }
  destruct (alloc_loop_ok chk self intervals intervals [] 0 (alloc_init self))
    as (st & pos & Hst & Hinv & Hfit); [done|apply alloc_init_inv|done| |done|done|done| |].
  { eapply Forall_impl; [exact Hi|]. intros i [Hr _ _ _]. lia. }
  { intros d j t Heq. simpl. destruct (Hcond d j t Heq) as [?|Hf]; [by left|right].
    rewrite Heq in Hf. apply (pressure_fits_prefix self d j t); [by eapply Hok|done]. }
  unfold allocate_intervals. rewrite Hst. cbn [mbind outcome_bind mret outcome_ret].
  exists (set_totals (as_next st) intervals (as_result st)), (as_next st).
  split; [done|]. split; [|split; [done|]].
  - destruct (ai_result _ _ _ _ Hinv) as [H1 H2 H3 H4 H5]. constructor; try done.
    intros i Hin. specialize (H1 i Hin). simpl. destruct (spill_slots (as_result st) !! li_vreg i).
    + destruct H1. by constructor.
    + destruct H1 as [reg []]. exists reg. by constructor.
  - intros Hall. destruct Hfit as (_ & H1 & H2); [|split; [exact H1|exact H2]].
    intros d j t Heq. simpl. rewrite Heq in Hall.
    apply (pressure_fits_prefix self d j t); [by eapply Hok|].
    apply Hall, elem_of_app. right. by left.
Qed.

(** C6. Linear scan needs no spill where the registers suffice: if wherever an
    interval starts no more intervals of its class are live than the class has
    registers, the scan returns, spills nothing, gives every interval a register of
    its class, gives overlapping intervals different registers, and records every
    callee-saved register it uses. *)
Theorem linear_scan_no_spill chk self intervals :
  input_ok self intervals →
  (∀ j, j ∈ intervals → pressure_fits self intervals j) →
  ∃ r, allocate_intervals chk self intervals = Ret r ∧
    spill_slots r = ∅ ∧ spill_code r = ∅ ∧
    (∀ i, i ∈ intervals → ∃ reg, register_ok self i r reg) ∧
    (∀ i j, i ∈ intervals → j ∈ intervals → li_vreg i ≠ li_vreg j →
       li_class i = li_class j → overlaps i j = true →
       vreg_to_preg r !! li_vreg i ≠ vreg_to_preg r !! li_vreg j).
Proof.
  intros Hin Hfit.
  destruct (allocate_intervals_ok chk self intervals Hin) as (r & next & Hr & Hinv & _ & Hno).
  { intros d j t Heq. right. apply Hfit. rewrite Heq. apply elem_of_app. right. by left. }
  destruct (Hno Hfit) as [Hs Hc]. exists r. split; [done|]. split; [done|]. split; [done|].
  split.
  - intros i Hi. pose proof (ri_placed _ _ _ _ Hinv i Hi) as H.
    by rewrite Hs, lookup_empty in H.
  - intros i j Hi Hj Hne Hcl Hov. apply (ri_sep _ _ _ _ Hinv); try done;
      by rewrite Hs, lookup_empty.
Qed.


(** *** Witnesses *)

Definition small_target : TargetAgnosticRegAlloc :=
  {| isa_name := "riscv64"; caller_saved_gprs := [PhysicalReg_new Bk_Gpr 10];
     callee_saved_gprs := [PhysicalReg_new Bk_Gpr 9];
     caller_saved_fps := []; callee_saved_fps := [] |}.

Definition sample_interval (v s e : Z) (uses : list Z) : LiveInterval :=
  {| li_vreg := v; li_class := Rc_Gpr; li_start := s; li_end := e; crosses_call := false;
     use_positions := uses; def_positions := [s]; coalesced_vregs := [v]; loop_depth := 0 |}.

Definition three_intervals : list LiveInterval :=
  [sample_interval 1 0 10 [10]; sample_interval 2 2 6 [4; 6]; sample_interval 3 8 12 [12]].

Definition crowded_intervals : list LiveInterval :=
  [sample_interval 1 0 10 [10]; sample_interval 2 2 12 [12]; sample_interval 3 4 14 [14]].

Lemma small_input_ok l :
  NoDup (li_vreg <$> l) → StronglySorted Z.le (li_start <$> l) → Forall interval_ok l →
  Z.of_nat (length l) < 2 ^ 26 → input_ok small_target l.
Proof.
  intros. constructor; try done. intros [].
  - apply (bool_decide_unpack _). by vm_compute.
  - apply (bool_decide_unpack _). by vm_compute.
Qed.

Lemma sample_interval_ok v s e uses :
  0 ≤ s ≤ e → s < U32_MAX → (length uses < 100)%nat → interval_ok (sample_interval v s e uses).
Proof.
  intros. constructor; simpl; [lia|lia| |lia]. apply Forall_singleton. lia.
Qed.

Lemma linear_scan_no_spill_witness : ∃ r, allocate_intervals true small_target three_intervals = Ret r ∧
  spill_slots r = ∅.
Proof.
  destruct (linear_scan_no_spill true small_target three_intervals) as (r & Hr & Hs & _).
  - apply small_input_ok.
    + apply (bool_decide_unpack _). by vm_compute.
    + repeat constructor; simpl; lia.
    + repeat constructor; try apply sample_interval_ok; simpl; unfold U32_MAX; lia.
    + by vm_compute.
  - assert (Forall (pressure_fits small_target three_intervals) three_intervals) as H.
    { repeat constructor; vm_compute; lia. }
    intros j Hj. by eapply Forall_forall in H.
  - by exists r.
Defined.


(** *** Eviction *)

Lemma reload_uses_mono v s slot uses r p c : emits r p c → emits (reload_uses v s slot uses r) p c.
Proof. rewrite emits_reload_uses. by left. Qed.

Lemma gen_eviction_spec chk v reg scratch i pos slot r r' :
  gen_eviction_spill_reload chk v reg scratch i pos slot r = Ret r' →
  same_but_code r r' ∧ emits r' pos (Spill v reg slot).
Proof.
  unfold gen_eviction_spill_reload.
  assert (emits (insert_code_first pos (Spill v reg slot) r) pos (Spill v reg slot)) as He.
  { eexists. split; [apply lookup_insert_eq|]. by left. }
  destruct i as [i|]; [|by intros [= <-]].
  set (r1 := reload_uses _ _ _ _ _).
  assert (same_but_code r r1) as H1.
  { destruct (same_but_code_reload v scratch slot
      (filter (λ p, (pos <=? p) = true) (use_positions i))
      (insert_code_first pos (Spill v reg slot) r)) as (?&?&?). by repeat split. }
  assert (emits r1 pos (Spill v reg slot)) as H2 by by apply reload_uses_mono.
  generalize dependent r1. generalize (filter (λ p, (pos <? p) = true) (def_positions i)).
  induction l as [|d l IH]; intros r1 H1 H2; simpl; [by intros [= <-]|].
  destruct (u32_add chk d 1) as [q|]; [|done]. cbn [mbind outcome_bind]. apply IH.
  - destruct H1 as (?&?&?). by repeat split.
  - apply emits_push. by left.
Qed.

(** An eviction hands its register out twice: [spill_or_evict] gives the evicted
    register to the interval and also returns it to the free pool, so the next
    interval of the class, if nothing expired in between, is given the same register
    while the first holds it.  And the evicted value is stored from that register,
    although the final assignment puts its definitions in the scratch register. *)
Theorem eviction_reuses_register chk self intervals i k p next r p1 next1 r1 reg :
  interval_ok k → take_free i p = None →
  try_alloc_reg chk self i intervals p next r = Ret (p1, next1, r1, Some reg) →
  (∃ w, (li_vreg i, reg, li_end i, w) ∈ active p1) ∧
  (∃ p2, try_alloc_reg chk self k intervals p1 next1 r1 = Ret (p2, next1, r1, Some reg) ∧
     (∃ w, (li_vreg i, reg, li_end i, w) ∈ active p2) ∧
     (∃ w, (li_vreg k, reg, li_end k, w) ∈ active p2)) ∧
  (∃ v slot, v ∈ ae_vreg <$> active p ∧ spill_slots r1 !! v = Some slot ∧
     vreg_to_preg r1 !! v = Some (spill_scratch self (li_class i)) ∧
     emits r1 (li_start i) (Spill v reg slot)).
Proof.
  intros Hk Htake. unfold try_alloc_reg at 1. rewrite Htake. unfold spill_or_evict.
  destruct (active p) as [|e0 rest] eqn:Eact.
  { destruct (spill_current _ _ _ _ _) as [[]|]; done. }
  pose proof (min_entry_in (0%nat, e0) 1 rest) as Hmin. simpl in Hmin.
  destruct (min_entry (0%nat, e0) 1 rest) as [idx ev]. simpl in Hmin.
  destruct (weight_per_length chk i) as [w|]; [|done]. cbn [mbind outcome_bind].
  destruct (w <=? ae_weight ev); [destruct (spill_current _ _ _ _ _) as [[]|]; done|].
  destruct (alloc_slot _ _ _) as [[n' slot]|]; [|done]. cbn [mbind outcome_bind].
  destruct (gen_eviction_spill_reload _ _ _ _ _ _ _ _) as [r2|] eqn:Hgen; [|done].
  cbn [mbind outcome_bind mret outcome_ret]. intros [= <- -> -> Hreg].
  apply gen_eviction_spec in Hgen as ((Hp & Hs & _) & Hem). simpl in Hp, Hs.
  rewrite Hreg in *. apply take_free_None in Htake as [Hc1 Hc2].
  split; [|split].
  - exists w. simpl. apply elem_of_app. right. by left.
  - assert (∃ caller callee, take_free k
        {| active := delete idx (e0 :: rest) ++ [(li_vreg i, reg, li_end i, w)];
           free_caller := if alloc_is_callee_saved self reg then free_caller p
                          else free_caller p ++ [reg];
           free_callee := if alloc_is_callee_saved self reg then free_callee p ++ [reg]
                          else free_callee p |} = Some (reg, caller, callee))
      as (caller & callee & Ht).
    { unfold take_free. simpl. rewrite Hc1, Hc2.
      destruct (alloc_is_callee_saved self reg), (crosses_call k); by do 2 eexists. }
    unfold try_alloc_reg. rewrite Ht, weight_per_length_ok by done.
    cbn [mbind outcome_bind mret outcome_ret]. eexists. split; [done|]. simpl.
    split; [exists w|exists (weight k)]; rewrite !elem_of_app, !list_elem_of_singleton; auto.
  - exists (ae_vreg ev), slot. split; [by apply list_elem_of_fmap_2|].
    rewrite Hp, Hs. split; [apply lookup_insert_eq|]. split; [apply lookup_insert_eq|done].
Qed.

Definition held_pool : pool :=
  {| active := [(1, PhysicalReg_new Bk_Gpr 10, 20, 0)]; free_caller := []; free_callee := [] |}.

Lemma eviction_reuses_register_witness : ∃ p1 next1 r1 p2,
  try_alloc_reg false small_target (sample_interval 2 2 4 [3; 4]) [] held_pool 0 RegAllocResult_new =
    Ret (p1, next1, r1, Some (PhysicalReg_new Bk_Gpr 10)) ∧
  try_alloc_reg false small_target (sample_interval 3 3 6 [6]) [] p1 next1 r1 =
    Ret (p2, next1, r1, Some (PhysicalReg_new Bk_Gpr 10)).
Proof.
  destruct (try_alloc_reg false small_target (sample_interval 2 2 4 [3; 4]) [] held_pool 0
    RegAllocResult_new) as [[[[p1 n1] r1] o]|] eqn:E; [|by vm_compute in E].
  assert (o = Some (PhysicalReg_new Bk_Gpr 10)) as ->
    by (vm_compute in E; by injection E as _ _ _ <-).
  destruct (eviction_reuses_register false small_target [] (sample_interval 2 2 4 [3; 4])
    (sample_interval 3 3 6 [6]) held_pool 0 RegAllocResult_new p1 n1 r1
    (PhysicalReg_new Bk_Gpr 10)) as (_ & (p2 & Hp2 & _) & _).
  - apply sample_interval_ok; simpl; unfold U32_MAX; lia.
  - reflexivity.
  - exact E.
  - by exists p1, n1, r1, p2.
Defined.

(** *** Slots *)

(** Slots of one class never overlap, but the slots of the two classes share one
    numbering while each class multiplies it by its own size: general slot [m] and
    floating-point slot [n] overlap exactly when [m / 2 = n], so for [m = 2 n] or
    [m = 2 n + 1], for different indices too. *)
Theorem spill_slots_overlap_iff chk m n c d next next' s t :
  0 ≤ m < 2 ^ 26 → 0 ≤ n < 2 ^ 26 →
  alloc_slot chk m c = Ret (next, s) → alloc_slot chk n d = Ret (next', t) →
  (∃ a, slot_bytes s a ∧ slot_bytes t a) ↔
  match c, d with
  | Rc_Gpr, Rc_SimdFp => m / 2 = n
  | Rc_SimdFp, Rc_Gpr => m = n / 2
  | _, _ => m = n
  end.
Proof.
  intros Hm Hn. unfold alloc_slot, u32_add.
  rewrite (u32_of_in chk (m + 1)), (u32_of_in chk (n + 1)) by (unfold is_u32; lia).
  cbn [mbind outcome_bind]. rewrite !spill_offset_ok by done.
  cbn [mbind outcome_bind mret outcome_ret]. intros [= <- <-] [= <- <-].
  unfold slot_bytes, size_bytes. simpl.
  destruct c, d; split.
  all: try (intros (a & ? & ?); Z.to_euclidean_division_equations; lia).
  - intros <-. exists (- ((m + 1) * 8)). lia.
  - intros H. exists (- ((m + 1) * 8)). Z.to_euclidean_division_equations. lia.
  - intros H. exists (- ((n + 1) * 8)). Z.to_euclidean_division_equations. lia.
  - intros <-. exists (- ((m + 1) * 16)). lia.
Qed.

Lemma spill_slots_overlap_iff_witness : ∃ a,
  slot_bytes (GenericSpillSlot_new 2 (-24) Rc_Gpr) a ∧
  slot_bytes (GenericSpillSlot_new 1 (-32) Rc_SimdFp) a.
Proof.
  apply (spill_slots_overlap_iff true 2 1 Rc_Gpr Rc_SimdFp 3 2); [lia|lia|reflexivity..].
Defined.

(** *** The scratch register *)

Definition overlapping_intervals (n : nat) : list LiveInterval :=
  (λ k, sample_interval (Z.of_nat k) (Z.of_nat k) 100 [100]) <$> seq 0 n.

Definition riscv64_alloc : TargetAgnosticRegAlloc :=
  TargetAgnosticRegAlloc_new "riscv64" riscv64_registers.
Definition x86_64_alloc : TargetAgnosticRegAlloc :=
  TargetAgnosticRegAlloc_new "x86_64" x86_64_registers.
Definition aarch64_alloc : TargetAgnosticRegAlloc :=
  TargetAgnosticRegAlloc_new "aarch64" aarch64_registers.

(** What the scan says about the registers 12 and 24 of the example. *)
Definition clobber_view (o : outcome RegAllocResult) :=
  match o with
  | Ret r => Some (spill_slots r !! 12, vreg_to_preg r !! 12, spill_slots r !! 24,
                   spill_code r !! 100)
  | Panic => None
  end.

Lemma clobber_view_spec chk :
  clobber_view (allocate_intervals chk riscv64_alloc (overlapping_intervals 25)) =
  let slot := GenericSpillSlot_new 0 (-8) Rc_Gpr in
  Some (None, Some (PhysicalReg_new Bk_Gpr 5), Some slot,
        Some [Reload 24 (PhysicalReg_new Bk_Gpr 5) slot]).
Proof. destruct chk; vm_compute; reflexivity. Qed.

(** The scratch register of spill code is meant to lie outside the pools, so that
    no live interval sits in it.  On [x86_64] it does; on [riscv64] and [aarch64] it
    is register 5, which the target description leaves allocatable, and the scan
    puts an interval there that is live across the reload of a spilled one, in every
    build profile. *)
Theorem spill_scratch_clobbers_live chk :
  spill_scratch x86_64_alloc Rc_Gpr ∉ class_regs x86_64_alloc Rc_Gpr ∧
  spill_scratch aarch64_alloc Rc_Gpr ∈ class_regs aarch64_alloc Rc_Gpr ∧
  ∃ r i j slot pos,
    allocate_intervals chk riscv64_alloc (overlapping_intervals 25) = Ret r ∧
    i ∈ overlapping_intervals 25 ∧ spill_slots r !! li_vreg i = None ∧
    vreg_to_preg r !! li_vreg i = Some (spill_scratch riscv64_alloc Rc_Gpr) ∧
    spill_slots r !! j = Some slot ∧
    emits r pos (Reload j (spill_scratch riscv64_alloc Rc_Gpr) slot) ∧
    li_start i < pos ≤ li_end i ∧ pos ∈ use_positions i.
Proof.
  split; [|split].
  - apply (bool_decide_unpack _). by vm_compute.
  - apply (bool_decide_unpack _). by vm_compute.
  - pose proof (clobber_view_spec chk) as Hv.
    destruct (allocate_intervals chk riscv64_alloc (overlapping_intervals 25)) as [r|]; [|done].
    injection Hv as H1 H2 H3 H4.
    exists r, (sample_interval 12 12 100 [100]), 24, (GenericSpillSlot_new 0 (-8) Rc_Gpr), 100.
    split; [done|]. split; [apply list_elem_of_fmap; exists 12%nat; split; [done|apply elem_of_seq; lia]|].
    split; [done|]. split; [done|]. split; [done|].
    split; [eexists; split; [exact H4|by left]|]. simpl. split; [lia|by left].
Qed.

(** *** The conflict pass *)

(** The interval of [w] overlaps the one [v] is defined in. *)
Definition ranges_meet (intervals : list LiveInterval) (v w : Z) : Prop :=
  ∃ i j, find_interval intervals v = Some i ∧ find_interval intervals w = Some j ∧
    overlaps i j = true.

Lemma used_pregs_spec r intervals v w reg :
  w ≠ v → ranges_meet intervals v w → vreg_to_preg r !! w = Some reg →
  reg ∈ used_pregs r intervals v.
Proof.
  intros Hw (i & j & Hi & Hj & Hov) Hreg. unfold used_pregs.
  apply list_elem_of_omap. exists (w, reg). split; [by apply elem_of_map_to_list|].
  rewrite Hi, Hj. simpl. destruct (Z.eqb_spec w v) as [?|_]; [done|].
  unfold overlaps in Hov. by rewrite andb_comm, Hov.
Qed.

(** Resolving a conflict always settles it: the definition moves to another
    register of the conflicting register's class that no overlapping interval holds,
    and nothing else changes; or it goes to a new slot, with loads and stores at its
    uses and definitions. *)
Theorem resolve_single_conflict_spec chk self r intervals v i conflict :
  find_interval intervals v = Some i → interval_ok i →
  pr_class conflict = to_backend_class (li_class i) →
  0 ≤ total_spill_slots r < 2 ^ 26 →
  ∃ r', resolve_single_conflict chk self r intervals v conflict = Ret r' ∧
    ((∃ reg, reg ≠ conflict ∧ reg ∈ allocatable self (pr_class conflict) ∧
        r' = set_preg v reg r ∧
        ∀ w, w ≠ v → ranges_meet intervals v w → vreg_to_preg r' !! w ≠ Some reg) ∨
     (∃ slot, spill_slots r' = <[v := slot]> (spill_slots r) ∧ spilled_ok self i slot r' ∧
        ss_index slot = total_spill_slots r ∧ total_spill_slots r' = total_spill_slots r + 1 ∧
        ∀ w, w ≠ v → vreg_to_preg r' !! w = vreg_to_preg r !! w)).
Proof.
  intros Hi Hok Hcl Hn. unfold resolve_single_conflict.
  assert (li_vreg i = v) as Hv.
  { unfold find_interval in Hi. apply find_Some in Hi as [_ H%Z.eqb_eq]. done. }
  destruct (find _ (allocatable self (pr_class conflict))) as [reg|] eqn:Ef.
  - apply find_Some in Ef as [Hin Hf]. apply andb_true_iff in Hf as [H1 H2].
    apply negb_true_iff, bool_decide_eq_false in H1, H2.
    eexists. split; [done|]. left. exists reg. split; [done|]. split; [done|].
    split; [done|]. intros w Hw Hmeet Heq. apply H2.
    simpl in Heq. rewrite lookup_insert_ne in Heq by done. by eapply used_pregs_spec.
  - assert (match pr_class conflict with Bk_Gpr => Rc_Gpr | _ => Rc_SimdFp end = li_class i)
      as -> by (rewrite Hcl; by destruct (li_class i)).
    unfold u32_add. rewrite (u32_of_in chk (total_spill_slots r + 1)) by (unfold is_u32; lia).
    cbn [mbind outcome_bind]. rewrite spill_offset_ok by done. cbn [mbind outcome_bind].
    rewrite Hi. set (slot := GenericSpillSlot_new _ _ _).
    set (r1 := set_preg v _ _).
    destruct (gen_spill_reload_ok chk i (spill_scratch self (li_class i)) slot r1 (io_defs i Hok))
      as (r' & Hr' & (H1 & H2 & _) & _ & Hu & Hd).
    exists r'. split; [done|]. right. exists slot. split; [by rewrite H2|]. split.
    + constructor; [done| |done|done]. rewrite H1, Hv. apply lookup_insert_eq.
    + split; [done|]. split.
      * revert Hr'. unfold gen_spill_reload.
        destruct (spill_defs _ _ _ _ _ _) as [r2|] eqn:E2; [|done]. intros [= <-].
        rewrite total_reload_uses, (total_spill_defs _ _ _ _ _ _ _ E2). done.
      * intros w Hw. rewrite H1. simpl. by rewrite lookup_insert_ne.
Qed.

Lemma resolve_single_conflict_spec_witness : ∃ r',
  resolve_single_conflict true small_target
    (set_preg 2 (PhysicalReg_new Bk_Gpr 10) (set_preg 1 (PhysicalReg_new Bk_Gpr 10) RegAllocResult_new))
    three_intervals 2 (PhysicalReg_new Bk_Gpr 10) = Ret r' ∧
  vreg_to_preg r' !! 2 = Some (PhysicalReg_new Bk_Gpr 9).
Proof.
  destruct (resolve_single_conflict_spec true small_target
    (set_preg 2 (PhysicalReg_new Bk_Gpr 10) (set_preg 1 (PhysicalReg_new Bk_Gpr 10) RegAllocResult_new))
    three_intervals 2 (sample_interval 2 2 6 [4; 6]) (PhysicalReg_new Bk_Gpr 10))
    as (r' & Hr & _).
  - reflexivity.
  - apply sample_interval_ok; simpl; unfold U32_MAX; lia.
  - reflexivity.
  - simpl. lia.
  - exists r'. split; [exact Hr|]. vm_compute in Hr. by injection Hr as <-.
Defined.
