(* ===== verification/Ir.v ===== *)
(** * Intermediate representation

    Models the data types of [src/src/codegen/src/ir.rs]: IR types with their sizes and
    alignments, operands, instructions, terminators, blocks, functions and programs;
    the registers an instruction defines and uses; and the control-flow sets that
    [rebuild_cfg] computes.  A [HashSet] of labels is a [gset string], the maps of a
    function from register numbers are [gmap]s. *)

From S2P Require Import Prelude.
From stdpp Require Import options.
#[local] Open Scope Z_scope.

(** ** Types *)

Inductive IRType : Type :=
  | I8 | I16 | I32 | I64 | U8 | U16 | U32 | U64 | F32 | F64 | Ptr | Void | Func
  | Struct (name : string) (fields : list IRType)
  | Array (element : IRType) (count : Z)
  | TaggedUnion (name : string) (tag_type : IRType) (max_payload_size variant_count : Z)
  | Channel (inner : IRType).

Definition is_integer (t : IRType) : bool :=
  match t with I8 | I16 | I32 | I64 | U8 | U16 | U32 | U64 => true | _ => false end.

Definition is_float (t : IRType) : bool :=
  match t with F32 | F64 => true | _ => false end.

Definition is_tagged_union (t : IRType) : bool :=
  match t with TaggedUnion _ _ _ _ => true | _ => false end.

Fixpoint IRType_fmt (t : IRType) : string :=
  match t with
  | I8 => "i8" | I16 => "i16" | I32 => "i32" | I64 => "i64"
  | U8 => "u8" | U16 => "u16" | U32 => "u32" | U64 => "u64"
  | F32 => "f32" | F64 => "f64" | Ptr => "ptr" | Void => "void" | Func => "func"
  | Struct name fields => "struct " +:+ name +:+ " { " +:+ join ", " (map IRType_fmt fields) +:+ " }"
  | Array element count => "[" +:+ IRType_fmt element +:+ "; " +:+ show count +:+ "]"
  | TaggedUnion name _ _ _ => "enum " +:+ name
  | Channel inner => "Channel<" +:+ IRType_fmt inner +:+ ">"
  end.

(** The greatest alignment of a non-empty list of fields. *)
Definition max_align (l : list Z) : Z := foldr Z.max 0 l.

Fixpoint alignment_of_with_ptr_width (t : IRType) (ptr_width : Z) : Z :=
  match t with
  | I8 | U8 => 1
  | I16 | U16 => 2
  | I32 | U32 => 4
  | I64 | U64 => 8
  | Ptr | Func => ptr_width
  | F32 => 4
  | F64 => 8
  | Void => 1
  | Struct _ fields =>
      match fields with
      | [] => 1
      | _ => max_align (map (λ f, alignment_of_with_ptr_width f ptr_width) fields)
      end
  | Array element _ => alignment_of_with_ptr_width element ptr_width
  | TaggedUnion _ tag_type _ _ => Z.max (alignment_of_with_ptr_width tag_type ptr_width) 4
  | Channel _ => ptr_width
  end.

(** [(offset + align - 1) & !(align - 1)] on [usize]. *)
Definition round_up (chk : bool) (offset align : Z) : outcome Z :=
  s ← u64_add chk offset align;
  s ← u64_sub chk s 1;
  m ← u64_sub chk align 1;
  Ret (Z.land s (not64 m)).

Fixpoint size_of_with_ptr_width (chk : bool) (t : IRType) (ptr_width : Z) : outcome Z :=
  match t with
  | I8 | U8 => Ret 1
  | I16 | U16 => Ret 2
  | I32 | U32 => Ret 4
  | I64 | U64 => Ret 8
  | Ptr | Func => Ret ptr_width
  | F32 => Ret 4
  | F64 => Ret 8
  | Void => Ret 0
  | Struct name fields =>
      let fix go (fields : list IRType) (offset : Z) : outcome Z :=
        match fields with
        | [] => Ret offset
        | field :: fields =>
            offset ← round_up chk offset (alignment_of_with_ptr_width field ptr_width);
            size ← size_of_with_ptr_width chk field ptr_width;
            offset ← u64_add chk offset size;
            go fields offset
        end in
      offset ← go fields 0;
      let struct_align := alignment_of_with_ptr_width (Struct name fields) ptr_width in
      if 0 <? struct_align then round_up chk offset struct_align else Ret 0
  | Array element count =>
      size ← size_of_with_ptr_width chk element ptr_width;
      u64_mul chk size count
  | TaggedUnion name tag_type max_payload_size variant_count =>
      tag_size ← size_of_with_ptr_width chk tag_type ptr_width;
      payload_offset ← round_up chk tag_size (alignment_of_with_ptr_width tag_type ptr_width);
      total ← u64_add chk payload_offset max_payload_size;
      let union_align := alignment_of_with_ptr_width t ptr_width in
      if 0 <? union_align then round_up chk total union_align else Ret total
  | Channel _ => Ret ptr_width
  end.

Definition size_of (chk : bool) (t : IRType) : outcome Z := size_of_with_ptr_width chk t 8.
Definition alignment_of (t : IRType) : Z := alignment_of_with_ptr_width t 8.

(** ** Operators *)

Inductive BinOpKind : Type :=
  | Add | Sub | Mul | SDiv | UDiv | SRem | URem
  | And | Or | Xor | Shl | ShrL | ShrA | Ror | Rol
  | SLt | SLe | SGt | SGe | ULt | ULe | UGt | UGe | Eq | Ne.

#[export] Instance BinOpKind_eq_dec : EqDecision BinOpKind.
Proof. solve_decision. Defined.

Definition BinOpKind_fmt (k : BinOpKind) : string :=
  match k with
  | Add => "add" | Sub => "sub" | Mul => "mul" | SDiv => "sdiv" | UDiv => "udiv"
  | SRem => "srem" | URem => "urem" | And => "and" | Or => "or" | Xor => "xor"
  | Shl => "shl" | ShrL => "shr.l" | ShrA => "shr.a" | Ror => "ror" | Rol => "rol"
  | SLt => "slt" | SLe => "sle" | SGt => "sgt" | SGe => "sge" | ULt => "ult"
  | ULe => "ule" | UGt => "ugt" | UGe => "uge" | Eq => "eq" | Ne => "ne"
  end.

Inductive UnaryOpKind : Type := Neg | Not | Clz | Ctz | Popcnt.

#[export] Instance UnaryOpKind_eq_dec : EqDecision UnaryOpKind.
Proof. solve_decision. Defined.

Inductive CmpKind : Type :=
  | Cmp_Eq | Cmp_Ne | Cmp_SLt | Cmp_SLe | Cmp_SGt | Cmp_SGe
  | Cmp_ULt | Cmp_ULe | Cmp_UGt | Cmp_UGe.

#[export] Instance CmpKind_eq_dec : EqDecision CmpKind.
Proof. solve_decision. Defined.

Inductive VectorOpKind : Type := VAdd | VSub | VMul.

Inductive CastKind : Type :=
  | ZExt | SExt | Trunc | BitCast | IntToFloat | UIntToFloat | FloatToInt | FloatToUInt
  | FloatToFloat.

(** ** Operands *)

Inductive IRValue : Type :=
  | Register (id : Z)
  | Immediate (v : Z)
  | Address (a : Z)
  | Label (l : string).

#[export] Instance IRValue_eq_dec : EqDecision IRValue.
Proof. solve_decision. Defined.

Definition is_register (v : IRValue) : bool :=
  match v with Register _ => true | _ => false end.
Definition is_immediate (v : IRValue) : bool :=
  match v with Immediate _ => true | _ => false end.
Definition as_register (v : IRValue) : option Z :=
  match v with Register id => Some id | _ => None end.
Definition as_immediate (v : IRValue) : option Z :=
  match v with Immediate v => Some v | _ => None end.
Definition as_address_32bit (v : IRValue) : option Z :=
  match v with Address a => if U32_MAX <? a then None else Some a | _ => None end.

(** ** Instructions

    A constructor is the source's variant with the prefix [I_]; the fields are in the
    source's order. *)
Inductive IRInstr : Type :=
  | I_Load (dst addr : IRValue) (offset : Z) (ty : IRType)
  | I_Store (value addr : IRValue) (offset : Z) (ty : IRType)
  | I_BinOp (op : BinOpKind) (dst lhs rhs : IRValue) (ty : option IRType)
  | I_UnaryOp (op : UnaryOpKind) (dst operand : IRValue) (ty : option IRType)
  | I_Call (dst : option IRValue) (func : string) (args : list IRValue) (is_extern : bool)
  | I_Alloc (dst : IRValue) (size : Z)
  | I_Free (ptr : IRValue)
  | I_Cast (kind : CastKind) (dst src : IRValue) (from_ty to_ty : option IRType)
  | I_Phi (dst : IRValue) (incoming : list (IRValue * string))
  | I_GetAddress (dst : IRValue) (name : string)
  | I_Offset (dst base offset : IRValue)
  | I_Select (dst cond true_val false_val : IRValue) (ty : option IRType)
  | I_Add (dst lhs rhs : IRValue) (ty : option IRType)
  | I_Sub (dst lhs rhs : IRValue) (ty : option IRType)
  | I_Mul (dst lhs rhs : IRValue) (ty : option IRType)
  | I_Div (dst lhs rhs : IRValue) (ty : option IRType)
  | I_Cmp (kind : CmpKind) (dst lhs rhs : IRValue) (ty : option IRType)
  | I_AtomicLoad (dst addr : IRValue) (ty : IRType)
  | I_AtomicStore (value addr : IRValue) (ty : IRType)
  | I_AtomicCas (dst addr expected desired : IRValue) (ty : IRType)
  | I_Ret (values : list IRValue)
  | I_Branch (target : string)
  | I_CondBranch (cond : IRValue) (true_target false_target : string)
  | I_CtSelect (dst cond true_val false_val : IRValue) (ty : option IRType)
  | I_CtEq (dst lhs rhs : IRValue) (ty : option IRType)
  | I_Syscall (nr : Z) (args : list IRValue) (dst : option IRValue)
  | I_VectorOp (op : VectorOpKind) (lanes elem_size : Z) (dst lhs rhs : IRValue)
  | I_ChannelOpen (dst : IRValue) (elem_ty : IRType)
  | I_ChannelSend (ch msg : IRValue) (ty : option IRType)
  | I_ChannelRecv (ch dst : IRValue) (ty : option IRType)
  | I_ChannelClose (ch : IRValue)
  | I_ChannelRecvTimeout (ch dst : IRValue) (ty : option IRType) (timeout_ms : Z)
  | I_ChannelRecvResult (ch dst err_dst : IRValue) (ty : option IRType)
  | I_StarkProof (input dst : IRValue) (constraints : list Z)
  | I_CallIndirect (dst : option IRValue) (func_ptr : IRValue) (args : list IRValue)
  | I_BulkCopy (dst src len : IRValue)
  | I_BulkFill (dst val len : IRValue)
  | I_Transform (dst src : IRValue) (from_layout to_layout : string).

(** The registers among some operands, in order. *)
Definition regs_of (l : list IRValue) : list Z := omap as_register l.
Definition regs_of_opt (o : option IRValue) : list Z := regs_of (option_list o).

Definition defined_regs (i : IRInstr) : list Z :=
  match i with
  | I_Load dst _ _ _ | I_BinOp _ dst _ _ _ | I_UnaryOp _ dst _ _ | I_Alloc dst _
  | I_Cast _ dst _ _ _ | I_Phi dst _ | I_GetAddress dst _ | I_Offset dst _ _
  | I_Select dst _ _ _ _ => regs_of [dst]
  | I_Call dst _ _ _ => regs_of_opt dst
  | I_Syscall _ _ dst => regs_of_opt dst
  | I_VectorOp _ _ _ dst _ _ => regs_of [dst]
  | I_Add dst _ _ _ | I_Sub dst _ _ _ | I_Mul dst _ _ _ | I_Div dst _ _ _ | I_Cmp _ dst _ _ _
  | I_CtSelect dst _ _ _ _ | I_CtEq dst _ _ _ | I_AtomicLoad dst _ _
  | I_AtomicCas dst _ _ _ _ => regs_of [dst]
  | I_ChannelOpen dst _ | I_ChannelRecv _ dst _ | I_ChannelRecvTimeout _ dst _ _ => regs_of [dst]
  | I_ChannelRecvResult _ dst err_dst _ => regs_of [dst; err_dst]
  | I_StarkProof _ dst _ => regs_of [dst]
  | I_CallIndirect dst _ _ => regs_of_opt dst
  | I_Store _ _ _ _ | I_Free _ | I_Ret _ | I_Branch _ | I_CondBranch _ _ _
  | I_AtomicStore _ _ _ | I_ChannelSend _ _ _ | I_ChannelClose _
  | I_BulkCopy _ _ _ | I_BulkFill _ _ _ => []
  | I_Transform dst _ _ _ => regs_of [dst]
  end.

Definition used_regs (i : IRInstr) : list Z :=
  match i with
  | I_Load _ addr _ _ => regs_of [addr]
  | I_Store value addr _ _ => regs_of [value; addr]
  | I_BinOp _ _ lhs rhs _ | I_Add _ lhs rhs _ | I_Sub _ lhs rhs _ | I_Mul _ lhs rhs _
  | I_Div _ lhs rhs _ | I_Cmp _ _ lhs rhs _ => regs_of [lhs; rhs]
  | I_UnaryOp _ _ operand _ => regs_of [operand]
  | I_Call _ _ args _ => regs_of args
  | I_Syscall _ args _ => regs_of args
  | I_VectorOp _ _ _ _ lhs rhs => regs_of [lhs; rhs]
  | I_Alloc _ _ | I_GetAddress _ _ => []
  | I_Free ptr => regs_of [ptr]
  | I_Cast _ _ src _ _ => regs_of [src]
  | I_Phi _ incoming => regs_of (incoming.*1)
  | I_Offset _ base offset => regs_of [base; offset]
  | I_Select _ cond true_val false_val _ => regs_of [cond; true_val; false_val]
  | I_Ret values => regs_of values
  | I_Branch _ => []
  | I_CondBranch cond _ _ => regs_of [cond]
  | I_CtSelect _ cond true_val false_val _ => regs_of [cond; true_val; false_val]
  | I_CtEq _ lhs rhs _ => regs_of [lhs; rhs]
  | I_AtomicLoad _ addr _ => regs_of [addr]
  | I_AtomicStore value addr _ => regs_of [value; addr]
  | I_AtomicCas _ addr expected desired _ => regs_of [addr; expected; desired]
  | I_ChannelOpen _ _ => []
  | I_ChannelSend ch msg _ => regs_of [ch; msg]
  | I_ChannelRecv ch _ _ | I_ChannelRecvTimeout ch _ _ _ | I_ChannelRecvResult ch _ _ _
  | I_ChannelClose ch => regs_of [ch]
  | I_StarkProof input _ _ => regs_of [input]
  | I_CallIndirect _ func_ptr args => regs_of (func_ptr :: args)
  | I_BulkCopy dst src len => regs_of [dst; src; len]
  | I_BulkFill dst val len => regs_of [dst; val; len]
  | I_Transform _ src _ _ => regs_of [src]
  end.

(** ** Terminators, blocks, functions *)

Inductive IRTerminator : Type :=
  | T_Jump (target : string)
  | T_Branch (cond : IRValue) (true_block false_block : string)
  | T_Return (values : list IRValue)
  | T_Unreachable
  | T_Switch (discr : IRValue) (targets : list (Z * string)) (dflt : string)
  | T_Invoke (dst : option IRValue) (func : string) (args : list IRValue) (normal unwind : string)
  | T_TailCall (func : string) (args : list IRValue)
  | T_Resume (value : IRValue).

Definition successor_labels (t : IRTerminator) : list string :=
  match t with
  | T_Jump target => [target]
  | T_Branch _ true_block false_block => [true_block; false_block]
  | T_Return _ | T_Unreachable => []
  | T_Switch _ targets dflt => targets.*2 ++ [dflt]
  | T_Invoke _ _ _ normal unwind => [normal; unwind]
  | T_TailCall _ _ | T_Resume _ => []
  end.

Record IRBlock := {
  b_label : string;
  instructions : list IRInstr;
  terminator : IRTerminator;
  predecessors : gset string;
  successors : gset string;
  source_line : Z;
}.

Definition IRBlock_new (label : string) : IRBlock :=
  {| b_label := label; instructions := []; terminator := T_Unreachable;
     predecessors := ∅; successors := ∅; source_line := 0 |}.

Definition set_code (b : IRBlock) (code : list IRInstr) (t : IRTerminator) : IRBlock :=
  {| b_label := b_label b; instructions := code; terminator := t;
     predecessors := predecessors b; successors := successors b; source_line := source_line b |}.

Definition block_push (b : IRBlock) (i : IRInstr) : IRBlock :=
  set_code b (instructions b ++ [i]) (terminator b).

Definition set_cfg (b : IRBlock) (preds succs : gset string) : IRBlock :=
  {| b_label := b_label b; instructions := instructions b; terminator := terminator b;
     predecessors := preds; successors := succs; source_line := source_line b |}.

Definition update_successors_from_terminator (b : IRBlock) : IRBlock :=
  set_cfg b (predecessors b) (list_to_set (successor_labels (terminator b))).

Record VirtualRegister := { vr_id : Z; vr_name : option string }.

Inductive VumaGrade : Type := Exclusive | Shared.
Record VregMeta := { vm_grade : option VumaGrade }.

Record IRFunction := {
  f_name : string;
  f_params : list IRValue;
  f_results : list IRValue;
  f_param_types : list IRType;
  f_result_types : list IRType;
  f_vregs : gmap Z VirtualRegister;
  f_blocks : list IRBlock;
  f_source_file : string;
  f_vreg_meta : gmap Z VregMeta;
}.

Definition IRFunction_new (name : string) : IRFunction :=
  {| f_name := name; f_params := []; f_results := []; f_param_types := []; f_result_types := [];
     f_vregs := ∅; f_blocks := [IRBlock_new "entry"]; f_source_file := ""; f_vreg_meta := ∅ |}.

Definition with_blocks (f : IRFunction) (bs : list IRBlock) : IRFunction :=
  {| f_name := f_name f; f_params := f_params f; f_results := f_results f;
     f_param_types := f_param_types f; f_result_types := f_result_types f;
     f_vregs := f_vregs f; f_blocks := bs; f_source_file := f_source_file f;
     f_vreg_meta := f_vreg_meta f |}.

(** Returns the function and the index of the new block. *)
Definition append_block (f : IRFunction) (label : string) : IRFunction * nat :=
  (with_blocks f (f_blocks f ++ [IRBlock_new label]), length (f_blocks f)).

(** [position]: the index of the first block with the label. *)
Fixpoint position {A} (p : A → bool) (l : list A) : option nat :=
  match l with
  | [] => None
  | x :: l => if p x then Some O else S <$> position p l
  end.

Definition find_block_by_label (f : IRFunction) (label : string) : option nat :=
  position (λ b, String.eqb (b_label b) label) (f_blocks f).

Definition block_count (f : IRFunction) : nat := length (f_blocks f).
Definition instruction_count (f : IRFunction) : nat :=
  sum_list_with (λ b, length (instructions b)) (f_blocks f).

(** [label_to_idx]: collecting into a map keeps the last index of a label. *)
Definition label_to_idx (bs : list IRBlock) : gmap string nat :=
  foldl (λ m p, <[b_label p.2 := p.1]> m) ∅ (imap pair bs).

(** The edges from block [i] to the known successors of [b]. *)
Definition block_edges (idx : gmap string nat) (i : nat) (b : IRBlock) : list (nat * nat) :=
  omap (λ l, pair i <$> idx !! l)
    (elements (list_to_set (successor_labels (terminator b)) : gset string)).

Definition add_predecessor (labels : list string) (bs : list IRBlock) (e : nat * nat) :
    list IRBlock :=
  match labels !! e.1 with
  | Some l => alter (λ b, set_cfg b ({[l]} ∪ predecessors b) (successors b)) e.2 bs
  | None => bs
  end.

Definition rebuild_cfg (f : IRFunction) : IRFunction :=
  let idx := label_to_idx (f_blocks f) in
  let bs := (λ b, set_cfg b ∅ ∅) <$> f_blocks f in
  let edges := mjoin (imap (block_edges idx) bs) in
  let bs := update_successors_from_terminator <$> bs in
  with_blocks f (foldl (add_predecessor (b_label <$> bs)) bs edges).

(** [build_phi_map]: for a pair of labels (the block of the phi, the predecessor), the
    copies to place at the end of the predecessor. *)
Definition phi_copies (label : string) (i : IRInstr) :
    list ((string * string) * (IRValue * IRValue)) :=
  match i with
  | I_Phi dst incoming =>
      omap (λ p, if decide (p.1 = dst) then None else Some ((label, p.2), (dst, p.1))) incoming
  | _ => []
  end.

Definition push_copy (m : gmap (string * string) (list (IRValue * IRValue)))
    (e : (string * string) * (IRValue * IRValue)) :
    gmap (string * string) (list (IRValue * IRValue)) :=
  <[e.1 := default [] (m !! e.1) ++ [e.2]]> m.

Definition build_phi_map (f : IRFunction) : gmap (string * string) (list (IRValue * IRValue)) :=
  foldl push_copy ∅
    (f_blocks f ≫= λ b, instructions b ≫= phi_copies (b_label b)).

Inductive DataSectionKind : Type := ReadOnly | Data | Bss.

Record DataSection := {
  ds_name : string;
  ds_kind : DataSectionKind;
  ds_align : Z;
  ds_data : list Z;
}.

Record IRProgram := {
  p_functions : list IRFunction;
  p_data_sections : list DataSection;
}.
Definition IRProgram_new : IRProgram := {| p_functions := []; p_data_sections := [] |}.

(** ** Specification *)

(** The sizes a type is declared with are [usize]s. *)
Fixpoint wf_type (t : IRType) : Prop :=
  match t with
  | Struct _ fields => foldr (λ t P, wf_type t ∧ P) True fields
  | Array element count => wf_type element ∧ is_u64 count
  | TaggedUnion _ tag_type max_payload_size _ => wf_type tag_type ∧ is_u64 max_payload_size
  | Channel inner => wf_type inner
  | _ => True
  end.

(** The fields of a struct at offsets: each at a multiple of its alignment, none before
    the end of its predecessor, all inside [size] bytes. *)
Fixpoint fields_placed (pw base size : Z) (fields : list IRType) (offsets : list Z) : Prop :=
  match fields, offsets with
  | [], [] => base ≤ size
  | field :: fields, offset :: offsets =>
      base ≤ offset ∧ (alignment_of_with_ptr_width field pw | offset) ∧
      ∃ s, size_of_with_ptr_width true field pw = Ret s ∧
        fields_placed pw (offset + s) size fields offsets
  | _, _ => False
  end.

(** The predecessors of a block, read off the terminators. *)
Definition jumps_to (bs : list IRBlock) (label source : string) : Prop :=
  ∃ b, b ∈ bs ∧ b_label b = source ∧ label ∈ successor_labels (terminator b).

(** ** Lemmas *)

Section IRType_induction.
  #[local] Set Default Proof Using "All".
  Context (P : IRType → Prop).
  Hypothesis Hbase : ∀ t, match t with Struct _ _ | Array _ _ | TaggedUnion _ _ _ _ | Channel _ => False | _ => True end → P t.
  Hypothesis Hstruct : ∀ n fields, Forall P fields → P (Struct n fields).
  Hypothesis Harray : ∀ t c, P t → P (Array t c).
  Hypothesis Hunion : ∀ n t m v, P t → P (TaggedUnion n t m v).
  Hypothesis Hchannel : ∀ t, P t → P (Channel t).

Lemma IRType_nested_ind t : P t.
Proof.
  revert t. fix IH 1. intros t. destruct t; try (by apply Hbase).
  - apply Hstruct. induction fields as [|t fields IHl]; constructor; [apply IH|apply IHl].
  - apply Harray, IH.
  - apply Hunion, IH.
  - apply Hchannel, IH.
Qed.
End IRType_induction.

Definition is_pow (a : Z) : Prop := a = 1 ∨ a = 2 ∨ a = 4 ∨ a = 8.

Lemma is_pow_max a b : is_pow a → is_pow b → is_pow (Z.max a b).
Proof. unfold is_pow. lia. Qed.

Lemma max_align_pow l : l ≠ [] → Forall is_pow l → is_pow (max_align l).
Proof.
  intros Hne H. induction H as [|a l Ha Hl IH]; [done|]. simpl.
  destruct l as [|b l]; [simpl; unfold is_pow in *; lia|]. by apply is_pow_max, IH.
Qed.

Lemma alignment_pow pw t : pw = 4 ∨ pw = 8 → is_pow (alignment_of_with_ptr_width t pw).
Proof.
  intros Hpw. assert (is_pow pw) as Hp by (unfold is_pow; lia).
  induction t as [t Ht|n fields IH|t c IH|n t m v IH|t IH] using IRType_nested_ind.
  - destruct t; try done; simpl; unfold is_pow; lia.
  - destruct fields as [|f fields]; [by left|].
    change (is_pow (max_align (map (λ f, alignment_of_with_ptr_width f pw) (f :: fields)))).
    apply max_align_pow; [done|]. by apply List.Forall_map.
  - done.
  - simpl. apply is_pow_max; [done|]. unfold is_pow. lia.
  - done.
Qed.

Lemma u64_of_true_false z r : u64_of true z = Ret r → u64_of false z = Ret r.
Proof. unfold u64_of. by case_decide. Qed.

Lemma round_up_checked off a s :
  is_u64 off → is_pow a → round_up true off a = Ret s →
  round_up false off a = Ret s ∧ off ≤ s < off + a ∧ (a | s) ∧ is_u64 s.
Proof.
  intros Ho Ha. unfold round_up, u64_add, u64_sub. cbn [mbind outcome_bind].
  destruct (u64_of true (off + a)) as [s1|] eqn:E1; [|done]. cbn.
  rewrite (u64_of_true_false _ _ E1). cbn. apply u64_of_checked in E1 as [-> Hs].
  assert (1 ≤ a ≤ 8) by (unfold is_pow in Ha; lia). unfold is_u64 in Ho, Hs.
  rewrite !(u64_of_in _ (off + a - 1)), !(u64_of_in _ (a - 1)) by (unfold is_u64; lia).
  cbn. intros [= Hs']. rewrite Hs'. split; [done|].
  assert (∃ k, 0 ≤ k < 64 ∧ a = 2 ^ k) as (k & Hk & Hak).
  { destruct Ha as [->|[->|[->| ->]]]; [exists 0|exists 1|exists 2|exists 3]; done. }
  rewrite Hak in Hs'. rewrite land_not64_mask in Hs' by (unfold is_u64; lia).
  rewrite <-Hak in Hs'. subst s. pose proof (Z.div_mod (off + a - 1) a ltac:(lia)).
  pose proof (Z.mod_pos_bound (off + a - 1) a ltac:(lia)).
  split; [lia|]. split; [by exists ((off + a - 1) / a)|]. unfold is_u64. lia.
Qed.

(** The loop over the fields, apart from the function it recurses into. *)
Fixpoint struct_loop (chk : bool) (pw : Z) (fields : list IRType) (offset : Z) : outcome Z :=
  match fields with
  | [] => Ret offset
  | field :: fields =>
      offset ← round_up chk offset (alignment_of_with_ptr_width field pw);
      size ← size_of_with_ptr_width chk field pw;
      offset ← u64_add chk offset size;
      struct_loop chk pw fields offset
  end.

Lemma size_of_struct chk n fields pw :
  size_of_with_ptr_width chk (Struct n fields) pw =
  (offset ← struct_loop chk pw fields 0;
   if 0 <? alignment_of_with_ptr_width (Struct n fields) pw
   then round_up chk offset (alignment_of_with_ptr_width (Struct n fields) pw) else Ret 0).
Proof.
  cbn [size_of_with_ptr_width].
  lazymatch goal with |- mbind _ (?go fields 0) = _ =>
    assert (∀ fs o, go fs o = struct_loop chk pw fs o) as ->; [|done] end.
  induction fs as [|f fs IH]; intros o; [done|]. simpl.
  destruct (round_up _ _ _); [|done]. cbn [mbind outcome_bind].
  destruct (size_of_with_ptr_width _ _ _); [|done]. cbn [mbind outcome_bind].
  by destruct (u64_add _ _ _); cbn [mbind outcome_bind].
Qed.

(** What is proved of one type. *)
Definition size_ok (pw : Z) (t : IRType) : Prop :=
  ∀ s, wf_type t → size_of_with_ptr_width true t pw = Ret s →
    size_of_with_ptr_width false t pw = Ret s ∧ is_u64 s ∧ (alignment_of_with_ptr_width t pw | s).

Lemma struct_loop_checked pw fields base s :
  pw = 4 ∨ pw = 8 → Forall (size_ok pw) fields → wf_type (Struct "" fields) → is_u64 base →
  struct_loop true pw fields base = Ret s →
  struct_loop false pw fields base = Ret s ∧ is_u64 s ∧
  ∀ size, s ≤ size → ∃ offsets, fields_placed pw base size fields offsets.
Proof.
  intros Hpw. revert base. induction fields as [|f fields IH]; intros base HF Hwf Hb; simpl.
  - intros [= <-]. split; [done|]. split; [done|]. intros size ?. by exists [].
  - inversion HF as [|? ? Hf HF']; subst. destruct Hwf as [Hwf Hwfs].
    destruct (round_up true base _) as [o|] eqn:Eo; [|done].
    apply round_up_checked in Eo as (-> & Ho & Hd & Hou); [|done|by apply alignment_pow].
    cbn [mbind outcome_bind]. destruct (size_of_with_ptr_width true f pw) as [fs|] eqn:Ef; [|done].
    destruct (Hf fs Hwf Ef) as (-> & Hfs & _). cbn [mbind outcome_bind]. unfold u64_add.
    destruct (u64_of true (o + fs)) as [o'|] eqn:E'; [|done].
    rewrite (u64_of_true_false _ _ E'). apply u64_of_checked in E' as [-> Ho'].
    cbn [mbind outcome_bind]. intros (-> & Hs & Hpl)%IH; try done. split; [done|]. split; [done|].
    intros size (offsets & Hoff)%Hpl. exists (o :: offsets). cbn.
    split; [lia|]. split; [done|]. by exists fs.
Qed.

Lemma size_of_checked pw t : pw = 4 ∨ pw = 8 → size_ok pw t.
Proof.
  intros Hpw. assert (is_pow pw) as Hp by (unfold is_pow; lia).
  induction t as [t Ht|n fields IH|t c IH|n t m v IH|t IH] using IRType_nested_ind;
    intros s Hwf.
  - assert (∀ a, is_pow a → is_u64 a ∧ (a | a)) as Hself
      by (intros a Ha; split; [unfold is_pow, is_u64 in *; lia|done]).
    destruct t; try done; cbn; intros [= <-]; (split; [done|]); try (by apply Hself; unfold is_pow; lia).
    split; [by unfold is_u64|]. by exists 0.
  - rewrite !size_of_struct. destruct (struct_loop true pw fields 0) as [o|] eqn:E; [|done].
    apply struct_loop_checked in E as (-> & Ho & _); [|done..|by unfold is_u64]. cbn [mbind outcome_bind].
    pose proof (alignment_pow pw (Struct n fields) Hpw) as Ha.
    rewrite (proj2 (Z.ltb_lt _ _)) by (unfold is_pow in Ha; lia).
    intros (? & _ & ? & ?)%round_up_checked; done.
  - cbn. destruct Hwf as [Hwf Hc]. destruct (size_of_with_ptr_width true t pw) as [es|] eqn:E; [|done].
    destruct (IH es Hwf E) as (-> & _ & Hd). cbn [mbind outcome_bind]. unfold u64_mul. intros Hm.
    rewrite (u64_of_true_false _ _ Hm). apply u64_of_checked in Hm as [-> Hs].
    split; [done|]. split; [done|]. by apply Z.divide_mul_l.
  - cbn -[Z.max]. destruct Hwf as [Hwf Hm].
    destruct (size_of_with_ptr_width true t pw) as [ts|] eqn:E; [|done].
    destruct (IH ts Hwf E) as (-> & Hts & _). cbn [mbind outcome_bind].
    destruct (round_up true ts _) as [po|] eqn:Eo; [|done].
    apply round_up_checked in Eo as (-> & _ & _ & Hpo); [|done|by apply alignment_pow].
    cbn [mbind outcome_bind]. unfold u64_add. destruct (u64_of true (po + m)) as [tot|] eqn:Et; [|done].
    rewrite (u64_of_true_false _ _ Et). apply u64_of_checked in Et as [-> Ht]. cbn [mbind outcome_bind].
    pose proof (alignment_pow pw t Hpw) as Ha.
    rewrite (proj2 (Z.ltb_lt _ _)) by (unfold is_pow in Ha; lia).
    intros (? & _ & ? & ?)%round_up_checked; [done|done|].
    apply is_pow_max; [done|unfold is_pow; lia].
  - cbn. intros [= <-]. split; [done|]. split; [|done]. unfold is_u64. lia.
Qed.



(** *** The control-flow graph *)

Lemma label_fold_spec (l : list (nat * IRBlock)) (m : gmap string nat) s j :
  NoDup ((λ p, b_label p.2) <$> l) →
  foldl (λ m p, <[b_label p.2 := p.1]> m) m l !! s = Some j ↔
  (∃ b, (j, b) ∈ l ∧ b_label b = s) ∨ (s ∉ ((λ p, b_label p.2) <$> l) ∧ m !! s = Some j).
Proof.
  revert m. induction l as [|[i b] l IH]; intros m; csimpl; [set_solver|].
  intros [Hni Hnd]%NoDup_cons. rewrite IH by done. rewrite lookup_insert_Some.
  rewrite list_elem_of_fmap in Hni. setoid_rewrite elem_of_cons.
  split; [naive_solver|]. intros [(b' & [[= -> ->]|Hb'] & <-)|[Hns Hm]].
  - right. split; [|by left]. rewrite list_elem_of_fmap. naive_solver.
  - left. by exists b'.
  - right. naive_solver.
Qed.

Lemma label_to_idx_spec bs s j :
  NoDup (b_label <$> bs) → label_to_idx bs !! s = Some j ↔ (b_label <$> bs) !! j = Some s.
Proof.
  intros Hnd. unfold label_to_idx.
  assert ((λ p, b_label p.2) <$> imap pair bs = b_label <$> bs) as Hl.
  { clear Hnd. assert (∀ n, (λ p, b_label p.2) <$> imap (λ i, pair (n + i)%nat) bs = b_label <$> bs)
      as H; [|by apply (H 0%nat)].
    induction bs as [|b bs IH]; intros n; [done|]. csimpl. f_equal. rewrite <-(IH (S n)).
    f_equal. apply imap_ext. intros i x _. simpl. f_equal. lia. }
  rewrite label_fold_spec by by rewrite Hl. rewrite lookup_empty, list_lookup_fmap_Some.
  setoid_rewrite elem_of_lookup_imap. naive_solver.
Qed.

Lemma foldl_add_predecessor labels bs es j :
  foldl (add_predecessor labels) bs es !! j =
  (λ b, set_cfg b
     (list_to_set (omap (λ e, if decide (e.2 = j) then labels !! e.1 else None) es) ∪
      predecessors b) (successors b)) <$> bs !! j.
Proof.
  revert bs. induction es as [|e es IH]; intros bs; simpl.
  - destruct (bs !! j) as [[]|]; [|done]. simpl. unfold set_cfg; simpl. do 2 f_equal. set_solver.
  - rewrite IH. unfold add_predecessor. destruct (labels !! e.1) as [l|] eqn:El; [|by case_decide].
    destruct (decide (e.2 = j)) as [<-|Hne].
    + rewrite list_lookup_alter_eq, <-option_fmap_compose.
      apply option_fmap_ext. intros b. unfold compose, set_cfg; simpl. f_equal. set_solver.
    + by rewrite list_lookup_alter_ne.
Qed.

Lemma elem_of_block_edges idx i b e :
  e ∈ block_edges idx i b ↔
  e.1 = i ∧ ∃ s, s ∈ successor_labels (terminator b) ∧ idx !! s = Some e.2.
Proof.
  unfold block_edges. rewrite list_elem_of_omap. setoid_rewrite elem_of_elements.
  setoid_rewrite elem_of_list_to_set. split.
  - intros (s & Hs & He). destruct (idx !! s) as [j|] eqn:Ej; [|done]. simpl in He.
    injection He as <-. split; [done|]. by exists s.
  - intros (<- & s & Hs & He). exists s. split; [done|]. rewrite He. by destruct e.
Qed.

Lemma rebuild_cfg_lookup f j :
  f_blocks (rebuild_cfg f) !! j =
  (λ b, set_cfg b
     (list_to_set (omap (λ e, if decide (e.2 = j) then (b_label <$> f_blocks f) !! e.1 else None)
        (mjoin (imap (block_edges (label_to_idx (f_blocks f)))
           ((λ b, set_cfg b ∅ ∅) <$> f_blocks f)))))
     (list_to_set (successor_labels (terminator b)))) <$> f_blocks f !! j.
Proof.
  unfold rebuild_cfg. cbn [f_blocks with_blocks]. rewrite foldl_add_predecessor.
  rewrite !list_lookup_fmap. destruct (f_blocks f !! j) as [b|]; [|done]. simpl.
  unfold set_cfg, update_successors_from_terminator; simpl. do 2 f_equal.
  rewrite <-!list_fmap_compose. rewrite union_empty_r_L. do 2 f_equal.
Qed.

Lemma length_foldl_add_predecessor labels bs es :
  length (foldl (add_predecessor labels) bs es) = length bs.
Proof.
  revert bs. induction es as [|e es IH]; intros bs; simpl; [done|]. rewrite IH.
  unfold add_predecessor. destruct (labels !! e.1); [by rewrite length_alter|done].
Qed.

Lemma elem_of_cfg_edges bs e :
  NoDup (b_label <$> bs) →
  e ∈ mjoin (imap (block_edges (label_to_idx bs)) ((λ b, set_cfg b ∅ ∅) <$> bs)) ↔
  ∃ b s, bs !! e.1 = Some b ∧ s ∈ successor_labels (terminator b) ∧
         (b_label <$> bs) !! e.2 = Some s.
Proof.
  intros Hnd. rewrite list_elem_of_join. setoid_rewrite elem_of_lookup_imap. split.
  - intros (es & He & i & b & -> & Hb). apply list_lookup_fmap_Some in Hb as (b' & -> & Hb').
    apply elem_of_block_edges in He as (<- & s & Hs & Hi).
    apply label_to_idx_spec in Hi; [|done]. by exists b', s.
  - intros (b & s & Hb & Hs & Hi). exists (block_edges (label_to_idx bs) e.1 (set_cfg b ∅ ∅)).
    split; [|exists e.1, (set_cfg b ∅ ∅); by rewrite list_lookup_fmap, Hb].
    apply elem_of_block_edges. split; [done|]. exists s. split; [done|].
    by apply label_to_idx_spec.
Qed.

(** Rebuilding the control-flow graph, in a function whose labels are distinct: the code
    of every block is kept, its successors become the targets of its terminator and its
    predecessors exactly the labels of the blocks that jump to it, whatever the sets were
    before. *)
Theorem rebuild_cfg_correct f :
  NoDup (b_label <$> f_blocks f) →
  length (f_blocks (rebuild_cfg f)) = length (f_blocks f) ∧
  ∀ j b, f_blocks f !! j = Some b → ∃ b', f_blocks (rebuild_cfg f) !! j = Some b' ∧
    b_label b' = b_label b ∧ instructions b' = instructions b ∧ terminator b' = terminator b ∧
    (∀ l, l ∈ successors b' ↔ l ∈ successor_labels (terminator b)) ∧
    (∀ l, l ∈ predecessors b' ↔ jumps_to (f_blocks f) (b_label b) l).
Proof.
  intros Hnd. split.
  { unfold rebuild_cfg. cbn [f_blocks with_blocks].
    by rewrite length_foldl_add_predecessor, !length_fmap. }
  intros j b Hb. rewrite rebuild_cfg_lookup, Hb. eexists. split; [reflexivity|]. simpl.
  split; [done|]. split; [done|]. split; [done|]. split; [set_solver|].
  intros l. rewrite elem_of_list_to_set, list_elem_of_omap.
  setoid_rewrite elem_of_cfg_edges; [|done]. unfold jumps_to. split.
  - intros ([i j'] & (c & s & Hc & Hs & Hj) & Hl). simpl in *. case_decide as Hd; [|done].
    subst j'. rewrite list_lookup_fmap, Hc in Hl. injection Hl as <-.
    rewrite list_lookup_fmap, Hb in Hj. injection Hj as <-.
    exists c. split; [by eapply list_elem_of_lookup_2|]. done.
  - intros (c & [i Hi]%list_elem_of_lookup_1 & <- & Hs). exists (i, j). simpl. split.
    + exists c, (b_label b). by rewrite list_lookup_fmap, Hb.
    + rewrite decide_True by done. by rewrite list_lookup_fmap, Hi.
Qed.

Lemma rebuild_cfg_correct_witness :
  let f := with_blocks (IRFunction_new "f")
    [set_code (IRBlock_new "a") [] (T_Jump "b"); IRBlock_new "b"] in
  NoDup (b_label <$> f_blocks f) ∧ ∃ b, f_blocks (rebuild_cfg f) !! 1%nat = Some b ∧
    "a" ∈ predecessors b.
Proof.
  set (f := with_blocks _ _). cbn zeta.
  assert (NoDup (b_label <$> f_blocks f)) as Hnd
    by (repeat constructor; set_solver).
  split; [exact Hnd|].
  destruct (rebuild_cfg_correct f Hnd) as [_ H].
  destruct (H 1%nat (IRBlock_new "b") eq_refl) as (b & Hb & _ & _ & _ & _ & Hp).
  exists b. split; [exact Hb|]. apply Hp. exists (set_code (IRBlock_new "a") [] (T_Jump "b")).
  split; [by left|]. split; [done|]. by left.
Defined.
