(* ===== verification/BvVerify.v ===== *)
(** * Bit-vector verification of rewrite rules

    Models [src/src/codegen/src/bv_verify.rs]: the 8-bit evaluator of the operators
    of [Ir], the exhaustive check of rewrite rules, the table of rules, the gate
    in front of e-graph saturation and the layout-merge check; and the integer part
    of the constant folder of [src/src/codegen/src/opt.rs] (lines 447-525), which
    evaluates the same operators on 64 bits.  The closures of a rule are functions;
    a rule of the e-graph is given by its name, all that the gate looks at. *)

From S2P Require Import Prelude Ir.
From stdpp Require Import options.
#[local] Open Scope Z_scope.

(** ** The 8-bit evaluator *)

Definition VERIFY_BITWIDTH : Z := 8.
Definition VERIFY_MODULO : Z := Z.shiftl 1 VERIFY_BITWIDTH.

Definition bool_val (b : bool) : Z := if b then 1 else 0.

(** [checked_div] on [u64], with zero for the missing quotient. *)
Definition div_or_zero (a b : Z) : Z := if b =? 0 then 0 else a / b.

Definition eval_binop (op : BinOpKind) (lhs rhs : Z) : Z :=
  let m := VERIFY_MODULO in
  let shift := rhs `mod` VERIFY_BITWIDTH in
  match op with
  | Add => wrap64 (lhs + rhs) `mod` m
  | Sub => wrap64 (lhs - rhs) `mod` m
  | Mul => wrap64 (lhs * rhs) `mod` m
  | UDiv | SDiv => div_or_zero (lhs `mod` m) (rhs `mod` m)
  | SRem | URem => if rhs `mod` m =? 0 then 0 else (lhs `mod` m) `mod` (rhs `mod` m)
  | And => Z.land lhs rhs `mod` m
  | Or => Z.lor lhs rhs `mod` m
  | Xor => Z.lxor lhs rhs `mod` m
  | Shl => Z.shiftl (lhs `mod` m) shift `mod` m
  | ShrL => Z.shiftr (lhs `mod` m) shift `mod` m
  | ShrA =>
      let val := lhs `mod` m in
      let sign_bit := Z.shiftl 1 (VERIFY_BITWIDTH - 1) in
      if negb (Z.land val sign_bit =? 0) then
        let shifted := Z.shiftr val shift in
        let fill := if shift =? 0 then 0
                    else Z.shiftl (Z.shiftl 1 shift - 1) (VERIFY_BITWIDTH - shift) in
        Z.lor shifted fill `mod` m
      else Z.shiftr val shift `mod` m
  | Eq => bool_val (lhs `mod` m =? rhs `mod` m) `mod` m
  | Ne => bool_val (negb (lhs `mod` m =? rhs `mod` m)) `mod` m
  | SLt | ULt => bool_val (lhs `mod` m <? rhs `mod` m) `mod` m
  | SLe | ULe => bool_val (lhs `mod` m <=? rhs `mod` m) `mod` m
  | SGt | UGt => bool_val (rhs `mod` m <? lhs `mod` m) `mod` m
  | SGe | UGe => bool_val (rhs `mod` m <=? lhs `mod` m) `mod` m
  | Ror | Rol =>
      let val := lhs `mod` m in
      if shift =? 0 then val else
      let lo := Z.shiftr val shift in
      let hi := Z.shiftl val (VERIFY_BITWIDTH - shift) in
      Z.lor lo (hi `mod` m) `mod` m
  end.

(** ** Verification of one rule *)

Record VerificationResult := {
  vr_rule_name : string;
  vr_sound : bool;
  vr_cases_evaluated : Z;
  vr_counterexample : option (list Z);
}.

Definition vec_debug (l : list Z) : string := "[" +:+ join ", " (show <$> l) +:+ "]".
Definition counterexample_debug (o : option (list Z)) : string :=
  match o with Some l => "Some(" +:+ vec_debug l +:+ ")" | None => "None" end.

Definition VerificationResult_fmt (r : VerificationResult) : string :=
  if vr_sound r then
    "VERIFIED: " +:+ vr_rule_name r +:+ " (" +:+ show (vr_cases_evaluated r) +:+
    " cases, all passed)"
  else
    "UNSOUND: " +:+ vr_rule_name r +:+ " (failed after " +:+ show (vr_cases_evaluated r) +:+
    " cases, counterexample: " +:+ counterexample_debug (vr_counterexample r) +:+ ")".

Definition sound_result (name : string) (cases : Z) : VerificationResult :=
  {| vr_rule_name := name; vr_sound := true; vr_cases_evaluated := cases;
     vr_counterexample := None |}.
Definition unsound_result (name : string) (cases : Z) (inputs : list Z) : VerificationResult :=
  {| vr_rule_name := name; vr_sound := false; vr_cases_evaluated := cases;
     vr_counterexample := Some inputs |}.

(** The loop over the inputs, each a list of values; [cases] counts the rounds. *)
Fixpoint verify_loop {A} (name : string) (inputs : A → list Z) (pattern replacement : A → Z)
    (xs : list A) (cases : Z) : VerificationResult :=
  match xs with
  | [] => sound_result name cases
  | x :: xs =>
      let cases := cases + 1 in
      if negb (pattern x =? replacement x) then unsound_result name cases (inputs x)
      else verify_loop name inputs pattern replacement xs cases
  end.

Definition bytes : list Z := seqZ 0 VERIFY_MODULO.

Definition verify_rule_1var (name : string) (pattern replacement : Z → Z) : VerificationResult :=
  verify_loop name (λ x, [x]) pattern replacement bytes 0.

(** The two nested loops visit the pairs in lexicographic order. *)
Definition byte_pairs : list (Z * Z) := list_prod bytes bytes.

Definition verify_rule_2var (name : string) (pattern replacement : Z → Z → Z) : VerificationResult :=
  verify_loop name (λ p, [p.1; p.2]) (λ p, pattern p.1 p.2) (λ p, replacement p.1 p.2)
    byte_pairs 0.

(** ** The table of rules *)

Definition verify_all_rules : list VerificationResult :=
  [ verify_rule_1var "xor_self" (λ x, eval_binop Xor x x) (λ _, 0);
    verify_rule_1var "sub_self" (λ x, eval_binop Sub x x) (λ _, 0);
    verify_rule_2var "add_zero_left" (λ x _, eval_binop Add 0 x) (λ x _, x);
    verify_rule_2var "add_zero_right" (λ x _, eval_binop Add x 0) (λ x _, x);
    verify_rule_2var "mul_zero_left" (λ _ y, eval_binop Mul 0 y) (λ _ _, 0);
    verify_rule_2var "mul_zero_right" (λ x _, eval_binop Mul x 0) (λ _ _, 0);
    verify_rule_2var "mul_one_left" (λ _ y, eval_binop Mul 1 y) (λ _ y, y);
    verify_rule_2var "mul_one_right" (λ x _, eval_binop Mul x 1) (λ x _, x);
    verify_rule_2var "mul_two_to_add" (λ x _, eval_binop Mul x 2) (λ x _, eval_binop Add x x);
    verify_rule_2var "mul_two_left_to_add" (λ _ y, eval_binop Mul 2 y) (λ _ y, eval_binop Add y y);
    verify_rule_2var "and_zero_left" (λ _ y, eval_binop And 0 y) (λ _ _, 0);
    verify_rule_2var "and_zero_right" (λ x _, eval_binop And x 0) (λ _ _, 0);
    verify_rule_2var "or_zero_right" (λ x _, eval_binop Or x 0) (λ x _, x);
    verify_rule_2var "xor_zero_right" (λ x _, eval_binop Xor x 0) (λ x _, x);
    verify_rule_2var "shr_zero_right_l" (λ x _, eval_binop ShrL x 0) (λ x _, x);
    verify_rule_2var "shr_zero_right_a" (λ x _, eval_binop ShrA x 0) (λ x _, x);
    verify_rule_2var "shl_zero_right" (λ x _, eval_binop Shl x 0) (λ x _, x);
    verify_rule_1var "state_transform_elision" (λ x, x) (λ x, x);
    verify_rule_2var "state_store_load_forward" (λ _ v, v) (λ _ v, v) ].

Definition known_unsound_test_rules : list VerificationResult :=
  [ verify_rule_1var "wave36_unsound_inc" (λ x, eval_binop Add x 1) (λ x, x) ].

Definition unsound_msg (r : VerificationResult) : string :=
  "Rule '" +:+ vr_rule_name r +:+ "' is unsound (counterexample: " +:+
  counterexample_debug (vr_counterexample r) +:+ ")".

Fixpoint first_unsound (results : list VerificationResult) : result unit string :=
  match results with
  | [] => Ok tt
  | r :: results => if negb (vr_sound r) then Err (unsound_msg r) else first_unsound results
  end.

Definition assert_all_rules_sound : result unit string := first_unsound verify_all_rules.

Definition count_verified : nat * nat :=
  let results := verify_all_rules in
  (length (filter (λ r, vr_sound r = true) results), length results).

(** ** The gate *)

Record Counterexample := { ce_rule_name : string; ce_inputs : list Z }.

Definition Counterexample_fmt (c : Counterexample) : string :=
  "counterexample for rule '" +:+ ce_rule_name c +:+ "': inputs = " +:+ vec_debug (ce_inputs c).

(** Collecting into a [HashMap], then inserting; a later entry replaces an earlier one. *)
Definition insert_result (table : gmap string VerificationResult) (r : VerificationResult) :
    gmap string VerificationResult := <[vr_rule_name r := r]> table.

Definition gate_table : gmap string VerificationResult :=
  foldl insert_result (foldl insert_result ∅ verify_all_rules) known_unsound_test_rules.

Fixpoint gate_loop (table : gmap string VerificationResult) (rules : list string) :
    result unit Counterexample :=
  match rules with
  | [] => Ok tt
  | rule :: rules =>
      match table !! rule with
      | Some r =>
          if negb (vr_sound r)
          then Err {| ce_rule_name := rule; ce_inputs := default [] (vr_counterexample r) |}
          else gate_loop table rules
      | None => gate_loop table rules
      end
  end.

Definition verify_rules_with_counterexample (rules : list string) : result unit Counterexample :=
  gate_loop gate_table rules.

(** ** Merging state layouts *)

Record StructFieldInfo := {
  sf_name : string;
  sf_type_name : string;
  sf_offset : Z;
  sf_size : Z;
}.

Definition mismatch_msg (i : Z) (name what a b : string) : string :=
  "field " +:+ show i +:+ " (" +:+ debug_str name +:+ ") " +:+ what +:+ " mismatch: " +:+ a +:+
  " vs " +:+ b.

Fixpoint merge_fields (i : Z) (lhs rhs : list StructFieldInfo) : option string :=
  match lhs, rhs with
  | a :: lhs, b :: rhs =>
      if negb (sf_offset a =? sf_offset b) then
        Some (mismatch_msg i (sf_name a) "offset" (show (sf_offset a)) (show (sf_offset b)))
      else if negb (sf_size a =? sf_size b) then
        Some (mismatch_msg i (sf_name a) "size" (show (sf_size a)) (show (sf_size b)))
      else if negb (String.eqb (sf_type_name a) (sf_type_name b)) then
        Some (mismatch_msg i (sf_name a) "type" (debug_str (sf_type_name a))
                (debug_str (sf_type_name b)))
      else merge_fields (i + 1) lhs rhs
  | _, _ => None
  end.

Definition state_merge_compatible_layouts (lhs rhs : list StructFieldInfo) : option string :=
  if negb (Nat.eqb (length lhs) (length rhs)) then
    Some ("field count mismatch: " +:+ show (Z.of_nat (length lhs)) +:+ " vs " +:+
          show (Z.of_nat (length rhs)))
  else merge_fields 0 lhs rhs.

(** ** Constant folding on 64 bits *)

(** The shift amount of [wrapping_shl] and the rotations: [rhs as u32], modulo 64. *)
Definition shift_amount (rhs : Z) : Z := wrap32 rhs `mod` 64.

Definition rotate_right (lhs n : Z) : Z :=
  as_i64 (Z.lor (Z.shiftr (wrap64 lhs) n) (Z.shiftl (wrap64 lhs) (64 - n))).
Definition rotate_left (lhs n : Z) : Z :=
  as_i64 (Z.lor (Z.shiftl (wrap64 lhs) n) (Z.shiftr (wrap64 lhs) (64 - n))).

(** [checked_div] and [checked_rem] of [i64], for a divisor that is not zero. *)
Definition i64_overflows (lhs rhs : Z) : bool := (lhs =? - 2 ^ 63) && (rhs =? -1).

Definition try_fold_binop_int (op : BinOpKind) (lhs rhs : Z) : option Z :=
  match op with
  | Add => Some (as_i64 (lhs + rhs))
  | Sub => Some (as_i64 (lhs - rhs))
  | Mul => Some (as_i64 (lhs * rhs))
  | SDiv =>
      if rhs =? 0 then None
      else if i64_overflows lhs rhs then None else Some (Z.quot lhs rhs)
  | UDiv => if rhs =? 0 then None else Some (as_i64 (wrap64 lhs / wrap64 rhs))
  | SRem =>
      if rhs =? 0 then None
      else if i64_overflows lhs rhs then None else Some (Z.rem lhs rhs)
  | URem => if rhs =? 0 then None else Some (as_i64 (wrap64 lhs `mod` wrap64 rhs))
  | And => Some (Z.land lhs rhs)
  | Or => Some (Z.lor lhs rhs)
  | Xor => Some (Z.lxor lhs rhs)
  | Shl => Some (as_i64 (Z.shiftl lhs (shift_amount rhs)))
  | ShrL => Some (as_i64 (Z.shiftr (wrap64 lhs) (shift_amount rhs)))
  | ShrA => Some (Z.shiftr lhs (shift_amount rhs))
  | Ror => Some (rotate_right lhs (shift_amount rhs))
  | Rol => Some (rotate_left lhs (shift_amount rhs))
  | SLt => Some (bool_val (lhs <? rhs))
  | SLe => Some (bool_val (lhs <=? rhs))
  | SGt => Some (bool_val (rhs <? lhs))
  | SGe => Some (bool_val (rhs <=? lhs))
  | ULt => Some (bool_val (wrap64 lhs <? wrap64 rhs))
  | ULe => Some (bool_val (wrap64 lhs <=? wrap64 rhs))
  | UGt => Some (bool_val (wrap64 rhs <? wrap64 lhs))
  | UGe => Some (bool_val (wrap64 rhs <=? wrap64 lhs))
  | Eq => Some (bool_val (lhs =? rhs))
  | Ne => Some (bool_val (negb (lhs =? rhs)))
  end.

(** The bits of a word, as [leading_zeros], [trailing_zeros] and [count_ones] see them. *)
Fixpoint zeros_from (n : nat) (bit : Z → bool) (i : Z) : Z :=
  match n with
  | O => 0
  | S n => if bit i then 0 else 1 + zeros_from n bit (i + 1)
  end.

Definition try_fold_unaryop (op : UnaryOpKind) (operand : Z) : option Z :=
  Some match op with
       | Neg => as_i64 (- operand)
       | Not => Z.lnot operand
       | Clz => zeros_from 64 (λ i, Z.testbit operand (63 - i)) 0
       | Ctz => zeros_from 64 (λ i, Z.testbit operand i) 0
       | Popcnt => Z.of_nat (length (filter (λ i, Z.testbit operand i = true) (seqZ 0 64)))
       end.

Definition try_fold_cmp (kind : CmpKind) (lhs rhs : Z) : option Z :=
  Some (bool_val match kind with
    | Cmp_Eq => lhs =? rhs
    | Cmp_Ne => negb (lhs =? rhs)
    | Cmp_SLt => lhs <? rhs
    | Cmp_SLe => lhs <=? rhs
    | Cmp_SGt => rhs <? lhs
    | Cmp_SGe => rhs <=? lhs
    | Cmp_ULt => wrap64 lhs <? wrap64 rhs
    | Cmp_ULe => wrap64 lhs <=? wrap64 rhs
    | Cmp_UGt => wrap64 rhs <? wrap64 lhs
    | Cmp_UGe => wrap64 rhs <=? wrap64 lhs
    end).

(** ** Specification *)

Definition is_byte (z : Z) : Prop := 0 ≤ z < 256.

(** Lexicographic order on pairs of inputs. *)
Definition pair_before (p q : Z * Z) : Prop := p.1 < q.1 ∨ (p.1 = q.1 ∧ p.2 < q.2).

Definition divides (op : BinOpKind) : bool :=
  match op with SDiv | UDiv | SRem | URem => true | _ => false end.
Definition signed_division (op : BinOpKind) : bool :=
  match op with SDiv | SRem => true | _ => false end.

(** The operators that reading the low byte commutes with. *)
Definition ring_op (op : BinOpKind) : bool :=
  match op with Add | Sub | Mul | And | Or | Xor => true | _ => false end.

Definition unsound_name : string := "wave36_unsound_inc".

Definition same_layout (a b : StructFieldInfo) : Prop :=
  sf_offset a = sf_offset b ∧ sf_size a = sf_size b ∧ sf_type_name a = sf_type_name b.

(** ** Lemmas *)

Lemma modulo_256 : VERIFY_MODULO = 256.
Proof. done. Qed.

Lemma elem_of_bytes x : x ∈ bytes ↔ is_byte x.
Proof. unfold bytes, is_byte. rewrite elem_of_seqZ, modulo_256. lia. Qed.

Lemma lookup_bytes k x : bytes !! k = Some x ↔ x = Z.of_nat k ∧ (k < 256)%nat.
Proof. unfold bytes. rewrite lookup_seqZ, modulo_256. lia. Qed.

Lemma length_bytes : length bytes = 256%nat.
Proof. unfold bytes. by rewrite length_seqZ, modulo_256. Qed.

Lemma verify_loop_spec {A} name (inputs : A → list Z) p q xs c :
  let r := verify_loop name inputs p q xs c in
  (r = sound_result name (c + Z.of_nat (length xs)) ∧ Forall (λ x, p x = q x) xs) ∨
  (∃ pre x post, xs = pre ++ x :: post ∧ Forall (λ x, p x = q x) pre ∧ p x ≠ q x ∧
     r = unsound_result name (c + Z.of_nat (length pre) + 1) (inputs x)).
Proof.
  cbn zeta. revert c. induction xs as [|x xs IH]; intros c; simpl.
  - left. split; [f_equal; lia|constructor].
  - destruct (Z.eqb_spec (p x) (q x)) as [He|He]; simpl.
    + destruct (IH (c + 1)) as [[-> Hall]|(pre & y & post & -> & Hpre & Hy & ->)].
      * left. split; [f_equal; lia|by constructor].
      * right. exists (x :: pre), y, post. split; [done|]. split; [by constructor|].
        split; [done|]. simpl. f_equal. lia.
    + right. exists [], x, xs. split; [done|]. split; [constructor|]. split; [done|].
      simpl. f_equal. lia.
Qed.

Lemma list_prod_lookup {A B} (l : list A) (m : list B) i j a b :
  l !! i = Some a → m !! j = Some b → list_prod l m !! (i * length m + j)%nat = Some (a, b).
Proof.
  revert i. induction l as [|x l IH]; intros i Hi Hj; [done|]. simpl.
  pose proof (lookup_lt_Some _ _ _ Hj).
  destruct i as [|i]; simpl in Hi |- *.
  - injection Hi as <-. rewrite lookup_app_l by (rewrite length_map; lia).
    rewrite list_lookup_fmap, Hj. done.
  - rewrite lookup_app_r by (rewrite length_map; lia). rewrite length_map.
    replace (length m + i * length m + j - length m)%nat with (i * length m + j)%nat by lia.
    by apply IH.
Qed.

Lemma elem_of_byte_pairs x y : is_byte x → is_byte y → (x, y) ∈ byte_pairs.
Proof.
  intros Hx Hy. unfold byte_pairs. apply list_elem_of_In, in_prod_iff.
  rewrite <-!list_elem_of_In, !elem_of_bytes. done.
Qed.

Lemma lookup_byte_pairs k p :
  byte_pairs !! k = Some p →
  is_byte p.1 ∧ is_byte p.2 ∧ Z.of_nat k = 256 * p.1 + p.2.
Proof.
  intros Hk. pose proof (lookup_lt_Some _ _ _ Hk) as Hlt.
  unfold byte_pairs in *. rewrite length_prod, length_bytes in Hlt.
  pose proof (Nat.div_mod_eq k 256). pose proof (Nat.mod_upper_bound k 256 ltac:(lia)).
  assert (k / 256 < 256)%nat by (apply Nat.Div0.div_lt_upper_bound; lia).
  assert (bytes !! (k / 256)%nat = Some (Z.of_nat (k / 256))) as Hi
    by (apply lookup_bytes; lia).
  assert (bytes !! (k `mod` 256)%nat = Some (Z.of_nat (k `mod` 256))) as Hj
    by (apply lookup_bytes; lia).
  pose proof (list_prod_lookup _ _ _ _ _ _ Hi Hj) as Hp. rewrite length_bytes in Hp.
  rewrite (Nat.mul_comm _ 256), <-Nat.div_mod_eq in Hp.
  destruct p as [a b]. cbn [fst snd].
  assert (a = Z.of_nat (k / 256) ∧ b = Z.of_nat (k `mod` 256)) as [-> ->] by (split; congruence).
  unfold is_byte. lia.
Qed.

Lemma byte_pairs_before pre p post q :
  byte_pairs = pre ++ p :: post → is_byte q.1 → is_byte q.2 → pair_before q p → q ∈ pre.
Proof.
  intros Hs H1 H2 Hb.
  assert (byte_pairs !! length pre = Some p) as Hp
    by (rewrite Hs; by apply list_lookup_middle).
  destruct (lookup_byte_pairs _ _ Hp) as (P1 & P2 & P3).
  destruct q as [a b]. simpl in *.
  destruct (proj1 (list_elem_of_lookup _ _) (elem_of_byte_pairs a b H1 H2)) as [k Hk].
  destruct (lookup_byte_pairs _ _ Hk) as (_ & _ & Q3). simpl in Q3.
  unfold pair_before, is_byte in *. simpl in *.
  assert (k < length pre)%nat by lia.
  rewrite Hs, lookup_app_l in Hk by done. by eapply list_elem_of_lookup_2.
Qed.

(** *** Bytes and words *)

Lemma wrap64_byte x : wrap64 x `mod` 256 = x `mod` 256.
Proof. unfold wrap64. apply Z.mod_mod_divide. by exists (2 ^ 56). Qed.

Lemma byte_mod x : is_byte x → x `mod` 256 = x.
Proof. intros. by apply Z.mod_small. Qed.

Lemma wrap64_as_i64 z : wrap64 (as_i64 z) = wrap64 z.
Proof.
  unfold as_i64. case_match.
  - apply Z.mod_mod. lia.
  - unfold wrap64. rewrite <-(Z.mod_add (z `mod` 2 ^ 64 - 2 ^ 64) 1) by lia.
    rewrite Z.mul_1_l, Z.sub_add. apply Z.mod_mod. lia.
Qed.

Lemma as_i64_range z : is_i64 (as_i64 z).
Proof.
  unfold as_i64, is_i64. pose proof (wrap64_range z) as H. unfold is_u64 in H.
  destruct (Z.ltb_spec (wrap64 z) (2 ^ 63)); lia.
Qed.

Lemma as_i64_small z : is_i64 z → as_i64 z = z.
Proof.
  unfold is_i64, as_i64. intros H. destruct (Z.leb_spec 0 z).
  - rewrite wrap64_small by (unfold is_u64; lia). destruct (Z.ltb_spec z (2 ^ 63)); lia.
  - assert (wrap64 z = z + 2 ^ 64) as ->.
    { unfold wrap64. rewrite <-(Z.mod_add z 1) by lia. rewrite Z.mul_1_l. apply Z.mod_small. lia. }
    destruct (Z.ltb_spec (z + 2 ^ 64) (2 ^ 63)); lia.
Qed.

Lemma as_i64_wrap64 z : is_i64 z → as_i64 (wrap64 z) = z.
Proof.
  intros H. rewrite <-(as_i64_small z H) at 2. unfold as_i64, wrap64.
  by rewrite Z.mod_mod by lia.
Qed.

Lemma as_i64_byte z : as_i64 z `mod` 256 = z `mod` 256.
Proof. by rewrite <-wrap64_byte, wrap64_as_i64, wrap64_byte. Qed.

(** *** The rules *)

Ltac byte_rule :=
  unfold eval_binop; rewrite ?modulo_256, ?wrap64_byte, ?Z.lxor_nilpotent, ?Z.sub_diag,
    ?Z.lxor_0_r, ?Z.lor_0_r, ?Z.land_0_r, ?Z.land_0_l, ?Z.add_0_l, ?Z.add_0_r, ?Z.mul_0_l,
    ?Z.mul_0_r, ?Z.mul_1_l, ?Z.mul_1_r, ?Z.shiftl_0_r, ?Z.shiftr_0_r, ?Zmod_mod, ?byte_mod by done;
  try done; try (f_equal; lia).

Lemma eval_shra_zero x : is_byte x → eval_binop ShrA x 0 = x.
Proof.
  intros Hx. unfold eval_binop. rewrite modulo_256, byte_mod by done.
  destruct (negb _); [|by rewrite Z.shiftr_0_r, byte_mod].
  simpl (0 `mod` VERIFY_BITWIDTH). rewrite Z.eqb_refl, Z.lor_0_r, Z.shiftr_0_r.
  by apply byte_mod.
Qed.

Lemma rule_1var_sound name p q :
  (∀ x, is_byte x → p x = q x) → vr_sound (verify_rule_1var name p q) = true.
Proof.
  intros H. unfold verify_rule_1var.
  destruct (verify_loop_spec name (λ x, [x]) p q bytes 0)
    as [[-> _]|(pre & x & post & Hs & _ & Hx & _)]; [done|].
  destruct Hx. apply H, elem_of_bytes. rewrite Hs. apply elem_of_app. right. by left.
Qed.

Lemma rule_2var_sound name p q :
  (∀ x y, is_byte x → is_byte y → p x y = q x y) →
  vr_sound (verify_rule_2var name p q) = true.
Proof.
  intros H. unfold verify_rule_2var.
  destruct (verify_loop_spec name (λ p, [p.1; p.2]) (λ z, p z.1 z.2) (λ z, q z.1 z.2) byte_pairs 0)
    as [[-> _]|(pre & [x y] & post & Hs & _ & Hx & _)]; [done|].
  assert (byte_pairs !! length pre = Some (x, y)) as Hp
    by (rewrite Hs; by apply list_lookup_middle).
  apply lookup_byte_pairs in Hp as (? & ? & _). destruct Hx. by apply H.
Qed.

(** The exhaustive check is a decision procedure on bytes: a rule is reported
    sound exactly when both sides agree on all inputs, after [256] or [65536] cases;
    otherwise the counterexample is the first failing input, in lexicographic order
    for two variables, and the count is its position. *)
Theorem verify_rule_correct name :
  (∀ p q, let r := verify_rule_1var name p q in
     (vr_sound r = true ↔ ∀ x, is_byte x → p x = q x) ∧
     (vr_sound r = true → vr_cases_evaluated r = 256 ∧ vr_counterexample r = None) ∧
     (vr_sound r = false → ∃ x, is_byte x ∧ vr_counterexample r = Some [x] ∧ p x ≠ q x ∧
        vr_cases_evaluated r = x + 1 ∧ ∀ y, 0 ≤ y < x → p y = q y)) ∧
  (∀ p q, let r := verify_rule_2var name p q in
     (vr_sound r = true ↔ ∀ x y, is_byte x → is_byte y → p x y = q x y) ∧
     (vr_sound r = true → vr_cases_evaluated r = 65536 ∧ vr_counterexample r = None) ∧
     (vr_sound r = false → ∃ x y, is_byte x ∧ is_byte y ∧ vr_counterexample r = Some [x; y] ∧
        p x y ≠ q x y ∧ vr_cases_evaluated r = 256 * x + y + 1 ∧
        ∀ z, is_byte z.1 → is_byte z.2 → pair_before z (x, y) → p z.1 z.2 = q z.1 z.2)).
Proof.
  split; intros p q r.
  - split; [split; [|apply rule_1var_sound]|]; unfold r, verify_rule_1var;
      destruct (verify_loop_spec name (λ x, [x]) p q bytes 0)
        as [[-> Hall]|(pre & x & post & Hs & Hpre & Hx & ->)].
    + intros _ x Hx. rewrite Forall_forall in Hall. by apply Hall, elem_of_bytes.
    + discriminate.
    + rewrite length_bytes. done.
    + split; [discriminate|]. intros _.
      assert (bytes !! length pre = Some x) as Hk by (rewrite Hs; by apply list_lookup_middle).
      apply lookup_bytes in Hk as [-> Hlt]. exists (Z.of_nat (length pre)).
      split; [unfold is_byte; lia|]. split; [done|]. split; [done|]. split; [simpl; lia|].
      intros y Hy. rewrite Forall_forall in Hpre. apply Hpre.
      assert (bytes !! Z.to_nat y = Some y) as Hyk by (apply lookup_bytes; lia).
      rewrite Hs, lookup_app_l in Hyk by lia. by eapply list_elem_of_lookup_2.
  - split; [split; [|apply rule_2var_sound]|]; unfold r, verify_rule_2var;
      destruct (verify_loop_spec name (λ p, [p.1; p.2]) (λ z, p z.1 z.2) (λ z, q z.1 z.2)
        byte_pairs 0) as [[-> Hall]|(pre & [x y] & post & Hs & Hpre & Hx & ->)].
    + intros _ x y Hx Hy. rewrite Forall_forall in Hall.
      by apply (Hall (x, y)), elem_of_byte_pairs.
    + discriminate.
    + unfold byte_pairs. rewrite length_prod, length_bytes. done.
    + split; [discriminate|]. intros _.
      assert (byte_pairs !! length pre = Some (x, y)) as Hk
        by (rewrite Hs; by apply list_lookup_middle).
      apply lookup_byte_pairs in Hk as (H1 & H2 & H3). cbn [fst snd] in *. exists x, y.
      split; [done|]. split; [done|]. split; [done|]. split; [done|].
      split; [cbn [vr_cases_evaluated unsound_result]; lia|].
      intros z Hz1 Hz2 Hz. rewrite Forall_forall in Hpre. apply Hpre.
      by eapply byte_pairs_before.
Qed.

#[local] Opaque verify_rule_1var verify_rule_2var.

Lemma all_rules_sound : Forall (λ r, vr_sound r = true) verify_all_rules.
Proof.
  unfold verify_all_rules.
  repeat (apply Forall_cons; split); [..|by apply Forall_nil_2];
    lazymatch goal with
    | |- vr_sound (verify_rule_1var _ _ _) = _ => apply rule_1var_sound
    | |- _ => apply rule_2var_sound
    end; intros; try (by apply eval_shra_zero); byte_rule.
Qed.

#[local] Transparent verify_rule_1var.

Lemma unsound_rule :
  verify_rule_1var unsound_name (λ x, eval_binop Add x 1) (λ x, x) =
  unsound_result unsound_name 1 [0].
Proof.
  unfold verify_rule_1var. assert (bytes = 0 :: tail bytes) as -> by reflexivity. reflexivity.
Qed.

#[local] Opaque verify_rule_1var.

Lemma first_unsound_Ok results :
  Forall (λ r, vr_sound r = true) results → first_unsound results = Ok tt.
Proof. induction 1 as [|r l Hr _ IH]; [done|]. simpl. by rewrite Hr. Qed.

Lemma insert_results_lookup results table k r :
  foldl insert_result table results !! k = Some r → r ∈ results ∨ table !! k = Some r.
Proof.
  revert table. induction results as [|a l IH]; intros table; simpl; [by right|].
  intros [H|H]%IH; [left; by right|]. unfold insert_result in H.
  apply lookup_insert_Some in H as [[_ ->]|[_ H]]; [left; by left|by right].
Qed.

Lemma gate_table_eq :
  gate_table = <[unsound_name := unsound_result unsound_name 1 [0]]>
    (foldl insert_result ∅ verify_all_rules).
Proof.
  unfold gate_table, known_unsound_test_rules. fold unsound_name. rewrite unsound_rule.
  generalize (foldl insert_result ∅ verify_all_rules). intros table. done.
Qed.

Lemma gate_table_unsound : gate_table !! unsound_name = Some (unsound_result unsound_name 1 [0]).
Proof. rewrite gate_table_eq. apply lookup_insert_eq. Qed.

Lemma gate_table_sound k r : k ≠ unsound_name → gate_table !! k = Some r → vr_sound r = true.
Proof.
  intros Hk. rewrite gate_table_eq, lookup_insert_ne by done.
  intros [H|H]%insert_results_lookup.
  - pose proof all_rules_sound as Hall. rewrite Forall_forall in Hall. by apply Hall.
  - by rewrite lookup_empty in H.
Qed.

#[local] Opaque gate_table.

Lemma gate_loop_spec rules :
  verify_rules_with_counterexample rules =
  if bool_decide (unsound_name ∈ rules)
  then Err {| ce_rule_name := unsound_name; ce_inputs := [0] |} else Ok tt.
Proof.
  unfold verify_rules_with_counterexample.
  induction rules as [|rule rules IH]; [reflexivity|]. cbn [gate_loop].
  destruct (decide (rule = unsound_name)) as [->|Hne].
  - rewrite gate_table_unsound, bool_decide_true by (by left). done.
  - assert (bool_decide (unsound_name ∈ rule :: rules) = bool_decide (unsound_name ∈ rules))
      as -> by (apply bool_decide_ext; rewrite elem_of_cons; naive_solver).
    destruct (gate_table !! rule) as [r|] eqn:E; [|exact IH].
    by rewrite (gate_table_sound _ _ Hne E).
Qed.

(** Every rule of the table passes its exhaustive check, so [assert_all_rules_sound]
    succeeds and all 19 count as verified; and the gate in front of saturation rejects
    a rule set exactly when it holds the one rule known to be wrong, with that rule
    and the input 0 as the counterexample: any other rule is let through. *)
Theorem bv_gate_correct :
  Forall (λ r, vr_sound r = true) verify_all_rules ∧
  assert_all_rules_sound = Ok tt ∧ count_verified = (19, 19)%nat ∧
  ∀ rules, verify_rules_with_counterexample rules =
    if bool_decide (unsound_name ∈ rules)
    then Err {| ce_rule_name := unsound_name; ce_inputs := [0] |} else Ok tt.
Proof.
  split; [apply all_rules_sound|]. split; [apply first_unsound_Ok, all_rules_sound|].
  split; [|apply gate_loop_spec].
  unfold count_verified. rewrite filter_true_elem; [reflexivity|].
  intros r Hr. pose proof all_rules_sound as Hall. rewrite Forall_forall in Hall. by apply Hall.
Qed.

(** *** Folding *)

Lemma is_i64_shiftr z : is_i64 z ↔ Z.shiftr z 63 = 0 ∨ Z.shiftr z 63 = -1.
Proof.
  rewrite Z.shiftr_div_pow2 by lia. unfold is_i64.
  pose proof (Z.div_mod z (2 ^ 63) ltac:(lia)). pose proof (Z.mod_pos_bound z (2 ^ 63) ltac:(lia)).
  nia.
Qed.

Lemma land_i64 x y : is_i64 x → is_i64 y → is_i64 (Z.land x y).
Proof. rewrite !is_i64_shiftr, Z.shiftr_land. by intros [-> | ->] [-> | ->]; auto. Qed.
Lemma lor_i64 x y : is_i64 x → is_i64 y → is_i64 (Z.lor x y).
Proof. rewrite !is_i64_shiftr, Z.shiftr_lor. by intros [-> | ->] [-> | ->]; auto. Qed.
Lemma lxor_i64 x y : is_i64 x → is_i64 y → is_i64 (Z.lxor x y).
Proof. rewrite !is_i64_shiftr, Z.shiftr_lxor. by intros [-> | ->] [-> | ->]; auto. Qed.

Lemma bool_val_i64 b : is_i64 (bool_val b).
Proof. unfold is_i64. destruct b; simpl; lia. Qed.

Lemma shiftr_i64 x n : is_i64 x → 0 ≤ n → is_i64 (Z.shiftr x n).
Proof.
  unfold is_i64. intros Hx Hn. rewrite Z.shiftr_div_pow2 by done.
  assert (0 < 2 ^ n) by (apply Z.pow_pos_nonneg; lia).
  split; [apply Z.div_le_lower_bound; nia|apply Z.div_lt_upper_bound; nia].
Qed.

Lemma shift_amount_range rhs : 0 ≤ shift_amount rhs < 64.
Proof. apply Z.mod_pos_bound. lia. Qed.

Lemma i64_overflows_spec l r : i64_overflows l r = true ↔ l = - 2 ^ 63 ∧ r = -1.
Proof. unfold i64_overflows. rewrite andb_true_iff, !Z.eqb_eq. done. Qed.

Lemma quot_i64 l r : is_i64 l → r ≠ 0 → i64_overflows l r = false → is_i64 (Z.quot l r).
Proof.
  intros Hl Hr Ho. assert (¬ (l = - 2 ^ 63 ∧ r = -1)) as Hn
    by (rewrite <-i64_overflows_spec, Ho; done).
  unfold is_i64 in *. Z.to_euclidean_division_equations. nia.
Qed.

Lemma rem_i64 l r : is_i64 r → r ≠ 0 → is_i64 (Z.rem l r).
Proof. intros Hr Hr0. unfold is_i64 in *. pose proof (Z.rem_bound_abs l r Hr0). lia. Qed.

#[local] Hint Resolve as_i64_range land_i64 lor_i64 lxor_i64 bool_val_i64 quot_i64 rem_i64 : vuma.

Lemma fold_binop_int_i64 op l r z :
  is_i64 l → is_i64 r → try_fold_binop_int op l r = Some z → is_i64 z.
Proof.
  intros Hl Hr. pose proof (shift_amount_range r).
  destruct op; simpl; unfold rotate_right, rotate_left; try (intros [= <-]; by auto with vuma).
  1-4: destruct (Z.eqb_spec r 0) as [->|Hr0]; [done|].
  1,3: destruct (i64_overflows l r) eqn:Ho; [done|].
  1-4: intros [= <-]; by auto with vuma.
  intros [= <-]. apply shiftr_i64; [done|lia].
Qed.

Lemma fold_unaryop_i64 op o z : is_i64 o → try_fold_unaryop op o = Some z → is_i64 z.
Proof.
  assert (∀ n bit i, 0 ≤ zeros_from n bit i ≤ Z.of_nat n) as Hz.
  { induction n as [|n IH]; intros bit i; cbn [zeros_from]; [lia|].
    destruct (bit i); [lia|]. specialize (IH bit (i + 1)). lia. }
  intros Ho H. unfold try_fold_unaryop in H. apply Some_inj in H as <-.
  destruct op.
  - apply as_i64_range.
  - unfold is_i64, Z.lnot in *. lia.
  - pose proof (Hz 64%nat (λ i, Z.testbit o (63 - i)) 0). unfold is_i64. lia.
  - pose proof (Hz 64%nat (λ i, Z.testbit o i) 0). unfold is_i64. lia.
  - pose proof (length_filter (λ i, Z.testbit o i = true) (seqZ 0 64)) as Hl.
    rewrite length_seqZ in Hl. unfold is_i64. lia.
Qed.

(** The constant folder stays inside the machine's integers: on [i64] operands it
    gives an [i64] for every operator, and gives up exactly on a division or remainder
    by zero and on the one signed quotient that does not fit, [i64::MIN / -1]. *)
Theorem try_fold_binop_int_total op l r :
  is_i64 l → is_i64 r →
  (∀ z, try_fold_binop_int op l r = Some z → is_i64 z) ∧
  (try_fold_binop_int op l r = None ↔
     divides op = true ∧ (r = 0 ∨ (signed_division op = true ∧ l = - 2 ^ 63 ∧ r = -1))).
Proof.
  intros Hl Hr. split; [intros z; by apply fold_binop_int_i64|].
  destruct op; simpl; try (split; [done|by intros [? _]]).
  1-4: destruct (Z.eqb_spec r 0) as [->|Hr0]; [split; [auto|done]|].
  1,3: pose proof (i64_overflows_spec l r); destruct (i64_overflows l r); intuition done.
  1,2: split; [done|]; by intros [_ [?|[? _]]].
Qed.

Lemma try_fold_binop_int_total_witness :
  is_i64 5 ∧ is_i64 3 ∧ (∀ z, try_fold_binop_int SDiv 5 3 = Some z → is_i64 z).
Proof.
  split; [unfold is_i64; lia|]. split; [unfold is_i64; lia|].
  apply (try_fold_binop_int_total SDiv 5 3); unfold is_i64; lia.
Defined.

Lemma low_bits z n : (n < 8) → Z.testbit (wrap64 z) n = Z.testbit z n.
Proof.
  intros Hn. unfold wrap64. destruct (Z.leb_spec 0 n).
  - apply Z.mod_pow2_bits_low. lia.
  - by rewrite !Z.testbit_neg_r.
Qed.

Lemma low_byte_bits x y :
  (∀ n, n < 8 → Z.testbit x n = Z.testbit y n) → x `mod` 256 = y `mod` 256.
Proof.
  intros H. change 256 with (2 ^ 8). apply Z.bits_inj'. intros n Hn.
  destruct (Z.ltb_spec n 8).
  - rewrite !Z.mod_pow2_bits_low by done. by apply H.
  - by rewrite !Z.mod_pow2_bits_high by lia.
Qed.

Lemma merge_fields_none i l r :
  length l = length r → merge_fields i l r = None ↔ Forall2 same_layout l r.
Proof.
  revert i r. induction l as [|a l IH]; intros i [|b r] Hlen; try done.
  injection Hlen as Hlen. simpl. rewrite Forall2_cons. unfold same_layout at 1.
  destruct (Z.eqb_spec (sf_offset a) (sf_offset b)); simpl; [|naive_solver].
  destruct (Z.eqb_spec (sf_size a) (sf_size b)); simpl; [|naive_solver].
  destruct (String.eqb_spec (sf_type_name a) (sf_type_name b)); simpl; [|naive_solver].
  rewrite IH by done. naive_solver.
Qed.

Lemma merge_none l r : state_merge_compatible_layouts l r = None ↔ Forall2 same_layout l r.
Proof.
  unfold state_merge_compatible_layouts. destruct (Nat.eqb_spec (length l) (length r)) as [H|H].
  - by apply merge_fields_none.
  - split; [done|]. intros H2%Forall2_length. done.
Qed.

(** The rules the gate certifies on bytes hold for the 64-bit folder as well: on
    every [i64] both sides of each arithmetic rule fold to the same word.  And for the
    ring and bitwise operators the byte evaluator is the folder's low byte; for
    rotations to the left it is not, since it rotates them to the right. *)
Theorem rules_sound_on_words x y :
  is_i64 x → is_i64 y →
  (try_fold_binop_int Xor x x = Some 0 ∧ try_fold_binop_int Sub x x = Some 0 ∧
   try_fold_binop_int Add 0 x = Some x ∧ try_fold_binop_int Add x 0 = Some x ∧
   try_fold_binop_int Mul 0 x = Some 0 ∧ try_fold_binop_int Mul x 0 = Some 0 ∧
   try_fold_binop_int Mul 1 x = Some x ∧ try_fold_binop_int Mul x 1 = Some x ∧
   try_fold_binop_int Mul x 2 = try_fold_binop_int Add x x ∧
   try_fold_binop_int Mul 2 x = try_fold_binop_int Add x x ∧
   try_fold_binop_int And 0 x = Some 0 ∧ try_fold_binop_int And x 0 = Some 0 ∧
   try_fold_binop_int Or x 0 = Some x ∧ try_fold_binop_int Xor x 0 = Some x ∧
   try_fold_binop_int ShrL x 0 = Some x ∧ try_fold_binop_int ShrA x 0 = Some x ∧
   try_fold_binop_int Shl x 0 = Some x) ∧
  (∀ op z, ring_op op = true → try_fold_binop_int op x y = Some z →
     eval_binop op (wrap64 x) (wrap64 y) = z `mod` 256) ∧
  (eval_binop Rol 1 1 = 128 ∧ try_fold_binop_int Rol 1 1 = Some 2).
Proof.
  intros Hx Hy. split; [|split; [|done]].
  - unfold try_fold_binop_int. change (shift_amount 0) with 0.
    rewrite Z.lxor_nilpotent, Z.sub_diag, Z.add_0_l, Z.add_0_r, Z.mul_0_l, Z.mul_0_r, Z.mul_1_l,
      Z.mul_1_r, Z.land_0_l, Z.land_0_r, Z.lor_0_r, Z.lxor_0_r, !Z.shiftr_0_r, Z.shiftl_0_r.
    rewrite as_i64_wrap64, !(as_i64_small x) by done.
    replace (x * 2) with (x + x) by lia. replace (2 * x) with (x + x) by lia. done.
  - intros op z Hop Hz. destruct op; try done; simpl in Hz; injection Hz as <-;
      unfold eval_binop; rewrite modulo_256, ?as_i64_byte, ?wrap64_byte.
    + by rewrite Z.add_mod, !wrap64_byte, <-Z.add_mod.
    + by rewrite Zminus_mod, !wrap64_byte, <-Zminus_mod.
    + by rewrite Z.mul_mod, !wrap64_byte, <-Z.mul_mod.
    + apply low_byte_bits. intros n ?. by rewrite !Z.land_spec, !low_bits.
    + apply low_byte_bits. intros n ?. by rewrite !Z.lor_spec, !low_bits.
    + apply low_byte_bits. intros n ?. by rewrite !Z.lxor_spec, !low_bits.
Qed.

Lemma rules_sound_on_words_witness :
  is_i64 (-7) ∧ is_i64 300 ∧ try_fold_binop_int Mul (-7) 2 = try_fold_binop_int Add (-7) (-7).
Proof.
  split; [unfold is_i64; lia|]. split; [unfold is_i64; lia|].
  apply (rules_sound_on_words (-7) 300); unfold is_i64; lia.
Defined.

(** [state_merge_compatible_layouts] accepts two layouts exactly when they have the
    same number of fields and agree, field by field, on offset, size and type; so
    acceptance is an equivalence relation. *)
Theorem state_merge_spec l r :
  (state_merge_compatible_layouts l r = None ↔ Forall2 same_layout l r) ∧
  state_merge_compatible_layouts l l = None ∧
  (state_merge_compatible_layouts l r = None → state_merge_compatible_layouts r l = None) ∧
  (∀ m, state_merge_compatible_layouts l m = None → state_merge_compatible_layouts m r = None →
     state_merge_compatible_layouts l r = None).
Proof.
  split; [apply merge_none|]. split; [|split].
  - apply merge_none, Forall_Forall2_diag, Forall_true. by intros [].
  - rewrite !merge_none. intros H. apply Forall2_flip. eapply Forall2_impl; [exact H|].
    unfold same_layout. intuition congruence.
  - intros m. rewrite !merge_none. intros Hlm. revert r.
    induction Hlm as [|a b la lb Hab _ IH]; intros r Hmr; inversion Hmr; subst; constructor;
      [|by apply IH]. unfold same_layout in *. intuition congruence.
Qed.

Lemma state_merge_spec_witness :
  state_merge_compatible_layouts
    [{| sf_name := "a"; sf_type_name := "u32"; sf_offset := 0; sf_size := 4 |}]
    [{| sf_name := "b"; sf_type_name := "u32"; sf_offset := 0; sf_size := 4 |}] = None.
Proof.
  apply (state_merge_spec
    [{| sf_name := "b"; sf_type_name := "u32"; sf_offset := 0; sf_size := 4 |}]
    [{| sf_name := "a"; sf_type_name := "u32"; sf_offset := 0; sf_size := 4 |}]). reflexivity.
Defined.
