(* ===== verification/Float.v ===== *)
(** * IEEE 754 words

    What the constant folder of [src/src/codegen/src/opt.rs] uses of Rust's [f32] and
    [f64]: [from_bits] and [to_bits], arithmetic and comparison on [f64], the [as]
    conversions.  The values and their operations are the Standard Library's
    specification of floating-point numbers; only the bit patterns are added here.  Rust
    leaves open which not-a-number an operation gives, so its bits are an argument. *)

From S2P Require Import Prelude.
From Stdlib Require Export Floats.SpecFloat.
From stdpp Require Import options.
#[local] Open Scope Z_scope.

(** A format has [mw] mantissa bits and [ew] exponent bits. *)
Definition prec (mw : Z) : Z := mw + 1.
Definition emax (ew : Z) : Z := 2 ^ (ew - 1).
Definition min_exp (mw ew : Z) : Z := 3 - emax ew - prec mw.

Definition join_bits (mw ew : Z) (s : bool) (e m : Z) : Z :=
  (if s then 2 ^ (mw + ew) else 0) + e * 2 ^ mw + m.

Definition of_bits (mw ew b : Z) : spec_float :=
  let m := b `mod` 2 ^ mw in
  let e := (b / 2 ^ mw) `mod` 2 ^ ew in
  let s := 2 ^ (mw + ew) <=? b in
  if e =? 2 ^ ew - 1 then if m =? 0 then S754_infinity s else S754_nan
  else if e =? 0 then
    match m with Z.pos p => S754_finite s p (min_exp mw ew) | _ => S754_zero s end
  else S754_finite s (Z.to_pos (m + 2 ^ mw)) (e + min_exp mw ew - 1).

Definition to_bits (mw ew nan : Z) (f : spec_float) : Z :=
  match f with
  | S754_zero s => join_bits mw ew s 0 0
  | S754_infinity s => join_bits mw ew s (2 ^ ew - 1) 0
  | S754_nan => nan
  | S754_finite s p e =>
      if Z.pos p <? 2 ^ mw then join_bits mw ew s 0 (Z.pos p)
      else join_bits mw ew s (e - min_exp mw ew + 1) (Z.pos p - 2 ^ mw)
  end.

Definition f64_of_bits : Z → spec_float := of_bits 52 11.
Definition f32_of_bits : Z → spec_float := of_bits 23 8.

(** The bits of the not-a-numbers the host produces. *)
Record NanBits := { nan64 : Z; nan32 : Z }.
Definition f64_to_bits (n : NanBits) : spec_float → Z := to_bits 52 11 (nan64 n).
Definition f32_to_bits (n : NanBits) : spec_float → Z := to_bits 23 8 (nan32 n).

Definition f64_add := SFadd 53 1024.
Definition f64_sub := SFsub 53 1024.
Definition f64_mul := SFmul 53 1024.
Definition f64_div := SFdiv 53 1024.

(** [f as f32] rounds to nearest even; [f as f64] is exact. *)
Definition narrow (f : spec_float) : spec_float :=
  match f with
  | S754_finite s p e => binary_round 24 128 s p e
  | _ => f
  end.
Definition widen (f : spec_float) : spec_float :=
  match f with
  | S754_finite s p e => binary_round 53 1024 s p e
  | _ => f
  end.

(** [v as f64] for an integer, and the saturating [f as i64] and [f as u64]. *)
Definition f64_of_int (v : Z) : spec_float := binary_normalize 53 1024 v 0 false.

Definition trunc (s : bool) (p : positive) (e : Z) : Z :=
  cond_Zopp s (Z.shiftl (Z.pos p) e).

Definition clamp (lo hi z : Z) : Z := Z.max lo (Z.min hi z).

Definition f64_to_int (lo hi : Z) (f : spec_float) : Z :=
  match f with
  | S754_nan | S754_zero _ => 0
  | S754_infinity s => if s then lo else hi
  | S754_finite s p e => clamp lo hi (trunc s p e)
  end.

(** The bit patterns of numbers. *)
Definition is_nan (mw ew b : Z) : Prop :=
  (b / 2 ^ mw) `mod` 2 ^ ew = 2 ^ ew - 1 ∧ b `mod` 2 ^ mw ≠ 0.

(** Reading a word as a number and writing the number back gives the word, unless it is
    a not-a-number. *)
Lemma bits_roundtrip mw ew nan b :
  0 < mw → 1 < ew → 0 ≤ b < 2 ^ (mw + ew + 1) → ¬ is_nan mw ew b →
  to_bits mw ew nan (of_bits mw ew b) = b.
Proof.
  intros Hm He Hb Hn. unfold of_bits, is_nan in *.
  set (m := b `mod` 2 ^ mw) in *. set (q := b / 2 ^ mw) in *. set (e := q `mod` 2 ^ ew) in *.
  assert (0 < 2 ^ mw ∧ 1 < 2 ^ ew) as [HM HE]
    by (split; [apply Z.pow_pos_nonneg|apply Z.pow_gt_1]; lia).
  assert (2 ^ (mw + ew) = 2 ^ mw * 2 ^ ew) as Hs by (rewrite Z.pow_add_r; lia).
  assert (2 ^ (mw + ew + 1) = 2 * (2 ^ mw * 2 ^ ew)) as Hs1
    by (rewrite Z.pow_add_r, Hs by lia; lia).
  pose proof (Z.div_mod b (2 ^ mw) ltac:(lia)) as Hbq. fold q m in Hbq.
  pose proof (Z.mod_pos_bound b (2 ^ mw) HM) as Hmr. fold m in Hmr.
  pose proof (Z.div_mod q (2 ^ ew) ltac:(lia)) as Hqe. fold e in Hqe.
  pose proof (Z.mod_pos_bound q (2 ^ ew) ltac:(lia)) as Her. fold e in Her.
  assert (b = (if 2 ^ (mw + ew) <=? b then 2 ^ (mw + ew) else 0) + e * 2 ^ mw + m) as Hj.
  { assert (q / 2 ^ ew = 0 ∨ q / 2 ^ ew = 1) as Hq2 by nia.
    destruct (Z.leb_spec (2 ^ (mw + ew)) b); destruct Hq2 as [Hq2|Hq2]; rewrite Hq2 in Hqe; nia. }
  destruct (Z.eqb_spec e (2 ^ ew - 1)) as [Hinf|Hfin].
  - destruct (Z.eqb_spec m 0); [|tauto]. unfold to_bits, join_bits. lia.
  - destruct (Z.eqb_spec e 0) as [He0|He0].
    + destruct m as [|p|p] eqn:Em; [| |lia]; unfold to_bits, join_bits; [lia|].
      rewrite (proj2 (Z.ltb_lt _ _)) by lia. lia.
    + unfold to_bits, join_bits. rewrite Z2Pos.id by lia.
      rewrite (proj2 (Z.ltb_ge _ _)) by lia. lia.
Qed.

Lemma f64_bits_roundtrip n b :
  is_u64 b → ¬ is_nan 52 11 b → f64_to_bits n (f64_of_bits b) = b.
Proof. intros. by apply bits_roundtrip. Qed.

Lemma f32_bits_roundtrip n b :
  is_u32 b → ¬ is_nan 23 8 b → f32_to_bits n (f32_of_bits b) = b.
Proof. intros. by apply bits_roundtrip. Qed.
