(* ===== verification/Opt.v ===== *)
(** * Local optimisation passes

    Models [src/src/codegen/src/opt.rs]: substitution in instructions and terminators,
    folding of instructions on immediates, constant folding, common-subexpression
    elimination and dead-code elimination, with the predicates they use.  A [HashMap]
    from registers to values is a [gmap]; the map from expression keys to values is an
    association list, searched for the key (keys are inserted once). *)

From S2P Require Import Prelude Ir BvVerify Float.
From stdpp Require Import options.
#[local] Open Scope Z_scope.

(** ** Substitution *)

Definition substitute_value (m : gmap Z IRValue) (val : IRValue) : IRValue :=
  match val with
  | Register id => match m !! id with Some replacement => replacement | None => val end
  | _ => val
  end.

Definition substitute_instr (m : gmap Z IRValue) (i : IRInstr) : IRInstr :=
  let sv := substitute_value m in
  match i with
  | I_Load dst addr offset ty => I_Load (sv dst) (sv addr) offset ty
  | I_Store value addr offset ty => I_Store (sv value) (sv addr) offset ty
  | I_BinOp op dst lhs rhs ty => I_BinOp op (sv dst) (sv lhs) (sv rhs) ty
  | I_UnaryOp op dst operand ty => I_UnaryOp op (sv dst) (sv operand) ty
  | I_Call dst func args is_extern => I_Call (sv <$> dst) func (sv <$> args) is_extern
  | I_Alloc dst size => I_Alloc (sv dst) size
  | I_Free ptr => I_Free (sv ptr)
  | I_Cast kind dst src from_ty to_ty => I_Cast kind (sv dst) (sv src) from_ty to_ty
  | I_Phi dst incoming => I_Phi (sv dst) (prod_map sv id <$> incoming)
  | I_GetAddress dst name => I_GetAddress (sv dst) name
  | I_Offset dst base offset => I_Offset (sv dst) (sv base) (sv offset)
  | I_Select dst cond true_val false_val ty =>
      I_Select (sv dst) (sv cond) (sv true_val) (sv false_val) ty
  | I_Add dst lhs rhs ty => I_Add (sv dst) (sv lhs) (sv rhs) ty
  | I_Sub dst lhs rhs ty => I_Sub (sv dst) (sv lhs) (sv rhs) ty
  | I_Mul dst lhs rhs ty => I_Mul (sv dst) (sv lhs) (sv rhs) ty
  | I_Div dst lhs rhs ty => I_Div (sv dst) (sv lhs) (sv rhs) ty
  | I_Cmp kind dst lhs rhs ty => I_Cmp kind (sv dst) (sv lhs) (sv rhs) ty
  | I_Ret values => I_Ret (sv <$> values)
  | I_Branch target => I_Branch target
  | I_CondBranch cond true_target false_target => I_CondBranch (sv cond) true_target false_target
  | I_CtSelect dst cond true_val false_val ty =>
      I_CtSelect (sv dst) (sv cond) (sv true_val) (sv false_val) ty
  | I_CtEq dst lhs rhs ty => I_CtEq (sv dst) (sv lhs) (sv rhs) ty
  | I_AtomicLoad dst addr ty => I_AtomicLoad (sv dst) (sv addr) ty
  | I_AtomicStore value addr ty => I_AtomicStore (sv value) (sv addr) ty
  | I_AtomicCas dst addr expected desired ty =>
      I_AtomicCas (sv dst) (sv addr) (sv expected) (sv desired) ty
  | I_Syscall nr args dst => I_Syscall nr (sv <$> args) (sv <$> dst)
  | I_VectorOp op lanes elem_size dst lhs rhs =>
      I_VectorOp op lanes elem_size (sv dst) (sv lhs) (sv rhs)
  | I_ChannelOpen dst elem_ty => I_ChannelOpen dst elem_ty
  | I_ChannelSend ch msg ty => I_ChannelSend ch (sv msg) ty
  | I_ChannelRecv ch dst ty => I_ChannelRecv ch dst ty
  | I_ChannelRecvTimeout ch dst ty timeout_ms => I_ChannelRecvTimeout ch dst ty timeout_ms
  | I_ChannelRecvResult ch dst err_dst ty => I_ChannelRecvResult ch dst err_dst ty
  | I_ChannelClose ch => I_ChannelClose ch
  | I_StarkProof input dst constraints => I_StarkProof (sv input) (sv dst) constraints
  | I_CallIndirect dst func_ptr args => I_CallIndirect dst (sv func_ptr) (sv <$> args)
  | I_BulkCopy dst src len => I_BulkCopy (sv dst) (sv src) (sv len)
  | I_BulkFill dst val len => I_BulkFill (sv dst) (sv val) (sv len)
  | I_Transform dst src from_layout to_layout =>
      I_Transform (sv dst) (sv src) from_layout to_layout
  end.

Definition substitute_terminator (m : gmap Z IRValue) (t : IRTerminator) : IRTerminator :=
  let sv := substitute_value m in
  match t with
  | T_Return values => T_Return (sv <$> values)
  | T_Branch cond true_block false_block => T_Branch (sv cond) true_block false_block
  | T_Switch discr targets dflt => T_Switch (sv discr) targets dflt
  | T_Invoke dst func args normal unwind =>
      T_Invoke (sv <$> dst) func (sv <$> args) normal unwind
  | T_TailCall func args => T_TailCall func (sv <$> args)
  | T_Resume value => T_Resume (sv value)
  | T_Jump target => T_Jump target
  | T_Unreachable => T_Unreachable
  end.

(** ** Folding *)

(** An operand of a float operation: for [F64] its bits; for [F32] its bits when they fit
    in 32 bits and the bits of an [f64] to round otherwise. *)
Definition float_operand (is_f64 : bool) (v : Z) : spec_float :=
  if is_f64 then f64_of_bits (wrap64 v)
  else if wrap64 v <=? U32_MAX then widen (f32_of_bits (wrap32 v))
  else widen (narrow (f64_of_bits (wrap64 v))).

Definition float_result (n : NanBits) (is_f64 : bool) (f : spec_float) : Z :=
  if is_f64 then as_i64 (f64_to_bits n f) else f32_to_bits n (narrow f).

Definition float_binop (n : NanBits) (is_f64 : bool) (op : BinOpKind) (lhs rhs : Z) : option Z :=
  let lf := float_operand is_f64 lhs in
  let rf := float_operand is_f64 rhs in
  match op with
  | Add => Some (float_result n is_f64 (f64_add lf rf))
  | Sub => Some (float_result n is_f64 (f64_sub lf rf))
  | Mul => Some (float_result n is_f64 (f64_mul lf rf))
  | SDiv | UDiv => Some (float_result n is_f64 (f64_div lf rf))
  | SLt | ULt => Some (bool_val (SFltb lf rf))
  | SLe | ULe => Some (bool_val (SFleb lf rf))
  | SGt | UGt => Some (bool_val (SFltb rf lf))
  | SGe | UGe => Some (bool_val (SFleb rf lf))
  | Eq => Some (bool_val (SFeqb lf rf))
  | Ne => Some (bool_val (negb (SFeqb lf rf)))
  | _ => try_fold_binop_int op lhs rhs
  end.

Definition try_fold_binop (n : NanBits) (op : BinOpKind) (lhs rhs : Z) (ty : option IRType) :
    option Z :=
  match ty with
  | Some F32 => float_binop n false op lhs rhs
  | Some F64 => float_binop n true op lhs rhs
  | _ => try_fold_binop_int op lhs rhs
  end.

Definition fold_cast (n : NanBits) (kind : CastKind) (from_ty to_ty : option IRType) (v : Z) : Z :=
  match kind with
  | IntToFloat => as_i64 (f64_to_bits n (f64_of_int v))
  | UIntToFloat => as_i64 (f64_to_bits n (f64_of_int (wrap64 v)))
  | FloatToInt => f64_to_int (- 2 ^ 63) (2 ^ 63 - 1) (f64_of_bits (wrap64 v))
  | FloatToUInt => as_i64 (f64_to_int 0 U64_MAX (f64_of_bits (wrap64 v)))
  | FloatToFloat =>
      match from_ty, to_ty with
      | Some F32, Some F64 => as_i64 (f64_to_bits n (widen (f32_of_bits (wrap32 v))))
      | Some F64, Some F32 => f32_to_bits n (narrow (f64_of_bits (wrap64 v)))
      | _, _ => v
      end
  | ZExt | SExt | Trunc | BitCast => v
  end.

(** The second arm for [BinOp] in the source is never reached. *)
Definition try_fold_instruction (n : NanBits) (i : IRInstr) : option (Z * Z) :=
  match i with
  | I_BinOp op dst lhs rhs ty =>
      l ← as_immediate lhs; r ← as_immediate rhs; dst_id ← as_register dst;
      result ← try_fold_binop n op l r ty;
      Some (dst_id, result)
  | I_UnaryOp op dst operand _ =>
      o ← as_immediate operand; dst_id ← as_register dst;
      result ← try_fold_unaryop op o;
      Some (dst_id, result)
  | I_Add dst lhs rhs _ =>
      l ← as_immediate lhs; r ← as_immediate rhs; dst_id ← as_register dst;
      Some (dst_id, as_i64 (l + r))
  | I_Sub dst lhs rhs _ =>
      l ← as_immediate lhs; r ← as_immediate rhs; dst_id ← as_register dst;
      Some (dst_id, as_i64 (l - r))
  | I_Mul dst lhs rhs _ =>
      l ← as_immediate lhs; r ← as_immediate rhs; dst_id ← as_register dst;
      Some (dst_id, as_i64 (l * r))
  | I_Div dst lhs rhs _ =>
      l ← as_immediate lhs; r ← as_immediate rhs;
      if r =? 0 then None else
      dst_id ← as_register dst;
      if i64_overflows l r then None else Some (dst_id, Z.quot l r)
  | I_Cast kind dst src from_ty to_ty =>
      v ← as_immediate src; dst_id ← as_register dst;
      Some (dst_id, fold_cast n kind from_ty to_ty v)
  | _ => None
  end.

(** ** Predicates on instructions *)

Definition has_side_effects (i : IRInstr) : bool :=
  match i with
  | I_Store _ _ _ _ | I_AtomicStore _ _ _ | I_AtomicLoad _ _ _ | I_AtomicCas _ _ _ _ _
  | I_Call _ _ _ _ | I_Syscall _ _ _ | I_Free _ | I_Ret _ | I_Branch _ | I_CondBranch _ _ _
  | I_ChannelOpen _ _ | I_ChannelSend _ _ _ | I_ChannelRecv _ _ _
  | I_ChannelRecvTimeout _ _ _ _ | I_ChannelRecvResult _ _ _ _ | I_ChannelClose _
  | I_StarkProof _ _ _ => true
  | I_BinOp op _ _ _ _ => divides op
  | I_Div _ _ _ _ => true
  | _ => false
  end.

Definition is_safe_to_speculate (i : IRInstr) : bool :=
  match i with
  | I_BinOp op _ _ _ _ => negb (divides op)
  | I_Div _ _ _ _ | I_Load _ _ _ _ | I_Store _ _ _ _ | I_AtomicLoad _ _ _
  | I_AtomicStore _ _ _ | I_AtomicCas _ _ _ _ _ | I_Call _ _ _ _ | I_Syscall _ _ _
  | I_Free _ | I_Alloc _ _ | I_Ret _ | I_Branch _ | I_CondBranch _ _ _
  | I_ChannelOpen _ _ | I_ChannelSend _ _ _ | I_ChannelRecv _ _ _
  | I_ChannelRecvTimeout _ _ _ _ | I_ChannelClose _ => false
  | _ => true
  end.

Definition get_defined_value (i : IRInstr) : option IRValue :=
  match i with
  | I_BinOp _ dst _ _ _ | I_UnaryOp _ dst _ _ | I_Load dst _ _ _ => Some dst
  | I_Call dst _ _ _ => dst
  | I_Alloc dst _ | I_Cast _ dst _ _ _ | I_Phi dst _ | I_GetAddress dst _ | I_Offset dst _ _
  | I_Select dst _ _ _ _ | I_Add dst _ _ _ | I_Sub dst _ _ _ | I_Mul dst _ _ _
  | I_Div dst _ _ _ | I_Cmp _ dst _ _ _ => Some dst
  | I_ChannelOpen dst _ | I_ChannelRecv _ dst _ | I_ChannelRecvTimeout _ dst _ _ => Some dst
  | _ => None
  end.

Definition redirect (from_label to_label target : string) : string :=
  if String.eqb target from_label then to_label else target.

Definition redirect_terminator (t : IRTerminator) (from_label to_label : string) : IRTerminator :=
  let r := redirect from_label to_label in
  match t with
  | T_Jump target => T_Jump (r target)
  | T_Branch cond true_block false_block => T_Branch cond (r true_block) (r false_block)
  | T_Switch discr targets dflt => T_Switch discr (prod_map id r <$> targets) (r dflt)
  | _ => t
  end.

(** The registers read by a terminator. *)
Definition terminator_used_regs (t : IRTerminator) : list Z :=
  match t with
  | T_Return vals => regs_of vals
  | T_Branch cond _ _ => regs_of [cond]
  | T_Switch discr _ _ => regs_of [discr]
  | T_Invoke _ _ args _ _ => regs_of args
  | T_TailCall _ args => regs_of args
  | T_Resume value => regs_of [value]
  | T_Jump _ | T_Unreachable => []
  end.

(** ** Constant folding *)

(** The type kept on the constant definition that replaces a folded instruction. *)
Definition fold_ty (i : IRInstr) (result : Z) : option IRType :=
  let ty :=
    match i with
    | I_BinOp _ _ _ _ ty | I_Cmp _ _ _ _ ty | I_Add _ _ _ ty | I_Sub _ _ _ ty
    | I_Mul _ _ _ ty => ty
    | I_Cast kind _ _ _ to_ty => match kind with ZExt | SExt => to_ty | _ => None end
    | _ => None
    end in
  match ty with
  | Some ty => Some ty
  | None => if U32_MAX <? wrap64 result then Some U64 else None
  end.

Definition const_def (dst_id result : Z) (ty : option IRType) : IRInstr :=
  match ty with
  | Some ty => I_BinOp Add (Register dst_id) (Immediate result) (Immediate 0) (Some ty)
  | None => I_Add (Register dst_id) (Immediate result) (Immediate 0) None
  end.

(** The instructions of a block and the constants known after them. *)
Fixpoint fold_instrs (n : NanBits) (subst : gmap Z IRValue) (code : list IRInstr) :
    list IRInstr * gmap Z IRValue :=
  match code with
  | [] => ([], subst)
  | i :: code =>
      let i := substitute_instr subst i in
      match try_fold_instruction n i with
      | Some (dst_id, result) =>
          let '(code, subst) := fold_instrs n (<[dst_id := Immediate result]> subst) code in
          (const_def dst_id result (fold_ty i result) :: code, subst)
      | None =>
          let '(code, subst) := fold_instrs n subst code in (i :: code, subst)
      end
  end.

Definition constant_fold_block (n : NanBits) (b : IRBlock) : IRBlock :=
  let '(code, subst) := fold_instrs n ∅ (instructions b) in
  set_code b code (substitute_terminator subst (terminator b)).

Definition constant_fold (n : NanBits) (f : IRFunction) : IRFunction :=
  with_blocks f (constant_fold_block n <$> f_blocks f).

(** ** Common-subexpression elimination *)

Inductive ExprKey : Type :=
  | Binary (op : BinOpKind) (lhs rhs : IRValue)
  | Unary (op : UnaryOpKind) (operand : IRValue)
  | Compare (kind : CmpKind) (lhs rhs : IRValue).

#[export] Instance ExprKey_eq_dec : EqDecision ExprKey.
Proof. solve_decision. Defined.

Definition compute_expr_key (i : IRInstr) : option ExprKey :=
  match i with
  | I_BinOp op _ lhs rhs _ => Some (Binary op lhs rhs)
  | I_UnaryOp op _ operand _ => Some (Unary op operand)
  | I_Add _ lhs rhs _ => Some (Binary Add lhs rhs)
  | I_Sub _ lhs rhs _ => Some (Binary Sub lhs rhs)
  | I_Mul _ lhs rhs _ => Some (Binary Mul lhs rhs)
  | I_Div _ lhs rhs _ => Some (Binary SDiv lhs rhs)
  | I_Cmp kind _ lhs rhs _ => Some (Compare kind lhs rhs)
  | _ => None
  end.

Definition key_lookup (k : ExprKey) (m : list (ExprKey * IRValue)) : option IRValue :=
  snd <$> find (λ e, bool_decide (e.1 = k)) m.

Definition copy_def (id : Z) (prev : IRValue) : IRInstr :=
  I_Add (Register id) prev (Immediate 0) None.

Fixpoint cse_instrs (value_map : list (ExprKey * IRValue)) (subst : gmap Z IRValue)
    (code : list IRInstr) : list IRInstr * gmap Z IRValue :=
  match code with
  | [] => ([], subst)
  | i :: code =>
      let i := substitute_instr subst i in
      let keep value_map :=
        let '(code, subst) := cse_instrs value_map subst code in (i :: code, subst) in
      match compute_expr_key i with
      | None => keep value_map
      | Some key =>
          match key_lookup key value_map with
          | Some prev_val =>
              match get_defined_value i with
              | Some (Register id) =>
                  let '(code, subst) := cse_instrs value_map (<[id := prev_val]> subst) code in
                  (copy_def id prev_val :: code, subst)
              | _ => keep value_map
              end
          | None =>
              match get_defined_value i with
              | Some dst => keep ((key, dst) :: value_map)
              | None => keep value_map
              end
          end
      end
  end.

Definition cse_block (b : IRBlock) : IRBlock :=
  let '(code, subst) := cse_instrs [] ∅ (instructions b) in
  set_code b code (substitute_terminator subst (terminator b)).

Definition cse (f : IRFunction) : IRFunction := with_blocks f (cse_block <$> f_blocks f).

(** ** Dead-code elimination *)

Definition block_used (b : IRBlock) : gset Z :=
  list_to_set ((instructions b ≫= used_regs) ++ terminator_used_regs (terminator b)).

Definition globally_used (f : IRFunction) : gset Z := ⋃ (block_used <$> f_blocks f).

(** The reverse walk: the instructions kept, and the registers used after them. *)
Fixpoint dce_walk (used : gset Z) (code : list IRInstr) : list IRInstr * gset Z :=
  match code with
  | [] => ([], used)
  | i :: code =>
      let '(kept, used) := dce_walk used code in
      if existsb (λ id, bool_decide (id ∈ used)) (defined_regs i) || has_side_effects i
      then (i :: kept, list_to_set (used_regs i) ∪ used)
      else (kept, used)
  end.

Definition dce_seed (global : gset Z) (b : IRBlock) : gset Z :=
  list_to_set (terminator_used_regs (terminator b)) ∪
  list_to_set (filter (λ id, id ∈ global) (instructions b ≫= defined_regs)).

Definition dce_block (global : gset Z) (b : IRBlock) : IRBlock :=
  set_code b (dce_walk (dce_seed global b) (instructions b)).1 (terminator b).

Definition dead_code_eliminate (f : IRFunction) : IRFunction :=
  with_blocks f (dce_block (globally_used f) <$> f_blocks f).
