(* ===== verification/IrSem.v ===== *)
(** * Semantics of the intermediate representation

    The sources give the IR its meaning through the backends; this file states it once,
    as the contract the passes of [Opt] are proved against.  Registers hold 64-bit words
    and a block runs its instructions in order, the instruction-level branches included
    (backends emit them as jumps).  What an instruction computes from the values of its
    operands, and what it does to memory, channels and other functions, is the [Machine];
    [ScalarMachine] adds the laws the passes rely on.  [word_machine] satisfies them. *)

From S2P Require Import Prelude Ir BvVerify Float Opt.
From stdpp Require Import options.
#[local] Open Scope Z_scope.

(** ** Destinations and operands *)

Definition dests (i : IRInstr) : list IRValue :=
  match i with
  | I_Load dst _ _ _ | I_BinOp _ dst _ _ _ | I_UnaryOp _ dst _ _ | I_Alloc dst _
  | I_Cast _ dst _ _ _ | I_Phi dst _ | I_GetAddress dst _ | I_Offset dst _ _
  | I_Select dst _ _ _ _ | I_VectorOp _ _ _ dst _ _ | I_Add dst _ _ _ | I_Sub dst _ _ _
  | I_Mul dst _ _ _ | I_Div dst _ _ _ | I_Cmp _ dst _ _ _ | I_CtSelect dst _ _ _ _
  | I_CtEq dst _ _ _ | I_AtomicLoad dst _ _ | I_AtomicCas dst _ _ _ _ | I_ChannelOpen dst _
  | I_ChannelRecv _ dst _ | I_ChannelRecvTimeout _ dst _ _ | I_StarkProof _ dst _
  | I_Transform dst _ _ _ => [dst]
  | I_Call dst _ _ _ | I_Syscall _ _ dst | I_CallIndirect dst _ _ => option_list dst
  | I_ChannelRecvResult _ dst err_dst _ => [dst; err_dst]
  | I_Store _ _ _ _ | I_Free _ | I_Ret _ | I_Branch _ | I_CondBranch _ _ _
  | I_AtomicStore _ _ _ | I_ChannelSend _ _ _ | I_ChannelClose _
  | I_BulkCopy _ _ _ | I_BulkFill _ _ _ => []
  end.

Definition operands (i : IRInstr) : list IRValue :=
  match i with
  | I_Load _ addr _ _ => [addr]
  | I_Store value addr _ _ => [value; addr]
  | I_BinOp _ _ lhs rhs _ | I_Add _ lhs rhs _ | I_Sub _ lhs rhs _ | I_Mul _ lhs rhs _
  | I_Div _ lhs rhs _ | I_Cmp _ _ lhs rhs _ | I_VectorOp _ _ _ _ lhs rhs
  | I_CtEq _ lhs rhs _ => [lhs; rhs]
  | I_UnaryOp _ _ operand _ => [operand]
  | I_Call _ _ args _ | I_Syscall _ args _ => args
  | I_Alloc _ _ | I_GetAddress _ _ | I_Branch _ | I_ChannelOpen _ _ => []
  | I_Free ptr => [ptr]
  | I_Cast _ _ src _ _ | I_Transform _ src _ _ => [src]
  | I_Phi _ incoming => incoming.*1
  | I_Offset _ base offset => [base; offset]
  | I_Select _ cond true_val false_val _ | I_CtSelect _ cond true_val false_val _ =>
      [cond; true_val; false_val]
  | I_Ret values => values
  | I_CondBranch cond _ _ => [cond]
  | I_AtomicLoad _ addr _ => [addr]
  | I_AtomicStore value addr _ => [value; addr]
  | I_AtomicCas _ addr expected desired _ => [addr; expected; desired]
  | I_ChannelSend ch msg _ => [ch; msg]
  | I_ChannelRecv ch _ _ | I_ChannelRecvTimeout ch _ _ _ | I_ChannelRecvResult ch _ _ _
  | I_ChannelClose ch => [ch]
  | I_StarkProof input _ _ => [input]
  | I_CallIndirect _ func_ptr args => func_ptr :: args
  | I_BulkCopy dst src len => [dst; src; len]
  | I_BulkFill dst val len => [dst; val; len]
  end.

Definition blank : IRValue := Immediate 0.

(** The instruction without its operands: all that the machine sees besides their values. *)
Definition skeleton (i : IRInstr) : IRInstr :=
  match i with
  | I_Load dst _ offset ty => I_Load dst blank offset ty
  | I_Store _ _ offset ty => I_Store blank blank offset ty
  | I_BinOp op dst _ _ ty => I_BinOp op dst blank blank ty
  | I_UnaryOp op dst _ ty => I_UnaryOp op dst blank ty
  | I_Call dst func _ is_extern => I_Call dst func [] is_extern
  | I_Free _ => I_Free blank
  | I_Cast kind dst _ from_ty to_ty => I_Cast kind dst blank from_ty to_ty
  | I_Phi dst _ => I_Phi dst []
  | I_Offset dst _ _ => I_Offset dst blank blank
  | I_Select dst _ _ _ ty => I_Select dst blank blank blank ty
  | I_Add dst _ _ ty => I_Add dst blank blank ty
  | I_Sub dst _ _ ty => I_Sub dst blank blank ty
  | I_Mul dst _ _ ty => I_Mul dst blank blank ty
  | I_Div dst _ _ ty => I_Div dst blank blank ty
  | I_Cmp kind dst _ _ ty => I_Cmp kind dst blank blank ty
  | I_AtomicLoad dst _ ty => I_AtomicLoad dst blank ty
  | I_AtomicStore _ _ ty => I_AtomicStore blank blank ty
  | I_AtomicCas dst _ _ _ ty => I_AtomicCas dst blank blank blank ty
  | I_Ret _ => I_Ret []
  | I_CondBranch _ t f => I_CondBranch blank t f
  | I_CtSelect dst _ _ _ ty => I_CtSelect dst blank blank blank ty
  | I_CtEq dst _ _ ty => I_CtEq dst blank blank ty
  | I_Syscall nr _ dst => I_Syscall nr [] dst
  | I_VectorOp op lanes elem_size dst _ _ => I_VectorOp op lanes elem_size dst blank blank
  | I_ChannelSend _ _ ty => I_ChannelSend blank blank ty
  | I_ChannelRecv _ dst ty => I_ChannelRecv blank dst ty
  | I_ChannelClose _ => I_ChannelClose blank
  | I_ChannelRecvTimeout _ dst ty ms => I_ChannelRecvTimeout blank dst ty ms
  | I_ChannelRecvResult _ dst err_dst ty => I_ChannelRecvResult blank dst err_dst ty
  | I_StarkProof _ dst constraints => I_StarkProof blank dst constraints
  | I_CallIndirect dst _ _ => I_CallIndirect dst blank []
  | I_BulkCopy _ _ _ => I_BulkCopy blank blank blank
  | I_BulkFill _ _ _ => I_BulkFill blank blank blank
  | I_Transform dst _ from_layout to_layout => I_Transform dst blank from_layout to_layout
  | I_Alloc _ _ | I_GetAddress _ _ | I_Branch _ | I_ChannelOpen _ _ => i
  end.

Definition term_dests (t : IRTerminator) : list IRValue :=
  match t with T_Invoke dst _ _ _ _ => option_list dst | _ => [] end.

(** ** Execution *)

Class Machine (W : Type) := {
  m_label : string → Z;
  (** Values for the destinations and the new world; [None] is a trap. *)
  m_exec : IRInstr → list Z → W → option (list Z * W);
  (** Whether the call returned normally, its value and the new world. *)
  m_invoke : string → list Z → W → option (bool * Z * W);
}.

Inductive final : Type :=
  | Returned (vs : list Z)
  | Tailed (func : string) (vs : list Z)
  | Resumed (v : Z).

Inductive flow : Type := Goto (l : string) | Finish (r : final).

Inductive block_result (W : Type) : Type :=
  | Next (r : gmap Z Z) (w : W)
  | Exit (f : flow) (r : gmap Z Z) (w : W)
  | Trap.
Arguments Next {W} _ _.
Arguments Exit {W} _ _ _.
Arguments Trap {W}.

Inductive run_result (W : Type) : Type :=
  | Done (r : final) (w : W)
  | Trapped
  | OutOfFuel.
Arguments Done {W} _ _.
Arguments Trapped {W}.
Arguments OutOfFuel {W}.

Section exec.
  Context {W : Type} {M : Machine W}.

Definition eval (r : gmap Z Z) (v : IRValue) : Z :=
  as_i64 match v with
         | Register id => default 0 (r !! id)
         | Immediate z => z
         | Address a => a
         | Label l => m_label l
         end.

(** A destination that is not a register is ignored. *)
Fixpoint write (ds : list IRValue) (vs : list Z) (r : gmap Z Z) : gmap Z Z :=
  match ds, vs with
  | d :: ds, v :: vs =>
      write ds vs match d with Register id => <[id := as_i64 v]> r | _ => r end
  | _, _ => r
  end.

Definition exec_generic (i : IRInstr) (r : gmap Z Z) (w : W) : block_result W :=
  match m_exec (skeleton i) (eval r <$> operands i) w with
  | Some (vs, w) => Next (write (dests i) vs r) w
  | None => Trap
  end.

Definition exec_instr (prev : string) (i : IRInstr) (r : gmap Z Z) (w : W) : block_result W :=
  match i with
  | I_Phi dst incoming =>
      match find (λ p, String.eqb p.2 prev) incoming with
      | Some p => Next (write [dst] [eval r p.1] r) w
      | None => Trap
      end
  | I_Ret values => Exit (Finish (Returned (eval r <$> values))) r w
  | I_Branch target => Exit (Goto target) r w
  | I_CondBranch cond t f => Exit (Goto (if eval r cond =? 0 then f else t)) r w
  | _ => exec_generic i r w
  end.

Definition exec_terminator (t : IRTerminator) (r : gmap Z Z) (w : W) : block_result W :=
  match t with
  | T_Jump target => Exit (Goto target) r w
  | T_Branch cond t f => Exit (Goto (if eval r cond =? 0 then f else t)) r w
  | T_Return values => Exit (Finish (Returned (eval r <$> values))) r w
  | T_Unreachable => Trap
  | T_Switch discr targets dflt =>
      Exit (Goto match find (λ p, p.1 =? eval r discr) targets with
                 | Some p => p.2 | None => dflt end) r w
  | T_Invoke dst func args normal unwind =>
      match m_invoke func (eval r <$> args) w with
      | Some (ok, v, w) =>
          Exit (Goto (if ok : bool then normal else unwind)) (write (option_list dst) [v] r) w
      | None => Trap
      end
  | T_TailCall func args => Exit (Finish (Tailed func (eval r <$> args))) r w
  | T_Resume value => Exit (Finish (Resumed (eval r value))) r w
  end.

Fixpoint exec_block (prev : string) (code : list IRInstr) (t : IRTerminator)
    (r : gmap Z Z) (w : W) : block_result W :=
  match code with
  | [] => exec_terminator t r w
  | i :: code =>
      match exec_instr prev i r w with
      | Next r w => exec_block prev code t r w
      | res => res
      end
  end.

Definition block_at (bs : list IRBlock) (label : string) : option IRBlock :=
  find (λ b, String.eqb (b_label b) label) bs.

(** [fuel] bounds the number of blocks entered. *)
Fixpoint run (fuel : nat) (bs : list IRBlock) (prev label : string) (r : gmap Z Z) (w : W) :
    run_result W :=
  match fuel with
  | O => OutOfFuel
  | S fuel =>
      match block_at bs label with
      | None => Trapped
      | Some b =>
          match exec_block prev (instructions b) (terminator b) r w with
          | Exit (Goto l) r w => run fuel bs label l r w
          | Exit (Finish res) r w => Done res w
          | _ => Trapped
          end
      end
  end.

(** A call of the function: the parameters are set and the first block entered. *)
Definition run_function (fuel : nat) (f : IRFunction) (args : list Z) (w : W) : run_result W :=
  match f_blocks f with
  | [] => Trapped
  | b :: _ => run fuel (f_blocks f) "" (b_label b) (write (f_params f) args ∅) w
  end.
End exec.

(** ** The laws of scalar operations *)

Definition float_ty (ty : option IRType) : bool :=
  match ty with Some ty => is_float ty | None => false end.

(** No arithmetic on floating-point numbers; their conversions to and from integers are
    allowed. *)
Definition int_only (i : IRInstr) : bool :=
  match i with
  | I_BinOp _ _ _ _ ty | I_UnaryOp _ _ _ ty | I_Add _ _ _ ty | I_Sub _ _ _ ty
  | I_Mul _ _ _ ty | I_Div _ _ _ ty | I_Cmp _ _ _ _ ty => negb (float_ty ty)
  | I_Cast kind _ _ _ to_ty =>
      match kind with
      | ZExt | SExt => negb (float_ty to_ty)
      | FloatToFloat => false
      | _ => true
      end
  | _ => true
  end.

(** Immediates are [i64]s. *)
Definition wf_value (v : IRValue) : Prop :=
  match v with Immediate z => is_i64 z | _ => True end.

Definition key_kind (k : ExprKey) : ExprKey :=
  match k with
  | Binary op _ _ => Binary op blank blank
  | Unary op _ => Unary op blank
  | Compare kind _ _ => Compare kind blank blank
  end.

Definition key_operands (k : ExprKey) : list IRValue :=
  match k with
  | Binary _ lhs rhs | Compare _ lhs rhs => [lhs; rhs]
  | Unary _ operand => [operand]
  end.

(** The instructions with effects that [has_side_effects] does not list. *)
Definition unlisted_effect (i : IRInstr) : bool :=
  match i with
  | I_BulkCopy _ _ _ | I_BulkFill _ _ _ | I_CallIndirect _ _ _ => true
  | _ => false
  end.

Class ScalarMachine (n : NanBits) (W : Type) `{!Machine W} := {
  m_arith : ExprKey → list Z → option Z;
  (** Arithmetic is a function of the operator and the operands, whatever the type tag. *)
  sm_arith i k vs w : compute_expr_key i = Some k → int_only i = true →
    m_exec (skeleton i) vs w = (λ v, ([v], w)) <$> m_arith (key_kind k) vs;
  (** It computes what the folder computes. *)
  sm_fold i d c w : int_only i = true → Forall wf_value (operands i) →
    try_fold_instruction n i = Some (d, c) →
    m_exec (skeleton i) (omap as_immediate (operands i)) w = Some ([c], w);
  (** Adding zero copies a word. *)
  sm_copy v : is_i64 v → m_arith (Binary Add blank blank) [v; 0] = Some v;
  (** Instructions without side effects leave the world as it is. *)
  sm_pure i vs w vs' w' : has_side_effects i = false → unlisted_effect i = false →
    m_exec (skeleton i) vs w = Some (vs', w') → w' = w;
}.

(** ** A machine on words *)

Definition memory : Type := gmap Z Z.

Definition word_value (mem : memory) (o : option Z) : option (list Z * memory) :=
  (λ v, ([v], mem)) <$> o.

Definition word_exec (n : NanBits) (i : IRInstr) (vs : list Z) (mem : memory) :
    option (list Z * memory) :=
  match i, vs with
  | I_BinOp op _ _ _ ty, [l; r] => word_value mem (try_fold_binop n op l r ty)
  | I_UnaryOp op _ _ _, [o] => word_value mem (try_fold_unaryop op o)
  | I_Add _ _ _ _, [l; r] => word_value mem (try_fold_binop_int Add l r)
  | I_Sub _ _ _ _, [l; r] => word_value mem (try_fold_binop_int Sub l r)
  | I_Mul _ _ _ _, [l; r] => word_value mem (try_fold_binop_int Mul l r)
  | I_Div _ _ _ _, [l; r] => word_value mem (try_fold_binop_int SDiv l r)
  | I_Cmp kind _ _ _ _, [l; r] => word_value mem (try_fold_cmp kind l r)
  | I_Cast kind _ _ from_ty to_ty, [v] => word_value mem (Some (fold_cast n kind from_ty to_ty v))
  | I_Select _ _ _ _ _, [c; t; f] => word_value mem (Some (if c =? 0 then f else t))
  | I_Load _ _ offset _, [a] => word_value mem (Some (default 0 (mem !! wrap64 (a + offset))))
  | I_Store _ _ offset _, [v; a] => Some ([], <[wrap64 (a + offset) := v]> mem)
  | I_BulkFill _ _ _, [d; v; len] =>
      Some ([], foldr (λ k m, <[wrap64 (d + k) := v]> m) mem (seqZ 0 len))
  | _, _ => None
  end.

#[export] Instance word_machine (n : NanBits) : Machine memory := {
  m_label _ := 0;
  m_exec := word_exec n;
  m_invoke _ _ _ := None;
}.

Definition word_arith (k : ExprKey) (vs : list Z) : option Z :=
  match k, vs with
  | Binary op _ _, [l; r] => try_fold_binop_int op l r
  | Unary op _, [o] => try_fold_unaryop op o
  | Compare kind _ _, [l; r] => try_fold_cmp kind l r
  | _, _ => None
  end.

Lemma as_immediate_Some v z : as_immediate v = Some z ↔ v = Immediate z.
Proof. destruct v; naive_solver. Qed.

Lemma as_register_Some v z : as_register v = Some z ↔ v = Register z.
Proof. destruct v; naive_solver. Qed.

(** Take apart a successful chain of options. *)
Ltac option_inv :=
  repeat match goal with
    | H : (_ ≫= _) = Some _ |- _ => apply bind_Some in H as (? & ? & ?)
    | H : as_immediate _ = Some _ |- _ => apply as_immediate_Some in H as ->
    | H : as_register _ = Some _ |- _ => apply as_register_Some in H as ->
    | H : Some _ = Some _ |- _ => injection H; clear H; intros; subst
    | H : (if ?b then _ else _) = Some _ |- _ => destruct b eqn:?; [discriminate|]
    end.

Lemma try_fold_binop_int_ty n op l r ty :
  float_ty ty = false → try_fold_binop n op l r ty = try_fold_binop_int op l r.
Proof. by destruct ty as [[]|]. Qed.

#[export] Instance word_scalar (n : NanBits) :
  @ScalarMachine n memory (word_machine n).
Proof.
  refine (@Build_ScalarMachine n memory (word_machine n) word_arith _ _ _ _).
  - intros i k vs w Hk Hi. simpl.
    destruct i; try done; injection Hk as <-; simpl in Hi |- *;
      apply negb_true_iff in Hi; destruct vs as [|l [|r [|]]]; try done; simpl;
      by rewrite ?try_fold_binop_int_ty by done.
  - intros i d c w Hi _ Hf. simpl. destruct i; try done; cbn [try_fold_instruction] in Hf;
      option_inv; simpl; unfold word_value; try done.
    + by rewrite H2.
    + by injection H1 as <-.
    + by rewrite Heqb, Heqb0.
  - intros v Hv. simpl. by rewrite Z.add_0_r, as_i64_small.
  - intros i vs w vs' w' Hs Hu. simpl.
    destruct i; try done; simpl; destruct vs as [|v1 [|v2 [|v3 [|]]]]; try done;
      unfold word_value; first [by intros [= _ <-]|by intros (? & _ & [= _ <-])%fmap_Some].
Defined.
