(* ===== verification/OptSound.v ===== *)
(** * Correctness of the local passes

    Constant folding and common-subexpression elimination do not change what a function
    in static single assignment form computes, on any machine that obeys the laws of
    [ScalarMachine]; dead-code elimination keeps every completed run, unless the function
    uses one of the three instructions whose effects [has_side_effects] forgets. *)

From S2P Require Import Prelude Ir BvVerify Float Opt IrSem.
From stdpp Require Import options.
#[local] Open Scope Z_scope.

(** ** Specification *)

Definition term_defs (t : IRTerminator) : list Z := regs_of (term_dests t).
Definition code_defs (code : list IRInstr) : list Z := code ≫= defined_regs.

(** Every register is defined at most once in the block. *)
Definition single_assignment (b : IRBlock) : Prop :=
  NoDup (code_defs (instructions b) ++ term_defs (terminator b)).

(** The registers an expression key of the instruction mentions. *)
Definition key_uses (i : IRInstr) : list Z :=
  if compute_expr_key i then used_regs i else [].

(** No register is defined again, or after an expression that mentions it; [seen] holds
    the registers mentioned so far. *)
Fixpoint ssa_code (seen : gset Z) (code : list IRInstr) (tdefs : list Z) : Prop :=
  match code with
  | [] => ∀ id, id ∈ tdefs → id ∉ seen
  | i :: code =>
      (∀ id, id ∈ defined_regs i → id ∉ seen ∧ id ∉ key_uses i) ∧
      ssa_code (seen ∪ list_to_set (key_uses i ++ defined_regs i)) code tdefs
  end.
Definition ssa_block (b : IRBlock) : Prop :=
  ssa_code ∅ (instructions b) (term_defs (terminator b)).

(** What a common-subexpression pass needs of an instruction. *)
Definition cse_instr (i : IRInstr) : Prop :=
  int_only i = true ∧ Forall (λ v, is_register v = true) (dests i).
Definition cse_ok (b : IRBlock) : Prop := Forall cse_instr (instructions b).

(** What dead-code elimination keeps, given the registers used anywhere. *)
Definition kept (global : gset Z) (i : IRInstr) : bool :=
  existsb (λ id, bool_decide (id ∈ global)) (defined_regs i) || has_side_effects i.

Definition no_unlisted (b : IRBlock) : Prop :=
  Forall (λ i, unlisted_effect i = false) (instructions b).

Definition wf_instr (i : IRInstr) : Prop := int_only i = true ∧ Forall wf_value (operands i).
Definition wf_block (b : IRBlock) : Prop := Forall wf_instr (instructions b).

(** ** Registers and operands *)

Lemma defined_regs_dests i : defined_regs i = regs_of (dests i).
Proof. by destruct i. Qed.

Lemma used_regs_operands i : used_regs i = regs_of (operands i).
Proof. by destruct i. Qed.

Lemma elem_of_regs_of id l : id ∈ regs_of l ↔ Register id ∈ l.
Proof.
  unfold regs_of. rewrite list_elem_of_omap. split.
  - intros (v & Hv & E). apply as_register_Some in E as ->. done.
  - intros H. by exists (Register id).
Qed.

Lemma as_i64_idem z : as_i64 (as_i64 z) = as_i64 z.
Proof. apply as_i64_small, as_i64_range. Qed.

(** *** Substitution *)

Lemma substitute_value_fresh m v :
  (∀ id, v = Register id → m !! id = None) → substitute_value m v = v.
Proof. destruct v as [id| | |]; intros H; [|done..]. simpl. by rewrite (H id eq_refl). Qed.

(** The map's registers are not among the destinations. *)
Definition fresh_for (m : gmap Z IRValue) (ids : list Z) : Prop :=
  ∀ id, id ∈ ids → m !! id = None.

Lemma substitute_values_fresh m l :
  fresh_for m (regs_of l) → substitute_value m <$> l = l.
Proof.
  intros H. induction l as [|v l IH]; [done|]. csimpl. f_equal.
  - apply substitute_value_fresh. intros id ->. apply H. apply elem_of_regs_of. by left.
  - apply IH. intros id Hid. apply H. apply elem_of_regs_of. right. by apply elem_of_regs_of.
Qed.

(** A substituted instruction is the old one with each operand replaced or kept. *)
Definition subst_operand (m : gmap Z IRValue) (v v' : IRValue) : Prop :=
  v' = v ∨ v' = substitute_value m v.

Lemma subst_operand_map m l : Forall2 (subst_operand m) l (substitute_value m <$> l).
Proof. induction l; constructor; [by right|done]. Qed.

Lemma substitute_operands m i :
  Forall2 (subst_operand m) (operands i) (operands (substitute_instr m i)).
Proof.
  destruct i; simpl; try (by repeat constructor; by (left + right));
    try apply subst_operand_map; try (constructor; [by right|apply subst_operand_map]).
  induction incoming as [|[v l] inc IH]; constructor; [by right|done].
Qed.

Lemma substitute_dests m i :
  fresh_for m (defined_regs i) →
  dests (substitute_instr m i) = dests i ∧ skeleton (substitute_instr m i) = skeleton i.
Proof.
  rewrite defined_regs_dests. intros H%substitute_values_fresh.
  destruct i; cbn [dests substitute_instr skeleton] in *; try done;
    repeat match goal with d : option IRValue |- _ => destruct d end; cbn in H |- *;
    try done; injection H as Hd; by rewrite ?Hd.
Qed.

Lemma substitute_key m i k :
  compute_expr_key (substitute_instr m i) = Some k →
  ∃ k0, compute_expr_key i = Some k0 ∧ key_kind k = key_kind k0 ∧
    key_operands k = substitute_value m <$> key_operands k0 ∧ operands i = key_operands k0.
Proof. destruct i; try done; intros [= <-]; eexists; done. Qed.

Lemma substitute_int_only m i : int_only (substitute_instr m i) = int_only i.
Proof. by destruct i. Qed.

Section machine.
  Context {W : Type} `{M : !Machine W}.

(** What the map says of its registers is true. *)
Definition sat (m : gmap Z IRValue) (r : gmap Z Z) : Prop :=
  ∀ id v, m !! id = Some v → eval r v = eval r (Register id).

Lemma eval_substitute m r v : sat m r → eval r (substitute_value m v) = eval r v.
Proof.
  intros H. destruct v as [id| | |]; [|done..]. simpl.
  destruct (m !! id) as [v|] eqn:E; [by apply H|done].
Qed.

Lemma eval_i64 r v : is_i64 (eval r v).
Proof. apply as_i64_range. Qed.

Lemma eval_substitutes m r (l : list IRValue) : sat m r → eval r <$> (substitute_value m <$> l) = eval r <$> l.
Proof.
  intros H. rewrite <-list_fmap_compose. apply list_fmap_ext. intros _ v _.
  by apply eval_substitute.
Qed.

Lemma eval_operands m r i :
  sat m r → eval r <$> operands (substitute_instr m i) = eval r <$> operands i.
Proof.
  intros Hs. induction (substitute_operands m i) as [|v v' l l' [->| ->] _ IH]; csimpl;
    [done|by f_equal|]. f_equal; [by apply eval_substitute|done].
Qed.

Lemma exec_substitute prev m r i w :
  sat m r → fresh_for m (defined_regs i) →
  exec_instr prev (substitute_instr m i) r w = exec_instr prev i r w.
Proof.
  intros Hs Hf. destruct (substitute_dests m i Hf) as [Hd Hk].
  pose proof (eval_operands m r i Hs) as Ho.
  assert (exec_generic (substitute_instr m i) r w = exec_generic i r w) as Hg
    by (unfold exec_generic; by rewrite Hk, Ho, Hd).
  destruct i; try exact Hg; cbn [exec_instr substitute_instr].
  - cbn [dests substitute_instr] in Hd. injection Hd as Hd. rewrite Hd. clear Ho Hg Hk Hf.
    assert (find (λ p, String.eqb p.2 prev) (prod_map (substitute_value m) id <$> incoming) =
      prod_map (substitute_value m) id <$> find (λ p, String.eqb p.2 prev) incoming) as ->.
    { induction incoming as [|[v l] inc IH]; [done|]. csimpl. by destruct (String.eqb l prev). }
    destruct (find _ incoming) as [[v l]|]; [|done]. simpl. by rewrite eval_substitute.
  - cbn in Ho. by rewrite Ho.
  - done.
  - by rewrite eval_substitute.
Qed.

Lemma exec_substitute_terminator m r t w :
  sat m r → fresh_for m (term_defs t) →
  exec_terminator (substitute_terminator m t) r w = exec_terminator t r w.
Proof.
  intros Hs Hf. destruct t; cbn [substitute_terminator exec_terminator];
    rewrite ?eval_substitute, ?eval_substitutes by done; try done.
  assert (option_list (substitute_value m <$> dst) = option_list dst) as ->; [|done].
  destruct dst as [d|]; [|done]. by apply substitute_values_fresh in Hf.
Qed.

(** *** Writes *)

Lemma write_other ds vs r id : id ∉ regs_of ds → write ds vs r !! id = r !! id.
Proof.
  revert vs r. induction ds as [|d ds IH]; intros [|v vs] r Hid; [done..|]. simpl.
  rewrite elem_of_regs_of in Hid. rewrite IH by (rewrite elem_of_regs_of; set_solver).
  destruct d as [id'| | |]; [|done..]. rewrite lookup_insert_ne; set_solver.
Qed.

Lemma eval_write_other ds vs r v :
  (∀ id, v = Register id → id ∉ regs_of ds) → eval (write ds vs r) v = eval r v.
Proof.
  intros H. destruct v as [id| | |]; [|done..]. unfold eval. by rewrite write_other by auto.
Qed.

Lemma eval_write r id v : eval (write [Register id] [v] r) (Register id) = as_i64 v.
Proof. unfold eval. simpl. rewrite lookup_insert_eq. apply as_i64_idem. Qed.

(** Neither the map's registers nor the registers it replaces them with are written. *)
Definition stable_for (m : gmap Z IRValue) (ids : list Z) : Prop :=
  ∀ id v, m !! id = Some v → id ∉ ids ∧ ∀ id', v = Register id' → id' ∉ ids.

Lemma stable_fresh m ids : stable_for m ids → fresh_for m ids.
Proof.
  intros H id Hid. destruct (m !! id) as [v|] eqn:E; [|done]. by destruct (H id v E).
Qed.

Lemma sat_write m ds vs r : sat m r → stable_for m (regs_of ds) → sat m (write ds vs r).
Proof.
  intros Hs Hst id v Hv. destruct (Hst id v Hv) as [H1 H2].
  rewrite !eval_write_other; [by apply Hs|by intros ? [= <-]|done].
Qed.

Lemma exec_next prev i r w r' w' :
  exec_instr prev i r w = Next r' w' → ∃ vs, r' = write (dests i) vs r.
Proof.
  assert (exec_generic i r w = Next r' w' → ∃ vs, r' = write (dests i) vs r) as Hg.
  { unfold exec_generic. destruct (m_exec _ _ _) as [[vs w1]|]; [|done].
    intros [= <- _]. by exists vs. }
  destruct i; try exact Hg; try done. simpl. destruct (find _ _) as [p|]; [|done].
  intros [= <- _]. by eexists [_].
Qed.

(** *** From blocks to functions *)

Lemma block_at_fmap (g : IRBlock → IRBlock) bs label :
  (∀ b, b_label (g b) = b_label b) → block_at (g <$> bs) label = g <$> block_at bs label.
Proof.
  intros Hg. unfold block_at. induction bs as [|b bs IH]; [done|]. csimpl.
  rewrite Hg. by destruct (String.eqb _ _).
Qed.

Lemma block_at_elem bs label b : block_at bs label = Some b → b ∈ bs.
Proof. intros H. by apply find_Some in H as [? _]. Qed.

(** Two versions of a function whose blocks run alike, on related registers. *)
Definition block_sim (R : gmap Z Z → gmap Z Z → Prop) (b b' : IRBlock) : Prop :=
  ∀ prev r r' w fl r1 w1, R r r' →
    exec_block prev (instructions b) (terminator b) r w = Exit fl r1 w1 →
    ∃ r1', exec_block prev (instructions b') (terminator b') r' w = Exit fl r1' w1 ∧ R r1 r1'.

Lemma run_sim R g bs fuel prev label r r' w res w1 :
  (∀ b, b_label (g b) = b_label b) → (∀ b, b ∈ bs → block_sim R b (g b)) → R r r' →
  run fuel bs prev label r w = Done res w1 →
  run fuel (g <$> bs) prev label r' w = Done res w1.
Proof.
  intros Hg Hsim. revert prev label r r' w.
  induction fuel as [|fuel IH]; intros prev label r r' w HR; [done|]. cbn [run].
  rewrite block_at_fmap by done. destruct (block_at bs label) as [b|] eqn:Eb; [|done]. simpl.
  apply block_at_elem in Eb. destruct (exec_block prev _ _ r w) as [| fl r1 w2|] eqn:E; [done| |done].
  destruct (Hsim b Eb prev r r' w fl r1 w2 HR E) as (r1' & -> & HR1).
  destruct fl as [l|fin]; [by apply IH|done].
Qed.

Lemma run_ext g bs fuel prev label r w :
  (∀ b, b_label (g b) = b_label b) →
  (∀ b prev r w, b ∈ bs → exec_block prev (instructions (g b)) (terminator (g b)) r w =
     exec_block prev (instructions b) (terminator b) r w) →
  run fuel (g <$> bs) prev label r w = run fuel bs prev label r w.
Proof.
  intros Hg Hex. revert prev label r w.
  induction fuel as [|fuel IH]; intros prev label r w; [done|]. cbn [run].
  rewrite block_at_fmap by done. destruct (block_at bs label) as [b|] eqn:Eb; [|done]. simpl.
  apply block_at_elem in Eb. rewrite Hex by done.
  by destruct (exec_block prev _ _ r w) as [|[]|].
Qed.

Lemma run_function_ext g f fuel args w :
  (∀ b, b_label (g b) = b_label b) →
  (∀ b prev r w, b ∈ f_blocks f → exec_block prev (instructions (g b)) (terminator (g b)) r w =
     exec_block prev (instructions b) (terminator b) r w) →
  run_function fuel (with_blocks f (g <$> f_blocks f)) args w = run_function fuel f args w.
Proof.
  intros Hg Hex. unfold run_function. cbn [f_blocks with_blocks f_params].
  destruct (f_blocks f) as [|b bs] eqn:E; [done|]. rewrite fmap_cons. simpl.
  rewrite Hg. change (g b :: (g <$> bs)) with (g <$> b :: bs). by apply run_ext.
Qed.

End machine.

Lemma fold_ty_int (n : NanBits) i (d c : Z) :
  wf_instr i → try_fold_instruction n i = Some (d, c) → float_ty (fold_ty i c) = false.
Proof.
  intros Hwf _. destruct Hwf as [Hi _]. unfold fold_ty.
  lazymatch goal with |- float_ty (match ?o with Some _ => _ | None => ?e end) = _ =>
    assert (float_ty e = false) as He by (by destruct (_ <? _)); set (ty := o);
    assert (float_ty ty = false) as Hty; [|destruct ty; [exact Hty|exact He]] end.
  clear He. unfold ty. destruct i; try done; simpl in Hi; try by apply negb_true_iff.
  destruct kind; try done; by apply negb_true_iff.
Qed.

Lemma fold_dest (n : NanBits) i d c :
  try_fold_instruction n i = Some (d, c) → dests i = [Register d].
Proof. intros H. by destruct i; try done; cbn [try_fold_instruction] in H; option_inv. Qed.

Definition const_map (m : gmap Z IRValue) : Prop :=
  ∀ id v, m !! id = Some v → ∃ z, v = Immediate z ∧ is_i64 z.

Lemma fold_i64 (n : NanBits) i d c :
  wf_instr i → try_fold_instruction n i = Some (d, c) → is_i64 c.
Proof.
  intros [Hi Hwf] H. destruct i; try done; cbn [try_fold_instruction] in H; option_inv;
    simpl in Hi, Hwf; repeat match goal with H : Forall _ (_ :: _) |- _ =>
      apply Forall_cons in H as [? H] end; try apply as_i64_range.
  - apply negb_true_iff in Hi. rewrite try_fold_binop_int_ty in * by done.
    eapply fold_binop_int_i64; [..|eassumption]; done.
  - eapply fold_unaryop_i64; [|eassumption]; done.
  - destruct kind; simpl; try done; try apply as_i64_range.
    unfold f64_to_int, clamp, is_i64. case_match; try lia. destruct s; lia.
  - apply quot_i64; [done| |done]. intros ->. done.
Qed.

Lemma wf_substitute m i : const_map m → wf_instr i → wf_instr (substitute_instr m i).
Proof.
  intros Hm [Hi Hwf]. split; [by rewrite substitute_int_only|].
  induction (substitute_operands m i) as [|v v' l l' Hv _ IH]; [done|].
  apply Forall_cons in Hwf as [Hwv Hwf]. constructor; [|by apply IH].
  destruct Hv as [->| ->]; [done|]. destruct v as [id| | |]; try done. simpl.
  destruct (m !! id) as [v|] eqn:E; [|done]. by destruct (Hm id v E) as (z & -> & ?).
Qed.

Section scalar.
  #[local] Set Default Proof Using "Type*".
  Context {n : NanBits} {W : Type} {M : Machine W} {SM : ScalarMachine n W}.

(** A keyed instruction computes with its key alone. *)
Lemma exec_scalar prev i k r w :
  compute_expr_key i = Some k → int_only i = true →
  exec_instr prev i r w =
  match m_arith (key_kind k) (eval r <$> operands i) with
  | Some v => Next (write (dests i) [v] r) w
  | None => Trap
  end.
Proof.
  intros Hk Hi. assert (exec_instr prev i r w = exec_generic i r w) as -> by by destruct i.
  unfold exec_generic. rewrite (sm_arith i k) by done. by destruct (m_arith _ _).
Qed.

Lemma exec_copy prev id v r w :
  exec_instr prev (copy_def id v) r w = Next (write [Register id] [eval r v] r) w.
Proof.
  rewrite (exec_scalar _ _ (Binary Add v (Immediate 0))) by done. simpl.
  change (eval r (Immediate 0)) with 0. by rewrite sm_copy by apply eval_i64.
Qed.

(** *** Constant folding *)

Lemma fold_operands i d c :
  try_fold_instruction n i = Some (d, c) →
  dests i = [Register d] ∧ Forall (λ v, is_Some (as_immediate v)) (operands i) ∧
  ∀ prev r w, exec_instr prev i r w = exec_generic i r w.
Proof.
  intros H. destruct i; try done; cbn [try_fold_instruction] in H; option_inv; simpl;
    (split; [done|]); (split; [by repeat constructor|done]).
Qed.

Lemma eval_immediates r l :
  Forall wf_value l → Forall (λ v, is_Some (as_immediate v)) l →
  eval r <$> l = omap as_immediate l.
Proof.
  induction 1 as [|v l Hv _ IH]; [done|]. intros [[z Hz] Hl]%Forall_cons.
  apply as_immediate_Some in Hz as ->. csimpl. rewrite IH by done. f_equal.
  by apply as_i64_small.
Qed.

Lemma exec_const_def prev i d c r w :
  wf_instr i → try_fold_instruction n i = Some (d, c) →
  exec_instr prev (const_def d c (fold_ty i c)) r w = Next (write [Register d] [c] r) w.
Proof.
  intros Hwf Hf. pose proof (fold_i64 n i d c Hwf Hf) as Hc.
  pose proof (fold_ty_int n i d c Hwf Hf) as Ht.
  assert (eval r <$> [Immediate c; Immediate 0] = [c; 0]) as Ho
    by (csimpl; unfold eval; by rewrite (as_i64_small c)).
  unfold const_def. destruct (fold_ty i c) as [ty|].
  - rewrite (exec_scalar _ _ (Binary Add (Immediate c) (Immediate 0))); [|done|].
    + cbn [operands key_kind]. rewrite Ho. by rewrite sm_copy.
    + simpl in *. by rewrite Ht.
  - rewrite (exec_scalar _ _ (Binary Add (Immediate c) (Immediate 0))); [|done|done].
    cbn [operands key_kind]. rewrite Ho. by rewrite sm_copy.
Qed.

Lemma exec_folded prev i d c r w :
  wf_instr i → try_fold_instruction n i = Some (d, c) →
  exec_instr prev i r w = Next (write [Register d] [c] r) w.
Proof.
  intros [Hi Hwf] Hf. destruct (fold_operands i d c Hf) as (Hd & Ho & ->).
  unfold exec_generic. rewrite eval_immediates by done.
  by rewrite (sm_fold i d c), Hd by done.
Qed.

Lemma fold_instrs_correct prev code t m r w code' m' :
  sat m r → const_map m → fresh_for m (code_defs code ++ term_defs t) →
  NoDup (code_defs code ++ term_defs t) → Forall wf_instr code →
  fold_instrs n m code = (code', m') →
  exec_block prev code' (substitute_terminator m' t) r w = exec_block prev code t r w.
Proof.
  revert m r w code' m'. induction code as [|i code IH]; intros m r w code' m' Hs Hm Hf Hnd Hwf.
  { intros [= <- <-]. simpl. by apply exec_substitute_terminator. }
  apply Forall_cons in Hwf as [Hwi Hwf]. cbn [fold_instrs].
  unfold code_defs in Hf, Hnd. csimpl in Hf. csimpl in Hnd. fold (code_defs code) in *.
  rewrite <-app_assoc in Hf, Hnd. apply NoDup_app in Hnd as (Hnd1 & Hdis & Hnd2).
  assert (fresh_for m (defined_regs i)) as Hfi by (intros id ?; apply Hf; set_solver).
  assert (fresh_for m (code_defs code ++ term_defs t)) as Hfc
    by (intros id ?; apply Hf; set_solver).
  set (i' := substitute_instr m i).
  assert (∀ r w, sat m r → exec_instr prev i r w = exec_instr prev i' r w) as Hex
    by (intros; symmetry; by apply exec_substitute).
  destruct (try_fold_instruction n i') as [[d c]|] eqn:Ef.
  - assert (wf_instr i') as Hwi' by by apply wf_substitute.
    pose proof (fold_operands i' d c Ef) as (Hd & _). unfold i' in Hd.
    rewrite (proj1 (substitute_dests m i Hfi)) in Hd.
    assert (defined_regs i = [d]) as Hdi by by rewrite defined_regs_dests, Hd.
    rewrite Hdi in *.
    destruct (fold_instrs n (<[d:=_]> m) code) as [code1 m1] eqn:E. intros [= <- <-].
    cbn [exec_block]. rewrite (exec_const_def prev i' d c), Hex, (exec_folded prev i' d c) by done.
    apply (IH (<[d := Immediate c]> m)); try done.
    + intros id v [[<- <-]|[Hne Hv]]%lookup_insert_Some; [by rewrite eval_write|].
      destruct (Hm id v Hv) as (z & -> & _).
      rewrite (eval_write_other _ _ _ (Register id)) by (intros ? [= <-]; set_solver).
      by rewrite <-(Hs id _ Hv).
    + intros id v [[<- <-]|[Hne Hv]]%lookup_insert_Some; [|by eapply Hm].
      exists c. split; [done|]. by eapply fold_i64.
    + intros id Hid. rewrite lookup_insert_ne; [by apply Hfc|]. intros ->.
      by apply (Hdis id); [left|].
  - destruct (fold_instrs n m code) as [code1 m1] eqn:E. intros [= <- <-].
    cbn [exec_block]. rewrite <-Hex by done.
    destruct (exec_instr prev i r w) as [r1 w1| |] eqn:Ei; [|done..].
    apply (IH m); try done. destruct (exec_next _ _ _ _ _ _ Ei) as (vs & ->).
    apply sat_write; [done|]. intros id v Hv. rewrite <-defined_regs_dests. split.
    + intros Hid. rewrite (Hfi id Hid) in Hv. done.
    + intros id' ->. by destruct (Hm id _ Hv) as (? & ? & _).
Qed.

Lemma constant_fold_block_exec b prev r w :
  single_assignment b → wf_block b →
  exec_block prev (instructions (constant_fold_block n b)) (terminator (constant_fold_block n b)) r w =
  exec_block prev (instructions b) (terminator b) r w.
Proof.
  intros Hs Hwf. unfold constant_fold_block.
  destruct (fold_instrs n ∅ (instructions b)) as [code m] eqn:E.
  cbn [instructions terminator set_code].
  eapply fold_instrs_correct; [| | | | |exact E]; try done.
Qed.

Lemma constant_fold_runs f fuel args w :
  Forall single_assignment (f_blocks f) → Forall wf_block (f_blocks f) →
  run_function fuel (constant_fold n f) args w = run_function fuel f args w.
Proof.
  intros Hs Hwf. rewrite Forall_forall in Hs, Hwf. apply run_function_ext.
  - intros b. unfold constant_fold_block. by destruct (fold_instrs _ _ _).
  - intros b prev r w1 Hb. apply constant_fold_block_exec; auto.
Qed.


(** *** Common subexpressions *)

Record cse_inv (seen : gset Z) (vm : list (ExprKey * IRValue)) (m : gmap Z IRValue)
    (r : gmap Z Z) : Prop := {
  ci_sat : sat m r;
  ci_dom id v : m !! id = Some v → id ∈ seen ∧ ∀ id', v = Register id' → id' ∈ seen;
  ci_key k v : (k, v) ∈ vm → ∃ x,
    m_arith (key_kind k) (eval r <$> key_operands k) = Some x ∧ eval r v = as_i64 x;
  ci_seen k v id : (k, v) ∈ vm → id ∈ regs_of (v :: key_operands k) → id ∈ seen;
}.

Lemma cse_inv_fresh seen vm m r ids :
  cse_inv seen vm m r → (∀ id, id ∈ ids → id ∉ seen) → fresh_for m ids.
Proof.
  intros HI Hs. apply stable_fresh. intros id v Hv.
  destruct (ci_dom _ _ _ _ HI id v Hv) as [H1 H2]. split; [naive_solver|].
  intros id' ->. naive_solver.
Qed.

Lemma eval_list_write ds vs r l :
  (∀ id, id ∈ regs_of l → id ∉ regs_of ds) → eval (write ds vs r) <$> l = eval r <$> l.
Proof.
  intros H. apply list_fmap_ext. intros j v Hv. apply eval_write_other. intros id ->.
  apply H. apply elem_of_regs_of. by eapply list_elem_of_lookup_2.
Qed.

Lemma cse_inv_write seen extra vm m r ds vs :
  cse_inv seen vm m r → (∀ id, id ∈ regs_of ds → id ∉ seen) →
  cse_inv (seen ∪ extra) vm m (write ds vs r).
Proof.
  intros HI Hds. split.
  - apply sat_write; [by apply (ci_sat seen vm)|]. intros id v Hv.
    destruct (ci_dom _ _ _ _ HI id v Hv) as [H1 H2]. split; [naive_solver|].
    intros id' ->. naive_solver.
  - intros id v Hv. destruct (ci_dom _ _ _ _ HI id v Hv) as [H1 H2]. split; [set_solver|].
    intros id' ->. set_solver.
  - intros k v Hkv. destruct (ci_key _ _ _ _ HI k v Hkv) as (x & Hx & Hv).
    assert (∀ id, id ∈ regs_of (v :: key_operands k) → id ∉ regs_of ds) as Hn
      by (intros id Hid Hd; by apply (Hds id Hd), (ci_seen _ _ _ _ HI k v)).
    exists x. rewrite eval_list_write, eval_write_other; [done| |].
    + intros id ->. apply Hn, elem_of_regs_of. by left.
    + intros id Hid. apply Hn. apply elem_of_regs_of. right. by apply elem_of_regs_of.
  - intros k v id Hkv Hid. apply elem_of_union_l. by apply (ci_seen _ _ _ _ HI k v).
Qed.

Lemma cse_inv_subst seen vm m r id v :
  cse_inv seen vm m r → eval r v = eval r (Register id) → id ∈ seen →
  (∀ id', v = Register id' → id' ∈ seen) → cse_inv seen vm (<[id := v]> m) r.
Proof.
  intros [H1 H2 H3 H4] Hv Hid Hv'. split; [| |done|done].
  - intros id1 v1 [[<- <-]|[_ ?]]%lookup_insert_Some; [done|by apply H1].
  - intros id1 v1 [[<- <-]|[_ ?]]%lookup_insert_Some; [done|by apply H2].
Qed.

Lemma cse_inv_key seen vm m r k v x :
  cse_inv seen vm m r → m_arith (key_kind k) (eval r <$> key_operands k) = Some x →
  eval r v = as_i64 x → (∀ id, id ∈ regs_of (v :: key_operands k) → id ∈ seen) →
  cse_inv seen ((k, v) :: vm) m r.
Proof.
  intros [H1 H2 H3 H4] Hx Hv Hs. split; [done|done|..].
  - intros k' v' [[= -> ->]|?]%elem_of_cons; [by exists x|by apply H3].
  - intros k' v' id [[= -> ->]|?]%elem_of_cons Hid; [by apply Hs|by eapply H4].
Qed.

Lemma key_lookup_Some k vm v : key_lookup k vm = Some v → (k, v) ∈ vm.
Proof.
  unfold key_lookup. intros ([k' v'] & H & ->)%fmap_Some. apply find_Some in H as [H1 H2].
  apply bool_decide_eq_true in H2. simpl in *. by subst.
Qed.

(** What a keyed instruction computes, and where its key's registers come from. *)
Lemma cse_keyed seen vm m r prev i k w :
  cse_inv seen vm m r → cse_instr i → (∀ id, id ∈ defined_regs i → id ∉ seen) →
  compute_expr_key (substitute_instr m i) = Some k →
  (∃ d, defined_regs i = [d] ∧ get_defined_value (substitute_instr m i) = Some (Register d) ∧
    ∀ w, exec_instr prev i r w = match m_arith (key_kind k) (eval r <$> key_operands k) with
      | Some x => Next (write [Register d] [x] r) w | None => Trap end) ∧
  exec_instr prev (substitute_instr m i) r w = exec_instr prev i r w ∧
  ∀ id, id ∈ regs_of (key_operands k) → id ∈ seen ∨ id ∈ key_uses i.
Proof.
  intros HI [Hi Hd] Hdef Hk. pose proof (cse_inv_fresh _ _ _ _ _ HI Hdef) as Hf.
  pose proof (ci_sat _ _ _ _ HI) as Hs.
  destruct (substitute_key m i k Hk) as (k0 & Hk0 & Hkk & Hko & Hop).
  split; [|split; [by apply exec_substitute|]].
  - assert (∃ d, dests i = [Register d]) as [d Hdi].
    { destruct i; try done; simpl in Hd; apply Forall_cons in Hd as [Hd _];
        by destruct dst as [d| | |]; try done; exists d. }
    assert (defined_regs i = [d]) as Hdr by by rewrite defined_regs_dests, Hdi.
    exists d. split; [done|]. split.
    + destruct (substitute_dests m i Hf) as [Hsd _]. rewrite Hdi in Hsd.
      destruct i; try done; simpl in Hsd |- *; by injection Hsd as ->.
    + intros w'. rewrite (exec_scalar prev i k0) by done. rewrite Hop, Hkk, Hko, Hdi.
      by rewrite eval_substitutes.
  - intros id. rewrite Hko, elem_of_regs_of, list_elem_of_fmap. intros (v & Hv & Hin).
    unfold key_uses. rewrite Hk0, used_regs_operands, Hop.
    destruct v as [id'| | |]; try done. simpl in Hv. destruct (m !! id') as [v'|] eqn:E.
    + subst v'. left. by apply (ci_dom _ _ _ _ HI id' _ E).
    + injection Hv as ->. right. by apply elem_of_regs_of.
Qed.

Lemma cse_instrs_correct prev code t seen vm m r w code' m' :
  cse_inv seen vm m r → ssa_code seen code (term_defs t) → Forall cse_instr code →
  cse_instrs vm m code = (code', m') →
  exec_block prev code' (substitute_terminator m' t) r w = exec_block prev code t r w.
Proof.
  revert seen vm m r w code' m'.
  induction code as [|i code IH]; intros seen vm m r w code' m' HI Hssa Hok.
  { intros [= <- <-]. simpl in *. apply exec_substitute_terminator; [by apply (ci_sat seen vm)|].
    by eapply cse_inv_fresh. }
  apply Forall_cons in Hok as [Hi Hok]. destruct Hssa as [Hdef Hssa]. cbn [cse_instrs].
  assert (∀ id, id ∈ defined_regs i → id ∉ seen) as Hds by (intros id ?; by apply Hdef).
  set (i' := substitute_instr m i).
  assert (exec_instr prev i' r w = exec_instr prev i r w) as Hex
    by (apply exec_substitute; [by apply (ci_sat seen vm)|by eapply cse_inv_fresh]).
  assert (∀ vm', (∀ r1 w1, exec_instr prev i r w = Next r1 w1 →
      cse_inv (seen ∪ list_to_set (key_uses i ++ defined_regs i)) vm' m r1) →
    (let '(code, subst) := cse_instrs vm' m code in (i' :: code, subst)) = (code', m') →
    exec_block prev code' (substitute_terminator m' t) r w = exec_block prev (i :: code) t r w)
    as Hkeep.
  { intros vm' HI'. destruct (cse_instrs vm' m code) as [code1 m1] eqn:E. intros [= <- <-].
    cbn [exec_block]. rewrite Hex. destruct (exec_instr prev i r w) as [r1 w1| |] eqn:E1; [|done..].
    by eapply IH; [apply (HI' r1 w1)| | |exact E]. }
  assert (∀ r1 w1, exec_instr prev i r w = Next r1 w1 →
    cse_inv (seen ∪ list_to_set (key_uses i ++ defined_regs i)) vm m r1) as Hnext.
  { intros r1 w1 (vs & ->)%exec_next. apply cse_inv_write; [done|].
    by rewrite <-defined_regs_dests. }
  destruct (compute_expr_key i') as [k|] eqn:Ek; [|by apply Hkeep].
  destruct (cse_keyed seen vm m r prev i k w HI Hi Hds Ek) as ((d & Hd & Hg & Hrun) & _ & Hkr).
  fold i' in Hg. rewrite Hg. clear Hg.
  destruct (key_lookup k vm) as [v|] eqn:El.
  - apply key_lookup_Some in El. destruct (ci_key _ _ _ _ HI k v El) as (x & Hx & Hv).
    destruct (cse_instrs vm (<[d:=v]> m) code) as [code1 m1] eqn:E. intros [= <- <-].
    cbn [exec_block]. rewrite Hrun, Hx, exec_copy.
    assert (write [Register d] [eval r v] r = write [Register d] [x] r) as ->
      by (simpl; by rewrite Hv, as_i64_idem).
    specialize (Hnext (write [Register d] [x] r) w). rewrite Hrun, Hx in Hnext.
    specialize (Hnext eq_refl). eapply IH; [|exact Hssa|exact Hok|exact E].
    assert (∀ id, v = Register id → id ∈ seen) as Hvs.
    { intros id ->. apply (ci_seen _ _ _ _ HI k _ id El), elem_of_regs_of. by left. }
    assert (d ∉ seen) as Hdn by (apply Hds; rewrite Hd; by left).
    apply cse_inv_subst; [done| | |].
    + rewrite eval_write, eval_write_other; [done|]. intros id ->. specialize (Hvs id eq_refl).
      set_solver.
    + rewrite Hd. set_solver.
    + intros id ->. specialize (Hvs id eq_refl). set_solver.
  - apply Hkeep. intros r1 w1 E1. pose proof (Hnext r1 w1 E1) as HI1. rewrite Hrun in E1.
    destruct (m_arith _ _) as [x|] eqn:Ex; [|done].
    assert (r1 = write [Register d] [x] r) as -> by congruence. clear E1.
    assert (∀ id, id ∈ regs_of (key_operands k) → id ≠ d) as Hne.
    { intros id Hid ->. destruct (Hkr d Hid) as [Hid'|Hid'];
        [apply (Hds d); [rewrite Hd; by left|done]|].
      destruct (Hdef d) as [_ Hn]; [rewrite Hd; by left|done]. }
    apply (cse_inv_key _ _ _ _ _ _ x); [done| |by apply eval_write|].
    + rewrite eval_list_write; [done|]. intros id Hid. specialize (Hne id Hid). set_solver.
    + intros id. rewrite elem_of_regs_of, elem_of_cons, <-elem_of_regs_of.
      intros [[= ->]|Hid]; [rewrite Hd; set_solver|]. destruct (Hkr id Hid); set_solver.
Qed.

Lemma cse_runs f fuel args w :
  Forall ssa_block (f_blocks f) → Forall cse_ok (f_blocks f) →
  run_function fuel (cse f) args w = run_function fuel f args w.
Proof.
  intros Hs Hok. rewrite Forall_forall in Hs, Hok. apply run_function_ext.
  - intros b. unfold cse_block. by destruct (cse_instrs _ _ _).
  - intros b prev r w1 Hb. unfold cse_block.
    destruct (cse_instrs [] ∅ (instructions b)) as [code m] eqn:E.
    cbn [instructions terminator set_code].
    eapply (cse_instrs_correct prev _ _ ∅); [|by apply Hs|by apply Hok|exact E].
    split; [by intros ? ?|by intros ? ?|by intros ? ? ?%not_elem_of_nil|].
    by intros ? ? ? ?%not_elem_of_nil.
Qed.


(** *** Dead code *)

Lemma dce_walk_spec global used code :
  used ⊆ global → list_to_set (code ≫= used_regs) ⊆ global →
  (∀ id, id ∈ code_defs code → id ∈ global → id ∈ used) →
  (dce_walk used code).1 = filter (λ i, kept global i = true) code ∧
  used ⊆ (dce_walk used code).2 ∧ (dce_walk used code).2 ⊆ global.
Proof using.
  intros Hu. induction code as [|i code IH]; intros Hc Hd; [done|].
  unfold code_defs in Hd. csimpl in Hc. csimpl in Hd. cbn [dce_walk].
  destruct (dce_walk used code) as [k u]. destruct IH as (Hk & H1 & H2);
    [set_solver|intros id ??; apply Hd; [apply elem_of_app; by right|done]|]. cbn [fst snd] in *.
  subst k.
  rewrite filter_cons. assert (existsb (λ id, bool_decide (id ∈ u)) (defined_regs i) =
          existsb (λ id, bool_decide (id ∈ global)) (defined_regs i)) as ->.
  { apply eq_true_iff_eq. rewrite !existsb_exists. setoid_rewrite bool_decide_eq_true.
    setoid_rewrite <-list_elem_of_In. split; intros (id & Hid & Hin); exists id;
      (split; [done|]); [set_solver|]. apply H1, Hd; [apply elem_of_app; by left|done]. }
  fold (kept global i). destruct (kept global i); case_decide; try done; cbn [fst snd].
  split; [done|]. set_solver.
Qed.

Lemma dce_block_filter f b :
  b ∈ f_blocks f →
  instructions (dce_block (globally_used f) b) =
  filter (λ i, kept (globally_used f) i = true) (instructions b).
Proof using.
  intros Hb. assert (block_used b ⊆ globally_used f) as Hbu
    by (intros x Hx; apply elem_of_union_list; exists (block_used b);
        split; [by apply list_elem_of_fmap_2|done]).
  unfold block_used in Hbu. rewrite list_to_set_app_L in Hbu.
  apply dce_walk_spec; unfold dce_seed; [|set_solver|].
  - intros id. rewrite elem_of_union, !elem_of_list_to_set, list_elem_of_filter. set_solver.
  - intros id Hid Hg. apply elem_of_union_r, elem_of_list_to_set, list_elem_of_filter. done.
Qed.

(** Agreement on the registers used anywhere in the function. *)
Definition agree (global : gset Z) (r r' : gmap Z Z) : Prop :=
  ∀ id, id ∈ global → eval r (Register id) = eval r' (Register id).

Lemma agree_eval global r r' v :
  agree global r r' → (∀ id, v = Register id → id ∈ global) → eval r v = eval r' v.
Proof using. intros HA Hv. destruct v; try done. by apply HA, Hv. Qed.

Lemma agree_evals global r r' l :
  agree global r r' → (∀ id, id ∈ regs_of l → id ∈ global) → eval r <$> l = eval r' <$> l.
Proof using.
  intros HA Hl. apply list_fmap_ext. intros j v Hv. apply (agree_eval global); [done|].
  intros id ->. apply Hl, elem_of_regs_of. by eapply list_elem_of_lookup_2.
Qed.

Lemma agree_write global ds vs r r' :
  agree global r r' → agree global (write ds vs r) (write ds vs r').
Proof using.
  revert vs r r'. induction ds as [|d ds IH]; intros [|v vs] r r' HA; [done..|]. simpl.
  apply IH. destruct d as [id| | |]; [|done..]. intros id' Hid'. unfold eval.
  destruct (decide (id = id')) as [->|Hne]; [by rewrite !lookup_insert_eq|].
  rewrite !lookup_insert_ne by done. by apply HA.
Qed.

Lemma agree_write_dead global ds vs r r' :
  agree global r r' → (∀ id, id ∈ regs_of ds → id ∉ global) → agree global (write ds vs r) r'.
Proof using.
  intros HA Hd id Hid. rewrite eval_write_other; [by apply HA|].
  intros ? [= <-] ?. by eapply Hd.
Qed.

Lemma agree_exec global prev i r r' w :
  agree global r r' → (∀ id, id ∈ used_regs i → id ∈ global) →
  match exec_instr prev i r w with
  | Next r1 w1 => ∃ r1', exec_instr prev i r' w = Next r1' w1 ∧ agree global r1 r1'
  | Exit fl r1 w1 => exec_instr prev i r' w = Exit fl r' w1 ∧ r1 = r
  | Trap => exec_instr prev i r' w = Trap
  end.
Proof using.
  intros HA Hu. rewrite used_regs_operands in Hu.
  assert (match exec_generic i r w with
    | Next r1 w1 => ∃ r1', exec_generic i r' w = Next r1' w1 ∧ agree global r1 r1'
    | Exit fl r1 w1 => exec_generic i r' w = Exit fl r' w1 ∧ r1 = r
    | Trap => exec_generic i r' w = Trap end) as Hg.
  { unfold exec_generic. rewrite (agree_evals global r r') by done.
    destruct (m_exec _ _ _) as [[vs w1]|]; [|done]. eexists. split; [done|]. by apply agree_write. }
  destruct i; try exact Hg; cbn [exec_instr operands] in *.
  - destruct (find _ incoming) as [[v l]|] eqn:E; [|done]. apply find_Some in E as [E _]. simpl.
    assert (eval r v = eval r' v) as ->.
    { apply (agree_eval global); [done|]. intros id ->. apply Hu, elem_of_regs_of.
      by apply (list_elem_of_fmap_2 fst _ (Register id, l)). }
    eexists. split; [done|]. by apply (agree_write _ [dst] [eval r' v]).
  - by rewrite (agree_evals global r r').
  - done.
  - rewrite (agree_eval global r r'); [done|done|]. intros id ->. apply Hu. by left.
Qed.

Lemma agree_terminator global t r r' w :
  agree global r r' → (∀ id, id ∈ terminator_used_regs t → id ∈ global) →
  match exec_terminator t r w with
  | Exit fl r1 w1 => ∃ r1', exec_terminator t r' w = Exit fl r1' w1 ∧ agree global r1 r1'
  | _ => True
  end.
Proof using.
  intros HA Hu. destruct t as [l|c t f|vs| |d ts dflt|dst f args nl ul|f args|v];
    cbn [exec_terminator terminator_used_regs] in *; try done;
    try (rewrite (agree_evals global r r') by done);
    try (rewrite (agree_eval global r r');
      [|done|intros id ->; apply Hu; by left]); try (by eexists).
  destruct (m_invoke _ _ _) as [[[ok v] w1]|]; [|done]. eexists. split; [done|].
  by apply agree_write.
Qed.

Lemma dead_exec global prev i r r' w :
  agree global r r' → kept global i = false → unlisted_effect i = false →
  match exec_instr prev i r w with
  | Next r1 w1 => w1 = w ∧ agree global r1 r'
  | Exit _ _ _ => False
  | Trap => True
  end.
Proof.
  intros HA Hk Hu. unfold kept in Hk. apply orb_false_iff in Hk as [Hd Hs].
  assert (∀ id, id ∈ regs_of (dests i) → id ∉ global) as Hdead.
  { intros id Hid Hg. rewrite <-defined_regs_dests in Hid.
    rewrite <-not_true_iff_false in Hd. apply Hd, existsb_exists. exists id.
    split; [by apply list_elem_of_In|by apply bool_decide_eq_true]. }
  assert (match exec_generic i r w with
    | Next r1 w1 => w1 = w ∧ agree global r1 r' | Exit _ _ _ => False | Trap => True end) as Hg.
  { unfold exec_generic. destruct (m_exec _ _ _) as [[vs w1]|] eqn:E; [|done].
    split; [by eapply sm_pure|]. by apply agree_write_dead. }
  destruct i; try exact Hg; try done. cbn [exec_instr].
  destruct (find _ incoming) as [p|]; [|done]. split; [done|].
  by apply (agree_write_dead _ [dst] [eval r p.1]).
Qed.

Lemma dce_exec global prev code t r r' w fl r1 w1 :
  agree global r r' → (∀ id, id ∈ code ≫= used_regs → id ∈ global) →
  (∀ id, id ∈ terminator_used_regs t → id ∈ global) →
  Forall (λ i, unlisted_effect i = false) code →
  exec_block prev code t r w = Exit fl r1 w1 →
  ∃ r1', exec_block prev (filter (λ i, kept global i = true) code) t r' w = Exit fl r1' w1 ∧
         agree global r1 r1'.
Proof.
  intros HA Hu Ht. revert r r' w HA. induction code as [|i code IH]; intros r r' w HA Hne.
  { cbn [exec_block]. intros E. pose proof (agree_terminator global t r r' w HA Ht) as H.
    by rewrite E in H. }
  apply Forall_cons in Hne as [Hni Hne]. csimpl in Hu. rewrite filter_cons. cbn [exec_block].
  specialize (IH ltac:(intros id ?; apply Hu, elem_of_app; by right)).
  case_decide as Hk.
  - cbn [exec_block]. pose proof (agree_exec global prev i r r' w HA
      ltac:(intros id ?; apply Hu, elem_of_app; by left)) as H.
    destruct (exec_instr prev i r w) as [r2 w2|fl2 r2 w2|]; [|intros [= <- <- <-]|done].
    + destruct H as (r2' & -> & HA2). intros E. by apply (IH r2).
    + destruct H as [-> ->]. by exists r'.
  - apply not_true_iff_false in Hk. pose proof (dead_exec global prev i r r' w HA Hk Hni) as H.
    destruct (exec_instr prev i r w) as [r2 w2| |]; [|done..]. destruct H as [-> HA2].
    intros E. by apply (IH r2).
Qed.

Lemma dead_code_eliminate_runs f fuel args w res w1 :
  Forall no_unlisted (f_blocks f) →
  run_function fuel f args w = Done res w1 →
  run_function fuel (dead_code_eliminate f) args w = Done res w1.
Proof.
  intros Hne. unfold run_function, dead_code_eliminate. cbn [f_blocks with_blocks f_params].
  destruct (f_blocks f) as [|b bs] eqn:E; [done|]. rewrite fmap_cons, <-fmap_cons.
  change (b_label (dce_block (globally_used f) b)) with (b_label b). rewrite <-E in *.
  apply (run_sim (agree (globally_used f))); [done| |done].
  intros b' Hb' prev r r' w' fl r1 w2 HA Hrun. rewrite dce_block_filter by done.
  assert (block_used b' ⊆ globally_used f) as Hbu
    by (intros x Hx; apply elem_of_union_list; exists (block_used b');
        split; [by apply list_elem_of_fmap_2|done]).
  unfold block_used in Hbu. eapply dce_exec; [done|..|exact Hrun]; [set_solver|set_solver|].
  rewrite Forall_forall in Hne. by apply Hne.
Qed.

(** Dead-code elimination keeps completed runs: when a function without bulk copies,
    bulk fills and indirect calls completes with a result, the pruned function completes
    with the same result and the same world on any machine that obeys the laws. *)
Theorem dead_code_eliminate_correct f fuel args w res w1 :
  Forall no_unlisted (f_blocks f) →
  run_function fuel f args w = Done res w1 →
  run_function fuel (dead_code_eliminate f) args w = Done res w1.
Proof. apply dead_code_eliminate_runs. Qed.
End scalar.

(** Dead-code elimination removes every bulk copy, every bulk fill and every indirect
    call without a result: they define no register and [has_side_effects] does not list
    them, so the memory they write is no longer written and the function not called. *)
Theorem dead_code_eliminate_drops_bulk f b i :
  b ∈ f_blocks (dead_code_eliminate f) → i ∈ instructions b →
  match i with
  | I_BulkCopy _ _ _ | I_BulkFill _ _ _ | I_CallIndirect None _ _ => False
  | _ => True
  end.
Proof.
  unfold dead_code_eliminate. cbn [f_blocks with_blocks].
  intros (b0 & -> & Hb)%list_elem_of_fmap. rewrite dce_block_filter by done.
  intros [Hk _]%list_elem_of_filter. destruct i as [| | | | | | | | | | | | | | | | | | | | | | | | | | | | | | | | | |[]| | |]; done.
Qed.

(** *** The three passes in sequence *)

(** What folding does to an instruction, as far as the next passes can tell. *)
Definition shape (i i' : IRInstr) : Prop :=
  defined_regs i' = defined_regs i ∧ (∀ id, id ∈ key_uses i' → id ∈ key_uses i) ∧
  (cse_instr i → cse_instr i') ∧ (unlisted_effect i = false → unlisted_effect i' = false).

Lemma substitute_shape m i :
  const_map m → fresh_for m (defined_regs i) → shape i (substitute_instr m i).
Proof.
  intros Hm Hf. destruct (substitute_dests m i Hf) as [Hd _].
  split; [by rewrite !defined_regs_dests, Hd|]. split; [|split].
  - intros id. unfold key_uses.
    assert (compute_expr_key (substitute_instr m i) = None ∧ compute_expr_key i = None ∨
      is_Some (compute_expr_key (substitute_instr m i)) ∧ is_Some (compute_expr_key i))
      as [[-> ->]|[[k ->] [k0 ->]]] by (destruct i; eauto). { done. }
    rewrite !used_regs_operands, !elem_of_regs_of. intros Hid.
    induction (substitute_operands m i) as [|v v' l l' Hv _ IH]; [done|].
    apply elem_of_cons. apply elem_of_cons in Hid as [<-|Hid]; [left|right; by apply IH].
    destruct Hv as [<-|Hv]; [done|]. destruct v as [id0| | |]; try done. simpl in Hv.
    destruct (m !! id0) as [v|] eqn:E; [|done]. destruct (Hm id0 v E) as (z & -> & _). done.
  - unfold cse_instr. by rewrite Hd, substitute_int_only.
  - by destruct i.
Qed.

Lemma const_def_shape n i d c :
  wf_instr i → try_fold_instruction n i = Some (d, c) → shape i (const_def d c (fold_ty i c)).
Proof.
  intros Hwf Hf. pose proof (fold_dest n i d c Hf) as Hd.
  assert (defined_regs (const_def d c (fold_ty i c)) = [d] ∧
    key_uses (const_def d c (fold_ty i c)) = [] ∧
    dests (const_def d c (fold_ty i c)) = [Register d] ∧
    unlisted_effect (const_def d c (fold_ty i c)) = false) as (H1 & H2 & H3 & H4)
    by (unfold const_def; by destruct (fold_ty i c)).
  split; [by rewrite H1, defined_regs_dests, Hd|]. split; [intros id; rewrite H2; by intros ?%not_elem_of_nil|].
  split; [|done].
  intros [Hint _]. split; [|rewrite H3; by repeat constructor].
  unfold const_def. pose proof (fold_ty_int n i d c Hwf Hf) as Ht.
  destruct (fold_ty i c) as [ty|]; [|done]. simpl in *. by rewrite Ht.
Qed.

Lemma fold_instrs_shape n m code code' m' tds :
  const_map m → fresh_for m (code_defs code ++ tds) → NoDup (code_defs code ++ tds) →
  Forall wf_instr code → fold_instrs n m code = (code', m') →
  Forall2 shape code code' ∧ fresh_for m' tds.
Proof.
  revert m code' m'. induction code as [|i code IH]; intros m code' m' Hm Hf Hnd Hwf.
  { intros [= <- <-]. split; [constructor|done]. }
  apply Forall_cons in Hwf as [Hwi Hwf]. cbn [fold_instrs].
  unfold code_defs in Hf, Hnd. csimpl in Hf. csimpl in Hnd. fold (code_defs code) in *.
  rewrite <-app_assoc in Hf, Hnd. apply NoDup_app in Hnd as (_ & Hdis & Hnd2).
  assert (fresh_for m (defined_regs i)) as Hfi by (intros id ?; apply Hf; set_solver).
  assert (fresh_for m (code_defs code ++ tds)) as Hfc by (intros id ?; apply Hf; set_solver).
  assert (wf_instr (substitute_instr m i)) as Hwi' by by apply wf_substitute.
  pose proof (substitute_shape m i Hm Hfi) as Hsh.
  destruct (try_fold_instruction n (substitute_instr m i)) as [[d c]|] eqn:Ef.
  - destruct (fold_instrs n (<[d:=_]> m) code) as [code1 m1] eqn:E. intros [= <- <-].
    pose proof (fold_dest _ _ _ _ Ef) as Hd. pose proof (fold_i64 _ _ _ _ Hwi' Ef) as Hc.
    apply IH in E as [Hsh' Hf']; try done.
    + split; [|done]. constructor; [|done].
      destruct (const_def_shape n _ _ _ Hwi' Ef) as (A1 & A2 & A3 & A4).
      destruct Hsh as (B1 & B2 & B3 & B4). unfold shape. rewrite A1, B1. naive_solver.
    + intros id v [[<- <-]|[Hne Hv]]%lookup_insert_Some; [|by eapply Hm]. by exists c.
    + intros id Hid. rewrite lookup_insert_ne; [by apply Hfc|]. intros ->.
      apply (Hdis id); [|done]. destruct Hsh as [<- _]. rewrite defined_regs_dests, Hd. by left.
  - destruct (fold_instrs n m code) as [code1 m1] eqn:E. intros [= <- <-].
    apply IH in E as [Hsh' Hf']; try done. split; [|done]. by constructor.
Qed.

Lemma ssa_code_shape seen seen' code code' tds :
  seen' ⊆ seen → Forall2 shape code code' → ssa_code seen code tds → ssa_code seen' code' tds.
Proof.
  intros Hs HF. revert seen seen' Hs. induction HF as [|i i' code code' Hi _ IH];
    intros seen seen' Hs; simpl; [set_solver|].
  destruct Hi as (Hd & Hk & _). rewrite Hd. intros [H1 H2]. split.
  - intros id Hid. destruct (H1 id Hid). split; [set_solver|]. naive_solver.
  - eapply IH; [|exact H2]. rewrite !list_to_set_app_L. intros id. rewrite !elem_of_union, !elem_of_list_to_set.
    naive_solver.
Qed.

Lemma cse_instrs_unlisted vm m code :
  Forall (λ i, unlisted_effect i = false) code →
  Forall (λ i, unlisted_effect i = false) (cse_instrs vm m code).1.
Proof.
  intros H. revert vm m. induction H as [|i code Hi _ IH]; intros vm m; [done|]. cbn [cse_instrs].
  assert (unlisted_effect (substitute_instr m i) = false) as Hi' by by destruct i.
  assert (∀ vm, Forall (λ i, unlisted_effect i = false)
    (let '(code, subst) := cse_instrs vm m code in (substitute_instr m i :: code, subst)).1) as Hk.
  { intros vm'. specialize (IH vm' m). destruct (cse_instrs vm' m code). by constructor. }
  destruct (compute_expr_key _); [|apply Hk]. destruct (key_lookup _ _).
  - destruct (get_defined_value _) as [[id| | |]|]; try apply Hk.
    specialize (IH vm (<[id:=i0]> m)). destruct (cse_instrs _ _ code). by constructor.
  - destruct (get_defined_value _); apply Hk.
Qed.

(** A function the three passes can be run on. *)
Record pass_ready (f : IRFunction) : Prop := {
  pr_single : Forall single_assignment (f_blocks f);
  pr_ssa : Forall ssa_block (f_blocks f);
  pr_wf : Forall wf_block (f_blocks f);
  pr_cse : Forall cse_ok (f_blocks f);
  pr_effects : Forall no_unlisted (f_blocks f);
}.

Lemma constant_fold_ready n f :
  pass_ready f →
  Forall ssa_block (f_blocks (constant_fold n f)) ∧ Forall cse_ok (f_blocks (constant_fold n f)) ∧
  Forall no_unlisted (f_blocks (constant_fold n f)).
Proof.
  intros [H1 H2 H3 H4 H5]. unfold constant_fold. cbn [f_blocks with_blocks].
  rewrite !Forall_fmap, <-!Forall_and. rewrite Forall_forall in *. intros b Hb. unfold compose.
  specialize (H1 b Hb). specialize (H2 b Hb). specialize (H3 b Hb). specialize (H4 b Hb).
  specialize (H5 b Hb). unfold constant_fold_block, ssa_block, cse_ok, no_unlisted in *.
  destruct (fold_instrs n ∅ (instructions b)) as [code m] eqn:E.
  cbn [instructions terminator set_code].
  apply (fold_instrs_shape _ _ _ _ _ (term_defs (terminator b))) in E as [Hsh Hf]; try done.
  assert (term_defs (substitute_terminator m (terminator b)) = term_defs (terminator b)) as ->.
  { destruct (terminator b); try done. destruct dst as [d|]; [|done].
    apply substitute_values_fresh in Hf. unfold term_defs. by f_equal. }
  split; [by eapply ssa_code_shape|]. split.
  - clear -Hsh H4. induction Hsh as [|i i' l l' Hi _ IH]; [constructor|].
    apply Forall_cons in H4 as [H4 H4']. constructor; [|by apply IH]. by apply Hi.
  - clear -Hsh H5. induction Hsh as [|i i' l l' Hi _ IH]; [constructor|].
    apply Forall_cons in H5 as [H5 H5']. constructor; [|by apply IH]. by apply Hi.
Qed.


(** ** Examples *)

Definition plain_nan : NanBits := {| nan64 := 2 ^ 63 - 2 ^ 51; nan32 := 2 ^ 31 - 2 ^ 22 |}.

Definition one_block (params : list IRValue) (code : list IRInstr) (t : IRTerminator) :
    IRFunction :=
  {| f_name := "f"; f_params := params; f_results := []; f_param_types := [];
     f_result_types := []; f_vregs := ∅; f_blocks := [set_code (IRBlock_new "entry") code t];
     f_source_file := ""; f_vreg_meta := ∅ |}.

Definition sample : IRFunction :=
  one_block [Register 0]
    [ I_Add (Register 1) (Immediate 2) (Immediate 3) None;
      I_Add (Register 2) (Register 0) (Register 1) None;
      I_BinOp Add (Register 3) (Register 0) (Register 1) (Some I64);
      I_Mul (Register 4) (Register 2) (Register 3) None;
      I_Sub (Register 5) (Register 0) (Register 4) None;
      I_Store (Register 4) (Immediate 16) 8 I64 ]
    (T_Return [Register 4]).

Definition sample_run (f : IRFunction) : run_result memory :=
  run_function (M := word_machine plain_nan) 1 f [7] ∅.

Lemma sample_single : Forall single_assignment (f_blocks sample).
Proof.
  repeat constructor; unfold single_assignment; apply (bool_decide_unpack _); vm_compute; exact I.
Qed.

Lemma sample_wf : Forall wf_block (f_blocks sample).
Proof. repeat constructor; by unfold is_i64. Qed.

Lemma sample_ssa : Forall ssa_block (f_blocks sample).
Proof. repeat constructor; cbn; set_solver. Qed.

Lemma sample_ready : pass_ready sample.
Proof.
  split; [apply sample_single|apply sample_ssa|apply sample_wf|by repeat constructor..].
Qed.



Lemma dead_code_eliminate_correct_witness :
  sample_run sample = Done (Returned [144]) {[24 := 144]} ∧
  sample_run (dead_code_eliminate sample) = Done (Returned [144]) {[24 := 144]}.
Proof.
  split; [vm_compute; reflexivity|].
  apply (dead_code_eliminate_correct (n := plain_nan) sample 1 [7] ∅); [apply sample_ready|].
  vm_compute. reflexivity.
Defined.


Lemma dead_code_eliminate_drops_bulk_witness :
  let f := one_block [] [I_BulkFill (Immediate 0) (Immediate 1) (Immediate 8)] (T_Return []) in
  sample_run f ≠ sample_run (dead_code_eliminate f) ∧
  ∀ b i, b ∈ f_blocks (dead_code_eliminate f) → i ∈ instructions b →
    match i with I_BulkFill _ _ _ => False | _ => True end.
Proof.
  split; [vm_compute; discriminate|]. intros b i Hb Hi.
  pose proof (dead_code_eliminate_drops_bulk _ b i Hb Hi) as H. by destruct i.
Defined.

(** Substitution also replaces the destination of an instruction, so folding is wrong
    for a register that is assigned again in its block: the second assignment is lost and
    the first constant returned. *)
Theorem constant_fold_loses_reassignment :
  let f := one_block [Register 0]
    [ I_Add (Register 1) (Immediate 5) (Immediate 0) None;
      I_Add (Register 1) (Register 0) (Register 1) None ] (T_Return [Register 1]) in
  sample_run f = Done (Returned [12]) ∅ ∧
  sample_run (constant_fold plain_nan f) = Done (Returned [5]) ∅ ∧
  f_blocks (constant_fold plain_nan f) = [set_code (IRBlock_new "entry")
    [ I_Add (Register 1) (Immediate 5) (Immediate 0) None;
      I_Add (Immediate 5) (Register 0) (Immediate 5) None ] (T_Return [Immediate 5])].
Proof. vm_compute. done. Qed.

(** The bits of some numbers. *)
Definition f64_one : Z := 1023 * 2 ^ 52.
Definition f64_minus_one : Z := as_i64 (2 ^ 63 + f64_one).
Definition f64_two : Z := 1024 * 2 ^ 52.
Definition f32_three_and_half : Z := 0x40600000.

(** Floating-point folding, for any choice of the not-a-number: the product of -1 and 0
    folds to -0, which folding once more turns into +0; an [Add] tagged [F64] is folded as
    an integer addition, so 1 + 1 is not 2, which the [BinOp] with the same tag gives; and
    a folded [f32] converted to an integer is read as an [f64], so 3.5 becomes 0. *)
Theorem fold_float_defects n :
  (∃ c, try_fold_instruction n
          (I_BinOp Mul (Register 0) (Immediate f64_minus_one) (Immediate 0) (Some F64)) = Some (0, c) ∧
     c = - 2 ^ 63 ∧
     try_fold_instruction n (const_def 0 c (Some F64)) = Some (0, 0)) ∧
  (try_fold_instruction n (I_BinOp Add (Register 0) (Immediate f64_one) (Immediate f64_one) (Some F64))
     = Some (0, f64_two) ∧
   ∃ c, try_fold_instruction n
          (I_Add (Register 0) (Immediate f64_one) (Immediate f64_one) (Some F64)) = Some (0, c) ∧
        c ≠ f64_two) ∧
  (∃ c, try_fold_instruction n
          (I_BinOp Add (Register 0) (Immediate 0x40400000) (Immediate 0x3F000000) (Some F32))
          = Some (0, c) ∧ c = f32_three_and_half ∧
        try_fold_instruction n (I_Cast FloatToInt (Register 1) (Immediate c) (Some F32) (Some I64))
          = Some (1, 0)).
Proof.
  split; [|split].
  - eexists. split; [vm_compute; reflexivity|]. split; vm_compute; reflexivity.
  - split; [vm_compute; reflexivity|]. eexists. split; [vm_compute; reflexivity|].
    vm_compute. discriminate.
  - eexists. split; [vm_compute; reflexivity|]. split; vm_compute; reflexivity.
Qed.
