(* ===== verification/Json.v ===== *)
(** * JSON values

    Models [src/src/json_value.rs]: the value type with its accessors, the compact and the
    pretty printer, and the recursive-descent parser.  Text is a list of bytes: a Rust
    [String] is the list of its UTF-8 bytes, and a character of more than one byte is
    printed as the bytes it is read from.  An error is its position and a constructor for
    the place that raised it, in place of the message.  The floating-point numbers with
    their printing and reading are parameters.  The parser runs on fuel; [Panic] means
    that it ended, which [parse_total] excludes. *)

From S2P Require Import Prelude.
From stdpp Require Import options.
#[local] Open Scope Z_scope.

Definition text : Type := list Z.

(** The bytes of an ASCII literal. *)
Fixpoint lit (s : string) : text :=
  match s with
  | EmptyString => []
  | String c s => Z.of_N (Ascii.N_of_ascii c) :: lit s
  end.

Definition quote : Z := 34.
Definition bslash : Z := 92.
Definition comma : Z := 44.
Definition colon : Z := 58.
Definition lbrace : Z := 123.
Definition rbrace : Z := 125.
Definition lbracket : Z := 91.
Definition rbracket : Z := 93.
Definition minus : Z := 45.
Definition newline : Z := 10.
Definition space : Z := 32.

Definition is_digit (b : Z) : bool := (48 <=? b) && (b <=? 57).

(** ** UTF-8, as the standard library reads and writes it *)

Definition cont (b : Z) : bool := (128 <=? b) && (b <=? 191).
Definition within (lo hi b : Z) : bool := (lo <=? b) && (b <=? hi).

(** [str::from_utf8]. *)
Fixpoint utf8_valid (l : text) : bool :=
  match l with
  | [] => true
  | b :: l1 =>
      if within 0 127 b then utf8_valid l1
      else if within 194 223 b then
        match l1 with c1 :: l2 => cont c1 && utf8_valid l2 | _ => false end
      else if within 224 239 b then
        match l1 with
        | c1 :: c2 :: l2 =>
            (if b =? 224 then within 160 191 c1 else if b =? 237 then within 128 159 c1 else cont c1) &&
            cont c2 && utf8_valid l2
        | _ => false
        end
      else if within 240 244 b then
        match l1 with
        | c1 :: c2 :: c3 :: l2 =>
            (if b =? 240 then within 144 191 c1 else if b =? 244 then within 128 143 c1 else cont c1) &&
            cont c2 && cont c3 && utf8_valid l2
        | _ => false
        end
      else false
  end.

(** [char::from_u32] and [char::encode_utf8]. *)
Definition is_char (c : Z) : bool := within 0 55295 c || within 57344 1114111 c.

Definition encode_utf8 (c : Z) : text :=
  if c <? 128 then [c]
  else if c <? 2048 then [192 + c / 64; 128 + c `mod` 64]
  else if c <? 65536 then [224 + c / 4096; 128 + (c / 64) `mod` 64; 128 + c `mod` 64]
  else [240 + c / 262144; 128 + (c / 4096) `mod` 64; 128 + (c / 64) `mod` 64; 128 + c `mod` 64].

(** ** Numbers in text *)

(** [to_string] of an unsigned integer of at most 20 digits. *)
Fixpoint dec_digits (n : nat) (z : Z) : text :=
  match n with
  | O => []
  | S n => if z <? 10 then [48 + z] else dec_digits n (z / 10) ++ [48 + z `mod` 10]
  end.
Definition dec (z : Z) : text := dec_digits 20 z.
Definition dec_signed (z : Z) : text := if z <? 0 then minus :: dec (- z) else dec z.

(** [str::parse] for an integer whose characters are digits: it fails on the empty string
    and on a value out of range. *)
Definition digits_value (l : text) : Z := foldl (λ a b, a * 10 + (b - 48)) 0 l.
Definition parse_unsigned (hi : Z) (l : text) : option Z :=
  match l with
  | [] => None
  | _ => let v := digits_value l in if v <=? hi then Some v else None
  end.

(** [u32::from_str_radix] on at most four characters, base 16: a leading plus sign is
    allowed. *)
Definition hex_value (b : Z) : option Z :=
  if within 48 57 b then Some (b - 48)
  else if within 97 102 b then Some (b - 87)
  else if within 65 70 b then Some (b - 55)
  else None.

Fixpoint hex_digits_value (acc : Z) (l : text) : option Z :=
  match l with
  | [] => Some acc
  | b :: l => d ← hex_value b; hex_digits_value (acc * 16 + d) l
  end.

Definition from_str_radix16 (l : text) : option Z :=
  match l with
  | [] => None
  | b :: l' =>
      if b =? 43 then match l' with [] => None | _ => hex_digits_value 0 l' end
      else hex_digits_value 0 l
  end.

(** Decide the tests on constant bytes. *)
Ltac dispatch :=
  repeat match goal with
  | |- context [if ?b then _ else _] =>
      let v := eval vm_compute in b in
      match v with true => change b with true | false => change b with false end; cbv iota
  end.

(** ** Values *)

Section json.
  Context {F : Type}.
  (** [f64]: [to_string] and [str::parse]. *)
  Context (f64_fmt : F → text) (f64_parse : text → option F).

#[local] Set Default Proof Using "All".

Inductive JsonValue : Type :=
  | Null
  | Bool (b : bool)
  | JI64 (n : Z)
  | JU64 (n : Z)
  | JF64 (x : F)
  | Str (s : text)
  | JArray (items : list JsonValue)
  | JObject (entries : list (text * JsonValue)).

Definition is_object (v : JsonValue) : bool := match v with JObject _ => true | _ => false end.
Definition is_array (v : JsonValue) : bool := match v with JArray _ => true | _ => false end.
Definition is_null (v : JsonValue) : bool := match v with Null => true | _ => false end.

Definition get (v : JsonValue) (key : text) : option JsonValue :=
  match v with
  | JObject entries => snd <$> find (λ e, bool_decide (e.1 = key)) entries
  | _ => None
  end.

Definition as_u64 (v : JsonValue) : option Z :=
  match v with
  | JU64 n => Some n
  | JI64 n => if 0 <=? n then Some n else None
  | _ => None
  end.
Definition as_i64_value (v : JsonValue) : option Z :=
  match v with
  | JI64 n => Some n
  | JU64 n => if n <=? 2 ^ 63 - 1 then Some n else None
  | _ => None
  end.
Definition as_bool (v : JsonValue) : option bool := match v with Bool b => Some b | _ => None end.
Definition as_str (v : JsonValue) : option text := match v with Str s => Some s | _ => None end.
Definition as_array (v : JsonValue) : option (list JsonValue) :=
  match v with JArray l => Some l | _ => None end.
Definition as_object (v : JsonValue) : option (list (text * JsonValue)) :=
  match v with JObject l => Some l | _ => None end.

(** Replace the value of the first entry with the key, or append the entry. *)
Fixpoint insert_entry (entries : list (text * JsonValue)) (key : text) (value : JsonValue) :
    list (text * JsonValue) :=
  match entries with
  | [] => [(key, value)]
  | (k, v) :: entries =>
      if bool_decide (k = key) then (k, value) :: entries
      else (k, v) :: insert_entry entries key value
  end.

Definition insert (v : JsonValue) (key : text) (value : JsonValue) : JsonValue :=
  match v with JObject entries => JObject (insert_entry entries key value) | _ => v end.

Definition push (v : JsonValue) (value : JsonValue) : JsonValue :=
  match v with JArray items => JArray (items ++ [value]) | _ => v end.

Definition from_i64 (n : Z) : JsonValue := if 0 <=? n then JU64 n else JI64 n.
Definition from_option {T} (into : T → JsonValue) (v : option T) : JsonValue :=
  match v with Some t => into t | None => Null end.
Definition from_vec {T} (into : T → JsonValue) (v : list T) : JsonValue := JArray (into <$> v).

Definition json_opt_string (s : option text) : JsonValue := from_option Str s.
Definition json_opt_u64 (n : option Z) : JsonValue := from_option JU64 n.
Definition json_u64_array (arr : list Z) : JsonValue := from_vec JU64 arr.
Definition json_string_array (arr : list text) : JsonValue := from_vec Str arr.
(** The entries of a [BTreeMap] in the order of its keys. *)
Definition json_btreemap_usize (entries : list (text * Z)) : JsonValue :=
  JObject ((λ '(k, n), (k, JU64 n)) <$> entries).

(** ** Printing *)

Definition hex4 (z : Z) : text := lit (hex_digits 4 z).

Definition escape_byte (c : Z) : text :=
  if c =? quote then [bslash; quote]
  else if c =? bslash then [bslash; bslash]
  else if c =? 8 then bslash :: lit "b"
  else if c =? 12 then bslash :: lit "f"
  else if c =? 10 then bslash :: lit "n"
  else if c =? 13 then bslash :: lit "r"
  else if c =? 9 then bslash :: lit "t"
  else if c <? 32 then bslash :: lit "u" ++ hex4 c
  else [c].

Definition write_json_string (s : text) : text := quote :: (s ≫= escape_byte) ++ [quote].

Definition quote_string (s : text) : text := write_json_string s.

Definition push_indent (indent : nat) : text := mjoin (replicate indent [space; space]).

(** The loops over the items of an array or the entries of an object; [w] writes one. *)
Definition compact_items {A} (w : A → text) : bool → list A → text :=
  fix items (first : bool) (l : list A) : text :=
    match l with
    | [] => []
    | item :: l => (if first then [] else [comma]) ++ w item ++ items false l
    end.

Definition pretty_items {A} (w : A → text) (indent : nat) : list A → text :=
  fix items (l : list A) : text :=
    match l with
    | [] => []
    | item :: l =>
        push_indent (S indent) ++ w item ++ (match l with [] => [] | _ => [comma] end) ++
        newline :: items l
    end.

Fixpoint write_compact (v : JsonValue) : text :=
  match v with
  | Null => lit "null"
  | Bool b => lit (if b then "true" else "false")
  | JI64 n => dec_signed n
  | JU64 n => dec n
  | JF64 x => f64_fmt x
  | Str s => write_json_string s
  | JArray arr => lbracket :: compact_items write_compact true arr ++ [rbracket]
  | JObject entries =>
      lbrace :: compact_items (λ '(k, v), write_json_string k ++ colon :: write_compact v)
                  true entries ++ [rbrace]
  end.

Fixpoint write_pretty (indent : nat) (v : JsonValue) : text :=
  match v with
  | Null => lit "null"
  | Bool b => lit (if b then "true" else "false")
  | JI64 n => dec_signed n
  | JU64 n => dec n
  | JF64 x => f64_fmt x
  | Str s => write_json_string s
  | JArray [] => [lbracket; rbracket]
  | JArray arr =>
      lbracket :: newline :: pretty_items (write_pretty (S indent)) indent arr ++
      push_indent indent ++ [rbracket]
  | JObject [] => [lbrace; rbrace]
  | JObject entries =>
      lbrace :: newline ::
      pretty_items (λ '(k, v), write_json_string k ++ colon :: space :: write_pretty (S indent) v)
        indent entries ++
      push_indent indent ++ [rbrace]
  end.

Definition to_string_compact (v : JsonValue) : text := write_compact v.
Definition to_string_pretty (v : JsonValue) : text := write_pretty 0 v.

(** ** Parsing *)

Inductive JsonErrorKind : Type :=
  | TrailingCharacters (got : Z)
  | ExpectedEnd (expected : Z)
  | ExpectedFound (expected found : Z)
  | DepthExceeded
  | ValueEnd
  | UnexpectedCharacter (got : Z)
  | LiteralEnd (literal : text)
  | LiteralExpected (literal : text)
  | ObjectSeparator
  | ArraySeparator
  | InvalidUtf8
  | TrailingBackslash
  | TruncatedEscape
  | EscapeUtf8
  | EscapeHex
  | NoLowSurrogate
  | LowSurrogateUtf8
  | LowSurrogateHex
  | InvalidLowSurrogate
  | InvalidSurrogatePair (c : Z)
  | UnexpectedLowSurrogate
  | InvalidCodepoint (c : Z)
  | InvalidEscape (esc : Z)
  | RawControl (b : Z)
  | Unterminated
  | InvalidFloat (s : text)
  | InvalidInteger (s : text).

Record JsonError := { je_pos : Z; je_kind : JsonErrorKind }.

(** The parser's position and the bytes from there on. *)
Record cursor := { c_pos : Z; c_rest : text }.

Definition err {A} (c : cursor) (k : JsonErrorKind) : result A JsonError :=
  Err {| je_pos := c_pos c; je_kind := k |}.

Definition advance (c : cursor) (n : nat) : cursor :=
  {| c_pos := c_pos c + Z.of_nat n; c_rest := drop n (c_rest c) |}.

Definition peek (c : cursor) : option Z := head (c_rest c).

Definition is_ws (b : Z) : bool := (b =? 32) || (b =? 9) || (b =? 10) || (b =? 13).

(** The length of the longest prefix of bytes that satisfy the test. *)
Fixpoint span_len (p : Z → bool) (l : text) : nat :=
  match l with
  | [] => O
  | b :: l => if p b then S (span_len p l) else O
  end.

Definition skip_ws (c : cursor) : cursor := advance c (span_len is_ws (c_rest c)).

Definition expect (c : cursor) (expected : Z) : result cursor JsonError :=
  match c_rest c with
  | [] => err c (ExpectedEnd expected)
  | b :: _ => if b =? expected then Ok (advance c 1) else err c (ExpectedFound expected b)
  end.

Definition MAX_DEPTH : nat := 512.

Definition parse_literal (c : cursor) (literal : string) (value : JsonValue) :
    result (JsonValue * cursor) JsonError :=
  let l := lit literal in
  if (length (c_rest c) <? length l)%nat then err c (LiteralEnd l)
  else if bool_decide (take (length l) (c_rest c) = l) then Ok (value, advance c (length l))
  else err c (LiteralExpected l).

Definition simple_escape (esc : Z) : option Z :=
  if esc =? quote then Some quote
  else if esc =? bslash then Some bslash
  else if esc =? 47 then Some 47
  else if esc =? 98 then Some 8
  else if esc =? 102 then Some 12
  else if esc =? 110 then Some 10
  else if esc =? 114 then Some 13
  else if esc =? 116 then Some 9
  else None.

Definition at_pos (pos : Z) (rest : text) : cursor := {| c_pos := pos; c_rest := rest |}.

(** The bytes of the string after the opening quote; [pos] is the position of [rest]. *)
Fixpoint parse_chars (out : text) (pos : Z) (rest : text) : result (text * cursor) JsonError :=
  match rest with
  | [] => err (at_pos pos rest) Unterminated
  | b :: rest1 =>
      if b =? quote then
        if utf8_valid out then Ok (out, at_pos (pos + 1) rest1)
        else err (at_pos (pos + 1) rest1) InvalidUtf8
      else if b =? bslash then
        match rest1 with
        | [] => err (at_pos (pos + 1) rest1) TrailingBackslash
        | esc :: rest2 =>
            match simple_escape esc with
            | Some c => parse_chars (out ++ [c]) (pos + 2) rest2
            | None =>
                if esc =? 117 then
                  let here := at_pos (pos + 2) rest2 in
                  match rest2 with
                  | h1 :: h2 :: h3 :: h4 :: rest3 =>
                      if negb (utf8_valid [h1; h2; h3; h4]) then err here EscapeUtf8 else
                      match from_str_radix16 [h1; h2; h3; h4] with
                      | None => err here EscapeHex
                      | Some code =>
                          let here := at_pos (pos + 6) rest3 in
                          if within 55296 56319 code then
                            match rest3 with
                            | s :: u :: l1 :: l2 :: l3 :: l4 :: rest4 =>
                                if negb (s =? bslash) || negb (u =? 117)
                                then err here NoLowSurrogate
                                else if negb (utf8_valid [l1; l2; l3; l4])
                                then err here LowSurrogateUtf8
                                else match from_str_radix16 [l1; l2; l3; l4] with
                                     | None => err here LowSurrogateHex
                                     | Some lo =>
                                         if negb (within 56320 57343 lo)
                                         then err here InvalidLowSurrogate
                                         else
                                           let combined :=
                                             65536 + Z.shiftl (code - 55296) 10 + (lo - 56320) in
                                           if is_char combined
                                           then parse_chars (out ++ encode_utf8 combined)
                                                  (pos + 12) rest4
                                           else err (at_pos (pos + 12) rest4)
                                                  (InvalidSurrogatePair combined)
                                     end
                            | _ => err here NoLowSurrogate
                            end
                          else if within 56320 57343 code then err here UnexpectedLowSurrogate
                          else if is_char code
                          then parse_chars (out ++ encode_utf8 code) (pos + 6) rest3
                          else err here (InvalidCodepoint code)
                      end
                  | _ => err here TruncatedEscape
                  end
                else err (at_pos (pos + 2) rest2) (InvalidEscape esc)
            end
        end
      else if within 0 31 b then err (at_pos (pos + 1) rest1) (RawControl b)
      else parse_chars (out ++ [b]) (pos + 1) rest1
  end.

Definition parse_string (c : cursor) : result (text * cursor) JsonError :=
  match expect c quote with
  | Ok c => parse_chars [] (c_pos c) (c_rest c)
  | Err e => Err e
  end.

Definition starts (p : Z → bool) (l : text) : bool :=
  match l with b :: _ => p b | [] => false end.

(** The lengths of the parts of a number: the sign, the integer (a zero, or digits), the
    fraction and the exponent. *)
Definition sign_len (l : text) : nat := if starts (Z.eqb minus) l then 1 else 0.
Definition int_len (l : text) : nat := if starts (Z.eqb 48) l then 1 else span_len is_digit l.
Definition frac_len (l : text) : nat :=
  if starts (Z.eqb 46) l then S (span_len is_digit (drop 1 l)) else 0.
Definition exp_len (l : text) : nat :=
  if starts (λ b, (b =? 101) || (b =? 69)) l then
    let l := drop 1 l in
    let s := if starts (λ b, (b =? 43) || (b =? 45)) l then 1%nat else 0%nat in
    S (s + span_len is_digit (drop s l))%nat
  else 0.

(** The length of a number, and whether it has a fraction or an exponent. *)
Definition number_scan (l : text) : nat * bool :=
  let n := sign_len l in
  let n := (n + int_len (drop n l))%nat in
  let f := frac_len (drop n l) in
  let e := exp_len (drop (n + f) l) in
  ((n + f + e)%nat, negb (f =? 0)%nat || negb (e =? 0)%nat).

Definition parse_number (c : cursor) : result (JsonValue * cursor) JsonError :=
  let '(n, is_float) := number_scan (c_rest c) in
  let s := take n (c_rest c) in
  let c := advance c n in
  if is_float then
    match f64_parse s with
    | Some x => Ok (JF64 x, c)
    | None => err c (InvalidFloat s)
    end
  else
    match s with
    | 45 :: digits =>
        match parse_unsigned (2 ^ 63) digits with
        | Some v => Ok (JI64 (- v), c)
        | None => err c (InvalidInteger s)
        end
    | _ =>
        match parse_unsigned U64_MAX s with
        | Some v => Ok (JU64 v, c)
        | None => err c (InvalidInteger s)
        end
    end.

#[local] Notation parsed A := (outcome (result (A * cursor) JsonError)).

Definition bind_parsed {A B} (m : result A JsonError) (k : A → parsed B) : parsed B :=
  match m with Ok a => k a | Err e => Ret (Err e) end.

Fixpoint parse_value (fuel : nat) (depth : nat) (c : cursor) : parsed JsonValue :=
  match fuel with
  | O => Panic
  | S fuel =>
      if (MAX_DEPTH <? depth)%nat then Ret (err c DepthExceeded) else
      let c := skip_ws c in
      match c_rest c with
      | [] => Ret (err c ValueEnd)
      | b :: _ =>
          if b =? lbrace then
            bind_parsed (expect c lbrace) (λ c,
            let c := skip_ws c in
            if bool_decide (peek c = Some rbrace) then Ret (Ok (JObject [], advance c 1))
            else object_loop fuel depth [] c)
          else if b =? lbracket then
            bind_parsed (expect c lbracket) (λ c,
            let c := skip_ws c in
            if bool_decide (peek c = Some rbracket) then Ret (Ok (JArray [], advance c 1))
            else array_loop fuel depth [] c)
          else if b =? quote then
            Ret match parse_string c with Ok (s, c) => Ok (Str s, c) | Err e => Err e end
          else if b =? 116 then Ret (parse_literal c "true" (Bool true))
          else if b =? 102 then Ret (parse_literal c "false" (Bool false))
          else if b =? 110 then Ret (parse_literal c "null" Null)
          else if (b =? minus) || is_digit b then Ret (parse_number c)
          else Ret (err c (UnexpectedCharacter b))
      end
  end
with object_loop (fuel depth : nat) (entries : list (text * JsonValue)) (c : cursor) :
    parsed JsonValue :=
  match fuel with
  | O => Panic
  | S fuel =>
      bind_parsed (parse_string (skip_ws c)) (λ '(key, c),
      bind_parsed (expect (skip_ws c) colon) (λ c,
      r ← parse_value fuel (S depth) c;
      bind_parsed r (λ '(value, c),
      let entries := insert_entry entries key value in
      let c := skip_ws c in
      if bool_decide (peek c = Some comma) then
        let c := skip_ws (advance c 1) in
        if bool_decide (peek c = Some rbrace) then Ret (Ok (JObject entries, advance c 1))
        else object_loop fuel depth entries c
      else if bool_decide (peek c = Some rbrace) then Ret (Ok (JObject entries, advance c 1))
      else Ret (err c ObjectSeparator))))
  end
with array_loop (fuel depth : nat) (items : list JsonValue) (c : cursor) : parsed JsonValue :=
  match fuel with
  | O => Panic
  | S fuel =>
      r ← parse_value fuel (S depth) c;
      bind_parsed r (λ '(value, c),
      let items := items ++ [value] in
      let c := skip_ws c in
      if bool_decide (peek c = Some comma) then
        let c := skip_ws (advance c 1) in
        if bool_decide (peek c = Some rbracket) then Ret (Ok (JArray items, advance c 1))
        else array_loop fuel depth items c
      else if bool_decide (peek c = Some rbracket) then Ret (Ok (JArray items, advance c 1))
      else Ret (err c ArraySeparator))
  end.

(** Two units of fuel for every byte, and one more. *)
Definition parse (json : text) : outcome (result JsonValue JsonError) :=
  let c := skip_ws (at_pos 0 json) in
  r ← parse_value (2 * length json + 1) 0 c;
  mret match r with
       | Err e => Err e
       | Ok (value, c) =>
           let c := skip_ws c in
           match c_rest c with
           | [] => Ok value
           | b :: _ => err c (TrailingCharacters b)
           end
       end.

(** ** Specification *)

(** Nesting of a value. *)
Fixpoint height (v : JsonValue) : nat :=
  match v with
  | JArray items => foldr (λ v n, Nat.max (S (height v)) n) O items
  | JObject entries => foldr (λ e n, Nat.max (S (height e.2)) n) O entries
  | _ => O
  end.

(** Strings are UTF-8, integers in the range of their type, keys distinct. *)
Fixpoint wf_json (v : JsonValue) : Prop :=
  match v with
  | JI64 n => - 2 ^ 63 ≤ n ≤ 0
  | JU64 n => is_u64 n
  | Str s => utf8_valid s = true
  | JArray items => foldr (λ v P, wf_json v ∧ P) True items
  | JObject entries =>
      NoDup entries.*1 ∧ foldr (λ e P, (utf8_valid e.1 = true ∧ wf_json e.2) ∧ P) True entries
  | _ => True
  end.

(** The numbers that are read back as they were: a negative [I64], an [F64] whose text is a
    number with a fraction or an exponent. *)
Fixpoint prints_back (v : JsonValue) : Prop :=
  match v with
  | JI64 n => n < 0
  | JF64 x =>
      f64_parse (f64_fmt x) = Some x ∧ number_scan (f64_fmt x) = (length (f64_fmt x), true) ∧
      starts (λ b, (b =? minus) || is_digit b) (f64_fmt x) = true
  | JArray items => foldr (λ v P, prints_back v ∧ P) True items
  | JObject entries => foldr (λ e P, prints_back e.2 ∧ P) True entries
  | _ => True
  end.

(** ** Lemmas *)

Definition len (c : cursor) : nat := length (c_rest c).

Lemma span_len_le p l : (span_len p l ≤ length l)%nat.
Proof. induction l as [|b l IH]; simpl; [done|]. destruct (p b); lia. Qed.

Lemma len_advance c n : len (advance c n) = (len c - n)%nat.
Proof. unfold len, advance. simpl. by rewrite length_drop. Qed.

Lemma len_skip_ws c : (len (skip_ws c) ≤ len c)%nat.
Proof. unfold skip_ws. rewrite len_advance. lia. Qed.

Lemma expect_Ok c b c' :
  expect c b = Ok c' → c' = advance c 1 ∧ (len c' < len c)%nat ∧ head (c_rest c) = Some b.
Proof.
  unfold expect, err. destruct (c_rest c) as [|b' l] eqn:E; [done|].
  destruct (Z.eqb_spec b' b) as [->|]; [|done]. intros [= <-]. split; [done|].
  rewrite len_advance. unfold len. rewrite E. simpl. split; [lia|done].
Qed.


Lemma parse_chars_Ok n rest out pos s c :
  (length rest ≤ n)%nat → parse_chars out pos rest = Ok (s, c) →
  (len c < length rest)%nat ∧ utf8_valid s = true.
Proof.
  revert rest out pos. induction n as [|n IH]; intros [|b rest] out pos Hn; cbn [parse_chars];
    unfold err; try done; simpl in Hn; [lia|].
  repeat (case_match; try discriminate);
    try (intros [= <- <-]; unfold len; simpl; split; [lia|done]);
    intros Hrec; apply IH in Hrec as [Hrec1 Hrec2]; simpl in *; first [split; [lia|done]|lia].
Qed.

Lemma parse_string_Ok c s c' :
  parse_string c = Ok (s, c') → (len c' < len c)%nat ∧ utf8_valid s = true.
Proof.
  unfold parse_string. destruct (expect c quote) as [c1|] eqn:E; [|done].
  apply expect_Ok in E as (_ & Hl & _). intros [H1 H2]%(parse_chars_Ok (len c1)); [|done].
  split; [unfold len in *; lia|done].
Qed.

Lemma parse_literal_Ok c l v r c' :
  l ≠ "" → parse_literal c l v = Ok (r, c') → (len c' < len c)%nat ∧ r = v.
Proof.
  intros Hl. unfold parse_literal, err. destruct (Nat.ltb_spec (length (c_rest c)) (length (lit l)));
    [done|]. case_bool_decide; [|done]. intros [= <- <-]. rewrite len_advance. unfold len.
  split; [|done]. destruct l; [done|]. simpl in *. lia.
Qed.

Lemma digits_value_nonneg l a : 0 ≤ a → Forall (λ b, 48 ≤ b) l →
  0 ≤ foldl (λ a b, a * 10 + (b - 48)) a l.
Proof.
  intros Ha H. revert a Ha. induction H as [|b l Hb _ IH]; intros a Ha; simpl; [done|].
  apply IH. lia.
Qed.

Lemma parse_unsigned_Some hi l v :
  parse_unsigned hi l = Some v → l ≠ [] ∧ v = digits_value l ∧ v ≤ hi.
Proof.
  unfold parse_unsigned. destruct l as [|b l]; [done|].
  destruct (Z.leb_spec (digits_value (b :: l)) hi); [|done]. by intros [= <-].
Qed.

(** *** Numbers *)

Definition all_digits (l : text) : Prop := Forall (λ b, is_digit b = true) l.

Lemma take_span p l : Forall (λ b, p b = true) (take (span_len p l) l).
Proof. induction l as [|b l IH]; simpl; [done|]. destruct (p b) eqn:E; by constructor. Qed.

Lemma all_digits_range l : all_digits l → Forall (λ b, 48 ≤ b ≤ 57) l.
Proof.
  intros H. eapply Forall_impl; [exact H|]. intros b Hb. unfold is_digit in Hb. lia.
Qed.

Lemma digits_value_range l : all_digits l → 0 ≤ digits_value l.
Proof.
  intros H%all_digits_range. apply digits_value_nonneg; [done|]. eapply Forall_impl; [exact H|].
  intros b Hb. simpl in Hb. lia.
Qed.

Lemma take_int l : all_digits (take (int_len l) l).
Proof.
  unfold int_len. destruct l as [|b l]; [constructor|]. cbn [starts].
  destruct (Z.eqb_spec 48 b) as [<-|]; [|apply take_span].
  unfold all_digits. cbn [take]. rewrite take_0. by repeat constructor.
Qed.

(** The text of an integer literal. *)
Lemma number_scan_int l n :
  number_scan l = (n, false) →
  (starts (Z.eqb minus) l = true ∧ take n l = minus :: take (int_len (drop 1 l)) (drop 1 l)) ∨
  (starts (Z.eqb minus) l = false ∧ take n l = take (int_len l) l).
Proof.
  unfold number_scan. intros [= <- [H1%negb_false_iff H2%negb_false_iff]%orb_false_iff].
  apply Nat.eqb_eq in H1, H2. rewrite H1 in H2. rewrite H1, H2, !Nat.add_0_r. unfold sign_len.
  destruct (starts (Z.eqb minus) l) eqn:E; [left|right]; (split; [done|]); [|done].
  destruct l as [|b l]; [done|]. cbn [starts] in E. apply Z.eqb_eq in E as <-. done.
Qed.

Lemma number_scan_float l n : number_scan l = (n, true) → l ≠ [] ∧ (0 < n)%nat.
Proof.
  unfold number_scan. intros [= Hn Hf]. split; [by intros ->|].
  apply orb_true_iff in Hf as [Hf%negb_true_iff%Nat.eqb_neq|Hf%negb_true_iff%Nat.eqb_neq]; lia.
Qed.

Lemma take_advance c n b l :
  take n (c_rest c) = b :: l → (len (advance c n) < len c)%nat.
Proof.
  rewrite len_advance. unfold len. destruct (c_rest c), n; simpl; try done. lia.
Qed.

Lemma parse_number_Ok c v c' :
  parse_number c = Ok (v, c') → (len c' < len c)%nat ∧ wf_json v ∧ height v = O.
Proof.
  unfold parse_number, err. destruct (number_scan (c_rest c)) as [n []] eqn:E.
  - apply number_scan_float in E as [Hl Hn]. destruct (f64_parse _); [|done]. intros [= <- <-].
    rewrite len_advance. unfold len. destruct (c_rest c); [done|]. simpl. split; [lia|done].
  - apply number_scan_int in E as Hs.
    assert (all_digits (take n (c_rest c)) ∨
      ∃ l, take n (c_rest c) = minus :: l ∧ all_digits l) as Hd.
    { destruct Hs as [[_ ->]|[_ ->]]; [right; eexists; split; [done|]|left]; apply take_int. }
    destruct (take n (c_rest c)) as [|b s] eqn:Es; [done|].
    pose proof (take_advance c n b s Es) as Hlen.
    assert (b = 45 ∧ all_digits s ∨ b ≠ 45 ∧ all_digits (b :: s)) as [[-> Hds]|[Hb Hds]].
    { destruct Hd as [Hd|(l & [= -> ->] & Hd)]; [right|by left]. split; [|done].
      intros ->. inversion Hd as [|? ? Hb]. by cbv in Hb. }
    + destruct (parse_unsigned (2 ^ 63) s) as [z|] eqn:Ez; [|done]. intros [= <- <-].
      apply parse_unsigned_Some in Ez as (_ & -> & Hz). apply digits_value_range in Hds.
      simpl. split; [done|]. split; [lia|done].
    + assert (∀ X Y : result (JsonValue * cursor) JsonError,
        match b :: s with 45 :: _ => X | _ => Y end = Y) as Hm.
      { intros X Y. destruct b as [|p|p]; try done.
        do 6 (destruct p as [p|p|]; try done). }
      rewrite Hm. clear Hm. destruct (parse_unsigned _ _) as [z|] eqn:Ez; [|done]. intros [= <- <-].
      apply parse_unsigned_Some in Ez as (_ & -> & Hz). apply digits_value_range in Hds.
      simpl. split; [done|]. split; [|done]. unfold is_u64, U64_MAX in *. lia.
Qed.

(** *** Values *)

Lemma height_array v items d :
  (height (JArray items) ≤ d)%nat → (S (height v) ≤ d)%nat → (height (JArray (items ++ [v])) ≤ d)%nat.
Proof. induction items as [|a l IH]; cbn [height foldr app] in *; lia. Qed.

Lemma wf_array v items : wf_json (JArray items) → wf_json v → wf_json (JArray (items ++ [v])).
Proof. induction items as [|a l IH]; cbn [wf_json foldr app] in *; intuition. Qed.

Lemma insert_entry_keys es k v :
  (insert_entry es k v).*1 = if bool_decide (k ∈ es.*1) then es.*1 else es.*1 ++ [k].
Proof.
  induction es as [|[k' v'] es IH]; [done|]. cbn [insert_entry].
  destruct (decide (k' = k)) as [->|Hk].
  - rewrite bool_decide_true by done. csimpl. rewrite bool_decide_true; [done|].
    apply elem_of_cons. by left.
  - rewrite bool_decide_false by done. csimpl. rewrite IH.
    assert (bool_decide (k ∈ k' :: es.*1) = bool_decide (k ∈ es.*1)) as ->
      by (apply bool_decide_ext; rewrite elem_of_cons; split; [by intros [->|?]|by right]).
    by case_bool_decide.
Qed.

Lemma height_object k v es d :
  (height (JObject es) ≤ d)%nat → (S (height v) ≤ d)%nat →
  (height (JObject (insert_entry es k v)) ≤ d)%nat.
Proof.
  induction es as [|[k' v'] es IH]; cbn [height foldr insert_entry] in *; [simpl; lia|].
  case_bool_decide; cbn [foldr snd]; lia.
Qed.

Lemma wf_object k v es :
  wf_json (JObject es) → utf8_valid k = true → wf_json v → wf_json (JObject (insert_entry es k v)).
Proof.
  intros [Hnd He] Hk Hv. split.
  - rewrite insert_entry_keys. case_bool_decide as Hin; [done|].
    apply NoDup_app. split; [done|]. split; [set_solver|]. apply NoDup_singleton.
  - clear Hnd. induction es as [|[k' v'] es IH]; cbn [foldr insert_entry] in *; [done|].
    case_bool_decide; cbn [foldr fst snd] in *; intuition congruence.
Qed.

(** What a parsing function gives on enough fuel. *)
Definition parses_well (depth : nat) (c : cursor) (m : outcome (result (JsonValue * cursor) JsonError)) :
    Prop :=
  ∃ r, m = Ret r ∧ ∀ v c', r = Ok (v, c') →
    (len c' < len c)%nat ∧ wf_json v ∧ (height v + depth ≤ MAX_DEPTH)%nat.

Lemma parses_err depth c k c1 : parses_well depth c (Ret (err c1 k)).
Proof. by eexists. Qed.

Lemma parses_ok depth c v c' :
  (len c' < len c)%nat → wf_json v → (height v + depth ≤ MAX_DEPTH)%nat →
  parses_well depth c (Ret (Ok (v, c'))).
Proof. intros. eexists. split; [done|]. intros ? ? [= <- <-]. done. Qed.

Lemma parses_le depth c c1 m :
  (len c1 ≤ len c)%nat → parses_well depth c1 m → parses_well depth c m.
Proof.
  intros Hle (r & -> & H). exists r. split; [done|]. intros v c' Hr.
  destruct (H v c' Hr) as (? & ? & ?). split; [lia|done].
Qed.

Lemma parses_result depth c (r : result (JsonValue * cursor) JsonError) :
  (depth ≤ MAX_DEPTH)%nat →
  (∀ v c', r = Ok (v, c') → (len c' < len c)%nat ∧ wf_json v ∧ height v = O) →
  parses_well depth c (Ret r).
Proof.
  intros Hd H. exists r. split; [done|]. intros v c' Hr. destruct (H v c' Hr) as (? & ? & ->).
  split; [done|]. split; [done|lia].
Qed.

(** The end of a round of the two loops: a separator, an end or an error. *)
Lemma after_item depth c0 c v close (k : cursor → outcome (result (JsonValue * cursor) JsonError)) e :
  (len c < len c0)%nat → wf_json v → (height v + depth ≤ MAX_DEPTH)%nat →
  (∀ c1, (len c1 < len c)%nat → parses_well depth c1 (k c1)) →
  parses_well depth c0
    (if bool_decide (peek (skip_ws c) = Some comma) then
       if bool_decide (peek (skip_ws (advance (skip_ws c) 1)) = Some close)
       then Ret (Ok (v, advance (skip_ws (advance (skip_ws c) 1)) 1))
       else k (skip_ws (advance (skip_ws c) 1))
     else if bool_decide (peek (skip_ws c) = Some close)
     then Ret (Ok (v, advance (skip_ws c) 1))
     else Ret (err (skip_ws c) e)).
Proof.
  intros Hl Hv Hh Hk. pose proof (len_skip_ws c).
  pose proof (len_skip_ws (advance (skip_ws c) 1)). rewrite len_advance in *.
  case_bool_decide as Hc; [case_bool_decide|case_bool_decide].
  - apply parses_ok; [|done|done]. rewrite len_advance. lia.
  - eapply parses_le; [|apply Hk]; [lia|].
    assert (0 < len (skip_ws c))%nat; [|lia].
    unfold peek in Hc. unfold len. destruct (c_rest (skip_ws c)); [done|simpl; lia].
  - apply parses_ok; [|done|done]. rewrite len_advance. lia.
  - apply parses_err.
Qed.

Lemma parse_fuel fuel :
  (∀ depth c, (2 * len c + 1 ≤ fuel)%nat → parses_well depth c (parse_value fuel depth c)) ∧
  (∀ depth es c, (2 * len c + 2 ≤ fuel)%nat → wf_json (JObject es) →
     (height (JObject es) + depth ≤ MAX_DEPTH)%nat →
     parses_well depth c (object_loop fuel depth es c)) ∧
  (∀ depth items c, (2 * len c + 2 ≤ fuel)%nat → wf_json (JArray items) →
     (height (JArray items) + depth ≤ MAX_DEPTH)%nat →
     parses_well depth c (array_loop fuel depth items c)).
Proof.
  induction fuel as [|fuel (IHv & IHo & IHa)]; [repeat split; intros; lia|].
  split; [|split].
  - intros depth c Hf. cbn [parse_value]. destruct (Nat.ltb_spec MAX_DEPTH depth); [apply parses_err|].
    pose proof (len_skip_ws c) as Hws. apply (parses_le _ _ (skip_ws c)); [done|].
    set (c1 := skip_ws c) in *. destruct (c_rest c1) as [|b l] eqn:E; [apply parses_err|].
    assert (len (advance c1 1) < len c1)%nat as Hadv
      by (rewrite len_advance; unfold len; rewrite E; simpl; lia).
    pose proof (len_skip_ws (advance c1 1)) as Hws2.
    destruct (Z.eqb_spec b lbrace) as [->|]; [|destruct (Z.eqb_spec b lbracket) as [->|]].
    1,2: unfold expect; rewrite E, Z.eqb_refl; cbn [bind_parsed]; case_bool_decide;
      [apply parses_ok; [rewrite len_advance; lia|repeat constructor|simpl; lia]|];
      eapply parses_le; [|apply IHo || apply IHa]; try lia; [repeat constructor|simpl; lia].
    case_match; [|repeat case_match]; try apply parses_err;
      (apply parses_result; [lia|]); intros v c'.
    + destruct (parse_string c1) as [[s c2]|] eqn:Es; [|done]. intros [= <- <-].
      by apply parse_string_Ok in Es as [? ?].
    + by intros [? ->]%parse_literal_Ok.
    + by intros [? ->]%parse_literal_Ok.
    + by intros [? ->]%parse_literal_Ok.
    + apply parse_number_Ok.
  - intros depth es c Hf Hwf Hh. cbn [object_loop]. pose proof (len_skip_ws c) as Hws.
    destruct (parse_string (skip_ws c)) as [[key c1]|e] eqn:Es; [|by eexists].
    apply parse_string_Ok in Es as [Hl1 Hkey]. cbn [bind_parsed].
    pose proof (len_skip_ws c1). destruct (expect (skip_ws c1) colon) as [c2|e] eqn:Ee; [|by eexists].
    apply expect_Ok in Ee as (_ & Hl2 & _). cbn [bind_parsed].
    destruct (IHv (S depth) c2) as (r & -> & Hr); [lia|]. cbn [mbind outcome_bind].
    destruct r as [[value c3]|e]; [|by eexists]. cbn [bind_parsed].
    destruct (Hr value c3 eq_refl) as (Hl3 & Hwv & Hhv).
    apply (after_item depth c c3 (JObject (insert_entry es key value)) rbrace
             (λ c, object_loop fuel depth (insert_entry es key value) c)).
    + lia.
    + by apply wf_object.
    + assert (height (JObject (insert_entry es key value)) ≤ MAX_DEPTH - depth)%nat; [|lia].
      apply height_object; lia.
    + intros c4 Hc4. apply IHo; [lia|by apply wf_object|].
      assert (height (JObject (insert_entry es key value)) ≤ MAX_DEPTH - depth)%nat; [|lia].
      apply height_object; lia.
  - intros depth items c Hf Hwf Hh. cbn [array_loop].
    destruct (IHv (S depth) c) as (r & -> & Hr); [lia|]. cbn [mbind outcome_bind].
    destruct r as [[value c3]|e]; [|by eexists]. cbn [bind_parsed].
    destruct (Hr value c3 eq_refl) as (Hl3 & Hwv & Hhv).
    assert (height (JArray (items ++ [value])) + depth ≤ MAX_DEPTH)%nat.
    { assert (height (JArray (items ++ [value])) ≤ MAX_DEPTH - depth)%nat; [|lia].
      apply height_array; lia. }
    apply (after_item depth c c3 (JArray (items ++ [value])) rbracket
             (λ c, array_loop fuel depth (items ++ [value]) c)); [lia|by apply wf_array|done|].
    intros c4 Hc4. apply IHa; [lia|by apply wf_array|done].
Qed.

(** C31. The parser always ends, with a value or an error: two steps for every byte are
    enough.  A value it returns is well formed: its strings are valid UTF-8, its integers
    fit their type, the keys of an object are distinct, and it nests at most 512 deep. *)
Theorem parse_total json :
  ∃ r, parse json = Ret r ∧ ∀ v, r = Ok v → wf_json v ∧ (height v ≤ MAX_DEPTH)%nat.
Proof.
  unfold parse. destruct (parse_fuel (2 * length json + 1)) as [Hv _].
  destruct (Hv 0%nat (skip_ws (at_pos 0 json))) as (r & -> & Hr).
  { pose proof (len_skip_ws (at_pos 0 json)). unfold len in *. simpl in *. lia. }
  cbn [mbind outcome_bind mret outcome_ret]. eexists. split; [reflexivity|]. intros v.
  destruct r as [[v' c]|]; [|done]. destruct (c_rest _); [|done]. intros [= <-].
  destruct (Hr v' c eq_refl) as (_ & ? & ?). split; [done|lia].
Qed.

(** *** Printing with any white space

    Both printers put white space in the same places: before an item and before the
    closing bracket, by the depth of the line, and after a colon. *)
Definition ws_items {A} (w : A → text) (nl : text) (close : text) (l : list A) : text :=
  match l with
  | [] => close
  | item :: l => nl ++ w item ++ foldr (λ item t, comma :: nl ++ w item ++ t) close l
  end.

Fixpoint write_ws (nl : nat → text) (sp : text) (indent : nat) (v : JsonValue) : text :=
  match v with
  | Null => lit "null"
  | Bool b => lit (if b then "true" else "false")
  | JI64 n => dec_signed n
  | JU64 n => dec n
  | JF64 x => f64_fmt x
  | Str s => write_json_string s
  | JArray [] => [lbracket; rbracket]
  | JArray items =>
      lbracket :: ws_items (write_ws nl sp (S indent)) (nl (S indent)) (nl indent ++ [rbracket]) items
  | JObject [] => [lbrace; rbrace]
  | JObject entries =>
      lbrace :: ws_items
        (λ '(k, v), write_json_string k ++ colon :: sp ++ write_ws nl sp (S indent) v)
        (nl (S indent)) (nl indent ++ [rbrace]) entries
  end.

Lemma JsonValue_nested_ind (P : JsonValue → Prop) :
  (∀ v, match v with JArray _ | JObject _ => False | _ => True end → P v) →
  (∀ items, Forall P items → P (JArray items)) →
  (∀ entries, Forall (λ e, P e.2) entries → P (JObject entries)) →
  ∀ v, P v.
Proof.
  intros Hb Ha Ho. fix IH 1. intros v. destruct v; try (by apply Hb).
  - apply Ha. induction items as [|v items IHl]; constructor; [apply IH|apply IHl].
  - apply Ho. induction entries as [|[k v] entries IHl]; constructor; [apply IH|apply IHl].
Qed.

Lemma foldr_compact {A} (w w' : A → text) close l :
  Forall (λ a, w a = w' a) l →
  compact_items w false l ++ close = foldr (λ item t, comma :: [] ++ w' item ++ t) close l.
Proof.
  induction 1 as [|a l Ha _ IH]; [done|]. cbn [compact_items foldr app]. rewrite Ha.
  by rewrite <-app_assoc, IH.
Qed.

Lemma compact_ws_items {A} (w w' : A → text) close l :
  Forall (λ a, w a = w' a) l → compact_items w true l ++ close = ws_items w' [] close l.
Proof.
  intros [|a l' Ha Hl]; [done|]. cbn [compact_items ws_items app].
  by rewrite <-app_assoc, (foldr_compact w w'), Ha.
Qed.

Lemma foldr_pretty {A} (w w' : A → text) indent close l :
  Forall (λ a, w a = w' a) l →
  (match l with [] => [] | _ => [comma] end) ++ newline :: pretty_items w indent l ++ close =
  foldr (λ item t, comma :: (newline :: push_indent (S indent)) ++ w' item ++ t)
    (newline :: close) l.
Proof.
  induction 1 as [|a l Ha _ IH]; [done|]. cbn [pretty_items foldr]. rewrite <-IH, Ha.
  destruct l; cbn [app]; by rewrite <-!app_assoc.
Qed.

Lemma pretty_ws_items {A} (w w' : A → text) indent close l :
  l ≠ [] → Forall (λ a, w a = w' a) l →
  newline :: pretty_items w indent l ++ close =
  ws_items w' (newline :: push_indent (S indent)) (newline :: close) l.
Proof.
  intros Hne [|a l' Ha Hl]; [done|]. cbn [pretty_items ws_items].
  pose proof (foldr_pretty w w' indent close l' Hl) as H. cbn [app] in H |- *.
  rewrite <-H, Ha. by rewrite <-!app_assoc.
Qed.

Lemma write_compact_ws v i : write_compact v = write_ws (λ _, []) [] i v.
Proof.
  revert i. induction v as [v Hv|items IH|entries IH] using JsonValue_nested_ind; intros i.
  - by destruct v.
  - cbn [write_compact write_ws].
    rewrite (compact_ws_items _ (write_ws (λ _, []) [] (S i)))
      by (eapply Forall_impl; [exact IH|auto]). by destruct items.
  - cbn [write_compact write_ws]. rewrite (compact_ws_items _
      (λ '(k, v), write_json_string k ++ colon :: [] ++ write_ws (λ _, []) [] (S i) v)).
    + by destruct entries.
    + eapply Forall_impl; [exact IH|]. intros [k v] Hv. simpl in *. by rewrite (Hv (S i)).
Qed.

Definition pretty_nl (i : nat) : text := newline :: push_indent i.

Lemma write_pretty_ws v i : write_pretty i v = write_ws pretty_nl [space] i v.
Proof.
  revert i. induction v as [v Hv|items IH|entries IH] using JsonValue_nested_ind; intros i.
  - by destruct v.
  - cbn [write_pretty write_ws]. destruct items as [|item l]; [done|].
    rewrite (pretty_ws_items _ (write_ws pretty_nl [space] (S i))); [done|done|].
    eapply Forall_impl; [exact IH|auto].
  - cbn [write_pretty write_ws]. destruct entries as [|e l]; [done|].
    rewrite (pretty_ws_items _
      (λ '(k, v), write_json_string k ++ colon :: [space] ++ write_ws pretty_nl [space] (S i) v));
      [done|done|].
    eapply Forall_impl; [exact IH|]. intros [k v] Hv. simpl in *. by rewrite (Hv (S i)).
Qed.

(** *** Reading numbers back *)

(** A byte that would go on with a number. *)
Definition number_byte (b : Z) : bool :=
  is_digit b || (b =? 46) || (b =? 101) || (b =? 69) || (b =? 43) || (b =? 45).
Definition number_end (tail : text) : Prop := starts number_byte tail = false.

Lemma starts_app p l t : starts p t = false → starts p (l ++ t) = starts p l.
Proof. by destruct l. Qed.

Lemma span_len_app p l t : starts p t = false → span_len p (l ++ t) = span_len p l.
Proof.
  intros Ht. induction l as [|b l IH]; simpl; [|by destruct (p b); [rewrite IH|]].
  destruct t as [|b t]; [done|]. cbn [starts] in Ht. simpl. by rewrite Ht.
Qed.

Lemma starts_impl (p q : Z → bool) l :
  (∀ b, q b = true → p b = true) → starts p l = false → starts q l = false.
Proof.
  intros H. destruct l as [|b l]; [done|]. cbn [starts]. specialize (H b). destruct (q b); [|done].
  by rewrite H.
Qed.

Lemma number_end_starts q t :
  number_end t → (∀ b, q b = true → number_byte b = true) → starts q t = false.
Proof. intros Ht Hq. by apply (starts_impl number_byte). Qed.

Ltac number_byte := intros ?; unfold number_byte, is_digit; lia.

Section number_tail.
  Context (t : text) (Ht : number_end t).

Lemma sign_len_app l : sign_len (l ++ t) = sign_len l ∧ (sign_len l ≤ length l)%nat.
Proof.
  unfold sign_len. rewrite starts_app by (apply number_end_starts; [done|unfold minus; number_byte]).
  split; [done|]. destruct l; [done|]. simpl. case_match; lia.
Qed.

Lemma int_len_app l : int_len (l ++ t) = int_len l ∧ (int_len l ≤ length l)%nat.
Proof.
  unfold int_len. rewrite starts_app, span_len_app by (apply number_end_starts; [done|number_byte]).
  split; [done|]. pose proof (span_len_le is_digit l).
  destruct l; [done|]. destruct (starts _ _); simpl in *; lia.
Qed.

Lemma frac_len_app l : frac_len (l ++ t) = frac_len l ∧ (frac_len l ≤ length l)%nat.
Proof.
  unfold frac_len. rewrite starts_app by (apply number_end_starts; [done|number_byte]).
  destruct (starts (Z.eqb 46) l) eqn:E; [|simpl; split; [done|lia]].
  destruct l as [|b l]; [done|]. cbn [app drop length]. rewrite !drop_0.
  pose proof (span_len_le is_digit l).
  rewrite span_len_app by (apply number_end_starts; [done|number_byte]). split; [done|lia].
Qed.

Lemma exp_len_app l : exp_len (l ++ t) = exp_len l ∧ (exp_len l ≤ length l)%nat.
Proof.
  unfold exp_len. rewrite starts_app by (apply number_end_starts; [done|number_byte]).
  destruct (starts (λ b, (b =? 101) || (b =? 69)) l) eqn:E; [|simpl; split; [done|lia]].
  destruct l as [|b l]; [done|]. cbn [app drop length]. rewrite !drop_0.
  rewrite starts_app by (apply number_end_starts; [done|number_byte]).
  set (s := if starts _ l then 1%nat else 0%nat).
  assert (s ≤ length l)%nat.
  { subst s. destruct l as [|b' l]; [done|]. cbn [starts length]; case_match; lia. }
  rewrite drop_app_le by done.
  rewrite span_len_app by (apply number_end_starts; [done|number_byte]). split; [done|].
  pose proof (span_len_le is_digit (drop s l)) as H'. rewrite length_drop in H'. lia.
Qed.

Lemma number_scan_app l :
  number_scan (l ++ t) = number_scan l ∧ ((number_scan l).1 ≤ length l)%nat.
Proof.
  unfold number_scan. destruct (sign_len_app l) as [-> H1]. rewrite drop_app_le by done.
  destruct (int_len_app (drop (sign_len l) l)) as [-> H2]. rewrite length_drop in H2.
  set (n := (sign_len l + int_len (drop (sign_len l) l))%nat).
  rewrite drop_app_le by lia. destruct (frac_len_app (drop n l)) as [-> H3].
  rewrite length_drop in H3. rewrite drop_app_le by lia.
  destruct (exp_len_app (drop (n + frac_len (drop n l)) l)) as [-> H4].
  rewrite length_drop in H4. split; [done|]. cbn [fst]. lia.
Qed.
End number_tail.

Lemma dec_digits_spec n z :
  0 ≤ z < 10 ^ Z.of_nat n → (0 < n)%nat →
  ∃ d l, dec_digits n z = d :: l ∧ all_digits (d :: l) ∧ digits_value (d :: l) = z ∧
    (d = 48 → l = []).
Proof.
  revert z. induction n as [|n IH]; intros z Hz Hn; [lia|]. cbn [dec_digits].
  destruct (Z.ltb_spec z 10).
  { exists (48 + z), []. split; [done|]. split; [|unfold digits_value; cbn [foldl]; split; [lia|done]].
    constructor; [unfold is_digit; lia|constructor]. }
  assert (0 < n)%nat as Hn' by (destruct n; [simpl in Hz|]; lia).
  rewrite Nat2Z.inj_succ, Z.pow_succ_r in Hz by lia.
  destruct (IH (z / 10)) as (d & l & -> & Hd & Hv & H0);
    [Z.to_euclidean_division_equations; nia|done|].
  exists d, (l ++ [48 + z `mod` 10]). split; [done|].
  pose proof (Z.mod_pos_bound z 10 ltac:(lia)). split; [|split].
  - unfold all_digits in *. change (d :: l ++ ?x) with ((d :: l) ++ x). apply Forall_app.
    split; [done|]. constructor; [unfold is_digit; lia|constructor].
  - unfold digits_value in *. change (d :: l ++ ?x) with ((d :: l) ++ x). rewrite foldl_app, Hv.
    cbn [foldl]. Z.to_euclidean_division_equations; lia.
  - intros ->. specialize (H0 eq_refl). subst l. unfold digits_value in Hv. cbn [foldl] in Hv.
    Z.to_euclidean_division_equations; lia.
Qed.

Lemma number_scan_whole l n m :
  sign_len l = n → int_len (drop n l) = m → drop (n + m) l = [] →
  number_scan l = ((n + m)%nat, false).
Proof.
  intros Hn Hm Hd. unfold number_scan. rewrite Hn, Hm, Hd. cbn [frac_len starts].
  rewrite !Nat.add_0_r, Hd. cbn. by rewrite !Nat.add_0_r.
Qed.

Lemma number_scan_digits d l :
  all_digits (d :: l) → (d = 48 → l = []) →
  number_scan (d :: l) = (length (d :: l), false) ∧
  number_scan (minus :: d :: l) = (length (minus :: d :: l), false).
Proof.
  intros Hd H0. assert (int_len (d :: l) = length (d :: l)) as Hi.
  { unfold int_len. cbn [starts]. destruct (Z.eqb_spec 48 d) as [<-|_]; [by rewrite H0|].
    clear H0. induction Hd as [|b l' Hb _ IH]; [done|]. simpl. rewrite Hb. by rewrite IH. }
  assert (Hs : sign_len (d :: l) = 0%nat).
  { inversion Hd as [|? ? Hb]. unfold sign_len, is_digit, minus in *. cbn [starts].
    destruct (Z.eqb_spec 45 d); [lia|done]. }
  split.
  - by rewrite (number_scan_whole _ 0 (length (d :: l))) by (rewrite ?drop_0; done || apply drop_all).
  - by rewrite (number_scan_whole _ 1 (length (d :: l))) by (done || apply drop_all).
Qed.

Lemma match_minus {A} (b : Z) (l : text) (X : text → A) (Y : A) :
  b ≠ 45 → match b :: l with 45 :: l' => X l' | _ => Y end = Y.
Proof.
  intros Hb. destruct b as [|p|p]; try done. do 6 (destruct p as [p|p|]; try done).
Qed.

Lemma parse_unsigned_in hi b l :
  digits_value (b :: l) ≤ hi → parse_unsigned hi (b :: l) = Some (digits_value (b :: l)).
Proof. intros H. unfold parse_unsigned. by rewrite (proj2 (Z.leb_le _ _) H). Qed.

Lemma parse_number_text s b pos tail :
  number_scan s = (length s, b) → number_end tail →
  parse_number (at_pos pos (s ++ tail)) =
  (let c := at_pos (pos + Z.of_nat (length s)) tail in
   if b then match f64_parse s with Some x => Ok (JF64 x, c) | None => err c (InvalidFloat s) end
   else match s with
        | 45 :: digits =>
            match parse_unsigned (2 ^ 63) digits with
            | Some v => Ok (JI64 (- v), c)
            | None => err c (InvalidInteger s)
            end
        | _ =>
            match parse_unsigned U64_MAX s with
            | Some v => Ok (JU64 v, c)
            | None => err c (InvalidInteger s)
            end
        end).
Proof.
  intros Hs Ht. unfold parse_number. cbn [at_pos c_rest]. destruct (number_scan_app tail Ht s) as [-> _].
  rewrite Hs, take_app_length. unfold advance. cbn [at_pos c_rest c_pos]. by rewrite drop_app_length.
Qed.

Lemma parse_number_U64 z pos tail :
  is_u64 z → number_end tail →
  parse_number (at_pos pos (dec z ++ tail)) =
  Ok (JU64 z, at_pos (pos + Z.of_nat (length (dec z))) tail).
Proof.
  intros Hz Ht. assert (0 ≤ z < 10 ^ Z.of_nat 20) as Hb by (unfold is_u64 in Hz; lia).
  destruct (dec_digits_spec 20 z Hb ltac:(lia)) as (d & l & E & Hd & Hv & H0).
  unfold dec. rewrite E. destruct (number_scan_digits d l Hd H0) as [Hs _].
  rewrite (parse_number_text _ _ _ _ Hs Ht). cbv zeta.
  assert (d ≠ 45) by (inversion Hd as [|? ? Hb']; unfold is_digit in Hb'; lia).
  etransitivity; [apply (match_minus d l (λ l', match parse_unsigned (2 ^ 63) l' with
    | Some v => _ | None => _ end)); done|]. rewrite parse_unsigned_in; rewrite Hv; [done|].
  unfold is_u64, U64_MAX in *. lia.
Qed.

Lemma parse_number_I64 z pos tail :
  - 2 ^ 63 ≤ z < 0 → number_end tail →
  parse_number (at_pos pos (dec_signed z ++ tail)) =
  Ok (JI64 z, at_pos (pos + Z.of_nat (length (dec_signed z))) tail).
Proof.
  intros Hz Ht. assert (0 ≤ - z < 10 ^ Z.of_nat 20) as Hb by lia.
  destruct (dec_digits_spec 20 (- z) Hb ltac:(lia)) as (d & l & E & Hd & Hv & H0).
  unfold dec_signed, dec. rewrite (proj2 (Z.ltb_lt z 0)) by lia. rewrite E.
  destruct (number_scan_digits d l Hd H0) as [_ Hs].
  rewrite (parse_number_text _ _ _ _ Hs Ht). cbv zeta. unfold minus at 1.
  rewrite parse_unsigned_in; rewrite Hv; [|lia]. by rewrite Z.opp_involutive.
Qed.

(** *** Reading strings back *)

Lemma utf8_nonneg n l : (length l ≤ n)%nat → utf8_valid l = true → Forall (Z.le 0) l.
Proof.
  revert l. induction n as [|n IH]; intros [|b l] Hn; [constructor|simpl in Hn; lia|constructor|].
  simpl in Hn. cbn [utf8_valid]. unfold cont, within. intros H.
  repeat (case_match; try discriminate); repeat constructor; try lia;
    (apply IH; [cbn [length] in *; lia|]); by repeat (apply andb_true_iff in H as [? H]).
Qed.

Lemma parse_chars_escape out pos b t :
  0 ≤ b →
  ∃ pos', parse_chars out pos (escape_byte b ++ t) = parse_chars (out ++ [b]) pos' t.
Proof.
  intros Hb. destruct (decide (b < 32)) as [Hlt|Hge].
  - assert (b ∈ seqZ 0 32) as Hin by (apply elem_of_seqZ; lia). clear Hb Hlt.
    assert (Forall (λ b, ∃ pos', parse_chars out pos (escape_byte b ++ t) =
                               parse_chars (out ++ [b]) pos' t) (seqZ 0 32)) as Hall.
    { vm_compute seqZ. repeat constructor; eexists; reflexivity. }
    by eapply Forall_forall in Hall.
  - destruct (decide (b = quote)) as [->|Hq]; [by eexists|].
    destruct (decide (b = bslash)) as [->|Hs]; [by eexists|].
    exists (pos + 1). unfold escape_byte, quote, bslash in *.
    do 7 (rewrite (proj2 (Z.eqb_neq b _)) by lia). rewrite (proj2 (Z.ltb_ge b 32)) by lia.
    cbn [app parse_chars]. unfold quote, bslash.
    rewrite !(proj2 (Z.eqb_neq b _)) by lia. unfold within at 1.
    by rewrite (proj2 (Z.leb_gt b 31)), andb_false_r by lia.
Qed.

Lemma parse_chars_back s out pos tail :
  Forall (Z.le 0) s → utf8_valid (out ++ s) = true →
  ∃ pos', parse_chars out pos ((s ≫= escape_byte) ++ quote :: tail) =
    Ok (out ++ s, at_pos pos' tail).
Proof.
  intros Hs. revert out pos. induction Hs as [|b s Hb _ IH]; intros out pos Hu.
  - rewrite app_nil_r in *. cbn [mbind list_bind app parse_chars]. rewrite Z.eqb_refl, Hu. by eexists.
  - rewrite bind_cons, <-app_assoc.
    destruct (parse_chars_escape out pos b ((s ≫= escape_byte) ++ quote :: tail) Hb) as [pos' ->].
    destruct (IH (out ++ [b]) pos') as [pos'' ->]; [by rewrite <-app_assoc|].
    exists pos''. by rewrite <-app_assoc.
Qed.

Lemma parse_string_back s pos tail :
  utf8_valid s = true →
  ∃ pos', parse_string (at_pos pos (write_json_string s ++ tail)) = Ok (s, at_pos pos' tail).
Proof.
  intros Hu. unfold parse_string, write_json_string, expect. cbn [at_pos c_rest app].
  rewrite Z.eqb_refl. unfold advance. cbn [at_pos c_rest c_pos drop].
  rewrite <-app_assoc. apply (parse_chars_back s []); [|done].
  by apply (utf8_nonneg (length s)).
Qed.

(** *** Reading values back *)

Definition all_ws (l : text) : Prop := Forall (λ b, is_ws b = true) l.

Lemma skip_ws_app ws l pos :
  all_ws ws → starts is_ws l = false →
  skip_ws (at_pos pos (ws ++ l)) = at_pos (pos + Z.of_nat (length ws)) l.
Proof.
  intros Hw Hl. unfold skip_ws, advance. cbn [at_pos c_rest c_pos].
  assert (span_len is_ws (ws ++ l) = length ws) as ->; [|by rewrite drop_app_length].
  rewrite span_len_app by done.
  induction Hw as [|b ws Hb _ IH]; [done|]. simpl. by rewrite Hb, IH.
Qed.

Lemma skip_ws_none l pos : starts is_ws l = false → skip_ws (at_pos pos l) = at_pos pos l.
Proof.
  intros Hl. pose proof (skip_ws_app [] l pos (Forall_nil_2 _) Hl) as H. cbn [app] in H.
  rewrite H. f_equal. cbn [length]. lia.
Qed.

Lemma advance_cons b l pos : advance (at_pos pos (b :: l)) 1 = at_pos (pos + 1) l.
Proof. unfold advance. cbn [at_pos c_rest c_pos drop]. by rewrite drop_0. Qed.

Lemma ws_number_end ws l : all_ws ws → number_end l → number_end (ws ++ l).
Proof.
  intros [|b ws' Hb _] Hl; [done|]. unfold number_end. cbn [app starts].
  unfold is_ws, number_byte, is_digit in *. lia.
Qed.

(** The bytes a printed value starts with. *)
Definition value_byte (b : Z) : bool :=
  (b =? lbracket) || (b =? lbrace) || (b =? quote) || (b =? 116) || (b =? 102) || (b =? 110) ||
  (b =? minus) || is_digit b.

Lemma value_byte_starts (p : Z → bool) l :
  starts value_byte l = true → (∀ b, p b = true → value_byte b = false) → starts p l = false.
Proof.
  intros H Hp. destruct l as [|c l]; [done|]. cbn [starts] in *. specialize (Hp c).
  destruct (p c); [|done]. by rewrite Hp in H.
Qed.

Lemma parse_value_at fuel depth pos ws l :
  (depth ≤ MAX_DEPTH)%nat → all_ws ws → starts is_ws l = false →
  ∃ pos', parse_value (S fuel) depth (at_pos pos (ws ++ l)) =
    let c := at_pos pos' l in
    match l with
    | [] => Ret (err c ValueEnd)
    | b :: _ =>
        if b =? lbrace then
          bind_parsed (expect c lbrace) (λ c,
          let c := skip_ws c in
          if bool_decide (peek c = Some rbrace) then Ret (Ok (JObject [], advance c 1))
          else object_loop fuel depth [] c)
        else if b =? lbracket then
          bind_parsed (expect c lbracket) (λ c,
          let c := skip_ws c in
          if bool_decide (peek c = Some rbracket) then Ret (Ok (JArray [], advance c 1))
          else array_loop fuel depth [] c)
        else if b =? quote then
          Ret match parse_string c with Ok (s, c) => Ok (Str s, c) | Err e => Err e end
        else if b =? 116 then Ret (parse_literal c "true" (Bool true))
        else if b =? 102 then Ret (parse_literal c "false" (Bool false))
        else if b =? 110 then Ret (parse_literal c "null" Null)
        else if (b =? minus) || is_digit b then Ret (parse_number c)
        else Ret (err c (UnexpectedCharacter b))
    end.
Proof.
  intros Hd Hw Hl. eexists. cbn [parse_value]. rewrite (proj2 (Nat.ltb_ge _ _)) by done.
  by rewrite skip_ws_app by done.
Qed.

Lemma parse_literal_back l v pos tail :
  parse_literal (at_pos pos (lit l ++ tail)) l v =
  Ok (v, at_pos (pos + Z.of_nat (length (lit l))) tail).
Proof.
  unfold parse_literal. cbn [at_pos c_rest]. rewrite (proj2 (Nat.ltb_ge _ _)) by (rewrite length_app; lia).
  rewrite take_app_length, bool_decide_true by done. unfold advance. cbn [at_pos c_rest c_pos].
  by rewrite drop_app_length.
Qed.

Lemma number_dispatch {A} b (x1 x2 x3 x4 x5 x6 x7 x8 : A) :
  (b =? minus) || is_digit b = true →
  (if b =? lbrace then x1 else if b =? lbracket then x2 else if b =? quote then x3
   else if b =? 116 then x4 else if b =? 102 then x5 else if b =? 110 then x6
   else if (b =? minus) || is_digit b then x7 else x8) = x7.
Proof.
  intros H. rewrite H. unfold is_digit, minus, lbrace, lbracket, quote in *.
  by rewrite !(proj2 (Z.eqb_neq b _)) by lia.
Qed.

Lemma expect_at b l pos : expect (at_pos pos (b :: l)) b = Ok (at_pos (pos + 1) l).
Proof. unfold expect. cbn [at_pos c_rest]. by rewrite Z.eqb_refl, <-(advance_cons b l pos). Qed.

Lemma foldr_tail {A} (f : A → text) nl1 close tail l :
  foldr (λ item t, comma :: nl1 ++ f item ++ t) close l ++ tail =
  foldr (λ item t, comma :: nl1 ++ f item ++ t) (close ++ tail) l.
Proof.
  induction l as [|a l IH]; [done|]. cbn [foldr app]. by rewrite <-IH, <-!app_assoc.
Qed.

Lemma peek_not b pos l :
  starts (Z.eqb b) l = false → bool_decide (peek (at_pos pos l) = Some b) = false.
Proof.
  intros H. apply bool_decide_eq_false. unfold peek. cbn [at_pos c_rest].
  destruct l as [|c l]; [done|]. cbn [starts head] in *. apply Z.eqb_neq in H. congruence.
Qed.

Lemma value_not b l : starts value_byte l = true → value_byte b = false → starts (Z.eqb b) l = false.
Proof. intros H Hb. apply value_byte_starts; [done|]. by intros c <-%Z.eqb_eq. Qed.

Lemma value_not_ws l : starts value_byte l = true → starts is_ws l = false.
Proof.
  intros H. apply value_byte_starts; [done|]. intros b.
  unfold is_ws, value_byte, is_digit, lbracket, lbrace, quote, minus. lia.
Qed.

Lemma dec_starts z t : is_u64 z → starts is_digit (dec z ++ t) = true.
Proof.
  intros Hz. assert (0 ≤ z < 10 ^ Z.of_nat 20) as Hb by (unfold is_u64 in Hz; lia).
  destruct (dec_digits_spec 20 z Hb ltac:(lia)) as (d & l & E & Hd & _).
  unfold dec. rewrite E. by inversion Hd.
Qed.

Section back.
  Context (nl : nat → text) (sp : text) (Hnl : ∀ i, all_ws (nl i)) (Hsp : all_ws sp).

#[local] Notation write := (write_ws nl sp).


Lemma write_starts v i t :
  wf_json v → prints_back v → starts value_byte (write i v ++ t) = true.
Proof.
  destruct v as [|[]|n|n|x|s|[]|[]]; cbn [wf_json prints_back write_ws]; try done.
  - intros _ Hn. unfold dec_signed. by rewrite (proj2 (Z.ltb_lt n 0)) by lia.
  - intros Hn _. pose proof (dec_starts n t Hn) as H. destruct (dec n ++ t); [done|].
    cbn [starts] in *. unfold value_byte. by rewrite H, orb_true_r.
  - intros _ (_ & _ & H). destruct (f64_fmt x); [done|]. cbn [starts app] in *.
    unfold value_byte. rewrite <-orb_assoc, H. by rewrite orb_true_r.
Qed.

(** A value read back from its text, with white space before it and the rest after it. *)
Definition reads_back (v : JsonValue) : Prop :=
  ∀ i depth fuel pos ws tail,
    all_ws ws → number_end tail → (height v + depth ≤ MAX_DEPTH)%nat →
    (2 * length (ws ++ write i v ++ tail) + 1 ≤ fuel)%nat →
    ∃ pos', parse_value fuel depth (at_pos pos (ws ++ write i v ++ tail)) =
      Ret (Ok (v, at_pos pos' tail)).

(** The loops over the items: [w] prints one, [step] puts one at the end of the items read,
    [fin] makes the value. *)
Lemma loop_back {A B} (w : A → text) (step : B → A → B) (fin : B → JsonValue) (close : Z)
    (nl1 nl2 : text) (loop : nat → B → cursor → outcome (result (JsonValue * cursor) JsonError))
    e l a tail :
  is_ws close = false → number_byte close = false → close ≠ comma → all_ws nl1 → all_ws nl2 →
  Forall (λ a, ∀ acc fuel pos t, number_end t → (2 * length (w a ++ t) + 2 ≤ fuel)%nat →
    starts is_ws (w a ++ t) = false ∧ starts (Z.eqb close) (w a ++ t) = false ∧
    ∃ pos' fuel', (fuel ≤ S fuel')%nat ∧
    loop fuel acc (at_pos pos (w a ++ t)) =
      (let acc := step acc a in let c := skip_ws (at_pos pos' t) in
       if bool_decide (peek c = Some comma) then
         let c := skip_ws (advance c 1) in
         if bool_decide (peek c = Some close) then Ret (Ok (fin acc, advance c 1))
         else loop fuel' acc c
       else if bool_decide (peek c = Some close) then Ret (Ok (fin acc, advance c 1))
       else Ret (err c e))) (a :: l) →
  ∀ acc fuel pos,
    let t := foldr (λ item t, comma :: nl1 ++ w item ++ t) (nl2 ++ close :: tail) l in
    (2 * length (w a ++ t) + 2 ≤ fuel)%nat →
    ∃ pos', loop fuel acc (at_pos pos (w a ++ t)) =
      Ret (Ok (fin (foldl step acc (a :: l)), at_pos pos' tail)).
Proof.
  intros Hcw Hcn Hcc Hnl1 Hnl2. revert a. induction l as [|b l IH]; intros a Hall acc fuel pos t Hf.
  - apply Forall_cons in Hall as [Ha _].
    destruct (Ha acc fuel pos t) as (_ & _ & pos' & fuel' & _ & ->); [|done|].
    { subst t. cbn [foldr]. apply ws_number_end; done. }
    subst t. cbn [foldr]. cbv zeta. rewrite skip_ws_app by done. cbn [peek at_pos c_rest head].
    rewrite bool_decide_false by congruence. rewrite bool_decide_true by done. by eexists.
  - apply Forall_cons in Hall as [Ha Hall]. specialize (IH b Hall).
    subst t. cbn [foldr] in *. set (t := foldr _ _ l) in *.
    destruct (Ha acc fuel pos (comma :: nl1 ++ w b ++ t)) as (_ & _ & pos' & fuel' & Hf' & ->);
      [done|done|]. cbv zeta.
    rewrite skip_ws_none by done. cbn [peek at_pos c_rest head].
    rewrite bool_decide_true, advance_cons by done.
    rewrite !length_app in Hf. cbn [length] in Hf. rewrite !length_app in Hf.
    assert (2 * length (w b ++ t) + 2 ≤ fuel')%nat as Hfb by (rewrite length_app; lia).
    assert (number_end t) as Ht.
    { subst t. destruct l; [|done]. cbn [foldr]. by apply ws_number_end. }
    apply Forall_cons in Hall as [Hb _].
    destruct (Hb (step acc a) fuel' 0 t Ht Hfb) as (Hs1 & Hs2 & _).
    rewrite skip_ws_app by done. cbn [peek at_pos c_rest].
    rewrite bool_decide_false; [by apply IH|].
    intros Hh. destruct (w b ++ t) as [|c l']; [done|]. cbn [starts] in Hs2.
    apply Some_inj in Hh. apply Z.eqb_neq in Hs2. by rewrite Hh in Hs2.
Qed.





Lemma scalar_reads_back v :
  match v with JArray _ | JObject _ => False | _ => True end →
  wf_json v → prints_back v → reads_back v.
Proof.
  intros Hv Hwf Hpb i depth fuel pos ws tail Hws Ht Hd Hf.
  destruct fuel as [|fuel]; [lia|].
  pose proof (write_starts v i tail Hwf Hpb) as Hst.
  assert (starts is_ws (write i v ++ tail) = false) as Hsw.
  { apply value_byte_starts; [done|]. intros b. unfold is_ws, value_byte, is_digit, lbracket, lbrace, quote, minus. lia. }
  destruct (parse_value_at fuel depth pos ws (write i v ++ tail)) as [p ->]; [lia|done|done|].
  cbv zeta. destruct v as [|b|n|n|x|s|items|entries]; try done; cbn [write_ws].
  - eexists. apply (f_equal Ret (parse_literal_back "null" Null p tail)).
  - destruct b; eexists;
      [apply (f_equal Ret (parse_literal_back "true" (Bool true) p tail))
      |apply (f_equal Ret (parse_literal_back "false" (Bool false) p tail))].
  - cbn [wf_json prints_back] in *. eexists.
    rewrite <-(parse_number_I64 n p tail) by (lia || done).
    unfold dec_signed. rewrite (proj2 (Z.ltb_lt n 0)) by lia. reflexivity.
  - cbn [wf_json prints_back] in *. pose proof (dec_starts n tail Hwf) as Hs. eexists.
    rewrite <-(f_equal Ret (parse_number_U64 n p tail Hwf Ht)).
    destruct (dec n ++ tail) as [|b l]; [done|]. cbn [starts] in Hs.
    apply number_dispatch. by rewrite Hs, orb_true_r.
  - cbn [prints_back] in Hpb. destruct Hpb as (Hp & Hsc & Hs). eexists.
    pose proof (parse_number_text (f64_fmt x) true p tail Hsc Ht) as Hpn. cbv zeta iota in Hpn.
    rewrite Hp in Hpn. rewrite <-(f_equal Ret Hpn).
    destruct (f64_fmt x) as [|b l]; [done|]. cbn [starts app] in *. by apply number_dispatch.
  - destruct (parse_string_back s p tail Hwf) as [p' Hp]. exists p'.
    change (write_json_string s ++ tail) with (quote :: ((s ≫= escape_byte) ++ [quote]) ++ tail) in *.
    dispatch. by rewrite Hp.
Qed.






Lemma height_items items d :
  (height (JArray items) ≤ d)%nat → Forall (λ v, S (height v) ≤ d)%nat items.
Proof. induction items as [|v l IH]; cbn [height foldr]; constructor; [lia|apply IH; simpl; lia]. Qed.

Lemma wf_items items : wf_json (JArray items) → Forall wf_json items.
Proof. induction items as [|v l IH]; cbn [wf_json foldr]; intros; constructor; tauto. Qed.

Lemma prints_back_items items : prints_back (JArray items) → Forall prints_back items.
Proof. induction items as [|v l IH]; cbn [prints_back foldr]; intros; constructor; tauto. Qed.

Lemma foldl_snoc {A} (acc l : list A) : foldl (λ acc a, acc ++ [a]) acc l = acc ++ l.
Proof.
  revert acc. induction l as [|a l IH]; intros acc; cbn [foldl]; [by rewrite app_nil_r|].
  by rewrite IH, <-app_assoc.
Qed.

Lemma array_items_back i depth items :
  Forall (λ v, wf_json v → prints_back v → reads_back v) items →
  wf_json (JArray items) → prints_back (JArray items) →
  (height (JArray items) + depth ≤ MAX_DEPTH)%nat →
  Forall (λ a, ∀ acc fuel pos t, number_end t → (2 * length (write i a ++ t) + 2 ≤ fuel)%nat →
    starts is_ws (write i a ++ t) = false ∧ starts (Z.eqb rbracket) (write i a ++ t) = false ∧
    ∃ pos' fuel', (fuel ≤ S fuel')%nat ∧
    array_loop fuel depth acc (at_pos pos (write i a ++ t)) =
      (let acc := acc ++ [a] in let c := skip_ws (at_pos pos' t) in
       if bool_decide (peek c = Some comma) then
         let c := skip_ws (advance c 1) in
         if bool_decide (peek c = Some rbracket) then Ret (Ok (JArray acc, advance c 1))
         else array_loop fuel' depth acc c
       else if bool_decide (peek c = Some rbracket) then Ret (Ok (JArray acc, advance c 1))
       else Ret (err c ArraySeparator))) items.
Proof.
  intros IH Hwf%wf_items Hpb%prints_back_items Hh.
  assert (height (JArray items) ≤ MAX_DEPTH - depth)%nat as Hh'%height_items by lia.
  rewrite Forall_forall in IH, Hwf, Hpb, Hh'. apply Forall_forall. intros a Ha acc fuel pos t Ht Hf.
  pose proof (write_starts a i t (Hwf a Ha) (Hpb a Ha)) as Hst.
  split; [by apply value_not_ws|]. split; [by apply value_not|].
  destruct fuel as [|fuel]; [lia|]. specialize (Hh' a Ha). simpl in Hh'.
  destruct (IH a Ha (Hwf a Ha) (Hpb a Ha) i (S depth) fuel pos [] t) as [pos' Hp];
    [constructor|done|lia|cbn [app]; lia|]. cbn [app] in Hp.
  exists pos', fuel. split; [done|]. cbn [array_loop]. by rewrite Hp.
Qed.

Lemma array_reads_back items :
  Forall (λ v, wf_json v → prints_back v → reads_back v) items →
  wf_json (JArray items) → prints_back (JArray items) → reads_back (JArray items).
Proof.
  intros IH Hwf Hpb i depth fuel pos ws tail Hws Ht Hd Hf. destruct fuel as [|fuel]; [lia|].
  destruct (parse_value_at fuel depth pos ws (write i (JArray items) ++ tail)) as [p ->];
    [lia|done|by destruct items|]. cbv zeta.
  destruct items as [|a l].
  { cbn [write_ws app]. dispatch. rewrite expect_at. cbn [bind_parsed].
    rewrite skip_ws_none by done. rewrite bool_decide_true by done. rewrite advance_cons. by eexists. }
  pose proof (array_items_back (S i) depth (a :: l) IH Hwf Hpb Hd) as Hall.
  cbn [write_ws ws_items app] in *. rewrite <-!app_assoc, foldr_tail, <-!app_assoc in *.
  cbn [app] in *. set (t := foldr _ _ l) in *.
  pose proof (write_starts a (S i) t (proj1 Hwf) (proj1 Hpb)) as Hst.
  dispatch. rewrite expect_at. cbn [bind_parsed].
  rewrite skip_ws_app by (apply Hnl || by apply value_not_ws). rewrite peek_not by (by apply value_not).
  rewrite !length_app in Hf. cbn [length] in Hf. rewrite !length_app in Hf.
  destruct (loop_back (write (S i)) (λ acc a, acc ++ [a]) JArray rbracket (nl (S i)) (nl i)
    (λ fuel acc c, array_loop fuel depth acc c) ArraySeparator l a tail eq_refl eq_refl
    ltac:(done) (Hnl _) (Hnl _) Hall [] fuel (p + 1 + Z.of_nat (length (nl (S i))))) as [pos' Hl].
  { rewrite length_app. subst t. lia. }
  exists pos'. subst t. rewrite Hl. by rewrite foldl_snoc.
Qed.

Definition write_entry (i : nat) (e : text * JsonValue) : text :=
  let '(k, v) := e in write_json_string k ++ colon :: sp ++ write i v.

Lemma height_entries es d :
  (height (JObject es) ≤ d)%nat → Forall (λ e, S (height e.2) ≤ d)%nat es.
Proof. induction es as [|v l IH]; cbn [height foldr]; constructor; [lia|apply IH; simpl; lia]. Qed.

Lemma wf_entries es :
  wf_json (JObject es) → Forall (λ e, utf8_valid e.1 = true ∧ wf_json e.2) es.
Proof.
  intros [_ H]. induction es as [|e l IH]; cbn [foldr] in H; constructor; [tauto|apply IH; tauto].
Qed.

Lemma prints_back_entries es : prints_back (JObject es) → Forall (λ e, prints_back e.2) es.
Proof. induction es as [|v l IH]; cbn [prints_back foldr]; intros; constructor; tauto. Qed.

Lemma object_entries_back i depth es :
  Forall (λ e, wf_json e.2 → prints_back e.2 → reads_back e.2) es →
  wf_json (JObject es) → prints_back (JObject es) →
  (height (JObject es) + depth ≤ MAX_DEPTH)%nat →
  Forall (λ a, ∀ acc fuel pos t, number_end t → (2 * length (write_entry i a ++ t) + 2 ≤ fuel)%nat →
    starts is_ws (write_entry i a ++ t) = false ∧ starts (Z.eqb rbrace) (write_entry i a ++ t) = false ∧
    ∃ pos' fuel', (fuel ≤ S fuel')%nat ∧
    object_loop fuel depth acc (at_pos pos (write_entry i a ++ t)) =
      (let acc := insert_entry acc a.1 a.2 in let c := skip_ws (at_pos pos' t) in
       if bool_decide (peek c = Some comma) then
         let c := skip_ws (advance c 1) in
         if bool_decide (peek c = Some rbrace) then Ret (Ok (JObject acc, advance c 1))
         else object_loop fuel' depth acc c
       else if bool_decide (peek c = Some rbrace) then Ret (Ok (JObject acc, advance c 1))
       else Ret (err c ObjectSeparator))) es.
Proof.
  intros IH Hwf%wf_entries Hpb%prints_back_entries Hh.
  assert (height (JObject es) ≤ MAX_DEPTH - depth)%nat as Hh'%height_entries by lia.
  rewrite Forall_forall in IH, Hwf, Hpb, Hh'. apply Forall_forall.
  intros [k v] Ha acc fuel pos t Ht Hf. specialize (Hwf _ Ha) as [Hk Hv].
  split; [done|]. split; [done|]. destruct fuel as [|fuel]; [lia|].
  specialize (Hh' _ Ha). cbn [write_entry fst snd] in *. rewrite <-!app_assoc in *. cbn [app] in *.
  rewrite <-!app_assoc in *. cbn [object_loop]. rewrite skip_ws_none by done.
  destruct (parse_string_back k pos (colon :: sp ++ write i v ++ t) Hk) as [p1 ->].
  cbn [bind_parsed]. rewrite skip_ws_none by done. rewrite expect_at. cbn [bind_parsed].
  rewrite length_app in Hf. cbn [length] in Hf.
  destruct (IH _ Ha Hv (Hpb _ Ha) i (S depth) fuel (p1 + 1) sp t) as [pos' Hp];
    [done|done|simpl; lia|simpl; lia|]. cbn [snd] in Hp. rewrite Hp.
  exists pos', fuel. done.
Qed.

Lemma insert_entry_fresh es k v : k ∉ es.*1 → insert_entry es k v = es ++ [(k, v)].
Proof.
  induction es as [|[k' v'] es IH]; [done|]. csimpl. rewrite not_elem_of_cons. intros [Hk Hn].
  rewrite bool_decide_false by congruence. by rewrite IH.
Qed.

Lemma insert_all acc es :
  NoDup (acc ++ es).*1 → foldl (λ acc a, insert_entry acc a.1 a.2) acc es = acc ++ es.
Proof.
  revert acc. induction es as [|[k v] es IH]; intros acc Hnd; cbn [foldl fst snd];
    [by rewrite app_nil_r|].
  rewrite insert_entry_fresh.
  - rewrite IH; [by rewrite <-app_assoc|]. by rewrite <-app_assoc.
  - rewrite fmap_app in Hnd. apply NoDup_app in Hnd as (_ & Hd & _). csimpl in Hd.
    intros Hin. apply (Hd k Hin). apply elem_of_cons. by left.
Qed.

Lemma object_reads_back es :
  Forall (λ e, wf_json e.2 → prints_back e.2 → reads_back e.2) es →
  wf_json (JObject es) → prints_back (JObject es) → reads_back (JObject es).
Proof.
  intros IH Hwf Hpb i depth fuel pos ws tail Hws Ht Hd Hf. destruct fuel as [|fuel]; [lia|].
  destruct (parse_value_at fuel depth pos ws (write i (JObject es) ++ tail)) as [p ->];
    [lia|done|by destruct es|]. cbv zeta.
  destruct es as [|a l].
  { cbn [write_ws app]. dispatch. rewrite expect_at. cbn [bind_parsed].
    rewrite skip_ws_none by done. rewrite bool_decide_true by done. rewrite advance_cons. by eexists. }
  pose proof (object_entries_back (S i) depth (a :: l) IH Hwf Hpb Hd) as Hall.
  assert (write i (JObject (a :: l)) =
    lbrace :: ws_items (write_entry (S i)) (nl (S i)) (nl i ++ [rbrace]) (a :: l)) as Hw by done.
  rewrite Hw in *. clear Hw.
  cbn [ws_items app] in *. rewrite <-!app_assoc, foldr_tail, <-!app_assoc in *.
  cbn [app] in *. set (t := foldr _ _ l) in *.
  assert (∀ q, q quote = false → starts q (write_entry (S i) a ++ t) = false) as Hst by (by destruct a).
  dispatch. rewrite expect_at. cbn [bind_parsed].
  rewrite skip_ws_app by (apply Hnl || by apply Hst). rewrite peek_not by (by apply Hst).
  rewrite !length_app in Hf. cbn [length] in Hf. rewrite !length_app in Hf.
  destruct (loop_back (write_entry (S i)) (λ acc a, insert_entry acc a.1 a.2) JObject rbrace
    (nl (S i)) (nl i) (λ fuel acc c, object_loop fuel depth acc c) ObjectSeparator l a tail
    eq_refl eq_refl ltac:(done) (Hnl _) (Hnl _) Hall [] fuel
    (p + 1 + Z.of_nat (length (nl (S i))))) as [pos' Hl].
  { rewrite length_app. subst t. lia. }
  exists pos'. subst t. rewrite Hl. rewrite insert_all; [done|]. apply Hwf.
Qed.

Lemma value_reads_back v : wf_json v → prints_back v → reads_back v.
Proof.
  induction v as [v Hv|items IH|entries IH] using JsonValue_nested_ind.
  - by apply scalar_reads_back.
  - by apply array_reads_back.
  - by apply object_reads_back.
Qed.

Lemma parse_write_ws v :
  wf_json v → prints_back v → (height v ≤ MAX_DEPTH)%nat → parse (write 0 v) = Ret (Ok v).
Proof.
  intros Hwf Hpb Hh. unfold parse.
  pose proof (write_starts v 0 [] Hwf Hpb) as Hs. rewrite app_nil_r in Hs.
  rewrite skip_ws_none by (by apply value_not_ws).
  destruct (value_reads_back v Hwf Hpb 0%nat 0%nat (2 * length (write 0 v) + 1)%nat 0 [] [])
    as [pos Hp]; [constructor|done|lia|cbn [app]; rewrite app_nil_r; lia|].
  cbn [app] in Hp. rewrite app_nil_r in Hp. rewrite Hp.
  cbn [mbind outcome_bind mret outcome_ret]. by rewrite skip_ws_none.
Qed.
End back.

(** C29. What [to_string_compact] and [to_string_pretty] print, [parse] reads back as the
    same value: for every value with valid UTF-8 strings (any escapes, controls and
    multi-byte characters included), integers in their range, distinct keys, at most 512
    levels of nesting, and numbers that keep their variant when printed. *)
Theorem json_roundtrip v :
  wf_json v → prints_back v → (height v ≤ MAX_DEPTH)%nat →
  parse (to_string_compact v) = Ret (Ok v) ∧ parse (to_string_pretty v) = Ret (Ok v).
Proof.
  intros Hwf Hpb Hh. unfold to_string_compact, to_string_pretty. split.
  - rewrite (write_compact_ws v 0).
    apply (parse_write_ws (λ _, []) []); [intros _|..]; done || constructor.
  - rewrite (write_pretty_ws v 0). apply parse_write_ws; [|by repeat constructor|done..].
    intros i. unfold pretty_nl, push_indent. constructor; [done|].
    induction i as [|i IH]; [constructor|]. cbn [replicate]. by repeat constructor.
Qed.

Lemma trailing_comma v :
  wf_json v → prints_back v → (height v < MAX_DEPTH)%nat →
  parse (lbracket :: write_compact v ++ [comma; rbracket]) = Ret (Ok (JArray [v])).
Proof.
  intros Hwf Hpb Hh. rewrite (write_compact_ws v 0). set (nl := λ _ : nat, @nil Z).
  assert (∀ i, all_ws (nl i)) as Hn by constructor. assert (all_ws []) as Hs by constructor.
  pose proof (write_starts nl [] Hn Hs v 0 [comma; rbracket] Hwf Hpb) as Hst.
  set (body := write_ws nl [] 0 v ++ [comma; rbracket]) in *. unfold parse.
  rewrite skip_ws_none by done. cbn [length].
  replace (2 * S (length body) + 1)%nat with (S (S (2 * length body + 1))) by lia.
  destruct (parse_value_at (S (2 * length body + 1)) 0 0 [] (lbracket :: body)) as [p Hp];
    [lia|constructor|done|]. cbn [app] in Hp. rewrite Hp. cbv zeta. clear Hp.
  dispatch. rewrite expect_at. cbn [bind_parsed].
  rewrite skip_ws_none by (by apply (value_not_ws)). rewrite peek_not by (by apply (value_not)).
  cbn [array_loop].
  destruct (value_reads_back nl [] Hn Hs v Hwf Hpb 0%nat 1%nat
    (2 * length body + 1)%nat (p + 1) [] [comma; rbracket]) as [p' Hv]; [constructor|done|lia|done|].
  cbn [app] in Hv. fold body in Hv. rewrite Hv. by vm_compute.
Qed.

(** Texts outside the JSON grammar that the parser takes: an array with a comma before
    its bracket, for every value in it; a sign among the four digits of a [\u] escape; and
    [-0], whose value prints as a text that reads back as another variant. *)
Theorem json_parser_lenient v :
  wf_json v → prints_back v → (height v < MAX_DEPTH)%nat →
  parse (lbracket :: write_compact v ++ [comma; rbracket]) = Ret (Ok (JArray [v])) ∧
  parse (quote :: bslash :: lit "u+041" ++ [quote]) = Ret (Ok (Str (lit "A"))) ∧
  parse (lit "-0") = Ret (Ok (JI64 0)) ∧ parse (to_string_compact (JI64 0)) = Ret (Ok (JU64 0)).
Proof. intros Hwf Hpb Hh. split; [by apply trailing_comma|]. by vm_compute. Qed.

(** A key set by [insert] is the one [get] finds, and no other key changes. *)
Lemma get_insert es k v k' :
  get (insert (JObject es) k v) k' = if bool_decide (k' = k) then Some v else get (JObject es) k'.
Proof.
  cbn [get insert]. induction es as [|[k0 v0] es IH].
  - cbn [insert_entry find fst]. repeat case_bool_decide; congruence || done.
  - cbn [insert_entry]. destruct (decide (k0 = k)) as [->|Hk].
    + rewrite bool_decide_true by done. cbn [find fst]. repeat case_bool_decide; congruence || done.
    + rewrite (bool_decide_false (k0 = k)) by done. cbn [find fst].
      destruct (decide (k0 = k')) as [->|Hk']; [|by rewrite (bool_decide_false (k0 = k'))].
      rewrite (bool_decide_true (k' = k')), (bool_decide_false (k' = k)); done.
Qed.
End json.

(** ** Witnesses *)

(** Floating-point numbers that all print as one text. *)
Definition one_fmt (x : unit) : text := lit "-1.5e3".
Definition one_parse (s : text) : option unit :=
  if bool_decide (s = lit "-1.5e3") then Some tt else None.

Definition sample : JsonValue (F := unit) :=
  JObject [(lit "a", JArray [JI64 (-7); JU64 U64_MAX; JF64 tt; Null; JArray []]);
           ([], Str [34; 0; 10; 92; 195; 169; 127]); (lit "b", JObject [(lit "a", Bool false)])].

Lemma json_roundtrip_witness :
  parse one_parse (to_string_compact one_fmt sample) = Ret (Ok sample) ∧
  parse one_parse (to_string_pretty one_fmt sample) = Ret (Ok sample).
Proof.
  apply (json_roundtrip one_fmt one_parse sample).
  - vm_compute. repeat split; try discriminate; repeat constructor; vm_compute; set_solver.
  - vm_compute. repeat split.
  - vm_compute. lia.
Defined.

Lemma json_parser_lenient_witness :
  parse one_parse (lit "[{},]") = Ret (Ok (JArray [JObject []])).
Proof.
  refine (proj1 (json_parser_lenient one_fmt one_parse (JObject []) _ _ _)).
  - repeat constructor.
  - done.
  - vm_compute. lia.
Defined.
