(* ===== verification/Egraph.v ===== *)
(** * Equality saturation

    Models [src/src/codegen/src/egraph.rs] (e-nodes, the e-graph with its union-find,
    rebuilding, the standard rewrite rules, saturation, extraction), the proof log of
    [src/src/codegen/src/proof_artifacts.rs], and the pass over a function in
    [src/src/codegen/src/opt.rs] ([equality_saturation]).

    Classes are numbered with [u32]s from zero; the model counts without a bound, since
    saturation starts a round only below ten thousand nodes, runs at most ten rounds and
    adds at most three nodes for a rule at a node.  Where the code walks a hash set in its
    own order, the order is the argument [walk]; where it sorts, by the debug text of a
    node, so does the model. *)

From S2P Require Import Prelude Ir BvVerify Opt.
From stdpp Require Import options.
#[local] Open Scope Z_scope.

(** ** Nodes *)

Inductive ENode : Type :=
  | Lit (v : Z)
  | VReg (id : Z)
  | BinOp (op : BinOpKind) (lhs rhs : Z)
  | StateInit (layout_id : Z)
  | StateRead (state offset size : Z)
  | StateWrite (state offset value : Z)
  | StateTransform (input src_layout dst_layout : Z).

#[export] Instance ENode_eq_dec : EqDecision ENode.
Proof. solve_decision. Defined.

Definition all_binops : list BinOpKind :=
  [Add; Sub; Mul; SDiv; UDiv; SRem; URem; And; Or; Xor; Shl; ShrL; ShrA; Ror; Rol;
   SLt; SLe; SGt; SGe; ULt; ULe; UGt; UGe; Eq; Ne].
Definition binop_index (op : BinOpKind) : Z :=
  match op with
  | Add => 0 | Sub => 1 | Mul => 2 | SDiv => 3 | UDiv => 4 | SRem => 5 | URem => 6 | And => 7
  | Or => 8 | Xor => 9 | Shl => 10 | ShrL => 11 | ShrA => 12 | Ror => 13 | Rol => 14
  | SLt => 15 | SLe => 16 | SGt => 17 | SGe => 18 | ULt => 19 | ULe => 20 | UGt => 21
  | UGe => 22 | Eq => 23 | Ne => 24
  end.

Definition ENode_numbers (n : ENode) : list Z :=
  match n with
  | Lit v => [0; v]
  | VReg id => [1; id]
  | BinOp op lhs rhs => [2; binop_index op; lhs; rhs]
  | StateInit layout_id => [3; layout_id]
  | StateRead state offset size => [4; state; offset; size]
  | StateWrite state offset value => [5; state; offset; value]
  | StateTransform input src_layout dst_layout => [6; input; src_layout; dst_layout]
  end.
Definition ENode_of_numbers (l : list Z) : option ENode :=
  match l with
  | [0; v] => Some (Lit v)
  | [1; id] => Some (VReg id)
  | [2; i; lhs; rhs] => op ← all_binops !! Z.to_nat i; Some (BinOp op lhs rhs)
  | [3; layout_id] => Some (StateInit layout_id)
  | [4; state; offset; size] => Some (StateRead state offset size)
  | [5; state; offset; value] => Some (StateWrite state offset value)
  | [6; input; src_layout; dst_layout] => Some (StateTransform input src_layout dst_layout)
  | _ => None
  end.
#[export] Instance ENode_countable : Countable ENode.
Proof.
  apply (inj_countable ENode_numbers ENode_of_numbers).
  intros [| |op lhs rhs| | | |]; try done. by destruct op.
Defined.

(** The debug text. *)
Definition BinOpKind_debug (op : BinOpKind) : string :=
  match op with
  | Add => "Add" | Sub => "Sub" | Mul => "Mul" | SDiv => "SDiv" | UDiv => "UDiv" | SRem => "SRem"
  | URem => "URem" | And => "And" | Or => "Or" | Xor => "Xor" | Shl => "Shl" | ShrL => "ShrL"
  | ShrA => "ShrA" | Ror => "Ror" | Rol => "Rol" | SLt => "SLt" | SLe => "SLe" | SGt => "SGt"
  | SGe => "SGe" | ULt => "ULt" | ULe => "ULe" | UGt => "UGt" | UGe => "UGe" | Eq => "Eq" | Ne => "Ne"
  end.
Definition ENode_debug (n : ENode) : string :=
  match n with
  | Lit v => "Lit(" +:+ show v +:+ ")"
  | VReg id => "VReg(" +:+ show id +:+ ")"
  | BinOp op lhs rhs =>
      "BinOp(" +:+ BinOpKind_debug op +:+ ", " +:+ show lhs +:+ ", " +:+ show rhs +:+ ")"
  | StateInit layout_id => "StateInit { layout_id: " +:+ show layout_id +:+ " }"
  | StateRead state offset size =>
      "StateRead { state: " +:+ show state +:+ ", offset: " +:+ show offset +:+ ", size: " +:+
      show size +:+ " }"
  | StateWrite state offset value =>
      "StateWrite { state: " +:+ show state +:+ ", offset: " +:+ show offset +:+ ", value: " +:+
      show value +:+ " }"
  | StateTransform input src_layout dst_layout =>
      "StateTransform { input: " +:+ show input +:+ ", src_layout: " +:+ show src_layout +:+
      ", dst_layout: " +:+ show dst_layout +:+ " }"
  end.

(** Sorting by a comparison; the sorts of the code are by keys that tell their items
    apart. *)
Section sort.
  Context {A : Type} (le : A → A → bool).

Fixpoint insert_le (x : A) (l : list A) : list A :=
  match l with
  | [] => [x]
  | y :: l' => if le x y then x :: l else y :: insert_le x l'
  end.
Fixpoint sort_le (l : list A) : list A :=
  match l with [] => [] | x :: l => insert_le x (sort_le l) end.
End sort.

Definition debug_le (a b : ENode) : bool := String.leb (ENode_debug a) (ENode_debug b).

(** ** The graph *)

Record RewriteStep := {
  rs_rule_name : string;
  rs_source : ENode;
  rs_replacement : ENode;
}.

Record EGraph := {
  hashcons : gmap ENode Z;
  classes : gmap Z (gset ENode);
  parents : gmap Z Z;
  next_id : Z;
  provenance : gmap Z (list RewriteStep);
}.

Definition EGraph_new : EGraph :=
  {| hashcons := ∅; classes := ∅; parents := ∅; next_id := 0; provenance := ∅ |}.

(** The walk to the root; every step but the last visits another entry of [parents]. *)
Fixpoint find_loop (fuel : nat) (parents : gmap Z Z) (id : Z) : Z :=
  match fuel with
  | O => id
  | S fuel =>
      match parents !! id with
      | Some parent => if parent =? id then id else find_loop fuel parents parent
      | None => id
      end
  end.
Definition find (self : EGraph) (id : Z) : Z := find_loop (size (parents self)) (parents self) id.

Definition add (node : ENode) (self : EGraph) : Z * EGraph :=
  match hashcons self !! node with
  | Some id => (find self id, self)
  | None =>
      let id := next_id self in
      (id, {| hashcons := <[node := id]> (hashcons self);
              classes := <[id := {[node]}]> (classes self);
              parents := <[id := id]> (parents self);
              next_id := id + 1;
              provenance := provenance self |})
  end.

(** The nodes of the absorbed class move over, and their entries with them. *)
Definition merge_no_rebuild (a b : Z) (self : EGraph) : EGraph :=
  let ra := find self a in
  let rb := find self b in
  if ra =? rb then self
  else
    let moved := classes self !! rb in
    {| hashcons :=
         match moved with
         | Some nodes_b => gset_to_gmap ra nodes_b ∪ hashcons self
         | None => hashcons self
         end;
       classes :=
         match moved with
         | Some nodes_b =>
             <[ra := default ∅ (delete rb (classes self) !! ra) ∪ nodes_b]> (delete rb (classes self))
         | None => classes self
         end;
       parents := <[rb := ra]> (parents self);
       next_id := next_id self;
       provenance :=
         match provenance self !! rb with
         | Some prov_b =>
             <[ra := default [] (delete rb (provenance self) !! ra) ++ prov_b]>
               (delete rb (provenance self))
         | None => provenance self
         end |}.

Definition canonicalize (self : EGraph) (node : ENode) : ENode :=
  match node with
  | Lit _ | VReg _ | StateInit _ => node
  | BinOp op a b => BinOp op (find self a) (find self b)
  | StateRead state offset size => StateRead (find self state) offset size
  | StateWrite state offset value => StateWrite (find self state) offset (find self value)
  | StateTransform input src_layout dst_layout =>
      StateTransform (find self input) src_layout dst_layout
  end.

Definition class_ids (self : EGraph) : list Z := sort_by_key id (map_to_list (classes self)).*1.

(** The classes that are their own representatives, in order. *)
Definition canonical_classes (self : EGraph) : list (Z * gset ENode) :=
  filter (λ p, find self p.1 = p.1) (sort_by_key fst (map_to_list (classes self))).

(** ** Rebuilding *)

Definition push_group (canon : Z) (groups : gmap ENode (list Z)) (node : ENode) :
    gmap ENode (list Z) :=
  <[node := default [] (groups !! node) ++ [canon]]> groups.

Definition collect_groups (self : EGraph) : gmap ENode (list Z) :=
  foldl (λ groups '(canon, nodes),
    foldl (push_group canon) groups (canonicalize self <$> elements nodes))
    ∅ (canonical_classes self).

Definition merge_if_apart (first other : Z) (st : EGraph * bool) : EGraph * bool :=
  let '(self, merged) := st in
  let r1 := find self first in
  let r2 := find self other in
  if r1 =? r2 then st else (merge_no_rebuild r1 r2 self, true).

Definition merge_group (st : EGraph * bool) (classes : list Z) : EGraph * bool :=
  match classes with
  | [] => st
  | first :: others => foldl (λ st other, merge_if_apart first other st) st others
  end.

Definition rebuild_once (self : EGraph) : EGraph * bool :=
  let groups := sort_le (λ a b, debug_le a.1 b.1) (map_to_list (collect_groups self)) in
  foldl merge_group (self, false) groups.*2.

Definition REBUILD_MAX_ITERS : nat := 16.

Fixpoint rebuild_loop (iters : nat) (self : EGraph) : EGraph :=
  match iters with
  | O => self
  | S iters => let '(self, merged) := rebuild_once self in
               if merged then rebuild_loop iters self else self
  end.
Definition rebuild (self : EGraph) : EGraph := rebuild_loop REBUILD_MAX_ITERS self.

Definition merge (a b : Z) (self : EGraph) : Z * EGraph :=
  (find self a, rebuild (merge_no_rebuild a b self)).

Definition rewrite (pattern replacement : ENode) (self : EGraph) : EGraph :=
  match hashcons self !! pattern with
  | Some class_id =>
      let '(repl_id, self) := add replacement self in (merge class_id repl_id self).2
  | None => self
  end.

(** ** Queries *)

Definition class_nodes (self : EGraph) (canonical : Z) : gset ENode :=
  default ∅ (classes self !! canonical).

Definition class_contains_lit (self : EGraph) (class_id val : Z) : bool :=
  existsb (λ n, bool_decide (n = Lit val)) (elements (class_nodes self (find self class_id))).
Definition class_contains_any_lit (self : EGraph) (class_id : Z) : bool :=
  existsb (λ n, match n with Lit _ => true | _ => false end)
    (elements (class_nodes self (find self class_id))).

Definition record_provenance (class_id : Z) (rule_name : string) (source replacement : ENode)
    (self : EGraph) : EGraph :=
  let step := {| rs_rule_name := rule_name; rs_source := source; rs_replacement := replacement |} in
  let canonical := find self class_id in
  {| hashcons := hashcons self; classes := classes self; parents := parents self;
     next_id := next_id self;
     provenance := <[canonical := default [] (provenance self !! canonical) ++ [step]]>
       (provenance self) |}.
Definition get_provenance (self : EGraph) (class_id : Z) : list RewriteStep :=
  default [] (provenance self !! find self class_id).
Definition has_provenance (self : EGraph) (class_id : Z) : bool :=
  match get_provenance self class_id with [] => false | _ => true end.

Definition node_children (node : ENode) : list Z :=
  match node with
  | Lit _ | VReg _ | StateInit _ => []
  | BinOp _ a b => [a; b]
  | StateRead state _ _ => [state]
  | StateWrite state _ value => [state; value]
  | StateTransform input _ _ => [input]
  end.

Definition is_eclass_referenced (self : EGraph) (target : Z) : bool :=
  let target_canon := find self target in
  existsb (λ p, existsb (λ node, existsb (λ child, find self child =? target_canon)
                                         (node_children node)) (elements p.2))
    (canonical_classes self).

(** ** Rules

    A rule looks at a node and at the graph, may add nodes, and gives the class and the
    root of the replacement. *)

Record RewriteRule := {
  name : string;
  verified : bool;
  apply : ENode → EGraph → option (Z * ENode * EGraph);
}.

(** The replacement is added as it is. *)
Definition replace_with (replacement : ENode) (eg : EGraph) : option (Z * ENode * EGraph) :=
  let '(repl_id, eg) := add replacement eg in Some (repl_id, replacement, eg).

Definition when (c : bool) (r : option (Z * ENode * EGraph)) : option (Z * ENode * EGraph) :=
  if c then r else None.

Definition xor_self : RewriteRule :=
  {| name := "xor_self"; verified := true; apply := λ node eg,
       match node with
       | BinOp Xor x y => when (x =? y) (replace_with (Lit 0) eg)
       | _ => None
       end |}.
Definition sub_self : RewriteRule :=
  {| name := "sub_self"; verified := true; apply := λ node eg,
       match node with
       | BinOp Sub x y => when (x =? y) (replace_with (Lit 0) eg)
       | _ => None
       end |}.
Definition add_zero_left : RewriteRule :=
  {| name := "add_zero_left"; verified := true; apply := λ node eg,
       match node with
       | BinOp Add lhs rhs => when (class_contains_lit eg lhs 0) (replace_with (VReg rhs) eg)
       | _ => None
       end |}.
Definition add_zero_right : RewriteRule :=
  {| name := "add_zero_right"; verified := true; apply := λ node eg,
       match node with
       | BinOp Add lhs rhs => when (class_contains_lit eg rhs 0) (replace_with (VReg lhs) eg)
       | _ => None
       end |}.
Definition mul_zero_left : RewriteRule :=
  {| name := "mul_zero_left"; verified := true; apply := λ node eg,
       match node with
       | BinOp Mul lhs _ => when (class_contains_lit eg lhs 0) (replace_with (Lit 0) eg)
       | _ => None
       end |}.
Definition mul_zero_right : RewriteRule :=
  {| name := "mul_zero_right"; verified := true; apply := λ node eg,
       match node with
       | BinOp Mul _ rhs => when (class_contains_lit eg rhs 0) (replace_with (Lit 0) eg)
       | _ => None
       end |}.
Definition mul_one_right : RewriteRule :=
  {| name := "mul_one_right"; verified := true; apply := λ node eg,
       match node with
       | BinOp Mul lhs rhs => when (class_contains_lit eg rhs 1) (replace_with (VReg lhs) eg)
       | _ => None
       end |}.
Definition mul_one_left : RewriteRule :=
  {| name := "mul_one_left"; verified := true; apply := λ node eg,
       match node with
       | BinOp Mul lhs rhs => when (class_contains_lit eg lhs 1) (replace_with (VReg rhs) eg)
       | _ => None
       end |}.
Definition mul_two_to_add : RewriteRule :=
  {| name := "mul_two_to_add"; verified := true; apply := λ node eg,
       match node with
       | BinOp Mul lhs rhs => when (class_contains_lit eg rhs 2) (replace_with (BinOp Add lhs lhs) eg)
       | _ => None
       end |}.
Definition mul_two_left_to_add : RewriteRule :=
  {| name := "mul_two_left_to_add"; verified := true; apply := λ node eg,
       match node with
       | BinOp Mul lhs rhs => when (class_contains_lit eg lhs 2) (replace_with (BinOp Add rhs rhs) eg)
       | _ => None
       end |}.
Definition and_zero_left : RewriteRule :=
  {| name := "and_zero_left"; verified := true; apply := λ node eg,
       match node with
       | BinOp And lhs _ => when (class_contains_lit eg lhs 0) (replace_with (Lit 0) eg)
       | _ => None
       end |}.
Definition and_zero_right : RewriteRule :=
  {| name := "and_zero_right"; verified := true; apply := λ node eg,
       match node with
       | BinOp And _ rhs => when (class_contains_lit eg rhs 0) (replace_with (Lit 0) eg)
       | _ => None
       end |}.
Definition or_zero_right : RewriteRule :=
  {| name := "or_zero_right"; verified := true; apply := λ node eg,
       match node with
       | BinOp Or lhs rhs => when (class_contains_lit eg rhs 0) (replace_with (VReg lhs) eg)
       | _ => None
       end |}.
Definition xor_zero_right : RewriteRule :=
  {| name := "xor_zero_right"; verified := true; apply := λ node eg,
       match node with
       | BinOp Xor lhs rhs => when (class_contains_lit eg rhs 0) (replace_with (VReg lhs) eg)
       | _ => None
       end |}.
Definition shr_zero_right : RewriteRule :=
  {| name := "shr_zero_right"; verified := true; apply := λ node eg,
       match node with
       | BinOp ShrL lhs rhs | BinOp ShrA lhs rhs =>
           when (class_contains_lit eg rhs 0) (replace_with (VReg lhs) eg)
       | _ => None
       end |}.
Definition shl_zero_right : RewriteRule :=
  {| name := "shl_zero_right"; verified := true; apply := λ node eg,
       match node with
       | BinOp Shl lhs rhs => when (class_contains_lit eg rhs 0) (replace_with (VReg lhs) eg)
       | _ => None
       end |}.

(** Commutativity, where neither operand has a literal. *)
Definition comm_apply (o : BinOpKind) (node : ENode) (eg : EGraph) : option (Z * ENode * EGraph) :=
  match node with
  | BinOp op a b =>
      when (bool_decide (op = o) && negb (a =? b) && negb (class_contains_any_lit eg a) &&
            negb (class_contains_any_lit eg b)) (replace_with (BinOp o b a) eg)
  | _ => None
  end.
Definition comm_add : RewriteRule := {| name := "comm_add"; verified := true; apply := comm_apply Add |}.
Definition comm_mul : RewriteRule := {| name := "comm_mul"; verified := true; apply := comm_apply Mul |}.
Definition comm_and : RewriteRule := {| name := "comm_and"; verified := true; apply := comm_apply And |}.
Definition comm_or : RewriteRule := {| name := "comm_or"; verified := true; apply := comm_apply Or |}.
Definition comm_xor : RewriteRule := {| name := "comm_xor"; verified := true; apply := comm_apply Xor |}.

(** The first operation [o] of a list of nodes, with its operands. *)
Fixpoint first_binop (o : BinOpKind) (nodes : list ENode) : option (Z * Z) :=
  match nodes with
  | [] => None
  | BinOp op a b :: nodes => if decide (op = o) then Some (a, b) else first_binop o nodes
  | _ :: nodes => first_binop o nodes
  end.

Section walk.
  (** The nodes of a class in the order in which its hash set is walked. *)
  Context (walk : EGraph → Z → list ENode).

Definition nodes_of (eg : EGraph) (class_id : Z) : list ENode := walk eg (find eg class_id).

Definition assoc_left_apply (o : BinOpKind) (node : ENode) (eg : EGraph) :
    option (Z * ENode * EGraph) :=
  match node with
  | BinOp op ab c =>
      if decide (op = o) then
        '(a, b) ← first_binop o (nodes_of eg ab);
        let '(bc, eg) := add (BinOp o b c) eg in replace_with (BinOp o a bc) eg
      else None
  | _ => None
  end.
Definition assoc_right_apply (o : BinOpKind) (node : ENode) (eg : EGraph) :
    option (Z * ENode * EGraph) :=
  match node with
  | BinOp op a bc =>
      if decide (op = o) then
        '(b, c) ← first_binop o (nodes_of eg bc);
        let '(ab, eg) := add (BinOp o a b) eg in replace_with (BinOp o ab c) eg
      else None
  | _ => None
  end.
Definition assoc_add_left : RewriteRule :=
  {| name := "assoc_add_left"; verified := true; apply := assoc_left_apply Add |}.
Definition assoc_add_right : RewriteRule :=
  {| name := "assoc_add_right"; verified := true; apply := assoc_right_apply Add |}.
Definition assoc_mul_left : RewriteRule :=
  {| name := "assoc_mul_left"; verified := true; apply := assoc_left_apply Mul |}.
Definition assoc_mul_right : RewriteRule :=
  {| name := "assoc_mul_right"; verified := true; apply := assoc_right_apply Mul |}.
Definition assoc_and_left : RewriteRule :=
  {| name := "assoc_and_left"; verified := true; apply := assoc_left_apply And |}.
Definition assoc_and_right : RewriteRule :=
  {| name := "assoc_and_right"; verified := true; apply := assoc_right_apply And |}.
Definition assoc_or_left : RewriteRule :=
  {| name := "assoc_or_left"; verified := true; apply := assoc_left_apply Or |}.
Definition assoc_or_right : RewriteRule :=
  {| name := "assoc_or_right"; verified := true; apply := assoc_right_apply Or |}.
Definition assoc_xor_left : RewriteRule :=
  {| name := "assoc_xor_left"; verified := true; apply := assoc_left_apply Xor |}.
Definition assoc_xor_right : RewriteRule :=
  {| name := "assoc_xor_right"; verified := true; apply := assoc_right_apply Xor |}.

Definition distrib_mul_add_fwd : RewriteRule :=
  {| name := "distrib_mul_add_fwd"; verified := true; apply := λ node eg,
       match node with
       | BinOp Mul a bc =>
           '(b, c) ← first_binop Add (nodes_of eg bc);
           let '(ab, eg) := add (BinOp Mul a b) eg in
           let '(ac, eg) := add (BinOp Mul a c) eg in
           replace_with (BinOp Add ab ac) eg
       | _ => None
       end |}.

(** The products of a list of nodes. *)
Definition products (nodes : list ENode) : list (Z * Z) :=
  omap (λ n, match n with BinOp Mul a b => Some (a, b) | _ => None end) nodes.
(** The first product of the one list with a product of the other of the same first factor. *)
Definition common_factor (eg : EGraph) (ab_nodes ac_nodes : list ENode) : option (Z * Z * Z) :=
  head (products ab_nodes ≫= λ '(a1, b),
          omap (λ '(a2, c), if find eg a1 =? find eg a2 then Some (a1, b, c) else None)
            (products ac_nodes)).
Definition distrib_mul_add_bwd : RewriteRule :=
  {| name := "distrib_mul_add_bwd"; verified := true; apply := λ node eg,
       match node with
       | BinOp Add ab_id ac_id =>
           '(a1, b, c) ← common_factor eg (nodes_of eg ab_id) (nodes_of eg ac_id);
           let '(bc, eg) := add (BinOp Add b c) eg in replace_with (BinOp Mul a1 bc) eg
       | _ => None
       end |}.

(** The first operand of the first operation [o] whose second operand is the literal. *)
Definition peel_apply (o : BinOpKind) (unit : Z) (node : ENode) (eg : EGraph) :
    option (Z * ENode * EGraph) :=
  match node with
  | BinOp op inner outer =>
      when (bool_decide (op = o) && class_contains_lit eg outer unit)
        (x ← head (omap (λ n, match n with
                            | BinOp op x z =>
                                if bool_decide (op = o) && class_contains_lit eg z unit
                                then Some x else None
                            | _ => None
                            end) (nodes_of eg inner));
         replace_with (VReg x) eg)
  | _ => None
  end.
Definition peel_add_zero_zero : RewriteRule :=
  {| name := "peel_add_zero_zero"; verified := true; apply := peel_apply Add 0 |}.
Definition peel_mul_one_one : RewriteRule :=
  {| name := "peel_mul_one_one"; verified := true; apply := peel_apply Mul 1 |}.

Definition state_dead_init_elim : RewriteRule :=
  {| name := "state_dead_init_elim"; verified := false; apply := λ node eg,
       match node with
       | StateInit _ =>
           cid ← hashcons eg !! node;
           when (negb (is_eclass_referenced eg cid)) (replace_with (Lit 0) eg)
       | _ => None
       end |}.
(** The class of the written value is the replacement; nothing is added. *)
Definition state_store_load_forward : RewriteRule :=
  {| name := "state_store_load_forward"; verified := true; apply := λ node eg,
       match node with
       | StateRead state offset _ =>
           v_canon ← head (omap (λ n, match n with
                                      | StateWrite _ w_off value =>
                                          if w_off =? offset then Some (find eg value) else None
                                      | _ => None
                                      end) (nodes_of eg state));
           Some (v_canon, VReg v_canon, eg)
       | _ => None
       end |}.
Definition state_transform_elision : RewriteRule :=
  {| name := "state_transform_elision"; verified := true; apply := λ node eg,
       match node with
       | StateTransform input src_layout dst_layout =>
           when (src_layout =? dst_layout) (Some (find eg input, VReg (find eg input), eg))
       | _ => None
       end |}.
Definition state_merge_rule : RewriteRule :=
  {| name := "state_merge_compatible_layouts"; verified := false; apply := λ _ _, None |}.

Definition standard_rules : list RewriteRule :=
  [xor_self; sub_self; add_zero_left; add_zero_right; mul_zero_left; mul_zero_right;
   mul_one_right; mul_one_left; mul_two_to_add; mul_two_left_to_add; and_zero_left;
   and_zero_right; or_zero_right; xor_zero_right; shr_zero_right; shl_zero_right;
   comm_add; comm_mul; comm_and; comm_or; comm_xor;
   assoc_add_left; assoc_add_right; assoc_mul_left; assoc_mul_right; assoc_and_left;
   assoc_and_right; assoc_or_left; assoc_or_right; assoc_xor_left; assoc_xor_right;
   distrib_mul_add_fwd; distrib_mul_add_bwd; peel_add_zero_zero; peel_mul_one_one;
   state_dead_init_elim; state_store_load_forward; state_transform_elision; state_merge_rule].

(** ** Proof log *)

Record ProofArtifact := {
  rule_name : string;
  pa_verified : bool;
  source_class : Z;
  replacement : ENode;
  source : ENode;
}.
Definition ProofLog : Type := list ProofArtifact.

Definition record (rule : RewriteRule) (source replacement : ENode) (source_class : Z)
    (log : ProofLog) : ProofLog :=
  log ++ [{| rule_name := name rule; pa_verified := verified rule; source_class := source_class;
             replacement := replacement; source := source |}].
Definition verified_count (log : ProofLog) : nat := length (filter (λ a, pa_verified a = true) log).
Definition unverified_count (log : ProofLog) : nat := length (filter (λ a, pa_verified a = false) log).

Record ProofSummary := {
  total_rewrites : nat;
  ps_verified : nat;
  ps_unverified : nat;
  (** A list in the code, in the order of a hash map. *)
  by_rule : gmap string (nat * nat);
}.
Definition count_artifact (by_rule : gmap string (nat * nat)) (a : ProofArtifact) :
    gmap string (nat * nat) :=
  let '(v, u) := default (0, 0)%nat (by_rule !! rule_name a) in
  <[rule_name a := if pa_verified a then (S v, u) else (v, S u)]> by_rule.
Definition summary (log : ProofLog) : ProofSummary :=
  {| total_rewrites := length log; ps_verified := verified_count log;
     ps_unverified := unverified_count log; by_rule := foldl count_artifact ∅ log |}.

(** The messages say which pattern was expected. *)
Definition structurally_validate_artifact (a : ProofArtifact) : option string :=
  let check (ok : bool) (pattern : string) :=
    if ok then None
    else Some (rule_name a +:+ " source must be " +:+ pattern +:+ ", got " +:+ ENode_debug (source a)) in
  if decide (rule_name a = "xor_self") then
    check (match source a with BinOp Xor x y => x =? y | _ => false end) "Xor(x, x)"
  else if decide (rule_name a = "sub_self") then
    check (match source a with BinOp Sub x y => x =? y | _ => false end) "Sub(x, x)"
  else if decide (rule_name a = "mul_zero_left") then
    check (match source a with BinOp Mul lhs _ => lhs =? 0 | _ => false end) "Mul(0, _)"
  else if decide (rule_name a = "mul_zero_right") then
    check (match source a with BinOp Mul _ rhs => rhs =? 0 | _ => false end) "Mul(_, 0)"
  else if decide (rule_name a = "mul_one_left") then
    check (match source a with BinOp Mul lhs _ => lhs =? 1 | _ => false end) "Mul(1, _)"
  else if decide (rule_name a = "mul_one_right") then
    check (match source a with BinOp Mul _ rhs => rhs =? 1 | _ => false end) "Mul(_, 1)"
  else None.

Definition verified_rules : gset string :=
  list_to_set (vr_rule_name <$> filter (λ r, vr_sound r = true) verify_all_rules) ∪
  list_to_set (name <$> standard_rules).

Fixpoint check_artifacts (rules : gset string) (log : ProofLog) : option string :=
  match log with
  | [] => None
  | a :: log =>
      if negb (bool_decide (rule_name a ∈ rules)) then
        Some ("Rule '" +:+ rule_name a +:+
              "' is NOT verified by the bitvector verifier (not in the sound rule set)")
      else
        match structurally_validate_artifact a with
        | Some err => Some ("Rule '" +:+ rule_name a +:+ "' structurally invalid: " +:+ err)
        | None => check_artifacts rules log
        end
  end.
Definition check_proof_log (log : ProofLog) : result ProofSummary string :=
  match check_artifacts verified_rules log with
  | Some err => Err err
  | None => Ok (summary log)
  end.

(** ** Saturation *)

Definition MAX_EGRAPH_NODES : Z := 10000.
Definition total_nodes (self : EGraph) : Z :=
  foldr (λ p n, Z.of_nat (size p.2) + n) 0 (map_to_list (classes self)).

Record round := {
  round_eg : EGraph;
  round_log : ProofLog;
  changed : bool;
  cap_hit : bool;
}.

(** One rule at one node of a class.  Once the cap is hit every loop of the round ends. *)
Definition apply_rule (class_id : Z) (node : ENode) (st : round) (rule : RewriteRule) : round :=
  if cap_hit st then st
  else
    match apply rule node (round_eg st) with
    | None => st
    | Some (repl_id, replacement, eg) =>
        let old_id := find eg class_id in
        let repl_canon := find eg repl_id in
        if repl_canon =? old_id
        then {| round_eg := eg; round_log := round_log st; changed := changed st; cap_hit := cap_hit st |}
        else
          let eg := record_provenance old_id (name rule) node replacement eg in
          let eg := merge_no_rebuild old_id repl_canon eg in
          {| round_eg := eg; round_log := record rule node replacement old_id (round_log st); changed := true;
             cap_hit := MAX_EGRAPH_NODES <? total_nodes eg |}
    end.

Definition visit_class (rules : list RewriteRule) (st : round) (class_id : Z) : round :=
  if cap_hit st then st
  else
    let nodes := sort_le debug_le (elements (class_nodes (round_eg st) (find (round_eg st) class_id))) in
    foldl (λ st node, foldl (apply_rule class_id node) st rules) st nodes.

Fixpoint saturate_loop (rules : list RewriteRule) (budget : nat) (self : EGraph) (log : ProofLog) :
    EGraph * ProofLog :=
  match budget with
  | O => (self, log)
  | S budget =>
      if MAX_EGRAPH_NODES <? total_nodes self then (self, log)
      else
        let st := {| round_eg := self; round_log := log; changed := false; cap_hit := false |} in
        let st := foldl (visit_class rules) st (class_ids self) in
        let self := if changed st then rebuild (round_eg st) else round_eg st in
        if cap_hit st then (self, round_log st) else saturate_loop rules budget self (round_log st)
  end.

(** The gate in front, then the rounds. *)
Definition saturate_with_proof (rules : list RewriteRule) (budget : nat) (self : EGraph)
    (log : ProofLog) : result unit Counterexample * EGraph * ProofLog :=
  match verify_rules_with_counterexample (name <$> rules) with
  | Err c => (Err c, self, log)
  | Ok _ => let '(self, log) := saturate_loop rules budget self log in (Ok tt, self, log)
  end.

(** The audit of the log only warns. *)
Definition saturate (rules : list RewriteRule) (budget : nat) (self : EGraph) : EGraph :=
  let '(_, self, _) := saturate_with_proof rules budget self [] in self.
End walk.

(** ** Extraction *)

Definition default_cost (node : ENode) : Z :=
  match node with
  | Lit _ => 1
  | VReg _ => 10
  | BinOp op _ _ =>
      match op with
      | Add | Sub => 100
      | And | Or | Xor => 90
      | Shl | ShrL | ShrA => 95
      | Mul => 200
      | UDiv | SDiv | SRem | URem => 1000
      | Eq | Ne | SLt | SLe | SGt | SGe | ULt | ULe | UGt | UGe => 110
      | _ => 100
      end
  | StateInit _ => 500
  | StateRead _ _ _ => 150
  | StateWrite _ _ _ => 160
  | StateTransform _ _ _ => 300
  end.

Section extract.
  Context (cost_fn : ENode → Z).

Definition UNKNOWN_COST : Z := U64_MAX / 2.

Definition child_cost (self : EGraph) (best_cost : gmap Z Z) (node : ENode) : Z :=
  let cost child := default UNKNOWN_COST (best_cost !! find self child) in
  match node with
  | Lit _ | VReg _ | StateInit _ => 0
  | BinOp _ a b => saturating_add (cost a) (cost b)
  | StateRead state _ _ => cost state
  | StateWrite state _ value => saturating_add (cost state) (cost value)
  | StateTransform input _ _ => cost input
  end.

(** By cost, then by the debug text. *)
Definition cost_le (a b : ENode) : bool :=
  if cost_fn a =? cost_fn b then debug_le a b else cost_fn a <? cost_fn b.

Definition improve (self : EGraph) (best_cost : gmap Z Z) (local_best : option (Z * ENode))
    (node : ENode) : option (Z * ENode) :=
  let total := saturating_add (cost_fn node) (child_cost self best_cost node) in
  match local_best with
  | None => Some (total, node)
  | Some (best_total, _) => if total <? best_total then Some (total, node) else local_best
  end.
Definition local_best (self : EGraph) (best_cost : gmap Z Z) (nodes : gset ENode) :
    option (Z * ENode) :=
  foldl (improve self best_cost) None (sort_le cost_le (elements nodes)).

Definition extract_class (self : EGraph) (st : gmap Z Z * gmap Z ENode * bool)
    (class : Z * gset ENode) : gmap Z Z * gmap Z ENode * bool :=
  let '(best_cost, best_node, changed) := st in
  let '(cid, nodes) := class in
  match local_best self best_cost nodes with
  | Some (c, n) =>
      if bool_decide (best_cost !! cid = Some c) then st
      else (<[cid := c]> best_cost, <[cid := n]> best_node, true)
  | None => st
  end.

Definition EXTRACT_MAX_ITERS : nat := 64.

Fixpoint extract_loop (iters : nat) (self : EGraph) (best_cost : gmap Z Z)
    (best_node : gmap Z ENode) : gmap Z ENode :=
  match iters with
  | O => best_node
  | S iters =>
      let '(best_cost, best_node, changed) :=
        foldl (extract_class self) (best_cost, best_node, false) (canonical_classes self) in
      if changed then extract_loop iters self best_cost best_node else best_node
  end.

Definition extract (self : EGraph) (class_id : Z) : ENode :=
  default (Lit 0) (extract_loop EXTRACT_MAX_ITERS self ∅ ∅ !! find self class_id).
End extract.

(** ** The pass *)

Definition value_to_enode (val : IRValue) (vreg_map : gmap Z Z) : ENode :=
  match val with
  | Immediate v => Lit v
  | Register id => match vreg_map !! id with Some class_id => VReg class_id | None => Lit 0 end
  | _ => Lit 0
  end.

Record block_state := {
  bs_eg : EGraph;
  vreg_to_eclass : gmap Z Z;
  eclass_to_value : gmap Z IRValue;
}.

(** [entry(id).or_insert(value)]. *)
Definition or_insert (id : Z) (value : IRValue) (m : gmap Z IRValue) : gmap Z IRValue :=
  match m !! id with Some _ => m | None => <[id := value]> m end.

(** A class of its own for a register of the block. *)
Definition register_reg (st : block_state) (r : Z) : block_state :=
  match vreg_to_eclass st !! r with
  | Some _ => st
  | None =>
      let '(class, eg) := add (VReg (1000000 + r)) (bs_eg st) in
      {| bs_eg := eg; vreg_to_eclass := <[r := class]> (vreg_to_eclass st);
         eclass_to_value := <[class := Register r]> (eclass_to_value st) |}
  end.

(** The registers an instruction uses, and the first it defines. *)
Definition instr_regs (i : IRInstr) : list Z := used_regs i ++ take 1 (defined_regs i).

Definition as_binop (i : IRInstr) : option (BinOpKind * IRValue * IRValue * IRValue) :=
  match i with
  | I_BinOp op dst lhs rhs _ => Some (op, dst, lhs, rhs)
  | I_Add dst lhs rhs _ => Some (Add, dst, lhs, rhs)
  | I_Sub dst lhs rhs _ => Some (Sub, dst, lhs, rhs)
  | I_Mul dst lhs rhs _ => Some (Mul, dst, lhs, rhs)
  | I_Div dst lhs rhs _ => Some (UDiv, dst, lhs, rhs)
  | _ => None
  end.

Definition add_instr (st : block_state) (i : IRInstr) : block_state :=
  match as_binop i with
  | None => st
  | Some (op, dst, lhs, rhs) =>
      let '(lhs_id, eg) := add (value_to_enode lhs (vreg_to_eclass st)) (bs_eg st) in
      let '(rhs_id, eg) := add (value_to_enode rhs (vreg_to_eclass st)) eg in
      let values := or_insert rhs_id rhs (or_insert lhs_id lhs (eclass_to_value st)) in
      let '(binop_id, eg) := add (BinOp op lhs_id rhs_id) eg in
      match as_register dst with
      | Some dst_id =>
          {| bs_eg := eg; vreg_to_eclass := <[dst_id := binop_id]> (vreg_to_eclass st);
             eclass_to_value := <[binop_id := dst]> values |}
      | None => {| bs_eg := eg; vreg_to_eclass := vreg_to_eclass st; eclass_to_value := values |}
      end
  end.

(** The order in which the set of registers of the block is walked is [regs]. *)
Definition build_block (regs : list Z) (code : list IRInstr) : block_state :=
  let st := {| bs_eg := EGraph_new; vreg_to_eclass := ∅; eclass_to_value := ∅ |} in
  foldl add_instr (foldl register_reg st regs) code.

Section pass.
  Context (walk : EGraph → Z → list ENode) (cost_fn : ENode → Z).

(** The operands an extracted leaf stands for; [unit] leaves the value as it is. *)
Definition extracted (st : block_state) (dst : IRValue) : option ENode :=
  dst_id ← as_register dst;
  class_id ← vreg_to_eclass st !! dst_id;
  Some (extract cost_fn (bs_eg st) class_id).

Definition rewrite_instr (st : block_state) (i : IRInstr) : IRInstr :=
  match i with
  | I_BinOp op dst lhs rhs ty =>
      match extracted st dst with
      | Some (Lit val) => I_BinOp Add dst (Immediate val) (Immediate 0) ty
      | Some (VReg src_class) =>
          match eclass_to_value st !! src_class with
          | Some src_val => I_BinOp Add dst src_val (Immediate 0) ty
          | None => i
          end
      | Some (BinOp new_op lhs_class rhs_class) =>
          match eclass_to_value st !! lhs_class, eclass_to_value st !! rhs_class with
          | Some new_lhs, Some new_rhs => I_BinOp new_op dst new_lhs new_rhs ty
          | _, _ => i
          end
      | _ => i
      end
  | I_Add dst lhs rhs ty =>
      match extracted st dst with
      | Some (Lit val) => I_Add dst (Immediate val) (Immediate 0) ty
      | Some (VReg src_class) =>
          match eclass_to_value st !! src_class with
          | Some src_val => I_Add dst src_val (Immediate 0) ty
          | None => i
          end
      | _ => i
      end
  | I_Sub dst lhs rhs ty =>
      match extracted st dst with
      | Some (Lit val) => I_Sub dst (Immediate val) (Immediate 0) ty
      | Some (VReg src_class) =>
          match eclass_to_value st !! src_class with
          | Some src_val => I_Sub dst src_val (Immediate 0) ty
          | None => i
          end
      | _ => i
      end
  | I_Mul dst lhs rhs ty =>
      match extracted st dst with
      | Some (Lit val) => I_Mul dst (Immediate val) (Immediate 1) ty
      | _ => i
      end
  | I_Div dst lhs rhs ty =>
      match extracted st dst with
      | Some (Lit val) => I_Div dst (Immediate val) (Immediate 1) ty
      | _ => i
      end
  | _ => i
  end.

Definition saturate_block (regs : list Z) (code : list IRInstr) : list IRInstr :=
  let st := build_block regs code in
  let eg := saturate (standard_rules walk) 10 (bs_eg st) in
  let st := {| bs_eg := eg; vreg_to_eclass := vreg_to_eclass st;
               eclass_to_value := eclass_to_value st |} in
  rewrite_instr st <$> code.

Definition saturate_ir_block (regs : IRBlock → list Z) (b : IRBlock) : IRBlock :=
  set_code b (saturate_block (regs b) (instructions b)) (terminator b).

(** [regs] gives the order in which the registers of a block are walked. *)
Definition equality_saturation_with_cost (regs : IRBlock → list Z) (f : IRFunction) : IRFunction :=
  with_blocks f (saturate_ir_block regs <$> f_blocks f).
End pass.

Definition equality_saturation (walk : EGraph → Z → list ENode) (regs : IRBlock → list Z)
    (f : IRFunction) : IRFunction :=
  equality_saturation_with_cost walk default_cost regs f.
