(* ===== verification/UnionFind.v ===== *)
(** * The union-find of the e-graph

    The parent links of [Egraph] form a forest: from every class a path as long as there
    are links leads to a root, so that the walk of [find] ends there.  Linking one root to
    another keeps the forest and joins exactly the two trees. *)

From S2P Require Import Prelude Ir BvVerify Opt Egraph.
From stdpp Require Import options.
#[local] Open Scope Z_scope.

(** ** Forests *)

Definition is_root (ps : gmap Z Z) (x : Z) : Prop := ps !! x = Some x.

(** The classes that link to another one. *)
Definition links (ps : gmap Z Z) : nat := size (filter (λ p : Z * Z, p.1 ≠ p.2) ps).

Inductive path (ps : gmap Z Z) : nat → Z → Z → Prop :=
  | path_root x : is_root ps x → path ps 0 x x
  | path_step n x p r : ps !! x = Some p → p ≠ x → path ps n p r → path ps (S n) x r.

Definition forest (ps : gmap Z Z) : Prop :=
  ∀ x, is_Some (ps !! x) → ∃ n r, (n ≤ links ps)%nat ∧ path ps n x r.

Lemma path_is_root ps n x r : path ps n x r → is_root ps r.
Proof. by induction 1. Qed.

Lemma path_find ps n x r fuel : path ps n x r → (n ≤ fuel)%nat → find_loop fuel ps x = r.
Proof.
  intros H. revert fuel. induction H as [x H|n x p r H Hp _ IH]; intros [|fuel] Hf; cbn; try done.
  - by rewrite H, Z.eqb_refl.
  - lia.
  - rewrite H. destruct (Z.eqb_spec p x); [done|]. apply IH. lia.
Qed.

Lemma links_size ps : (links ps ≤ size ps)%nat.
Proof. apply map_size_filter. Qed.

Lemma find_path ps x : forest ps → is_Some (ps !! x) →
  ∃ n, (n ≤ links ps)%nat ∧ path ps n x (find_loop (size ps) ps x).
Proof.
  intros H Hx. destruct (H x Hx) as (n & r & Hn & Hp). exists n. split; [done|].
  pose proof (links_size ps). by rewrite (path_find _ _ _ _ (size ps) Hp) by lia.
Qed.

Lemma path_some ps n x r : path ps n x r → is_Some (ps !! x).
Proof. by destruct 1 as [? H|? ? ? ? H]; rewrite H. Qed.

(** A link leads to a class. *)
Lemma link_target ps x p : forest ps → ps !! x = Some p → is_Some (ps !! p).
Proof.
  intros H Hx. destruct (H x ltac:(by rewrite Hx)) as (n & r & _ & Hp).
  inversion Hp; unfold is_root in *; simplify_eq; [by eexists|]. by eapply path_some.
Qed.

Lemma find_root ps x : is_root ps x → find_loop (size ps) ps x = x.
Proof. intros H. apply (path_find _ 0); [by constructor|lia]. Qed.

(** ** A new class *)

Lemma links_new ps x : ps !! x = None → links (<[x := x]> ps) = links ps.
Proof. intros H. unfold links. rewrite map_filter_insert_False by (cbn; tauto). by rewrite delete_id. Qed.

Lemma path_new ps n x r id : ps !! id = None → path ps n x r → path (<[id := id]> ps) n x r.
Proof.
  intros Hid. induction 1 as [x H|n x p r H Hp _ IH].
  - constructor. unfold is_root in *. rewrite lookup_insert_ne; [done|congruence].
  - econstructor; [|done|done]. rewrite lookup_insert_ne; [done|congruence].
Qed.

Lemma forest_new ps id : ps !! id = None → forest ps → forest (<[id := id]> ps).
Proof.
  intros Hid H x Hx. rewrite links_new by done. destruct (decide (x = id)) as [->|Hne].
  - exists 0%nat, id. split; [lia|]. constructor. apply lookup_insert_eq.
  - rewrite lookup_insert_ne in Hx by congruence. destruct (H x Hx) as (n & r & Hn & Hp).
    exists n, r. eauto using path_new.
Qed.

(** ** Linking a root to another one *)

Section link.
  Context (ps : gmap Z Z) (a b : Z) (Ha : is_root ps a) (Hb : is_root ps b) (Hab : a ≠ b).

Lemma links_link : links (<[b := a]> ps) = S (links ps).
Proof using Hab Hb.
  unfold links. rewrite map_filter_insert_True by done. apply map_size_insert_None.
  apply map_lookup_filter_None. right. intros y Hy. cbn. rewrite Hb in Hy. simplify_eq. tauto.
Qed.

Lemma path_link n x r : path ps n x r →
  path (<[b := a]> ps) (if decide (r = b) then S n else n) x (if decide (r = b) then a else r).
Proof using Ha Hab Hb.
  assert (is_root (<[b := a]> ps) a) as Ha'.
  { unfold is_root. by rewrite lookup_insert_ne by done. }
  induction 1 as [x H|n x p r H Hp _ IH].
  - destruct (decide (x = b)) as [->|Hx].
    + eapply path_step; [apply lookup_insert_eq|done|]. by constructor.
    + constructor. unfold is_root in *. by rewrite lookup_insert_ne by done.
  - assert (x ≠ b) by (intros ->; unfold is_root in Hb; congruence).
    destruct (decide (r = b)); eapply path_step; try done; by rewrite lookup_insert_ne by done.
Qed.

Lemma forest_link : forest ps → forest (<[b := a]> ps).
Proof using Ha Hab Hb.
  intros H x Hx. rewrite links_link. assert (is_Some (ps !! x)) as Hx'.
  { destruct (decide (x = b)) as [->|]; [by rewrite Hb|]. by rewrite lookup_insert_ne in Hx by congruence. }
  destruct (H x Hx') as (n & r & Hn & Hp). do 2 eexists. split; [|by apply path_link].
  destruct (decide (r = b)); lia.
Qed.

(** The two trees become one, and the others stay. *)
Lemma find_link x : forest ps → is_Some (ps !! x) →
  find_loop (size (<[b := a]> ps)) (<[b := a]> ps) x =
  (if decide (find_loop (size ps) ps x = b) then a else find_loop (size ps) ps x).
Proof using Ha Hab Hb.
  intros H Hx. destruct (find_path ps x H Hx) as (n & Hn & Hp). pose proof (path_link _ _ _ Hp) as Hl.
  apply (path_find _ _ _ _ _ Hl). pose proof (links_size (<[b := a]> ps)). rewrite links_link in *.
  destruct (decide _); lia.
Qed.
End link.
