(* ===== verification/EgraphSound.v ===== *)
(** * Soundness of equality saturation

    A valuation gives every class a word; it is a model of a graph where every node of a
    class has the value of the class.  Adding a node extends the valuation by the new
    class; the rules, merging, rebuilding and therefore saturation keep a model, so that
    what is extracted has the value of its class.  The graphs are those of the pass:
    literals, registers and operations. *)

From S2P Require Import Prelude Ir BvVerify Opt Egraph UnionFind.
From stdpp Require Import options.
#[local] Open Scope Z_scope.

Lemma elem_of_sort_le {A} (le : A → A → bool) l x : x ∈ sort_le le l ↔ x ∈ l.
Proof.
  induction l as [|y l IH]; cbn; [done|]. rewrite elem_of_cons, <- IH. generalize (sort_le le l).
  clear l IH. intros l. induction l as [|z l IH]; cbn; [set_solver|].
  destruct (le y z); rewrite !elem_of_cons in *; [done|]. rewrite IH. tauto.
Qed.

Lemma foldl_invariant {A B} (P : A → Prop) (f : A → B → A) st l :
  P st → (∀ st x, x ∈ l → P st → P (f st x)) → P (foldl f st l).
Proof.
  revert st. induction l as [|x l IH]; intros st H Hf; cbn; [done|].
  apply IH; [apply Hf; [left|done]|]. intros st' y Hy. apply Hf. by right.
Qed.

Lemma as_i64_cong a b : wrap64 a = wrap64 b → as_i64 a = as_i64 b.
Proof. unfold as_i64. by intros ->. Qed.
Lemma wrap64_plus_l a b : wrap64 (wrap64 a + b) = wrap64 (a + b).
Proof. apply Zplus_mod_idemp_l. Qed.
Lemma wrap64_mul_l a b : wrap64 (wrap64 a * b) = wrap64 (a * b).
Proof. apply Zmult_mod_idemp_l. Qed.

(** ** Specification *)

(** The numbers above stand for registers; classes have smaller ones. *)
Definition SYNTHETIC : Z := 1000000.

Section semantics.
  (** The result of an operation that the folder leaves alone. *)
  Context (undef : BinOpKind → Z → Z → Z).

Definition binop_value (op : BinOpKind) (l r : Z) : Z :=
  default (undef op l r) (try_fold_binop_int op l r).

Definition value (ρ : Z → Z) (n : ENode) : Z :=
  match n with
  | Lit v => v
  | VReg c => ρ c
  | BinOp op a b => binop_value op (ρ a) (ρ b)
  | _ => 0
  end.

Record models (ρ : Z → Z) (self : EGraph) : Prop := {
  m_i64 : ∀ c, is_i64 (ρ c);
  m_hashcons : ∀ n id, hashcons self !! n = Some id → value ρ n = ρ id;
  m_classes : ∀ id ns n, classes self !! id = Some ns → n ∈ ns → value ρ n = ρ id;
  m_parents : ∀ id p, parents self !! id = Some p → ρ id = ρ p;
}.
End semantics.

(** A node of the pass over the classes below [bound]. *)
Definition node_ok (bound : Z) (n : ENode) : Prop :=
  match n with
  | Lit v => is_i64 v
  | VReg c => 0 ≤ c < bound ∨ SYNTHETIC ≤ c
  | BinOp _ a b => 0 ≤ a < bound ∧ 0 ≤ b < bound
  | _ => False
  end.

(** The classes are the numbers below [next_id]; the links form a forest whose roots have
    nodes. *)
Record wf (self : EGraph) : Prop := {
  wf_next : 0 ≤ next_id self;
  wf_hashcons : ∀ n id, hashcons self !! n = Some id → node_ok (next_id self) n ∧ 0 ≤ id < next_id self;
  wf_classes : ∀ id ns, classes self !! id = Some ns → 0 ≤ id < next_id self ∧
    ∀ n, n ∈ ns → node_ok (next_id self) n;
  wf_dom : ∀ id, is_Some (parents self !! id) ↔ 0 ≤ id < next_id self;
  wf_forest : forest (parents self);
  wf_roots : ∀ id, is_root (parents self) id → class_nodes self id ≠ ∅;
}.

Lemma EGraph_new_wf : wf EGraph_new.
Proof.
  split; cbn; try done.
  - intros id. rewrite lookup_empty. split; [by intros []|lia].
  - intros x [? H]. done.
Qed.
Lemma EGraph_new_models undef ρ : (∀ c, is_i64 (ρ c)) → models undef ρ EGraph_new.
Proof. by split. Qed.

Lemma node_ok_mono b b' n : b ≤ b' → node_ok b n → node_ok b' n.
Proof. destruct n; cbn; try done; lia. Qed.

(** The valuations agree on what a graph over [bound] talks about. *)
Definition agree (bound : Z) (ρ ρ' : Z → Z) : Prop :=
  ∀ c, 0 ≤ c < bound ∨ SYNTHETIC ≤ c → ρ' c = ρ c.

Lemma agree_refl b ρ : agree b ρ ρ.
Proof. by intros c _. Qed.
Lemma agree_trans b b' ρ ρ' ρ'' : b ≤ b' → agree b ρ ρ' → agree b' ρ' ρ'' → agree b ρ ρ''.
Proof. intros Hb H1 H2 c Hc. rewrite H2, H1; [done|done|lia]. Qed.

Lemma value_agree undef b ρ ρ' n :
  agree b ρ ρ' → node_ok b n → value undef ρ' n = value undef ρ n.
Proof.
  intros H Hn. destruct n as [|c|op a c| | | |]; cbn in *; try done; [by apply H|].
  by rewrite (H a), (H c) by lia.
Qed.

(** ** Lookup *)

Section find.
  Context (self : EGraph) (Hwf : wf self).

Lemma find_is_root id : 0 ≤ id < next_id self → is_root (parents self) (find self id).
Proof using Hwf.
  intros H%(wf_dom _ Hwf). destruct (find_path _ id (wf_forest _ Hwf) H) as (n & _ & Hp).
  by eapply path_is_root.
Qed.

Lemma root_below r : is_root (parents self) r → 0 ≤ r < next_id self.
Proof using Hwf. intros H. apply (wf_dom _ Hwf). by rewrite H. Qed.

Lemma find_below id : 0 ≤ id < next_id self → 0 ≤ find self id < next_id self.
Proof using Hwf. intros H. by apply root_below, find_is_root. Qed.
End find.
#[export] Hint Resolve find_is_root root_below find_below : core.

(** ** Well-formedness *)

Lemma add_wf node self :
  wf self → node_ok (next_id self) node →
  wf (add node self).2 ∧ next_id self ≤ next_id (add node self).2 ∧
  0 ≤ (add node self).1 < next_id (add node self).2.
Proof.
  intros Hwf Hn. pose proof (wf_next _ Hwf). unfold add.
  destruct (hashcons self !! node) as [id|] eqn:E; cbn.
  { split; [done|]. split; [done|]. apply find_below; [done|]. by apply (wf_hashcons _ Hwf node). }
  assert (parents self !! next_id self = None) as Hfresh.
  { apply eq_None_not_Some. rewrite (wf_dom _ Hwf). lia. }
  split; [|lia]. split; cbn; [lia|..].
  - intros n i [[<- <-]|[_ H']]%lookup_insert_Some.
    + split; [eapply node_ok_mono; [|done]; lia|lia].
    + destruct (wf_hashcons _ Hwf n i H'). split; [eapply node_ok_mono; [|done]; lia|lia].
  - intros i ns [[<- <-]|[_ H']]%lookup_insert_Some.
    + split; [lia|]. intros n ->%elem_of_singleton. eapply node_ok_mono; [|done]. lia.
    + destruct (wf_classes _ Hwf i ns H') as [Hi Hok]. split; [lia|].
      intros n Hin. eapply node_ok_mono; [|by apply Hok]. lia.
  - intros i. destruct (decide (i = next_id self)) as [->|Hi].
    + rewrite lookup_insert_eq. split; [lia|by eexists].
    + rewrite lookup_insert_ne, (wf_dom _ Hwf) by done. lia.
  - apply forest_new; [done|apply Hwf].
  - intros i Hi. unfold class_nodes. cbn. destruct (decide (i = next_id self)) as [->|Hne].
    + rewrite lookup_insert_eq. cbn. set_solver.
    + rewrite lookup_insert_ne by done. apply (wf_roots _ Hwf). unfold is_root in *.
      by rewrite lookup_insert_ne in Hi.
Qed.

Lemma merge_no_rebuild_next a b self : next_id (merge_no_rebuild a b self) = next_id self.
Proof. unfold merge_no_rebuild. by destruct (_ =? _). Qed.

Lemma merge_no_rebuild_wf a b self :
  wf self → 0 ≤ a < next_id self → 0 ≤ b < next_id self → wf (merge_no_rebuild a b self).
Proof.
  intros Hwf Ha Hb. pose proof (find_is_root _ Hwf a Ha) as Ra. pose proof (find_is_root _ Hwf b Hb) as Rb.
  pose proof (root_below _ Hwf _ Ra). pose proof (root_below _ Hwf _ Rb).
  unfold merge_no_rebuild. destruct (Z.eqb_spec (find self a) (find self b)) as [|Hne]; [done|].
  split; cbn; [apply Hwf|..].
  - intros n i. destruct (classes self !! find self b) as [ns|] eqn:E; [|apply (wf_hashcons _ Hwf)].
    intros [[Hn <-]%lookup_gset_to_gmap_Some|[_ H']]%lookup_union_Some_raw; [|by apply (wf_hashcons _ Hwf)].
    split; [|done]. by apply (wf_classes _ Hwf _ _ E).
  - intros i ms. destruct (classes self !! find self b) as [ns|] eqn:E; [|apply (wf_classes _ Hwf)].
    intros [[<- <-]|[Hi [_ H']%lookup_delete_Some]]%lookup_insert_Some; [|by apply (wf_classes _ Hwf)].
    split; [done|]. intros n [Hin|Hin]%elem_of_union; [|by apply (wf_classes _ Hwf _ _ E)].
    rewrite lookup_delete_ne in Hin by done.
    destruct (classes self !! find self a) as [as_|] eqn:Ea; [by apply (wf_classes _ Hwf _ _ Ea)|].
    by apply not_elem_of_empty in Hin.
  - intros i. rewrite <- (wf_dom _ Hwf i). destruct (decide (i = find self b)) as [->|Hi].
    + rewrite lookup_insert_eq, Rb. split; by eexists.
    + by rewrite lookup_insert_ne by done.
  - apply forest_link; try done. apply Hwf.
  - intros i Hi. unfold class_nodes. cbn. destruct (decide (i = find self b)) as [->|Hib].
    { unfold is_root in Hi. rewrite lookup_insert_eq in Hi. congruence. }
    assert (is_root (parents self) i) as Hi'.
    { unfold is_root in *. by rewrite lookup_insert_ne in Hi by done. }
    pose proof (wf_roots _ Hwf i Hi') as Hns. unfold class_nodes in Hns.
    destruct (classes self !! find self b) as [ns|] eqn:E; [|done].
    destruct (decide (i = find self a)) as [->|Hia].
    + rewrite lookup_insert_eq, lookup_delete_ne by done. cbn. set_solver.
    + by rewrite lookup_insert_ne, lookup_delete_ne by done.
Qed.

Lemma nodes_ok self c n : wf self → n ∈ class_nodes self (find self c) → node_ok (next_id self) n.
Proof.
  intros Hwf. unfold class_nodes. destruct (classes self !! find self c) as [ns|] eqn:E.
  - by apply (wf_classes _ Hwf _ _ E).
  - by intros ?%not_elem_of_empty.
Qed.

(** Merging joins the two classes, and no others. *)
Lemma find_merge_no_rebuild a b x self :
  wf self → 0 ≤ a < next_id self → 0 ≤ b < next_id self → 0 ≤ x < next_id self →
  find (merge_no_rebuild a b self) x =
  (if decide (find self x = find self b) then find self a else find self x).
Proof.
  intros Hwf Ha Hb Hx. unfold merge_no_rebuild.
  destruct (Z.eqb_spec (find self a) (find self b)) as [->|Hne]; [by destruct (decide _)|].
  apply find_link; [auto..| |by apply (wf_dom _ Hwf)]. apply Hwf.
Qed.

(** ** The groups of a rebuild *)

(** The pairs a rebuild groups: a root with one of its nodes, in canonical form. *)
Definition grouped (self : EGraph) (node : ENode) (c : Z) : Prop :=
  ∃ ns n, classes self !! c = Some ns ∧ n ∈ ns ∧ canonicalize self n = node ∧ find self c = c.

Lemma elem_of_canonical_classes self p :
  p ∈ canonical_classes self ↔ classes self !! p.1 = Some p.2 ∧ find self p.1 = p.1.
Proof.
  unfold canonical_classes. rewrite list_elem_of_filter, sort_by_key_perm.
  destruct p as [c ns]. rewrite elem_of_map_to_list. tauto.
Qed.

Lemma push_group_lookup canon groups node node' c :
  c ∈ default [] (push_group canon groups node !! node') ↔
  c ∈ default [] (groups !! node') ∨ (node = node' ∧ c = canon).
Proof.
  unfold push_group. destruct (decide (node = node')) as [->|Hne].
  - rewrite lookup_insert_eq. cbn. set_solver.
  - rewrite lookup_insert_ne by done. tauto.
Qed.

Lemma push_groups_lookup canon nodes groups node c :
  c ∈ default [] (foldl (push_group canon) groups nodes !! node) ↔
  c ∈ default [] (groups !! node) ∨ (node ∈ nodes ∧ c = canon).
Proof.
  revert groups. induction nodes as [|n nodes IH]; intros groups; cbn [foldl].
  - set_solver.
  - rewrite IH, push_group_lookup, elem_of_cons. naive_solver.
Qed.

Lemma collect_groups_lookup self node c :
  c ∈ default [] (collect_groups self !! node) ↔ grouped self node c.
Proof.
  assert (∀ l (groups : gmap ENode (list Z)),
    c ∈ default [] (foldl (λ groups '(canon, nodes),
      foldl (push_group canon) groups (canonicalize self <$> elements nodes)) groups l !! node) ↔
    c ∈ default [] (groups !! node) ∨
    ∃ p : Z * gset ENode, p ∈ l ∧ p.1 = c ∧ ∃ n, n ∈ p.2 ∧ canonicalize self n = node) as H.
  { induction l as [|[canon nodes] l IH]; intros groups; cbn [foldl]; [set_solver|].
    rewrite IH, push_groups_lookup, list_elem_of_fmap. setoid_rewrite elem_of_cons.
    setoid_rewrite elem_of_elements. split; [|naive_solver].
    intros [[?|[(n & -> & Hn) ->]]|(p & Hp & <- & Hn)]; [by left|right|right].
    - exists (canon, nodes). eauto 6.
    - exists p. eauto. }
  unfold collect_groups. rewrite H, lookup_empty. cbn. split.
  - intros [[]%elem_of_nil|([c' ns] & [Hc Hf]%elem_of_canonical_classes & <- & n & Hn & <-)].
    by exists ns, n.
  - intros (ns & n & Hc & Hn & <- & Hf). right. exists (c, ns).
    split; [by apply elem_of_canonical_classes|]. split; [done|]. by exists n.
Qed.

(** Every list that a rebuild merges is the list of a node. *)
Lemma groups_values self l :
  l ∈ (sort_le (λ a b, debug_le a.1 b.1) (map_to_list (collect_groups self))).*2 ↔
  ∃ node, collect_groups self !! node = Some l.
Proof.
  rewrite list_elem_of_fmap. setoid_rewrite elem_of_sort_le. split.
  - intros ([node l'] & -> & H%elem_of_map_to_list). by exists node.
  - intros [node H%elem_of_map_to_list]. by exists (node, l).
Qed.

Section sound.
  Context (undef : BinOpKind → Z → Z → Z) (undef_i64 : ∀ op l r, is_i64 (undef op l r)).

  #[local] Notation value := (value undef).
  #[local] Notation models := (models undef).

Lemma find_loop_value (ρ : Z → Z) fuel (ps : gmap Z Z) id :
  (∀ id p, ps !! id = Some p → ρ id = ρ p) → ρ (find_loop fuel ps id) = ρ id.
Proof.
  intros H. revert id. induction fuel as [|fuel IH]; intros id; [done|]. cbn [find_loop].
  destruct (ps !! id) as [p|] eqn:E; [|done]. destruct (Z.eqb_spec p id); [done|].
  rewrite IH. symmetry. by apply H.
Qed.

Lemma find_value ρ self id : models ρ self → ρ (find self id) = ρ id.
Proof. intros H. apply find_loop_value, (m_parents _ _ _ H). Qed.

(** ** Adding a node *)

Lemma binop_value_i64 op l r : is_i64 l → is_i64 r → is_i64 (binop_value undef op l r).
Proof using undef_i64.
  intros Hl Hr. unfold binop_value. destruct (try_fold_binop_int op l r) as [z|] eqn:E; [|apply undef_i64].
  exact (fold_binop_int_i64 op l r z Hl Hr E).
Qed.

Lemma value_i64 ρ b n : (∀ c, is_i64 (ρ c)) → node_ok b n → is_i64 (value ρ n).
Proof using undef_i64.
  intros Hρ Hn. destruct n; cbn in *; try done. by apply binop_value_i64.
Qed.

(** What a change of the graph leaves true: it keeps its numbers, and a model of the old
    graph extends to one of the new. *)
Definition extends (self self' : EGraph) (Q : (Z → Z) → (Z → Z) → Prop) : Prop :=
  wf self' ∧ next_id self ≤ next_id self' ∧
  ∀ ρ, models ρ self → next_id self' ≤ SYNTHETIC →
    ∃ ρ', agree (next_id self) ρ ρ' ∧ models ρ' self' ∧ Q ρ ρ'.

Lemma extends_here self (Q : (Z → Z) → (Z → Z) → Prop) :
  wf self → (∀ ρ, models ρ self → Q ρ ρ) → extends self self Q.
Proof. intros Hwf H. split; [done|]. split; [done|]. intros ρ Hm _. exists ρ. auto using agree_refl. Qed.

Lemma extension_trans self1 self2 self3 Q1 (Q : (Z → Z) → (Z → Z) → Prop) Q2 :
  extends self1 self2 Q1 → extends self2 self3 Q2 →
  (∀ ρ1 ρ2 ρ3, models ρ1 self1 → models ρ2 self2 → models ρ3 self3 →
    next_id self2 ≤ SYNTHETIC → agree (next_id self1) ρ1 ρ2 → agree (next_id self2) ρ2 ρ3 →
    Q1 ρ1 ρ2 → Q2 ρ2 ρ3 → Q ρ1 ρ3) →
  extends self1 self3 Q.
Proof.
  intros (W2 & N2 & E2) (W3 & N3 & E3) H. split; [done|]. split; [lia|]. intros ρ1 M1 HS.
  destruct (E2 ρ1 M1 ltac:(lia)) as (ρ2 & A2 & M2 & HQ1).
  destruct (E3 ρ2 M2 HS) as (ρ3 & A3 & M3 & HQ2). exists ρ3.
  split; [by eapply agree_trans|]. split; [done|]. eapply (H ρ1 ρ2 ρ3); try done. lia.
Qed.

Lemma extends_mono self1 self2 (Q Q' : (Z → Z) → (Z → Z) → Prop) :
  extends self1 self2 Q →
  (∀ ρ ρ', models ρ self1 → models ρ' self2 → next_id self2 ≤ SYNTHETIC →
    agree (next_id self1) ρ ρ' → Q ρ ρ' → Q' ρ ρ') →
  extends self1 self2 Q'.
Proof.
  intros (W & N & E) H. split; [done|]. split; [done|]. intros ρ M HS.
  destruct (E ρ M HS) as (ρ' & A & M' & HQ). exists ρ'. split; [done|]. split; [done|]. auto.
Qed.

(** The table after a new class, under a valuation with the value of its node. *)
Lemma models_new ρ ρ' self node :
  wf self → node_ok (next_id self) node → models ρ self → (∀ c, is_i64 (ρ' c)) →
  hashcons self !! node = None → agree (next_id self) ρ ρ' → ρ' (next_id self) = value ρ node →
  models ρ' (add node self).2.
Proof using undef_i64.
  intros Hwf Hn Hm Hi64 E A Hnew. unfold add. rewrite E. cbn [snd].
  rewrite <- (value_agree _ _ _ _ _ A Hn) in Hnew. split; cbn; [done|..].
  - intros n i [[<- <-]|[_ H]]%lookup_insert_Some; [done|].
    destruct (wf_hashcons _ Hwf n i H) as [Hok Hi].
    rewrite (value_agree _ (next_id self) ρ), (A i) by (done || lia). by apply (m_hashcons _ _ _ Hm).
  - intros i ns n [[<- <-]|[_ H]]%lookup_insert_Some Hin; [by apply elem_of_singleton in Hin as ->|].
    destruct (wf_classes _ Hwf i ns H) as [Hi Hok].
    rewrite (value_agree _ (next_id self) ρ), (A i) by (auto || lia). by eapply (m_classes _ _ _ Hm).
  - intros i p [[<- <-]|[_ H]]%lookup_insert_Some; [done|].
    assert (0 ≤ i < next_id self) by (apply (wf_dom _ Hwf); by rewrite H).
    assert (0 ≤ p < next_id self).
    { apply (wf_dom _ Hwf). eapply link_target; [apply Hwf|done]. }
    rewrite (A i), (A p) by lia. by apply (m_parents _ _ _ Hm).
Qed.

Lemma add_spec node self :
  wf self → node_ok (next_id self) node →
  extends self (add node self).2 (λ ρ ρ', ρ' (add node self).1 = value ρ node).
Proof using undef_i64.
  intros Hwf Hn. destruct (add_wf node self Hwf Hn) as (W & N & _). split; [done|]. split; [done|].
  intros ρ Hm HS. destruct (hashcons self !! node) as [id|] eqn:E.
  - unfold add. rewrite E. exists ρ. split; [apply agree_refl|]. split; [done|]. cbn.
    rewrite (find_value ρ self id Hm). symmetry. by apply (m_hashcons _ _ _ Hm).
  - assert (next_id (add node self).2 = next_id self + 1) as Hnext by (unfold add; by rewrite E).
    set (ρ' := λ c, if c =? next_id self then value ρ node else ρ c).
    assert (ρ' (next_id self) = value ρ node) as Hnew by (unfold ρ'; by rewrite Z.eqb_refl).
    assert (agree (next_id self) ρ ρ') as A.
    { intros c Hc. unfold ρ'. destruct (Z.eqb_spec c (next_id self)); [lia|done]. }
    exists ρ'. split; [done|]. split; [|unfold add; by rewrite E].
    apply (models_new ρ); try done. intros c. unfold ρ'.
    destruct (c =? next_id self); [by eapply value_i64; [apply Hm|]|apply Hm].
Qed.

(** ** Merging *)

Lemma merge_no_rebuild_models ρ a b self :
  models ρ self → ρ a = ρ b → models ρ (merge_no_rebuild a b self).
Proof.
  intros Hm Hab. unfold merge_no_rebuild. destruct (Z.eqb_spec (find self a) (find self b)) as [|Hne]; [done|].
  rewrite <- (find_value ρ self a), <- (find_value ρ self b) in Hab by done. split; cbn; [apply Hm|..].
  - intros n i. destruct (classes self !! find self b) as [ns|] eqn:E; [|apply (m_hashcons _ _ _ Hm)].
    intros [[Hn <-]%lookup_gset_to_gmap_Some|[_ H]]%lookup_union_Some_raw; [|by apply (m_hashcons _ _ _ Hm)].
    rewrite Hab. by eapply (m_classes _ _ _ Hm).
  - intros i ms n. destruct (classes self !! find self b) as [ns|] eqn:E; [|apply (m_classes _ _ _ Hm)].
    intros [[<- <-]|[Hi H]]%lookup_insert_Some Hin.
    + apply elem_of_union in Hin as [Hin|Hin]; [|rewrite Hab; by eapply (m_classes _ _ _ Hm)].
      rewrite lookup_delete_ne in Hin by done.
      destruct (classes self !! find self a) as [as_|] eqn:Ea; [by eapply (m_classes _ _ _ Hm)|].
      by apply not_elem_of_empty in Hin.
    + apply lookup_delete_Some in H as [_ H]. by eapply (m_classes _ _ _ Hm).
  - intros i p [[<- <-]|[_ H]]%lookup_insert_Some; [done|]. by apply (m_parents _ _ _ Hm).
Qed.


(** ** Rebuilding *)

(** The classes stay, and every model of the one graph is one of the other. *)
Definition tracks (self self' : EGraph) : Prop :=
  wf self' ∧ next_id self' = next_id self ∧ ∀ ρ, models ρ self → models ρ self'.

Lemma tracks_refl self : wf self → tracks self self.
Proof. by split. Qed.
Lemma tracks_trans self1 self2 self3 : tracks self1 self2 → tracks self2 self3 → tracks self1 self3.
Proof. intros (_ & N2 & M2) (W3 & N3 & M3). split; [done|]. split; [congruence|auto]. Qed.
Lemma tracks_extends self self' : tracks self self' → extends self self' (λ _ _, True).
Proof.
  intros (W & N & M). split; [done|]. split; [lia|]. intros ρ Hρ _. exists ρ. auto using agree_refl.
Qed.

Lemma tracks_merge self0 self a b :
  tracks self0 self → 0 ≤ a < next_id self0 → 0 ≤ b < next_id self0 →
  (∀ ρ, models ρ self0 → ρ a = ρ b) → tracks self0 (merge_no_rebuild a b self).
Proof.
  intros (W & N & M) Ha Hb Hab. split; [|split].
  - apply merge_no_rebuild_wf; [done|lia..].
  - by rewrite merge_no_rebuild_next.
  - intros ρ Hρ. apply merge_no_rebuild_models; auto.
Qed.

Lemma canonicalize_value ρ b self n : models ρ self → node_ok b n → value ρ (canonicalize self n) = value ρ n.
Proof. intros Hm Hn. destruct n; cbn in *; try done. by rewrite !(find_value ρ self) by done. Qed.

Lemma merge_if_apart_tracks self0 first other st :
  tracks self0 st.1 → 0 ≤ first < next_id self0 → 0 ≤ other < next_id self0 →
  (∀ ρ, models ρ self0 → ρ first = ρ other) → tracks self0 (merge_if_apart first other st).1.
Proof.
  intros T Hf Ho H. destruct st as [self m]. unfold merge_if_apart. destruct (_ =? _); [done|]. cbn in *.
  pose proof T as (W & N & M). rewrite <- N in Hf, Ho. apply tracks_merge; rewrite <- ?N; auto.
  intros ρ Hρ. by rewrite !(find_value ρ self) by auto; apply H.
Qed.

Lemma merge_group_tracks self0 st l :
  tracks self0 st.1 → (∀ c, c ∈ l → 0 ≤ c < next_id self0) →
  (∀ ρ c d, models ρ self0 → c ∈ l → d ∈ l → ρ c = ρ d) → tracks self0 (merge_group st l).1.
Proof.
  clear undef_i64. intros T Hl H. destruct l as [|first others]; [done|]. cbn.
  apply (foldl_invariant (λ st, tracks self0 st.1)); [done|]. intros st' other Ho T'.
  apply merge_if_apart_tracks; [done|apply Hl; set_solver..|].
  intros ρ Hρ. apply H; set_solver.
Qed.

Lemma group_value ρ self node c :
  wf self → models ρ self → grouped self node c → ρ c = value ρ node.
Proof.
  intros Hwf Hm (ns & n & Hc & Hn & <- & _).
  rewrite (canonicalize_value ρ (next_id self)) by (done || by apply (wf_classes _ Hwf _ _ Hc)).
  symmetry. by eapply (m_classes _ _ _ Hm).
Qed.

Lemma rebuild_once_tracks self : wf self → tracks self (rebuild_once self).1.
Proof.
  intros Hwf. unfold rebuild_once. apply (foldl_invariant (λ st, tracks self st.1)); [by apply tracks_refl|].
  intros st l [node Hl]%groups_values T.
  assert (∀ c, c ∈ l → grouped self node c) as Hg.
  { intros c Hc. apply collect_groups_lookup. by rewrite Hl. }
  apply merge_group_tracks; [done|..].
  - intros c (ns & n & Hc & _)%Hg. by apply (wf_classes _ Hwf _ _ Hc).
  - intros ρ c d Hρ Hc%Hg Hd%Hg. by rewrite !(group_value ρ self node).
Qed.

Lemma rebuild_tracks self : wf self → tracks self (rebuild self).
Proof.
  unfold rebuild. generalize REBUILD_MAX_ITERS. intros k. revert self.
  induction k as [|k IH]; intros self Hwf; [by apply tracks_refl|]. cbn [rebuild_loop].
  pose proof (rebuild_once_tracks self Hwf) as T. destruct (rebuild_once self) as [self' merged]. cbn in T.
  destruct merged; [|done]. eapply tracks_trans; [done|]. apply IH, T.
Qed.

(** ** Identities of words *)

Lemma as_i64_add_l a b : as_i64 (as_i64 a + b) = as_i64 (a + b).
Proof. apply as_i64_cong. rewrite <- (wrap64_plus_l (as_i64 a)), wrap64_as_i64. apply wrap64_plus_l. Qed.
Lemma as_i64_mul_l a b : as_i64 (as_i64 a * b) = as_i64 (a * b).
Proof. apply as_i64_cong. rewrite <- (wrap64_mul_l (as_i64 a)), wrap64_as_i64. apply wrap64_mul_l. Qed.
Lemma as_i64_add_r a b : as_i64 (a + as_i64 b) = as_i64 (a + b).
Proof. rewrite Z.add_comm, as_i64_add_l. f_equal. lia. Qed.
Lemma as_i64_mul_r a b : as_i64 (a * as_i64 b) = as_i64 (a * b).
Proof. rewrite Z.mul_comm, as_i64_mul_l. f_equal. lia. Qed.

#[local] Notation binop_value := (binop_value undef).

Definition commutes (o : BinOpKind) : Prop := ∀ x y, binop_value o x y = binop_value o y x.
Definition associates (o : BinOpKind) : Prop :=
  ∀ x y z, binop_value o (binop_value o x y) z = binop_value o x (binop_value o y z).

Lemma Add_commutes : commutes Add.
Proof. intros x y. cbn. by rewrite Z.add_comm. Qed.
Lemma Mul_commutes : commutes Mul.
Proof. intros x y. cbn. by rewrite Z.mul_comm. Qed.
Lemma And_commutes : commutes And.
Proof. intros x y. apply Z.land_comm. Qed.
Lemma Or_commutes : commutes Or.
Proof. intros x y. apply Z.lor_comm. Qed.
Lemma Xor_commutes : commutes Xor.
Proof. intros x y. apply Z.lxor_comm. Qed.
Lemma Add_associates : associates Add.
Proof. intros x y z. cbn. rewrite as_i64_add_l, as_i64_add_r. f_equal. lia. Qed.
Lemma Mul_associates : associates Mul.
Proof. intros x y z. cbn. rewrite as_i64_mul_l, as_i64_mul_r. f_equal. lia. Qed.
Lemma And_associates : associates And.
Proof. intros x y z. symmetry. apply Z.land_assoc. Qed.
Lemma Or_associates : associates Or.
Proof. intros x y z. symmetry. apply Z.lor_assoc. Qed.
Lemma Xor_associates : associates Xor.
Proof. intros x y z. apply Z.lxor_assoc. Qed.
Lemma Mul_distributes x y z :
  binop_value Mul x (binop_value Add y z) = binop_value Add (binop_value Mul x y) (binop_value Mul x z).
Proof. cbn. rewrite as_i64_mul_r, as_i64_add_l, as_i64_add_r. f_equal. lia. Qed.

(** ** Facts of a class *)

Lemma class_nodes_value ρ self c n :
  wf self → models ρ self → n ∈ class_nodes self (find self c) →
  node_ok (next_id self) n ∧ value ρ n = ρ c.
Proof.
  intros Hwf Hm. unfold class_nodes. destruct (classes self !! find self c) as [ns|] eqn:E; cbn.
  - intros Hn. split; [by apply (wf_classes _ Hwf _ _ E)|].
    rewrite <- (find_value ρ self c) by done. by eapply (m_classes _ _ _ Hm).
  - by intros ?%not_elem_of_empty.
Qed.

Lemma contains_lit_value ρ self c v :
  wf self → models ρ self → class_contains_lit self c v = true → ρ c = v.
Proof.
  intros Hwf Hm (n & Hn & ->%bool_decide_eq_true)%existsb_exists.
  apply list_elem_of_In, elem_of_elements in Hn. symmetry.
  by apply (class_nodes_value ρ self c (Lit v)).
Qed.

(** A rule is sound when what it adds has the value of the node, under the valuations
    that satisfy [P]. *)
Definition sound_under (P : (Z → Z) → Prop) (node : ENode) (self : EGraph)
    (r : option (Z * ENode * EGraph)) : Prop :=
  ∀ rid repl self', r = Some (rid, repl, self') →
  0 ≤ rid < next_id self' ∧ extends self self' (λ ρ ρ', P ρ → ρ' rid = value ρ node).
Definition sound_rule (rule : RewriteRule) : Prop :=
  ∀ node self, wf self → node_ok (next_id self) node →
  sound_under (λ _, True) node self (apply rule node self).

Lemma sound_none P node self : sound_under P node self None.
Proof. by intros rid repl self' H. Qed.

Lemma sound_when P (c : bool) node self r :
  (c = true → sound_under P node self r) → sound_under P node self (when c r).
Proof. destruct c; [auto|intros; apply sound_none]. Qed.

Lemma sound_assume (P : (Z → Z) → Prop) node self r :
  (∀ ρ, models ρ self → P ρ) → sound_under P node self r → sound_under (λ _, True) node self r.
Proof.
  intros HP H rid repl self' E. destruct (H _ _ _ E) as [Hid He]. split; [done|].
  eapply extends_mono; [exact He|]. cbn. auto.
Qed.

Lemma replace_sound (P : (Z → Z) → Prop) node repl self :
  wf self → node_ok (next_id self) repl →
  (∀ ρ, models ρ self → P ρ → value ρ repl = value ρ node) →
  sound_under P node self (replace_with repl self).
Proof using undef_i64.
  intros Hwf Hr H rid r self' Heq. unfold replace_with in Heq.
  pose proof (add_spec repl self Hwf Hr) as E. destruct (add_wf repl self Hwf Hr) as (_ & _ & Hid).
  destruct (add repl self) as [i s]. simplify_eq. split; [done|]. eapply extends_mono; [exact E|].
  intros ρ ρ' Hm _ _ _ HQ HP. cbn in HQ. rewrite HQ. by apply H.
Qed.

(** A node is added first; what the valuations satisfy is about the classes so far. *)
Lemma add_sound (P : (Z → Z) → Prop) node n self (k : Z → EGraph → option (Z * ENode * EGraph)) :
  wf self → node_ok (next_id self) n → node_ok (next_id self) node →
  (∀ ρ ρ', agree (next_id self) ρ ρ' → P ρ → P ρ') →
  (∀ id self', wf self' → next_id self ≤ next_id self' → 0 ≤ id < next_id self' →
     sound_under (λ ρ, P ρ ∧ ρ id = value ρ n) node self' (k id self')) →
  sound_under P node self (let '(id, self') := add n self in k id self').
Proof using undef_i64.
  intros Hwf Hn Hnode HP H rid repl self'' Heq. pose proof (add_spec n self Hwf Hn) as E.
  destruct (add_wf n self Hwf Hn) as (W & N & Hid). destruct (add n self) as [id self']. cbn in *.
  destruct (H id self' W N Hid _ _ _ Heq) as [Hrid E']. split; [done|].
  eapply extension_trans; [exact E|exact E'|]. cbn. intros ρ1 ρ2 ρ3 _ _ _ HS A1 A2 H1 H2 HP1.
  rewrite H2; [by apply (value_agree _ (next_id self))|]. split; [by eapply HP|].
  rewrite H1. symmetry. by apply (value_agree _ (next_id self)).
Qed.

(** ** The rules *)

#[local] Ltac leaf_rule :=
  intros node self Hwf Hn;
  destruct node as [|?|[] ? ?| | | |]; try apply sound_none;
  apply sound_when; intros Hguard; (apply replace_sound; [done|cbn in *; unfold is_i64; lia|]);
  intros ρ Hm _; pose proof (m_i64 _ _ _ Hm) as Hi64; cbn;
  first [apply Z.eqb_eq in Hguard as ->
        |apply (contains_lit_value ρ) in Hguard as Hlit; [rewrite ?Hlit|done..]];
  change (shift_amount 0) with 0;
  rewrite ?Z.lxor_nilpotent, ?Z.sub_diag, ?Z.add_0_l, ?Z.add_0_r, ?Z.mul_0_l, ?Z.mul_0_r,
    ?Z.mul_1_l, ?Z.mul_1_r, ?Z.land_0_l, ?Z.land_0_r, ?Z.lor_0_r, ?Z.lxor_0_r, ?Z.shiftr_0_r,
    ?Z.shiftl_0_r, ?as_i64_wrap64, ?as_i64_small by auto;
  try done; f_equal; lia.

Lemma leaf_rules_sound : Forall sound_rule
  [xor_self; sub_self; add_zero_left; add_zero_right; mul_zero_left; mul_zero_right;
   mul_one_right; mul_one_left; mul_two_to_add; mul_two_left_to_add; and_zero_left;
   and_zero_right; or_zero_right; xor_zero_right; shr_zero_right; shl_zero_right].
Proof using undef_i64. repeat apply Forall_cons_2; [leaf_rule..|constructor]. Qed.

Lemma comm_sound o n : commutes o → sound_rule {| name := n; verified := true; apply := comm_apply o |}.
Proof using undef_i64.
  intros Hc node self Hwf Hn. destruct node as [|?|op a b| | | |]; try apply sound_none.
  apply sound_when. intros [[[->%bool_decide_eq_true _]%andb_prop _]%andb_prop _]%andb_prop.
  apply replace_sound; [done|cbn in *; lia|]. intros ρ _ _. apply Hc.
Qed.

Lemma comm_rules_sound : Forall sound_rule [comm_add; comm_mul; comm_and; comm_or; comm_xor].
Proof using undef_i64.
  repeat apply Forall_cons_2; [apply comm_sound..|constructor];
    auto using Add_commutes, Mul_commutes, And_commutes, Or_commutes, Xor_commutes.
Qed.

Section walk.
  Context (walk : EGraph → Z → list ENode)
    (walk_nodes : ∀ eg c n, n ∈ walk eg c → n ∈ class_nodes eg c).

Lemma first_binop_elem o nodes a b : first_binop o nodes = Some (a, b) → BinOp o a b ∈ nodes.
Proof.
  induction nodes as [|n nodes IH]; [done|]. cbn. rewrite elem_of_cons.
  destruct n as [| |op x y| | | |]; auto. destruct (decide (op = o)) as [->|]; [|auto].
  intros. simplify_eq. auto.
Qed.

Lemma nodes_of_value ρ self c n :
  wf self → models ρ self → n ∈ nodes_of walk self c → node_ok (next_id self) n ∧ value ρ n = ρ c.
Proof using walk_nodes. intros Hwf Hm Hn. by apply class_nodes_value, walk_nodes. Qed.

Lemma nodes_of_ok self c n : wf self → n ∈ nodes_of walk self c → node_ok (next_id self) n.
Proof using walk_nodes. intros Hwf Hn%walk_nodes. by apply (nodes_ok self c). Qed.

Lemma assoc_left_sound o n :
  associates o → sound_rule {| name := n; verified := true; apply := assoc_left_apply walk o |}.
Proof using undef_i64 walk_nodes.
  intros Ho node self Hwf Hn. destruct node as [|?|op ab c| | | |]; try apply sound_none. cbn.
  destruct (decide (op = o)) as [->|]; [|apply sound_none].
  destruct (first_binop o (nodes_of walk self ab)) as [[a b]|] eqn:E; [|apply sound_none].
  apply first_binop_elem in E. pose proof (nodes_of_ok _ _ _ Hwf E) as Hok.
  apply (sound_assume (λ ρ, binop_value o (ρ a) (ρ b) = ρ ab)).
  { intros ρ Hm. by apply (nodes_of_value ρ self ab (BinOp o a b)). }
  apply add_sound; cbn in *; [done|lia..| |].
  { intros ρ ρ' A. by rewrite (A a), (A b), (A ab) by lia. }
  intros bc self' W N Hbc. apply replace_sound; [done|cbn; lia|].
  cbn. intros ρ _ [Hab ->]. by rewrite <- Hab, Ho.
Qed.

Lemma assoc_right_sound o n :
  associates o → sound_rule {| name := n; verified := true; apply := assoc_right_apply walk o |}.
Proof using undef_i64 walk_nodes.
  intros Ho node self Hwf Hn. destruct node as [|?|op a bc| | | |]; try apply sound_none. cbn.
  destruct (decide (op = o)) as [->|]; [|apply sound_none].
  destruct (first_binop o (nodes_of walk self bc)) as [[b c]|] eqn:E; [|apply sound_none].
  apply first_binop_elem in E. pose proof (nodes_of_ok _ _ _ Hwf E) as Hok.
  apply (sound_assume (λ ρ, binop_value o (ρ b) (ρ c) = ρ bc)).
  { intros ρ Hm. by apply (nodes_of_value ρ self bc (BinOp o b c)). }
  apply add_sound; cbn in *; [done|lia..| |].
  { intros ρ ρ' A. by rewrite (A b), (A c), (A bc) by lia. }
  intros ab self' W N Hab. apply replace_sound; [done|cbn; lia|].
  cbn. intros ρ _ [Hbc ->]. by rewrite <- Hbc, Ho.
Qed.

Lemma assoc_rules_sound : Forall sound_rule
  [assoc_add_left walk; assoc_add_right walk; assoc_mul_left walk; assoc_mul_right walk;
   assoc_and_left walk; assoc_and_right walk; assoc_or_left walk; assoc_or_right walk;
   assoc_xor_left walk; assoc_xor_right walk].
Proof using undef_i64 walk_nodes.
  repeat apply Forall_cons_2; [(apply assoc_left_sound || apply assoc_right_sound)..|constructor];
    auto using Add_associates, Mul_associates, And_associates, Or_associates, Xor_associates.
Qed.

Lemma distrib_fwd_sound : sound_rule (distrib_mul_add_fwd walk).
Proof using undef_i64 walk_nodes.
  intros node self Hwf Hn. destruct node as [|?|[] a bc| | | |]; try apply sound_none. cbn.
  destruct (first_binop Add (nodes_of walk self bc)) as [[b c]|] eqn:E; [|apply sound_none].
  apply first_binop_elem in E. pose proof (nodes_of_ok _ _ _ Hwf E) as Hok.
  apply (sound_assume (λ ρ, binop_value Add (ρ b) (ρ c) = ρ bc)).
  { intros ρ Hm. by apply (nodes_of_value ρ self bc (BinOp Add b c)). }
  apply add_sound; cbn in *; [done|lia..| |].
  { intros ρ ρ' A. by rewrite (A b), (A c), (A bc) by lia. }
  intros ab self1 W1 N1 Hab. apply add_sound; cbn in *; [done|lia..| |].
  { intros ρ ρ' A. by rewrite (A a), (A b), (A c), (A bc), (A ab) by lia. }
  intros ac self2 W2 N2 Hac. apply replace_sound; [done|cbn; lia|].
  cbn. intros ρ _ [[Hbc ->] ->]. rewrite <- Hbc. symmetry. apply Mul_distributes.
Qed.

Lemma common_factor_spec eg l l' a b c :
  common_factor eg l l' = Some (a, b, c) →
  ∃ a', BinOp Mul a b ∈ l ∧ BinOp Mul a' c ∈ l' ∧ find eg a = find eg a'.
Proof.
  intros H%head_Some_elem_of. unfold common_factor in H.
  apply list_elem_of_bind in H as ([a1 b1] & H & (n1 & Hn1 & E1)%list_elem_of_omap).
  apply list_elem_of_omap in H as ([a2 c2] & (n2 & Hn2 & E2)%list_elem_of_omap & H).
  destruct (Z.eqb_spec (find eg a1) (find eg a2)) as [Heq|]; [|done].
  destruct n1 as [| |[] ? ?| | | |], n2 as [| |[] ? ?| | | |]; simplify_eq. eauto.
Qed.

Lemma distrib_bwd_sound : sound_rule (distrib_mul_add_bwd walk).
Proof using undef_i64 walk_nodes.
  intros node self Hwf Hn. destruct node as [|?|[] ab ac| | | |]; try apply sound_none. cbn.
  destruct (common_factor _ _ _) as [[[a b] c]|] eqn:E; [|apply sound_none].
  apply common_factor_spec in E as (a' & H1 & H2 & Ha).
  pose proof (nodes_of_ok _ _ _ Hwf H1) as Hok1. pose proof (nodes_of_ok _ _ _ Hwf H2) as Hok2.
  apply (sound_assume (λ ρ, binop_value Mul (ρ a) (ρ b) = ρ ab ∧ binop_value Mul (ρ a) (ρ c) = ρ ac)).
  { intros ρ Hm. split; [by apply (nodes_of_value ρ self ab (BinOp Mul a b))|].
    rewrite <- (find_value ρ self a), Ha, (find_value ρ self a') by done.
    by apply (nodes_of_value ρ self ac (BinOp Mul a' c)). }
  apply add_sound; cbn in *; [done|lia..| |].
  { intros ρ ρ' A. by rewrite (A a), (A b), (A c), (A ab), (A ac) by lia. }
  intros bc self' W N Hbc. apply replace_sound; [done|cbn; lia|].
  cbn. intros ρ _ [[Hab Hac] ->]. rewrite <- Hab, <- Hac. apply Mul_distributes.
Qed.

Lemma peel_sound o u n :
  (∀ x, is_i64 x → binop_value o x u = x) →
  sound_rule {| name := n; verified := true; apply := peel_apply walk o u |}.
Proof using undef_i64 walk_nodes.
  intros Hu node self Hwf Hn. destruct node as [|?|op inner outer| | | |]; try apply sound_none. cbn.
  apply sound_when. intros [->%bool_decide_eq_true Hout]%andb_prop.
  destruct (head _) as [x|] eqn:E; [|apply sound_none].
  apply head_Some_elem_of, list_elem_of_omap in E as (m & Hm & E).
  destruct m as [| |op x' z| | | |]; try done.
  destruct (bool_decide (op = o)) eqn:Eop; [apply bool_decide_eq_true in Eop as ->|done].
  destruct (class_contains_lit self z u) eqn:Ez; simplify_eq/=.
  pose proof (nodes_of_ok _ _ _ Hwf Hm) as Hok. apply replace_sound; [done|cbn in *; lia|].
  intros ρ Hρ _. pose proof (m_i64 _ _ _ Hρ) as Hi64.
  destruct (nodes_of_value ρ self inner (BinOp o x z) Hwf Hρ Hm) as [_ Hv]. cbn in *.
  rewrite (contains_lit_value ρ self z u Hwf Hρ Ez), Hu in Hv by done.
  by rewrite (contains_lit_value ρ self outer u Hwf Hρ Hout), Hu, Hv.
Qed.

Lemma state_rules_sound : Forall sound_rule
  [state_dead_init_elim; state_store_load_forward walk; state_transform_elision; state_merge_rule].
Proof.
  repeat apply Forall_cons_2; [..|constructor]; intros node self _ Hn; destruct node; try done;
    apply sound_none.
Qed.

Lemma standard_rules_sound : Forall sound_rule (standard_rules walk).
Proof using undef_i64 walk_nodes.
  apply (Forall_app_2 _ _ _ leaf_rules_sound), (Forall_app_2 _ _ _ comm_rules_sound),
    (Forall_app_2 _ _ _ (assoc_rules_sound)).
  apply (Forall_app_2 _ [_; _; _; _]); [|apply state_rules_sound].
  repeat apply Forall_cons_2; [apply distrib_fwd_sound|apply distrib_bwd_sound|..|constructor].
  - apply peel_sound. intros x Hx. cbn. by rewrite Z.add_0_r, as_i64_small.
  - apply peel_sound. intros x Hx. cbn. by rewrite Z.mul_1_r, as_i64_small.
Qed.
End walk.

(** ** Saturation *)

(** A model of the first graph extends to one of the second. *)
#[local] Notation keeps self self' := (extends self self' (λ _ _, True)).

Lemma keeps_refl self : wf self → keeps self self.
Proof. intros. by apply extends_here. Qed.
Lemma keeps_trans self1 self2 self3 : keeps self1 self2 → keeps self2 self3 → keeps self1 self3.
Proof. intros H1 H2. by eapply extension_trans. Qed.

Lemma record_provenance_wf c n s r self : wf self → wf (record_provenance c n s r self).
Proof. by intros [? ? ? ? ? ?]. Qed.
Lemma record_provenance_models ρ c n s r self :
  models ρ self → models ρ (record_provenance c n s r self).
Proof. by intros [? ? ? ?]. Qed.

Lemma merge_keeps self0 self a b :
  extends self0 self (λ _ ρ, ρ a = ρ b) → 0 ≤ a < next_id self → 0 ≤ b < next_id self →
  keeps self0 (merge_no_rebuild a b self).
Proof.
  intros (W & N & E) Ha Hb. split; [by apply merge_no_rebuild_wf|].
  rewrite merge_no_rebuild_next. split; [done|]. intros ρ Hρ HS.
  destruct (E ρ Hρ HS) as (ρ' & A & M & H). exists ρ'. split; [done|]. split; [|done].
  by apply merge_no_rebuild_models.
Qed.

Lemma apply_rule_keeps self0 cid node st rule :
  sound_rule rule → keeps self0 (round_eg st) → 0 ≤ cid < next_id self0 →
  node_ok (next_id self0) node → (∀ ρ, models ρ self0 → value ρ node = ρ cid) →
  keeps self0 (round_eg (apply_rule cid node st rule)).
Proof.
  intros Hrule K Hcid Hn Hv. pose proof K as (W & N & _). unfold apply_rule.
  destruct (cap_hit st); [done|].
  destruct (apply rule node (round_eg st)) as [[[rid repl] eg]|] eqn:E; [|done].
  destruct (Hrule node _ W (node_ok_mono _ _ _ N Hn) _ _ _ E) as [Hrid X].
  assert (extends self0 eg (λ _ ρ, ρ cid = ρ rid)) as X'.
  { eapply extension_trans; [exact K|exact X|]. cbn. intros ρ1 ρ2 ρ3 M1 _ _ HS A1 A2 _ ->; [|done].
    rewrite (value_agree _ _ _ _ _ A1 Hn), Hv, (A2 cid), (A1 cid) by (done || lia). done. }
  pose proof X' as (W' & N' & X'').
  destruct (_ =? _); cbn [round_eg]; [by eapply extends_mono|]. apply merge_keeps.
  - split; [by apply record_provenance_wf|]. split; [done|]. intros ρ Hρ HS.
    destruct (X'' ρ Hρ HS) as (ρ' & A & M & H). exists ρ'. split; [done|].
    split; [by apply record_provenance_models|]. by rewrite !(find_value ρ' eg).
  - apply (find_below eg W'). lia.
  - apply (find_below eg W'). lia.
Qed.

Lemma visit_class_keeps rules self0 st cid :
  Forall sound_rule rules → keeps self0 (round_eg st) → 0 ≤ cid < next_id self0 →
  keeps self0 (round_eg (visit_class rules st cid)).
Proof.
  intros Hrules K Hcid. unfold visit_class. destruct (cap_hit st); [done|].
  pose proof K as (W & N & _). eapply keeps_trans; [exact K|].
  apply (foldl_invariant (λ st', keeps (round_eg st) (round_eg st'))); [by apply keeps_refl|].
  intros st' node Hnode K'. apply (foldl_invariant (λ st', keeps (round_eg st) (round_eg st'))); [done|].
  intros st'' rule Hrule K''. rewrite elem_of_sort_le, elem_of_elements in Hnode.
  apply apply_rule_keeps; [by eapply Forall_forall|done|lia|..].
  - by eapply (nodes_ok (round_eg st) cid).
  - intros ρ Hρ. by apply (class_nodes_value ρ (round_eg st) cid node).
Qed.

Lemma elem_of_class_ids self c : c ∈ class_ids self ↔ is_Some (classes self !! c).
Proof.
  unfold class_ids. rewrite elem_of_sort_by_key, list_elem_of_fmap. split.
  - intros ([c' ns] & -> & H%elem_of_map_to_list). by exists ns.
  - intros [ns H]. exists (c, ns). by rewrite elem_of_map_to_list.
Qed.

Lemma saturate_loop_keeps rules budget self log :
  Forall sound_rule rules → wf self → keeps self (saturate_loop rules budget self log).1.
Proof.
  intros Hrules. revert self log. induction budget as [|budget IH]; intros self log Hwf; cbn [saturate_loop].
  { by apply keeps_refl. }
  destruct (_ <? _); [by apply keeps_refl|].
  set (st := foldl (visit_class rules) _ (class_ids self)).
  assert (keeps self (round_eg st)) as K.
  { apply (foldl_invariant (λ st, keeps self (round_eg st))); [by apply keeps_refl|].
    intros st' cid [ns Hcid]%elem_of_class_ids K. apply visit_class_keeps; [done..|].
    by apply (wf_classes _ Hwf _ _ Hcid). }
  assert (keeps self (if changed st then rebuild (round_eg st) else round_eg st)) as K'.
  { destruct (changed st); [|done]. eapply keeps_trans; [exact K|].
    apply tracks_extends, rebuild_tracks, K. }
  destruct (cap_hit st); [done|]. eapply keeps_trans; [exact K'|]. apply IH, K'.
Qed.

Lemma saturate_keeps rules budget self :
  Forall sound_rule rules → wf self → keeps self (saturate rules budget self).
Proof.
  intros Hrules Hwf. unfold saturate, saturate_with_proof.
  destruct (verify_rules_with_counterexample _) as [|c]; [|by apply keeps_refl].
  pose proof (saturate_loop_keeps rules budget self [] Hrules Hwf) as K.
  by destruct (saturate_loop _ _ _ _).
Qed.
End sound.

(** ** Extraction *)

Section extract.
  Context (cost_fn : ENode → Z) (self : EGraph).

Lemma improve_elem best_cost lb node c n :
  improve cost_fn self best_cost lb node = Some (c, n) → n = node ∨ lb = Some (c, n).
Proof.
  unfold improve. destruct lb as [[b m]|]; [destruct (_ <? _)|]; intros ?; simplify_eq; auto.
Qed.

Lemma local_best_elem best_cost nodes c n :
  local_best cost_fn self best_cost nodes = Some (c, n) → n ∈ nodes.
Proof.
  unfold local_best. intros H.
  assert (match foldl (improve cost_fn self best_cost) None (sort_le (cost_le cost_fn) (elements nodes)) with
          | Some (_, n) => n ∈ nodes | None => True end) as Hinv; [|by rewrite H in Hinv].
  apply (foldl_invariant (λ lb : option (Z * ENode), match lb with Some (_, n) => n ∈ nodes | None => True end));
    [done|].
  intros lb x Hx%elem_of_sort_le Hlb. rewrite elem_of_elements in Hx.
  destruct (improve _ _ _ _ _) as [[c' n']|] eqn:E; [|done].
  apply improve_elem in E as [->|E]; [done|]. by rewrite E in Hlb.
Qed.

Lemma local_best_some best_cost nodes : nodes ≠ ∅ → is_Some (local_best cost_fn self best_cost nodes).
Proof.
  intros Hne. unfold local_best. destruct (sort_le _ _) as [|x l] eqn:E.
  - destruct Hne. apply set_eq. intros x. rewrite <- elem_of_elements, <- (elem_of_sort_le (cost_le cost_fn)), E.
    set_solver.
  - cbn [foldl]. apply (foldl_invariant is_Some); [by eexists|].
    intros lb y _ [[b m] ->]. unfold improve. destruct (_ <? _); by eexists.
Qed.

(** What is chosen for a class is one of its nodes, and has a cost. *)
Record chosen (best_cost : gmap Z Z) (best_node : gmap Z ENode) : Prop := {
  ch_elem : ∀ c n, best_node !! c = Some n → n ∈ class_nodes self c;
  ch_dom : ∀ c, is_Some (best_cost !! c) → is_Some (best_node !! c);
}.

Lemma extract_class_spec bc bn ch p :
  chosen bc bn → class_nodes self p.1 = p.2 →
  let '(bc', bn', _) := extract_class cost_fn self (bc, bn, ch) p in
  chosen bc' bn' ∧ (p.2 ≠ ∅ → is_Some (bn' !! p.1)) ∧ ∀ c, is_Some (bn !! c) → is_Some (bn' !! c).
Proof.
  intros Hc Hp. destruct p as [cid nodes]. cbn in *.
  destruct (local_best cost_fn self bc nodes) as [[c n]|] eqn:E.
  - case_bool_decide as Hbc.
    + split; [done|]. split; [|done]. intros _. apply (ch_dom _ _ Hc). by rewrite Hbc.
    + split; [split|].
      * intros c' n' [[<- <-]|[_ H]]%lookup_insert_Some; [rewrite Hp; by eapply local_best_elem|].
        by apply (ch_elem _ _ Hc).
      * intros c'. rewrite !lookup_insert_is_Some. pose proof (ch_dom _ _ Hc c'). naive_solver.
      * split; [intros _; rewrite lookup_insert_eq; by eexists|]. intros c'.
        rewrite lookup_insert_is_Some. destruct (decide (cid = c')); auto.
  - split; [done|]. split; [|done]. intros Hne.
    destruct (local_best_some bc nodes Hne) as [? H]. by rewrite E in H.
Qed.

Lemma extract_pass_spec l bc bn ch :
  chosen bc bn → (∀ p, p ∈ l → class_nodes self p.1 = p.2) →
  let '(bc', bn', _) := foldl (extract_class cost_fn self) (bc, bn, ch) l in
  chosen bc' bn' ∧ (∀ p, p ∈ l → p.2 ≠ ∅ → is_Some (bn' !! p.1)) ∧
  ∀ c, is_Some (bn !! c) → is_Some (bn' !! c).
Proof.
  revert bc bn ch. induction l as [|p l IH]; intros bc bn ch Hc Hl; cbn [foldl].
  { split; [done|]. split; [|done]. intros p []%elem_of_nil. }
  pose proof (extract_class_spec bc bn ch p Hc (Hl p ltac:(left))) as H.
  destruct (extract_class cost_fn self (bc, bn, ch) p) as [[bc1 bn1] ch1]. destruct H as (Hc1 & Hp & Hm).
  assert (∀ p, p ∈ l → class_nodes self p.1 = p.2) as Hl' by (intros q Hq; apply Hl; by right).
  specialize (IH bc1 bn1 ch1 Hc1 Hl'). destruct (foldl _ _ _) as [[bc2 bn2] ch2].
  destruct IH as (Hc2 & Hl2 & Hm2). split; [done|]. split; [|auto].
  intros q [->|Hq]%elem_of_cons Hne; auto.
Qed.

Lemma canonical_class_nodes p : p ∈ canonical_classes self → class_nodes self p.1 = p.2.
Proof. intros [H _]%elem_of_canonical_classes. unfold class_nodes. by rewrite H. Qed.

Lemma extract_loop_spec iters bc bn :
  chosen bc bn →
  let bn' := extract_loop cost_fn iters self bc bn in
  (∀ c n, bn' !! c = Some n → n ∈ class_nodes self c) ∧ (∀ c, is_Some (bn !! c) → is_Some (bn' !! c)).
Proof.
  revert bc bn. induction iters as [|iters IH]; intros bc bn Hc; cbn [extract_loop].
  { split; [apply Hc|done]. }
  pose proof (extract_pass_spec (canonical_classes self) bc bn false Hc canonical_class_nodes) as H.
  destruct (foldl _ _ _) as [[bc' bn'] [|]]; destruct H as (Hc' & _ & Hm); [|split; [apply Hc'|done]].
  destruct (IH bc' bn' Hc') as [H1 H2]. split; [done|auto].
Qed.

(** A node of the class is extracted. *)
Lemma extract_elem c :
  wf self → 0 ≤ c < next_id self → extract cost_fn self c ∈ class_nodes self (find self c).
Proof.
  intros Hwf Hc. unfold extract. pose proof (find_is_root _ Hwf c Hc) as Hr.
  pose proof (wf_roots _ Hwf _ Hr) as Hne. change EXTRACT_MAX_ITERS with (S 63). generalize 63%nat. intros k. cbn [extract_loop].
  assert (chosen ∅ ∅) as H0 by (by split; intros c' *; rewrite lookup_empty; [|intros []]).
  pose proof (extract_pass_spec (canonical_classes self) ∅ ∅ false H0 canonical_class_nodes) as H.
  assert ((find self c, class_nodes self (find self c)) ∈ canonical_classes self) as Hin.
  { apply elem_of_canonical_classes. cbn. split; [|by apply find_root]. unfold class_nodes in *.
    by destruct (classes self !! find self c). }
  destruct (foldl _ _ _) as [[bc' bn'] ch]. destruct H as (Hc' & Hs & _).
  specialize (Hs _ Hin Hne). cbn [fst] in Hs.
  destruct ch; [|destruct Hs as [n Hn]; rewrite Hn; by apply (ch_elem _ _ Hc')].
  destruct (extract_loop_spec k bc' bn' Hc') as [H1 H2]. destruct (H2 _ Hs) as [n Hn].
  rewrite Hn. by apply H1.
Qed.
End extract.
