(* ===== verification/EgraphBound.v ===== *)
(** * The size of the e-graph

    A graph has as many nodes as classes were made, so that the cap of the saturation loop
    bounds the class numbers: a rule that adds nodes makes a new class for its replacement,
    and the nodes are counted after every merge. *)

From S2P Require Import Prelude Ir BvVerify Opt Egraph UnionFind EgraphSound.
From stdpp Require Import options.
#[local] Open Scope Z_scope.

(** ** Counting nodes *)

(** Every class number was made for one node, which is in one class. *)
Record exact (self : EGraph) : Prop := {
  ex_count : total_nodes self = next_id self;
  ex_hash : ∀ id ns n, classes self !! id = Some ns → n ∈ ns → is_Some (hashcons self !! n);
  ex_disjoint : ∀ c d ns ms, c ≠ d → classes self !! c = Some ns → classes self !! d = Some ms → ns ## ms;
}.

Definition count_nodes (m : gmap Z (gset ENode)) : Z :=
  foldr (λ p n, Z.of_nat (size p.2) + n) 0 (map_to_list m).

Lemma count_nodes_insert c ns (m : gmap Z (gset ENode)) :
  m !! c = None → count_nodes (<[c := ns]> m) = Z.of_nat (size ns) + count_nodes m.
Proof.
  intros H. unfold count_nodes.
  assert (∀ l l' : list (Z * gset ENode), l ≡ₚ l' →
    foldr (λ p n, Z.of_nat (size p.2) + n) 0 l = foldr (λ p n, Z.of_nat (size p.2) + n) 0 l') as Hperm.
  { induction 1; cbn in *; lia. }
  by rewrite (Hperm _ _ (map_to_list_insert m c ns H)).
Qed.

Lemma count_nodes_delete c ns (m : gmap Z (gset ENode)) :
  m !! c = Some ns → count_nodes m = Z.of_nat (size ns) + count_nodes (delete c m).
Proof.
  intros H. rewrite <- (insert_delete_id m c ns H) at 1. apply count_nodes_insert, lookup_delete_eq.
Qed.

Lemma EGraph_new_exact : exact EGraph_new.
Proof. by split; cbn. Qed.

Lemma add_exact n self : wf self → exact self → exact (add n self).2.
Proof.
  intros Hwf [Hc Hh Hd]. unfold add. destruct (hashcons self !! n) as [id|] eqn:E; [done|]. cbn.
  assert (classes self !! next_id self = None) as Hfresh.
  { destruct (classes self !! next_id self) eqn:Ec; [|done].
    destruct (wf_classes _ Hwf _ _ Ec). lia. }
  assert (∀ d ms, classes self !! d = Some ms → n ∉ ms) as Hn.
  { intros d ms Hms Hin. destruct (Hh _ _ _ Hms Hin) as [? H]. congruence. }
  split; cbn.
  - change (count_nodes (<[next_id self := {[n]}]> (classes self)) = next_id self + 1).
    rewrite count_nodes_insert, size_singleton by done. unfold total_nodes in Hc. unfold count_nodes. lia.
  - intros id ns m H Hm. rewrite lookup_insert_is_Some. destruct (decide (n = m)); [by left|right].
    split; [done|]. apply lookup_insert_Some in H as [[_ <-]|[_ H]]; [set_solver|by eapply Hh].
  - intros c d ns ms Hcd [[<- <-]|[_ H1]]%lookup_insert_Some [[<- <-]|[_ H2]]%lookup_insert_Some; try done.
    + pose proof (Hn _ _ H2). set_solver.
    + pose proof (Hn _ _ H1). set_solver.
    + by eapply Hd.
Qed.

Lemma merge_no_rebuild_exact a b self : exact self → exact (merge_no_rebuild a b self).
Proof.
  intros [Hc Hh Hd]. unfold merge_no_rebuild.
  destruct (Z.eqb_spec (find self a) (find self b)) as [|Hne]; [done|].
  revert Hne. generalize (find self a) as ra, (find self b) as rb. intros ra rb Hne.
  destruct (classes self !! rb) as [nb|] eqn:Eb; [|by split].
  rewrite lookup_delete_ne by done. split; cbn.
  - rewrite <- Hc. change (count_nodes (<[ra := default ∅ (classes self !! ra) ∪ nb]> (delete rb (classes self)))
      = count_nodes (classes self)).
    rewrite (count_nodes_delete rb nb (classes self)) by done.
    destruct (classes self !! ra) as [na|] eqn:Ea; cbn.
    + rewrite (count_nodes_delete ra na (delete rb _)) by (by rewrite lookup_delete_ne).
      rewrite <- insert_delete_eq, count_nodes_insert by apply lookup_delete_eq.
      rewrite size_union by (by eapply Hd). lia.
    + rewrite count_nodes_insert by (by rewrite lookup_delete_ne).
      by rewrite (left_id_L ∅ (∪)).
  - intros id ns m [[<- <-]|[_ [_ H]%lookup_delete_Some]]%lookup_insert_Some Hm;
      rewrite lookup_union_is_Some.
    + apply elem_of_union in Hm as [Hm|Hm].
      * right. destruct (classes self !! ra) as [na|] eqn:Ea; [by eapply Hh|by apply not_elem_of_empty in Hm].
      * left. exists ra. by apply lookup_gset_to_gmap_Some.
    + right. by eapply Hh.
  - assert (∀ d ms, ra ≠ d → rb ≠ d → classes self !! d = Some ms →
      (default ∅ (classes self !! ra) ∪ nb) ## ms) as Hdisj.
    { intros d ms Hda Hdb Hms. apply disjoint_union_l. split; [|by eapply Hd].
      destruct (classes self !! ra) as [na|] eqn:Ea; cbn;
        [by apply (Hd ra d)|apply disjoint_empty_l]. }
    intros c d ns ms Hcd [[<- <-]|[? [? H1]%lookup_delete_Some]]%lookup_insert_Some
      [[<- <-]|[? [? H2]%lookup_delete_Some]]%lookup_insert_Some; try done.
    all: first [by eapply Hdisj|symmetry; by eapply Hdisj|by eapply (Hd c d)].
Qed.

(** Rebuilding only merges. *)
Lemma rebuild_invariant (P : EGraph → Prop) self :
  (∀ a b self, P self → P (merge_no_rebuild a b self)) → P self → P (rebuild self).
Proof.
  intros HP. assert (∀ self, P self → P (rebuild_once self).1) as Honce.
  { intros s Hs. unfold rebuild_once. apply (foldl_invariant (λ st, P st.1)); [done|].
    intros st l _ Hst. unfold merge_group. destruct l as [|first others]; [done|].
    apply (foldl_invariant (λ st, P st.1)); [done|]. intros [s' m] other _ Hs'. cbn in *.
    destruct (_ =? _); [done|]. by apply HP. }
  unfold rebuild. generalize REBUILD_MAX_ITERS. intros k. revert self.
  induction k as [|k IH]; intros self H; [done|]. cbn [rebuild_loop]. specialize (Honce self H).
  destruct (rebuild_once self) as [self' [|]]; [|done]. by apply IH.
Qed.

(** ** What a rule adds *)

(** A few nodes are added; the classes so far keep their roots. *)
Record added (self s : EGraph) (k : Z) (new : list ENode) : Prop := {
  ad_wf : wf s;
  ad_exact : exact s;
  ad_next : next_id self ≤ next_id s ≤ next_id self + k;
  ad_old : ∀ c, 0 ≤ c < next_id self → find s c = find self c;
  ad_hash : ∀ m, is_Some (hashcons s !! m) → m ∈ new ∨ is_Some (hashcons self !! m);
}.

(** The replacement has a class of its own, when nodes are added. *)
Record grown (self s : EGraph) (rid : Z) : Prop := {
  gr_wf : wf s;
  gr_exact : exact s;
  gr_next : next_id self ≤ next_id s ≤ next_id self + 3;
  gr_old : ∀ c, 0 ≤ c < next_id self → find s c = find self c;
  gr_id : 0 ≤ rid < next_id s;
  gr_new : next_id s = next_id self ∨ (next_id self ≤ rid ∧ is_root (parents s) rid);
}.

Lemma added_here self : wf self → exact self → added self self 0 [].
Proof. intros. split; auto with lia. Qed.

Lemma find_add n self c : wf self → 0 ≤ c < next_id self → find (add n self).2 c = find self c.
Proof.
  intros Hwf Hc. unfold add. destruct (hashcons self !! n); [done|]. unfold find. cbn.
  assert (parents self !! next_id self = None) as Hfresh.
  { apply eq_None_not_Some. rewrite (wf_dom _ Hwf). lia. }
  apply (wf_dom _ Hwf) in Hc. destruct (find_path _ c (wf_forest _ Hwf) Hc) as (k & Hk & Hp).
  apply (path_find _ k); [by apply path_new|].
  pose proof (links_size (<[next_id self := next_id self]> (parents self))).
  rewrite links_new in * by done. lia.
Qed.

Lemma add_new n self :
  ((add n self).2 = self ∧ is_Some (hashcons self !! n)) ∨
  (hashcons self !! n = None ∧ (add n self).1 = next_id self ∧ next_id (add n self).2 = next_id self + 1 ∧
   is_root (parents (add n self).2) (next_id self)).
Proof.
  unfold add. destruct (hashcons self !! n) as [id|]; [left; by split; [|eexists]|right]. cbn.
  split; [done|]. split; [done|]. split; [done|]. apply lookup_insert_eq.
Qed.

Lemma add_bound n self : next_id (add n self).2 ≤ next_id self + 1.
Proof. unfold add. destruct (hashcons self !! n); cbn; lia. Qed.

Lemma add_hash n self m : is_Some (hashcons (add n self).2 !! m) → m = n ∨ is_Some (hashcons self !! m).
Proof.
  unfold add. destruct (hashcons self !! n); cbn; [by right|]. rewrite lookup_insert_is_Some. naive_solver.
Qed.

Lemma added_add self s k new n :
  added self s k new → node_ok (next_id s) n → added self (add n s).2 (k + 1) (n :: new).
Proof.
  intros [W X N O H] Hn. destruct (add_wf n s W Hn) as (W' & N' & _). split; [done|..].
  - by apply add_exact.
  - split; [lia|]. destruct (add_new n s) as [[-> _]|(_ & _ & -> & _)]; lia.
  - intros c Hc. rewrite find_add by (done || lia). by apply O.
  - intros m [->|Hm]%add_hash; [left; left|]. apply H in Hm as [Hm|Hm]; [left; by right|by right].
Qed.

Lemma added_grown self s k new n :
  added self s k new → k ≤ 2 → wf self → node_ok (next_id s) n →
  (next_id s ≠ next_id self → n ∉ new ∧ ¬ node_ok (next_id self) n) →
  grown self (add n s).2 (add n s).1.
Proof.
  intros A Hk Wself Hn Hnew. pose proof (added_add _ _ _ _ _ A Hn) as A'.
  split; [apply A'|apply A'|..].
  - pose proof (ad_next _ _ _ _ A'). lia.
  - apply A'.
  - apply add_wf; [apply A|done].
  - pose proof (ad_next _ _ _ _ A).
    destruct (add_new n s) as [[E Hs]|(_ & E1 & E2 & R)]; [|right; rewrite E1; split; [lia|done]].
    rewrite E. destruct (decide (next_id s = next_id self)) as [|Hne]; [by left|].
    destruct (Hnew Hne) as [H1 H2]. apply (ad_hash _ _ _ _ A) in Hs as [Hs|[id Hs]]; [done|].
    by apply (wf_hashcons _ Wself) in Hs as [? _].
Qed.

Definition bounded_at (self : EGraph) (r : option (Z * ENode * EGraph)) : Prop :=
  ∀ rid repl self', r = Some (rid, repl, self') → grown self self' rid.
Definition bounded_rule (rule : RewriteRule) : Prop :=
  ∀ node self, wf self → exact self → node_ok (next_id self) node → bounded_at self (apply rule node self).

Lemma bounded_none self : bounded_at self None.
Proof. by intros rid repl self' H. Qed.
Lemma bounded_when (c : bool) self r : (c = true → bounded_at self r) → bounded_at self (when c r).
Proof. destruct c; [auto|intros; apply bounded_none]. Qed.
Lemma bounded_replace_after self s k new n :
  added self s k new → k ≤ 2 → wf self → node_ok (next_id s) n →
  (next_id s ≠ next_id self → n ∉ new ∧ ¬ node_ok (next_id self) n) →
  bounded_at self (replace_with n s).
Proof.
  intros A Hk W Hn Hnew rid repl self' E. unfold replace_with in E.
  pose proof (added_grown _ _ _ _ _ A Hk W Hn Hnew) as G. destruct (add n s). by simplify_eq.
Qed.
Lemma bounded_replace self n :
  wf self → exact self → node_ok (next_id self) n → bounded_at self (replace_with n self).
Proof. intros W X Hn. eapply bounded_replace_after; [by apply added_here|lia|done..]. Qed.

(** An operation on a class that was just made, after another operation. *)
Lemma added_operation self n : wf self → exact self → node_ok (next_id self) n →
  added self (add n self).2 1 [n] ∧
  (next_id (add n self).2 ≠ next_id self → next_id self ≤ (add n self).1) ∧
  0 ≤ (add n self).1 < next_id (add n self).2.
Proof.
  intros W X Hn. split; [by apply (added_add _ _ 0 []); [apply added_here|]|].
  split; [|by apply add_wf]. destruct (add_new n self) as [[-> _]|(_ & -> & _)]; [done|lia].
Qed.

#[local] Ltac leaf_bounded :=
  intros node self W X Hn;
  destruct node as [|?|[] ? ?| | | |]; try apply bounded_none;
  apply bounded_when; intros _; (apply bounded_replace; [done|done|cbn in *; unfold is_i64; lia]).

Lemma leaf_rules_bounded : Forall bounded_rule
  [xor_self; sub_self; add_zero_left; add_zero_right; mul_zero_left; mul_zero_right;
   mul_one_right; mul_one_left; mul_two_to_add; mul_two_left_to_add; and_zero_left;
   and_zero_right; or_zero_right; xor_zero_right; shr_zero_right; shl_zero_right].
Proof. repeat apply Forall_cons_2; [leaf_bounded..|constructor]. Qed.

Lemma comm_bounded o n : bounded_rule {| name := n; verified := true; apply := comm_apply o |}.
Proof.
  intros node self W X Hn. destruct node as [|?|op a b| | | |]; try apply bounded_none.
  apply bounded_when. intros _. apply bounded_replace; [done..|]. cbn in *. lia.
Qed.

Lemma comm_rules_bounded : Forall bounded_rule [comm_add; comm_mul; comm_and; comm_or; comm_xor].
Proof. repeat apply Forall_cons_2; [apply comm_bounded..|constructor]. Qed.

Section walk.
  Context (walk : EGraph → Z → list ENode)
    (walk_nodes : ∀ eg c n, n ∈ walk eg c → n ∈ class_nodes eg c).

Lemma first_binop_ok self o cls a b :
  wf self → first_binop o (nodes_of walk self cls) = Some (a, b) →
  0 ≤ a < next_id self ∧ 0 ≤ b < next_id self.
Proof using walk_nodes.
  intros W E%first_binop_elem. apply (nodes_of_ok walk walk_nodes _ _ _ W) in E. exact E.
Qed.

Lemma assoc_left_bounded o n :
  bounded_rule {| name := n; verified := true; apply := assoc_left_apply walk o |}.
Proof using walk_nodes.
  intros node self W X Hn. destruct node as [|?|op ab c| | | |]; try apply bounded_none. cbn.
  destruct (decide (op = o)) as [->|]; [|apply bounded_none].
  destruct (first_binop o (nodes_of walk self ab)) as [[a b]|] eqn:E; [|apply bounded_none].
  apply first_binop_ok in E as [Ha Hb]; [|done]. cbn in *.
  destruct (added_operation self (BinOp o b c) W X) as (A & Hnew & Hid); [cbn; lia|].
  destruct (add (BinOp o b c) self) as [bc s]. cbn in *. pose proof (ad_next _ _ _ _ A).
  eapply bounded_replace_after; [exact A|lia|done|cbn; lia|].
  intros Hne%Hnew. cbn. split; [|lia]. intros [= ? ?]%list_elem_of_singleton. lia.
Qed.

Lemma assoc_right_bounded o n :
  bounded_rule {| name := n; verified := true; apply := assoc_right_apply walk o |}.
Proof using walk_nodes.
  intros node self W X Hn. destruct node as [|?|op a bc| | | |]; try apply bounded_none. cbn.
  destruct (decide (op = o)) as [->|]; [|apply bounded_none].
  destruct (first_binop o (nodes_of walk self bc)) as [[b c]|] eqn:E; [|apply bounded_none].
  apply first_binop_ok in E as [Hb Hc]; [|done]. cbn in *.
  destruct (added_operation self (BinOp o a b) W X) as (A & Hnew & Hid); [cbn; lia|].
  destruct (add (BinOp o a b) self) as [ab s]. cbn in *. pose proof (ad_next _ _ _ _ A).
  eapply bounded_replace_after; [exact A|lia|done|cbn; lia|].
  intros Hne%Hnew. cbn. split; [|lia]. intros [= ? ?]%list_elem_of_singleton. lia.
Qed.

Lemma assoc_rules_bounded : Forall bounded_rule
  [assoc_add_left walk; assoc_add_right walk; assoc_mul_left walk; assoc_mul_right walk;
   assoc_and_left walk; assoc_and_right walk; assoc_or_left walk; assoc_or_right walk;
   assoc_xor_left walk; assoc_xor_right walk].
Proof using walk_nodes.
  repeat apply Forall_cons_2; [(apply assoc_left_bounded || apply assoc_right_bounded)..|constructor].
Qed.

Lemma distrib_fwd_bounded : bounded_rule (distrib_mul_add_fwd walk).
Proof using walk_nodes.
  intros node self W X Hn. destruct node as [|?|[] a bc| | | |]; try apply bounded_none. cbn.
  destruct (first_binop Add (nodes_of walk self bc)) as [[b c]|] eqn:E; [|apply bounded_none].
  apply first_binop_ok in E as [Hb Hc]; [|done]. cbn in *.
  destruct (added_operation self (BinOp Mul a b) W X) as (A & Hnew & Hid); [cbn; lia|].
  destruct (add (BinOp Mul a b) self) as [ab s]. cbn in *. pose proof (ad_next _ _ _ _ A).
  assert (node_ok (next_id s) (BinOp Mul a c)) as Hac by (cbn; lia).
  pose proof (added_add _ _ _ _ _ A Hac) as A'. pose proof (add_new (BinOp Mul a c) s) as Hnew'.
  destruct (add_wf _ s (ad_wf _ _ _ _ A) Hac) as (_ & N & Hid').
  destruct (add (BinOp Mul a c) s) as [ac s']. cbn in *. pose proof (ad_next _ _ _ _ A').
  eapply bounded_replace_after; [exact A'|lia|done|cbn; lia|].
  intros Hne. split; [by intros [|[|?%elem_of_nil]%elem_of_cons]%elem_of_cons|]. cbn.
  destruct (decide (next_id s = next_id self)) as [Hs|Hs%Hnew]; [|lia].
  destruct Hnew' as [[-> _]|(_ & -> & _)]; [done|lia].
Qed.

Lemma distrib_bwd_bounded : bounded_rule (distrib_mul_add_bwd walk).
Proof using walk_nodes.
  intros node self W X Hn. destruct node as [|?|[] ab ac| | | |]; try apply bounded_none. cbn.
  destruct (common_factor _ _ _) as [[[a b] c]|] eqn:E; [|apply bounded_none].
  apply common_factor_spec in E as (a' & H1 & H2 & _).
  apply (nodes_of_ok walk walk_nodes _ _ _ W) in H1, H2. cbn in *.
  destruct (added_operation self (BinOp Add b c) W X) as (A & Hnew & Hid); [cbn; lia|].
  destruct (add (BinOp Add b c) self) as [bc s]. cbn in *. pose proof (ad_next _ _ _ _ A).
  eapply bounded_replace_after; [exact A|lia|done|cbn; lia|].
  intros Hne%Hnew. cbn. split; [by intros ?%list_elem_of_singleton|lia].
Qed.

Lemma peel_bounded o u n :
  bounded_rule {| name := n; verified := true; apply := peel_apply walk o u |}.
Proof using walk_nodes.
  intros node self W X Hn. destruct node as [|?|op inner outer| | | |]; try apply bounded_none. cbn.
  apply bounded_when. intros _. destruct (head _) as [x|] eqn:E; [|apply bounded_none].
  apply head_Some_elem_of, list_elem_of_omap in E as (m & Hm & E).
  destruct m as [| |op' x' z| | | |]; try done. destruct (_ && _); [|done]. simplify_eq.
  apply (nodes_of_ok walk walk_nodes _ _ _ W) in Hm. apply bounded_replace; [done..|]. cbn in *. lia.
Qed.

Lemma standard_rules_bounded : Forall bounded_rule (standard_rules walk).
Proof using walk_nodes.
  apply (Forall_app_2 _ _ _ leaf_rules_bounded), (Forall_app_2 _ _ _ comm_rules_bounded),
    (Forall_app_2 _ _ _ assoc_rules_bounded).
  repeat apply Forall_cons_2; [apply distrib_fwd_bounded|apply distrib_bwd_bounded|
    apply peel_bounded|apply peel_bounded|..|constructor].
  all: intros node self _ _ Hn; destruct node; try done; apply bounded_none.
Qed.
End walk.

(** ** The cap *)

Section cap.
  Context (rules : list RewriteRule) (Hrules : Forall bounded_rule rules).

(** Between the rules of a round. *)
Record capped (bound : Z) (st : round) : Prop := {
  cp_wf : wf (round_eg st);
  cp_exact : exact (round_eg st);
  cp_above : bound ≤ next_id (round_eg st) ≤ MAX_EGRAPH_NODES + 3;
  cp_cap : cap_hit st = false → next_id (round_eg st) ≤ MAX_EGRAPH_NODES;
}.

Lemma apply_rule_capped bound cid node rule st :
  bounded_rule rule → 0 ≤ cid < bound → node_ok bound node → capped bound st →
  capped bound (apply_rule cid node st rule).
Proof.
  intros Hrule Hcid Hn C. unfold apply_rule. destruct (cap_hit st) eqn:Ecap; [done|].
  destruct (apply rule node (round_eg st)) as [[[rid repl] eg]|] eqn:E; [|done].
  pose proof C as [W X [Hb _] HC]. specialize (HC Ecap).
  destruct (Hrule _ _ W X (node_ok_mono _ _ _ Hb Hn) _ _ _ E) as [W' X' N O Hrid New].
  assert (next_id eg ≤ MAX_EGRAPH_NODES + 3) by lia.
  destruct (Z.eqb_spec (find eg rid) (find eg cid)) as [Heq|Hne].
  - assert (next_id eg = next_id (round_eg st)).
    { destruct New as [|[Hr R]]; [done|]. exfalso. unfold find at 1 in Heq.
      rewrite (find_root _ _ R), O in Heq by lia.
      pose proof (find_below _ W cid ltac:(lia)). lia. }
    split; cbn; [done|done|lia|intros; lia].
  - assert (∀ a b s, wf s → exact s → exact (merge_no_rebuild a b s)) by (intros; by apply merge_no_rebuild_exact).
    set (eg' := record_provenance _ _ _ _ eg).
    assert (wf eg') as We by (by apply record_provenance_wf).
    assert (exact eg') as Xe by (by destruct X'; split).
    assert (0 ≤ find eg cid < next_id eg').
    { apply (find_below eg W'). cbn. lia. }
    assert (wf (merge_no_rebuild (find eg cid) (find eg rid) eg')).
    { apply merge_no_rebuild_wf; [done|done|]. by apply (find_below eg W'). }
    split; cbn [round_eg cap_hit]; [done|by apply merge_no_rebuild_exact|..].
    + rewrite merge_no_rebuild_next. cbn. lia.
    + rewrite (ex_count _ (merge_no_rebuild_exact _ _ _ Xe)), merge_no_rebuild_next. cbn.
      intros ?%Z.ltb_ge. lia.
Qed.

Lemma visit_class_capped bound st cid :
  0 ≤ cid < bound → capped bound st → capped bound (visit_class rules st cid).
Proof using Hrules.
  intros Hcid C. unfold visit_class. destruct (cap_hit st); [done|].
  pose proof (cp_wf _ _ C) as W. pose proof (cp_above _ _ C) as [Hb HM].
  assert (capped (next_id (round_eg st)) st) as C0 by (split; [apply C..|lia|apply C]).
  assert (capped (next_id (round_eg st)) (foldl (λ st node, foldl (apply_rule cid node) st rules) st
    (sort_le debug_le (elements (class_nodes (round_eg st) (find (round_eg st) cid)))))) as C1.
  { apply foldl_invariant; [done|]. intros st' node Hnode%elem_of_sort_le C'.
    rewrite elem_of_elements in Hnode. apply foldl_invariant; [done|]. intros st'' rule Hrule C''.
    apply apply_rule_capped; [by eapply Forall_forall|lia| |done].
    by apply (nodes_ok _ cid). }
  split; [apply C1..| |apply C1]. pose proof (cp_above _ _ C1). lia.
Qed.

Lemma rebuild_next self : next_id (rebuild self) = next_id self.
Proof.
  apply (rebuild_invariant (λ s, next_id s = next_id self)); [|done].
  intros a b s <-. apply merge_no_rebuild_next.
Qed.
Lemma rebuild_exact self : exact self → exact (rebuild self).
Proof. apply rebuild_invariant. intros. by apply merge_no_rebuild_exact. Qed.

Lemma saturate_loop_bound budget self log :
  wf self → exact self → next_id self ≤ MAX_EGRAPH_NODES + 3 →
  let self' := (saturate_loop rules budget self log).1 in
  wf self' ∧ exact self' ∧ next_id self' ≤ MAX_EGRAPH_NODES + 3.
Proof using Hrules.
  revert self log. induction budget as [|budget IH]; intros self log W X HM; cbn [saturate_loop]; [done|].
  destruct (Z.ltb_spec MAX_EGRAPH_NODES (total_nodes self)) as [|Hle]; [done|].
  rewrite (ex_count _ X) in Hle. set (st := foldl (visit_class rules) _ (class_ids self)).
  assert (capped (next_id self) st) as C.
  { apply foldl_invariant; [by split; cbn|]. intros st' cid [ns Hcid]%elem_of_class_ids C'.
    apply visit_class_capped; [|done]. by apply (wf_classes _ W _ _ Hcid). }
  destruct C as [W1 X1 [_ H1] _].
  assert (wf (if changed st then rebuild (round_eg st) else round_eg st) ∧
          exact (if changed st then rebuild (round_eg st) else round_eg st) ∧
          next_id (if changed st then rebuild (round_eg st) else round_eg st) ≤ MAX_EGRAPH_NODES + 3)
    as (W2 & X2 & H2).
  { destruct (changed st); [|done]. split; [|split; [by apply rebuild_exact|by rewrite rebuild_next]].
    by apply (rebuild_tracks (λ _ _ _, 0)). }
  destruct (cap_hit st); [done|]. by apply IH.
Qed.

Lemma saturate_bound budget self :
  wf self → exact self →
  next_id (saturate rules budget self) ≤ Z.max (next_id self) (MAX_EGRAPH_NODES + 3) ∧
  exact (saturate rules budget self).
Proof using Hrules.
  intros W X. unfold saturate, saturate_with_proof.
  destruct (verify_rules_with_counterexample _) as [|c]; [|split; [lia|done]].
  destruct (decide (next_id self ≤ MAX_EGRAPH_NODES + 3)) as [H|H].
  - pose proof (saturate_loop_bound budget self [] W X H) as (_ & X' & Hb).
    destruct (saturate_loop _ _ _ _). cbn in *. split; [lia|done].
  - destruct budget as [|budget]; cbn; [split; [lia|done]|].
    rewrite (ex_count _ X). destruct (Z.ltb_spec MAX_EGRAPH_NODES (next_id self)); [|lia].
    split; [lia|done].
Qed.
End cap.

(** ** Rebuilding to congruence *)

(** Equal nodes, up to the representatives of their operands, are in one class. *)
Definition congruent (self : EGraph) : Prop :=
  ∀ node c d, grouped self node c → grouped self node d → c = d.

Lemma merge_if_apart_false first other st :
  (merge_if_apart first other st).2 = false →
  merge_if_apart first other st = st ∧ find st.1 first = find st.1 other.
Proof.
  destruct st as [self m]. unfold merge_if_apart.
  by destruct (Z.eqb_spec (find self first) (find self other)).
Qed.

Lemma merge_all_false first others st :
  (foldl (λ st other, merge_if_apart first other st) st others).2 = false →
  foldl (λ st other, merge_if_apart first other st) st others = st ∧
  ∀ other, other ∈ others → find st.1 first = find st.1 other.
Proof.
  induction others as [|o others IH] using rev_ind; [split; [done|by intros ? ?%elem_of_nil]|].
  rewrite foldl_app. cbn. intros H. destruct (merge_if_apart_false _ _ _ H) as [E Hf].
  rewrite E in *. destruct (IH H) as [E' Ho]. rewrite E' in *. split; [done|].
  intros other [Hin| ->%list_elem_of_singleton]%elem_of_app; auto.
Qed.

Lemma merge_group_false st l :
  (merge_group st l).2 = false →
  merge_group st l = st ∧ ∀ c d, c ∈ l → d ∈ l → find st.1 c = find st.1 d.
Proof.
  destruct l as [|first others]; [split; [done|by intros ? ? ?%elem_of_nil]|]. cbn.
  intros [E H]%merge_all_false. split; [done|].
  assert (∀ c, c ∈ first :: others → find st.1 first = find st.1 c) as Hc.
  { intros c [->|Hin]%elem_of_cons; auto. }
  intros c d Hin%Hc Hdn%Hc. congruence.
Qed.

Lemma merge_groups_false ls st :
  (foldl merge_group st ls).2 = false →
  foldl merge_group st ls = st ∧ ∀ l c d, l ∈ ls → c ∈ l → d ∈ l → find st.1 c = find st.1 d.
Proof.
  induction ls as [|l ls IH] using rev_ind; [split; [done|by intros ? ? ? ?%elem_of_nil]|].
  rewrite foldl_app. cbn. intros H. destruct (merge_group_false _ _ H) as [E Hl].
  rewrite E in *. destruct (IH H) as [E' Hls]. rewrite E' in *. split; [done|].
  intros l' c d [Hin| ->%list_elem_of_singleton]%elem_of_app; eauto.
Qed.

(** A pass that merges nothing leaves a congruent graph as it was. *)
Lemma rebuild_once_done self :
  (rebuild_once self).2 = false → (rebuild_once self).1 = self ∧ congruent self.
Proof.
  unfold rebuild_once. intros H. destruct (merge_groups_false _ _ H) as [-> Hl]. split; [done|].
  intros node c d Hc Hd. pose proof Hc as (_ & _ & _ & _ & _ & Rc). pose proof Hd as (_ & _ & _ & _ & _ & Rd).
  rewrite <- Rc, <- Rd. apply collect_groups_lookup in Hc, Hd.
  destruct (collect_groups self !! node) as [l|] eqn:E; [|by apply elem_of_nil in Hc].
  apply (Hl l); [|done|done]. apply groups_values. by exists node.
Qed.
