(* ===== verification/EgraphPass.v ===== *)
(** * The equality-saturation pass

    The pass reads a block as equations between registers, saturates them and writes back
    what it extracts.  Registers that satisfy the equations of a block satisfy those of the
    rewritten block, when its operands are registers and integer literals. *)

From S2P Require Import Prelude Ir BvVerify Float Opt IrSem Egraph UnionFind EgraphSound EgraphBound.
From stdpp Require Import options.
#[local] Open Scope Z_scope.

(** ** Specification *)

Definition operand (env : Z → Z) (v : IRValue) : Z :=
  match v with
  | Register id => env id
  | Immediate z => z
  | Address a => a
  | Label _ => 0
  end.

(** The operands that the pass reads as they are. *)
Definition plain (v : IRValue) : Prop :=
  match v with Register id => 0 ≤ id | Immediate z => is_i64 z | _ => False end.

Definition plain_instr (i : IRInstr) : Prop :=
  match as_binop i with Some (_, _, lhs, rhs) => plain lhs ∧ plain rhs | None => True end.

Section pass.
  Context (undef : BinOpKind → Z → Z → Z) (undef_i64 : ∀ op l r, is_i64 (undef op l r)).

  #[local] Notation value := (value undef).
  #[local] Notation models := (models undef).
  #[local] Notation binop_value := (binop_value undef).
  #[local] Notation extends := (extends undef).

(** The equation of an instruction, over integers; the pass reads [Div] as unsigned. *)
Definition holds (env : Z → Z) (i : IRInstr) : Prop :=
  match as_binop i with
  | Some (op, dst, lhs, rhs) =>
      match as_register dst with
      | Some d => env d = binop_value op (operand env lhs) (operand env rhs)
      | None => True
      end
  | None => True
  end.

(** ** The graph of a block *)

Section env.
  Context (env : Z → Z) (env_i64 : ∀ r, is_i64 (env r)).

(** What the tables say of a valuation. *)
Record reads (ρ : Z → Z) (st : block_state) : Prop := {
  rd_models : models ρ (bs_eg st);
  rd_synthetic : ∀ r, 0 ≤ r → ρ (SYNTHETIC + r) = env r;
  rd_regs : ∀ r c, vreg_to_eclass st !! r = Some c → ρ c = env r;
  rd_values : ∀ c v, eclass_to_value st !! c = Some v → ρ c = operand env v;
}.

(** The classes of the tables exist, and at most [k] nodes were added. *)
Record built (k : Z) (st : block_state) : Prop := {
  bt_wf : wf (bs_eg st);
  bt_exact : exact (bs_eg st);
  bt_next : next_id (bs_eg st) ≤ k;
  bt_regs : ∀ r c, vreg_to_eclass st !! r = Some c → 0 ≤ c < next_id (bs_eg st);
  bt_values : ∀ c v, eclass_to_value st !! c = Some v → 0 ≤ c < next_id (bs_eg st);
  bt_reads : next_id (bs_eg st) ≤ SYNTHETIC → ∃ ρ, reads ρ st;
}.

Definition empty_state : block_state :=
  {| bs_eg := EGraph_new; vreg_to_eclass := ∅; eclass_to_value := ∅ |}.

Lemma empty_built : built 0 empty_state.
Proof using env_i64.
  split; cbn; [apply EGraph_new_wf|apply EGraph_new_exact|done|by intros ? ? ?..|]. intros _.
  exists (λ c, if SYNTHETIC <=? c then env (c - SYNTHETIC) else 0). split; cbn; [|..|done|done].
  - apply EGraph_new_models. intros c. destruct (_ <=? _); [apply env_i64|]. unfold is_i64. lia.
  - intros r Hr. destruct (Z.leb_spec SYNTHETIC (SYNTHETIC + r)); [f_equal; lia|lia].
Qed.

(** The tables under a valuation of a larger graph. *)
Lemma reads_agree k ρ ρ' st eg :
  built k st → reads ρ st → agree (next_id (bs_eg st)) ρ ρ' → models ρ' eg →
  reads ρ' {| bs_eg := eg; vreg_to_eclass := vreg_to_eclass st;
              eclass_to_value := eclass_to_value st |}.
Proof.
  intros B R A M. split; cbn; [done|..].
  - intros r Hr. rewrite A by lia. by apply (rd_synthetic _ _ R).
  - intros r c H. rewrite A by (left; by apply (bt_regs _ _ B r)). by apply (rd_regs _ _ R).
  - intros c v H. rewrite A by (left; by apply (bt_values _ _ B c v)). by apply (rd_values _ _ R).
Qed.

Lemma register_reg_built k st r : 0 ≤ k → 0 ≤ r → built k st → built (k + 1) (register_reg st r).
Proof using undef_i64.
  intros Hk Hr B. unfold register_reg. destruct (vreg_to_eclass st !! r).
  { destruct B. split; auto with lia. }
  assert (node_ok (next_id (bs_eg st)) (VReg (SYNTHETIC + r))) as Hn by (right; lia).
  pose proof (add_spec undef undef_i64 _ _ (bt_wf _ _ B) Hn) as E.
  pose proof (add_exact _ _ (bt_wf _ _ B) (bt_exact _ _ B) : exact (add (VReg (SYNTHETIC + r)) _).2) as X.
  pose proof (add_bound (VReg (SYNTHETIC + r)) (bs_eg st)) as Hb. pose proof (bt_next _ _ B) as Hcount.
  destruct (add_wf _ _ (bt_wf _ _ B) Hn) as (_ & N & Hid). fold SYNTHETIC.
  destruct (add _ (bs_eg st)) as [c eg]. cbn [fst snd] in *. destruct E as (W & _ & E).
  split; cbn; [done|done|lia|..].
  - intros r' c' [[<- <-]|[_ H]]%lookup_insert_Some; [done|]. pose proof (bt_regs _ _ B _ _ H). lia.
  - intros c' v [[<- <-]|[_ H]]%lookup_insert_Some; [done|]. pose proof (bt_values _ _ B _ _ H). lia.
  - intros HS. destruct (bt_reads _ _ B ltac:(lia)) as [ρ R].
    destruct (E ρ (rd_models _ _ R) HS) as (ρ' & A & M & Hc). cbn in Hc.
    rewrite (rd_synthetic _ _ R) in Hc by done. exists ρ'.
    pose proof (reads_agree _ _ _ _ _ B R A M) as R'. split; cbn; [done|apply R'|..].
    + intros r' c' [[<- <-]|[_ H]]%lookup_insert_Some; [done|]. by apply (rd_regs _ _ R').
    + intros c' v [[<- <-]|[_ H]]%lookup_insert_Some; [done|]. by apply (rd_values _ _ R').
Qed.

(** *** An instruction *)

(** The operands, and the operation on their classes. *)
Definition add_operation (op : BinOpKind) (n1 n2 : ENode) (eg : EGraph) : Z * Z * Z * EGraph :=
  let '(i1, eg) := add n1 eg in
  let '(i2, eg) := add n2 eg in
  let '(i3, eg) := add (BinOp op i1 i2) eg in (i1, i2, i3, eg).

Lemma add_operation_spec op n1 n2 eg i1 i2 i3 eg' :
  wf eg → exact eg → node_ok (next_id eg) n1 → node_ok (next_id eg) n2 →
  add_operation op n1 n2 eg = (i1, i2, i3, eg') →
  exact eg' ∧ next_id eg' ≤ next_id eg + 3 ∧
  0 ≤ i1 < next_id eg' ∧ 0 ≤ i2 < next_id eg' ∧ 0 ≤ i3 < next_id eg' ∧
  extends eg eg' (λ ρ ρ', ρ' i1 = value ρ n1 ∧ ρ' i2 = value ρ n2 ∧
                          ρ' i3 = binop_value op (value ρ n1) (value ρ n2)).
Proof using undef_i64.
  intros W X H1 H2 Heq. unfold add_operation in Heq.
  pose proof (add_spec undef undef_i64 n1 eg W H1) as E1.
  pose proof (add_exact n1 eg W X) as X1. pose proof (add_bound n1 eg) as B1.
  destruct (add_wf n1 eg W H1) as (W1 & N1 & I1). destruct (add n1 eg) as [j1 eg1]. cbn in *.
  pose proof (node_ok_mono _ _ _ N1 H2) as H2'.
  pose proof (add_spec undef undef_i64 n2 eg1 W1 H2') as E2.
  pose proof (add_exact n2 eg1 W1 X1) as X2. pose proof (add_bound n2 eg1) as B2.
  destruct (add_wf n2 eg1 W1 H2') as (W2 & N2 & I2). destruct (add n2 eg1) as [j2 eg2]. cbn in *.
  assert (node_ok (next_id eg2) (BinOp op j1 j2)) as H3 by (cbn; lia).
  pose proof (add_spec undef undef_i64 _ eg2 W2 H3) as E3.
  pose proof (add_exact (BinOp op j1 j2) eg2 W2 X2) as X3.
  pose proof (add_bound (BinOp op j1 j2) eg2) as B3.
  destruct (add_wf _ eg2 W2 H3) as (W3 & N3 & I3). destruct (add _ eg2) as [j3 eg3]. cbn in *.
  simplify_eq. split; [done|]. split; [lia|]. split; [lia|]. split; [lia|]. split; [lia|].
  apply (extension_trans _ eg eg1 eg' (λ ρ ρ', ρ' i1 = value ρ n1) _
    (λ ρ ρ', ρ' i2 = value ρ n2 ∧ ρ' i3 = binop_value op (ρ i1) (value ρ n2))); [done|..].
  - eapply extension_trans; [exact E2|exact E3|]. cbn. intros ρ1 ρ2 ρ3 _ _ _ _ A1 A2 Hi2 Hi3.
    by rewrite Hi3, (A2 i2), Hi2, (A1 i1) by lia.
  - cbn. intros ρ1 ρ2 ρ3 _ _ _ _ A1 A2 Hi1 [Hi2 Hi3].
    rewrite (value_agree _ _ _ _ _ A1 H2) in *. by rewrite (A2 i1), Hi3, Hi1, Hi2 by lia.
Qed.

Lemma value_to_enode_ok k st v :
  built k st → plain v → node_ok (next_id (bs_eg st)) (value_to_enode v (vreg_to_eclass st)).
Proof.
  intros B Hp. destruct v as [r|z| |]; try done. cbn.
  destruct (vreg_to_eclass st !! r) as [c|] eqn:E; [left; by apply (bt_regs _ _ B r)|].
  cbn. unfold is_i64. lia.
Qed.

Lemma value_to_enode_value st v ρ :
  reads ρ st → plain v → (∀ r, v = Register r → is_Some (vreg_to_eclass st !! r)) →
  value ρ (value_to_enode v (vreg_to_eclass st)) = operand env v.
Proof.
  intros R Hp Hv. destruct v as [r|z| |]; try done. cbn.
  destruct (Hv r eq_refl) as [c Hc]. rewrite Hc. by apply (rd_regs _ _ R).
Qed.

Lemma or_insert_lookup c v (m : gmap Z IRValue) c' v' :
  or_insert c v m !! c' = Some v' → m !! c' = Some v' ∨ (c' = c ∧ v' = v).
Proof.
  unfold or_insert. destruct (m !! c); [auto|]. intros [[<- <-]|[_ H]]%lookup_insert_Some; auto.
Qed.

(** The registers of the instruction are known. *)
Definition known (st : block_state) (i : IRInstr) : Prop :=
  ∀ r, r ∈ used_regs i → is_Some (vreg_to_eclass st !! r).

Lemma as_binop_used i op dst lhs rhs r :
  as_binop i = Some (op, dst, lhs, rhs) → lhs = Register r ∨ rhs = Register r → r ∈ used_regs i.
Proof.
  intros H Hr. destruct i; try done; cbn in H; injection H as <- <- <- <-;
    cbn [used_regs]; apply list_elem_of_omap; exists (Register r); (split; [|done]);
    (destruct Hr as [->| ->]; [by left|right; by left]).
Qed.

Lemma add_instr_operation st i op dst lhs rhs :
  as_binop i = Some (op, dst, lhs, rhs) →
  ∃ i1 i2 i3 eg,
    add_operation op (value_to_enode lhs (vreg_to_eclass st)) (value_to_enode rhs (vreg_to_eclass st))
      (bs_eg st) = (i1, i2, i3, eg) ∧
    let values := or_insert i2 rhs (or_insert i1 lhs (eclass_to_value st)) in
    add_instr st i =
      match as_register dst with
      | Some d => {| bs_eg := eg; vreg_to_eclass := <[d := i3]> (vreg_to_eclass st);
                     eclass_to_value := <[i3 := dst]> values |}
      | None => {| bs_eg := eg; vreg_to_eclass := vreg_to_eclass st; eclass_to_value := values |}
      end.
Proof.
  intros H. unfold add_instr, add_operation. rewrite H.
  destruct (add _ (bs_eg st)) as [i1 e1]. destruct (add _ e1) as [i2 e2]. destruct (add _ e2) as [i3 e3].
  by exists i1, i2, i3, e3.
Qed.

Lemma add_instr_built k st i :
  0 ≤ k → built k st → known st i → plain_instr i → holds env i → built (k + 3) (add_instr st i).
Proof using undef_i64.
  intros Hk B K P H. unfold plain_instr, holds in *.
  destruct (as_binop i) as [[[[op dst] lhs] rhs]|] eqn:E.
  2: { unfold add_instr. rewrite E. destruct B. split; auto with lia. }
  destruct P as [Pl Pr].
  assert (∀ r, lhs = Register r → is_Some (vreg_to_eclass st !! r)) as Kl.
  { intros r ->. apply K. eapply as_binop_used; [done|by left]. }
  assert (∀ r, rhs = Register r → is_Some (vreg_to_eclass st !! r)) as Kr.
  { intros r ->. apply K. eapply as_binop_used; [done|by right]. }
  destruct (add_instr_operation st i op dst lhs rhs E) as (i1 & i2 & i3 & eg & Eadd & ->).
  apply add_operation_spec in Eadd as (Hx & Hnext & I1 & I2 & I3 & W & N & X);
    [|apply B|apply B|by eapply value_to_enode_ok..]. pose proof (bt_next _ _ B) as Hcount.
  set (values := or_insert i2 rhs (or_insert i1 lhs (eclass_to_value st))).
  assert (∀ c v, values !! c = Some v → 0 ≤ c < next_id eg) as Hrange.
  { intros c v [[Hc|[-> ->]]%or_insert_lookup|[-> ->]]%or_insert_lookup; try done.
    pose proof (bt_values _ _ B _ _ Hc). lia. }
  assert (∀ r c, vreg_to_eclass st !! r = Some c → 0 ≤ c < next_id eg) as Hregs.
  { intros r c Hc. pose proof (bt_regs _ _ B _ _ Hc). lia. }
  assert (next_id eg ≤ SYNTHETIC → ∃ ρ,
    reads ρ {| bs_eg := eg; vreg_to_eclass := vreg_to_eclass st; eclass_to_value := values |} ∧
    ρ i3 = binop_value op (operand env lhs) (operand env rhs)) as Hρ.
  { intros HS. destruct (bt_reads _ _ B ltac:(lia)) as [ρ R].
    destruct (X ρ (rd_models _ _ R) HS) as (ρ' & A & M & V1 & V2 & V3).
    rewrite (value_to_enode_value st lhs ρ R Pl Kl) in V1, V3.
    rewrite (value_to_enode_value st rhs ρ R Pr Kr) in V2, V3.
    pose proof (reads_agree _ _ _ _ _ B R A M) as R'. exists ρ'. split; [|done].
    split; [apply R'..|]. cbn.
    intros c v [[Hc|[-> ->]]%or_insert_lookup|[-> ->]]%or_insert_lookup; try done.
    by apply (rd_values _ _ R'). }
  clear X. destruct (as_register dst) as [d|] eqn:Ed.
  - apply as_register_Some in Ed as ->. split; cbn; [done|done|lia|..].
    + intros r c [[<- <-]|[_ Hc]]%lookup_insert_Some; [done|by eapply Hregs].
    + intros c v [[<- <-]|[_ Hc]]%lookup_insert_Some; [done|by eapply Hrange].
    + intros HS. destruct (Hρ HS) as (ρ & R & V). rewrite <- H in V. exists ρ.
      split; cbn; [apply R..| |].
      * intros r c [[<- <-]|[_ Hc]]%lookup_insert_Some; [done|]. by apply (rd_regs _ _ R).
      * intros c v [[<- <-]|[_ Hc]]%lookup_insert_Some; [done|]. by apply (rd_values _ _ R).
  - split; cbn; [done|done|lia|done|done|]. intros HS. destruct (Hρ HS) as (ρ & R & _). by exists ρ.
Qed.

Lemma register_reg_dom st r r' :
  is_Some (vreg_to_eclass (register_reg st r) !! r') ↔ r' = r ∨ is_Some (vreg_to_eclass st !! r').
Proof.
  unfold register_reg. destruct (vreg_to_eclass st !! r) as [c|] eqn:E.
  - split; [auto|]. intros [->|]; [by rewrite E|done].
  - destruct (add _ _) as [c eg]. cbn. rewrite lookup_insert_is_Some.
    destruct (decide (r = r')); naive_solver.
Qed.

Lemma add_instr_dom st i r :
  is_Some (vreg_to_eclass st !! r) → is_Some (vreg_to_eclass (add_instr st i) !! r).
Proof.
  destruct (as_binop i) as [[[[op dst] lhs] rhs]|] eqn:E; [|unfold add_instr; by rewrite E].
  destruct (add_instr_operation st i op dst lhs rhs E) as (i1 & i2 & i3 & eg & _ & ->).
  intros H. destruct (as_register dst) as [d|]; [|done]. cbn. rewrite lookup_insert_is_Some.
  destruct (decide (d = r)); auto.
Qed.

Lemma register_regs_built regs :
  Forall (λ r, 0 ≤ r) regs →
  built (Z.of_nat (length regs)) (foldl register_reg empty_state regs) ∧
  ∀ r, r ∈ regs → is_Some (vreg_to_eclass (foldl register_reg empty_state regs) !! r).
Proof using env_i64 undef_i64.
  induction regs as [|r l IH] using rev_ind; [split; [apply empty_built|by intros ? ?%elem_of_nil]|].
  intros [Hl [Hr _]%Forall_cons]%Forall_app. destruct (IH Hl) as [B D].
  rewrite foldl_app, length_app. cbn. split.
  - rewrite Nat2Z.inj_add. apply register_reg_built; [lia|done|done].
  - intros r' [Hr'| ->%list_elem_of_singleton]%elem_of_app; rewrite register_reg_dom; auto.
Qed.

Lemma add_instrs_built k st code :
  0 ≤ k → built k st → (∀ i, i ∈ code → known st i) → Forall plain_instr code →
  Forall (holds env) code → built (k + 3 * Z.of_nat (length code)) (foldl add_instr st code).
Proof using undef_i64.
  revert k st. induction code as [|i code IH]; intros k st Hk B K Hplain Hholds; cbn [foldl length].
  { by replace (k + 3 * Z.of_nat 0) with k by lia. }
  apply Forall_cons in Hplain as [Hp Hplain], Hholds as [Hh Hholds].
  replace (k + 3 * Z.of_nat (S (length code))) with (k + 3 + 3 * Z.of_nat (length code)) by lia.
  apply IH; [lia| | |done|done].
  - apply add_instr_built; try done. apply K. by left.
  - intros j Hj r Hr. apply add_instr_dom, (K j); [by right|done].
Qed.

Lemma build_block_built regs code :
  Forall (λ r, 0 ≤ r) regs → (∀ i, i ∈ code → ∀ r, r ∈ used_regs i → r ∈ regs) →
  Forall plain_instr code → Forall (holds env) code →
  built (Z.of_nat (length regs) + 3 * Z.of_nat (length code)) (build_block regs code).
Proof using env_i64 undef_i64.
  intros Hregs Hused Hplain Hholds. destruct (register_regs_built regs Hregs) as [B D].
  apply add_instrs_built; [lia|done| |done|done]. intros i Hi r Hr. eauto.
Qed.

(** ** Writing back *)

Context (walk : EGraph → Z → list ENode)
  (walk_nodes : ∀ eg c n, n ∈ walk eg c → n ∈ class_nodes eg c) (cost_fn : ENode → Z).

Lemma extracted_value st ρ d n :
  wf (bs_eg st) → reads ρ st → (∀ r c, vreg_to_eclass st !! r = Some c → 0 ≤ c < next_id (bs_eg st)) →
  extracted cost_fn st (Register d) = Some n →
  node_ok (next_id (bs_eg st)) n ∧ value ρ n = env d.
Proof.
  intros W R Hr. unfold extracted. cbn. destruct (vreg_to_eclass st !! d) as [c|] eqn:E; [|done].
  cbn. intros. simplify_eq. pose proof (extract_elem cost_fn (bs_eg st) c W (Hr _ _ E)) as Hn.
  rewrite <- (rd_regs _ _ R d c E). apply (class_nodes_value undef ρ (bs_eg st) c _ W (rd_models _ _ R) Hn).
Qed.

#[local] Ltac write_back R W Hr st :=
  match goal with
  | |- context [extracted _ _ ?dst] =>
      destruct (as_register dst) as [d|] eqn:Ed;
      [apply as_register_Some in Ed as ->|unfold extracted; rewrite Ed; cbn; by rewrite ?Ed];
      destruct (extracted cost_fn st (Register d)) as [n|] eqn:En; [|by intros];
      destruct (extracted_value _ _ d n W R Hr En) as [Hok Hv]; intros H;
      destruct n as [v|c|op' a b| | | |]; cbn in Hok; try done
  end.

Lemma copied v : is_i64 v → binop_value Add v 0 = v ∧ binop_value Sub v 0 = v ∧
  binop_value Mul v 1 = v ∧ binop_value UDiv v 1 = v.
Proof.
  intros Hv. unfold EgraphSound.binop_value. cbn. change (wrap64 1) with 1.
  by rewrite Z.add_0_r, Z.sub_0_r, Z.mul_1_r, Z.div_1_r, as_i64_wrap64, !as_i64_small by done.
Qed.

Lemma rewrite_instr_holds st ρ i :
  wf (bs_eg st) → reads ρ st → (∀ r c, vreg_to_eclass st !! r = Some c → 0 ≤ c < next_id (bs_eg st)) →
  holds env i → holds env (rewrite_instr cost_fn st i).
Proof using env_i64.
  intros W R Hr. unfold holds at 2. destruct i; try done; cbn [rewrite_instr];
    write_back R W Hr st;
    try match goal with
    | |- context [eclass_to_value st !! ?c] =>
        destruct (eclass_to_value st !! c) as [w|] eqn:Ew; [|done];
        pose proof (rd_values _ _ R _ _ Ew) as Hw
    end; cbn [as_binop as_register operand] in *; cbn in Hv; rewrite <- ?Hv, <- ?Hw.
  all: try (symmetry; by apply copied).
  all: try (symmetry; apply copied, (m_i64 _ _ _ (rd_models _ _ R))).
  destruct (eclass_to_value st !! b) as [w'|] eqn:Ew'; [|exact H].
  pose proof (rd_values _ _ R _ _ Ew') as Hw'. cbn. by rewrite <- Hw', <- Hw.
Qed.

Lemma saturate_block_holds regs code :
  Forall (λ r, 0 ≤ r) regs → (∀ i, i ∈ code → ∀ r, r ∈ used_regs i → r ∈ regs) →
  Forall plain_instr code →
  Z.of_nat (length regs + 3 * length code) ≤ SYNTHETIC →
  Forall (holds env) code → Forall (holds env) (saturate_block walk cost_fn regs code).
Proof using env_i64 undef_i64 walk_nodes.
  intros Hregs Hused Hplain Hlen Hholds.
  pose proof (build_block_built regs code Hregs Hused Hplain Hholds) as B.
  assert (next_id (saturate (standard_rules walk) 10 (bs_eg (build_block regs code))) ≤ SYNTHETIC) as HS.
  { destruct (saturate_bound (standard_rules walk) (standard_rules_bounded walk walk_nodes)
      10 (bs_eg (build_block regs code)) (bt_wf _ _ B) (bt_exact _ _ B)) as [Hs _].
    pose proof (bt_next _ _ B) as Hcount. change (MAX_EGRAPH_NODES + 3) with 10003 in Hs. unfold SYNTHETIC in *. lia. }
  destruct (saturate_keeps undef (standard_rules walk) 10 (bs_eg (build_block regs code)))
    as (W & N & X); [by apply standard_rules_sound|apply B|].
  destruct (bt_reads _ _ B ltac:(lia)) as [ρ R].
  destruct (X ρ (rd_models _ _ R) HS) as (ρ' & A & M & _).
  pose proof (reads_agree _ _ _ _ _ B R A M) as R'.
  unfold saturate_block. rewrite Forall_fmap. eapply Forall_impl; [exact Hholds|].
  intros i Hi. apply (rewrite_instr_holds _ ρ'); [done|done| |done].
  intros r c Hc. pose proof (bt_regs _ _ B r c Hc). cbn. lia.
Qed.
End env.
End pass.

(** ** Properties *)

(** A walk of a class in the order of the debug text. *)
Definition sorted_walk (eg : EGraph) (c : Z) : list ENode := sort_le debug_le (elements (class_nodes eg c)).
Lemma sorted_walk_nodes eg c n : n ∈ sorted_walk eg c → n ∈ class_nodes eg c.
Proof. unfold sorted_walk. by rewrite elem_of_sort_le, elem_of_elements. Qed.

Definition no_undef : BinOpKind → Z → Z → Z := λ _ _ _, 0.
Lemma no_undef_i64 op l r : is_i64 (no_undef op l r).
Proof. unfold no_undef, is_i64. lia. Qed.

(** The parent links form a forest: [find] ends at a root, which is its own
    representative, and merging two classes joins exactly these two. *)
Theorem union_find_correct self a b x :
  wf self → 0 ≤ a < next_id self → 0 ≤ b < next_id self → 0 ≤ x < next_id self →
  is_root (parents self) (find self x) ∧ find self (find self x) = find self x ∧
  find (merge_no_rebuild a b self) x =
    (if decide (find self x = find self b) then find self a else find self x) ∧
  wf (merge_no_rebuild a b self).
Proof.
  intros W Ha Hb Hx. split; [by apply find_is_root|]. split; [by apply find_root, find_is_root|].
  split; [by apply find_merge_no_rebuild|by apply merge_no_rebuild_wf].
Qed.

(** C35. A pass of rebuilding that merges nothing leaves a graph where equal nodes, up to
    the representatives of their operands, are in one class; and rebuilding keeps the
    classes, the well-formedness and every model of the graph. *)
Theorem rebuild_correct undef self :
  wf self →
  ((rebuild_once self).2 = false → (rebuild_once self).1 = self ∧ congruent self) ∧
  wf (rebuild self) ∧ next_id (rebuild self) = next_id self ∧
  ∀ ρ, models undef ρ self → models undef ρ (rebuild self).
Proof.
  intros W. split; [apply rebuild_once_done|]. apply (rebuild_tracks undef self W).
Qed.

(** C12. Saturation with the standard rules is sound and bounded: a graph of literals,
    registers and operations with at most [SYNTHETIC] nodes ends with no more nodes than
    the cap and the three of the last rule (or than it had), and under some valuation that
    agrees with the given model on the classes so far, the node that is extracted for a
    class has the value of the class, whatever the costs. *)
Theorem saturation_sound undef walk cost_fn budget self ρ c :
  (∀ op l r, is_i64 (undef op l r)) → (∀ eg c n, n ∈ walk eg c → n ∈ class_nodes eg c) →
  wf self → exact self → next_id self ≤ SYNTHETIC → models undef ρ self → 0 ≤ c < next_id self →
  let self' := saturate (standard_rules walk) budget self in
  total_nodes self' ≤ Z.max (total_nodes self) (MAX_EGRAPH_NODES + 3) ∧
  ∃ ρ', (∀ d, 0 ≤ d < next_id self → ρ' d = ρ d) ∧ models undef ρ' self' ∧
    value undef ρ' (extract cost_fn self' c) = ρ c.
Proof.
  intros Hu Hw W X HS M Hc self'.
  destruct (saturate_bound _ (standard_rules_bounded walk Hw) budget self W X) as [Hb X'].
  fold self' in Hb, X'. split; [by rewrite (ex_count _ X'), (ex_count _ X)|].
  destruct (saturate_keeps undef _ budget self (standard_rules_sound undef Hu walk Hw) W) as (W' & N & K).
  fold self' in W', N, K. destruct (K ρ M) as (ρ' & A & M' & _).
  { change (MAX_EGRAPH_NODES + 3) with 10003 in Hb. unfold SYNTHETIC in *. lia. }
  exists ρ'. split; [intros d Hd; apply A; by left|]. split; [done|].
  rewrite <- (A c) by lia. apply (class_nodes_value undef ρ' self' c _ W' M').
  apply extract_elem; [done|lia].
Qed.


(** ** The gate and the audit on the standard rules *)

Lemma standard_rules_pass_gate walk :
  verify_rules_with_counterexample (name <$> standard_rules walk) = Ok tt.
Proof. rewrite gate_loop_spec. reflexivity. Qed.

Lemma saturate_standard walk budget eg :
  saturate (standard_rules walk) budget eg = (saturate_loop (standard_rules walk) budget eg []).1.
Proof.
  unfold saturate, saturate_with_proof. rewrite standard_rules_pass_gate.
  by destruct (saturate_loop _ _ _ _).
Qed.

Lemma log_standard walk budget eg :
  (saturate_with_proof (standard_rules walk) budget eg []).2 =
  (saturate_loop (standard_rules walk) budget eg []).2.
Proof.
  unfold saturate_with_proof. rewrite standard_rules_pass_gate. by destruct (saturate_loop _ _ _ _).
Qed.

(** The entries of standard rules get past the first check. *)
Lemma check_artifact_standard walk a log :
  rule_name a ∈ name <$> standard_rules walk →
  check_artifacts (verified_rules walk) (a :: log) =
  match structurally_validate_artifact a with
  | Some err => Some ("Rule '" +:+ rule_name a +:+ "' structurally invalid: " +:+ err)
  | None => check_artifacts (verified_rules walk) log
  end.
Proof.
  intros H. cbn [check_artifacts]. rewrite bool_decide_true; [done|].
  unfold verified_rules. apply elem_of_union_r, elem_of_list_to_set, H.
Qed.

Lemma extract_standard walk budget eg cost_fn c n :
  extract cost_fn (saturate_loop (standard_rules walk) budget eg []).1 c = n →
  extract cost_fn (saturate (standard_rules walk) budget eg) c = n.
Proof. by rewrite saturate_standard. Qed.

(** The rewritten block, past the gate. *)
Lemma saturate_block_standard walk cost_fn regs code code' :
  (let st := build_block regs code in
   rewrite_instr cost_fn {| bs_eg := (saturate_loop (standard_rules walk) 10 (bs_eg st) []).1;
     vreg_to_eclass := vreg_to_eclass st; eclass_to_value := eclass_to_value st |} <$> code) = code' →
  saturate_block walk cost_fn regs code = code'.
Proof. intros <-. unfold saturate_block. by rewrite saturate_standard. Qed.

(** ** Where the pass and its audit go wrong *)

(** The product of a literal zero, whose class is 1, and a register. *)
Definition zero_product : EGraph :=
  (add (BinOp Mul 1 0) (add (Lit 0) (add (VReg SYNTHETIC) EGraph_new).2).2).2.
Definition zero_product_log : ProofLog :=
  (saturate_with_proof (standard_rules sorted_walk) 1 zero_product []).2.
(** The product of a register, whose class is 0, and another one. *)
Definition wrong_artifact : ProofArtifact :=
  {| rule_name := "mul_zero_left"; pa_verified := true; source_class := 2;
     replacement := Lit 0; source := BinOp Mul 0 1 |}.

Definition infinity_bits : Z := 0x7FF0000000000000.
Definition address_sum : list IRInstr := [I_Add (Register 1) (Register 0) (Address 4096) (Some I64)].
Definition float_difference (v : IRValue) : list IRInstr := [I_Sub (Register 1) v v (Some F64)].


(** ** Examples *)

(** A register plus zero; the register has the class 0, the literal the class 1. *)
Definition plus_zero : EGraph :=
  (add (BinOp Add 0 1) (add (Lit 0) (add (VReg SYNTHETIC) EGraph_new).2).2).2.
Definition plus_zero_env (c : Z) : Z := if c =? 1 then 0 else 7.

Lemma plus_zero_graph :
  wf plus_zero ∧ exact plus_zero ∧ next_id plus_zero = 3 ∧ models no_undef plus_zero_env plus_zero.
Proof.
  assert (node_ok 0 (VReg SYNTHETIC)) as N1 by (right; done).
  assert (node_ok 1 (Lit 0)) as N2 by (unfold node_ok, is_i64; lia).
  assert (node_ok 2 (BinOp Add 0 1)) as N3 by (cbn; lia).
  assert (∀ c, is_i64 (plus_zero_env c)) as Hi.
  { intros c. unfold plus_zero_env, is_i64. destruct (_ =? _); lia. }
  assert (∀ self n, wf self → exact self → models no_undef plus_zero_env self →
    node_ok (next_id self) n → hashcons self !! n = None →
    plus_zero_env (next_id self) = value no_undef plus_zero_env n →
    wf (add n self).2 ∧ exact (add n self).2 ∧ models no_undef plus_zero_env (add n self).2) as Hadd.
  { intros self n W X M Hn Hfresh Hv. split; [by apply add_wf|]. split; [by apply add_exact|].
    by apply (models_new no_undef no_undef_i64 plus_zero_env); try apply agree_refl. }
  pose proof (EGraph_new_models no_undef plus_zero_env Hi) as M0.
  destruct (Hadd _ (VReg SYNTHETIC) EGraph_new_wf EGraph_new_exact M0 N1 eq_refl eq_refl) as (W1 & X1 & M1).
  destruct (Hadd _ (Lit 0) W1 X1 M1 N2 eq_refl eq_refl) as (W2 & X2 & M2).
  by destruct (Hadd _ (BinOp Add 0 1) W2 X2 M2 N3 eq_refl eq_refl) as (W3 & X3 & M3).
Qed.

Lemma union_find_correct_witness :
  find (merge_no_rebuild 2 0 plus_zero) 0 = 2 ∧ find (merge_no_rebuild 2 0 plus_zero) 1 = 1.
Proof.
  destruct plus_zero_graph as (W & _ & N & _). split.
  - destruct (union_find_correct plus_zero 2 0 0 W) as (_ & _ & H & _); [rewrite N; lia..|]. exact H.
  - destruct (union_find_correct plus_zero 2 0 1 W) as (_ & _ & H & _); [rewrite N; lia..|]. exact H.
Defined.

Lemma rebuild_correct_witness : congruent plus_zero ∧ wf (rebuild plus_zero).
Proof.
  destruct plus_zero_graph as (W & _). destruct (rebuild_correct no_undef plus_zero W) as (H & W' & _).
  split; [|exact W']. apply H. vm_compute. reflexivity.
Defined.

(** The sum is found to be the register. *)
Lemma saturation_sound_witness :
  (∃ ρ, value no_undef ρ (extract default_cost (saturate (standard_rules sorted_walk) 10 plus_zero) 2) = 7) ∧
  extract default_cost (saturate (standard_rules sorted_walk) 10 plus_zero) 2 = VReg 0.
Proof.
  split; [|apply extract_standard; vm_compute; reflexivity]. destruct plus_zero_graph as (W & X & N & M).
  destruct (saturation_sound no_undef sorted_walk default_cost 10 plus_zero plus_zero_env 2
    no_undef_i64 sorted_walk_nodes W X) as (_ & ρ & _ & _ & H);
    [rewrite N; done|exact M|rewrite N; lia|]. by exists ρ.
Defined.

Definition sample_block : list IRInstr :=
  [I_BinOp Mul (Register 1) (Register 0) (Immediate 2) (Some I64);
   I_BinOp Xor (Register 2) (Register 1) (Register 1) (Some I64)].
Definition sample_env (r : Z) : Z := if r =? 2 then 0 else if r =? 1 then 10 else 5.

