(* ===== verification/SyscallAbi.v ===== *)
(** * System-call numbers

    Models [src/src/codegen/src/syscall_abi.rs]: the names of the generic system-call
    numbers, the table of each target that numbers its calls in another way, and the
    translation a back end applies to the number of a system call.  A [match] on numbers is
    a list of its arms, in their order, looked up from the front. *)

From S2P Require Import Prelude.
From stdpp Require Import options.
#[local] Open Scope Z_scope.

(** ** Targets *)

Inductive BackendKind : Type :=
  | AArch64 | RiscV64 | Wasm32 | LoongArch64 | X86_64 | Arm32 | Mips64 | PowerPC64 | PowerPC64LE
  | RiscV32 | X86_32 | Sparc64 | S390X | Mips64Be | ArmEb | AArch64Be | M68k | Alpha | Hppa.
#[global] Instance BackendKind_eq_dec : EqDecision BackendKind.
Proof. solve_decision. Defined.

(** ** Tables *)

(** The value of the first arm for [k]. *)
Fixpoint arm {A} (k : Z) (arms : list (Z * A)) : option A :=
  match arms with
  | [] => None
  | (k', v) :: arms => if k =? k' then Some v else arm k arms
  end.

Definition vuma_generic_name (nr : Z) : option string :=
  arm nr [
    (17, "getcwd"); (49, "chdir"); (50, "fchdir"); (51, "chroot"); (19, "eventfd2");
    (74, "signalfd4"); (20, "epoll_create1"); (21, "epoll_ctl"); (22, "pipe"); (23, "dup");
    (24, "dup3"); (25, "fcntl"); (29, "ioctl"); (26, "inotify_init1");
    (27, "inotify_add_watch"); (28, "inotify_rm_watch"); (35, "unlinkat"); (36, "symlinkat");
    (37, "linkat"); (38, "renameat"); (46, "ftruncate"); (48, "faccessat"); (52, "fchmod");
    (53, "fchmodat"); (54, "fchownat"); (55, "fchown"); (56, "openat"); (57, "close");
    (59, "pipe2"); (62, "lseek"); (78, "readlinkat"); (79, "newfstatat"); (80, "fstat");
    (63, "read"); (64, "write"); (65, "readv"); (66, "writev"); (67, "pread"); (68, "pwrite");
    (69, "preadv"); (70, "pwritev"); (81, "sync"); (82, "fsync"); (83, "fdatasync");
    (85, "timerfd_create"); (86, "timerfd_settime"); (87, "timerfd_gettime"); (93, "exit");
    (94, "exit_group"); (95, "waitid"); (98, "futex"); (101, "nanosleep");
    (113, "clock_gettime"); (117, "ptrace"); (129, "kill"); (130, "tkill"); (131, "tgkill");
    (134, "rt_sigaction"); (135, "rt_sigprocmask"); (144, "setgid"); (146, "setuid");
    (147, "setresuid"); (149, "setresgid"); (153, "times"); (154, "setpgid"); (155, "getpgid");
    (156, "getsid"); (157, "setsid"); (163, "getrlimit"); (164, "setrlimit");
    (165, "getrusage"); (166, "umask"); (167, "prctl"); (169, "gettimeofday"); (172, "getpid");
    (173, "getppid"); (174, "getuid"); (175, "geteuid"); (176, "getgid"); (177, "getegid");
    (198, "socket"); (200, "bind"); (201, "listen"); (202, "accept"); (203, "connect");
    (205, "getpeername"); (206, "sendto"); (207, "recvfrom"); (208, "setsockopt");
    (209, "getsockopt"); (210, "shutdown"); (214, "brk"); (215, "munmap"); (216, "mremap");
    (220, "clone"); (221, "execve"); (222, "mmap"); (226, "mprotect"); (227, "msync");
    (228, "mlock"); (229, "munlock"); (230, "mlockall"); (231, "munlockall"); (232, "mincore");
    (233, "madvise"); (260, "wait4"); (261, "prlimit64"); (278, "getrandom");
    (281, "execveat"); (306, "syncfs"); (435, "clone3")].

Definition table_x86_64 : list (Z * Z) := [
    (17, 79); (49, 80); (50, 81); (51, 161); (19, 290); (74, 289); (20, 291); (21, 233);
    (22, 22); (23, 32); (24, 292); (25, 72); (124, 24); (29, 16); (26, 294); (27, 254);
    (28, 255); (35, 263); (36, 266); (37, 265); (38, 264); (46, 46); (48, 269); (52, 91);
    (53, 268); (54, 260); (55, 93); (56, 257); (57, 3); (59, 293); (62, 8); (73, 7); (78, 267);
    (79, 262); (80, 5); (63, 0); (64, 1); (65, 19); (66, 20); (67, 17); (68, 18); (69, 295);
    (70, 296); (81, 162); (82, 74); (83, 75); (85, 283); (86, 286); (87, 287); (93, 60);
    (94, 231); (98, 202); (101, 35); (113, 228); (117, 101); (129, 62); (130, 200); (131, 234);
    (134, 13); (135, 14); (144, 106); (146, 105); (147, 117); (149, 119); (153, 100);
    (154, 109); (155, 121); (156, 124); (157, 112); (163, 97); (164, 160); (165, 98);
    (166, 95); (167, 157); (169, 96); (172, 39); (173, 110); (174, 102); (175, 107);
    (176, 104); (177, 108); (198, 41); (200, 49); (201, 50); (202, 43); (203, 42); (205, 52);
    (206, 44); (207, 45); (208, 54); (209, 55); (210, 48); (214, 12); (215, 11); (216, 25);
    (220, 56); (221, 59); (222, 9); (226, 10); (227, 26); (228, 149); (229, 150); (230, 151);
    (231, 152); (232, 27); (233, 28); (260, 61); (261, 302); (278, 318); (281, 322);
    (306, 306); (435, 435)].
Definition translate_x86_64 (generic_nr : Z) : option Z := arm generic_nr table_x86_64.

Definition table_x86_32 : list (Z * Z) := [
    (17, 183); (49, 12); (50, 133); (51, 61); (19, 328); (74, 327); (23, 41); (24, 330);
    (25, 55); (29, 54); (26, 332); (27, 293); (28, 294); (35, 296); (36, 304); (37, 303);
    (38, 302); (46, 93); (48, 307); (52, 94); (53, 306); (54, 298); (55, 95); (56, 295);
    (57, 6); (59, 331); (7, 168); (62, 19); (78, 305); (79, 300); (80, 108); (63, 3); (64, 4);
    (65, 145); (66, 146); (67, 180); (68, 181); (69, 333); (70, 334); (81, 36); (82, 95);
    (83, 148); (85, 322); (86, 323); (87, 324); (93, 1); (94, 252); (98, 240); (101, 162);
    (113, 265); (117, 26); (129, 37); (130, 238); (131, 270); (134, 67); (135, 126); (144, 46);
    (146, 23); (147, 164); (149, 170); (153, 43); (154, 57); (155, 132); (156, 147); (157, 66);
    (160, 75); (167, 172); (163, 76); (164, 75); (165, 77); (166, 60); (169, 78); (172, 20);
    (173, 64); (174, 24); (175, 25); (176, 47); (177, 49); (198, 359); (200, 361); (201, 363);
    (202, 364); (203, 362); (206, 369); (207, 371); (208, 366); (209, 365); (214, 45);
    (215, 91); (216, 163); (220, 120); (221, 11); (222, 192); (226, 125); (227, 144);
    (228, 150); (229, 151); (230, 152); (231, 153); (232, 218); (233, 219); (260, 114);
    (277, 354); (261, 340); (278, 355); (281, 356); (306, 326); (435, 435)].
Definition translate_x86_32 (generic_nr : Z) : option Z := arm generic_nr table_x86_32.

Definition table_mips64 : list (Z * Z) := [
    (17, 5077); (19, 5284); (20, 5285); (21, 5208); (22, 5021); (23, 5031); (24, 5286);
    (25, 5070); (26, 5288); (27, 5244); (28, 5245); (29, 5015); (35, 5253); (36, 5256);
    (37, 5255); (38, 5254); (46, 5075); (48, 5259); (52, 5089); (53, 5258); (54, 5250);
    (55, 5091); (56, 5247); (57, 5003); (59, 5287); (61, 5308); (62, 5008); (63, 5000);
    (64, 5001); (65, 5018); (66, 5019); (67, 5016); (68, 5017); (69, 5289); (70, 5290);
    (72, 5052); (73, 5261); (78, 5257); (79, 5252); (80, 5005); (81, 5157); (82, 5072);
    (83, 5073); (85, 5280); (86, 5282); (87, 5281); (93, 5058); (94, 5205); (95, 5237);
    (98, 5194); (101, 5034); (113, 5222); (117, 5099); (124, 5023); (129, 5060); (130, 5192);
    (131, 5225); (134, 5013); (135, 5014); (144, 5104); (146, 5103); (147, 5115); (149, 5117);
    (153, 5098); (154, 5107); (155, 5119); (156, 5122); (157, 5110); (163, 5095); (164, 5155);
    (165, 5096); (166, 5093); (167, 5153); (169, 5094); (172, 5038); (173, 5108); (174, 5100);
    (175, 5105); (176, 5102); (177, 5106); (198, 5040); (200, 5048); (201, 5049); (202, 5042);
    (203, 5041); (206, 5043); (207, 5044); (208, 5053); (209, 5054); (210, 5047); (214, 5012);
    (215, 5011); (216, 5024); (220, 5055); (221, 5057); (222, 5009); (226, 5010); (227, 5025);
    (228, 5146); (229, 5147); (232, 5026); (233, 5027); (260, 5059); (261, 5297); (278, 5313);
    (281, 5316); (306, 5301); (435, 5435); (7, 5007)].
Definition translate_mips64 (generic_nr : Z) : option Z := arm generic_nr table_mips64.

Definition table_powerpc64 : list (Z * Z) := [
    (17, 182); (19, 314); (20, 315); (21, 237); (22, 42); (23, 41); (24, 316); (25, 55);
    (26, 318); (27, 276); (28, 277); (29, 54); (35, 292); (36, 295); (37, 294); (38, 293);
    (46, 93); (48, 298); (52, 94); (53, 297); (54, 289); (55, 95); (56, 286); (57, 6);
    (59, 317); (61, 202); (62, 19); (63, 3); (64, 4); (65, 145); (66, 146); (67, 179);
    (68, 180); (69, 320); (70, 321); (72, 333); (73, 281); (7, 167); (78, 296); (79, 291);
    (80, 108); (81, 36); (82, 118); (83, 148); (85, 306); (86, 311); (87, 312); (93, 1);
    (94, 234); (95, 272); (98, 221); (101, 162); (113, 246); (117, 26); (124, 158); (129, 37);
    (130, 208); (131, 250); (134, 173); (135, 174); (144, 46); (146, 23); (147, 164);
    (149, 169); (153, 43); (154, 57); (155, 132); (156, 147); (157, 66); (163, 76); (164, 75);
    (165, 77); (166, 60); (167, 171); (169, 78); (172, 20); (173, 64); (174, 24); (175, 49);
    (176, 47); (177, 50); (198, 326); (200, 327); (201, 329); (202, 330); (203, 328);
    (206, 335); (207, 337); (208, 339); (209, 340); (210, 338); (214, 45); (215, 91);
    (216, 163); (220, 120); (221, 11); (222, 90); (226, 125); (227, 144); (228, 150);
    (229, 151); (232, 206); (233, 205); (260, 114); (261, 325); (278, 359); (281, 362);
    (306, 348); (435, 435)].
Definition translate_powerpc64 (generic_nr : Z) : option Z := arm generic_nr table_powerpc64.

Definition table_s390x : list (Z * Z) := [
    (17, 183); (19, 323); (20, 327); (21, 250); (22, 42); (23, 41); (24, 326); (25, 55);
    (26, 324); (27, 285); (28, 286); (29, 54); (35, 294); (36, 297); (37, 296); (38, 295);
    (46, 93); (48, 300); (52, 94); (53, 299); (54, 291); (55, 207); (56, 288); (57, 6);
    (59, 325); (61, 220); (62, 19); (63, 3); (64, 4); (65, 145); (66, 146); (67, 180);
    (68, 181); (69, 328); (70, 329); (72, 360); (73, 302); (7, 8); (78, 298); (79, 293);
    (80, 108); (81, 36); (82, 118); (83, 148); (85, 319); (86, 320); (87, 321); (93, 1);
    (94, 248); (95, 281); (98, 238); (101, 162); (113, 260); (117, 26); (124, 158); (129, 37);
    (130, 237); (131, 241); (134, 174); (135, 175); (144, 214); (146, 213); (147, 208);
    (149, 210); (153, 43); (154, 57); (155, 132); (156, 147); (157, 66); (163, 191); (164, 75);
    (165, 77); (166, 60); (167, 172); (169, 78); (172, 20); (173, 64); (174, 199); (175, 201);
    (176, 200); (177, 202); (198, 359); (200, 361); (201, 363); (203, 362); (206, 369);
    (207, 371); (208, 366); (209, 365); (210, 373); (214, 45); (215, 91); (216, 163);
    (220, 120); (221, 11); (222, 90); (226, 125); (227, 144); (228, 150); (229, 151);
    (232, 218); (233, 219); (260, 114); (261, 334); (278, 349); (281, 354); (306, 338);
    (435, 435)].
Definition translate_s390x (generic_nr : Z) : option Z := arm generic_nr table_s390x.

Definition table_sparc64 : list (Z * Z) := [
    (17, 119); (19, 318); (20, 319); (21, 194); (22, 42); (23, 41); (24, 320); (25, 92);
    (26, 322); (27, 152); (28, 156); (29, 54); (35, 290); (36, 293); (37, 292); (38, 291);
    (46, 130); (48, 296); (52, 124); (53, 295); (54, 287); (55, 123); (56, 284); (57, 6);
    (61, 154); (62, 19); (63, 3); (64, 4); (65, 120); (66, 121); (67, 67); (68, 68); (69, 324);
    (70, 325); (72, 135); (73, 298); (78, 294); (79, 289); (80, 62); (81, 36); (82, 95);
    (83, 253); (85, 312); (86, 315); (87, 316); (93, 1); (94, 188); (95, 279); (98, 142);
    (101, 249); (113, 257); (117, 26); (124, 245); (129, 37); (130, 187); (131, 211);
    (134, 102); (135, 103); (144, 46); (146, 23); (147, 108); (149, 110); (153, 43);
    (154, 185); (155, 224); (156, 252); (157, 175); (163, 144); (164, 145); (165, 117);
    (166, 60); (169, 116); (172, 20); (173, 197); (174, 24); (175, 49); (176, 47); (177, 50);
    (198, 97); (200, 353); (201, 354); (202, 99); (203, 98); (206, 133); (207, 125);
    (208, 355); (209, 118); (210, 134); (214, 17); (215, 73); (216, 250); (220, 217);
    (221, 59); (222, 71); (226, 74); (227, 65); (228, 237); (229, 238); (232, 78); (233, 75);
    (260, 7); (261, 331); (278, 347); (281, 350); (306, 335); (59, 42); (7, 153)].
Definition translate_sparc64 (generic_nr : Z) : option Z := arm generic_nr table_sparc64.

Definition table_alpha : list (Z * Z) := [
    (17, 367); (19, 485); (20, 486); (21, 408); (22, 42); (23, 41); (24, 487); (25, 92);
    (26, 489); (27, 445); (28, 446); (29, 54); (35, 456); (36, 459); (37, 458); (38, 457);
    (46, 130); (48, 462); (52, 124); (53, 461); (54, 453); (55, 123); (56, 450); (57, 6);
    (59, 488); (61, 377); (62, 19); (63, 3); (64, 4); (65, 120); (66, 121); (67, 349);
    (68, 350); (69, 490); (70, 491); (72, 135); (73, 464); (78, 460); (79, 455); (80, 91);
    (81, 36); (82, 95); (83, 447); (85, 481); (86, 482); (87, 483); (93, 1); (94, 405);
    (95, 438); (98, 394); (101, 340); (113, 420); (117, 26); (124, 334); (129, 37); (130, 381);
    (131, 424); (134, 352); (135, 353); (144, 132); (146, 23); (147, 343); (149, 371);
    (153, 323); (154, 39); (155, 233); (156, 234); (157, 147); (163, 144); (164, 145);
    (165, 364); (166, 60); (167, 348); (169, 359); (172, 20); (173, 532); (174, 24);
    (175, 531); (176, 47); (177, 530); (198, 97); (200, 104); (201, 106); (202, 99); (203, 98);
    (206, 133); (207, 125); (208, 105); (209, 118); (210, 134); (214, 17); (215, 73);
    (216, 341); (220, 312); (221, 59); (222, 71); (226, 74); (227, 217); (228, 314);
    (229, 315); (232, 375); (233, 75); (260, 365); (261, 496); (278, 511); (281, 513);
    (306, 500); (435, 545); (7, 94)].
Definition translate_alpha (generic_nr : Z) : option Z := arm generic_nr table_alpha.

Definition table_hppa : list (Z * Z) := [
    (17, 110); (19, 310); (20, 311); (21, 225); (22, 42); (23, 41); (24, 312); (25, 55);
    (26, 314); (27, 270); (28, 271); (29, 54); (35, 281); (36, 284); (37, 283); (38, 282);
    (46, 93); (48, 287); (52, 94); (53, 286); (54, 278); (55, 95); (56, 275); (57, 6);
    (59, 313); (61, 201); (62, 19); (63, 3); (64, 4); (65, 145); (66, 146); (67, 108);
    (68, 109); (69, 315); (70, 316); (72, 56); (73, 274); (78, 285); (79, 280); (80, 28);
    (81, 36); (82, 118); (83, 148); (85, 306); (86, 307); (87, 308); (93, 1); (94, 222);
    (95, 235); (98, 210); (101, 162); (113, 256); (117, 26); (124, 158); (129, 37); (130, 208);
    (131, 259); (134, 174); (135, 175); (144, 46); (146, 23); (147, 164); (149, 170);
    (153, 43); (154, 57); (155, 132); (156, 147); (157, 66); (163, 76); (164, 75); (165, 77);
    (166, 60); (167, 172); (169, 78); (172, 20); (173, 64); (174, 24); (175, 49); (176, 47);
    (177, 50); (198, 17); (200, 22); (201, 32); (202, 35); (203, 31); (206, 82); (207, 123);
    (208, 181); (209, 182); (210, 117); (214, 45); (215, 91); (216, 163); (220, 120);
    (221, 11); (226, 125); (227, 144); (228, 150); (229, 151); (232, 72); (233, 119);
    (260, 114); (261, 321); (278, 339); (281, 342); (306, 327); (435, 435); (7, 168)].
Definition translate_hppa (generic_nr : Z) : option Z := arm generic_nr table_hppa.

Definition table_m68k : list (Z * Z) := [
    (17, 183); (19, 324); (20, 325); (21, 250); (22, 42); (23, 41); (24, 326); (25, 55);
    (26, 328); (27, 285); (28, 286); (29, 54); (35, 294); (36, 297); (37, 296); (38, 295);
    (46, 93); (48, 300); (52, 94); (53, 299); (54, 291); (55, 95); (56, 288); (57, 6);
    (59, 327); (61, 220); (62, 19); (63, 3); (64, 4); (65, 145); (66, 146); (67, 180);
    (68, 181); (69, 329); (70, 330); (7, 168); (72, 357); (73, 302); (78, 298); (79, 293);
    (80, 108); (81, 36); (82, 118); (83, 148); (85, 318); (86, 321); (87, 322); (93, 1);
    (94, 247); (95, 277); (98, 235); (101, 162); (113, 260); (117, 26); (124, 158); (129, 37);
    (130, 222); (131, 265); (134, 174); (135, 175); (144, 46); (146, 23); (147, 164);
    (149, 170); (153, 43); (154, 57); (155, 132); (156, 147); (157, 66); (163, 76); (164, 75);
    (165, 77); (166, 60); (167, 172); (169, 78); (172, 20); (173, 64); (174, 24); (175, 49);
    (176, 47); (177, 50); (198, 356); (200, 358); (201, 360); (203, 359); (206, 366);
    (207, 368); (208, 363); (209, 362); (210, 370); (214, 45); (215, 91); (216, 163);
    (220, 120); (221, 11); (222, 192); (226, 125); (227, 144); (228, 150); (229, 151);
    (232, 237); (233, 238); (260, 114); (261, 339); (278, 352); (281, 355); (306, 343);
    (435, 435)].
Definition translate_m68k (generic_nr : Z) : option Z := arm generic_nr table_m68k.

(** A number without an arm passes through. *)
Definition table_arm32 : list (Z * Z) := [
    (63, 3); (64, 4); (57, 6); (56, 322); (22, 22); (59, 359); (25, 55); (93, 1); (94, 248);
    (172, 20); (173, 64); (220, 120); (260, 114); (129, 37); (222, 192); (215, 91); (226, 125);
    (214, 45); (101, 162); (7, 168); (73, 336); (163, 75); (164, 76); (165, 77); (198, 281);
    (203, 283); (205, 287); (206, 295); (207, 296); (200, 285); (201, 284); (202, 286);
    (199, 280); (167, 172); (78, 79); (79, 80)].
Definition translate_arm32 (generic_nr : Z) : option Z :=
  Some (default generic_nr (arm generic_nr table_arm32)).

(** ** Translation *)

Definition translate (backend : BackendKind) (generic_nr : Z) : option Z :=
  match backend with
  | AArch64 | RiscV64 | RiscV32 | LoongArch64 => Some generic_nr
  | Arm32 => translate_arm32 generic_nr
  | Wasm32 => None
  | X86_64 => translate_x86_64 generic_nr
  | X86_32 => translate_x86_32 generic_nr
  | Mips64 => translate_mips64 generic_nr
  | PowerPC64 => translate_powerpc64 generic_nr
  | S390X => translate_s390x generic_nr
  | Sparc64 => translate_sparc64 generic_nr
  | Alpha => translate_alpha generic_nr
  | Hppa => translate_hppa generic_nr
  | M68k => translate_m68k generic_nr
  | AArch64Be => Some generic_nr
  | ArmEb => translate_arm32 generic_nr
  | Mips64Be => translate_mips64 generic_nr
  | PowerPC64LE => translate_powerpc64 generic_nr
  end.

(** The warning about an unknown number goes to the log. *)
Definition translate_or_warn (backend : BackendKind) (generic_nr : Z) : Z :=
  default generic_nr (translate backend generic_nr).

(** ** Specification *)

(** The targets whose native numbers are the generic ones. *)
Definition native_generic (backend : BackendKind) : bool :=
  match backend with
  | AArch64 | AArch64Be | RiscV64 | RiscV32 | LoongArch64 => true
  | _ => false
  end.

(** The calls that a target gives one native number. *)
Definition merged (backend : BackendKind) : list (Z * Z) :=
  match backend with
  | X86_32 => [(160, 164); (55, 82)]
  | Sparc64 => [(22, 59)]
  | _ => []
  end.

(** ** Lookup *)

Lemma arm_Some {A} k (v : A) arms : arm k arms = Some v → (k, v) ∈ arms.
Proof.
  induction arms as [|[k' v'] arms IH]; [done|]. cbn [arm].
  destruct (Z.eqb_spec k k') as [<-|]; [intros [= ->]; left|right; auto].
Qed.

(** The pairs of keys that a table sends to one value. *)
Definition collisions (table : list (Z * Z)) : list (Z * Z) :=
  table ≫= λ p, omap (λ q, if (p.1 <? q.1) && (p.2 =? q.2) then Some (p.1, q.1) else None) table.

Lemma elem_of_collisions table x y n :
  (x, n) ∈ table → (y, n) ∈ table → x < y → (x, y) ∈ collisions table.
Proof.
  intros Hx Hy H. unfold collisions. apply list_elem_of_bind. exists (x, n). split; [|done].
  apply list_elem_of_omap. exists (y, n). split; [done|]. cbn.
  by rewrite (proj2 (Z.ltb_lt _ _) H), Z.eqb_refl.
Qed.

Lemma collisions_spec table x y n :
  arm x table = Some n → arm y table = Some n →
  x = y ∨ (x, y) ∈ collisions table ∨ (y, x) ∈ collisions table.
Proof.
  intros Hx%arm_Some Hy%arm_Some.
  destruct (Z.lt_trichotomy x y) as [H|[H|H]]; [right; left|by left|right; right];
    by eapply elem_of_collisions.
Qed.

(** The table of a target that has one; its collisions are the merged calls. *)
Definition table_of (backend : BackendKind) : list (Z * Z) :=
  match backend with
  | X86_64 => table_x86_64 | X86_32 => table_x86_32 | Mips64 | Mips64Be => table_mips64
  | PowerPC64 | PowerPC64LE => table_powerpc64 | S390X => table_s390x | Sparc64 => table_sparc64
  | Alpha => table_alpha | Hppa => table_hppa | M68k => table_m68k | _ => []
  end.

Lemma collisions_merged backend : collisions (table_of backend) ⊆ merged backend.
Proof. destruct backend; apply (bool_decide_eq_true_1 _); by vm_compute. Qed.

Lemma translate_table backend x :
  backend ≠ Arm32 → backend ≠ ArmEb → native_generic backend = false →
  translate backend x = arm x (table_of backend).
Proof. by destruct backend. Qed.

Lemma merged_equal backend : Forall (λ p, translate backend p.1 = translate backend p.2) (merged backend).
Proof. destruct backend; repeat constructor. Qed.

(** ** Theorems *)

(** Translation keeps system calls apart: on every target but the 32-bit ARMs, two
    generic numbers that become the same native number are the same, or one of the listed
    pairs, which do become the same number; the targets that number like the generic table
    are not translated at all; and a translated number is the one that is emitted. *)
Theorem translate_distinct backend x y n :
  backend ≠ Arm32 → backend ≠ ArmEb →
  translate backend x = Some n → translate backend y = Some n →
  (x = y ∨ (x, y) ∈ merged backend ∨ (y, x) ∈ merged backend) ∧
  (∀ p, p ∈ merged backend → translate backend p.1 = translate backend p.2) ∧
  (native_generic backend = true → n = x) ∧
  translate_or_warn backend x = n.
Proof.
  intros H1 H2 Hx Hy. split_and!.
  - destruct (native_generic backend) eqn:E.
    + left. destruct backend; cbn in *; congruence.
    + rewrite translate_table in Hx, Hy by done. pose proof (collisions_merged backend).
      destruct (collisions_spec _ x y n Hx Hy) as [?|[?|?]]; set_solver.
  - by apply Forall_forall, merged_equal.
  - intros H. destruct backend; cbn [translate native_generic] in *; congruence.
  - unfold translate_or_warn. by rewrite Hx.
Qed.

Lemma translate_distinct_witness : translate_or_warn X86_64 64 = 1.
Proof.
  by destruct (translate_distinct X86_64 64 64 1 ltac:(done) ltac:(done) ltac:(done) ltac:(done))
    as (_ & _ & _ & E).
Defined.

(** On 32-bit ARM a number without an arm passes through, so that the native number of a
    call, where it has no arm of its own, is taken for that call. *)
Lemma translate_arm32_passes k n :
  arm k table_arm32 = Some n → arm n table_arm32 = None →
  translate Arm32 n = translate Arm32 k.
Proof. cbn [translate]. unfold translate_arm32. by intros -> ->. Qed.
Lemma translate_arm32_read : translate Arm32 3 = translate Arm32 63.
Proof. by apply (translate_arm32_passes 63 3). Qed.
