(* ===== verification/Riscv.v ===== *)
(** * RISC-V instructions and their encoding

    Models the first part of [src/src/codegen/src/riscv64/mod.rs]: the registers, the
    instruction type, the encoders of the instruction formats, [Instruction::encode] and
    [Instruction::decode].  A machine word is a [Z], its bytes a list.  An operand of type
    [i32] or [u32] is the integer it denotes. *)

From S2P Require Import Prelude.
From stdpp Require Import options.
#[local] Open Scope Z_scope.

(** ** Registers *)

Inductive Gpr : Type :=
  | Zero | Ra | Sp | Gp | Tp | T0 | T1 | T2 | S0 | S1 | A0 | A1 | A2 | A3 | A4 | A5 | A6 | A7
  | S2 | S3 | S4 | S5 | S6 | S7 | S8 | S9 | S10 | S11 | T3 | T4 | T5 | T6.

Inductive Fpr : Type :=
  | F0 | F1 | F2 | F3 | F4 | F5 | F6 | F7 | F8 | F9 | F10 | F11 | F12 | F13 | F14 | F15 | F16
  | F17 | F18 | F19 | F20 | F21 | F22 | F23 | F24 | F25 | F26 | F27 | F28 | F29 | F30 | F31.

#[export] Instance Gpr_eq_dec : EqDecision Gpr.
Proof. solve_decision. Defined.
#[export] Instance Fpr_eq_dec : EqDecision Fpr.
Proof. solve_decision. Defined.

Definition Gpr_encoding (self : Gpr) : Z :=
  match self with
  | Zero => 0 | Ra => 1 | Sp => 2 | Gp => 3 | Tp => 4 | T0 => 5 | T1 => 6 | T2 => 7 | S0 => 8
  | S1 => 9 | A0 => 10 | A1 => 11 | A2 => 12 | A3 => 13 | A4 => 14 | A5 => 15 | A6 => 16
  | A7 => 17 | S2 => 18 | S3 => 19 | S4 => 20 | S5 => 21 | S6 => 22 | S7 => 23 | S8 => 24
  | S9 => 25 | S10 => 26 | S11 => 27 | T3 => 28 | T4 => 29 | T5 => 30 | T6 => 31
  end.

Definition Fpr_encoding (self : Fpr) : Z :=
  match self with
  | F0 => 0 | F1 => 1 | F2 => 2 | F3 => 3 | F4 => 4 | F5 => 5 | F6 => 6 | F7 => 7 | F8 => 8
  | F9 => 9 | F10 => 10 | F11 => 11 | F12 => 12 | F13 => 13 | F14 => 14 | F15 => 15 | F16 => 16
  | F17 => 17 | F18 => 18 | F19 => 19 | F20 => 20 | F21 => 21 | F22 => 22 | F23 => 23
  | F24 => 24 | F25 => 25 | F26 => 26 | F27 => 27 | F28 => 28 | F29 => 29 | F30 => 30
  | F31 => 31
  end.

Definition Gpr_from_encoding (idx : Z) : option Gpr :=
  match idx with
  | 0 => Some Zero | 1 => Some Ra | 2 => Some Sp | 3 => Some Gp | 4 => Some Tp | 5 => Some T0
  | 6 => Some T1 | 7 => Some T2 | 8 => Some S0 | 9 => Some S1 | 10 => Some A0 | 11 => Some A1
  | 12 => Some A2 | 13 => Some A3 | 14 => Some A4 | 15 => Some A5 | 16 => Some A6
  | 17 => Some A7 | 18 => Some S2 | 19 => Some S3 | 20 => Some S4 | 21 => Some S5
  | 22 => Some S6 | 23 => Some S7 | 24 => Some S8 | 25 => Some S9 | 26 => Some S10
  | 27 => Some S11 | 28 => Some T3 | 29 => Some T4 | 30 => Some T5 | 31 => Some T6
  | _ => None
  end.

Definition Fpr_from_encoding (idx : Z) : option Fpr :=
  match idx with
  | 0 => Some F0 | 1 => Some F1 | 2 => Some F2 | 3 => Some F3 | 4 => Some F4 | 5 => Some F5
  | 6 => Some F6 | 7 => Some F7 | 8 => Some F8 | 9 => Some F9 | 10 => Some F10 | 11 => Some F11
  | 12 => Some F12 | 13 => Some F13 | 14 => Some F14 | 15 => Some F15 | 16 => Some F16
  | 17 => Some F17 | 18 => Some F18 | 19 => Some F19 | 20 => Some F20 | 21 => Some F21
  | 22 => Some F22 | 23 => Some F23 | 24 => Some F24 | 25 => Some F25 | 26 => Some F26
  | 27 => Some F27 | 28 => Some F28 | 29 => Some F29 | 30 => Some F30 | 31 => Some F31
  | _ => None
  end.

Definition is_allocatable (self : Gpr) : bool :=
  match self with Zero | Sp | Gp | Tp => false | _ => true end.
Definition is_callee_saved (self : Gpr) : bool :=
  match self with
  | S0 | S1 | S2 | S3 | S4 | S5 | S6 | S7 | S8 | S9 | S10 | S11 => true
  | _ => false
  end.
Definition is_arg_reg (self : Gpr) : bool :=
  match self with A0 | A1 | A2 | A3 | A4 | A5 | A6 | A7 => true | _ => false end.
Definition arg_register (index : Z) : option Gpr :=
  match index with
  | 0 => Some A0 | 1 => Some A1 | 2 => Some A2 | 3 => Some A3
  | 4 => Some A4 | 5 => Some A5 | 6 => Some A6 | 7 => Some A7
  | _ => None
  end.

(** ** Instruction formats *)

Definition OP_LUI : Z := 0x37.
Definition OP_AUIPC : Z := 0x17.
Definition OP_JAL : Z := 0x6F.
Definition OP_JALR : Z := 0x67.
Definition OP_BRANCH : Z := 0x63.
Definition OP_LOAD : Z := 0x03.
Definition OP_STORE : Z := 0x23.
Definition OP_IMM : Z := 0x13.
Definition OP_REG : Z := 0x33.
Definition OP_IMM32 : Z := 0x1B.
Definition OP_REG32 : Z := 0x3B.
Definition OP_SYSTEM : Z := 0x73.
Definition OP_MISC_MEM : Z := 0x0F.
Definition OP_FP : Z := 0x53.
Definition OP_LOAD_FP : Z := 0x07.
Definition OP_STORE_FP : Z := 0x27.

(** [u32::to_le_bytes] and [u32::from_le_bytes]. *)
Definition to_le_bytes (word : Z) : list Z :=
  [word `mod` 256; (word / 256) `mod` 256; (word / 65536) `mod` 256; (word / 16777216) `mod` 256].
Definition from_le_bytes (l : list Z) : Z := foldr (λ b w, b + 256 * w) 0 l.

Definition encode_r_type (funct7 rs2 rs1 funct3 rd opcode : Z) : list Z :=
  let word := Z.lor (Z.lor (Z.lor (Z.lor (Z.lor
    (Z.shiftl (Z.land funct7 0x7F) 25)
    (Z.shiftl (Z.land rs2 0x1F) 20))
    (Z.shiftl (Z.land rs1 0x1F) 15))
    (Z.shiftl (Z.land funct3 0x7) 12))
    (Z.shiftl (Z.land rd 0x1F) 7))
    (Z.land opcode 0x7F) in
  to_le_bytes word.

Definition encode_i_type (imm rs1 funct3 rd opcode : Z) : list Z :=
  let word := Z.lor (Z.lor (Z.lor (Z.lor
    (Z.shiftl (Z.land imm 0xFFF) 20)
    (Z.shiftl (Z.land rs1 0x1F) 15))
    (Z.shiftl (Z.land funct3 0x7) 12))
    (Z.shiftl (Z.land rd 0x1F) 7))
    (Z.land opcode 0x7F) in
  to_le_bytes word.

Definition encode_s_type (imm rs2 rs1 funct3 opcode : Z) : list Z :=
  let imm_lo := Z.land imm 0x1F in
  let imm_hi := Z.land (Z.shiftr imm 5) 0x7F in
  let word := Z.lor (Z.lor (Z.lor (Z.lor (Z.lor
    (Z.shiftl imm_hi 25)
    (Z.shiftl (Z.land rs2 0x1F) 20))
    (Z.shiftl (Z.land rs1 0x1F) 15))
    (Z.shiftl (Z.land funct3 0x7) 12))
    (Z.shiftl imm_lo 7))
    (Z.land opcode 0x7F) in
  to_le_bytes word.

Definition encode_b_type (imm rs2 rs1 funct3 opcode : Z) : list Z :=
  let imm_u := wrap32 imm in
  let word := Z.lor (Z.lor (Z.lor (Z.lor (Z.lor (Z.lor (Z.lor
    (Z.shiftl (Z.land (Z.shiftr imm_u 12) 0x1) 31)
    (Z.shiftl (Z.land (Z.shiftr imm_u 5) 0x3F) 25))
    (Z.shiftl (Z.land rs2 0x1F) 20))
    (Z.shiftl (Z.land rs1 0x1F) 15))
    (Z.shiftl (Z.land funct3 0x7) 12))
    (Z.shiftl (Z.land (Z.shiftr imm_u 1) 0xF) 8))
    (Z.shiftl (Z.land (Z.shiftr imm_u 11) 0x1) 7))
    (Z.land opcode 0x7F) in
  to_le_bytes word.

Definition encode_u_type (imm rd opcode : Z) : list Z :=
  let word := Z.lor (Z.lor
    (Z.land imm 0xFFFFF000) (Z.shiftl (Z.land rd 0x1F) 7)) (Z.land opcode 0x7F) in
  to_le_bytes word.

Definition encode_j_type (imm rd opcode : Z) : list Z :=
  let imm_u := wrap32 imm in
  let word := Z.lor (Z.lor (Z.lor (Z.lor (Z.lor
    (Z.shiftl (Z.land (Z.shiftr imm_u 20) 0x1) 31)
    (Z.shiftl (Z.land (Z.shiftr imm_u 1) 0x3FF) 21))
    (Z.shiftl (Z.land (Z.shiftr imm_u 11) 0x1) 20))
    (Z.shiftl (Z.land (Z.shiftr imm_u 12) 0xFF) 12))
    (Z.shiftl (Z.land rd 0x1F) 7))
    (Z.land opcode 0x7F) in
  to_le_bytes word.

(** ** Instructions *)

Module Instruction.

Inductive Instruction : Type :=
  | Lui (rd : Gpr) (imm : Z)
  | Auipc (rd : Gpr) (imm : Z)
  | Jal (rd : Gpr) (offset : Z)
  | Jalr (rd rs1 : Gpr) (imm : Z)
  | Beq (rs1 rs2 : Gpr) (offset : Z)
  | Bne (rs1 rs2 : Gpr) (offset : Z)
  | Blt (rs1 rs2 : Gpr) (offset : Z)
  | Bge (rs1 rs2 : Gpr) (offset : Z)
  | Bltu (rs1 rs2 : Gpr) (offset : Z)
  | Bgeu (rs1 rs2 : Gpr) (offset : Z)
  | Lb (rd rs1 : Gpr) (imm : Z)
  | Lh (rd rs1 : Gpr) (imm : Z)
  | Lw (rd rs1 : Gpr) (imm : Z)
  | Ld (rd rs1 : Gpr) (imm : Z)
  | Lbu (rd rs1 : Gpr) (imm : Z)
  | Lhu (rd rs1 : Gpr) (imm : Z)
  | Lwu (rd rs1 : Gpr) (imm : Z)
  | Sb (rs1 rs2 : Gpr) (imm : Z)
  | Sh (rs1 rs2 : Gpr) (imm : Z)
  | Sw (rs1 rs2 : Gpr) (imm : Z)
  | Sd (rs1 rs2 : Gpr) (imm : Z)
  | Addi (rd rs1 : Gpr) (imm : Z)
  | Slti (rd rs1 : Gpr) (imm : Z)
  | Sltiu (rd rs1 : Gpr) (imm : Z)
  | Xori (rd rs1 : Gpr) (imm : Z)
  | Ori (rd rs1 : Gpr) (imm : Z)
  | Andi (rd rs1 : Gpr) (imm : Z)
  | Slli (rd rs1 : Gpr) (shamt : Z)
  | Srli (rd rs1 : Gpr) (shamt : Z)
  | Srai (rd rs1 : Gpr) (shamt : Z)
  | Add (rd rs1 rs2 : Gpr)
  | Sub (rd rs1 rs2 : Gpr)
  | Sll (rd rs1 rs2 : Gpr)
  | Slt (rd rs1 rs2 : Gpr)
  | Sltu (rd rs1 rs2 : Gpr)
  | Xor (rd rs1 rs2 : Gpr)
  | Srl (rd rs1 rs2 : Gpr)
  | Sra (rd rs1 rs2 : Gpr)
  | Or (rd rs1 rs2 : Gpr)
  | And (rd rs1 rs2 : Gpr)
  | Addw (rd rs1 rs2 : Gpr)
  | Subw (rd rs1 rs2 : Gpr)
  | Sllw (rd rs1 rs2 : Gpr)
  | Srlw (rd rs1 rs2 : Gpr)
  | Sraw (rd rs1 rs2 : Gpr)
  | Addiw (rd rs1 : Gpr) (imm : Z)
  | Slliw (rd rs1 : Gpr) (shamt : Z)
  | Srliw (rd rs1 : Gpr) (shamt : Z)
  | Sraiw (rd rs1 : Gpr) (shamt : Z)
  | Mul (rd rs1 rs2 : Gpr)
  | Mulh (rd rs1 rs2 : Gpr)
  | Mulhsu (rd rs1 rs2 : Gpr)
  | Mulhu (rd rs1 rs2 : Gpr)
  | Div (rd rs1 rs2 : Gpr)
  | Divu (rd rs1 rs2 : Gpr)
  | Rem (rd rs1 rs2 : Gpr)
  | Remu (rd rs1 rs2 : Gpr)
  | Flw (rd : Fpr) (rs1 : Gpr) (imm : Z)
  | Fld (rd : Fpr) (rs1 : Gpr) (imm : Z)
  | Fsw (rs1 : Gpr) (rs2 : Fpr) (imm : Z)
  | Fsd (rs1 : Gpr) (rs2 : Fpr) (imm : Z)
  | FaddD (rd rs1 rs2 : Fpr)
  | FsubD (rd rs1 rs2 : Fpr)
  | FmulD (rd rs1 rs2 : Fpr)
  | FdivD (rd rs1 rs2 : Fpr)
  | FmvD (rd rs1 : Fpr)
  | FaddS (rd rs1 rs2 : Fpr)
  | FsubS (rd rs1 rs2 : Fpr)
  | FmulS (rd rs1 rs2 : Fpr)
  | FdivS (rd rs1 rs2 : Fpr)
  | FsqrtS (rd rs1 : Fpr)
  | FminS (rd rs1 rs2 : Fpr)
  | FmaxS (rd rs1 rs2 : Fpr)
  | FsgnjS (rd rs1 rs2 : Fpr)
  | FsgnjnS (rd rs1 rs2 : Fpr)
  | FsgnjxS (rd rs1 rs2 : Fpr)
  | FclassS (rd : Gpr) (rs1 : Fpr)
  | FmvS (rd rs1 : Fpr)
  | FsqrtD (rd rs1 : Fpr)
  | FminD (rd rs1 rs2 : Fpr)
  | FmaxD (rd rs1 rs2 : Fpr)
  | FsgnjD (rd rs1 rs2 : Fpr)
  | FsgnjnD (rd rs1 rs2 : Fpr)
  | FsgnjxD (rd rs1 rs2 : Fpr)
  | FclassD (rd : Gpr) (rs1 : Fpr)
  | FeqD (rd : Gpr) (rs1 rs2 : Fpr)
  | FltD (rd : Gpr) (rs1 rs2 : Fpr)
  | FleD (rd : Gpr) (rs1 rs2 : Fpr)
  | FeqS (rd : Gpr) (rs1 rs2 : Fpr)
  | FltS (rd : Gpr) (rs1 rs2 : Fpr)
  | FleS (rd : Gpr) (rs1 rs2 : Fpr)
  | FcvtSW (rd : Fpr) (rs1 : Gpr)
  | FcvtSWU (rd : Fpr) (rs1 : Gpr)
  | FcvtSL (rd : Fpr) (rs1 : Gpr)
  | FcvtSLU (rd : Fpr) (rs1 : Gpr)
  | FcvtDW (rd : Fpr) (rs1 : Gpr)
  | FcvtDWU (rd : Fpr) (rs1 : Gpr)
  | FcvtDL (rd : Fpr) (rs1 : Gpr)
  | FcvtDLU (rd : Fpr) (rs1 : Gpr)
  | FcvtWS (rd : Gpr) (rs1 : Fpr)
  | FcvtWUS (rd : Gpr) (rs1 : Fpr)
  | FcvtLS (rd : Gpr) (rs1 : Fpr)
  | FcvtLUS (rd : Gpr) (rs1 : Fpr)
  | FcvtWD (rd : Gpr) (rs1 : Fpr)
  | FcvtWUD (rd : Gpr) (rs1 : Fpr)
  | FcvtLD (rd : Gpr) (rs1 : Fpr)
  | FcvtLUD (rd : Gpr) (rs1 : Fpr)
  | FcvtDS (rd rs1 : Fpr)
  | FcvtSD (rd rs1 : Fpr)
  | FmvXW (rd : Gpr) (rs1 : Fpr)
  | FmvWX (rd : Fpr) (rs1 : Gpr)
  | FmvXD (rd : Gpr) (rs1 : Fpr)
  | FmvDX (rd : Fpr) (rs1 : Gpr)
  | Csrrw (rd : Gpr) (csr : Z) (rs1 : Gpr)
  | Csrrs (rd : Gpr) (csr : Z) (rs1 : Gpr)
  | Csrrc (rd : Gpr) (csr : Z) (rs1 : Gpr)
  | Csrrwi (rd : Gpr) (csr uimm : Z)
  | Csrrsi (rd : Gpr) (csr uimm : Z)
  | Csrrci (rd : Gpr) (csr uimm : Z)
  | FenceI
  | Ecall
  | Ebreak
  | Fence (pred succ : Z)
  | Nop
  | LrD (rd rs1 : Gpr)
  | ScD (rd rs1 rs2 : Gpr)
  | LrW (rd rs1 : Gpr)
  | ScW (rd rs1 rs2 : Gpr)
  | AmoaddW (rd rs1 rs2 : Gpr)
  | AmoaddD (rd rs1 rs2 : Gpr)
  | AmoswapW (rd rs1 rs2 : Gpr)
  | AmoswapD (rd rs1 rs2 : Gpr)
  | AmoxorW (rd rs1 rs2 : Gpr)
  | AmoxorD (rd rs1 rs2 : Gpr)
  | AmoandW (rd rs1 rs2 : Gpr)
  | AmoandD (rd rs1 rs2 : Gpr)
  | AmoorW (rd rs1 rs2 : Gpr)
  | AmoorD (rd rs1 rs2 : Gpr)
  | AmomaxW (rd rs1 rs2 : Gpr)
  | AmomaxD (rd rs1 rs2 : Gpr)
  | AmominW (rd rs1 rs2 : Gpr)
  | AmominD (rd rs1 rs2 : Gpr)
  | AmomaxWu (rd rs1 rs2 : Gpr)
  | AmomaxDu (rd rs1 rs2 : Gpr)
  | AmominWu (rd rs1 rs2 : Gpr)
  | AmominDu (rd rs1 rs2 : Gpr).

End Instruction.
Import Instruction.

(** The shifts by an immediate: [funct7] without its low bit, the shift amount and the
    rest of the word, put together without the masks of the formats. *)
Definition shift_word (funct7 shamt mask rs1 funct3 rd opcode : Z) : list Z :=
  let funct7_and_shamt := Z.lor (Z.shiftl funct7 25) (Z.shiftl (Z.land shamt mask) 20) in
  let word := Z.lor (Z.lor (Z.lor (Z.lor funct7_and_shamt
    (Z.shiftl rs1 15)) (Z.shiftl funct3 12)) (Z.shiftl rd 7)) opcode in
  to_le_bytes word.

Definition encode (self : Instruction) : list Z :=
  match self with
  | Lui rd imm => encode_u_type imm (Gpr_encoding rd) OP_LUI
  | Auipc rd imm => encode_u_type imm (Gpr_encoding rd) OP_AUIPC
  | Jal rd offset => encode_j_type offset (Gpr_encoding rd) OP_JAL
  | Jalr rd rs1 imm =>
      encode_i_type (Z.land (wrap32 imm) 0xFFF) (Gpr_encoding rs1) 0 (Gpr_encoding rd) OP_JALR
  | Beq rs1 rs2 offset => encode_b_type offset (Gpr_encoding rs2) (Gpr_encoding rs1) 0 OP_BRANCH
  | Bne rs1 rs2 offset => encode_b_type offset (Gpr_encoding rs2) (Gpr_encoding rs1) 1 OP_BRANCH
  | Blt rs1 rs2 offset => encode_b_type offset (Gpr_encoding rs2) (Gpr_encoding rs1) 4 OP_BRANCH
  | Bge rs1 rs2 offset => encode_b_type offset (Gpr_encoding rs2) (Gpr_encoding rs1) 5 OP_BRANCH
  | Bltu rs1 rs2 offset => encode_b_type offset (Gpr_encoding rs2) (Gpr_encoding rs1) 6 OP_BRANCH
  | Bgeu rs1 rs2 offset => encode_b_type offset (Gpr_encoding rs2) (Gpr_encoding rs1) 7 OP_BRANCH
  | Lb rd rs1 imm =>
      encode_i_type (Z.land (wrap32 imm) 0xFFF) (Gpr_encoding rs1) 0 (Gpr_encoding rd) OP_LOAD
  | Lh rd rs1 imm =>
      encode_i_type (Z.land (wrap32 imm) 0xFFF) (Gpr_encoding rs1) 1 (Gpr_encoding rd) OP_LOAD
  | Lw rd rs1 imm =>
      encode_i_type (Z.land (wrap32 imm) 0xFFF) (Gpr_encoding rs1) 2 (Gpr_encoding rd) OP_LOAD
  | Ld rd rs1 imm =>
      encode_i_type (Z.land (wrap32 imm) 0xFFF) (Gpr_encoding rs1) 3 (Gpr_encoding rd) OP_LOAD
  | Lbu rd rs1 imm =>
      encode_i_type (Z.land (wrap32 imm) 0xFFF) (Gpr_encoding rs1) 4 (Gpr_encoding rd) OP_LOAD
  | Lhu rd rs1 imm =>
      encode_i_type (Z.land (wrap32 imm) 0xFFF) (Gpr_encoding rs1) 5 (Gpr_encoding rd) OP_LOAD
  | Lwu rd rs1 imm =>
      encode_i_type (Z.land (wrap32 imm) 0xFFF) (Gpr_encoding rs1) 6 (Gpr_encoding rd) OP_LOAD
  | Sb rs1 rs2 imm =>
      encode_s_type (Z.land (wrap32 imm) 0xFFF) (Gpr_encoding rs2) (Gpr_encoding rs1) 0 OP_STORE
  | Sh rs1 rs2 imm =>
      encode_s_type (Z.land (wrap32 imm) 0xFFF) (Gpr_encoding rs2) (Gpr_encoding rs1) 1 OP_STORE
  | Sw rs1 rs2 imm =>
      encode_s_type (Z.land (wrap32 imm) 0xFFF) (Gpr_encoding rs2) (Gpr_encoding rs1) 2 OP_STORE
  | Sd rs1 rs2 imm =>
      encode_s_type (Z.land (wrap32 imm) 0xFFF) (Gpr_encoding rs2) (Gpr_encoding rs1) 3 OP_STORE
  | Addi rd rs1 imm =>
      encode_i_type (Z.land (wrap32 imm) 0xFFF) (Gpr_encoding rs1) 0 (Gpr_encoding rd) OP_IMM
  | Slti rd rs1 imm =>
      encode_i_type (Z.land (wrap32 imm) 0xFFF) (Gpr_encoding rs1) 2 (Gpr_encoding rd) OP_IMM
  | Sltiu rd rs1 imm =>
      encode_i_type (Z.land (wrap32 imm) 0xFFF) (Gpr_encoding rs1) 3 (Gpr_encoding rd) OP_IMM
  | Xori rd rs1 imm =>
      encode_i_type (Z.land (wrap32 imm) 0xFFF) (Gpr_encoding rs1) 4 (Gpr_encoding rd) OP_IMM
  | Ori rd rs1 imm =>
      encode_i_type (Z.land (wrap32 imm) 0xFFF) (Gpr_encoding rs1) 6 (Gpr_encoding rd) OP_IMM
  | Andi rd rs1 imm =>
      encode_i_type (Z.land (wrap32 imm) 0xFFF) (Gpr_encoding rs1) 7 (Gpr_encoding rd) OP_IMM
  | Slli rd rs1 shamt => shift_word 0 shamt 0x3F (Gpr_encoding rs1) 1 (Gpr_encoding rd) OP_IMM
  | Srli rd rs1 shamt => shift_word 0 shamt 0x3F (Gpr_encoding rs1) 5 (Gpr_encoding rd) OP_IMM
  | Srai rd rs1 shamt => shift_word 0x20 shamt 0x3F (Gpr_encoding rs1) 5 (Gpr_encoding rd) OP_IMM
  | Add rd rs1 rs2 =>
      encode_r_type 0 (Gpr_encoding rs2) (Gpr_encoding rs1) 0 (Gpr_encoding rd) OP_REG
  | Sub rd rs1 rs2 =>
      encode_r_type 0x20 (Gpr_encoding rs2) (Gpr_encoding rs1) 0 (Gpr_encoding rd) OP_REG
  | Sll rd rs1 rs2 =>
      encode_r_type 0 (Gpr_encoding rs2) (Gpr_encoding rs1) 1 (Gpr_encoding rd) OP_REG
  | Slt rd rs1 rs2 =>
      encode_r_type 0 (Gpr_encoding rs2) (Gpr_encoding rs1) 2 (Gpr_encoding rd) OP_REG
  | Sltu rd rs1 rs2 =>
      encode_r_type 0 (Gpr_encoding rs2) (Gpr_encoding rs1) 3 (Gpr_encoding rd) OP_REG
  | Xor rd rs1 rs2 =>
      encode_r_type 0 (Gpr_encoding rs2) (Gpr_encoding rs1) 4 (Gpr_encoding rd) OP_REG
  | Srl rd rs1 rs2 =>
      encode_r_type 0 (Gpr_encoding rs2) (Gpr_encoding rs1) 5 (Gpr_encoding rd) OP_REG
  | Sra rd rs1 rs2 =>
      encode_r_type 0x20 (Gpr_encoding rs2) (Gpr_encoding rs1) 5 (Gpr_encoding rd) OP_REG
  | Or rd rs1 rs2 =>
      encode_r_type 0 (Gpr_encoding rs2) (Gpr_encoding rs1) 6 (Gpr_encoding rd) OP_REG
  | And rd rs1 rs2 =>
      encode_r_type 0 (Gpr_encoding rs2) (Gpr_encoding rs1) 7 (Gpr_encoding rd) OP_REG
  | Addw rd rs1 rs2 =>
      encode_r_type 0 (Gpr_encoding rs2) (Gpr_encoding rs1) 0 (Gpr_encoding rd) OP_REG32
  | Subw rd rs1 rs2 =>
      encode_r_type 0x20 (Gpr_encoding rs2) (Gpr_encoding rs1) 0 (Gpr_encoding rd) OP_REG32
  | Sllw rd rs1 rs2 =>
      encode_r_type 0 (Gpr_encoding rs2) (Gpr_encoding rs1) 1 (Gpr_encoding rd) OP_REG32
  | Srlw rd rs1 rs2 =>
      encode_r_type 0 (Gpr_encoding rs2) (Gpr_encoding rs1) 5 (Gpr_encoding rd) OP_REG32
  | Sraw rd rs1 rs2 =>
      encode_r_type 0x20 (Gpr_encoding rs2) (Gpr_encoding rs1) 5 (Gpr_encoding rd) OP_REG32
  | Addiw rd rs1 imm =>
      encode_i_type (Z.land (wrap32 imm) 0xFFF) (Gpr_encoding rs1) 0 (Gpr_encoding rd) OP_IMM32
  | Slliw rd rs1 shamt => shift_word 0 shamt 0x1F (Gpr_encoding rs1) 1 (Gpr_encoding rd) OP_IMM32
  | Srliw rd rs1 shamt => shift_word 0 shamt 0x1F (Gpr_encoding rs1) 5 (Gpr_encoding rd) OP_IMM32
  | Sraiw rd rs1 shamt =>
      shift_word 0x20 shamt 0x1F (Gpr_encoding rs1) 5 (Gpr_encoding rd) OP_IMM32
  | Mul rd rs1 rs2 =>
      encode_r_type 1 (Gpr_encoding rs2) (Gpr_encoding rs1) 0 (Gpr_encoding rd) OP_REG
  | Mulh rd rs1 rs2 =>
      encode_r_type 1 (Gpr_encoding rs2) (Gpr_encoding rs1) 1 (Gpr_encoding rd) OP_REG
  | Mulhsu rd rs1 rs2 =>
      encode_r_type 1 (Gpr_encoding rs2) (Gpr_encoding rs1) 2 (Gpr_encoding rd) OP_REG
  | Mulhu rd rs1 rs2 =>
      encode_r_type 1 (Gpr_encoding rs2) (Gpr_encoding rs1) 3 (Gpr_encoding rd) OP_REG
  | Div rd rs1 rs2 =>
      encode_r_type 1 (Gpr_encoding rs2) (Gpr_encoding rs1) 4 (Gpr_encoding rd) OP_REG
  | Divu rd rs1 rs2 =>
      encode_r_type 1 (Gpr_encoding rs2) (Gpr_encoding rs1) 5 (Gpr_encoding rd) OP_REG
  | Rem rd rs1 rs2 =>
      encode_r_type 1 (Gpr_encoding rs2) (Gpr_encoding rs1) 6 (Gpr_encoding rd) OP_REG
  | Remu rd rs1 rs2 =>
      encode_r_type 1 (Gpr_encoding rs2) (Gpr_encoding rs1) 7 (Gpr_encoding rd) OP_REG
  | Flw rd rs1 imm =>
      encode_i_type (Z.land (wrap32 imm) 0xFFF) (Gpr_encoding rs1) 2 (Fpr_encoding rd) OP_LOAD_FP
  | Fld rd rs1 imm =>
      encode_i_type (Z.land (wrap32 imm) 0xFFF) (Gpr_encoding rs1) 3 (Fpr_encoding rd) OP_LOAD_FP
  | Fsw rs1 rs2 imm =>
      encode_s_type (Z.land (wrap32 imm) 0xFFF) (Fpr_encoding rs2) (Gpr_encoding rs1) 2 OP_STORE_FP
  | Fsd rs1 rs2 imm =>
      encode_s_type (Z.land (wrap32 imm) 0xFFF) (Fpr_encoding rs2) (Gpr_encoding rs1) 3 OP_STORE_FP
  | FaddD rd rs1 rs2 =>
      encode_r_type 1 (Fpr_encoding rs2) (Fpr_encoding rs1) 7 (Fpr_encoding rd) OP_FP
  | FsubD rd rs1 rs2 =>
      encode_r_type 5 (Fpr_encoding rs2) (Fpr_encoding rs1) 7 (Fpr_encoding rd) OP_FP
  | FmulD rd rs1 rs2 =>
      encode_r_type 0x09 (Fpr_encoding rs2) (Fpr_encoding rs1) 7 (Fpr_encoding rd) OP_FP
  | FdivD rd rs1 rs2 =>
      encode_r_type 0x0D (Fpr_encoding rs2) (Fpr_encoding rs1) 7 (Fpr_encoding rd) OP_FP
  | FmvD rd rs1 =>
      encode_r_type 0x11 (Fpr_encoding rs1) (Fpr_encoding rs1) 0 (Fpr_encoding rd) OP_FP
  | FaddS rd rs1 rs2 =>
      encode_r_type 0 (Fpr_encoding rs2) (Fpr_encoding rs1) 7 (Fpr_encoding rd) OP_FP
  | FsubS rd rs1 rs2 =>
      encode_r_type 4 (Fpr_encoding rs2) (Fpr_encoding rs1) 7 (Fpr_encoding rd) OP_FP
  | FmulS rd rs1 rs2 =>
      encode_r_type 0x08 (Fpr_encoding rs2) (Fpr_encoding rs1) 7 (Fpr_encoding rd) OP_FP
  | FdivS rd rs1 rs2 =>
      encode_r_type 0x0C (Fpr_encoding rs2) (Fpr_encoding rs1) 7 (Fpr_encoding rd) OP_FP
  | FsqrtS rd rs1 => encode_r_type 0x2C 0 (Fpr_encoding rs1) 7 (Fpr_encoding rd) OP_FP
  | FminS rd rs1 rs2 =>
      encode_r_type 0x14 (Fpr_encoding rs2) (Fpr_encoding rs1) 0 (Fpr_encoding rd) OP_FP
  | FmaxS rd rs1 rs2 =>
      encode_r_type 0x14 (Fpr_encoding rs2) (Fpr_encoding rs1) 1 (Fpr_encoding rd) OP_FP
  | FsgnjS rd rs1 rs2 =>
      encode_r_type 0x10 (Fpr_encoding rs2) (Fpr_encoding rs1) 0 (Fpr_encoding rd) OP_FP
  | FsgnjnS rd rs1 rs2 =>
      encode_r_type 0x10 (Fpr_encoding rs2) (Fpr_encoding rs1) 1 (Fpr_encoding rd) OP_FP
  | FsgnjxS rd rs1 rs2 =>
      encode_r_type 0x10 (Fpr_encoding rs2) (Fpr_encoding rs1) 2 (Fpr_encoding rd) OP_FP
  | FclassS rd rs1 => encode_r_type 0x70 0 (Fpr_encoding rs1) 1 (Gpr_encoding rd) OP_FP
  | FmvS rd rs1 =>
      encode_r_type 0x10 (Fpr_encoding rs1) (Fpr_encoding rs1) 0 (Fpr_encoding rd) OP_FP
  | FsqrtD rd rs1 => encode_r_type 0x2D 0 (Fpr_encoding rs1) 7 (Fpr_encoding rd) OP_FP
  | FminD rd rs1 rs2 =>
      encode_r_type 0x15 (Fpr_encoding rs2) (Fpr_encoding rs1) 0 (Fpr_encoding rd) OP_FP
  | FmaxD rd rs1 rs2 =>
      encode_r_type 0x15 (Fpr_encoding rs2) (Fpr_encoding rs1) 1 (Fpr_encoding rd) OP_FP
  | FsgnjD rd rs1 rs2 =>
      encode_r_type 0x11 (Fpr_encoding rs2) (Fpr_encoding rs1) 0 (Fpr_encoding rd) OP_FP
  | FsgnjnD rd rs1 rs2 =>
      encode_r_type 0x11 (Fpr_encoding rs2) (Fpr_encoding rs1) 1 (Fpr_encoding rd) OP_FP
  | FsgnjxD rd rs1 rs2 =>
      encode_r_type 0x11 (Fpr_encoding rs2) (Fpr_encoding rs1) 2 (Fpr_encoding rd) OP_FP
  | FclassD rd rs1 => encode_r_type 0x71 0 (Fpr_encoding rs1) 1 (Gpr_encoding rd) OP_FP
  | FeqD rd rs1 rs2 =>
      encode_r_type 0x51 (Fpr_encoding rs2) (Fpr_encoding rs1) 2 (Gpr_encoding rd) OP_FP
  | FltD rd rs1 rs2 =>
      encode_r_type 0x51 (Fpr_encoding rs2) (Fpr_encoding rs1) 1 (Gpr_encoding rd) OP_FP
  | FleD rd rs1 rs2 =>
      encode_r_type 0x51 (Fpr_encoding rs2) (Fpr_encoding rs1) 0 (Gpr_encoding rd) OP_FP
  | FeqS rd rs1 rs2 =>
      encode_r_type 0x50 (Fpr_encoding rs2) (Fpr_encoding rs1) 2 (Gpr_encoding rd) OP_FP
  | FltS rd rs1 rs2 =>
      encode_r_type 0x50 (Fpr_encoding rs2) (Fpr_encoding rs1) 1 (Gpr_encoding rd) OP_FP
  | FleS rd rs1 rs2 =>
      encode_r_type 0x50 (Fpr_encoding rs2) (Fpr_encoding rs1) 0 (Gpr_encoding rd) OP_FP
  | FcvtSW rd rs1 => encode_r_type 0x68 0 (Gpr_encoding rs1) 7 (Fpr_encoding rd) OP_FP
  | FcvtSWU rd rs1 => encode_r_type 0x68 1 (Gpr_encoding rs1) 7 (Fpr_encoding rd) OP_FP
  | FcvtSL rd rs1 => encode_r_type 0x68 2 (Gpr_encoding rs1) 7 (Fpr_encoding rd) OP_FP
  | FcvtSLU rd rs1 => encode_r_type 0x68 3 (Gpr_encoding rs1) 7 (Fpr_encoding rd) OP_FP
  | FcvtDW rd rs1 => encode_r_type 0x69 0 (Gpr_encoding rs1) 7 (Fpr_encoding rd) OP_FP
  | FcvtDWU rd rs1 => encode_r_type 0x69 1 (Gpr_encoding rs1) 7 (Fpr_encoding rd) OP_FP
  | FcvtDL rd rs1 => encode_r_type 0x69 2 (Gpr_encoding rs1) 7 (Fpr_encoding rd) OP_FP
  | FcvtDLU rd rs1 => encode_r_type 0x69 3 (Gpr_encoding rs1) 7 (Fpr_encoding rd) OP_FP
  | FcvtWS rd rs1 => encode_r_type 0x60 0 (Fpr_encoding rs1) 7 (Gpr_encoding rd) OP_FP
  | FcvtWUS rd rs1 => encode_r_type 0x60 1 (Fpr_encoding rs1) 7 (Gpr_encoding rd) OP_FP
  | FcvtLS rd rs1 => encode_r_type 0x60 2 (Fpr_encoding rs1) 1 (Gpr_encoding rd) OP_FP
  | FcvtLUS rd rs1 => encode_r_type 0x60 3 (Fpr_encoding rs1) 1 (Gpr_encoding rd) OP_FP
  | FcvtWD rd rs1 => encode_r_type 0x61 0 (Fpr_encoding rs1) 7 (Gpr_encoding rd) OP_FP
  | FcvtWUD rd rs1 => encode_r_type 0x61 1 (Fpr_encoding rs1) 7 (Gpr_encoding rd) OP_FP
  | FcvtLD rd rs1 => encode_r_type 0x61 2 (Fpr_encoding rs1) 1 (Gpr_encoding rd) OP_FP
  | FcvtLUD rd rs1 => encode_r_type 0x61 3 (Fpr_encoding rs1) 1 (Gpr_encoding rd) OP_FP
  | FcvtDS rd rs1 => encode_r_type 0x21 0 (Fpr_encoding rs1) 0 (Fpr_encoding rd) OP_FP
  | FcvtSD rd rs1 => encode_r_type 0x20 1 (Fpr_encoding rs1) 0 (Fpr_encoding rd) OP_FP
  | FmvXW rd rs1 => encode_r_type 0x70 0 (Fpr_encoding rs1) 0 (Gpr_encoding rd) OP_FP
  | FmvWX rd rs1 => encode_r_type 0x78 0 (Gpr_encoding rs1) 0 (Fpr_encoding rd) OP_FP
  | FmvXD rd rs1 => encode_r_type 0x71 0 (Fpr_encoding rs1) 0 (Gpr_encoding rd) OP_FP
  | FmvDX rd rs1 => encode_r_type 0x79 0 (Gpr_encoding rs1) 0 (Fpr_encoding rd) OP_FP
  | Csrrw rd csr rs1 => encode_i_type csr (Gpr_encoding rs1) 1 (Gpr_encoding rd) OP_SYSTEM
  | Csrrs rd csr rs1 => encode_i_type csr (Gpr_encoding rs1) 2 (Gpr_encoding rd) OP_SYSTEM
  | Csrrc rd csr rs1 => encode_i_type csr (Gpr_encoding rs1) 3 (Gpr_encoding rd) OP_SYSTEM
  | Csrrwi rd csr uimm => encode_i_type csr (Z.land uimm 0x1F) 5 (Gpr_encoding rd) OP_SYSTEM
  | Csrrsi rd csr uimm => encode_i_type csr (Z.land uimm 0x1F) 6 (Gpr_encoding rd) OP_SYSTEM
  | Csrrci rd csr uimm => encode_i_type csr (Z.land uimm 0x1F) 7 (Gpr_encoding rd) OP_SYSTEM
  | FenceI => encode_i_type 0 0 1 0 OP_MISC_MEM
  | Ecall => to_le_bytes 0x00000073
  | Ebreak => to_le_bytes 0x00100073
  | Fence pred succ =>
      let imm := Z.lor (Z.shiftl (Z.land pred 0xF) 4) (Z.land succ 0xF) in
      encode_i_type imm 0 0 0 OP_MISC_MEM
  | Nop => encode_i_type 0 0 0 0 OP_IMM
  | LrD rd rs1 => encode_r_type 0x0A 0 (Gpr_encoding rs1) 2 (Gpr_encoding rd) 0x2F
  | ScD rd rs1 rs2 =>
      encode_r_type 0x0C (Gpr_encoding rs2) (Gpr_encoding rs1) 2 (Gpr_encoding rd) 0x2F
  | LrW rd rs1 => encode_r_type 0x0A 0 (Gpr_encoding rs1) 2 (Gpr_encoding rd) 0x2F
  | ScW rd rs1 rs2 =>
      encode_r_type 0x0C (Gpr_encoding rs2) (Gpr_encoding rs1) 2 (Gpr_encoding rd) 0x2F
  | AmoaddW rd rs1 rs2 =>
      encode_r_type 2 (Gpr_encoding rs2) (Gpr_encoding rs1) 2 (Gpr_encoding rd) 0x2F
  | AmoaddD rd rs1 rs2 =>
      encode_r_type 2 (Gpr_encoding rs2) (Gpr_encoding rs1) 3 (Gpr_encoding rd) 0x2F
  | AmoswapW rd rs1 rs2 =>
      encode_r_type 6 (Gpr_encoding rs2) (Gpr_encoding rs1) 2 (Gpr_encoding rd) 0x2F
  | AmoswapD rd rs1 rs2 =>
      encode_r_type 6 (Gpr_encoding rs2) (Gpr_encoding rs1) 3 (Gpr_encoding rd) 0x2F
  | AmoxorW rd rs1 rs2 =>
      encode_r_type 0x12 (Gpr_encoding rs2) (Gpr_encoding rs1) 2 (Gpr_encoding rd) 0x2F
  | AmoxorD rd rs1 rs2 =>
      encode_r_type 0x12 (Gpr_encoding rs2) (Gpr_encoding rs1) 3 (Gpr_encoding rd) 0x2F
  | AmoandW rd rs1 rs2 =>
      encode_r_type 0x32 (Gpr_encoding rs2) (Gpr_encoding rs1) 2 (Gpr_encoding rd) 0x2F
  | AmoandD rd rs1 rs2 =>
      encode_r_type 0x32 (Gpr_encoding rs2) (Gpr_encoding rs1) 3 (Gpr_encoding rd) 0x2F
  | AmoorW rd rs1 rs2 =>
      encode_r_type 0x22 (Gpr_encoding rs2) (Gpr_encoding rs1) 2 (Gpr_encoding rd) 0x2F
  | AmoorD rd rs1 rs2 =>
      encode_r_type 0x22 (Gpr_encoding rs2) (Gpr_encoding rs1) 3 (Gpr_encoding rd) 0x2F
  | AmomaxW rd rs1 rs2 =>
      encode_r_type 0x42 (Gpr_encoding rs2) (Gpr_encoding rs1) 2 (Gpr_encoding rd) 0x2F
  | AmomaxD rd rs1 rs2 =>
      encode_r_type 0x42 (Gpr_encoding rs2) (Gpr_encoding rs1) 3 (Gpr_encoding rd) 0x2F
  | AmominW rd rs1 rs2 =>
      encode_r_type 0x43 (Gpr_encoding rs2) (Gpr_encoding rs1) 2 (Gpr_encoding rd) 0x2F
  | AmominD rd rs1 rs2 =>
      encode_r_type 0x43 (Gpr_encoding rs2) (Gpr_encoding rs1) 3 (Gpr_encoding rd) 0x2F
  | AmomaxWu rd rs1 rs2 =>
      encode_r_type 0x72 (Gpr_encoding rs2) (Gpr_encoding rs1) 2 (Gpr_encoding rd) 0x2F
  | AmomaxDu rd rs1 rs2 =>
      encode_r_type 0x72 (Gpr_encoding rs2) (Gpr_encoding rs1) 3 (Gpr_encoding rd) 0x2F
  | AmominWu rd rs1 rs2 =>
      encode_r_type 0x73 (Gpr_encoding rs2) (Gpr_encoding rs1) 2 (Gpr_encoding rd) 0x2F
  | AmominDu rd rs1 rs2 =>
      encode_r_type 0x73 (Gpr_encoding rs2) (Gpr_encoding rs1) 3 (Gpr_encoding rd) 0x2F
  end.
(** ** Decoding

    [decode] takes the fields out of the word and looks at the opcode; a definition for
    the arm of each opcode.  Like the code, the arms write the register [Ra] where the
    destination belongs, after decoding the destination. *)

(** [((x << k) as i32) >> k]. *)
Definition sext_shift (x k : Z) : Z := Z.shiftr (as_i32 (Z.shiftl x k)) k.

Definition decode_branch (funct3 : Z) (rs1 rs2 : Gpr) (offset : Z) : option Instruction :=
  match funct3 with
  | 0 => Some (Beq rs1 rs2 offset)
  | 1 => Some (Bne rs1 rs2 offset)
  | 4 => Some (Blt rs1 rs2 offset)
  | 5 => Some (Bge rs1 rs2 offset)
  | 6 => Some (Bltu rs1 rs2 offset)
  | 7 => Some (Bgeu rs1 rs2 offset)
  | _ => None
  end.

Definition decode_load (funct3 : Z) (rs1 : Gpr) (imm : Z) : option Instruction :=
  match funct3 with
  | 0 => Some (Lb Ra rs1 imm)
  | 1 => Some (Lh Ra rs1 imm)
  | 2 => Some (Lw Ra rs1 imm)
  | 3 => Some (Ld Ra rs1 imm)
  | 4 => Some (Lbu Ra rs1 imm)
  | 5 => Some (Lhu Ra rs1 imm)
  | 6 => Some (Lwu Ra rs1 imm)
  | _ => None
  end.

Definition decode_store (funct3 : Z) (rs1 rs2 : Gpr) (imm : Z) : option Instruction :=
  match funct3 with
  | 0 => Some (Sb rs1 rs2 imm)
  | 1 => Some (Sh rs1 rs2 imm)
  | 2 => Some (Sw rs1 rs2 imm)
  | 3 => Some (Sd rs1 rs2 imm)
  | _ => None
  end.

Definition decode_load_fp (funct3 : Z) (rd : Fpr) (rs1 : Gpr) (imm : Z) : option Instruction :=
  match funct3 with
  | 2 => Some (Flw rd rs1 imm)
  | 3 => Some (Fld rd rs1 imm)
  | _ => None
  end.

Definition decode_store_fp (funct3 : Z) (rs1 : Gpr) (rs2 : Fpr) (imm : Z) : option Instruction :=
  match funct3 with
  | 2 => Some (Fsw rs1 rs2 imm)
  | 3 => Some (Fsd rs1 rs2 imm)
  | _ => None
  end.

Definition decode_op_imm (funct7 funct3 : Z) (rs1 : Gpr) (imm shamt : Z) : option Instruction :=
  match funct3 with
  | 0 => Some (Addi Ra rs1 imm)
  | 2 => Some (Slti Ra rs1 imm)
  | 3 => Some (Sltiu Ra rs1 imm)
  | 4 => Some (Xori Ra rs1 imm)
  | 6 => Some (Ori Ra rs1 imm)
  | 7 => Some (Andi Ra rs1 imm)
  | 1 => Some (Slli Ra rs1 shamt)
  | 5 => if funct7 =? 0x20 then Some (Srai Ra rs1 shamt) else Some (Srli Ra rs1 shamt)
  | _ => None
  end.

Definition decode_op (funct7 funct3 : Z) (rs1 rs2 : Gpr) : option Instruction :=
  match funct7, funct3 with
  | 0, 0 => Some (Add Ra rs1 rs2)
  | 0x20, 0 => Some (Sub Ra rs1 rs2)
  | 0, 1 => Some (Sll Ra rs1 rs2)
  | 0, 2 => Some (Slt Ra rs1 rs2)
  | 0, 3 => Some (Sltu Ra rs1 rs2)
  | 0, 4 => Some (Xor Ra rs1 rs2)
  | 0, 5 => Some (Srl Ra rs1 rs2)
  | 0x20, 5 => Some (Sra Ra rs1 rs2)
  | 0, 6 => Some (Or Ra rs1 rs2)
  | 0, 7 => Some (And Ra rs1 rs2)
  | 1, 0 => Some (Mul Ra rs1 rs2)
  | 1, 1 => Some (Mulh Ra rs1 rs2)
  | 1, 2 => Some (Mulhsu Ra rs1 rs2)
  | 1, 3 => Some (Mulhu Ra rs1 rs2)
  | 1, 4 => Some (Div Ra rs1 rs2)
  | 1, 5 => Some (Divu Ra rs1 rs2)
  | 1, 6 => Some (Rem Ra rs1 rs2)
  | 1, 7 => Some (Remu Ra rs1 rs2)
  | _, _ => None
  end.

Definition decode_op_imm_32 (funct7 funct3 : Z) (rs1 : Gpr) (imm shamt : Z) : option Instruction :=
  match funct3 with
  | 0 => Some (Addiw Ra rs1 imm)
  | 1 => Some (Slliw Ra rs1 shamt)
  | 5 => if funct7 =? 0x20 then Some (Sraiw Ra rs1 shamt) else Some (Srliw Ra rs1 shamt)
  | _ => None
  end.

Definition decode_op_32 (funct7 funct3 : Z) (rs1 rs2 : Gpr) : option Instruction :=
  match funct7, funct3 with
  | 0, 0 => Some (Addw Ra rs1 rs2)
  | 0x20, 0 => Some (Subw Ra rs1 rs2)
  | 0, 1 => Some (Sllw Ra rs1 rs2)
  | 0, 5 => Some (Srlw Ra rs1 rs2)
  | 0x20, 5 => Some (Sraw Ra rs1 rs2)
  | _, _ => None
  end.

Definition decode_csr (funct3 csr : Z) (rs1_reg : Gpr) (rs1 : Z) : option Instruction :=
  match funct3 with
  | 1 => Some (Csrrw Ra csr rs1_reg)
  | 2 => Some (Csrrs Ra csr rs1_reg)
  | 3 => Some (Csrrc Ra csr rs1_reg)
  | 5 => Some (Csrrwi Ra csr rs1)
  | 6 => Some (Csrrsi Ra csr rs1)
  | 7 => Some (Csrrci Ra csr rs1)
  | _ => None
  end.

Definition decode_fp_arith (funct7 funct3 rd rs1 rs2 : Z) : option Instruction :=
  rd_fpr ← Fpr_from_encoding rd;
  rs1_fpr ← Fpr_from_encoding rs1;
  rs2_fpr ← Fpr_from_encoding rs2;
  match funct7, funct3 with
  | 0x01, 7 => Some (FaddD rd_fpr rs1_fpr rs2_fpr)
  | 0x05, 7 => Some (FsubD rd_fpr rs1_fpr rs2_fpr)
  | 0x09, 7 => Some (FmulD rd_fpr rs1_fpr rs2_fpr)
  | 0x0D, 7 => Some (FdivD rd_fpr rs1_fpr rs2_fpr)
  | 0x11, 0 => if rs1 =? rs2 then Some (FmvD rd_fpr rs1_fpr) else None
  | _, _ => None
  end.

Definition decode_fp (funct7 funct3 rd rs1 rs2 : Z) : option Instruction :=
  match funct7, rs2, funct3 with
  | 0x68, 0, 7 => rd ← Fpr_from_encoding rd; rs1 ← Gpr_from_encoding rs1; Some (FcvtSW rd rs1)
  | 0x68, 1, 7 => rd ← Fpr_from_encoding rd; rs1 ← Gpr_from_encoding rs1; Some (FcvtSWU rd rs1)
  | 0x68, 2, 7 => rd ← Fpr_from_encoding rd; rs1 ← Gpr_from_encoding rs1; Some (FcvtSL rd rs1)
  | 0x68, 3, 7 => rd ← Fpr_from_encoding rd; rs1 ← Gpr_from_encoding rs1; Some (FcvtSLU rd rs1)
  | 0x69, 0, 7 => rd ← Fpr_from_encoding rd; rs1 ← Gpr_from_encoding rs1; Some (FcvtDW rd rs1)
  | 0x69, 1, 7 => rd ← Fpr_from_encoding rd; rs1 ← Gpr_from_encoding rs1; Some (FcvtDWU rd rs1)
  | 0x69, 2, 7 => rd ← Fpr_from_encoding rd; rs1 ← Gpr_from_encoding rs1; Some (FcvtDL rd rs1)
  | 0x69, 3, 7 => rd ← Fpr_from_encoding rd; rs1 ← Gpr_from_encoding rs1; Some (FcvtDLU rd rs1)
  | 0x60, 0, 7 => rd ← Gpr_from_encoding rd; rs1 ← Fpr_from_encoding rs1; Some (FcvtWS rd rs1)
  | 0x60, 1, 7 => rd ← Gpr_from_encoding rd; rs1 ← Fpr_from_encoding rs1; Some (FcvtWUS rd rs1)
  | 0x60, 2, 7 => rd ← Gpr_from_encoding rd; rs1 ← Fpr_from_encoding rs1; Some (FcvtLS rd rs1)
  | 0x60, 3, 7 => rd ← Gpr_from_encoding rd; rs1 ← Fpr_from_encoding rs1; Some (FcvtLUS rd rs1)
  | 0x61, 0, 7 => rd ← Gpr_from_encoding rd; rs1 ← Fpr_from_encoding rs1; Some (FcvtWD rd rs1)
  | 0x61, 1, 7 => rd ← Gpr_from_encoding rd; rs1 ← Fpr_from_encoding rs1; Some (FcvtWUD rd rs1)
  | 0x61, 2, 7 => rd ← Gpr_from_encoding rd; rs1 ← Fpr_from_encoding rs1; Some (FcvtLD rd rs1)
  | 0x61, 3, 7 => rd ← Gpr_from_encoding rd; rs1 ← Fpr_from_encoding rs1; Some (FcvtLUD rd rs1)
  | 0x21, 0, 0 => rd ← Fpr_from_encoding rd; rs1 ← Fpr_from_encoding rs1; Some (FcvtDS rd rs1)
  | 0x20, 1, 0 => rd ← Fpr_from_encoding rd; rs1 ← Fpr_from_encoding rs1; Some (FcvtSD rd rs1)
  | _, _, _ => decode_fp_arith funct7 funct3 rd rs1 rs2
  end.

Definition decode_amo (funct7 funct3 : Z) (rs1 : Gpr) (rs2 : Z) : option Instruction :=
  let funct5 := Z.shiftr funct7 2 in
  match funct5, funct3 with
  | 2, 2 => Some (LrD Ra rs1)
  | 3, 2 => rs2_reg ← Gpr_from_encoding rs2; Some (ScD Ra rs1 rs2_reg)
  | _, _ => None
  end.

(** The immediates of the formats, put together from their pieces. *)
Definition i_imm (word : Z) : Z := sext_shift (Z.shiftr word 20) 20.
Definition s_imm (word : Z) : Z :=
  let imm_lo := Z.land (Z.shiftr word 7) 0x1F in
  let imm_hi := Z.land (Z.shiftr word 25) 0x7F in
  sext_shift (Z.lor (Z.shiftl imm_hi 5) imm_lo) 20.
Definition b_imm (word : Z) : Z :=
  let imm12 := Z.lor (Z.lor (Z.lor
    (Z.shiftl (Z.land (Z.shiftr word 31) 1) 12)
    (Z.shiftl (Z.land (Z.shiftr word 7) 1) 11))
    (Z.shiftl (Z.land (Z.shiftr word 25) 0x3F) 5))
    (Z.shiftl (Z.land (Z.shiftr word 8) 0xF) 1) in
  sext_shift imm12 19.
Definition j_imm (word : Z) : Z :=
  let imm20 := Z.lor (Z.lor (Z.lor
    (Z.shiftl (Z.land (Z.shiftr word 31) 1) 20)
    (Z.shiftl (Z.land (Z.shiftr word 12) 0xFF) 12))
    (Z.shiftl (Z.land (Z.shiftr word 20) 1) 11))
    (Z.shiftl (Z.land (Z.shiftr word 21) 0x3FF) 1) in
  sext_shift imm20 11.

Definition decode (word : Z) : option Instruction :=
  let opcode := Z.land word 0x7F in
  let rd := Z.land (Z.shiftr word 7) 0x1F in
  let funct3 := Z.land (Z.shiftr word 12) 0x7 in
  let rs1 := Z.land (Z.shiftr word 15) 0x1F in
  let rs2 := Z.land (Z.shiftr word 20) 0x1F in
  let funct7 := Z.land (Z.shiftr word 25) 0x7F in
  match opcode with
  | 0x37 => _ ← Gpr_from_encoding rd; Some (Lui Ra (Z.land word 0xFFFFF000))
  | 0x17 => _ ← Gpr_from_encoding rd; Some (Auipc Ra (Z.land word 0xFFFFF000))
  | 0x6F => _ ← Gpr_from_encoding rd; Some (Jal Ra (j_imm word))
  | 0x67 =>
      _ ← Gpr_from_encoding rd;
      rs1_reg ← Gpr_from_encoding rs1;
      Some (Jalr Ra rs1_reg (i_imm word))
  | 0x63 =>
      rs1_reg ← Gpr_from_encoding rs1;
      rs2_reg ← Gpr_from_encoding rs2;
      decode_branch funct3 rs1_reg rs2_reg (b_imm word)
  | 0x03 =>
      _ ← Gpr_from_encoding rd;
      rs1_reg ← Gpr_from_encoding rs1;
      decode_load funct3 rs1_reg (i_imm word)
  | 0x23 =>
      rs1_reg ← Gpr_from_encoding rs1;
      rs2_reg ← Gpr_from_encoding rs2;
      decode_store funct3 rs1_reg rs2_reg (s_imm word)
  | 0x07 =>
      rd_fpr ← Fpr_from_encoding rd;
      rs1_reg ← Gpr_from_encoding rs1;
      decode_load_fp funct3 rd_fpr rs1_reg (i_imm word)
  | 0x27 =>
      rs1_reg ← Gpr_from_encoding rs1;
      rs2_fpr ← Fpr_from_encoding rs2;
      decode_store_fp funct3 rs1_reg rs2_fpr (s_imm word)
  | 0x13 =>
      _ ← Gpr_from_encoding rd;
      rs1_reg ← Gpr_from_encoding rs1;
      decode_op_imm funct7 funct3 rs1_reg (i_imm word) (Z.land (Z.shiftr word 20) 0x3F)
  | 0x33 =>
      _ ← Gpr_from_encoding rd;
      rs1_reg ← Gpr_from_encoding rs1;
      rs2_reg ← Gpr_from_encoding rs2;
      decode_op funct7 funct3 rs1_reg rs2_reg
  | 0x1B =>
      _ ← Gpr_from_encoding rd;
      rs1_reg ← Gpr_from_encoding rs1;
      decode_op_imm_32 funct7 funct3 rs1_reg (i_imm word) (Z.land (Z.shiftr word 20) 0x1F)
  | 0x3B =>
      _ ← Gpr_from_encoding rd;
      rs1_reg ← Gpr_from_encoding rs1;
      rs2_reg ← Gpr_from_encoding rs2;
      decode_op_32 funct7 funct3 rs1_reg rs2_reg
  | 0x73 =>
      if word =? 0x00000073 then Some Ecall
      else if word =? 0x00100073 then Some Ebreak
      else
        _ ← Gpr_from_encoding rd;
        rs1_reg ← Gpr_from_encoding rs1;
        decode_csr funct3 (Z.land (Z.shiftr word 20) 0xFFF) rs1_reg rs1
  | 0x0F =>
      if funct3 =? 1 then Some FenceI
      else
        let imm := Z.land (Z.shiftr word 20) 0xFF in
        Some (Fence (Z.land (Z.shiftr imm 4) 0xF) (Z.land imm 0xF))
  | 0x53 => decode_fp funct7 funct3 rd rs1 rs2
  | 0x2F =>
      _ ← Gpr_from_encoding rd;
      rs1_reg ← Gpr_from_encoding rs1;
      decode_amo funct7 funct3 rs1_reg rs2
  | _ => None
  end.

(** ** Specification *)

(** What [decode] gives back for an instruction: the destination register of an integer
    instruction is lost, and the instructions without a case are not decoded. *)
Definition decoded (i : Instruction) : option Instruction :=
  match i with
  | Lui _ imm => Some (Lui Ra imm)
  | Auipc _ imm => Some (Auipc Ra imm)
  | Jal _ offset => Some (Jal Ra offset)
  | Jalr _ rs1 imm => Some (Jalr Ra rs1 imm)
  | Lb _ rs1 imm => Some (Lb Ra rs1 imm)
  | Lh _ rs1 imm => Some (Lh Ra rs1 imm)
  | Lw _ rs1 imm => Some (Lw Ra rs1 imm)
  | Ld _ rs1 imm => Some (Ld Ra rs1 imm)
  | Lbu _ rs1 imm => Some (Lbu Ra rs1 imm)
  | Lhu _ rs1 imm => Some (Lhu Ra rs1 imm)
  | Lwu _ rs1 imm => Some (Lwu Ra rs1 imm)
  | Addi _ rs1 imm => Some (Addi Ra rs1 imm)
  | Slti _ rs1 imm => Some (Slti Ra rs1 imm)
  | Sltiu _ rs1 imm => Some (Sltiu Ra rs1 imm)
  | Xori _ rs1 imm => Some (Xori Ra rs1 imm)
  | Ori _ rs1 imm => Some (Ori Ra rs1 imm)
  | Andi _ rs1 imm => Some (Andi Ra rs1 imm)
  | Slli _ rs1 shamt => Some (Slli Ra rs1 shamt)
  | Srli _ rs1 shamt => Some (Srli Ra rs1 shamt)
  | Srai _ rs1 shamt => Some (if shamt <? 32 then Srai Ra rs1 shamt else Srli Ra rs1 shamt)
  | Add _ rs1 rs2 => Some (Add Ra rs1 rs2)
  | Sub _ rs1 rs2 => Some (Sub Ra rs1 rs2)
  | Sll _ rs1 rs2 => Some (Sll Ra rs1 rs2)
  | Slt _ rs1 rs2 => Some (Slt Ra rs1 rs2)
  | Sltu _ rs1 rs2 => Some (Sltu Ra rs1 rs2)
  | Xor _ rs1 rs2 => Some (Xor Ra rs1 rs2)
  | Srl _ rs1 rs2 => Some (Srl Ra rs1 rs2)
  | Sra _ rs1 rs2 => Some (Sra Ra rs1 rs2)
  | Or _ rs1 rs2 => Some (Or Ra rs1 rs2)
  | And _ rs1 rs2 => Some (And Ra rs1 rs2)
  | Addw _ rs1 rs2 => Some (Addw Ra rs1 rs2)
  | Subw _ rs1 rs2 => Some (Subw Ra rs1 rs2)
  | Sllw _ rs1 rs2 => Some (Sllw Ra rs1 rs2)
  | Srlw _ rs1 rs2 => Some (Srlw Ra rs1 rs2)
  | Sraw _ rs1 rs2 => Some (Sraw Ra rs1 rs2)
  | Addiw _ rs1 imm => Some (Addiw Ra rs1 imm)
  | Slliw _ rs1 shamt => Some (Slliw Ra rs1 shamt)
  | Srliw _ rs1 shamt => Some (Srliw Ra rs1 shamt)
  | Sraiw _ rs1 shamt => Some (Sraiw Ra rs1 shamt)
  | Mul _ rs1 rs2 => Some (Mul Ra rs1 rs2)
  | Mulh _ rs1 rs2 => Some (Mulh Ra rs1 rs2)
  | Mulhsu _ rs1 rs2 => Some (Mulhsu Ra rs1 rs2)
  | Mulhu _ rs1 rs2 => Some (Mulhu Ra rs1 rs2)
  | Div _ rs1 rs2 => Some (Div Ra rs1 rs2)
  | Divu _ rs1 rs2 => Some (Divu Ra rs1 rs2)
  | Rem _ rs1 rs2 => Some (Rem Ra rs1 rs2)
  | Remu _ rs1 rs2 => Some (Remu Ra rs1 rs2)
  | FsgnjD rd rs1 rs2 => if decide (rs1 = rs2) then Some (FmvD rd rs1) else None
  | Csrrw _ csr rs1 => Some (Csrrw Ra csr rs1)
  | Csrrs _ csr rs1 => Some (Csrrs Ra csr rs1)
  | Csrrc _ csr rs1 => Some (Csrrc Ra csr rs1)
  | Csrrwi _ csr uimm => Some (Csrrwi Ra csr uimm)
  | Csrrsi _ csr uimm => Some (Csrrsi Ra csr uimm)
  | Csrrci _ csr uimm => Some (Csrrci Ra csr uimm)
  | Nop => Some (Addi Ra Zero 0)
  | LrD _ rs1 => Some (LrD Ra rs1)
  | ScD _ rs1 rs2 => Some (ScD Ra rs1 rs2)
  | LrW _ rs1 => Some (LrD Ra rs1)
  | ScW _ rs1 rs2 => Some (ScD Ra rs1 rs2)
  | FaddS _ _ _ | FsubS _ _ _ | FmulS _ _ _ | FdivS _ _ _ | FsqrtS _ _ | FminS _ _ _
  | FmaxS _ _ _ | FsgnjS _ _ _ | FsgnjnS _ _ _ | FsgnjxS _ _ _ | FclassS _ _ | FmvS _ _
  | FsqrtD _ _ | FminD _ _ _ | FmaxD _ _ _ | FsgnjnD _ _ _ | FsgnjxD _ _ _ | FclassD _ _
  | FeqD _ _ _ | FltD _ _ _ | FleD _ _ _ | FeqS _ _ _ | FltS _ _ _ | FleS _ _ _ | FcvtLS _ _
  | FcvtLUS _ _ | FcvtLD _ _ | FcvtLUD _ _ | FmvXW _ _ | FmvWX _ _ | FmvXD _ _ | FmvDX _ _
  | AmoaddW _ _ _ | AmoaddD _ _ _ | AmoswapW _ _ _ | AmoswapD _ _ _ | AmoxorW _ _ _
  | AmoxorD _ _ _ | AmoandW _ _ _ | AmoandD _ _ _ | AmoorW _ _ _ | AmoorD _ _ _
  | AmomaxW _ _ _ | AmomaxD _ _ _ | AmominW _ _ _ | AmominD _ _ _ | AmomaxWu _ _ _
  | AmomaxDu _ _ _ | AmominWu _ _ _ | AmominDu _ _ _ => None
  | _ => Some i
  end.
(** The operands an instruction can hold: immediates that fit their field, even offsets,
    upper immediates without low bits. *)
Definition imm12 (z : Z) : Prop := - 2048 ≤ z < 2048.
Definition encodable (i : Instruction) : Prop :=
  match i with
  | Lui _ imm | Auipc _ imm => 0 ≤ imm < 2 ^ 32 ∧ imm `mod` 4096 = 0
  | Jal _ offset => - 2 ^ 20 ≤ offset < 2 ^ 20 ∧ offset `mod` 2 = 0
  | Beq _ _ offset | Bne _ _ offset | Blt _ _ offset | Bge _ _ offset | Bltu _ _ offset
  | Bgeu _ _ offset => - 4096 ≤ offset < 4096 ∧ offset `mod` 2 = 0
  | Jalr _ _ imm | Lb _ _ imm | Lh _ _ imm | Lw _ _ imm | Ld _ _ imm | Lbu _ _ imm
  | Lhu _ _ imm | Lwu _ _ imm | Sb _ _ imm | Sh _ _ imm | Sw _ _ imm | Sd _ _ imm
  | Addi _ _ imm | Slti _ _ imm | Sltiu _ _ imm | Xori _ _ imm | Ori _ _ imm | Andi _ _ imm
  | Addiw _ _ imm | Flw _ _ imm | Fld _ _ imm | Fsw _ _ imm | Fsd _ _ imm => imm12 imm
  | Slli _ _ shamt | Srli _ _ shamt | Srai _ _ shamt => 0 ≤ shamt < 64
  | Slliw _ _ shamt | Srliw _ _ shamt | Sraiw _ _ shamt => 0 ≤ shamt < 32
  | Csrrw _ csr _ | Csrrs _ csr _ | Csrrc _ csr _ => 0 ≤ csr < 4096
  | Csrrwi _ csr uimm | Csrrsi _ csr uimm | Csrrci _ csr uimm =>
      0 ≤ csr < 4096 ∧ 0 ≤ uimm < 32
  | Fence pred succ => 0 ≤ pred < 16 ∧ 0 ≤ succ < 16
  | _ => True
  end.

(** A word from its fields. *)
Definition pack (op rd f3 rs1 rs2 f7 : Z) : Z :=
  op + rd * 2 ^ 7 + f3 * 2 ^ 12 + rs1 * 2 ^ 15 + rs2 * 2 ^ 20 + f7 * 2 ^ 25.

Definition fields_ok (op rd f3 rs1 rs2 f7 : Z) : Prop :=
  (0 ≤ op < 128 ∧ 0 ≤ rd < 32 ∧ 0 ≤ f3 < 8) ∧ 0 ≤ rs1 < 32 ∧ 0 ≤ rs2 < 32 ∧ 0 ≤ f7 < 128.

(** ** Lemmas *)

Lemma Gpr_encoding_range r : 0 ≤ Gpr_encoding r < 32.
Proof. destruct r; simpl; lia. Qed.
Lemma Fpr_encoding_range r : 0 ≤ Fpr_encoding r < 32.
Proof. destruct r; simpl; lia. Qed.
Lemma Gpr_from_to r : Gpr_from_encoding (Gpr_encoding r) = Some r.
Proof. by destruct r. Qed.
Lemma Fpr_from_to r : Fpr_from_encoding (Fpr_encoding r) = Some r.
Proof. by destruct r. Qed.
Lemma Gpr_from_some z : 0 ≤ z < 32 → is_Some (Gpr_from_encoding z).
Proof.
  intros Hz. assert (z ∈ seqZ 0 32) as Hin by (apply elem_of_seqZ; lia). clear Hz.
  assert (Forall (λ z, is_Some (Gpr_from_encoding z)) (seqZ 0 32)) as Hall
    by (vm_compute seqZ; repeat constructor; eexists; reflexivity).
  by eapply Forall_forall in Hall.
Qed.

Lemma land_low x n : 0 ≤ n → Z.land x (Z.ones n) = x `mod` 2 ^ n.
Proof. apply Z.land_ones. Qed.

Lemma lor_add a b n : 0 ≤ n → 0 ≤ b < 2 ^ n → Z.lor (Z.shiftl a n) b = a * 2 ^ n + b.
Proof.
  intros Hn Hb.
  assert (Z.land (Z.shiftl a n) b = 0) as H0.
  { apply Z.bits_inj'. intros i Hi. rewrite Z.land_spec, Z.bits_0. destruct (Z.lt_ge_cases i n).
    - by rewrite Z.shiftl_spec_low.
    - rewrite <-(Z.mod_small b (2 ^ n)), Z.mod_pow2_bits_high by lia. apply andb_false_r. }
  rewrite <-Z.lxor_lor, <-Z.add_nocarry_lxor, Z.shiftl_mul_pow2 by done. done.
Qed.

(** Turn a chain of shifted fields into a sum, from its right end. *)
Ltac sum_fields :=
  rewrite <-!Z.lor_assoc;
  repeat match goal with
  | |- context [Z.lor (Z.shiftl ?a ?n) ?b] =>
      lazymatch b with
      | context [Z.lor] => fail
      | _ => rewrite (lor_add a b n) by lia
      end
  end.

Lemma bytes_roundtrip w : is_u32 w → from_le_bytes (to_le_bytes w) = w.
Proof.
  unfold is_u32, from_le_bytes, to_le_bytes. cbn [foldr]. intros Hw.
  change 65536 with (256 * 256). change 16777216 with (256 * 256 * 256).
  rewrite <-!Z.div_div by lia.
  pose proof (Z.div_mod w 256 ltac:(lia)). pose proof (Z.div_mod (w / 256) 256 ltac:(lia)).
  pose proof (Z.div_mod (w / 256 / 256) 256 ltac:(lia)).
  rewrite (Z.mod_small (w / 256 / 256 / 256)); [lia|].
  rewrite !Z.div_div by lia. split; [apply Z.div_pos; lia|]. apply Z.div_lt_upper_bound; lia.
Qed.

Lemma pack_u32 op rd f3 rs1 rs2 f7 : fields_ok op rd f3 rs1 rs2 f7 → is_u32 (pack op rd f3 rs1 rs2 f7).
Proof. unfold fields_ok, is_u32, pack. lia. Qed.

Lemma pack_fields op rd f3 rs1 rs2 f7 (w := pack op rd f3 rs1 rs2 f7) :
  fields_ok op rd f3 rs1 rs2 f7 →
  Z.land w 0x7F = op ∧ Z.land (Z.shiftr w 7) 0x1F = rd ∧ Z.land (Z.shiftr w 12) 0x7 = f3 ∧
  Z.land (Z.shiftr w 15) 0x1F = rs1 ∧ Z.land (Z.shiftr w 20) 0x1F = rs2 ∧
  Z.land (Z.shiftr w 25) 0x7F = f7.
Proof.
  subst w. unfold fields_ok, pack. intros H.
  rewrite (land_low _ 7), !(land_low _ 5), (land_low _ 3), (land_low _ 7) by done.
  rewrite !Z.shiftr_div_pow2 by done.
  repeat split; Z.to_euclidean_division_equations; lia.
Qed.

Lemma r_word funct7 rs2 rs1 funct3 rd opcode :
  fields_ok opcode rd funct3 rs1 rs2 funct7 →
  from_le_bytes (encode_r_type funct7 rs2 rs1 funct3 rd opcode) =
  pack opcode rd funct3 rs1 rs2 funct7.
Proof.
  intros H. unfold encode_r_type. pose proof (pack_u32 _ _ _ _ _ _ H) as Hw.
  rewrite (land_low _ 7), !(land_low _ 5), (land_low _ 3), (land_low _ 7) by done.
  unfold fields_ok, pack in *. rewrite !Z.mod_small by lia. sum_fields. rewrite bytes_roundtrip; [lia|]. unfold is_u32 in *. lia.
Qed.

Lemma i_word imm rs1 funct3 rd opcode :
  0 ≤ imm < 4096 → fields_ok opcode rd funct3 rs1 0 0 →
  from_le_bytes (encode_i_type imm rs1 funct3 rd opcode) =
  pack opcode rd funct3 rs1 (imm `mod` 32) (imm / 32).
Proof.
  intros Hi H. unfold encode_i_type.
  rewrite (land_low _ 12), !(land_low _ 5), (land_low _ 3), (land_low _ 7) by done.
  unfold fields_ok, pack in *.
  rewrite (Z.mod_small imm (2 ^ 12)), (Z.mod_small rs1), (Z.mod_small funct3), (Z.mod_small rd),
    (Z.mod_small opcode) by lia.
  sum_fields. rewrite bytes_roundtrip.
  - pose proof (Z.div_mod imm 32 ltac:(lia)). lia.
  - unfold is_u32. lia.
Qed.

Lemma s_word imm rs2 rs1 funct3 opcode :
  0 ≤ imm < 4096 → fields_ok opcode 0 funct3 rs1 rs2 0 →
  from_le_bytes (encode_s_type imm rs2 rs1 funct3 opcode) =
  pack opcode (imm `mod` 32) funct3 rs1 rs2 (imm / 32).
Proof.
  intros Hi H. unfold encode_s_type.
  rewrite !(land_low _ 7), !(land_low _ 5), (land_low _ 3) by done.
  rewrite Z.shiftr_div_pow2 by done. change (2 ^ 5) with 32. change (2 ^ 7) with 128.
  assert (0 ≤ imm `mod` 32 < 32 ∧ 0 ≤ imm / 32 < 128) as [Hm Hd]
    by (Z.to_euclidean_division_equations; lia).
  unfold fields_ok, pack in *.
  rewrite (Z.mod_small (imm / 32)), (Z.mod_small rs2), (Z.mod_small rs1), (Z.mod_small funct3),
    (Z.mod_small opcode) by lia.
  sum_fields. rewrite bytes_roundtrip; [lia|]. unfold is_u32. lia.
Qed.

Lemma b_word imm rs2 rs1 funct3 opcode (u := wrap32 imm) :
  fields_ok opcode 0 funct3 rs1 rs2 0 →
  from_le_bytes (encode_b_type imm rs2 rs1 funct3 opcode) =
  pack opcode (((u / 2) `mod` 16) * 2 + (u / 2048) `mod` 2) funct3 rs1 rs2
    (((u / 4096) `mod` 2) * 64 + (u / 32) `mod` 64).
Proof.
  intros H. unfold encode_b_type. fold u.
  rewrite (land_low _ 7), !(land_low _ 5), (land_low _ 3), !(land_low _ 1), (land_low _ 6),
    (land_low _ 4) by done.
  rewrite !Z.shiftr_div_pow2 by done.
  change (2 ^ 12) with 4096. change (2 ^ 5) with 32. change (2 ^ 11) with 2048. change (2 ^ 1) with 2.
  change (2 ^ 6) with 64. change (2 ^ 4) with 16.
  pose proof (Z.mod_pos_bound (u / 2) 16). pose proof (Z.mod_pos_bound (u / 2048) 2).
  pose proof (Z.mod_pos_bound (u / 4096) 2). pose proof (Z.mod_pos_bound (u / 32) 64).
  unfold fields_ok, pack in *.
  rewrite (Z.mod_small rs2), (Z.mod_small rs1), (Z.mod_small funct3), (Z.mod_small opcode) by lia.
  sum_fields. rewrite bytes_roundtrip; [lia|]. unfold is_u32. lia.
Qed.

Lemma u_word imm rd opcode :
  is_u32 imm → imm `mod` 4096 = 0 → fields_ok opcode rd 0 0 0 0 →
  from_le_bytes (encode_u_type imm rd opcode) =
  pack opcode rd ((imm / 4096) `mod` 8) ((imm / 32768) `mod` 32) ((imm / 1048576) `mod` 32)
    (imm / 33554432) ∧
  from_le_bytes (encode_u_type imm rd opcode) = imm + rd * 128 + opcode.
Proof.
  intros Hi H0 H. unfold is_u32 in Hi.
  assert (from_le_bytes (encode_u_type imm rd opcode) = imm + rd * 128 + opcode) as ->.
  { unfold encode_u_type. rewrite (land_low _ 5), (land_low _ 7) by done.
    assert (Z.land imm 0xFFFFF000 = Z.shiftl (imm / 4096) 12) as ->.
    { change 0xFFFFF000 with (Z.shiftl (Z.ones 20) 12).
      rewrite (proj2 (Z.div_exact imm 4096 ltac:(lia)) H0) at 1.
      rewrite Z.mul_comm, <-(Z.shiftl_mul_pow2 _ 12), <-Z.shiftl_land, Z.land_ones by done.
      rewrite Z.mod_small; [done|]. Z.to_euclidean_division_equations; lia. }
    unfold fields_ok in H. rewrite !Z.mod_small by lia. sum_fields.
    pose proof (proj2 (Z.div_exact imm 4096 ltac:(lia)) H0).
    rewrite bytes_roundtrip; [lia|]. unfold is_u32. lia. }
  split; [|done]. unfold pack. Z.to_euclidean_division_equations. lia.
Qed.

Lemma j_word imm rd opcode (u := wrap32 imm) :
  fields_ok opcode rd 0 0 0 0 →
  from_le_bytes (encode_j_type imm rd opcode) =
  pack opcode rd ((u / 4096) `mod` 8) ((u / 32768) `mod` 32)
    (((u / 2) `mod` 16) * 2 + (u / 2048) `mod` 2)
    (((u / 1048576) `mod` 2) * 64 + (u / 32) `mod` 64).
Proof.
  intros H. unfold encode_j_type. fold u.
  rewrite (land_low _ 7), !(land_low _ 5), !(land_low _ 1), (land_low _ 10), (land_low _ 8) by done.
  rewrite !Z.shiftr_div_pow2 by done.
  change (2 ^ 20) with 1048576. change (2 ^ 11) with 2048. change (2 ^ 12) with 4096.
  change (2 ^ 10) with 1024. change (2 ^ 8) with 256. change (2 ^ 1) with 2.
  pose proof (Z.mod_pos_bound (u / 1048576) 2). pose proof (Z.mod_pos_bound (u / 2) 1024).
  pose proof (Z.mod_pos_bound (u / 2048) 2). pose proof (Z.mod_pos_bound (u / 4096) 256).
  unfold fields_ok, pack in *. rewrite (Z.mod_small rd), (Z.mod_small opcode) by lia.
  sum_fields. rewrite bytes_roundtrip; [|unfold is_u32; lia].
  clear. clearbody u. Z.to_euclidean_division_equations. lia.
Qed.

Lemma shift_word_pack k shamt n rs1 funct3 rd opcode (s := shamt `mod` 2 ^ n) :
  0 ≤ k < 64 → 0 ≤ n ≤ 6 → fields_ok opcode rd funct3 rs1 0 0 →
  from_le_bytes (shift_word (k * 2) shamt (Z.ones n) rs1 funct3 rd opcode) =
  pack opcode rd funct3 rs1 (s `mod` 32) (k * 2 + s / 32).
Proof.
  intros Hk Hn H. unfold shift_word. rewrite (land_low _ n) by lia. fold s.
  assert (0 ≤ s < 64) as Hs.
  { subst s. pose proof (Z.mod_pos_bound shamt (2 ^ n) ltac:(apply Z.pow_pos_nonneg; lia)).
    pose proof (Z.pow_le_mono_r 2 n 6). lia. }
  clearbody s. clear shamt n Hn.
  assert (Z.shiftl (k * 2) 25 = Z.shiftl k 26) as -> by (rewrite !Z.shiftl_mul_pow2; lia).
  unfold fields_ok, pack in *. sum_fields. rewrite bytes_roundtrip; [|unfold is_u32; lia].
  pose proof (Z.div_mod s 32 ltac:(lia)). lia.
Qed.

(** *** Immediates *)

(** A sign extension of [w] bits gives back an integer that fits. *)
Lemma sext_shift_small z w :
  0 < w ≤ 31 → - 2 ^ (w - 1) ≤ z < 2 ^ (w - 1) → sext_shift (z `mod` 2 ^ w) (32 - w) = z.
Proof.
  intros Hw Hz. unfold sext_shift. rewrite Z.shiftl_mul_pow2 by lia.
  assert (2 ^ 32 = 2 ^ w * 2 ^ (32 - w)) as Hp by (rewrite <-Z.pow_add_r by lia; f_equal; lia).
  assert (2 ^ w = 2 * 2 ^ (w - 1)) as Hw2 by (rewrite <-(Z.pow_succ_r 2 (w - 1)) by lia; f_equal; lia).
  assert (0 < 2 ^ (32 - w)) as Hpos by (apply Z.pow_pos_nonneg; lia).
  assert (0 < 2 ^ (w - 1)) as Hpos' by (apply Z.pow_pos_nonneg; lia).
  unfold as_i32, wrap32. rewrite Hp, Z.mul_mod_distr_r, Z.mod_mod by lia.
  rewrite Z.shiftr_div_pow2 by lia.
  assert (2 ^ 31 = 2 ^ (w - 1) * 2 ^ (32 - w)) as -> by (rewrite <-Z.pow_add_r by lia; f_equal; lia).
  destruct (Z.lt_ge_cases z 0).
  - rewrite <-(Z.mod_unique z (2 ^ w) (-1) (z + 2 ^ w)) by lia.
    destruct (Z.ltb_spec ((z + 2 ^ w) * 2 ^ (32 - w)) (2 ^ (w - 1) * 2 ^ (32 - w))); [nia|].
    rewrite <-Z.mul_sub_distr_r, Z.div_mul by lia. lia.
  - rewrite Z.mod_small by lia.
    destruct (Z.ltb_spec (z * 2 ^ (32 - w)) (2 ^ (w - 1) * 2 ^ (32 - w))); [|nia].
    by rewrite Z.div_mul by lia.
Qed.

Lemma imm_field z : imm12 z → Z.land (wrap32 z) 0xFFF = z `mod` 4096 ∧ 0 ≤ z `mod` 4096 < 4096.
Proof.
  intros Hz. rewrite (land_low _ 12) by done. unfold wrap32. split; [|apply Z.mod_pos_bound; lia].
  change (2 ^ 32) with (4096 * 1048576). change (2 ^ 12) with 4096.
  rewrite Z.rem_mul_r by lia. rewrite Z.mul_comm, Z.mod_add by lia. by apply Z.mod_mod.
Qed.

Lemma high_fields op rd f3 rs1 rs2 f7 :
  fields_ok op rd f3 rs1 rs2 f7 → Z.shiftr (pack op rd f3 rs1 rs2 f7) 20 = rs2 + f7 * 32.
Proof.
  intros H. rewrite Z.shiftr_div_pow2 by done. unfold fields_ok, pack in *.
  Z.to_euclidean_division_equations. lia.
Qed.

Lemma i_imm_pack op rd f3 rs1 imm (z := imm `mod` 4096) :
  imm12 imm → fields_ok op rd f3 rs1 0 0 →
  fields_ok op rd f3 rs1 (z `mod` 32) (z / 32) ∧
  i_imm (pack op rd f3 rs1 (z `mod` 32) (z / 32)) = imm.
Proof.
  intros Hi H. assert (0 ≤ z < 4096) by (subst z; apply Z.mod_pos_bound; lia).
  assert (fields_ok op rd f3 rs1 (z `mod` 32) (z / 32)) as Hf.
  { unfold fields_ok in *. Z.to_euclidean_division_equations. lia. }
  split; [done|]. unfold i_imm. rewrite high_fields by done.
  replace (z `mod` 32 + z / 32 * 32) with z by (pose proof (Z.div_mod z 32 ltac:(lia)); lia).
  subst z. by apply (sext_shift_small imm 12).
Qed.

Lemma s_imm_pack op f3 rs1 rs2 imm (z := imm `mod` 4096) :
  imm12 imm → fields_ok op 0 f3 rs1 rs2 0 →
  fields_ok op (z `mod` 32) f3 rs1 rs2 (z / 32) ∧
  s_imm (pack op (z `mod` 32) f3 rs1 rs2 (z / 32)) = imm.
Proof.
  intros Hi H. assert (0 ≤ z < 4096) by (subst z; apply Z.mod_pos_bound; lia).
  assert (fields_ok op (z `mod` 32) f3 rs1 rs2 (z / 32)) as Hf.
  { unfold fields_ok in *. Z.to_euclidean_division_equations. lia. }
  split; [done|]. unfold s_imm. apply pack_fields in Hf as Hp.
  destruct Hp as (_ & -> & _ & _ & _ & ->).
  rewrite (lor_add _ _ 5) by (unfold fields_ok in Hf; lia).
  replace (z / 32 * 2 ^ 5 + z `mod` 32) with z by (pose proof (Z.div_mod z 32 ltac:(lia)); lia).
  subst z. by apply (sext_shift_small imm 12).
Qed.

Lemma wrap32_bits z k n :
  0 ≤ k → 0 ≤ n → k + n ≤ 32 → (wrap32 z / 2 ^ k) `mod` 2 ^ n = (z / 2 ^ k) `mod` 2 ^ n.
Proof.
  intros Hk Hn Hkn. unfold wrap32. rewrite <-!Z.land_ones, <-!Z.shiftr_div_pow2 by lia.
  apply Z.bits_inj'. intros i Hi. rewrite !Z.land_spec, !Z.shiftr_spec, Z.land_spec by lia.
  rewrite !Z.testbit_ones_nonneg by lia.
  destruct (Z.ltb_spec i n), (Z.ltb_spec (i + k) 32); try lia; by rewrite ?andb_true_r, ?andb_false_r.
Qed.

Lemma b_imm_pack op f3 rs1 rs2 z (u := wrap32 z)
    (rd := ((u / 2) `mod` 16) * 2 + (u / 2048) `mod` 2)
    (f7 := ((u / 4096) `mod` 2) * 64 + (u / 32) `mod` 64) :
  - 4096 ≤ z < 4096 → z `mod` 2 = 0 → fields_ok op 0 f3 rs1 rs2 0 →
  fields_ok op rd f3 rs1 rs2 f7 ∧ b_imm (pack op rd f3 rs1 rs2 f7) = z.
Proof.
  intros Hz H2 H. unfold u in rd, f7.
  pose proof (wrap32_bits z 1 4). pose proof (wrap32_bits z 11 1). pose proof (wrap32_bits z 12 1).
  pose proof (wrap32_bits z 5 6). clear u.
  change (2 ^ 1) with 2 in *. change (2 ^ 4) with 16 in *. change (2 ^ 11) with 2048 in *.
  change (2 ^ 12) with 4096 in *. change (2 ^ 5) with 32 in *. change (2 ^ 6) with 64 in *.
  subst rd f7. rewrite H0, H1, H3, H4 by lia. clear H0 H1 H3 H4.
  set (rd := (z / 2) `mod` 16 * 2 + (z / 2048) `mod` 2).
  set (f7 := (z / 4096) `mod` 2 * 64 + (z / 32) `mod` 64).
  pose proof (Z.mod_pos_bound (z / 2) 16). pose proof (Z.mod_pos_bound (z / 2048) 2).
  pose proof (Z.mod_pos_bound (z / 4096) 2). pose proof (Z.mod_pos_bound (z / 32) 64).
  assert (fields_ok op rd f3 rs1 rs2 f7) as Hf by (unfold fields_ok in *; subst rd f7; lia).
  split; [done|]. unfold b_imm.
  set (w := pack op rd f3 rs1 rs2 f7).
  assert (Z.land (Z.shiftr w 31) 1 = f7 / 64 ∧ Z.land (Z.shiftr w 7) 1 = rd `mod` 2 ∧
          Z.land (Z.shiftr w 25) 0x3F = f7 `mod` 64 ∧ Z.land (Z.shiftr w 8) 0xF = rd / 2)
    as (-> & -> & -> & ->).
  { rewrite !(land_low _ 1), (land_low _ 6), (land_low _ 4), !Z.shiftr_div_pow2 by done.
    subst w. unfold fields_ok, pack in *. clearbody rd f7. clear -Hf.
    repeat split; Z.to_euclidean_division_equations; lia. }
  assert (f7 / 64 = (z / 4096) `mod` 2 ∧ rd `mod` 2 = (z / 2048) `mod` 2 ∧
          f7 `mod` 64 = (z / 32) `mod` 64 ∧ rd / 2 = (z / 2) `mod` 16) as (-> & -> & -> & ->)
    by (subst rd f7; clear -H0 H1 H3 H4; Z.to_euclidean_division_equations; lia).
  rewrite (Z.shiftl_mul_pow2 _ 1) by done. sum_fields.
  rewrite <-(sext_shift_small z 13) at 5 by lia. f_equal.
  clear -H2. Z.to_euclidean_division_equations. lia.
Qed.

Lemma j_imm_pack op rd z (u := wrap32 z)
    (f3 := (u / 4096) `mod` 8) (rs1 := (u / 32768) `mod` 32)
    (rs2 := ((u / 2) `mod` 16) * 2 + (u / 2048) `mod` 2)
    (f7 := ((u / 1048576) `mod` 2) * 64 + (u / 32) `mod` 64) :
  - 2 ^ 20 ≤ z < 2 ^ 20 → z `mod` 2 = 0 → fields_ok op rd 0 0 0 0 →
  fields_ok op rd f3 rs1 rs2 f7 ∧ j_imm (pack op rd f3 rs1 rs2 f7) = z.
Proof.
  intros Hz H2 H. unfold u in f3, rs1, rs2, f7.
  pose proof (wrap32_bits z 12 3) as E1. pose proof (wrap32_bits z 15 5) as E2.
  pose proof (wrap32_bits z 1 4) as E3. pose proof (wrap32_bits z 11 1) as E4.
  pose proof (wrap32_bits z 20 1) as E5. pose proof (wrap32_bits z 5 6) as E6. clear u.
  change (2 ^ 1) with 2 in *. change (2 ^ 4) with 16 in *. change (2 ^ 11) with 2048 in *.
  change (2 ^ 12) with 4096 in *. change (2 ^ 5) with 32 in *. change (2 ^ 6) with 64 in *.
  change (2 ^ 3) with 8 in *. change (2 ^ 15) with 32768 in *. change (2 ^ 20) with 1048576 in *.
  subst f3 rs1 rs2 f7. rewrite E1, E2, E3, E4, E5, E6 by lia. clear E1 E2 E3 E4 E5 E6.
  set (f3 := (z / 4096) `mod` 8). set (rs1 := (z / 32768) `mod` 32).
  set (rs2 := (z / 2) `mod` 16 * 2 + (z / 2048) `mod` 2).
  set (f7 := (z / 1048576) `mod` 2 * 64 + (z / 32) `mod` 64).
  pose proof (Z.mod_pos_bound (z / 4096) 8) as B1. pose proof (Z.mod_pos_bound (z / 32768) 32) as B2.
  pose proof (Z.mod_pos_bound (z / 2) 16) as B3. pose proof (Z.mod_pos_bound (z / 2048) 2) as B4.
  pose proof (Z.mod_pos_bound (z / 1048576) 2) as B5. pose proof (Z.mod_pos_bound (z / 32) 64) as B6.
  assert (fields_ok op rd f3 rs1 rs2 f7) as Hf by (unfold fields_ok in *; subst f3 rs1 rs2 f7; lia).
  split; [done|]. unfold j_imm. set (w := pack op rd f3 rs1 rs2 f7).
  assert (Z.land (Z.shiftr w 31) 1 = f7 / 64 ∧ Z.land (Z.shiftr w 12) 0xFF = f3 + rs1 * 8 ∧
          Z.land (Z.shiftr w 20) 1 = rs2 `mod` 2 ∧ Z.land (Z.shiftr w 21) 0x3FF = rs2 / 2 + (f7 `mod` 64) * 16)
    as (-> & -> & -> & ->).
  { rewrite !(land_low _ 1), (land_low _ 8), (land_low _ 10), !Z.shiftr_div_pow2 by done.
    subst w. unfold fields_ok, pack in *. clearbody f3 rs1 rs2 f7. clear -Hf.
    repeat split; Z.to_euclidean_division_equations; lia. }
  assert (f7 / 64 = (z / 1048576) `mod` 2 ∧ rs2 `mod` 2 = (z / 2048) `mod` 2 ∧
          f7 `mod` 64 = (z / 32) `mod` 64 ∧ rs2 / 2 = (z / 2) `mod` 16) as (-> & -> & -> & ->)
    by (subst rs2 f7; clear -B3 B4 B5 B6; Z.to_euclidean_division_equations; lia).
  subst f3 rs1. rewrite (Z.shiftl_mul_pow2 _ 1) by done. sum_fields.
  rewrite <-(sext_shift_small z 21) at 7 by lia. f_equal.
  clear -H2. Z.to_euclidean_division_equations. lia.
Qed.

(** *** Decoding an encoded instruction *)

Lemma upper_mask imm rd op :
  is_u32 imm → imm `mod` 4096 = 0 → 0 ≤ rd < 32 → 0 ≤ op < 128 →
  Z.land (imm + rd * 128 + op) 0xFFFFF000 = imm.
Proof.
  intros Hi H0 Hr Ho. unfold is_u32 in Hi. change 0xFFFFF000 with (Z.shiftl (Z.ones 20) 12).
  assert (imm + rd * 128 + op = Z.lor (Z.shiftl (imm / 4096) 12) (rd * 128 + op)) as ->.
  { rewrite lor_add by lia. pose proof (proj2 (Z.div_exact imm 4096 ltac:(lia)) H0). lia. }
  rewrite Z.land_lor_distr_l, <-Z.shiftl_land, Z.land_ones by done.
  rewrite (Z.mod_small (imm / 4096)) by (Z.to_euclidean_division_equations; lia).
  assert (Z.land (rd * 128 + op) (Z.shiftl (Z.ones 20) 12) = 0) as ->.
  { apply Z.bits_inj'. intros i Hb. rewrite Z.land_spec, Z.bits_0.
    destruct (Z.lt_ge_cases i 12); [by rewrite Z.shiftl_spec_low, andb_false_r|].
    rewrite <-(Z.mod_small (rd * 128 + op) (2 ^ 12)), Z.mod_pow2_bits_high by lia. done. }
  rewrite Z.lor_0_r, Z.shiftl_mul_pow2 by done.
  pose proof (proj2 (Z.div_exact imm 4096 ltac:(lia)) H0). lia.
Qed.

(** [decode] of a word with known fields. *)
Ltac take_fields H :=
  let E := fresh "Ef" in
  pose proof (pack_fields _ _ _ _ _ _ H) as E; cbv zeta in E; unfold decode;
  destruct E as (-> & -> & -> & -> & -> & ->).

Ltac fields := unfold fields_ok; repeat split; try apply Gpr_encoding_range;
  try apply Fpr_encoding_range; lia.

Section decode_formats.
  Context (rd rs1 rs2 : Gpr) (f3 f7 : Z) (H3 : 0 ≤ f3 < 8) (H7 : 0 ≤ f7 < 128).

#[local] Set Default Proof Using "Type*".

Lemma decode_op_word :
  decode (from_le_bytes
    (encode_r_type f7 (Gpr_encoding rs2) (Gpr_encoding rs1) f3 (Gpr_encoding rd) OP_REG)) =
  decode_op f7 f3 rs1 rs2.
Proof.
  assert (fields_ok OP_REG (Gpr_encoding rd) f3 (Gpr_encoding rs1) (Gpr_encoding rs2) f7) as H
    by (unfold OP_REG; fields).
  rewrite r_word by done. take_fields H. unfold OP_REG. by rewrite !Gpr_from_to.
Qed.

Lemma decode_op_32_word :
  decode (from_le_bytes
    (encode_r_type f7 (Gpr_encoding rs2) (Gpr_encoding rs1) f3 (Gpr_encoding rd) OP_REG32)) =
  decode_op_32 f7 f3 rs1 rs2.
Proof.
  assert (fields_ok OP_REG32 (Gpr_encoding rd) f3 (Gpr_encoding rs1) (Gpr_encoding rs2) f7) as H
    by (unfold OP_REG32; fields).
  rewrite r_word by done. take_fields H. unfold OP_REG32. by rewrite !Gpr_from_to.
Qed.

Lemma decode_amo_word z :
  0 ≤ z < 32 →
  decode (from_le_bytes (encode_r_type f7 z (Gpr_encoding rs1) f3 (Gpr_encoding rd) 0x2F)) =
  decode_amo f7 f3 rs1 z.
Proof.
  intros Hz. assert (fields_ok 0x2F (Gpr_encoding rd) f3 (Gpr_encoding rs1) z f7) as H by fields.
  rewrite r_word by done. take_fields H. by rewrite !Gpr_from_to.
Qed.

Lemma decode_fp_word z2 z1 zd :
  0 ≤ z2 < 32 → 0 ≤ z1 < 32 → 0 ≤ zd < 32 →
  decode (from_le_bytes (encode_r_type f7 z2 z1 f3 zd OP_FP)) = decode_fp f7 f3 zd z1 z2.
Proof.
  intros ? ? ?. assert (fields_ok OP_FP zd f3 z1 z2 f7) as Hf by (unfold OP_FP; fields).
  rewrite r_word by done. take_fields Hf. reflexivity.
Qed.

Section immediate.
  Context (imm : Z) (Hi : imm12 imm).

Lemma i_type_word z op :
  0 ≤ z < 32 → 0 ≤ op < 128 →
  let m := imm `mod` 4096 in
  from_le_bytes (encode_i_type (Z.land (wrap32 imm) 0xFFF) (Gpr_encoding rs1) f3 z op) =
    pack op z f3 (Gpr_encoding rs1) (m `mod` 32) (m / 32) ∧
  fields_ok op z f3 (Gpr_encoding rs1) (m `mod` 32) (m / 32) ∧
  i_imm (pack op z f3 (Gpr_encoding rs1) (m `mod` 32) (m / 32)) = imm.
Proof.
  intros Hz Ho m. destruct (imm_field imm Hi) as [-> Hm].
  assert (fields_ok op z f3 (Gpr_encoding rs1) 0 0) as H by fields.
  rewrite i_word by done. split; [done|]. by apply i_imm_pack.
Qed.

Lemma s_type_word z op :
  0 ≤ z < 32 → 0 ≤ op < 128 →
  let m := imm `mod` 4096 in
  from_le_bytes (encode_s_type (Z.land (wrap32 imm) 0xFFF) z (Gpr_encoding rs1) f3 op) =
    pack op (m `mod` 32) f3 (Gpr_encoding rs1) z (m / 32) ∧
  fields_ok op (m `mod` 32) f3 (Gpr_encoding rs1) z (m / 32) ∧
  s_imm (pack op (m `mod` 32) f3 (Gpr_encoding rs1) z (m / 32)) = imm.
Proof.
  intros Hz Ho m. destruct (imm_field imm Hi) as [-> Hm].
  assert (fields_ok op 0 f3 (Gpr_encoding rs1) z 0) as H by fields.
  rewrite s_word by done. split; [done|]. by apply s_imm_pack.
Qed.
End immediate.
End decode_formats.

(** One case of the theorem: the word of the format, its fields, the arm of the opcode. *)
Ltac decode_i imm Hi :=
  match goal with
  | |- context [encode_i_type _ (Gpr_encoding ?rs1) ?f3 ?z ?op] =>
      let Hf := fresh "Hf" in let Ei := fresh "Ei" in
      pose proof (i_type_word rs1 f3 ltac:(lia) imm Hi z op
        ltac:(first [apply Gpr_encoding_range|apply Fpr_encoding_range]) ltac:(cbv; done)) as (-> & Hf & Ei);
      take_fields Hf; rewrite ?Ei, ?high_fields by done; cbv [OP_JALR OP_LOAD OP_IMM OP_IMM32 OP_LOAD_FP];
      rewrite ?Gpr_from_to, ?Fpr_from_to; reflexivity
  end.

Ltac decode_s imm Hi :=
  match goal with
  | |- context [encode_s_type _ ?z (Gpr_encoding ?rs1) ?f3 ?op] =>
      let Hf := fresh "Hf" in let Ei := fresh "Ei" in
      pose proof (s_type_word rs1 f3 ltac:(lia) imm Hi z op
        ltac:(first [apply Gpr_encoding_range|apply Fpr_encoding_range]) ltac:(cbv; done)) as (-> & Hf & Ei);
      take_fields Hf; rewrite ?Ei by done; cbv [OP_STORE OP_STORE_FP];
      rewrite ?Gpr_from_to, ?Fpr_from_to; reflexivity
  end.

Lemma decode_imm_runs i :
  encodable i →
  match i with
  | Jalr _ _ _ | Lb _ _ _ | Lh _ _ _ | Lw _ _ _ | Ld _ _ _ | Lbu _ _ _ | Lhu _ _ _ | Lwu _ _ _
  | Sb _ _ _ | Sh _ _ _ | Sw _ _ _ | Sd _ _ _ | Addi _ _ _ | Slti _ _ _ | Sltiu _ _ _
  | Xori _ _ _ | Ori _ _ _ | Andi _ _ _ | Addiw _ _ _ | Flw _ _ _ | Fld _ _ _ | Fsw _ _ _
  | Fsd _ _ _ => decode (from_le_bytes (encode i)) = decoded i
  | _ => True
  end.
Proof.
  intros H. destruct i; try exact I; cbn [encode encodable] in *;
    first [decode_i imm H | decode_s imm H].
Qed.

Lemma decode_reg_runs i :
  match i with
  | Add _ _ _ | Sub _ _ _ | Sll _ _ _ | Slt _ _ _ | Sltu _ _ _ | Xor _ _ _ | Srl _ _ _
  | Sra _ _ _ | Or _ _ _ | And _ _ _ | Addw _ _ _ | Subw _ _ _ | Sllw _ _ _ | Srlw _ _ _
  | Sraw _ _ _ | Mul _ _ _ | Mulh _ _ _ | Mulhsu _ _ _ | Mulhu _ _ _ | Div _ _ _ | Divu _ _ _
  | Rem _ _ _ | Remu _ _ _ | LrD _ _ | ScD _ _ _ | LrW _ _ | ScW _ _ _ | AmoaddW _ _ _
  | AmoaddD _ _ _ | AmoswapW _ _ _ | AmoswapD _ _ _ | AmoxorW _ _ _ | AmoxorD _ _ _
  | AmoandW _ _ _ | AmoandD _ _ _ | AmoorW _ _ _ | AmoorD _ _ _ | AmomaxW _ _ _ | AmomaxD _ _ _
  | AmominW _ _ _ | AmominD _ _ _ | AmomaxWu _ _ _ | AmomaxDu _ _ _ | AmominWu _ _ _
  | AmominDu _ _ _ => decode (from_le_bytes (encode i)) = decoded i
  | _ => True
  end.
Proof.
  destruct i; try exact I; cbn [encode];
    first [rewrite decode_op_word by lia | rewrite decode_op_32_word by lia |
           rewrite decode_amo_word by (lia || apply Gpr_encoding_range)];
    try reflexivity; unfold decode_amo; by rewrite Gpr_from_to.
Qed.

Lemma Fpr_encoding_eqb r s : (Fpr_encoding r =? Fpr_encoding s) = bool_decide (r = s).
Proof.
  destruct (decide (r = s)) as [->|Hne]; [by rewrite Z.eqb_refl, bool_decide_true|].
  rewrite bool_decide_false by done. apply Z.eqb_neq. intros E. apply Hne.
  assert (Some r = Some s) as [= ->]; [|done]. rewrite <-!Fpr_from_to. by f_equal.
Qed.

(** The FP instructions: the fields of the word, then the table. *)
Lemma decode_fp_runs i :
  match i with
  | FaddD _ _ _ | FsubD _ _ _ | FmulD _ _ _ | FdivD _ _ _ | FmvD _ _ | FaddS _ _ _ | FsubS _ _ _
  | FmulS _ _ _ | FdivS _ _ _ | FsqrtS _ _ | FminS _ _ _ | FmaxS _ _ _ | FsgnjS _ _ _
  | FsgnjnS _ _ _ | FsgnjxS _ _ _ | FclassS _ _ | FmvS _ _ | FsqrtD _ _ | FminD _ _ _
  | FmaxD _ _ _ | FsgnjD _ _ _ | FsgnjnD _ _ _ | FsgnjxD _ _ _ | FclassD _ _ | FeqD _ _ _
  | FltD _ _ _ | FleD _ _ _ | FeqS _ _ _ | FltS _ _ _ | FleS _ _ _ | FcvtSW _ _ | FcvtSWU _ _
  | FcvtSL _ _ | FcvtSLU _ _ | FcvtDW _ _ | FcvtDWU _ _ | FcvtDL _ _ | FcvtDLU _ _ | FcvtWS _ _
  | FcvtWUS _ _ | FcvtLS _ _ | FcvtLUS _ _ | FcvtWD _ _ | FcvtWUD _ _ | FcvtLD _ _ | FcvtLUD _ _
  | FcvtDS _ _ | FcvtSD _ _ | FmvXW _ _ | FmvWX _ _ | FmvXD _ _ | FmvDX _ _ =>
      decode (from_le_bytes (encode i)) = decoded i
  | _ => True
  end.
Proof.
  destruct i; try exact I; cbn [encode];
    rewrite decode_fp_word by (lia || apply Gpr_encoding_range || apply Fpr_encoding_range);
    unfold decode_fp, decode_fp_arith;
    rewrite ?Gpr_from_to, ?Fpr_from_to; cbn [mbind option_bind];
    rewrite ?Z.eqb_refl, ?Fpr_encoding_eqb; try reflexivity;
    try (by repeat destruct (Fpr_from_encoding _)).
  cbn [decoded]. destruct (decide (rs1 = rs2)) as [->|Hne];
    [by rewrite bool_decide_true|by rewrite bool_decide_false].
Qed.

Lemma shift_type_word k n s rd rs1 f3 op :
  0 ≤ k < 64 → 5 ≤ n ≤ 6 → 0 ≤ s < 2 ^ n → 0 ≤ f3 < 8 → 0 ≤ op < 128 →
  let w := pack op (Gpr_encoding rd) f3 (Gpr_encoding rs1) (s `mod` 32) (k * 2 + s / 32) in
  from_le_bytes (shift_word (k * 2) s (Z.ones n) (Gpr_encoding rs1) f3 (Gpr_encoding rd) op) = w ∧
  fields_ok op (Gpr_encoding rd) f3 (Gpr_encoding rs1) (s `mod` 32) (k * 2 + s / 32) ∧
  Z.land (Z.shiftr w 20) (Z.ones n) = s.
Proof.
  intros Hk Hn Hs H3 Ho w. assert (s < 64) by (pose proof (Z.pow_le_mono_r 2 n 6); lia).
  assert (fields_ok op (Gpr_encoding rd) f3 (Gpr_encoding rs1) 0 0) as Hf by fields.
  assert (fields_ok op (Gpr_encoding rd) f3 (Gpr_encoding rs1) (s `mod` 32) (k * 2 + s / 32)) as Hf'.
  { pose proof (Z.mod_pos_bound s 32 ltac:(lia)). pose proof (Z.div_mod s 32 ltac:(lia)).
    assert (0 ≤ s / 32 < 2) by lia. unfold fields_ok in *. lia. }
  split; [|split; [done|]].
  - rewrite shift_word_pack by (done || lia). by rewrite (Z.mod_small s) by done.
  - subst w. rewrite high_fields by done. rewrite Z.land_ones by lia.
    replace (s `mod` 32 + (k * 2 + s / 32) * 32) with (s + k * 64)
      by (pose proof (Z.div_mod s 32 ltac:(lia)); lia).
    assert (k * 64 = (k * 2 ^ (6 - n)) * 2 ^ n) as ->.
    { rewrite <-Z.mul_assoc, <-Z.pow_add_r by lia. by replace (6 - n + n) with 6 by lia. }
    rewrite Z.mod_add by (apply Z.pow_nonzero; lia). by apply Z.mod_small.
Qed.

Ltac decode_shift k n shamt H :=
  match goal with
  | |- context [shift_word _ _ _ (Gpr_encoding ?rs1) ?f3 (Gpr_encoding ?rd) ?op] =>
      let Hw := fresh "Hw" in let Hf := fresh "Hf" in let Es := fresh "Es" in
      pose proof (shift_type_word k n shamt rd rs1 f3 op ltac:(lia) ltac:(lia) H ltac:(lia)
        ltac:(cbv; done)) as (Hw & Hf & Es);
      match goal with |- decode ?w = _ => match type of Hw with ?w' = _ => change w with w' end end;
      rewrite Hw; cbv zeta in Es; take_fields Hf; cbv [OP_IMM OP_IMM32] in *;
      rewrite ?Gpr_from_to; cbn [mbind option_bind];
      match type of Es with Z.land _ ?m = _ =>
        let v := eval vm_compute in m in change m with v in Es end;
      unfold decode_op_imm, decode_op_imm_32;
      first [rewrite Es | rewrite (Z.mod_small shamt 32) by lia]
  end.

Lemma decode_shift_runs i :
  encodable i →
  match i with
  | Slli _ _ _ | Srli _ _ _ | Srai _ _ _ | Slliw _ _ _ | Srliw _ _ _ | Sraiw _ _ _ =>
      decode (from_le_bytes (encode i)) = decoded i
  | _ => True
  end.
Proof.
  assert (∀ s, 0 ≤ s < 64 → 0 ≤ s / 32 < 2 ∧ (s / 32 = 0 ↔ s < 32)) as Hdiv
    by (intros s Hs; split; Z.to_euclidean_division_equations; lia).
  intros H. destruct i; try exact I; cbn [encode encodable] in *.
  - by decode_shift 0 6 shamt H.
  - decode_shift 0 6 shamt H. by rewrite (proj2 (Z.eqb_neq _ _)) by (specialize (Hdiv shamt H); lia).
  - decode_shift 16 6 shamt H. specialize (Hdiv shamt H). cbn [decoded].
    destruct (Z.ltb_spec shamt 32); [by rewrite (proj2 (Z.eqb_eq _ _)) by lia|].
    by rewrite (proj2 (Z.eqb_neq _ _)) by lia.
  - by decode_shift 0 5 shamt H.
  - decode_shift 0 5 shamt H.
    by rewrite (proj2 (Z.eqb_neq _ _)) by (specialize (Hdiv shamt ltac:(lia)); lia).
  - decode_shift 16 5 shamt H. specialize (Hdiv shamt ltac:(lia)).
    by rewrite (proj2 (Z.eqb_eq _ _)) by lia.
Qed.

Lemma u_type_word imm rd op :
  is_u32 imm ∧ imm `mod` 4096 = 0 → 0 ≤ op < 128 →
  ∃ f3 rs1 rs2 f7, let w := pack op (Gpr_encoding rd) f3 rs1 rs2 f7 in
    from_le_bytes (encode_u_type imm (Gpr_encoding rd) op) = w ∧
    fields_ok op (Gpr_encoding rd) f3 rs1 rs2 f7 ∧ Z.land w 0xFFFFF000 = imm.
Proof.
  intros [Hi H0] Ho. assert (fields_ok op (Gpr_encoding rd) 0 0 0 0) as Hf by fields.
  destruct (u_word imm (Gpr_encoding rd) op Hi H0 Hf) as [E1 E2].
  do 4 eexists. split; [exact E1|]. split.
  - unfold fields_ok, is_u32 in *.
    pose proof (Z.mod_pos_bound (imm / 4096) 8). pose proof (Z.mod_pos_bound (imm / 32768) 32).
    pose proof (Z.mod_pos_bound (imm / 1048576) 32).
    assert (0 ≤ imm / 33554432 < 128) by (clear -Hi; Z.to_euclidean_division_equations; lia). lia.
  - rewrite <-E1, E2. apply upper_mask; [done|done|apply Gpr_encoding_range|done].
Qed.

Lemma csr_word csr rs1 f3 rd :
  0 ≤ csr < 4096 → 0 ≤ rs1 < 32 → 1 ≤ f3 < 8 →
  decode (from_le_bytes (encode_i_type csr rs1 f3 (Gpr_encoding rd) OP_SYSTEM)) =
  rs1_reg ← Gpr_from_encoding rs1; decode_csr f3 csr rs1_reg rs1.
Proof.
  intros Hc Hr H3. assert (fields_ok OP_SYSTEM (Gpr_encoding rd) f3 rs1 0 0) as Hf by (unfold OP_SYSTEM; fields).
  rewrite i_word by done.
  assert (fields_ok OP_SYSTEM (Gpr_encoding rd) f3 rs1 (csr `mod` 32) (csr / 32)) as Hf'.
  { unfold fields_ok in *. pose proof (Z.mod_pos_bound csr 32). pose proof (Z.div_mod csr 32). lia. }
  assert (Z.land (Z.shiftr (pack OP_SYSTEM (Gpr_encoding rd) f3 rs1 (csr `mod` 32) (csr / 32)) 20) 0xFFF = csr) as Ec.
  { rewrite high_fields, (land_low _ 12) by done.
    replace (csr `mod` 32 + csr / 32 * 32) with csr by (pose proof (Z.div_mod csr 32 ltac:(lia)); lia).
    by apply Z.mod_small. }
  assert (pack OP_SYSTEM (Gpr_encoding rd) f3 rs1 (csr `mod` 32) (csr / 32) ≠ 0x73 ∧
          pack OP_SYSTEM (Gpr_encoding rd) f3 rs1 (csr `mod` 32) (csr / 32) ≠ 0x100073) as [N1 N2].
  { unfold fields_ok, pack, OP_SYSTEM in *. lia. }
  take_fields Hf'. rewrite Ec. rewrite (proj2 (Z.eqb_neq _ _) N1), (proj2 (Z.eqb_neq _ _) N2).
  cbv [OP_SYSTEM]. by rewrite Gpr_from_to.
Qed.

Lemma b_type_word rs1 rs2 f3 z :
  - 4096 ≤ z < 4096 ∧ z `mod` 2 = 0 → 0 ≤ f3 < 8 →
  decode (from_le_bytes (encode_b_type z (Gpr_encoding rs2) (Gpr_encoding rs1) f3 OP_BRANCH)) =
  decode_branch f3 rs1 rs2 z.
Proof.
  intros [Hz H2] H3. assert (fields_ok OP_BRANCH 0 f3 (Gpr_encoding rs1) (Gpr_encoding rs2) 0) as Hf
    by (unfold OP_BRANCH; fields).
  rewrite b_word by done. destruct (b_imm_pack _ _ _ _ z Hz H2 Hf) as [Hf' Eb].
  take_fields Hf'. rewrite Eb. cbv [OP_BRANCH]. by rewrite !Gpr_from_to.
Qed.

Lemma fence_word pred succ :
  0 ≤ pred < 16 ∧ 0 ≤ succ < 16 →
  decode (from_le_bytes (encode (Fence pred succ))) = Some (Fence pred succ).
Proof.
  intros [Hp Hs]. cbn [encode]. rewrite !(land_low _ 4), !Z.mod_small by (done || lia).
  rewrite lor_add by lia. set (imm := pred * 2 ^ 4 + succ).
  assert (fields_ok OP_MISC_MEM 0 0 0 0 0) as Hf by (unfold OP_MISC_MEM; fields).
  rewrite i_word by (done || lia).
  assert (fields_ok OP_MISC_MEM 0 0 0 (imm `mod` 32) (imm / 32)) as Hf'.
  { unfold fields_ok in *. pose proof (Z.mod_pos_bound imm 32). pose proof (Z.div_mod imm 32). lia. }
  assert (Z.land (Z.shiftr (pack OP_MISC_MEM 0 0 0 (imm `mod` 32) (imm / 32)) 20) 0xFF = imm) as E.
  { rewrite high_fields, (land_low _ 8) by done.
    replace (imm `mod` 32 + imm / 32 * 32) with imm by (pose proof (Z.div_mod imm 32 ltac:(lia)); lia).
    apply Z.mod_small. lia. }
  take_fields Hf'. rewrite E. cbv [OP_MISC_MEM]. cbn [Z.eqb].
  rewrite !(land_low _ 4), Z.shiftr_div_pow2 by done. subst imm.
  rewrite Z.div_add_l, (Z.div_small succ), Z.add_0_r, (Z.add_comm _ succ), Z.mod_add, !Z.mod_small by lia.
  done.
Qed.

Lemma decode_rest_runs i :
  encodable i →
  match i with
  | Lui _ _ | Auipc _ _ | Jal _ _ | Beq _ _ _ | Bne _ _ _ | Blt _ _ _ | Bge _ _ _ | Bltu _ _ _
  | Bgeu _ _ _ | Csrrw _ _ _ | Csrrs _ _ _ | Csrrc _ _ _ | Csrrwi _ _ _ | Csrrsi _ _ _
  | Csrrci _ _ _ | FenceI | Ecall | Ebreak | Fence _ _ | Nop =>
      decode (from_le_bytes (encode i)) = decoded i
  | _ => True
  end.
Proof.
  intros H. destruct i; try exact I;
    try match goal with |- context [encode (Fence ?p ?s)] => by apply (fence_word p s) end;
    cbn [encode encodable] in *;
    try match goal with |- context [encode_b_type] => by rewrite b_type_word by (done || lia) end.
  - destruct (u_type_word imm rd OP_LUI H ltac:(cbv; done)) as (?&?&?&?&->&Hf&E).
    take_fields Hf. rewrite E. cbv [OP_LUI]. by rewrite Gpr_from_to.
  - destruct (u_type_word imm rd OP_AUIPC H ltac:(cbv; done)) as (?&?&?&?&->&Hf&E).
    take_fields Hf. rewrite E. cbv [OP_AUIPC]. by rewrite Gpr_from_to.
  - destruct H as [Hz H2]. assert (fields_ok OP_JAL (Gpr_encoding rd) 0 0 0 0) as Hf by (unfold OP_JAL; fields).
    rewrite j_word by done. destruct (j_imm_pack _ _ offset Hz H2 Hf) as [Hf' E].
    take_fields Hf'. rewrite E. cbv [OP_JAL]. by rewrite Gpr_from_to.
  - rewrite csr_word by (apply Gpr_encoding_range || lia). by rewrite Gpr_from_to.
  - rewrite csr_word by (apply Gpr_encoding_range || lia). by rewrite Gpr_from_to.
  - rewrite csr_word by (apply Gpr_encoding_range || lia). by rewrite Gpr_from_to.
  - destruct H as [Hc Hu]. rewrite (land_low _ 5), Z.mod_small by lia. rewrite csr_word by lia.
    by destruct (Gpr_from_some uimm Hu) as [r ->].
  - destruct H as [Hc Hu]. rewrite (land_low _ 5), Z.mod_small by lia. rewrite csr_word by lia.
    by destruct (Gpr_from_some uimm Hu) as [r ->].
  - destruct H as [Hc Hu]. rewrite (land_low _ 5), Z.mod_small by lia. rewrite csr_word by lia.
    by destruct (Gpr_from_some uimm Hu) as [r ->].
  - reflexivity.
  - reflexivity.
  - reflexivity.
  - reflexivity.
Qed.

(** The operation field of an atomic instruction, above the ordering bits. *)
Definition funct5 (i : Instruction) : Z := Z.shiftr (from_le_bytes (encode i)) 27.

Lemma funct5_amo f7 (rs2 rs1 rd : Gpr) f3 :
  0 ≤ f7 < 128 → 0 ≤ f3 < 8 →
  Z.shiftr (from_le_bytes
    (encode_r_type f7 (Gpr_encoding rs2) (Gpr_encoding rs1) f3 (Gpr_encoding rd) 0x2F)) 27 = f7 / 4.
Proof.
  intros H7 H3.
  assert (fields_ok 0x2F (Gpr_encoding rd) f3 (Gpr_encoding rs1) (Gpr_encoding rs2) f7) as Hf by fields.
  rewrite r_word, Z.shiftr_div_pow2 by done. unfold fields_ok, pack in *.
  Z.to_euclidean_division_equations. lia.
Qed.

(** ** Properties *)



(** Where encoding and decoding lose an instruction: the 64-bit load-reserved and
    store-conditional are encoded as the 32-bit ones; the minimum and maximum atomics have
    the same operation field; the decoder reports the destination register of an integer
    instruction as [Ra] whatever it is; and it takes an arithmetic shift by 32 or more for a
    logical one. *)
Theorem riscv_encoding_defects (rd rs1 rs2 : Gpr) :
  (encode (LrD rd rs1) = encode (LrW rd rs1) ∧ encode (ScD rd rs1 rs2) = encode (ScW rd rs1 rs2)) ∧
  (funct5 (AmomaxW rd rs1 rs2) = funct5 (AmominW rd rs1 rs2) ∧
   funct5 (AmomaxD rd rs1 rs2) = funct5 (AmominD rd rs1 rs2) ∧
   funct5 (AmomaxWu rd rs1 rs2) = funct5 (AmominWu rd rs1 rs2) ∧
   funct5 (AmomaxDu rd rs1 rs2) = funct5 (AmominDu rd rs1 rs2)) ∧
  decode (from_le_bytes (encode (Add rd rs1 rs2))) = Some (Add Ra rs1 rs2) ∧
  ∀ shamt, 32 ≤ shamt < 64 →
    decode (from_le_bytes (encode (Srai rd rs1 shamt))) = Some (Srli Ra rs1 shamt).
Proof.
  split; [done|]. split; [|split].
  - unfold funct5. cbn [encode]. by rewrite !funct5_amo by lia.
  - apply (decode_reg_runs (Add rd rs1 rs2)).
  - intros shamt H. rewrite (decode_shift_runs (Srai rd rs1 shamt)) by (simpl; lia).
    cbn [decoded]. by rewrite (proj2 (Z.ltb_ge _ _)) by lia.
Qed.
