(* ===== verification/RiscvSem.v ===== *)
(** * Running RISC-V instructions

    A specification, not a translation: what the instructions the back end emits do to a
    machine with 64-bit registers and byte-addressed memory, after the unprivileged
    instruction-set manual.  A program is the list of its instructions; the program counter
    counts bytes from its first one.  Straight-line code also has a function of its own,
    [exec_block], and [block_steps] says that the machine follows it. *)

From S2P Require Import Prelude Riscv.
From stdpp Require Import options.
#[local] Open Scope Z_scope.

(** Registers and memory. *)
Record machine := { regs : Gpr → Z; mem : Z → Z }.

Definition get (m : machine) (r : Gpr) : Z := if decide (r = Zero) then 0 else regs m r.
Definition set (m : machine) (r : Gpr) (v : Z) : machine :=
  {| regs := λ r', if decide (r' = r) then wrap64 v else regs m r'; mem := mem m |}.

(** Little-endian loads and stores of [n] bytes. *)
Fixpoint load (n : nat) (m : Z → Z) (a : Z) : Z :=
  match n with
  | O => 0
  | S n => m (wrap64 a) + 256 * load n m (a + 1)
  end.
Fixpoint store (n : nat) (m : Z → Z) (a v : Z) : Z → Z :=
  match n with
  | O => m
  | S n => λ b, if decide (b = wrap64 a) then v `mod` 256 else store n m (a + 1) (v / 256) b
  end.

(** Division and remainder, with the results the manual gives for a divisor of zero and for
    the overflow. *)
Definition div_s (a b : Z) : Z := if b =? 0 then -1 else Z.quot a b.
Definition div_u (a b : Z) : Z := if b =? 0 then 2 ^ 64 - 1 else a / b.
Definition rem_s (a b : Z) : Z := if b =? 0 then a else Z.rem a b.
Definition rem_u (a b : Z) : Z := if b =? 0 then a else a `mod` b.
Definition b2z (b : bool) : Z := if b then 1 else 0.

(** An instruction that does not jump. *)
Definition exec (i : Instruction.Instruction) (m : machine) : option machine :=
  let u := get m in
  let s r := as_i64 (get m r) in
  match i with
  | Instruction.Lui rd imm => Some (set m rd (as_i32 imm))
  | Instruction.Addi rd rs1 imm => Some (set m rd (u rs1 + imm))
  | Instruction.Slti rd rs1 imm => Some (set m rd (b2z (s rs1 <? imm)))
  | Instruction.Sltiu rd rs1 imm => Some (set m rd (b2z (u rs1 <? wrap64 imm)))
  | Instruction.Xori rd rs1 imm => Some (set m rd (Z.lxor (u rs1) (wrap64 imm)))
  | Instruction.Ori rd rs1 imm => Some (set m rd (Z.lor (u rs1) (wrap64 imm)))
  | Instruction.Andi rd rs1 imm => Some (set m rd (Z.land (u rs1) (wrap64 imm)))
  | Instruction.Slli rd rs1 shamt => Some (set m rd (Z.shiftl (u rs1) shamt))
  | Instruction.Srli rd rs1 shamt => Some (set m rd (Z.shiftr (u rs1) shamt))
  | Instruction.Srai rd rs1 shamt => Some (set m rd (Z.shiftr (s rs1) shamt))
  | Instruction.Add rd rs1 rs2 => Some (set m rd (u rs1 + u rs2))
  | Instruction.Sub rd rs1 rs2 => Some (set m rd (u rs1 - u rs2))
  | Instruction.Sll rd rs1 rs2 => Some (set m rd (Z.shiftl (u rs1) (u rs2 `mod` 64)))
  | Instruction.Slt rd rs1 rs2 => Some (set m rd (b2z (s rs1 <? s rs2)))
  | Instruction.Sltu rd rs1 rs2 => Some (set m rd (b2z (u rs1 <? u rs2)))
  | Instruction.Xor rd rs1 rs2 => Some (set m rd (Z.lxor (u rs1) (u rs2)))
  | Instruction.Srl rd rs1 rs2 => Some (set m rd (Z.shiftr (u rs1) (u rs2 `mod` 64)))
  | Instruction.Sra rd rs1 rs2 => Some (set m rd (Z.shiftr (s rs1) (u rs2 `mod` 64)))
  | Instruction.Or rd rs1 rs2 => Some (set m rd (Z.lor (u rs1) (u rs2)))
  | Instruction.And rd rs1 rs2 => Some (set m rd (Z.land (u rs1) (u rs2)))
  | Instruction.Mul rd rs1 rs2 => Some (set m rd (u rs1 * u rs2))
  | Instruction.Div rd rs1 rs2 => Some (set m rd (div_s (s rs1) (s rs2)))
  | Instruction.Divu rd rs1 rs2 => Some (set m rd (div_u (u rs1) (u rs2)))
  | Instruction.Rem rd rs1 rs2 => Some (set m rd (rem_s (s rs1) (s rs2)))
  | Instruction.Remu rd rs1 rs2 => Some (set m rd (rem_u (u rs1) (u rs2)))
  | Instruction.Lbu rd rs1 imm => Some (set m rd (load 1 (mem m) (u rs1 + imm)))
  | Instruction.Lw rd rs1 imm => Some (set m rd (as_i32 (load 4 (mem m) (u rs1 + imm))))
  | Instruction.Ld rd rs1 imm => Some (set m rd (load 8 (mem m) (u rs1 + imm)))
  | Instruction.Sw rs1 rs2 imm =>
      Some {| regs := regs m; mem := store 4 (mem m) (u rs1 + imm) (u rs2) |}
  | Instruction.Sd rs1 rs2 imm =>
      Some {| regs := regs m; mem := store 8 (mem m) (u rs1 + imm) (u rs2) |}
  | _ => None
  end.

(** One step: the instruction at the program counter. *)
Definition taken (i : Instruction.Instruction) (m : machine) : option Z :=
  let branch (b : bool) offset := Some (if b then offset else 4) in
  match i with
  | Instruction.Beq rs1 rs2 offset => branch (get m rs1 =? get m rs2) offset
  | Instruction.Bne rs1 rs2 offset => branch (negb (get m rs1 =? get m rs2)) offset
  | Instruction.Jal Zero offset => Some offset
  | _ => None
  end.

Inductive step (prog : list Instruction.Instruction) : Z * machine → Z * machine → Prop :=
  | step_exec k i m m' :
      prog !! k = Some i → exec i m = Some m' →
      step prog (4 * Z.of_nat k, m) (4 * Z.of_nat (S k), m')
  | step_jump k i m offset :
      prog !! k = Some i → taken i m = Some offset →
      step prog (4 * Z.of_nat k, m) (4 * Z.of_nat k + offset, m).

Definition steps (prog : list Instruction.Instruction) := rtc (step prog).

Fixpoint exec_block (code : list Instruction.Instruction) (m : machine) : option machine :=
  match code with
  | [] => Some m
  | i :: code => m' ← exec i m; exec_block code m'
  end.

(** The registers hold 64-bit words. *)
Definition wf_machine (m : machine) : Prop := ∀ r, is_u64 (get m r).

(** ** Lemmas *)

Lemma get_zero m : get m Zero = 0.
Proof. done. Qed.

Lemma get_set_eq m r v : r ≠ Zero → get (set m r v) r = wrap64 v.
Proof. intros Hr. unfold get, set. cbn [regs]. by rewrite decide_False, decide_True. Qed.

Lemma get_set_ne m r r' v : r' ≠ r → get (set m r v) r' = get m r'.
Proof. intros Hr. unfold get, set. cbn [regs]. by rewrite (decide_False (P := r' = r)). Qed.

Lemma mem_set m r v : mem (set m r v) = mem m.
Proof. done. Qed.

Lemma wf_set m r v : wf_machine m → wf_machine (set m r v).
Proof.
  intros H r'. destruct (decide (r' = Zero)) as [->|]; [rewrite get_zero; unfold is_u64; lia|].
  destruct (decide (r' = r)) as [->|]; [rewrite get_set_eq by done; apply wrap64_range|].
  rewrite get_set_ne by done. apply H.
Qed.

Lemma exec_block_app c1 c2 m :
  exec_block (c1 ++ c2) m = m' ← exec_block c1 m; exec_block c2 m'.
Proof.
  revert m. induction c1 as [|i c1 IH]; intros m; [done|]. cbn [app exec_block].
  destruct (exec i m); [apply IH|done].
Qed.

(** The code at a place of a program. *)
Definition code_at (prog : list Instruction.Instruction) (k : nat) (code : list Instruction.Instruction) :
    Prop :=
  ∃ pre post, prog = pre ++ code ++ post ∧ length pre = k.

Lemma code_at_app prog k c1 c2 :
  code_at prog k (c1 ++ c2) ↔ code_at prog k c1 ∧ code_at prog (k + length c1) c2.
Proof.
  split.
  - intros (pre & post & -> & <-). split.
    + exists pre, (c2 ++ post). by rewrite <-!app_assoc.
    + exists (pre ++ c1), post. by rewrite length_app, <-!app_assoc.
  - intros [(pre & post & -> & <-) (pre' & post' & E & Hl)].
    rewrite app_assoc in E. apply app_inj_1 in E as [<- ->]; [|by rewrite length_app].
    exists pre, post'. by rewrite <-!app_assoc.
Qed.

Lemma code_at_all prog : code_at prog 0 prog.
Proof. exists [], []. by rewrite app_nil_r. Qed.

Lemma code_at_lookup prog k i c : code_at prog k (i :: c) → prog !! k = Some i.
Proof. intros (pre & post & -> & <-). by rewrite lookup_app_r, Nat.sub_diag by lia. Qed.

Lemma code_at_cons prog k i c : code_at prog k (i :: c) ↔ prog !! k = Some i ∧ code_at prog (S k) c.
Proof.
  change (i :: c) with ([i] ++ c). rewrite code_at_app. cbn [length]. rewrite Nat.add_1_r.
  split; intros [H1 H2]; (split; [|done]); [by eapply code_at_lookup|].
  apply list_elem_of_split_length in H1 as (pre & post & -> & ->). by exists pre, post.
Qed.

Lemma block_steps prog k code m m' :
  code_at prog k code → exec_block code m = Some m' →
  steps prog (4 * Z.of_nat k, m) (4 * Z.of_nat (k + length code), m').
Proof.
  revert k m. induction code as [|i code IH]; intros k m Hc.
  { cbn [exec_block]. intros [= ->]. cbn [length]. rewrite Nat.add_0_r. apply rtc_refl. }
  apply code_at_cons in Hc as [Hi Hc]. cbn [exec_block]. destruct (exec i m) as [m1|] eqn:E; [|done].
  cbn [mbind option_bind]. intros Hm. eapply rtc_l; [by eapply step_exec|].
  cbn [length]. rewrite <-Nat.add_succ_comm. by apply IH.
Qed.

Lemma jump_steps prog k i m offset k' s :
  prog !! k = Some i → taken i m = Some offset → 4 * Z.of_nat k + offset = 4 * Z.of_nat k' →
  steps prog (4 * Z.of_nat k', m) s → steps prog (4 * Z.of_nat k, m) s.
Proof. intros Hi Ht E Hs. eapply rtc_l; [by eapply step_jump|]. by rewrite E. Qed.

(** *** Memory *)

Lemma wrap64_inj a b : wrap64 a = wrap64 b → Z.abs (a - b) < 2 ^ 64 → a = b.
Proof.
  unfold wrap64. intros H Hab. pose proof (Z.div_mod a (2 ^ 64)). pose proof (Z.div_mod b (2 ^ 64)). nia.
Qed.

Lemma store_other n m a v b :
  (∀ i, 0 ≤ i < Z.of_nat n → b ≠ wrap64 (a + i)) → store n m a v b = m b.
Proof.
  revert a v. induction n as [|n IH]; intros a v H; [done|]. cbn [store].
  rewrite decide_False by (specialize (H 0 ltac:(lia)); by rewrite Z.add_0_r in H).
  apply IH. intros i Hi. specialize (H (i + 1) ltac:(lia)). by replace (a + 1 + i) with (a + (i + 1)) by lia.
Qed.

Lemma load_ext n m m' a :
  (∀ i, 0 ≤ i < Z.of_nat n → m (wrap64 (a + i)) = m' (wrap64 (a + i))) → load n m a = load n m' a.
Proof.
  revert a. induction n as [|n IH]; intros a H; [done|]. cbn [load].
  pose proof (H 0 ltac:(lia)) as H0. rewrite Z.add_0_r in H0. rewrite H0. f_equal. f_equal.
  apply IH. intros i Hi. replace (a + 1 + i) with (a + (i + 1)) by lia. apply H. lia.
Qed.

Lemma load_store n m a v :
  Z.of_nat n < 2 ^ 64 → load n (store n m a v) a = v `mod` 256 ^ Z.of_nat n.
Proof.
  revert m a v. induction n as [|n IH]; intros m a v Hn; [by rewrite Z.mod_1_r|].
  cbn [load store]. rewrite decide_True by done.
  rewrite (load_ext _ _ (store n m (a + 1) (v / 256))).
  - rewrite IH by lia. rewrite Nat2Z.inj_succ, Z.pow_succ_r, Z.rem_mul_r by lia. done.
  - intros i Hi. rewrite decide_False; [done|]. intros E%wrap64_inj; lia.
Qed.

Lemma load_store_other n k m a b v :
  (∀ i j, 0 ≤ i < Z.of_nat n → 0 ≤ j < Z.of_nat k → wrap64 (a + i) ≠ wrap64 (b + j)) →
  load n (store k m b v) a = load n m a.
Proof. intros H. apply load_ext. intros i Hi. apply store_other. intros j Hj. by apply H. Qed.

Lemma load_range n m a : (∀ b, 0 ≤ m b < 256) → 0 ≤ load n m a < 256 ^ Z.of_nat n.
Proof.
  intros Hm. revert a. induction n as [|n IH]; intros a; [simpl; lia|]. cbn [load].
  specialize (IH (a + 1)). specialize (Hm (wrap64 a)). rewrite Nat2Z.inj_succ, Z.pow_succ_r by lia. lia.
Qed.
