(* ===== verification/RiscvIsel.v ===== *)
(** * RISC-V instruction selection

    Models the helpers of [src/src/codegen/src/riscv64/mod.rs] that emit code for one
    operation: immediates, stack slots, comparisons, bit counts, and the lowering of the
    integer operations of the intermediate representation.  An emitter gives the list of
    the instructions whose encodings it appends, in order; [assemble] makes the bytes.
    What the code computes is stated with [RiscvSem] against the folders of opt.rs. *)

From S2P Require Import Prelude SyscallAbi Ir BvVerify Riscv RiscvSem.
From stdpp Require Import options.
#[local] Open Scope Z_scope.

#[local] Notation Instruction := Instruction.Instruction.

Definition assemble (code : list Instruction) : list Z := mjoin (encode <$> code).

(** ** Immediates *)

Definition upper_part (v : Z) : Z := Z.shiftl (Z.shiftr (wrap32 (v + 0x800)) 12) 12.
Definition lower_part (v : Z) : Z := as_i32 (as_i32 v - as_i32 (upper_part v)).

(** [LUI], and [ADDI] where the low part is not zero. *)
Definition load_32 (dst : Gpr) (v : Z) : list Instruction :=
  let hi := upper_part v in
  let lo := lower_part v in
  Instruction.Lui dst hi :: (if lo =? 0 then [] else [Instruction.Addi dst dst lo]).

Definition ss_load_imm (dst : Gpr) (val : Z) : list Instruction :=
  if (-2048 <=? val) && (val <=? 2047) then [Instruction.Addi dst Zero val]
  else if val =? as_i32 val then
    load_32 dst (wrap32 val) ++
    (if (0 <=? val) && (0x80000000 <=? upper_part (wrap32 val)) then
       [Instruction.Slli dst dst 32; Instruction.Srli dst dst 32]
     else [])
  else
    let upper_32 := wrap32 (Z.shiftr val 32) in
    let lower_32 := wrap32 val in
    if upper_32 =? 0 then
      load_32 dst lower_32 ++ [Instruction.Slli dst dst 32; Instruction.Srli dst dst 32]
    else if lower_32 =? 0 then load_32 dst upper_32 ++ [Instruction.Slli dst dst 32]
    else
      load_32 dst upper_32 ++ [Instruction.Slli dst dst 32] ++
      load_32 T3 lower_32 ++ [Instruction.Slli T3 T3 32; Instruction.Srli T3 T3 32;
                              Instruction.Or dst dst T3].

(** ** Stack slots *)

(** The code for a slot: an access at [S0 - offset] where the offset fits, else the address
    into [T3] first. *)
Definition at_slot (offset_from_s0 : Z) (access : Gpr → Z → Instruction) : list Instruction :=
  let neg_off := - offset_from_s0 in
  if -2048 <=? neg_off then [access S0 neg_off]
  else ss_load_imm T3 offset_from_s0 ++ [Instruction.Sub T3 S0 T3; access T3 0].

Definition ss_load_from_slot (dst_reg : Gpr) (offset_from_s0 : Z) : list Instruction :=
  at_slot offset_from_s0 (Instruction.Ld dst_reg).
Definition ss_store_to_slot (src_reg : Gpr) (offset_from_s0 : Z) : list Instruction :=
  at_slot offset_from_s0 (λ base imm, Instruction.Sd base src_reg imm).
Definition ss_store_fpr_to_slot (src_fpr : Fpr) (offset_from_s0 : Z) : list Instruction :=
  at_slot offset_from_s0 (λ base imm, Instruction.Fsd base src_fpr imm).
Definition ss_store_fpr_s_to_slot (src_fpr : Fpr) (offset_from_s0 : Z) : list Instruction :=
  at_slot offset_from_s0 (λ base imm, Instruction.Fsw base src_fpr imm).
Definition ss_load_word_from_slot (dst_reg : Gpr) (offset_from_s0 : Z) : list Instruction :=
  at_slot offset_from_s0 (Instruction.Lw dst_reg).
Definition ss_emit_slot_addr (dst_reg : Gpr) (offset_from_s0 : Z) : list Instruction :=
  at_slot offset_from_s0 (Instruction.Addi dst_reg).

Definition slot_of (slots : gmap Z Z) (id : Z) : Z := default 0 (slots !! id).

Definition ss_load_value (val : IRValue) (slots : gmap Z Z) (scratch : Gpr) : list Instruction :=
  match val with
  | Register id => ss_load_from_slot scratch (slot_of slots id)
  | Immediate v => ss_load_imm scratch v
  | Address a => ss_load_imm scratch (as_i64 a)
  | Label _ => [Instruction.Addi scratch Zero 0]
  end.

(** ** Comparisons *)

Definition emit_cmp_isel (kind : CmpKind) (rd rs1 rs2 scratch : Gpr) : list Instruction :=
  match kind with
  | Cmp_Eq => [Instruction.Xor rd rs1 rs2; Instruction.Sltiu rd rd 1]
  | Cmp_Ne => [Instruction.Xor rd rs1 rs2; Instruction.Sltu rd Zero rd]
  | Cmp_SLt => [Instruction.Slt rd rs1 rs2]
  | Cmp_SLe => [Instruction.Slt scratch rs2 rs1; Instruction.Xori rd scratch 1]
  | Cmp_SGt => [Instruction.Slt rd rs2 rs1]
  | Cmp_SGe => [Instruction.Slt scratch rs1 rs2; Instruction.Xori rd scratch 1]
  | Cmp_ULt => [Instruction.Sltu rd rs1 rs2]
  | Cmp_ULe => [Instruction.Sltu scratch rs2 rs1; Instruction.Xori rd scratch 1]
  | Cmp_UGt => [Instruction.Sltu rd rs2 rs1]
  | Cmp_UGe => [Instruction.Sltu scratch rs1 rs2; Instruction.Xori rd scratch 1]
  end.

(** For an operator that is not a comparison the code is unreachable. *)
Definition emit_binop_cmp_isel (op : BinOpKind) (rd rs1 rs2 scratch : Gpr) :
    outcome (list Instruction) :=
  match op with
  | SLt => Ret [Instruction.Slt rd rs1 rs2]
  | SLe => Ret [Instruction.Slt scratch rs2 rs1; Instruction.Xori rd scratch 1]
  | SGt => Ret [Instruction.Slt rd rs2 rs1]
  | SGe => Ret [Instruction.Slt scratch rs1 rs2; Instruction.Xori rd scratch 1]
  | ULt => Ret [Instruction.Sltu rd rs1 rs2]
  | ULe => Ret [Instruction.Sltu scratch rs2 rs1; Instruction.Xori rd scratch 1]
  | UGt => Ret [Instruction.Sltu rd rs2 rs1]
  | UGe => Ret [Instruction.Sltu scratch rs1 rs2; Instruction.Xori rd scratch 1]
  | Eq => Ret [Instruction.Xor rd rs1 rs2; Instruction.Sltiu rd rd 1]
  | Ne => Ret [Instruction.Xor rd rs1 rs2; Instruction.Sltu rd Zero rd]
  | _ => Panic
  end.

(** ** Bit counts *)

Definition move_input (rd rs : Gpr) : list Instruction :=
  if decide (rs = rd) then [] else [Instruction.Addi rd rs 0].

(** Shift [rd] right by [shift] where that leaves something, and count the shift in [T4]. *)
Definition narrow (rd : Gpr) (shift : Z) : list Instruction :=
  [Instruction.Srli T5 rd shift; Instruction.Beq T5 Zero 8;
   Instruction.Addi rd T5 0; Instruction.Addi T4 T4 shift].
Definition narrow_all (rd : Gpr) : list Instruction := [32; 16; 8; 4; 2; 1] ≫= narrow rd.

Definition emit_clz_isel (rd rs : Gpr) : list Instruction :=
  move_input rd rs ++
  [Instruction.Addi T4 Zero 0; Instruction.Beq rd Zero (6 * 16 + 12)] ++
  narrow_all rd ++
  [Instruction.Addi T6 Zero 63; Instruction.Sub rd T6 T4; Instruction.Jal Zero 4;
   Instruction.Addi rd Zero 64].

Definition emit_ctz_isel (rd rs : Gpr) : list Instruction :=
  move_input rd rs ++
  [Instruction.Sub T5 Zero rd; Instruction.And T5 rd T5; Instruction.Sltiu T6 rd 1;
   Instruction.Addi rd T5 0; Instruction.Addi T4 Zero 0] ++
  narrow_all rd ++
  [Instruction.Slli T6 T6 6; Instruction.Add rd T4 T6].

(** A pattern repeated over a word: each step copies [T4] into itself, shifted. *)
Definition replicate_t4 (shamt : Z) : list Instruction :=
  [Instruction.Slli T6 T4 shamt; Instruction.Or T4 T4 T6].

(** The count: pairs of bits, nibbles, bytes, and the sum of the bytes by a multiplication.
    Each step first builds its mask in [T4]. *)
Definition popcnt_pairs (rd : Gpr) : list Instruction :=
  Instruction.Addi T4 Zero 1 :: ([2; 4; 8; 16; 32] ≫= replicate_t4) ++
  [Instruction.Srli T5 rd 1; Instruction.And T5 T5 T4; Instruction.Sub rd rd T5].
Definition popcnt_nibbles (rd : Gpr) : list Instruction :=
  Instruction.Addi T4 Zero 3 :: ([4; 8; 16; 32] ≫= replicate_t4) ++
  [Instruction.And T5 rd T4; Instruction.Srli rd rd 2; Instruction.And rd rd T4;
   Instruction.Add rd T5 rd].
Definition popcnt_bytes (rd : Gpr) : list Instruction :=
  Instruction.Addi T4 Zero 0xF :: ([8; 16; 32] ≫= replicate_t4) ++
  [Instruction.Srli T5 rd 4; Instruction.Add rd rd T5; Instruction.And rd rd T4].
Definition popcnt_sum (rd : Gpr) : list Instruction :=
  Instruction.Addi T4 Zero 1 :: ([8; 16; 32] ≫= replicate_t4) ++
  [Instruction.Mul rd rd T4; Instruction.Srli rd rd 56].

Definition emit_popcnt_isel (rd rs : Gpr) : list Instruction :=
  move_input rd rs ++ popcnt_pairs rd ++ popcnt_nibbles rd ++ popcnt_bytes rd ++ popcnt_sum rd.

(** ** Operations of the intermediate representation

    The arms of the stack-slot selection: the operands into temporaries, the operation, the
    result from [T0] into the slot of the destination. *)

Definition dst_slot (slots : gmap Z Z) (dst : IRValue) : Z :=
  slot_of slots (default 0 (as_register dst)).

(** The range of a 12-bit immediate. *)
Definition fits12 (off : Z) : bool := (-2048 <=? off) && (off <=? 2047).

Definition is_fp (ty : option IRType) : bool :=
  match ty with Some F32 | Some F64 => true | _ => false end.
Definition is_f64 (ty : option IRType) : bool := match ty with Some F64 => true | _ => false end.
Definition is_f32 (ty : option IRType) : bool := match ty with Some F32 => true | _ => false end.

(** The bit patterns in [T0] and [T1] into the floating-point registers. *)
Definition fmv_operands (f64 : bool) : list Instruction :=
  if f64 then [Instruction.FmvDX F0 T0; Instruction.FmvDX F1 T1]
  else [Instruction.FmvWX F0 T0; Instruction.FmvWX F1 T1].
Definition feq (f64 : bool) (rd : Gpr) (a b : Fpr) : Instruction :=
  if f64 then Instruction.FeqD rd a b else Instruction.FeqS rd a b.
Definition flt (f64 : bool) (rd : Gpr) (a b : Fpr) : Instruction :=
  if f64 then Instruction.FltD rd a b else Instruction.FltS rd a b.
Definition fle (f64 : bool) (rd : Gpr) (a b : Fpr) : Instruction :=
  if f64 then Instruction.FleD rd a b else Instruction.FleS rd a b.

Definition fp_cond (op : BinOpKind) : Z :=
  match op with
  | Eq | Ne => 2
  | SLt | ULt | SGt | UGt => 1
  | SLe | ULe | SGe | UGe => 3
  | _ => 2
  end.
Definition fp_swap (op : BinOpKind) : bool :=
  match op with SGt | UGt | SGe | UGe => true | _ => false end.

Definition fp_binop (op : BinOpKind) (f64 : bool) : list Instruction :=
  match op with
  | Add => [if f64 then Instruction.FaddD F0 F0 F1 else Instruction.FaddS F0 F0 F1]
  | Sub => [if f64 then Instruction.FsubD F0 F0 F1 else Instruction.FsubS F0 F0 F1]
  | Mul => [if f64 then Instruction.FmulD F0 F0 F1 else Instruction.FmulS F0 F0 F1]
  | SDiv | UDiv => [if f64 then Instruction.FdivD F0 F0 F1 else Instruction.FdivS F0 F0 F1]
  | Eq | Ne | SLt | SLe | SGt | SGe | ULt | ULe | UGt | UGe =>
      let swap := fp_swap op in
      let a := if swap then F1 else F0 in
      let b := if swap then F0 else F1 in
      (if swap then [feq f64 T0 F1 F0] else []) ++
      (if fp_cond op =? 1 then [flt f64 T0 a b]
       else if fp_cond op =? 2 then [feq f64 T0 F0 F1]
       else if fp_cond op =? 3 then [fle f64 T0 a b] else []) ++
      (if decide (op = Ne) then [Instruction.Xori T0 T0 1] else [])
  | _ => [if f64 then Instruction.FmvDX F0 T0 else Instruction.FmvWX F0 T0]
  end.

Definition int_binop (op : BinOpKind) : outcome (list Instruction) :=
  match op with
  | Add => Ret [Instruction.Add T0 T0 T1]
  | Sub => Ret [Instruction.Sub T0 T0 T1]
  | Mul => Ret [Instruction.Mul T0 T0 T1]
  | SDiv => Ret [Instruction.Div T0 T0 T1]
  | UDiv => Ret [Instruction.Divu T0 T0 T1]
  | SRem => Ret [Instruction.Rem T0 T0 T1]
  | URem => Ret [Instruction.Remu T0 T0 T1]
  | And => Ret [Instruction.And T0 T0 T1]
  | Or => Ret [Instruction.Or T0 T0 T1]
  | Xor => Ret [Instruction.Xor T0 T0 T1]
  | Shl => Ret [Instruction.Sll T0 T0 T1]
  | ShrL => Ret [Instruction.Srl T0 T0 T1]
  | ShrA => Ret [Instruction.Sra T0 T0 T1]
  | SLt | SLe | SGt | SGe | ULt | ULe | UGt | UGe | Eq | Ne =>
      emit_binop_cmp_isel op T0 T0 T1 T5
  | Ror | Rol => Panic
  end.

Definition rotate_isel (op : BinOpKind) : list Instruction :=
  [Instruction.Sub T4 Zero T2; Instruction.Addi T4 T4 64] ++
  (if decide (op = Ror) then [Instruction.Srl T0 T1 T2; Instruction.Sll T4 T1 T4]
   else [Instruction.Sll T0 T1 T2; Instruction.Srl T4 T1 T4]) ++
  [Instruction.Or T0 T0 T4].

Section lower.
Context (slots : gmap Z Z).

Definition load_operands (lhs rhs : IRValue) (r1 r2 : Gpr) : list Instruction :=
  ss_load_value lhs slots r1 ++ ss_load_value rhs slots r2.
Definition store_result (r : Gpr) (dst : IRValue) : list Instruction :=
  ss_store_to_slot r (dst_slot slots dst).

Definition lower_binop (op : BinOpKind) (dst lhs rhs : IRValue) (ty : option IRType) :
    outcome (list Instruction) :=
  if is_fp ty then
    let f64 := is_f64 ty in
    Ret (load_operands lhs rhs T0 T1 ++ fmv_operands f64 ++ fp_binop op f64 ++
         [if f64 then Instruction.FmvXD T0 F0 else Instruction.FmvXW T0 F0] ++
         store_result T0 dst)
  else
    code ← match op with
           | Ror | Rol => Ret (load_operands lhs rhs T1 T2 ++ rotate_isel op)
           | _ => code ← int_binop op; Ret (load_operands lhs rhs T0 T1 ++ code)
           end;
    Ret (code ++ store_result T0 dst).

(** [Add] and [Offset]: an immediate whose low 32 bits fit goes into [ADDI]. *)
Definition add_value (rhs : IRValue) : list Instruction :=
  let general := ss_load_value rhs slots T1 ++ [Instruction.Add T0 T0 T1] in
  match rhs with
  | Immediate imm =>
      let i := as_i32 imm in if fits12 i then [Instruction.Addi T0 T0 i] else general
  | _ => general
  end.

Definition lower_add (dst lhs rhs : IRValue) : list Instruction :=
  ss_load_value lhs slots T0 ++ add_value rhs ++ store_result T0 dst.
Definition lower_sub (dst lhs rhs : IRValue) : list Instruction :=
  load_operands lhs rhs T0 T1 ++ [Instruction.Sub T0 T0 T1] ++ store_result T0 dst.
Definition lower_mul (dst lhs rhs : IRValue) : list Instruction :=
  load_operands lhs rhs T0 T1 ++ [Instruction.Mul T0 T0 T1] ++ store_result T0 dst.
Definition lower_div (dst lhs rhs : IRValue) : list Instruction :=
  load_operands lhs rhs T0 T1 ++ [Instruction.Div T0 T0 T1] ++ store_result T0 dst.
Definition lower_offset (dst base offset : IRValue) : list Instruction :=
  ss_load_value base slots T0 ++ add_value offset ++ store_result T0 dst.

Definition lower_unaryop (op : UnaryOpKind) (dst operand : IRValue) : list Instruction :=
  ss_load_value operand slots T0 ++
  match op with
  | Neg => [Instruction.Sub T0 Zero T0]
  | Not => [Instruction.Xori T0 T0 (-1)]
  | Clz => emit_clz_isel T0 T0
  | Ctz => emit_ctz_isel T0 T0
  | Popcnt => emit_popcnt_isel T0 T0
  end ++ store_result T0 dst.

Definition fp_cmp (kind : CmpKind) (f64 : bool) : list Instruction :=
  match kind with
  | Cmp_Eq => [feq f64 T0 F0 F1]
  | Cmp_Ne => [feq f64 T0 F0 F1; Instruction.Xori T0 T0 1]
  | Cmp_SLt | Cmp_ULt => [flt f64 T0 F0 F1]
  | Cmp_SLe | Cmp_ULe => [fle f64 T0 F0 F1]
  | Cmp_SGt | Cmp_UGt => [flt f64 T0 F1 F0]
  | Cmp_SGe | Cmp_UGe => [fle f64 T0 F1 F0]
  end.

Definition lower_cmp (kind : CmpKind) (dst lhs rhs : IRValue) (ty : option IRType) :
    list Instruction :=
  load_operands lhs rhs T0 T1 ++
  (if is_fp ty then fmv_operands (is_f64 ty) ++ fp_cmp kind (is_f64 ty)
   else emit_cmp_isel kind T0 T0 T1 T5) ++
  store_result T0 dst.

(** ** Memory *)

Definition lower_load (dst addr : IRValue) (offset : Z) (ty : IRType) : list Instruction :=
  let access :=
    match ty with
    | I8 => Instruction.Lb T0
    | U8 => Instruction.Lbu T0
    | I32 | U32 => Instruction.Lwu T0
    | _ => Instruction.Ld T0
    end in
  ss_load_value addr slots T3 ++
  (if fits12 offset then [access T3 offset]
   else ss_load_imm T2 offset ++ [Instruction.Add T2 T3 T2; access T2 0]) ++
  store_result T0 dst.

(** The address stays out of [T3], which a wide immediate of [value] takes. *)
Definition lower_store (value addr : IRValue) (offset : Z) (ty : IRType) : list Instruction :=
  let access base imm :=
    match ty with
    | I8 | U8 => Instruction.Sb base T0 imm
    | I32 | U32 => Instruction.Sw base T0 imm
    | _ => Instruction.Sd base T0 imm
    end in
  ss_load_value addr slots T2 ++ ss_load_value value slots T0 ++
  (if fits12 offset then [access T2 offset]
   else ss_load_imm T3 offset ++ [Instruction.Add T3 T2 T3; access T3 0]).

Definition lower_alloc (alloc_offsets : gmap Z Z) (dst : IRValue) : list Instruction :=
  let alloc_off := slot_of alloc_offsets (default 0 (as_register dst)) in
  let neg_alloc := - alloc_off in
  (if -2048 <=? neg_alloc then [Instruction.Addi T0 S0 neg_alloc]
   else ss_load_imm T3 alloc_off ++ [Instruction.Sub T0 S0 T3]) ++
  store_result T0 dst.

(** ** Conversions *)

Definition is_32bit (ty : option IRType) : bool :=
  match ty with Some (I8 | I16 | I32 | U8 | U16 | U32) => true | _ => false end.

Definition zext_32 : list Instruction := [Instruction.Slli T0 T0 32; Instruction.Srli T0 T0 32].
Definition sext_32 : list Instruction := [Instruction.Addiw T0 T0 0].

(** The converted number goes through the slot of the destination. *)
Definition through_slot (f32 : bool) (offset : Z) : list Instruction :=
  if f32 then ss_store_fpr_s_to_slot F0 offset ++ ss_load_word_from_slot T0 offset
  else ss_store_fpr_to_slot F0 offset ++ ss_load_from_slot T0 offset.

Definition cast_isel (kind : CastKind) (from_ty to_ty : option IRType) (dst_offset : Z) :
    list Instruction :=
  let src_is_32bit := is_32bit from_ty in
  let dst_is_32bit := is_32bit to_ty in
  let src_is_f32 := is_f32 from_ty in
  let dst_is_f32 := is_f32 to_ty in
  match kind with
  | BitCast | Trunc => []
  | ZExt => zext_32
  | SExt => sext_32
  | IntToFloat =>
      (if src_is_32bit then sext_32 else []) ++
      [match dst_is_f32, src_is_32bit with
       | true, true => Instruction.FcvtSW F0 T0
       | true, false => Instruction.FcvtSL F0 T0
       | false, true => Instruction.FcvtDW F0 T0
       | false, false => Instruction.FcvtDL F0 T0
       end] ++ through_slot dst_is_f32 dst_offset
  | UIntToFloat =>
      (if src_is_32bit then zext_32 else []) ++
      [match dst_is_f32, src_is_32bit with
       | true, true => Instruction.FcvtSWU F0 T0
       | true, false => Instruction.FcvtSLU F0 T0
       | false, true => Instruction.FcvtDWU F0 T0
       | false, false => Instruction.FcvtDLU F0 T0
       end] ++ through_slot dst_is_f32 dst_offset
  | FloatToInt =>
      (if src_is_f32 then Instruction.FmvWX F0 T0 else Instruction.FmvDX F0 T0) ::
      (if dst_is_32bit then
         (if src_is_f32 then Instruction.FcvtWS T0 F0 else Instruction.FcvtWD T0 F0) :: sext_32
       else [if src_is_f32 then Instruction.FcvtLS T0 F0 else Instruction.FcvtLD T0 F0])
  | FloatToUInt =>
      (if src_is_f32 then Instruction.FmvWX F0 T0 else Instruction.FmvDX F0 T0) ::
      (if dst_is_32bit then
         (if src_is_f32 then Instruction.FcvtWUS T0 F0 else Instruction.FcvtWUD T0 F0) :: zext_32
       else [if src_is_f32 then Instruction.FcvtLUS T0 F0 else Instruction.FcvtLUD T0 F0])
  | FloatToFloat =>
      match src_is_f32, dst_is_f32 with
      | true, false =>
          [Instruction.FmvWX F0 T0; Instruction.FcvtDS F0 F0; Instruction.FmvXD T0 F0]
      | false, true =>
          [Instruction.FmvDX F0 T0; Instruction.FcvtSD F0 F0; Instruction.FmvXW T0 F0]
      | _, _ => []
      end
  end.

Definition lower_cast (kind : CastKind) (dst src : IRValue) (from_ty to_ty : option IRType) :
    list Instruction :=
  ss_load_value src slots T0 ++ cast_isel kind from_ty to_ty (dst_slot slots dst) ++
  store_result T0 dst.

(** ** Selection *)

Definition lower_select (dst cond true_val false_val : IRValue) : list Instruction :=
  ss_load_value false_val slots T0 ++ ss_load_value true_val slots T1 ++
  ss_load_value cond slots T2 ++
  [Instruction.Beq T2 Zero 8; Instruction.Addi T0 T1 0] ++ store_result T0 dst.

Definition ct_mask : list Instruction :=
  [Instruction.Sltiu T3 T2 1; Instruction.Xori T3 T3 1; Instruction.Sub T3 Zero T3;
   Instruction.And T1 T1 T3; Instruction.Xori T3 T3 (-1); Instruction.And T0 T0 T3;
   Instruction.Or T0 T0 T1].

Definition lower_ct_select (dst cond true_val false_val : IRValue) : list Instruction :=
  ss_load_value cond slots T2 ++ ss_load_value true_val slots T1 ++
  ss_load_value false_val slots T0 ++ ct_mask ++ store_result T0 dst.

Definition ct_eq_bits : list Instruction :=
  [Instruction.Xor T0 T0 T1; Instruction.Sub T2 Zero T0; Instruction.Or T0 T0 T2;
   Instruction.Srli T0 T0 31; Instruction.Xori T0 T0 1].

Definition lower_ct_eq (dst lhs rhs : IRValue) : list Instruction :=
  load_operands lhs rhs T0 T1 ++ ct_eq_bits ++ store_result T0 dst.

(** ** Calls through a register, system calls *)

Definition load_args (args : list IRValue) (arg_regs : list Gpr) : list Instruction :=
  mjoin (zip_with (λ arg r, ss_load_value arg slots r) args arg_regs).
Definition store_return (dst : option IRValue) : list Instruction :=
  match dst with Some d => store_result A0 d | None => [] end.

Definition lower_syscall (nr : Z) (args : list IRValue) (dst : option IRValue) : list Instruction :=
  load_args args [A0; A1; A2; A3; A4; A5] ++ ss_load_imm A7 (translate_or_warn RiscV64 nr) ++ [Instruction.Ecall] ++
  store_return dst.

Definition lower_call_indirect (dst : option IRValue) (func_ptr : IRValue) (args : list IRValue) :
    list Instruction :=
  load_args args [A0; A1; A2; A3; A4; A5] ++ ss_load_value func_ptr slots T0 ++
  [Instruction.Jalr Ra T0 0] ++ store_return dst.
End lower.

(** ** Specification *)

(** An immediate that needs both halves, and with them [T3]. *)
Definition wide (val : Z) : bool :=
  negb (val =? as_i32 val) && negb (wrap32 (Z.shiftr val 32) =? 0) && negb (wrap32 val =? 0).

(** A block runs to its end, with the value in [dst], the memory as it was, and no other
    register changed but those in [tmp]. *)
Definition computes (code : list Instruction) (m : machine) (dst : Gpr) (v : Z) (tmp : list Gpr) : Prop :=
  ∃ m', exec_block code m = Some m' ∧ get m' dst = v ∧ mem m' = mem m ∧
    ∀ r, r ≠ dst → r ∉ tmp → get m' r = get m r.

(** ** Lemmas *)

Ltac regs :=
  repeat first
    [ rewrite get_set_eq by (done || discriminate)
    | rewrite get_set_ne by (done || congruence)
    | rewrite get_zero ].

Lemma as_i32_unique x y k : is_i32 y → x = y + k * 2 ^ 32 → as_i32 x = y.
Proof.
  unfold is_i32, as_i32, wrap32. intros Hy ->. rewrite Z.mod_add by lia.
  destruct (Z.ltb_spec y 0).
  - rewrite <-(Z.mod_unique y (2 ^ 32) (-1) (y + 2 ^ 32)) by lia.
    destruct (Z.ltb_spec (y + 2 ^ 32) (2 ^ 31)); lia.
  - rewrite Z.mod_small by lia. destruct (Z.ltb_spec y (2 ^ 31)); lia.
Qed.

Lemma upper_lower v :
  is_u32 v →
  lower_part v = (v + 2048) `mod` 4096 - 2048 ∧
  upper_part v = ((v + 2048) `mod` 2 ^ 32 / 4096) * 4096 ∧
  as_i32 (upper_part v) + lower_part v = (if v <? 2 ^ 31 - 2048 then v else v - 2 ^ 32) ∧
  (0x80000000 <= upper_part v ↔ 2 ^ 31 - 2048 ≤ v < 2 ^ 32 - 2048).
Proof.
  intros Hv. unfold is_u32 in Hv.
  assert (upper_part v = ((v + 2048) `mod` 2 ^ 32 / 4096) * 4096) as Hu.
  { unfold upper_part, wrap32. by rewrite Z.shiftl_mul_pow2, Z.shiftr_div_pow2 by done. }
  set (q := (v + 2048) `mod` 2 ^ 32 / 4096) in *.
  assert (0 ≤ q < 2 ^ 20 ∧ (q * 4096 + (v + 2048) `mod` 4096 = (if v <? 2 ^ 32 - 2048 then v + 2048 else v + 2048 - 2 ^ 32)))
    as [Hq1 Hq2].
  { subst q. destruct (Z.ltb_spec v (2 ^ 32 - 2048)).
    - rewrite (Z.mod_small _ (2 ^ 32)) by lia. Z.to_euclidean_division_equations; lia.
    - rewrite <-(Z.mod_unique (v + 2048) (2 ^ 32) 1 (v + 2048 - 2 ^ 32)) by lia.
      Z.to_euclidean_division_equations; lia. }
  pose proof (Z.mod_pos_bound (v + 2048) 4096 ltac:(lia)) as Hr.
  set (r := (v + 2048) `mod` 4096) in *. clearbody q r.
  assert (as_i32 (upper_part v) = if q <? 2 ^ 19 then q * 4096 else q * 4096 - 2 ^ 32) as Hs.
  { rewrite Hu. unfold as_i32, wrap32. rewrite Z.mod_small by lia.
    destruct (Z.ltb_spec (q * 4096) (2 ^ 31)), (Z.ltb_spec q (2 ^ 19)); lia. }
  assert (lower_part v = r - 2048) as Hl.
  { unfold lower_part. rewrite Hs. unfold as_i32 at 2. unfold wrap32. rewrite (Z.mod_small v) by lia.
    apply (as_i32_unique _ _ ((if v <? 2 ^ 31 then 0 else -1) + (if q <? 2 ^ 19 then 0 else 1) -
      (if v <? 2 ^ 32 - 2048 then 0 else -1))); [unfold is_i32; lia|].
    destruct (Z.ltb_spec v (2 ^ 31)), (Z.ltb_spec q (2 ^ 19)), (Z.ltb_spec v (2 ^ 32 - 2048)); lia. }
  split; [done|]. split; [done|]. rewrite Hs, Hl, Hu.
  destruct (Z.ltb_spec v (2 ^ 31 - 2048)), (Z.ltb_spec q (2 ^ 19)), (Z.ltb_spec v (2 ^ 32 - 2048)); lia.
Qed.

Lemma wrap64_add_l a b : wrap64 (wrap64 a + b) = wrap64 (a + b).
Proof. unfold wrap64. by rewrite Z.add_mod_idemp_l. Qed.

Lemma load_32_spec dst v m :
  dst ≠ Zero → is_u32 v →
  computes (load_32 dst v) m dst (wrap64 (if v <? 2 ^ 31 - 2048 then v else v - 2 ^ 32)) [].
Proof.
  intros Hd Hv. destruct (upper_lower v Hv) as (_ & _ & <- & _). unfold load_32.
  destruct (Z.eqb_spec (lower_part v) 0) as [->|_]; cbn [exec_block exec mbind option_bind];
    eexists; (split; [reflexivity|]); (split; [|split; [done|intros r Hr _; by regs]]); regs.
  - by rewrite Z.add_0_r.
  - apply wrap64_add_l.
Qed.

Lemma computes_app c1 c2 m dst v tmp1 tmp2 d1 v1 :
  computes c1 m d1 v1 tmp1 →
  (∀ m1, get m1 d1 = v1 → mem m1 = mem m → (∀ r, r ≠ d1 → r ∉ tmp1 → get m1 r = get m r) →
    computes c2 m1 dst v tmp2) →
  (d1 = dst ∨ d1 ∈ tmp2) → (∀ r, r ∈ tmp1 → r = dst ∨ r ∈ tmp2) →
  computes (c1 ++ c2) m dst v tmp2.
Proof.
  intros (m1 & E1 & H1 & M1 & F1) H2 Hd Ht. destruct (H2 m1 H1 M1 F1) as (m2 & E2 & V2 & M2 & F2).
  exists m2. rewrite exec_block_app, E1. split; [done|]. split; [done|]. split; [by rewrite M2|].
  intros r Hr Hn. rewrite F2 by done. apply F1; [set_solver|]. intros Hin. destruct (Ht r Hin); done.
Qed.

(** The two shifts leave the low half. *)
Lemma zext_spec dst m :
  dst ≠ Zero →
  computes [Instruction.Slli dst dst 32; Instruction.Srli dst dst 32] m dst (wrap32 (get m dst)) [].
Proof.
  intros Hd. cbn [exec_block exec mbind option_bind]. eexists. split; [reflexivity|].
  split; [|split; [done|intros r Hr _; by regs]]. regs.
  rewrite Z.shiftl_mul_pow2, Z.shiftr_div_pow2 by done. unfold wrap64, wrap32.
  change (2 ^ 64) with (2 ^ 32 * 2 ^ 32). rewrite Z.mul_mod_distr_r, Z.div_mul by done.
  apply Z.mod_small. pose proof (Z.mod_pos_bound (get m dst) (2 ^ 32)). lia.
Qed.

Lemma high_spec dst m :
  dst ≠ Zero →
  computes [Instruction.Slli dst dst 32] m dst (wrap32 (get m dst) * 2 ^ 32) [].
Proof.
  intros Hd. cbn [exec_block exec mbind option_bind]. eexists. split; [reflexivity|].
  split; [|split; [done|intros r Hr _; by regs]]. regs.
  rewrite Z.shiftl_mul_pow2 by done. unfold wrap64, wrap32.
  change (2 ^ 64) with (2 ^ 32 * 2 ^ 32). by rewrite Z.mul_mod_distr_r.
Qed.

Lemma wrap32_load v : is_u32 v → wrap32 (wrap64 (if v <? 2 ^ 31 - 2048 then v else v - 2 ^ 32)) = v.
Proof.
  intros Hv. unfold is_u32, wrap32, wrap64 in *.
  destruct (Z.ltb_spec v (2 ^ 31 - 2048)); Z.to_euclidean_division_equations; lia.
Qed.

(** What the three long forms of an immediate add up to. *)
Lemma halves val :
  is_i64 val →
  wrap64 val = wrap32 (Z.shiftr val 32) * 2 ^ 32 + wrap32 val ∧
  is_u32 (wrap32 (Z.shiftr val 32)) ∧ is_u32 (wrap32 val).
Proof.
  intros Hv. unfold is_i64, is_u32, wrap32, wrap64 in *. rewrite Z.shiftr_div_pow2 by done.
  pose proof (Z.mod_pos_bound (val / 2 ^ 32) (2 ^ 32)). pose proof (Z.mod_pos_bound val (2 ^ 32)).
  split; [|split; lia].
  change (2 ^ 64) with (2 ^ 32 * 2 ^ 32). rewrite Z.rem_mul_r by lia. lia.
Qed.

Lemma computes_ext code m dst v v' tmp : v = v' → computes code m dst v tmp → computes code m dst v' tmp.
Proof. by intros ->. Qed.

Lemma computes_weaken code m dst v tmp tmp' :
  (∀ r, r ∈ tmp → r = dst ∨ r ∈ tmp') → computes code m dst v tmp → computes code m dst v tmp'.
Proof.
  intros Ht (m' & E & V & M & F). exists m'. split; [done|]. split; [done|]. split; [done|].
  intros r Hr Hn. apply F; [done|]. intros Hin. destruct (Ht r Hin); done.
Qed.

Lemma load_low_spec dst v m :
  dst ≠ Zero → is_u32 v →
  computes (load_32 dst v ++ [Instruction.Slli dst dst 32; Instruction.Srli dst dst 32]) m dst v [].
Proof.
  intros Hd Hv. eapply computes_app; [by apply load_32_spec| |by left|set_solver].
  intros m1 Hm1 _ _. eapply computes_ext; [|by apply zext_spec].
  by rewrite Hm1, wrap32_load.
Qed.

Lemma load_high_spec dst v m :
  dst ≠ Zero → is_u32 v →
  computes (load_32 dst v ++ [Instruction.Slli dst dst 32]) m dst (v * 2 ^ 32) [].
Proof.
  intros Hd Hv. eapply computes_app; [by apply load_32_spec| |by left|set_solver].
  intros m1 Hm1 _ _. eapply computes_ext; [|by apply high_spec].
  by rewrite Hm1, wrap32_load.
Qed.

Lemma or_spec dst a b m :
  dst ≠ Zero → get m dst = a * 2 ^ 32 → get m T3 = b → is_u32 a → is_u32 b →
  computes [Instruction.Or dst dst T3] m dst (a * 2 ^ 32 + b) [].
Proof.
  intros Hd Ha Hb Ra Rb. cbn [exec_block exec mbind option_bind]. eexists. split; [reflexivity|].
  split; [|split; [done|intros r Hr _; by regs]]. regs. rewrite Ha, Hb, <-(Z.shiftl_mul_pow2 a 32) by done.
  unfold is_u32 in *. rewrite lor_add by lia. rewrite Z.shiftl_mul_pow2 by done.
  unfold wrap64. apply Z.mod_small. lia.
Qed.

Lemma as_i32_range z : is_i32 (as_i32 z).
Proof.
  unfold as_i32, is_i32. pose proof (Z.mod_pos_bound z (2 ^ 32)). unfold wrap32.
  destruct (Z.ltb_spec (z `mod` 2 ^ 32) (2 ^ 31)); lia.
Qed.

Lemma wrap32_range z : is_u32 (wrap32 z).
Proof. by apply Z.mod_pos_bound. Qed.

Lemma wrap32_as_i32 val : val = as_i32 val → wrap32 val = if val <? 0 then val + 2 ^ 32 else val.
Proof.
  intros E. pose proof (as_i32_range val) as Hr. rewrite <-E in Hr. unfold is_i32 in Hr. unfold wrap32.
  destruct (Z.ltb_spec val 0); [|apply Z.mod_small; lia].
  symmetry. apply (Z.mod_unique _ _ (-1)); lia.
Qed.

(** An immediate of 32 bits: the shifts undo the sign extension of [LUI] where the value is
    positive. *)
Lemma load_i32_runs dst val m :
  dst ≠ Zero → val = as_i32 val →
  computes (load_32 dst (wrap32 val) ++
    (if (0 <=? val) && (0x80000000 <=? upper_part (wrap32 val)) then
       [Instruction.Slli dst dst 32; Instruction.Srli dst dst 32] else [])) m dst (wrap64 val) [].
Proof.
  intros Hd E. assert (is_u32 (wrap32 val)) as Hu by apply wrap32_range.
  pose proof (as_i32_range val) as Hr. rewrite <-E in Hr. pose proof (wrap32_as_i32 val E) as Hw.
  destruct (upper_lower _ Hu) as (_ & _ & _ & Hi). unfold is_u32, is_i32 in *.
  destruct (Z.leb_spec 0 val) as [Hp|Hp]; cbn [andb].
  - rewrite (proj2 (Z.ltb_ge _ _)) in Hw by lia. rewrite Hw in *.
    destruct (Z.leb_spec 0x80000000 (upper_part val)).
    + unfold wrap64. rewrite Z.mod_small by lia. by apply load_low_spec.
    + rewrite app_nil_r. eapply computes_ext; [|by apply load_32_spec].
      by rewrite (proj2 (Z.ltb_lt val _)) by lia.
  - rewrite (proj2 (Z.ltb_lt _ _)) in Hw by lia. rewrite app_nil_r.
    eapply computes_ext; [|by apply load_32_spec].
    rewrite Hw, (proj2 (Z.ltb_ge _ _)) by lia. f_equal. lia.
Qed.

Lemma ss_load_imm_runs dst val m :
  dst ≠ Zero → is_i64 val → (dst = T3 → wide val = false) →
  computes (ss_load_imm dst val) m dst (wrap64 val) (if wide val then [T3] else []).
Proof.
  intros Hd Hv Ht. destruct (halves val Hv) as (Hsum & Hup & Hlo).
  assert (wide val = true → dst ≠ T3) as Hd3 by (intros Hw ->; rewrite Ht in Hw by done; done).
  clear Ht. unfold wide in *. unfold ss_load_imm.
  destruct ((-2048 <=? val) && (val <=? 2047)) eqn:Es.
  { apply andb_true_iff in Es as [E1%Z.leb_le E2%Z.leb_le].
    assert (as_i32 val = val) as -> by (apply (as_i32_unique _ _ 0); unfold is_i32; lia).
    rewrite Z.eqb_refl. cbn [negb andb]. eexists. split; [reflexivity|].
    split; [by regs|]. split; [done|]. intros r Hr _. by regs. }
  destruct (Z.eqb_spec val (as_i32 val)) as [E|_]; cbn [negb andb] in *; [by apply load_i32_runs|].
  rewrite Hsum.
  destruct (Z.eqb_spec (wrap32 (Z.shiftr val 32)) 0) as [E|_]; cbn [negb andb] in *.
  { rewrite E. by apply load_low_spec. }
  destruct (Z.eqb_spec (wrap32 val) 0) as [E|_]; cbn [negb andb] in *.
  { rewrite E, Z.add_0_r. by apply load_high_spec. }
  specialize (Hd3 eq_refl).
  rewrite app_assoc. eapply computes_app; [by apply load_high_spec| |by left|set_solver].
  intros m1 Hm1 _ _.
  change (?a :: ?b :: ?c :: []) with ([a; b] ++ [c]). rewrite app_assoc.
  eapply (computes_app _ _ _ _ _ [] _ T3); [by apply load_low_spec| |right; set_solver|set_solver].
  intros m2 Hm2 _ Hf. eapply computes_weaken; [|apply or_spec; try done].
  - set_solver.
  - rewrite Hf by (done || set_solver). done.
Qed.
