(* ===== verification/RiscvBits.v ===== *)
(** * Counting bits in parallel

    The arithmetic behind [emit_popcnt_isel] of [src/src/codegen/src/riscv64/mod.rs]: the
    word is a list of bytes, every step but the last works on each byte by itself, and a
    byte is counted by looking at its 256 values. *)

From S2P Require Import Prelude.
From stdpp Require Import options.
#[local] Open Scope Z_scope.

(** ** Words as bytes *)

Fixpoint word (bs : list Z) : Z := match bs with [] => 0 | b :: bs => b + 256 * word bs end.
Definition is_byte (b : Z) : Prop := 0 ≤ b < 256.

Fixpoint bytes_of (n : nat) (v : Z) : list Z :=
  match n with O => [] | S n => v mod 256 :: bytes_of n (v / 256) end.

Lemma word_bytes_of n v : 0 ≤ v < 256 ^ Z.of_nat n → word (bytes_of n v) = v.
Proof.
  revert v. induction n as [|n IH]; intros v Hv; [cbn in *; lia|]. cbn [bytes_of word].
  rewrite Nat2Z.inj_succ, Z.pow_succ_r in Hv by lia. pose proof (Z.div_mod v 256 ltac:(done)).
  rewrite IH; [lia|]. split; [apply Z.div_pos; lia|apply Z.div_lt_upper_bound; lia].
Qed.

Lemma bytes_of_bytes n v : Forall is_byte (bytes_of n v).
Proof. revert v. induction n; constructor; [by apply Z.mod_pos_bound|done]. Qed.

Lemma word_nonneg bs : Forall is_byte bs → 0 ≤ word bs.
Proof. induction 1 as [|b bs H _ IH]; [done|]. unfold is_byte in H. cbn [word]. lia. Qed.

(** ** Bits of a byte and of the rest *)

Lemma testbit_lane b w i :
  is_byte b → 0 ≤ i → Z.testbit (b + 256 * w) i = if i <? 8 then Z.testbit b i else Z.testbit w (i - 8).
Proof.
  intros H Hi. unfold is_byte in H. destruct (Z.ltb_spec i 8).
  - rewrite <-(Z.mod_pow2_bits_low (b + 256 * w) 8 i), <-(Z.mod_pow2_bits_low b 8 i) by lia.
    change (2 ^ 8) with 256. by rewrite Z.mul_comm, Z.mod_add by lia.
  - replace i with ((i - 8) + 8) at 1 by lia. rewrite <-Z.shiftr_spec, Z.shiftr_div_pow2 by lia.
    change (2 ^ 8) with 256. rewrite Z.mul_comm, Z.div_add by lia.
    by rewrite (Z.div_small b 256).
Qed.

Lemma land_le a b : 0 ≤ a → 0 ≤ b → 0 ≤ Z.land a b ≤ a.
Proof.
  intros Ha Hb. rewrite <-(Z2N.id a), <-(Z2N.id b), <-N2Z.inj_land by done.
  pose proof (N.land_le_l (Z.to_N a) (Z.to_N b)). lia.
Qed.

Lemma land_lane b w m v :
  is_byte b → is_byte m → Z.land (b + 256 * w) (m + 256 * v) = Z.land b m + 256 * Z.land w v.
Proof.
  intros Hb Hm. unfold is_byte in *. pose proof (land_le b m).
  apply Z.bits_inj'. intros i Hi.
  rewrite Z.land_spec, !testbit_lane by (unfold is_byte; lia).
  destruct (i <? 8); by rewrite Z.land_spec.
Qed.

Lemma shiftr_lane b w k :
  0 ≤ k ≤ 8 → Z.shiftr (b + 256 * w) k = Z.shiftr b k + 2 ^ (8 - k) * w.
Proof.
  intros Hk. rewrite !Z.shiftr_div_pow2 by lia.
  assert (256 = 2 ^ (8 - k) * 2 ^ k) as -> by (rewrite <-Z.pow_add_r by lia; by replace (8 - k + k) with 8 by lia).
  rewrite <-Z.mul_assoc, (Z.mul_comm (2 ^ k)), Z.mul_assoc. rewrite Z.div_add by (apply Z.pow_nonzero; lia). lia.
Qed.

(** ** The steps on a byte *)

Definition pairs8 (b : Z) : Z := b - Z.land (Z.shiftr b 1) 0x55.
Definition nibbles8 (b : Z) : Z := Z.land b 0x33 + Z.land (Z.shiftr b 2) 0x33.
Definition sum8 (b : Z) : Z := Z.land (b + Z.shiftr b 4) 0xF.
Definition count (v n : Z) : Z :=
  Z.of_nat (length (filter (λ i, Z.testbit v i = true) (seqZ 0 n))).

(** Two counts of at most four in the nibbles. *)
Definition nibbles_ok (b : Z) : Prop := 0 ≤ b ≤ 0x44 ∧ b mod 16 ≤ 4.

Definition byte_steps_ok (b : Z) : bool :=
  let p := pairs8 b in
  let q := nibbles8 p in
  (0 <=? Z.land (Z.shiftr b 1) 0x55) && (Z.land (Z.shiftr b 1) 0x55 <=? b) && (p <? 256) &&
  (0 <=? q) && (q <=? 0x44) && (q mod 16 <=? 4) && (sum8 q =? count b 8).

Lemma byte_steps b :
  is_byte b →
  is_byte (pairs8 b) ∧ nibbles_ok (nibbles8 (pairs8 b)) ∧ sum8 (nibbles8 (pairs8 b)) = count b 8.
Proof.
  intros H. assert (forallb byte_steps_ok (seqZ 0 256) = true) as Hall by by vm_compute.
  rewrite forallb_forall in Hall. specialize (Hall b). unfold byte_steps_ok in Hall.
  rewrite <-list_elem_of_In, elem_of_seqZ, !andb_true_iff, !Z.leb_le, Z.ltb_lt, Z.eqb_eq in Hall.
  unfold is_byte, nibbles_ok in *. unfold pairs8 in *. lia.
Qed.

(** ** The steps on a word *)

Lemma word_replicate_lane n m : word (replicate (S n) m) = m + 256 * word (replicate n m).
Proof. done. Qed.

(** A shift by [k] and a mask whose bytes leave their top [k] bits clear act on each byte. *)
Lemma land_shift_word k m n bs :
  0 ≤ k ≤ 8 → 0 ≤ m < 2 ^ (8 - k) → length bs = n → Forall is_byte bs →
  Z.land (Z.shiftr (word bs) k) (word (replicate n m)) =
  word ((λ b, Z.land (Z.shiftr b k) m) <$> bs).
Proof.
  intros Hk Hm <- H. assert (is_byte m) as Hm'.
  { unfold is_byte. assert (2 ^ (8 - k) ≤ 2 ^ 8) by (apply Z.pow_le_mono_r; lia). lia. }
  induction H as [|b bs Hb H IH]; [by rewrite Z.land_0_r|].
  cbn [length word]. rewrite word_replicate_lane, fmap_cons, shiftr_lane by done. cbn [word].
  rewrite <-IH.
  assert (is_byte (Z.shiftr b k + 2 ^ (8 - k) * (word bs mod 2 ^ k))) as Hlow.
  { unfold is_byte in *. rewrite Z.shiftr_div_pow2 by lia.
    assert (0 < 2 ^ k) as Hp by (apply Z.pow_pos_nonneg; lia).
    assert (2 ^ (8 - k) * 2 ^ k = 256) as Hq by (rewrite <-Z.pow_add_r by lia; by replace (8 - k + k) with 8 by lia).
    assert (0 < 2 ^ (8 - k)) by (apply Z.pow_pos_nonneg; lia).
    pose proof (Z.mod_pos_bound (word bs) (2 ^ k) Hp).
    assert (b / 2 ^ k < 2 ^ (8 - k)) by (apply Z.div_lt_upper_bound; lia).
    pose proof (Z.div_pos b (2 ^ k)). nia. }
  assert (Z.shiftr b k + 2 ^ (8 - k) * word bs =
    (Z.shiftr b k + 2 ^ (8 - k) * (word bs mod 2 ^ k)) + 256 * Z.shiftr (word bs) k) as ->.
  { rewrite (Z.shiftr_div_pow2 (word bs)) by lia.
    assert (2 ^ (8 - k) * 2 ^ k = 256) as <- by (rewrite <-Z.pow_add_r by lia; by replace (8 - k + k) with 8 by lia).
    rewrite (Z.div_mod (word bs) (2 ^ k)) at 1 by (apply Z.pow_nonzero; lia). ring. }
  rewrite land_lane by done. f_equal.
  apply Z.bits_inj'. intros i Hi. rewrite !Z.land_spec.
  destruct (Z.ltb_spec i (8 - k)) as [Hlt|Hge].
  - f_equal. rewrite <-(Z.mod_pow2_bits_low _ (8 - k)), <-(Z.mod_pow2_bits_low (Z.shiftr b k) (8 - k)) by lia.
    by rewrite Z.mul_comm, Z.mod_add by (apply Z.pow_nonzero; lia).
  - rewrite <-(Z.mod_small m (2 ^ (8 - k))) by done.
    by rewrite Z.mod_pow2_bits_high, !andb_false_r by lia.
Qed.

Lemma word_sub (f : Z → Z) bs : word ((λ b, b - f b) <$> bs) = word bs - word (f <$> bs).
Proof. induction bs as [|b bs IH]; [done|]. rewrite !fmap_cons. cbn [word]. rewrite IH. lia. Qed.
Lemma word_add (f g : Z → Z) bs : word ((λ b, f b + g b) <$> bs) = word (f <$> bs) + word (g <$> bs).
Proof. induction bs as [|b bs IH]; [done|]. rewrite !fmap_cons. cbn [word]. rewrite IH. lia. Qed.

Lemma pairs_word n bs :
  length bs = n → Forall is_byte bs →
  word bs - Z.land (Z.shiftr (word bs) 1) (word (replicate n 0x55)) = word (pairs8 <$> bs).
Proof. intros Hn H. rewrite land_shift_word by done. by rewrite <-word_sub. Qed.

Lemma nibbles_word n bs :
  length bs = n → Forall is_byte bs →
  Z.land (word bs) (word (replicate n 0x33)) + Z.land (Z.shiftr (word bs) 2) (word (replicate n 0x33)) =
  word (nibbles8 <$> bs).
Proof.
  intros Hn H. rewrite land_shift_word by done.
  rewrite <-(Z.shiftr_0_r (word bs)), land_shift_word by done. by rewrite <-word_add.
Qed.

(** The nibbles are small enough that the sum of a byte and its shifted neighbour stays a
    byte. *)
Lemma bytes_word n bs :
  length bs = n → Forall nibbles_ok bs →
  Z.land (word bs + Z.shiftr (word bs) 4) (word (replicate n 0xF)) = word (sum8 <$> bs).
Proof.
  intros <- H. assert (∀ bs, Forall nibbles_ok bs → word bs mod 16 ≤ 4) as Hmod.
  { intros [|b bs']; [done|]. intros [[_ Hb] _]%Forall_cons. cbn [word].
    by replace (b + 256 * word bs') with (b + (16 * word bs') * 16) by lia; rewrite Z.mod_add. }
  induction H as [|b bs Hb H IH]; [by rewrite Z.land_0_r|].
  cbn [length word]. rewrite word_replicate_lane, fmap_cons. cbn [word]. rewrite shiftr_lane by done.
  rewrite <-IH. specialize (Hmod bs H). destruct Hb as [Hb1 Hb2].
  pose proof (Z.mod_pos_bound (word bs) 16 ltac:(done)) as Hr.
  assert (Z.shiftr b 4 = b / 16) as Es by by rewrite Z.shiftr_div_pow2.
  pose proof (Z.div_mod b 16 ltac:(done)). pose proof (Z.mod_pos_bound b 16 ltac:(done)).
  change (2 ^ (8 - 4)) with 16.
  assert (b + 256 * word bs + (Z.shiftr b 4 + 16 * word bs) =
    (b + Z.shiftr b 4 + 16 * (word bs mod 16)) + 256 * (word bs + Z.shiftr (word bs) 4)) as ->.
  { rewrite (Z.shiftr_div_pow2 (word bs)) by lia. change (2 ^ 4) with 16.
    pose proof (Z.div_mod (word bs) 16 ltac:(done)). lia. }
  rewrite land_lane by (unfold is_byte; lia). f_equal. unfold sum8.
  change 0xF with (Z.ones 4). rewrite !Z.land_ones by lia. change (2 ^ 4) with 16.
  by rewrite Z.mul_comm, Z.mod_add.
Qed.

(** The top byte of the product with a word of ones is the sum of the bytes. *)
Lemma sum_word bs :
  length bs = 8%nat → Forall (λ b, 0 ≤ b ≤ 8) bs →
  Z.shiftr (wrap64 (word bs * word (replicate 8 1))) 56 = foldr Z.add 0 bs.
Proof.
  intros Hn H. do 8 (destruct bs as [|? bs]; [done|]). destruct bs; [|done].
  repeat (apply Forall_cons in H as [? H]). cbn [word foldr]. change (word (replicate 8 1)) with 0x0101010101010101.
  rewrite Z.shiftr_div_pow2 by lia. unfold wrap64. symmetry.
  match goal with |- ?s = _ `div` _ => apply (Z.div_unique _ _ _
    (word [z; z + z0; z + z0 + z1; z + z0 + z1 + z2; z + z0 + z1 + z2 + z3;
           z + z0 + z1 + z2 + z3 + z4; z + z0 + z1 + z2 + z3 + z4 + z5])) end.
  - left. cbn [word]. lia.
  - symmetry. apply (Z.mod_unique _ _
      (word [z0 + z1 + z2 + z3 + z4 + z5 + z6; z1 + z2 + z3 + z4 + z5 + z6; z2 + z3 + z4 + z5 + z6;
             z3 + z4 + z5 + z6; z4 + z5 + z6; z5 + z6; z6])).
    + left. cbn [word]. lia.
    + cbn [word]. lia.
Qed.

(** ** Counting *)

Lemma length_filter_fmap {A B} (f : A → B) (P : B → Prop) (Q : A → Prop)
    `{!∀ x, Decision (P x), !∀ x, Decision (Q x)} l :
  (∀ x, x ∈ l → P (f x) ↔ Q x) → length (filter P (f <$> l)) = length (filter Q l).
Proof.
  induction l as [|x l IH]; intros HPQ; [done|]. rewrite fmap_cons, !filter_cons.
  assert (P (f x) ↔ Q x) by (apply HPQ; by left). assert (∀ y, y ∈ l → P (f y) ↔ Q y) by (intros; apply HPQ; by right).
  destruct (decide (P (f x))), (decide (Q x)); try tauto; cbn [length]; auto.
Qed.

Lemma count_lane b w n : is_byte b → 0 ≤ n → count (b + 256 * w) (8 + n) = count b 8 + count w n.
Proof.
  intros Hb Hn. unfold count. rewrite seqZ_app, filter_app, length_app, Nat2Z.inj_add by lia. f_equal.
  - do 2 f_equal. apply filter_ext_elem. intros i Hi%elem_of_seqZ.
    rewrite testbit_lane by (done || lia). by rewrite (proj2 (Z.ltb_lt _ _)) by lia.
  - f_equal. change (0 + 8) with 8. rewrite <-(Z.add_0_r 8) at 1.
    rewrite <-(fmap_add_seqZ 8 0). apply length_filter_fmap. intros i Hi%elem_of_seqZ.
    rewrite testbit_lane by (done || lia). rewrite (proj2 (Z.ltb_ge _ _)) by lia.
    by replace (8 + i - 8) with i by lia.
Qed.

Lemma count_word bs :
  Forall is_byte bs →
  count (word bs) (8 * Z.of_nat (length bs)) = foldr Z.add 0 ((λ b, count b 8) <$> bs).
Proof.
  induction 1 as [|b bs Hb H IH]; [done|]. rewrite fmap_cons. cbn [word length foldr].
  rewrite <-IH, <-count_lane by (done || lia). f_equal. lia.
Qed.

(** ** The count of a word *)

Lemma word_bound c bs : Forall (λ b, 0 ≤ b ≤ c) bs → word bs ≤ c * word (replicate (length bs) 1).
Proof. induction 1 as [|b bs Hb H IH]; cbn [word length replicate]; lia. Qed.

Lemma word_u64 bs : length bs = 8%nat → Forall is_byte bs → is_u64 (word bs).
Proof.
  intros Hn H. pose proof (word_nonneg bs H).
  pose proof (word_bound 255 bs ltac:(by eapply Forall_impl; [exact H|unfold is_byte; lia])) as Hb.
  rewrite Hn in Hb. cbn in Hb. unfold is_u64. lia.
Qed.

(** The four steps with the wrap-around of the machine. *)
Definition popcnt_steps (v : Z) : Z :=
  let x1 := wrap64 (v - Z.land (Z.shiftr v 1) 0x5555555555555555) in
  let x2 := wrap64 (Z.land x1 0x3333333333333333 + Z.land (Z.shiftr x1 2) 0x3333333333333333) in
  let x3 := Z.land (wrap64 (x2 + Z.shiftr x2 4)) 0x0F0F0F0F0F0F0F0F in
  Z.shiftr (wrap64 (x3 * 0x0101010101010101)) 56.

Lemma popcnt_steps_bytes bs :
  length bs = 8%nat → Forall is_byte bs →
  popcnt_steps (word bs) = foldr Z.add 0 ((λ b, count b 8) <$> bs).
Proof.
  intros Hn H. unfold popcnt_steps.
  change 0x5555555555555555 with (word (replicate 8 0x55)).
  change 0x3333333333333333 with (word (replicate 8 0x33)).
  change 0x0F0F0F0F0F0F0F0F with (word (replicate 8 0xF)).
  change 0x0101010101010101 with (word (replicate 8 1)).
  assert (Forall is_byte (pairs8 <$> bs) ∧ Forall nibbles_ok (nibbles8 <$> (pairs8 <$> bs))) as [H1 H2].
  { rewrite !Forall_fmap. split; (eapply Forall_impl; [exact H|]); intros b Hb; apply (byte_steps b Hb). }
  assert (Forall (λ b, 0 ≤ b ≤ 0x44) (nibbles8 <$> (pairs8 <$> bs))) as H3
    by (eapply Forall_impl; [exact H2|intros b Hb; apply Hb]).
  assert (is_u64 (word (nibbles8 <$> (pairs8 <$> bs)))) as Hu.
  { apply word_u64; [by rewrite !length_fmap|]. eapply Forall_impl; [exact H3|]. unfold is_byte. lia. }
  rewrite pairs_word, (wrap64_small (word (pairs8 <$> bs))) by
    (done || (apply word_u64; [by rewrite length_fmap|done])).
  rewrite nibbles_word, (wrap64_small _ Hu) by (done || by rewrite length_fmap).
  rewrite (wrap64_small (_ + _)).
  2: { pose proof (word_bound _ _ H3) as Hb. rewrite !length_fmap, Hn in Hb. unfold is_u64 in *.
       rewrite Z.shiftr_div_pow2 by done. pose proof (Z.div_le_upper_bound (word (nibbles8 <$> (pairs8 <$> bs)))
         (2 ^ 4) (word (nibbles8 <$> (pairs8 <$> bs)))). cbn in Hb.
       pose proof (Z.div_pos (word (nibbles8 <$> (pairs8 <$> bs))) (2 ^ 4)). lia. }
  rewrite bytes_word by (done || by rewrite !length_fmap). rewrite <-!list_fmap_compose.
  assert (∀ b, b ∈ bs → sum8 (nibbles8 (pairs8 b)) = count b 8) as E.
  { intros b Hb. rewrite Forall_forall in H. apply (byte_steps b (H b Hb)). }
  rewrite sum_word; [|by rewrite length_fmap|].
  - f_equal. apply list_fmap_ext. intros i b Hb. cbn. by apply E, (list_elem_of_lookup_2 _ i).
  - rewrite Forall_fmap, Forall_forall. intros b Hb. cbn. rewrite E by done. unfold count.
    pose proof (length_filter (λ i, Z.testbit b i = true) (seqZ 0 8)) as Hl. rewrite length_seqZ in Hl. lia.
Qed.

Lemma popcnt_steps_correct v : is_u64 v → popcnt_steps v = count v 64.
Proof.
  intros Hv. unfold is_u64 in Hv. rewrite <-(word_bytes_of 8 v) by (cbn; lia).
  rewrite popcnt_steps_bytes by (done || apply bytes_of_bytes).
  by rewrite <-count_word by apply bytes_of_bytes.
Qed.

Lemma count_wrap64 v : count (wrap64 v) 64 = count v 64.
Proof.
  unfold count. do 2 f_equal. apply filter_ext_elem. intros i Hi%elem_of_seqZ.
  unfold wrap64. by rewrite Z.mod_pow2_bits_low by lia.
Qed.

Lemma count_bounds v n : 0 ≤ n → 0 ≤ count v n ≤ n.
Proof.
  intros Hn. unfold count. pose proof (length_filter (λ i, Z.testbit v i = true) (seqZ 0 n)) as Hl.
  rewrite length_seqZ in Hl. lia.
Qed.
