(* ===== verification/RiscvSound.v ===== *)
(** * Correctness of the RISC-V lowering

    The code that [RiscvIsel] makes for an operation computes what the folders of opt.rs
    say, on a machine whose stack frame holds the registers of the intermediate
    representation.  [represents] is that relation; [kept] is what such code leaves alone:
    every register but the temporaries, and all memory outside the slots. *)

From S2P Require Import Prelude Ir BvVerify Float Opt IrSem Riscv RiscvSem RiscvIsel RiscvBits.
From stdpp Require Import options.
#[local] Open Scope Z_scope.

#[local] Notation Instruction := Instruction.Instruction.

(** ** Specification *)

(** Wherever the code is placed, the machine runs through it. *)
Definition runs (c : list Instruction) (m : machine) (Q : machine → Prop) : Prop :=
  ∃ m', Q m' ∧ ∀ prog k, code_at prog k c →
    steps prog (4 * Z.of_nat k, m) (4 * Z.of_nat (k + length c), m').

(** The value is in [dst]; memory and the registers outside [tmp] are as before. *)
Definition leaves (m : machine) (dst : Gpr) (v : Z) (tmp : list Gpr) (m' : machine) : Prop :=
  get m' dst = v ∧ mem m' = mem m ∧ ∀ r, r ≠ dst → r ∉ tmp → get m' r = get m r.
Definition yields (c : list Instruction) (m : machine) (dst : Gpr) (v : Z) (tmp : list Gpr) : Prop :=
  runs c m (leaves m dst v tmp).

Definition temps : list Gpr := [T0; T1; T2; T3; T4; T5; T6].

Definition slots_ok (slots : gmap Z Z) : Prop :=
  (∀ id off, slots !! id = Some off → 24 ≤ off < 2 ^ 31) ∧
  (∀ i j oi oj, slots !! i = Some oi → slots !! j = Some oj → i ≠ j → oi + 8 ≤ oj ∨ oj + 8 ≤ oi).

(** Every slot holds the word of its register. *)
Definition represents (slots : gmap Z Z) (m : machine) (r : gmap Z Z) : Prop :=
  ∀ id off, slots !! id = Some off →
    load 8 (mem m) (get m S0 - off) = wrap64 (default 0 (r !! id)).

Definition in_slots (slots : gmap Z Z) (base b : Z) : Prop :=
  ∃ id off i, slots !! id = Some off ∧ 0 ≤ i < 8 ∧ b = wrap64 (base - off + i).

Definition kept (slots : gmap Z Z) (m m' : machine) : Prop :=
  (∀ r, r ∉ temps → get m' r = get m r) ∧
  (∀ b, ¬ in_slots slots (get m S0) b → mem m' b = mem m b).

(** An operand the frame can supply. *)
Definition operand_ok (slots : gmap Z Z) (v : IRValue) : Prop :=
  match v with
  | Register id => is_Some (slots !! id)
  | Immediate z => is_i64 z
  | Address a => is_u64 a
  | Label _ => True
  end.

(** ** Running code *)

Lemma runs_block c m m' Q : exec_block c m = Some m' → Q m' → runs c m Q.
Proof. intros E HQ. exists m'. split; [done|]. intros prog k Hc. by apply block_steps. Qed.

Lemma runs_app c1 c2 m Q1 Q :
  runs c1 m Q1 → (∀ m1, Q1 m1 → runs c2 m1 Q) → runs (c1 ++ c2) m Q.
Proof.
  intros (m1 & H1 & S1) H2. destruct (H2 m1 H1) as (m2 & HQ & S2). exists m2. split; [done|].
  intros prog k [Hc1 Hc2]%code_at_app. rewrite length_app, Nat.add_assoc.
  unfold steps in *. etrans; [by apply S1|by apply S2].
Qed.

Lemma runs_mono c m (Q Q' : machine → Prop) : (∀ m', Q m' → Q' m') → runs c m Q → runs c m Q'.
Proof. intros H (m' & HQ & S). exists m'. auto. Qed.

Lemma computes_yields c m dst v tmp : computes c m dst v tmp → yields c m dst v tmp.
Proof. intros (m' & E & V & M & F). by eapply runs_block. Qed.

Lemma yields_app c1 c2 m d1 v1 tmp1 dst v tmp2 :
  yields c1 m d1 v1 tmp1 →
  (∀ m1, leaves m d1 v1 tmp1 m1 → yields c2 m1 dst v tmp2) →
  d1 = dst ∨ d1 ∈ tmp2 → (∀ r, r ∈ tmp1 → r = dst ∨ r ∈ tmp2) →
  yields (c1 ++ c2) m dst v tmp2.
Proof.
  intros H1 H2 Hd Ht. eapply runs_app; [exact H1|]. intros m1 L1. eapply runs_mono; [|by apply H2].
  destruct L1 as (V1 & M1 & F1). intros m2 (V2 & M2 & F2). split; [done|]. split; [by rewrite M2|].
  intros r Hr Hn. rewrite F2 by done. apply F1; [set_solver|]. intros Hin. destruct (Ht r Hin); done.
Qed.

Lemma yields_weaken c m dst v tmp tmp' :
  (∀ r, r ∈ tmp → r = dst ∨ r ∈ tmp') → yields c m dst v tmp → yields c m dst v tmp'.
Proof.
  intros Ht. apply runs_mono. intros m' (V & M & F). split; [done|]. split; [done|].
  intros r Hr Hn. apply F; [done|]. intros Hin. destruct (Ht r Hin); done.
Qed.

Lemma yields_ext c m dst v v' tmp : v = v' → yields c m dst v tmp → yields c m dst v' tmp.
Proof. by intros ->. Qed.

(** ** Slots *)

Lemma i32_not_wide v : is_i32 v → wide v = false.
Proof.
  intros H. unfold wide. rewrite (as_i32_unique v v 0) by (done || lia). by rewrite Z.eqb_refl.
Qed.

Lemma wrap64_sub_r a b : wrap64 (a - wrap64 b) = wrap64 (a - b).
Proof. unfold wrap64. by rewrite Zminus_mod_idemp_r. Qed.

Lemma wrap64_sub_l a b : wrap64 (wrap64 a - b) = wrap64 (a - b).
Proof. unfold wrap64. by rewrite Zminus_mod_idemp_l. Qed.

Lemma wrap64_idem a : wrap64 (wrap64 a) = wrap64 a.
Proof. unfold wrap64. by rewrite Z.mod_mod. Qed.

Lemma wrap64_add_r a b : wrap64 (a + wrap64 b) = wrap64 (a + b).
Proof. unfold wrap64. by rewrite Z.add_mod_idemp_r. Qed.

(** Loads and stores see an address only modulo [2 ^ 64]. *)
Lemma load_wrap n f a b : wrap64 a = wrap64 b → load n f a = load n f b.
Proof.
  revert a b. induction n as [|n IH]; intros a b E; [done|]. cbn [load]. rewrite E.
  rewrite (IH (a + 1) (b + 1)); [done|]. by rewrite <-(wrap64_add_l a), E, wrap64_add_l.
Qed.

Lemma store_wrap n f a b v : wrap64 a = wrap64 b → store n f a v = store n f b v.
Proof.
  revert a b v. induction n as [|n IH]; intros a b v E; [done|]. cbn [store]. rewrite E.
  rewrite (IH (a + 1) (b + 1)); [done|]. by rewrite <-(wrap64_add_l a), E, wrap64_add_l.
Qed.

#[local] Arguments load : simpl never.
#[local] Arguments store : simpl never.

(** A slot access runs as the access at the address of the slot, [T3] aside. *)
Lemma at_slot_runs off access m (Q : machine → Prop) :
  0 ≤ off < 2 ^ 31 →
  (∀ m1 base imm, wrap64 (get m1 base + imm) = wrap64 (get m S0 - off) →
     mem m1 = mem m → (∀ r, r ≠ T3 → get m1 r = get m r) →
     ∃ m2, exec (access base imm) m1 = Some m2 ∧ Q m2) →
  runs (at_slot off access) m Q.
Proof.
  intros Hoff H. unfold at_slot. destruct (Z.leb_spec (-2048) (- off)).
  - destruct (H m S0 (- off)) as (m2 & E & HQ); [done..|]. eapply runs_block; [|done].
    cbn [exec_block]. by rewrite E.
  - assert (is_i32 off) as H32 by (unfold is_i32; lia).
    destruct (ss_load_imm_runs T3 off m) as (m1 & E1 & V1 & M1 & F1);
      [done|unfold is_i64; lia|by intros _; apply i32_not_wide|].
    rewrite i32_not_wide in F1 by done.
    destruct (H (set m1 T3 (get m1 S0 - get m1 T3)) T3 0) as (m2 & E2 & HQ).
    + rewrite get_set_eq, Z.add_0_r, wrap64_idem, V1, (F1 S0) by (done || set_solver).
      apply wrap64_sub_r.
    + done.
    + intros r Hr. rewrite get_set_ne by done. apply F1; [done|set_solver].
    + eapply runs_block; [|done]. rewrite exec_block_app, E1. cbn [exec_block exec mbind option_bind].
      by rewrite E2.
Qed.

(** ** Operands and results *)

Section frame.
#[local] Set Default Proof Using "Type*".
  Context (n : NanBits) (slots : gmap Z Z) (Hslots : slots_ok slots).

  #[local] Notation eval := (@eval memory (word_machine n)).

Lemma slot_range id : is_Some (slots !! id) → 24 ≤ slot_of slots id < 2 ^ 31.
Proof. intros [off E]. unfold slot_of. rewrite E. simpl. by apply (proj1 Hslots id). Qed.

Lemma load_value_runs v m r dst :
  represents slots m r → operand_ok slots v → dst ≠ Zero →
  (∀ z, v = Immediate z ∨ v = Address z → dst = T3 → wide (as_i64 z) = false) →
  yields (ss_load_value v slots dst) m dst (wrap64 (eval r v)) [T3].
Proof.
  intros Hm Hv Hd Hw. unfold eval. rewrite wrap64_as_i64. destruct v as [id|z|a|l]; simpl in *.
  - pose proof (slot_range id Hv) as Hr. destruct Hv as [off E]. unfold ss_load_from_slot.
    apply at_slot_runs; [lia|]. intros m1 base imm Ha M1 F1. eexists. split; [reflexivity|].
    split; [|split; [done|]].
    + rewrite get_set_eq by done. rewrite (load_wrap _ _ _ _ Ha), M1. unfold slot_of. rewrite E. simpl.
      by rewrite (Hm id off E), wrap64_idem.
    + intros r' Hr' Ht. rewrite get_set_ne by done. apply F1. set_solver.
  - eapply yields_weaken; [|apply computes_yields, ss_load_imm_runs; try done].
    + intros r'. destruct (wide z); set_solver.
    + intros ->. rewrite <-(as_i64_small z) by done. auto.
  - assert (wrap64 (as_i64 a) = wrap64 a) as <- by apply wrap64_as_i64.
    eapply yields_weaken; [|apply computes_yields, ss_load_imm_runs; try done].
    + intros r'. destruct (wide _); set_solver.
    + apply as_i64_range.
    + intros ->. auto.
  - apply computes_yields. eexists. split; [reflexivity|].
    split; [by rewrite get_set_eq|]. split; [done|]. intros. by rewrite get_set_ne.
Qed.

(** A register other than [T3] takes any operand. *)
Lemma load_value_temp v m r dst :
  represents slots m r → operand_ok slots v → dst ≠ Zero → dst ≠ T3 →
  yields (ss_load_value v slots dst) m dst (wrap64 (eval r v)) [T3].
Proof. intros. apply load_value_runs; try done. Qed.

Lemma represents_leaves m r dst v tmp m' :
  leaves m dst v tmp m' → S0 ≠ dst → S0 ∉ tmp → represents slots m r → represents slots m' r.
Proof. intros (_ & M & F) Hd Ht H id off E. rewrite M, F by done. by apply H. Qed.

Lemma load_operands_runs lhs rhs r1 r2 m r (Q : machine → Prop) c :
  represents slots m r → operand_ok slots lhs → operand_ok slots rhs →
  r1 ≠ Zero → r1 ≠ T3 → r1 ≠ S0 → r2 ≠ Zero → r2 ≠ T3 → r2 ≠ S0 → r1 ≠ r2 → r1 ∈ temps → r2 ∈ temps →
  (∀ m1, get m1 r1 = wrap64 (eval r lhs) → get m1 r2 = wrap64 (eval r rhs) → mem m1 = mem m →
     (∀ r', r' ≠ r1 → r' ≠ r2 → r' ≠ T3 → get m1 r' = get m r') → runs c m1 Q) →
  runs (load_operands slots lhs rhs r1 r2 ++ c) m Q.
Proof.
  intros Hm Hl Hr ? ? ? ? ? ? ? ? ? H. unfold load_operands. rewrite <-app_assoc.
  eapply runs_app; [by apply load_value_temp|]. intros m1 L1.
  eapply runs_app; [apply load_value_temp; try done|].
  { eapply represents_leaves; [done|done|set_solver|done]. }
  intros m2 (V2 & M2 & F2). destruct L1 as (V1 & M1 & F1). apply H.
  - rewrite F2 by set_solver. done.
  - done.
  - by rewrite M2.
  - intros. rewrite F2, F1 by set_solver. done.
Qed.

(** Storing the word of a register into its slot. *)
Lemma store_represents m m' r id off v :
  slots !! id = Some off → represents slots m r → get m' S0 = get m S0 →
  mem m' = store 8 (mem m) (get m S0 - off) (wrap64 v) →
  represents slots m' (<[id := as_i64 v]> r).
Proof.
  intros E H ES EM id' off' E'. rewrite EM, ES.
  destruct (decide (id' = id)) as [->|Hne].
  - assert (off' = off) as -> by congruence. rewrite lookup_insert, load_store by done. simpl.
    rewrite decide_True by done. simpl. rewrite wrap64_as_i64. apply wrap64_idem.
  - rewrite lookup_insert_ne by done. rewrite load_store_other; [by apply H|].
    intros i j Hi Hj Hw%wrap64_inj; pose proof (proj2 Hslots id' id off' off E' E Hne);
      pose proof (proj1 Hslots id off E); pose proof (proj1 Hslots id' off' E'); lia.
Qed.

Lemma store_kept m off id v b :
  slots !! id = Some off → ¬ in_slots slots (get m S0) b →
  store 8 (mem m) (get m S0 - off) v b = mem m b.
Proof. intros E Hb. apply store_other. intros i Hi ->. apply Hb. exists id, off, i. auto with lia. Qed.

Lemma store_result_runs m r id v src :
  represents slots m r → is_Some (slots !! id) → src ≠ T3 → get m src = wrap64 v →
  runs (store_result slots src (Register id)) m (λ m',
    represents slots m' (<[id := as_i64 v]> r) ∧ kept slots m m').
Proof.
  intros Hm [off E] Hs V. unfold store_result, dst_slot, slot_of. simpl. rewrite E. simpl.
  pose proof (proj1 Hslots id off E). apply at_slot_runs; [lia|].
  intros m1 base imm Ha M1 F1. eexists. split; [reflexivity|]. cbn [mem].
  rewrite (store_wrap _ _ _ _ _ Ha), M1, (F1 src), V by done. split.
  - eapply store_represents; [done|done| |done]. change (get m1 S0 = get m S0). by apply F1.
  - split.
    + intros r' Hr'. change (get m1 r' = get m r'). apply F1. set_solver.
    + intros b Hb. cbn [mem]. by apply (store_kept m off id).
Qed.

Lemma kept_refl m : kept slots m m.
Proof. done. Qed.

Lemma kept_trans m1 m2 m3 : kept slots m1 m2 → kept slots m2 m3 → kept slots m1 m3.
Proof.
  intros [R1 M1] [R2 M2]. split.
  - intros r Hr. rewrite R2, R1 by done. done.
  - intros b Hb. rewrite M2, M1 by (try done; by rewrite R1 by set_solver). done.
Qed.

Lemma kept_regs m m' : mem m' = mem m → (∀ r, r ∉ temps → get m' r = get m r) → kept slots m m'.
Proof. intros EM F. split; [done|]. intros b _. by rewrite EM. Qed.

Lemma represents_kept_mem m m' r :
  represents slots m r → mem m' = mem m → get m' S0 = get m S0 → represents slots m' r.
Proof. intros H EM ES id off E. rewrite EM, ES. by apply H. Qed.

(** An operation that leaves its result in [T0], and the store of the result. *)
Lemma result_runs c m r id v :
  represents slots m r → is_Some (slots !! id) → yields c m T0 (wrap64 v) temps →
  runs (c ++ store_result slots T0 (Register id)) m (λ m',
    represents slots m' (<[id := as_i64 v]> r) ∧ kept slots m m').
Proof.
  intros Hm Hid Hc. eapply runs_app; [exact Hc|]. intros m1 (V1 & M1 & F1).
  assert (kept slots m m1) as Hk by (apply kept_regs; [done|]; intros; apply F1; set_solver).
  eapply runs_mono; [|apply store_result_runs; [|done|done|done]].
  - intros m2 [Hr Hk2]. split; [exact Hr|by eapply kept_trans].
  - eapply represents_kept_mem; [done|done|]. apply F1; [done|set_solver].
Qed.
End frame.

(** ** Operations on words *)

Lemma wrap64_land a b : wrap64 (Z.land (wrap64 a) (wrap64 b)) = wrap64 (Z.land a b).
Proof.
  unfold wrap64. rewrite <-!(Z.land_ones _ 64) by done. apply Z.bits_inj'. intros i Hi.
  rewrite !Z.land_spec. destruct (Z.testbit (Z.ones 64) i); by rewrite ?andb_true_r, ?andb_false_r.
Qed.
Lemma wrap64_lor a b : wrap64 (Z.lor (wrap64 a) (wrap64 b)) = wrap64 (Z.lor a b).
Proof.
  unfold wrap64. rewrite <-!(Z.land_ones _ 64) by done. apply Z.bits_inj'. intros i Hi.
  rewrite !Z.land_spec, !Z.lor_spec, !Z.land_spec.
  destruct (Z.testbit (Z.ones 64) i); by rewrite ?andb_true_r, ?andb_false_r.
Qed.
Lemma wrap64_lxor a b : wrap64 (Z.lxor (wrap64 a) (wrap64 b)) = wrap64 (Z.lxor a b).
Proof.
  unfold wrap64. rewrite <-!(Z.land_ones _ 64) by done. apply Z.bits_inj'. intros i Hi.
  rewrite !Z.land_spec, !Z.lxor_spec, !Z.land_spec.
  destruct (Z.testbit (Z.ones 64) i); by rewrite ?andb_true_r, ?andb_false_r.
Qed.

Lemma wrap64_add a b : wrap64 (wrap64 a + wrap64 b) = wrap64 (a + b).
Proof. by rewrite wrap64_add_l, wrap64_add_r. Qed.
Lemma wrap64_sub a b : wrap64 (wrap64 a - wrap64 b) = wrap64 (a - b).
Proof. unfold wrap64. by rewrite Zminus_mod_idemp_l, Zminus_mod_idemp_r. Qed.
Lemma wrap64_mul a b : wrap64 (wrap64 a * wrap64 b) = wrap64 (a * b).
Proof. unfold wrap64. by rewrite Z.mul_mod_idemp_l, Z.mul_mod_idemp_r. Qed.
Lemma wrap64_shiftl a k : 0 ≤ k → wrap64 (Z.shiftl (wrap64 a) k) = wrap64 (Z.shiftl a k).
Proof. intros Hk. unfold wrap64. rewrite !Z.shiftl_mul_pow2 by done. by rewrite Z.mul_mod_idemp_l. Qed.
Lemma wrap64_b2z b : wrap64 (b2z b) = wrap64 (bool_val b).
Proof. by destruct b. Qed.
Lemma wrap64_eqb a b : is_i64 a → is_i64 b → (wrap64 a =? wrap64 b) = (a =? b).
Proof.
  intros Ha Hb. destruct (Z.eqb_spec a b) as [->|Hne]; [apply Z.eqb_refl|].
  apply Z.eqb_neq. intros E%wrap64_inj; [done|]. unfold is_i64 in *. lia.
Qed.

(** The shift amount is the low six bits. *)
Lemma word_shift_amount b : wrap64 b `mod` 64 = shift_amount b.
Proof. unfold shift_amount, wrap32, wrap64. Z.to_euclidean_division_equations; lia. Qed.

(** Zero exactly where the words are equal. *)
Lemma lxor_zero a b :
  is_i64 a → is_i64 b → wrap64 (Z.lxor (wrap64 a) (wrap64 b)) = 0 ↔ a = b.
Proof.
  intros Ha Hb. rewrite wrap64_small.
  - rewrite Z.lxor_eq_0_iff. split; [|by intros ->]. intros E%wrap64_inj; [done|].
    unfold is_i64 in *. lia.
  - assert (0 ≤ Z.lxor (wrap64 a) (wrap64 b)).
    { apply Z.lxor_nonneg. pose proof (wrap64_range a). pose proof (wrap64_range b).
      unfold is_u64 in *. lia. }
    split; [done|]. destruct (Z.eq_dec (Z.lxor (wrap64 a) (wrap64 b)) 0) as [->|]; [done|].
    apply Z.log2_lt_pow2; [lia|]. eapply Z.le_lt_trans; [apply Z.log2_lxor|].
    + pose proof (wrap64_range a). unfold is_u64 in *. lia.
    + pose proof (wrap64_range b). unfold is_u64 in *. lia.
    + pose proof (wrap64_range a) as Ra. pose proof (wrap64_range b) as Rb. unfold is_u64 in *.
      apply Z.max_lub_lt.
      * destruct (Z.eq_dec (wrap64 a) 0) as [->|]; [done|]. apply Z.log2_lt_pow2; lia.
      * destruct (Z.eq_dec (wrap64 b) 0) as [->|]; [done|]. apply Z.log2_lt_pow2; lia.
Qed.

(** A block of register instructions: its result, then the registers it leaves alone. *)
Ltac run_block :=
  apply computes_yields; eexists; (split; [reflexivity|]);
  (split; [regs|split; [done|
    intros; repeat rewrite get_set_ne by (congruence || set_solver); done]]).

Lemma set_temp_kept m r v x : r ∈ temps → x ∉ temps → get (set m r v) x = get m x.
Proof. intros Hr Hx. apply get_set_ne. by intros ->. Qed.

(** ** Counting bits *)

Lemma land_u64 a b : is_u64 a → is_u64 b → wrap64 (Z.land a b) = Z.land a b.
Proof. unfold is_u64. intros Ha Hb. pose proof (land_le a b). apply wrap64_small. unfold is_u64. lia. Qed.

Lemma shiftr_range a k : 0 ≤ k → is_u64 a → is_u64 (Z.shiftr a k).
Proof.
  unfold is_u64. intros Hk Ha. rewrite Z.shiftr_div_pow2 by done.
  assert (0 < 2 ^ k) by (apply Z.pow_pos_nonneg; lia).
  pose proof (Z.div_pos a (2 ^ k)). pose proof (Z.div_le_upper_bound a (2 ^ k) a). nia.
Qed.

(** A step leaves its result in [T0] and changes only temporaries. *)
Definition step_result (m : machine) (v : Z) (m' : machine) : Prop :=
  get m' T0 = v ∧ mem m' = mem m ∧ ∀ r, r ∉ temps → get m' r = get m r.

Lemma step_yields c m v : runs c m (step_result m v) → yields c m T0 v temps.
Proof. apply runs_mono. intros m' (V & M & F). split; [done|]. split; [done|]. intros r _. apply F. Qed.

(** The mask that the doubling of a pattern builds in [T4]. *)
Definition mask_of (seed : Z) (shamts : list Z) : Z :=
  foldl (λ v s, wrap64 (Z.lor v (wrap64 (Z.shiftl v s)))) seed shamts.

Lemma replicate_runs shamts m :
  runs (shamts ≫= replicate_t4) m (λ m',
    get m' T4 = mask_of (get m T4) shamts ∧ step_result m (get m T0) m').
Proof.
  revert m. induction shamts as [|s ss IH]; intros m; [by eapply runs_block|]. rewrite bind_cons.
  set (m1 := set (set m T6 (Z.shiftl (get m T4) s)) T4
    (Z.lor (get m T4) (get (set m T6 (Z.shiftl (get m T4) s)) T6))).
  eapply (runs_app _ _ _ (λ m', m' = m1)); [by eapply runs_block; [by cbn; regs|]|]. intros ? ->.
  eapply runs_mono; [|by apply IH]. intros m2 (V & V0 & M & F). unfold m1 in *. split; [|split; [|split]].
  - rewrite V. regs. done.
  - rewrite V0. by regs.
  - by rewrite M.
  - intros r Hr. rewrite F by done. by rewrite !set_temp_kept by (done || (unfold temps; repeat constructor)).
Qed.

(** A step: the mask, then code that uses it. *)
Lemma mask_runs seed shamts c m v mask :
  mask_of (wrap64 seed) shamts = mask →
  (∀ m1, get m1 T4 = mask → get m1 T0 = get m T0 → runs c m1 (step_result m1 v)) →
  runs (Instruction.Addi T4 Zero seed :: (shamts ≫= replicate_t4) ++ c) m (step_result m v).
Proof.
  intros <- Hc. eapply (runs_app [_] _ _ (λ m', m' = set m T4 (get m Zero + seed)));
    [by eapply runs_block|]. intros ? ->.
  eapply runs_app; [apply replicate_runs|]. intros m1 (V4 & V0 & M1 & F1).
  revert V4 V0. regs. intros V4 V0. eapply runs_mono; [|by apply Hc].
  intros m2 (V2 & M2 & F2). split; [done|]. split; [by rewrite M2, M1|].
  intros r Hr. rewrite F2, F1 by done. by rewrite set_temp_kept by (done || (unfold temps; repeat constructor)).
Qed.

Ltac run_step :=
  apply (mask_runs _ _ _ _ _ _ eq_refl); intros m1 V4 V0;
  eapply runs_block; [reflexivity|]; split; [regs; rewrite V4, V0|split; [done|
    intros; repeat rewrite set_temp_kept by (done || (unfold temps; repeat constructor)); done]];
  match goal with |- context [mask_of ?a ?b] =>
    let c := eval vm_compute in (mask_of a b) in
    change (mask_of a b) with c end.

Lemma popcnt_pairs_runs m x :
  get m T0 = x → is_u64 x →
  runs (popcnt_pairs T0) m
    (step_result m (wrap64 (x - Z.land (Z.shiftr x 1) 0x5555555555555555))).
Proof.
  intros V Hx. run_step. rewrite V, (wrap64_small (Z.shiftr x 1)) by by apply shiftr_range.
  by rewrite land_u64 by (first [assumption|by apply shiftr_range|unfold is_u64; lia]).
Qed.

Lemma popcnt_nibbles_runs m x :
  get m T0 = x → is_u64 x →
  runs (popcnt_nibbles T0) m
    (step_result m (wrap64 (Z.land x 0x3333333333333333 + Z.land (Z.shiftr x 2) 0x3333333333333333))).
Proof.
  intros V Hx. run_step. rewrite V, (wrap64_small (Z.shiftr x 2)) by by apply shiftr_range.
  by rewrite !land_u64 by (first [assumption|by apply shiftr_range|unfold is_u64; lia]).
Qed.

Lemma popcnt_bytes_runs m x :
  get m T0 = x → is_u64 x →
  runs (popcnt_bytes T0) m
    (step_result m (Z.land (wrap64 (x + Z.shiftr x 4)) 0x0F0F0F0F0F0F0F0F)).
Proof.
  intros V Hx. run_step. rewrite V, (wrap64_small (Z.shiftr x 4)) by by apply shiftr_range.
  by rewrite land_u64 by (first [apply wrap64_range|unfold is_u64; lia]).
Qed.

Lemma popcnt_sum_runs m x :
  get m T0 = x → is_u64 x →
  runs (popcnt_sum T0) m (step_result m (Z.shiftr (wrap64 (x * 0x0101010101010101)) 56)).
Proof.
  intros V Hx. run_step. rewrite V. apply wrap64_small, shiftr_range; [done|apply wrap64_range].
Qed.

Lemma step_app c1 c2 m v1 v2 :
  runs c1 m (step_result m v1) → (∀ m1, get m1 T0 = v1 → runs c2 m1 (step_result m1 v2)) →
  runs (c1 ++ c2) m (step_result m v2).
Proof.
  intros H1 H2. eapply runs_app; [exact H1|]. intros m1 (V1 & M1 & F1).
  eapply runs_mono; [|by apply H2]. intros m2 (V2 & M2 & F2).
  split; [done|]. split; [by rewrite M2|]. intros r Hr. by rewrite F2, F1.
Qed.

Lemma popcnt_value x m :
  is_i64 x → get m T0 = wrap64 x → yields (emit_popcnt_isel T0 T0) m T0 (wrap64 (count x 64)) temps.
Proof.
  intros Hx V. apply step_yields. unfold emit_popcnt_isel, move_input.
  rewrite decide_True, app_nil_l by done. pose proof (count_bounds x 64 ltac:(done)).
  rewrite (wrap64_small (count x 64)) by (unfold is_u64; lia).
  rewrite <-count_wrap64, <-popcnt_steps_correct by apply wrap64_range. unfold popcnt_steps.
  eapply step_app; [apply popcnt_pairs_runs; [exact V|apply wrap64_range]|]. intros m1 V1.
  eapply step_app; [apply popcnt_nibbles_runs; [exact V1|apply wrap64_range]|]. intros m2 V2.
  eapply step_app; [apply popcnt_bytes_runs; [exact V2|apply wrap64_range]|]. intros m3 V3.
  apply popcnt_sum_runs; [exact V3|].
  rewrite <-land_u64 by (done || apply wrap64_range). apply wrap64_range.
Qed.

Section compare.
  Context (a b : Z) (Ha : is_i64 a) (Hb : is_i64 b).
  Context (rd rs1 rs2 scratch : Gpr) (Hrd : rd ≠ Zero) (Hs : scratch ≠ Zero).
  Context (m : machine) (V1 : get m rs1 = wrap64 a) (V2 : get m rs2 = wrap64 b).

Lemma as_i64_word z : is_i64 z → as_i64 (wrap64 z) = z.
Proof. apply as_i64_wrap64. Qed.

Lemma word_lxor_1 c : wrap64 (Z.lxor (wrap64 (b2z c)) (wrap64 1)) = wrap64 (bool_val (negb c)).
Proof. by destruct c. Qed.

Lemma eq_yields :
  yields [Instruction.Xor rd rs1 rs2; Instruction.Sltiu rd rd 1] m rd (wrap64 (bool_val (a =? b)))
    [scratch].
Proof using Ha Hb Hrd V1 V2.
  run_block. rewrite V1, V2, wrap64_b2z. f_equal. f_equal.
  pose proof (lxor_zero a b Ha Hb) as E. change (wrap64 1) with 1.
  pose proof (wrap64_range (Z.lxor (wrap64 a) (wrap64 b))). unfold is_u64 in *.
  destruct (Z.eqb_spec a b), (Z.ltb_spec (wrap64 (Z.lxor (wrap64 a) (wrap64 b))) 1); naive_solver lia.
Qed.

Lemma ne_yields :
  yields [Instruction.Xor rd rs1 rs2; Instruction.Sltu rd Zero rd] m rd
    (wrap64 (bool_val (negb (a =? b)))) [scratch].
Proof using Ha Hb Hrd V1 V2.
  run_block. rewrite V1, V2, wrap64_b2z. f_equal. f_equal.
  pose proof (lxor_zero a b Ha Hb) as E.
  pose proof (wrap64_range (Z.lxor (wrap64 a) (wrap64 b))). unfold is_u64 in *.
  destruct (Z.eqb_spec a b), (Z.ltb_spec 0 (wrap64 (Z.lxor (wrap64 a) (wrap64 b)))); naive_solver lia.
Qed.

Lemma slt_yields :
  yields [Instruction.Slt rd rs1 rs2] m rd (wrap64 (bool_val (a <? b))) [scratch].
Proof using Ha Hb Hrd V1 V2. run_block. by rewrite V1, V2, !as_i64_word, wrap64_b2z. Qed.

Lemma sltu_yields :
  yields [Instruction.Sltu rd rs1 rs2] m rd (wrap64 (bool_val (wrap64 a <? wrap64 b))) [scratch].
Proof using Ha Hb Hrd V1 V2. run_block. by rewrite V1, V2, wrap64_b2z. Qed.

Lemma sge_yields :
  yields [Instruction.Slt scratch rs1 rs2; Instruction.Xori rd scratch 1] m rd
    (wrap64 (bool_val (b <=? a))) [scratch].
Proof using Ha Hb Hrd Hs V1 V2.
  run_block. by rewrite V1, V2, !as_i64_word, word_lxor_1, Z.leb_antisym.
Qed.

Lemma uge_yields :
  yields [Instruction.Sltu scratch rs1 rs2; Instruction.Xori rd scratch 1] m rd
    (wrap64 (bool_val (wrap64 b <=? wrap64 a))) [scratch].
Proof using Ha Hb Hrd Hs V1 V2.
  run_block. by rewrite V1, V2, word_lxor_1, Z.leb_antisym.
Qed.
End compare.

Create HintDb compare.
#[local] Hint Resolve eq_yields ne_yields slt_yields sltu_yields sge_yields uge_yields : compare.

Lemma emit_cmp_yields kind rd rs1 rs2 scratch a b z m :
  rd ≠ Zero → scratch ≠ Zero → is_i64 a → is_i64 b →
  get m rs1 = wrap64 a → get m rs2 = wrap64 b → try_fold_cmp kind a b = Some z →
  yields (emit_cmp_isel kind rd rs1 rs2 scratch) m rd (wrap64 z) [scratch].
Proof. intros Hrd Hs Ha Hb V1 V2 [= <-]. destruct kind; simpl; eauto with compare. Qed.

Lemma emit_binop_cmp_yields op rd rs1 rs2 scratch a b z m c :
  rd ≠ Zero → scratch ≠ Zero → is_i64 a → is_i64 b →
  get m rs1 = wrap64 a → get m rs2 = wrap64 b →
  emit_binop_cmp_isel op rd rs1 rs2 scratch = Ret c → try_fold_binop_int op a b = Some z →
  yields c m rd (wrap64 z) [scratch].
Proof.
  intros Hrd Hs Ha Hb V1 V2 Hc Hz.
  destruct op; try discriminate Hc; injection Hc as <-; injection Hz as <-; eauto with compare.
Qed.

Lemma word_nonzero b : b ≠ 0 → is_i64 b → (wrap64 b =? 0) = false.
Proof.
  intros Hb H. apply Z.eqb_neq. intros E. apply Hb. apply wrap64_inj; [by rewrite E|].
  unfold is_i64 in H. lia.
Qed.

(** The operations that are one instruction. *)
Lemma int_binop_yields op a b z m c :
  is_i64 a → is_i64 b → get m T0 = wrap64 a → get m T1 = wrap64 b →
  int_binop op = Ret c → try_fold_binop_int op a b = Some z →
  yields c m T0 (wrap64 z) temps.
Proof.
  intros Ha Hb V1 V2 Hc Hz.
  destruct op; try discriminate Hc; cbn [int_binop] in Hc;
    try (eapply yields_weaken; [|eapply emit_binop_cmp_yields; [..|exact Hc|exact Hz]; done];
         unfold temps; set_solver);
    injection Hc as <-; cbn [try_fold_binop_int] in Hz;
    repeat case_match; try discriminate Hz; injection Hz as <-; run_block;
    rewrite V1, V2, ?word_shift_amount, ?wrap64_as_i64, ?as_i64_word by done;
    pose proof (shift_amount_range b).
  - apply wrap64_add.
  - apply wrap64_sub.
  - apply wrap64_mul.
  - unfold div_s. by rewrite H.
  - unfold div_u. by rewrite word_nonzero by (by try apply Z.eqb_neq).
  - unfold rem_s. by rewrite H.
  - unfold rem_u. by rewrite word_nonzero by (by try apply Z.eqb_neq).
  - apply wrap64_land.
  - apply wrap64_lor.
  - apply wrap64_lxor.
  - apply wrap64_shiftl. lia.
  - done.
  - done.
Qed.

Lemma rotate_value x k :
  0 ≤ k < 64 → is_u64 x →
  wrap64 (Z.lor (wrap64 (Z.shiftr x k)) (wrap64 (Z.shiftl x ((64 - k) `mod` 64)))) =
  wrap64 (Z.lor (Z.shiftr x k) (Z.shiftl x (64 - k))).
Proof.
  intros Hk Hx. rewrite wrap64_lor. destruct (Z.eq_dec k 0) as [->|].
  - rewrite Z.sub_0_r, Z.mod_same, Z.shiftr_0_r, Z.shiftl_0_r, Z.lor_diag by done.
    rewrite <-wrap64_lor. replace (wrap64 (Z.shiftl x 64)) with 0; [by rewrite Z.lor_0_r, wrap64_idem|].
    rewrite Z.shiftl_mul_pow2 by done. unfold wrap64. by rewrite Z.mod_mul.
  - by rewrite Z.mod_small by lia.
Qed.

Lemma rotate_value_left x k :
  0 ≤ k < 64 → is_u64 x →
  wrap64 (Z.lor (wrap64 (Z.shiftl x k)) (wrap64 (Z.shiftr x ((64 - k) `mod` 64)))) =
  wrap64 (Z.lor (Z.shiftl x k) (Z.shiftr x (64 - k))).
Proof.
  intros Hk Hx. rewrite wrap64_lor. destruct (Z.eq_dec k 0) as [->|].
  - rewrite Z.sub_0_r, Z.mod_same, Z.shiftr_0_r, Z.shiftl_0_r, Z.lor_diag by done.
    by rewrite Z.shiftr_div_pow2, Z.div_small, Z.lor_0_r by done.
  - by rewrite Z.mod_small by lia.
Qed.

Lemma rotate_yields op a b z m :
  is_i64 a → is_i64 b → get m T1 = wrap64 a → get m T2 = wrap64 b →
  op = Ror ∨ op = Rol → try_fold_binop_int op a b = Some z →
  yields (rotate_isel op) m T0 (wrap64 z) temps.
Proof.
  intros Ha Hb V1 V2 Hop Hz.
  assert (wrap64 (wrap64 (0 - wrap64 b) + 64) `mod` 64 = (64 - shift_amount b) `mod` 64) as Hk.
  { rewrite <-word_shift_amount, wrap64_add_l. unfold wrap64.
    Z.to_euclidean_division_equations; lia. }
  pose proof (shift_amount_range b) as Hr. pose proof (wrap64_range a).
  destruct Hop as [-> | ->]; injection Hz as <-; unfold rotate_right, rotate_left; run_block;
    rewrite V1, V2, word_shift_amount, Hk, wrap64_as_i64.
  - by apply rotate_value.
  - by apply rotate_value_left.
Qed.

(** ** Lowered operations *)

(** The part of a 12-bit immediate is the whole of it. *)
Definition imm_ok (v : IRValue) : Prop :=
  match v with Immediate z => fits12 (as_i32 z) = true → z = as_i32 z | _ => True end.

Lemma T3_temps : T3 ∈ temps.
Proof. unfold temps. set_solver. Qed.

Lemma three_temps r1 r2 r3 :
  [r1; r2; r3] ≡ₚ [T0; T1; T2] →
  (r1 ≠ Zero ∧ r1 ≠ T3 ∧ S0 ≠ r1 ∧ r1 ∈ temps) ∧ (r2 ≠ Zero ∧ r2 ≠ T3 ∧ S0 ≠ r2 ∧ r2 ∈ temps) ∧
  (r3 ≠ Zero ∧ r3 ≠ T3 ∧ S0 ≠ r3 ∧ r3 ∈ temps) ∧ r1 ≠ r2 ∧ r1 ≠ r3 ∧ r2 ≠ r3.
Proof.
  intros Hp.
  assert (∀ x, x ∈ [r1; r2; r3] → x ≠ Zero ∧ x ≠ T3 ∧ S0 ≠ x ∧ x ∈ temps) as Hin.
  { intros x. rewrite Hp, !elem_of_cons. intros [->|[->|[->|H]]]; [..|by apply elem_of_nil in H].
    all: repeat split; try done; unfold temps; set_solver. }
  assert (NoDup [r1; r2; r3]) as Hnd.
  { rewrite Hp. repeat constructor; set_solver. }
  apply NoDup_cons in Hnd as [Hn1 Hnd]. apply NoDup_cons in Hnd as [Hn2 _].
  split; [apply Hin; set_solver|]. split; [apply Hin; set_solver|]. split; [apply Hin; set_solver|].
  set_solver.
Qed.

Lemma select_yields m1 c t f :
  is_i64 c → get m1 T0 = wrap64 f → get m1 T1 = wrap64 t → get m1 T2 = wrap64 c →
  yields [Instruction.Beq T2 Zero 8; Instruction.Addi T0 T1 0] m1 T0
    (wrap64 (if c =? 0 then f else t)) temps.
Proof.
  intros Hc V0 V1 V2.
  destruct (Z.eqb_spec c 0) as [->|Hne].
  - exists m1. split; [done|]. intros prog k [Hi _]%code_at_cons.
    eapply jump_steps; [exact Hi| | |apply rtc_refl]; [by cbn [taken]; rewrite V2|simpl; lia].
  - exists (set m1 T0 (get m1 T1 + 0)). split.
    + split; [by rewrite get_set_eq, V1, Z.add_0_r, wrap64_idem|]. split; [done|].
      intros x Hx _. by apply get_set_ne.
    + intros prog k [Hi [Hi2 _]%code_at_cons]%code_at_cons.
      eapply (jump_steps _ _ _ _ 4 (S k)); [exact Hi| | |].
      { cbn [taken]. by rewrite V2, get_zero, word_nonzero. }
      { lia. }
      simpl length. rewrite <-Nat.add_succ_comm, Nat.add_1_r.
      eapply rtc_once, step_exec; done.
Qed.

(** Selection without a branch computes the same value. *)
Lemma ct_mask_yields m1 c t f :
  is_i64 c → get m1 T2 = wrap64 c → get m1 T1 = wrap64 t → get m1 T0 = wrap64 f →
  yields ct_mask m1 T0 (wrap64 (if c =? 0 then f else t)) temps.
Proof.
  intros Hc V2 V1 V0. run_block. rewrite V0, V1, V2.
  pose proof (wrap64_range c) as Hr. unfold is_u64 in Hr.
  assert (wrap64 c <? wrap64 1 = (c =? 0)) as ->.
  { change (wrap64 1) with 1. destruct (Z.eqb_spec c 0) as [->|Hne]; [done|].
    pose proof (word_nonzero c Hne Hc) as E%Z.eqb_neq. apply Z.ltb_ge. lia. }
  destruct (c =? 0).
  - change (wrap64 (Z.lxor (wrap64 (0 - wrap64 (Z.lxor (wrap64 (b2z true)) (wrap64 1)))) (wrap64 (-1))))
      with (wrap64 (-1)).
    change (wrap64 (0 - wrap64 (Z.lxor (wrap64 (b2z true)) (wrap64 1)))) with 0.
    rewrite Z.land_0_r, wrap64_land, Z.land_m1_r. change (wrap64 0) with 0.
    by rewrite Z.lor_0_r, wrap64_idem.
  - change (wrap64 (Z.lxor (wrap64 (0 - wrap64 (Z.lxor (wrap64 (b2z false)) (wrap64 1)))) (wrap64 (-1))))
      with 0.
    change (wrap64 (0 - wrap64 (Z.lxor (wrap64 (b2z false)) (wrap64 1)))) with (wrap64 (-1)).
    rewrite Z.land_0_r, wrap64_land, Z.land_m1_r. change (wrap64 0) with 0.
    by rewrite Z.lor_0_l, wrap64_idem.
Qed.

Section lowered.
#[local] Set Default Proof Using "Type*".
  Context (n : NanBits) (slots : gmap Z Z) (Hslots : slots_ok slots).
  Context (m : machine) (r : gmap Z Z) (Hm : represents slots m r).

  #[local] Notation eval := (@eval memory (word_machine n)).

(** What an operation whose destination is [id] achieves. *)
Definition achieves (c : list Instruction) (id v : Z) : Prop :=
  runs c m (λ m', represents slots m' (<[id := as_i64 v]> r) ∧ kept slots m m').

Lemma eval_word_i64 v : is_i64 (eval r v).
Proof. apply as_i64_range. Qed.

Lemma operands_result lhs rhs r1 r2 c id v :
  operand_ok slots lhs → operand_ok slots rhs →
  r1 ∈ [T0; T1; T2] → r2 ∈ [T0; T1; T2] → r1 ≠ r2 →
  (∀ m1, get m1 r1 = wrap64 (eval r lhs) → get m1 r2 = wrap64 (eval r rhs) →
     yields c m1 T0 (wrap64 v) temps) →
  is_Some (slots !! id) →
  achieves ((load_operands slots lhs rhs r1 r2 ++ c) ++ store_result slots T0 (Register id)) id v.
Proof.
  intros Hl Hr H1 H2 Hne Hc Hid. eapply result_runs; [done..|].
  assert (∀ x, x ∈ [T0; T1; T2] → x ≠ Zero ∧ x ≠ T3 ∧ x ≠ S0 ∧ x ∈ temps) as Hin.
  { intros x Hx. repeat apply elem_of_cons in Hx as [->|Hx]; try by apply elem_of_nil in Hx.
    all: repeat split; try done; unfold temps; set_solver. }
  destruct (Hin r1 H1) as (?&?&?&?), (Hin r2 H2) as (?&?&?&?).
  eapply load_operands_runs; try done. intros m1 V1 V2 M1 F1.
  eapply runs_mono; [|by apply Hc]. intros m2 (V & M & F). split; [done|]. split; [by rewrite M|].
  intros x Hx Hn. rewrite F by done. apply F1; intros ->; apply Hn; try done.
  exact T3_temps.
Qed.

Lemma binop_achieves op id lhs rhs ty z :
  operand_ok slots lhs → operand_ok slots rhs → is_Some (slots !! id) → is_fp ty = false →
  try_fold_binop_int op (eval r lhs) (eval r rhs) = Some z →
  ∃ c, lower_binop slots op (Register id) lhs rhs ty = Ret c ∧ achieves c id z.
Proof.
  intros Hl Hr Hid Hfp Hz. unfold lower_binop. rewrite Hfp.
  assert ((op = Ror ∨ op = Rol) ∨ ∃ c, int_binop op = Ret c) as [Hop|[c Hc]]
    by (destruct op; eauto).
  - exists ((load_operands slots lhs rhs T1 T2 ++ rotate_isel op) ++ store_result slots T0 (Register id)).
    split; [by destruct Hop as [-> | ->]|].
    apply operands_result; try done; [set_solver..|].
    intros m1 V1 V2. eapply rotate_yields; [apply eval_word_i64|apply eval_word_i64|done..].
  - exists ((load_operands slots lhs rhs T0 T1 ++ c) ++ store_result slots T0 (Register id)).
    split; [by destruct op; try discriminate Hc; injection Hc as <-|].
    apply operands_result; try done; [set_solver..|].
    intros m1 V1 V2. eapply int_binop_yields; [apply eval_word_i64|apply eval_word_i64|done..].
Qed.

(** The arithmetic instructions that have an arm of their own. *)
Lemma arith_achieves op i id lhs rhs z :
  int_binop op = Ret [i] →
  operand_ok slots lhs → operand_ok slots rhs → is_Some (slots !! id) →
  try_fold_binop_int op (eval r lhs) (eval r rhs) = Some z →
  achieves (load_operands slots lhs rhs T0 T1 ++ [i] ++ store_result slots T0 (Register id)) id z.
Proof.
  intros Hi Hl Hr Hid Hz. rewrite app_assoc. apply operands_result; try done; [set_solver..|].
  intros m1 V1 V2. eapply int_binop_yields; [apply eval_word_i64|apply eval_word_i64|done..].
Qed.

Lemma add_value_yields rhs a m1 :
  represents slots m1 r → operand_ok slots rhs → imm_ok rhs → get m1 T0 = wrap64 a →
  yields (add_value slots rhs) m1 T0 (wrap64 (a + eval r rhs)) temps.
Proof.
  intros Hm1 Hr Hi V1.
  assert (yields (ss_load_value rhs slots T1 ++ [Instruction.Add T0 T0 T1]) m1 T0
            (wrap64 (a + eval r rhs)) temps) as Hgen.
  { eapply (yields_app _ _ _ T1 _ [T3]); [by apply (load_value_temp n)| |unfold temps; set_solver..].
    intros m2 (V2 & M2 & F2). run_block. by rewrite V2, F2, V1, wrap64_add by set_solver. }
  unfold add_value. destruct rhs as [| z | |]; try exact Hgen.
  destruct (fits12 (as_i32 z)) eqn:Ef; [|exact Hgen].
  run_block. unfold eval. rewrite V1, as_i64_small by done. rewrite <-(Hi Ef).
  by rewrite wrap64_add_l.
Qed.

Lemma add_achieves id lhs rhs :
  operand_ok slots lhs → operand_ok slots rhs → imm_ok rhs → is_Some (slots !! id) →
  achieves (lower_add slots (Register id) lhs rhs) id (as_i64 (eval r lhs + eval r rhs)).
Proof.
  intros Hl Hr Hi Hid. unfold lower_add. rewrite app_assoc. eapply result_runs; [done..|].
  eapply (yields_app _ _ _ T0 _ [T3]); [by apply (load_value_temp n)| |by left|unfold temps; set_solver].
  intros m1 L1. rewrite wrap64_as_i64. apply add_value_yields; try done; [|apply L1].
  eapply represents_leaves; try done. set_solver.
Qed.

Lemma cmp_achieves kind id lhs rhs ty z :
  operand_ok slots lhs → operand_ok slots rhs → is_Some (slots !! id) → is_fp ty = false →
  try_fold_cmp kind (eval r lhs) (eval r rhs) = Some z →
  achieves (lower_cmp slots kind (Register id) lhs rhs ty) id z.
Proof.
  intros Hl Hr Hid Hfp Hz. unfold lower_cmp. rewrite Hfp, app_assoc.
  apply operands_result; try done; [set_solver..|].
  intros m1 V1 V2. eapply yields_weaken; [|eapply emit_cmp_yields; [| |apply eval_word_i64..| | |exact Hz]];
    try done. unfold temps. set_solver.
Qed.

Lemma operand_result v c id z :
  operand_ok slots v → is_Some (slots !! id) →
  (∀ m1, get m1 T0 = wrap64 (eval r v) → yields c m1 T0 (wrap64 z) temps) →
  achieves (ss_load_value v slots T0 ++ c ++ store_result slots T0 (Register id)) id z.
Proof.
  intros Hv Hid Hc. rewrite app_assoc. eapply result_runs; [done..|].
  eapply (yields_app _ _ _ T0 _ [T3]); [by apply (load_value_temp n)| |by left|unfold temps; set_solver].
  intros m1 (V1 & _). by apply Hc.
Qed.

Lemma lxor_ones x : wrap64 (Z.lxor (wrap64 x) (wrap64 (-1))) = wrap64 (Z.lnot x).
Proof. by rewrite wrap64_lxor, Z.lxor_m1_r. Qed.

Lemma unaryop_achieves op id v z :
  op = Neg ∨ op = Not ∨ op = Popcnt → operand_ok slots v → is_Some (slots !! id) →
  try_fold_unaryop op (eval r v) = Some z →
  achieves (lower_unaryop slots op (Register id) v) id z.
Proof.
  intros Hop Hv Hid Hz. unfold lower_unaryop. apply operand_result; [done..|]. intros m1 V1.
  destruct Hop as [-> |[-> | ->]]; injection Hz as <-; [run_block; rewrite V1..|].
  - rewrite wrap64_as_i64. change 0 with (wrap64 0). by rewrite wrap64_sub.
  - apply lxor_ones.
  - apply popcnt_value; [apply eval_word_i64|done].
Qed.

(** The conversions that the folder leaves alone emit nothing. *)
Lemma bitcast_achieves kind id v from_ty to_ty :
  kind = BitCast ∨ kind = Trunc → operand_ok slots v → is_Some (slots !! id) →
  achieves (lower_cast slots kind (Register id) v from_ty to_ty) id (eval r v).
Proof.
  intros Hk Hv Hid. unfold lower_cast. apply operand_result; [done..|]. intros m1 V1.
  destruct Hk as [-> | ->]; simpl; eapply (runs_block _ _ m1); done.
Qed.

(** Three operands into [T0], [T1] and [T2], in some order. *)
Lemma operands3_result v1 v2 v3 r1 r2 r3 c id v :
  operand_ok slots v1 → operand_ok slots v2 → operand_ok slots v3 → is_Some (slots !! id) →
  [r1; r2; r3] ≡ₚ [T0; T1; T2] →
  (∀ m1, get m1 r1 = wrap64 (eval r v1) → get m1 r2 = wrap64 (eval r v2) →
     get m1 r3 = wrap64 (eval r v3) → yields c m1 T0 (wrap64 v) temps) →
  achieves (ss_load_value v1 slots r1 ++ ss_load_value v2 slots r2 ++ ss_load_value v3 slots r3 ++
            c ++ store_result slots T0 (Register id)) id v.
Proof.
  intros H1 H2 H3 Hid Hp Hc. rewrite !app_assoc. eapply result_runs; [done..|]. rewrite <-!app_assoc.
  destruct (three_temps r1 r2 r3 Hp) as (E1 & E2 & E3 & N1 & N2 & N3).
  eapply runs_app; [apply (load_value_temp n); try done; apply E1|]. intros m1 L1.
  assert (represents slots m1 r) as R1 by (eapply represents_leaves; try done; [apply E1|set_solver]).
  eapply runs_app; [apply (load_value_temp n); try done; apply E2|]. intros m2 L2.
  assert (represents slots m2 r) as R2 by (eapply represents_leaves; try done; [apply E2|set_solver]).
  eapply runs_app; [apply (load_value_temp n); try done; apply E3|]. intros m3 L3.
  destruct L1 as (V1 & M1 & F1), L2 as (V2 & M2 & F2), L3 as (V3 & M3 & F3).
  assert (∀ x, x ≠ T3 → x ∉ [T3]) as HT by (intros x Hx ?%list_elem_of_singleton; done).
  eapply runs_mono; [|apply Hc].
  - intros m4 (V & M & F). split; [done|]. split; [by rewrite M, M3, M2|].
    intros x Hx Hn. rewrite F by done.
    assert (x ≠ T3) by (intros ->; apply Hn, T3_temps).
    rewrite F3, F2, F1; auto; intros ->; apply Hn; [apply E1|apply E2|apply E3].
  - rewrite F3, F2; auto; apply HT, E1.
  - rewrite F3; auto; apply HT, E2.
  - done.
Qed.

Lemma select_achieves id cond t f :
  operand_ok slots cond → operand_ok slots t → operand_ok slots f → is_Some (slots !! id) →
  achieves (lower_select slots (Register id) cond t f) id
    (if eval r cond =? 0 then eval r f else eval r t).
Proof.
  intros Hc Ht Hf Hid. apply operands3_result; try done.
  intros m1 V0 V1 V2. apply select_yields; try done. apply eval_word_i64.
Qed.

Lemma ct_select_achieves id cond t f :
  operand_ok slots cond → operand_ok slots t → operand_ok slots f → is_Some (slots !! id) →
  achieves (lower_ct_select slots (Register id) cond t f) id
    (if eval r cond =? 0 then eval r f else eval r t).
Proof.
  intros Hc Ht Hf Hid. apply operands3_result; try done.
  { apply (Permutation_rev [T2; T1; T0]). }
  intros m1 V0 V1 V2. apply ct_mask_yields; try done. apply eval_word_i64.
Qed.
End lowered.

(** ** Where the code and the folders differ *)

Lemma high_bit y : 2 ^ 63 ≤ y < 2 ^ 64 → Z.testbit y 63 = true.
Proof.
  intros Hy. rewrite Z.testbit_true by done.
  replace (y / 2 ^ 63) with 1; [done|]. apply (Z.div_unique _ _ _ (y - 2 ^ 63)); lia.
Qed.

(** The word that the equality test leaves. *)
Definition ct_eq_word (a b : Z) : Z :=
  let x := wrap64 (Z.lxor (wrap64 a) (wrap64 b)) in
  Z.lxor (Z.shiftr (wrap64 (Z.lor x (wrap64 (0 - x)))) 31) 1.

Lemma ct_eq_shifted x : 0 ≤ Z.shiftr (wrap64 x) 31 < 2 ^ 33.
Proof.
  pose proof (wrap64_range x). unfold is_u64 in *. rewrite Z.shiftr_div_pow2 by done.
  Z.to_euclidean_division_equations; lia.
Qed.

Lemma ct_eq_yields m1 a b :
  get m1 T0 = wrap64 a → get m1 T1 = wrap64 b → yields ct_eq_bits m1 T0 (wrap64 (ct_eq_word a b)) temps.
Proof.
  intros V1 V2. run_block. rewrite V1, V2. unfold ct_eq_word. change (wrap64 1) with 1.
  set (x := wrap64 (Z.lxor (wrap64 a) (wrap64 b))). f_equal. f_equal. apply wrap64_small.
  pose proof (ct_eq_shifted (Z.lor x (wrap64 (0 - x)))). unfold is_u64. lia.
Qed.

(** One for equal words; for others the shift keeps 33 bits. *)
Lemma ct_eq_value a b :
  is_i64 a → is_i64 b → is_i64 (ct_eq_word a b) ∧ (a = b → ct_eq_word a b = 1) ∧ ct_eq_word a b ≠ 0.
Proof.
  intros Ha Hb. unfold ct_eq_word. set (x := wrap64 (Z.lxor (wrap64 a) (wrap64 b))).
  pose proof (wrap64_range (Z.lxor (wrap64 a) (wrap64 b)) : is_u64 x) as Hx. unfold is_u64 in Hx.
  split; [|split].
  - apply lxor_i64; [|done]. pose proof (ct_eq_shifted (Z.lor x (wrap64 (0 - x)))). unfold is_i64. lia.
  - intros ->. unfold x. by rewrite Z.lxor_nilpotent.
  - destruct (decide (a = b)) as [->|Hne]; [unfold x; by rewrite Z.lxor_nilpotent|].
    assert (x ≠ 0) as Hx0 by (intros E; by apply Hne, lxor_zero).
    intros E. apply (f_equal (λ z, Z.testbit z 32)) in E. revert E.
    rewrite Z.lxor_spec, Z.shiftr_spec by done. change (32 + 31) with 63. unfold wrap64 at 1.
    rewrite Z.mod_pow2_bits_low, Z.lor_spec by done.
    destruct (Z.lt_ge_cases x (2 ^ 63)).
    + rewrite (high_bit (wrap64 (0 - x))); [by rewrite orb_true_r|].
      replace (wrap64 (0 - x)) with (2 ^ 64 - x); [lia|]. unfold wrap64.
      apply (Z.mod_unique _ _ (-1)); lia.
    + by rewrite (high_bit x) by lia.
Qed.

Lemma narrow_runs rd s m :
  rd ≠ Zero → rd ≠ T4 → rd ≠ T5 →
  runs (narrow rd s) m (λ m', get m' T4 = wrap64 (get m T4 + s) ∧ mem m' = mem m ∧
    ∀ r, r ∉ [rd; T4; T5] → get m' r = get m r).
Proof.
  intros Hz H4 H5. set (m1 := set m T5 (Z.shiftr (get m rd) s)). unfold narrow.
  assert (∀ m', mem m' = mem m → get m' T4 = get m T4 → (∀ r, r ∉ [rd; T4; T5] → get m' r = get m r) →
    get (set m' T4 (get m' T4 + s)) T4 = wrap64 (get m T4 + s) ∧
    mem (set m' T4 (get m' T4 + s)) = mem m ∧
    ∀ r, r ∉ [rd; T4; T5] → get (set m' T4 (get m' T4 + s)) r = get m r) as Hend.
  { intros m' M E F. split; [by rewrite get_set_eq, E|]. split; [done|].
    intros r Hr. rewrite get_set_ne by set_solver. by apply F. }
  assert (∀ r, r ∉ [rd; T4; T5] → get m1 r = get m r) as F1
    by (intros r Hr; apply get_set_ne; set_solver).
  destruct (Z.eqb_spec (get m1 T5) 0) as [E0|E0].
  - exists (set m1 T4 (get m1 T4 + s)). split; [by apply Hend; [|apply get_set_ne|]|].
    intros prog k [Hi1 [Hi2 [_ [Hi4 _]%code_at_cons]%code_at_cons]%code_at_cons]%code_at_cons.
    eapply rtc_l; [by eapply step_exec|]. fold m1.
    eapply (jump_steps _ _ _ _ 8 (S (S (S k)))); [exact Hi2| |lia|].
    { cbn [taken]. by rewrite get_zero, E0. }
    replace (k + length _)%nat with (S (S (S (S k)))) by (simpl; lia).
    eapply rtc_once, step_exec; done.
  - set (m2 := set m1 rd (get m1 T5 + 0)).
    exists (set m2 T4 (get m2 T4 + s)). split.
    { apply Hend; [done|by trans (get m1 T4); apply get_set_ne|].
      intros r Hr. unfold m2. rewrite get_set_ne by set_solver. by apply F1. }
    intros prog k [Hi1 [Hi2 [Hi3 [Hi4 _]%code_at_cons]%code_at_cons]%code_at_cons]%code_at_cons.
    eapply rtc_l; [by eapply step_exec|]. fold m1.
    eapply (jump_steps _ _ _ _ 4 (S (S k))); [exact Hi2| |lia|].
    { cbn [taken]. rewrite get_zero. by apply Z.eqb_neq in E0 as ->. }
    eapply rtc_l; [by eapply step_exec|]. fold m2.
    replace (k + length _)%nat with (S (S (S (S k)))) by (simpl; lia).
    eapply rtc_once, step_exec; done.
Qed.

Lemma narrow_all_runs rd m :
  rd ≠ Zero → rd ≠ T4 → rd ≠ T5 →
  runs (narrow_all rd) m (λ m', get m' T4 = wrap64 (get m T4 + 63) ∧ mem m' = mem m ∧
    ∀ r, r ∉ [rd; T4; T5] → get m' r = get m r).
Proof.
  intros Hz H4 H5. unfold narrow_all.
  assert (∀ ss m, ss ≠ [] → runs (ss ≫= narrow rd) m (λ m',
    get m' T4 = wrap64 (get m T4 + foldr Z.add 0 ss) ∧ mem m' = mem m ∧
    ∀ r, r ∉ [rd; T4; T5] → get m' r = get m r)) as H; [|by apply (H [32; 16; 8; 4; 2; 1])].
  clear m. intros ss. induction ss as [|s ss IH]; intros m; [done|]. intros _.
  rewrite bind_cons. cbn [foldr].
  eapply runs_app; [by apply narrow_runs|]. intros m1 (E1 & M1 & F1).
  destruct (decide (ss = [])) as [->|Hss].
  - apply (runs_block _ _ m1); [done|]. by rewrite Z.add_0_r.
  - eapply runs_mono; [|by apply IH]. intros m2 (E2 & M2 & F2).
    split; [by rewrite E2, E1, wrap64_add_l, Z.add_assoc|]. split; [by rewrite M2|].
    intros r Hr. by rewrite F2, F1.
Qed.

Lemma leaves_trans m m1 m2 v tmp d1 v1 tmp1 :
  leaves m d1 v1 tmp1 m1 → leaves m1 T0 v tmp m2 → (∀ r, r ∈ d1 :: tmp1 → r ∈ tmp) →
  leaves m T0 v tmp m2.
Proof.
  intros (V1 & M1 & F1) (V2 & M2 & F2) Ht. split; [done|]. split; [by rewrite M2|].
  intros r Hr Hn. rewrite F2 by done. apply F1; intros H; apply Hn, Ht; [subst; by left|by right].
Qed.

(** Every step adds its shift to the count, whether it shifts or not. *)
Lemma ctz_value x m :
  is_i64 x → get m T0 = wrap64 x →
  yields (emit_ctz_isel T0 T0) m T0 (wrap64 (if x =? 0 then 127 else 63)) temps.
Proof.
  intros Hx V0. unfold emit_ctz_isel, move_input. rewrite decide_True, app_nil_l by done.
  eapply (runs_app _ _ _ (λ m1, get m1 T4 = 0 ∧ get m1 T6 = (if x =? 0 then 1 else 0) ∧ mem m1 = mem m ∧
    ∀ r, r ∉ temps → get m1 r = get m r)).
  { eapply runs_block; [reflexivity|]. split; [by regs|]. split; [|split; [done|]].
    - regs. rewrite V0. change (wrap64 1) with 1.
      pose proof (wrap64_range x) as Hr. unfold is_u64 in Hr.
      destruct (Z.eqb_spec x 0) as [->|Hne]; [done|].
      pose proof (word_nonzero x Hne Hx) as E%Z.eqb_neq.
      by rewrite (proj2 (Z.ltb_ge _ _)) by lia.
    - intros r Hr. by rewrite !set_temp_kept by (try done; unfold temps; set_solver). }
  intros m1 (E4 & E6 & M1 & F1). eapply runs_app; [by apply narrow_all_runs|].
  intros m2 (E4' & M2 & F2). eapply runs_block; [reflexivity|]. split; [|split].
  - regs. rewrite E4', E4, F2, E6 by set_solver. by destruct (x =? 0).
  - by rewrite !mem_set, M2.
  - intros r Hr0 Hr. rewrite !set_temp_kept by (try done; unfold temps; set_solver).
    rewrite F2, F1; try done. intros Hin. apply Hr. unfold temps. set_solver.
Qed.

Lemma clz_tail_value m k prog :
  code_at prog k [Instruction.Jal Zero 4; Instruction.Addi T0 Zero 64] →
  steps prog (4 * Z.of_nat k, m) (4 * Z.of_nat (k + 2), set m T0 (get m Zero + 64)).
Proof.
  intros [H1 [H2 _]%code_at_cons]%code_at_cons.
  eapply (jump_steps _ _ _ _ 4 (S k)); [exact H1|done|lia|].
  replace (k + 2)%nat with (S (S k)) by lia. by eapply rtc_once, step_exec.
Qed.

(** The jump over the case of zero has the offset of the next instruction. *)
Lemma clz_value m : yields (emit_clz_isel T0 T0) m T0 (wrap64 64) temps.
Proof.
  unfold emit_clz_isel, move_input. rewrite decide_True, app_nil_l by done.
  set (m0 := set m T4 (get m Zero + 0)).
  assert (∀ r, r ∉ temps → get m0 r = get m r) as F0
    by (intros; apply set_temp_kept; [unfold temps; set_solver|done]).
  destruct (narrow_all_runs T0 m0) as (m1 & (E1 & M1 & F1) & S1); [done..|].
  set (tail := λ m', set m' T0 (get m' Zero + 64)).
  assert (∀ m', mem m' = mem m → (∀ r, r ∉ temps → get m' r = get m r) →
    leaves m T0 (wrap64 64) temps (tail m')) as Htail.
  { intros m' M F. split; [by unfold tail; regs|]. split; [done|].
    intros r Hr Hn. unfold tail. rewrite get_set_ne by done. by apply F. }
  set (m2 := set (set m1 T6 (get m1 Zero + 63)) T0
               (get (set m1 T6 (get m1 Zero + 63)) T6 - get (set m1 T6 (get m1 Zero + 63)) T4)).
  set (last := if get m0 T0 =? 0 then m0 else m2).
  exists (tail last). split.
  { unfold last. destruct (get m0 T0 =? 0); apply Htail; try done.
    intros r Hr. unfold m2. rewrite !set_temp_kept by (try done; unfold temps; set_solver).
    rewrite F1, F0; try done. intros H. apply Hr. unfold temps. set_solver. }
  intros prog k [[Hi1 [Hi2 _]%code_at_cons]%code_at_cons [Hn Ht]%code_at_app]%code_at_app.
  apply code_at_cons in Ht as [Hi3 [Hi4 Ht]%code_at_cons].
  replace (k + length _)%nat with (S (S (k + length [Instruction.Addi T4 Zero 0; Instruction.Beq T0 Zero
    (6 * 16 + 12)] + length (narrow_all T0))) + 2)%nat by (simpl; lia).
  eapply rtc_l; [by eapply step_exec|]. fold m0. unfold last.
  destruct (Z.eqb_spec (get m0 T0) 0) as [E0|E0].
  - eapply (jump_steps _ _ _ _ 108); [exact Hi2| | |by apply clz_tail_value].
    + cbn [taken]. by rewrite get_zero, E0.
    + simpl. lia.
  - eapply (jump_steps _ _ _ _ 4); [exact Hi2| | |].
    { cbn [taken]. rewrite get_zero. by apply Z.eqb_neq in E0 as ->. }
    2: etrans; [by apply S1|].
    { simpl. lia. }
    do 2 (eapply rtc_l; [by eapply step_exec|]). by apply clz_tail_value.
Qed.

(** The second half of a wide immediate goes through [T3], the destination's first half
    with it. *)
Lemma wide_t3_value val m :
  is_i64 val → wide val = true → yields (ss_load_imm T3 val) m T3 (wrap32 val) [].
Proof.
  intros Hv Hw. destruct (halves val Hv) as (_ & Hup & Hlo). apply computes_yields.
  unfold wide in Hw. unfold ss_load_imm.
  destruct ((-2048 <=? val) && (val <=? 2047)) eqn:Es.
  { apply andb_true_iff in Es as [E1%Z.leb_le E2%Z.leb_le].
    rewrite (as_i32_unique val val 0), Z.eqb_refl in Hw by (unfold is_i32; lia). done. }
  destruct (val =? as_i32 val); [done|].
  destruct (wrap32 (Z.shiftr val 32) =? 0); [done|]. destruct (wrap32 val =? 0); [done|].
  rewrite app_assoc. eapply computes_app; [by apply load_high_spec| |by left|set_solver].
  intros m1 _ _ _. change (?a :: ?b :: ?c :: []) with ([a; b] ++ [c]). rewrite app_assoc.
  eapply computes_app; [by apply load_low_spec| |by left|set_solver].
  intros m2 V2 _ _. eexists. split; [reflexivity|].
  split; [|split; [done|intros r Hr _; by regs]]. regs.
  rewrite V2, Z.lor_diag. apply wrap64_small. unfold is_u32, is_u64 in *. lia.
Qed.

(** ** Properties *)

(** The code for an immediate leaves the 64-bit value in its register, through [T3] only
    where the value needs both halves; memory and the other registers are untouched. *)
Theorem ss_load_imm_correct dst val m :
  dst ≠ Zero → is_i64 val → (dst = T3 → wide val = false) →
  ∃ m', exec_block (ss_load_imm dst val) m = Some m' ∧ get m' dst = wrap64 val ∧ mem m' = mem m ∧
    ∀ r, r ≠ dst → (r = T3 → wide val = false) → get m' r = get m r.
Proof.
  intros Hd Hv Ht. destruct (ss_load_imm_runs dst val m Hd Hv Ht) as (m' & E & V & M & F).
  exists m'. split; [done|]. split; [done|]. split; [done|]. intros r Hr H3. apply F; [done|].
  destruct (wide val); [intros ->%list_elem_of_singleton; by specialize (H3 eq_refl)|set_solver].
Qed.

Definition zero_machine : machine := {| regs := λ _, 0; mem := λ _, 0 |}.

Lemma ss_load_imm_correct_witness :
  ∃ m', exec_block (ss_load_imm T0 (-81985529216486895)) zero_machine = Some m' ∧
    get m' T0 = wrap64 (-81985529216486895).
Proof.
  destruct (ss_load_imm_correct T0 (-81985529216486895) zero_machine) as (m' & E & V & _).
  - done.
  - unfold is_i64. lia.
  - done.
  - by exists m'.
Defined.

(** The code for a comparison of integers leaves the truth value of the constant folder,
    for each of the ten kinds and whatever registers hold the operands; only the result and
    the scratch register change. *)
Theorem emit_cmp_correct kind rd rs1 rs2 scratch a b m :
  rd ≠ Zero → scratch ≠ Zero → is_i64 a → is_i64 b → get m rs1 = wrap64 a → get m rs2 = wrap64 b →
  ∃ z, try_fold_cmp kind a b = Some z ∧ (z = 0 ∨ z = 1) ∧
    yields (emit_cmp_isel kind rd rs1 rs2 scratch) m rd z [scratch].
Proof.
  intros Hrd Hs Ha Hb V1 V2. destruct (try_fold_cmp kind a b) as [z|] eqn:E; [|done].
  assert (z = 0 ∨ z = 1) as Hz.
  { injection E as <-. match goal with |- bool_val ?c = _ ∨ _ => destruct c; auto end. }
  exists z. split; [done|]. split; [done|]. replace z with (wrap64 z) by (by destruct Hz as [-> | ->]).
  by apply (emit_cmp_yields kind rd rs1 rs2 scratch a b z m).
Qed.

Lemma emit_cmp_correct_witness :
  ∃ z, try_fold_cmp Cmp_ULe 0 0 = Some z ∧ (z = 0 ∨ z = 1) ∧
    yields (emit_cmp_isel Cmp_ULe T0 T0 T1 T5) zero_machine T0 z [T5].
Proof. by apply (emit_cmp_correct Cmp_ULe T0 T0 T1 T5 0 0). Defined.

(** Constant-time selection computes what selection by a branch computes, with no branch:
    its code is a block of register instructions. *)
Theorem ct_select_correct n slots m r id cond t f :
  slots_ok slots → represents slots m r → is_Some (slots !! id) →
  operand_ok slots cond → operand_ok slots t → operand_ok slots f →
  let v := if @eval _ (word_machine n) r cond =? 0 then @eval _ (word_machine n) r f
           else @eval _ (word_machine n) r t in
  achieves slots m r (lower_ct_select slots (Register id) cond t f) id v ∧
  achieves slots m r (lower_select slots (Register id) cond t f) id v ∧
  ∀ i, i ∈ ct_mask → taken i m = None.
Proof.
  intros Hs Hm Hid Hc Ht Hf v. split; [by apply ct_select_achieves|].
  split; [by apply select_achieves|]. intros i Hi.
  repeat apply elem_of_cons in Hi as [->|Hi]; try done. by apply elem_of_nil in Hi.
Qed.

Definition two_slots : gmap Z Z := {[0 := 24; 1 := 32]}.
Definition frame_machine : machine :=
  {| regs := λ r, match r with S0 => 4096 | _ => 0 end; mem := λ _, 0 |}.

Lemma two_slots_ok : slots_ok two_slots.
Proof.
  assert (∀ id off, two_slots !! id = Some off → (id = 0 ∧ off = 24) ∨ (id = 1 ∧ off = 32)) as H.
  { intros id off. unfold two_slots. rewrite lookup_insert_Some, lookup_singleton_Some. naive_solver. }
  split; [intros id off E%H; lia|]. intros i j oi oj Ei%H Ej%H Hne. lia.
Qed.

Lemma frame_machine_represents : represents two_slots frame_machine ∅.
Proof. intros id off E. by rewrite lookup_empty. Qed.

Lemma ct_select_correct_witness :
  achieves two_slots frame_machine ∅
    (lower_ct_select two_slots (Register 1) (Register 0) (Immediate 5) (Immediate 7)) 1 7.
Proof.
  destruct (ct_select_correct {| nan64 := 0; nan32 := 0 |} two_slots frame_machine ∅ 1 (Register 0)
    (Immediate 5) (Immediate 7)) as [H _]; [apply two_slots_ok|apply frame_machine_represents|by eexists..| | |exact H].
  - by unfold operand_ok, is_i64.
  - by unfold operand_ok, is_i64.
Defined.

(** Constant-time equality never gives zero: the test shifts by 31 where a word has 64
    bits, so for unequal operands 33 bits remain and clearing the lowest leaves the rest. *)
Theorem ct_eq_never_false n slots m r id lhs rhs :
  slots_ok slots → represents slots m r → is_Some (slots !! id) →
  operand_ok slots lhs → operand_ok slots rhs →
  ∃ v, achieves slots m r (lower_ct_eq slots (Register id) lhs rhs) id v ∧ v ≠ 0 ∧ as_i64 v = v ∧
    (@eval _ (word_machine n) r lhs = @eval _ (word_machine n) r rhs → v = 1).
Proof.
  intros Hs Hm Hid Hl Hr.
  exists (ct_eq_word (@eval _ (word_machine n) r lhs) (@eval _ (word_machine n) r rhs)).
  destruct (ct_eq_value (@eval _ (word_machine n) r lhs) (@eval _ (word_machine n) r rhs)) as (H1 & H2 & H3);
    [apply as_i64_range..|].
  split; [|split; [done|split; [by apply as_i64_small|done]]].
  unfold lower_ct_eq. rewrite app_assoc. apply (operands_result n); try done; [set_solver..|].
  intros m1 V1 V2. by apply ct_eq_yields.
Qed.

Lemma ct_eq_never_false_witness :
  ∃ v, achieves two_slots frame_machine ∅
    (lower_ct_eq two_slots (Register 1) (Immediate 5) (Immediate 7)) 1 v ∧ v ≠ 0.
Proof.
  destruct (ct_eq_never_false {| nan64 := 0; nan32 := 0 |} two_slots frame_machine ∅ 1 (Immediate 5)
    (Immediate 7)) as (v & H & Hv & _);
    [apply two_slots_ok|apply frame_machine_represents|by eexists|by unfold operand_ok, is_i64..|by exists v].
Defined.

(** The code for leading and trailing zeros does not count: leading zeros of any word
    are 64, trailing zeros 63, and 127 for zero.  A branch that means to skip a step of the
    count skips one instruction of the two, and the jump over the case of zero goes to the
    next instruction. *)
Theorem bit_counts_wrong n slots m r id v :
  slots_ok slots → represents slots m r → is_Some (slots !! id) → operand_ok slots v →
  achieves slots m r (lower_unaryop slots Clz (Register id) v) id 64 ∧
  achieves slots m r (lower_unaryop slots Ctz (Register id) v) id
    (if @eval _ (word_machine n) r v =? 0 then 127 else 63) ∧
  (@eval _ (word_machine n) r v = 1 → try_fold_unaryop Clz 1 = Some 63 ∧ try_fold_unaryop Ctz 1 = Some 0).
Proof.
  intros Hs Hm Hid Hv. split; [|split; [|by intros _; vm_compute]].
  - apply (operand_result n); try done. intros m1 _. apply clz_value.
  - apply (operand_result n); try done. intros m1 V. apply ctz_value; [apply as_i64_range|done].
Qed.

Lemma bit_counts_wrong_witness :
  achieves two_slots frame_machine ∅ (lower_unaryop two_slots Ctz (Register 1) (Immediate 8)) 1 63.
Proof.
  destruct (bit_counts_wrong {| nan64 := 0; nan32 := 0 |} two_slots frame_machine ∅ 1 (Immediate 8))
    as (_ & H & _);
    [apply two_slots_ok|apply frame_machine_represents|by eexists|by unfold operand_ok, is_i64|exact H].
Defined.

(** Two operands that lose bits on the way: a wide immediate loaded into [T3], where the
    address of a load goes, keeps its low half, and an immediate added whose low 32 bits fit
    in twelve is cut to them. *)
Theorem operands_truncated n slots m r id lhs imm :
  slots_ok slots → represents slots m r → is_Some (slots !! id) → operand_ok slots lhs → is_i64 imm →
  (wide imm = true → yields (ss_load_imm T3 imm) m T3 (wrap32 imm) []) ∧
  (fits12 (as_i32 imm) = true →
     achieves slots m r (lower_add slots (Register id) lhs (Immediate imm)) id
       (as_i64 (@eval _ (word_machine n) r lhs + as_i32 imm))) ∧
  fits12 (as_i32 (2 ^ 32)) = true ∧ as_i32 (2 ^ 32) = 0.
Proof.
  intros Hs Hm Hid Hl Hi. split; [by apply wide_t3_value|]. split; [|done]. intros Hf.
  unfold lower_add, add_value. rewrite Hf. apply (operand_result n); try done. intros m1 V1.
  run_block. by rewrite V1, wrap64_as_i64, wrap64_add_l.
Qed.

Lemma operands_truncated_witness :
  achieves two_slots frame_machine ∅
    (lower_add two_slots (Register 1) (Immediate 5) (Immediate (2 ^ 32 + 1))) 1 6.
Proof.
  destruct (operands_truncated {| nan64 := 0; nan32 := 0 |} two_slots frame_machine ∅ 1 (Immediate 5)
    (2 ^ 32 + 1)) as (_ & H & _);
    [apply two_slots_ok|apply frame_machine_represents|by eexists|by unfold operand_ok, is_i64|by unfold is_i64|].
  by apply H.
Defined.
