(* ===== verification/RiscvFun.v ===== *)
(** * RISC-V functions

    Models how [allocate_registers] of [src/src/codegen/src/riscv64/mod.rs] turns a function
    of the intermediate representation into code: the layout of the stack frame, prologue
    and epilogue, the instructions of the blocks, the branches and their repair once the
    offsets of the labels are known.  Code is a list of instructions of four bytes each; the
    byte offset of an instruction is four times its place.  The arm for [Call], which inlines
    the channel built-ins, is a parameter of the model. *)

From S2P Require Import Prelude Ir BvVerify Riscv RiscvSem RiscvIsel RiscvSound.
From stdpp Require Import options.
#[local] Open Scope Z_scope.

#[local] Notation Instruction := Instruction.Instruction.

(** ** The frame *)

Definition all_vreg_ids (f : IRFunction) : gset Z :=
  dom (f_vregs f) ∪ list_to_set (regs_of (f_params f)) ∪
  list_to_set (f_blocks f ≫= λ b, instructions b ≫= λ i, defined_regs i ++ used_regs i) ∪
  list_to_set (regs_of (f_results f)).

(** [(x + 15) & !15] on [i32]. *)
Definition align16 (chk : bool) (x : Z) : outcome Z :=
  y ← i32_of chk (x + 15); Ret (Z.land y (Z.lnot 15)).

(** The sizes of the stack allocations; a later allocation to a register replaces an
    earlier one. *)
Fixpoint collect_allocs (chk : bool) (code : list IRInstr) (sizes : gmap Z Z) : outcome (gmap Z Z) :=
  match code with
  | [] => Ret sizes
  | I_Alloc (Register id) size :: code =>
      aligned_size ← align16 chk (as_i32 size);
      collect_allocs chk code (<[id := aligned_size]> sizes)
  | _ :: code => collect_allocs chk code sizes
  end.
Definition alloc_sizes (chk : bool) (f : IRFunction) : outcome (gmap Z Z) :=
  collect_allocs chk (f_blocks f ≫= instructions) ∅.

(** One more area below the last: its offset is that of its lowest byte. *)
Fixpoint place (chk : bool) (areas : list (Z * Z)) (offset : Z) (placed : gmap Z Z) :
    outcome (gmap Z Z * Z) :=
  match areas with
  | [] => Ret (placed, offset)
  | (id, size) :: areas =>
      offset ← i32_of chk (offset + size);
      place chk areas offset (<[id := offset]> placed)
  end.

Record ipc_slots := {
  seq_counter_off : Z;
  proto_state_off : Z;
  cb_state_off : Z;
  cap_sig_off : Z;
  cap_siginput_off : Z;
  cap_siginput_len_off : Z;
  irq_table_off : Z;
  irq_table_count_off : Z;
  hotswap_table_off : Z;
  hotswap_table_count_off : Z;
  stark_table_off : Z;
  stark_table_count_off : Z;
  formal_verify_count_off : Z;
}.

Definition place_ipc (chk : bool) (offset : Z) : outcome (ipc_slots * Z) :=
  seq ← i32_of chk (offset + 8);
  proto ← i32_of chk (seq + 8);
  cb ← i32_of chk (proto + 8);
  sig ← i32_of chk (cb + 32);
  siginput ← i32_of chk (sig + 160);
  siginput_len ← i32_of chk (siginput + 8);
  irq ← i32_of chk (siginput_len + 128);
  irq_count ← i32_of chk (irq + 8);
  hotswap ← i32_of chk (irq_count + 128);
  hotswap_count ← i32_of chk (hotswap + 8);
  stark ← i32_of chk (hotswap_count + 224);
  stark_count ← i32_of chk (stark + 8);
  formal ← i32_of chk (stark_count + 8);
  Ret ({| seq_counter_off := seq; proto_state_off := proto; cb_state_off := cb;
          cap_sig_off := sig; cap_siginput_off := siginput;
          cap_siginput_len_off := siginput_len; irq_table_off := irq;
          irq_table_count_off := irq_count; hotswap_table_off := hotswap;
          hotswap_table_count_off := hotswap_count; stark_table_off := stark;
          stark_table_count_off := stark_count; formal_verify_count_off := formal |}, formal).

Record frame := {
  alloc_offsets : gmap Z Z;
  vreg_stack_slots : gmap Z Z;
  ipc : ipc_slots;
  fs : Z;
}.

(** Below the save area of [RA] and [S0]: the allocations, the registers, the slots of the
    inter-process built-ins. *)
Definition stack_layout (chk : bool) (f : IRFunction) : outcome frame :=
  sizes ← alloc_sizes chk f;
  '(allocs, offset) ← place chk (sort_by_key fst (map_to_list sizes)) 16 ∅;
  '(slots, offset) ←
    place chk ((λ id, (id, 8)) <$> sort_by_key id (elements (all_vreg_ids f))) offset ∅;
  '(ipc, offset) ← place_ipc chk offset;
  frame_size ← align16 chk offset;
  Ret {| alloc_offsets := allocs; vreg_stack_slots := slots; ipc := ipc; fs := frame_size |}.

(** ** Prologue and epilogue *)

(** A doubleword at an offset from the stack pointer, the address in a temporary where the
    offset does not fit. *)
Definition at_sp (offset : Z) (tmp : Gpr) (access : Gpr → Z → Instruction) : list Instruction :=
  if fits12 offset then [access Sp offset]
  else ss_load_imm tmp offset ++ [Instruction.Add tmp Sp tmp; access tmp 0].

(** The frame pointer [S0] is the stack pointer of the caller. *)
Definition enter_frame (fs : Z) : list Instruction :=
  (if fits12 fs then [Instruction.Addi Sp Sp (- fs)]
   else ss_load_imm T0 fs ++ [Instruction.Sub Sp Sp T0]) ++
  at_sp (fs - 8) T0 (λ base imm, Instruction.Sd base Ra imm) ++
  at_sp (fs - 16) T0 (λ base imm, Instruction.Sd base S0 imm) ++
  (if fits12 fs then [Instruction.Addi S0 Sp fs]
   else ss_load_imm T0 fs ++ [Instruction.Add S0 Sp T0]).

Definition store_params (slots : gmap Z Z) (params : list IRValue) : list Instruction :=
  mjoin (zip_with
    (λ param r, match as_register param with
                | Some id => ss_store_to_slot r (slot_of slots id)
                | None => []
                end) params [A0; A1; A2; A3; A4; A5; A6; A7]).

Definition leave_frame (fs : Z) : list Instruction :=
  at_sp (fs - 16) T2 (Instruction.Ld S0) ++ at_sp (fs - 8) T2 (Instruction.Ld Ra) ++
  (if fits12 fs then [Instruction.Addi Sp Sp fs]
   else ss_load_imm T2 fs ++ [Instruction.Add Sp Sp T2]) ++
  [Instruction.Jalr Zero Ra 0].

(** The calls that the count of folded checks is about. *)
Definition folded_checks : list string :=
  ["channel_send"; "channel_recv"; "channel_try_recv"; "channel_recv_timeout";
   "channel_recv_proto"; "channel_send_cap"; "capability_grant"; "capability_delegate";
   "stark_prove"; "stark_verify"].
Definition is_folded_check (i : IRInstr) : bool :=
  match i with I_Call _ func _ _ => bool_decide (func ∈ folded_checks) | _ => false end.
Definition formal_verify_folded_count (f : IRFunction) : Z :=
  Z.of_nat (length (filter (λ i, is_folded_check i = true) (f_blocks f ≫= instructions))).

(** Bytes into consecutive slots, eight at a time, the last padded with zeroes. *)
Fixpoint le_word (bytes : list Z) : Z :=
  match bytes with [] => 0 | b :: bytes => b + 256 * le_word bytes end.
Fixpoint store_words (fuel : nat) (bytes : list Z) (offset : Z) : list Instruction :=
  match fuel, bytes with
  | S fuel, _ :: _ =>
      ss_load_imm T1 (as_i64 (le_word (take 8 bytes))) ++ ss_store_to_slot T1 offset ++
      store_words fuel (drop 8 bytes) (offset + 8)
  | _, _ => []
  end.

(** [cap] is the signature and its input, where the function grants a capability. *)
Definition ipc_prologue (s : ipc_slots) (cap : option (list Z * list Z)) (folded : Z) :
    list Instruction :=
  [Instruction.Addi T0 Zero 0] ++
  ([seq_counter_off s; proto_state_off s; cb_state_off s; irq_table_count_off s;
    hotswap_table_count_off s; stark_table_count_off s] ≫= ss_store_to_slot T0) ++
  match cap with
  | Some (sig, sig_input) =>
      store_words 4 sig (cap_sig_off s) ++
      store_words (length sig_input) sig_input (cap_siginput_off s) ++
      ss_load_imm T1 (Z.of_nat (length sig_input)) ++ ss_store_to_slot T1 (cap_siginput_len_off s)
  | None => []
  end ++
  ss_load_imm T1 folded ++ ss_store_to_slot T1 (formal_verify_count_off s).

(** ** Emission *)

Record BranchFixup := {
  (** Both the place of the branch in the code and its byte offset. *)
  abs_byte_offset : Z;
  target_label : string;
  is_jal : bool;
  jal_rd : Gpr;
  bne_rs1 : Gpr;
  bne_rs2 : Gpr;
}.

Record emission := {
  code : list Instruction;
  label_offsets : gmap string Z;
  branch_fixups : list BranchFixup;
  relocations : list (Z * string);
}.

Definition byte_offset (e : emission) : Z := 4 * Z.of_nat (length (code e)).
Definition emit (c : list Instruction) (e : emission) : emission :=
  {| code := code e ++ c; label_offsets := label_offsets e; branch_fixups := branch_fixups e;
     relocations := relocations e |}.
Definition mark (label : string) (e : emission) : emission :=
  {| code := code e; label_offsets := <[label := byte_offset e]> (label_offsets e);
     branch_fixups := branch_fixups e; relocations := relocations e |}.
Definition relocate (symbol : string) (e : emission) : emission :=
  {| code := code e; label_offsets := label_offsets e; branch_fixups := branch_fixups e;
     relocations := relocations e ++ [(byte_offset e, symbol)] |}.

(** A branch whose offset is filled in later. *)
Definition emit_jal (target : string) (e : emission) : emission :=
  {| code := code e ++ [Instruction.Jal Zero 0]; label_offsets := label_offsets e;
     branch_fixups := branch_fixups e ++
       [{| abs_byte_offset := byte_offset e; target_label := target; is_jal := true;
           jal_rd := Zero; bne_rs1 := Zero; bne_rs2 := Zero |}];
     relocations := relocations e |}.
Definition emit_bne (rs1 rs2 : Gpr) (target : string) (e : emission) : emission :=
  {| code := code e ++ [Instruction.Bne rs1 rs2 0]; label_offsets := label_offsets e;
     branch_fixups := branch_fixups e ++
       [{| abs_byte_offset := byte_offset e; target_label := target; is_jal := false;
           jal_rd := Zero; bne_rs1 := rs1; bne_rs2 := rs2 |}];
     relocations := relocations e |}.

Section select.
  (** The arm for calls: the destination, the function, the arguments. *)
  Context (lower_call : option IRValue → string → list IRValue → emission → emission).
  Context (fr : frame) (phi_map : gmap (string * string) (list (IRValue * IRValue))).

  #[local] Notation slots := (vreg_stack_slots fr).

Definition copies (target source : string) : list Instruction :=
  default [] (phi_map !! (target, source)) ≫= λ p,
    ss_load_value p.2 slots T0 ++ store_result slots T0 p.1.

Definition lower_ret (values : list IRValue) : list Instruction :=
  match values with v :: _ => ss_load_value v slots A0 | [] => [] end ++ leave_frame (fs fr).

Definition lower_branch (block target : string) (e : emission) : emission :=
  emit_jal target (emit (copies target block) e).

Definition lower_cond_branch (block : string) (cond : IRValue) (true_target false_target : string)
    (e : emission) : emission :=
  let e := emit (ss_load_value cond slots T0) e in
  let false_copies := copies false_target block in
  let true_copies := copies true_target block in
  match false_copies, true_copies with
  | [], [] => emit_jal false_target (emit_bne T0 Zero true_target e)
  | _, _ =>
      let bne_offset := 8 + 4 * Z.of_nat (length false_copies) in
      let e := emit (Instruction.Bne T0 Zero bne_offset :: false_copies) e in
      let e := emit true_copies (emit_jal false_target e) in
      emit_jal true_target e
  end.

Definition lower_get_address (dst : IRValue) (name : string) (e : emission) : emission :=
  emit ([Instruction.Auipc T0 0; Instruction.Addi T0 T0 0] ++ store_result slots T0 dst)
    (relocate name e).

Definition lower_atomic_load (dst addr : IRValue) : list Instruction :=
  ss_load_value addr slots T0 ++ [Instruction.LrD T1 T0] ++ store_result slots T1 dst.

Definition lower_atomic_store (value addr : IRValue) (e : emission) : emission :=
  let e := emit (load_operands slots addr value T0 T1) e in
  let retry_label := "__atomic_store_retry_" +:+ show (byte_offset e) in
  let e := mark retry_label e in
  emit_bne T2 Zero retry_label (emit [Instruction.LrD T2 T0; Instruction.ScD T2 T0 T1] e).

Definition lower_atomic_cas (dst addr expected desired : IRValue) (e : emission) : emission :=
  let e := emit (load_operands slots addr expected T0 T1 ++ ss_load_value desired slots T3) e in
  let retry_label := "__atomic_cas_retry_" +:+ show (byte_offset e) in
  let e := emit [Instruction.LrD T2 T0] (mark retry_label e) in
  let done_label := "__atomic_cas_done_" +:+ show (byte_offset e + 12) in
  let e := emit [Instruction.ScD T4 T0 T3] (emit_bne T2 T1 done_label e) in
  let e := mark done_label (emit_bne T4 Zero retry_label e) in
  emit (store_result slots T2 dst) e.

Definition lower_instr (block : string) (i : IRInstr) (e : emission) : outcome emission :=
  match i with
  | I_BinOp op dst lhs rhs ty => c ← lower_binop slots op dst lhs rhs ty; Ret (emit c e)
  | I_Add dst lhs rhs _ => Ret (emit (lower_add slots dst lhs rhs) e)
  | I_Sub dst lhs rhs _ => Ret (emit (lower_sub slots dst lhs rhs) e)
  | I_Mul dst lhs rhs _ => Ret (emit (lower_mul slots dst lhs rhs) e)
  | I_Div dst lhs rhs _ => Ret (emit (lower_div slots dst lhs rhs) e)
  | I_UnaryOp op dst operand _ => Ret (emit (lower_unaryop slots op dst operand) e)
  | I_Cmp kind dst lhs rhs ty => Ret (emit (lower_cmp slots kind dst lhs rhs ty) e)
  | I_Load dst addr offset ty => Ret (emit (lower_load slots dst addr offset ty) e)
  | I_Store value addr offset ty => Ret (emit (lower_store slots value addr offset ty) e)
  | I_Alloc dst _ => Ret (emit (lower_alloc slots (alloc_offsets fr) dst) e)
  | I_Free _ => Ret e
  | I_Cast kind dst src from_ty to_ty => Ret (emit (lower_cast slots kind dst src from_ty to_ty) e)
  | I_Select dst cond t f _ => Ret (emit (lower_select slots dst cond t f) e)
  | I_CtSelect dst cond t f _ => Ret (emit (lower_ct_select slots dst cond t f) e)
  | I_CtEq dst lhs rhs _ => Ret (emit (lower_ct_eq slots dst lhs rhs) e)
  | I_Offset dst base offset => Ret (emit (lower_offset slots dst base offset) e)
  | I_GetAddress dst name => Ret (lower_get_address dst name e)
  | I_Call dst func args _ => Ret (lower_call dst func args e)
  | I_Ret values => Ret (emit (lower_ret values) e)
  | I_Branch target => Ret (lower_branch block target e)
  | I_CondBranch cond t f => Ret (lower_cond_branch block cond t f e)
  | I_Phi _ _ => Ret (emit [Instruction.Addi Zero Zero 0] e)
  | I_AtomicLoad dst addr _ => Ret (emit (lower_atomic_load dst addr) e)
  | I_AtomicStore value addr _ => Ret (lower_atomic_store value addr e)
  | I_AtomicCas dst addr expected desired _ => Ret (lower_atomic_cas dst addr expected desired e)
  | I_Syscall nr args dst => Ret (emit (lower_syscall slots nr args dst) e)
  | I_CallIndirect dst func_ptr args => Ret (emit (lower_call_indirect slots dst func_ptr args) e)
  | I_VectorOp _ _ _ _ _ _ => Ret e
  | I_ChannelOpen _ _ | I_ChannelSend _ _ _ | I_ChannelRecv _ _ _ | I_ChannelRecvTimeout _ _ _ _
  | I_ChannelRecvResult _ _ _ _ | I_ChannelClose _ | I_StarkProof _ _ _ | I_BulkCopy _ _ _
  | I_BulkFill _ _ _ | I_Transform _ _ _ _ => Panic
  end.

Fixpoint lower_instrs (block : string) (l : list IRInstr) (e : emission) : outcome emission :=
  match l with
  | [] => Ret e
  | i :: l => e ← lower_instr block i e; lower_instrs block l e
  end.

Fixpoint lower_blocks (bs : list IRBlock) (e : emission) : outcome emission :=
  match bs with
  | [] => Ret e
  | b :: bs =>
      e ← lower_instrs (b_label b) (instructions b) (mark (b_label b) e);
      lower_blocks bs e
  end.
End select.

(** ** Branch repair *)

(** The offsets are subtracted as [i32]s. *)
Definition rel_offset (target source : Z) : Z := as_i32 (as_i32 target - as_i32 source).
Definition patch (offset : Z) (i : Instruction) (c : list Instruction) : list Instruction :=
  <[Z.to_nat (offset / 4) := i]> c.
Definition bne_in_range (offset : Z) : bool := (-4096 <=? offset) && (offset <=? 4094).

(** One branch: patched, or left for a trampoline; without its label it stays as it is. *)
Definition fix_branch (labels : gmap string Z) (fixup : BranchFixup)
    (st : list Instruction * list (BranchFixup * Z)) : list Instruction * list (BranchFixup * Z) :=
  let '(c, trampolines) := st in
  match labels !! target_label fixup with
  | Some target_offset =>
      let rel := rel_offset target_offset (abs_byte_offset fixup) in
      if is_jal fixup then
        (patch (abs_byte_offset fixup) (Instruction.Jal (jal_rd fixup) rel) c, trampolines)
      else if bne_in_range rel then
        (patch (abs_byte_offset fixup) (Instruction.Bne (bne_rs1 fixup) (bne_rs2 fixup) rel) c,
         trampolines)
      else (c, trampolines ++ [(fixup, target_offset)])
  | None => (c, trampolines)
  end.

(** The trampoline of place [idx] after code of [code_len] bytes: the branch goes to it, and
    it jumps to the target. *)
Definition add_trampoline (code_len : Z) (st : list Instruction * Z) (t : BranchFixup * Z) :
    list Instruction * Z :=
  let '(c, idx) := st in
  let tramp_off := as_i32 (code_len + 4 * idx) in
  let c := patch (abs_byte_offset t.1)
    (Instruction.Bne (bne_rs1 t.1) (bne_rs2 t.1) (rel_offset tramp_off (abs_byte_offset t.1))) c in
  (c ++ [Instruction.Jal Ra (rel_offset t.2 tramp_off)], idx + 1).

Definition apply_fixups (e : emission) : list Instruction :=
  let '(c, trampolines) :=
    foldl (λ st fixup, fix_branch (label_offsets e) fixup st) (code e, []) (branch_fixups e) in
  (foldl (add_trampoline (4 * Z.of_nat (length c))) (c, 0) trampolines).1.

(** ** The function *)

Section allocate.
  Context (lower_call : frame → option IRValue → string → list IRValue → emission → emission).

Definition prologue (fr : frame) (cap : option (list Z * list Z)) (f : IRFunction) :
    list Instruction :=
  enter_frame (fs fr) ++ store_params (vreg_stack_slots fr) (f_params f) ++
  ipc_prologue (ipc fr) cap (formal_verify_folded_count f).

(** The frame, and the code before the repair of its branches. *)
Definition emit_function (chk : bool) (cap : option (list Z * list Z)) (f : IRFunction) :
    outcome (frame * emission) :=
  fr ← stack_layout chk f;
  let e := {| code := prologue fr cap f; label_offsets := ∅; branch_fixups := [];
              relocations := [] |} in
  e ← lower_blocks (lower_call fr) fr (build_phi_map f) (f_blocks f) e;
  Ret (fr, e).

(** The code of a function and its relocations. *)
Definition allocate_registers (chk : bool) (cap : option (list Z * list Z)) (f : IRFunction) :
    outcome (list Instruction * list (Z * string)) :=
  '(_, e) ← emit_function chk cap f;
  Ret (apply_fixups e, relocations e).
End allocate.

(** ** Specification *)

(** Two areas below the frame pointer, each with the offset of its lowest byte and its size. *)
Definition apart (o1 s1 o2 s2 : Z) : Prop := o1 ≤ o2 - s2 ∨ o2 ≤ o1 - s1.

Definition ipc_in_order (s : ipc_slots) : Prop :=
  proto_state_off s = seq_counter_off s + 8 ∧ cb_state_off s = proto_state_off s + 8 ∧
  cap_sig_off s = cb_state_off s + 32 ∧ cap_siginput_off s = cap_sig_off s + 160 ∧
  cap_siginput_len_off s = cap_siginput_off s + 8 ∧ irq_table_off s = cap_siginput_len_off s + 128 ∧
  irq_table_count_off s = irq_table_off s + 8 ∧ hotswap_table_off s = irq_table_count_off s + 128 ∧
  hotswap_table_count_off s = hotswap_table_off s + 8 ∧
  stark_table_off s = hotswap_table_count_off s + 224 ∧
  stark_table_count_off s = stark_table_off s + 8 ∧
  formal_verify_count_off s = stark_table_count_off s + 8.

(** ** Lemmas *)

Lemma i32_of_checked z r : i32_of true z = Ret r → r = z ∧ is_i32 z.
Proof. unfold i32_of. case_decide; [|done]. by intros [= <-]. Qed.

Lemma outcome_bind_Ret {A B} (x : outcome A) (g : A → outcome B) b :
  x ≫= g = Ret b → ∃ a, x = Ret a ∧ g a = Ret b.
Proof. destruct x; [eauto|done]. Qed.

(** Take apart a computation that did not panic. *)
Ltac ret_inv :=
  repeat match goal with
    | H : Ret _ = Ret _ |- _ => injection H; clear H; intros; subst
    | H : i32_of true _ = Ret _ |- _ => apply i32_of_checked in H as [-> ?]
    | H : (_ ≫= _) = Ret _ |- _ => apply outcome_bind_Ret in H as (? & ? & H)
    end.

Lemma align16_checked x y : align16 true x = Ret y → x ≤ y < x + 16 ∧ y < 2 ^ 31 ∧ y `mod` 16 = 0.
Proof.
  unfold align16. intros H. ret_inv.
  assert (Z.land (x + 15) (Z.lnot 15) = (x + 15) / 16 * 16) as ->.
  { rewrite <-Z.ldiff_land. change 15 with (Z.ones 4) at 2.
    by rewrite Z.ldiff_ones_r, Z.shiftl_mul_pow2, Z.shiftr_div_pow2 by done. }
  unfold is_i32 in *. split; [Z.to_euclidean_division_equations; lia|].
  split; [Z.to_euclidean_division_equations; lia|]. by rewrite Z.mod_mul.
Qed.

Lemma place_spec areas off p p' off' :
  place true areas off p = Ret (p', off') → NoDup areas.*1 → Forall (λ a, 0 ≤ a.2) areas →
  0 ≤ off < 2 ^ 31 →
  off ≤ off' < 2 ^ 31 ∧ (∀ id, id ∉ areas.*1 → p' !! id = p !! id) ∧
  (∀ id s, (id, s) ∈ areas → ∃ o, p' !! id = Some o ∧ off + s ≤ o ≤ off') ∧
  (∀ i si oi j sj oj, (i, si) ∈ areas → (j, sj) ∈ areas → i ≠ j →
     p' !! i = Some oi → p' !! j = Some oj → apart oi si oj sj).
Proof.
  revert off p. induction areas as [|[id s] areas IH]; intros off p H Hnd Hs Hoff; simpl in H.
  { ret_inv. split; [lia|]. split; [done|]. split; [by intros ? ? ?%elem_of_nil|].
    by intros ? ? ? ? ? ? ?%elem_of_nil. }
  apply NoDup_cons in Hnd as [Hn Hnd]. apply Forall_cons in Hs as [Hs0 Hs]. simpl in Hs0, Hn.
  ret_inv. unfold is_i32 in *.
  destruct (IH _ _ H) as (Hb & Ho & Hin & Hd); [done..|lia|]. clear IH.
  assert (p' !! id = Some (off + s)) as Eid by (by rewrite Ho, lookup_insert_eq).
  split; [lia|]. split; [|split].
  - intros i Hi. rewrite fmap_cons in Hi. apply not_elem_of_cons in Hi as [Hne Hi].
    rewrite Ho by done. by apply lookup_insert_ne.
  - intros i si [[= -> ->]|Hi]%elem_of_cons; [exists (off + s); split; [done|lia]|].
    destruct (Hin i si Hi) as (o & E & ?). exists o. split; [done|lia].
  - intros i si oi j sj oj [[= -> ->]|Hi]%elem_of_cons [[= -> ->]|Hj]%elem_of_cons Hne Ei Ej.
    + done.
    + left. destruct (Hin j sj Hj) as (o & E & ?). simplify_eq. lia.
    + right. destruct (Hin i si Hi) as (o & E & ?). simplify_eq. lia.
    + by eapply Hd.
Qed.

Lemma place_dom areas off p p' off' id :
  place true areas off p = Ret (p', off') → is_Some (p' !! id) ↔ is_Some (p !! id) ∨ id ∈ areas.*1.
Proof.
  revert off p. induction areas as [|[i s] areas IH]; intros off p H; simpl in H; ret_inv.
  - simpl. set_solver.
  - rewrite (IH _ _ H), lookup_insert_is_Some, fmap_cons, elem_of_cons. simpl.
    destruct (decide (i = id)); naive_solver.
Qed.

Lemma collect_allocs_spec code sizes sizes' :
  collect_allocs true code sizes = Ret sizes' →
  (∀ id size, I_Alloc (Register id) size ∈ code → 0 ≤ size < 2 ^ 31) →
  ∀ id s, sizes' !! id = Some s → sizes !! id = Some s ∨
    ∃ size, I_Alloc (Register id) size ∈ code ∧ size ≤ s < size + 16 ∧ s `mod` 16 = 0.
Proof.
  revert sizes. induction code as [|i code IH]; intros sizes H Hs id s E.
  { simpl in H. ret_inv. by left. }
  assert (∀ sizes1, collect_allocs true code sizes1 = Ret sizes' →
    sizes1 !! id = Some s ∨ ∃ size, I_Alloc (Register id) size ∈ code ∧ size ≤ s < size + 16 ∧
      s `mod` 16 = 0) as Hrec.
  { intros sizes1 H1. apply (IH sizes1 H1); [|done]. intros. eapply Hs. by right. }
  assert (∀ sizes1, collect_allocs true code sizes1 = Ret sizes' →
    (sizes1 !! id = Some s → sizes !! id = Some s ∨ ∃ size, I_Alloc (Register id) size ∈ i :: code ∧
       size ≤ s < size + 16 ∧ s `mod` 16 = 0) →
    sizes !! id = Some s ∨ ∃ size, I_Alloc (Register id) size ∈ i :: code ∧ size ≤ s < size + 16 ∧
      s `mod` 16 = 0) as Hstep.
  { intros sizes1 H1 H2. destruct (Hrec _ H1) as [?|(size & ? & ?)]; [auto|].
    right. exists size. split; [by right|done]. }
  destruct i; simpl in H; try (by apply (Hstep _ H); auto).
  destruct dst as [rid| | |]; try (by apply (Hstep _ H); auto).
  ret_inv. apply (Hstep _ H). intros Hl. destruct (decide (id = rid)) as [->|].
  - rewrite lookup_insert_eq in Hl. injection Hl as ->. right. exists size. split; [by left|].
    pose proof (Hs rid size ltac:(by left)) as Hr.
    rewrite (as_i32_unique size size 0) in H0 by (unfold is_i32; lia).
    apply align16_checked in H0. lia.
  - rewrite lookup_insert_ne in Hl by done. by left.
Qed.

Lemma place_ipc_spec off s off' :
  place_ipc true off = Ret (s, off') → 0 ≤ off →
  ipc_in_order s ∧ seq_counter_off s = off + 8 ∧ formal_verify_count_off s = off' ∧
  off < off' < 2 ^ 31.
Proof.
  unfold place_ipc. intros H Hoff. ret_inv. unfold is_i32, ipc_in_order in *. simpl.
  repeat split; lia.
Qed.

Lemma sorted_sizes (sizes : gmap Z Z) :
  NoDup (sort_by_key fst (map_to_list sizes)).*1 ∧
  ∀ id s, (id, s) ∈ sort_by_key fst (map_to_list sizes) ↔ sizes !! id = Some s.
Proof.
  split.
  - rewrite sort_by_key_perm. apply NoDup_fst_map_to_list.
  - intros id s. rewrite elem_of_sort_by_key. apply elem_of_map_to_list.
Qed.

Lemma sorted_slots (ids : gset Z) :
  ((λ id, (id, 8)) <$> sort_by_key id (elements ids)).*1 = sort_by_key id (elements ids) ∧
  NoDup (sort_by_key id (elements ids)) ∧
  (∀ i s, (i, s) ∈ (λ id, (id, 8)) <$> sort_by_key id (elements ids) ↔ s = 8 ∧ i ∈ ids).
Proof.
  split; [|split].
  - rewrite <-list_fmap_compose. apply list_fmap_id.
  - rewrite sort_by_key_perm. apply NoDup_elements.
  - intros i s. rewrite list_elem_of_fmap. setoid_rewrite elem_of_sort_by_key.
    setoid_rewrite elem_of_elements. naive_solver.
Qed.

Lemma allocs_placed (sizes allocs : gmap Z Z) off :
  place true (sort_by_key fst (map_to_list sizes)) 16 ∅ = Ret (allocs, off) →
  (∀ id s, sizes !! id = Some s → 0 ≤ s) →
  16 ≤ off < 2 ^ 31 ∧
  ∀ i si, sizes !! i = Some si → ∃ oi, allocs !! i = Some oi ∧ 16 + si ≤ oi ≤ off ∧
    ∀ j sj oj, sizes !! j = Some sj → allocs !! j = Some oj → i ≠ j → apart oi si oj sj.
Proof.
  intros H Hpos. destruct (sorted_sizes sizes) as [Nd El].
  destruct (place_spec _ _ _ _ _ H) as (B & _ & In & D); [done| |lia|].
  { apply Forall_forall. intros [id s] E%El. by apply (Hpos id). }
  split; [done|]. intros i si E. destruct (In i si) as (oi & Eo & ?); [by apply El|].
  exists oi. split; [done|]. split; [done|]. intros j sj oj Ej Ejo Hne.
  apply (D i si oi j sj oj); [by apply El|by apply El|done..].
Qed.

Lemma slots_placed (ids : gset Z) off slots off' :
  place true ((λ id, (id, 8)) <$> sort_by_key id (elements ids)) off ∅ = Ret (slots, off') →
  0 ≤ off < 2 ^ 31 →
  off ≤ off' < 2 ^ 31 ∧ (∀ k, is_Some (slots !! k) ↔ k ∈ ids) ∧
  (∀ k ok, slots !! k = Some ok → off + 8 ≤ ok ≤ off') ∧
  (∀ i j oi oj, slots !! i = Some oi → slots !! j = Some oj → i ≠ j → apart oi 8 oj 8).
Proof.
  intros H Hoff. destruct (sorted_slots ids) as (Efst & Nd & El).
  destruct (place_spec _ _ _ _ _ H) as (B & _ & In & D); [by rewrite Efst| |lia|].
  { apply Forall_forall. by intros [id s] [-> _]%El. }
  assert (∀ k, is_Some (slots !! k) ↔ k ∈ ids) as Hdom.
  { intros k. rewrite (place_dom _ _ _ _ _ k H), Efst, elem_of_sort_by_key, elem_of_elements.
    rewrite lookup_empty, is_Some_alt. naive_solver. }
  assert (∀ k ok, slots !! k = Some ok → (k, 8) ∈ (λ id, (id, 8)) <$> sort_by_key id (elements ids))
    as Hin by (intros k ok E; apply El; split; [done|]; apply Hdom; eauto).
  split; [done|]. split; [done|]. split.
  - intros k ok E. destruct (In k 8) as (o & E' & ?); [eauto|]. simplify_eq. lia.
  - intros i j oi oj Ei Ej Hne. by apply (D i 8 oi j 8 oj); eauto.
Qed.

Lemma stack_layout_inv f fr :
  stack_layout true f = Ret fr →
  ∃ sizes off1 off2 off3, alloc_sizes true f = Ret sizes ∧
    place true (sort_by_key fst (map_to_list sizes)) 16 ∅ = Ret (alloc_offsets fr, off1) ∧
    place true ((λ id, (id, 8)) <$> sort_by_key id (elements (all_vreg_ids f))) off1 ∅ =
      Ret (vreg_stack_slots fr, off2) ∧
    place_ipc true off2 = Ret (ipc fr, off3) ∧ align16 true off3 = Ret (fs fr).
Proof.
  unfold stack_layout. intros H. apply outcome_bind_Ret in H as (sizes & Ha & H).
  apply outcome_bind_Ret in H as ([allocs off1] & H1 & H).
  apply outcome_bind_Ret in H as ([slots off2] & H2 & H).
  apply outcome_bind_Ret in H as ([s off3] & H3 & H).
  apply outcome_bind_Ret in H as (frame_size & H4 & H). injection H as <-.
  by exists sizes, off1, off2, off3.
Qed.

Lemma stack_layout_spec f fr :
  stack_layout true f = Ret fr →
  (∀ id size, I_Alloc (Register id) size ∈ f_blocks f ≫= instructions → 0 ≤ size < 2 ^ 31) →
  slots_ok (vreg_stack_slots fr) ∧
  (∀ id, is_Some (vreg_stack_slots fr !! id) ↔ id ∈ all_vreg_ids f) ∧
  (∃ sizes, alloc_sizes true f = Ret sizes ∧
    ∀ i si, sizes !! i = Some si → ∃ oi, alloc_offsets fr !! i = Some oi ∧ 16 + si ≤ oi ∧
      (∃ size, I_Alloc (Register i) size ∈ f_blocks f ≫= instructions ∧ size ≤ si) ∧
      (∀ j sj oj, sizes !! j = Some sj → alloc_offsets fr !! j = Some oj → i ≠ j → apart oi si oj sj) ∧
      (∀ k ok, vreg_stack_slots fr !! k = Some ok → apart oi si ok 8) ∧
      oi ≤ seq_counter_off (ipc fr) - 8) ∧
  (∀ k ok, vreg_stack_slots fr !! k = Some ok → ok ≤ seq_counter_off (ipc fr) - 8) ∧
  ipc_in_order (ipc fr) ∧ 24 ≤ seq_counter_off (ipc fr) ∧
  formal_verify_count_off (ipc fr) ≤ fs fr < 2 ^ 31 ∧ fs fr `mod` 16 = 0.
Proof.
  intros H Hsize. destruct (stack_layout_inv f fr H) as (sizes & off1 & off2 & off3 & Ha & H1 & H2 & H3 & H4).
  assert (∀ id s, sizes !! id = Some s → ∃ size,
    I_Alloc (Register id) size ∈ f_blocks f ≫= instructions ∧ 0 ≤ size ≤ s) as Hpos.
  { intros id s E. destruct (collect_allocs_spec _ _ _ Ha Hsize id s E) as [?|(size & Hin & ? & _)]; [done|].
    exists size. split; [done|]. specialize (Hsize id size Hin). lia. }
  destruct (allocs_placed _ _ _ H1) as [B1 HA].
  { intros id s (? & _ & ?)%Hpos. lia. }
  destruct (slots_placed _ _ _ _ H2) as (B2 & Hdom & Hs & D2); [lia|].
  destruct (place_ipc_spec _ _ _ H3) as (Hord & Eseq & Eform & B3); [lia|].
  apply align16_checked in H4 as (B4 & B5 & Hmod).
  split; [|split; [done|split; [|split; [|split; [done|split; [lia|split; [lia|done]]]]]]].
  - split; [intros id o E%Hs; lia|]. intros i j oi oj Ei Ej Hne.
    destruct (D2 i j oi oj Ei Ej Hne); lia.
  - exists sizes. split; [done|]. intros i si E. destruct (HA i si E) as (oi & Eo & ? & D).
    exists oi. split; [done|]. split; [lia|]. split; [|split; [done|split]].
    + destruct (Hpos i si E) as (size & ? & ?). exists size. split; [done|lia].
    + intros k ok Ek%Hs. left. lia.
    + lia.
  - intros k ok Ek%Hs. lia.
Qed.


Definition layout_example : IRFunction :=
  with_blocks (IRFunction_new "f")
    [{| b_label := "entry"; instructions := [I_Alloc (Register 1) 20; I_Alloc (Register 0) 8;
          I_Add (Register 2) (Register 1) (Immediate 4) None; I_Ret [Register 2]];
        terminator := T_Return [Register 2]; predecessors := ∅; successors := ∅; source_line := 0 |}].


(** ** Trampolines *)

Lemma branch_imm_field x y a k :
  0 ≤ a → 0 ≤ k → a + k ≤ 13 → x `mod` 2 ^ 13 = y `mod` 2 ^ 13 →
  Z.land (Z.shiftr (wrap32 x) a) (Z.ones k) = Z.land (Z.shiftr (wrap32 y) a) (Z.ones k).
Proof.
  intros Ha Hk Hle E. apply Z.bits_inj'. intros i Hi. rewrite !Z.land_spec, !Z.shiftr_spec by done.
  destruct (Z.lt_ge_cases i k); [|by rewrite Z.ones_spec_high, !andb_false_r by lia].
  f_equal. unfold wrap32. rewrite !(Z.mod_pow2_bits_low _ 32) by lia.
  rewrite <-(Z.mod_pow2_bits_low x 13), <-(Z.mod_pow2_bits_low y 13) by lia. by rewrite E.
Qed.

(** A branch has room for 13 bits of its offset. *)
Lemma encode_bne_mod rs1 rs2 x y :
  x `mod` 2 ^ 13 = y `mod` 2 ^ 13 → encode (Instruction.Bne rs1 rs2 x) = encode (Instruction.Bne rs1 rs2 y).
Proof.
  intros E. cbn [encode]. unfold encode_b_type.
  pose proof (branch_imm_field x y 12 1 ltac:(done) ltac:(done) ltac:(done) E : Z.land _ 0x1 = Z.land _ 0x1) as ->.
  pose proof (branch_imm_field x y 5 6 ltac:(done) ltac:(done) ltac:(done) E : Z.land _ 0x3F = Z.land _ 0x3F) as ->.
  pose proof (branch_imm_field x y 1 4 ltac:(done) ltac:(done) ltac:(done) E : Z.land _ 0xF = Z.land _ 0xF) as ->.
  by pose proof (branch_imm_field x y 11 1 ltac:(done) ltac:(done) ltac:(done) E : Z.land _ 0x1 = Z.land _ 0x1) as ->.
Qed.

Lemma rel_offset_small target source :
  0 ≤ target < 2 ^ 31 → 0 ≤ source < 2 ^ 31 → rel_offset target source = target - source.
Proof.
  intros Ht Hs. unfold rel_offset.
  rewrite (as_i32_unique target target 0), (as_i32_unique source source 0) by (unfold is_i32; lia).
  apply (as_i32_unique _ _ 0); unfold is_i32; lia.
Qed.

(** A conditional branch to a label further ahead than a branch reaches goes through a
    trampoline at the end of the function, which is further still: the branch is given an
    offset that its encoding does not hold, and the bytes emitted are those of a branch to
    another place. *)
Theorem trampoline_out_of_reach e fixup target k :
  branch_fixups e = [fixup] → is_jal fixup = false →
  label_offsets e !! target_label fixup = Some target →
  abs_byte_offset fixup = 4 * Z.of_nat k → (k < length (code e))%nat →
  target ≤ byte_offset e < 2 ^ 31 → 4094 < target - abs_byte_offset fixup →
  let rel := byte_offset e - abs_byte_offset fixup in
  apply_fixups e !! k = Some (Instruction.Bne (bne_rs1 fixup) (bne_rs2 fixup) rel) ∧
  bne_in_range rel = false ∧
  ∃ rel', rel' ≠ rel ∧ -4096 ≤ rel' < 4096 ∧
    encode (Instruction.Bne (bne_rs1 fixup) (bne_rs2 fixup) rel) =
    encode (Instruction.Bne (bne_rs1 fixup) (bne_rs2 fixup) rel').
Proof.
  intros Ef Hj Hl Ha Hk Ht Hfar. simpl. unfold byte_offset in *.
  set (len := 4 * Z.of_nat (length (code e))) in *.
  assert (bne_in_range (len - abs_byte_offset fixup) = false) as Hout.
  { unfold bne_in_range. apply andb_false_iff. right. apply Z.leb_gt. lia. }
  split; [|split; [done|]].
  - unfold apply_fixups. rewrite Ef. simpl. rewrite Hl, Hj, rel_offset_small by lia.
    replace (bne_in_range (target - abs_byte_offset fixup)) with false.
    2:{ symmetry. apply andb_false_iff. right. apply Z.leb_gt. lia. }
    simpl. fold len. rewrite Z.add_0_r, (as_i32_unique len len 0) by (unfold is_i32; lia).
    rewrite (rel_offset_small len) by lia. unfold patch.
    rewrite Ha, Z.mul_comm, Z.div_mul, Nat2Z.id by done.
    rewrite lookup_app_l by (by rewrite length_insert). by rewrite list_lookup_insert_eq.
  - set (rel := len - abs_byte_offset fixup) in *.
    exists ((rel + 4096) `mod` 8192 - 4096).
    pose proof (Z.mod_pos_bound (rel + 4096) 8192 ltac:(lia)).
    split; [lia|]. split; [lia|]. apply encode_bne_mod.
    change (2 ^ 13) with 8192. Z.to_euclidean_division_equations; lia.
Qed.

(** A branch over 1,200 instructions, to the end of the function. *)
Definition far_branch : emission :=
  emit (replicate 1200 (Instruction.Addi Zero Zero 0)) (emit_bne T0 Zero "end"
    {| code := []; label_offsets := ∅; branch_fixups := []; relocations := [] |}).

Lemma trampoline_out_of_reach_witness :
  let e := mark "end" far_branch in
  apply_fixups e !! 0%nat = Some (Instruction.Bne T0 Zero 4804) ∧ bne_in_range 4804 = false.
Proof.
  simpl. assert (length (code far_branch) = 1201%nat) as El by (by vm_compute).
  destruct (trampoline_out_of_reach (mark "end" far_branch) {| abs_byte_offset := 0; target_label := "end";
    is_jal := false; jal_rd := Zero; bne_rs1 := T0; bne_rs2 := Zero |} 4804 0) as (H1 & H2 & _);
    [reflexivity|reflexivity|vm_compute; reflexivity|reflexivity| | |simpl; lia|].
  - change (0 < length (code far_branch))%nat. lia.
  - unfold byte_offset. change (code (mark "end" far_branch)) with (code far_branch). lia.
  - unfold byte_offset in H1. change (code (mark "end" far_branch)) with (code far_branch) in H1.
    rewrite El in H1. split; [exact H1|reflexivity].
Defined.
