(* ===== verification/RiscvRun.v ===== *)
(** * Compiled functions run as the intermediate representation does

    The whole of [RiscvFun] against [IrSem]: the code of a function of scalar operations
    and branches, started at its first instruction with the arguments in [A0] to [A7], ends
    at a return with the result in [A0], where the function of the intermediate
    representation returns; it restores the registers that the calling convention saves.
    The registers of the intermediate representation that nothing has written hold whatever
    the frame held, so the function must not depend on them. *)

From S2P Require Import Prelude Ir BvVerify Float Opt IrSem Riscv RiscvSem RiscvIsel RiscvSound RiscvFun.
From stdpp Require Import options.
#[local] Open Scope Z_scope.

#[local] Notation Instruction := Instruction.Instruction.

(** ** Branches within reach *)

Definition in_reach (labels : gmap string Z) (fx : BranchFixup) : bool :=
  is_jal fx ||
  match labels !! target_label fx with
  | Some t => bne_in_range (rel_offset t (abs_byte_offset fx))
  | None => true
  end.

Definition repaired (labels : gmap string Z) (fx : BranchFixup) : option Instruction :=
  t ← labels !! target_label fx;
  let rel := rel_offset t (abs_byte_offset fx) in
  Some (if is_jal fx then Instruction.Jal (jal_rd fx) rel
        else Instruction.Bne (bne_rs1 fx) (bne_rs2 fx) rel).

Definition repair_step (labels : gmap string Z) (c : list Instruction) (fx : BranchFixup) :
    list Instruction :=
  match repaired labels fx with Some i => patch (abs_byte_offset fx) i c | None => c end.
Definition repair (labels : gmap string Z) (fxs : list BranchFixup) (c : list Instruction) :
    list Instruction := foldl (repair_step labels) c fxs.

Definition branches_reach (e : emission) : bool :=
  forallb (in_reach (label_offsets e)) (branch_fixups e).

Lemma fix_branch_in_reach labels fx c :
  in_reach labels fx = true → fix_branch labels fx (c, []) = (repair_step labels c fx, []).
Proof.
  unfold in_reach, fix_branch, repair_step, repaired. destruct (labels !! target_label fx); [|done].
  simpl. destruct (is_jal fx); simpl; [done|]. by intros ->.
Qed.

Lemma apply_fixups_in_reach e :
  branches_reach e = true → apply_fixups e = repair (label_offsets e) (branch_fixups e) (code e).
Proof.
  unfold branches_reach, apply_fixups, repair. generalize (code e).
  induction (branch_fixups e) as [|fx fxs IH]; intros c; [done|].
  cbn [foldl forallb]. intros [H1 H2]%andb_true_iff. rewrite fix_branch_in_reach by done. by apply IH.
Qed.

(** Fixups at distinct instructions of the code. *)
Definition at_place (k : nat) (fx : BranchFixup) : Prop := abs_byte_offset fx = 4 * Z.of_nat k.
Definition good (e : emission) : Prop :=
  (∀ fx, fx ∈ branch_fixups e → ∃ k, at_place k fx ∧ (k < length (code e))%nat) ∧
  NoDup (abs_byte_offset <$> branch_fixups e).

Lemma patch_at k fx i c : at_place k fx → patch (abs_byte_offset fx) i c = <[k := i]> c.
Proof. unfold at_place, patch. intros ->. by rewrite Z.mul_comm, Z.div_mul, Nat2Z.id. Qed.

Lemma length_repair labels fxs c : length (repair labels fxs c) = length c.
Proof.
  revert c. induction fxs as [|fx fxs IH]; intros c; [done|]. unfold repair in *. simpl. rewrite IH.
  unfold repair_step. destruct (repaired labels fx); [apply length_insert|done].
Qed.

Lemma repair_other labels fxs c k :
  (∀ fx, fx ∈ fxs → ∃ j, at_place j fx ∧ j ≠ k) → repair labels fxs c !! k = c !! k.
Proof.
  revert c. induction fxs as [|fx fxs IH]; intros c H; [done|]. unfold repair in *. simpl.
  rewrite IH by (intros; apply H; by right). destruct (H fx) as (j & Hj & Hne); [by left|].
  unfold repair_step. destruct (repaired labels fx); [|done].
  rewrite (patch_at j) by done. by apply list_lookup_insert_ne.
Qed.

Lemma repair_at labels fxs c fx k i0 :
  NoDup (abs_byte_offset <$> fxs) → (∀ fx, fx ∈ fxs → ∃ j, at_place j fx) →
  fx ∈ fxs → at_place k fx → c !! k = Some i0 →
  repair labels fxs c !! k = Some (default i0 (repaired labels fx)).
Proof.
  intros Hnd Hp Hin Hk Hc. apply list_elem_of_split in Hin as (l1 & l2 & ->).
  rewrite fmap_app, fmap_cons in Hnd. apply NoDup_app in Hnd as (_ & Hd & [Hn2 _]%NoDup_cons).
  assert (∀ l : list BranchFixup, (∀ fx', fx' ∈ l → fx' ∈ l1 ++ fx :: l2 ∧ abs_byte_offset fx' ≠ abs_byte_offset fx) →
    ∀ fx', fx' ∈ l → ∃ j, at_place j fx' ∧ j ≠ k) as Hother.
  { intros l Hl fx' Hin'. destruct (Hl fx' Hin') as [Hin2 Hne]. destruct (Hp fx' Hin2) as (j & Hj).
    exists j. split; [done|]. intros ->. unfold at_place in *. congruence. }
  unfold repair. rewrite foldl_app. simpl. fold (repair labels l1 c). set (c1 := repair labels l1 c).
  fold (repair labels l2 (repair_step labels c1 fx)). rewrite repair_other.
  - assert (c1 !! k = Some i0) as E1.
    { unfold c1. rewrite repair_other; [done|]. apply Hother. intros fx' Hin'. split; [set_solver|].
      intros E. apply (Hd (abs_byte_offset fx')); [by apply list_elem_of_fmap_2|].
      rewrite E. by left. }
    unfold repair_step. destruct (repaired labels fx); [|done].
    rewrite (patch_at k) by done. apply list_lookup_insert_eq. by eapply lookup_lt_Some.
  - apply Hother. intros fx' Hin'. split; [set_solver|]. intros E. apply Hn2. rewrite <-E.
    by apply list_elem_of_fmap_2.
Qed.

(** ** Emission in order *)

Definition extends (e e' : emission) : Prop :=
  ∃ c fxs, code e' = code e ++ c ∧ branch_fixups e' = branch_fixups e ++ fxs ∧
    (∀ fx, fx ∈ fxs → ∃ k, at_place k fx ∧ (length (code e) ≤ k < length (code e'))%nat) ∧
    NoDup (abs_byte_offset <$> fxs).

Lemma extends_refl e : extends e e.
Proof. exists [], []. rewrite !app_nil_r. repeat split; [set_solver|constructor]. Qed.

Lemma extends_length e e' : extends e e' → (length (code e) ≤ length (code e'))%nat.
Proof. intros (c & fxs & -> & _). rewrite length_app. lia. Qed.

Lemma places_apart (l1 l2 : list BranchFixup) k :
  (∀ fx, fx ∈ l1 → ∃ j, at_place j fx ∧ (j < k)%nat) →
  (∀ fx, fx ∈ l2 → ∃ j, at_place j fx ∧ (k ≤ j)%nat) →
  NoDup (abs_byte_offset <$> l1) → NoDup (abs_byte_offset <$> l2) →
  NoDup (abs_byte_offset <$> l1 ++ l2).
Proof.
  intros H1 H2 N1 N2. rewrite fmap_app. apply NoDup_app. split; [done|]. split; [|done].
  intros a (fx & -> & Hin)%list_elem_of_fmap (fx' & E & Hin')%list_elem_of_fmap.
  destruct (H1 fx Hin) as (j & Hj & ?), (H2 fx' Hin') as (j' & Hj' & ?). unfold at_place in *. lia.
Qed.

Lemma extends_trans e1 e2 e3 : extends e1 e2 → extends e2 e3 → extends e1 e3.
Proof.
  intros H12 H23. pose proof (extends_length _ _ H12). pose proof (extends_length _ _ H23).
  destruct H12 as (c1 & f1 & C1 & F1 & P1 & N1), H23 as (c2 & f2 & C2 & F2 & P2 & N2).
  exists (c1 ++ c2), (f1 ++ f2). split; [by rewrite C2, C1, app_assoc|].
  split; [by rewrite F2, F1, app_assoc|]. split.
  - intros fx [Hin|Hin]%elem_of_app.
    + destruct (P1 fx Hin) as (k & ? & ?). exists k. split; [done|lia].
    + destruct (P2 fx Hin) as (k & ? & ?). exists k. split; [done|lia].
  - apply (places_apart _ _ (length (code e2))); [| |done|done].
    + intros fx Hin. destruct (P1 fx Hin) as (k & ? & ?). exists k. split; [done|lia].
    + intros fx Hin. destruct (P2 fx Hin) as (k & ? & ?). exists k. split; [done|lia].
Qed.

Lemma good_extends e e' : good e → extends e e' → good e'.
Proof.
  intros [G N] H. pose proof (extends_length _ _ H). destruct H as (c & fxs & C & F & P & N').
  split.
  - intros fx. rewrite F. intros [Hin|Hin]%elem_of_app.
    + destruct (G fx Hin) as (k & ? & ?). exists k. split; [done|lia].
    + destruct (P fx Hin) as (k & ? & ?). exists k. split; [done|lia].
  - rewrite F. apply (places_apart _ _ (length (code e))); [done| |done|done].
    intros fx Hin. destruct (P fx Hin) as (k & ? & ?). exists k. split; [done|lia].
Qed.

Lemma extends_emit c e : extends e (emit c e).
Proof. exists c, []. rewrite app_nil_r. repeat split; [set_solver|constructor]. Qed.

Lemma extends_mark l e : extends e (mark l e).
Proof. exists [], []. rewrite !app_nil_r. repeat split; [set_solver|constructor]. Qed.

Lemma extends_fixup e e' i fx :
  code e' = code e ++ [i] → branch_fixups e' = branch_fixups e ++ [fx] →
  abs_byte_offset fx = byte_offset e → extends e e'.
Proof.
  intros C F A. exists [i], [fx]. split; [done|]. split; [done|]. split; [|by apply NoDup_singleton].
  intros fx' ->%list_elem_of_singleton. exists (length (code e)). split; [done|].
  rewrite C, length_app. simpl. lia.
Qed.

Lemma extends_jal t e : extends e (emit_jal t e).
Proof. by eapply extends_fixup. Qed.
Lemma extends_bne a b t e : extends e (emit_bne a b t e).
Proof. by eapply extends_fixup. Qed.

(** The final code, after repair. *)
Definition final (e : emission) : list Instruction :=
  repair (label_offsets e) (branch_fixups e) (code e).

Lemma code_at_lookups prog k c :
  (k + length c ≤ length prog)%nat → (∀ j i, c !! j = Some i → prog !! (k + j)%nat = Some i) →
  code_at prog k c.
Proof.
  intros Hl H. exists (take k prog), (drop (length c) (drop k prog)).
  split; [|rewrite length_take; lia].
  rewrite <-(take_drop k prog) at 1. f_equal. rewrite <-(take_drop (length c) (drop k prog)) at 1. f_equal.
  apply list_eq. intros j. destruct (Nat.lt_ge_cases j (length c)) as [Hj|Hj].
  - rewrite lookup_take_lt, lookup_drop by done.
    destruct (lookup_lt_is_Some_2 c j Hj) as [i Hi]. by rewrite Hi, (H j i).
  - rewrite lookup_take_ge, lookup_ge_None_2 by lia. done.
Qed.

Lemma final_straight e c ef :
  good e → extends (emit c e) ef → code_at (final ef) (length (code e)) c.
Proof.
  intros [G _] H. pose proof (extends_length _ _ H) as Hl. destruct H as (c' & fxs & C & F & P & _).
  simpl in C, F, P, Hl. rewrite length_app in Hl. apply code_at_lookups.
  { unfold final. by rewrite length_repair. }
  intros j i Hj. pose proof (lookup_lt_Some _ _ _ Hj). unfold final. rewrite repair_other.
  - rewrite C, <-app_assoc, lookup_app_r, lookup_app_l by lia.
    by replace (length (code e) + j - length (code e))%nat with j by lia.
  - intros fx. rewrite F. intros [Hin|Hin]%elem_of_app.
    + destruct (G fx Hin) as (k & ? & ?). exists k. split; [done|lia].
    + destruct (P fx Hin) as (k & ? & Hk). rewrite length_app in Hk. exists k. split; [done|lia].
Qed.

Lemma final_fixup e fx i0 e' ef :
  good e → abs_byte_offset fx = byte_offset e →
  code e' = code e ++ [i0] → branch_fixups e' = branch_fixups e ++ [fx] → extends e' ef →
  final ef !! length (code e) = Some (default i0 (repaired (label_offsets ef) fx)).
Proof.
  intros G A C F H.
  assert (good e') as G' by (eapply good_extends; [done|by eapply extends_fixup]).
  assert (good ef) as [Gf Nf] by (by eapply good_extends).
  destruct H as (c' & fxs & C' & F' & P & _). unfold final. apply (repair_at _ _ _ fx).
  - done.
  - intros fx' Hin. destruct (Gf fx' Hin) as (k & ? & _). eauto.
  - rewrite F', F. set_solver.
  - exact A.
  - rewrite C', C, <-app_assoc, lookup_app_r, Nat.sub_diag by done. done.
Qed.

Lemma final_jal e t ef off :
  good e → extends (emit_jal t e) ef → label_offsets ef !! t = Some off →
  final ef !! length (code e) = Some (Instruction.Jal Zero (rel_offset off (byte_offset e))).
Proof.
  intros G H Hl.
  pose proof (final_fixup e {| abs_byte_offset := byte_offset e; target_label := t; is_jal := true;
    jal_rd := Zero; bne_rs1 := Zero; bne_rs2 := Zero |} _ (emit_jal t e) ef G eq_refl eq_refl eq_refl H) as E.
  unfold repaired in E. simpl in E. by rewrite Hl in E.
Qed.

(** A branch without its label stays, and falls through or loops. *)
Lemma final_bne e rs1 rs2 t ef :
  good e → extends (emit_bne rs1 rs2 t e) ef →
  ∃ rel, final ef !! length (code e) = Some (Instruction.Bne rs1 rs2 rel) ∧
    ∀ off, label_offsets ef !! t = Some off → rel = rel_offset off (byte_offset e).
Proof.
  intros G H.
  pose proof (final_fixup e {| abs_byte_offset := byte_offset e; target_label := t; is_jal := false;
    jal_rd := Zero; bne_rs1 := rs1; bne_rs2 := rs2 |} _ (emit_bne rs1 rs2 t e) ef G eq_refl eq_refl eq_refl H) as E.
  unfold repaired in E. simpl in E. destruct (label_offsets ef !! t) as [off|]; eexists; (split; [exact E|]).
  - by intros ? [= ->].
  - done.
Qed.

(** ** Functions of scalar operations *)

Definition value_ok (v : IRValue) : Prop :=
  match v with Immediate z => is_i64 z | Address a => is_u64 a | _ => True end.

Definition scalar (i : IRInstr) : Prop :=
  match i with
  | I_BinOp _ (Register _) lhs rhs ty | I_Cmp _ (Register _) lhs rhs ty =>
      value_ok lhs ∧ value_ok rhs ∧ is_fp ty = false
  | I_Add (Register _) lhs rhs _ => value_ok lhs ∧ value_ok rhs ∧ imm_ok rhs
  | I_Sub (Register _) lhs rhs _ | I_Mul (Register _) lhs rhs _ | I_Div (Register _) lhs rhs _ =>
      value_ok lhs ∧ value_ok rhs
  | I_UnaryOp op (Register _) operand _ => value_ok operand ∧ (op = Neg ∨ op = Not ∨ op = Popcnt)
  | I_Cast kind (Register _) src _ _ => value_ok src ∧ (kind = BitCast ∨ kind = Trunc)
  | I_Select (Register _) cond t f _ => value_ok cond ∧ value_ok t ∧ value_ok f
  | _ => False
  end.

Definition control (i : IRInstr) : Prop :=
  match i with
  | I_Ret values => Forall value_ok values
  | I_Branch _ => True
  | I_CondBranch cond _ _ => value_ok cond
  | _ => False
  end.

(** The registers of an instruction have slots. *)
Definition in_frame (slots : gmap Z Z) (i : IRInstr) : Prop :=
  ∀ id, id ∈ defined_regs i ++ used_regs i → is_Some (slots !! id).

(** ** Entering and leaving the frame *)

Lemma i32_imm_runs dst v m :
  dst ≠ Zero → is_i32 v → yields (ss_load_imm dst v) m dst (wrap64 v) [].
Proof.
  intros Hd Hv. apply computes_yields.
  pose proof (ss_load_imm_runs dst v m Hd) as H. rewrite i32_not_wide in H by done.
  apply H; [|done]. unfold is_i32, is_i64 in *. lia.
Qed.

Lemma at_sp_runs off tmp access m (Q : machine → Prop) :
  is_i32 off → tmp ≠ Zero → tmp ≠ Sp →
  (∀ m1 base imm, wrap64 (get m1 base + imm) = wrap64 (get m Sp + off) →
     mem m1 = mem m → (∀ r, r ≠ tmp → get m1 r = get m r) →
     ∃ m2, exec (access base imm) m1 = Some m2 ∧ Q m2) →
  runs (at_sp off tmp access) m Q.
Proof.
  intros Hoff Ht Hsp H. unfold at_sp. destruct (fits12 off).
  - destruct (H m Sp off) as (m2 & E & HQ); [done..|]. eapply runs_block; [|done].
    cbn [exec_block]. by rewrite E.
  - eapply runs_app; [by apply i32_imm_runs|]. intros m1 (V1 & M1 & F1).
    destruct (H (set m1 tmp (get m1 Sp + get m1 tmp)) tmp 0) as (m2 & E2 & HQ).
    + rewrite get_set_eq, Z.add_0_r, wrap64_idem, V1, F1 by (done || set_solver). apply wrap64_add_r.
    + done.
    + intros r Hr. rewrite get_set_ne by done. apply F1; [done|set_solver].
    + eapply runs_block; [|done]. cbn [exec_block exec mbind option_bind]. by rewrite E2.
Qed.

(** Adding an immediate to a register, through a temporary where it does not fit. *)
Lemma add_imm_runs dst src tmp fs m :
  is_i32 fs → dst ≠ Zero → tmp ≠ Zero → tmp ≠ src →
  yields (if fits12 fs then [Instruction.Addi dst src fs]
          else ss_load_imm tmp fs ++ [Instruction.Add dst src tmp]) m dst
    (wrap64 (get m src + fs)) [tmp].
Proof.
  intros Hf Hd Ht Hs. destruct (fits12 fs).
  - eapply runs_block; [reflexivity|]. split; [by rewrite get_set_eq|]. split; [done|].
    intros. by apply get_set_ne.
  - eapply (yields_app _ _ _ tmp _ []); [by apply i32_imm_runs| |by right; left|set_solver].
    intros m1 (V1 & M1 & F1). eapply runs_block; [reflexivity|].
    split; [|split; [done|intros; by apply get_set_ne]].
    rewrite get_set_eq, V1, F1, wrap64_add_r by (done || set_solver). done.
Qed.

(** The epilogue, its return aside. *)
Definition restore_frame (fs : Z) : list Instruction :=
  at_sp (fs - 16) T2 (Instruction.Ld S0) ++ at_sp (fs - 8) T2 (Instruction.Ld Ra) ++
  (if fits12 fs then [Instruction.Addi Sp Sp fs]
   else ss_load_imm T2 fs ++ [Instruction.Add Sp Sp T2]).

Lemma leave_frame_restore fs : leave_frame fs = restore_frame fs ++ [Instruction.Jalr Zero Ra 0].
Proof. unfold leave_frame, restore_frame. by rewrite <-!app_assoc. Qed.

Lemma restore_frame_runs fs m :
  16 ≤ fs < 2 ^ 31 →
  runs (restore_frame fs) m (λ m',
    get m' S0 = wrap64 (load 8 (mem m) (get m Sp + (fs - 16))) ∧
    get m' Ra = wrap64 (load 8 (mem m) (get m Sp + (fs - 8))) ∧
    get m' Sp = wrap64 (get m Sp + fs) ∧ mem m' = mem m ∧
    ∀ r, r ∉ [S0; Ra; Sp; T2] → get m' r = get m r).
Proof.
  intros Hfs. unfold restore_frame.
  eapply (runs_app _ _ _ (λ m1, get m1 S0 = wrap64 (load 8 (mem m) (get m Sp + (fs - 16))) ∧
    mem m1 = mem m ∧ ∀ r, r ∉ [S0; T2] → get m1 r = get m r)).
  { apply at_sp_runs; [unfold is_i32; lia|done..|]. intros m1 base imm Ea M1 F1.
    eexists. split; [reflexivity|]. split; [|split; [done|]].
    - by rewrite get_set_eq, (load_wrap _ _ _ _ Ea), M1.
    - intros r Hr. rewrite get_set_ne by set_solver. apply F1. set_solver. }
  intros m1 (S1 & M1 & F1).
  eapply (runs_app _ _ _ (λ m2, get m2 Ra = wrap64 (load 8 (mem m) (get m Sp + (fs - 8))) ∧
    mem m2 = mem m1 ∧ ∀ r, r ∉ [Ra; T2] → get m2 r = get m1 r)).
  { apply at_sp_runs; [unfold is_i32; lia|done..|]. intros m2 base imm Ea M2 F2.
    eexists. split; [reflexivity|]. split; [|split; [done|]].
    - by rewrite get_set_eq, (load_wrap _ _ _ _ Ea), M2, M1, (F1 Sp) by set_solver.
    - intros r Hr. rewrite get_set_ne by set_solver. apply F2. set_solver. }
  intros m2 (S2 & M2 & F2).
  eapply runs_mono; [|apply (add_imm_runs Sp Sp T2 fs); [unfold is_i32; lia|done..]].
  intros m3 (V3 & M3 & F3).
  split; [by rewrite F3, F2, S1 by set_solver|]. split; [by rewrite F3, S2 by set_solver|].
  split; [by rewrite V3, F2, F1 by set_solver|]. split; [by rewrite M3, M2|].
  intros r Hr. rewrite F3, F2, F1 by set_solver. done.
Qed.

(** ** Emission of a block *)

Section emission.
#[local] Set Default Proof Using "Type*".
  Context (fr : frame) (lower_call : option IRValue → string → list IRValue → emission → emission).

  #[local] Notation slots := (vreg_stack_slots fr).
  #[local] Notation lower_instr := (lower_instr lower_call fr ∅).


Lemma emit_nil e : emit [] e = e.
Proof. destruct e. unfold emit. simpl. by rewrite app_nil_r. Qed.

Lemma copies_none target source : copies fr ∅ target source = [].
Proof. unfold copies. by rewrite lookup_empty. Qed.

Lemma lower_branch_eq block target e : lower_branch fr ∅ block target e = emit_jal target e.
Proof. unfold lower_branch. by rewrite copies_none, emit_nil. Qed.

Lemma lower_cond_branch_eq block cond t f e :
  lower_cond_branch fr ∅ block cond t f e =
  emit_jal f (emit_bne T0 Zero t (emit (ss_load_value cond slots T0) e)).
Proof. unfold lower_cond_branch. by rewrite !copies_none. Qed.

Lemma lower_binop_Ret op dst lhs rhs ty : ∃ c, lower_binop slots op dst lhs rhs ty = Ret c.
Proof. unfold lower_binop. destruct (is_fp ty); [eauto|]. destruct op; simpl; eauto. Qed.

Lemma lower_instr_extends block i e :
  scalar i ∨ control i →
  ∃ e', lower_instr block i e = Ret e' ∧ extends e e' ∧ label_offsets e' = label_offsets e.
Proof.
  intros [Hs|Hc].
  - destruct i; try done; try (eexists; split; [reflexivity|]; split; [apply extends_emit|done]).
    destruct (lower_binop_Ret op dst lhs rhs ty) as [c E]. exists (emit c e).
    cbn [RiscvFun.lower_instr]. rewrite E. split; [done|]. split; [apply extends_emit|done].
  - destruct i; try done; cbn [RiscvFun.lower_instr]; eexists; (split; [reflexivity|]).
    + split; [apply extends_emit|done].
    + rewrite lower_branch_eq. split; [apply extends_jal|done].
    + rewrite lower_cond_branch_eq. split; [|done].
      eapply extends_trans; [apply extends_emit|].
      eapply extends_trans; [apply extends_bne|apply extends_jal].
Qed.

Lemma lower_instrs_extends block l e :
  Forall (λ i, scalar i ∨ control i) l →
  ∃ e', lower_instrs lower_call fr ∅ block l e = Ret e' ∧ extends e e' ∧
    label_offsets e' = label_offsets e.
Proof.
  intros H. revert e. induction H as [|i l Hi Hl IH]; intros e.
  - exists e. split; [done|]. split; [apply extends_refl|done].
  - destruct (lower_instr_extends block i e Hi) as (e1 & E1 & X1 & L1).
    destruct (IH e1) as (e2 & E2 & X2 & L2). exists e2. cbn [lower_instrs]. rewrite E1.
    split; [done|]. split; [by eapply extends_trans|by rewrite L2].
Qed.
End emission.

Section block.
#[local] Set Default Proof Using "Type*".
  Context (n : NanBits) (fr : frame).
  Context (lower_call : option IRValue → string → list IRValue → emission → emission).

  #[local] Notation slots := (vreg_stack_slots fr).
  #[local] Notation eval := (@eval memory (word_machine n)).
  #[local] Notation lower_instr := (lower_instr lower_call fr ∅).

Context (Hslots : slots_ok slots).

Lemma operand_ok_in l v :
  (∀ id, id ∈ regs_of l → is_Some (slots !! id)) → v ∈ l → value_ok v → operand_ok slots v.
Proof.
  intros H Hv Hok. destruct v; simpl in *; try done. apply H. apply list_elem_of_omap. by eexists.
Qed.

Lemma scalar_operands i v :
  scalar i → in_frame slots i → v ∈ operands i → value_ok v → operand_ok slots v.
Proof.
  intros Hs Hf. apply (operand_ok_in (operands i)). intros id Hid. apply Hf, elem_of_app. right.
  by destruct i.
Qed.

Lemma scalar_dst i id : in_frame slots i → dests i = [Register id] → scalar i → is_Some (slots !! id).
Proof.
  intros Hf Hd Hs. apply Hf, elem_of_app. left.
  destruct i; try done; simpl in Hd; injection Hd as ->; by left.
Qed.

Lemma float_ty_fp ty : is_fp ty = false → float_ty ty = false.
Proof. by destruct ty as [[]|]. Qed.

(** The value of a scalar instruction. *)
Definition scalar_value (i : IRInstr) (r : gmap Z Z) : option Z :=
  match i with
  | I_BinOp op _ lhs rhs _ => try_fold_binop_int op (eval r lhs) (eval r rhs)
  | I_Add _ lhs rhs _ => try_fold_binop_int Add (eval r lhs) (eval r rhs)
  | I_Sub _ lhs rhs _ => try_fold_binop_int Sub (eval r lhs) (eval r rhs)
  | I_Mul _ lhs rhs _ => try_fold_binop_int Mul (eval r lhs) (eval r rhs)
  | I_Div _ lhs rhs _ => try_fold_binop_int SDiv (eval r lhs) (eval r rhs)
  | I_UnaryOp op _ operand _ => try_fold_unaryop op (eval r operand)
  | I_Cmp kind _ lhs rhs _ => try_fold_cmp kind (eval r lhs) (eval r rhs)
  | I_Cast _ _ src _ _ => Some (eval r src)
  | I_Select _ cond t f _ => Some (if eval r cond =? 0 then eval r f else eval r t)
  | _ => None
  end.

Lemma exec_scalar_keeps prev i r w r' w' :
  scalar i → exec_instr (M := word_machine n) prev i r w = Next r' w' →
  ∃ id z, dests i = [Register id] ∧ scalar_value i r = Some z ∧ r' = <[id := as_i64 z]> r ∧ w' = w.
Proof.
  intros Hs E.
  destruct i; try done; destruct dst as [id| | |]; try done; simpl in Hs; destruct_and? Hs;
    cbn [exec_instr] in E; unfold exec_generic in E;
    cbn [m_exec word_machine word_exec skeleton operands fmap list_fmap] in E;
    rewrite ?try_fold_binop_int_ty in E by (by apply float_ty_fp); unfold word_value in E; exists id.
  all: try (destruct (try_fold_binop_int _ _ _) as [z|] eqn:Ez; simpl in E; [|done];
            injection E as <- <-; by exists z).
  - injection E as <- <-. eexists. by repeat split.
  - injection E as <- <-. destruct H0 as [-> | ->]; eexists; by repeat split.
  - injection E as <- <-. eexists. by repeat split.
  - injection E as <- <-. eexists. by repeat split.
Qed.

(** One scalar instruction: the code it emits, and what it achieves. *)
Lemma scalar_correct block i m r id z :
  scalar i → in_frame slots i → represents slots m r →
  dests i = [Register id] → scalar_value i r = Some z →
  ∃ c, (∀ e, lower_instr block i e = Ret (emit c e)) ∧ achieves slots m r c id z.
Proof.
  intros Hs Hf Hm Hd Hz. pose proof (λ v, scalar_operands i v Hs Hf) as Hop.
  pose proof (scalar_dst i id Hf Hd Hs) as Hdst.
  destruct i; try done; simpl in Hd, Hs; injection Hd as ->; cbn [operands] in Hop;
    destruct_and? Hs; cbn [scalar_value] in Hz.
  all: repeat match goal with
    | H : value_ok ?v |- _ => apply Hop in H; [|set_solver]
    end.
  - destruct (binop_achieves n slots Hslots m r Hm op id lhs rhs ty z) as (c & E & Ha); try done.
    exists c. split; [|done]. intros e. cbn [RiscvFun.lower_instr]. by rewrite E.
  - eexists. split; [done|]. by eapply (unaryop_achieves n).
  - eexists. split; [done|]. injection Hz as <-. by apply (bitcast_achieves n).
  - eexists. split; [done|]. injection Hz as <-. by apply (select_achieves n).
  - eexists. split; [done|]. injection Hz as <-. by apply (add_achieves n).
  - eexists. split; [done|]. by eapply (arith_achieves n slots Hslots m r Hm Sub).
  - eexists. split; [done|]. by eapply (arith_achieves n slots Hslots m r Hm Mul).
  - eexists. split; [done|]. by eapply (arith_achieves n slots Hslots m r Hm SDiv).
  - eexists. split; [done|]. by eapply (cmp_achieves n).
Qed.

(** *** Running a block *)

(** The save area of the frame, and the stack pointer of the caller. *)
Definition saved (m : machine) (ra s0 : Z) : Prop :=
  get m S0 = wrap64 (get m Sp + fs fr) ∧
  load 8 (mem m) (get m S0 - 8) = ra ∧ load 8 (mem m) (get m S0 - 16) = s0.

Lemma kept_load off m m' :
  off = 8 ∨ off = 16 → kept slots m m' → load 8 (mem m') (get m S0 - off) = load 8 (mem m) (get m S0 - off).
Proof.
  intros Hoff [_ M]. apply load_ext. intros i Hi. apply M. intros (id & o & j & E & Hj & Ea%wrap64_inj).
  - pose proof (proj1 Hslots id o E). lia.
  - pose proof (proj1 Hslots id o E). lia.
Qed.

Lemma kept_saved m m' ra s0 : kept slots m m' → saved m ra s0 → saved m' ra s0.
Proof.
  intros K (E & E8 & E16). pose proof (proj1 K) as R. unfold saved.
  rewrite !R by (unfold temps; set_solver).
  split; [done|]. split; rewrite (kept_load _ m m'); auto.
Qed.

(** At a return, seen from an earlier machine of the same call. *)
Definition returned (m m' : machine) (ra s0 : Z) (vs : list Z) : Prop :=
  (∀ v vs', vs = v :: vs' → get m' A0 = wrap64 v) ∧
  get m' Ra = wrap64 ra ∧ get m' S0 = wrap64 s0 ∧ get m' Sp = get m S0 ∧
  ∀ r, r ∉ temps → r ∉ [A0; Ra; S0; Sp] → get m' r = get m r.

Definition lands (ef : emission) (pc : Z) (m : machine) (ra s0 : Z) (fl : flow) (r' : gmap Z Z) : Prop :=
  match fl with
  | Goto l => ∀ off, label_offsets ef !! l = Some off →
      ∃ m', steps (final ef) (pc, m) (off, m') ∧ represents slots m' r' ∧ kept slots m m'
  | Finish (Returned vs) =>
      ∃ k m', steps (final ef) (pc, m) (4 * Z.of_nat k, m') ∧
        final ef !! k = Some (Instruction.Jalr Zero Ra 0) ∧ returned m m' ra s0 vs
  | _ => False
  end.

Lemma lands_kept ef pc m pc' m' ra s0 fl r' :
  steps (final ef) (pc, m) (pc', m') → kept slots m m' → lands ef pc' m' ra s0 fl r' →
  lands ef pc m ra s0 fl r'.
Proof.
  intros Hs K H. pose proof (proj1 K) as R. destruct fl as [l|[vs| |]]; simpl in *; try done.
  - intros off E. destruct (H off E) as (m2 & S2 & R2 & K2). exists m2. split; [by unfold steps in *; etrans|].
    split; [done|by eapply kept_trans].
  - destruct H as (k & m2 & S2 & E2 & A & B & C & D & F). exists k, m2.
    split; [by unfold steps in *; etrans|]. split; [done|]. split; [done|]. split; [done|]. split; [done|].
    rewrite (R S0) in D by (unfold temps; set_solver). split; [done|].
    intros r Hr Hn. rewrite F by done. by apply R.
Qed.

Context (ef : emission) (Hsize : byte_offset ef < 2 ^ 31).
Context (Hlabels : ∀ l off, label_offsets ef !! l = Some off → 0 ≤ off < 2 ^ 31).
Context (Hfs : 16 ≤ fs fr < 2 ^ 31).

Lemma extends_byte_offset e e' : extends e e' → byte_offset e ≤ byte_offset e'.
Proof. intros H%extends_length. unfold byte_offset. lia. Qed.

Lemma branch_target e off t :
  extends e ef → label_offsets ef !! t = Some off →
  byte_offset e + rel_offset off (byte_offset e) = off.
Proof.
  intros X%extends_byte_offset Hl. rewrite rel_offset_small; [lia|by eapply Hlabels|].
  unfold byte_offset in *. lia.
Qed.

Lemma jal_lands e m ra s0 t r :
  good e → extends (emit_jal t e) ef → represents slots m r →
  lands ef (byte_offset e) m ra s0 (Goto t) r.
Proof.
  intros G X Hm off Hl. pose proof (final_jal e t ef off G X Hl) as Hi.
  exists m. split; [|split; [done|apply kept_refl; apply Hslots]].
  pose proof (step_jump (final ef) (length (code e)) _ m _ Hi eq_refl) as S.
  fold (byte_offset e) in S. rewrite (branch_target e off t) in S; [by apply rtc_once| |done].
  eapply extends_trans, X. apply extends_jal.
Qed.

Lemma ret_lands e m ra s0 vs r :
  good e → extends (emit (lower_ret fr vs) e) ef → represents slots m r → saved m ra s0 →
  Forall (operand_ok slots) vs →
  lands ef (byte_offset e) m ra s0 (Finish (Returned (eval r <$> vs))) r.
Proof.
  intros G X Hm (ES & E8 & E16) Hvs. pose proof (final_straight e _ ef G X) as Hc.
  unfold lower_ret in Hc. rewrite leave_frame_restore, app_assoc in Hc.
  set (c1 := match vs with v :: _ => ss_load_value v slots A0 | [] => [] end) in *.
  assert (runs c1 m (λ m1, (∀ v vs', eval r <$> vs = v :: vs' → get m1 A0 = wrap64 v) ∧
    mem m1 = mem m ∧ ∀ x, x ≠ A0 → x ∉ temps → get m1 x = get m x)) as H1.
  { unfold c1. destruct vs as [|v vs]; [by eapply (runs_block _ _ m)|].
    eapply runs_mono; [|by apply (load_value_temp n); [..|apply Forall_cons in Hvs as [? _]| |]].
    intros m1 (V & M & F). split; [by intros ? ? [= <- _]|]. split; [done|].
    intros x Hx Hn. apply F; [done|]. intros ->%list_elem_of_singleton. apply Hn, T3_temps. }
  assert (runs (c1 ++ restore_frame (fs fr)) m (λ m2, returned m m2 ra s0 (eval r <$> vs))) as H2.
  { eapply runs_app; [exact H1|]. intros m1 (V & M & F).
    eapply runs_mono; [|by apply restore_frame_runs].
    intros m2 (VS & VR & VP & _ & F2). rewrite M in VS, VR.
    rewrite (F Sp) in VS, VR, VP by (done || (unfold temps; set_solver)).
    split; [|split; [|split; [|split]]].
    - intros v vs' Ev. rewrite F2 by set_solver. by eapply V.
    - rewrite VR, <-E8. f_equal. apply load_wrap. rewrite ES, wrap64_sub_l. f_equal. lia.
    - rewrite VS, <-E16. f_equal. apply load_wrap. rewrite ES, wrap64_sub_l. f_equal. lia.
    - by rewrite VP, ES.
    - intros x Hx Hn. rewrite F2, F; [done|set_solver|done|].
      intros Hin. apply Hn. repeat apply elem_of_cons in Hin as [->|Hin]; try set_solver. }
  destruct H2 as (m2 & HR & S2). exists (length (code e) + length (c1 ++ restore_frame (fs fr)))%nat, m2.
  apply code_at_app in Hc as [Hc1 Hc2]. split; [by apply S2|]. split; [|done].
  by eapply code_at_lookup.
Qed.

Lemma byte_offset_emit c e : byte_offset (emit c e) = 4 * Z.of_nat (length (code e) + length c).
Proof. unfold byte_offset. simpl. by rewrite length_app. Qed.

Lemma cond_lands e m ra s0 cond t f r :
  good e → extends (emit_jal f (emit_bne T0 Zero t (emit (ss_load_value cond slots T0) e))) ef →
  represents slots m r → operand_ok slots cond →
  lands ef (byte_offset e) m ra s0 (Goto (if eval r cond =? 0 then f else t)) r.
Proof.
  intros G X Hm Hc. set (c := ss_load_value cond slots T0) in *. set (e1 := emit c e) in *.
  set (e2 := emit_bne T0 Zero t e1) in *.
  assert (extends e2 ef) as X2 by (eapply extends_trans, X; apply extends_jal).
  assert (extends e1 ef) as X1 by (eapply extends_trans, X2; apply extends_bne).
  assert (good e1) as G1 by (eapply good_extends; [done|apply extends_emit]).
  assert (good e2) as G2 by (eapply good_extends; [done|apply extends_bne]).
  destruct (load_value_temp n slots Hslots cond m r T0 Hm Hc) as (m1 & (V & M & F) & S1); [done..|].
  assert (steps (final ef) (byte_offset e, m) (byte_offset e1, m1)) as St.
  { unfold e1. rewrite byte_offset_emit. apply S1. by apply final_straight. }
  assert (kept slots m m1) as K.
  { apply kept_regs; [apply Hslots|done|]. intros x Hx.
    apply F; [intros ->; by apply Hx; left|]. intros ->%list_elem_of_singleton. by apply Hx, T3_temps. }
  assert (represents slots m1 r) as Hm1.
  { eapply represents_kept_mem; [done|done|done|]. apply (proj1 K). unfold temps. set_solver. }
  eapply lands_kept; [exact St|exact K|].
  destruct (final_bne e1 T0 Zero t ef G1 X2) as (rel & Hi & Hrel).
  destruct (Z.eqb_spec (eval r cond) 0) as [E0|E0].
  - apply (lands_kept ef _ m1 (byte_offset e2) m1); [|apply kept_refl; apply Hslots|by apply jal_lands].
    eapply (jump_steps _ _ _ _ 4 (length (code e2))); [exact Hi| | |apply rtc_refl].
    + cbn [taken]. by rewrite V, E0.
    + change (code e2) with (code e1 ++ [Instruction.Bne T0 Zero 0]). rewrite length_app. cbn [length]. lia.
  - intros off Hl. exists m1. split; [|split; [done|apply kept_refl; apply Hslots]].
    assert (taken (Instruction.Bne T0 Zero rel) m1 = Some rel) as Ht.
    { cbn [taken]. rewrite V, get_zero, word_nonzero by (done || apply as_i64_range). done. }
    pose proof (step_jump (final ef) (length (code e1)) _ m1 _ Hi Ht) as S.
    fold (byte_offset e1) in S. rewrite (Hrel off Hl), (branch_target e1 off t) in S by done.
    by apply rtc_once.
Qed.

Lemma control_lands block prev i e e' m ra s0 r w fl r' w' :
  control i → in_frame slots i → good e → lower_instr block i e = Ret e' → extends e' ef →
  represents slots m r → saved m ra s0 →
  exec_instr (M := word_machine n) prev i r w = Exit fl r' w' →
  lands ef (byte_offset e) m ra s0 fl r' ∧ w' = w.
Proof.
  intros Hc Hf G He X Hm Hsv E.
  assert (∀ v, v ∈ operands i → value_ok v → operand_ok slots v) as Hop.
  { intros v. apply (operand_ok_in (operands i)). intros id Hid. apply Hf, elem_of_app. right.
    by destruct i. }
  destruct i; try done; cbn [exec_instr] in E; injection E as <- <- <-; injection He as <-;
    (split; [|done]).
  - apply ret_lands; try done. simpl in Hc. apply Forall_forall. intros v Hv. apply Hop; [done|].
    by eapply Forall_forall in Hc.
  - rewrite lower_branch_eq in X. by apply jal_lands.
  - rewrite lower_cond_branch_eq in X. apply cond_lands; try done. apply Hop; [by left|done].
Qed.

Lemma block_lands block prev l t e e' m ra s0 r w fl r' w' :
  Forall (λ i, scalar i ∨ control i) l → Forall (in_frame slots) l → Exists control l →
  good e → lower_instrs lower_call fr ∅ block l e = Ret e' → extends e' ef →
  represents slots m r → saved m ra s0 →
  IrSem.exec_block (M := word_machine n) prev l t r w = Exit fl r' w' →
  lands ef (byte_offset e) m ra s0 fl r' ∧ w' = w.
Proof.
  revert e m r. induction l as [|i l IH]; intros e m r Hk Hf Hx G He X Hm Hsv E; [by inv Hx|].
  apply Forall_cons in Hk as [Hi Hk], Hf as [Hfi Hf].
  cbn [lower_instrs] in He. apply outcome_bind_Ret in He as (e1 & He1 & He).
  destruct (lower_instrs_extends fr lower_call block l e1 Hk) as (e2 & E2 & X2 & _).
  rewrite He in E2. injection E2 as <-.
  assert (extends e1 ef) as X1 by (by eapply extends_trans).
  cbn [IrSem.exec_block] in E. destruct Hi as [Hi|Hi].
  - destruct (exec_instr prev i r w) as [r1 w1|fl1 r1 w1|] eqn:Ei; [| |done].
    2:{ exfalso. destruct i; try done; destruct dst; try done; cbn [exec_instr] in Ei;
        unfold exec_generic in Ei; by repeat case_match. }
    destruct (exec_scalar_keeps prev i r w r1 w1 Hi Ei) as (id & z & Hd & Hz & -> & ->).
    destruct (scalar_correct block i m r id z Hi Hfi Hm Hd Hz) as (c & Hc & m1 & [Hm1 K] & S1).
    rewrite Hc in He1. injection He1 as <-.
    assert (control i → False) as Hnc by (by destruct i).
    inv Hx; [by exfalso; apply Hnc|].
    destruct (IH (emit c e) m1 (<[id := as_i64 z]> r)) as [HL ->]; try done.
    { eapply good_extends; [done|apply extends_emit]. }
    { by eapply kept_saved. }
    split; [|done]. eapply lands_kept; [|exact K|exact HL].
    rewrite byte_offset_emit. apply S1. by apply final_straight.
  - destruct (exec_instr prev i r w) as [r1 w1|fl1 r1 w1|] eqn:Ei.
    + by destruct i.
    + injection E as -> -> ->. by eapply control_lands.
    + done.
Qed.
End block.

(** ** Running a function *)

Definition block_ok (slots : gmap Z Z) (b : IRBlock) : Prop :=
  Forall (λ i, scalar i ∨ control i) (instructions b) ∧ Forall (in_frame slots) (instructions b) ∧
  Exists control (instructions b).

Section function.
#[local] Set Default Proof Using "Type*".
  Context (n : NanBits) (fr : frame).
  Context (lower_call : option IRValue → string → list IRValue → emission → emission).

  #[local] Notation slots := (vreg_stack_slots fr).
  #[local] Notation lower_blocks := (lower_blocks lower_call fr ∅).

(** Where the code of a block is. *)
Definition placed (ef : emission) (b : IRBlock) : Prop :=
  ∃ e e', good e ∧ label_offsets ef !! b_label b = Some (byte_offset e) ∧
    lower_instrs lower_call fr ∅ (b_label b) (instructions b) e = Ret e' ∧ extends e' ef.

Lemma good_mark l e : good e → good (mark l e).
Proof. done. Qed.

Lemma lower_blocks_spec bs e ef :
  Forall (block_ok slots) bs → NoDup (b_label <$> bs) → good e → lower_blocks bs e = Ret ef →
  extends e ef ∧ (∀ l, l ∉ b_label <$> bs → label_offsets ef !! l = label_offsets e !! l) ∧
  Forall (placed ef) bs.
Proof.
  intros Hb. revert e. induction Hb as [|b bs (Hk & _ & _) Hb IH]; intros e Hnd G He.
  { injection He as <-. split; [apply extends_refl|done]. }
  rewrite fmap_cons in Hnd. apply NoDup_cons in Hnd as [Hn Hnd].
  cbn [RiscvFun.lower_blocks] in He. apply outcome_bind_Ret in He as (e1 & He1 & He).
  destruct (lower_instrs_extends fr lower_call (b_label b) _ (mark (b_label b) e) Hk)
    as (e1' & E1 & X1 & L1). rewrite He1 in E1. injection E1 as <-.
  assert (extends e e1) as X by (eapply extends_trans; [apply extends_mark|done]).
  destruct (IH e1) as (X2 & Lo & Hp); [done|by eapply good_extends|done|].
  split; [by eapply extends_trans|]. split.
  - intros l Hl. rewrite fmap_cons in Hl. apply not_elem_of_cons in Hl as [Hne Hl].
    rewrite Lo, L1 by done. simpl. by apply lookup_insert_ne.
  - constructor; [|done]. exists (mark (b_label b) e), e1. split; [done|].
    split; [|done]. rewrite Lo, L1 by done. simpl. apply lookup_insert_eq.
Qed.

Lemma labels_bounded bs e ef :
  Forall (block_ok slots) bs → NoDup (b_label <$> bs) → good e → lower_blocks bs e = Ret ef →
  label_offsets e = ∅ → ∀ l off, label_offsets ef !! l = Some off → 0 ≤ off ≤ byte_offset ef.
Proof.
  intros Hb Hnd G He E0 l off Hl.
  destruct (lower_blocks_spec bs e ef Hb Hnd G He) as (X & Lo & Hp).
  destruct (decide (l ∈ b_label <$> bs)) as [Hin|Hn].
  - apply list_elem_of_fmap in Hin as (b & -> & Hin). rewrite Forall_forall in Hp, Hb.
    destruct (Hp b Hin) as (eb & eb' & _ & Eo & El & Xb). rewrite Hl in Eo. injection Eo as ->.
    destruct (lower_instrs_extends fr lower_call (b_label b) _ eb (proj1 (Hb b Hin))) as (e2 & E2 & X2 & _).
    rewrite El in E2. injection E2 as <-.
    pose proof (extends_length _ _ (extends_trans _ _ _ X2 Xb)). unfold byte_offset. lia.
  - rewrite Lo, E0, lookup_empty in Hl by done. done.
Qed.

Context (Hslots : slots_ok slots) (Hfs : 16 ≤ fs fr < 2 ^ 31).

(** A run of the blocks, from the start of one to a return. *)
Lemma run_lands bs ef fuel prev label off m ra s0 r w vs w' :
  Forall (block_ok slots) bs → Forall (placed ef) bs → byte_offset ef < 2 ^ 31 →
  (∀ l off, label_offsets ef !! l = Some off → 0 ≤ off < 2 ^ 31) →
  label_offsets ef !! label = Some off → represents slots m r → saved fr m ra s0 →
  run (M := word_machine n) fuel bs prev label r w = Done (Returned vs) w' →
  ∃ r', lands fr ef off m ra s0 (Finish (Returned vs)) r'.
Proof.
  intros Hb Hp Hsize Hlab. revert prev label off m r w.
  induction fuel as [|fuel IH]; intros prev label off m r w Hl Hm Hsv E; [done|].
  cbn [run] in E. destruct (block_at bs label) as [b|] eqn:Eb; [|done].
  unfold block_at in Eb. apply find_Some in Eb as [Hin <-%String.eqb_eq].
  rewrite Forall_forall in Hb, Hp. destruct (Hb b Hin) as (Hk & Hf & Hx).
  destruct (Hp b Hin) as (e & e' & G & Eo & El & X). rewrite Hl in Eo. injection Eo as ->.
  destruct (IrSem.exec_block prev (instructions b) (terminator b) r w) as [?|fl r1 w1|] eqn:Ex; [done| |done].
  destruct (block_lands n fr lower_call Hslots ef Hsize Hlab Hfs (b_label b) prev _ _ e e' m ra s0 r w fl r1 w1
    Hk Hf Hx G El X Hm Hsv Ex) as [HL ->].
  destruct fl as [l|fin].
  - destruct fuel as [|fuel]; [done|].
    pose proof E as E2. cbn [run] in E2. destruct (block_at bs l) as [b2|] eqn:Eb2; [|done].
    unfold block_at in Eb2. apply find_Some in Eb2 as [Hin2 <-%String.eqb_eq].
    destruct (Hp b2 Hin2) as (e2 & _ & _ & Eo2 & _ & _).
    destruct (HL _ Eo2) as (m1 & S1 & Hm1 & K1).
    destruct (IH (b_label b) (b_label b2) _ m1 r1 w Eo2 Hm1) as (r2 & HL2); [by eapply kept_saved|done|].
    exists r2. by eapply lands_kept.
  - injection E as -> ->. by exists r1.
Qed.

End function.

(** ** The prologue *)

Definition bytes_ok (m : machine) : Prop := ∀ b, 0 ≤ mem m b < 256.

Lemma store_bytes k f a v : (∀ b, 0 ≤ f b < 256) → ∀ b, 0 ≤ store k f a v b < 256.
Proof.
  intros Hf. revert a v. induction k as [|k IH]; intros a v b; cbn [store]; [done|].
  case_decide; [by apply Z.mod_pos_bound|apply IH].
Qed.

#[local] Arguments load : simpl never.
#[local] Arguments store : simpl never.

Lemma exec_bytes i m m' : exec i m = Some m' → bytes_ok m → bytes_ok m'.
Proof. intros E H. destruct i; try done; injection E as <-; try exact H; intros b; cbn [mem]; by apply store_bytes. Qed.

Lemma runs_bytes c m Q : bytes_ok m → runs c m Q → runs c m (λ m', Q m' ∧ bytes_ok m').
Proof.
  intros H (m' & HQ & S). exists m'. split; [|done]. split; [done|].
  specialize (S c 0%nat (code_at_all c)). unfold steps in S.
  remember (4 * Z.of_nat 0, m) as s eqn:Es. remember (4 * Z.of_nat (0 + length c), m') as s' eqn:Es'.
  assert (bytes_ok s.2) as Hs by (by rewrite Es). assert (m' = s'.2) as -> by (by rewrite Es'). clear Es Es' H HQ.
  induction S as [|x y z Hxy Hyz IH]; [done|]. apply IH.
  destruct Hxy as [k i m1 m2 _ E|]; [by eapply exec_bytes|done].
Qed.

(** Nothing changes but temporaries and the memory more than [L] bytes below [S0]. *)
Definition above (L : Z) (m m' : machine) : Prop :=
  (∀ r, r ∉ temps → get m' r = get m r) ∧
  (∀ d, 1 ≤ d ≤ L → mem m' (wrap64 (get m S0 - d)) = mem m (wrap64 (get m S0 - d))).

Lemma above_refl L m : above L m m.
Proof. done. Qed.

Lemma above_trans L m1 m2 m3 : above L m1 m2 → above L m2 m3 → above L m1 m3.
Proof.
  intros [R1 M1] [R2 M2]. assert (get m2 S0 = get m1 S0) as E by (apply R1; unfold temps; set_solver).
  split; [intros r Hr; by rewrite R2, R1|]. intros d Hd. rewrite <-M1 by done. rewrite <-E. by apply M2.
Qed.

Lemma above_load L off m m' :
  8 ≤ off ≤ L → above L m m' → load 8 (mem m') (get m S0 - off) = load 8 (mem m) (get m S0 - off).
Proof.
  intros Hoff [_ M]. apply load_ext. intros i Hi.
  replace (get m S0 - off + i) with (get m S0 - (off - i)) by lia. apply M. lia.
Qed.

Lemma above_temp L m dst v tmp m' :
  leaves m dst v tmp m' → dst ∈ temps → (∀ r, r ∈ tmp → r ∈ temps) → above L m m'.
Proof.
  intros (_ & M & F) Hd Ht. split; [|intros; by rewrite M].
  intros r Hr. apply F; [by intros ->|]. intros H. by apply Hr, Ht.
Qed.

Lemma store_above L src off m :
  0 ≤ L → L + 8 ≤ off < 2 ^ 31 → src ≠ T3 → runs (ss_store_to_slot src off) m (above L m).
Proof.
  intros HL Hoff Hs. apply at_slot_runs; [lia|]. intros m1 base imm Ea M1 F1.
  eexists. split; [reflexivity|]. split.
  - intros r Hr. change (get m1 r = get m r). apply F1. intros ->. by apply Hr, T3_temps.
  - intros d Hd. cbn [mem]. rewrite (store_wrap _ _ _ _ _ Ea), M1. apply store_other.
    intros i Hi Ew%wrap64_inj; lia.
Qed.

Lemma stores_above L src offs m :
  0 ≤ L → src ≠ T3 → Forall (λ off, L + 8 ≤ off < 2 ^ 31) offs →
  runs (offs ≫= ss_store_to_slot src) m (above L m).
Proof.
  intros HL Hs H. revert m. induction H as [|off offs Ho H IH]; intros m.
  { by apply (runs_block _ _ m). }
  rewrite bind_cons. eapply runs_app; [by apply (store_above L)|]. intros m1 A1.
  eapply runs_mono; [|apply IH]. intros m2 A2. by eapply above_trans.
Qed.

Lemma ipc_prologue_above s L m :
  ipc_in_order s → 0 ≤ L → L + 8 ≤ seq_counter_off s → formal_verify_count_off s < 2 ^ 31 →
  runs (ipc_prologue s None 0) m (above L m).
Proof.
  unfold ipc_in_order. intros Hord HL Hseq Hlast. unfold ipc_prologue. rewrite app_nil_l.
  eapply (runs_app _ _ _ (above L m)).
  { eapply runs_block; [reflexivity|]. split; [|done]. intros r Hr. apply set_temp_kept; [|done].
    unfold temps. set_solver. }
  intros m1 A1. eapply (runs_app _ _ _ (above L m)).
  { eapply runs_mono; [|apply (stores_above L); [done|done|]].
    - intros m2 A2. by eapply above_trans.
    - repeat constructor; lia. }
  intros m2 A2. eapply (runs_app _ _ _ (above L m)).
  { eapply runs_mono; [|by apply i32_imm_runs]. intros m3 A3. eapply above_trans; [exact A2|].
    eapply above_temp; [exact A3|unfold temps; set_solver|set_solver]. }
  intros m3 A3. eapply runs_mono; [|apply (store_above L); [done|lia|done]].
  intros m4 A4. by eapply above_trans.
Qed.

Lemma store_sp_runs off tmp src m :
  is_i32 off → tmp ≠ Zero → tmp ≠ Sp → src ≠ tmp →
  runs (at_sp off tmp (λ base imm, Instruction.Sd base src imm)) m (λ m',
    mem m' = store 8 (mem m) (get m Sp + off) (get m src) ∧ ∀ r, r ≠ tmp → get m' r = get m r).
Proof.
  intros Hoff Ht Hsp Hs. apply at_sp_runs; [done..|]. intros m1 base imm Ea M1 F1.
  eexists. split; [reflexivity|]. cbn [mem]. split.
  - by rewrite (store_wrap _ _ _ _ _ Ea), M1, (F1 src).
  - intros r Hr. change (get m1 r = get m r). by apply F1.
Qed.

Lemma lower_sp_runs fs m :
  16 ≤ fs < 2 ^ 31 →
  yields (if fits12 fs then [Instruction.Addi Sp Sp (- fs)]
          else ss_load_imm T0 fs ++ [Instruction.Sub Sp Sp T0]) m Sp (wrap64 (get m Sp - fs)) [T0].
Proof.
  intros Hf. destruct (fits12 fs).
  - eapply runs_block; [reflexivity|]. split; [by rewrite get_set_eq|]. split; [done|].
    intros. by apply get_set_ne.
  - eapply (yields_app _ _ _ T0 _ []); [apply i32_imm_runs; [done|unfold is_i32; lia]| |by right; left|set_solver].
    intros m1 (V1 & M1 & F1). eapply runs_block; [reflexivity|].
    split; [|split; [done|intros; by apply get_set_ne]].
    rewrite get_set_eq, V1, F1, wrap64_sub_r by (done || set_solver). done.
Qed.

Lemma enter_frame_runs fs m :
  16 ≤ fs < 2 ^ 31 →
  runs (enter_frame fs) m (λ m',
    get m' S0 = wrap64 (get m Sp) ∧ get m' Sp = wrap64 (get m Sp - fs) ∧
    load 8 (mem m') (get m Sp - 8) = wrap64 (get m Ra) ∧
    load 8 (mem m') (get m Sp - 16) = wrap64 (get m S0) ∧
    ∀ r, r ∉ [Sp; S0; T0] → get m' r = get m r).
Proof.
  intros Hfs. unfold enter_frame.
  eapply runs_app; [by apply lower_sp_runs|]. intros m1 (V1 & M1 & F1).
  assert (∀ r, r ≠ Sp → r ≠ T0 → get m1 r = get m r) as F1' by (intros; apply F1; set_solver).
  assert (∀ k, 0 ≤ k ≤ 16 → wrap64 (get m1 Sp + (fs - k)) = wrap64 (get m Sp - k)) as Hadr.
  { intros k Hk. rewrite V1, wrap64_add_l. f_equal. lia. }
  eapply runs_app; [apply store_sp_runs; [unfold is_i32; lia|done..]|]. intros m2 (M2 & F2).
  eapply runs_app; [apply store_sp_runs; [unfold is_i32; lia|done..]|]. intros m3 (M3 & F3).
  eapply runs_mono; [|apply (add_imm_runs S0 Sp T0 fs); [unfold is_i32; lia|done..]].
  intros m4 (V4 & M4 & F4). rewrite F3, F2 in V4 by done.
  assert (mem m4 = store 8 (store 8 (mem m) (get m Sp - 8) (get m Ra)) (get m Sp - 16) (get m S0)) as EM.
  { rewrite M4, M3, M2, M1, (F2 S0), (F2 Sp), (F1' S0), (F1' Ra) by done.
    rewrite (store_wrap _ _ _ (get m Sp - 16)) by (apply Hadr; lia). f_equal.
    apply store_wrap, Hadr. lia. }
  split; [|split; [|split; [|split]]].
  - rewrite V4, V1, wrap64_add_l. f_equal. lia.
  - rewrite F4, F3, F2 by (done || set_solver). done.
  - rewrite EM, load_store_other; [by rewrite load_store|].
    intros i j Hi Hj E%wrap64_inj; lia.
  - by rewrite EM, load_store.
  - intros r Hr. rewrite F4, F3, F2 by set_solver. apply F1'; set_solver.
Qed.

Definition arg_regs : list Gpr := [A0; A1; A2; A3; A4; A5; A6; A7].

(** What the frame holds. *)
Definition contents (slots : gmap Z Z) (m : machine) : gmap Z Z :=
  (λ off, load 8 (mem m) (get m S0 - off)) <$> slots.

Lemma contents_represents slots m : bytes_ok m → represents slots m (contents slots m).
Proof.
  intros H id off E. unfold contents. rewrite lookup_fmap, E. simpl. symmetry. apply wrap64_small.
  apply (load_range 8 _ _ H).
Qed.

Lemma store_params_runs slots params args rs m r :
  slots_ok slots → represents slots m r → Forall (λ p, ∃ id, p = Register id ∧ is_Some (slots !! id)) params →
  length args = length params → (length params ≤ length rs)%nat → Forall (λ x, x ∉ temps) rs →
  (∀ i x a, rs !! i = Some x → args !! i = Some a → get m x = wrap64 a) →
  runs (mjoin (zip_with (λ param r, match as_register param with
          | Some id => ss_store_to_slot r (slot_of slots id) | None => [] end) params rs)) m
    (λ m', represents slots m' (write params args r) ∧ kept slots m m').
Proof.
  intros Hs. revert args rs m r. induction params as [|p params IH]; intros args rs m r Hm Hp Hl1 Hl2 Hrs Ha.
  { destruct args; [|done]. apply (runs_block _ _ m); [done|]. by split. }
  destruct args as [|a args]; [done|]. destruct rs as [|x rs]; [simpl in Hl2; lia|].
  apply Forall_cons in Hp as [(id & -> & Hid) Hp], Hrs as [Hx Hrs]. cbn [zip_with mjoin as_register].
  eapply (runs_app _ _ _ (λ m1, represents slots m1 (<[id := as_i64 a]> r) ∧ kept slots m m1)).
  { pose proof (store_result_runs slots Hs m r id a x) as H.
    apply H; [done|done| |by apply (Ha 0%nat)]. intros ->. by apply Hx, T3_temps. }
  intros m1 [Hm1 K1]. eapply runs_mono; [|apply (IH args rs m1 _ Hm1); try done].
  - intros m2 [Hm2 K2]. split; [exact Hm2|by eapply kept_trans].
  - simpl in Hl1. lia.
  - simpl in Hl2. lia.
  - intros i y b Ey Eb. rewrite (proj1 K1); [by apply (Ha (S i))|].
    rewrite Forall_forall in Hrs. apply Hrs. by eapply list_elem_of_lookup_2.
Qed.

Lemma scalar_no_alloc f :
  Forall (λ b, Forall (λ i, scalar i ∨ control i) (instructions b)) (f_blocks f) →
  ∀ i, i ∈ f_blocks f ≫= instructions → scalar i ∨ control i.
Proof.
  intros H i (b & Hi & Hb)%list_elem_of_bind. rewrite Forall_forall in H. specialize (H b Hb).
  by eapply Forall_forall in H.
Qed.

Lemma no_folded_checks f :
  (∀ i, i ∈ f_blocks f ≫= instructions → scalar i ∨ control i) → formal_verify_folded_count f = 0.
Proof.
  intros H. unfold formal_verify_folded_count.
  induction (f_blocks f ≫= instructions) as [|i l IH]; [done|]. rewrite filter_cons, decide_False.
  - apply IH. intros j Hj. apply H. by right.
  - destruct (H i) as [Hs|Hc]; [by left|by destruct i|by destruct i].
Qed.

Lemma no_phis f :
  (∀ i, i ∈ f_blocks f ≫= instructions → scalar i ∨ control i) → build_phi_map f = ∅.
Proof.
  intros H. unfold build_phi_map.
  assert ((f_blocks f ≫= λ b, instructions b ≫= phi_copies (b_label b)) = []) as ->; [|done].
  induction (f_blocks f) as [|b bs IH]; [done|]. rewrite bind_cons, IH.
  - rewrite app_nil_r.
    assert (∀ i, i ∈ instructions b → scalar i ∨ control i) as Hb.
    { intros i Hi. apply H. rewrite bind_cons. set_solver. }
    clear H IH. induction (instructions b) as [|i l IHl]; [done|]. rewrite bind_cons, IHl.
    + by destruct (Hb i ltac:(by left)); destruct i.
    + intros j Hj. apply Hb. by right.
  - intros i Hi. apply H. rewrite bind_cons. set_solver.
Qed.

(** Functions the theorem is about. *)
Record function_ok (f : IRFunction) : Prop := {
  ok_instrs : ∀ i, i ∈ f_blocks f ≫= instructions → scalar i ∨ control i;
  ok_ends : Forall (λ b, Exists control (instructions b)) (f_blocks f);
  ok_labels : NoDup (b_label <$> f_blocks f);
  ok_params : Forall (λ p, is_register p = true) (f_params f);
  ok_arity : (length (f_params f) ≤ 8)%nat;
}.

Lemma above_represents slots L m m' r :
  slots_ok slots → (∀ id off, slots !! id = Some off → off ≤ L) → above L m m' →
  represents slots m r → represents slots m' r.
Proof.
  intros Hs HL A Hm id off E. rewrite (proj1 A) by (unfold temps; set_solver).
  rewrite (above_load L off m m'); [by apply Hm| |done].
  pose proof (proj1 Hs id off E). specialize (HL id off E). lia.
Qed.

Lemma above_saved fr L m m' ra s0 : 16 ≤ L → above L m m' → saved fr m ra s0 → saved fr m' ra s0.
Proof.
  intros HL A (E & E8 & E16). unfold saved. rewrite !(proj1 A) by (unfold temps; set_solver).
  split; [done|]. split; rewrite (above_load L _ m m') by (done || lia); done.
Qed.

Lemma enter_saved fr m :
  16 ≤ fs fr < 2 ^ 31 → bytes_ok m →
  runs (enter_frame (fs fr)) m (λ m', (saved fr m' (wrap64 (get m Ra)) (wrap64 (get m S0)) ∧
    get m' S0 = wrap64 (get m Sp) ∧ ∀ r, r ∉ temps → r ∉ [Sp; S0] → get m' r = get m r) ∧ bytes_ok m').
Proof.
  intros Hfs Hb. apply runs_bytes; [done|]. eapply runs_mono; [|by apply enter_frame_runs].
  intros m' (ES & EP & E8 & E16 & F). split; [|split; [done|]].
  - split; [|split].
    + rewrite ES, EP, wrap64_add_l. f_equal. lia.
    + rewrite ES. rewrite <-E8. apply load_wrap, wrap64_sub_l.
    + rewrite ES. rewrite <-E16. apply load_wrap, wrap64_sub_l.
  - intros r Hr Hn. apply F. intros Hin. repeat apply elem_of_cons in Hin as [->|Hin]; set_solver.
Qed.

Lemma prologue_runs f fr m args :
  stack_layout true f = Ret fr → function_ok f → bytes_ok m → length args = length (f_params f) →
  (∀ i x a, arg_regs !! i = Some x → args !! i = Some a → get m x = wrap64 a) →
  runs (prologue fr None f) m (λ m',
    (∃ r0, represents (vreg_stack_slots fr) m' (write (f_params f) args r0)) ∧
    saved fr m' (wrap64 (get m Ra)) (wrap64 (get m S0)) ∧ get m' S0 = wrap64 (get m Sp) ∧
    ∀ r, r ∉ temps → r ∉ [Sp; S0] → get m' r = get m r).
Proof.
  intros Hl Hf Hb Ha Hargs.
  destruct (stack_layout_spec f fr Hl) as (Hs & Hd & _ & Hk & Ho & Hseq & [Hlast Hfs] & _).
  { intros id size Hin. by destruct (ok_instrs _ Hf _ Hin). }
  assert (seq_counter_off (ipc fr) < formal_verify_count_off (ipc fr))
    by (unfold ipc_in_order in Ho; lia).
  unfold prologue. rewrite (no_folded_checks f (ok_instrs _ Hf)).
  eapply runs_app; [apply enter_saved; [lia|done]|]. intros m1 ((Sv1 & E1 & F1) & B1).
  eapply runs_app.
  { eapply (store_params_runs _ (f_params f) args arg_regs m1 (contents (vreg_stack_slots fr) m1)); try done.
    - by apply contents_represents.
    - pose proof (ok_params _ Hf) as Hp. rewrite !Forall_forall in *. intros p Hin.
      specialize (Hp p Hin). destruct p as [id| | |]; try done. exists id. split; [done|].
      apply Hd. unfold all_vreg_ids. rewrite !elem_of_union, !elem_of_list_to_set. left; left; right.
      apply list_elem_of_omap. by eexists.
    - apply (ok_arity _ Hf).
    - repeat constructor; unfold temps; set_solver.
    - intros i x a Ex Ea. rewrite F1; [by apply (Hargs i)| |].
      + apply list_elem_of_lookup_2 in Ex. unfold arg_regs in Ex. unfold temps. set_solver.
      + apply list_elem_of_lookup_2 in Ex. unfold arg_regs in Ex. set_solver. }
  intros m2 [R2 K2].
  eapply runs_mono; [|apply (ipc_prologue_above _ (seq_counter_off (ipc fr) - 8)); [done|lia..]].
  intros m3 A3. split; [|split; [|split]].
  - eexists. by eapply above_represents; [exact Hs|exact Hk|exact A3|].
  - eapply above_saved; [|exact A3|]; [lia|]. by eapply kept_saved.
  - rewrite (proj1 A3), (proj1 K2) by (unfold temps; set_solver). done.
  - intros r Hr Hn. rewrite (proj1 A3), (proj1 K2) by done. by apply F1.
Qed.

Definition entry (f : IRFunction) : string :=
  match f_blocks f with b :: _ => b_label b | [] => "" end.

Lemma first_label fr lower_call b bs e ef :
  Forall (block_ok (vreg_stack_slots fr)) (b :: bs) → NoDup (b_label <$> b :: bs) → good e →
  lower_blocks lower_call fr ∅ (b :: bs) e = Ret ef →
  label_offsets ef !! b_label b = Some (byte_offset e).
Proof.
  intros Hb Hnd G He. apply Forall_cons in Hb as [(Hk & _) Hb].
  rewrite fmap_cons in Hnd. apply NoDup_cons in Hnd as [Hn Hnd].
  cbn [lower_blocks] in He. apply outcome_bind_Ret in He as (e1 & He1 & He).
  destruct (lower_instrs_extends fr lower_call (b_label b) _ (mark (b_label b) e) Hk) as (e1' & E1 & X1 & L1).
  rewrite He1 in E1. injection E1 as <-.
  destruct (lower_blocks_spec fr lower_call bs e1 ef Hb Hnd) as (_ & Lo & _); [|done|].
  { eapply good_extends, X1. apply G. }
  rewrite Lo, L1 by done. simpl. apply lookup_insert_eq.
Qed.

Lemma function_blocks_ok f fr :
  function_ok f → stack_layout true f = Ret fr → Forall (block_ok (vreg_stack_slots fr)) (f_blocks f).
Proof.
  intros Hf Hl. destruct (stack_layout_spec f fr Hl) as (_ & Hd & _).
  { intros id size Hin. by destruct (ok_instrs _ Hf _ Hin). }
  pose proof (ok_ends _ Hf) as He. rewrite Forall_forall in *. intros b Hb.
  assert (∀ i, i ∈ instructions b → i ∈ f_blocks f ≫= instructions) as Hin
    by (intros i Hi; apply list_elem_of_bind; eauto).
  split; [apply Forall_forall; intros i Hi; by apply (ok_instrs _ Hf), Hin|]. split; [|by apply He].
  apply Forall_forall. intros i Hi id Hid. apply Hd. unfold all_vreg_ids.
  rewrite !elem_of_union, !elem_of_list_to_set. left; right.
  apply list_elem_of_bind. exists b. split; [|done]. apply list_elem_of_bind. by exists i.
Qed.


(** The greater of two numbers. *)
Definition max_block (label : string) (l : list IRInstr) : IRBlock :=
  {| b_label := label; instructions := l; terminator := T_Unreachable; predecessors := ∅;
     successors := ∅; source_line := 0 |}.
Definition max_example : IRFunction :=
  {| f_name := "max"; f_params := [Register 0; Register 1]; f_results := [Register 0];
     f_param_types := [I64; I64]; f_result_types := [I64]; f_vregs := ∅;
     f_blocks := [max_block "entry" [I_Cmp Cmp_SGt (Register 2) (Register 0) (Register 1) (Some I64);
                                     I_CondBranch (Register 2) "left" "right"];
                  max_block "left" [I_Ret [Register 0]]; max_block "right" [I_Ret [Register 1]]];
     f_source_file := ""; f_vreg_meta := ∅ |}.

Definition call_machine (a b : Z) : machine :=
  {| regs := λ r, match r with Ra => 64 | Sp => 2 ^ 20 | A0 => a | A1 => b | _ => 0 end;
     mem := λ _, 0 |}.

Lemma max_ok : function_ok max_example.
Proof.
  split.
  - intros i Hi. change (f_blocks max_example ≫= instructions) with
      [I_Cmp Cmp_SGt (Register 2) (Register 0) (Register 1) (Some I64);
       I_CondBranch (Register 2) "left" "right"; I_Ret [Register 0]; I_Ret [Register 1]] in Hi.
    repeat apply elem_of_cons in Hi as [->|Hi]; [by left|by right|right; by repeat constructor..|].
    by apply elem_of_nil in Hi.
  - apply Forall_cons. split; [by apply Exists_cons_tl, Exists_cons_hd|].
    repeat (apply Forall_cons; split; [apply Exists_cons_hd; by repeat constructor|]). done.
  - repeat constructor; set_solver.
  - by repeat constructor.
  - simpl. lia.
Qed.

Lemma max_runs r0 :
  run (M := word_machine {| nan64 := 0; nan32 := 0 |}) 3 (f_blocks max_example) "" "entry"
    (write (f_params max_example) [7; 12] r0) ∅ = Done (Returned [12]) ∅.
Proof.
  cbn [run f_blocks max_example max_block block_at]. simpl.
  unfold eval. rewrite !lookup_insert_eq, lookup_insert_ne, lookup_insert_eq by done. simpl.
  unfold eval. rewrite lookup_insert_ne, lookup_insert_eq by done. reflexivity.
Qed.

Lemma call_machine_wf a b : is_u64 a → is_u64 b → wf_machine (call_machine a b).
Proof. intros Ha Hb r. destruct r; try done; by unfold get; rewrite decide_False. Qed.

